(* ===== verification/_CoqProject ===== *)
-Q . S2P
Prelude.v
Pool.v
Descriptor.v
Lifecycle.v
SpanCopy.v
Profile.v
Retained.v
Grant.v
Ring.v
RingLogic.v
RingLedger.v
RingSafety.v
RingTheorems.v
RingSlots.v
Endpoint.v
Blocking.v
Vocab.v
Bpe.v
Unicode.v
Swar.v
Scan.v
Pattern.v
Tokenizer.v
Paragraph.v
BTree.v
SortBy.v
Doubles.v
CacheState.v
Classify.v
Passes.v
CanonicalJson.v
Scheduler.v
TokenCache.v
WindowCoverage.v
Utf8.v
Fusion.v
Packing.v
Lease.v
Payload.v
Selection.v
SelectionProofs.v
JsonString.v
Recipe.v
RecipeProofs.v
Routing.v
Wire.v
Publisher.v
FrameChannel.v
Boundary.v
BoundaryProofs.v
ParallelMap.v
Trigger.v
Citations.v
SummaryValidate.v
SummaryText.v
ChunkBuild.v
ChunkProofs.v
ChunkOutput.v
Scope.v
ScopeProofs.v
ScopeSound.v
Resolve.v
ResolveProofs.v
Anchor.v
InputsDigest.v
DigestProofs.v
