(* ===== verification/Prelude.v ===== *)
(** * Verification of the eidnara core

    eidnara keeps a coding agent's conversation within its model's context window. A host talks
    to a daemon over shared-memory rings; the daemon counts tokens, decides for every request
    whether the cached prompt prefix is replayed or rebuilt and which blocks of the conversation
    are reduced, identifies its inputs by digests of canonical JSON, and packs retrieved context
    under bounds. This development models those parts as executable definitions translated from
    the Rust source and proves what makes them correct.

    ** The program's parts and the files that model them

    Shared-memory transport ([src/crates/shm-transport/src]). A pool of fixed-size blocks lives in
    a mapping shared by a producer and a receiver; descriptors travel through a ring, blocks
    come back through completion cells and summary words. Neither side trusts the other.
    - [Pool]: pool.rs. The class table, block placement, class selection and mapping layout.
    - [Descriptor]: descriptor.rs. The wire records and their validation.
    - [Lifecycle]: lifecycle.rs. The close protocol as a step relation.
    - [SpanCopy]: lease.rs. Word-wise copies between private and shared memory.
    - [Profile]: profile.rs. Configuration, admission and the accounting of charges.
    - [Retained]: backend/retained.rs. The mapping, receiver records and payload leases.
    - [Grant]: backend/ring.rs. The setup grant, its byte encoding and the attach checks.
    - [Ring]: backend/ring.rs. Every operation of a ring handle, in a state-and-error monad over
      the shared memory, the handle and the writes the peer makes between the handle's accesses.
    - [RingLogic], [RingLedger], [RingSafety], [RingTheorems]: a Hoare logic for that monad, the
      block ledger invariant, and the theorems; [RingSlots]: which descriptor slots an operation writes.
    - [Endpoint]: backend/ring.rs, backend/retained.rs. Creating and attaching rings.
    - [Blocking]: backend/ring.rs, backend/sys.rs. Waiting on a doorbell until a deadline, and the two
      blocking loops, in a monad of calls that may not return.

    Host runtime ([src/crates/host-runtime/src]). Frames of many routes share one connection.
    - [Routing]: routing.rs. The route registry: every call under its lock is one step.
    - [Wire]: wire.rs. The frame envelope and the frame encoders.
    - [Publisher]: ring_transport.rs. The publication owner of an endpoint, on the ring of [Ring].
    - [FrameChannel]: frame_channel.rs. Admission to the outbound queue and its final drain, as
      interleaved accesses to tokens, a lock and a queue that is an interface.

    Tokenizer ([src/crates/tokenizer/src]).
    - [Vocab]: bpe.rs, build.rs. The vocabulary blob and the packed lookup tables.
    - [Bpe]: bpe.rs. Both byte-pair merge engines.
    - [Unicode], [Swar], [Scan]: scan.rs, unicode_tables.rs. Character classes, the word-at-a-time
      class masks and the hand-written pre-tokenizer; [Pattern]: the regular expression it
      replaces, as the reference.
    - [Tokenizer], [Paragraph]: lib.rs. Encoding, counting, paragraph cuts and window anchors.
    - [TokenCache]: [src/crates/daemon/src/token_cache.rs]. The two-generation cache of counts, against
      the interface of an estimator that the tokenizer discharges.

    Prompt-cache stability ([src/crates/cache-stability/src/lib.rs],
    [src/crates/context-core/src/lib.rs], [src/crates/daemon/src/transform.rs]).
    - [CacheState]: the freeze-and-replay core, one [step] per pass.
    - [Classify]: the pass classifier, the shape of a persisted frozen set, the must-not-wait
      gates and the plan of a transform request.
    - [Passes]: the units of a frozen set, what each pass renders, keeps and prunes, and
      [run_pass], which composes validation, plan, pass and cache core.
    - [Scheduler]: [src/crates/daemon/src/scheduler.rs]. Whether a pass runs, from context pressure
      and time, over the standard library's executable binary64; what is persisted between passes.
    - [WindowCoverage]: [src/crates/daemon/src/window_coverage.rs]. What a declared anchor means for a
      submitted window, the ordinals of its messages, and block ids.
    - [Payload], [Selection]: [src/crates/daemon/src/selection.rs], tool_vocabulary.rs. Which blocks
      a pass reduces and what replaces them: tool arcs, the selectors, the reasoning guards and the
      merge, with the iteration order of hash maps as a parameter; [SelectionProofs]: its theorems.

    Summarizing old conversation ([src/crates/daemon/src/boundary.rs], parallel_map.rs, chunk_text.rs,
    history_summarizer_chunk.rs, history_summarizer_citations.rs, history_summarizer_validate.rs).
    - [Boundary]: the split of a session into a head that may be summarized and a protected tail, and
      the cut of a manual wrapup, over the doubles of [Doubles]; [BoundaryProofs]: its theorems.
    - [ParallelMap]: the worker-pool map. [Trigger]: the chunk builder, which consumes it, and the
      decision whether a summarizing run fires.
    - [Citations]: the aliases a summary may cite, the citation syntax, and the checks of facts and claims.
    - [SummaryValidate]: whether the segments a model returned may be stored: coverage, healing of gaps and
      tool calls, mapping to raw messages, and what is published.
    - [SummaryText]: what one message shows the summarizer (also tool_outcome.rs, tool_vocabulary.rs).
    - [ChunkBuild]: the chunk a firing summarizes: blocks, aliases, identities, the presented text, the
      retry ladder with its placeholder, and the assembly of a firing; [ChunkProofs], [ChunkOutput]: its
      theorems, proved against the interface [PartSound] that [SummaryText] discharges.

    Responses ([src/crates/daemon/src/edit_recipe.rs], json_string.rs, dispatch.rs).
    - [JsonString]: the word-at-a-time JSON string encoder, its counting twin and the measured size
      of a value, against an interface that states what serde_json's writer writes.
    - [Recipe]: building, serializing, parsing and applying the recipe a transform response
      carries; [RecipeProofs]: its theorems.

    Applicability of stored knowledge ([src/crates/kernel/src/scope.rs],
    [src/crates/kernel/src/anchor.rs], [src/crates/kernel/src/applicability]: resolve.rs, engine.rs, checkout.rs).
    - [Scope]: scopes decoded from stored rows, version readings and intervals, and the predicates that
      match, compare and relate scopes; [ScopeProofs], [ScopeSound]: its theorems, against the interface of
      a semantic version library and of a commit graph.
    - [Resolve]: whether an anchored commit is current in a checkout: the ancestry walk, patch identities,
      the candidate window and the fallback rungs, under a budget; [ResolveProofs]: its theorems, against
      what the git library documents. The ladder discharges the graph interface of the scopes.
    - [Anchor]: anchor rows, their decoding and the conditions that need no repository.
    - [InputsDigest]: applicability/engine.rs. The size checks and the digest that keys cached
      classifications; [DigestProofs]: its theorems.

    Leases ([src/crates/lease/src/lib.rs]).
    - [Lease]: keys and file names, the epoch file with writes that stop after any byte, and
      acquisition and release as steps over the live holders of one key.

    Canonical JSON ([src/crates/context-core/src/canonical_json.rs]).
    - [BTree]: the standard library's ordered map with string keys; [CanonicalJson]: the encoder,
      its numbers over exact doubles, and the digest with the hash as a parameter.

    Retrieval ([src/crates/retrieval/src/fusion], [src/crates/retrieval/src/packing]).
    - [SortBy]: comparison functions and sorting; [Doubles]: [f64] with its total order;
      [Utf8]: validation of byte strings.
    - [Fusion]: one lane's ranking, declared lanes, parameters, reciprocal-rank fusion.
    - [Packing]: merging selected spans into groups, admission and reservation of required context,
      the skip-and-continue scan and the bounds of the optional set.

    ** How state and effects are modelled

    A struct is a record, an enum an inductive type, [Result] the type [result] below with its
    bind, panics a separate outcome where the code could panic. Integers are [Z] with the width
    written out where overflow matters; bytes are [Z] below 256 or characters of a [string].
    Shared memory is a function from addresses to bytes that the peer may rewrite between any two
    accesses of the modelled side, following a list of writes the theorems quantify over. What each
    doorbell system call returns is a list of answers consumed by the code's own retry loops; the
    clock and [poll] follow a timeline, on which a poll waits as long as its timeout says and a poll
    without one may never return. Incarnations, the hash function, the store's answers and the
    rendered text are arguments.

    ** What the theorems show

    - Ring: no operation panics whatever the peer writes; blocks are conserved; no operation
      overwrites an unconsumed descriptor, and a commit writes exactly the next one; unreturned payloads
      never alias; the exact outcome of reserving, committing and receiving; quarantine is terminal over
      every later operation; attaching checks what it relies on; blocking calls return, in time.
    - Pool, records, copies, accounting: layouts are disjoint and in bounds and agree with a
      reference; validation accepts exactly the intended records; copies equal byte copies;
      charges are conserved and never exceed the limits; grants encode and decode inversely.
    - Host runtime: route handles are never reused, route-gone happens at most once, no close call or
      bind appoints a second close owner (the forced drain may, before route-gone), a closed route and a frozen registry admit nothing more, and a reservation fails only
      for its stated reasons; headers decode exactly from their encodings, and frames of reserved
      routes are accepted; the publisher never panics whatever the peer writes, publishes one
      descriptor a frame, keeps every stream in order and passes no ordinary frame; once the final
      drain finds nothing, no admitted frame is lost.
    - Tokenizer: lookups are exact; both merge engines equal the reference merge order; the
      scanner returns the leftmost-first matches of the pattern; encoding is lossless; counts add
      up over paragraphs.
    - Cache: deferred passes replay the same bytes; a Soft pass keeps the baseline; a Hard pass
      drains deferred work; reachable states are well formed and refusals exact; a session's
      frozen set keeps its recognized shape; frozen reductions never change; a lost boundary is
      rebuilt by the second pass; the summarizer's veto holds ordinary passes only; a pass that is due
      and put off in a tool call runs when the call completes; the drain latch is always justified.
    - Selection: decisions touch each block once and only blocks that are live, unfrozen,
      unprotected and reducible; tool arcs are reduced whole; hash-map order does not show, also in
      the sum of doubles an emergency reads, exact below 2^53 bytes; an
      emergency evicts the least that meets its target.
    - Summarizing: the head and the tail are cut between complete tool calls; a live prompt stays
      protected; a wrapup keeps what it was asked to; a run consumes only before the tail, and fires
      for every forced cut and in the force band; the estimate's blocks cover a prefix of the eligible
      messages exactly, and the worker pool does not show; validated segments extend the stored history in
      order, cover every present message up to their floor and split no completed tool call; kept facts
      and claims cite bytes of messages inside them, and rendered citations read back; an assembled firing
      covers exactly the next messages of the session, so that validation can only fault the model's
      answer; every alias that stays offered, truncated or not, was shown whole; and an answer that reads as
      the placeholder's segment is accepted when the messages around open calls are there.
    - Applicability: scopes decode the same whatever the order of their rows; matching, subsumption, overlap
      and equivalence always answer and answer only what holds of every setting, whatever redacted terms
      meant; an anchor is judged current only by an ancestor of the head or by the one commit that replays
      it, gone only when no reachable commit replays it, and without obstacles ancestry is decided; patch
      identities do not depend on the order of files, and the budget only ever withholds an answer; the
      digest of a candidate's inputs is injective among anchors that read the same part of the query, and
      only among those.
    - Responses: the fast encoder and counter equal the byte-wise ones; measured sizes are the
      lengths of what serde_json writes, its escapes stated on their own; any recipe is applied safely and exactly; a built recipe, sent as JSON
      and applied by the client, rebuilds the output.
    - Lease: an exclusive holder is alone, granted epochs strictly increase, and a persist that
      stops anywhere never lowers the epoch.
    - Token cache and windows: a cached count is the tokenizer's count on every path; an anchor's
      end message heads the processed window; ordinals are dense over live messages.
    - Retrieval: a lane ranking depends on the set of its hits only; fusion is exact; grouping
      places every occurrence once and holds exactly the selected bytes; admission is exact at
      every bound.
    - Canonical JSON: numbers are accepted exactly when they denote an integer below 2^53; the encoding
      is read back by a reference parser of the JSON grammar; equal texts mean equal values.

    ** Bounds and fuel

    Recursion that is not structural takes fuel, and the theorems show it is enough: 64 for the
    bits of a word; the length of the outstanding list for a reclaim scan; one more than the
    clock readings up to the deadline for the blocking loops ([blocking_calls_return]); the answers left
    for a doorbell's retry loop, which are finitely many interruptions; the number of bytes for merging
    ([merge_scan]), four times that for the heap engine, the byte length for piece iteration and
    chunking and one more for the paragraph loops; 20 digits for a 64-bit decimal; the text length
    for the reference JSON parser; one more than the length for the string loops and twice the
    number of values for the nesting check, both shown to be enough; 65536 channels for the
    registry's scan; the pending frames for a pump; the code's own bounds for the fences of a boundary,
    shown to reach a fixed point, and the number of indices for its token search
    ([search_loop_spec]); one round per tool arc and one more for healing a segment's end
    ([terminal_loop_closes]) or a placeholder's end ([placeholder_loop_closed]); two more than the UTF-16
    length for the truncation search ([truncate_loop_enough]); the length of an item for its citations; the items for the batches of the map; 17 rounds for the occupied dimensions of a scope
    ([low_bits_spec]); the code's own cap of 2^20 commits for the ancestry walk, which returns whatever the history
    ([walk_decides] shows when it is enough); the length of a model id for its candidate keys
    ([lookup_loop_enough]).

    ** Not modelled

    System calls, descriptor passing, sockets, files, SQLite and threads (setup_auth.rs,
    backend/sys.rs, the asynchronous tasks of host-runtime and its byte budget, storage, memory-store, kernel's transactions, lease's locks);
    test harnesses and evaluation tooling; rendering of the prompt regions, which supplies inputs
    of the modelled passes; the retrieval lanes' queries and row decoding; the secret scanner and
    redaction; the overflow detector, decay curves and the text a message contributes to a summary,
    which rest on a regular-expression library and on a transcendental power; the summarizer's prompts
    and runs, and the parser of its output, which rests on regular expressions too.

    ** What is left

    The largest parts outside the development are the daemon's request handling and rendering, the stores
    and the rest of the kernel, whose logic is carried by SQLite statements, and the asynchronous host runtime. Of the
    parts modelled, an end-to-end delivery theorem for two ring handles over one mapping and the redaction
    of persisted text would come next.

    This file holds the shared notation, machine integers, fallible computations and their
    lemmas and automation. *)
From stdpp Require Export base option list numbers.
From stdpp Require Export tactics.
From Stdlib Require Export ZArith Lia.

Open Scope Z_scope.

(** ** Fallible computations

    [result E A] is Rust's [Result<A, E>]; the bind is the [?] operator. *)
Inductive result (E A : Type) : Type :=
| Ok (a : A)
| Err (e : E).
Arguments Ok {E A} a.
Arguments Err {E A} e.

#[global] Instance result_ret {E} : MRet (result E) := fun A a => Ok a.

#[global] Instance result_bind {E} : MBind (result E) := fun A B f m =>
  match m with Ok a => f a | Err e => Err e end.

#[global] Instance result_eq_dec `{EqDecision E, EqDecision A} : EqDecision (result E A).
Proof. solve_decision. Defined.

(** [Option::ok_or], [Result::map_err], [Result::ok]. *)
Definition ok_or {E A} (o : option A) (e : E) : result E A :=
  match o with Some a => Ok a | None => Err e end.

Definition map_err {E F A} (f : E -> F) (r : result E A) : result F A :=
  match r with Ok a => Ok a | Err e => Err (f e) end.

Definition is_ok {E A} (r : result E A) : bool :=
  match r with Ok _ => true | Err _ => false end.

(** ** Machine integers

    Unsigned integers are [Z] values in [0 .. 2^w - 1]; [usize] is 64 bits wide. *)
Definition u8_MAX : Z := 255.
Definition u32_MAX : Z := 4294967295.
Definition u64_MAX : Z := 18446744073709551615.

Definition is_u8 (x : Z) : Prop := 0 <= x <= u8_MAX.
Definition is_u32 (x : Z) : Prop := 0 <= x <= u32_MAX.
Definition is_u64 (x : Z) : Prop := 0 <= x <= u64_MAX.

(** [checked_add] and friends at a given maximum; operands are non-negative. *)
Definition checked_add (max a b : Z) : option Z :=
  if a + b <=? max then Some (a + b) else None.
Definition checked_mul (max a b : Z) : option Z :=
  if a * b <=? max then Some (a * b) else None.
Definition checked_sub (a b : Z) : option Z :=
  if b <=? a then Some (a - b) else None.
Definition saturating_sub (a b : Z) : Z := Z.max 0 (a - b).
Definition wrapping_add (max a b : Z) : Z := (a + b) mod (max + 1).

(** [u32::try_from] of a 64-bit value. *)
Definition try_u32 (x : Z) : option Z := if x <=? u32_MAX then Some x else None.

(** Bitwise complement at 64 bits and [is_power_of_two]. *)
Definition not_u64 (x : Z) : Z := Z.lxor x u64_MAX.
Definition is_power_of_two (x : Z) : bool := (0 <? x) && (x =? 2 ^ Z.log2 x).
Definition is_multiple_of (x y : Z) : bool := x mod y =? 0.

(** [u64::trailing_zeros] of a nonzero word. *)
Fixpoint trailing_zeros (fuel : nat) (i : Z) (w : Z) : Z :=
  match fuel with
  | O => i
  | S fuel => if Z.testbit w i then i else trailing_zeros fuel (i + 1) w
  end.

(** ** Little-endian integers over byte lists; a byte is a [Z] below 256. *)
Fixpoint le_bytes (n : nat) (x : Z) : list Z :=
  match n with
  | O => []
  | S n => x mod 256 :: le_bytes n (x / 256)
  end.

Fixpoint from_le_bytes (bs : list Z) : Z :=
  match bs with
  | [] => 0
  | b :: bs => b + 256 * from_le_bytes bs
  end.

(** [bytes[offset .. offset + n]] of a list. *)
Definition slice {A} (offset n : nat) (l : list A) : list A := take n (drop offset l).

(** [bytes.get(start .. start + n)]. *)
Definition get_range {A} (l : list A) (start n : nat) : option (list A) :=
  if (start + n <=? length l)%nat then Some (slice start n l) else None.

(** Sum of a list of integers. *)
Definition zsum (l : list Z) : Z := foldr Z.add 0 l.

(** ** Automation *)
Create HintDb machine.
#[export] Hint Unfold u8_MAX u32_MAX u64_MAX is_u8 is_u32 is_u64 : machine.

Ltac munfold := unfold is_u8, is_u32, is_u64, u8_MAX, u32_MAX, u64_MAX in *.
Ltac mlia := munfold; lia.

(** Case analysis on the boolean comparison an [if] of a hypothesis or of the goal tests. *)
Ltac bcase_on b :=
  lazymatch b with
  | ?x <=? ?y => destruct (Z.leb_spec x y)
  | ?x <? ?y => destruct (Z.ltb_spec x y)
  | ?x =? ?y => destruct (Z.eqb_spec x y)
  | (?x <=? ?y)%nat => destruct (Nat.leb_spec x y)
  | (?x <? ?y)%nat => destruct (Nat.ltb_spec x y)
  | (?x =? ?y)%nat => destruct (Nat.eqb_spec x y)
  | negb ?c => bcase_on c
  | ?c && _ => bcase_on c
  | ?c || _ => bcase_on c
  | _ => let E := fresh "Hb" in destruct b eqn:E
  end.

Ltac bcase :=
  match goal with
  | H : context [if ?b then _ else _] |- _ => bcase_on b
  | |- context [if ?b then _ else _] => bcase_on b
  end; cbn [negb andb orb] in *.

(** Inversion of a chain of binds that returned [Ok] or [Some]. *)
Ltac inv_bind :=
  repeat match goal with
  | H : mbind _ _ = Ok _ |- _ =>
      unfold mbind, result_bind in H
  | H : match ?m with Ok _ => _ | Err _ => Err _ end = Ok _ |- _ =>
      let E := fresh "Hok" in destruct m eqn:E; [|discriminate H]
  | H : mbind _ _ = Some _ |- _ =>
      unfold mbind, option_bind in H
  | H : match ?m with Some _ => _ | None => None end = Some _ |- _ =>
      let E := fresh "Hsome" in destruct m eqn:E; [|discriminate H]
  | H : ok_or ?o _ = Ok _ |- _ =>
      let E := fresh "Hsome" in unfold ok_or in H; destruct o eqn:E; [|discriminate H]
  | H : map_err _ ?r = Ok _ |- _ =>
      let E := fresh "Hok" in unfold map_err in H; destruct r eqn:E; [|discriminate H]
  | H : Ok _ = Ok _ |- _ => injection H as H; try subst
  | H : Some _ = Some _ |- _ => injection H as H; try subst
  end.

(** ** Lemmas on checked arithmetic *)
Lemma checked_add_Some max a b c :
  checked_add max a b = Some c <-> c = a + b /\ a + b <= max.
Proof. unfold checked_add. bcase; naive_solver lia. Qed.

Lemma checked_mul_Some max a b c :
  checked_mul max a b = Some c <-> c = a * b /\ a * b <= max.
Proof. unfold checked_mul. bcase; naive_solver lia. Qed.

Lemma checked_sub_Some a b c :
  checked_sub a b = Some c <-> c = a - b /\ b <= a.
Proof. unfold checked_sub. bcase; naive_solver lia. Qed.

Lemma checked_add_ok max a b : a + b <= max -> checked_add max a b = Some (a + b).
Proof. intros. by apply checked_add_Some. Qed.

Lemma checked_mul_ok max a b : a * b <= max -> checked_mul max a b = Some (a * b).
Proof. intros. by apply checked_mul_Some. Qed.

Lemma checked_sub_ok a b : b <= a -> checked_sub a b = Some (a - b).
Proof. intros. by apply checked_sub_Some. Qed.

Lemma checked_add_None max a b : checked_add max a b = None <-> max < a + b.
Proof. unfold checked_add. bcase; naive_solver lia. Qed.

Lemma checked_sub_None a b : checked_sub a b = None <-> a < b.
Proof. unfold checked_sub. bcase; naive_solver lia. Qed.

Lemma try_u32_Some x y : try_u32 x = Some y <-> y = x /\ x <= u32_MAX.
Proof. unfold try_u32. bcase; naive_solver lia. Qed.

Lemma is_power_of_two_spec x :
  is_power_of_two x = true <-> exists k, 0 <= k /\ x = 2 ^ k.
Proof.
  unfold is_power_of_two. rewrite andb_true_iff, Z.ltb_lt, Z.eqb_eq. split.
  - intros [Hpos Hx]. exists (Z.log2 x). split; [apply Z.log2_nonneg | done].
  - intros (k & Hk & ->). split; [by apply Z.pow_pos_nonneg; lia|].
    by rewrite Z.log2_pow2.
Qed.

(** Clearing the low [k] bits of a 64-bit value rounds it down to a multiple of [2^k]. *)
Lemma land_not_mask x k :
  0 <= x <= u64_MAX -> 0 <= k < 64 ->
  Z.land x (not_u64 (2 ^ k - 1)) = x / 2 ^ k * 2 ^ k.
Proof.
  intros Hx Hk.
  rewrite <- Z.shiftr_div_pow2, <- Z.shiftl_mul_pow2 by lia.
  rewrite <- Z.ldiff_ones_r by lia.
  unfold not_u64. change u64_MAX with (Z.ones 64) in *.
  replace (2 ^ k - 1) with (Z.ones k) by (rewrite Z.ones_equiv; lia).
  apply Z.bits_inj'. intros n Hn.
  rewrite Z.land_spec, Z.lxor_spec, Z.ldiff_spec.
  destruct (Z.ltb_spec n 64).
  - rewrite (Z.ones_spec_low 64) by lia. by rewrite xorb_true_r.
  - assert (Z.testbit x n = false) as ->; [|done].
    rewrite Z.ones_equiv in Hx.
    destruct (Z.eq_dec x 0) as [->|Hx0]; [apply Z.bits_0|].
    apply Z.bits_above_log2; [lia|].
    apply Z.log2_lt_pow2; [lia|].
    assert (2 ^ 64 <= 2 ^ n) by (apply Z.pow_le_mono_r; lia). lia.
Qed.

(** ** Lemmas on little-endian encodings *)
Lemma length_le_bytes n x : length (le_bytes n x) = n.
Proof. revert x. induction n; intros; simpl; auto. Qed.

Lemma from_le_bytes_le_bytes n x :
  0 <= x < 256 ^ Z.of_nat n -> from_le_bytes (le_bytes n x) = x.
Proof.
  revert x. induction n as [|n IH]; intros x Hx.
  - simpl in *. lia.
  - cbn [le_bytes from_le_bytes]. rewrite IH.
    + pose proof (Z.div_mod x 256). lia.
    + rewrite Nat2Z.inj_succ, Z.pow_succ_r in Hx by lia.
      split; [apply Z.div_pos; lia|]. apply Z.div_lt_upper_bound; lia.
Qed.

Lemma le_bytes_from_le_bytes bs :
  Forall is_u8 bs -> le_bytes (length bs) (from_le_bytes bs) = bs.
Proof.
  induction 1 as [|b bs Hb Hbs IH]; [done|]. cbn [length le_bytes from_le_bytes].
  assert (b mod 256 = b) by (apply Z.mod_small; mlia).
  rewrite (Z.mul_comm 256), Z.mod_add, Z.div_add by lia.
  rewrite (Z.div_small b) by mlia. rewrite Z.add_0_l, IH. congruence.
Qed.

Lemma from_le_bytes_range bs :
  Forall is_u8 bs -> 0 <= from_le_bytes bs < 256 ^ Z.of_nat (length bs).
Proof.
  induction 1 as [|b bs Hb Hbs IH]; [simpl; lia|].
  cbn [length from_le_bytes]. rewrite Nat2Z.inj_succ, Z.pow_succ_r by lia. mlia.
Qed.

Lemma le_bytes_u8 n x : Forall is_u8 (le_bytes n x).
Proof.
  revert x. induction n; intros x; simpl; constructor; auto.
  pose proof (Z.mod_pos_bound x 256). mlia.
Qed.

Lemma from_le_bytes_app bs bs' :
  from_le_bytes (bs ++ bs') = from_le_bytes bs + 256 ^ Z.of_nat (length bs) * from_le_bytes bs'.
Proof.
  induction bs as [|b bs IH]; [simpl; lia|].
  cbn [app from_le_bytes length]. rewrite IH, Nat2Z.inj_succ, Z.pow_succ_r by lia. lia.
Qed.

Lemma from_le_bytes_split k bs :
  Forall is_u8 bs -> (k <= length bs)%nat ->
  from_le_bytes (drop k bs) = from_le_bytes bs / 256 ^ Z.of_nat k /\
  from_le_bytes (take k bs) = from_le_bytes bs mod 256 ^ Z.of_nat k.
Proof.
  intros Hbs Hk.
  pose proof (from_le_bytes_range (take k bs)) as Hr. rewrite length_take, Nat.min_l in Hr by done.
  specialize (Hr ltac:(by apply Forall_take)).
  pose proof (from_le_bytes_app (take k bs) (drop k bs)) as Happ.
  rewrite take_drop, length_take, Nat.min_l, Z.add_comm in Happ by done.
  split; [apply (Z.div_unique _ _ _ (from_le_bytes (take k bs)))
         |apply (Z.mod_unique _ _ (from_le_bytes (drop k bs)))]; lia.
Qed.

Lemma lor_disjoint a b k : 0 <= k -> 0 <= a < 2 ^ k -> 0 <= b -> Z.lor a (b * 2 ^ k) = a + b * 2 ^ k.
Proof.
  intros Hk Ha Hb. pose proof (Z.add_lor_land a (b * 2 ^ k)) as Hsum.
  assert (Z.land a (b * 2 ^ k) = 0) as E; [|lia].
  apply Z.bits_inj'. intros n Hn. rewrite Z.land_spec, Z.bits_0, <- Z.shiftl_mul_pow2 by lia.
  destruct (Z.ltb_spec n k).
  - rewrite Z.shiftl_spec_low by lia. apply andb_false_r.
  - rewrite <- (Z.mod_small a (2 ^ k)), Z.mod_pow2_bits_high by lia. done.
Qed.

(** ** Lemmas on sums *)
Lemma zsum_app l1 l2 : zsum (l1 ++ l2) = zsum l1 + zsum l2.
Proof. induction l1; simpl; lia. Qed.

Lemma zsum_nonneg l : Forall (fun x => 0 <= x) l -> 0 <= zsum l.
Proof. induction 1; simpl; lia. Qed.

#[global] Instance zsum_Permutation : Proper ((≡ₚ) ==> (=)) zsum.
Proof. induction 1; unfold zsum in *; cbn; lia. Qed.

Lemma zsum_elem n l : Forall (fun x => 0 <= x) l -> n ∈ l -> n <= zsum l.
Proof.
  induction 1 as [|m l Hm Hl IH]; [by intros ?%not_elem_of_nil|]. pose proof (zsum_nonneg l Hl). unfold zsum in *. cbn [foldr].
  intros [->|Hin]%elem_of_cons; [lia|]. specialize (IH Hin). lia.
Qed.

Lemma zsum_replicate n x : zsum (replicate n x) = Z.of_nat n * x.
Proof. induction n; [done|]. cbn [replicate zsum foldr] in *. unfold zsum in IHn. lia. Qed.

(** What holds of the bytes by checking each. *)
Lemma byte_check (P : Z -> bool) b : forallb P (seqZ 0 256) = true -> 0 <= b < 256 -> P b = true.
Proof. rewrite forallb_forall. intros H Hb. apply H, list_elem_of_In, elem_of_seqZ. lia. Qed.

Lemma length_slice {A} o n (l : list A) :
  (o + n <= length l)%nat -> length (slice o n l) = n.
Proof. intros. unfold slice. rewrite length_take, length_drop. lia. Qed.

Lemma get_range_Some {A} (l : list A) start n : (start + n <= length l)%nat -> get_range l start n = Some (slice start n l).
Proof. intros H. unfold get_range. bcase; [done|lia]. Qed.

Lemma slice_app {A} (l : list A) o n m : slice o (n + m) l = slice o n l ++ slice (o + n) m l.
Proof. unfold slice. by rewrite <- take_take_drop, drop_drop. Qed.
