(* ===== verification/Pool.v ===== *)
(** * Pool: fixed payload-pool geometry and mapping layout
      (crates/shm-transport/src/pool.rs). *)
From S2P Require Import Prelude.

(** ** Constants *)
Definition MAX_FRAME_BYTES : Z := 64 * 1024 * 1024.
Definition BLOCK_ALIGN : Z := 4096.
Definition ORDINARY_CLASSES : nat := 5.
Definition MAX_BLOCKS : Z := 4096.
Definition MAX_DESCRIPTORS : Z := 4096.
Definition CLASS_COUNT : nat := 7.
Definition CACHELINE : Z := 128.
Definition DESCRIPTOR_SLOT_BYTES : Z := 64.
Definition LIFECYCLE_PAGE_BYTES : Z := 256.
Definition RETURN_WORD_BITS : Z := 64.
Definition WIRE_HEADER_BYTES : Z := 20.
Definition SIZE_OF_U64 : Z := 8.
Definition SIZE_OF_U32 : Z := 4.

(** ** Data *)
Inductive Inventory := InvOrdinary | InvControl | InvTerminal.

Record ClassSpec := mkClassSpec { cs_block_bytes : Z; cs_count : Z }.

Definition ClassSpec_body_capacity (c : ClassSpec) : Z :=
  saturating_sub (cs_block_bytes c) WIRE_HEADER_BYTES.

Inductive BlockClass := Ordinary (index : nat) | Control | Terminal.

Definition class_inventory (c : BlockClass) : Inventory :=
  match c with
  | Ordinary _ => InvOrdinary
  | Control => InvControl
  | Terminal => InvTerminal
  end.

Definition class_index (c : BlockClass) : nat :=
  match c with
  | Ordinary index => index
  | Control => ORDINARY_CLASSES
  | Terminal => (ORDINARY_CLASSES + 1)%nat
  end.

Definition class_from_index (index : nat) : option BlockClass :=
  if (index <? ORDINARY_CLASSES)%nat then Some (Ordinary index)
  else if (index =? ORDINARY_CLASSES)%nat then Some Control
  else if (index =? ORDINARY_CLASSES + 1)%nat then Some Terminal
  else None.

Inductive GeometryError :=
| ZeroDescriptors
| TooManyDescriptors
| ClassesNotAscending
| EmptyClass
| InvalidBlockBytes
| TooManyBlocks
| ArithmeticOverflow.

Record PoolGeometry := mkGeometry {
  pg_ordinary_descriptors : Z;
  pg_reserved_descriptors : Z;
  pg_classes : list ClassSpec;
}.

Record BlockPlacement := mkPlacement {
  bp_class : BlockClass;
  bp_offset : Z;
  bp_block_bytes : Z;
}.

Definition BlockPlacement_body_capacity (p : BlockPlacement) : Z :=
  saturating_sub (bp_block_bytes p) WIRE_HEADER_BYTES.

#[global] Instance Inventory_eq_dec : EqDecision Inventory.
Proof. solve_decision. Defined.
#[global] Instance ClassSpec_eq_dec : EqDecision ClassSpec.
Proof. solve_decision. Defined.
#[global] Instance BlockClass_eq_dec : EqDecision BlockClass.
Proof. solve_decision. Defined.
#[global] Instance GeometryError_eq_dec : EqDecision GeometryError.
Proof. solve_decision. Defined.
#[global] Instance PoolGeometry_eq_dec : EqDecision PoolGeometry.
Proof. solve_decision. Defined.
#[global] Instance BlockPlacement_eq_dec : EqDecision BlockPlacement.
Proof. solve_decision. Defined.

(** ** Geometry operations *)
Definition check_class (c : ClassSpec) : result GeometryError unit :=
  if cs_count c =? 0 then Err EmptyClass
  else if (cs_block_bytes c =? 0)
          || negb (is_multiple_of (cs_block_bytes c) BLOCK_ALIGN)
          || (cs_block_bytes c <=? WIRE_HEADER_BYTES)
  then Err InvalidBlockBytes
  else Ok tt.

(** The loop of [new] over the ordinary classes; [previous] is the loop's variable. *)
Fixpoint check_ordinary (previous : Z) (ordinary : list ClassSpec) : result GeometryError unit :=
  match ordinary with
  | [] => Ok tt
  | class :: rest =>
      _ ← check_class class;
      if cs_block_bytes class <=? previous then Err ClassesNotAscending
      else check_ordinary (cs_block_bytes class) rest
  end.

(** [try_fold] of [new] over the block counts. *)
Fixpoint sum_counts (sum : Z) (classes : list ClassSpec) : option Z :=
  match classes with
  | [] => Some sum
  | class :: rest => sum' ← checked_add u64_MAX sum (cs_count class); sum_counts sum' rest
  end.

(** [try_fold] of [arena_bytes]. *)
Fixpoint sum_regions (sum : Z) (classes : list ClassSpec) : option Z :=
  match classes with
  | [] => Some sum
  | class :: rest =>
      region ← checked_mul u64_MAX (cs_block_bytes class) (cs_count class);
      sum' ← checked_add u64_MAX sum region;
      sum_regions sum' rest
  end.

Definition arena_bytes (g : PoolGeometry) : result GeometryError Z :=
  ok_or (sum_regions 0 (pg_classes g)) ArithmeticOverflow.

Definition PoolGeometry_new (ordinary_descriptors reserved_descriptors : Z)
    (ordinary : list ClassSpec) (control terminal : ClassSpec) : result GeometryError PoolGeometry :=
  if ordinary_descriptors =? 0 then Err ZeroDescriptors
  else
    let descriptors := ordinary_descriptors + reserved_descriptors in
    if MAX_DESCRIPTORS <? descriptors then Err TooManyDescriptors
    else
      _ ← check_ordinary 0 ordinary;
      _ ← check_class control;
      _ ← check_class terminal;
      let geometry := {|
        pg_ordinary_descriptors := ordinary_descriptors;
        pg_reserved_descriptors := reserved_descriptors;
        pg_classes := ordinary ++ [control; terminal];
      |} in
      blocks ← ok_or (sum_counts 0 (pg_classes geometry)) ArithmeticOverflow;
      if MAX_BLOCKS <? blocks then Err TooManyBlocks
      else
        _ ← arena_bytes geometry;
        Ok geometry.

Definition descriptor_depth (g : PoolGeometry) : Z :=
  wrapping_add u32_MAX (pg_ordinary_descriptors g) (pg_reserved_descriptors g).

(** [self.classes[class.index()]]; an index past the array would panic. *)
Definition geometry_class (g : PoolGeometry) (c : BlockClass) : option ClassSpec :=
  pg_classes g !! class_index c.

Definition sum_u32 (cs : list ClassSpec) : Z :=
  foldl (fun sum c => wrapping_add u32_MAX sum (cs_count c)) 0 cs.

Definition block_count (g : PoolGeometry) : Z := sum_u32 (pg_classes g).

Definition first_block (g : PoolGeometry) (c : BlockClass) : Z :=
  sum_u32 (take (class_index c) (pg_classes g)).

(** [(0..ORDINARY_CLASSES).find(..)]: the first index from [index] whose class holds the body. *)
Fixpoint find_class (index : nat) (body_bytes : Z) (cs : list ClassSpec) : option nat :=
  match cs with
  | [] => None
  | c :: rest =>
      if body_bytes <=? ClassSpec_body_capacity c then Some index
      else find_class (S index) body_bytes rest
  end.

Definition ordinary_class_for (g : PoolGeometry) (body_bytes : Z) : option BlockClass :=
  Ordinary <$> find_class 0 body_bytes (take ORDINARY_CLASSES (pg_classes g)).

Definition class_for (g : PoolGeometry) (inventory : Inventory) (body_bytes : Z) : option BlockClass :=
  match inventory with
  | InvOrdinary => ordinary_class_for g body_bytes
  | InvControl =>
      c ← geometry_class g Control;
      if body_bytes <=? ClassSpec_body_capacity c then Some Control else None
  | InvTerminal =>
      c ← geometry_class g Terminal;
      if body_bytes <=? ClassSpec_body_capacity c then Some Terminal else None
  end.

(** The loop of [placement]; [first] and [offset] are its variables. *)
Fixpoint placement_loop (index : nat) (first offset id : Z) (cs : list ClassSpec)
    : option BlockPlacement :=
  match cs with
  | [] => None
  | class :: rest =>
      limit ← checked_add u32_MAX first (cs_count class);
      if id <? limit then
        kind ← class_from_index index;
        scaled ← checked_mul u64_MAX (id - first) (cs_block_bytes class);
        start ← checked_add u64_MAX offset scaled;
        Some {| bp_class := kind; bp_offset := start; bp_block_bytes := cs_block_bytes class |}
      else
        first' ← checked_add u32_MAX first (cs_count class);
        region ← checked_mul u64_MAX (cs_block_bytes class) (cs_count class);
        offset' ← checked_add u64_MAX offset region;
        placement_loop (S index) first' offset' id rest
  end.

Definition placement (g : PoolGeometry) (id : Z) : option BlockPlacement :=
  placement_loop 0 0 0 id (pg_classes g).

Definition contains (g : PoolGeometry) (id : Z) : bool := id <? block_count g.

Definition holds_maximum_frame (g : PoolGeometry) : bool :=
  match pg_classes g !! (ORDINARY_CLASSES - 1)%nat with
  | Some c => MAX_FRAME_BYTES <=? ClassSpec_body_capacity c
  | None => false
  end.

Definition KIB : Z := 1024.
Definition MIB : Z := 1024 * KIB.

Definition host_payload_pool : result GeometryError PoolGeometry :=
  PoolGeometry_new 32 16
    [ mkClassSpec (4 * KIB) 64; mkClassSpec (64 * KIB) 16; mkClassSpec MIB 8;
      mkClassSpec (8 * MIB) 2; mkClassSpec (64 * MIB + 4 * KIB) 1 ]
    (mkClassSpec (4 * KIB) 32) (mkClassSpec (32 * KIB) 64).

Definition ledger_bytes (g : PoolGeometry) : Z :=
  Z.min u64_MAX (block_count g * (4 * SIZE_OF_U64 + 3 * SIZE_OF_U32)).

(** ** Mapping layout *)
Definition align_up (value alignment : Z) : result GeometryError Z :=
  let mask := alignment - 1 in
  ok_or ((fun sum => Z.land sum (not_u64 mask)) <$> checked_add u64_MAX value mask)
    ArithmeticOverflow.

Record MappingLayout := mkLayout {
  ml_producer : Z;
  ml_consumer : Z;
  ml_data_wake : Z;
  ml_capacity_wake : Z;
  ml_lifecycle : Z;
  ml_descriptors : Z;
  ml_descriptor_depth : Z;
  ml_completions : Z;
  ml_block_count : Z;
  ml_returns : Z;
  ml_return_words : Z;
  ml_arena : Z;
  ml_arena_bytes : Z;
  ml_total : Z;
}.

#[global] Instance MappingLayout_eq_dec : EqDecision MappingLayout.
Proof. solve_decision. Defined.

Definition usize_add (a b : Z) : result GeometryError Z :=
  ok_or (checked_add u64_MAX a b) ArithmeticOverflow.
Definition usize_mul (a b : Z) : result GeometryError Z :=
  ok_or (checked_mul u64_MAX a b) ArithmeticOverflow.
Definition div_ceil (a b : Z) : Z := (a + b - 1) / b.

Definition MappingLayout_new (g : PoolGeometry) (page_size : Z) : result GeometryError MappingLayout :=
  if (page_size =? 0) || negb (is_power_of_two page_size)
     || negb (is_multiple_of page_size BLOCK_ALIGN)
  then Err InvalidBlockBytes
  else
    let producer := 0 in
    consumer ← usize_add producer CACHELINE;
    data_wake ← usize_add consumer CACHELINE;
    capacity_wake ← usize_add data_wake CACHELINE;
    lifecycle ← usize_add capacity_wake CACHELINE;
    descriptors ← usize_add lifecycle LIFECYCLE_PAGE_BYTES;
    let depth := descriptor_depth g in
    descriptor_bytes ← usize_mul depth DESCRIPTOR_SLOT_BYTES;
    descriptors_end ← usize_add descriptors descriptor_bytes;
    completions ← align_up descriptors_end CACHELINE;
    let blocks := block_count g in
    completion_bytes ← usize_mul blocks SIZE_OF_U64;
    completions_end ← usize_add completions completion_bytes;
    returns ← align_up completions_end CACHELINE;
    let return_words := div_ceil blocks RETURN_WORD_BITS in
    return_bytes ← usize_mul return_words SIZE_OF_U64;
    returns_end ← usize_add returns return_bytes;
    arena ← align_up returns_end page_size;
    arena_len ← arena_bytes g;
    arena_end ← usize_add arena arena_len;
    total ← align_up arena_end page_size;
    Ok {| ml_producer := producer; ml_consumer := consumer; ml_data_wake := data_wake;
          ml_capacity_wake := capacity_wake; ml_lifecycle := lifecycle;
          ml_descriptors := descriptors; ml_descriptor_depth := depth;
          ml_completions := completions; ml_block_count := blocks;
          ml_returns := returns; ml_return_words := return_words;
          ml_arena := arena; ml_arena_bytes := arena_len; ml_total := total |}.

Definition descriptor_offset (l : MappingLayout) (index : Z) : option Z :=
  if ml_descriptor_depth l <=? index then None
  else scaled ← checked_mul u64_MAX index DESCRIPTOR_SLOT_BYTES;
       checked_add u64_MAX (ml_descriptors l) scaled.

Definition completion_offset (l : MappingLayout) (block : Z) : option Z :=
  if ml_block_count l <=? block then None
  else scaled ← checked_mul u64_MAX block SIZE_OF_U64;
       checked_add u64_MAX (ml_completions l) scaled.

Definition return_offset (l : MappingLayout) (word : Z) : option Z :=
  if ml_return_words l <=? word then None
  else scaled ← checked_mul u64_MAX word SIZE_OF_U64;
       checked_add u64_MAX (ml_returns l) scaled.

(** ** Specification vocabulary *)

(** Machine ranges of a class, which the Rust field types guarantee. *)
Definition class_range (c : ClassSpec) : Prop := is_u64 (cs_block_bytes c) /\ is_u32 (cs_count c).

(** What [check_class] accepts. *)
Definition class_ok (c : ClassSpec) : Prop :=
  class_range c /\ 0 < cs_count c /\ 0 < cs_block_bytes c /\ (BLOCK_ALIGN | cs_block_bytes c).

Definition count_sum (cs : list ClassSpec) : Z := zsum (cs_count <$> cs).
Definition region_sum (cs : list ClassSpec) : Z :=
  zsum ((fun c => cs_block_bytes c * cs_count c) <$> cs).

Fixpoint ascending_from (previous : Z) (cs : list ClassSpec) : Prop :=
  match cs with
  | [] => True
  | c :: rest => previous < cs_block_bytes c /\ ascending_from (cs_block_bytes c) rest
  end.

(** A geometry both peers can lay out. *)
Record geometry_ok (g : PoolGeometry) : Prop := {
  go_ordinary : 0 < pg_ordinary_descriptors g;
  go_reserved : 0 <= pg_reserved_descriptors g;
  go_depth : pg_ordinary_descriptors g + pg_reserved_descriptors g <= MAX_DESCRIPTORS;
  go_length : length (pg_classes g) = CLASS_COUNT;
  go_classes : Forall class_ok (pg_classes g);
  go_ascending : ascending_from 0 (take ORDINARY_CLASSES (pg_classes g));
  go_blocks : count_sum (pg_classes g) <= MAX_BLOCKS;
  go_arena : region_sum (pg_classes g) <= u64_MAX;
}.

(** Reference placement: the sizes of all blocks in id order, and each block right after the
    one before it. *)
Definition class_blocks (c : ClassSpec) : list Z := replicate (Z.to_nat (cs_count c)) (cs_block_bytes c).
Definition block_sizes (g : PoolGeometry) : list Z := pg_classes g ≫= class_blocks.
Definition block_start (g : PoolGeometry) (id : Z) : Z := zsum (take (Z.to_nat id) (block_sizes g)).

(** The classes of an inventory that a table of seven classes has. *)
Definition valid_class (c : BlockClass) : Prop := (class_index c < CLASS_COUNT)%nat /\
  class_from_index (class_index c) = Some c.

(** The class at a dense index holds the body. *)
Definition class_holds (g : PoolGeometry) (c : BlockClass) (body : Z) : Prop :=
  exists spec, geometry_class g c = Some spec /\ body <= ClassSpec_body_capacity spec.

(** The regions of a mapping in address order, each with its length. *)
Definition layout_regions (l : MappingLayout) : list (Z * Z) :=
  [ (ml_producer l, CACHELINE); (ml_consumer l, CACHELINE); (ml_data_wake l, CACHELINE);
    (ml_capacity_wake l, CACHELINE); (ml_lifecycle l, LIFECYCLE_PAGE_BYTES);
    (ml_descriptors l, ml_descriptor_depth l * DESCRIPTOR_SLOT_BYTES);
    (ml_completions l, ml_block_count l * SIZE_OF_U64);
    (ml_returns l, ml_return_words l * SIZE_OF_U64);
    (ml_arena l, ml_arena_bytes l) ].

(** Regions that start no earlier than [position], do not overlap and end by [limit]. *)
Fixpoint regions_in_order (position : Z) (rs : list (Z * Z)) (limit : Z) : Prop :=
  match rs with
  | [] => position <= limit
  | (offset, len) :: rest => position <= offset /\ 0 <= len /\ regions_in_order (offset + len) rest limit
  end.

Definition page_ok (page_size : Z) : Prop :=
  is_power_of_two page_size = true /\ (BLOCK_ALIGN | page_size).

(** What a layout that was computed without error looks like. *)
Record layout_ok (g : PoolGeometry) (page_size : Z) (l : MappingLayout) : Prop := {
  lo_depth : ml_descriptor_depth l = pg_ordinary_descriptors g + pg_reserved_descriptors g;
  lo_blocks : ml_block_count l = block_count g;
  lo_words : ml_block_count l <= ml_return_words l * RETURN_WORD_BITS < ml_block_count l + RETURN_WORD_BITS;
  lo_arena : ml_arena_bytes l = region_sum (pg_classes g);
  lo_regions : regions_in_order 0 (layout_regions l) (ml_total l);
  lo_completions_aligned : (CACHELINE | ml_completions l);
  lo_returns_aligned : (CACHELINE | ml_returns l);
  lo_arena_aligned : (page_size | ml_arena l);
  lo_total_aligned : (page_size | ml_total l);
  lo_total : ml_total l <= u64_MAX;
  lo_descriptors : ml_descriptors l = 768;
}.

(** ** Lemmas on class tables *)
Lemma check_class_iff c : class_range c -> check_class c = Ok tt <-> class_ok c.
Proof.
  intros Hr. pose proof Hr as [Hb Hc]. unfold check_class, class_ok, is_multiple_of, BLOCK_ALIGN, WIRE_HEADER_BYTES.
  rewrite <- Z.mod_divide by lia.
  repeat bcase; split; try discriminate; intros Hx; destruct_and?;
    try (exfalso; munfold; Z.div_mod_to_equations; lia); [|done].
  split_and!; try done; mlia.
Qed.

Lemma check_ordinary_iff previous cs :
  Forall class_range cs ->
  check_ordinary previous cs = Ok tt <-> Forall class_ok cs /\ ascending_from previous cs.
Proof.
  intros Hr. revert previous. induction Hr as [|c cs Hc Hcs IH]; intros previous; simpl.
  - naive_solver.
  - rewrite Forall_cons_iff, <- check_class_iff by done.
    destruct (check_class c) as [[]|e]; simpl; [|naive_solver].
    bcase; [naive_solver lia|]. rewrite IH. naive_solver.
Qed.

Lemma count_sum_cons c cs : count_sum (c :: cs) = cs_count c + count_sum cs.
Proof. done. Qed.

Lemma region_sum_cons c cs :
  region_sum (c :: cs) = cs_block_bytes c * cs_count c + region_sum cs.
Proof. done. Qed.

Lemma count_sum_nonneg cs : Forall class_range cs -> 0 <= count_sum cs.
Proof. induction 1 as [|c cs [_ Hc] _ IH]; [done|]. rewrite count_sum_cons. mlia. Qed.

Lemma region_sum_nonneg cs : Forall class_range cs -> 0 <= region_sum cs.
Proof. induction 1 as [|c cs [Hb Hc] _ IH]; [done|]. rewrite region_sum_cons. munfold. nia. Qed.

Lemma sum_counts_Some sum cs t :
  Forall class_range cs -> sum <= u64_MAX ->
  sum_counts sum cs = Some t <-> t = sum + count_sum cs /\ t <= u64_MAX.
Proof.
  intros Hr. revert sum. induction Hr as [|c cs [Hb Hc] Hcs IH]; intros sum Hs.
  - change (count_sum []) with 0. simpl. rewrite Z.add_0_r. naive_solver.
  - rewrite count_sum_cons. simpl. unfold checked_add.
    pose proof (count_sum_nonneg cs Hcs).
    bcase; cbn; [rewrite IH by done; rewrite Z.add_assoc; naive_solver|].
    split; [done|]. mlia.
Qed.

Lemma sum_regions_Some sum cs t :
  Forall class_range cs -> 0 <= sum <= u64_MAX ->
  sum_regions sum cs = Some t <-> t = sum + region_sum cs /\ t <= u64_MAX.
Proof.
  intros Hr. revert sum. induction Hr as [|c cs [Hb Hc] Hcs IH]; intros sum Hs.
  - change (region_sum []) with 0. simpl. rewrite Z.add_0_r. naive_solver.
  - rewrite region_sum_cons. simpl. unfold checked_add, checked_mul.
    pose proof (region_sum_nonneg cs Hcs).
    assert (0 <= cs_block_bytes c * cs_count c) by (munfold; nia).
    bcase; cbn; [bcase; cbn; [rewrite IH by lia; rewrite Z.add_assoc; naive_solver|]|];
      (split; [done|]); intros []; exfalso; lia.
Qed.

Lemma sum_u32_acc cs sum :
  Forall class_range cs -> 0 <= sum -> sum + count_sum cs <= u32_MAX ->
  foldl (fun sum c => wrapping_add u32_MAX sum (cs_count c)) sum cs = sum + count_sum cs.
Proof.
  intros Hr. revert sum. induction Hr as [|c cs [Hb Hc] Hcs IH]; intros sum Hs Ht; simpl.
  - change (count_sum []) with 0. lia.
  - rewrite count_sum_cons in *. pose proof (count_sum_nonneg cs Hcs).
    assert (wrapping_add u32_MAX sum (cs_count c) = sum + cs_count c) as ->
      by (unfold wrapping_add; apply Z.mod_small; mlia).
    rewrite IH; mlia.
Qed.

Lemma sum_u32_small cs :
  Forall class_range cs -> count_sum cs <= u32_MAX -> sum_u32 cs = count_sum cs.
Proof. intros. unfold sum_u32. rewrite sum_u32_acc by (done || lia). lia. Qed.

Lemma class_ok_range cs : Forall class_ok cs -> Forall class_range cs.
Proof. apply Forall_impl. by intros ? []. Qed.
#[export] Hint Resolve class_ok_range : machine.

Lemma geometry_ranges g : geometry_ok g -> Forall class_range (pg_classes g).
Proof. intros []. auto with machine. Qed.
#[export] Hint Resolve geometry_ranges : machine.

Lemma block_count_sum g : geometry_ok g -> block_count g = count_sum (pg_classes g).
Proof.
  intros Hg. apply sum_u32_small; [auto with machine|].
  destruct Hg. unfold MAX_BLOCKS in *. mlia.
Qed.

Lemma block_count_range g : geometry_ok g -> 0 <= block_count g <= MAX_BLOCKS.
Proof.
  intros Hg. rewrite block_count_sum by done. split; [|apply Hg].
  apply count_sum_nonneg. auto with machine.
Qed.

Lemma descriptor_depth_sum g :
  geometry_ok g ->
  descriptor_depth g = pg_ordinary_descriptors g + pg_reserved_descriptors g.
Proof.
  intros []. unfold descriptor_depth, wrapping_add, MAX_DESCRIPTORS in *.
  apply Z.mod_small. mlia.
Qed.

Lemma arena_bytes_sum g : geometry_ok g -> arena_bytes g = Ok (region_sum (pg_classes g)).
Proof.
  intros Hg. unfold arena_bytes.
  assert (sum_regions 0 (pg_classes g) = Some (region_sum (pg_classes g))) as ->; [|done].
  apply sum_regions_Some; [auto with machine|mlia|]. split; [lia|apply Hg].
Qed.

(** ** Lemmas on block placement *)
Lemma length_class_blocks c : length (class_blocks c) = Z.to_nat (cs_count c).
Proof. apply length_replicate. Qed.

Lemma zsum_class_blocks c : 0 <= cs_count c -> zsum (class_blocks c) = cs_block_bytes c * cs_count c.
Proof. intros. unfold class_blocks. rewrite zsum_replicate, Z2Nat.id by done. lia. Qed.

Lemma length_blocks_of cs :
  Forall class_range cs -> Z.of_nat (length (cs ≫= class_blocks)) = count_sum cs.
Proof.
  induction 1 as [|c cs [_ Hc] Hcs IH]; [done|].
  rewrite bind_cons, length_app, length_class_blocks, count_sum_cons. mlia.
Qed.

Lemma length_block_sizes g : geometry_ok g -> Z.of_nat (length (block_sizes g)) = block_count g.
Proof. intros. rewrite block_count_sum by done. apply length_blocks_of. auto with machine. Qed.

(** One iteration of the loop: the block lies in the class at hand, or in a later one. *)
Lemma placement_loop_hit index first offset id c cs kind :
  class_range c -> class_from_index index = Some kind ->
  0 <= first <= id -> id < first + cs_count c -> first + cs_count c <= u32_MAX ->
  offset + cs_block_bytes c * cs_count c <= u64_MAX -> 0 <= offset ->
  placement_loop index first offset id (c :: cs) =
    Some (mkPlacement kind (offset + (id - first) * cs_block_bytes c) (cs_block_bytes c)).
Proof.
  intros [Hb Hc] Hk Hid Hin Hcnt Hreg Hoff.
  assert ((id - first) * cs_block_bytes c <= cs_block_bytes c * cs_count c) by (munfold; nia).
  cbn [placement_loop]. rewrite checked_add_ok by done. cbn.
  rewrite (proj2 (Z.ltb_lt _ _)), Hk by done. cbn.
  rewrite checked_mul_ok by lia. cbn. by rewrite checked_add_ok by lia.
Qed.

Lemma placement_loop_miss index first offset id c cs :
  class_range c -> 0 <= first -> 0 <= offset ->
  first + cs_count c <= id -> first + cs_count c <= u32_MAX ->
  offset + cs_block_bytes c * cs_count c <= u64_MAX ->
  placement_loop index first offset id (c :: cs) =
    placement_loop (S index) (first + cs_count c) (offset + cs_block_bytes c * cs_count c) id cs.
Proof.
  intros [Hb Hc] Hf Ho Hout Hcnt Hreg.
  cbn [placement_loop]. rewrite checked_add_ok by done. cbn.
  rewrite (proj2 (Z.ltb_ge _ _)) by done. rewrite checked_mul_ok by lia. cbn.
  by rewrite checked_add_ok by done.
Qed.

(** Flat indices into a class table: the class at hand, or the rest of the table. *)
Lemma blocks_hit c cs k :
  class_range c -> 0 <= k < cs_count c ->
  zsum (take (Z.to_nat k) ((c :: cs) ≫= class_blocks)) = k * cs_block_bytes c /\
  ((c :: cs) ≫= class_blocks) !! Z.to_nat k = Some (cs_block_bytes c).
Proof.
  intros [Hb Hc] Hk. rewrite bind_cons.
  rewrite take_app_le, lookup_app_l by (rewrite length_class_blocks; lia).
  unfold class_blocks. rewrite take_replicate, zsum_replicate, lookup_replicate_2 by lia.
  rewrite Nat.min_l, Z2Nat.id by lia. done.
Qed.

Lemma blocks_miss c cs k :
  class_range c -> cs_count c <= k ->
  zsum (take (Z.to_nat k) ((c :: cs) ≫= class_blocks)) =
    cs_block_bytes c * cs_count c + zsum (take (Z.to_nat (k - cs_count c)) (cs ≫= class_blocks)) /\
  ((c :: cs) ≫= class_blocks) !! Z.to_nat k = (cs ≫= class_blocks) !! Z.to_nat (k - cs_count c).
Proof.
  intros [Hb Hc] Hk. munfold. rewrite bind_cons.
  assert (Z.to_nat k = length (class_blocks c) + Z.to_nat (k - cs_count c))%nat as ->
    by (rewrite length_class_blocks; lia).
  rewrite take_app_add, zsum_app, zsum_class_blocks, lookup_app_r by lia.
  split; [done|]. f_equal. lia.
Qed.

Lemma class_from_index_lt index : (index < CLASS_COUNT)%nat -> is_Some (class_from_index index).
Proof. unfold CLASS_COUNT. intros. do 7 (destruct index; [done|]). lia. Qed.

(** The loop run from [first] and [offset] finds the block in the flat list of sizes. *)
Lemma placement_loop_Some index first offset id cs :
  Forall class_range cs ->
  (index + length cs <= CLASS_COUNT)%nat ->
  0 <= first <= id -> 0 <= offset ->
  first + count_sum cs <= u32_MAX -> offset + region_sum cs <= u64_MAX ->
  id < first + count_sum cs ->
  exists p i, placement_loop index first offset id cs = Some p /\
    bp_offset p = offset + zsum (take (Z.to_nat (id - first)) (cs ≫= class_blocks)) /\
    (cs ≫= class_blocks) !! Z.to_nat (id - first) = Some (bp_block_bytes p) /\
    cs_block_bytes <$> cs !! i = Some (bp_block_bytes p) /\
    class_from_index (index + i) = Some (bp_class p) /\
    first + count_sum (take i cs) <= id < first + count_sum (take (S i) cs).
Proof.
  intros Hr. revert index first offset.
  induction Hr as [|c cs Hc Hcs IH]; intros index first offset Hidx Hfirst Hoff Hcnt Hreg Hid.
  { change (count_sum []) with 0 in *. lia. }
  rewrite count_sum_cons in *. rewrite region_sum_cons in *.
  pose proof (count_sum_nonneg cs Hcs). pose proof (region_sum_nonneg cs Hcs).
  pose proof Hc as [Hb Hn]. cbn [length] in Hidx.
  assert (0 <= cs_block_bytes c * cs_count c) by (munfold; nia).
  destruct (Z.lt_ge_cases id (first + cs_count c)) as [Hin|Hout].
  - destruct (class_from_index_lt index) as [kind Hk]; [lia|].
    destruct (blocks_hit c cs (id - first)) as [Hsum Hlook]; [done|lia|].
    eexists _, 0%nat. rewrite (placement_loop_hit _ _ _ _ _ _ kind) by (done || lia).
    split; [done|]. cbn [bp_offset bp_block_bytes bp_class]. rewrite Hsum, Hlook, Nat.add_0_r.
    change (count_sum (take 0 (c :: cs))) with 0. change (count_sum (take 1 (c :: cs))) with (cs_count c + 0).
    split_and!; (done || lia).
  - rewrite placement_loop_miss by (done || lia).
    destruct (blocks_miss c cs (id - first)) as [Hsum Hlook]; [done|lia|].
    destruct (IH (S index) (first + cs_count c) (offset + cs_block_bytes c * cs_count c))
      as (p & i & -> & Hoffp & Hl & Hci & Hk & Hrange); [lia || (munfold; lia)..|].
    exists p, (S i). rewrite Hsum, Hlook, Hoffp. rewrite <- Nat.add_succ_comm.
    simpl. rewrite !count_sum_cons.
    replace (id - first - cs_count c) with (id - (first + cs_count c)) by lia.
    split_and!; (done || lia).
Qed.

Lemma placement_loop_None index first offset id cs :
  Forall class_range cs -> 0 <= first -> 0 <= offset ->
  first + count_sum cs <= u32_MAX -> offset + region_sum cs <= u64_MAX ->
  first + count_sum cs <= id -> placement_loop index first offset id cs = None.
Proof.
  intros Hr. revert index first offset.
  induction Hr as [|c cs Hc Hcs IH]; intros index first offset Hfirst Hoff Hcnt Hreg Hid; [done|].
  rewrite count_sum_cons in *. rewrite region_sum_cons in *.
  pose proof (count_sum_nonneg cs Hcs). pose proof (region_sum_nonneg cs Hcs).
  pose proof Hc as [Hb Hn]. assert (0 <= cs_block_bytes c * cs_count c) by (munfold; nia).
  rewrite placement_loop_miss by (done || lia). apply IH; lia || (munfold; lia).
Qed.

Lemma count_sum_take cs i : Forall class_range cs -> count_sum (take i cs) <= count_sum cs.
Proof.
  intros Hr. revert i. induction Hr as [|c cs Hc Hcs IH]; intros [|i]; simpl; try done.
  - pose proof (count_sum_nonneg (c :: cs)). change (count_sum []) with 0. auto.
  - rewrite !count_sum_cons. specialize (IH i). lia.
Qed.

(** ** Lemmas on class selection *)
Lemma find_class_Some index body cs j :
  find_class index body cs = Some j ->
  exists i c, j = (index + i)%nat /\ cs !! i = Some c /\ body <= ClassSpec_body_capacity c /\
    forall i' c', (i' < i)%nat -> cs !! i' = Some c' -> ClassSpec_body_capacity c' < body.
Proof.
  revert index. induction cs as [|c cs IH]; intros index Hf; [done|]. simpl in Hf. bcase.
  - injection Hf as <-. exists 0%nat, c. rewrite Nat.add_0_r. split_and!; try done. intros; lia.
  - destruct (IH _ Hf) as (i & c' & -> & Hi & Hc' & Hmin).
    exists (S i), c'. split; [lia|]. split_and!; try done.
    intros [|i'] d Hlt Hd; simplify_eq/=; [done|]. eapply Hmin; [|done]. lia.
Qed.

Lemma find_class_None index body cs :
  find_class index body cs = None ->
  forall i c, cs !! i = Some c -> ClassSpec_body_capacity c < body.
Proof.
  revert index. induction cs as [|c cs IH]; intros index Hf i d Hd; [done|].
  simpl in Hf. bcase; [done|]. destruct i; simplify_eq/=; eauto.
Qed.

Lemma ascending_lookup previous cs i j c d :
  ascending_from previous cs -> cs !! i = Some c -> cs !! j = Some d -> (i <= j)%nat ->
  previous < cs_block_bytes c /\ cs_block_bytes c <= cs_block_bytes d.
Proof.
  revert previous i j c d. induction cs as [|e cs IH]; intros previous i j c d Ha Hc Hd Hij; [done|].
  destruct Ha as [He Ha]. destruct i as [|i], j as [|j]; simplify_eq/=; try lia.
  - destruct (IH _ j j d d Ha Hd Hd); lia.
  - destruct (IH _ i j c d Ha Hc Hd); lia.
Qed.

Lemma body_capacity_mono c d :
  ClassSpec_body_capacity c < ClassSpec_body_capacity d -> cs_block_bytes c < cs_block_bytes d.
Proof. unfold ClassSpec_body_capacity, saturating_sub. lia. Qed.

Lemma valid_class_cases c :
  valid_class c -> (exists i, c = Ordinary i /\ (i < ORDINARY_CLASSES)%nat) \/ c = Control \/ c = Terminal.
Proof.
  intros [Hlt Hc]. destruct c as [i| |]; [left; exists i|auto|auto].
  split; [done|]. unfold class_from_index, class_index, ORDINARY_CLASSES in *. repeat bcase; simplify_eq; lia.
Qed.

(** ** Lemmas on alignment and the mapping layout *)
Lemma align_up_Ok value alignment out :
  0 <= value -> is_u64 alignment -> is_power_of_two alignment = true ->
  align_up value alignment = Ok out ->
  value <= out < value + alignment /\ (alignment | out) /\ out <= u64_MAX.
Proof.
  intros Hv Ha [k [Hk ->]]%is_power_of_two_spec Hal.
  assert (k < 64) by (apply (Z.pow_lt_mono_r_iff 2); [lia..|]; change (2 ^ 64) with (u64_MAX + 1); mlia).
  assert (0 < 2 ^ k) by (apply Z.pow_pos_nonneg; lia).
  unfold align_up, checked_add in Hal. bcase; [|done]. cbn in Hal. injection Hal as <-.
  rewrite land_not_mask by lia.
  set (x := value + (2 ^ k - 1)) in *.
  pose proof (Z.div_mod x (2 ^ k)). pose proof (Z.mod_pos_bound x (2 ^ k)).
  split; [lia|]. split; [|lia]. exists (x / 2 ^ k). lia.
Qed.

Lemma align_up_total value alignment :
  value + alignment <= u64_MAX + 1 -> exists out, align_up value alignment = Ok out.
Proof. intros. unfold align_up. rewrite checked_add_ok by lia. simpl. eauto. Qed.

Lemma usize_add_Ok a b c : usize_add a b = Ok c <-> c = a + b /\ a + b <= u64_MAX.
Proof. unfold usize_add, ok_or. rewrite <- checked_add_Some. destruct (checked_add _ a b); naive_solver. Qed.

Lemma usize_mul_Ok a b c : usize_mul a b = Ok c <-> c = a * b /\ a * b <= u64_MAX.
Proof. unfold usize_mul, ok_or. rewrite <- checked_mul_Some. destruct (checked_mul _ a b); naive_solver. Qed.

Lemma div_ceil_bounds a b : 0 <= a -> 0 < b -> a <= div_ceil a b * b < a + b /\ 0 <= div_ceil a b.
Proof.
  intros. unfold div_ceil. pose proof (Z.div_mod (a + b - 1) b).
  pose proof (Z.mod_pos_bound (a + b - 1) b). assert (0 <= (a + b - 1) / b) by (apply Z.div_pos; lia). lia.
Qed.

Lemma power_of_two_pos x : is_power_of_two x = true -> 0 < x.
Proof. intros [k [? ->]]%is_power_of_two_spec. apply Z.pow_pos_nonneg; lia. Qed.

(** The check [MappingLayout_new] makes on the page size. *)
Lemma page_check page_size :
  (page_size =? 0) || negb (is_power_of_two page_size) || negb (is_multiple_of page_size BLOCK_ALIGN) = false
  <-> page_ok page_size.
Proof.
  unfold page_ok, is_multiple_of, BLOCK_ALIGN. rewrite <- Z.mod_divide by lia.
  rewrite !orb_false_iff, !negb_false_iff, !Z.eqb_eq, Z.eqb_neq.
  split; [naive_solver|]. intros [Hp ?]. pose proof (power_of_two_pos _ Hp). naive_solver lia.
Qed.


(** Inversion of [MappingLayout_new]: every intermediate value and its bound. *)
Lemma MappingLayout_new_ok g page_size l :
  geometry_ok g -> is_u64 page_size -> MappingLayout_new g page_size = Ok l -> layout_ok g page_size l.
Proof.
  intros Hg Hpage Hnew. unfold MappingLayout_new in Hnew.
  destruct (_ || _) eqn:Hcheck in Hnew; [done|].
  apply page_check in Hcheck as [Hp Hdiv]. pose proof (power_of_two_pos _ Hp).
  rewrite arena_bytes_sum in Hnew by done. inv_bind.
  rewrite ?usize_add_Ok, ?usize_mul_Ok in *. destruct_and?. subst.
  pose proof (block_count_range g Hg). pose proof (descriptor_depth_sum g Hg).
  pose proof (region_sum_nonneg _ (geometry_ranges g Hg)). pose proof (go_ordinary g Hg).
  pose proof (go_reserved g Hg).
  pose proof (div_ceil_bounds (block_count g) RETURN_WORD_BITS ltac:(lia) ltac:(done)).
  repeat match goal with
  | H : align_up ?v ?a = Ok ?o |- _ =>
      apply align_up_Ok in H as (? & ? & ?);
      [|unfold CACHELINE, LIFECYCLE_PAGE_BYTES, DESCRIPTOR_SLOT_BYTES, SIZE_OF_U64 in *; nia
       |first [done | by vm_compute] ..]
  end.
  constructor; cbn; unfold CACHELINE, LIFECYCLE_PAGE_BYTES, DESCRIPTOR_SLOT_BYTES, SIZE_OF_U64 in *;
    try done; lia.
Qed.

(** A layout exists whenever the rounded regions fit the address space. *)
Lemma MappingLayout_new_exists g page_size :
  geometry_ok g -> page_ok page_size -> page_size <= 2 ^ 32 ->
  region_sum (pg_classes g) <= 2 ^ 63 -> exists l, MappingLayout_new g page_size = Ok l.
Proof.
  intros Hg Hpage Hps Hregion. pose proof (power_of_two_pos _ (proj1 Hpage)).
  unfold MappingLayout_new. rewrite (proj2 (page_check page_size) Hpage).
  rewrite arena_bytes_sum by done.
  pose proof (block_count_range g Hg) as Hbc. pose proof (go_depth g Hg). pose proof (go_ordinary g Hg).
  pose proof (go_reserved g Hg). pose proof (region_sum_nonneg _ (geometry_ranges g Hg)).
  pose proof (div_ceil_bounds (block_count g) RETURN_WORD_BITS ltac:(lia) ltac:(done)) as Hdc.
  rewrite descriptor_depth_sum by done.
  unfold MAX_BLOCKS, MAX_DESCRIPTORS, CACHELINE, LIFECYCLE_PAGE_BYTES, DESCRIPTOR_SLOT_BYTES, SIZE_OF_U64, RETURN_WORD_BITS in *.
  repeat first
  [ match goal with |- context [usize_add ?a ?b] =>
      rewrite (proj2 (usize_add_Ok a b (a + b))) by (split; [done|mlia]) end; cbn [mbind result_bind]
  | match goal with |- context [usize_mul ?a ?b] =>
      rewrite (proj2 (usize_mul_Ok a b (a * b))) by (split; [done|mlia]) end; cbn [mbind result_bind]
  | match goal with |- context [align_up ?v ?a] =>
      let o := fresh "o" in let Ho := fresh "Ho" in
      destruct (align_up_total v a) as [o Ho]; [mlia|]; rewrite Ho; cbn [mbind result_bind];
      apply align_up_Ok in Ho as (? & ? & ?); [|mlia|mlia|first [apply Hpage | by vm_compute]]
    end ].
  cbn [mbind result_bind]. eauto.
Qed.

(** ** Properties *)

(** A concrete geometry for the witnesses: the production inventory. *)
Definition host_geometry : PoolGeometry :=
  mkGeometry 32 16
    [ mkClassSpec 4096 64; mkClassSpec 65536 16; mkClassSpec 1048576 8; mkClassSpec 8388608 2;
      mkClassSpec 67112960 1; mkClassSpec 4096 32; mkClassSpec 32768 64 ].

Lemma class_ok_intro c :
  cs_block_bytes c <=? u64_MAX = true -> cs_count c <=? u32_MAX = true ->
  0 <? cs_count c = true -> 0 <? cs_block_bytes c = true ->
  is_multiple_of (cs_block_bytes c) BLOCK_ALIGN = true -> class_ok c.
Proof.
  unfold is_multiple_of, class_ok, class_range.
  rewrite !Z.leb_le, !Z.ltb_lt, Z.eqb_eq, Z.mod_divide by done. munfold. intros. split_and!; (lia || done).
Qed.

Lemma host_geometry_ok : geometry_ok host_geometry.
Proof.
  constructor; try done.
  repeat (apply Forall_cons; [by apply class_ok_intro; vm_compute|]). apply Forall_nil.
Qed.

Section GeometryNew.
Context (od rd : Z) (ordinary : list ClassSpec) (control terminal : ClassSpec).
Hypothesis Hod : is_u32 od.
Hypothesis Hrd : is_u32 rd.
Hypothesis Hlen : length ordinary = ORDINARY_CLASSES.
Hypothesis Hr : Forall class_range (control :: terminal :: ordinary).

Lemma new_classes_range : Forall class_range (ordinary ++ [control; terminal]).
Proof.
  clear Hod Hrd Hlen. rewrite !Forall_cons_iff in Hr. destruct Hr as (Hc & Ht & Ho).
  apply Forall_app. split; [done|]. repeat constructor; apply Hc || apply Ht.
Qed.

Lemma PoolGeometry_new_sound g :
  PoolGeometry_new od rd ordinary control terminal = Ok g ->
  g = mkGeometry od rd (ordinary ++ [control; terminal]) /\ geometry_ok g.
Proof using All.
  pose proof new_classes_range as Hall. rewrite !Forall_cons_iff in Hr. destruct Hr as (Hc & Ht & Ho).
  unfold PoolGeometry_new. intros Hnew. bcase; [done|]. bcase; [done|]. inv_bind. bcase; [done|].
  unfold arena_bytes in *. inv_bind. destruct a, a0, a1. cbn [pg_classes] in *.
  apply check_ordinary_iff in Hok as [Hfo Ha]; [|done].
  apply check_class_iff in Hok0; [|done]. apply check_class_iff in Hok1; [|done].
  apply sum_counts_Some in Hsome as [-> Hs]; [|done|mlia].
  apply sum_regions_Some in Hsome0 as [-> Hs0]; [|done|mlia].
  split; [done|]. constructor; cbn; try (done || mlia).
  - rewrite length_app, Hlen. done.
  - apply Forall_app. split; [done|]. repeat constructor; (apply Hok0 || apply Hok1).
  - change 5%nat with ORDINARY_CLASSES. rewrite take_app_le, take_ge by lia. done.
Qed.

Lemma PoolGeometry_new_complete :
  geometry_ok (mkGeometry od rd (ordinary ++ [control; terminal])) ->
  PoolGeometry_new od rd ordinary control terminal =
    Ok (mkGeometry od rd (ordinary ++ [control; terminal])).
Proof using All.
  pose proof new_classes_range as Hall. rewrite !Forall_cons_iff in Hr. destruct Hr as (Hc & Ht & Ho).
  intros Hg. pose proof Hg as [H1 H2 H3 H4 H5 H6 H7 H8]. cbn [pg_classes pg_ordinary_descriptors pg_reserved_descriptors] in *.
  apply Forall_app in H5 as [Hfo [Hfc Hft]%Forall_cons_iff]. apply Forall_cons_iff in Hft as [Hft _].
  rewrite take_app_le, take_ge in H6 by lia.
  unfold PoolGeometry_new. bcase; [lia|]. bcase; [lia|].
  rewrite (proj2 (check_ordinary_iff 0 ordinary Ho)) by done. cbn.
  rewrite (proj2 (check_class_iff control Hc)), (proj2 (check_class_iff terminal Ht)) by done. cbn.
  rewrite (proj2 (sum_counts_Some 0 _ (count_sum (ordinary ++ [control; terminal])) Hall ltac:(done)))
    by (unfold MAX_BLOCKS in *; mlia). cbn.
  bcase; [lia|]. rewrite arena_bytes_sum by done. done.
Qed.
End GeometryNew.

(** [PoolGeometry::new] accepts exactly the geometries that have at least one ordinary
    descriptor, at most 4096 descriptors and blocks, page-multiple non-empty classes, strictly
    ascending ordinary classes and an arena that fits 64 bits, and returns them unchanged. *)
Theorem PoolGeometry_new_iff od rd ordinary control terminal g :
  is_u32 od -> is_u32 rd -> length ordinary = ORDINARY_CLASSES ->
  Forall class_range (control :: terminal :: ordinary) ->
  PoolGeometry_new od rd ordinary control terminal = Ok g <->
  g = mkGeometry od rd (ordinary ++ [control; terminal]) /\ geometry_ok g.
Proof.
  intros. split; [by apply PoolGeometry_new_sound|].
  intros [-> ?]. by apply PoolGeometry_new_complete.
Qed.

Lemma PoolGeometry_new_iff_witness :
  PoolGeometry_new 32 16 (take 5 (pg_classes host_geometry))
    (mkClassSpec 4096 32) (mkClassSpec 32768 64) = Ok host_geometry.
Proof.
  apply (PoolGeometry_new_iff 32 16 (take 5 (pg_classes host_geometry))
    (mkClassSpec 4096 32) (mkClassSpec 32768 64) host_geometry).
  - mlia.
  - mlia.
  - reflexivity.
  - repeat constructor; cbn; mlia.
  - split; [reflexivity | apply host_geometry_ok].
Defined.

Lemma placement_Some g id :
  geometry_ok g -> 0 <= id < block_count g ->
  exists p i, placement g id = Some p /\ bp_offset p = block_start g id /\
    block_sizes g !! Z.to_nat id = Some (bp_block_bytes p) /\
    cs_block_bytes <$> pg_classes g !! i = Some (bp_block_bytes p) /\
    class_from_index i = Some (bp_class p) /\
    count_sum (take i (pg_classes g)) <= id < count_sum (take (S i) (pg_classes g)).
Proof.
  intros Hg Hid. pose proof Hg as []. rewrite block_count_sum in Hid by done.
  destruct (placement_loop_Some 0 0 0 id (pg_classes g)) as (p & i & Hp & Ho & Hl & Hc & Hk & Hrange);
    try (lia || done || auto with machine || (unfold MAX_BLOCKS in *; mlia)).
  exists p, i. rewrite Z.sub_0_r in *. simpl in Hk. unfold placement. split_and!; try done; lia.
Qed.

Lemma placement_None g id : geometry_ok g -> block_count g <= id -> placement g id = None.
Proof.
  intros Hg Hid. pose proof Hg as []. rewrite block_count_sum in Hid by done.
  apply placement_loop_None; try (lia || done || auto with machine || (unfold MAX_BLOCKS in *; mlia)).
Qed.

Lemma class_from_index_Some i c :
  class_from_index i = Some c -> class_index c = i /\ (i < CLASS_COUNT)%nat.
Proof.
  unfold class_from_index, ORDINARY_CLASSES, CLASS_COUNT. intros. repeat bcase; simplify_eq/=;
    unfold ORDINARY_CLASSES; lia.
Qed.

Lemma zsum_block_sizes g : geometry_ok g -> zsum (block_sizes g) = region_sum (pg_classes g).
Proof.
  intros Hg%geometry_ranges. unfold block_sizes.
  induction Hg as [|c cs [Hb Hc] Hcs IH]; [done|].
  rewrite bind_cons, zsum_app, region_sum_cons, zsum_class_blocks, IH by mlia. done.
Qed.

Lemma block_sizes_pos g : geometry_ok g -> Forall (fun x => 0 <= x) (block_sizes g).
Proof.
  intros Hg%geometry_ranges. apply Forall_bind. revert Hg. apply Forall_impl.
  intros c [Hb Hc]. apply Forall_replicate. mlia.
Qed.

Lemma block_start_mono g id id' :
  geometry_ok g -> 0 <= id <= id' -> block_start g id <= block_start g id'.
Proof.
  intros Hg Hid. unfold block_start.
  replace (Z.to_nat id') with (Z.to_nat id + Z.to_nat (id' - id))%nat by lia.
  rewrite <- take_take_drop, zsum_app.
  assert (0 <= zsum (take (Z.to_nat (id' - id)) (drop (Z.to_nat id) (block_sizes g)))); [|lia].
  apply zsum_nonneg, Forall_take, Forall_drop, block_sizes_pos, Hg.
Qed.

Lemma block_start_succ g id size :
  0 <= id -> block_sizes g !! Z.to_nat id = Some size -> block_start g (id + 1) = block_start g id + size.
Proof.
  intros Hid Hs. unfold block_start. replace (Z.to_nat (id + 1)) with (S (Z.to_nat id)) by lia.
  rewrite (take_S_r _ _ _ Hs), zsum_app. simpl. lia.
Qed.

(** The end of a block lies inside the arena. *)
Lemma block_end_arena g id size :
  geometry_ok g -> 0 <= id -> block_sizes g !! Z.to_nat id = Some size ->
  0 <= block_start g id /\ block_start g id + size <= region_sum (pg_classes g).
Proof.
  intros Hg Hid Hs. rewrite <- zsum_block_sizes, <- block_start_succ by done. split.
  - change 0 with (block_start g 0). apply block_start_mono; [done|lia].
  - unfold block_start. rewrite <- (take_drop (Z.to_nat (id + 1)) (block_sizes g)) at 2.
    rewrite zsum_app. assert (0 <= zsum (drop (Z.to_nat (id + 1)) (block_sizes g))); [|lia].
    apply zsum_nonneg, Forall_drop, block_sizes_pos, Hg.
Qed.

(** [placement] agrees with the reference layout, which puts the blocks of the class table
    back to back: every id below [block_count] has a block that starts at the sum of the sizes
    before it, has the size and kind of the class whose id range contains it, and ends inside the
    arena; every other id has none. *)
Theorem placement_reference g id :
  geometry_ok g -> 0 <= id ->
  match placement g id with
  | Some p =>
      id < block_count g /\ bp_offset p = block_start g id /\
      block_sizes g !! Z.to_nat id = Some (bp_block_bytes p) /\
      0 <= bp_offset p /\ bp_offset p + bp_block_bytes p <= region_sum (pg_classes g) /\
      exists c, geometry_class g (bp_class p) = Some c /\ cs_block_bytes c = bp_block_bytes p /\
        first_block g (bp_class p) <= id < first_block g (bp_class p) + cs_count c
  | None => block_count g <= id
  end.
Proof.
  intros Hg Hid. destruct (Z.lt_ge_cases id (block_count g)) as [Hlt|Hge].
  - destruct (placement_Some g id) as (p & i & -> & Hoff & Hs & Hc & Hk & Hr); [done|lia|].
    pose proof (block_end_arena g id _ Hg Hid Hs) as [H0 H1].
    rewrite Hoff. split_and!; try done.
    apply class_from_index_Some in Hk as [Hk Hi]. unfold geometry_class, first_block. rewrite Hk.
    apply fmap_Some in Hc as (c & Hci & Hb). exists c. split; [done|]. split; [done|].
    pose proof (geometry_ranges g Hg) as Hrange. pose proof (count_sum_take _ i Hrange).
    pose proof Hg as []. rewrite sum_u32_small by (try apply Forall_take; unfold MAX_BLOCKS in *; done || mlia).
    split; [lia|]. rewrite (take_S_r _ _ _ Hci) in Hr. unfold count_sum in *.
    rewrite fmap_app, zsum_app in Hr. simpl in Hr. lia.
  - by rewrite placement_None.
Qed.

Lemma placement_reference_witness :
  0 <= 91 < block_count host_geometry /\
  match placement host_geometry 91 with
  | Some p => bp_class p = Control /\ bp_offset p + bp_block_bytes p <= region_sum (pg_classes host_geometry)
  | None => False
  end.
Proof.
  split; [vm_compute; split; congruence|].
  pose proof (placement_reference host_geometry 91 host_geometry_ok ltac:(lia)) as H.
  destruct (placement host_geometry 91) as [p|] eqn:E; [|vm_compute in H; congruence].
  vm_compute in E. injection E as <-. split; [reflexivity|]. apply H.
Defined.

(** Two different blocks never share a byte of the arena. *)
Lemma placement_ordered g id id' p p' :
  geometry_ok g -> 0 <= id < id' -> placement g id = Some p -> placement g id' = Some p' ->
  bp_offset p + bp_block_bytes p <= bp_offset p'.
Proof.
  intros Hg Hid Hp Hp'.
  assert (id < block_count g /\ id' < block_count g) as [Hb Hb'].
  { split; apply Z.lt_nge; intros Hge; [rewrite placement_None in Hp by done|rewrite placement_None in Hp' by done]; done. }
  destruct (placement_Some g id) as (q & i & Hq & Hoff & Hs & _); [done|lia|]. rewrite Hq in Hp.
  destruct (placement_Some g id') as (q' & i' & Hq' & Hoff' & Hs' & _); [done|lia|]. rewrite Hq' in Hp'.
  simplify_eq. rewrite Hoff, Hoff', <- (block_start_succ g id) by (done || lia).
  apply block_start_mono; [done|lia].
Qed.

Lemma reserved_class_for g inventory body (c : BlockClass) spec :
  geometry_class g c = Some spec -> class_inventory c = inventory ->
  (forall c', valid_class c' -> class_inventory c' = inventory -> c' = c) ->
  match (if body <=? ClassSpec_body_capacity spec then Some c else None) with
  | Some c => class_inventory c = inventory /\ class_holds g c body /\
      forall c' spec spec', valid_class c' -> class_inventory c' = inventory ->
        class_holds g c' body -> geometry_class g c = Some spec -> geometry_class g c' = Some spec' ->
        cs_block_bytes spec <= cs_block_bytes spec'
  | None => forall c', valid_class c' -> class_inventory c' = inventory -> ~ class_holds g c' body
  end.
Proof.
  intros Hc Hi Huniq. bcase.
  - split; [done|]. split; [exists spec; done|]. intros c' s s' Hv Hi' _ Hs Hs'.
    rewrite (Huniq c') in * by done. simplify_eq. lia.
  - intros c' Hv Hi' (s & Hs & Hle). rewrite (Huniq c') in * by done. simplify_eq. lia.
Qed.

Lemma ordinary_class_lookup g c spec :
  geometry_ok g -> valid_class c -> class_inventory c = InvOrdinary -> geometry_class g c = Some spec ->
  exists i, c = Ordinary i /\ take ORDINARY_CLASSES (pg_classes g) !! i = Some spec.
Proof.
  intros Hg Hv Hi Hs. apply valid_class_cases in Hv as [(i & -> & Hlt)|[->| ->]]; try done.
  exists i. by rewrite lookup_take_lt.
Qed.

Lemma reserved_lookup g c :
  geometry_ok g -> c = Control \/ c = Terminal -> is_Some (geometry_class g c).
Proof.
  intros Hg Hc. apply lookup_lt_is_Some_2. rewrite (go_length g Hg).
  destruct Hc as [->| ->]; unfold class_index, ORDINARY_CLASSES, CLASS_COUNT; lia.
Qed.

(** a reservation draws from its own inventory, from a class that holds the body, and from
    the smallest such class; when no class of the inventory holds the body, none is drawn. *)
Theorem class_for_smallest_fit g inventory body :
  geometry_ok g ->
  match class_for g inventory body with
  | Some c =>
      class_inventory c = inventory /\ class_holds g c body /\
      forall c' spec spec', valid_class c' -> class_inventory c' = inventory ->
        class_holds g c' body -> geometry_class g c = Some spec -> geometry_class g c' = Some spec' ->
        cs_block_bytes spec <= cs_block_bytes spec'
  | None => forall c', valid_class c' -> class_inventory c' = inventory -> ~ class_holds g c' body
  end.
Proof.
  intros Hg. destruct inventory; unfold class_for.
  - unfold ordinary_class_for. destruct (find_class _ _ _) as [j|] eqn:Hf; simpl.
    + apply find_class_Some in Hf as (i & c & -> & Hi & Hcap & Hmin). simpl in *.
      apply lookup_take_Some in Hi as Hi2. destruct Hi2 as [Hi2 Hlt].
      split; [done|]. split; [by exists c|].
      intros c' spec spec' Hv Hinv (s' & Hs' & Hh) Hs Hs''. rewrite Hs' in Hs''. injection Hs'' as <-.
      destruct (ordinary_class_lookup g c' s') as (i' & -> & Hi'); try done.
      destruct (Nat.lt_ge_cases i' i) as [Hlt'|Hge].
      * specialize (Hmin _ _ Hlt' Hi'). lia.
      * unfold geometry_class in Hs. simpl in Hs. rewrite Hi2 in Hs. injection Hs as <-.
        eapply ascending_lookup; [apply Hg|exact Hi|exact Hi'|done].
    + intros c' Hv Hinv (s & Hs & Hh).
      destruct (ordinary_class_lookup g c' s) as (i' & -> & Hi'); try done.
      pose proof (find_class_None _ _ _ Hf _ _ Hi'). lia.
  - destruct (reserved_lookup g Control) as [c Hc]; [done|auto|]. rewrite Hc. cbn.
    apply reserved_class_for; try done.
    intros c' [(i & -> & ?)|[->| ->]]%valid_class_cases Hi; done.
  - destruct (reserved_lookup g Terminal) as [c Hc]; [done|auto|]. rewrite Hc. cbn.
    apply reserved_class_for; try done.
    intros c' [(i & -> & ?)|[->| ->]]%valid_class_cases Hi; done.
Qed.

Lemma class_for_smallest_fit_witness :
  class_for host_geometry InvOrdinary 4077 = Some (Ordinary 1) /\ class_holds host_geometry (Ordinary 1) 4077.
Proof.
  pose proof (class_for_smallest_fit host_geometry InvOrdinary 4077 host_geometry_ok) as H.
  assert (class_for host_geometry InvOrdinary 4077 = Some (Ordinary 1)) as E by reflexivity.
  rewrite E in H. split; [exact E | apply H].
Defined.

(** a mapping layout that is computed without error puts every control region, descriptor
    slot, completion cell, return word and arena byte in disjoint places in address order below
    its total, with the arena and the total page-aligned; and for every page size up to 4 GiB
    and every arena up to 2^63 bytes it is computed without error. *)
Theorem MappingLayout_new_correct g page_size :
  geometry_ok g -> page_ok page_size -> is_u64 page_size ->
  (forall l, MappingLayout_new g page_size = Ok l -> layout_ok g page_size l) /\
  (page_size <= 2 ^ 32 -> region_sum (pg_classes g) <= 2 ^ 63 ->
   exists l, MappingLayout_new g page_size = Ok l).
Proof.
  intros Hg Hp Hu. split; [intros l; by apply MappingLayout_new_ok|].
  intros. by apply MappingLayout_new_exists.
Qed.

Lemma MappingLayout_new_correct_witness :
  exists l, MappingLayout_new host_geometry 4096 = Ok l /\ layout_ok host_geometry 4096 l /\
    ml_total l = 95825920.
Proof.
  eexists. split; [vm_compute; reflexivity|]. split; [|reflexivity].
  apply (MappingLayout_new_correct host_geometry 4096 host_geometry_ok).
  - split; [reflexivity | exists 1; reflexivity].
  - mlia.
  - vm_compute. reflexivity.
Defined.

(** in such a layout every descriptor index below the depth, every block below the block
    count and every return word has an offset, the element lies inside its region, and every
    other index is refused. *)
Theorem element_offsets_in_bounds g page_size l i :
  layout_ok g page_size l -> 0 <= i -> geometry_ok g ->
  descriptor_offset l i =
    (if i <? ml_descriptor_depth l then Some (ml_descriptors l + i * DESCRIPTOR_SLOT_BYTES) else None) /\
  completion_offset l i =
    (if i <? ml_block_count l then Some (ml_completions l + i * SIZE_OF_U64) else None) /\
  return_offset l i =
    (if i <? ml_return_words l then Some (ml_returns l + i * SIZE_OF_U64) else None) /\
  (i < ml_descriptor_depth l -> ml_descriptors l + (i + 1) * DESCRIPTOR_SLOT_BYTES <= ml_completions l) /\
  (i < ml_block_count l -> ml_completions l + (i + 1) * SIZE_OF_U64 <= ml_returns l /\
     i / RETURN_WORD_BITS < ml_return_words l) /\
  (i < ml_return_words l -> ml_returns l + (i + 1) * SIZE_OF_U64 <= ml_arena l).
Proof.
  intros Hl Hi Hg. pose proof Hl as []. pose proof (block_count_range g Hg).
  unfold layout_regions in *. cbn in lo_regions0. destruct_and?.
  unfold descriptor_offset, completion_offset, return_offset, DESCRIPTOR_SLOT_BYTES, SIZE_OF_U64, RETURN_WORD_BITS in *.
  split_and!; try (intros; split_and?; try apply Z.div_lt_upper_bound; lia).
  all: bcase; bcase; try lia; try done; rewrite checked_mul_ok by mlia; cbn; rewrite checked_add_ok by mlia; done.
Qed.

Lemma element_offsets_in_bounds_witness :
  exists l, MappingLayout_new host_geometry 4096 = Ok l /\ completion_offset l 2 = Some (ml_completions l + 16).
Proof.
  destruct (MappingLayout_new host_geometry 4096) as [l|] eqn:E; [|discriminate E].
  exists l. split; [reflexivity|].
  pose proof (element_offsets_in_bounds host_geometry 4096 l 2
    (MappingLayout_new_ok host_geometry 4096 l host_geometry_ok ltac:(mlia) E) ltac:(lia) host_geometry_ok)
    as (_ & H & _).
  rewrite H. vm_compute in E. injection E as <-. reflexivity.
Defined.
