(* ===== verification/Descriptor.v ===== *)
(** * Descriptor: validation of frames and payload returns read from shared memory
      (crates/shm-transport/src/descriptor.rs). *)
From S2P Require Import Prelude Pool.

(** ** Data *)
Definition SETUP_MAPPING_COUNT : Z := 2.
Definition SETUP_DOORBELL_COUNT : Z := 4.
Definition SETUP_DESCRIPTOR_COUNT : Z := SETUP_MAPPING_COUNT + SETUP_DOORBELL_COUNT.

Inductive DescriptorError :=
| RandomSourceUnavailable
| InvalidHardwareProfile
| InvalidSequence
| InvalidBlock
| InvalidGeneration
| FrameTooLarge
| BodyExceedsBlock
| DescriptorOverflow
| WireHeaderMismatch
| StaleCompletion
| FutureCompletion
| DuplicateLiveBlock
| NonIncreasingGeneration.

#[global] Instance DescriptorError_eq_dec : EqDecision DescriptorError.
Proof. solve_decision. Defined.

(** A hardware-profile identifier is its UTF-8 bytes. *)
Record HardwareProfileId := mkHardwareProfileId { hp_bytes : list Z }.

(** 16 bytes drawn once per pool. *)
Record Incarnation := mkIncarnation { inc_bytes : list Z }.

Record PayloadIdentity := mkIdentity {
  pi_incarnation : Incarnation;
  pi_lane : Z;
  pi_block : Z;
  pi_generation : Z;
}.

(** One descriptor slot as copied out of shared memory. *)
Record PoolDescriptor := from_untrusted {
  pd_sequence : Z;
  pd_block : Z;
  pd_generation : Z;
  pd_body_len : Z;
}.

Record ValidatedDescriptor := mkValidated {
  vd_sequence : Z;
  vd_block : Z;
  vd_generation : Z;
  vd_body_len : Z;
  vd_placement : BlockPlacement;
}.

Record CompletionRecord := mkCompletion { cr_block : Z; cr_generation : Z }.

#[global] Instance Incarnation_eq_dec : EqDecision Incarnation.
Proof. solve_decision. Defined.
#[global] Instance PayloadIdentity_eq_dec : EqDecision PayloadIdentity.
Proof. solve_decision. Defined.
#[global] Instance PoolDescriptor_eq_dec : EqDecision PoolDescriptor.
Proof. solve_decision. Defined.

(** ** Operations *)
Definition check_wire_header (wire_header : list Z) (body_len : Z) : result DescriptorError unit :=
  let declared_len := from_le_bytes (take 4 wire_header) in
  if negb (declared_len =? body_len) then Err WireHeaderMismatch else Ok tt.

Definition is_ascii_alphanumeric (b : Z) : bool :=
  ((48 <=? b) && (b <=? 57)) || ((65 <=? b) && (b <=? 90)) || ((97 <=? b) && (b <=? 122)).

(** The bytes ['-'], ['_'] and ['.'] are 45, 95 and 46. *)
Definition profile_byte_ok (b : Z) : bool :=
  is_ascii_alphanumeric b || (b =? 45) || (b =? 95) || (b =? 46).

Definition HardwareProfileId_new (value : list Z) : result DescriptorError HardwareProfileId :=
  if (Z.of_nat (length value) =? 0) || (64 <? Z.of_nat (length value)) || negb (forallb profile_byte_ok value)
  then Err InvalidHardwareProfile
  else Ok (mkHardwareProfileId value).

Definition PoolDescriptor_validate (d : PoolDescriptor) (expected_sequence : Z) (g : PoolGeometry)
    : result DescriptorError ValidatedDescriptor :=
  if (pd_sequence d =? 0) || negb (pd_sequence d =? expected_sequence) then Err InvalidSequence
  else
    block ← ok_or (try_u32 (pd_block d)) InvalidBlock;
    p ← ok_or (placement g block) InvalidBlock;
    if pd_generation d =? 0 then Err InvalidGeneration
    else if MAX_FRAME_BYTES <? pd_body_len d then Err FrameTooLarge
    else if BlockPlacement_body_capacity p <? pd_body_len d then Err BodyExceedsBlock
    else
      _ ← ok_or (start ← checked_add u64_MAX (bp_offset p) WIRE_HEADER_BYTES;
                 checked_add u64_MAX start (pd_body_len d)) DescriptorOverflow;
      Ok {| vd_sequence := pd_sequence d; vd_block := block; vd_generation := pd_generation d;
            vd_body_len := pd_body_len d; vd_placement := p |}.

Definition CompletionRecord_validate (c : CompletionRecord) (g : PoolGeometry) (live : option Z)
    : result DescriptorError Z :=
  block ← ok_or (try_u32 (cr_block c)) InvalidBlock;
  if negb (contains g block) then Err InvalidBlock
  else if cr_generation c =? 0 then Err InvalidGeneration
  else match live with
       | None => Err FutureCompletion
       | Some live =>
           if live <? cr_generation c then Err FutureCompletion
           else if cr_generation c <? live then Err StaleCompletion
           else Ok block
       end.

(** ** Specification vocabulary *)
Record descriptor_range (d : PoolDescriptor) : Prop := {
  dr_sequence : is_u64 (pd_sequence d);
  dr_block : is_u64 (pd_block d);
  dr_generation : is_u64 (pd_generation d);
  dr_body : is_u64 (pd_body_len d);
}.

(** The bytes a validated frame occupies in the arena: header then body. *)
Definition frame_end (v : ValidatedDescriptor) : Z :=
  bp_offset (vd_placement v) + WIRE_HEADER_BYTES + vd_body_len v.

(** ** Lemmas *)
Lemma contains_iff g id : contains g id = true <-> id < block_count g.
Proof. unfold contains. apply Z.ltb_lt. Qed.

Lemma body_capacity_le p len :
  0 <= len <= BlockPlacement_body_capacity p -> 0 < len \/ WIRE_HEADER_BYTES <= bp_block_bytes p ->
  WIRE_HEADER_BYTES + len <= bp_block_bytes p.
Proof. unfold BlockPlacement_body_capacity, saturating_sub. lia. Qed.

Lemma placement_block_bytes g id p :
  geometry_ok g -> 0 <= id -> placement g id = Some p -> WIRE_HEADER_BYTES < bp_block_bytes p <= u64_MAX.
Proof.
  intros Hg Hid Hp.
  destruct (Z.lt_ge_cases id (block_count g)); [|by rewrite placement_None in Hp].
  destruct (placement_Some g id) as (q & i & Hq & _ & _ & Hc & _); [done|lia|]. simplify_eq.
  apply fmap_Some in Hc as (c & Hci & ->).
  pose proof (Forall_lookup_1 _ _ _ _ (go_classes g Hg) Hci) as ((Hb & _) & _ & Hpos & [k Hk]).
  unfold BLOCK_ALIGN, WIRE_HEADER_BYTES in *. munfold. nia.
Qed.

Lemma placement_arena g id p :
  geometry_ok g -> 0 <= id -> placement g id = Some p ->
  0 <= bp_offset p /\ bp_offset p + bp_block_bytes p <= region_sum (pg_classes g) /\ id < block_count g.
Proof.
  intros Hg Hid Hp.
  destruct (Z.lt_ge_cases id (block_count g)); [|by rewrite placement_None in Hp].
  destruct (placement_Some g id) as (q & i & Hq & Ho & Hs & _); [done|lia|]. simplify_eq.
  pose proof (block_end_arena g id _ Hg Hid Hs). rewrite Ho. lia.
Qed.

(** ** Properties *)

(** the receiver accepts a descriptor exactly when its sequence is nonzero and the expected
    one, its block exists in the receiver's own geometry, its generation is nonzero and its body
    fits the protocol maximum and the block; a frame it accepts lies inside the block and the
    arena, and the overflow refusal cannot occur. *)
Theorem validate_accepts_exactly d expected g :
  geometry_ok g -> descriptor_range d ->
  (forall v, PoolDescriptor_validate d expected g = Ok v <->
    pd_sequence d <> 0 /\ pd_sequence d = expected /\ pd_block d < block_count g /\
    pd_generation d <> 0 /\ pd_body_len d <= MAX_FRAME_BYTES /\
    exists p, placement g (pd_block d) = Some p /\ pd_body_len d <= BlockPlacement_body_capacity p /\
      v = mkValidated expected (pd_block d) (pd_generation d) (pd_body_len d) p) /\
  (forall v, PoolDescriptor_validate d expected g = Ok v ->
    0 <= bp_offset (vd_placement v) /\
    frame_end v <= bp_offset (vd_placement v) + bp_block_bytes (vd_placement v) /\
    bp_offset (vd_placement v) + bp_block_bytes (vd_placement v) <= region_sum (pg_classes g)) /\
  PoolDescriptor_validate d expected g <> Err DescriptorOverflow.
Proof.
  intros Hg [Hs Hb Hgen Hlen]. unfold PoolDescriptor_validate, try_u32.
  pose proof (block_count_range g Hg). unfold MAX_BLOCKS in *.
  destruct (Z.eqb_spec (pd_sequence d) 0); cbn; [split_and!; try done; naive_solver|].
  destruct (Z.eqb_spec (pd_sequence d) expected); cbn; [|split_and!; try done; naive_solver].
  destruct (Z.leb_spec (pd_block d) u32_MAX); cbn; [|split_and!; try done; intros; split; [done|munfold; naive_solver lia]].
  destruct (placement g (pd_block d)) as [p|] eqn:Hp; cbn; [|split_and!; try done; naive_solver].
  destruct (Z.eqb_spec (pd_generation d) 0); cbn; [split_and!; try done; naive_solver|].
  destruct (Z.ltb_spec MAX_FRAME_BYTES (pd_body_len d)); cbn; [split_and!; try done; naive_solver lia|].
  destruct (Z.ltb_spec (BlockPlacement_body_capacity p) (pd_body_len d)) as [|Hcap]; cbn;
    [split_and!; try done; naive_solver lia|].
  destruct (placement_arena g _ p Hg ltac:(apply Hb) Hp) as (Ho0 & Ho1 & Ho2).
  pose proof (placement_block_bytes g _ p Hg ltac:(apply Hb) Hp).
  assert (WIRE_HEADER_BYTES + pd_body_len d <= bp_block_bytes p)
    by (apply body_capacity_le; unfold is_u64 in *; lia).
  pose proof (go_arena g Hg). unfold is_u64, WIRE_HEADER_BYTES in *.
  rewrite checked_add_ok by lia. cbn. rewrite checked_add_ok by lia. cbn.
  split_and!; [|intros v [= <-]; unfold frame_end, WIRE_HEADER_BYTES; cbn; lia|done].
  intros v. subst expected. split; [intros [= <-]|]; naive_solver.
Qed.

Lemma validate_accepts_exactly_witness :
  exists v, PoolDescriptor_validate (from_untrusted 5 186 3 32748) 5 host_geometry = Ok v /\
    frame_end v <= region_sum (pg_classes host_geometry).
Proof.
  destruct (PoolDescriptor_validate (from_untrusted 5 186 3 32748) 5 host_geometry) as [v|] eqn:E;
    [|vm_compute in E; discriminate E].
  exists v. split; [reflexivity|].
  destruct (validate_accepts_exactly (from_untrusted 5 186 3 32748) 5 host_geometry host_geometry_ok)
    as (_ & H & _); [constructor; cbn; mlia|].
  destruct (H v E) as (_ & H1 & H2). eapply Z.le_trans; [exact H1 | exact H2].
Defined.

(** a payload return frees its block exactly when the block exists, the generation is nonzero
    and it is the generation the producer has outstanding; an older generation is stale, and a
    newer one, or any return for a block that is not outstanding, is a protocol error. *)
Theorem completion_frees_live_generation c g live :
  geometry_ok g -> is_u64 (cr_block c) -> is_u64 (cr_generation c) -> cr_block c < block_count g ->
  cr_generation c <> 0 ->
  CompletionRecord_validate c g live =
    match live with
    | None => Err FutureCompletion
    | Some live =>
        match cr_generation c ?= live with
        | Lt => Err StaleCompletion
        | Eq => Ok (cr_block c)
        | Gt => Err FutureCompletion
        end
    end.
Proof.
  intros Hg Hb Hgen Hlt Hnz. pose proof (block_count_range g Hg). unfold MAX_BLOCKS in *.
  unfold CompletionRecord_validate, try_u32. rewrite (proj2 (Z.leb_le _ _)) by mlia. cbn.
  rewrite (proj2 (contains_iff _ _) Hlt). cbn. bcase; [done|].
  destruct live as [live|]; [|done]. repeat bcase; destruct (Z.compare_spec (cr_generation c) live); (done || lia).
Qed.

Lemma completion_frees_live_generation_witness :
  CompletionRecord_validate (mkCompletion 7 4) host_geometry (Some 4) = Ok 7.
Proof.
  apply (completion_frees_live_generation (mkCompletion 7 4) host_geometry (Some 4)).
  - apply host_geometry_ok.
  - cbn. mlia.
  - cbn. mlia.
  - vm_compute. reflexivity.
  - cbn. lia.
Defined.
