(* ===== verification/Lifecycle.v ===== *)
(** * Lifecycle: the close-state machine of one ring attachment
      (crates/shm-transport/src/lifecycle.rs). *)
From S2P Require Import Prelude.
From stdpp Require Import relations.

(** ** Data *)
Inductive CloseState :=
| Open
| Quiescing
| DrainingPublished
| StoppingEnvScheduling
| RevokingJsOnEnv
| AsyncCleanupJoin
| AwaitingRustScopes
| ReleasingSamples
| DroppingTransport
| Joined
| Quarantined.

#[global] Instance CloseState_eq_dec : EqDecision CloseState.
Proof. solve_decision. Defined.

Inductive LifecycleError := InvalidTransition | LifecycleTerminal.

Record Lifecycle := mkLifecycle { lc_state : CloseState; lc_prepared : bool }.

(** ** Operations *)
Definition Lifecycle_new : Lifecycle := {| lc_state := Open; lc_prepared := false |}.

Definition mark_prepared (l : Lifecycle) : result LifecycleError Lifecycle :=
  if negb (bool_decide (lc_state l = Open)) || lc_prepared l then Err InvalidTransition
  else Ok {| lc_state := lc_state l; lc_prepared := true |}.

Definition must_fail_closed (l : Lifecycle) : bool := lc_prepared l.

(** The edges [advance] lists. *)
Definition valid_edge (state next : CloseState) : bool :=
  match state, next with
  | Open, Quiescing
  | Quiescing, DrainingPublished
  | DrainingPublished, StoppingEnvScheduling
  | StoppingEnvScheduling, RevokingJsOnEnv
  | RevokingJsOnEnv, AsyncCleanupJoin
  | RevokingJsOnEnv, Quarantined
  | AsyncCleanupJoin, AwaitingRustScopes
  | AwaitingRustScopes, ReleasingSamples
  | ReleasingSamples, DroppingTransport
  | DroppingTransport, Joined => true
  | _, _ => false
  end.

Definition is_terminal (state : CloseState) : bool :=
  match state with Joined | Quarantined => true | _ => false end.

Definition advance (l : Lifecycle) (next : CloseState) : result LifecycleError Lifecycle :=
  if negb (valid_edge (lc_state l) next)
  then Err (if is_terminal (lc_state l) then LifecycleTerminal else InvalidTransition)
  else Ok {| lc_state := next; lc_prepared := lc_prepared l |}.

Definition reusable (l : Lifecycle) : bool := bool_decide (lc_state l = Joined).

(** ** Reachability *)
Inductive lifecycle_step : Lifecycle -> Lifecycle -> Prop :=
| step_prepare l l' : mark_prepared l = Ok l' -> lifecycle_step l l'
| step_advance l l' next : advance l next = Ok l' -> lifecycle_step l l'.

(** Position of a state on the way to [Joined]; [Quarantined] leaves that way. *)
Definition close_rank (s : CloseState) : nat :=
  match s with
  | Open => 0 | Quiescing => 1 | DrainingPublished => 2 | StoppingEnvScheduling => 3
  | RevokingJsOnEnv => 4 | AsyncCleanupJoin => 5 | AwaitingRustScopes => 6
  | ReleasingSamples => 7 | DroppingTransport => 8 | Joined => 9 | Quarantined => 9
  end.

(** The states a clean close visits, in order. *)
Definition close_path : list CloseState :=
  [Open; Quiescing; DrainingPublished; StoppingEnvScheduling; RevokingJsOnEnv; AsyncCleanupJoin;
   AwaitingRustScopes; ReleasingSamples; DroppingTransport; Joined].

(** Running [advance] along a list of states. *)
Fixpoint advance_all (l : Lifecycle) (path : list CloseState) : result LifecycleError Lifecycle :=
  match path with
  | [] => Ok l
  | next :: rest => l' ← advance l next; advance_all l' rest
  end.

(** ** Lemmas *)
Lemma valid_edge_rank s s' : valid_edge s s' = true -> s' = Quarantined \/ close_rank s' = S (close_rank s).
Proof. destruct s, s'; try done; auto. Qed.

Lemma advance_Ok l next l' :
  advance l next = Ok l' ->
  valid_edge (lc_state l) next = true /\ l' = mkLifecycle next (lc_prepared l).
Proof. unfold advance. destruct (valid_edge _ _); [|done]. intros [= <-]. done. Qed.

Lemma mark_prepared_Ok l l' :
  mark_prepared l = Ok l' -> lc_state l = Open /\ lc_prepared l = false /\ l' = mkLifecycle Open true.
Proof.
  unfold mark_prepared. case_bool_decide as E; [|done]. destruct l as [s []]; [done|].
  simpl in *. intros [= <-]. by subst.
Qed.

(** Every reachable machine was driven along a prefix of [close_path], or along the first five
    states of it and then to [Quarantined]. *)
Definition visited (l : Lifecycle) : Prop :=
  exists path, advance_all (mkLifecycle Open (lc_prepared l)) path = Ok l /\
    (Open :: path = take (S (close_rank (lc_state l))) close_path \/
     path = [Quiescing; DrainingPublished; StoppingEnvScheduling; RevokingJsOnEnv; Quarantined]).

Lemma advance_all_app l path path' :
  advance_all l (path ++ path') = (l' ← advance_all l path; advance_all l' path').
Proof.
  revert l. induction path as [|s path IH]; intros l; [done|]. simpl.
  unfold mbind, result_bind in *. destruct (advance l s); [apply IH|done].
Qed.

Lemma visited_step l l' : visited l -> lifecycle_step l l' -> visited l'.
Proof.
  intros (path & Hp & Hform) Hstep. destruct Hstep as [l l' Hm|l l' next Ha].
  - apply mark_prepared_Ok in Hm as (Hs & Hpr & ->). exists []. split; [done|]. left. done.
  - apply advance_Ok in Ha as [Hv ->]. exists (path ++ [next]). split.
    + rewrite advance_all_app. cbn. rewrite Hp. cbn. unfold advance. by rewrite Hv.
    + destruct Hform as [Hform| ->].
      * destruct (lc_state l) eqn:Es, next; try done; simpl in Hform; simplify_eq; simpl; auto.
      * destruct l as [s p]. simpl in Hp, Hv. injection Hp as <-. by destruct next.
Qed.

(** ** Properties *)

(** every sequence of operations on a fresh machine leaves it at a point of the one clean
    close path, or in quarantine reached from revocation, never anywhere else; no operation
    leaves a terminal state; storage is reusable exactly after the whole path was visited; and
    once the peer was told about the ring that fact is never forgotten. *)
Theorem lifecycle_reachable_visited l l' :
  rtc lifecycle_step Lifecycle_new l ->
  visited l /\
  (lifecycle_step l l' -> is_terminal (lc_state l) = false /\
     (must_fail_closed l = true -> must_fail_closed l' = true)) /\
  (reusable l = true <-> lc_state l = Joined) /\
  (reusable l = true ->
     advance_all (mkLifecycle Open (lc_prepared l)) (tail close_path) = Ok l).
Proof.
  intros Hreach. assert (visited l) as Hv.
  { clear l'. revert l Hreach. apply (rtc_ind_r visited); [|intros; by eapply visited_step].
    exists []. split; [done|]. by left. }
  split; [done|]. split; [|split].
  - intros [? ? (Hs & Hp & ->)%mark_prepared_Ok|? ? next [He ->]%advance_Ok].
    + rewrite Hs. split; [done|]. done.
    + split; [|done]. destruct (lc_state _), next; done.
  - unfold reusable. by rewrite bool_decide_eq_true.
  - unfold reusable. rewrite bool_decide_eq_true. intros Hj.
    destruct Hv as (path & Hp & [Hf| ->]).
    + rewrite Hj in Hf. simpl in Hf. by simplify_eq.
    + simpl in Hp. destruct l as [s p]. simpl in *. by simplify_eq.
Qed.

Lemma lifecycle_reachable_visited_witness :
  exists l, rtc lifecycle_step Lifecycle_new l /\ lc_state l = Joined /\ must_fail_closed l = true /\
    advance_all (mkLifecycle Open true) (tail close_path) = Ok l.
Proof.
  exists (mkLifecycle Joined true).
  assert (rtc lifecycle_step Lifecycle_new (mkLifecycle Joined true)) as Hr.
  { eapply rtc_l; [apply step_prepare; reflexivity|]. cbn.
    do 9 (eapply rtc_l; [first
      [ by apply (step_advance _ _ Quiescing) | by apply (step_advance _ _ DrainingPublished)
      | by apply (step_advance _ _ StoppingEnvScheduling) | by apply (step_advance _ _ RevokingJsOnEnv)
      | by apply (step_advance _ _ AsyncCleanupJoin) | by apply (step_advance _ _ AwaitingRustScopes)
      | by apply (step_advance _ _ ReleasingSamples) | by apply (step_advance _ _ DroppingTransport)
      | by apply (step_advance _ _ Joined) ]|]). apply rtc_refl. }
  split; [exact Hr|]. split; [reflexivity|]. split; [reflexivity|].
  apply (lifecycle_reachable_visited (mkLifecycle Joined true) (mkLifecycle Joined true) Hr). reflexivity.
Defined.
