(* ===== verification/SpanCopy.v ===== *)
(** * SpanCopy: atomic-width copies between private memory and a shared span
      (crates/shm-transport/src/lease.rs).

    A memory maps an absolute address to a byte. The shared mapping and the private buffer are
    two memories, because the copy contract forbids overlap. Words are little-endian. *)
From S2P Require Import Prelude.
From Stdlib Require Import Setoid Morphisms.

(** ** Memory *)
Definition mem : Type := Z -> Z.

Definition store_byte (d : mem) (a b : Z) : mem := fun x => if x =? a then b else d x.

Definition load_bytes (m : mem) (a : Z) (n : nat) : list Z := (fun i => m (a + Z.of_nat i)) <$> seq 0 n.

(** Writes a list of bytes at consecutive addresses. *)
Fixpoint store_bytes (d : mem) (a : Z) (bs : list Z) : mem :=
  match bs with
  | [] => d
  | b :: bs => store_bytes (store_byte d a b) (a + 1) bs
  end.

Definition WORD : Z := 8.
Definition WORDS_PER_STEP : Z := 4.
Definition STEP_BYTES : Z := WORDS_PER_STEP * WORD.

(** One 64-bit access: [AtomicU64::load] and [AtomicU64::store] at an 8-aligned address. *)
Definition load_word (m : mem) (a : Z) : Z := from_le_bytes (load_bytes m a 8).
Definition store_word (d : mem) (a w : Z) : mem := store_bytes d a (le_bytes 8 w).

(** ** Access shape *)
Record AccessShape := mkShape { as_head : Z; as_words : Z; as_len : Z }.

Definition AccessShape_of (base len : Z) : AccessShape :=
  let misalignment := base mod WORD in
  let head := if misalignment =? 0 then 0 else Z.min (WORD - misalignment) len in
  let words := (len - head) / WORD in
  {| as_head := head; as_words := words; as_len := len |}.

Definition word_starts (s : AccessShape) : list Z :=
  (fun word => as_head s + Z.of_nat word * WORD) <$> seq 0 (Z.to_nat (as_words s)).

(** Start and length of the tail. *)
Definition tail_start (s : AccessShape) : Z := as_head s + as_words s * WORD.
Definition tail_len (s : AccessShape) : Z := as_len s - tail_start s.

Definition word_containing (s : AccessShape) (index : Z) : option Z :=
  if (index <? as_head s) || (as_head s + as_words s * WORD <=? index) then None
  else Some (as_head s + (index - as_head s) / WORD * WORD).

(** ** Span reads *)
Definition read_byte (m : mem) (base len index : Z) : option Z :=
  if len <=? index then None
  else
    let shape := AccessShape_of base len in
    match word_containing shape index with
    | Some word_start =>
        le_bytes 8 (load_word m (base + word_start)) !! Z.to_nat (index - word_start)
    | None => Some (m (base + index))
    end.

Definition add_bytes (sum : Z) (bs : list Z) : Z := foldl (wrapping_add u64_MAX) sum bs.

Definition checksum (m : mem) (base len : Z) : Z :=
  let shape := AccessShape_of base len in
  let sum := add_bytes 0 (load_bytes m base (Z.to_nat (as_head shape))) in
  let sum := foldl (fun sum word_start => add_bytes sum (le_bytes 8 (load_word m (base + word_start))))
                   sum (word_starts shape) in
  add_bytes sum (load_bytes m (base + tail_start shape) (Z.to_nat (tail_len shape))).

(** ** Copy out of shared memory *)
Fixpoint copy_bytes (n : nat) (m : mem) (source : Z) (d : mem) (out : Z) : mem :=
  match n with
  | O => d
  | S n => copy_bytes n m (source + 1) (store_byte d out (m source)) (out + 1)
  end.

Fixpoint copy_single_words (n : nat) (m : mem) (word : Z) (d : mem) (out : Z) : mem :=
  match n with
  | O => d
  | S n => copy_single_words n m (word + WORD) (store_word d out (load_word m word)) (out + WORD)
  end.

(** The four words of a step are loaded before any is stored. *)
Definition copy_step (m : mem) (source : Z) (d : mem) (out : Z) : mem :=
  let w0 := load_word m source in
  let w1 := load_word m (source + WORD) in
  let w2 := load_word m (source + 2 * WORD) in
  let w3 := load_word m (source + 3 * WORD) in
  store_word (store_word (store_word (store_word d out w0) (out + WORD) w1) (out + 2 * WORD) w2)
    (out + 3 * WORD) w3.

Fixpoint copy_steps (n : nat) (m : mem) (word : Z) (d : mem) (out : Z) : mem :=
  match n with
  | O => d
  | S n => copy_steps n m (word + STEP_BYTES) (copy_step m word d out) (out + STEP_BYTES)
  end.

Definition copy_words_out (m : mem) (source : Z) (d : mem) (out : Z) (words : Z) : mem :=
  let lead := Z.min (((- source) mod STEP_BYTES) / WORD) words in
  let rest := words - lead in
  let steps := rest / WORDS_PER_STEP in
  let singles := rest mod WORDS_PER_STEP in
  let d := copy_single_words (Z.to_nat lead) m source d out in
  let d := copy_steps (Z.to_nat steps) m (source + lead * WORD) d (out + lead * WORD) in
  copy_single_words (Z.to_nat singles) m (source + lead * WORD + steps * STEP_BYTES) d
    (out + lead * WORD + steps * STEP_BYTES).

(** The merging loop of [stream_words] for a misaligned destination; [index] is the next word to
    load and [n] the words left. *)
Fixpoint stream_merged (n : nat) (m : mem) (source : Z) (d : mem) (out lead index current : Z)
    : mem * Z :=
  match n with
  | O => (d, current)
  | S n =>
      let next := load_word m (source + index * WORD) in
      let merged := Z.lor (Z.shiftr current (8 * lead))
                          (Z.land (Z.shiftl next (8 * (WORD - lead))) u64_MAX) in
      stream_merged n m source (store_word d (out + lead + (index - 1) * WORD) merged) out lead
        (index + 1) next
  end.

Definition stream_words (m : mem) (source : Z) (d : mem) (out : Z) (words : Z) : mem :=
  let lead := (- out) mod WORD in
  if lead =? 0 then copy_single_words (Z.to_nat words) m source d out
  else
    let current := load_word m source in
    let d := store_bytes d out (take (Z.to_nat lead) (le_bytes 8 current)) in
    let '(d, current) := stream_merged (Z.to_nat (words - 1)) m source d out lead 1 current in
    store_bytes d (out + lead + (words - 1) * WORD) (drop (Z.to_nat lead) (le_bytes 8 current)).

Definition STREAMING_COPY_OUT_MIN_BYTES : Z := 8 * 2 ^ 20.

Definition copy_out_uninit (m : mem) (source : Z) (d : mem) (out len : Z) : mem :=
  let shape := AccessShape_of source len in
  let d := copy_bytes (Z.to_nat (as_head shape)) m source d out in
  let d :=
    if STREAMING_COPY_OUT_MIN_BYTES <=? as_words shape * WORD
    then stream_words m (source + as_head shape) d (out + as_head shape) (as_words shape)
    else copy_words_out m (source + as_head shape) d (out + as_head shape) (as_words shape) in
  copy_bytes (Z.to_nat (tail_len shape)) m (source + tail_start shape) d (out + tail_start shape).

(** ** Copy into shared memory *)
Definition copy_words_in (p : mem) (source : Z) (m : mem) (destination words : Z) : mem :=
  let steps := words / WORDS_PER_STEP in
  let singles := words mod WORDS_PER_STEP in
  let m := copy_steps (Z.to_nat steps) p source m destination in
  copy_single_words (Z.to_nat singles) p (source + steps * STEP_BYTES) m (destination + steps * STEP_BYTES).

Definition LINE_WORDS : Z := 8.
Definition PREFETCHED_COPY_IN_MIN_BYTES : Z := 2 ^ 20.

(** The line loop; a prefetch touches no memory. *)
Fixpoint copy_lines (n : nat) (p : mem) (source : Z) (m : mem) (destination : Z) : mem :=
  match n with
  | O => m
  | S n => copy_lines n p (source + LINE_WORDS * WORD)
             (copy_words_in p source m destination LINE_WORDS) (destination + LINE_WORDS * WORD)
  end.

Definition store_words_prefetching (p : mem) (source : Z) (m : mem) (destination words : Z) : mem :=
  let lines := words / LINE_WORDS in
  let rest := words mod LINE_WORDS in
  let m := copy_lines (Z.to_nat lines) p source m destination in
  copy_words_in p (source + lines * (LINE_WORDS * WORD)) m (destination + lines * (LINE_WORDS * WORD)) rest.

Definition copy_in (p : mem) (source : Z) (len : Z) (m : mem) (destination : Z) : mem :=
  let shape := AccessShape_of destination len in
  let m := copy_bytes (Z.to_nat (as_head shape)) p source m destination in
  let m :=
    if PREFETCHED_COPY_IN_MIN_BYTES <=? as_words shape * WORD
    then store_words_prefetching p (source + as_head shape) m (destination + as_head shape) (as_words shape)
    else copy_words_in p (source + as_head shape) m (destination + as_head shape) (as_words shape) in
  copy_bytes (Z.to_nat (tail_len shape)) p (source + tail_start shape) m (destination + tail_start shape).

(** ** Specification vocabulary *)

(** Memories are compared address by address. *)
Definition mem_eq (d d' : mem) : Prop := forall x, d x = d' x.
Infix "≡ₘ" := mem_eq (at level 70, no associativity).

(** Byte-for-byte copy of [len] bytes: the reference every routine is compared with. *)
Definition memcpy (m : mem) (source : Z) (d : mem) (out len : Z) : mem :=
  fun x => if (out <=? x) && (x <? out + len) then m (source + (x - out)) else d x.

(** Memories hold bytes. *)
Definition byte_mem (m : mem) : Prop := forall x, is_u8 (m x).

(** ** Memory equality is an equivalence the writers respect *)
#[global] Instance mem_eq_equiv : Equivalence mem_eq.
Proof.
  split; [intros ??; done|intros ????; by symmetry|].
  intros d1 d2 d3 H1 H2 x. by rewrite H1.
Qed.

#[global] Instance store_byte_proper : Proper (mem_eq ==> eq ==> eq ==> mem_eq) store_byte.
Proof. intros d d' Hd a _ <- b _ <- x. unfold store_byte. by rewrite Hd. Qed.

#[global] Instance store_bytes_proper : Proper (mem_eq ==> eq ==> eq ==> mem_eq) store_bytes.
Proof.
  intros d d' Hd a _ <- bs _ <-. revert d d' a Hd.
  induction bs as [|b bs IH]; intros d d' a Hd; simpl; [done|]. apply IH. by rewrite Hd.
Qed.

#[global] Instance store_word_proper : Proper (mem_eq ==> eq ==> eq ==> mem_eq) store_word.
Proof. intros d d' Hd a _ <- w _ <-. unfold store_word. by rewrite Hd. Qed.

#[global] Instance memcpy_proper : Proper (eq ==> eq ==> mem_eq ==> eq ==> eq ==> mem_eq) memcpy.
Proof.
  intros m _ <- s _ <- d d' Hd o _ <- n _ <- x. unfold memcpy. by rewrite Hd.
Qed.

(** ** Lemmas on byte lists *)
Lemma load_bytes_add m a n n' :
  load_bytes m a (n + n') = load_bytes m a n ++ load_bytes m (a + Z.of_nat n) n'.
Proof.
  unfold load_bytes. rewrite seq_app, fmap_app. f_equal.
  rewrite Nat.add_0_l. replace n with (n + 0)%nat at 1 by lia. rewrite <- (fmap_add_seq n 0 n').
  rewrite <- list_fmap_compose. apply list_fmap_ext. intros i x _. simpl. f_equal. lia.
Qed.

Lemma length_load_bytes m a n : length (load_bytes m a n) = n.
Proof. unfold load_bytes. by rewrite length_fmap, length_seq. Qed.

Lemma drop_load_bytes m a k n :
  (k <= n)%nat -> drop k (load_bytes m a n) = load_bytes m (a + Z.of_nat k) (n - k).
Proof.
  intros. replace n with (k + (n - k))%nat at 1 by lia.
  rewrite load_bytes_add, drop_app_length'; [done|]. by rewrite length_load_bytes.
Qed.

Lemma take_load_bytes m a k n : (k <= n)%nat -> take k (load_bytes m a n) = load_bytes m a k.
Proof.
  intros. replace n with (k + (n - k))%nat by lia.
  rewrite load_bytes_add, take_app_length'; [done|]. by rewrite length_load_bytes.
Qed.

Lemma load_bytes_u8 m a n : byte_mem m -> Forall is_u8 (load_bytes m a n).
Proof. intros Hm. apply Forall_fmap, Forall_forall. intros i _. apply Hm. Qed.

Lemma le_bytes_load_word m a : byte_mem m -> le_bytes 8 (load_word m a) = load_bytes m a 8.
Proof.
  intros. unfold load_word. rewrite <- (length_load_bytes m a 8) at 1.
  apply le_bytes_from_le_bytes. by apply load_bytes_u8.
Qed.

(** The word the streaming loop writes is the byte string that straddles two source words. *)
Lemma merged_bytes bs bs' lead :
  Forall is_u8 bs -> Forall is_u8 bs' -> length bs = 8%nat -> length bs' = 8%nat -> (0 < lead < 8)%nat ->
  le_bytes 8 (Z.lor (Z.shiftr (from_le_bytes bs) (8 * Z.of_nat lead))
                    (Z.land (Z.shiftl (from_le_bytes bs') (8 * (WORD - Z.of_nat lead))) u64_MAX))
  = drop lead bs ++ take lead bs'.
Proof.
  intros Hbs Hbs' Hl Hl' Hlead. unfold WORD.
  assert (Forall is_u8 (drop lead bs ++ take lead bs')) as Hu
    by (apply Forall_app; split; [by apply Forall_drop|by apply Forall_take]).
  destruct (from_le_bytes_split lead bs Hbs) as [Hd _]; [lia|].
  destruct (from_le_bytes_split lead bs' Hbs') as [_ Ht]; [lia|].
  pose proof (from_le_bytes_range (drop lead bs) ltac:(by apply Forall_drop)) as Hr.
  pose proof (from_le_bytes_range (take lead bs') ltac:(by apply Forall_take)) as Hr'.
  assert (length (drop lead bs ++ take lead bs') = 8)%nat as Hlen
    by (rewrite length_app, length_drop, length_take; lia).
  rewrite <- (le_bytes_from_le_bytes _ Hu) at 1. rewrite Hlen. f_equal.
  rewrite length_drop in Hr.
  assert (256 ^ Z.of_nat (length bs - lead) = 2 ^ (8 * (8 - Z.of_nat lead))) as E
    by (rewrite Hl, Nat2Z.inj_sub, Z.pow_mul_r by lia; done).
  rewrite from_le_bytes_app, length_drop, E in *.
  change u64_MAX with (Z.ones 64). rewrite Z.land_ones, Z.shiftl_mul_pow2, Z.shiftr_div_pow2 by lia.
  replace (2 ^ 64) with (2 ^ (8 * Z.of_nat lead) * 2 ^ (8 * (8 - Z.of_nat lead)))
    by (rewrite <- Z.pow_add_r by lia; f_equal; lia).
  rewrite Z.mul_mod_distr_r by (apply Z.pow_nonzero; lia).
  rewrite (Z.pow_mul_r 2 8 (Z.of_nat lead)) by lia. change (2 ^ 8) with 256. rewrite <- Hd, <- Ht.
  rewrite lor_disjoint by lia. lia.
Qed.

(** ** Every writer is a [memcpy] *)
Ltac mem_cases :=
  repeat match goal with
  | |- context [?x <=? ?y] => destruct (Z.leb_spec x y)
  | |- context [?x <? ?y] => destruct (Z.ltb_spec x y)
  | |- context [?x =? ?y] => destruct (Z.eqb_spec x y)
  end; cbn [andb]; try lia; try done.

Lemma memcpy_0 m s d o : memcpy m s d o 0 ≡ₘ d.
Proof. intros x. unfold memcpy. mem_cases. Qed.

Lemma memcpy_app m s d o n n' s' o' :
  0 <= n -> 0 <= n' -> s' = s + n -> o' = o + n ->
  memcpy m s' (memcpy m s d o n) o' n' ≡ₘ memcpy m s d o (n + n').
Proof. intros Hn Hn' -> -> x. unfold memcpy. mem_cases. f_equal. lia. Qed.

Lemma memcpy_len m s d o n n' : n = n' -> memcpy m s d o n ≡ₘ memcpy m s d o n'.
Proof. by intros ->. Qed.

Lemma store_byte_memcpy m s d o : store_byte d o (m s) ≡ₘ memcpy m s d o 1.
Proof. intros x. unfold store_byte, memcpy. mem_cases. subst. f_equal. lia. Qed.

Lemma store_load m s d o n : store_bytes d o (load_bytes m s n) ≡ₘ memcpy m s d o (Z.of_nat n).
Proof.
  revert s d o. induction n as [|n IH]; intros s d o; [by rewrite memcpy_0|].
  change (S n) with (1 + n)%nat. rewrite (load_bytes_add m s 1 n). cbn [load_bytes fmap list_fmap seq app store_bytes].
  rewrite Z.add_0_r, IH, store_byte_memcpy, memcpy_app by lia. by rewrite Nat2Z.inj_succ, Z.add_1_l.
Qed.

Lemma store_load_word m s d o :
  byte_mem m -> store_word d o (load_word m s) ≡ₘ memcpy m s d o WORD.
Proof. intros. unfold store_word. rewrite le_bytes_load_word by done. apply store_load. Qed.

Section Copies.
Context (m : mem).
Hypothesis Hm : byte_mem m.

Lemma copy_bytes_memcpy n s d o : copy_bytes n m s d o ≡ₘ memcpy m s d o (Z.of_nat n).
Proof.
  clear Hm. revert s d o. induction n as [|n IH]; intros s d o; [by rewrite memcpy_0|].
  simpl copy_bytes. rewrite IH, store_byte_memcpy, memcpy_app by lia. by rewrite Nat2Z.inj_succ, Z.add_1_l.
Qed.

Lemma copy_single_words_memcpy n s d o :
  copy_single_words n m s d o ≡ₘ memcpy m s d o (Z.of_nat n * WORD).
Proof.
  revert s d o. induction n as [|n IH]; intros s d o; [by rewrite memcpy_0|].
  simpl copy_single_words. rewrite IH, store_load_word, memcpy_app by (done || unfold WORD; lia).
  by replace (WORD + Z.of_nat n * WORD) with (Z.of_nat (S n) * WORD) by lia.
Qed.

Lemma copy_step_memcpy s d o : copy_step m s d o ≡ₘ memcpy m s d o STEP_BYTES.
Proof.
  unfold copy_step. rewrite !store_load_word by done.
  intros x. unfold memcpy, STEP_BYTES, WORDS_PER_STEP, WORD. mem_cases; f_equal; lia.
Qed.

Lemma copy_steps_memcpy n s d o : copy_steps n m s d o ≡ₘ memcpy m s d o (Z.of_nat n * STEP_BYTES).
Proof.
  revert s d o. induction n as [|n IH]; intros s d o; [by rewrite memcpy_0|].
  simpl copy_steps. rewrite IH, copy_step_memcpy, memcpy_app by (done || unfold STEP_BYTES, WORDS_PER_STEP, WORD; lia).
  by replace (STEP_BYTES + Z.of_nat n * STEP_BYTES) with (Z.of_nat (S n) * STEP_BYTES) by lia.
Qed.

Lemma copy_words_out_memcpy s d o words :
  0 <= words -> copy_words_out m s d o words ≡ₘ memcpy m s d o (words * WORD).
Proof.
  intros Hw. unfold copy_words_out.
  pose proof (Z.mod_pos_bound (- s) STEP_BYTES ltac:(done)) as Hb.
  assert (0 <= (- s) mod STEP_BYTES / WORD) by (apply Z.div_pos; [lia|done]).
  set (lead := Z.min _ words) in *. assert (0 <= lead <= words) by (subst lead; lia).
  pose proof (Z.div_mod (words - lead) WORDS_PER_STEP ltac:(done)).
  pose proof (Z.mod_pos_bound (words - lead) WORDS_PER_STEP ltac:(done)).
  assert (0 <= (words - lead) / WORDS_PER_STEP) by (apply Z.div_pos; [lia|done]).
  set (steps := (words - lead) / WORDS_PER_STEP) in *. set (singles := (words - lead) mod WORDS_PER_STEP) in *.
  unfold STEP_BYTES, WORDS_PER_STEP, WORD in *.
  rewrite copy_single_words_memcpy, copy_steps_memcpy, copy_single_words_memcpy by done.
  unfold STEP_BYTES, WORDS_PER_STEP, WORD in *. rewrite !Z2Nat.id by lia.
  rewrite !memcpy_app by lia. apply memcpy_len. lia.
Qed.

Lemma copy_words_in_memcpy s d o words :
  0 <= words -> copy_words_in m s d o words ≡ₘ memcpy m s d o (words * WORD).
Proof.
  intros Hw. unfold copy_words_in.
  pose proof (Z.div_mod words WORDS_PER_STEP ltac:(done)).
  pose proof (Z.mod_pos_bound words WORDS_PER_STEP ltac:(done)).
  assert (0 <= words / WORDS_PER_STEP) by (apply Z.div_pos; [lia|done]).
  rewrite copy_single_words_memcpy, copy_steps_memcpy, !Z2Nat.id by (done || lia).
  unfold STEP_BYTES, WORDS_PER_STEP, WORD in *. rewrite memcpy_app by lia.
  apply memcpy_len. lia.
Qed.

Lemma copy_lines_memcpy n s d o : copy_lines n m s d o ≡ₘ memcpy m s d o (Z.of_nat n * (LINE_WORDS * WORD)).
Proof.
  revert s d o. induction n as [|n IH]; intros s d o; [by rewrite memcpy_0|].
  simpl copy_lines. rewrite IH, copy_words_in_memcpy, memcpy_app by (done || unfold LINE_WORDS, WORD; lia).
  by replace (LINE_WORDS * WORD + Z.of_nat n * (LINE_WORDS * WORD))
    with (Z.of_nat (S n) * (LINE_WORDS * WORD)) by lia.
Qed.

Lemma store_words_prefetching_memcpy s d o words :
  0 <= words -> store_words_prefetching m s d o words ≡ₘ memcpy m s d o (words * WORD).
Proof.
  intros Hw. unfold store_words_prefetching.
  pose proof (Z.div_mod words LINE_WORDS ltac:(done)).
  pose proof (Z.mod_pos_bound words LINE_WORDS ltac:(done)).
  assert (0 <= words / LINE_WORDS) by (apply Z.div_pos; [lia|done]).
  rewrite copy_words_in_memcpy, copy_lines_memcpy, !Z2Nat.id by lia.
  unfold LINE_WORDS, WORD in *. rewrite memcpy_app by lia.
  apply memcpy_len. lia.
Qed.

(** The streaming loop at word [index] has copied [lead + (index - 1) * 8] bytes. *)
Lemma stream_merged_memcpy n s d0 d o lead index :
  0 < lead < WORD -> 1 <= index ->
  d ≡ₘ memcpy m s d0 o (lead + (index - 1) * WORD) ->
  let '(d', current) := stream_merged n m s d o lead index (load_word m (s + (index - 1) * WORD)) in
  d' ≡ₘ memcpy m s d0 o (lead + (index - 1 + Z.of_nat n) * WORD) /\
  current = load_word m (s + (index - 1 + Z.of_nat n) * WORD).
Proof.
  intros Hlead. revert d index. induction n as [|n IH]; intros d index Hi Hd; cbn [stream_merged].
  - rewrite Z.add_0_r. done.
  - replace (s + index * WORD) with (s + (index + 1 - 1) * WORD) by lia.
    replace (index - 1 + Z.of_nat (S n)) with (index + 1 - 1 + Z.of_nat n) by lia.
    apply IH; [lia|]. unfold store_word, load_word. unfold WORD in *.
    replace (8 * lead) with (8 * Z.of_nat (Z.to_nat lead)) by lia.
    replace (8 * (8 - lead)) with (8 * (WORD - Z.of_nat (Z.to_nat lead))) by (unfold WORD; lia).
    rewrite merged_bytes by (try apply load_bytes_u8; try apply length_load_bytes; done || lia).
    rewrite drop_load_bytes, take_load_bytes by lia.
    replace (s + (index + 1 - 1) * 8)
      with (s + (index - 1) * 8 + Z.of_nat (Z.to_nat lead) + Z.of_nat (8 - Z.to_nat lead)) by lia.
    rewrite <- load_bytes_add.
    replace (8 - Z.to_nat lead + Z.to_nat lead)%nat with 8%nat by lia.
    rewrite store_load, Hd, memcpy_app by lia.
    apply memcpy_len. lia.
Qed.

Lemma stream_words_memcpy s d o words :
  0 < words -> stream_words m s d o words ≡ₘ memcpy m s d o (words * WORD).
Proof.
  intros Hw. unfold stream_words.
  pose proof (Z.mod_pos_bound (- o) WORD ltac:(done)). set (lead := (- o) mod WORD) in *.
  bcase; [rewrite copy_single_words_memcpy, Z2Nat.id by lia; done|].
  pose proof (stream_merged_memcpy (Z.to_nat (words - 1)) s d
    (store_bytes d o (take (Z.to_nat lead) (le_bytes 8 (load_word m s)))) o lead 1) as Hs.
  rewrite Z.sub_diag, Z.mul_0_l, !Z.add_0_r, Z.add_0_l, Z2Nat.id in Hs by lia.
  destruct (stream_merged _ _ _ _ _ _ _ _) as [d' current]. unfold WORD in *.
  destruct Hs as [Hd ->]; [lia|lia| |].
  { rewrite le_bytes_load_word, take_load_bytes, store_load by (done || lia). by rewrite Z2Nat.id by lia. }
  rewrite le_bytes_load_word, drop_load_bytes, store_load, Hd, memcpy_app by (done || lia).
  apply memcpy_len. lia.
Qed.
End Copies.

(** ** Lemmas on the access shape *)
Lemma shape_bounds base len :
  0 <= len ->
  let s := AccessShape_of base len in
  0 <= as_head s < WORD /\ as_head s <= len /\ 0 <= as_words s /\ 0 <= tail_len s < WORD /\
  as_head s + as_words s * WORD + tail_len s = len /\
  (0 < as_words s -> (base + as_head s) mod WORD = 0).
Proof.
  intros Hlen. unfold AccessShape_of, tail_len, tail_start, WORD. cbn.
  pose proof (Z.mod_pos_bound base 8 ltac:(lia)). pose proof (Z.div_mod base 8 ltac:(lia)).
  set (h := if base mod 8 =? 0 then 0 else Z.min (8 - base mod 8) len).
  assert (0 <= h < 8 /\ h <= len) as [] by (subst h; bcase; lia).
  pose proof (Z.div_mod (len - h) 8 ltac:(lia)). pose proof (Z.mod_pos_bound (len - h) 8 ltac:(lia)).
  assert (0 <= (len - h) / 8) by (apply Z.div_pos; lia).
  split_and!; try lia. intros Hpos. subst h. bcase; [by rewrite Z.add_0_r|].
  rewrite Z.min_l by lia. apply Z.mod_divide; [lia|]. exists (base / 8 + 1). lia.
Qed.

Lemma add_bytes_sum sum bs :
  Forall is_u8 bs -> 0 <= sum ->
  add_bytes (sum mod 2 ^ 64) bs = (sum + zsum bs) mod 2 ^ 64.
Proof.
  intros Hbs. revert sum. induction Hbs as [|b bs Hb Hbs IH]; intros sum Hs.
  - simpl. by rewrite Z.add_0_r.
  - cbn [add_bytes foldl zsum foldr]. unfold wrapping_add at 2. change (u64_MAX + 1) with (2 ^ 64).
    rewrite Zplus_mod_idemp_l. fold (add_bytes ((sum + b) mod 2 ^ 64) bs). rewrite IH by mlia.
    fold (zsum bs). f_equal. lia.
Qed.

Lemma add_words_sum m base starts sum :
  byte_mem m -> 0 <= sum ->
  foldl (fun sum word_start => add_bytes sum (le_bytes 8 (load_word m (base + word_start)))) (sum mod 2 ^ 64) starts
  = (sum + zsum (starts ≫= fun w => load_bytes m (base + w) 8)) mod 2 ^ 64.
Proof.
  intros Hm. revert sum. induction starts as [|w starts IH]; intros sum Hs.
  - simpl. by rewrite Z.add_0_r.
  - cbn [foldl]. rewrite le_bytes_load_word, add_bytes_sum by (done || by apply load_bytes_u8).
    rewrite IH, bind_cons, zsum_app; [f_equal; lia|].
    pose proof (zsum_nonneg (load_bytes m (base + w) 8)) as Hn.
    enough (0 <= zsum (load_bytes m (base + w) 8)) by lia. apply Hn.
    eapply Forall_impl; [|by apply load_bytes_u8]. intros ? []; lia.
Qed.

Lemma word_starts_bytes m base h n :
  (((fun word : nat => h + Z.of_nat word * WORD) <$> seq 0 n) ≫= fun w => load_bytes m (base + w) 8)
  = load_bytes m (base + h) (n * 8).
Proof.
  induction n as [|n IH]; [done|].
  rewrite seq_S, fmap_app, bind_app, IH. cbn [fmap list_fmap Nat.add].
  replace (S n * 8)%nat with (n * 8 + 8)%nat by lia. rewrite load_bytes_add. f_equal.
  rewrite bind_cons. change ([] ≫= _) with (@nil Z). rewrite app_nil_r. f_equal. unfold WORD. lia.
Qed.

Lemma copy_out_uninit_memcpy m source d out len :
  byte_mem m -> 0 <= len -> copy_out_uninit m source d out len ≡ₘ memcpy m source d out len.
Proof.
  intros Hm Hlen. unfold copy_out_uninit.
  destruct (shape_bounds source len Hlen) as (Hh & Hhl & Hw & Ht & Hsum & _).
  set (s := AccessShape_of source len) in *.
  transitivity (memcpy m (source + tail_start s)
    (memcpy m (source + as_head s) (memcpy m source d out (as_head s)) (out + as_head s) (as_words s * WORD))
    (out + tail_start s) (tail_len s)).
  - rewrite copy_bytes_memcpy, Z2Nat.id by lia. f_equiv. bcase.
    + rewrite stream_words_memcpy, copy_bytes_memcpy, Z2Nat.id; [done|lia|done|].
      unfold STREAMING_COPY_OUT_MIN_BYTES, WORD in *. lia.
    + by rewrite copy_words_out_memcpy, copy_bytes_memcpy, Z2Nat.id by (done || lia).
  - rewrite !memcpy_app by (unfold tail_start, WORD in *; lia). apply memcpy_len. lia.
Qed.

Lemma copy_in_memcpy p source len m destination :
  byte_mem p -> 0 <= len -> copy_in p source len m destination ≡ₘ memcpy p source m destination len.
Proof.
  intros Hp Hlen. unfold copy_in.
  destruct (shape_bounds destination len Hlen) as (Hh & Hhl & Hw & Ht & Hsum & _).
  set (s := AccessShape_of destination len) in *.
  transitivity (memcpy p (source + tail_start s)
    (memcpy p (source + as_head s) (memcpy p source m destination (as_head s)) (destination + as_head s) (as_words s * WORD))
    (destination + tail_start s) (tail_len s)).
  - rewrite copy_bytes_memcpy, Z2Nat.id by lia. f_equiv. bcase.
    + by rewrite store_words_prefetching_memcpy, copy_bytes_memcpy, Z2Nat.id by (done || lia).
    + by rewrite copy_words_in_memcpy, copy_bytes_memcpy, Z2Nat.id by (done || lia).
  - rewrite !memcpy_app by (unfold tail_start, WORD in *; lia). apply memcpy_len. lia.
Qed.

Lemma copy_in_bytes p source len m destination :
  byte_mem p -> byte_mem m -> 0 <= len -> byte_mem (copy_in p source len m destination).
Proof.
  intros Hp Hm Hlen x. rewrite copy_in_memcpy by done. unfold memcpy. mem_cases; (apply Hp || apply Hm).
Qed.

(** ** Properties *)

(** copying out of shared memory, whether by single words, by four-word steps or by the
    streaming loop that merges two source words into each aligned destination word, writes
    exactly the source bytes to the destination range and touches no other byte, at every
    alignment of either side and every length. *)
Theorem copy_out_is_memcpy m source d out len :
  byte_mem m -> 0 <= len -> copy_out_uninit m source d out len ≡ₘ memcpy m source d out len.
Proof. apply copy_out_uninit_memcpy. Qed.

(** Copying into shared memory, by words, by steps or line by line with prefetches, writes
    exactly the source bytes and nothing else; reading the span back yields the bytes written. *)
Theorem copy_in_is_memcpy p source len m destination :
  byte_mem p -> 0 <= len ->
  copy_in p source len m destination ≡ₘ memcpy p source m destination len /\
  (byte_mem m -> forall d out i, 0 <= i < len ->
     copy_out_uninit (copy_in p source len m destination) destination d out len (out + i) = p (source + i)).
Proof.
  intros Hp Hlen.
  pose proof (copy_in_memcpy p source len m destination Hp Hlen) as Hin.
  split; [done|]. intros Hm d out i Hi.
  pose proof (copy_in_bytes p source len m destination Hp Hm Hlen) as Hb.
  rewrite (copy_out_uninit_memcpy _ _ _ _ _ Hb Hlen). unfold memcpy at 1. mem_cases.
  rewrite Hin. unfold memcpy. mem_cases. f_equal. lia.
Qed.

(** The span whose words and bytes are counted in one pass. *)
Lemma checksum_sum m base len :
  byte_mem m -> 0 <= len ->
  checksum m base len = zsum (load_bytes m base (Z.to_nat len)) mod 2 ^ 64.
Proof.
  intros Hm Hlen. unfold checksum, word_starts.
  destruct (shape_bounds base len Hlen) as (Hh & Hhl & Hw & Ht & Hsum & _).
  set (s := AccessShape_of base len) in *.
  assert (forall a n, 0 <= zsum (load_bytes m a n)) as Hnn.
  { intros a n. apply zsum_nonneg. eapply Forall_impl; [|by apply load_bytes_u8]. intros ? []; lia. }
  change 0 with (0 mod 2 ^ 64) at 1. rewrite add_bytes_sum by (done || by apply load_bytes_u8).
  rewrite add_words_sum, word_starts_bytes, add_bytes_sum
    by (done || (by apply load_bytes_u8) || (pose proof (Hnn base (Z.to_nat (as_head s))); 
        pose proof (Hnn (base + as_head s) (Z.to_nat (as_words s) * 8)%nat); lia)).
  f_equal. rewrite Z.add_0_l. unfold tail_start in *. unfold WORD in *.
  rewrite <- zsum_app. 
  replace (base + as_head s) with (base + Z.of_nat (Z.to_nat (as_head s))) by lia.
  rewrite <- load_bytes_add.
  replace (base + (as_head s + as_words s * 8))
    with (base + Z.of_nat (Z.to_nat (as_head s) + Z.to_nat (as_words s) * 8)) by lia.
  rewrite <- zsum_app, <- load_bytes_add. do 2 f_equal. lia.
Qed.

Lemma read_byte_direct m base len index :
  byte_mem m -> 0 <= index < len -> read_byte m base len index = Some (m (base + index)).
Proof.
  intros Hm Hi. unfold read_byte. bcase; [lia|]. unfold word_containing.
  destruct (shape_bounds base len ltac:(lia)) as (Hh & Hhl & Hw & Ht & Hsum & _).
  set (s := AccessShape_of base len) in *. bcase; [done|]. bcase; [done|].
  rewrite le_bytes_load_word by done. unfold load_bytes. rewrite list_lookup_fmap. unfold WORD in *.
  pose proof (Z.div_mod (index - as_head s) 8 ltac:(lia)).
  pose proof (Z.mod_pos_bound (index - as_head s) 8 ltac:(lia)).
  rewrite lookup_seq_lt by lia. cbn [fmap option_fmap option_map]. do 2 f_equal. rewrite Nat.add_0_l. lia.
Qed.

(** a single-byte read through the word that contains it returns the byte at that offset of
    the span and refuses an index past its end; the checksum is the sum of all span bytes modulo
    2^64, each counted once whichever access touched it. *)
Theorem span_reads_are_byte_reads m base len :
  byte_mem m -> 0 <= len ->
  (forall index, 0 <= index ->
     read_byte m base len index = if index <? len then Some (m (base + index)) else None) /\
  checksum m base len = zsum (load_bytes m base (Z.to_nat len)) mod 2 ^ 64.
Proof.
  intros Hm Hlen. split; [|by apply checksum_sum].
  intros index Hi. bcase; [apply read_byte_direct; (done || lia)|].
  unfold read_byte. by bcase; [|lia].
Qed.

(** ** Witnesses: a memory that repeats 0..255, spans misaligned on both sides. *)
Definition ramp : mem := fun x => x mod 256.

Lemma ramp_bytes : byte_mem ramp.
Proof. intros x. unfold ramp. pose proof (Z.mod_pos_bound x 256 ltac:(lia)). mlia. Qed.

Lemma copy_out_is_memcpy_witness :
  copy_out_uninit ramp 3 (fun _ => 0) 1001 77 1050 = 52.
Proof.
  transitivity (memcpy ramp 3 (fun _ => 0) 1001 77 1050).
  - apply (copy_out_is_memcpy ramp 3 (fun _ => 0) 1001 77); [apply ramp_bytes | lia].
  - reflexivity.
Defined.

Lemma copy_in_is_memcpy_witness :
  copy_out_uninit (copy_in ramp 3 77 (fun _ => 0) 1001) 1001 (fun _ => 0) 5 77 (5 + 20) = 23.
Proof.
  transitivity (ramp (3 + 20)); [|reflexivity].
  apply (copy_in_is_memcpy ramp 3 77 (fun _ => 0) 1001); [apply ramp_bytes | lia | | lia].
  intros x. vm_compute. split; discriminate.
Defined.

Lemma span_reads_are_byte_reads_witness :
  read_byte ramp 5 30 29 = Some 34 /\ read_byte ramp 5 30 30 = None /\ checksum ramp 5 30 = 585.
Proof.
  destruct (span_reads_are_byte_reads ramp 5 30 ramp_bytes ltac:(lia)) as [Hr Hc].
  split; [|split].
  - exact (Hr 29 ltac:(lia)).
  - exact (Hr 30 ltac:(lia)).
  - exact Hc.
Defined.
