(* ===== verification/Profile.v ===== *)
(** * Profile: resource charges and host admission (crates/shm-transport/src/profile.rs).

    A profile's charges are computed once from its mapping layout; the admission controller sums
    the charges of live connections against the host limits, and the tokens it hands out refund,
    split or quarantine them. The page size the operating system reports is an argument. *)
From S2P Require Import Prelude.
From S2P Require Import Pool.
From S2P Require Import Descriptor.
From stdpp Require Import sets.
#[local] Open Scope Z_scope.

(** ** Charges *)
Record ResourceCharges := mkCharges {
  rc_descriptors : Z;
  rc_mapping_bytes : Z;
  rc_ledger_bytes : Z;
  rc_leases : Z;
  rc_mappings : Z;
  rc_file_descriptors : Z;
  rc_wake_handles : Z;
  rc_workers : Z;
  rc_client_instances : Z;
  rc_pinned_workers : Z;
}.

#[global] Instance ResourceCharges_eq_dec : EqDecision ResourceCharges.
Proof. solve_decision. Defined.

Definition rc_ZERO : ResourceCharges := mkCharges 0 0 0 0 0 0 0 0 0 0.

Definition charges_checked_add (a b : ResourceCharges) : option ResourceCharges :=
  descriptors ← checked_add u64_MAX (rc_descriptors a) (rc_descriptors b);
  mapping_bytes ← checked_add u64_MAX (rc_mapping_bytes a) (rc_mapping_bytes b);
  ledger_bytes ← checked_add u64_MAX (rc_ledger_bytes a) (rc_ledger_bytes b);
  leases ← checked_add u64_MAX (rc_leases a) (rc_leases b);
  mappings ← checked_add u64_MAX (rc_mappings a) (rc_mappings b);
  file_descriptors ← checked_add u64_MAX (rc_file_descriptors a) (rc_file_descriptors b);
  wake_handles ← checked_add u64_MAX (rc_wake_handles a) (rc_wake_handles b);
  workers ← checked_add u64_MAX (rc_workers a) (rc_workers b);
  client_instances ← checked_add u64_MAX (rc_client_instances a) (rc_client_instances b);
  pinned_workers ← checked_add u64_MAX (rc_pinned_workers a) (rc_pinned_workers b);
  Some (mkCharges descriptors mapping_bytes ledger_bytes leases mappings file_descriptors
          wake_handles workers client_instances pinned_workers).

Definition charges_checked_sub (a b : ResourceCharges) : option ResourceCharges :=
  descriptors ← checked_sub (rc_descriptors a) (rc_descriptors b);
  mapping_bytes ← checked_sub (rc_mapping_bytes a) (rc_mapping_bytes b);
  ledger_bytes ← checked_sub (rc_ledger_bytes a) (rc_ledger_bytes b);
  leases ← checked_sub (rc_leases a) (rc_leases b);
  mappings ← checked_sub (rc_mappings a) (rc_mappings b);
  file_descriptors ← checked_sub (rc_file_descriptors a) (rc_file_descriptors b);
  wake_handles ← checked_sub (rc_wake_handles a) (rc_wake_handles b);
  workers ← checked_sub (rc_workers a) (rc_workers b);
  client_instances ← checked_sub (rc_client_instances a) (rc_client_instances b);
  pinned_workers ← checked_sub (rc_pinned_workers a) (rc_pinned_workers b);
  Some (mkCharges descriptors mapping_bytes ledger_bytes leases mappings file_descriptors
          wake_handles workers client_instances pinned_workers).

Definition committed_bytes (c : ResourceCharges) : option Z :=
  checked_add u64_MAX (rc_mapping_bytes c) (rc_ledger_bytes c).

Definition worker_part (c : ResourceCharges) : ResourceCharges :=
  mkCharges 0 0 0 0 0 0 0 (rc_workers c) 0 (rc_pinned_workers c).

Definition backing_part (c : ResourceCharges) : ResourceCharges :=
  mkCharges (rc_descriptors c) (rc_mapping_bytes c) (rc_ledger_bytes c) (rc_leases c)
    (rc_mappings c) (rc_file_descriptors c) (rc_wake_handles c) 0 (rc_client_instances c) 0.

(** ** Profiles *)
Inductive WorkerTopology := CallerThread | SplitDirection | Fused.

Inductive ProfileError :=
| LargestClassBelowMaximumFrame | InvalidGeometry | InvalidMappingCharge
| InvalidWorkerCharge | ProfileChargeOverflow.

Record ProfileConfig := mkConfig {
  cf_descriptor : HardwareProfileId;
  cf_geometry : PoolGeometry;
  cf_mappings : Z;
  cf_pinned_workers : Z;
  cf_worker_topology : WorkerTopology;
}.

Record TargetProfile := mkProfile {
  tp_descriptor : HardwareProfileId;
  tp_geometry : PoolGeometry;
  tp_mapping_bytes_per_direction : Z;
  tp_worker_topology : WorkerTopology;
  tp_charges : ResourceCharges;
}.

Definition double (value : Z) : result ProfileError Z :=
  ok_or (checked_mul u64_MAX value 2) ProfileChargeOverflow.

Definition topology_workers (t : WorkerTopology) : Z :=
  match t with CallerThread => 0 | SplitDirection => 2 | Fused => 1 end.

Definition TargetProfile_new (page_size : Z) (config : ProfileConfig) : result ProfileError TargetProfile :=
  let g := cf_geometry config in
  if negb (holds_maximum_frame g) then Err LargestClassBelowMaximumFrame
  else if cf_mappings config <? SETUP_MAPPING_COUNT then Err InvalidMappingCharge
  else if negb (cf_pinned_workers config =? 0) then Err InvalidWorkerCharge
  else
    layout ← map_err (fun _ => InvalidGeometry) (MappingLayout_new g page_size);
    let mapping_bytes_per_direction := ml_total layout in
    descriptors ← double (descriptor_depth g);
    mapping_bytes ← double mapping_bytes_per_direction;
    ledger ← double (ledger_bytes g);
    leases ← double (block_count g);
    file_descriptors ← ok_or (checked_add u64_MAX (cf_mappings config) SETUP_DOORBELL_COUNT) ProfileChargeOverflow;
    let charges :=
      {| rc_descriptors := descriptors;
         rc_mapping_bytes := mapping_bytes;
         rc_ledger_bytes := ledger;
         rc_leases := leases;
         rc_mappings := cf_mappings config;
         rc_file_descriptors := file_descriptors;
         rc_wake_handles := SETUP_DOORBELL_COUNT;
         rc_workers := topology_workers (cf_worker_topology config);
         rc_client_instances := 1;
         rc_pinned_workers := cf_pinned_workers config |} in
    _ ← ok_or (committed_bytes charges) ProfileChargeOverflow;
    Ok {| tp_descriptor := cf_descriptor config;
          tp_geometry := g;
          tp_mapping_bytes_per_direction := mapping_bytes_per_direction;
          tp_worker_topology := cf_worker_topology config;
          tp_charges := charges |}.

(** ** Accounting *)
Record HostLimits := mkLimits {
  hl_descriptors : Z;
  hl_mapping_bytes : Z;
  hl_ledger_bytes : Z;
  hl_leases : Z;
  hl_mappings : Z;
  hl_file_descriptors : Z;
  hl_wake_handles : Z;
  hl_workers : Z;
  hl_client_instances : Z;
  hl_pinned_workers : Z;
}.

Inductive AdmissionError :=
| PhysicalCoresUnverified | PhysicalCoreBudgetExceeded | DescriptorLimit | MappingByteLimit
| LedgerByteLimit | LeaseLimit | MappingLimit | FileDescriptorLimit | WakeHandleLimit
| WorkerLimit | ClientInstanceLimit | ChargeOverflow | ChargeUnderflow | AccountingUnavailable.

Record Accounting := mkAccounting { acc_active : ResourceCharges; acc_quarantined : ResourceCharges }.

(** The controller; [ac_poisoned] is the poison flag of the accounting mutex. *)
Record AdmissionController := mkController {
  ac_limits : HostLimits;
  ac_accounting : Accounting;
  ac_poisoned : bool;
}.

Definition AdmissionController_new (limits : HostLimits) : AdmissionController :=
  {| ac_limits := limits;
     ac_accounting := {| acc_active := rc_ZERO; acc_quarantined := rc_ZERO |};
     ac_poisoned := false |}.

Definition set_accounting (c : AdmissionController) (a : Accounting) : AdmissionController :=
  {| ac_limits := ac_limits c; ac_accounting := a; ac_poisoned := ac_poisoned c |}.

(** [Mutex::lock] of the accounting. *)
Definition lock (c : AdmissionController) : result AdmissionError Accounting :=
  if ac_poisoned c then Err AccountingUnavailable else Ok (ac_accounting c).

Definition check_admission (limits : HostLimits) (accounting : Accounting) (requested : ResourceCharges)
    (physical_cores : option Z) : result AdmissionError ResourceCharges :=
  active ← ok_or (charges_checked_add (acc_active accounting) requested) ChargeOverflow;
  committed ← ok_or (charges_checked_add active (acc_quarantined accounting)) ChargeOverflow;
  if hl_descriptors limits <? rc_descriptors committed then Err DescriptorLimit
  else if hl_mapping_bytes limits <? rc_mapping_bytes committed then Err MappingByteLimit
  else if hl_ledger_bytes limits <? rc_ledger_bytes committed then Err LedgerByteLimit
  else if hl_leases limits <? rc_leases committed then Err LeaseLimit
  else if hl_mappings limits <? rc_mappings committed then Err MappingLimit
  else if hl_file_descriptors limits <? rc_file_descriptors committed then Err FileDescriptorLimit
  else if hl_wake_handles limits <? rc_wake_handles committed then Err WakeHandleLimit
  else if hl_workers limits <? rc_workers active then Err WorkerLimit
  else if hl_client_instances limits <? rc_client_instances committed then Err ClientInstanceLimit
  else
    let core_limit := Z.min (default (hl_pinned_workers limits) physical_cores) (hl_pinned_workers limits) in
    if core_limit <? rc_pinned_workers active then Err PhysicalCoreBudgetExceeded
    else Ok active.

Definition can_admit (c : AdmissionController) (profile : TargetProfile) (physical_cores : option Z)
    : result AdmissionError unit :=
  accounting ← lock c;
  _ ← check_admission (ac_limits c) accounting (tp_charges profile) physical_cores;
  Ok ().

(** [Controller::snapshot]. *)
Definition snapshot (c : AdmissionController) : result AdmissionError Accounting := lock c.

(** [Controller::release] and [Controller::quarantine]. *)
Definition release (c : AdmissionController) (charges : ResourceCharges) : AdmissionController :=
  match lock c with
  | Err _ => c
  | Ok accounting =>
      match charges_checked_sub (acc_active accounting) charges with
      | Some active =>
          set_accounting c {| acc_active := active; acc_quarantined := acc_quarantined accounting |}
      | None => c
      end
  end.

Definition quarantine (c : AdmissionController) (charges : ResourceCharges)
    : result AdmissionError AdmissionController :=
  accounting ← lock c;
  let retained := backing_part charges in
  active ← ok_or (charges_checked_sub (acc_active accounting) charges) ChargeUnderflow;
  quarantined ← ok_or (charges_checked_add (acc_quarantined accounting) retained) ChargeOverflow;
  Ok (set_accounting c {| acc_active := active; acc_quarantined := quarantined |}).

(** ** Admission tokens *)
Inductive AdmissionState := AdActive | AdReleased | AdQuarantined.

Record Admission := mkAdmission { ad_charges : ResourceCharges; ad_state : AdmissionState }.

Definition AdmissionController_admit (c : AdmissionController) (profile : TargetProfile) (physical_cores : option Z)
    : result AdmissionError (Admission * AdmissionController) :=
  accounting ← lock c;
  let charges := tp_charges profile in
  active ← check_admission (ac_limits c) accounting charges physical_cores;
  Ok ({| ad_charges := charges; ad_state := AdActive |},
      set_accounting c {| acc_active := active; acc_quarantined := acc_quarantined accounting |}).

Definition Admission_drop (c : AdmissionController) (a : Admission) : AdmissionController :=
  match ad_state a with
  | AdActive => release c (ad_charges a)
  | AdReleased | AdQuarantined => c
  end.

(** [Admission::quarantine] consumes the token: its destructor runs on both paths. *)
Definition Admission_quarantine (c : AdmissionController) (a : Admission)
    : result AdmissionError unit * AdmissionController :=
  match quarantine c (ad_charges a) with
  | Err e => (Err e, Admission_drop c a)
  | Ok c' =>
      (Ok (), Admission_drop c' {| ad_charges := ad_charges a; ad_state := AdQuarantined |})
  end.

Record WorkerAdmission := mkWorker { wa_charges : ResourceCharges; wa_released : bool }.

Inductive BackingState := BkActive | BkQuarantined | BkRetainedUncertain.

#[global] Instance BackingState_eq_dec : EqDecision BackingState.
Proof. solve_decision. Defined.

(** [ba_poisoned] is the poison flag of the token's state mutex. *)
Record BackingAdmission := mkBacking {
  ba_charges : ResourceCharges;
  ba_state : BackingState;
  ba_poisoned : bool;
}.

Definition split (c : AdmissionController) (a : Admission)
    : WorkerAdmission * BackingAdmission * AdmissionController :=
  ({| wa_charges := worker_part (ad_charges a); wa_released := false |},
   {| ba_charges := backing_part (ad_charges a); ba_state := BkActive; ba_poisoned := false |},
   Admission_drop c {| ad_charges := ad_charges a; ad_state := AdReleased |}).

Definition WorkerAdmission_drop (c : AdmissionController) (w : WorkerAdmission) : AdmissionController :=
  if wa_released w then c else release c (wa_charges w).

Definition set_state (b : BackingAdmission) (s : BackingState) : BackingAdmission :=
  {| ba_charges := ba_charges b; ba_state := s; ba_poisoned := ba_poisoned b |}.

Definition BackingAdmission_quarantine (c : AdmissionController) (b : BackingAdmission)
    : result AdmissionError unit * AdmissionController * BackingAdmission :=
  if ba_poisoned b then (Err AccountingUnavailable, c, b)
  else if negb (bool_decide (ba_state b = BkActive)) then (Err ChargeUnderflow, c, b)
  else
    let b := set_state b BkRetainedUncertain in
    match quarantine c (ba_charges b) with
    | Err e => (Err e, c, b)
    | Ok c' => (Ok (), c', set_state b BkQuarantined)
    end.

Definition retain_uncertain (b : BackingAdmission) : BackingAdmission :=
  if negb (ba_poisoned b) && bool_decide (ba_state b = BkActive) then set_state b BkRetainedUncertain else b.

Definition is_active (b : BackingAdmission) : bool :=
  negb (ba_poisoned b) && bool_decide (ba_state b = BkActive).

Definition BackingAdmission_drop (c : AdmissionController) (b : BackingAdmission) : AdmissionController :=
  let refund := negb (ba_poisoned b) && bool_decide (ba_state b = BkActive) in
  if refund then release c (ba_charges b) else c.

(** ** The kernel's CPU-list syntax; a string is the list of its bytes *)
Definition digit (b : Z) : option Z := if (48 <=? b) && (b <=? 57) then Some (b - 48) else None.

Fixpoint parse_digits (acc : Z) (s : list Z) : option Z :=
  match s with
  | [] => Some acc
  | b :: s =>
      d ← digit b;
      shifted ← checked_mul u32_MAX acc 10;
      acc ← checked_add u32_MAX shifted d;
      parse_digits acc s
  end.

(** [str::parse::<u32>]: a nonempty digit string, with an optional plus sign before it. *)
Definition parse_u32 (s : list Z) : option Z :=
  match s with
  | [] => None
  | [b] => digit b
  | b :: rest => if b =? 43 then parse_digits 0 rest else parse_digits 0 s
  end.

(** [str::split] and [str::split_once] on one byte. *)
Fixpoint split_on (sep : Z) (s : list Z) : list (list Z) :=
  match s with
  | [] => [[]]
  | b :: s =>
      if b =? sep then [] :: split_on sep s
      else match split_on sep s with
           | item :: items => (b :: item) :: items
           | [] => [[b]]
           end
  end.

Fixpoint split_once (sep : Z) (s : list Z) : option (list Z * list Z) :=
  match s with
  | [] => None
  | b :: s => if b =? sep then Some ([], s)
              else match split_once sep s with
                   | Some (l, r) => Some (b :: l, r)
                   | None => None
                   end
  end.

(** [start..=end]. *)
Definition range_inclusive (start last : Z) : list Z :=
  (fun i => start + Z.of_nat i) <$> seq 0 (Z.to_nat (last - start + 1)).

Fixpoint parse_items (items : list (list Z)) (cpus : list Z) : option (list Z) :=
  match items with
  | [] => Some cpus
  | item :: items =>
      match split_once 45 item with
      | Some (start, last) =>
          start ← parse_u32 start;
          last ← parse_u32 last;
          if last <? start then None else parse_items items (cpus ++ range_inclusive start last)
      | None =>
          cpu ← parse_u32 item;
          parse_items items (cpus ++ [cpu])
      end
  end.

Definition parse_cpu_list (spec : list Z) : option (list Z) := parse_items (split_on 44 spec) [].

(** ** The host: one controller and the tokens in scope *)
Inductive Token :=
| TokAdmission (a : Admission)
| TokWorker (w : WorkerAdmission)
| TokBacking (b : BackingAdmission).

Record Host := mkHost { h_ctl : AdmissionController; h_tokens : list Token }.

(** What a client of the controller does; a mutex is poisoned by a panic of its holder. *)
Inductive HostOp :=
| OpAdmit | OpDrop | OpQuarantine | OpSplit | OpBackingQuarantine
| OpRetainUncertain | OpPoisonAccounting | OpPoisonBacking.

(** Operations that neither panic nor give up on a charge. *)
Definition clean_op (op : HostOp) : bool :=
  match op with
  | OpAdmit | OpDrop | OpQuarantine | OpSplit | OpBackingQuarantine => true
  | OpRetainUncertain | OpPoisonAccounting | OpPoisonBacking => false
  end.

Definition token_drop (c : AdmissionController) (t : Token) : AdmissionController :=
  match t with
  | TokAdmission a => Admission_drop c a
  | TokWorker w => WorkerAdmission_drop c w
  | TokBacking b => BackingAdmission_drop c b
  end.

(** Every field of the charges is a 64-bit value. *)
Definition rc_all (P : Z -> Prop) (c : ResourceCharges) : Prop :=
  P (rc_descriptors c) /\ P (rc_mapping_bytes c) /\ P (rc_ledger_bytes c) /\ P (rc_leases c) /\
  P (rc_mappings c) /\ P (rc_file_descriptors c) /\ P (rc_wake_handles c) /\ P (rc_workers c) /\
  P (rc_client_instances c) /\ P (rc_pinned_workers c).

Inductive host_step : Host -> HostOp -> Host -> Prop :=
| step_admit c l profile cores a c' :
    rc_all is_u64 (tp_charges profile) ->
    AdmissionController_admit c profile cores = Ok (a, c') ->
    host_step (mkHost c l) OpAdmit (mkHost c' (TokAdmission a :: l))
| step_drop c l1 t l2 :
    host_step (mkHost c (l1 ++ t :: l2)) OpDrop (mkHost (token_drop c t) (l1 ++ l2))
| step_quarantine c l1 a l2 :
    host_step (mkHost c (l1 ++ TokAdmission a :: l2)) OpQuarantine
              (mkHost (Admission_quarantine c a).2 (l1 ++ l2))
| step_split c l1 a l2 w b c' :
    split c a = (w, b, c') ->
    host_step (mkHost c (l1 ++ TokAdmission a :: l2)) OpSplit
              (mkHost c' (l1 ++ TokWorker w :: TokBacking b :: l2))
| step_backing_quarantine c l1 b l2 r c' b' :
    BackingAdmission_quarantine c b = (r, c', b') ->
    host_step (mkHost c (l1 ++ TokBacking b :: l2)) OpBackingQuarantine
              (mkHost c' (l1 ++ TokBacking b' :: l2))
| step_retain_uncertain c l1 b l2 :
    host_step (mkHost c (l1 ++ TokBacking b :: l2)) OpRetainUncertain
              (mkHost c (l1 ++ TokBacking (retain_uncertain b) :: l2))
| step_poison_accounting c l :
    host_step (mkHost c l) OpPoisonAccounting (mkHost (mkController (ac_limits c) (ac_accounting c) true) l)
| step_poison_backing c l1 b l2 :
    host_step (mkHost c (l1 ++ TokBacking b :: l2)) OpPoisonBacking
              (mkHost c (l1 ++ TokBacking (mkBacking (ba_charges b) (ba_state b) true) :: l2)).

Inductive host_run : Host -> list HostOp -> Host -> Prop :=
| run_nil h : host_run h [] h
| run_snoc h ops h' op h'' : host_run h ops h' -> host_step h' op h'' -> host_run h (ops ++ [op]) h''.

(** ** Specification vocabulary *)
Definition rc_add (a b : ResourceCharges) : ResourceCharges :=
  mkCharges (rc_descriptors a + rc_descriptors b) (rc_mapping_bytes a + rc_mapping_bytes b)
    (rc_ledger_bytes a + rc_ledger_bytes b) (rc_leases a + rc_leases b) (rc_mappings a + rc_mappings b)
    (rc_file_descriptors a + rc_file_descriptors b) (rc_wake_handles a + rc_wake_handles b)
    (rc_workers a + rc_workers b) (rc_client_instances a + rc_client_instances b)
    (rc_pinned_workers a + rc_pinned_workers b).

Definition rc_nonneg (c : ResourceCharges) : Prop := rc_all (fun x => 0 <= x) c.

(** The part of a token's charge that the active total holds. *)
Definition held (t : Token) : ResourceCharges :=
  match t with
  | TokAdmission a => match ad_state a with AdActive => ad_charges a | _ => rc_ZERO end
  | TokWorker w => if wa_released w then rc_ZERO else wa_charges w
  | TokBacking b => match ba_state b with BkQuarantined => rc_ZERO | _ => ba_charges b end
  end.

Definition held_sum (l : list Token) : ResourceCharges := foldr (fun t s => rc_add (held t) s) rc_ZERO l.

Definition charges_of (t : Token) : ResourceCharges :=
  match t with
  | TokAdmission a => ad_charges a
  | TokWorker w => wa_charges w
  | TokBacking b => ba_charges b
  end.

(** Totals within the limits: quarantined charges count against every limit but the workers'. *)
Definition within_limits (limits : HostLimits) (a : Accounting) : Prop :=
  let committed := rc_add (acc_active a) (acc_quarantined a) in
  rc_descriptors committed <= hl_descriptors limits /\
  rc_mapping_bytes committed <= hl_mapping_bytes limits /\
  rc_ledger_bytes committed <= hl_ledger_bytes limits /\
  rc_leases committed <= hl_leases limits /\
  rc_mappings committed <= hl_mappings limits /\
  rc_file_descriptors committed <= hl_file_descriptors limits /\
  rc_wake_handles committed <= hl_wake_handles limits /\
  rc_workers (acc_active a) <= hl_workers limits /\
  rc_client_instances committed <= hl_client_instances limits /\
  rc_pinned_workers (acc_active a) <= hl_pinned_workers limits.

Definition limits_nonneg (l : HostLimits) : Prop :=
  0 <= hl_descriptors l /\ 0 <= hl_mapping_bytes l /\ 0 <= hl_ledger_bytes l /\ 0 <= hl_leases l /\
  0 <= hl_mappings l /\ 0 <= hl_file_descriptors l /\ 0 <= hl_wake_handles l /\ 0 <= hl_workers l /\
  0 <= hl_client_instances l /\ 0 <= hl_pinned_workers l.

(** ** Pointwise arithmetic on charges *)
Ltac rc_unfold :=
  unfold rc_nonneg, rc_all, worker_part, backing_part, rc_add, rc_ZERO in *; cbn in *.

Ltac rc_lia :=
  repeat match goal with c : ResourceCharges |- _ => destruct c end;
  rc_unfold; destruct_and?; split_and?; try f_equal; mlia.

Lemma rc_add_0_l a : rc_add rc_ZERO a = a.
Proof. destruct a. done. Qed.

Lemma rc_add_0_r a : rc_add a rc_ZERO = a.
Proof. rc_lia. Qed.

Lemma rc_add_comm a b : rc_add a b = rc_add b a.
Proof. rc_lia. Qed.

Lemma rc_add_assoc a b c : rc_add a (rc_add b c) = rc_add (rc_add a b) c.
Proof. rc_lia. Qed.

Lemma rc_split_parts a : rc_add (worker_part a) (backing_part a) = a.
Proof. rc_lia. Qed.

Lemma rc_nonneg_add a b : rc_nonneg a -> rc_nonneg b -> rc_nonneg (rc_add a b).
Proof. intros. rc_lia. Qed.

Lemma rc_nonneg_backing a : rc_nonneg a -> rc_nonneg (backing_part a).
Proof. intros. rc_lia. Qed.

Lemma rc_nonneg_worker a : rc_nonneg a -> rc_nonneg (worker_part a).
Proof. intros. rc_lia. Qed.

Lemma rc_nonneg_zero : rc_nonneg rc_ZERO.
Proof. rc_lia. Qed.

Create HintDb charges.
#[export] Hint Resolve rc_nonneg_add rc_nonneg_backing rc_nonneg_worker rc_nonneg_zero : charges.

Lemma charges_checked_add_Some a b c :
  charges_checked_add a b = Some c <-> c = rc_add a b /\ rc_all (fun x => x <= u64_MAX) c.
Proof.
  destruct a, b. unfold charges_checked_add, rc_add, rc_all. cbn. split.
  - intros H. inv_bind.
    repeat match goal with H : checked_add _ _ _ = Some _ |- _ => apply checked_add_Some in H as [-> ?] end.
    cbn. done.
  - intros (-> & H). cbn in H. destruct_and?. by rewrite !checked_add_ok by done.
Qed.

Lemma charges_checked_sub_Some a b c :
  charges_checked_sub a b = Some c <-> a = rc_add b c /\ rc_nonneg c.
Proof.
  unfold charges_checked_sub, rc_add, rc_nonneg, rc_all. split.
  - intros H. inv_bind.
    repeat match goal with H : checked_sub _ _ = Some _ |- _ => apply checked_sub_Some in H as [-> ?] end.
    cbn in *. split; [|split_and!; lia].
    destruct a. cbn. f_equal; lia.
  - intros (-> & H). destruct b, c. cbn in *. destruct_and?. rewrite !checked_sub_ok by lia. cbn.
    do 2 f_equal; lia.
Qed.

Lemma charges_checked_sub_ok b c : rc_nonneg c -> charges_checked_sub (rc_add b c) b = Some c.
Proof. intros. by apply charges_checked_sub_Some. Qed.

Lemma rc_all_impl (P Q : Z -> Prop) c : (forall x, P x -> Q x) -> rc_all P c -> rc_all Q c.
Proof. intros H Hc. unfold rc_all in *. naive_solver. Qed.

(** ** The admission check *)
Lemma check_admission_Ok limits acc req cores active :
  check_admission limits acc req cores = Ok active <->
  active = rc_add (acc_active acc) req /\
  rc_all (fun x => x <= u64_MAX) active /\
  rc_all (fun x => x <= u64_MAX) (rc_add active (acc_quarantined acc)) /\
  within_limits limits (mkAccounting active (acc_quarantined acc)) /\
  rc_pinned_workers active <= default (hl_pinned_workers limits) cores.
Proof.
  unfold check_admission, within_limits. cbn [acc_active acc_quarantined]. split.
  - intros H. inv_bind. 
    repeat match goal with H : charges_checked_add _ _ = Some _ |- _ => apply charges_checked_add_Some in H as [-> ?] end.
    repeat (bcase; [discriminate|]). injection H as <-. split_and!; try done; lia.
  - intros (-> & Hfit & Hfit' & H & Hcores). destruct_and?.
    rewrite (proj2 (charges_checked_add_Some _ _ _) (conj eq_refl Hfit)). cbn [ok_or mbind result_bind].
    rewrite (proj2 (charges_checked_add_Some _ _ _) (conj eq_refl Hfit')). cbn [ok_or mbind result_bind].
    repeat (bcase; [exfalso; lia|]). done.
Qed.

(** ** The accounting invariant *)
Definition token_ok (t : Token) : Prop :=
  rc_nonneg (charges_of t) /\
  match t with
  | TokAdmission a => ad_state a = AdActive
  | TokWorker w => wa_released w = false
  | TokBacking b => True
  end.

Definition token_clean (t : Token) : Prop :=
  match t with
  | TokBacking b => ba_poisoned b = false /\ ba_state b <> BkRetainedUncertain
  | _ => True
  end.

Record host_inv (clean : bool) (h : Host) : Prop := {
  hi_active : exists lost, rc_nonneg lost /\
    acc_active (ac_accounting (h_ctl h)) = rc_add (held_sum (h_tokens h)) lost /\
    (clean = true -> lost = rc_ZERO);
  hi_clean : clean = true -> ac_poisoned (h_ctl h) = false /\ Forall token_clean (h_tokens h);
  hi_tokens : Forall token_ok (h_tokens h);
  hi_quarantined : rc_nonneg (acc_quarantined (ac_accounting (h_ctl h)));
  hi_fits : rc_all (fun x => x <= u64_MAX)
    (rc_add (acc_active (ac_accounting (h_ctl h))) (acc_quarantined (ac_accounting (h_ctl h))));
  hi_limits : within_limits (ac_limits (h_ctl h)) (ac_accounting (h_ctl h));
}.

Lemma held_nonneg t : token_ok t -> rc_nonneg (held t).
Proof.
  intros [Hc Ht]. destruct t as [a|w|b]; cbn in *.
  - by rewrite Ht.
  - by rewrite Ht.
  - destruct (ba_state b); auto with charges.
Qed.

Lemma held_sum_nonneg l : Forall token_ok l -> rc_nonneg (held_sum l).
Proof. induction 1; cbn; auto using held_nonneg with charges. Qed.

Lemma held_sum_app l1 l2 : held_sum (l1 ++ l2) = rc_add (held_sum l1) (held_sum l2).
Proof.
  induction l1 as [|t l1 IH]; cbn; [by rewrite rc_add_0_l|].
  unfold held_sum in IH at 1. rewrite IH. apply rc_add_assoc.
Qed.

Lemma held_sum_middle l1 t l2 : held_sum (l1 ++ t :: l2) = rc_add (held t) (held_sum (l1 ++ l2)).
Proof.
  rewrite !held_sum_app. cbn. fold (held_sum l2). rewrite rc_add_assoc, (rc_add_comm (held_sum l1) (held t)).
  by rewrite rc_add_assoc.
Qed.

Lemma release_refunds c charges rest :
  acc_active (ac_accounting c) = rc_add charges rest -> rc_nonneg rest ->
  release c charges =
  if ac_poisoned c then c
  else set_accounting c (mkAccounting rest (acc_quarantined (ac_accounting c))).
Proof.
  intros Ha Hr. unfold release, lock. destruct (ac_poisoned c) eqn:E; [done|].
  by rewrite Ha, charges_checked_sub_ok.
Qed.

Lemma quarantine_moves c charges rest :
  ac_poisoned c = false ->
  acc_active (ac_accounting c) = rc_add charges rest -> rc_nonneg rest -> rc_nonneg charges ->
  rc_all (fun x => x <= u64_MAX) (rc_add (acc_active (ac_accounting c)) (acc_quarantined (ac_accounting c))) ->
  quarantine c charges =
  Ok (set_accounting c (mkAccounting rest (rc_add (acc_quarantined (ac_accounting c)) (backing_part charges)))).
Proof.
  intros Hp Ha Hr Hc Hfit. unfold quarantine, lock. rewrite Hp. cbn [mbind result_bind].
  rewrite Ha, charges_checked_sub_ok by done. cbn [ok_or mbind result_bind].
  assert (rc_all (fun x => x <= u64_MAX) (rc_add (acc_quarantined (ac_accounting c)) (backing_part charges))).
  { rewrite Ha in Hfit. destruct (acc_quarantined _). rc_lia. }
  by rewrite (proj2 (charges_checked_add_Some _ _ _) (conj eq_refl H)).
Qed.

(** What the invariant says of one token: its held charge can be taken out of the active total. *)
Lemma inv_take clean c l1 t l2 :
  host_inv clean (mkHost c (l1 ++ t :: l2)) ->
  exists lost, rc_nonneg lost /\ (clean = true -> lost = rc_ZERO) /\
    acc_active (ac_accounting c) = rc_add (held t) (rc_add (held_sum (l1 ++ l2)) lost) /\
    rc_nonneg (rc_add (held_sum (l1 ++ l2)) lost) /\ rc_nonneg (held t) /\ Forall token_ok (l1 ++ l2).
Proof.
  intros [(lost & Hl & Ha & Hc) _ Ht _ _ _]. cbn in *. exists lost.
  rewrite held_sum_middle in Ha. apply Forall_app in Ht as [Ht1 Ht2].
  apply Forall_cons_iff in Ht2 as [Ht Ht2].
  assert (Forall token_ok (l1 ++ l2)) by (by apply Forall_app).
  split_and!; auto using held_nonneg, held_sum_nonneg with charges.
  by rewrite rc_add_assoc.
Qed.

Lemma inv_clean_rest clean c l1 t l2 :
  host_inv clean (mkHost c (l1 ++ t :: l2)) ->
  clean = true -> ac_poisoned c = false /\ Forall token_clean (l1 ++ l2) /\ token_clean t.
Proof.
  intros [_ Hc _ _ _ _] E. destruct (Hc E) as [Hp Hl]. cbn in *. apply Forall_app in Hl as [? Hl].
  apply Forall_cons_iff in Hl as [? ?]. rewrite Forall_app. done.
Qed.

Lemma inv_token clean c l1 t l2 : host_inv clean (mkHost c (l1 ++ t :: l2)) -> token_ok t.
Proof. intros [_ _ Ht _ _ _]. cbn in Ht. apply Forall_app in Ht as [_ Ht]. by inversion Ht. Qed.

Lemma inv_unclean clean h : host_inv clean h -> host_inv false h.
Proof. intros [(lost & ? & ? & ?) ? ? ? ? ?]. split; try done. by exists lost. Qed.

(** A token leaves the scope and its charge stays counted. *)
Lemma inv_forget clean c l1 t l2 :
  host_inv clean (mkHost c (l1 ++ t :: l2)) -> (clean = true -> held t = rc_ZERO) ->
  host_inv clean (mkHost c (l1 ++ l2)).
Proof.
  intros Hinv Hz. pose proof (inv_clean_rest _ _ _ _ _ Hinv) as Hc.
  destruct (inv_take _ _ _ _ _ Hinv) as (lost & Hl & Hlc & Ha & _ & Hh & Ht).
  destruct Hinv as [_ _ _ Hq Hf Hlim]. split; cbn in *; try done.
  - exists (rc_add (held t) lost). split; [auto with charges|]. split.
    + rewrite Ha. rewrite !rc_add_assoc. f_equal. apply rc_add_comm.
    + intros E. by rewrite Hz, Hlc.
  - intros E. destruct (Hc E) as (? & ? & ?). done.
Qed.

(** A token leaves the scope and its charge is refunded. *)
Lemma inv_release clean c l1 t l2 :
  host_inv clean (mkHost c (l1 ++ t :: l2)) ->
  host_inv clean (mkHost (release c (held t)) (l1 ++ l2)).
Proof.
  intros Hinv. destruct (inv_take _ _ _ _ _ Hinv) as (lost & Hl & Hlc & Ha & Hr & Hh & Ht).
  rewrite (release_refunds _ _ _ Ha Hr). destruct (ac_poisoned c) eqn:Ep.
  - apply (inv_forget _ _ _ t); [done|]. intros E. destruct (inv_clean_rest _ _ _ _ _ Hinv E). congruence.
  - pose proof (inv_clean_rest _ _ _ _ _ Hinv) as Hc. destruct Hinv as [_ _ _ Hq Hf Hlim].
    split; cbn in *; try done.
    + by exists lost.
    + intros E. destruct (Hc E) as (? & ? & ?). done.
    + rewrite Ha in Hf. destruct (acc_quarantined _), (held_sum _). rc_lia.
    + unfold within_limits in *. rewrite Ha in Hlim. cbn in *.
      destruct (acc_quarantined _), (held_sum _), (held t), lost. rc_unfold. lia.
Qed.

(** A token's charge moves to the quarantined total, which cannot fail. *)
Lemma inv_quarantine clean c l1 t l2 :
  host_inv clean (mkHost c (l1 ++ t :: l2)) -> ac_poisoned c = false ->
  exists c', quarantine c (held t) = Ok c' /\ host_inv clean (mkHost c' (l1 ++ l2)).
Proof.
  intros Hinv Ep. destruct (inv_take _ _ _ _ _ Hinv) as (lost & Hl & Hlc & Ha & Hr & Hh & Ht).
  pose proof (inv_clean_rest _ _ _ _ _ Hinv) as Hc. destruct Hinv as [_ _ _ Hq Hf Hlim]. cbn in *.
  eexists. split; [by apply (quarantine_moves _ _ (rc_add (held_sum (l1 ++ l2)) lost))|].
  split; cbn; try done.
  - by exists lost.
  - intros E. destruct (Hc E) as (? & ? & ?). done.
  - auto with charges.
  - rewrite Ha in Hf. destruct (acc_quarantined _), (held_sum _), (held t). rc_lia.
  - unfold within_limits in *. rewrite Ha in Hlim. cbn in *.
    destruct (acc_quarantined _), (held_sum _), (held t), lost. rc_unfold. lia.
Qed.

(** Tokens are exchanged for tokens that hold the same charge in total. *)
Lemma inv_exchange clean c l1 ts ts' l2 :
  host_inv clean (mkHost c (l1 ++ ts ++ l2)) -> held_sum ts' = held_sum ts ->
  Forall token_ok ts' -> (clean = true -> Forall token_clean ts') ->
  host_inv clean (mkHost c (l1 ++ ts' ++ l2)).
Proof.
  intros [Ha Hc Ht Hq Hf Hlim] Hs Hts Htc. split; cbn in *; try done.
  - rewrite !held_sum_app in *. by rewrite Hs.
  - intros E. destruct (Hc E) as [? Hl]. rewrite !Forall_app in *. naive_solver.
  - rewrite !Forall_app in *. naive_solver.
Qed.

Lemma inv_drop clean c l1 t l2 :
  host_inv clean (mkHost c (l1 ++ t :: l2)) -> host_inv clean (mkHost (token_drop c t) (l1 ++ l2)).
Proof.
  intros Hinv. assert (token_ok t) as [_ Hok] by (by eapply inv_token).
  pose proof (inv_clean_rest _ _ _ _ _ Hinv) as Hc.
  pose proof (inv_release _ _ _ _ _ Hinv) as Hrel.
  destruct t as [a|w|b]; cbn in *; unfold Admission_drop, WorkerAdmission_drop, BackingAdmission_drop.
  - by rewrite Hok in *.
  - by rewrite Hok in *.
  - case_bool_decide as Hb; [destruct (ba_poisoned b) eqn:Ep|rewrite andb_false_r]; cbn.
    + apply (inv_forget _ _ _ (TokBacking b)); [done|]. intros E. destruct (Hc E) as (_ & _ & ? & _). congruence.
    + by rewrite Hb in Hrel.
    + apply (inv_forget _ _ _ (TokBacking b)); [done|]. intros E. destruct (Hc E) as (_ & _ & _ & ?). cbn.
      by destruct (ba_state b).
Qed.

(** Dropping a token that is not retained lowers the active total by what it holds. *)
Lemma drop_refunds clean c l1 t l2 :
  host_inv clean (mkHost c (l1 ++ t :: l2)) -> ac_poisoned c = false ->
  (forall b, t = TokBacking b -> is_active b = true) ->
  acc_active (ac_accounting c) = rc_add (held t) (acc_active (ac_accounting (token_drop c t))).
Proof.
  intros Hinv Ep Hb. destruct (inv_take _ _ _ _ _ Hinv) as (lost & _ & _ & Ha & Hr & _ & _).
  assert (token_drop c t = release c (held t)) as ->.
  { destruct (inv_token _ _ _ _ _ Hinv) as [_ Hs]. destruct t as [a|w|b]; cbn in *.
    - unfold Admission_drop. by rewrite Hs.
    - unfold WorkerAdmission_drop. by rewrite Hs.
    - unfold BackingAdmission_drop. specialize (Hb b eq_refl). unfold is_active in Hb. rewrite Hb.
      apply andb_prop in Hb as [_ Hb]. apply bool_decide_eq_true in Hb. by rewrite Hb. }
  rewrite (release_refunds _ _ _ Ha Hr), Ep. exact Ha.
Qed.

Lemma inv_admission_quarantine clean c l1 a l2 :
  host_inv clean (mkHost c (l1 ++ TokAdmission a :: l2)) ->
  host_inv clean (mkHost (Admission_quarantine c a).2 (l1 ++ l2)) /\
  (ac_poisoned c = false -> (Admission_quarantine c a).1 = Ok ()).
Proof.
  intros Hinv. assert (held (TokAdmission a) = ad_charges a) as Hh.
  { destruct (inv_token _ _ _ _ _ Hinv) as [_ E]. cbn in *. by rewrite E. }
  unfold Admission_quarantine. destruct (ac_poisoned c) eqn:Ep.
  - unfold quarantine, lock. rewrite Ep. cbn. split; [|done].
    by apply (inv_drop _ _ _ (TokAdmission a)).
  - destruct (inv_quarantine _ _ _ _ _ Hinv Ep) as (c' & E & Hinv'). rewrite Hh in E. by rewrite E.
Qed.

Lemma inv_backing_quarantine clean c l1 b l2 r c' b' :
  host_inv clean (mkHost c (l1 ++ TokBacking b :: l2)) ->
  BackingAdmission_quarantine c b = (r, c', b') ->
  host_inv clean (mkHost c' (l1 ++ TokBacking b' :: l2)) /\
  (ac_poisoned c = false -> is_active b = true -> r = Ok ()).
Proof.
  intros Hinv. unfold BackingAdmission_quarantine, is_active.
  assert (token_ok (TokBacking b)) as [Hn _] by (by eapply inv_token).
  pose proof (inv_clean_rest _ _ _ _ _ Hinv) as Hc.
  destruct (ba_poisoned b) eqn:Epb; [by intros [= <- <- <-]|].
  case_bool_decide as Hb; cbn [negb andb]; [|by intros [= <- <- <-]].
  assert (held (TokBacking b) = ba_charges b) as Hh by (cbn; by rewrite Hb).
  destruct (ac_poisoned c) eqn:Ep.
  - unfold quarantine, lock. rewrite Ep. intros [= <- <- <-]. split; [|done].
    apply (inv_exchange _ _ _ [TokBacking b] [TokBacking _]); cbn; try done.
    + by rewrite Hb.
    + by apply Forall_singleton.
    + intros E. destruct (Hc E) as (? & _). congruence.
  - destruct (inv_quarantine _ _ _ _ _ Hinv Ep) as (c1 & E & Hinv'). rewrite Hh in E. cbn. rewrite E.
    intros [= <- <- <-]. split; [|done].
    apply (inv_exchange _ _ _ [] [TokBacking _]); cbn; try done.
    + by apply Forall_singleton.
    + intros _. by apply Forall_singleton.
Qed.

Lemma inv_admit clean c l profile cores a c' :
  rc_all is_u64 (tp_charges profile) -> AdmissionController_admit c profile cores = Ok (a, c') ->
  host_inv clean (mkHost c l) -> host_inv clean (mkHost c' (TokAdmission a :: l)).
Proof.
  intros Hu Hadmit [(lost & Hl & Ha & Hlc) Hc Ht Hq Hf Hlim]. unfold AdmissionController_admit, lock in Hadmit.
  destruct (ac_poisoned c) eqn:Ep; [discriminate|]. cbn in Hadmit. destruct (check_admission _ _ _ _) as [active|] eqn:Hok; [|discriminate]. injection Hadmit as <- <-.
  apply check_admission_Ok in Hok as (-> & _ & Hfit & Hlim' & _). cbn in *.
  assert (rc_nonneg (tp_charges profile)) by (eapply rc_all_impl; [|done]; mlia).
  split; cbn in *; try done.
  - exists lost. split; [done|]. split; [|done]. rewrite Ha, (rc_add_comm _ (tp_charges profile)).
    apply rc_add_assoc.
  - intros E. destruct (Hc E) as [? ?]. split; [done|]. by constructor.
  - by constructor.
Qed.

Lemma inv_step clean h op h' :
  host_inv clean h -> host_step h op h' -> host_inv (clean && clean_op op) h'.
Proof.
  intros Hinv Hstep. destruct Hstep; cbn [clean_op]; rewrite ?andb_true_r, ?andb_false_r.
  - by eapply inv_admit.
  - by apply inv_drop.
  - by apply inv_admission_quarantine.
  - unfold split in H. injection H as <- <- <-.
    assert (token_ok (TokAdmission a)) as [Hn Hs] by (by eapply inv_token).
    cbn in Hs. apply (inv_exchange _ _ _ [TokAdmission a] [TokWorker _; TokBacking _]); cbn; try done.
    + by rewrite Hs, !rc_add_0_r, rc_split_parts.
    + apply Forall_cons_iff. rewrite Forall_singleton. split; split; cbn; auto with charges.
    + intros _. apply Forall_cons_iff. by rewrite Forall_singleton.
  - by eapply inv_backing_quarantine.
  - assert (token_ok (TokBacking b)) as [Hn _] by (by eapply inv_token).
    apply inv_unclean in Hinv.
    apply (inv_exchange _ _ _ [TokBacking b] [TokBacking _]); cbn; try done.
    + unfold retain_uncertain. case_bool_decide as E; [|by rewrite andb_false_r].
      destruct (ba_poisoned b); cbn; by rewrite ?E.
    + apply Forall_singleton. split; [|done]. cbn in *. unfold retain_uncertain. by destruct (_ && _).
  - apply inv_unclean in Hinv. by destruct Hinv.
  - assert (token_ok (TokBacking b)) as [Hn _] by (by eapply inv_token).
    apply inv_unclean in Hinv.
    apply (inv_exchange _ _ _ [TokBacking b] [TokBacking _]); cbn; try done.
    by apply Forall_singleton.
Qed.

Lemma inv_run limits ops h :
  limits_nonneg limits -> host_run (mkHost (AdmissionController_new limits) []) ops h ->
  host_inv (forallb clean_op ops) h.
Proof.
  intros Hl Hrun. remember (mkHost _ _) as h0. induction Hrun as [h|h ops h' op h'' Hrun IH Hstep]; subst.
  - split; cbn; try done.
    + exists rc_ZERO. auto with charges.
  - rewrite forallb_app. cbn. rewrite andb_true_r. by eapply inv_step; [apply IH|].
Qed.

(** ** What one step changes *)
Lemma release_cases c charges :
  release c charges = c \/
  exists active, release c charges = set_accounting c (mkAccounting active (acc_quarantined (ac_accounting c))).
Proof.
  unfold release, lock. destruct (ac_poisoned c); [by left|].
  destruct (charges_checked_sub _ _); [right; by eexists|by left].
Qed.

Lemma quarantine_cases c charges c' :
  quarantine c charges = Ok c' ->
  exists active, c' = set_accounting c (mkAccounting active
    (rc_add (acc_quarantined (ac_accounting c)) (backing_part charges))).
Proof.
  unfold quarantine, lock. destruct (ac_poisoned c); [done|]. cbn [mbind result_bind]. intros H. inv_bind.
  apply charges_checked_add_Some in Hsome as [-> _]. by eexists.
Qed.

(** A step leaves the limits alone, and the quarantined total unchanged or grown by a token's
    backing charge. *)
Lemma step_effect h op h' :
  host_step h op h' ->
  ac_limits (h_ctl h') = ac_limits (h_ctl h) /\
  (acc_quarantined (ac_accounting (h_ctl h')) = acc_quarantined (ac_accounting (h_ctl h)) \/
   exists t, t ∈ h_tokens h /\ (op = OpQuarantine \/ op = OpBackingQuarantine) /\
     acc_quarantined (ac_accounting (h_ctl h')) =
     rc_add (acc_quarantined (ac_accounting (h_ctl h))) (backing_part (charges_of t))).
Proof.
  intros Hs. destruct Hs as [c l profile cores a c' _ H|c l1 t l2|c l1 a l2|c l1 a l2 w b c' H
    |c l1 b l2 r c' b' H|c l1 b l2|c l|c l1 b l2]; cbn; try (by auto).
  - unfold AdmissionController_admit in H. destruct (lock c) eqn:El; [|done]. cbn in H.
    unfold lock in El. destruct (ac_poisoned c); [done|]. injection El as <-.
    destruct (check_admission _ _ _ _); [|done]. injection H as <- <-. auto.
  - destruct t as [a|w|b]; cbn; unfold Admission_drop, WorkerAdmission_drop, BackingAdmission_drop;
      match goal with |- context [release c ?ch] => destruct (release_cases c ch) as [->|(? & ->)] end;
      repeat case_match; auto.
  - unfold Admission_quarantine. destruct (quarantine c _) as [c'|err] eqn:E; cbn.
    + apply quarantine_cases in E as (active & ->). split; [done|]. right. exists (TokAdmission a).
      split; [set_solver|]. auto.
    + unfold Admission_drop. destruct (ad_state a); auto.
      destruct (release_cases c (ad_charges a)) as [->|(? & ->)]; auto.
  - unfold split in H. by injection H as <- <- <-; auto.
  - unfold BackingAdmission_quarantine in H. destruct (ba_poisoned b); [injection H as <- <- <-; auto|].
    case_bool_decide; cbn in H; [|injection H as <- <- <-; auto].
    destruct (quarantine c _) as [c1|err] eqn:E; injection H as <- <- <-; auto.
    apply quarantine_cases in E as (active & ->). split; [done|]. right. exists (TokBacking b).
    split; [set_solver|]. auto.
Qed.

(** ** Profiles and their charges *)
Lemma double_Ok v w : double v = Ok w <-> w = v * 2 /\ v * 2 <= u64_MAX.
Proof.
  unfold double, ok_or. destruct (checked_mul u64_MAX v 2) eqn:E.
  - apply checked_mul_Some in E as [-> ?]. naive_solver.
  - split; [done|]. intros [_ ?]. by rewrite checked_mul_ok in E.
Qed.

(** The charges of one admitted connection, written out. *)
Definition expected_charges (config : ProfileConfig) (l : MappingLayout) : ResourceCharges :=
  let g := cf_geometry config in
  {| rc_descriptors := 2 * (pg_ordinary_descriptors g + pg_reserved_descriptors g);
     rc_mapping_bytes := 2 * ml_total l;
     rc_ledger_bytes := 2 * (44 * block_count g);
     rc_leases := 2 * block_count g;
     rc_mappings := cf_mappings config;
     rc_file_descriptors := cf_mappings config + 4;
     rc_wake_handles := 4;
     rc_workers := topology_workers (cf_worker_topology config);
     rc_client_instances := 1;
     rc_pinned_workers := 0 |}.

Lemma ledger_bytes_blocks g : geometry_ok g -> ledger_bytes g = 44 * block_count g.
Proof.
  intros Hg. pose proof (block_count_range g Hg). unfold ledger_bytes, SIZE_OF_U64, SIZE_OF_U32, MAX_BLOCKS in *.
  mlia.
Qed.

Lemma layout_total_nonneg g page_size l : layout_ok g page_size l -> 0 <= ml_total l.
Proof. intros H. pose proof (lo_regions _ _ _ H) as Hr. unfold layout_regions in Hr. cbn in Hr. lia. Qed.

(** ** Properties *)

(** a profile is accepted exactly when its largest ordinary class holds a maximum frame, it
    charges a mapping per direction and no pinned worker, its geometry can be laid out, and no
    charge overflows; its charges are then twice the per-direction layout plus the doorbells, so
    they count every byte the pair of mappings and the private ledgers commit. *)
Theorem TargetProfile_new_iff page_size config p :
  geometry_ok (cf_geometry config) -> is_u64 page_size -> 0 <= cf_mappings config ->
  TargetProfile_new page_size config = Ok p <->
  holds_maximum_frame (cf_geometry config) = true /\ SETUP_MAPPING_COUNT <= cf_mappings config /\
  cf_pinned_workers config = 0 /\ cf_mappings config + 4 <= u64_MAX /\
  exists l, MappingLayout_new (cf_geometry config) page_size = Ok l /\
    2 * ml_total l + 2 * (44 * block_count (cf_geometry config)) <= u64_MAX /\
    p = {| tp_descriptor := cf_descriptor config; tp_geometry := cf_geometry config;
           tp_mapping_bytes_per_direction := ml_total l;
           tp_worker_topology := cf_worker_topology config;
           tp_charges := expected_charges config l |}.
Proof.
  intros Hg Hpage Hm. unfold TargetProfile_new, SETUP_MAPPING_COUNT, SETUP_DOORBELL_COUNT.
  rewrite (descriptor_depth_sum _ Hg), (ledger_bytes_blocks _ Hg).
  pose proof (block_count_range _ Hg) as Hb. pose proof (go_depth _ Hg). pose proof (go_ordinary _ Hg).
  pose proof (go_reserved _ Hg). unfold MAX_BLOCKS, MAX_DESCRIPTORS in *.
  destruct (holds_maximum_frame _); cbn [negb]; [|naive_solver].
  bcase; [split; [done|intros; destruct_and?; lia]|].
  bcase; [|split; [done|naive_solver lia]].
  destruct (MappingLayout_new _ page_size) as [l|err] eqn:El; cbn [map_err mbind result_bind]; [|naive_solver].
  pose proof (layout_total_nonneg _ _ _ (MappingLayout_new_ok _ _ _ Hg Hpage El)) as Ht.
  unfold double. rewrite !(checked_mul_ok _ (_ + _) 2) by mlia. cbn [ok_or mbind result_bind].
  unfold expected_charges, committed_bytes. split.
  - intros Hx. destruct (checked_mul u64_MAX (ml_total l) 2) eqn:E1; [|discriminate].
    apply checked_mul_Some in E1 as [-> ?]. cbn [ok_or mbind result_bind] in Hx.
    rewrite !checked_mul_ok in Hx by mlia. cbn [ok_or mbind result_bind] in Hx.
    destruct (checked_add u64_MAX (cf_mappings config) 4) eqn:E2; [|discriminate].
    apply checked_add_Some in E2 as [-> ?]. cbn [ok_or mbind result_bind rc_mapping_bytes rc_ledger_bytes] in Hx.
    destruct (checked_add u64_MAX (ml_total l * 2) _) eqn:E3; [|discriminate].
    apply checked_add_Some in E3 as [-> ?]. injection Hx as <-.
    split_and!; try (done || lia). exists l. split; [done|]. split; [lia|]. do 2 f_equal; lia.
  - intros (_ & _ & _ & ? & l' & [= <-] & ? & ->).
    rewrite !checked_mul_ok by mlia. cbn [ok_or mbind result_bind]. rewrite checked_add_ok by mlia. cbn [ok_or mbind result_bind rc_mapping_bytes rc_ledger_bytes].
    rewrite checked_add_ok by mlia. cbn [ok_or mbind result_bind]. do 3 f_equal; lia.
Qed.

Definition host_profile_config : ProfileConfig :=
  {| cf_descriptor := mkHardwareProfileId []; cf_geometry := host_geometry; cf_mappings := 2;
     cf_pinned_workers := 0; cf_worker_topology := Fused |}.

Lemma TargetProfile_new_iff_witness :
  exists p, TargetProfile_new 4096 host_profile_config = Ok p /\
    tp_charges p = mkCharges 96 191651840 16456 374 2 6 4 1 1 0.
Proof.
  eexists. split.
  - apply (TargetProfile_new_iff 4096 host_profile_config).
    + exact host_geometry_ok.
    + mlia.
    + vm_compute. discriminate.
    + split_and!; [vm_compute; reflexivity|vm_compute; discriminate|reflexivity|vm_compute; discriminate|].
      eexists. split; [vm_compute; reflexivity|]. split; [vm_compute; discriminate|reflexivity].
  - vm_compute. reflexivity.
Defined.

(** the controller admits a profile exactly when no total overflows and, with the profile
    added, active plus quarantined charges stay within every host limit, active workers within
    theirs, and active pinned workers within the verified cores; the new active total is the old
    one plus the profile's charges, and an admission that is refused changes nothing. *)
Theorem admit_iff c profile cores a c' :
  AdmissionController_admit c profile cores = Ok (a, c') <->
  ac_poisoned c = false /\
  let active := rc_add (acc_active (ac_accounting c)) (tp_charges profile) in
  let accounting := mkAccounting active (acc_quarantined (ac_accounting c)) in
  rc_all (fun x => x <= u64_MAX) active /\
  rc_all (fun x => x <= u64_MAX) (rc_add active (acc_quarantined (ac_accounting c))) /\
  within_limits (ac_limits c) accounting /\
  rc_pinned_workers active <= default (hl_pinned_workers (ac_limits c)) cores /\
  a = mkAdmission (tp_charges profile) AdActive /\
  c' = mkController (ac_limits c) accounting false.
Proof.
  unfold AdmissionController_admit, lock, set_accounting. destruct (ac_poisoned c); cbn; [naive_solver|].
  destruct (check_admission _ _ _ _) as [active|err] eqn:E.
  - apply check_admission_Ok in E as (-> & ?). naive_solver.
  - split; [discriminate|]. intros (_ & ? & ? & ? & ? & _). exfalso.
    rewrite (proj2 (check_admission_Ok _ _ _ _ _) (conj eq_refl (conj H (conj H0 (conj H1 H2))))) in E. done.
Qed.

Definition small_limits : HostLimits := mkLimits 200 400000000 40000 1000 4 12 8 2 2 0.

Definition small_profile : TargetProfile :=
  {| tp_descriptor := mkHardwareProfileId []; tp_geometry := host_geometry;
     tp_mapping_bytes_per_direction := 95825920; tp_worker_topology := Fused;
     tp_charges := mkCharges 96 191651840 16456 374 2 6 4 1 1 0 |}.

(** C38: whatever clients do with the tokens - drop, quarantine, split, retain, even panic inside
    the locks - the active total is at every moment the sum of the charges the tokens in scope
    hold plus charges that were deliberately never refunded; and when no client panics or retains
    an uncertain charge, it is exactly the sum of the held charges, so nothing leaks and nothing
    is refunded twice. *)
Theorem accounting_conserves_charges limits ops h :
  limits_nonneg limits -> host_run (mkHost (AdmissionController_new limits) []) ops h ->
  exists lost, rc_nonneg lost /\
    acc_active (ac_accounting (h_ctl h)) = rc_add (held_sum (h_tokens h)) lost /\
    (forallb clean_op ops = true -> lost = rc_ZERO).
Proof. intros Hl Hrun. by destruct (inv_run _ _ _ Hl Hrun). Qed.

(** A run: AdmissionController_admit two connections, split the first, drop its worker, quarantine its backing. *)
Definition first_admission : Admission := mkAdmission (tp_charges small_profile) AdActive.

Lemma small_charges_u64 : rc_all is_u64 (tp_charges small_profile).
Proof. unfold rc_all. cbn. split_and!; mlia. Qed.

Lemma example_run :
  exists h, host_run (mkHost (AdmissionController_new small_limits) [])
              [OpAdmit; OpAdmit; OpSplit; OpDrop; OpBackingQuarantine] h /\
    length (h_tokens h) = 2%nat /\
    ac_accounting (h_ctl h) =
    mkAccounting (tp_charges small_profile) (backing_part (tp_charges small_profile)).
Proof.
  eexists. split.
  - change [OpAdmit; OpAdmit; OpSplit; OpDrop; OpBackingQuarantine]
      with (((((([] ++ [OpAdmit]) ++ [OpAdmit]) ++ [OpSplit]) ++ [OpDrop]) ++ [OpBackingQuarantine])).
    eapply run_snoc; [eapply run_snoc; [eapply run_snoc; [eapply run_snoc; [eapply run_snoc; [apply run_nil|]|]|]|]|].
    + eapply (step_admit _ _ small_profile None); [apply small_charges_u64|vm_compute; reflexivity].
    + eapply (step_admit _ _ small_profile None); [apply small_charges_u64|vm_compute; reflexivity].
    + eapply (step_split _ []). vm_compute. reflexivity.
    + eapply (step_drop _ []).
    + eapply (step_backing_quarantine _ []). vm_compute. reflexivity.
  - split; vm_compute; reflexivity.
Qed.

Lemma small_limits_nonneg : limits_nonneg small_limits.
Proof. unfold limits_nonneg. cbn. lia. Qed.

Lemma accounting_conserves_charges_witness :
  exists h lost, length (h_tokens h) = 2%nat /\
    acc_active (ac_accounting (h_ctl h)) = rc_add (held_sum (h_tokens h)) lost /\ lost = rc_ZERO.
Proof.
  destruct example_run as (h & Hrun & Hlen & _).
  destruct (accounting_conserves_charges small_limits _ h small_limits_nonneg Hrun) as (lost & _ & Ha & Hz).
  exists h, lost. split; [exact Hlen|]. split; [exact Ha|]. apply Hz. reflexivity.
Defined.

(** At every moment the committed totals are within the host limits and within 64 bits. *)
Theorem committed_within_limits limits ops h :
  limits_nonneg limits -> host_run (mkHost (AdmissionController_new limits) []) ops h ->
  ac_limits (h_ctl h) = limits /\
  within_limits limits (ac_accounting (h_ctl h)) /\
  rc_all is_u64 (acc_active (ac_accounting (h_ctl h))) /\
  rc_all is_u64 (acc_quarantined (ac_accounting (h_ctl h))).
Proof.
  intros Hl Hrun. assert (ac_limits (h_ctl h) = limits) as Hlim.
  { remember (mkHost _ _) as h0. clear Hl. induction Hrun as [h|h ops h' op h'' _ IH Hstep]; subst; [done|].
    rewrite <- (IH eq_refl). clear IH. by apply step_effect in Hstep as [? _]. }
  destruct (inv_run _ _ _ Hl Hrun) as [(lost & Hlost & Ha & _) _ Ht Hq Hf Hw]. rewrite Hlim in Hw.
  pose proof (held_sum_nonneg _ Ht) as Hn. rewrite Ha in *.
  split; [done|]. split; [done|].
  destruct (acc_quarantined _), (held_sum _). split; rc_lia.
Qed.

Lemma committed_within_limits_witness :
  exists h, length (h_tokens h) = 2%nat /\ within_limits small_limits (ac_accounting (h_ctl h)).
Proof.
  destruct example_run as (h & Hrun & Hlen & _). exists h. split; [exact Hlen|].
  exact (proj1 (proj2 (committed_within_limits small_limits _ h small_limits_nonneg Hrun))).
Defined.

(** while the accounting lock is healthy, settling a token in scope cannot fail: an
    admission can always be quarantined, an active backing charge can always be quarantined, and
    a drop lowers the active total by exactly the charge the token still holds (so the underflow
    error the code reserves for corrupt accounting is never returned). Quarantined totals never
    shrink. *)
Theorem settlement_never_fails limits ops h :
  limits_nonneg limits -> host_run (mkHost (AdmissionController_new limits) []) ops h ->
  ac_poisoned (h_ctl h) = false ->
  (forall a, TokAdmission a ∈ h_tokens h -> (Admission_quarantine (h_ctl h) a).1 = Ok ()) /\
  (forall b, TokBacking b ∈ h_tokens h -> is_active b = true ->
     (BackingAdmission_quarantine (h_ctl h) b).1.1 = Ok ()) /\
  (forall t, t ∈ h_tokens h -> (forall b, t = TokBacking b -> is_active b = true) ->
     acc_active (ac_accounting (h_ctl h)) =
     rc_add (held t) (acc_active (ac_accounting (token_drop (h_ctl h) t)))) /\
  (forall op h', host_step h op h' -> exists d, rc_nonneg d /\
     acc_quarantined (ac_accounting (h_ctl h')) = rc_add (acc_quarantined (ac_accounting (h_ctl h))) d).
Proof.
  intros Hl Hrun Hp. pose proof (inv_run _ _ _ Hl Hrun) as Hinv. destruct h as [c l]. cbn in *.
  split_and!.
  - intros a (l1 & l2 & ->)%list_elem_of_split. by apply (inv_admission_quarantine _ _ _ _ _ Hinv).
  - intros b (l1 & l2 & ->)%list_elem_of_split Hb.
    destruct (BackingAdmission_quarantine c b) as [[r c'] b'] eqn:E.
    by apply (inv_backing_quarantine _ _ _ _ _ _ _ _ Hinv E).
  - intros t (l1 & l2 & ->)%list_elem_of_split Hb. by apply (drop_refunds _ _ _ _ _ Hinv).
  - intros op h' Hs. destruct (step_effect _ _ _ Hs) as [_ [->|(t & Ht & _ & ->)]]; cbn in *.
    + exists rc_ZERO. rewrite rc_add_0_r. auto with charges.
    + exists (backing_part (charges_of t)). split; [|done]. apply rc_nonneg_backing.
      destruct Hinv as [_ _ Hok _ _ _]. cbn in Hok. rewrite Forall_forall in Hok. by apply Hok.
Qed.

Lemma settlement_never_fails_witness :
  exists h a, TokAdmission a ∈ h_tokens h /\ (Admission_quarantine (h_ctl h) a).1 = Ok ().
Proof.
  set (c1 := mkController small_limits (mkAccounting (tp_charges small_profile) rc_ZERO) false).
  assert (host_run (mkHost (AdmissionController_new small_limits) []) ([] ++ [OpAdmit])
            (mkHost c1 [TokAdmission first_admission])) as Hrun.
  { eapply run_snoc; [apply run_nil|].
    eapply (step_admit _ _ small_profile None); [apply small_charges_u64|vm_compute; reflexivity]. }
  exists (mkHost c1 [TokAdmission first_admission]), first_admission.
  assert (TokAdmission first_admission ∈ [TokAdmission first_admission]) as Hin by (left; reflexivity).
  split; [exact Hin|].
  apply (proj1 (settlement_never_fails small_limits _ _ small_limits_nonneg Hrun eq_refl)). exact Hin.
Defined.

(** ** CPU lists *)
Inductive CpuItem := CpuOne (s : list Z) | CpuRange (start last : list Z).

Definition decimal (s : list Z) : Prop := s <> [] /\ Forall (fun b => 48 <= b <= 57) s.
Definition dec_value (acc : Z) (s : list Z) : Z := foldl (fun acc b => acc * 10 + (b - 48)) acc s.

Definition item_decimal (i : CpuItem) : Prop :=
  match i with CpuOne s => decimal s | CpuRange s e => decimal s /\ decimal e end.

Definition render_item (i : CpuItem) : list Z :=
  match i with CpuOne s => s | CpuRange s e => s ++ 45 :: e end.

Fixpoint render (i : CpuItem) (items : list CpuItem) : list Z :=
  match items with
  | [] => render_item i
  | i' :: items => render_item i ++ 44 :: render i' items
  end.

(** The processors an item names, or none for a value past 32 bits or an inverted range. *)
Definition item_cpus (i : CpuItem) : option (list Z) :=
  match i with
  | CpuOne s => if dec_value 0 s <=? u32_MAX then Some [dec_value 0 s] else None
  | CpuRange s e =>
      if (dec_value 0 s <=? u32_MAX) && (dec_value 0 e <=? u32_MAX) && (dec_value 0 s <=? dec_value 0 e)
      then Some (range_inclusive (dec_value 0 s) (dec_value 0 e)) else None
  end.

Fixpoint items_cpus (items : list CpuItem) : option (list Z) :=
  match items with
  | [] => Some []
  | i :: items => l ← item_cpus i; l' ← items_cpus items; Some (l ++ l')
  end.

Lemma dec_value_mono acc s : 0 <= acc -> Forall (fun b => 48 <= b <= 57) s -> acc <= dec_value acc s.
Proof.
  intros Ha Hs. revert acc Ha. induction Hs as [|b s Hb _ IH]; intros acc Ha; cbn; [lia|].
  specialize (IH (acc * 10 + (b - 48)) ltac:(lia)). unfold dec_value in IH. lia.
Qed.

Lemma parse_digits_decimal acc s :
  0 <= acc -> Forall (fun b => 48 <= b <= 57) s -> acc <= u32_MAX ->
  parse_digits acc s = if dec_value acc s <=? u32_MAX then Some (dec_value acc s) else None.
Proof.
  intros Ha Hs. revert acc Ha. induction Hs as [|b s Hb Hs IH]; intros acc Ha Hm.
  { cbn. by bcase; [|lia]. }
  cbn [parse_digits]. unfold digit. rewrite (proj2 (Z.leb_le 48 b)), (proj2 (Z.leb_le b 57)) by lia.
  cbn [andb mbind option_bind]. change (dec_value acc (b :: s)) with (dec_value (acc * 10 + (b - 48)) s).
  pose proof (dec_value_mono (acc * 10 + (b - 48)) s ltac:(lia) Hs).
  unfold checked_mul, checked_add. bcase; cbn [mbind option_bind].
  - bcase; cbn [mbind option_bind]; [by rewrite IH by lia|by bcase; [lia|]].
  - by bcase; [lia|].
Qed.

Lemma parse_u32_decimal s :
  decimal s -> parse_u32 s = if dec_value 0 s <=? u32_MAX then Some (dec_value 0 s) else None.
Proof.
  intros [Hne Hs]. destruct s as [|b [|b' s]]; [done| |].
  - inversion Hs; subst. cbn. unfold digit. rewrite (proj2 (Z.leb_le 48 b)), (proj2 (Z.leb_le b 57)) by lia.
    cbn [andb]. by bcase; [|mlia].
  - cbn [parse_u32]. inversion Hs; subst. bcase; [lia|]. apply parse_digits_decimal; (done || mlia).
Qed.

Lemma split_once_decimal s : Forall (fun b => 48 <= b <= 57) s -> split_once 45 s = None.
Proof. induction 1; cbn; [done|]. bcase; [lia|]. by rewrite IHForall. Qed.

Lemma split_once_range s e :
  Forall (fun b => 48 <= b <= 57) s -> split_once 45 (s ++ 45 :: e) = Some (s, e).
Proof. induction 1; cbn; [done|]. bcase; [lia|]. by rewrite IHForall. Qed.

Lemma split_on_item sep s rest :
  Forall (fun b => b <> sep) s -> split_on sep (s ++ sep :: rest) = s :: split_on sep rest.
Proof. induction 1; cbn; [by rewrite Z.eqb_refl|]. bcase; [done|]. by rewrite IHForall. Qed.

Lemma split_on_last sep s : Forall (fun b => b <> sep) s -> split_on sep s = [s].
Proof. induction 1; cbn; [done|]. bcase; [done|]. by rewrite IHForall. Qed.

Lemma render_item_no_comma i : item_decimal i -> Forall (fun b => b <> 44) (render_item i).
Proof.
  assert (forall s, decimal s -> Forall (fun b => b <> 44) s) as Hd.
  { intros s [_ H]. eapply Forall_impl; [exact H|]. intros b [? ?] ->; lia. }
  destruct i; cbn; [apply Hd|]. intros [? ?]. apply Forall_app. split; [auto|]. constructor; [lia|auto].
Qed.

Lemma split_render i items :
  item_decimal i -> Forall item_decimal items ->
  split_on 44 (render i items) = render_item <$> (i :: items).
Proof.
  intros Hi Hitems. revert i Hi. induction Hitems as [|i' items Hi' _ IH]; intros i Hi; cbn [render].
  - by rewrite split_on_last by (by apply render_item_no_comma).
  - rewrite split_on_item by (by apply render_item_no_comma). by rewrite IH.
Qed.

Lemma parse_items_render items cpus :
  Forall item_decimal items ->
  parse_items (render_item <$> items) cpus = (fun l => cpus ++ l) <$> items_cpus items.
Proof.
  intros H. revert cpus. induction H as [|i items Hi _ IH]; intros cpus; [by cbn; rewrite app_nil_r|].
  cbn [fmap list_fmap parse_items items_cpus]. destruct i as [s|s e]; cbn in Hi |- *.
  - rewrite split_once_decimal by apply Hi. rewrite parse_u32_decimal by done.
    bcase; cbn; [|done]. rewrite IH. destruct (items_cpus items); cbn; [|done]. by rewrite <- app_assoc.
  - destruct Hi as [Hs He]. rewrite split_once_range by apply Hs. rewrite !parse_u32_decimal by done.
    repeat (bcase; cbn; try done; try lia).
    rewrite IH. destruct (items_cpus items); cbn; [|done]. by rewrite <- app_assoc.
Qed.

(** on the kernel's CPU-list syntax, numbers and ranges separated by commas, the parser
    returns the processors of every item in order when every number fits 32 bits and no range is
    inverted, and returns nothing, never a subset, as soon as one item is not so. *)
Theorem parse_cpu_list_rendered i items :
  item_decimal i -> Forall item_decimal items ->
  parse_cpu_list (render i items) = items_cpus (i :: items).
Proof.
  intros Hi Hitems. unfold parse_cpu_list. rewrite split_render by done.
  rewrite parse_items_render by (by constructor). by destruct (items_cpus _).
Qed.

(** [0-3,8,10-11]. *)
Lemma parse_cpu_list_rendered_witness :
  parse_cpu_list [48; 45; 51; 44; 56; 44; 49; 48; 45; 49; 49] = Some [0; 1; 2; 3; 8; 10; 11].
Proof.
  transitivity (items_cpus [CpuRange [48] [51]; CpuOne [56]; CpuRange [49; 48] [49; 49]]); [|reflexivity].
  apply (parse_cpu_list_rendered (CpuRange [48] [51]) [CpuOne [56]; CpuRange [49; 48] [49; 49]]);
    repeat first [discriminate | lia | constructor].
Defined.
