(* ===== verification/Retained.v ===== *)
(** * Retained: the shared mapping of one direction and its receiver records
      (crates/shm-transport/src/backend/retained.rs, the lease of src/lease.rs).

    The shared memory is peer-writable. Every atomic access of this side first takes one entry of
    the interference script, an arbitrary change of the shared memory, so a theorem that holds for
    all scripts holds whatever the peer writes between any two accesses. Accesses are sequentially
    consistent. What the operating system answers to the sends and reads of a doorbell is a list,
    of which finitely many are interruptions; after its end they succeed. *)
From S2P Require Import Prelude.
From S2P Require Import Pool.
From S2P Require Import Descriptor.
From S2P Require Import SpanCopy.

(** ** Errors *)
Inductive MappingError :=
| ME_ObjectSetupFailed | ME_ObjectValidationFailed | ME_InvalidLayout | ME_ArithmeticOverflow.

Inductive WakeError := WE_Mapping | WE_Doorbell.

Inductive LeaseError := LE_InvalidSpan | LE_LengthMismatch | LE_DuplicateRelease | LE_WakeFailed.

(** ** The retained backing of a direction: constants of a handle *)
Record Backing := mkBackingOf {
  bk_base : Z;
  bk_len : Z;
  bk_layout : MappingLayout;
  bk_geometry : PoolGeometry;
  bk_incarnation : Incarnation;
  bk_lane : Z;
}.

(** ** Addresses *)
Definition ptr_at (b : Backing) (offset size : Z) : result MappingError Z :=
  last ← ok_or (checked_add u64_MAX offset size) ME_ArithmeticOverflow;
  if bk_len b <? last then Err ME_InvalidLayout else Ok (bk_base b + offset).

Definition shared_page (b : Backing) (offset size align : Z) : result MappingError Z :=
  ptr ← ptr_at b offset size;
  if negb (ptr mod align =? 0) then Err ME_InvalidLayout else Ok ptr.

Definition arena_ptr (b : Backing) (offset len : Z) : result MappingError Z :=
  last ← ok_or (checked_add u64_MAX offset len) ME_ArithmeticOverflow;
  if ml_arena_bytes (bk_layout b) <? last then Err ME_InvalidLayout
  else
    start ← ok_or (checked_add u64_MAX (ml_arena (bk_layout b)) offset) ME_ArithmeticOverflow;
    last ← ok_or (checked_add u64_MAX start len) ME_ArithmeticOverflow;
    if bk_len b <? last then Err ME_InvalidLayout else Ok (bk_base b + start).

Definition body_ptr (b : Backing) (block body_len : Z) : result MappingError Z :=
  placement ← ok_or (placement (bk_geometry b) block) ME_InvalidLayout;
  start ← ok_or (checked_add u64_MAX (bp_offset placement) WIRE_HEADER_BYTES) ME_ArithmeticOverflow;
  if BlockPlacement_body_capacity placement <? body_len then Err ME_InvalidLayout
  else arena_ptr b start body_len.

Definition header_ptr (b : Backing) (block : Z) : result MappingError Z :=
  placement ← ok_or (placement (bk_geometry b) block) ME_InvalidLayout;
  arena_ptr b (bp_offset placement) WIRE_HEADER_BYTES.

(** The control pages; each check stands for one reference the accessor hands out. *)
Definition producer_page (b : Backing) : result MappingError Z :=
  shared_page b (ml_producer (bk_layout b)) CACHELINE CACHELINE.
Definition consumer_page (b : Backing) : result MappingError Z :=
  shared_page b (ml_consumer (bk_layout b)) CACHELINE CACHELINE.
Definition data_wake_page (b : Backing) : result MappingError Z :=
  shared_page b (ml_data_wake (bk_layout b)) CACHELINE CACHELINE.
Definition capacity_wake_page (b : Backing) : result MappingError Z :=
  shared_page b (ml_capacity_wake (bk_layout b)) CACHELINE CACHELINE.
Definition lifecycle_quarantined (b : Backing) : result MappingError Z :=
  ptr_at b (ml_lifecycle (bk_layout b)) LIFECYCLE_PAGE_BYTES.

Definition slot (b : Backing) (index : Z) : result MappingError Z :=
  offset ← ok_or (descriptor_offset (bk_layout b) index) ME_InvalidLayout;
  shared_page b offset DESCRIPTOR_SLOT_BYTES DESCRIPTOR_SLOT_BYTES.

Definition completion (b : Backing) (block : Z) : result MappingError Z :=
  offset ← ok_or (completion_offset (bk_layout b) block) ME_InvalidLayout;
  shared_page b offset SIZE_OF_U64 SIZE_OF_U64.

Definition return_word (b : Backing) (word : Z) : result MappingError Z :=
  offset ← ok_or (return_offset (bk_layout b) word) ME_InvalidLayout;
  shared_page b offset SIZE_OF_U64 SIZE_OF_U64.

(** ** Contents of the mapping *)
Record WakeEpoch := mkWake { we_generation : Z; we_parked : Z }.

Record DescriptorSlot := mkSlot { ds_sequence : Z; ds_block : Z; ds_generation : Z; ds_body_len : Z }.

(** The plain fields of the lifecycle page. *)
Record LifecycleSnapshot := mkLifecycleSnapshot {
  ls_magic : Z;
  ls_lane : Z;
  ls_incarnation : list Z;
  ls_total_bytes : Z;
  ls_ordinary_descriptors : Z;
  ls_reserved_descriptors : Z;
  ls_class_bytes : list Z;
  ls_class_counts : list Z;
}.

(** Slots, completion cells and return words are total maps of their index; accesses go through
    the checked accessors above. The arena maps an absolute address to a byte. *)
Record Shared := mkShared {
  sh_published : Z;
  sh_consumed : Z;
  sh_data_wake : WakeEpoch;
  sh_capacity_wake : WakeEpoch;
  sh_lifecycle : LifecycleSnapshot;
  sh_quarantined : Z;
  sh_slots : Z -> DescriptorSlot;
  sh_completions : Z -> Z;
  sh_returns : Z -> Z;
  sh_arena : mem;
}.

Definition MAPPING_MAGIC : Z := 0x4d4353484d504f4c.

Definition class_bytes_of (g : PoolGeometry) : list Z := cs_block_bytes <$> pg_classes g.
Definition class_counts_of (g : PoolGeometry) : list Z := cs_count <$> pg_classes g.

(** A fresh mapping; a new memory object reads as zeroes. *)
Definition initialize_mapping (b : Backing) : Shared :=
  {| sh_published := 0;
     sh_consumed := 0;
     sh_data_wake := mkWake 0 0;
     sh_capacity_wake := mkWake 0 0;
     sh_lifecycle :=
       {| ls_magic := MAPPING_MAGIC;
          ls_lane := bk_lane b;
          ls_incarnation := inc_bytes (bk_incarnation b);
          ls_total_bytes := ml_total (bk_layout b);
          ls_ordinary_descriptors := pg_ordinary_descriptors (bk_geometry b);
          ls_reserved_descriptors := pg_reserved_descriptors (bk_geometry b);
          ls_class_bytes := class_bytes_of (bk_geometry b);
          ls_class_counts := class_counts_of (bk_geometry b) |};
     sh_quarantined := 0;
     sh_slots := fun _ => mkSlot 0 0 0 0;
     sh_completions := fun _ => 0;
     sh_returns := fun _ => 0;
     sh_arena := fun _ => 0 |}.

Definition validate_lifecycle (s : LifecycleSnapshot) (g : PoolGeometry) (incarnation : Incarnation)
    (lane total_bytes : Z) : bool :=
  (ls_magic s =? MAPPING_MAGIC)
  && (ls_lane s =? lane)
  && bool_decide (ls_incarnation s = inc_bytes incarnation)
  && (ls_total_bytes s =? total_bytes)
  && (ls_ordinary_descriptors s =? pg_ordinary_descriptors g)
  && (ls_reserved_descriptors s =? pg_reserved_descriptors g)
  && bool_decide (ls_class_bytes s = class_bytes_of g)
  && bool_decide (ls_class_counts s = class_counts_of g).

(** Single-cell updates. *)
Definition update {A} (f : Z -> A) (i : Z) (a : A) : Z -> A := fun j => if j =? i then a else f j.

(** ** Private records of a handle: the ring's cells and the receiver's records *)
Inductive BlockState := Free | Reserved | Published.

#[global] Instance BlockState_eq_dec : EqDecision BlockState.
Proof. solve_decision. Defined.

(** The free lists are stacks whose first element is the next to pop; [outstanding] and
    [reclaimed] are vectors in index order. *)
Record ProducerLedger := mkLedger {
  pl_states : list BlockState;
  pl_generations : list Z;
  pl_free : list (list Z);
  pl_outstanding : list Z;
  pl_reclaimed : list Z;
  pl_allowed : bool;
  pl_retired : bool;
}.

Record Handle := mkHandle {
  hd_quarantined : bool;
  hd_ledger : ProducerLedger;
  hd_reserved_block : option Z;
  hd_published_local : Z;
  hd_consumed_local : Z;
  hd_consumed_seen : Z;
  hd_published_seen : Z;
  hd_producer : bool;
  hd_consumer : bool;
  hd_live : list Z;
  hd_last_seen : list Z;
  hd_outstanding_returns : Z;
}.

(** ** Doorbells: what a [send] or [recv] on one returns *)
Inductive SysAnswer := SysBytes (n : Z) | SysWouldBlock | SysInterrupted | SysFailed.

(** The loop of [send_capacity_token] and of [Doorbell::signal]: one token is sent, or one waits already. *)
Fixpoint send_loop (bell : list SysAnswer) : bool * list SysAnswer :=
  match bell with
  | [] => (true, [])
  | SysBytes n :: bell => (n =? 1, bell)
  | SysWouldBlock :: bell => (true, bell)
  | SysInterrupted :: bell => send_loop bell
  | SysFailed :: bell => (false, bell)
  end.

(** The loop of [Doorbell::drain]: nothing read means the peer closed its end. *)
Fixpoint recv_loop (bell : list SysAnswer) : bool * list SysAnswer :=
  match bell with
  | [] => (true, [])
  | SysBytes n :: bell => (negb (n =? 0), bell)
  | SysWouldBlock :: bell => (true, bell)
  | SysInterrupted :: bell => recv_loop bell
  | SysFailed :: bell => (false, bell)
  end.

(** ** The monad of one side: shared memory, private cells, interference and doorbell oracle *)
Record World := mkWorld {
  w_shared : Shared;
  w_handle : Handle;
  w_peer : list (Shared -> Shared);
  w_bell : list SysAnswer;
}.

Inductive outcome (E A : Type) : Type :=
| Done (a : A)
| Fail (e : E)
| Panic.
Arguments Done {E A} a.
Arguments Fail {E A} e.
Arguments Panic {E A}.

Definition M (E A : Type) : Type := World -> outcome E A * World.

#[global] Instance M_ret {E} : MRet (M E) := fun A a w => (Done a, w).

#[global] Instance M_bind {E} : MBind (M E) := fun A B f m w =>
  match m w with
  | (Done a, w') => f a w'
  | (Fail e, w') => (Fail e, w')
  | (Panic, w') => (Panic, w')
  end.

Definition throw {E A} (e : E) : M E A := fun w => (Fail e, w).
Definition panic {E A} : M E A := fun w => (Panic, w).

(** [Result::map_err], where the error path may act before it returns. *)
Definition map_errM {E F A} (f : E -> M F F) (m : M E A) : M F A := fun w =>
  match m w with
  | (Done a, w') => (Done a, w')
  | (Fail e, w') => match f e w' with
                    | (Done e', w'') => (Fail e', w'')
                    | (Fail e', w'') => (Fail e', w'')
                    | (Panic, w'') => (Panic, w'')
                    end
  | (Panic, w') => (Panic, w')
  end.

(** The result of a call as a value, for callers that inspect it. *)
Definition attempt {E F A} (m : M E A) : M F (result E A) := fun w =>
  match m w with
  | (Done a, w') => (Done (Ok a), w')
  | (Fail e, w') => (Done (Err e), w')
  | (Panic, w') => (Panic, w')
  end.

Definition lift {E A} (r : result E A) : M E A :=
  match r with Ok a => mret a | Err e => throw e end.

Definition get_handle {E} : M E Handle := fun w => (Done (w_handle w), w).
Definition put_handle {E} (h : Handle) : M E unit := fun w =>
  (Done (), mkWorld (w_shared w) h (w_peer w) (w_bell w)).

(** One atomic access: the peer's interference, then the access itself. *)
Definition atomic {E A} (f : Shared -> A * Shared) : M E A := fun w =>
  let '(s, peer) := match w_peer w with [] => (w_shared w, []) | p :: peer => (p (w_shared w), peer) end in
  let '(a, s) := f s in
  (Done a, mkWorld s (w_handle w) peer (w_bell w)).

Definition load {E A} (f : Shared -> A) : M E A := atomic (fun s => (f s, s)).
Definition store {E} (f : Shared -> Shared) : M E unit := atomic (fun s => ((), f s)).

(** Sending and reading tokens. *)
Definition with_bell {E} (loop : list SysAnswer -> bool * list SysAnswer) : M E bool := fun w =>
  let '(ok, bell) := loop (w_bell w) in (Done ok, mkWorld (w_shared w) (w_handle w) (w_peer w) bell).
Definition ring_bell {E} : M E bool := with_bell send_loop.
Definition read_bell {E} : M E bool := with_bell recv_loop.

(** Vector indexing: an index past the end panics. *)
Definition vec_get {E A} (l : list A) (i : Z) : M E A :=
  match l !! Z.to_nat i with Some a => mret a | None => panic end.

(** ** Shared-memory updates *)
Definition set_published (v : Z) (s : Shared) : Shared :=
  mkShared v (sh_consumed s) (sh_data_wake s) (sh_capacity_wake s) (sh_lifecycle s) (sh_quarantined s)
    (sh_slots s) (sh_completions s) (sh_returns s) (sh_arena s).
Definition set_consumed (v : Z) (s : Shared) : Shared :=
  mkShared (sh_published s) v (sh_data_wake s) (sh_capacity_wake s) (sh_lifecycle s) (sh_quarantined s)
    (sh_slots s) (sh_completions s) (sh_returns s) (sh_arena s).
Definition set_data_wake (v : WakeEpoch) (s : Shared) : Shared :=
  mkShared (sh_published s) (sh_consumed s) v (sh_capacity_wake s) (sh_lifecycle s) (sh_quarantined s)
    (sh_slots s) (sh_completions s) (sh_returns s) (sh_arena s).
Definition set_capacity_wake (v : WakeEpoch) (s : Shared) : Shared :=
  mkShared (sh_published s) (sh_consumed s) (sh_data_wake s) v (sh_lifecycle s) (sh_quarantined s)
    (sh_slots s) (sh_completions s) (sh_returns s) (sh_arena s).
Definition set_quarantined (v : Z) (s : Shared) : Shared :=
  mkShared (sh_published s) (sh_consumed s) (sh_data_wake s) (sh_capacity_wake s) (sh_lifecycle s) v
    (sh_slots s) (sh_completions s) (sh_returns s) (sh_arena s).
Definition set_slot (i : Z) (v : DescriptorSlot) (s : Shared) : Shared :=
  mkShared (sh_published s) (sh_consumed s) (sh_data_wake s) (sh_capacity_wake s) (sh_lifecycle s) (sh_quarantined s)
    (update (sh_slots s) i v) (sh_completions s) (sh_returns s) (sh_arena s).
Definition set_completion (i : Z) (v : Z) (s : Shared) : Shared :=
  mkShared (sh_published s) (sh_consumed s) (sh_data_wake s) (sh_capacity_wake s) (sh_lifecycle s) (sh_quarantined s)
    (sh_slots s) (update (sh_completions s) i v) (sh_returns s) (sh_arena s).
Definition set_return (i : Z) (v : Z) (s : Shared) : Shared :=
  mkShared (sh_published s) (sh_consumed s) (sh_data_wake s) (sh_capacity_wake s) (sh_lifecycle s) (sh_quarantined s)
    (sh_slots s) (sh_completions s) (update (sh_returns s) i v) (sh_arena s).
Definition set_arena (v : mem) (s : Shared) : Shared :=
  mkShared (sh_published s) (sh_consumed s) (sh_data_wake s) (sh_capacity_wake s) (sh_lifecycle s) (sh_quarantined s)
    (sh_slots s) (sh_completions s) (sh_returns s) v.

(** ** Receiver records *)
Definition set_receiver (h : Handle) (live last_seen : list Z) (outstanding : Z) : Handle :=
  mkHandle (hd_quarantined h) (hd_ledger h) (hd_reserved_block h) (hd_published_local h) (hd_consumed_local h)
    (hd_consumed_seen h) (hd_published_seen h) (hd_producer h) (hd_consumer h) live last_seen outstanding.

Definition live_generation (h : Handle) (block : Z) : option Z := hd_live h !! Z.to_nat block.
Definition last_seen_generation (h : Handle) (block : Z) : option Z := hd_last_seen h !! Z.to_nat block.

Definition mark_live (h : Handle) (block generation : Z) : Handle :=
  match live_generation h block, last_seen_generation h block with
  | Some _, Some _ =>
      set_receiver h (<[Z.to_nat block := generation]> (hd_live h))
        (<[Z.to_nat block := generation]> (hd_last_seen h))
        (wrapping_add u64_MAX (hd_outstanding_returns h) 1)
  | _, _ => h
  end.

Definition signal_capacity (b : Backing) : M WakeError unit :=
  _ ← lift (map_err (fun _ => WE_Mapping) (capacity_wake_page b));
  _ ← store (fun s => set_capacity_wake
        (mkWake (wrapping_add u64_MAX (we_generation (sh_capacity_wake s)) 1) (we_parked (sh_capacity_wake s))) s);
  parked ← atomic (fun s => (we_parked (sh_capacity_wake s),
        set_capacity_wake (mkWake (we_generation (sh_capacity_wake s)) 0) s));
  if parked =? 0 then mret ()
  else ok ← ring_bell; if (ok : bool) then mret () else throw WE_Doorbell.

(** The final return of one payload. *)
Definition complete (b : Backing) (block generation : Z) : M WakeError unit :=
  h ← get_handle;
  _ ← match live_generation h block with
      | Some live =>
          if live =? generation
          then put_handle (set_receiver h (<[Z.to_nat block := 0]> (hd_live h)) (hd_last_seen h)
                 ((hd_outstanding_returns h - 1) mod (u64_MAX + 1)))
          else mret ()
      | None => mret ()
      end;
  published ←
    match completion b block with
    | Ok _ =>
        _ ← store (fun s => set_completion block (Z.max (sh_completions s block) generation) s);
        let word := block / RETURN_WORD_BITS in
        let bit := Z.shiftl 1 (block mod RETURN_WORD_BITS) in
        match return_word b word with
        | Ok _ => _ ← store (fun s => set_return word (Z.lor (sh_returns s word) bit) s); mret true
        | Err _ => mret false
        end
    | Err _ => mret false
    end;
  if (published : bool) then signal_capacity b else throw WE_Mapping.

(** ** The owned lease *)
Record PayloadLease := mkLease {
  le_block : Z;
  le_generation : Z;
  le_body_len : Z;
  le_wire_header : list Z;
  le_returned : bool;
}.

Definition PayloadLease_new (block generation body_len : Z) (wire_header : list Z) : PayloadLease :=
  mkLease block generation body_len wire_header false.

Definition lease_identity (b : Backing) (l : PayloadLease) : PayloadIdentity :=
  mkIdentity (bk_incarnation b) (bk_lane b) (le_block l) (le_generation l).

(** [return_once] with the result and the lease after the call. *)
Definition return_once (b : Backing) (l : PayloadLease) : M LeaseError PayloadLease :=
  if le_returned l then throw LE_DuplicateRelease
  else
    let l' := mkLease (le_block l) (le_generation l) (le_body_len l) (le_wire_header l) true in
    _ ← map_errM (fun _ => mret LE_WakeFailed) (complete b (le_block l) (le_generation l));
    mret l'.

(** The destructor, which discards the error. *)
Definition PayloadLease_drop (b : Backing) (l : PayloadLease) : M LeaseError unit :=
  if le_returned l then mret () else _ ← attempt (F := LeaseError) (return_once b l); mret ().

(** [release] consumes the lease: its destructor runs on the lease marked returned. *)
Definition release_lease (b : Backing) (l : PayloadLease) : M LeaseError unit :=
  _ ← return_once b l; mret ().

(** A span: its address, never null, and length. *)
Definition LeaseSpan_new (base len : Z) : result LeaseError (Z * Z) :=
  if base =? 0 then Err LE_InvalidSpan else Ok (base, len).

(** The span of a leased body. *)
Definition lease_body (b : Backing) (l : PayloadLease) : result LeaseError (Z * Z) :=
  ptr ← map_err (fun _ => LE_InvalidSpan) (body_ptr b (le_block l) (le_body_len l));
  if le_body_len l =? 0 then
    header ← map_err (fun _ => LE_InvalidSpan) (header_ptr b (le_block l));
    LeaseSpan_new header 0
  else LeaseSpan_new ptr (le_body_len l).

(** [to_vec]: the body copied out into a private buffer. *)
Definition lease_to_vec (b : Backing) (l : PayloadLease) : M LeaseError (list Z) :=
  if le_body_len l =? 0 then mret []
  else
    span ← lift (lease_body b l);
    m ← load sh_arena;
    mret (load_bytes (copy_out_uninit m span.1 (fun _ => 0) 0 span.2) 0 (Z.to_nat (le_body_len l))).

(** ** Ranges of the live shared mappings of this process: start address to end *)
Notation LiveRanges := (list (Z * Z)).

Definition saturating_add (a b : Z) : Z := Z.min u64_MAX (a + b).

(** [BTreeMap::insert] and [remove] on the association list kept in key order. *)
Fixpoint ranges_insert (start : Z) (last : Z) (r : LiveRanges) : LiveRanges :=
  match r with
  | [] => [(start, last)]
  | (k, v) :: r => if start =? k then (k, last) :: r
                   else if start <? k then (start, last) :: (k, v) :: r
                   else (k, v) :: ranges_insert start last r
  end.

Definition LiveRanges_insert (r : LiveRanges) (start len : Z) : LiveRanges :=
  ranges_insert start (saturating_add start len) r.

Definition LiveRanges_remove (r : LiveRanges) (start : Z) : LiveRanges :=
  filter (fun kv => fst kv <> start) r.

(** [range(..end).next_back()]. *)
Definition LiveRanges_overlaps (r : LiveRanges) (start len : Z) : bool :=
  if len =? 0 then false
  else
    let e := saturating_add start len in
    match list.last (filter (fun kv => fst kv < e) r) with
    | Some (_, mapped_end) => start <? mapped_end
    | None => false
    end.

(** ** A well-formed backing: what creating or attaching a mapping establishes *)
Record backing_ok (page_size : Z) (b : Backing) : Prop := {
  bo_geometry : geometry_ok (bk_geometry b);
  bo_page : is_u64 page_size;
  bo_layout : MappingLayout_new (bk_geometry b) page_size = Ok (bk_layout b);
  bo_len : bk_len b = ml_total (bk_layout b);
  bo_base : (page_size | bk_base b);
}.

(** The fixed offsets of the control pages. *)
Lemma layout_control g page_size l :
  MappingLayout_new g page_size = Ok l ->
  ml_producer l = 0 /\ ml_consumer l = 128 /\ ml_data_wake l = 256 /\ ml_capacity_wake l = 384 /\
  ml_lifecycle l = 512 /\ ml_descriptors l = 768 /\ (BLOCK_ALIGN | page_size).
Proof.
  intros Hnew. unfold MappingLayout_new in Hnew. destruct (_ || _) eqn:Hcheck in Hnew; [done|].
  apply page_check in Hcheck as [Hp Hdiv]. inv_bind. rewrite ?usize_add_Ok, ?usize_mul_Ok in *.
  destruct_and?. subst. cbn. unfold CACHELINE, LIFECYCLE_PAGE_BYTES in *. split_and!; (done || lia).
Qed.

Section Accessors.
Context (page_size : Z) (b : Backing).
Hypothesis Hb : backing_ok page_size b.

Let Hlayout : layout_ok (bk_geometry b) page_size (bk_layout b).
Proof. apply MappingLayout_new_ok; apply Hb. Qed.

Lemma page_base : (BLOCK_ALIGN | page_size) /\ (4096 | bk_base b).
Proof.
  pose proof (layout_control _ _ _ (bo_layout _ _ Hb)) as (_ & _ & _ & _ & _ & _ & Hd).
  split; [done|]. etransitivity; [exact Hd|apply (bo_base _ _ Hb)].
Qed.

Lemma layout_order :
  let l := bk_layout b in
  768 + ml_descriptor_depth l * 64 <= ml_completions l /\
  ml_completions l + ml_block_count l * 8 <= ml_returns l /\
  ml_returns l + ml_return_words l * 8 <= ml_arena l /\
  ml_arena l + ml_arena_bytes l <= ml_total l /\ ml_total l <= u64_MAX /\
  0 <= ml_block_count l /\ 0 <= ml_return_words l /\ 0 <= ml_arena_bytes l /\ 0 < ml_descriptor_depth l.
Proof.
  pose proof Hlayout as []. pose proof (block_count_range _ (bo_geometry _ _ Hb)).
  pose proof (go_ordinary _ (bo_geometry _ _ Hb)). pose proof (go_reserved _ (bo_geometry _ _ Hb)).
  unfold layout_regions in lo_regions. cbn in lo_regions.
  unfold DESCRIPTOR_SLOT_BYTES, SIZE_OF_U64, CACHELINE, LIFECYCLE_PAGE_BYTES, RETURN_WORD_BITS in *.
  cbn. destruct_and?. split_and!; lia.
Qed.

Lemma shared_page_ok offset size align :
  0 <= offset -> 0 <= size -> offset + size <= ml_total (bk_layout b) -> 0 < align ->
  (align | 4096) -> (align | offset) -> shared_page b offset size align = Ok (bk_base b + offset).
Proof.
  intros Ho Hs He Ha Hd Ho'. unfold shared_page, ptr_at. rewrite checked_add_ok by (destruct layout_order; lia).
  cbn. rewrite (bo_len _ _ Hb). bcase; [lia|]. cbn.
  assert ((bk_base b + offset) mod align = 0) as ->; [|done].
  apply Z.mod_divide; [lia|]. apply Z.divide_add_r; [|done]. etransitivity; [exact Hd|apply page_base].
Qed.

(** Every accessor succeeds on the indices of its region and refuses the others. *)
Lemma control_pages :
  producer_page b = Ok (bk_base b) /\ consumer_page b = Ok (bk_base b + 128) /\
  data_wake_page b = Ok (bk_base b + 256) /\ capacity_wake_page b = Ok (bk_base b + 384) /\
  lifecycle_quarantined b = Ok (bk_base b + 512).
Proof.
  pose proof (layout_control _ _ _ (bo_layout _ _ Hb)) as (E1 & E2 & E3 & E4 & E5 & _).
  pose proof layout_order.
  unfold producer_page, consumer_page, data_wake_page, capacity_wake_page, lifecycle_quarantined.
  rewrite E1, E2, E3, E4, E5. unfold CACHELINE, LIFECYCLE_PAGE_BYTES in *. cbn in *.
  split_and!; try (rewrite shared_page_ok;
    first [lia | by rewrite ?Z.add_0_r | by exists 32 | by exists 0 | by exists 1 | by exists 2 | by exists 3]).
  unfold ptr_at. rewrite checked_add_ok by mlia. cbn. rewrite (bo_len _ _ Hb). bcase; [lia|done].
Qed.

Lemma slot_accessor index :
  0 <= index ->
  slot b index = if index <? ml_descriptor_depth (bk_layout b)
                 then Ok (bk_base b + (768 + index * 64)) else Err ME_InvalidLayout.
Proof.
  intros Hi. pose proof layout_order as Ho. cbn in Ho. unfold slot, descriptor_offset.
  rewrite (lo_descriptors _ _ _ Hlayout). bcase; [by bcase; [lia|]|]. bcase; [|lia].
  unfold DESCRIPTOR_SLOT_BYTES in *.
  rewrite checked_mul_ok by mlia. cbn. rewrite checked_add_ok by mlia. cbn.
  rewrite shared_page_ok; try lia; try done; [by exists 64|]. exists (12 + index). lia.
Qed.

Lemma completion_accessor block :
  0 <= block ->
  completion b block = if block <? block_count (bk_geometry b)
                       then Ok (bk_base b + (ml_completions (bk_layout b) + block * 8)) else Err ME_InvalidLayout.
Proof.
  intros Hi. pose proof layout_order as Ho. cbn in Ho. unfold completion, completion_offset.
  rewrite (lo_blocks _ _ _ Hlayout) in *. bcase; [by bcase; [lia|]|]. bcase; [|lia].
  unfold SIZE_OF_U64 in *. destruct (lo_completions_aligned _ _ _ Hlayout) as [k Hk]. unfold CACHELINE in *.
  rewrite checked_mul_ok by mlia. cbn. rewrite checked_add_ok by mlia. cbn.
  rewrite shared_page_ok; try lia; try done; [by exists 512|]. exists (k * 16 + block). lia.
Qed.

Lemma return_accessor word :
  0 <= word ->
  return_word b word = if word <? ml_return_words (bk_layout b)
                       then Ok (bk_base b + (ml_returns (bk_layout b) + word * 8)) else Err ME_InvalidLayout.
Proof.
  intros Hi. pose proof layout_order as Ho. cbn in Ho. unfold return_word, return_offset.
  bcase; [by bcase; [lia|]|]. bcase; [|lia].
  unfold SIZE_OF_U64 in *. destruct (lo_returns_aligned _ _ _ Hlayout) as [k Hk]. unfold CACHELINE in *.
  rewrite checked_mul_ok by mlia. cbn. rewrite checked_add_ok by mlia. cbn.
  rewrite shared_page_ok; try lia; try done; [by exists 512|]. exists (k * 16 + word). lia.
Qed.

Lemma arena_ptr_ok offset len :
  0 <= offset -> 0 <= len -> offset + len <= ml_arena_bytes (bk_layout b) ->
  arena_ptr b offset len = Ok (bk_base b + (ml_arena (bk_layout b) + offset)).
Proof.
  intros Ho Hl He. pose proof layout_order as Hord. cbn in Hord. unfold arena_ptr.
  rewrite (checked_add_ok _ offset len) by lia. cbn. bcase; [lia|].
  rewrite (checked_add_ok _ _ offset) by lia. cbn. rewrite checked_add_ok by lia. cbn.
  rewrite (bo_len _ _ Hb). bcase; [lia|done].
Qed.

Lemma arena_len : ml_arena_bytes (bk_layout b) = region_sum (pg_classes (bk_geometry b)).
Proof. apply (lo_arena _ _ _ Hlayout). Qed.

Lemma header_ptr_ok block p :
  0 <= block -> placement (bk_geometry b) block = Some p ->
  header_ptr b block = Ok (bk_base b + (ml_arena (bk_layout b) + bp_offset p)).
Proof.
  intros Hbl Hp. unfold header_ptr. rewrite Hp. cbn.
  pose proof (placement_arena _ _ _ (bo_geometry _ _ Hb) Hbl Hp).
  pose proof (placement_block_bytes _ _ _ (bo_geometry _ _ Hb) Hbl Hp).
  apply arena_ptr_ok; rewrite ?arena_len; unfold WIRE_HEADER_BYTES in *; lia.
Qed.

Lemma body_ptr_ok block p body_len :
  0 <= block -> 0 <= body_len -> placement (bk_geometry b) block = Some p ->
  body_ptr b block body_len =
  if BlockPlacement_body_capacity p <? body_len then Err ME_InvalidLayout
  else Ok (bk_base b + (ml_arena (bk_layout b) + (bp_offset p + WIRE_HEADER_BYTES))).
Proof.
  intros Hbl Hlen Hp. unfold body_ptr. rewrite Hp. cbn.
  pose proof (placement_arena _ _ _ (bo_geometry _ _ Hb) Hbl Hp).
  pose proof (placement_block_bytes _ _ _ (bo_geometry _ _ Hb) Hbl Hp).
  pose proof layout_order as Hord. cbn in Hord. rewrite arena_len in Hord.
  rewrite checked_add_ok by (unfold WIRE_HEADER_BYTES in *; lia). cbn. bcase; [done|].
  apply arena_ptr_ok; rewrite ?arena_len; unfold BlockPlacement_body_capacity, saturating_sub, WIRE_HEADER_BYTES in *; lia.
Qed.
End Accessors.

(** ** Lemmas on the live ranges *)
Fixpoint ranges_ok (low : Z) (r : LiveRanges) : Prop :=
  match r with
  | [] => True
  | (k, v) :: r => low <= k /\ k < v /\ ranges_ok v r
  end.

(** Two half-open ranges share an address. *)
Definition intersects (k v start last : Z) : Prop := k < last /\ start < v.

Lemma ranges_ok_weaken low low' r : low' <= low -> ranges_ok low r -> ranges_ok low' r.
Proof. destruct r as [|[k v] r]; cbn; [done|]. intros ? (? & ? & ?). split_and!; (done || lia). Qed.

Lemma ranges_ok_keys low r k v : ranges_ok low r -> (k, v) ∈ r -> low <= k /\ k < v.
Proof.
  revert low. induction r as [|[k' v'] r IH]; intros low Hr Hin; [by apply not_elem_of_nil in Hin|].
  destruct Hr as (? & ? & Hr). apply elem_of_cons in Hin as [[= -> ->]|Hin]; [lia|].
  destruct (IH _ Hr Hin). lia.
Qed.

(** The range with the greatest start below [e], if any, ends last among those. *)
Lemma last_below_max low e r :
  ranges_ok low r ->
  match list.last (filter (fun kv => fst kv < e) r) with
  | Some (k, v) => (k, v) ∈ r /\ k < e /\ forall k' v', (k', v') ∈ r -> k' < e -> v' <= v
  | None => forall k' v', (k', v') ∈ r -> e <= k'
  end.
Proof.
  revert low. induction r as [|[k v] r IH]; intros low Hr.
  { cbn. intros ?? ?%not_elem_of_nil. done. }
  destruct Hr as (Hk & Hv & Hr). specialize (IH _ Hr). rewrite filter_cons. cbn [fst].
  case_decide as Hd.
  - rewrite last_cons. destruct (list.last _) as [[k1 v1]|] eqn:E; cbn.
    + destruct IH as (Hin & Hlt & Hmax). split; [by right|]. split; [done|].
      intros k' v' [[= -> ->]|Hin']%elem_of_cons Hlt'; [|by eapply Hmax].
      pose proof (ranges_ok_keys _ _ _ _ Hr Hin). lia.
    + split; [by left|]. split; [done|].
      intros k' v' [[= -> ->]|Hin']%elem_of_cons Hlt'; [lia|]. specialize (IH _ _ Hin'). lia.
  - destruct (list.last _) as [[k1 v1]|] eqn:E.
    + destruct IH as (Hin & Hlt & Hmax). pose proof (ranges_ok_keys _ _ _ _ Hr Hin). lia.
    + intros k' v' [[= -> ->]|Hin']%elem_of_cons; [lia|]. by apply IH with v'.
Qed.

Lemma ranges_insert_ok low r start last :
  ranges_ok low r -> low <= start < last ->
  (forall k v, (k, v) ∈ r -> ~ intersects k v start last) ->
  ranges_ok low (ranges_insert start last r) /\
  forall k v, (k, v) ∈ ranges_insert start last r <-> (k, v) = (start, last) \/ (k, v) ∈ r.
Proof.
  revert low. induction r as [|[k v] r IH]; intros low Hr Hl Hd; cbn.
  { split; [cbn; split_and!; (done || lia)|]. intros. rewrite list_elem_of_singleton, elem_of_nil. naive_solver. }
  destruct Hr as (Hk & Hv & Hr).
  assert (~ intersects k v start last) as Hn by (apply Hd; left). unfold intersects in Hn.
  bcase; [lia|]. bcase; cbn.
  - split; [|intros; rewrite elem_of_cons; done].
    split; [lia|]. split; [lia|]. split; [lia|]. split; done.
  - destruct (IH v) as [IH1 IH2]; [done|lia|intros; apply Hd; by right|].
    split; [split_and!; (done || lia)|]. intros k' v'. rewrite !elem_of_cons, IH2. naive_solver.
Qed.

Lemma ranges_filter_ok low r (P : Z * Z -> Prop) `{forall x, Decision (P x)} :
  ranges_ok low r -> ranges_ok low (filter P r).
Proof.
  revert low. induction r as [|[k v] r IH]; intros low Hr; [done|].
  destruct Hr as (Hk & Hv & Hr). rewrite filter_cons. case_decide.
  - split_and!; [done|done|]. by apply IH.
  - apply (ranges_ok_weaken v); [lia|]. by apply IH.
Qed.

(** ** Properties *)

(** The bytes a block's header and body may occupy, as absolute addresses. *)
Definition block_range (b : Backing) (p : BlockPlacement) : Z * Z :=
  (bk_base b + ml_arena (bk_layout b) + bp_offset p,
   bk_base b + ml_arena (bk_layout b) + bp_offset p + bp_block_bytes p).

(** the header and body addresses a handle computes for a block lie inside that block's own
    bytes and inside the mapping, a body longer than the block's capacity is refused, a block id
    past the geometry is refused, and the bytes of two blocks never overlap, so no write through
    one reservation can reach another block or a control page. *)
Theorem frame_addresses_inside_block page_size b block p :
  backing_ok page_size b -> 0 <= block -> placement (bk_geometry b) block = Some p ->
  header_ptr b block = Ok (block_range b p).1 /\
  (forall body_len, 0 <= body_len ->
     (body_len <= BlockPlacement_body_capacity p ->
        body_ptr b block body_len = Ok ((block_range b p).1 + WIRE_HEADER_BYTES) /\
        (block_range b p).1 + WIRE_HEADER_BYTES + body_len <= (block_range b p).2) /\
     (BlockPlacement_body_capacity p < body_len -> body_ptr b block body_len = Err ME_InvalidLayout)) /\
  bk_base b + 768 <= (block_range b p).1 /\ (block_range b p).2 <= bk_base b + bk_len b /\
  (forall block', block_count (bk_geometry b) <= block' -> header_ptr b block' = Err ME_InvalidLayout) /\
  (forall block' p', 0 <= block' -> block' <> block -> placement (bk_geometry b) block' = Some p' ->
     (block_range b p).2 <= (block_range b p').1 \/ (block_range b p').2 <= (block_range b p).1).
Proof.
  intros Hb Hbl Hp. pose proof (bo_geometry _ _ Hb) as Hg.
  pose proof (placement_arena _ _ _ Hg Hbl Hp) as (Ho & Ha & Hlt).
  pose proof (placement_block_bytes _ _ _ Hg Hbl Hp) as Hsize.
  pose proof (layout_order _ _ Hb) as Hord. cbn in Hord. rewrite (arena_len _ _ Hb) in Hord.
  rewrite (bo_len _ _ Hb). cbn. split_and!.
  - rewrite (header_ptr_ok _ _ Hb _ _ Hbl Hp). f_equal. lia.
  - intros body_len Hlen. rewrite (body_ptr_ok _ _ Hb _ _ _ Hbl Hlen Hp). split; intros Hc; bcase; try lia; [|done].
    split; [f_equal; lia|]. unfold BlockPlacement_body_capacity, saturating_sub, WIRE_HEADER_BYTES in *. lia.
  - lia.
  - lia.
  - intros block' Hge. unfold header_ptr. by rewrite placement_None.
  - intros block' p' Hbl' Hne Hp'. pose proof (placement_arena _ _ _ Hg Hbl' Hp') as (_ & _ & Hlt').
    destruct (Z.lt_trichotomy block block') as [?|[?|?]]; [|lia|].
    + pose proof (placement_ordered _ _ _ _ _ Hg (conj Hbl H) Hp Hp'). lia.
    + pose proof (placement_ordered _ _ _ _ _ Hg (conj Hbl' H) Hp' Hp). lia.
Qed.

(** A backing of the production geometry for the witnesses. *)
Definition host_layout : MappingLayout :=
  Eval vm_compute in
  match MappingLayout_new host_geometry 4096 with
  | Ok l => l
  | Err _ => mkLayout 0 0 0 0 0 0 0 0 0 0 0 0 0 0
  end.

Definition host_backing : Backing :=
  mkBackingOf 1048576 (ml_total host_layout) host_layout host_geometry (mkIncarnation (replicate 16 7)) 0.

Lemma host_backing_ok : backing_ok 4096 host_backing.
Proof. split; [apply host_geometry_ok|mlia|vm_compute; reflexivity|reflexivity|by exists 256]. Qed.

Lemma frame_addresses_inside_block_witness :
  exists p, placement (bk_geometry host_backing) 90 = Some p /\
    header_ptr host_backing 90 = Ok (block_range host_backing p).1.
Proof.
  eexists. split; [vm_compute; reflexivity|].
  apply (frame_addresses_inside_block 4096 host_backing 90); [apply host_backing_ok|lia|vm_compute; reflexivity].
Defined.

(** the registry of live mappings answers overlap queries exactly, looking only at the one
    mapping with the greatest start below the queried range's end: on disjoint ranges a query
    overlaps precisely when it is nonempty and shares an address with some registered range.
    Registering a disjoint range or removing one keeps the registry well-formed. *)
Theorem live_ranges_overlap_exact r start len :
  ranges_ok 0 r -> 0 <= start -> 0 <= len -> start + len <= u64_MAX ->
  (LiveRanges_overlaps r start len = true <->
   len <> 0 /\ exists k v, (k, v) ∈ r /\ intersects k v start (start + len)) /\
  (len <> 0 -> LiveRanges_overlaps r start len = false ->
   ranges_ok 0 (LiveRanges_insert r start len) /\
   forall k v, (k, v) ∈ LiveRanges_insert r start len <-> (k, v) = (start, start + len) \/ (k, v) ∈ r) /\
  ranges_ok 0 (LiveRanges_remove r start) /\
  (forall k v, (k, v) ∈ LiveRanges_remove r start <-> k <> start /\ (k, v) ∈ r).
Proof.
  intros Hr Hs Hl Hm.
  assert (LiveRanges_overlaps r start len = true <->
    len <> 0 /\ exists k v, (k, v) ∈ r /\ intersects k v start (start + len)) as Hiff.
  { unfold LiveRanges_overlaps, intersects. bcase; [naive_solver|].
    unfold saturating_add. rewrite Z.min_r by lia. pose proof (last_below_max _ (start + len) _ Hr) as Hlast.
    destruct (list.last _) as [[k v]|].
    - destruct Hlast as (Hin & Hlt & Hmax). rewrite Z.ltb_lt. split; [intros; split; [done|by exists k, v]|].
      intros (_ & k' & v' & Hin' & ? & ?). specialize (Hmax _ _ Hin' H). lia.
    - split; [done|]. intros (_ & k' & v' & Hin' & ? & ?). specialize (Hlast _ _ Hin'). lia. }
  split; [done|]. split; [|split].
  - intros Hne Hno. unfold LiveRanges_insert, saturating_add. rewrite Z.min_r by lia.
    apply ranges_insert_ok; [done|lia|]. intros k v Hin Hi.
    assert (LiveRanges_overlaps r start len = true) by (apply Hiff; split; [done|by exists k, v]). congruence.
  - by apply ranges_filter_ok.
  - intros k v. unfold LiveRanges_remove. by rewrite list_elem_of_filter.
Qed.

Lemma live_ranges_overlap_exact_witness :
  LiveRanges_overlaps [(4096, 8192); (12288, 16384)] 8000 200 = true.
Proof.
  apply (live_ranges_overlap_exact [(4096, 8192); (12288, 16384)] 8000 200); [cbn; lia|lia|lia|mlia|].
  split; [lia|]. exists 4096, 8192. split; [left|unfold intersects; lia].
Defined.
