(* ===== verification/Grant.v ===== *)
(** * Grant: the attachment grant and the attach checks (crates/shm-transport/src/backend/ring.rs).

    A grant travels over the setup channel as a fixed little-endian byte string. *)
From S2P Require Import Prelude.
From S2P Require Import Pool.
From S2P Require Import Descriptor.
From S2P Require Import SpanCopy.
From S2P Require Import Retained.

(** ** Errors *)
Inductive RingError :=
| RE_ArithmeticOverflow | RE_ObjectSetupFailed | RE_ObjectValidationFailed | RE_InvalidGrant
| RE_InvalidLayout | RE_InvalidSharedState | RE_DoorbellFailed | RE_SequenceExhausted
| RE_Quarantined | RE_RoleMismatch
| RE_Geometry (e : GeometryError)
| RE_Descriptor (e : DescriptorError)
| RE_Lease (e : LeaseError).

Definition from_mapping (e : MappingError) : RingError :=
  match e with
  | ME_ObjectSetupFailed => RE_ObjectSetupFailed
  | ME_ObjectValidationFailed => RE_ObjectValidationFailed
  | ME_InvalidLayout => RE_InvalidLayout
  | ME_ArithmeticOverflow => RE_ArithmeticOverflow
  end.

(** ** The grant *)
Definition GRANT_BYTES : nat := (16 + 4 + 4 + 4 + CLASS_COUNT * (8 + 4) + 8 + 4)%nat.
Definition HOST_TO_PEER_LANE : Z := 0.
Definition PEER_TO_HOST_LANE : Z := 1.

Record PoolGrant := mkGrant {
  gr_incarnation : Incarnation;
  gr_lane : Z;
  gr_geometry : PoolGeometry;
  gr_total_bytes : Z;
}.

Definition encode_class (c : ClassSpec) : list Z := le_bytes 8 (cs_block_bytes c) ++ le_bytes 4 (cs_count c).

Definition encode (g : PoolGrant) : list Z :=
  inc_bytes (gr_incarnation g)
  ++ le_bytes 4 (gr_lane g)
  ++ le_bytes 4 (pg_ordinary_descriptors (gr_geometry g))
  ++ le_bytes 4 (pg_reserved_descriptors (gr_geometry g))
  ++ (pg_classes (gr_geometry g) ≫= encode_class)
  ++ le_bytes 8 (gr_total_bytes g)
  ++ le_bytes 4 0.

Definition checked_layout (page_size : Z) (g : PoolGrant) : result RingError MappingLayout :=
  layout ← map_err (fun _ => RE_InvalidGrant) (MappingLayout_new (gr_geometry g) page_size);
  if negb (ml_total layout =? gr_total_bytes g) then Err RE_InvalidGrant else Ok layout.

Definition u32_at (bytes : list Z) (offset : nat) : Z := from_le_bytes (slice offset 4 bytes).
Definition u64_at (bytes : list Z) (offset : nat) : Z := from_le_bytes (slice offset 8 bytes).

(** The class loop: [n] classes from [cursor] on. *)
Fixpoint decode_classes (bytes : list Z) (n : nat) (cursor : nat) : list ClassSpec :=
  match n with
  | O => []
  | S n => mkClassSpec (u64_at bytes cursor) (u32_at bytes (cursor + 8)%nat) :: decode_classes bytes n (cursor + 12)%nat
  end.

Definition decode (page_size : Z) (bytes : list Z) : result RingError PoolGrant :=
  let incarnation := mkIncarnation (slice 0 16 bytes) in
  let lane := u32_at bytes 16 in
  let ordinary_descriptors := u32_at bytes 20 in
  let reserved_descriptors := u32_at bytes 24 in
  let classes := decode_classes bytes CLASS_COUNT 28 in
  let cursor := (28 + CLASS_COUNT * 12)%nat in
  let total_bytes := u64_at bytes cursor in
  let cursor := (cursor + 8)%nat in
  if negb (bool_decide (slice cursor 4 bytes = [0; 0; 0; 0])) then Err RE_InvalidGrant
  else
    match drop ORDINARY_CLASSES classes with
    | [control; terminal] =>
        geometry ← map_err (fun _ => RE_InvalidGrant)
          (PoolGeometry_new ordinary_descriptors reserved_descriptors (take ORDINARY_CLASSES classes) control terminal);
        let grant := mkGrant incarnation lane geometry total_bytes in
        _ ← checked_layout page_size grant;
        Ok grant
    | _ => Err RE_InvalidGrant
    end.

Definition decode_slice (page_size : Z) (bytes : list Z) : result RingError PoolGrant :=
  if negb (length bytes =? GRANT_BYTES)%nat then Err RE_InvalidGrant else decode page_size bytes.

(** ** Lemmas on byte positions *)
Record grant_ok (page_size : Z) (g : PoolGrant) : Prop := {
  gk_incarnation : length (inc_bytes (gr_incarnation g)) = 16%nat /\ Forall is_u8 (inc_bytes (gr_incarnation g));
  gk_lane : is_u32 (gr_lane g);
  gk_geometry : geometry_ok (gr_geometry g);
  gk_layout : exists l, MappingLayout_new (gr_geometry g) page_size = Ok l /\ ml_total l = gr_total_bytes g;
}.

Lemma slice_split {A} o n n' (l : list A) : slice o (n + n') l = slice o n l ++ slice (o + n) n' l.
Proof. unfold slice. by rewrite <- drop_drop, take_take_drop. Qed.

Lemma slice_at {A} (pre x suf l : list A) o n :
  l = pre ++ x ++ suf -> o = length pre -> n = length x -> slice o n l = x.
Proof. intros -> -> ->. unfold slice. by rewrite drop_app_length, take_app_length. Qed.

Lemma slice_u8 o n bs : Forall is_u8 bs -> Forall is_u8 (slice o n bs).
Proof. intros. by apply Forall_take, Forall_drop. Qed.

Lemma le_slice o n bs :
  Forall is_u8 bs -> (o + n <= length bs)%nat -> le_bytes n (from_le_bytes (slice o n bs)) = slice o n bs.
Proof.
  intros Hb Hl. rewrite <- (length_slice o n bs Hl) at 1. by apply le_bytes_from_le_bytes, slice_u8.
Qed.

Lemma u32_at_range bs o : Forall is_u8 bs -> (o + 4 <= length bs)%nat -> is_u32 (u32_at bs o).
Proof.
  intros Hb Hl. pose proof (from_le_bytes_range _ (slice_u8 o 4 bs Hb)) as H. rewrite length_slice in H by done.
  unfold u32_at. cbn in H. mlia.
Qed.

Lemma u64_at_range bs o : Forall is_u8 bs -> (o + 8 <= length bs)%nat -> is_u64 (u64_at bs o).
Proof.
  intros Hb Hl. pose proof (from_le_bytes_range _ (slice_u8 o 8 bs Hb)) as H. rewrite length_slice in H by done.
  unfold u64_at. cbn in H. mlia.
Qed.

Lemma length_decode_classes bs n c : length (decode_classes bs n c) = n.
Proof. revert c. induction n; intros; cbn; auto. Qed.

Lemma decode_classes_range bs n c :
  Forall is_u8 bs -> (c + n * 12 <= length bs)%nat -> Forall class_range (decode_classes bs n c).
Proof.
  intros Hb. revert c. induction n as [|n IH]; intros c Hl; cbn; [constructor|]. constructor; [|apply IH; lia].
  split; cbn; [apply u64_at_range|apply u32_at_range]; (done || lia).
Qed.

Lemma encode_decode_classes bs n c :
  Forall is_u8 bs -> (c + n * 12 <= length bs)%nat ->
  decode_classes bs n c ≫= encode_class = slice c (n * 12) bs.
Proof.
  intros Hb. revert c. induction n as [|n IH]; intros c Hl; cbn [decode_classes].
  - unfold slice. by rewrite take_0.
  - rewrite bind_cons, IH by lia. unfold encode_class, u64_at, u32_at. cbn [cs_block_bytes cs_count].
    rewrite !le_slice by (done || lia). rewrite <- (slice_split c 8 4 bs), <- slice_split. done.
Qed.

Lemma length_encode_class c : length (encode_class c) = 12%nat.
Proof. unfold encode_class. by rewrite length_app, !length_le_bytes. Qed.

Lemma length_encode_classes cs : length (cs ≫= encode_class) = (12 * length cs)%nat.
Proof. induction cs as [|c cs IH]; [done|]. rewrite bind_cons, length_app, length_encode_class, IH. cbn. lia. Qed.

Lemma decode_encode_classes pre cs suf :
  Forall class_range cs ->
  decode_classes (pre ++ (cs ≫= encode_class) ++ suf) (length cs) (length pre) = cs.
Proof.
  intros Hc. revert pre. induction Hc as [|c cs [Hb Hn] _ IH]; intros pre; [done|].
  cbn [length decode_classes]. rewrite bind_cons. f_equal.
  - unfold u64_at, u32_at, encode_class.
    rewrite (slice_at pre (le_bytes 8 (cs_block_bytes c)) (le_bytes 4 (cs_count c) ++ (cs ≫= encode_class) ++ suf))
      by (by rewrite ?length_le_bytes, <- ?app_assoc).
    rewrite (slice_at (pre ++ le_bytes 8 (cs_block_bytes c)) (le_bytes 4 (cs_count c)) ((cs ≫= encode_class) ++ suf))
      by (by rewrite ?length_app, ?length_le_bytes, <- ?app_assoc).
    rewrite !from_le_bytes_le_bytes by (cbn; mlia). by destruct c.
  - specialize (IH (pre ++ encode_class c)). rewrite <- app_assoc in IH.
    rewrite length_app, length_encode_class in IH. rewrite <- (app_assoc (encode_class c)). exact IH.
Qed.

(** The classes of a geometry are five ordinary ones and the two reserved ones. *)
Lemma seven_classes {A} (l : list A) :
  length l = CLASS_COUNT -> exists five c t, l = five ++ [c; t] /\ length five = ORDINARY_CLASSES.
Proof.
  intros H. do 7 (destruct l as [|? l]; [done|]). destruct l; [|done].
  eexists [_; _; _; _; _], _, _. done.
Qed.

Lemma encode_raw bs :
  length bs = GRANT_BYTES -> Forall is_u8 bs ->
  slice 0 16 bs ++ le_bytes 4 (u32_at bs 16) ++ le_bytes 4 (u32_at bs 20) ++ le_bytes 4 (u32_at bs 24)
  ++ (decode_classes bs CLASS_COUNT 28 ≫= encode_class) ++ le_bytes 8 (u64_at bs 112) ++ slice 120 4 bs = bs.
Proof.
  intros Hl Hb. unfold GRANT_BYTES in Hl. cbn in Hl. unfold u32_at, u64_at.
  rewrite encode_decode_classes, !le_slice by (done || (cbn; lia)). cbn [Nat.mul Nat.add CLASS_COUNT].
  rewrite <- (slice_split 112 8 4), <- (slice_split 28 84 12), <- (slice_split 24 4 96), <- (slice_split 20 4 100),
    <- (slice_split 16 4 104), <- (slice_split 0 16 108).
  unfold slice. rewrite drop_0, take_ge by lia. done.
Qed.

Lemma geometry_classes_new g :
  geometry_ok g -> is_u32 (pg_ordinary_descriptors g) -> is_u32 (pg_reserved_descriptors g) ->
  exists five c t, pg_classes g = five ++ [c; t] /\ length five = ORDINARY_CLASSES /\
    PoolGeometry_new (pg_ordinary_descriptors g) (pg_reserved_descriptors g) five c t = Ok g.
Proof.
  intros Hg Ho Hr. destruct (seven_classes _ (go_length _ Hg)) as (five & c & t & Hc & Hl).
  exists five, c, t. split_and!; [done|done|]. destruct g as [od rd cs]. cbn in *. subst cs.
  apply PoolGeometry_new_complete; try done.
  pose proof (geometry_ranges _ Hg) as Hrange. cbn in Hrange. rewrite Forall_app, !Forall_cons_iff in Hrange.
  rewrite !Forall_cons_iff. naive_solver.
Qed.

Lemma geometry_u32 g : geometry_ok g -> is_u32 (pg_ordinary_descriptors g) /\ is_u32 (pg_reserved_descriptors g).
Proof. intros []. unfold MAX_DESCRIPTORS in *. mlia. Qed.

Lemma layout_total_u64 page_size g l :
  is_u64 page_size -> geometry_ok g -> MappingLayout_new g page_size = Ok l -> is_u64 (ml_total l).
Proof.
  intros Hp Hg Hl. pose proof (MappingLayout_new_ok _ _ _ Hg Hp Hl) as H.
  pose proof (lo_total _ _ _ H). pose proof (lo_regions _ _ _ H) as Hr. unfold layout_regions in Hr. cbn in Hr.
  split; lia.
Qed.

Lemma decode_encode_ok page_size g :
  is_u64 page_size -> grant_ok page_size g -> decode page_size (encode g) = Ok g.
Proof.
  intros Hpage [[Hi Hib] Hlane Hg (l & Hl & Ht)]. destruct (geometry_u32 _ Hg) as [Ho Hr].
  destruct (geometry_classes_new _ Hg Ho Hr) as (five & c & t & Hcs & Hfive & Hnew).
  pose proof (go_length _ Hg) as Hlen. pose proof (geometry_ranges _ Hg) as Hcr.
  pose proof (layout_total_u64 _ _ _ Hpage Hg Hl) as Htot. rewrite Ht in Htot.
  pose proof (length_encode_classes (pg_classes (gr_geometry g))) as Hcl. rewrite Hlen in Hcl.
  pose proof (fun pre suf => decode_encode_classes pre _ suf Hcr) as Hdc. rewrite Hlen in Hdc.
  unfold decode, u32_at, u64_at, encode.
  set (inc := inc_bytes (gr_incarnation g)) in *. 
  set (cls := pg_classes (gr_geometry g) ≫= encode_class) in *.
  set (lane := le_bytes 4 (gr_lane g)). set (od := le_bytes 4 (pg_ordinary_descriptors (gr_geometry g))).
  set (rd := le_bytes 4 (pg_reserved_descriptors (gr_geometry g))).
  set (tot := le_bytes 8 (gr_total_bytes g)). set (tail := le_bytes 4 0).
  assert (forall n x, length (le_bytes n x) = n) as Hle by apply length_le_bytes.
  set (bs := inc ++ lane ++ od ++ rd ++ cls ++ tot ++ tail).
  rewrite (slice_at [] inc (lane ++ od ++ rd ++ cls ++ tot ++ tail) bs 0 16) by done.
  rewrite (slice_at inc lane (od ++ rd ++ cls ++ tot ++ tail) bs 16 4) by done.
  rewrite (slice_at (inc ++ lane) od (rd ++ cls ++ tot ++ tail) bs 20 4)
    by (subst bs; rewrite ?length_app, ?Hi, <- ?app_assoc; done).
  rewrite (slice_at (inc ++ lane ++ od) rd (cls ++ tot ++ tail) bs 24 4)
    by (subst bs; rewrite ?length_app, ?Hi, <- ?app_assoc; done).
  rewrite (slice_at (inc ++ lane ++ od ++ rd ++ cls) tot tail bs _ 8)
    by (subst bs; rewrite ?length_app, ?Hi, ?Hcl, <- ?app_assoc; done).
  rewrite (slice_at (inc ++ lane ++ od ++ rd ++ cls ++ tot) tail [] bs _ 4)
    by (subst bs; rewrite ?length_app, ?Hi, ?Hcl, <- ?app_assoc, ?app_nil_r; done).
  specialize (Hdc (inc ++ lane ++ od ++ rd) (tot ++ tail)). rewrite !length_app, Hi in Hdc.
  subst lane od rd tot. rewrite !Hle in Hdc. rewrite <- !app_assoc in Hdc.
  cbn [Nat.add] in Hdc. fold bs in Hdc. rewrite Hdc.
  rewrite !from_le_bytes_le_bytes by (cbn; mlia).
  rewrite Hcs. change ORDINARY_CLASSES with 5%nat in *.
  rewrite drop_app_length' by done. rewrite take_app_length' by done. cbn [tail le_bytes bool_decide decide].
  rewrite bool_decide_eq_true_2 by reflexivity. cbn [negb]. rewrite Hnew. cbn [map_err mbind result_bind].
  unfold checked_layout. cbn [gr_geometry gr_total_bytes]. rewrite Hl. cbn [map_err mbind result_bind].
  rewrite Ht, Z.eqb_refl. cbn. destruct g as [[]]. done.
Qed.

Lemma decode_sound page_size bs g :
  is_u64 page_size -> length bs = GRANT_BYTES -> Forall is_u8 bs -> decode page_size bs = Ok g ->
  grant_ok page_size g /\ encode g = bs.
Proof.
  intros Hpage Hl Hb Hd. pose proof (encode_raw bs Hl Hb) as Hraw. unfold decode in Hd.
  unfold GRANT_BYTES in Hl. cbn in Hl.
  pose proof (decode_classes_range bs CLASS_COUNT 28 Hb ltac:(cbn; lia)) as Hrange.
  destruct (seven_classes _ (length_decode_classes bs CLASS_COUNT 28)) as (five & c & t & Hcs & Hfive).
  rewrite Hcs in *. destruct (bool_decide _) eqn:Htail in Hd; [|done]. apply bool_decide_eq_true in Htail.
  cbn [negb] in Hd. rewrite <- Hfive in Hd. rewrite drop_app_length, take_app_length in Hd.
  rewrite Forall_app, !Forall_cons_iff in Hrange.
  destruct (PoolGeometry_new _ _ _ _ _) as [geo|] eqn:Hnew in Hd; [|done].
  apply PoolGeometry_new_sound in Hnew as [-> Hg]; [|apply u32_at_range; (done || lia)
    |apply u32_at_range; (done || lia)|done|rewrite !Forall_cons_iff; naive_solver].
  cbn [map_err mbind result_bind] in Hd. unfold checked_layout in Hd. cbn [gr_geometry gr_total_bytes] in Hd.
  destruct (MappingLayout_new _ page_size) as [l|] eqn:Hlay in Hd; [|done]. cbn [map_err mbind result_bind] in Hd.
  bcase; [|done]. injection Hd as <-. split.
  - split; cbn; [split; [apply length_slice; lia|by apply slice_u8]|apply u32_at_range; (done || lia)|done|].
    by exists l.
  - unfold encode. cbn. change (slice 120 4 bs = [0; 0; 0; 0]) in Htail. rewrite Htail in Hraw. exact Hraw.
Qed.

(** ** Properties *)

(** A grant that names a valid pool decodes to itself from its own encoding; and any byte
    string of the grant's length that decodes at all is the encoding of the grant it decodes to,
    which is then well-formed: the class table is valid and the stated size is that of the
    computed layout. So no two byte strings decode to one grant, and nothing in the string is
    ignored. Any other length is refused. *)
Theorem grant_roundtrip page_size :
  is_u64 page_size ->
  (forall g, grant_ok page_size g -> decode_slice page_size (encode g) = Ok g) /\
  (forall bs g, Forall is_u8 bs -> decode_slice page_size bs = Ok g -> grant_ok page_size g /\ encode g = bs) /\
  (forall bs, length bs <> GRANT_BYTES -> decode_slice page_size bs = Err RE_InvalidGrant).
Proof.
  intros Hpage. split_and!.
  - intros g Hg. unfold decode_slice. pose proof Hg as [[Hi _] _ Hgeo _].
    assert (length (encode g) = GRANT_BYTES) as ->.
    { unfold encode. rewrite !length_app, length_encode_classes, (go_length _ Hgeo), !length_le_bytes, Hi. done. }
    by apply decode_encode_ok.
  - intros bs g Hb. unfold decode_slice. bcase; [|done]. by apply decode_sound.
  - intros bs Hl. unfold decode_slice. by bcase.
Qed.

Definition host_grant : PoolGrant := mkGrant (mkIncarnation (replicate 16 7)) 1 host_geometry 95825920.

Lemma host_grant_ok : grant_ok 4096 host_grant.
Proof.
  split; [split; [reflexivity|apply Forall_replicate; unfold is_u8, u8_MAX; lia]|cbn; mlia|apply host_geometry_ok|].
  eexists. split; vm_compute; reflexivity.
Qed.

Lemma grant_roundtrip_witness : decode_slice 4096 (encode host_grant) = Ok host_grant.
Proof. apply (grant_roundtrip 4096 ltac:(mlia)). exact host_grant_ok. Defined.
