(* ===== verification/Ring.v ===== *)
(** * Ring: one direction of the transport (crates/shm-transport/src/backend/ring.rs).

    The producer's private ledger, reservation, publication and reclaim; the consumer's receive;
    quarantine, probe and inventory. Every operation is the whole method, in the monad of
    [Retained]: shared accesses are interleaved with arbitrary peer writes, private cells are the
    handle's, an index past a vector's end is [Panic]. *)
From S2P Require Import Prelude.
From S2P Require Import Pool.
From S2P Require Import Descriptor.
From S2P Require Import SpanCopy.
From S2P Require Import Retained.
From S2P Require Import Grant.

(** ** Errors *)
Inductive ProducerError :=
| PE_BoundExceedsClass | PE_Overflow | PE_CommitOutsideReservation | PE_Underfill | PE_Aborted
| PE_Exhausted | PE_ReservationOutstanding | PE_Deadline | PE_Retired | PE_WireHeaderMismatch
| PE_Quarantined
| PE_Ring (e : RingError).

(** ** Handle updates *)
Definition set_latch (v : bool) (h : Handle) : Handle :=
  mkHandle v (hd_ledger h) (hd_reserved_block h) (hd_published_local h) (hd_consumed_local h)
    (hd_consumed_seen h) (hd_published_seen h) (hd_producer h) (hd_consumer h) (hd_live h) (hd_last_seen h)
    (hd_outstanding_returns h).
Definition set_ledger (v : ProducerLedger) (h : Handle) : Handle :=
  mkHandle (hd_quarantined h) v (hd_reserved_block h) (hd_published_local h) (hd_consumed_local h)
    (hd_consumed_seen h) (hd_published_seen h) (hd_producer h) (hd_consumer h) (hd_live h) (hd_last_seen h)
    (hd_outstanding_returns h).
Definition set_reserved (v : option Z) (h : Handle) : Handle :=
  mkHandle (hd_quarantined h) (hd_ledger h) v (hd_published_local h) (hd_consumed_local h)
    (hd_consumed_seen h) (hd_published_seen h) (hd_producer h) (hd_consumer h) (hd_live h) (hd_last_seen h)
    (hd_outstanding_returns h).
Definition set_published_local (v : Z) (h : Handle) : Handle :=
  mkHandle (hd_quarantined h) (hd_ledger h) (hd_reserved_block h) v (hd_consumed_local h)
    (hd_consumed_seen h) (hd_published_seen h) (hd_producer h) (hd_consumer h) (hd_live h) (hd_last_seen h)
    (hd_outstanding_returns h).
Definition set_consumed_local (v : Z) (h : Handle) : Handle :=
  mkHandle (hd_quarantined h) (hd_ledger h) (hd_reserved_block h) (hd_published_local h) v
    (hd_consumed_seen h) (hd_published_seen h) (hd_producer h) (hd_consumer h) (hd_live h) (hd_last_seen h)
    (hd_outstanding_returns h).
Definition set_consumed_seen (v : Z) (h : Handle) : Handle :=
  mkHandle (hd_quarantined h) (hd_ledger h) (hd_reserved_block h) (hd_published_local h) (hd_consumed_local h)
    v (hd_published_seen h) (hd_producer h) (hd_consumer h) (hd_live h) (hd_last_seen h)
    (hd_outstanding_returns h).
Definition set_published_seen (v : Z) (h : Handle) : Handle :=
  mkHandle (hd_quarantined h) (hd_ledger h) (hd_reserved_block h) (hd_published_local h) (hd_consumed_local h)
    (hd_consumed_seen h) v (hd_producer h) (hd_consumer h) (hd_live h) (hd_last_seen h)
    (hd_outstanding_returns h).
Definition set_producer (v : bool) (h : Handle) : Handle :=
  mkHandle (hd_quarantined h) (hd_ledger h) (hd_reserved_block h) (hd_published_local h) (hd_consumed_local h)
    (hd_consumed_seen h) (hd_published_seen h) v (hd_consumer h) (hd_live h) (hd_last_seen h)
    (hd_outstanding_returns h).
Definition set_consumer (v : bool) (h : Handle) : Handle :=
  mkHandle (hd_quarantined h) (hd_ledger h) (hd_reserved_block h) (hd_published_local h) (hd_consumed_local h)
    (hd_consumed_seen h) (hd_published_seen h) (hd_producer h) v (hd_live h) (hd_last_seen h)
    (hd_outstanding_returns h).

Definition modify_handle {E} (f : Handle -> Handle) : M E unit := h ← get_handle; put_handle (f h).

(** ** Ledger updates *)
Definition set_states (v : list BlockState) (l : ProducerLedger) : ProducerLedger :=
  mkLedger v (pl_generations l) (pl_free l) (pl_outstanding l) (pl_reclaimed l) (pl_allowed l) (pl_retired l).
Definition set_generations (v : list Z) (l : ProducerLedger) : ProducerLedger :=
  mkLedger (pl_states l) v (pl_free l) (pl_outstanding l) (pl_reclaimed l) (pl_allowed l) (pl_retired l).
Definition set_free (v : list (list Z)) (l : ProducerLedger) : ProducerLedger :=
  mkLedger (pl_states l) (pl_generations l) v (pl_outstanding l) (pl_reclaimed l) (pl_allowed l) (pl_retired l).
Definition set_outstanding (v : list Z) (l : ProducerLedger) : ProducerLedger :=
  mkLedger (pl_states l) (pl_generations l) (pl_free l) v (pl_reclaimed l) (pl_allowed l) (pl_retired l).
Definition set_reclaimed (v : list Z) (l : ProducerLedger) : ProducerLedger :=
  mkLedger (pl_states l) (pl_generations l) (pl_free l) (pl_outstanding l) v (pl_allowed l) (pl_retired l).
Definition set_retired (v : bool) (l : ProducerLedger) : ProducerLedger :=
  mkLedger (pl_states l) (pl_generations l) (pl_free l) (pl_outstanding l) (pl_reclaimed l) (pl_allowed l) v.

Definition get_ledger {E} : M E ProducerLedger := h ← get_handle; mret (hd_ledger h).
Definition put_ledger {E} (l : ProducerLedger) : M E unit := modify_handle (set_ledger l).

(** [Vec::swap_remove] at a position that exists. *)
Definition swap_remove {A} (l : list A) (i : nat) : list A :=
  match list.last l with
  | Some x => if (i =? length l - 1)%nat then take i l else <[i := x]> (take (length l - 1) l)
  | None => l
  end.

Fixpoint position (x : Z) (l : list Z) : option nat :=
  match l with
  | [] => None
  | y :: l => if y =? x then Some O else S <$> position x l
  end.

(** [free[class.index()]] as a stack. *)
Definition free_push {E} (class_index : nat) (block : Z) : M E unit :=
  l ← get_ledger;
  stack ← vec_get (pl_free l) (Z.of_nat class_index);
  put_ledger (set_free (<[class_index := block :: stack]> (pl_free l)) l).

Definition free_pop {E} (class_index : nat) : M E (option Z) :=
  l ← get_ledger;
  stack ← vec_get (pl_free l) (Z.of_nat class_index);
  match stack with
  | [] => mret None
  | block :: stack =>
      _ ← put_ledger (set_free (<[class_index := stack]> (pl_free l)) l);
      mret (Some block)
  end.

(** Writing [states[block]] and [generations[block]]. *)
Definition set_state_of {E} (block : Z) (s : BlockState) : M E unit :=
  l ← get_ledger;
  _ ← vec_get (pl_states l) block;
  put_ledger (set_states (<[Z.to_nat block := s]> (pl_states l)) l).

Definition set_generation_of {E} (block generation : Z) : M E unit :=
  l ← get_ledger;
  _ ← vec_get (pl_generations l) block;
  put_ledger (set_generations (<[Z.to_nat block := generation]> (pl_generations l)) l).

(** The ledger of a new handle: every block free, lowest id of a class on top. *)
Definition class_free_list (g : PoolGeometry) (index : nat) (c : ClassSpec) : list Z :=
  let first := match class_from_index index with Some k => first_block g k | None => 0 end in
  (fun i => first + Z.of_nat i) <$> seq 0 (Z.to_nat (cs_count c)).

Definition ProducerLedger_new (g : PoolGeometry) (allowed : bool) : ProducerLedger :=
  let blocks := Z.to_nat (block_count g) in
  {| pl_states := replicate blocks Free;
     pl_generations := replicate blocks 0;
     pl_free := imap (class_free_list g) (pg_classes g);
     pl_outstanding := [];
     pl_reclaimed := [];
     pl_allowed := allowed;
     pl_retired := false |}.

(** The handle a [Ring] starts with, its cursors at the given values. *)
Definition fresh_handle (g : PoolGeometry) (allowed : bool) (published consumed : Z) : Handle :=
  {| hd_quarantined := false;
     hd_ledger := ProducerLedger_new g allowed;
     hd_reserved_block := None;
     hd_published_local := published;
     hd_consumed_local := consumed;
     hd_consumed_seen := consumed;
     hd_published_seen := published;
     hd_producer := false;
     hd_consumer := false;
     hd_live := replicate (Z.to_nat (block_count g)) 0;
     hd_last_seen := replicate (Z.to_nat (block_count g)) 0;
     hd_outstanding_returns := 0 |}.

(** ** Flag words *)

(** The bits the loop [while flagged != 0] visits, in its order. *)
Fixpoint flag_bits (fuel : nat) (flagged : Z) : list Z :=
  match fuel with
  | O => []
  | S fuel =>
      if flagged =? 0 then []
      else trailing_zeros 64 0 flagged :: flag_bits fuel (Z.land flagged (flagged - 1))
  end.

(** ** Inventory records *)
Record ClassInventory := mkClassInventory { ci_free : Z; ci_reserved : Z; ci_published : Z }.

Record PoolInventory := mkInventory {
  iv_classes : list ClassInventory;
  iv_descriptors_outstanding : Z;
  iv_descriptor_depth : Z;
  iv_ordinary_descriptors : Z;
  iv_outstanding_returns : Z;
  iv_retired : bool;
}.

Definition conserves (i : PoolInventory) (g : PoolGeometry) : bool :=
  forallb (fun '(inventory, class) =>
             ci_free inventory + ci_reserved inventory + ci_published inventory =? cs_count class)
          (combine (iv_classes i) (pg_classes g)).

(** ** Reservations *)
Record ProducerReservation := mkReservation {
  pr_block : Z;
  pr_generation : Z;
  pr_class : BlockClass;
  pr_capacity : Z;
  pr_cursor : Z;
  pr_wire_header : list Z;
  pr_finished : bool;
}.

Definition set_cursor (v : Z) (r : ProducerReservation) : ProducerReservation :=
  mkReservation (pr_block r) (pr_generation r) (pr_class r) (pr_capacity r) v (pr_wire_header r) (pr_finished r).
Definition set_finished (v : bool) (r : ProducerReservation) : ProducerReservation :=
  mkReservation (pr_block r) (pr_generation r) (pr_class r) (pr_capacity r) (pr_cursor r) (pr_wire_header r) v.

(** Header with the body length in its first four bytes and zeroes elsewhere. *)
Definition body_header (body_len : Z) : result ProducerError (list Z) :=
  body_len ← ok_or (try_u32 body_len) PE_BoundExceedsClass;
  if MAX_FRAME_BYTES <? body_len then Err PE_BoundExceedsClass
  else Ok (le_bytes 4 body_len ++ replicate 16 0).

(** A list of bytes as a private memory from address zero. *)
Definition mem_of (bytes : list Z) : mem := fun x => default 0 (bytes !! Z.to_nat x).

Section Operations.
Context (b : Backing).

Let g : PoolGeometry := bk_geometry b.

(** ** Quarantine *)
Definition signal_data_wake : M RingError unit :=
  _ ← lift (map_err from_mapping (data_wake_page b));
  _ ← store (fun s => set_data_wake
        (mkWake (wrapping_add u64_MAX (we_generation (sh_data_wake s)) 1) (we_parked (sh_data_wake s))) s);
  parked ← atomic (fun s => (we_parked (sh_data_wake s),
        set_data_wake (mkWake (we_generation (sh_data_wake s)) 0) s));
  if parked =? 0 then mret ()
  else ok ← ring_bell; if (ok : bool) then mret () else throw RE_DoorbellFailed.

Definition enter_quarantine {E} : M E unit :=
  _ ← modify_handle (set_latch true);
  _ ← match lifecycle_quarantined b with
      | Ok _ => store (set_quarantined 1)
      | Err _ => mret ()
      end;
  _ ← attempt signal_data_wake;
  _ ← attempt (signal_capacity b);
  mret ().

Definition is_quarantined {E} : M E bool :=
  h ← get_handle;
  if hd_quarantined h then mret true
  else
    observed ← match lifecycle_quarantined b with
               | Ok _ => v ← load sh_quarantined; mret (negb (v =? 0))
               | Err _ => mret true
               end;
    _ ← (if (observed : bool) then modify_handle (set_latch true) else mret ());
    mret observed.

(** Quarantines and returns the error; the two shapes callers use it in. *)
Definition quarantine_with {E} (error : RingError) : M E RingError := _ ← enter_quarantine; mret error.

Definition quarantine_pe (error : RingError) : M ProducerError ProducerError :=
  error ← quarantine_with error; mret (PE_Ring error).

(** ** Reclaim *)
Definition reclaim_block (block : Z) (flagged : bool) : M RingError unit :=
  l ← get_ledger;
  if negb (block <? Z.of_nat (length (pl_generations l))) then throw (RE_Descriptor InvalidBlock)
  else
    generation ← vec_get (pl_generations l) block;
    _ ← lift (map_err from_mapping (completion b block));
    completed ← load (fun s => sh_completions s block);
    if (completed =? 0) && negb flagged then mret ()
    else
      match CompletionRecord_validate (mkCompletion block completed) g (Some generation) with
      | Ok freed =>
          state ← vec_get (pl_states l) block;
          if bool_decide (state = Published) then
            p ← lift (ok_or (placement g freed) RE_InvalidLayout);
            l ← get_ledger;
            _ ← match position freed (pl_outstanding l) with
                | Some i => put_ledger (set_outstanding (swap_remove (pl_outstanding l) i) l)
                | None => mret ()
                end;
            _ ← set_state_of block Free;
            _ ← free_push (class_index (bp_class p)) freed;
            l ← get_ledger;
            if (length (pl_reclaimed l) <? Z.to_nat (block_count g))%nat
            then put_ledger (set_reclaimed (pl_reclaimed l ++ [freed]) l)
            else mret ()
          else mret ()
      | Err StaleCompletion => mret ()
      | Err error => throw (RE_Descriptor error)
      end.

(** The flagged blocks of one summary word, in bit order; an error quarantines. *)
Fixpoint reclaim_bits (word : Z) (bits : list Z) : M RingError unit :=
  match bits with
  | [] => mret ()
  | bit :: bits =>
      _ ← map_errM quarantine_with (reclaim_block (word * RETURN_WORD_BITS + bit) true);
      reclaim_bits word bits
  end.

Fixpoint reclaim_words (n : nat) (word : Z) : M RingError unit :=
  match n with
  | O => mret ()
  | S n =>
      _ ← lift (map_err from_mapping (return_word b word));
      flagged ← atomic (fun s => (sh_returns s word, set_return word 0 s));
      _ ← reclaim_bits word (flag_bits 64 flagged);
      reclaim_words n (word + 1)
  end.

Definition reclaim_completions : M RingError unit :=
  reclaim_words (Z.to_nat (ml_return_words (bk_layout b))) 0.

(** The full scan; each round either frees the block at [index] or advances it. *)
Fixpoint reclaim_scan (fuel : nat) (index : nat) : M RingError unit :=
  l ← get_ledger;
  match pl_outstanding l !! index with
  | None => mret ()
  | Some block =>
      match fuel with
      | O => mret ()
      | S fuel =>
          let before := length (pl_outstanding l) in
          _ ← map_errM quarantine_with (reclaim_block block false);
          l ← get_ledger;
          reclaim_scan fuel (if (length (pl_outstanding l) =? before)%nat then S index else index)
      end
  end.

Definition reclaim_all_completions : M RingError unit :=
  l ← get_ledger; reclaim_scan (length (pl_outstanding l)) 0.

(** ** Reservation *)
Definition descriptors_outstanding : M RingError Z :=
  h ← get_handle;
  let published := hd_published_local h in
  _ ← lift (map_err from_mapping (consumer_page b));
  consumed ← load sh_consumed;
  if (consumed <? hd_consumed_seen h) || (published <? consumed) then throw RE_InvalidSharedState
  else
    _ ← modify_handle (set_consumed_seen consumed);
    mret (published - consumed).

Definition descriptor_limit (inventory : Inventory) : Z :=
  match inventory with
  | InvOrdinary => pg_ordinary_descriptors g
  | InvControl | InvTerminal => descriptor_depth g
  end.

Definition try_reserve_in (inventory : Inventory) (bound : Z) (wire_header : list Z)
    : M ProducerError ProducerReservation :=
  if MAX_FRAME_BYTES <? bound then throw PE_BoundExceedsClass
  else
    quarantined ← is_quarantined;
    if (quarantined : bool) then throw PE_Quarantined
    else
    h ← get_handle;
    if bool_decide (is_Some (hd_reserved_block h)) then throw PE_ReservationOutstanding
    else
    if negb (pl_allowed (hd_ledger h)) then throw (PE_Ring RE_RoleMismatch)
    else if pl_retired (hd_ledger h) then throw PE_Retired
    else
    _ ← map_errM (fun e => mret (PE_Ring e)) reclaim_completions;
    class ← lift (ok_or (class_for g inventory bound) PE_BoundExceedsClass);
    outstanding ← map_errM quarantine_pe descriptors_outstanding;
    if descriptor_limit inventory <=? outstanding then throw PE_Exhausted
    else
    h ← get_handle;
    if hd_published_local h =? u64_MAX then
      l ← get_ledger; _ ← put_ledger (set_retired true l); throw PE_Retired
    else
    popped ← free_pop (class_index class);
    match popped with
    | None => throw PE_Exhausted
    | Some block =>
        l ← get_ledger;
        _ ← match position block (pl_reclaimed l) with
            | Some i => put_ledger (set_reclaimed (swap_remove (pl_reclaimed l) i) l)
            | None => mret ()
            end;
        l ← get_ledger;
        last_generation ← vec_get (pl_generations l) block;
        match checked_add u64_MAX last_generation 1 with
        | None =>
            _ ← free_push (class_index class) block;
            l ← get_ledger; _ ← put_ledger (set_retired true l); throw PE_Retired
        | Some generation =>
            _ ← map_errM quarantine_pe (lift (map_err from_mapping (completion b block)));
            cell ← load (fun s => sh_completions s block);
            if generation <=? cell then
              _ ← free_push (class_index class) block;
              e ← quarantine_with (RE_Descriptor FutureCompletion);
              throw (PE_Ring e)
            else
              _ ← set_generation_of block generation;
              _ ← set_state_of block Reserved;
              _ ← modify_handle (set_reserved (Some block));
              _ ← modify_handle (set_producer true);
              mret (mkReservation block generation class bound 0 wire_header false)
        end
    end.

Definition abort_reservation {E} (block : Z) : M E unit :=
  h ← get_handle;
  if negb (bool_decide (hd_reserved_block h = Some block)) then mret ()
  else
    _ ← modify_handle (set_reserved None);
    l ← get_ledger;
    state ← vec_get (pl_states l) block;
    if negb (bool_decide (state = Reserved)) then mret ()
    else
      match placement g block with
      | Some p => _ ← set_state_of block Free; free_push (class_index (bp_class p)) block
      | None => mret ()
      end.

Definition abort_now {E} (r : ProducerReservation) : M E ProducerReservation :=
  if pr_finished r then mret r
  else _ ← abort_reservation (pr_block r); mret (set_finished true r).

(** ** Publication *)
Definition publish_commit (block generation body_len : Z) (wire_header : list Z)
    : M ProducerError PayloadIdentity :=
  _ ← lift (map_err (fun _ => PE_WireHeaderMismatch) (check_wire_header wire_header body_len));
  h ← get_handle;
  let published := hd_published_local h in
  match checked_add u64_MAX published 1 with
  | None => l ← get_ledger; _ ← put_ledger (set_retired true l); throw PE_Retired
  | Some sequence =>
      let depth := descriptor_depth g in
      let index := (sequence - 1) mod depth in
      _ ← map_errM quarantine_pe (lift (map_err from_mapping (slot b index)));
      _ ← map_errM quarantine_pe (lift (map_err from_mapping (producer_page b)));
      header ← map_errM quarantine_pe (lift (map_err from_mapping (header_ptr b block)));
      _ ← store (fun s => set_arena (copy_in (mem_of wire_header) 0 WIRE_HEADER_BYTES (sh_arena s) header) s);
      _ ← store (fun s => let d := sh_slots s index in
            set_slot index (mkSlot (ds_sequence d) block (ds_generation d) (ds_body_len d)) s);
      _ ← store (fun s => let d := sh_slots s index in
            set_slot index (mkSlot (ds_sequence d) (ds_block d) generation (ds_body_len d)) s);
      _ ← store (fun s => let d := sh_slots s index in
            set_slot index (mkSlot (ds_sequence d) (ds_block d) (ds_generation d) body_len) s);
      _ ← store (fun s => let d := sh_slots s index in
            set_slot index (mkSlot sequence (ds_block d) (ds_generation d) (ds_body_len d)) s);
      exchanged ← atomic (fun s => if sh_published s =? published then (true, set_published sequence s) else (false, s));
      if negb exchanged then e ← quarantine_with RE_InvalidSharedState; throw (PE_Ring e)
      else
        _ ← modify_handle (set_published_local sequence);
        _ ← set_state_of block Published;
        l ← get_ledger;
        _ ← put_ledger (set_outstanding (pl_outstanding l ++ [block]) l);
        _ ← modify_handle (set_reserved None);
        let identity := mkIdentity (bk_incarnation b) (bk_lane b) block generation in
        woken ← attempt signal_data_wake;
        match woken with
        | Err e => _ ← enter_quarantine; throw (PE_Ring e)
        | Ok _ =>
            quarantined ← is_quarantined;
            if (quarantined : bool) then throw PE_Quarantined else mret identity
        end
  end.

Definition write_reservation (block capacity cursor : Z) (bytes : list Z) : M ProducerError unit :=
  last ← lift (ok_or (checked_add u64_MAX cursor (Z.of_nat (length bytes))) PE_Overflow);
  if capacity <? last then throw PE_Overflow
  else
    body ← lift (map_err (fun e => PE_Ring (from_mapping e)) (body_ptr b block capacity));
    store (fun s => set_arena
      (copy_in (mem_of bytes) 0 (Z.of_nat (length bytes)) (sh_arena s) (body + cursor)) s).

(** [&mut self] methods return the reservation with the call's result. *)
Definition reservation_advance (r : ProducerReservation) (bytes : Z)
    : M ProducerError (ProducerReservation * result ProducerError unit) :=
  if pr_finished r then mret (r, Err PE_Aborted)
  else
    match checked_add u64_MAX (pr_cursor r) bytes with
    | None => r ← abort_now r; mret (r, Err PE_Overflow)
    | Some cursor =>
        if pr_capacity r <? cursor then r ← abort_now r; mret (r, Err PE_Overflow)
        else mret (set_cursor cursor r, Ok ())
    end.

Definition set_wire_header (r : ProducerReservation) (wire_header : list Z)
    : ProducerReservation * result ProducerError unit :=
  if pr_finished r then (r, Err PE_Aborted)
  else (mkReservation (pr_block r) (pr_generation r) (pr_class r) (pr_capacity r) (pr_cursor r) wire_header
          (pr_finished r), Ok ()).

Definition reservation_write (r : ProducerReservation) (bytes : list Z)
    : M ProducerError (ProducerReservation * result ProducerError unit) :=
  if pr_finished r then mret (r, Err PE_Aborted)
  else
    written ← attempt (write_reservation (pr_block r) (pr_capacity r) (pr_cursor r) bytes);
    match written with
    | Err e => r ← abort_now r; mret (r, Err e)
    | Ok _ => mret (set_cursor (pr_cursor r + Z.of_nat (length bytes)) r, Ok ())
    end.

(** [commit] consumes the reservation, so its destructor finds it finished on every path. *)
Definition commit (r : ProducerReservation) (body_len : Z) : M ProducerError PayloadIdentity :=
  if pr_finished r then throw PE_Aborted
  else
    quarantined ← is_quarantined;
    if (quarantined : bool) then _ ← abort_now r; throw PE_Quarantined
    else if pr_capacity r <? body_len then _ ← abort_now r; throw PE_CommitOutsideReservation
    else if negb (pr_cursor r =? body_len) then _ ← abort_now r; throw PE_Underfill
    else if negb (is_ok (check_wire_header (pr_wire_header r) body_len))
    then _ ← abort_now r; throw PE_WireHeaderMismatch
    else publish_commit (pr_block r) (pr_generation r) body_len (pr_wire_header r).

(** [abort] and the destructor. *)
Definition reservation_drop {E} (r : ProducerReservation) : M E unit := _ ← abort_now r; mret ().

(** ** Receive *)
Definition verified_published (consumed : Z) : M RingError Z :=
  _ ← lift (map_err from_mapping (producer_page b));
  published ← load sh_published;
  queued ← lift (ok_or (checked_sub published consumed) RE_InvalidSharedState);
  h ← get_handle;
  if (published <? hd_published_seen h) || (descriptor_depth g <? queued) then throw RE_InvalidSharedState
  else _ ← modify_handle (set_published_seen published); mret published.

(** The four words of a slot, each read once. *)
Definition copy_descriptor (index : Z) : M RingError PoolDescriptor :=
  sequence ← load (fun s => ds_sequence (sh_slots s index));
  block ← load (fun s => ds_block (sh_slots s index));
  generation ← load (fun s => ds_generation (sh_slots s index));
  body_len ← load (fun s => ds_body_len (sh_slots s index));
  mret (from_untrusted sequence block generation body_len).

Definition try_receive_inner : M RingError (option PayloadLease) :=
  h ← get_handle;
  let consumed := hd_consumed_local h in
  published ← verified_published consumed;
  if consumed =? published then mret None
  else
    sequence ← lift (ok_or (checked_add u64_MAX consumed 1) RE_SequenceExhausted);
    let depth := descriptor_depth g in
    let index := (sequence - 1) mod depth in
    _ ← lift (map_err from_mapping (slot b index));
    snapshot ← copy_descriptor index;
    validated ← lift (map_err RE_Descriptor (PoolDescriptor_validate snapshot sequence g));
    let block := vd_block validated in
    let generation := vd_generation validated in
    h ← get_handle;
    if negb (bool_decide (live_generation h block = Some 0)) then throw (RE_Descriptor DuplicateLiveBlock)
    else if match last_seen_generation h block with Some seen => generation <=? seen | None => true end
    then throw (RE_Descriptor NonIncreasingGeneration)
    else
      header ← lift (map_err from_mapping (header_ptr b block));
      wire_header ← load (fun s => load_bytes
        (copy_out_uninit (sh_arena s) header (fun _ => 0) 0 WIRE_HEADER_BYTES) 0 (Z.to_nat WIRE_HEADER_BYTES));
      _ ← lift (map_err RE_Descriptor (check_wire_header wire_header (vd_body_len validated)));
      _ ← lift (map_err from_mapping (consumer_page b));
      exchanged ← atomic (fun s => if sh_consumed s =? consumed then (true, set_consumed sequence s) else (false, s));
      if negb exchanged then throw RE_InvalidSharedState
      else
        _ ← modify_handle (set_consumed_local sequence);
        _ ← modify_handle (set_consumer true);
        _ ← modify_handle (fun h => mark_live h block generation);
        woken ← attempt (signal_capacity b);
        _ ← (if is_ok woken then mret () else enter_quarantine);
        mret (Some (PayloadLease_new block generation (vd_body_len validated) wire_header)).

Definition try_receive : M RingError (option PayloadLease) :=
  quarantined ← is_quarantined;
  if (quarantined : bool) then throw RE_Quarantined
  else
    lease ← map_errM quarantine_with try_receive_inner;
    quarantined ← is_quarantined;
    if (quarantined : bool) then
      _ ← match lease with
          | Some l => map_errM (fun e => mret (RE_Lease e)) (PayloadLease_drop b l)
          | None => mret ()
          end;
      throw RE_Quarantined
    else mret lease.

(** ** Health *)
Fixpoint count_states (block : Z) (states : list BlockState) (classes : list ClassInventory) : list ClassInventory :=
  match states with
  | [] => classes
  | s :: states =>
      let classes :=
        match placement g block with
        | None => classes
        | Some p =>
            alter (fun i => match s with
                            | Free => mkClassInventory (ci_free i + 1) (ci_reserved i) (ci_published i)
                            | Reserved => mkClassInventory (ci_free i) (ci_reserved i + 1) (ci_published i)
                            | Published => mkClassInventory (ci_free i) (ci_reserved i) (ci_published i + 1)
                            end) (class_index (bp_class p)) classes
        end in
      count_states (block + 1) states classes
  end.

Definition inventory : M RingError PoolInventory :=
  h ← get_handle;
  _ ← (if hd_producer h then
         quarantined ← is_quarantined;
         if (quarantined : bool) then mret () else _ ← attempt reclaim_completions; mret ()
       else mret ());
  l ← get_ledger;
  quarantined ← is_quarantined;
  let classes :=
    if (quarantined : bool) then (fun c => mkClassInventory 0 0 (cs_count c)) <$> pg_classes g
    else count_states 0 (pl_states l) (replicate CLASS_COUNT (mkClassInventory 0 0 0)) in
  consumed ← match consumer_page b with Ok _ => load sh_consumed | Err _ => mret 0 end;
  h ← get_handle;
  mret {| iv_classes := classes;
          iv_descriptors_outstanding := saturating_sub (hd_published_local h) consumed;
          iv_descriptor_depth := descriptor_depth g;
          iv_ordinary_descriptors := pg_ordinary_descriptors g;
          iv_outstanding_returns := hd_outstanding_returns h;
          iv_retired := pl_retired l |}.

Definition probe : M RingError unit :=
  quarantined ← is_quarantined;
  if (quarantined : bool) then throw RE_Quarantined
  else
    _ ← lift (map_err from_mapping (producer_page b));
    published ← load sh_published;
    _ ← lift (map_err from_mapping (consumer_page b));
    consumed ← load sh_consumed;
    h ← get_handle;
    let consistent :=
      (consumed <=? published) && (published - consumed <=? descriptor_depth g)
      && (negb (hd_producer h) || (published =? hd_published_local h))
      && (negb (hd_consumer h) || (consumed =? hd_consumed_local h)) in
    if negb consistent then e ← quarantine_with RE_InvalidSharedState; throw e
    else if hd_producer h then reclaim_all_completions else mret ().

(** The blocks handed to [settle], in order; [settle] does not re-enter the ring. *)
Fixpoint drain_reclaimed (n : nat) (settled : list Z) : M RingError (list Z) :=
  match n with
  | O => mret settled
  | S n =>
      l ← get_ledger;
      match list.last (pl_reclaimed l) with
      | None => mret settled
      | Some block =>
          _ ← put_ledger (set_reclaimed (take (length (pl_reclaimed l) - 1) (pl_reclaimed l)) l);
          drain_reclaimed n (settled ++ [block])
      end
  end.

Definition take_reclaimed : M RingError (list Z) :=
  l ← get_ledger;
  _ ← (if pl_allowed l then
         quarantined ← is_quarantined;
         if (quarantined : bool) then mret () else reclaim_completions
       else mret ());
  l ← get_ledger;
  drain_reclaimed (length (pl_reclaimed l)) [].

(** ** Waiting *)
Definition data_available : M RingError bool :=
  h ← get_handle;
  let consumed := hd_consumed_local h in
  published ← map_errM quarantine_with (verified_published consumed);
  mret (negb (published =? consumed)).

Definition has_data : M RingError bool :=
  quarantined ← is_quarantined;
  if (quarantined : bool) then throw RE_Quarantined else data_available.

(** [ParkGuard::arm] on the data epoch, and its destructor. *)
Definition arm_data : M RingError Z :=
  generation ← load (fun s => we_generation (sh_data_wake s));
  _ ← store (fun s => set_data_wake (mkWake (we_generation (sh_data_wake s)) (wrapping_add u64_MAX generation 1)) s);
  mret generation.

Definition unpark_data {E} : M E unit :=
  store (fun s => set_data_wake (mkWake (we_generation (sh_data_wake s)) 0) s).

Definition drain : M RingError unit :=
  ok ← read_bell; if (ok : bool) then mret () else throw RE_DoorbellFailed.

Definition armed_wait_holds (generation : Z) : M RingError bool :=
  quarantined ← is_quarantined;
  if (quarantined : bool) then throw RE_Quarantined
  else
    available ← data_available;
    if (available : bool) then mret false
    else current ← load (fun s => we_generation (sh_data_wake s)); mret (current =? generation).

(** The guard is dropped on every path but the one that returns true. *)
Definition arm_data_wait : M RingError bool :=
  quarantined ← is_quarantined;
  if (quarantined : bool) then throw RE_Quarantined
  else
    available ← data_available;
    if (available : bool) then mret false
    else
      _ ← lift (map_err from_mapping (data_wake_page b));
      generation ← arm_data;
      holds ← attempt (
        holds ← armed_wait_holds generation;
        if negb holds then mret false
        else
          _ ← map_errM quarantine_with drain;
          armed_wait_holds generation);
      match holds with
      | Ok true => mret true
      | Ok false => _ ← unpark_data; mret false
      | Err e => _ ← unpark_data; throw e
      end.

Definition complete_data_wait : M RingError unit :=
  _ ← lift (map_err from_mapping (data_wake_page b));
  _ ← unpark_data;
  map_errM quarantine_with drain.

Definition reservation_exhausted (inventory : Inventory) (bound : Z) : M RingError bool :=
  h ← get_handle;
  if bool_decide (is_Some (hd_reserved_block h)) then mret false
  else if negb (pl_allowed (hd_ledger h)) || pl_retired (hd_ledger h) then mret false
  else
    _ ← reclaim_completions;
    match class_for g inventory bound with
    | None => mret false
    | Some class =>
        outstanding ← map_errM quarantine_with descriptors_outstanding;
        if descriptor_limit inventory <=? outstanding then mret true
        else
          l ← get_ledger;
          stack ← vec_get (pl_free l) (Z.of_nat (class_index class));
          mret (match stack with [] => true | _ => false end)
    end.

Definition arm_capacity : M RingError Z :=
  generation ← load (fun s => we_generation (sh_capacity_wake s));
  _ ← store (fun s => set_capacity_wake
        (mkWake (we_generation (sh_capacity_wake s)) (wrapping_add u64_MAX generation 1)) s);
  mret generation.

Definition unpark_capacity {E} : M E unit :=
  store (fun s => set_capacity_wake (mkWake (we_generation (sh_capacity_wake s)) 0) s).

Definition armed_capacity_wait_holds (generation : Z) (inventory : Inventory) (bound : Z) : M RingError bool :=
  quarantined ← is_quarantined;
  if (quarantined : bool) then throw RE_Quarantined
  else
    exhausted ← reservation_exhausted inventory bound;
    if negb exhausted then mret false
    else current ← load (fun s => we_generation (sh_capacity_wake s)); mret (current =? generation).

Definition arm_capacity_wait (inventory : Inventory) (bound : Z) : M RingError bool :=
  quarantined ← is_quarantined;
  if (quarantined : bool) then throw RE_Quarantined
  else
    _ ← lift (map_err from_mapping (capacity_wake_page b));
    generation ← arm_capacity;
    holds ← attempt (
      holds ← armed_capacity_wait_holds generation inventory bound;
      if negb holds then mret false
      else
        _ ← map_errM quarantine_with drain;
        armed_capacity_wait_holds generation inventory bound);
    match holds with
    | Ok true => mret true
    | Ok false => _ ← unpark_capacity; mret false
    | Err e => _ ← unpark_capacity; throw e
    end.

Definition complete_capacity_wait : M RingError unit :=
  _ ← lift (map_err from_mapping (capacity_wake_page b));
  _ ← unpark_capacity;
  map_errM quarantine_with drain.
End Operations.
