(* ===== verification/RingLogic.v ===== *)
(** * RingLogic: reasoning about one handle against an arbitrary peer.

    A weakest precondition over the private cells of a handle: the shared memory holds arbitrary
    machine values before every access, so what is proved with it holds whatever the peer writes,
    and when. A postcondition excludes panics. *)
From S2P Require Import Prelude.
From S2P Require Import Pool.
From S2P Require Import Descriptor.
From S2P Require Import SpanCopy.
From S2P Require Import Retained.
From S2P Require Import Grant.
From S2P Require Import Ring.

(** ** Machine values in shared memory *)
Record shared_ok (s : Shared) : Prop := {
  so_published : is_u64 (sh_published s);
  so_consumed : is_u64 (sh_consumed s);
  so_slots : forall i, is_u64 (ds_sequence (sh_slots s i)) /\ is_u64 (ds_block (sh_slots s i)) /\
                       is_u64 (ds_generation (sh_slots s i)) /\ is_u64 (ds_body_len (sh_slots s i));
  so_completions : forall i, is_u64 (sh_completions s i);
  so_returns : forall i, is_u64 (sh_returns s i);
  so_arena : byte_mem (sh_arena s);
}.

Definition peer_ok (peer : list (Shared -> Shared)) : Prop :=
  Forall (fun p => forall s, shared_ok s -> shared_ok (p s)) peer.

(** ** Weakest precondition *)
Definition wp {E A} (m : M E A) (Q : A -> Handle -> Prop) (R : E -> Handle -> Prop) (h : Handle) : Prop :=
  forall s peer bell, shared_ok s -> peer_ok peer ->
    match m (mkWorld s h peer bell) with
    | (Done a, w') => shared_ok (w_shared w') /\ peer_ok (w_peer w') /\ Q a (w_handle w')
    | (Fail e, w') => shared_ok (w_shared w') /\ peer_ok (w_peer w') /\ R e (w_handle w')
    | (Panic, _) => False
    end.

Section Rules.
Context {E A : Type}.
Implicit Types (Q : A -> Handle -> Prop) (R : E -> Handle -> Prop) (h : Handle).

Lemma wp_mono m Q Q' R R' h :
  wp m Q R h -> (forall a h', Q a h' -> Q' a h') -> (forall e h', R e h' -> R' e h') -> wp (E:=E) (A:=A) m Q' R' h.
Proof.
  intros Hm HQ HR s peer bell Hs Hp. specialize (Hm s peer bell Hs Hp).
  destruct (m _) as [[a|e|] w']; naive_solver.
Qed.

Lemma wp_ret a Q R h : Q a h -> wp (mret a) Q R h.
Proof. intros H s peer bell Hs Hp. cbn. done. Qed.

Lemma wp_throw e Q R h : R e h -> wp (throw e) Q R h.
Proof. intros H s peer bell Hs Hp. cbn. done. Qed.

Lemma wp_lift r Q R h :
  match r with Ok a => Q a h | Err e => R e h end -> wp (lift r) Q R h.
Proof. intros H. destruct r; [by apply wp_ret|by apply wp_throw]. Qed.

Lemma wp_atomic (f : Shared -> A * Shared) Q R h :
  (forall s, shared_ok s -> shared_ok (f s).2 /\ Q (f s).1 h) -> wp (atomic f) Q R h.
Proof.
  intros H s peer bell Hs Hp. unfold atomic. cbn.
  destruct peer as [|p peer]; cbn.
  - destruct (f s) as [a s'] eqn:Ef. cbn. specialize (H s Hs). rewrite Ef in H. naive_solver.
  - apply Forall_cons_iff in Hp as [Hp Hpeer]. specialize (Hp s Hs).
    destruct (f (p s)) as [a s'] eqn:Ef. cbn. specialize (H (p s) Hp). rewrite Ef in H. naive_solver.
Qed.

Lemma wp_load (f : Shared -> A) Q R h : (forall s, shared_ok s -> Q (f s) h) -> wp (load f) Q R h.
Proof. intros H. apply wp_atomic. intros s Hs. split; [done|by apply H]. Qed.

Lemma wp_bind {B} (m : M E B) (f : B -> M E A) Q R h :
  wp m (fun x h' => wp (f x) Q R h') R h -> wp (m ≫= f) Q R h.
Proof.
  intros Hm s peer bell Hs Hp. specialize (Hm s peer bell Hs Hp). unfold mbind, M_bind.
  destruct (m _) as [[x|e|] w'] eqn:Em; [|done|done].
  destruct Hm as (Hs' & Hp' & Hf). destruct w' as [s' h' peer' bell']. apply (Hf s' peer' bell' Hs' Hp').
Qed.

Lemma wp_map_err {F} (f : F -> M E E) (m : M F A) Q R h :
  wp m Q (fun e h' => wp (f e) R R h') h -> wp (map_errM f m) Q R h.
Proof.
  intros Hm s peer bell Hs Hp. specialize (Hm s peer bell Hs Hp). unfold map_errM.
  destruct (m _) as [[x|e|] w'] eqn:Em; [done| |done].
  destruct Hm as (Hs' & Hp' & Hf). destruct w' as [s' h' peer' bell']. specialize (Hf s' peer' bell' Hs' Hp').
  by destruct (f e _) as [[]].
Qed.
End Rules.

Lemma wp_attempt {E F A} (m : M E A) (Q : result E A -> Handle -> Prop) (R : F -> Handle -> Prop) h :
  wp m (fun a h' => Q (Ok a) h') (fun e h' => Q (Err e) h') h -> wp (attempt m) Q R h.
Proof.
  intros Hm s peer bell Hs Hp. specialize (Hm s peer bell Hs Hp). unfold attempt.
  by destruct (m _) as [[x|e|] w'].
Qed.

Lemma wp_store {E} (f : Shared -> Shared) Q (R : E -> Handle -> Prop) h :
  (forall s, shared_ok s -> shared_ok (f s)) -> Q () h -> wp (store f) Q R h.
Proof. intros Hf HQ. apply wp_atomic. intros s Hs. split; [by apply Hf|done]. Qed.

Lemma wp_get {E} Q (R : E -> Handle -> Prop) h : Q h h -> wp get_handle Q R h.
Proof. intros H s peer bell Hs Hp. cbn. done. Qed.

Lemma wp_put {E} h' Q (R : E -> Handle -> Prop) h : Q () h' -> wp (put_handle h') Q R h.
Proof. intros H s peer bell Hs Hp. cbn. done. Qed.

Lemma wp_modify {E} f Q (R : E -> Handle -> Prop) h : Q () (f h) -> wp (modify_handle f) Q R h.
Proof. intros H. apply wp_bind, wp_get, wp_put, H. Qed.

Lemma wp_get_ledger {E} Q (R : E -> Handle -> Prop) h : Q (hd_ledger h) h -> wp get_ledger Q R h.
Proof. intros H. apply wp_bind, wp_get, wp_ret, H. Qed.

Lemma wp_put_ledger {E} l Q (R : E -> Handle -> Prop) h : Q () (set_ledger l h) -> wp (put_ledger l) Q R h.
Proof. apply wp_modify. Qed.

Lemma wp_bell {E} loop Q (R : E -> Handle -> Prop) h : (forall ok, Q ok h) -> wp (with_bell loop) Q R h.
Proof. intros H s peer bell Hs Hp. unfold with_bell. cbn. destruct (loop bell). cbn. auto. Qed.

Lemma wp_vec_get {E A} (l : list A) i a Q (R : E -> Handle -> Prop) h :
  l !! Z.to_nat i = Some a -> Q a h -> wp (vec_get l i) Q R h.
Proof. intros Hl HQ. unfold vec_get. rewrite Hl. by apply wp_ret. Qed.

(** One structural step on a computation whose head is a primitive. *)
Ltac wp_step :=
  lazymatch goal with
  | |- wp (mbind _ _) _ _ _ => apply wp_bind
  | |- wp (mret _) _ _ _ => apply wp_ret
  | |- wp (throw _) _ _ _ => apply wp_throw
  | |- wp (load _) _ _ _ => apply wp_load; intros ?s ?Hs
  | |- wp get_handle _ _ _ => apply wp_get
  | |- wp get_ledger _ _ _ => apply wp_get_ledger
  | |- wp (put_ledger _) _ _ _ => apply wp_put_ledger
  | |- wp (modify_handle _) _ _ _ => apply wp_modify
  | |- wp ring_bell _ _ _ => apply wp_bell; intros [|]
  | |- wp read_bell _ _ _ => apply wp_bell; intros [|]
  | |- wp (attempt _) _ _ _ => apply wp_attempt
  | |- wp (map_errM _ _) _ _ _ => apply wp_map_err
  end; cbn beta.

(** ** Stores keep machine values *)
Lemma shared_ok_data_wake v s : shared_ok s -> shared_ok (set_data_wake v s).
Proof. by intros []. Qed.
Lemma shared_ok_capacity_wake v s : shared_ok s -> shared_ok (set_capacity_wake v s).
Proof. by intros []. Qed.
Lemma shared_ok_quarantined v s : shared_ok s -> shared_ok (set_quarantined v s).
Proof. by intros []. Qed.
Lemma shared_ok_published v s : is_u64 v -> shared_ok s -> shared_ok (set_published v s).
Proof. by intros ? []. Qed.
Lemma shared_ok_consumed v s : is_u64 v -> shared_ok s -> shared_ok (set_consumed v s).
Proof. by intros ? []. Qed.

Lemma shared_ok_return i v s : is_u64 v -> shared_ok s -> shared_ok (set_return i v s).
Proof. intros Hv []. split; try done. intros j. cbn. unfold update. by bcase. Qed.

Lemma shared_ok_completion i v s : is_u64 v -> shared_ok s -> shared_ok (set_completion i v s).
Proof. intros Hv []. split; try done. intros j. cbn. unfold update. by bcase. Qed.

Lemma shared_ok_slot i d s :
  is_u64 (ds_sequence d) -> is_u64 (ds_block d) -> is_u64 (ds_generation d) -> is_u64 (ds_body_len d) ->
  shared_ok s -> shared_ok (set_slot i d s).
Proof. intros ? ? ? ? []. split; try done. intros j. cbn. unfold update. by bcase. Qed.

Lemma shared_ok_arena m s : byte_mem m -> shared_ok s -> shared_ok (set_arena m s).
Proof. by intros ? []. Qed.

#[export] Hint Resolve shared_ok_data_wake shared_ok_capacity_wake shared_ok_quarantined shared_ok_published
  shared_ok_consumed shared_ok_return shared_ok_completion shared_ok_arena : machine.

Lemma mem_of_bytes bytes : Forall is_u8 bytes -> byte_mem (mem_of bytes).
Proof.
  intros H x. unfold mem_of. destruct (bytes !! _) eqn:E; cbn; [by eapply Forall_lookup_1|mlia].
Qed.

Lemma u64_lor a b : is_u64 a -> is_u64 b -> is_u64 (Z.lor a b).
Proof.
  intros Ha Hb. assert (Z.lor a b < 2 ^ 64); [|split; [apply Z.lor_nonneg|]; munfold; lia].
  assert (forall x, is_u64 x -> Z.land x (Z.ones 64) = x) as Hland.
  { intros x Hx. rewrite Z.land_ones by lia. apply Z.mod_small. munfold. lia. }
  rewrite <- (Hland a Ha), <- (Hland b Hb), <- Z.land_lor_distr_l, Z.land_ones by lia.
  apply Z.mod_pos_bound. lia.
Qed.

Lemma u64_bit block : 0 <= block -> is_u64 (Z.shiftl 1 (block mod RETURN_WORD_BITS)).
Proof.
  intros Hb. unfold RETURN_WORD_BITS. pose proof (Z.mod_pos_bound block 64 ltac:(lia)).
  rewrite Z.shiftl_1_l. assert (2 ^ (block mod 64) <= 2 ^ 63) by (apply Z.pow_le_mono_r; lia).
  assert (0 < 2 ^ (block mod 64)) by (apply Z.pow_pos_nonneg; lia). munfold. lia.
Qed.

(** ** The common operations *)
Lemma wp_signal_data_wake b Q R h : Q () h -> (forall e, R e h) -> wp (signal_data_wake b) Q R h.
Proof.
  intros HQ HR. unfold signal_data_wake. wp_step. apply wp_lift. destruct (map_err _ _); cbn beta iota; [|done].
  wp_step. apply wp_store; [auto with machine|]. cbn beta. wp_step. apply wp_atomic. intros s Hs. cbn [fst snd].
  split; [auto with machine|]. bcase; [by apply wp_ret|]. wp_step. wp_step; [by apply wp_ret|by apply wp_throw].
Qed.

Lemma wp_signal_capacity b Q R h : Q () h -> (forall e, R e h) -> wp (signal_capacity b) Q R h.
Proof.
  intros HQ HR. unfold signal_capacity. wp_step. apply wp_lift. destruct (map_err _ _); cbn beta iota; [|done].
  wp_step. apply wp_store; [auto with machine|]. cbn beta. wp_step. apply wp_atomic. intros s Hs. cbn [fst snd].
  split; [auto with machine|]. bcase; [by apply wp_ret|]. wp_step. wp_step; [by apply wp_ret|by apply wp_throw].
Qed.

Lemma wp_enter_quarantine {E} b Q (R : E -> Handle -> Prop) h :
  Q () (set_latch true h) -> wp (enter_quarantine b) Q R h.
Proof.
  intros HQ. unfold enter_quarantine. wp_step. wp_step. wp_step.
  assert (forall h', h' = set_latch true h ->
    wp (_ ← attempt (F := E) (signal_data_wake b); _ ← attempt (signal_capacity b); mret ()) Q R h') as Hrest.
  { intros h' ->. wp_step. wp_step. apply wp_signal_data_wake; [|intros ?];
      (wp_step; wp_step; apply wp_signal_capacity; [|intros ?]; by apply wp_ret). }
  destruct (lifecycle_quarantined b).
  - apply wp_store; [auto with machine|]. by apply Hrest.
  - apply wp_ret. by apply Hrest.
Qed.

Lemma wp_is_quarantined {E} b Q (R : E -> Handle -> Prop) h :
  (hd_quarantined h = false -> Q false h) -> Q true (set_latch true h) -> wp (is_quarantined b) Q R h.
Proof.
  intros Hf Ht. unfold is_quarantined. wp_step. wp_step. destruct (hd_quarantined h) eqn:El.
  { apply wp_ret. destruct h. cbn in *. by subst. }
  wp_step. destruct (lifecycle_quarantined b).
  - wp_step. wp_step. wp_step. wp_step. destruct (negb _).
    + wp_step. by apply wp_ret.
    + wp_step. apply wp_ret. by apply Hf.
  - wp_step. wp_step. wp_step. by apply wp_ret.
Qed.

Lemma wp_quarantine_with {E} b e Q (R : E -> Handle -> Prop) h :
  Q e (set_latch true h) -> wp (quarantine_with b e) Q R h.
Proof. intros H. unfold quarantine_with. wp_step. apply wp_enter_quarantine. by apply wp_ret. Qed.

Lemma wp_quarantine_pe b e Q R h : Q (PE_Ring e) (set_latch true h) -> wp (quarantine_pe b e) Q R h.
Proof. intros H. unfold quarantine_pe. wp_step. apply wp_quarantine_with. by apply wp_ret. Qed.

Lemma wp_free_push {E} i x stack Q (R : E -> Handle -> Prop) h :
  pl_free (hd_ledger h) !! i = Some stack ->
  Q () (set_ledger (set_free (<[i := x :: stack]> (pl_free (hd_ledger h))) (hd_ledger h)) h) ->
  wp (free_push i x) Q R h.
Proof.
  intros Hi HQ. unfold free_push. wp_step. wp_step. wp_step. apply (wp_vec_get _ _ stack); [by rewrite Nat2Z.id|].
  by wp_step.
Qed.

Lemma wp_free_pop {E} i stack Q (R : E -> Handle -> Prop) h :
  pl_free (hd_ledger h) !! i = Some stack ->
  (stack = [] -> Q None h) ->
  (forall x rest, stack = x :: rest ->
     Q (Some x) (set_ledger (set_free (<[i := rest]> (pl_free (hd_ledger h))) (hd_ledger h)) h)) ->
  wp (free_pop i) Q R h.
Proof.
  intros Hi Hn Hs. unfold free_pop. wp_step. wp_step. wp_step. apply (wp_vec_get _ _ stack); [by rewrite Nat2Z.id|].
  destruct stack as [|x rest]; [apply wp_ret; auto|]. wp_step. wp_step. apply wp_ret. by apply Hs.
Qed.

Lemma wp_set_state {E} x s s0 Q (R : E -> Handle -> Prop) h :
  pl_states (hd_ledger h) !! Z.to_nat x = Some s0 ->
  Q () (set_ledger (set_states (<[Z.to_nat x := s]> (pl_states (hd_ledger h))) (hd_ledger h)) h) ->
  wp (set_state_of x s) Q R h.
Proof.
  intros Hx HQ. unfold set_state_of. wp_step. wp_step. wp_step. apply (wp_vec_get _ _ s0); [done|]. by wp_step.
Qed.

Lemma wp_set_generation {E} x v v0 Q (R : E -> Handle -> Prop) h :
  pl_generations (hd_ledger h) !! Z.to_nat x = Some v0 ->
  Q () (set_ledger (set_generations (<[Z.to_nat x := v]> (pl_generations (hd_ledger h))) (hd_ledger h)) h) ->
  wp (set_generation_of x v) Q R h.
Proof.
  intros Hx HQ. unfold set_generation_of. wp_step. wp_step. wp_step. apply (wp_vec_get _ _ v0); [done|]. by wp_step.
Qed.
