(* ===== verification/RingLedger.v ===== *)
(** * RingLedger: the producer ledger's invariant and its preservation by every operation. *)
From S2P Require Import Prelude.
From S2P Require Import Pool.
From S2P Require Import Descriptor.
From S2P Require Import SpanCopy.
From S2P Require Import Retained.
From S2P Require Import Grant.
From S2P Require Import Ring.
From S2P Require Import RingLogic.

(** ** The invariant *)

(** The class a block id belongs to. *)
Definition class_of (g : PoolGeometry) (x : Z) : option nat :=
  (fun p => class_index (bp_class p)) <$> placement g x.

Definition block_is (l : ProducerLedger) (x : Z) (s : BlockState) : Prop :=
  0 <= x /\ pl_states l !! Z.to_nat x = Some s.

(** Every block is in exactly one place: on its own class's free list, reserved, or
    outstanding; blocks waiting for settlement are free. *)
Record ledger_inv (g : PoolGeometry) (l : ProducerLedger) (reserved : option Z) : Prop := {
  li_states : length (pl_states l) = Z.to_nat (block_count g);
  li_length : length (pl_generations l) = Z.to_nat (block_count g);
  li_generations : Forall is_u64 (pl_generations l);
  li_classes : length (pl_free l) = CLASS_COUNT;
  li_free : forall i stack, pl_free l !! i = Some stack ->
    NoDup stack /\ forall x, x ∈ stack <-> block_is l x Free /\ class_of g x = Some i;
  li_outstanding : NoDup (pl_outstanding l) /\ forall x, x ∈ pl_outstanding l <-> block_is l x Published;
  li_reserved : forall x, reserved = Some x <-> block_is l x Reserved;
  li_reclaimed : NoDup (pl_reclaimed l) /\ forall x, x ∈ pl_reclaimed l -> block_is l x Free;
}.

(** ** Vectors *)
Lemma position_Some x l i : position x l = Some i -> l !! i = Some x.
Proof.
  revert i. induction l as [|y l IH]; intros i; cbn; [done|]. bcase; [intros [= <-]; by subst|].
  intros (j & Hj & ->)%fmap_Some. by apply IH.
Qed.

Lemma position_None x l : position x l = None -> x ∉ l.
Proof.
  induction l as [|y l IH]; cbn; [by intros _ ?%not_elem_of_nil|]. bcase; [done|].
  intros Hn%fmap_None. rewrite elem_of_cons. intros [->|?]; [done|]. by apply IH.
Qed.

Lemma swap_remove_perm {A} (l : list A) i x : l !! i = Some x -> x :: swap_remove l i ≡ₚ l.
Proof.
  intros Hi. pose proof (lookup_lt_Some _ _ _ Hi) as Hlt.
  destruct (exists_last (l := l)) as (l0 & z & ->); [by intros ->|].
  unfold swap_remove. rewrite last_snoc, length_app. cbn. rewrite length_app in Hlt. cbn in Hlt.
  replace (length l0 + 1 - 1)%nat with (length l0) by lia. bcase.
  - subst. rewrite take_app_length. rewrite lookup_app_r, Nat.sub_diag in Hi by lia. injection Hi as ->.
    by rewrite Permutation_cons_append.
  - rewrite take_app_length. rewrite lookup_app_l in Hi by lia.
    rewrite <- (take_drop_middle l0 i x Hi) at 2.
    rewrite insert_take_drop by lia. rewrite <- app_assoc. cbn.
    rewrite <- (Permutation_middle (take i l0) _ x). apply Permutation_skip.
    by rewrite <- Permutation_cons_append.
Qed.

(** ** Single-block updates of the ledger *)
Section LedgerSteps.
Context (g : PoolGeometry).
Hypothesis Hg : geometry_ok g.

Lemma class_of_lt x i : 0 <= x -> class_of g x = Some i -> (i < CLASS_COUNT)%nat /\ x < block_count g.
Proof.
  intros Hx. unfold class_of. intros (p & Hp & ->)%fmap_Some.
  destruct (Z.lt_ge_cases x (block_count g)); [|by rewrite placement_None in Hp].
  destruct (placement_Some g x) as (q & j & Hq & _ & _ & Hc & Hj & _); [done|lia|]. simplify_eq.
  split; [|done]. apply fmap_Some in Hc as (c & Hc & _). apply lookup_lt_Some in Hc.
  rewrite (go_length _ Hg) in Hc. apply class_from_index_Some in Hj as [? ?]. subst. lia.
Qed.

Lemma class_of_total x : 0 <= x < block_count g -> exists i, class_of g x = Some i.
Proof.
  intros Hx. destruct (placement_Some g x) as (p & j & Hp & _); [done|done|].
  exists (class_index (bp_class p)). unfold class_of. by rewrite Hp.
Qed.

Lemma block_is_bound l r x s : ledger_inv g l r -> block_is l x s -> 0 <= x < block_count g.
Proof.
  intros Hl [Hx Hs]. apply lookup_lt_Some in Hs. rewrite (li_states _ _ _ Hl) in Hs.
  pose proof (block_count_range g Hg). lia.
Qed.

Lemma block_is_fun l x s s' : block_is l x s -> block_is l x s' -> s = s'.
Proof. intros [_ H] [_ H']. congruence. Qed.

(** Changing the state of one block. *)
Lemma block_is_insert states l x s y t :
  pl_states l = <[Z.to_nat x := s]> states -> 0 <= x -> (Z.to_nat x < length states)%nat ->
  block_is l y t <-> if decide (y = x) then t = s else 0 <= y /\ states !! Z.to_nat y = Some t.
Proof.
  intros Hl Hx Hlen. unfold block_is. rewrite Hl. case_decide as Hd.
  - subst y. rewrite list_lookup_insert_eq by done. split; [by intros [_ [= ->]]|by intros ->].
  - split; intros [Hy H]; (split; [done|]).
    + rewrite list_lookup_insert_ne in H; [done|]. intros ?. apply Hd. lia.
    + rewrite list_lookup_insert_ne; [done|]. intros ?. apply Hd. lia.
Qed.

(** Reservation: the top of a class stack becomes the reserved block under a new generation. *)
Lemma inv_reserve l i x stack generation reclaimed' retired :
  ledger_inv g l None -> pl_free l !! i = Some (x :: stack) -> is_u64 generation ->
  (NoDup reclaimed' /\ forall y, y ∈ reclaimed' -> y ∈ pl_reclaimed l /\ y <> x) ->
  ledger_inv g (mkLedger (<[Z.to_nat x := Reserved]> (pl_states l)) (<[Z.to_nat x := generation]> (pl_generations l))
    (<[i := stack]> (pl_free l)) (pl_outstanding l) reclaimed' (pl_allowed l) retired) (Some x).
Proof.
  intros Hl Hi Hgen [Hnd Hsub]. pose proof (li_free _ _ _ Hl i _ Hi) as [Hndi Hmem].
  destruct (proj1 (Hmem x) ltac:(left)) as [Hx Hcx]. pose proof (block_is_bound _ _ _ _ Hl Hx) as Hb.
  pose proof (lookup_lt_Some _ _ _ (proj2 Hx)) as Hlt.
  pose proof (fun y t => block_is_insert _ (mkLedger (<[Z.to_nat x := Reserved]> (pl_states l))
    (<[Z.to_nat x := generation]> (pl_generations l)) (<[i := stack]> (pl_free l)) (pl_outstanding l) reclaimed'
    (pl_allowed l) retired) x Reserved y t eq_refl ltac:(lia) Hlt) as Hins.
  destruct Hl as [? ? ? ? Hfree [Ho Hom] Hres [Hr Hrm]]. split; cbn in *; rewrite ?length_insert; try done.
  - by apply Forall_insert.
  - intros j st. destruct (decide (j = i)) as [->|Hj].
    + rewrite list_lookup_insert_eq by (by eapply lookup_lt_Some). intros [= <-].
      apply list.NoDup_cons in Hndi as [Hnx Hndi]. split; [done|]. intros y. rewrite Hins. specialize (Hmem y).
      rewrite elem_of_cons in Hmem. unfold block_is in Hmem. case_decide as Hd; [subst; naive_solver|naive_solver].
    + rewrite list_lookup_insert_ne by done. intros Hst. destruct (Hfree _ _ Hst) as [Hn Hm]. split; [done|].
      intros y. rewrite Hm, Hins. unfold block_is. case_decide as Hd; [|done]. subst. naive_solver.
  - split; [done|]. intros y. rewrite Hom, Hins. unfold block_is in *. case_decide as Hd; [|done]. subst. naive_solver.
  - intros y. rewrite Hins. case_decide as Hd; [by subst|]. split; [by intros [= ->]|].
    intros H'. by apply Hres in H'.
  - split; [done|]. intros y Hy. destruct (Hsub y Hy) as [Hy' Hne]. rewrite Hins. case_decide; [done|].
    apply Hrm in Hy'. exact Hy'.
Qed.

(** Release: a reserved or published block goes back on top of its class stack. *)
Lemma inv_release_block l r x s i stack outstanding' reclaimed' r' retired :
  ledger_inv g l r -> block_is l x s -> s <> Free -> class_of g x = Some i -> pl_free l !! i = Some stack ->
  (NoDup outstanding' /\ forall y, y ∈ outstanding' <-> y ∈ pl_outstanding l /\ y <> x) ->
  (NoDup reclaimed' /\ forall y, y ∈ reclaimed' -> y ∈ pl_reclaimed l \/ y = x) ->
  (forall y, r' = Some y <-> r = Some y /\ y <> x) ->
  ledger_inv g (mkLedger (<[Z.to_nat x := Free]> (pl_states l)) (pl_generations l)
    (<[i := x :: stack]> (pl_free l)) outstanding' reclaimed' (pl_allowed l) retired) r'.
Proof.
  intros Hl Hx Hs Hcx Hi [Hnd Hsub] [Hndr Hsubr] Hr'. pose proof (block_is_bound _ _ _ _ Hl Hx) as Hb.
  pose proof (lookup_lt_Some _ _ _ (proj2 Hx)) as Hlt.
  pose proof (fun y t => block_is_insert _ (mkLedger (<[Z.to_nat x := Free]> (pl_states l)) (pl_generations l)
    (<[i := x :: stack]> (pl_free l)) outstanding' reclaimed' (pl_allowed l) retired) x Free y t
    eq_refl ltac:(lia) Hlt) as Hins.
  assert (forall t, block_is l x t -> t = s) as Hfun by (intros t Ht; by eapply block_is_fun).
  destruct Hl as [? ? ? ? Hfree [Ho Hom] Hres [Hr Hrm]]. split; cbn in *; rewrite ?length_insert; try done.
  - destruct (Hfree _ _ Hi) as [Hndi Hmem]. intros j st. destruct (decide (j = i)) as [->|Hj].
    + rewrite list_lookup_insert_eq by (by eapply lookup_lt_Some). intros [= <-].
      split.
      * apply list.NoDup_cons. split; [|done]. rewrite Hmem. intros [Hf _]. by apply Hfun in Hf.
      * intros y. rewrite Hins, elem_of_cons, Hmem. unfold block_is.
        case_decide as Hd; [subst; naive_solver|naive_solver].
    + rewrite list_lookup_insert_ne by done. intros Hst. destruct (Hfree _ _ Hst) as [Hn Hm]. split; [done|].
      intros y. rewrite Hm, Hins. case_decide as Hd; [|done]. subst y. split; [|intros [_ ?]; congruence].
      intros [Hf _]. by apply Hfun in Hf.
  - split; [done|]. intros y. rewrite Hsub, Hom, Hins. case_decide as Hd; [subst; naive_solver|].
    unfold block_is. naive_solver.
  - intros y. rewrite Hr', Hres, Hins. case_decide as Hd; [subst; naive_solver|]. unfold block_is. naive_solver.
  - split; [done|]. intros y Hy. rewrite Hins. case_decide; [done|].
    destruct (Hsubr y Hy) as [Hy'| ->]; [|done]. apply Hrm in Hy'. exact Hy'.
Qed.

(** Publication: the reserved block becomes outstanding. *)
Lemma inv_publish l x retired :
  ledger_inv g l (Some x) ->
  ledger_inv g (mkLedger (<[Z.to_nat x := Published]> (pl_states l)) (pl_generations l) (pl_free l)
    (pl_outstanding l ++ [x]) (pl_reclaimed l) (pl_allowed l) retired) None.
Proof.
  intros Hl. assert (block_is l x Reserved) as Hx by (by apply (li_reserved _ _ _ Hl)).
  pose proof (block_is_bound _ _ _ _ Hl Hx) as Hb. pose proof (lookup_lt_Some _ _ _ (proj2 Hx)) as Hlt.
  pose proof (fun y t => block_is_insert _ (mkLedger (<[Z.to_nat x := Published]> (pl_states l)) (pl_generations l)
    (pl_free l) (pl_outstanding l ++ [x]) (pl_reclaimed l) (pl_allowed l) retired) x Published y t
    eq_refl ltac:(lia) Hlt) as Hins.
  assert (forall t, block_is l x t -> t = Reserved) as Hfun by (intros t Ht; by eapply block_is_fun).
  destruct Hl as [? ? ? ? Hfree [Ho Hom] Hres [Hr Hrm]]. split; cbn in *; rewrite ?length_insert; try done.
  - intros j st Hst. destruct (Hfree _ _ Hst) as [Hn Hm]. split; [done|].
    intros y. rewrite Hm, Hins. case_decide as Hd; [|done]. subst y. split; [|by intros [? _]].
    intros [Hf _]. by apply Hfun in Hf.
  - assert (x ∉ pl_outstanding l) as Hnx by (rewrite Hom; intros Hf; by apply Hfun in Hf). split.
    + apply list.NoDup_app. split; [done|]. split; [|apply NoDup_singleton].
      intros y Hy ->%list_elem_of_singleton. done.
    + intros y. rewrite elem_of_app, list_elem_of_singleton, Hom, Hins.
      case_decide as Hd; [naive_solver|]. unfold block_is. naive_solver.
  - intros y. rewrite Hins. split; [done|]. case_decide as Hd; [done|]. intros Hy.
    assert (Some x = Some y) by (by apply Hres). congruence.
  - split; [done|]. intros y Hy. rewrite Hins. apply Hrm in Hy. case_decide as Hd; [|exact Hy].
    subst. by apply Hfun in Hy.
Qed.

(** Entries may leave the settlement queue, and the producer may retire. *)
Lemma inv_drop_reclaimed l r reclaimed' retired :
  ledger_inv g l r -> NoDup reclaimed' -> (forall y, y ∈ reclaimed' -> y ∈ pl_reclaimed l) ->
  ledger_inv g (mkLedger (pl_states l) (pl_generations l) (pl_free l) (pl_outstanding l) reclaimed'
    (pl_allowed l) retired) r.
Proof. intros [? ? ? ? Hfree Ho Hres [Hr Hrm]] Hnd Hsub. split; try done. split; [done|]. intros y Hy. by apply Hrm, Hsub. Qed.

(** A block taken off a stack and pushed back leaves the stacks as they were. *)
Lemma free_pop_push (f : list (list Z)) i x stack :
  f !! i = Some (x :: stack) -> <[i := x :: stack]> (<[i := stack]> f) = f.
Proof. intros Hi. rewrite list_insert_insert_eq. by apply list_insert_id. Qed.

(** Each return has room in the settlement queue. *)
Lemma reclaimed_room l r x :
  ledger_inv g l r -> block_is l x Published -> (length (pl_reclaimed l) < Z.to_nat (block_count g))%nat.
Proof.
  intros Hl Hx. pose proof (li_reclaimed _ _ _ Hl) as [Hnd Hsub].
  assert (x ∉ pl_reclaimed l) as Hnx.
  { intros Hin. apply Hsub in Hin. by pose proof (block_is_fun _ _ _ _ Hin Hx). }
  assert (NoDup (x :: pl_reclaimed l)) as Hnd' by (by apply list.NoDup_cons).
  assert (forall y, y ∈ x :: pl_reclaimed l -> 0 <= y < block_count g) as Hall.
  { intros y [->|Hy]%elem_of_cons; [by eapply block_is_bound|]. apply Hsub in Hy. by eapply block_is_bound. }
  assert (length (x :: pl_reclaimed l) <= length (seqZ 0 (block_count g)))%nat as Hlen.
  { apply submseteq_length, NoDup_submseteq; [done|]. intros y Hy. apply elem_of_seqZ. specialize (Hall y Hy). lia. }
  rewrite length_seqZ in Hlen. cbn in Hlen. lia.
Qed.
End LedgerSteps.

(** ** The invariant of a handle *)

(** Producer and consumer cursors: the producer is never more than the descriptor depth ahead of
    the consumption it has verified, and strictly less while a reservation is open. *)
Record cursor_inv (g : PoolGeometry) (h : Handle) : Prop := {
  ci_producer : 0 <= hd_consumed_seen h <= hd_published_local h /\ hd_published_local h <= u64_MAX;
  ci_depth : hd_published_local h - hd_consumed_seen h <= descriptor_depth g;
  ci_open : is_Some (hd_reserved_block h) ->
    hd_published_local h - hd_consumed_seen h < descriptor_depth g /\ hd_published_local h < u64_MAX;
  ci_consumer_cursor : 0 <= hd_consumed_local h <= hd_published_seen h /\ hd_published_seen h <= u64_MAX;
}.

(** How many entries hold a live generation. *)
Definition live_mark (v : Z) : Z := if v =? 0 then 0 else 1.
Definition live_count (live : list Z) : Z := zsum (live_mark <$> live).

Lemma live_count_insert live i v old :
  live !! i = Some old -> live_count (<[i := v]> live) = live_count live - live_mark old + live_mark v.
Proof.
  intros Hi. unfold live_count. rewrite list_fmap_insert.
  rewrite <- (take_drop_middle live i old Hi) at 2. rewrite fmap_app, zsum_app. cbn [fmap list_fmap zsum foldr].
  rewrite insert_take_drop by (rewrite length_fmap; by eapply lookup_lt_Some).
  rewrite zsum_app, <- fmap_take, <- fmap_drop. cbn [zsum foldr]. unfold zsum. lia.
Qed.

Lemma live_count_range live : 0 <= live_count live <= Z.of_nat (length live).
Proof.
  unfold live_count. induction live as [|v live IH]; cbn [fmap list_fmap zsum foldr length]; [done|].
  unfold zsum, live_mark in *. bcase; lia.
Qed.

(** Receiver records: one entry per block; a live generation is one that was accepted. *)
Record receiver_inv (g : PoolGeometry) (h : Handle) : Prop := {
  ri_live : length (hd_live h) = Z.to_nat (block_count g);
  ri_last : length (hd_last_seen h) = Z.to_nat (block_count g);
  ri_order : forall i v s, hd_live h !! i = Some v -> hd_last_seen h !! i = Some s -> 0 <= v <= s /\ s <= u64_MAX;
  ri_count : hd_outstanding_returns h = live_count (hd_live h);
}.

Definition handle_inv (g : PoolGeometry) (h : Handle) : Prop :=
  ledger_inv g (hd_ledger h) (hd_reserved_block h) /\ cursor_inv g h /\ receiver_inv g h.

(** What reclaiming may change: published blocks become free; all else but the latch stays. *)
Record reclaim_frame (h h' : Handle) : Prop := {
  rf_reserved : hd_reserved_block h' = hd_reserved_block h;
  rf_published_local : hd_published_local h' = hd_published_local h;
  rf_consumed_local : hd_consumed_local h' = hd_consumed_local h;
  rf_consumed_seen : hd_consumed_seen h' = hd_consumed_seen h;
  rf_published_seen : hd_published_seen h' = hd_published_seen h;
  rf_live : hd_live h' = hd_live h;
  rf_last_seen : hd_last_seen h' = hd_last_seen h;
  rf_outstanding_returns : hd_outstanding_returns h' = hd_outstanding_returns h;
  rf_producer : hd_producer h' = hd_producer h;
  rf_consumer : hd_consumer h' = hd_consumer h;
  rf_generations : pl_generations (hd_ledger h') = pl_generations (hd_ledger h);
  rf_allowed : pl_allowed (hd_ledger h') = pl_allowed (hd_ledger h);
  rf_retired : pl_retired (hd_ledger h') = pl_retired (hd_ledger h);
  rf_latch : hd_quarantined h = true -> hd_quarantined h' = true;
  rf_states : forall x s, block_is (hd_ledger h') x s ->
    block_is (hd_ledger h) x s \/ (block_is (hd_ledger h) x Published /\ s = Free);
}.

#[global] Instance reclaim_frame_preorder : PreOrder reclaim_frame.
Proof.
  split.
  - intros h. split; auto.
  - intros h1 h2 h3 [] []. split; try congruence; auto.
    intros x s Hx. destruct (rf_states1 _ _ Hx) as [Hx'|[Hx' ->]].
    + by apply rf_states0.
    + right. destruct (rf_states0 _ _ Hx') as [?|[_ ?]]; done.
Qed.

Lemma handle_inv_frame g h h' :
  reclaim_frame h h' -> handle_inv g h -> ledger_inv g (hd_ledger h') (hd_reserved_block h) -> handle_inv g h'.
Proof.
  intros [] (_ & [] & []) Hl. split; [by rewrite rf_reserved0|]. split; split; rewrite
    ?rf_reserved0, ?rf_published_local0, ?rf_consumed_local0, ?rf_consumed_seen0, ?rf_published_seen0, ?rf_live0, ?rf_last_seen0, ?rf_outstanding_returns0; done.
Qed.

Lemma latch_frame h : reclaim_frame h (set_latch true h).
Proof. split; try done. intros x s Hx. by left. Qed.

(** Setting the latch keeps every part of the invariant. *)
Lemma latch_inv g h : handle_inv g h -> handle_inv g (set_latch true h).
Proof. intros (? & [] & []). done. Qed.
#[export] Hint Resolve latch_inv : machine.

Section Specs.
Context (page_size : Z) (b : Backing).
Hypothesis Hb : backing_ok page_size b.
Let g : PoolGeometry := bk_geometry b.
Let Hg : geometry_ok g := bo_geometry _ _ Hb.

Definition reclaimed_to (h h' : Handle) : Prop := handle_inv g h' /\ reclaim_frame h h'.

(** The ledger after one return was taken. *)
Definition freed_ledger (l : ProducerLedger) (x : Z) (i : nat) (stack : list Z) (o : nat) : ProducerLedger :=
  mkLedger (<[Z.to_nat x := Free]> (pl_states l)) (pl_generations l) (<[i := x :: stack]> (pl_free l))
    (swap_remove (pl_outstanding l) o) (pl_reclaimed l ++ [x]) (pl_allowed l) (pl_retired l).

Lemma freed_inv l r x i stack o :
  ledger_inv g l r -> block_is l x Published -> class_of g x = Some i -> pl_free l !! i = Some stack ->
  pl_outstanding l !! o = Some x -> ledger_inv g (freed_ledger l x i stack o) r.
Proof.
  intros Hl Hx Hc Hi Ho. pose proof (swap_remove_perm _ _ _ Ho) as Hp.
  pose proof (li_outstanding _ _ _ Hl) as [Hnd _]. pose proof (li_reclaimed _ _ _ Hl) as [Hndr Hsub].
  rewrite <- Hp in Hnd. apply list.NoDup_cons in Hnd as [Hnx Hnd].
  apply (inv_release_block g Hg l r x Published); try done.
  - split; [done|]. intros y.
    assert (y ∈ pl_outstanding l <-> y ∈ x :: swap_remove (pl_outstanding l) o) as -> by (by rewrite Hp).
    rewrite elem_of_cons. split; [|naive_solver]. intros Hy. split; [by right|]. by intros ->.
  - split.
    + apply list.NoDup_app. split; [done|]. split; [|apply NoDup_singleton].
      intros y Hy ->%list_elem_of_singleton. apply Hsub in Hy. by pose proof (block_is_fun _ _ _ _ Hy Hx).
    + intros y. rewrite elem_of_app, list_elem_of_singleton. naive_solver.
  - intros y. split; [|naive_solver]. intros ->. split; [done|]. intros ->.
    assert (block_is l x Reserved) as Hr by (by apply (li_reserved _ _ _ Hl)).
    by pose proof (block_is_fun _ _ _ _ Hr Hx).
Qed.

Lemma freed_frame h x i stack o :
  block_is (hd_ledger h) x Published ->
  reclaim_frame h (set_ledger (freed_ledger (hd_ledger h) x i stack o) h).
Proof.
  intros Hx. split; try done. intros y s Hy. pose proof (lookup_lt_Some _ _ _ (proj2 Hx)) as Hlt.
  rewrite (block_is_insert (pl_states (hd_ledger h)) _ x Free) in Hy; [|done|apply Hx|done].
  case_decide as Hd; [subst; by right|by left].
Qed.

Lemma completion_validate_cases block completed generation :
  match CompletionRecord_validate (mkCompletion block completed) g (Some generation) with
  | Ok freed => freed = block /\ completed = generation /\ completed <> 0 /\ block < block_count g
  | Err _ => True
  end.
Proof.
  unfold CompletionRecord_validate, try_u32. cbn [cr_block cr_generation].
  destruct (Z.leb_spec block u32_MAX); cbn [ok_or mbind result_bind]; [|done].
  destruct (contains g block) eqn:Ec; cbn [negb]; [|done]. apply contains_iff in Ec.
  repeat (bcase; [done|]). split_and!; (done || lia).
Qed.

Lemma wp_reclaim_block h x flagged :
  0 <= x -> handle_inv g h ->
  wp (reclaim_block b x flagged) (fun _ h' => reclaimed_to h h') (fun _ h' => reclaimed_to h h') h.
Proof.
  intros Hx Hinv. pose proof Hinv as (Hl & Hcur & Hrec).
  assert (reclaimed_to h h) as Hsame by (by split).
  unfold reclaim_block. wp_step. wp_step. bcase; cbn [negb]; [|by apply wp_throw].
  destruct (lookup_lt_is_Some_2 (pl_generations (hd_ledger h)) (Z.to_nat x)) as [gen Hgen]; [lia|].
  wp_step. apply (wp_vec_get _ _ gen); [done|]. wp_step. apply wp_lift.
  destruct (map_err _ _); [|done]. wp_step. wp_step. destruct (_ && _); [by apply wp_ret|].
  pose proof (completion_validate_cases x (sh_completions s x) gen) as Hv. fold g.
  destruct (CompletionRecord_validate _ _ _) as [freed|e]; [|by destruct e; (apply wp_throw || apply wp_ret)].
  destruct Hv as (-> & _ & _ & Hlt).
  destruct (lookup_lt_is_Some_2 (pl_states (hd_ledger h)) (Z.to_nat x)) as [st Hst].
  { rewrite (li_states _ _ _ Hl). fold g in Hlt. lia. }
  wp_step. apply (wp_vec_get _ _ st); [done|]. case_bool_decide as Hp; [subst st|by apply wp_ret].
  assert (block_is (hd_ledger h) x Published) as Hbx by done.
  destruct (class_of_total g Hg x) as [i Hi]; [fold g in Hlt; lia|].
  unfold class_of in Hi. apply fmap_Some in Hi as (p & Hplace & ->).
  wp_step. apply wp_lift. rewrite Hplace. cbn [ok_or]. wp_step. wp_step.
  destruct (position x _) as [o|] eqn:Ho; cbn beta.
  2:{ apply position_None in Ho. exfalso. apply Ho. by apply (li_outstanding _ _ _ Hl). }
  apply position_Some in Ho. wp_step. wp_step. wp_step. apply (wp_set_state _ _ Published); [done|].
  assert (class_of g x = Some (class_index (bp_class p))) as Hc by (unfold class_of; by rewrite Hplace).
  destruct (lookup_lt_is_Some_2 (pl_free (hd_ledger h)) (class_index (bp_class p))) as [stack Hstack].
  { rewrite (li_classes _ _ _ Hl). by eapply (class_of_lt g Hg). }
  wp_step. apply (wp_free_push _ _ stack); [done|]. wp_step. wp_step. cbn [hd_ledger set_ledger pl_reclaimed set_free set_states set_outstanding].
  pose proof (reclaimed_room g Hg _ _ _ Hl Hbx) as Hroom. bcase; [|fold g in Hroom; lia]. wp_step.
  change (reclaimed_to h (set_ledger (freed_ledger (hd_ledger h) x (class_index (bp_class p)) stack o) h)).
  pose proof (freed_frame h x (class_index (bp_class p)) stack o Hbx) as Hframe. split; [|done].
  apply (handle_inv_frame g h); [done|done|]. by apply freed_inv.
Qed.

Lemma reclaimed_trans h1 h2 h3 : reclaimed_to h1 h2 -> reclaimed_to h2 h3 -> reclaimed_to h1 h3.
Proof. intros [_ H1] [H2 H3]. split; [done|]. by transitivity h2. Qed.

Lemma reclaimed_latch h h' : reclaimed_to h h' -> reclaimed_to h (set_latch true h').
Proof. intros [H1 H2]. split; [by apply latch_inv|]. etransitivity; [exact H2|apply latch_frame]. Qed.

Lemma trailing_zeros_nonneg fuel i w : 0 <= i -> 0 <= trailing_zeros fuel i w.
Proof. revert i. induction fuel; intros i Hi; cbn; [done|]. destruct (Z.testbit w i); [done|]. apply IHfuel. lia. Qed.

Lemma flag_bits_nonneg fuel w : Forall (fun bit => 0 <= bit) (flag_bits fuel w).
Proof.
  revert w. induction fuel; intros w; cbn [flag_bits]; [constructor|]. bcase; constructor; [|apply IHfuel].
  by apply (trailing_zeros_nonneg 64).
Qed.

Lemma wp_reclaim_bits h word bits :
  0 <= word -> Forall (fun bit => 0 <= bit) bits -> handle_inv g h ->
  wp (reclaim_bits b word bits) (fun _ h' => reclaimed_to h h') (fun _ h' => reclaimed_to h h') h.
Proof.
  intros Hw Hbits. revert h. induction Hbits as [|bit bits Hbit _ IH]; intros h Hinv; cbn [reclaim_bits].
  - apply wp_ret. by split.
  - wp_step. wp_step. eapply wp_mono; [apply wp_reclaim_block; [unfold RETURN_WORD_BITS; lia|done]| |]; cbn.
    + intros ? h1 H1. eapply wp_mono; [apply IH, H1| |]; intros ? h2 H2; by eapply reclaimed_trans.
    + intros e h1 H1. apply wp_quarantine_with. by apply reclaimed_latch.
Qed.

Lemma wp_reclaim_words n h word :
  0 <= word -> handle_inv g h ->
  wp (reclaim_words b n word) (fun _ h' => reclaimed_to h h') (fun _ h' => reclaimed_to h h') h.
Proof.
  revert h word. induction n as [|n IH]; intros h word Hw Hinv; cbn [reclaim_words]; [apply wp_ret; by split|].
  wp_step. apply wp_lift. destruct (map_err _ _); [|by split]. wp_step. apply wp_atomic. intros s Hs. cbn [fst snd].
  split; [apply shared_ok_return; [mlia|done]|]. wp_step.
  eapply wp_mono; [apply wp_reclaim_bits; [done|apply flag_bits_nonneg|done]| |]; cbn; [|done].
  intros ? h1 H1. eapply wp_mono; [apply (IH h1 (word + 1)); [lia|apply H1]| |];
    intros ? h2 H2; by eapply reclaimed_trans.
Qed.

Lemma wp_reclaim_completions h :
  handle_inv g h ->
  wp (reclaim_completions b) (fun _ h' => reclaimed_to h h') (fun _ h' => reclaimed_to h h') h.
Proof. intros. by apply wp_reclaim_words. Qed.

Lemma wp_reclaim_scan fuel index h :
  handle_inv g h ->
  wp (reclaim_scan b fuel index) (fun _ h' => reclaimed_to h h') (fun _ h' => reclaimed_to h h') h.
Proof.
  revert index h. induction fuel as [|fuel IH]; intros index h Hinv; cbn [reclaim_scan]; wp_step; wp_step;
    destruct (pl_outstanding (hd_ledger h) !! index) as [x|] eqn:Ex; try (apply wp_ret; by split).
  assert (0 <= x) as Hx.
  { apply list_elem_of_lookup_2 in Ex. apply (li_outstanding _ _ _ (proj1 Hinv)) in Ex. apply Ex. }
  wp_step. wp_step. eapply wp_mono; [by apply wp_reclaim_block| |]; cbn.
  - intros ? h1 H1. wp_step. wp_step. eapply wp_mono; [apply IH, H1| |]; intros ? h2 H2; by eapply reclaimed_trans.
  - intros e h1 H1. apply wp_quarantine_with. by apply reclaimed_latch.
Qed.

Lemma wp_reclaim_all h :
  handle_inv g h ->
  wp (reclaim_all_completions b) (fun _ h' => reclaimed_to h h') (fun _ h' => reclaimed_to h h') h.
Proof. intros. unfold reclaim_all_completions. wp_step. wp_step. by apply wp_reclaim_scan. Qed.

(** ** Reservation *)
Lemma class_for_Some inventory bound c :
  class_for g inventory bound = Some c ->
  (class_index c < CLASS_COUNT)%nat /\
  exists spec, pg_classes g !! class_index c = Some spec /\ bound <= ClassSpec_body_capacity spec.
Proof.
  intros Hc. assert (exists spec, pg_classes g !! class_index c = Some spec /\ bound <= ClassSpec_body_capacity spec)
    as (spec & Hs & Hb').
  { unfold class_for in Hc. destruct inventory.
    - unfold ordinary_class_for in Hc. apply fmap_Some in Hc as (j & Hf & ->).
      apply find_class_Some in Hf as (i & spec & -> & Hi & Hle & _). apply lookup_take_Some in Hi as [Hi _].
      by exists spec.
    - destruct (geometry_class g Control) as [spec|] eqn:Hs; [|done]. cbn in Hc. bcase; [|done].
      injection Hc as <-. by exists spec.
    - destruct (geometry_class g Terminal) as [spec|] eqn:Hs; [|done]. cbn in Hc. bcase; [|done].
      injection Hc as <-. by exists spec. }
  split; [|by exists spec]. apply lookup_lt_Some in Hs. by rewrite (go_length _ Hg) in Hs.
Qed.

Lemma class_of_placement x i spec :
  0 <= x -> class_of g x = Some i -> pg_classes g !! i = Some spec ->
  exists p, placement g x = Some p /\ BlockPlacement_body_capacity p = ClassSpec_body_capacity spec.
Proof.
  intros Hx Hc Hs. destruct (class_of_lt g Hg x i Hx Hc) as [_ Hlt].
  destruct (placement_Some g x) as (p & j & Hp & _ & _ & Hbytes & Hj & _); [done|lia|]. exists p. split; [done|].
  unfold class_of in Hc. rewrite Hp in Hc. cbn in Hc. injection Hc as <-.
  apply class_from_index_Some in Hj as [Hj _]. rewrite Hj in Hs. rewrite Hs in Hbytes. cbn in Hbytes.
  injection Hbytes as Hbytes. unfold BlockPlacement_body_capacity, ClassSpec_body_capacity. by rewrite Hbytes.
Qed.

(** A granted reservation: a block that was free (or had just been returned), its next
    generation, room for the caller's bound, and descriptor headroom for the inventory. *)
Record reserved_to (h : Handle) (inventory : Inventory) (bound : Z) (header : list Z)
    (r : ProducerReservation) (h' : Handle) : Prop := {
  rt_none : hd_reserved_block h = None;
  rt_usable : hd_quarantined h = false /\ pl_allowed (hd_ledger h) = true /\ pl_retired (hd_ledger h) = false;
  rt_block : hd_reserved_block h' = Some (pr_block r);
  rt_was : block_is (hd_ledger h) (pr_block r) Free \/ block_is (hd_ledger h) (pr_block r) Published;
  rt_now : block_is (hd_ledger h') (pr_block r) Reserved;
  rt_generation : exists old, pl_generations (hd_ledger h) !! Z.to_nat (pr_block r) = Some old /\
    pr_generation r = old + 1 /\ pr_generation r <= u64_MAX /\
    pl_generations (hd_ledger h') = <[Z.to_nat (pr_block r) := pr_generation r]> (pl_generations (hd_ledger h));
  rt_class : class_for g inventory bound = Some (pr_class r) /\ class_of g (pr_block r) = Some (class_index (pr_class r));
  rt_bound : bound <= MAX_FRAME_BYTES /\
    exists p, placement g (pr_block r) = Some p /\ bound <= BlockPlacement_body_capacity p;
  rt_fields : pr_capacity r = bound /\ pr_cursor r = 0 /\ pr_wire_header r = header /\ pr_finished r = false;
  rt_headroom : hd_published_local h' = hd_published_local h /\
    hd_published_local h' - hd_consumed_seen h' < descriptor_limit b inventory;
  rt_receiver : hd_live h' = hd_live h /\ hd_last_seen h' = hd_last_seen h /\
    hd_consumed_local h' = hd_consumed_local h;
}.

(** A refused reservation charges nothing: no block is reserved, no generation is burned, and
    the only block transitions are returns. *)
Record refused_to (h h' : Handle) : Prop := {
  rr_inv : handle_inv g h';
  rr_reserved : hd_reserved_block h' = hd_reserved_block h;
  rr_published : hd_published_local h' = hd_published_local h;
  rr_generations : pl_generations (hd_ledger h') = pl_generations (hd_ledger h);
  rr_live : hd_live h' = hd_live h;
  rr_last : hd_last_seen h' = hd_last_seen h;
  rr_consumed : hd_consumed_local h' = hd_consumed_local h;
  rr_latch : hd_quarantined h = true -> hd_quarantined h' = true;
  rr_states : forall x s, block_is (hd_ledger h') x s ->
    block_is (hd_ledger h) x s \/ (block_is (hd_ledger h) x Published /\ s = Free);
}.

Lemma reclaimed_refused h h' : reclaimed_to h h' -> refused_to h h'.
Proof. intros [Hinv []]. by split. Qed.

Lemma refused_latch h h' : refused_to h h' -> refused_to h (set_latch true h').
Proof. intros []. split; try done. by apply latch_inv. Qed.

Lemma limit_le_depth inventory : descriptor_limit b inventory <= descriptor_depth g.
Proof.
  pose proof (go_reserved _ Hg). unfold descriptor_limit. fold g. rewrite (descriptor_depth_sum g Hg).
  destruct inventory; lia.
Qed.

Lemma wp_descriptors_outstanding h (Q : Z -> Handle -> Prop) (R : RingError -> Handle -> Prop) :
  (forall consumed, hd_consumed_seen h <= consumed <= hd_published_local h ->
     Q (hd_published_local h - consumed) (set_consumed_seen consumed h)) ->
  (forall e, R e h) -> wp (descriptors_outstanding b) Q R h.
Proof.
  intros HQ HR. unfold descriptors_outstanding. wp_step. wp_step. wp_step. apply wp_lift.
  destruct (map_err _ _); [|done]. wp_step. wp_step.
  destruct (Z.ltb_spec (sh_consumed s) (hd_consumed_seen h)); cbn [orb]; [by apply wp_throw|].
  bcase; [by apply wp_throw|]. wp_step. wp_step. apply wp_ret. by apply HQ.
Qed.

Lemma seen_inv h consumed :
  handle_inv g h -> hd_reserved_block h = None -> hd_consumed_seen h <= consumed <= hd_published_local h ->
  handle_inv g (set_consumed_seen consumed h).
Proof.
  intros (Hl & [] & Hr) Hnone Hc. split; [done|]. split; [|by destruct Hr].
  split; cbn; rewrite ?Hnone; try done; try lia.
Qed.

Lemma wp_forget_reclaimed {E} h x Q (R : E -> Handle -> Prop) :
  NoDup (pl_reclaimed (hd_ledger h)) ->
  (forall rc, NoDup rc -> (forall y, y ∈ rc -> y ∈ pl_reclaimed (hd_ledger h) /\ y <> x) ->
     Q () (set_ledger (set_reclaimed rc (hd_ledger h)) h)) ->
  wp (match position x (pl_reclaimed (hd_ledger h)) with
      | Some i => put_ledger (set_reclaimed (swap_remove (pl_reclaimed (hd_ledger h)) i) (hd_ledger h))
      | None => mret ()
      end) Q R h.
Proof.
  intros Hnd HQ. destruct (position x _) as [i|] eqn:Hi.
  - apply position_Some in Hi. pose proof (swap_remove_perm _ _ _ Hi) as Hp. wp_step. rewrite <- Hp in Hnd.
    apply list.NoDup_cons in Hnd as [Hnx Hnd]. apply HQ; [done|]. intros y Hy. split; [|by intros ->].
    enough (y ∈ x :: swap_remove (pl_reclaimed (hd_ledger h)) i) as Hin by (by rewrite Hp in Hin). by right.
  - apply position_None in Hi. apply wp_ret.
    enough (Q () (set_ledger (set_reclaimed (pl_reclaimed (hd_ledger h)) (hd_ledger h)) h)) as HQ'
      by (by destruct h as [? []]).
    apply HQ; [done|]. intros y Hy. split; [done|]. by intros ->.
Qed.

(** The part of [try_reserve_in] after the checks: pop, burn a generation, record. *)
Lemma wp_take_block h1 h2 bound header class x rest (Q : ProducerReservation -> Handle -> Prop)
    (R : ProducerError -> Handle -> Prop) :
  handle_inv g h2 -> hd_reserved_block h2 = None -> 
  pl_free (hd_ledger h2) !! class_index class = Some (x :: rest) ->
  (forall e h', refused_to h2 h' -> R e h') ->
  (forall generation h' old, pl_generations (hd_ledger h2) !! Z.to_nat x = Some old -> generation = old + 1 ->
     generation <= u64_MAX -> ledger_inv g (hd_ledger h') (Some x) -> hd_reserved_block h' = Some x ->
     hd_published_local h' = hd_published_local h2 -> hd_consumed_seen h' = hd_consumed_seen h2 ->
     hd_consumed_local h' = hd_consumed_local h2 -> hd_published_seen h' = hd_published_seen h2 ->
     hd_live h' = hd_live h2 -> hd_last_seen h' = hd_last_seen h2 ->
     hd_outstanding_returns h' = hd_outstanding_returns h2 ->
     pl_generations (hd_ledger h') = <[Z.to_nat x := generation]> (pl_generations (hd_ledger h2)) ->
     Q (mkReservation x generation class bound 0 header false) h') ->
  h1 = set_ledger (set_free (<[class_index class := rest]> (pl_free (hd_ledger h2))) (hd_ledger h2)) h2 ->
  wp (l ← get_ledger;
      _ ← match position x (pl_reclaimed l) with
          | Some i => put_ledger (set_reclaimed (swap_remove (pl_reclaimed l) i) l)
          | None => mret ()
          end;
      l ← get_ledger;
      last_generation ← vec_get (pl_generations l) x;
      match checked_add u64_MAX last_generation 1 with
      | None =>
          _ ← free_push (class_index class) x;
          l ← get_ledger; _ ← put_ledger (set_retired true l); throw PE_Retired
      | Some generation =>
          _ ← map_errM (quarantine_pe b) (lift (map_err from_mapping (completion b x)));
          cell ← load (fun s => sh_completions s x);
          if generation <=? cell then
            _ ← free_push (class_index class) x;
            e ← quarantine_with b (RE_Descriptor FutureCompletion);
            throw (PE_Ring e)
          else
            _ ← set_generation_of x generation;
            _ ← set_state_of x Reserved;
            _ ← modify_handle (set_reserved (Some x));
            _ ← modify_handle (set_producer true);
            mret (mkReservation x generation class bound 0 header false)
      end) Q R h1.
Proof.
  intros Hinv Hnone Hfree HR HQ ->. pose proof Hinv as (Hl & Hcur & Hrec). rewrite Hnone in Hl.
  pose proof (li_free _ _ _ Hl _ _ Hfree) as [_ Hmem]. destruct (proj1 (Hmem x) ltac:(left)) as [Hx Hcx].
  pose proof (block_is_bound g Hg _ _ _ _ Hl Hx) as Hbx. pose proof (lookup_lt_Some _ _ _ Hfree) as Hi.
  wp_step. wp_step. wp_step. apply wp_forget_reclaimed; [apply (li_reclaimed _ _ _ Hl)|]. cbn.
  intros rc Hrc Hsub. wp_step. wp_step. cbn.
  destruct (lookup_lt_is_Some_2 (pl_generations (hd_ledger h2)) (Z.to_nat x)) as [old Hold].
  { rewrite (li_length _ _ _ Hl). fold g. lia. }
  pose proof (Forall_lookup_1 _ _ _ _ (li_generations _ _ _ Hl) Hold) as Hu.
  wp_step. apply (wp_vec_get _ _ old); [done|].
  assert (forall retired, refused_to h2 (set_ledger (mkLedger (pl_states (hd_ledger h2)) (pl_generations (hd_ledger h2))
      (pl_free (hd_ledger h2)) (pl_outstanding (hd_ledger h2)) rc (pl_allowed (hd_ledger h2)) retired) h2)) as Hback.
  { intros retired. split; try done.
    - split; [|by split; destruct Hcur, Hrec]. cbn. rewrite Hnone. apply inv_drop_reclaimed; [done|done|].
      intros y Hy. by apply Hsub.
    - intros y s Hy. by left. }
  destruct (checked_add u64_MAX old 1) as [generation|] eqn:Hadd.
  - apply checked_add_Some in Hadd as [-> Hmax]. wp_step. wp_step. apply wp_lift.
    rewrite (completion_accessor _ _ Hb) by lia. destruct (Z.ltb_spec x (block_count (bk_geometry b))); [|exfalso; fold g in H; lia].
    cbn [map_err]. wp_step. wp_step. bcase.
    + wp_step. apply (wp_free_push _ _ rest).
      { cbn. by rewrite list_lookup_insert_eq by done. }
      wp_step. apply wp_quarantine_with. wp_step. apply HR, refused_latch. cbn. rewrite (free_pop_push _ _ _ _ Hfree).
      specialize (Hback (pl_retired (hd_ledger h2))). exact Hback.
    + wp_step. apply (wp_set_generation _ _ old); [done|]. wp_step. apply (wp_set_state _ _ Free); [apply Hx|].
      wp_step. wp_step. wp_step. wp_step. wp_step.
      apply (HQ (old + 1) _ old); try done.
      apply (inv_reserve g Hg (hd_ledger h2)); try done. mlia.
  - wp_step. apply (wp_free_push _ _ rest).
    { cbn. by rewrite list_lookup_insert_eq by done. }
    wp_step. wp_step. wp_step. wp_step. wp_step. apply HR. cbn. rewrite (free_pop_push _ _ _ _ Hfree).
    exact (Hback true).
Qed.

Lemma refused_seen h h' consumed :
  reclaimed_to h h' -> hd_reserved_block h' = None -> hd_consumed_seen h' <= consumed <= hd_published_local h' ->
  refused_to h (set_consumed_seen consumed h').
Proof.
  intros [Hinv []] Hnone Hc. split; try done. by apply seen_inv.
Qed.

Lemma refused_refused h1 h2 h3 : refused_to h1 h2 -> refused_to h2 h3 -> refused_to h1 h3.
Proof.
  intros [? ? ? ? ? ? ? ? Hs1] [? ? ? ? ? ? ? ? Hs2]. split; try congruence; auto.
  intros x s Hx. destruct (Hs2 _ _ Hx) as [Hx'|[Hx' ->]]; [by apply Hs1|].
  right. destruct (Hs1 _ _ Hx') as [?|[_ ?]]; done.
Qed.

Lemma refused_retired h h' :
  refused_to h h' -> refused_to h (set_ledger (set_retired true (hd_ledger h')) h').
Proof.
  intros [(Hl & Hc & Hr) ? ? ? ? ? ? ? ?]. split; try done. split; [|by destruct Hc, Hr].
  cbn. apply (inv_drop_reclaimed g _ _ _ true Hl); [apply Hl|done].
Qed.

Lemma wp_try_reserve h inventory bound header :
  handle_inv g h ->
  wp (try_reserve_in b inventory bound header)
    (fun r h' => handle_inv g h' /\ reserved_to h inventory bound header r h')
    (fun _ h' => refused_to h h') h.
Proof.
  intros Hinv. assert (refused_to h h) as Hsame by (by apply reclaimed_refused).
  unfold try_reserve_in. bcase; [by apply wp_throw|]. wp_step.
  apply wp_is_quarantined; [intros Hq|by apply wp_throw, refused_latch]. wp_step. wp_step.
  case_bool_decide as Hres; [by apply wp_throw|]. apply eq_None_not_Some in Hres.
  destruct (pl_allowed (hd_ledger h)) eqn:Hallow; cbn [negb]; [|by apply wp_throw].
  destruct (pl_retired (hd_ledger h)) eqn:Hret; [by apply wp_throw|]. wp_step. wp_step.
  eapply wp_mono; [by apply wp_reclaim_completions| |]; cbn beta.
  2:{ intros e h1 H1. apply wp_ret. by apply reclaimed_refused. }
  intros _ h1 H1. pose proof H1 as [Hinv1 Hf]. assert (hd_reserved_block h1 = None) as Hn1 by (rewrite (rf_reserved _ _ Hf); done).
  wp_step. apply wp_lift. fold g. destruct (class_for g inventory bound) as [class|] eqn:Hclass; cbn [ok_or]; [|by apply reclaimed_refused].
  wp_step. wp_step. apply wp_descriptors_outstanding; [|intros e; by apply wp_quarantine_pe, refused_latch, reclaimed_refused].
  intros consumed Hc. pose proof (refused_seen _ _ _ H1 Hn1 Hc) as Href. bcase; [by apply wp_throw|].
  wp_step. wp_step. cbn [hd_published_local set_consumed_seen]. bcase.
  { wp_step. wp_step. wp_step. wp_step. wp_step. by apply refused_retired. }
  pose proof (seen_inv _ _ Hinv1 Hn1 Hc) as Hinv2. pose proof Hinv2 as (Hl2 & Hc2 & Hr2).
  destruct (class_for_Some _ _ _ Hclass) as [Hci (spec & Hspec & Hcap)].
  destruct (lookup_lt_is_Some_2 (pl_free (hd_ledger h1)) (class_index class)) as [stack Hstack].
  { pose proof (li_classes _ _ _ Hl2) as Hlen. cbn in Hlen. by rewrite Hlen. }
  wp_step. apply (wp_free_pop _ stack); [done|intros _; by apply wp_throw|]. intros x rest ->.
  pose proof (li_free _ _ _ Hl2 _ _ Hstack) as [_ Hmem]. destruct (proj1 (Hmem x) ltac:(left)) as [Hx Hcx].
  destruct (class_of_placement x _ _ (proj1 Hx) Hcx Hspec) as (p & Hp & Hpc).
  eapply (wp_take_block _ (set_consumed_seen consumed h1)); try done.
  - intros e h' Href'. by eapply refused_refused.
  - intros generation h' old Hold -> Hmax Hl' Hres' E1 E2 E3 E4 E5 E6 E7 Hgen. cbn in *.
    assert (block_is (hd_ledger h') x Reserved) as Hnow by (by apply (li_reserved _ _ _ Hl')).
    assert (0 <= hd_published_local h1 <= u64_MAX) as Hpl by (destruct Hinv1 as (_ & [] & _); lia).
    pose proof (limit_le_depth inventory).
    split.
    + split; [by rewrite Hres'|]. split.
      * destruct Hc2. split; cbn in *; rewrite ?E1, ?E2, ?E3, ?E4; try done. intros _. lia.
      * destruct Hr2. split; cbn in *; rewrite ?E5, ?E6, ?E7; done.
    + split; cbn; try done.
      * destruct (rf_states _ _ Hf x Free Hx) as [?|[? _]]; [by left|by right].
      * exists old. rewrite <- (rf_generations _ _ Hf). done.
      * split; [lia|]. exists p. rewrite Hpc. done.
      * rewrite E1, E2. split; [apply (rf_published_local _ _ Hf)|lia].
      * rewrite E3, E5, E6. by destruct Hf.
Qed.

(** ** Abort and publication *)

(** Aborting the open reservation frees its block and keeps the burned generation; aborting
    anything else changes nothing. *)
Record aborted_to (h : Handle) (x : Z) (h' : Handle) : Prop := {
  at_inv : handle_inv g h';
  at_open : hd_reserved_block h = Some x -> hd_reserved_block h' = None /\ block_is (hd_ledger h') x Free;
  at_other : hd_reserved_block h <> Some x -> h' = h;
  at_generations : pl_generations (hd_ledger h') = pl_generations (hd_ledger h);
  at_latch : hd_quarantined h' = hd_quarantined h;
  at_cursors : hd_published_local h' = hd_published_local h /\ hd_consumed_local h' = hd_consumed_local h;
  at_receiver : hd_live h' = hd_live h /\ hd_last_seen h' = hd_last_seen h /\
    hd_outstanding_returns h' = hd_outstanding_returns h;
}.

Lemma wp_abort {E} h x (R : E -> Handle -> Prop) :
  handle_inv g h -> wp (abort_reservation b x) (fun _ h' => aborted_to h x h') R h.
Proof.
  intros Hinv. pose proof Hinv as (Hl & Hcur & Hrec). unfold abort_reservation. wp_step. wp_step.
  case_bool_decide as Hr; cbn [negb]; [|apply wp_ret; by split].
  assert (block_is (hd_ledger h) x Reserved) as Hx by (by apply (li_reserved _ _ _ Hl)).
  pose proof (block_is_bound g Hg _ _ _ _ Hl Hx) as Hbx.
  wp_step. wp_step. wp_step. wp_step. wp_step. apply (wp_vec_get _ _ Reserved); [apply Hx|].
  rewrite bool_decide_eq_true_2 by done. cbn [negb].
  destruct (class_of_total g Hg x Hbx) as [i Hi]. pose proof Hi as Hi'. unfold class_of in Hi'. fold g.
  apply fmap_Some in Hi' as (p & Hp & ->). rewrite Hp.
  destruct (lookup_lt_is_Some_2 (pl_free (hd_ledger h)) (class_index (bp_class p))) as [stack Hstack].
  { rewrite (li_classes _ _ _ Hl). by eapply (class_of_lt g Hg x); [lia|]. }
  wp_step. apply (wp_set_state _ _ Reserved); [apply Hx|]. apply (wp_free_push _ _ stack); [done|]. cbn.
  assert (ledger_inv g (mkLedger (<[Z.to_nat x := Free]> (pl_states (hd_ledger h))) (pl_generations (hd_ledger h))
    (<[class_index (bp_class p) := x :: stack]> (pl_free (hd_ledger h))) (pl_outstanding (hd_ledger h))
    (pl_reclaimed (hd_ledger h)) (pl_allowed (hd_ledger h)) (pl_retired (hd_ledger h))) None) as Hl'.
  { pose proof (li_outstanding _ _ _ Hl) as [Hnd Hmem].
    apply (inv_release_block g Hg _ (Some x) x Reserved); try done; [by rewrite <- Hr| | |].
    - split; [done|]. intros y. split; [|naive_solver]. intros Hy. split; [done|]. intros ->.
      apply Hmem in Hy. by pose proof (block_is_fun _ _ _ _ Hy Hx).
    - split; [apply Hl|]. auto.
    - intros y. split; [done|]. intros [[= ->] ?]. done. }
  split; try done.
  - split; [done|]. split; [|by destruct Hrec]. destruct Hcur. split; try done. by intros [? ?].
  - intros _. split; [done|]. split; [lia|]. cbn. apply list_lookup_insert_eq. by eapply lookup_lt_Some, Hx.
Qed.

(** What a commit leaves behind: the reservation either still open, or published. *)
Record committed_to (h : Handle) (x : Z) (published : bool) (h' : Handle) : Prop := {
  ct_inv : handle_inv g h';
  ct_generations : pl_generations (hd_ledger h') = pl_generations (hd_ledger h);
  ct_consumed : hd_consumed_local h' = hd_consumed_local h;
  ct_latch : hd_quarantined h = true -> hd_quarantined h' = true;
  ct_receiver : hd_live h' = hd_live h /\ hd_last_seen h' = hd_last_seen h /\
    hd_outstanding_returns h' = hd_outstanding_returns h;
  ct_block : if published
    then hd_reserved_block h' = None /\ block_is (hd_ledger h') x Published /\
         hd_published_local h' = hd_published_local h + 1
    else hd_reserved_block h' = Some x /\ block_is (hd_ledger h') x Reserved /\
         hd_published_local h' = hd_published_local h;
}.

Lemma committed_latch h x p h' : committed_to h x p h' -> committed_to h x p (set_latch true h').
Proof. intros []. split; try done. by apply latch_inv. Qed.

Lemma published_inv h x :
  handle_inv g h -> hd_reserved_block h = Some x ->
  committed_to h x true
    (set_reserved None (set_ledger (set_outstanding (pl_outstanding (hd_ledger h) ++ [x])
       (set_states (<[Z.to_nat x := Published]> (pl_states (hd_ledger h))) (hd_ledger h)))
       (set_published_local (hd_published_local h + 1) h))).
Proof.
  intros (Hl & Hcur & Hrec) Hr. pose proof Hl as Hl0. rewrite Hr in Hl.
  assert (block_is (hd_ledger h) x Reserved) as Hx by (by apply (li_reserved _ _ _ Hl)).
  split; try done.
  - split; [|split; [|by destruct Hrec]].
    + cbn. by apply (inv_publish g Hg (hd_ledger h) x (pl_retired (hd_ledger h))).
    + destruct Hcur as [? ? Ho ?]. rewrite Hr in Ho. destruct Ho as [Ho1 Ho2]; [by eexists|].
      split; cbn; try lia; try done.
  - cbn. split; [done|]. split; [|done]. split; [apply Hx|]. cbn. apply list_lookup_insert_eq.
    by eapply lookup_lt_Some, Hx.
Qed.

Lemma wp_publish h x generation body_len header :
  handle_inv g h -> hd_reserved_block h = Some x -> is_u64 generation -> is_u64 body_len -> Forall is_u8 header ->
  is_ok (check_wire_header header body_len) = true ->
  wp (publish_commit b x generation body_len header)
    (fun id h' => committed_to h x true h' /\ id = mkIdentity (bk_incarnation b) (bk_lane b) x generation)
    (fun _ h' => hd_quarantined h' = true /\ exists p, committed_to h x p h') h.
Proof.
  intros Hinv Hr Hgen Hlen Hhdr Hcheck. pose proof Hinv as (Hl & Hcur & Hrec). pose proof Hl as Hl0. rewrite Hr in Hl.
  assert (block_is (hd_ledger h) x Reserved) as Hx by (by apply (li_reserved _ _ _ Hl)).
  pose proof (block_is_bound g Hg _ _ _ _ Hl Hx) as Hbx.
  assert (committed_to h x false h) as Hopen by (by split).
  destruct Hcur as [Hp Hd Ho Hcc]. destruct Ho as [Ho1 Ho2]; [rewrite Hr; by eexists|].
  unfold publish_commit. wp_step. apply wp_lift. destruct (check_wire_header header body_len); cbn [map_err]; [|done].
  wp_step. wp_step. rewrite checked_add_ok by lia. fold g.
  assert (is_u64 (hd_published_local h + 1)) as Hseq by mlia. assert (is_u64 x) as Hux
    by (pose proof (block_count_range g Hg); unfold MAX_BLOCKS in *; mlia).
  wp_step. wp_step. apply wp_lift. destruct (slot b _); cbn [map_err].
  2:{ apply wp_quarantine_pe. split; [done|]. exists false. by apply committed_latch. }
  wp_step. wp_step. apply wp_lift. rewrite (proj1 (control_pages _ _ Hb)). cbn [map_err].
  destruct (placement_Some g x Hg Hbx) as (p & _ & Hpl & _).
  wp_step. wp_step. apply wp_lift. rewrite (header_ptr_ok _ _ Hb x p) by (done || lia). cbn [map_err].
  wp_step. apply wp_store.
  { intros s Hs. apply shared_ok_arena; [|done]. apply copy_in_bytes; [by apply mem_of_bytes|apply Hs|done]. }
  do 4 (wp_step; apply wp_store; [intros s Hs; destruct (so_slots _ Hs ((hd_published_local h + 1 - 1) mod descriptor_depth g)) as (? & ? & ? & ?);
    apply shared_ok_slot; done|]).
  wp_step. apply wp_atomic. intros s Hs.
  destruct (Z.eqb_spec (sh_published s) (hd_published_local h)); cbn [fst snd negb]; (split; [auto with machine|]).
  2:{ wp_step. apply wp_quarantine_with. wp_step. split; [done|]. exists false. by apply committed_latch. }
  wp_step. wp_step. wp_step. apply (wp_set_state _ _ Reserved); [apply Hx|]. wp_step. wp_step. wp_step. wp_step.
  wp_step. wp_step. wp_step. wp_step. cbn.
  pose proof (published_inv h x Hinv Hr) as Hpub. apply wp_signal_data_wake.
  - wp_step. apply wp_is_quarantined.
    + intros _. apply wp_ret. done.
    + apply wp_throw. split; [done|]. exists true. by apply committed_latch.
  - intros err. wp_step. apply wp_enter_quarantine. wp_step. split; [done|]. exists true. by apply committed_latch.
Qed.

(** ** Receive and return *)
Definition lease_ok (l : PayloadLease) : Prop :=
  0 <= le_block l < block_count g /\ 0 < le_generation l <= u64_MAX /\ le_returned l = false /\
  0 <= le_body_len l <= MAX_FRAME_BYTES /\
  (exists p, placement g (le_block l) = Some p /\ le_body_len l <= BlockPlacement_body_capacity p) /\
  length (le_wire_header l) = 20%nat /\ from_le_bytes (take 4 (le_wire_header l)) = le_body_len l.

(** What receiving one frame changes. *)
Record received_to (h : Handle) (l : PayloadLease) (h' : Handle) : Prop := {
  vt_inv : handle_inv g h';
  vt_lease : lease_ok l;
  vt_latch : hd_quarantined h' = false;
  vt_consumed : hd_consumed_local h' = hd_consumed_local h + 1;
  vt_was : live_generation h (le_block l) = Some 0 /\
    exists seen, last_seen_generation h (le_block l) = Some seen /\ seen < le_generation l;
  vt_live : hd_live h' = <[Z.to_nat (le_block l) := le_generation l]> (hd_live h);
  vt_last : hd_last_seen h' = <[Z.to_nat (le_block l) := le_generation l]> (hd_last_seen h);
  vt_count : hd_outstanding_returns h' = wrapping_add u64_MAX (hd_outstanding_returns h) 1;
  vt_ledger : hd_ledger h' = hd_ledger h;
  vt_producer : hd_reserved_block h' = hd_reserved_block h /\ hd_published_local h' = hd_published_local h /\
    hd_consumed_seen h' = hd_consumed_seen h;
}.

(** What an operation that neither reserves nor receives keeps. *)
Record kept_to (h h' : Handle) : Prop := {
  kt_inv : handle_inv g h';
  kt_ledger : hd_ledger h' = hd_ledger h;
  kt_reserved : hd_reserved_block h' = hd_reserved_block h;
  kt_published : hd_published_local h' = hd_published_local h;
  kt_live : hd_live h' = hd_live h;
  kt_count : hd_outstanding_returns h' = hd_outstanding_returns h;
  kt_consumed : hd_consumed_local h <= hd_consumed_local h';
  kt_latch : hd_quarantined h = true -> hd_quarantined h' = true;
}.

Lemma kept_latch h h' : kept_to h h' -> kept_to h (set_latch true h').
Proof. intros []. split; try done. by apply latch_inv. Qed.

Lemma wp_verified_published h (Q : Z -> Handle -> Prop) (R : RingError -> Handle -> Prop) :
  (forall published, hd_consumed_local h <= published <= u64_MAX -> hd_published_seen h <= published ->
     published - hd_consumed_local h <= descriptor_depth g -> Q published (set_published_seen published h)) ->
  (forall e, R e h) -> wp (verified_published b (hd_consumed_local h)) Q R h.
Proof.
  intros HQ HR. unfold verified_published. wp_step. apply wp_lift. rewrite (proj1 (control_pages _ _ Hb)).
  cbn [map_err]. wp_step. wp_step. pose proof (so_published _ Hs) as Hu.
  wp_step. apply wp_lift. destruct (checked_sub _ _) as [queued|] eqn:Hsub; cbn [ok_or]; [|done].
  apply checked_sub_Some in Hsub as [-> Hle]. wp_step. wp_step. fold g.
  destruct (Z.ltb_spec (sh_published s) (hd_published_seen h)); cbn [orb]; [by apply wp_throw|].
  bcase; [by apply wp_throw|]. wp_step. wp_step. apply wp_ret. apply HQ; (done || mlia).
Qed.

Lemma published_seen_inv h published :
  handle_inv g h -> hd_consumed_local h <= published <= u64_MAX -> handle_inv g (set_published_seen published h).
Proof.
  intros (Hl & [] & Hr) Hp. split; [done|]. split; [|by destruct Hr]. split; cbn; try done. lia.
Qed.

(** The validated descriptor of an arbitrary slot. *)
Lemma validated_fields d sequence v :
  descriptor_range d -> PoolDescriptor_validate d sequence g = Ok v ->
  0 <= vd_block v < block_count g /\ 0 < vd_generation v <= u64_MAX /\ 0 <= vd_body_len v <= MAX_FRAME_BYTES /\
  placement g (vd_block v) = Some (vd_placement v) /\ vd_body_len v <= BlockPlacement_body_capacity (vd_placement v).
Proof.
  intros [_ Hbl Hgen Hbody] Hv. unfold PoolDescriptor_validate in Hv.
  destruct (_ || _); [done|]. destruct (try_u32 (pd_block d)) as [x|] eqn:Hx; [|done].
  apply try_u32_Some in Hx as [-> Hx]. cbn [ok_or mbind result_bind] in Hv.
  destruct (placement g (pd_block d)) as [p|] eqn:Hp; [|done]. cbn [ok_or mbind result_bind] in Hv.
  repeat (bcase; [done|]). destruct (ok_or _ DescriptorOverflow) eqn:Hov in Hv; [|done]. injection Hv as <-. cbn.
  pose proof (placement_arena g _ _ Hg (proj1 Hbl) Hp) as (_ & _ & ?). munfold. split_and!; (done || lia).
Qed.

Lemma wp_copy_descriptor i (Q : PoolDescriptor -> Handle -> Prop) (R : RingError -> Handle -> Prop) h :
  (forall d, descriptor_range d -> Q d h) -> wp (copy_descriptor i) Q R h.
Proof.
  intros HQ. unfold copy_descriptor. do 8 wp_step. apply wp_ret. apply HQ.
  destruct (so_slots _ Hs i) as (? & _), (so_slots _ Hs0 i) as (_ & ? & _), (so_slots _ Hs1 i) as (_ & _ & ? & _),
    (so_slots _ Hs2 i) as (_ & _ & _ & ?). by split.
Qed.

Lemma received_inv h l published :
  handle_inv g h -> lease_ok l -> hd_quarantined h = false ->
  hd_consumed_local h < published <= u64_MAX ->
  live_generation h (le_block l) = Some 0 ->
  (exists seen, last_seen_generation h (le_block l) = Some seen /\ seen < le_generation l) ->
  received_to h l (mark_live (set_consumer true (set_consumed_local (hd_consumed_local h + 1)
    (set_published_seen published h))) (le_block l) (le_generation l)).
Proof.
  intros (Hl & [] & [Hlive Hlast Hord Hcount]) Hle Hq Hp Hwas (seen & Hseen & Hlt).
  pose proof (live_count_range (hd_live h)) as Hcr. pose proof (block_count_range g Hg). unfold MAX_BLOCKS in *.
  unfold mark_live, live_generation, last_seen_generation in *. cbn. rewrite Hwas, Hseen.
  destruct Hle as (Hbl & Hgen & Hrest). split; cbn; try done.
  - split; [done|]. split; [split; cbn; (done || lia)|]. split; cbn; rewrite ?length_insert; try done.
    1: intros i v s; destruct (decide (i = Z.to_nat (le_block l))) as [->|Hne].
    + rewrite !list_lookup_insert_eq by (by eapply lookup_lt_Some). intros [= <-] [= <-]. lia.
    + rewrite !list_lookup_insert_ne by done. apply Hord.
    + change (foldr _ _ _) with (live_count (<[Z.to_nat (le_block l) := le_generation l]> (hd_live h))).
      rewrite (live_count_insert _ _ _ 0) by done. unfold wrapping_add. rewrite Hcount, Z.mod_small by mlia.
      change (live_mark 0) with 0. unfold live_mark. bcase; lia.
  - split; [done|]. by exists seen.
Qed.

(** The receiver records after the return of one payload. *)
Definition returned_handle (h : Handle) (x generation : Z) : Handle :=
  match live_generation h x with
  | Some live =>
      if live =? generation
      then set_receiver h (<[Z.to_nat x := 0]> (hd_live h)) (hd_last_seen h) ((hd_outstanding_returns h - 1) mod (u64_MAX + 1))
      else h
  | None => h
  end.

Lemma wp_complete h x generation (Q : unit -> Handle -> Prop) (R : WakeError -> Handle -> Prop) :
  0 <= x -> is_u64 generation ->
  Q () (returned_handle h x generation) -> (forall e, R e (returned_handle h x generation)) ->
  wp (complete b x generation) Q R h.
Proof.
  intros Hx Hgen HQ HR. unfold complete. wp_step. wp_step. wp_step.
  assert (forall h', h' = returned_handle h x generation ->
    wp (published ←
          match completion b x with
          | Ok _ =>
              _ ← store (fun s => set_completion x (Z.max (sh_completions s x) generation) s);
              match return_word b (x / RETURN_WORD_BITS) with
              | Ok _ => _ ← store (fun s => set_return (x / RETURN_WORD_BITS)
                           (Z.lor (sh_returns s (x / RETURN_WORD_BITS)) (Z.shiftl 1 (x mod RETURN_WORD_BITS))) s); mret true
              | Err _ => mret false
              end
          | Err _ => mret false
          end;
        if (published : bool) then signal_capacity b else throw WE_Mapping) Q R h') as Hrest.
  { intros h' ->. wp_step. destruct (completion b x); [|by do 2 wp_step].
    wp_step. apply wp_store.
    { intros s Hs. apply shared_ok_completion; [|done]. pose proof (so_completions _ Hs x). mlia. }
    destruct (return_word b _); [|by do 2 wp_step]. wp_step. apply wp_store.
    { intros s Hs. apply shared_ok_return; [|done]. apply u64_lor; [apply Hs|by apply u64_bit]. }
    wp_step. by apply wp_signal_capacity. }
  unfold returned_handle in *. destruct (live_generation h x) as [live|].
  - destruct (live =? generation); [apply wp_put|apply wp_ret]; by apply Hrest.
  - apply wp_ret. by apply Hrest.
Qed.

Lemma wp_lease_drop h l (Q : unit -> Handle -> Prop) (R : LeaseError -> Handle -> Prop) :
  le_returned l = false -> 0 <= le_block l -> is_u64 (le_generation l) ->
  Q () (returned_handle h (le_block l) (le_generation l)) -> wp (PayloadLease_drop b l) Q R h.
Proof.
  intros Hr Hx Hgen HQ. unfold PayloadLease_drop. rewrite Hr. wp_step. wp_step. unfold return_once. rewrite Hr.
  wp_step. wp_step. apply wp_complete; [done|done|wp_step|intros e; wp_step]; by wp_step.
Qed.

Lemma wp_receive_inner h :
  handle_inv g h -> hd_quarantined h = false ->
  wp (try_receive_inner b)
    (fun o h' => match o with
                 | None => kept_to h h'
                 | Some l => exists h1, received_to h l h1 /\ (h' = h1 \/ h' = set_latch true h1)
                 end)
    (fun _ h' => kept_to h h') h.
Proof.
  intros Hinv Hq. assert (kept_to h h) as Hsame by (by split).
  unfold try_receive_inner. wp_step. wp_step. wp_step. apply wp_verified_published; [|done].
  intros published Hp Hseen Hdepth. pose proof (published_seen_inv _ _ Hinv Hp) as Hinv1.
  assert (kept_to h (set_published_seen published h)) as Hkept by (by split).
  bcase; [by apply wp_ret|]. wp_step. apply wp_lift. rewrite checked_add_ok by lia. cbn [ok_or].
  wp_step. apply wp_lift. destruct (slot b _); cbn [map_err]; [|done]. wp_step. apply wp_copy_descriptor.
  intros d Hd. wp_step. apply wp_lift. fold g. destruct (PoolDescriptor_validate d _ g) as [v|] eqn:Hv; cbn [map_err]; [|done].
  destruct (validated_fields _ _ _ Hd Hv) as (Hvb & Hvg & Hvl & Hvp & Hvc). wp_step. wp_step.
  case_bool_decide as Hlive; cbn [negb]; [|by apply wp_throw].
  destruct (last_seen_generation _ _) as [seen|] eqn:Hls; [|by apply wp_throw]. bcase; [by apply wp_throw|].
  wp_step. apply wp_lift. rewrite (header_ptr_ok _ _ Hb _ (vd_placement v)) by (done || lia). cbn [map_err].
  wp_step. wp_step. wp_step. apply wp_lift. unfold check_wire_header.
  destruct (Z.eqb_spec (from_le_bytes (take 4 (load_bytes (copy_out_uninit (sh_arena s)
    (bk_base b + (ml_arena (bk_layout b) + bp_offset (vd_placement v))) (λ _ : Z, 0) 0 WIRE_HEADER_BYTES) 0
    (Z.to_nat WIRE_HEADER_BYTES)))) (vd_body_len v)) as [Hh|]; cbn [negb map_err]; [|done].
  set (header := load_bytes _ _ _) in *.
  wp_step. apply wp_lift. destruct (control_pages _ _ Hb) as (_ & Hcp & _). rewrite Hcp. cbn [map_err].
  wp_step. apply wp_atomic. intros s' Hs'.
  destruct (Z.eqb_spec (sh_consumed s') (hd_consumed_local h)); cbn [fst snd negb];
    (split; [first [done | apply shared_ok_consumed; [destruct Hinv as (_ & [] & _); mlia|done]]|]); [|by apply wp_throw].
  do 6 wp_step. cbn [set_published_seen]. 
  set (l := PayloadLease_new (vd_block v) (vd_generation v) (vd_body_len v) header).
  assert (received_to h l (mark_live (set_consumer true (set_consumed_local (hd_consumed_local h + 1)
    (set_published_seen published h))) (vd_block v) (vd_generation v))) as Hrec.
  { apply (received_inv h l published); try done; [|lia|by exists seen].
    split_and!; cbn; try (done || lia); by exists (vd_placement v). }
  wp_step. wp_step. apply wp_signal_capacity.
  - wp_step. apply wp_ret. apply wp_ret. eexists. split; [exact Hrec|by left].
  - intros e'. wp_step. apply wp_enter_quarantine. apply wp_ret. eexists. split; [exact Hrec|by right].
Qed.

(** Returning the lease that owns a live mark clears the mark and lowers the count. *)
Lemma returned_owner h l :
  handle_inv g h -> lease_ok l -> live_generation h (le_block l) = Some (le_generation l) ->
  let h' := returned_handle h (le_block l) (le_generation l) in
  handle_inv g h' /\ hd_live h' = <[Z.to_nat (le_block l) := 0]> (hd_live h) /\
  hd_outstanding_returns h' = hd_outstanding_returns h - 1 /\
  h' = set_receiver h (<[Z.to_nat (le_block l) := 0]> (hd_live h)) (hd_last_seen h) (hd_outstanding_returns h - 1).
Proof.
  intros (Hl & [] & [Hlive Hlast Hord Hcount]) (Hbl & Hgen & _) Hown. cbn. unfold returned_handle. rewrite Hown, Z.eqb_refl.
  unfold live_generation in Hown.
  pose proof (live_count_insert _ _ 0 _ Hown) as Hins. change (live_mark 0) with 0 in Hins.
  pose proof (live_count_range (<[Z.to_nat (le_block l):=0]> (hd_live h))) as Hr. rewrite length_insert in Hr.
  assert (live_mark (le_generation l) = 1) as Hm by (unfold live_mark; bcase; lia).
  pose proof (block_count_range g Hg). unfold MAX_BLOCKS in *.
  assert ((hd_outstanding_returns h - 1) mod (u64_MAX + 1) = hd_outstanding_returns h - 1) as ->
    by (apply Z.mod_small; mlia).
  split; [|done]. split; [done|]. split; [by split|]. split; cbn [hd_live hd_last_seen hd_outstanding_returns set_receiver]; rewrite ?length_insert; try done; [|lia].
  intros i v s. destruct (decide (i = Z.to_nat (le_block l))) as [->|Hne].
  - rewrite list_lookup_insert_eq by (by eapply lookup_lt_Some). intros [= <-] Hs. destruct (Hord _ _ _ Hown Hs). lia.
  - rewrite list_lookup_insert_ne by done. apply Hord.
Qed.

Lemma wp_try_receive h :
  handle_inv g h ->
  wp (try_receive b)
    (fun o h' => match o with None => kept_to h h' /\ hd_quarantined h' = false | Some l => received_to h l h' /\ hd_quarantined h = false end)
    (fun _ h' => kept_to h h' /\ hd_quarantined h' = true) h.
Proof.
  intros Hinv. unfold try_receive. wp_step. apply wp_is_quarantined.
  2:{ apply wp_throw. split; [|done]. by apply kept_latch. }
  intros Hq. wp_step. wp_step. eapply wp_mono; [by apply wp_receive_inner| |]; cbn beta.
  2:{ intros e h' Hk. apply wp_quarantine_with. split; [by apply kept_latch|done]. }
  intros [l|] h' Ho; cbn beta.
  - destruct Ho as (h1 & Hrec & Hh'). wp_step. apply wp_is_quarantined.
    { intros Hq'. apply wp_ret. split; [|done]. destruct Hh' as [->| ->]; [done|]. done. }
    assert (set_latch true h' = set_latch true h1) as -> by (by destruct Hh' as [->| ->]).
    destruct Hrec as [Hi Hlo _ Hc [Hw (seen & Hs & Hlt)] Hlv Hls Hct Hled (Hr1 & Hr2 & Hr3)].
    wp_step. wp_step. pose proof Hlo as (Hbl & Hgen & Hret & _).
    assert (live_generation (set_latch true h1) (le_block l) = Some (le_generation l)) as Hown.
    { unfold live_generation in *. cbn. rewrite Hlv. apply list_lookup_insert_eq. by eapply lookup_lt_Some. }
    destruct (returned_owner (set_latch true h1) l (latch_inv _ _ Hi) Hlo Hown) as (Hi' & Hlv' & Hct' & Heq).
    apply wp_lease_drop; [done|lia|mlia|]. wp_step. split; [|by rewrite Heq]. rewrite Heq in *.
    cbn in *. assert (is_u64 (hd_outstanding_returns h)).
    { destruct Hinv as (_ & _ & [? _ _ Hcount]). pose proof (live_count_range (hd_live h)).
      pose proof (block_count_range g Hg). unfold MAX_BLOCKS in *. mlia. }
    split; cbn; try done.
    + rewrite Hlv, list_insert_insert_eq. by apply list_insert_id.
    + rewrite Hct. unfold wrapping_add. destruct (Z.eq_dec (hd_outstanding_returns h) u64_MAX) as [E|].
      * destruct Hinv as (_ & _ & [? _ _ Hcount]). pose proof (live_count_range (hd_live h)).
        pose proof (block_count_range g Hg). unfold MAX_BLOCKS in *. mlia.
      * rewrite Z.mod_small by mlia. lia.
    + lia.
  - wp_step. apply wp_is_quarantined.
    + intros Hq'. by apply wp_ret.
    + wp_step. wp_step. wp_step. split; [|done]. by apply kept_latch.
Qed.
End Specs.
