(* ===== verification/RingSafety.v ===== *)
(** * RingSafety: what one handle guarantees against a peer that writes anything at any time.

    A side is a handle with its open reservation and its unreturned leases; [exec] runs any client
    operation on it, and between any two accesses the peer may change the shared memory to any
    machine values. *)
From S2P Require Import Prelude.
From S2P Require Import Pool.
From S2P Require Import Descriptor.
From S2P Require Import SpanCopy.
From S2P Require Import Retained.
From S2P Require Import Grant.
From S2P Require Import Ring.
From S2P Require Import RingLogic.
From S2P Require Import RingLedger.

(** ** Client operations *)
Inductive Op :=
| OpReserve (inventory : Inventory) (bound : Z) (wire_header : list Z)
| OpWrite (bytes : list Z)
| OpAdvance (bytes : Z)
| OpSetHeader (wire_header : list Z)
| OpCommit (body_len : Z)
| OpAbort
| OpReceive
| OpReturn (lease : nat)
| OpProbe
| OpInventory
| OpTakeReclaimed
| OpHasData
| OpArmData
| OpCompleteData
| OpArmCapacity (inventory : Inventory) (bound : Z)
| OpCompleteCapacity
| OpQuarantine.

(** Arguments are machine values; a wire header is twenty bytes. *)
Definition header_ok (wire_header : list Z) : Prop :=
  length wire_header = 20%nat /\ Forall is_u8 wire_header.

Definition op_ok (op : Op) : Prop :=
  match op with
  | OpReserve _ bound header => is_u64 bound /\ header_ok header
  | OpWrite bytes => Forall is_u8 bytes /\ Z.of_nat (length bytes) <= u64_MAX
  | OpAdvance n => is_u64 n
  | OpSetHeader header => header_ok header
  | OpCommit n => is_u64 n
  | _ => True
  end.

(** The reservation after a call: gone once it is finished. *)
Definition keep_open (r : ProducerReservation) : option ProducerReservation :=
  if pr_finished r then None else Some r.

Definition Clients : Type := option ProducerReservation * list PayloadLease.

Definition exec (b : Backing) (op : Op) (c : Clients) : M Empty_set Clients :=
  let '(open, leases) := c in
  match op with
  | OpReserve inventory bound header =>
      r ← attempt (try_reserve_in b inventory bound header);
      mret (match r with Ok r => (Some r, leases) | Err _ => (open, leases) end)
  | OpWrite bytes =>
      match open with
      | None => mret c
      | Some r =>
          o ← attempt (reservation_write b r bytes);
          mret (match o with Ok (r, _) => (keep_open r, leases) | Err _ => (open, leases) end)
      end
  | OpAdvance n =>
      match open with
      | None => mret c
      | Some r =>
          o ← attempt (reservation_advance b r n);
          mret (match o with Ok (r, _) => (keep_open r, leases) | Err _ => (open, leases) end)
      end
  | OpSetHeader header =>
      match open with
      | None => mret c
      | Some r => mret (keep_open (set_wire_header r header).1, leases)
      end
  | OpCommit body_len =>
      match open with
      | None => mret c
      | Some r => _ ← attempt (commit b r body_len); mret (None, leases)
      end
  | OpAbort =>
      match open with
      | None => mret c
      | Some r => _ ← reservation_drop b r; mret (None, leases)
      end
  | OpReceive =>
      o ← attempt (try_receive b);
      mret (match o with Ok (Some l) => (open, leases ++ [l]) | _ => (open, leases) end)
  | OpReturn i =>
      match leases !! i with
      | None => mret c
      | Some l => _ ← attempt (PayloadLease_drop b l); mret (open, delete i leases)
      end
  | OpProbe => _ ← attempt (probe b); mret c
  | OpInventory => _ ← attempt (inventory b); mret c
  | OpTakeReclaimed => _ ← attempt (take_reclaimed b); mret c
  | OpHasData => _ ← attempt (has_data b); mret c
  | OpArmData => _ ← attempt (arm_data_wait b); mret c
  | OpCompleteData => _ ← attempt (complete_data_wait b); mret c
  | OpArmCapacity inventory bound => _ ← attempt (arm_capacity_wait b inventory bound); mret c
  | OpCompleteCapacity => _ ← attempt (complete_capacity_wait b); mret c
  | OpQuarantine => _ ← enter_quarantine b; mret c
  end.

(** The states of a side: created or attached, then any operations, each against a shared memory
    that holds anything at its start and is changed by any script while it runs. *)
Inductive reach (b : Backing) : Handle -> Clients -> Prop :=
| reach_new allowed published consumed :
    0 <= consumed <= published -> published <= u64_MAX ->
    published - consumed <= descriptor_depth (bk_geometry b) ->
    reach b (fresh_handle (bk_geometry b) allowed published consumed) (None, [])
| reach_op op h c s peer bell c' w' :
    reach b h c -> op_ok op -> shared_ok s -> peer_ok peer ->
    exec b op c (mkWorld s h peer bell) = (Done c', w') ->
    reach b (w_handle w') c'.

(** ** Invariant of a side *)
Record res_ok (b : Backing) (h : Handle) (r : ProducerReservation) : Prop := {
  ro_open : pr_finished r = false;
  ro_block : hd_reserved_block h = Some (pr_block r);
  ro_generation : pl_generations (hd_ledger h) !! Z.to_nat (pr_block r) = Some (pr_generation r);
  ro_range : is_u64 (pr_generation r);
  ro_cursor : 0 <= pr_cursor r <= pr_capacity r /\ pr_capacity r <= MAX_FRAME_BYTES;
  ro_capacity : exists p, placement (bk_geometry b) (pr_block r) = Some p /\ pr_capacity r <= BlockPlacement_body_capacity p;
  ro_header : header_ok (pr_wire_header r);
}.

Record leases_ok (b : Backing) (h : Handle) (leases : list PayloadLease) : Prop := {
  lk_each : Forall (fun l => lease_ok b l /\ live_generation h (le_block l) = Some (le_generation l)) leases;
  lk_distinct : NoDup (le_block <$> leases);
  lk_count : live_count (hd_live h) = Z.of_nat (length leases);
}.

Definition side_inv (b : Backing) (h : Handle) (c : Clients) : Prop :=
  handle_inv (bk_geometry b) h /\ (forall r, c.1 = Some r -> res_ok b h r) /\ leases_ok b h c.2.

(** ** The fresh ledger *)
Section Fresh.
Context (g : PoolGeometry).
Hypothesis Hg : geometry_ok g.

Lemma count_sum_take_mono i j :
  (i <= j)%nat -> count_sum (take i (pg_classes g)) <= count_sum (take j (pg_classes g)).
Proof.
  intros Hij. rewrite <- (Nat.min_l i j Hij) at 1. rewrite <- take_take. apply count_sum_take.
  apply Forall_take. auto with machine.
Qed.

Lemma class_of_iff x i :
  0 <= x -> class_of g x = Some i <->
  (i < CLASS_COUNT)%nat /\ count_sum (take i (pg_classes g)) <= x < count_sum (take (S i) (pg_classes g)).
Proof.
  intros Hx. split.
  - intros Hc. destruct (class_of_lt g Hg x i Hx Hc) as [Hi Hlt]. split; [done|].
    destruct (placement_Some g x) as (p & j & Hp & _ & _ & _ & Hj & Hr); [done|lia|].
    unfold class_of in Hc. rewrite Hp in Hc. cbn in Hc. injection Hc as <-.
    apply class_from_index_Some in Hj as [-> _]. done.
  - intros [Hi Hr]. assert (x < block_count g) as Hlt.
    { rewrite (block_count_sum g Hg).
      pose proof (count_sum_take (pg_classes g) (S i) ltac:(auto with machine)). lia. }
    destruct (placement_Some g x) as (p & j & Hp & _ & _ & _ & Hj & Hr'); [done|lia|].
    unfold class_of. rewrite Hp. cbn. f_equal. apply class_from_index_Some in Hj as [-> _].
    destruct (Nat.lt_trichotomy i j) as [Hij|[->|Hij]]; [|done|].
    + pose proof (count_sum_take_mono (S i) j ltac:(lia)). lia.
    + pose proof (count_sum_take_mono (S j) i ltac:(lia)). lia.
Qed.

Lemma take_count_sum i c :
  pg_classes g !! i = Some c -> count_sum (take (S i) (pg_classes g)) = count_sum (take i (pg_classes g)) + cs_count c.
Proof.
  intros Hi. rewrite (take_S_r _ _ _ Hi). unfold count_sum. rewrite fmap_app, zsum_app. cbn. lia.
Qed.

Lemma class_free_list_seq i c :
  pg_classes g !! i = Some c -> class_free_list g i c = seqZ (count_sum (take i (pg_classes g))) (cs_count c).
Proof.
  intros Hi. unfold class_free_list. pose proof (lookup_lt_Some _ _ _ Hi) as Hlt. rewrite (go_length _ Hg) in Hlt.
  destruct (class_from_index_lt i Hlt) as [k Hk]. rewrite Hk. apply class_from_index_Some in Hk as [Hk _].
  unfold first_block. rewrite Hk, sum_u32_small.
  - unfold seqZ. apply list_fmap_ext. intros j y _. lia.
  - apply Forall_take. auto with machine.
  - pose proof (count_sum_take (pg_classes g) i ltac:(auto with machine)). pose proof (go_blocks _ Hg).
    unfold MAX_BLOCKS in *. mlia.
Qed.

Lemma fresh_ledger_inv allowed : ledger_inv g (ProducerLedger_new g allowed) None.
Proof.
  pose proof (block_count_range g Hg) as Hbc.
  assert (forall x s, block_is (ProducerLedger_new g allowed) x s <-> 0 <= x < block_count g /\ s = Free) as Hblk.
  { intros x s. unfold block_is. cbn. rewrite lookup_replicate. split; [|naive_solver lia].
    intros (? & -> & ?). split; [lia|done]. }
  split; cbn -[Z.to_nat]; rewrite ?length_replicate; try done.
  - apply Forall_replicate. mlia.
  - by rewrite length_imap, (go_length _ Hg).
  - intros i stack Hs. rewrite list_lookup_imap in Hs. apply fmap_Some in Hs as (c & Hc & ->).
    rewrite (class_free_list_seq _ _ Hc). split; [apply NoDup_seqZ|]. intros x. rewrite elem_of_seqZ, Hblk.
    pose proof (take_count_sum _ _ Hc) as Ht. pose proof (lookup_lt_Some _ _ _ Hc) as Hlt.
    rewrite (go_length _ Hg) in Hlt.
    assert (0 <= count_sum (take i (pg_classes g))) by (apply count_sum_nonneg, Forall_take; auto with machine).
    split.
    + intros Hx. assert (class_of g x = Some i) as Hci by (apply class_of_iff; [lia|split; [done|lia]]).
      split; [|done]. split; [|done]. destruct (class_of_lt g Hg x i ltac:(lia) Hci). lia.
    + intros [[Hx _] Hci]. apply class_of_iff in Hci as [_ Hr]; lia.
  - split; [apply list.NoDup_nil; done|]. intros x. rewrite elem_of_nil, Hblk. split; [done|]. by intros [_ ?].
  - intros x. rewrite Hblk. split; [done|]. by intros [_ ?].
  - split; [apply list.NoDup_nil; done|]. intros x Hx. by apply not_elem_of_nil in Hx.
Qed.

Lemma fresh_handle_inv allowed published consumed :
  0 <= consumed <= published -> published <= u64_MAX -> published - consumed <= descriptor_depth g ->
  handle_inv g (fresh_handle g allowed published consumed).
Proof.
  intros Hc Hp Hd. split; [apply fresh_ledger_inv|]. split; split; cbn -[Z.to_nat]; rewrite ?length_replicate; try done; try lia.
  - intros i v s. rewrite !lookup_replicate. intros [-> _] [-> _]. mlia.
  - induction (Z.to_nat (block_count g)); [done|]. cbn. done.
Qed.
End Fresh.

Section Side.
Context (page_size : Z) (b : Backing).
Hypothesis Hb : backing_ok page_size b.
Let g : PoolGeometry := bk_geometry b.
Let Hg : geometry_ok g := bo_geometry _ _ Hb.

(** ** Frames *)

(** What keeps the client's objects valid: the receiver's live marks, and while a reservation is
    open its block and generation. *)
Record client_frame (h h' : Handle) : Prop := {
  cf_inv : handle_inv g h';
  cf_reserved : hd_reserved_block h' = hd_reserved_block h;
  cf_generations : pl_generations (hd_ledger h') = pl_generations (hd_ledger h);
  cf_live : hd_live h' = hd_live h;
  cf_latch : hd_quarantined h = true -> hd_quarantined h' = true;
  cf_published : hd_published_local h' = hd_published_local h;
}.

Lemma frame_res h h' r : client_frame h h' -> res_ok b h r -> res_ok b h' r.
Proof. intros [] []. split; try done; congruence. Qed.

Lemma frame_leases h h' ls : hd_live h' = hd_live h -> leases_ok b h ls -> leases_ok b h' ls.
Proof. intros Hl [He ? ?]. split; [|done|congruence]. unfold live_generation in *. by rewrite Hl. Qed.

Lemma frame_side h h' c : client_frame h h' -> side_inv b h c -> side_inv b h' c.
Proof.
  intros Hf (_ & Hr & Hl). split; [apply Hf|]. split; [intros r Hc; by eapply frame_res, Hr|].
  by eapply frame_leases; [apply Hf|].
Qed.

Lemma reclaimed_client h h' : reclaimed_to b h h' -> client_frame h h'.
Proof. intros [? []]. by split. Qed.
Lemma refused_client h h' : refused_to b h h' -> client_frame h h'.
Proof. intros []. by split. Qed.
Lemma kept_client h h' : kept_to b h h' -> client_frame h h'.
Proof. intros [? Hl ? ? ? ? ? ?]. split; try done. by rewrite Hl. Qed.
Lemma client_refl h : handle_inv g h -> client_frame h h.
Proof. by split. Qed.
Lemma client_trans h1 h2 h3 : client_frame h1 h2 -> client_frame h2 h3 -> client_frame h1 h3.
Proof. intros [] []. split; try congruence; auto. Qed.
Lemma client_latch h h' : client_frame h h' -> client_frame h (set_latch true h').
Proof. intros []. split; try done. by apply latch_inv. Qed.

(** ** Reservation methods *)
Lemma wp_write_reservation h r bytes :
  res_ok b h r -> Forall is_u8 bytes ->
  wp (write_reservation b (pr_block r) (pr_capacity r) (pr_cursor r) bytes)
    (fun _ h' => h' = h /\ pr_cursor r + Z.of_nat (length bytes) <= pr_capacity r) (fun _ h' => h' = h) h.
Proof.
  intros [_ _ _ _ Hc (p & Hp & Hcap) _] Hbytes. unfold write_reservation. wp_step. apply wp_lift.
  destruct (checked_add _ _ _) as [last|] eqn:Ha; cbn [ok_or]; [|done]. apply checked_add_Some in Ha as [-> Ha].
  bcase; [by apply wp_throw|]. wp_step. apply wp_lift. destruct (body_ptr b _ _); cbn [map_err]; [|done].
  apply wp_store; [|done]. intros s Hs. apply shared_ok_arena; [|done].
  apply copy_in_bytes; [by apply mem_of_bytes|apply Hs|lia].
Qed.

Lemma wp_abort_now {E} h r (R : E -> Handle -> Prop) :
  handle_inv g h -> pr_finished r = false ->
  wp (abort_now b r) (fun r' h' => pr_finished r' = true /\ aborted_to b h (pr_block r) h') R h.
Proof.
  intros Hinv Hf. unfold abort_now. rewrite Hf. wp_step. eapply wp_mono; [by eapply wp_abort| |done].
  intros ? h' Ha. by apply wp_ret.
Qed.

(** After an abort no reservation is open, and the leases are untouched. *)
Lemma aborted_side h x h' ls :
  aborted_to b h x h' -> leases_ok b h ls -> side_inv b h' (None, ls).
Proof. intros [? _ _ _ _ _ [Hl _]] Hls. split; [done|]. split; [done|]. by eapply frame_leases. Qed.

Lemma wp_reservation_write h r bytes :
  handle_inv g h -> res_ok b h r -> Forall is_u8 bytes ->
  wp (reservation_write b r bytes)
    (fun o h' => (h' = h /\ res_ok b h o.1) \/ (pr_finished o.1 = true /\ aborted_to b h (pr_block r) h'))
    (fun _ _ => False) h.
Proof.
  intros Hinv Hr Hbytes. pose proof Hr as [Hf Ho Hgen Hrange [Hc Hm] Hcap Hh]. unfold reservation_write. rewrite Hf.
  wp_step. wp_step. eapply wp_mono; [by apply wp_write_reservation| |]; cbn beta.
  - intros ? h' [-> Hle]. apply wp_ret. left. split; [done|]. split; cbn; try done. lia.
  - intros e h' ->. wp_step. eapply wp_mono; [by apply (wp_abort_now _ _ (fun _ _ => False))| |]; cbn beta; [|done].
    intros r' h' H. apply wp_ret. by right.
Qed.

Lemma wp_reservation_advance h r n :
  handle_inv g h -> res_ok b h r -> 0 <= n ->
  wp (reservation_advance b r n)
    (fun o h' => (h' = h /\ res_ok b h o.1) \/ (pr_finished o.1 = true /\ aborted_to b h (pr_block r) h'))
    (fun _ _ => False) h.
Proof.
  intros Hinv Hr Hn. pose proof Hr as [Hf Ho Hgen Hrange [Hc Hm] Hcap Hh]. unfold reservation_advance. rewrite Hf.
  assert (wp (r' ← abort_now b r; mret (r', Err PE_Overflow))
    (fun (o : ProducerReservation * result ProducerError unit) h' =>
      (h' = h /\ res_ok b h o.1) \/ (pr_finished o.1 = true /\ aborted_to b h (pr_block r) h'))
    (fun (_ : ProducerError) _ => False) h) as Habort.
  { wp_step. eapply wp_mono; [by apply (wp_abort_now _ _ (fun _ _ => False))| |]; cbn beta; [|done]. intros r' h' H. apply wp_ret. by right. }
  destruct (checked_add _ _ _) as [cursor|] eqn:Ha; [|done]. apply checked_add_Some in Ha as [-> _].
  bcase; [done|]. apply wp_ret. left. split; [done|]. split; cbn; try done. lia.
Qed.

(** A commit publishes, aborts, or fails with the block still reserved on a quarantined handle. *)
Lemma wp_commit h r n :
  handle_inv g h -> res_ok b h r -> is_u64 n ->
  wp (commit b r n)
    (fun id h' => committed_to b h (pr_block r) true h' /\ n = pr_cursor r /\
       id = mkIdentity (bk_incarnation b) (bk_lane b) (pr_block r) (pr_generation r) /\
       from_le_bytes (take 4 (pr_wire_header r)) = n)
    (fun _ h' => (hd_quarantined h' = true /\ exists p, committed_to b h (pr_block r) p h') \/
       aborted_to b h (pr_block r) h' \/ aborted_to b (set_latch true h) (pr_block r) h') h.
Proof.
  intros Hinv Hr Hn. pose proof Hr as [Hf Ho Hgen Hrange [Hc Hm] Hcap [Hlen Hh]]. unfold commit. rewrite Hf.
  assert (forall h0 e, handle_inv g h0 -> wp (A := PayloadIdentity) (_ ← abort_now b r; throw e) (fun _ _ => False)
    (fun (_ : ProducerError) h' => aborted_to b h0 (pr_block r) h') h0) as Habort.
  { intros h0 e H0. wp_step. eapply wp_mono; [by apply (wp_abort_now _ _ (fun _ _ => False))| |]; cbn beta; [|done]. intros r' h' [_ H]. by apply wp_throw. }
  wp_step. apply wp_is_quarantined.
  2:{ eapply wp_mono; [apply Habort; by apply latch_inv|done|auto]. }
  intros Hq. bcase; [eapply wp_mono; [by apply Habort|done|auto]|].
  destruct (Z.eqb_spec (pr_cursor r) n) as [->|]; cbn [negb]; [|eapply wp_mono; [by apply Habort|done|auto]].
  destruct (is_ok _) eqn:Hcheck; cbn [negb]; [|eapply wp_mono; [by apply Habort|done|auto]].
  eapply wp_mono; [by apply (wp_publish page_size b Hb)| |]; cbn beta; [|auto].
  intros id h' [Hcm ->]. split; [done|]. split; [done|]. split; [done|].
  unfold check_wire_header in Hcheck.
  destruct (from_le_bytes (take 4 (pr_wire_header r)) =? n) eqn:Heq; [by apply Z.eqb_eq|done].
Qed.

Lemma committed_side h x p h' ls :
  committed_to b h x p h' -> leases_ok b h ls -> side_inv b h' (None, ls).
Proof. intros [? _ _ _ [Hl _] _] Hls. split; [done|]. split; [done|]. by eapply frame_leases. Qed.

(** ** Probe, inventory, settlement, waits *)
Lemma wp_probe h :
  handle_inv g h -> wp (probe b) (fun _ h' => client_frame h h') (fun _ h' => client_frame h h') h.
Proof.
  intros Hinv. pose proof (client_refl h Hinv) as Hrefl. unfold probe. wp_step. apply wp_is_quarantined.
  2:{ apply wp_throw. by apply client_latch. }
  intros Hq. wp_step. apply wp_lift. destruct (map_err _ _); [|done]. wp_step. wp_step. wp_step. apply wp_lift.
  destruct (map_err _ _); [|done]. wp_step. wp_step. wp_step. wp_step. destruct (negb _).
  - wp_step. apply wp_quarantine_with. wp_step. by apply client_latch.
  - destruct (hd_producer h); [|by apply wp_ret].
    eapply wp_mono; [by apply (wp_reclaim_all page_size b Hb)| |]; intros; by apply reclaimed_client.
Qed.

Lemma wp_drain_reclaimed n settled h :
  handle_inv g h ->
  wp (drain_reclaimed n settled) (fun _ h' => client_frame h h') (fun _ h' => client_frame h h') h.
Proof.
  revert settled h. induction n as [|n IH]; intros settled h Hinv; cbn [drain_reclaimed]; [by apply wp_ret, client_refl|].
  wp_step. wp_step. destruct (list.last _) as [x|] eqn:El; [|by apply wp_ret, client_refl]. wp_step. wp_step.
  pose proof Hinv as (Hl & Hc & Hr).
  assert (client_frame h (set_ledger (set_reclaimed (take (length (pl_reclaimed (hd_ledger h)) - 1) (pl_reclaimed (hd_ledger h)))
    (hd_ledger h)) h)) as Hf.
  { split; try done. split; [|by destruct Hc, Hr].
    cbn. pose proof (li_reclaimed _ _ _ Hl) as [Hnd _].
    apply (inv_drop_reclaimed g _ _ _ (pl_retired (hd_ledger h)) Hl).
    - eapply sublist_NoDup; [done|apply sublist_take].
    - intros y Hy. rewrite <- (take_drop (length (pl_reclaimed (hd_ledger h)) - 1)). apply elem_of_app. by left. }
  eapply wp_mono; [apply IH; apply Hf| |]; intros ? h' H'; by eapply client_trans.
Qed.

(** The specification most operations share. *)
Definition framed {E A} (m : M E A) : Prop :=
  forall h, handle_inv g h -> wp m (fun _ h' => client_frame h h') (fun _ h' => client_frame h h') h.

Lemma framed_bind {E A B} (m : M E A) (f : A -> M E B) : framed m -> (forall a, framed (f a)) -> framed (m ≫= f).
Proof.
  intros Hm Hf h Hinv. apply wp_bind. eapply wp_mono; [by apply Hm| |]; cbn beta; [|done].
  intros a h1 H1. eapply wp_mono; [apply Hf, H1| |]; intros ? h2 H2; by eapply client_trans.
Qed.

Lemma framed_ret {E A} (a : A) : framed (E := E) (mret a).
Proof. intros h Hinv. by apply wp_ret, client_refl. Qed.

Lemma framed_throw {E A} (e : E) : framed (A := A) (throw e).
Proof. intros h Hinv. by apply wp_throw, client_refl. Qed.

Lemma framed_lift {E A} (r : result E A) : framed (lift r).
Proof. destruct r; [apply framed_ret|apply framed_throw]. Qed.

Lemma framed_load {E A} (f : Shared -> A) : framed (E := E) (load f).
Proof. intros h Hinv. apply wp_load. intros. by apply client_refl. Qed.

Lemma framed_store {E} (f : Shared -> Shared) : (forall s, shared_ok s -> shared_ok (f s)) -> framed (E := E) (store f).
Proof. intros Hf h Hinv. apply wp_store; [done|]. by apply client_refl. Qed.

Lemma framed_attempt {E F A} (m : M E A) : framed m -> framed (E := F) (attempt m).
Proof. intros Hm h Hinv. apply wp_attempt. by apply Hm. Qed.

Lemma framed_get {E A} (f : Handle -> M E A) : (forall h, framed (f h)) -> framed (h ← get_handle; f h).
Proof. intros Hf h Hinv. wp_step. wp_step. by apply Hf. Qed.

Lemma framed_is_quarantined {E} : framed (E := E) (is_quarantined b).
Proof. intros h Hinv. apply wp_is_quarantined; [intros _; by apply client_refl|by apply client_latch, client_refl]. Qed.

Lemma framed_enter_quarantine {E} : framed (E := E) (enter_quarantine b).
Proof. intros h Hinv. apply wp_enter_quarantine. by apply client_latch, client_refl. Qed.

Lemma framed_quarantining {A} (m : M RingError A) : framed m -> framed (map_errM (quarantine_with b) m).
Proof.
  intros Hm h Hinv. apply wp_map_err. eapply wp_mono; [by apply Hm|done|]; cbn beta.
  intros e h' H. apply wp_quarantine_with. by apply client_latch.
Qed.

Lemma framed_reclaim : framed (reclaim_completions b).
Proof. intros h Hinv. eapply wp_mono; [by apply (wp_reclaim_completions page_size b Hb)| |]; intros; by apply reclaimed_client. Qed.

Lemma framed_data_available : framed (data_available b).
Proof.
  intros h Hinv. unfold data_available. wp_step. wp_step. wp_step. wp_step.
  apply (wp_verified_published page_size b Hb).
  - intros published Hp _ _. apply wp_ret. pose proof (published_seen_inv b _ _ Hinv Hp). by split.
  - intros e. apply wp_quarantine_with. by apply client_latch, client_refl.
Qed.

Lemma framed_bell {E} loop : framed (E := E) (with_bell loop).
Proof. intros h Hinv. apply wp_bell. intros _. by apply client_refl. Qed.

Lemma framed_drain : framed drain.
Proof. apply framed_bind; [apply framed_bell|]. intros [|]; [apply framed_ret|apply framed_throw]. Qed.

Lemma framed_if {E A} (c : bool) (m m' : M E A) : framed m -> framed m' -> framed (if c then m else m').
Proof. by destruct c. Qed.

Ltac framed_step :=
  first
  [ apply framed_ret | apply framed_throw | apply framed_lift | apply framed_load
  | apply framed_is_quarantined | apply framed_enter_quarantine | apply framed_drain | apply framed_bell
  | apply framed_data_available | apply framed_reclaim | apply framed_quarantining | apply framed_attempt
  | apply framed_get; intros ?h | apply framed_store; solve [auto with machine] | apply framed_if
  | apply framed_bind; [|intros ?x] ].

Lemma framed_has_data : framed (has_data b).
Proof. unfold has_data. repeat framed_step. Qed.

Lemma framed_armed_wait generation : framed (armed_wait_holds b generation).
Proof. unfold armed_wait_holds. repeat framed_step. Qed.

Lemma framed_arm_data_wait : framed (arm_data_wait b).
Proof.
  unfold arm_data_wait, arm_data, unpark_data. repeat (framed_step || apply framed_armed_wait).
  repeat (case_match || framed_step).
Qed.

Lemma framed_complete_data_wait : framed (complete_data_wait b).
Proof. unfold complete_data_wait, unpark_data. repeat framed_step. Qed.

Lemma framed_descriptors_outstanding h :
  handle_inv g h -> hd_reserved_block h = None ->
  wp (map_errM (quarantine_with b) (descriptors_outstanding b))
    (fun _ h' => client_frame h h') (fun _ h' => client_frame h h') h.
Proof.
  intros Hinv Hn. apply wp_map_err, (wp_descriptors_outstanding b).
  - intros consumed Hc. pose proof (seen_inv b _ _ Hinv Hn Hc). by split.
  - intros e. apply wp_quarantine_with. by apply client_latch, client_refl.
Qed.

Lemma framed_reservation_exhausted inventory bound : framed (reservation_exhausted b inventory bound).
Proof.
  intros h Hinv. unfold reservation_exhausted. wp_step. wp_step.
  case_bool_decide as Hr; [by apply wp_ret, client_refl|]. apply eq_None_not_Some in Hr.
  destruct (_ || _); [by apply wp_ret, client_refl|]. wp_step.
  eapply wp_mono; [by apply framed_reclaim| |]; cbn beta; [|done]. intros _ h1 H1.
  destruct (class_for _ inventory bound) as [class|] eqn:Hclass; [|by apply wp_ret].
  wp_step. eapply wp_mono; [apply framed_descriptors_outstanding; [apply H1|rewrite (cf_reserved _ _ H1); done]| |]; cbn beta.
  2:{ intros e h2 H2. by eapply client_trans. }
  intros o h2 H2. assert (client_frame h h2) as H by (by eapply client_trans).
  bcase; [by apply wp_ret|]. wp_step. wp_step. wp_step.
  destruct (lookup_lt_is_Some_2 (pl_free (hd_ledger h2)) (class_index class)) as [stack Hs].
  { rewrite (li_classes _ _ _ (proj1 (cf_inv _ _ H))). by apply (class_for_Some page_size b Hb inventory bound). }
  apply (wp_vec_get _ _ stack); [by rewrite Nat2Z.id|]. by apply wp_ret.
Qed.

Lemma framed_armed_capacity generation inventory bound : framed (armed_capacity_wait_holds b generation inventory bound).
Proof. unfold armed_capacity_wait_holds. repeat (apply framed_reservation_exhausted || framed_step). Qed.

Lemma framed_arm_capacity_wait inventory bound : framed (arm_capacity_wait b inventory bound).
Proof.
  unfold arm_capacity_wait, arm_capacity, unpark_capacity. repeat (apply framed_armed_capacity || framed_step).
  repeat (case_match || framed_step).
Qed.

Lemma framed_complete_capacity_wait : framed (complete_capacity_wait b).
Proof. unfold complete_capacity_wait, unpark_capacity. repeat framed_step. Qed.

Lemma framed_take_reclaimed : framed (take_reclaimed b).
Proof.
  intros h Hinv. unfold take_reclaimed. wp_step. wp_step. wp_step.
  assert (framed (if pl_allowed (hd_ledger h) then
      quarantined ← is_quarantined b; if (quarantined : bool) then mret () else reclaim_completions b else mret ())) as Hf
    by (repeat framed_step).
  eapply wp_mono; [by apply Hf| |]; cbn beta; [|done]. intros _ h1 H1. wp_step. wp_step.
  eapply wp_mono; [apply wp_drain_reclaimed, H1| |]; intros ? h2 H2; by eapply client_trans.
Qed.

(** ** Inventory *)
Definition class_total (c : ClassInventory) : Z := ci_free c + ci_reserved c + ci_published c.

Definition hits (i : nat) (x : Z) : Z := if decide (class_of g x = Some i) then 1 else 0.

Lemma count_states_total states block classes i c :
  classes !! i = Some c ->
  exists c', count_states b block states classes !! i = Some c' /\
    class_total c' = class_total c + zsum (hits i <$> seqZ block (Z.of_nat (length states))).
Proof.
  revert block classes c. induction states as [|s states IH]; intros block classes c Hc; cbn [count_states].
  { exists c. split; [done|]. cbn [length]. rewrite seqZ_nil by done. unfold zsum. cbn [fmap list_fmap foldr]. lia. }
  cbn [length]. rewrite seqZ_cons by lia. rewrite <- Z.add_1_r.
  replace (Z.pred (Z.of_nat (S (length states)))) with (Z.of_nat (length states)) by lia.
  cbn [fmap list_fmap zsum foldr]. fold (zsum (hits i <$> seqZ (block + 1) (Z.of_nat (length states)))). fold g.
  unfold hits at 1, class_of. destruct (placement g block) as [p|] eqn:Hp; cbn [fmap option_fmap option_map].
  2:{ destruct (IH (block + 1) classes c Hc) as (c' & Hc' & Ht). exists c'. split; [exact Hc'|]. rewrite Ht. case_decide; [done|]. lia. }
  destruct (decide (class_index (bp_class p) = i)) as [<-|Hne].
  - edestruct (IH (block + 1)) as (c' & Hc' & Ht); [by rewrite list_lookup_alter_eq, Hc|].
    exists c'. split; [exact Hc'|]. rewrite Ht. case_decide; [|done]. destruct s; unfold class_total; cbn; lia.
  - edestruct (IH (block + 1)) as (c' & Hc' & Ht); [by rewrite list_lookup_alter_ne, Hc|].
    exists c'. split; [exact Hc'|]. rewrite Ht. case_decide; [congruence|]. lia.
Qed.

Lemma zsum_const (v : Z) (f : Z -> Z) l : (forall x, x ∈ l -> f x = v) -> zsum (f <$> l) = v * Z.of_nat (length l).
Proof.
  induction l as [|x l IH]; intros H; [cbn; lia|]. cbn [fmap list_fmap zsum foldr length].
  fold (zsum (f <$> l)). rewrite IH, H; [lia|left|intros y Hy; apply H; by right].
Qed.

Lemma class_hits i c :
  pg_classes g !! i = Some c -> zsum (hits i <$> seqZ 0 (block_count g)) = cs_count c.
Proof.
  intros Hi. pose proof (take_count_sum g i c Hi) as Ht. pose proof (lookup_lt_Some _ _ _ Hi) as Hlt.
  rewrite (go_length _ Hg) in Hlt. set (lo := count_sum (take i (pg_classes g))) in *.
  assert (0 <= lo) by (apply count_sum_nonneg, Forall_take; auto with machine).
  pose proof (count_sum_take (pg_classes g) (S i) ltac:(auto with machine)) as Hhi.
  rewrite <- (block_count_sum g Hg) in Hhi.
  assert (0 <= cs_count c) as Hc.
  { pose proof (count_sum_take_mono g Hg i (S i) ltac:(lia)) as Hm. fold lo in Hm. lia. }
  assert (forall x, 0 <= x -> hits i x = if decide (lo <= x < lo + cs_count c) then 1 else 0) as Hh.
  { intros x Hx. unfold hits. pose proof (class_of_iff g Hg x i Hx) as Hiff. fold lo in Hiff. rewrite Ht in Hiff.
    destruct (decide (class_of g x = Some i)), (decide (lo <= x < lo + cs_count c)); tauto. }
  replace (block_count g) with (lo + (cs_count c + (block_count g - lo - cs_count c))) by lia.
  rewrite !seqZ_app, !fmap_app, !zsum_app by lia.
  rewrite (zsum_const 0), (zsum_const 1), (zsum_const 0).
  - rewrite !length_seqZ. lia.
  - intros x Hx%elem_of_seqZ. rewrite Hh by lia. case_decide; lia.
  - intros x Hx%elem_of_seqZ. rewrite Hh by lia. case_decide; lia.
  - intros x Hx%elem_of_seqZ. rewrite Hh by lia. case_decide; lia.
Qed.

Lemma conserves_alt classes d1 d2 d3 d4 r :
  (forall i c k, pg_classes g !! i = Some c -> classes !! i = Some k -> class_total k = cs_count c) ->
  conserves (mkInventory classes d1 d2 d3 d4 r) g = true.
Proof.
  intros H. unfold conserves. apply forallb_forall. intros [k c] Hin. cbn [iv_classes] in Hin.
  apply list_elem_of_In, list_elem_of_lookup in Hin as [i Hi].
  apply Z.eqb_eq. apply lookup_zip_Some in Hi as [Hk Hc]. by apply (H i c k).
Qed.

Lemma wp_inventory h :
  handle_inv g h ->
  wp (inventory b) (fun i h' => client_frame h h' /\ length (iv_classes i) = CLASS_COUNT /\ conserves i g = true /\
       iv_outstanding_returns i = live_count (hd_live h)) (fun _ _ => False) h.
Proof.
  intros Hinv. unfold inventory. wp_step. wp_step. wp_step.
  assert (wp (E := RingError) (if hd_producer h then
         quarantined ← is_quarantined b;
         if (quarantined : bool) then mret () else _ ← attempt (reclaim_completions b); mret ()
       else mret ()) (fun _ h' => client_frame h h') (fun _ _ => False) h) as Hpre.
  { destruct (hd_producer h); [|by apply wp_ret, client_refl]. wp_step.
    apply wp_is_quarantined; [intros _|by apply wp_ret, client_latch, client_refl].
    wp_step. wp_step. eapply wp_mono; [by apply framed_reclaim| |]; intros ? h1 H1; by apply wp_ret. }
  eapply wp_mono; [exact Hpre| |done]; cbn beta. intros _ h1 H1. wp_step. wp_step. wp_step.
  pose proof (cf_inv _ _ H1) as (Hl & _ & [_ _ _ Hcount]).
  assert (forall classes h2, client_frame h h2 -> hd_outstanding_returns h2 = hd_outstanding_returns h1 ->
    length classes = CLASS_COUNT ->
    (forall i c k, pg_classes g !! i = Some c -> classes !! i = Some k -> class_total k = cs_count c) ->
    wp (E := RingError) (consumed ← match consumer_page b with Ok _ => load sh_consumed | Err _ => mret 0 end;
        h ← get_handle;
        mret (mkInventory classes (saturating_sub (hd_published_local h) consumed) (descriptor_depth g)
          (pg_ordinary_descriptors g) (hd_outstanding_returns h) (pl_retired (hd_ledger h1))))
      (fun i h' => client_frame h h' /\ length (iv_classes i) = CLASS_COUNT /\ conserves i g = true /\
         iv_outstanding_returns i = live_count (hd_live h)) (fun _ _ => False) h2) as Hrest.
  { intros classes h2 H2 Ho Hlen Hsum. wp_step.
    assert (forall v, wp (E := RingError) (h ← get_handle;
        mret (mkInventory classes (saturating_sub (hd_published_local h) v) (descriptor_depth g)
          (pg_ordinary_descriptors g) (hd_outstanding_returns h) (pl_retired (hd_ledger h1))))
      (fun i h' => client_frame h h' /\ length (iv_classes i) = CLASS_COUNT /\ conserves i g = true /\
         iv_outstanding_returns i = live_count (hd_live h)) (fun _ _ => False) h2) as Hv.
    { intros v. wp_step. wp_step. apply wp_ret. split; [done|]. split; [done|].
      split; [by apply conserves_alt|]. cbn. by rewrite Ho, Hcount, (cf_live _ _ H1). }
    destruct (consumer_page b); [wp_step; apply Hv|apply wp_ret, Hv]. }
  apply wp_is_quarantined; [intros _|].
  - apply Hrest; [done|done| |].
    + assert (forall ss x cs, length (count_states b x ss cs) = length cs) as Hlen.
      { induction ss as [|s ss IH]; intros x cs; cbn [count_states]; [done|]. rewrite IH.
        destruct (placement _ _); [apply length_alter|done]. }
      by rewrite Hlen.
    + intros i c k Hc Hk. pose proof (lookup_lt_Some _ _ _ Hc) as Hlt. rewrite (go_length _ Hg) in Hlt.
      destruct (count_states_total (pl_states (hd_ledger h1)) 0 (replicate CLASS_COUNT (mkClassInventory 0 0 0)) i
        (mkClassInventory 0 0 0)) as (k' & Hk' & Ht); [by apply lookup_replicate_2|].
      rewrite Hk' in Hk. injection Hk as <-. rewrite Ht, (li_states _ _ _ Hl).
      pose proof (block_count_range g Hg). rewrite Z2Nat.id, (class_hits i c) by (done || lia). unfold class_total. cbn. lia.
  - apply Hrest; [by apply client_latch|done|rewrite length_fmap; apply (go_length _ Hg)|].
    intros i c k Hc. rewrite list_lookup_fmap. fold g. rewrite Hc. intros [= <-]. unfold class_total. cbn. lia.
Qed.

(** ** Every operation *)

(** Nothing a client does rewinds a handle. *)
Record progress (h h' : Handle) : Prop := {
  pg_latch : hd_quarantined h = true -> hd_quarantined h' = true;
  pg_published : hd_published_local h <= hd_published_local h';
  pg_generations : forall x old, pl_generations (hd_ledger h) !! x = Some old ->
    exists new, pl_generations (hd_ledger h') !! x = Some new /\ old <= new;
}.

Lemma frame_progress h h' : client_frame h h' -> progress h h'.
Proof. intros [_ _ Hg' _ Hq Hp]. split; [done|lia|]. intros x old. rewrite Hg'. eauto with lia. Qed.

Lemma aborted_progress h x h' : aborted_to b h x h' -> progress h h'.
Proof. intros [_ _ _ Hg' Hq [Hp _] _]. split; [by rewrite Hq|lia|]. intros y old. rewrite Hg'. eauto with lia. Qed.

Lemma committed_progress h x p h' : committed_to b h x p h' -> progress h h'.
Proof.
  intros [_ Hg' _ Hq _ Hblk]. split; [done| |].
  - destruct p; destruct Hblk as (_ & _ & ->); lia.
  - intros y old. rewrite Hg'. eauto with lia.
Qed.

Lemma reserved_progress h inv bound header r h' : reserved_to b h inv bound header r h' -> progress h h'.
Proof.
  intros H. destruct (rt_usable _ _ _ _ _ _ _ H) as [Hq _]. destruct (rt_headroom _ _ _ _ _ _ _ H) as [Hp _].
  destruct (rt_generation _ _ _ _ _ _ _ H) as (old & Hold & Hgen & _ & Hins). split; [congruence|lia|].
  intros x v Hv. rewrite Hins. destruct (decide (x = Z.to_nat (pr_block r))) as [->|Hne].
  - rewrite list_lookup_insert_eq by (by eapply lookup_lt_Some). eexists. split; [done|]. simplify_eq. lia.
  - rewrite list_lookup_insert_ne by done. eauto with lia.
Qed.

Lemma reserved_side h inv bound header r h' ls :
  handle_inv g h -> leases_ok b h ls -> is_u64 bound -> header_ok header ->
  handle_inv g h' -> reserved_to b h inv bound header r h' -> side_inv b h' (Some r, ls).
Proof.
  intros Hinv Hls Hb0 Hh Hinv' H. destruct H as [_ _ Hblk _ _ (old & Hold & Hgr & Hmax & Hins) _ [Hm Hp] (Hc & Hcur & Hhd & Hf) _ (Hlv & _)].
  split; [done|]. split; [|by eapply frame_leases]. cbn. intros r0 [= <-].
  assert (is_u64 old) as Ho by (eapply Forall_lookup_1; [apply Hinv|done]).
  split; try done; rewrite ?Hc, ?Hcur, ?Hhd; try done; try mlia.
  by rewrite Hins, list_lookup_insert_eq by (by eapply lookup_lt_Some).
Qed.

Lemma received_side h l h' o ls :
  received_to b h l h' -> side_inv b h (o, ls) -> side_inv b h' (o, ls ++ [l]).
Proof.
  intros [Hinv Hlo _ _ [Hw _] Hlv _ _ Hled [Hr _]] (_ & Hres & Hls). cbn in *.
  pose proof Hls as [Heach Hnd Hcnt]. unfold live_generation in *.
  assert (le_block l ∉ le_block <$> ls) as Hfresh.
  { intros (l' & Hb' & Hin)%list_elem_of_fmap. rewrite Forall_forall in Heach.
    destruct (Heach l') as [Hok Hlive]; [by apply list_elem_of_In|]. destruct Hok as (_ & Hgen & _).
    rewrite <- Hb', Hw in Hlive. injection Hlive. lia. }
  split; [done|]. split.
  { intros r Hc. destruct (Hres r Hc). split; try done; [by rewrite Hr|by rewrite Hled]. }
  cbn [snd]. split.
  - apply Forall_app. split.
    + rewrite Forall_forall in Heach |- *. intros l' Hin. destruct (Heach l' Hin) as [Hok Hlive]. split; [done|].
      unfold live_generation. rewrite Hlv, list_lookup_insert_ne; [done|]. intros Heq. apply Hfresh.
      apply list_elem_of_fmap. exists l'. split; [|by apply list_elem_of_In].
      destruct Hlo as (? & _), Hok as (? & _). lia.
    + apply Forall_singleton. split; [done|]. unfold live_generation. rewrite Hlv.
      apply list_lookup_insert_eq. by eapply lookup_lt_Some.
  - rewrite fmap_app. cbn. apply list.NoDup_app. split; [done|]. split; [|apply NoDup_singleton].
    intros x Hx ->%list_elem_of_singleton. done.
  - rewrite Hlv, (live_count_insert _ _ _ _ Hw), Hcnt, length_app. cbn. unfold live_mark.
    destruct Hlo as (_ & Hgen & _). bcase; lia.
Qed.

Lemma returned_side h l i o ls :
  side_inv b h (o, ls) -> ls !! i = Some l ->
  side_inv b (returned_handle h (le_block l) (le_generation l)) (o, delete i ls) /\
  progress h (returned_handle h (le_block l) (le_generation l)).
Proof.
  intros (Hinv & Hres & [Heach Hnd Hcnt]) Hi. cbn in *.
  destruct (Forall_lookup_1 _ _ _ _ Heach Hi) as [Hok Hlive].
  destruct (returned_owner page_size b Hb h l Hinv Hok Hlive) as (Hinv' & Hlv & _ & Heq).
  assert (Hprog : progress h (returned_handle h (le_block l) (le_generation l))).
  { rewrite Heq. split; cbn; [done|lia|eauto with lia]. }
  split; [|done]. split; [done|]. split.
  { cbn. intros r Hc. destruct (Hres r Hc). rewrite Heq. by split. }
  pose proof (delete_Permutation ls i l Hi) as Hperm. cbn. split.
  - rewrite Forall_forall in Heach |- *. intros l' Hin.
    assert (In l' ls) as Hin' by (rewrite Hperm; by right). destruct (Heach l' Hin') as [Hok' Hlive']. split; [done|].
    unfold live_generation in *. rewrite Hlv, list_lookup_insert_ne; [done|]. intros Hbb.
    rewrite Hperm in Hnd. cbn in Hnd. apply list.NoDup_cons in Hnd as [Hn _]. apply Hn.
    apply list_elem_of_fmap. exists l'. split; [|by apply list_elem_of_In]. destruct Hok as (? & _), Hok' as (? & _). lia.
  - rewrite Hperm in Hnd. cbn in Hnd. by apply list.NoDup_cons in Hnd as [_ ?].
  - unfold live_generation in Hlive. apply Permutation_length in Hperm. cbn [length] in Hperm.
    rewrite Hlv, (live_count_insert _ _ _ _ Hlive), Hcnt, Hperm.
    unfold live_mark. destruct Hok as (_ & Hgen & _). cbn [Z.eqb]. bcase; lia.
Qed.

(** An operation on a side: no panic, the invariant again, nothing rewound. *)
Definition safe (c : Clients) (m : M Empty_set Clients) (h : Handle) : Prop :=
  wp m (fun c' h' => side_inv b h' c' /\ progress h h') (fun _ _ => False) h.

Lemma framed_safe {A} (m : M RingError A) h c :
  framed m -> side_inv b h c -> safe c (_ ← attempt m; mret c) h.
Proof.
  intros Hm Hs. pose proof Hs as (Hinv & _). unfold safe. wp_step. wp_step.
  eapply wp_mono; [by apply Hm| |]; cbn beta; intros ? h' Hf; apply wp_ret;
    (split; [by eapply frame_side|by apply frame_progress]).
Qed.

Lemma res_kept h r' ls o :
  res_ok b h r' -> side_inv b h (o, ls) -> side_inv b h (keep_open r', ls).
Proof.
  intros Hr (Hinv & _ & Hls). split; [done|]. split; [|done]. unfold keep_open. rewrite (ro_open _ _ _ Hr). cbn.
  by intros ? [= <-].
Qed.

Lemma safe_method h r ls (m : M ProducerError (ProducerReservation * result ProducerError unit)) :
  side_inv b h (Some r, ls) ->
  wp m (fun o h' => (h' = h /\ res_ok b h o.1) \/ (pr_finished o.1 = true /\ aborted_to b h (pr_block r) h'))
    (fun _ _ => False) h ->
  safe (Some r, ls) (o ← attempt m; mret (match o with Ok (r, _) => (keep_open r, ls) | Err _ => (Some r, ls) end)) h.
Proof.
  intros Hs Hm. pose proof Hs as (Hinv & _ & Hls). unfold safe. wp_step. wp_step.
  eapply wp_mono; [exact Hm| |done]; cbn beta. intros [r' o] h' [[-> Hr]|[Hf Ha]]; apply wp_ret; cbn [fst] in *.
  - split; [by eapply res_kept|by apply frame_progress, client_refl].
  - unfold keep_open. rewrite Hf. split; [by eapply aborted_side|by eapply aborted_progress].
Qed.

Lemma wp_exec op h c : side_inv b h c -> op_ok op -> safe c (exec b op c) h.
Proof.
  intros Hs Hop. destruct c as [open ls]. pose proof Hs as (Hinv & Hres & Hls). cbn [fst snd] in *.
  assert (safe (open, ls) (mret (open, ls)) h) as Hskip
    by (apply wp_ret; split; [done|by apply frame_progress, client_refl]).
  destruct op as [inv bound header|bytes|n|header|n| | |i| | | | | | |inv bound| |]; cbn [exec op_ok] in *.
  - destruct Hop as [Hbound Hh]. unfold safe. wp_step. wp_step.
    eapply wp_mono; [by apply (wp_try_reserve page_size b Hb)| |]; cbn beta.
    + intros r h' [Hinv' H]. apply wp_ret. split; [by apply (reserved_side h inv bound header)|by eapply reserved_progress].
    + intros e h' H%refused_client. apply wp_ret. split; [by eapply frame_side|by apply frame_progress].
  - destruct open as [r|]; [|done]. apply safe_method; [done|]. apply wp_reservation_write; [done|by apply Hres|apply Hop].
  - destruct open as [r|]; [|done]. apply safe_method; [done|]. apply wp_reservation_advance; [done|by apply Hres|apply Hop].
  - destruct open as [r|]; [|done]. apply wp_ret. split; [|by apply frame_progress, client_refl].
    destruct (Hres r eq_refl) as [Hf ? ? ? ? ? ?]. unfold set_wire_header. rewrite Hf. cbn [fst].
    eapply res_kept; [|done]. by split.
  - destruct open as [r|]; [|done]. unfold safe. wp_step. wp_step.
    eapply wp_mono; [by apply wp_commit; [|apply Hres|]| |]; cbn beta.
    + intros id h' [Hc _]. apply wp_ret. split; [by eapply committed_side|by eapply committed_progress].
    + intros e h' [[_ [p Hc]]|[Ha|Ha]]; apply wp_ret.
      * split; [by eapply committed_side|by eapply committed_progress].
      * split; [by eapply aborted_side|by eapply aborted_progress].
      * split; [eapply aborted_side; [done|]; by eapply (frame_leases h)|].
        destruct (aborted_progress _ _ _ Ha). split; [auto|done|done].
  - destruct open as [r|]; [|done]. unfold safe, reservation_drop. wp_step. wp_step.
    eapply wp_mono; [apply (wp_abort_now h r (fun _ _ => False)); [done|by destruct (Hres r eq_refl)]| |done]; cbn beta.
    intros r' h' [_ Ha]. apply wp_ret, wp_ret. split; [by eapply aborted_side|by eapply aborted_progress].
  - unfold safe. wp_step. wp_step. eapply wp_mono; [by apply (wp_try_receive page_size b Hb)| |]; cbn beta.
    + intros [l|] h' H; apply wp_ret.
      * destruct H as [H Hq]. split; [by eapply received_side|]. destruct H as [_ _ _ _ _ _ _ _ Hled (_ & Hp & _)].
        split; [congruence|lia|]. rewrite Hled. eauto with lia.
      * destruct H as [H%kept_client _]. split; [by eapply frame_side|by apply frame_progress].
    + intros e h' [H%kept_client _]. apply wp_ret. split; [by eapply frame_side|by apply frame_progress].
  - destruct (ls !! i) as [l|] eqn:Hi; [|done]. unfold safe. wp_step. wp_step.
    destruct (returned_side h l i open ls Hs Hi) as [Hs' Hp].
    destruct (Forall_lookup_1 _ _ _ _ (lk_each _ _ _ Hls) Hi) as [(? & ? & ? & _) _].
    apply wp_lease_drop; [done|lia|mlia|]. apply wp_ret. done.
  - apply framed_safe; [intros ? ?; by apply wp_probe|done].
  - apply framed_safe; [|done]. intros h0 H0. eapply wp_mono; [by apply wp_inventory| |done]. by intros ? ? [? _].
  - apply framed_safe; [apply framed_take_reclaimed|done].
  - apply framed_safe; [apply framed_has_data|done].
  - apply framed_safe; [apply framed_arm_data_wait|done].
  - apply framed_safe; [apply framed_complete_data_wait|done].
  - apply framed_safe; [apply framed_arm_capacity_wait|done].
  - apply framed_safe; [apply framed_complete_capacity_wait|done].
  - unfold safe. wp_step. apply wp_enter_quarantine. apply wp_ret.
    assert (client_frame h (set_latch true h)) by (by apply client_latch, client_refl).
    split; [by eapply frame_side|by apply frame_progress].
Qed.
End Side.
