(* ===== verification/RingTheorems.v ===== *)
(** * RingTheorems: the guarantees of one ring handle, whatever its peer does.

    The theorems quantify over every reachable side ([reach]): any client operations so far, and a
    peer that changed the shared memory arbitrarily before, during and after each of them. *)
From S2P Require Import Prelude.
From S2P Require Import Pool.
From S2P Require Import Descriptor.
From S2P Require Import SpanCopy.
From S2P Require Import Retained.
From S2P Require Import Grant.
From S2P Require Import Ring.
From S2P Require Import RingLogic.
From S2P Require Import RingLedger.
From S2P Require Import RingSafety.

Lemma wp_run {E A} (m : M E A) Q R h s peer bell :
  wp m Q R h -> shared_ok s -> peer_ok peer ->
  (exists a w', m (mkWorld s h peer bell) = (Done a, w') /\ Q a (w_handle w')) \/
  (exists e w', m (mkWorld s h peer bell) = (Fail e, w') /\ R e (w_handle w')).
Proof.
  intros H Hs Hp. specialize (H s peer bell Hs Hp). destruct (m _) as [[a|e|] w'] eqn:Em; [left|right|done]; naive_solver.
Qed.

Lemma nodup_concat {A} (fs : list (list A)) :
  (forall i st, fs !! i = Some st -> NoDup st) ->
  (forall i j st st' x, fs !! i = Some st -> fs !! j = Some st' -> x ∈ st -> x ∈ st' -> i = j) -> NoDup (concat fs).
Proof.
  induction fs as [|st fs IH]; intros Hn Hd; cbn; [by constructor|].
  apply list.NoDup_app. split; [by apply (Hn 0%nat)|]. split.
  - intros x Hx (st' & Hst' & Hx')%list_elem_of_In%in_concat. apply list_elem_of_In, list_elem_of_lookup in Hst' as [j Hj].
    apply list_elem_of_In in Hx'. by pose proof (Hd 0%nat (S j) st st' x eq_refl Hj Hx Hx').
  - apply IH; [intros i st' Hi; by apply (Hn (S i) st')|]. intros i j s1 s2 x H1 H2 Hx1 Hx2.
    by pose proof (Hd (S i) (S j) s1 s2 x H1 H2 Hx1 Hx2) as [= ->].
Qed.

Section Reach.
Context (page_size : Z) (b : Backing).
Hypothesis Hb : backing_ok page_size b.
Let g : PoolGeometry := bk_geometry b.
Let Hg : geometry_ok g := bo_geometry _ _ Hb.

Lemma reach_inv h c : reach b h c -> side_inv b h c.
Proof.
  induction 1 as [allowed published consumed Hc Hp Hd|op h c s peer bell c' w' _ IH Hop Hs Hpeer Hx].
  - split; [by apply (fresh_handle_inv g Hg)|]. split; [done|]. split; cbn; [by constructor|by constructor|].
    unfold live_count. rewrite fmap_replicate, zsum_replicate. unfold live_mark. cbn. lia.
  - destruct (wp_run _ _ _ _ s peer bell (wp_exec page_size b Hb op h c IH Hop) Hs Hpeer) as [(a & w & Ha & Hi & _)|(e & _)];
      [|by destruct e]. rewrite Hx in Ha. by simplify_eq.
Qed.

Lemma reach_handle h c : reach b h c -> handle_inv g h.
Proof. intros H. apply (reach_inv _ _ H). Qed.

(** The free stacks, the reserved block and the outstanding list partition the block ids. *)
Lemma ledger_partition l r :
  ledger_inv g l r -> concat (pl_free l) ++ option_list r ++ pl_outstanding l ≡ₚ seqZ 0 (block_count g).
Proof.
  intros Hl. pose proof Hl as [Hst _ _ Hcl Hfree [Ho Hom] Hres _].
  assert (forall x, x ∈ concat (pl_free l) <-> block_is l x Free) as Hin.
  { intros x. rewrite list_elem_of_In, in_concat. split.
    - intros (st & Hst' & Hx). apply list_elem_of_In, list_elem_of_lookup in Hst' as [i Hi].
      by apply (Hfree i st Hi), list_elem_of_In.
    - intros Hx. pose proof (block_is_bound g Hg _ _ _ _ Hl Hx) as Hbd. destruct (class_of_total g Hg x Hbd) as [i Hi].
      destruct (class_of_lt g Hg x i ltac:(lia) Hi) as [Hlt _].
      destruct (lookup_lt_is_Some_2 (pl_free l) i) as [st Hs]; [by rewrite Hcl|]. exists st.
      split; [by eapply list_elem_of_In, list_elem_of_lookup_2|]. apply list_elem_of_In. by apply (Hfree i st Hs). }
  apply NoDup_Permutation.
  - apply list.NoDup_app. split; [|split; [|apply list.NoDup_app; split; [|split; [|done]]]].
    + apply nodup_concat; [intros i st Hi; by apply (Hfree i st)|]. intros i j st st' x Hi Hj Hx Hx'.
      apply (Hfree i st Hi) in Hx as [_ Hx]. apply (Hfree j st' Hj) in Hx' as [_ Hx']. congruence.
    + intros x Hx%Hin [Hr|Hp]%elem_of_app.
      * destruct r as [y|]; [|by apply not_elem_of_nil in Hr]. apply list_elem_of_singleton in Hr as ->.
        by pose proof (block_is_fun _ _ _ _ Hx (proj1 (Hres y) eq_refl)).
      * apply Hom in Hp. by pose proof (block_is_fun _ _ _ _ Hx Hp).
    + destruct r; [apply NoDup_singleton|by constructor].
    + intros x Hr Hp. destruct r as [y|]; [|by apply not_elem_of_nil in Hr]. apply list_elem_of_singleton in Hr as ->.
      apply Hom in Hp. by pose proof (block_is_fun _ _ _ _ Hp (proj1 (Hres y) eq_refl)).
  - apply NoDup_seqZ.
  - intros x. rewrite !elem_of_app, Hin, Hom, elem_of_seqZ. split.
    + intros [Hx|[Hr|Hx]]; [by apply (block_is_bound g Hg _ _ _ _ Hl) in Hx| |by apply (block_is_bound g Hg _ _ _ _ Hl) in Hx].
      destruct r as [y|]; [|by apply not_elem_of_nil in Hr]. apply list_elem_of_singleton in Hr as ->.
      by apply (block_is_bound g Hg _ _ _ _ Hl (proj1 (Hres y) eq_refl)).
    + intros Hx. destruct (lookup_lt_is_Some_2 (pl_states l) (Z.to_nat x)) as [s Hs]; [rewrite Hst; lia|].
      assert (block_is l x s) as His by (split; [lia|done]). destruct s; [by left| |by right; right].
      right. left. apply Hres in His as ->. cbn. by apply list_elem_of_singleton.
Qed.
End Reach.

(** ** A concrete side for the witnesses *)
Definition host_side : Handle := fresh_handle host_geometry true 0 0.

Lemma host_side_reach : reach host_backing host_side (None, []).
Proof. apply reach_new; vm_compute; [split|..]; discriminate. Qed.

(** A peer that latches the quarantine flag and corrupts the cursors between accesses. *)
Definition hostile : list (Shared -> Shared) :=
  [fun s => s; set_published 7; set_consumed 3; set_quarantined 1; set_completion 0 9].

Lemma host_shared_ok : shared_ok (initialize_mapping host_backing).
Proof. split; cbn; try mlia; intros; try split_and!; try mlia. unfold byte_mem. intros. cbn. mlia. Qed.

Lemma hostile_ok : peer_ok hostile.
Proof. repeat (apply Forall_cons_iff; split; [intros s Hs; auto with machine; try (apply shared_ok_published || apply shared_ok_consumed || apply shared_ok_completion); try done; mlia|]). constructor. Qed.

Definition host_op : Op := OpReserve InvOrdinary 100 (le_bytes 4 100 ++ replicate 16 0).

Lemma host_op_ok : op_ok host_op.
Proof. split; [mlia|]. split; [reflexivity|]. repeat constructor; vm_compute; discriminate. Qed.

(** A side and its world after a sequence of operations. *)
Definition steps (b : Backing) (ops : list Op) (st : Clients * World) : Clients * World :=
  foldl (fun st op => match exec b op st.1 st.2 with (Done c, w) => (c, w) | _ => st end) st ops.

Record live_world (b : Backing) (st : Clients * World) : Prop := {
  lw_reach : reach b (w_handle st.2) st.1;
  lw_shared : shared_ok (w_shared st.2);
  lw_peer : peer_ok (w_peer st.2);
}.

Lemma steps_live page_size b ops st :
  backing_ok page_size b -> Forall op_ok ops -> live_world b st -> live_world b (steps b ops st).
Proof.
  intros Hb. revert st. induction ops as [|op ops IH]; intros st Hops Hl; cbn [steps foldl]; [done|].
  apply Forall_cons_iff in Hops as [Hop Hops]. apply IH; [done|]. destruct st as [c [s h peer bell]], Hl as [Hr Hs Hp]. cbn in *.
  pose proof (wp_exec page_size b Hb op h c (reach_inv _ _ Hb _ _ Hr) Hop s peer bell Hs Hp) as H.
  destruct (exec b op c _) as [[c'|e|] w'] eqn:E; [|by destruct e|done]. destruct H as (Hs' & Hp' & _).
  split; [exact (reach_op _ _ _ _ _ _ _ _ _ Hr Hop Hs Hp E)|done|done].
Qed.

(** A producer with a reservation of 100 bytes, one with the bytes written, one that committed
    them, and a consumer attached to the result. *)
Definition host_start : Clients * World := ((None, []), mkWorld (initialize_mapping host_backing) host_side [] []).
Definition host_open : Clients * World := steps host_backing [host_op] host_start.
Definition host_filled : Clients * World := steps host_backing [host_op; OpWrite (replicate 100 65)] host_start.
Definition host_sent : Clients * World :=
  steps host_backing [host_op; OpWrite (replicate 100 65); OpCommit 100] host_start.
Definition host_consumer : Clients * World :=
  ((None, []), mkWorld (w_shared host_sent.2) (fresh_handle host_geometry false 0 0) [] []).
Definition host_received : Clients * World := steps host_backing [OpReceive] host_consumer.

Lemma host_ops_ok : Forall op_ok [host_op; OpWrite (replicate 100 65); OpCommit 100].
Proof.
  constructor; [exact host_op_ok|]. constructor; [|constructor; [vm_compute; split; discriminate|constructor]].
  split; [apply Forall_replicate; mlia|vm_compute; discriminate].
Qed.

Lemma host_start_live : live_world host_backing host_start.
Proof. split; [exact host_side_reach|exact host_shared_ok|constructor]. Qed.

Lemma host_open_live : live_world host_backing host_open.
Proof. exact (steps_live _ _ _ _ host_backing_ok (Forall_take _ 1 _ host_ops_ok) host_start_live). Qed.

Lemma host_filled_live : live_world host_backing host_filled.
Proof. exact (steps_live _ _ _ _ host_backing_ok (Forall_take _ 2 _ host_ops_ok) host_start_live). Qed.

Lemma host_sent_live : live_world host_backing host_sent.
Proof. exact (steps_live _ _ _ _ host_backing_ok host_ops_ok host_start_live). Qed.

Lemma host_consumer_live : live_world host_backing host_consumer.
Proof.
  pose proof (lw_shared _ _ host_sent_live) as Hs. unfold host_consumer. generalize dependent (w_shared host_sent.2).
  intros s Hs. split; cbn [fst snd w_handle w_shared w_peer]; [|exact Hs|constructor].
  apply reach_new; vm_compute; [split|..]; discriminate.
Qed.

Lemma host_received_live : live_world host_backing host_received.
Proof. apply (steps_live _ _ _ _ host_backing_ok); [by repeat constructor|exact host_consumer_live]. Qed.

(** ** Guarantees *)

(** C1: no operation of a ring handle can panic or leave it inconsistent, whatever values the
    peer writes into the shared memory and whenever it writes them: every operation of a reachable
    side returns, its published counter and every block's generation never go back, and a latched
    quarantine stays latched. *)
Theorem ring_operations_total page_size b h c op s peer bell :
  backing_ok page_size b -> reach b h c -> op_ok op -> shared_ok s -> peer_ok peer ->
  exists c' w', exec b op c (mkWorld s h peer bell) = (Done c', w') /\ reach b (w_handle w') c' /\
    hd_published_local h <= hd_published_local (w_handle w') /\
    (forall x old, pl_generations (hd_ledger h) !! x = Some old ->
       exists new, pl_generations (hd_ledger (w_handle w')) !! x = Some new /\ old <= new) /\
    (hd_quarantined h = true -> hd_quarantined (w_handle w') = true).
Proof.
  intros Hb Hr Hop Hs Hp. pose proof (reach_inv _ _ Hb _ _ Hr) as Hi.
  destruct (wp_run _ _ _ _ s peer bell (wp_exec page_size b Hb op h c Hi Hop) Hs Hp) as [(c' & w' & Hx & _ & [Hq Hpub Hgen])|(e & _)];
    [|by destruct e].
  exists c', w'. split; [done|]. split; [by eapply reach_op|]. done.
Qed.

Lemma ring_operations_total_witness :
  exists c' w', exec host_backing host_op (None, []) (mkWorld (initialize_mapping host_backing) host_side hostile []) = (Done c', w').
Proof.
  destruct (ring_operations_total 4096 host_backing host_side (None, []) host_op (initialize_mapping host_backing) hostile []
    host_backing_ok host_side_reach host_op_ok host_shared_ok hostile_ok) as (c' & w' & Hx & _).
  by exists c', w'.
Defined.

(** C2: blocks are conserved: in every reachable state the free stacks, the reserved block and the
    outstanding list together hold each block id of the geometry exactly once, each free stack holds
    only blocks of its own class, and the blocks waiting for settlement are distinct free blocks. *)
Theorem ring_blocks_conserved page_size b h c :
  backing_ok page_size b -> reach b h c ->
  concat (pl_free (hd_ledger h)) ++ option_list (hd_reserved_block h) ++ pl_outstanding (hd_ledger h)
    ≡ₚ seqZ 0 (block_count (bk_geometry b)) /\
  (forall i stack x, pl_free (hd_ledger h) !! i = Some stack -> x ∈ stack -> class_of (bk_geometry b) x = Some i) /\
  NoDup (pl_reclaimed (hd_ledger h)) /\
  (forall x, x ∈ pl_reclaimed (hd_ledger h) -> pl_states (hd_ledger h) !! Z.to_nat x = Some Free).
Proof.
  intros Hb Hr. destruct (reach_handle _ _ Hb _ _ Hr) as (Hl & _). split; [by eapply ledger_partition|].
  destruct Hl as [_ _ _ _ Hfree _ _ [Hnd Hrec]]. split; [|split; [done|intros x Hx; by apply Hrec]].
  intros i stack x Hi Hx. by apply (Hfree i stack Hi).
Qed.

Lemma ring_blocks_conserved_witness :
  concat (pl_free (hd_ledger host_side)) ++ option_list (hd_reserved_block host_side) ++ pl_outstanding (hd_ledger host_side)
    ≡ₚ seqZ 0 (block_count (bk_geometry host_backing)).
Proof. apply (ring_blocks_conserved 4096 host_backing host_side (None, []) host_backing_ok host_side_reach). Defined.

(** The bytes of one frame in the mapping. *)
Definition frame_range (b : Backing) (p : BlockPlacement) (body_len : Z) : Z * Z :=
  ((block_range b p).1, (block_range b p).1 + WIRE_HEADER_BYTES + body_len).

Lemma lease_frame page_size b l :
  backing_ok page_size b -> lease_ok b l ->
  exists p, placement (bk_geometry b) (le_block l) = Some p /\
    header_ptr b (le_block l) = Ok (frame_range b p (le_body_len l)).1 /\
    body_ptr b (le_block l) (le_body_len l) = Ok ((frame_range b p (le_body_len l)).1 + WIRE_HEADER_BYTES) /\
    (frame_range b p (le_body_len l)).2 <= (block_range b p).2.
Proof.
  intros Hb (Hbl & _ & _ & Hlen & (p & Hp & Hcap) & _). exists p. split; [done|].
  pose proof (placement_block_bytes _ _ _ (bo_geometry _ _ Hb) (proj1 Hbl) Hp) as Hsize.
  rewrite (header_ptr_ok _ _ Hb _ p) by (done || lia). rewrite (body_ptr_ok _ _ Hb _ p) by (done || lia).
  cbn. split; [f_equal; lia|]. bcase; [lia|]. split; [f_equal; lia|].
  unfold BlockPlacement_body_capacity, saturating_sub, WIRE_HEADER_BYTES in *. lia.
Qed.

(** C4: unreturned payloads never alias: a reachable side's leases name distinct blocks, their
    number is the receiver's outstanding count, each lease's header and body addresses are valid and
    inside its own block, and the byte ranges of two leases are disjoint. *)
Theorem leases_never_alias page_size b h r leases :
  backing_ok page_size b -> reach b h (r, leases) ->
  NoDup (le_block <$> leases) /\ hd_outstanding_returns h = Z.of_nat (length leases) /\
  (forall i l, leases !! i = Some l -> exists p, placement (bk_geometry b) (le_block l) = Some p /\
     header_ptr b (le_block l) = Ok (frame_range b p (le_body_len l)).1 /\
     body_ptr b (le_block l) (le_body_len l) = Ok ((frame_range b p (le_body_len l)).1 + WIRE_HEADER_BYTES) /\
     (frame_range b p (le_body_len l)).2 <= (block_range b p).2) /\
  (forall i j l l' p p', leases !! i = Some l -> leases !! j = Some l' -> i <> j ->
     placement (bk_geometry b) (le_block l) = Some p -> placement (bk_geometry b) (le_block l') = Some p' ->
     (block_range b p).2 <= (block_range b p').1 \/ (block_range b p').2 <= (block_range b p).1).
Proof.
  intros Hb Hr. destruct (reach_inv _ _ Hb _ _ Hr) as ((_ & _ & [_ _ _ Hcount]) & _ & [Heach Hnd Hcnt]). cbn in *.
  split; [done|]. split; [congruence|]. split.
  - intros i l Hi. destruct (Forall_lookup_1 _ _ _ _ Heach Hi) as [Hok _]. by eapply lease_frame.
  - intros i j l l' p p' Hi Hj Hne Hp Hp'.
    destruct (Forall_lookup_1 _ _ _ _ Heach Hi) as [(H1 & _) _]. destruct (Forall_lookup_1 _ _ _ _ Heach Hj) as [(H2 & _) _].
    destruct (Z.lt_trichotomy (le_block l) (le_block l')) as [Hlt|[Heq|Hlt]].
    + left. pose proof (placement_ordered _ _ _ _ _ (bo_geometry _ _ Hb) (conj (proj1 H1) Hlt) Hp Hp'). cbn. lia.
    + exfalso. apply Hne. apply (NoDup_lookup (le_block <$> leases) i j (le_block l)); [done|by rewrite list_lookup_fmap, Hi|].
      rewrite list_lookup_fmap, Hj. cbn. by rewrite Heq.
    + right. pose proof (placement_ordered _ _ _ _ _ (bo_geometry _ _ Hb) (conj (proj1 H2) Hlt) Hp' Hp). cbn. lia.
Qed.

Lemma leases_never_alias_witness :
  length host_received.1.2 = 1%nat /\
  hd_outstanding_returns (w_handle host_received.2) = Z.of_nat (length host_received.1.2).
Proof.
  split; [vm_compute; reflexivity|]. pose proof (lw_reach _ _ host_received_live) as Hr. destruct host_received as [[r ls] w].
  apply (leases_never_alias 4096 host_backing (w_handle w) r ls host_backing_ok Hr).
Defined.

(** An inventory always answers and conserves the pool: for each class the free, reserved and
    published counts add up to the class's blocks, whether the ring is healthy or quarantined, and
    the outstanding returns are the unreturned leases. *)
Theorem inventory_conserves page_size b h r leases s peer bell :
  backing_ok page_size b -> reach b h (r, leases) -> shared_ok s -> peer_ok peer ->
  exists i w', inventory b (mkWorld s h peer bell) = (Done i, w') /\
    length (iv_classes i) = length (pg_classes (bk_geometry b)) /\ conserves i (bk_geometry b) = true /\
    iv_outstanding_returns i = Z.of_nat (length leases).
Proof.
  intros Hb Hr Hs Hp. destruct (reach_inv _ _ Hb _ _ Hr) as (Hi & _ & [_ _ Hcnt]). cbn in *.
  destruct (wp_run _ _ _ _ s peer bell (wp_inventory page_size b Hb h Hi) Hs Hp) as [(i & w' & Hx & _ & Hlen & Hc & Ho)|(e & w' & _ & [])].
  exists i, w'. rewrite (go_length _ (bo_geometry _ _ Hb)). split_and!; [done|done|done|congruence].
Qed.

Lemma inventory_conserves_witness :
  exists i w', inventory host_backing (mkWorld (initialize_mapping host_backing) host_side hostile []) = (Done i, w') /\
    conserves i host_geometry = true.
Proof.
  destruct (inventory_conserves 4096 host_backing host_side None [] (initialize_mapping host_backing) hostile []
    host_backing_ok host_side_reach host_shared_ok hostile_ok) as (i & w' & Hx & _ & Hc & _). by exists i, w'.
Defined.

(** A reservation either grants one block or charges nothing. A grant happens only on a usable
    producer with no open reservation; the block is of the smallest class that fits, was not held,
    gets the next generation, and the queue is below the inventory's descriptor limit. A refusal
    keeps the open reservation, every generation and the published count, and the only block
    movements are returns of published blocks. *)
Theorem reservation_outcome page_size b h c inventory bound header s peer bell :
  backing_ok page_size b -> reach b h c -> shared_ok s -> peer_ok peer ->
  match try_reserve_in b inventory bound header (mkWorld s h peer bell) with
  | (Done r, w') => let h' := w_handle w' in
      hd_quarantined h = false /\ pl_allowed (hd_ledger h) = true /\ pl_retired (hd_ledger h) = false /\
      hd_reserved_block h = None /\ hd_reserved_block h' = Some (pr_block r) /\
      class_for (bk_geometry b) inventory bound = Some (pr_class r) /\
      class_of (bk_geometry b) (pr_block r) = Some (class_index (pr_class r)) /\
      pl_states (hd_ledger h) !! Z.to_nat (pr_block r) <> Some Reserved /\
      (exists old, pl_generations (hd_ledger h) !! Z.to_nat (pr_block r) = Some old /\ pr_generation r = old + 1 /\
         pl_generations (hd_ledger h') = <[Z.to_nat (pr_block r) := old + 1]> (pl_generations (hd_ledger h))) /\
      hd_published_local h' - hd_consumed_seen h' < descriptor_limit b inventory /\
      pr_capacity r = bound /\ pr_cursor r = 0 /\ pr_wire_header r = header
  | (Fail e, w') => let h' := w_handle w' in
      hd_reserved_block h' = hd_reserved_block h /\ hd_published_local h' = hd_published_local h /\
      pl_generations (hd_ledger h') = pl_generations (hd_ledger h) /\
      forall x st, 0 <= x -> pl_states (hd_ledger h') !! Z.to_nat x = Some st ->
        pl_states (hd_ledger h) !! Z.to_nat x = Some st \/ (pl_states (hd_ledger h) !! Z.to_nat x = Some Published /\ st = Free)
  | (Panic, _) => False
  end.
Proof.
  intros Hb Hr Hs Hp. pose proof (reach_handle _ _ Hb _ _ Hr) as Hi.
  destruct (wp_run _ _ _ _ s peer bell (wp_try_reserve page_size b Hb h inventory bound header Hi) Hs Hp)
    as [(r & w' & -> & _ & H)|(e & w' & -> & H)]; cbn zeta.
  - destruct H as [Hn (Hq & Ha & Hret) Hblk Hwas _ (old & Hold & Hgen & Hmax & Hins) [Hc1 Hc2] _ (F1 & F2 & F3 & _) [_ Hlim] _].
    rewrite Hgen in Hins. split_and!; try done; [|by exists old].
    destruct Hwas as [[_ ->]|[_ ->]]; by intros [=].
  - destruct H as [_ H1 H2 H3 _ _ _ _ Hst]. split_and!; try done.
    intros x st Hx Hl. destruct (Hst x st (conj Hx Hl)) as [[_ ?]|[[_ ?] ->]]; auto.
Qed.

Lemma reservation_outcome_witness :
  match try_reserve_in host_backing InvOrdinary 100 (le_bytes 4 100 ++ replicate 16 0)
          (mkWorld (initialize_mapping host_backing) host_side [] []) with
  | (Done r, w') => pr_generation r = 1 /\ hd_reserved_block (w_handle w') = Some (pr_block r)
  | _ => False
  end.
Proof.
  pose proof (reservation_outcome 4096 host_backing host_side (None, []) InvOrdinary 100 (le_bytes 4 100 ++ replicate 16 0)
    (initialize_mapping host_backing) [] [] host_backing_ok host_side_reach host_shared_ok (Forall_nil_2 _)) as H.
  destruct (try_reserve_in _ _ _ _ _) as [[r|e|] w'] eqn:E.
  - destruct H as (_ & _ & _ & _ & Hblk & _). split; [|exact Hblk].
    apply (f_equal fst) in E. vm_compute in E. injection E as <-. reflexivity.
  - apply (f_equal fst) in E. vm_compute in E. discriminate E.
  - exact H.
Defined.

(** A commit publishes exactly the written frame or nothing that the client could reuse. On
    success the length is what was written and what the wire header declares, the published count
    grows by one, and the block moves from the reservation to the outstanding list under the
    returned identity. On failure either the block is free again and nothing was published, or the
    handle is quarantined. *)
Theorem commit_outcome page_size b h r leases body_len s peer bell :
  backing_ok page_size b -> reach b h (Some r, leases) -> is_u64 body_len -> shared_ok s -> peer_ok peer ->
  match commit b r body_len (mkWorld s h peer bell) with
  | (Done id, w') => let h' := w_handle w' in
      body_len = pr_cursor r /\ body_len = from_le_bytes (take 4 (pr_wire_header r)) /\
      id = mkIdentity (bk_incarnation b) (bk_lane b) (pr_block r) (pr_generation r) /\
      hd_published_local h' = hd_published_local h + 1 /\ hd_reserved_block h' = None /\
      pr_block r ∈ pl_outstanding (hd_ledger h')
  | (Fail e, w') => let h' := w_handle w' in
      (hd_reserved_block h' = None /\ hd_published_local h' = hd_published_local h /\
       pl_states (hd_ledger h') !! Z.to_nat (pr_block r) = Some Free) \/ hd_quarantined h' = true
  | (Panic, _) => False
  end.
Proof.
  intros Hb Hr Hn Hs Hp. destruct (reach_inv _ _ Hb _ _ Hr) as (Hi & Hres & _). specialize (Hres r eq_refl).
  destruct (wp_run _ _ _ _ s peer bell (wp_commit page_size b Hb h r body_len Hi Hres Hn) Hs Hp)
    as [(id & w' & -> & Hc & -> & -> & Hd)|(e & w' & -> & H)]; cbn zeta.
  - destruct Hc as [([_ _ _ _ _ [_ Hom] _ _] & _) _ _ _ _ (H1 & H2 & H3)]. split_and!; try done. by apply Hom.
  - destruct H as [[Hq _]|[Ha|Ha]]; [by right| |]; left.
    + destruct Ha as [_ Ho _ _ _ [Hpub _] _]. destruct (Ho (ro_block _ _ _ Hres)) as [? [_ ?]]. done.
    + destruct Ha as [_ Ho _ _ _ [Hpub _] _]. destruct (Ho (ro_block _ _ _ Hres)) as [? [_ ?]]. done.
Qed.

Lemma commit_outcome_witness :
  exists r, host_filled.1.1 = Some r /\
  match commit host_backing r 100 host_filled.2 with
  | (Done id, w') => pr_cursor r = 100 /\ hd_reserved_block (w_handle w') = None
  | _ => False
  end.
Proof.
  assert (match host_filled.1.1 with Some r => (commit host_backing r 100 host_filled.2).1 | None => Panic end
    = Done (mkIdentity (bk_incarnation host_backing) (bk_lane host_backing) 0 1)) as Hc by (vm_compute; reflexivity).
  pose proof host_filled_live as Hl. revert Hc Hl. generalize host_filled.
  intros [[[r|] ls] [s h peer bell]]; cbn [fst snd w_handle w_shared w_peer]; [|discriminate].
  intros Hc [Hr Hs Hp]. cbn [fst snd w_handle w_shared w_peer] in *. exists r. split; [reflexivity|].
  pose proof (commit_outcome 4096 host_backing h r ls 100 s peer bell host_backing_ok Hr ltac:(mlia) Hs Hp) as H.
  destruct (commit _ _ _ _) as [o w']. cbn [fst] in Hc. subst o.
  destruct H as (<- & _ & _ & _ & Hn & _). done.
Defined.

(** C5: what a receive hands out is valid and new. A lease's block is inside the geometry, its body
    fits the block, its length is the one the wire header declares, no live lease holds the block,
    its generation is above every generation accepted for that block, and exactly one descriptor was
    consumed. Every failure quarantines the handle; nothing is handed out on a quarantined one. *)
Theorem receive_outcome page_size b h r leases s peer bell :
  backing_ok page_size b -> reach b h (r, leases) -> shared_ok s -> peer_ok peer ->
  match try_receive b (mkWorld s h peer bell) with
  | (Done (Some l), w') => let h' := w_handle w' in
      hd_quarantined h = false /\ hd_quarantined h' = false /\
      0 <= le_block l < block_count (bk_geometry b) /\ le_block l ∉ le_block <$> leases /\
      (exists p, placement (bk_geometry b) (le_block l) = Some p /\ 0 <= le_body_len l <= BlockPlacement_body_capacity p) /\
      length (le_wire_header l) = 20%nat /\ from_le_bytes (take 4 (le_wire_header l)) = le_body_len l /\
      (exists seen, last_seen_generation h (le_block l) = Some seen /\ seen < le_generation l) /\
      last_seen_generation h' (le_block l) = Some (le_generation l) /\
      hd_consumed_local h' = hd_consumed_local h + 1
  | (Done None, w') => hd_quarantined (w_handle w') = false /\ hd_live (w_handle w') = hd_live h
  | (Fail e, w') => hd_quarantined (w_handle w') = true /\ hd_live (w_handle w') = hd_live h
  | (Panic, _) => False
  end.
Proof.
  intros Hb Hr Hs Hp. pose proof (reach_inv _ _ Hb _ _ Hr) as Hside. pose proof Hside as (Hi & _ & _).
  destruct (wp_run _ _ _ _ s peer bell (wp_try_receive page_size b Hb h Hi) Hs Hp)
    as [([l|] & w' & -> & H)|(e & w' & -> & [Hk Hq])]; cbn zeta.
  - destruct H as [H Hq]. pose proof (received_side _ _ _ _ _ _ H Hside) as (_ & _ & [_ Hnd _]). cbn in Hnd.
    rewrite fmap_app in Hnd. apply list.NoDup_app in Hnd as (_ & Hnd & _).
    destruct H as [_ (H1 & H2 & _ & [H3 _] & (p & Hp1 & Hp2) & H4 & H5) Hq' Hc [_ Hseen] _ Hlast _ _ _].
    assert (le_block l ∉ le_block <$> leases) as Hfresh.
    { intros Hin. apply (Hnd _ Hin). by apply list_elem_of_singleton. }
    assert (last_seen_generation (w_handle w') (le_block l) = Some (le_generation l)) as Hls.
    { destruct Hseen as (seen & Hse & _). unfold last_seen_generation in *. rewrite Hlast.
      apply list_lookup_insert_eq. by eapply lookup_lt_Some. }
    eauto 20.
  - destruct H as [[] Hq]. done.
  - by destruct Hk.
Qed.

Lemma receive_outcome_witness :
  match try_receive host_backing host_consumer.2 with
  | (Done (Some l), w') => le_body_len l = 100 /\ hd_consumed_local (w_handle w') = 1
  | _ => False
  end.
Proof.
  assert (match (try_receive host_backing host_consumer.2).1 with Done (Some l) => le_body_len l | _ => 0 end = 100 /\
    host_consumer.1 = (None, []) /\ hd_consumed_local (w_handle host_consumer.2) = 0) as (Hc & Hn & Hz)
    by (split; [|split]; vm_compute; reflexivity).
  pose proof host_consumer_live as Hl. revert Hc Hn Hz Hl. generalize host_consumer.
  intros [c [s h peer bell]]; cbn [fst snd w_handle w_shared w_peer]. intros Hc -> Hz [Hr Hs Hp].
  cbn [fst snd w_handle w_shared w_peer] in *.
  pose proof (receive_outcome 4096 host_backing h None [] s peer bell host_backing_ok Hr Hs Hp) as H.
  destruct (try_receive _ _) as [[[l|]|e|] w']; try discriminate Hc. split; [exact Hc|].
  destruct H as (_ & _ & _ & _ & _ & _ & _ & _ & _ & Hcons). rewrite Hcons, Hz. reflexivity.
Defined.

(** Computations that touch only the handle. *)
Definition private {E A} (m : M E A) : Prop :=
  forall w o w', m w = (o, w') -> w_shared w' = w_shared w /\ w_peer w' = w_peer w.

Lemma private_bind {E A B} (m : M E A) (f : A -> M E B) : private m -> (forall a, private (f a)) -> private (m ≫= f).
Proof.
  intros Hm Hf w o w'. unfold mbind, M_bind. destruct (m w) as [[a|e|] w1] eqn:E1; intros H; simplify_eq; try by eapply Hm.
  destruct (Hm _ _ _ E1) as [<- <-]. by eapply Hf.
Qed.
Lemma private_ret {E A} (a : A) : private (E := E) (mret a).
Proof. by intros w o w' [= <- <-]. Qed.
Lemma private_get {E} : private (E := E) get_handle.
Proof. by intros w o w' [= <- <-]. Qed.
Lemma private_put {E} h : private (E := E) (put_handle h).
Proof. by intros w o w' [= <- <-]. Qed.
Lemma private_vec_get {E A} (l : list A) i : private (E := E) (vec_get l i).
Proof. intros w o w'. unfold vec_get. destruct (l !! _); [apply private_ret|by intros [= <- <-]]. Qed.
Lemma private_abort {E} b x : private (E := E) (abort_reservation b x).
Proof.
  unfold abort_reservation, free_push, set_state_of, get_ledger, put_ledger, modify_handle.
  repeat (apply private_ret || apply private_get || apply private_put || apply private_vec_get ||
    (apply private_bind; [|intros ?x]) || case_match).
Qed.

(** The states of a side after any further operations, each against any shared memory and any peer. *)
Inductive later (b : Backing) (h : Handle) (c : Clients) : Handle -> Clients -> Prop :=
| later_now : later b h c h c
| later_op op h1 c1 s peer bell c2 w2 :
    later b h c h1 c1 -> op_ok op -> shared_ok s -> peer_ok peer ->
    exec b op c1 (mkWorld s h1 peer bell) = (Done c2, w2) -> later b h c (w_handle w2) c2.

Lemma later_latched page_size b h c h' c' :
  backing_ok page_size b -> reach b h c -> hd_quarantined h = true -> later b h c h' c' ->
  reach b h' c' /\ hd_quarantined h' = true.
Proof.
  intros Hb Hr Hq. induction 1 as [|op h1 c1 s peer bell c2 w2 _ [Hr1 Hq1] Hop Hs Hp Hx]; [done|].
  split; [by eapply reach_op|].
  destruct (wp_run _ _ _ _ s peer bell (wp_exec page_size b Hb op h1 c1 (reach_inv _ _ Hb _ _ Hr1) Hop) Hs Hp)
    as [(a & w & Ha & _ & [Hlatch _ _])|(e & _)]; [|by destruct e]. rewrite Hx in Ha. simplify_eq. auto.
Qed.

(** C6: quarantine is terminal and needs nothing from the peer: from a latched handle on, with or without
    an open reservation, whatever operations follow and whatever the shared memory holds by then,
    the latch stays set and reserving, receiving, committing, probing and waiting are refused without
    one access to the shared memory; the refused commit publishes nothing. *)
Theorem quarantine_terminal page_size b h0 c0 h c s peer bell inventory bound header :
  backing_ok page_size b -> reach b h0 c0 -> hd_quarantined h0 = true -> later b h0 c0 h c ->
  bound <= MAX_FRAME_BYTES -> shared_ok s -> peer_ok peer ->
  let w := mkWorld s h peer bell in
  hd_quarantined h = true /\
  try_reserve_in b inventory bound header w = (Fail PE_Quarantined, w) /\
  try_receive b w = (Fail RE_Quarantined, w) /\
  probe b w = (Fail RE_Quarantined, w) /\
  has_data b w = (Fail RE_Quarantined, w) /\
  arm_data_wait b w = (Fail RE_Quarantined, w) /\
  arm_capacity_wait b inventory bound w = (Fail RE_Quarantined, w) /\
  (forall r body_len, c.1 = Some r -> exists w', commit b r body_len w = (Fail PE_Quarantined, w') /\
     w_shared w' = s /\ w_peer w' = peer /\
     hd_quarantined (w_handle w') = true /\ hd_published_local (w_handle w') = hd_published_local h).
Proof.
  intros Hb Hr0 Hq0 Hl Hbound Hs Hp w. destruct (later_latched _ _ _ _ _ _ Hb Hr0 Hq0 Hl) as [Hr Hq].
  pose proof (reach_inv _ _ Hb _ _ Hr) as (Hi & Hres & _). split; [done|].
  assert (forall E, is_quarantined (E := E) b w = (Done true, w)) as Hisq.
  { intros E. unfold is_quarantined, get_handle. unfold mbind, M_bind. subst w. cbn. by rewrite Hq. }
  split_and!; try (unfold try_receive, probe, has_data, arm_data_wait, arm_capacity_wait; unfold mbind, M_bind;
    rewrite Hisq; reflexivity).
  - unfold try_reserve_in. destruct (Z.ltb_spec MAX_FRAME_BYTES bound); [lia|]. unfold mbind, M_bind. by rewrite Hisq.
  - intros r body_len Hrr. specialize (Hres r Hrr).
    unfold commit. rewrite (ro_open _ _ _ Hres). unfold mbind at 1, M_bind at 1. rewrite Hisq. unfold abort_now. rewrite (ro_open _ _ _ Hres).
    unfold mbind, M_bind.
    destruct (wp_run _ _ _ _ s peer bell (wp_abort (E := ProducerError) page_size b Hb h (pr_block r) (fun _ _ => False) Hi) Hs Hp)
      as [([] & w' & Hx & Ha)|(e & w' & _ & [])].
    pose proof (private_abort _ _ _ _ _ Hx) as [Hsh Hpe]. subst w. rewrite Hx. eexists. split; [reflexivity|].
    destruct Ha as [_ _ _ _ Hlatch [Hpub _] _]. cbn in *. split_and!; congruence.
Qed.

(** The producer above, after the peer raised the quarantine flag and one probe saw it. *)
Definition host_latched : Clients * World :=
  steps host_backing [OpProbe] (host_filled.1, mkWorld (set_quarantined 1 (w_shared host_filled.2)) (w_handle host_filled.2) [] []).

Lemma host_latched_live : live_world host_backing host_latched.
Proof.
  pose proof host_filled_live as Hl. unfold host_latched. generalize dependent host_filled. intros [c w] [Hr Hs Hp].
  apply (steps_live _ _ _ _ host_backing_ok); [by repeat constructor|].
  split; [exact Hr|by apply shared_ok_quarantined|constructor].
Qed.

(** Latched with its reservation open, and after the commit that was refused. *)
Lemma quarantine_terminal_witness :
  exists r, host_latched.1.1 = Some r /\
    (commit host_backing r 100 host_latched.2).1 = Fail PE_Quarantined /\
    let st := steps host_backing [OpCommit 100] host_latched in
    st.1.1 = None /\ (try_receive host_backing st.2).1 = Fail RE_Quarantined.
Proof.
  assert (is_Some host_latched.1.1 /\ hd_quarantined (w_handle host_latched.2) = true /\
    (steps host_backing [OpCommit 100] host_latched).1.1 = None) as (Ho & Hq & Hn)
    by (split; [vm_compute; eauto|split; vm_compute; reflexivity]).
  pose proof host_latched_live as Hl.
  pose proof (steps_live 4096 host_backing [OpCommit 100] _ host_backing_ok ltac:(constructor; [vm_compute; split; discriminate|constructor]) Hl) as Hl'.
  revert Ho Hq Hn Hl Hl'. generalize host_latched.
  intros [[[r|] ls] [s h peer bell]]; cbn [fst snd w_handle w_shared w_peer]; [|intros [? [=]]].
  intros _ Hq Hn [Hr Hs Hp] [_ Hs' Hp']. cbn [fst snd w_handle w_shared w_peer] in *. exists r. split; [reflexivity|]. split.
  - destruct (quarantine_terminal 4096 host_backing h (Some r, ls) h (Some r, ls) s peer bell InvOrdinary 0 [] host_backing_ok Hr Hq
      (later_now _ _ _) ltac:(vm_compute; discriminate) Hs Hp) as (_ & _ & _ & _ & _ & _ & _ & H).
    destruct (H r 100 eq_refl) as (w' & -> & _). reflexivity.
  - split; [exact Hn|]. unfold steps in *. cbn [foldl fst snd] in *.
    destruct (exec host_backing (OpCommit 100) (Some r, ls) (mkWorld s h peer bell)) as [[c'|e|] [s1 h1 p1 b1]] eqn:E;
      cbn [fst snd w_shared w_peer w_handle] in *; [|destruct e|discriminate Hn].
    assert (later host_backing h (Some r, ls) h1 c') as Hlater.
    { refine (later_op _ _ _ (OpCommit 100) h (Some r, ls) s peer bell c' _ (later_now _ _ _) _ Hs Hp E). vm_compute; split; discriminate. }
    destruct (quarantine_terminal 4096 host_backing h (Some r, ls) h1 c' s1 p1 b1 InvOrdinary 0 [] host_backing_ok Hr Hq
      Hlater ltac:(vm_compute; discriminate) Hs' Hp') as (_ & _ & -> & _). reflexivity.
Defined.

(** ** Where the code and its comments part *)

(** [ParkGuard::arm] says it stores a nonzero [parked]; at the last generation it stores zero,
    which a signaller reads as "nobody is parked". *)
Theorem arm_at_last_generation_is_unparked s h bell :
  we_generation (sh_data_wake s) = u64_MAX ->
  exists w', arm_data (mkWorld s h [] bell) = (Done u64_MAX, w') /\ we_parked (sh_data_wake (w_shared w')) = 0.
Proof.
  destruct s as [? ? [gen parked] ? ? ? ? ? ? ?]. cbn. intros ->. eexists. split; reflexivity.
Qed.

(** [commit] says a failure before publication aborts the reservation; when the peer moves the
    published counter first, the handle is quarantined but the block stays reserved. *)
Theorem raced_commit_keeps_block_reserved :
  match host_filled with
  | ((Some r, _), w) =>
      match commit host_backing r 100
              (mkWorld (w_shared w) (w_handle w) (replicate 6 (fun s => s) ++ [set_published 5]) []) with
      | (Fail e, w') => e = PE_Ring RE_InvalidSharedState /\ hd_reserved_block (w_handle w') = Some (pr_block r) /\
          pl_states (hd_ledger (w_handle w')) !! Z.to_nat (pr_block r) = Some Reserved
      | _ => False
      end
  | _ => False
  end.
Proof. vm_compute. done. Qed.

(** [take_reclaimed] says it hands out every block returned since the last call, except blocks
    [try_reserve_in] reused; a reservation that is refused after taking a block off its stack
    forgets that block's return although it did not reuse it. *)
Definition host_returned : Clients * World :=
  let consumer := steps host_backing [OpReceive; OpReturn 0] host_consumer in
  steps host_backing [OpInventory] (host_sent.1, mkWorld (w_shared consumer.2) (w_handle host_sent.2) [] []).

Theorem refused_reservation_forgets_return :
  let w := host_returned.2 in
  pl_reclaimed (hd_ledger (w_handle w)) = [0] /\
  match try_reserve_in host_backing InvOrdinary 100 (replicate 20 0)
          (mkWorld (set_completion 0 9 (w_shared w)) (w_handle w) [] []) with
  | (Fail e, w') => e = PE_Ring (RE_Descriptor FutureCompletion) /\
      pl_reclaimed (hd_ledger (w_handle w')) = [] /\ pl_states (hd_ledger (w_handle w')) !! 0%nat = Some Free
  | _ => False
  end.
Proof. vm_compute. done. Qed.
