(* ===== verification/RingSlots.v ===== *)
(** * RingSlots: the descriptor slots a ring handle writes

    Which slots an operation touches, in a mapping whose slots only this side writes: a peer that keeps
    to its role reads them. *)
From S2P Require Import Prelude.
From S2P Require Import Pool.
From S2P Require Import Descriptor.
From S2P Require Import SpanCopy.
From S2P Require Import Retained.
From S2P Require Import Grant.
From S2P Require Import Ring.
From S2P Require Import RingLogic.
From S2P Require Import RingLedger.
From S2P Require Import RingSafety.
From S2P Require Import RingTheorems.

(** A peer that may change everything but the slots. *)
Definition slot_peer (peer : list (Shared -> Shared)) : Prop := Forall (fun p => forall s, sh_slots (p s) = sh_slots s) peer.

Definition slots_of (w : World) : Z -> DescriptorSlot := sh_slots (w_shared w).
Definition published_of (w : World) : Z := hd_published_local (w_handle w).

(** ** Computations that write no slot and publish nothing *)
Definition still {E A} (m : M E A) : Prop := forall w, slot_peer (w_peer w) ->
  slot_peer (w_peer (m w).2) /\ slots_of (m w).2 = slots_of w /\ published_of (m w).2 = published_of w.

Section Still.
Context {E : Type}.

Lemma still_id {A} (m : M E A) : (forall w, (m w).2 = w) -> still m.
Proof. intros H w Hp. by rewrite H. Qed.
Lemma still_ret {A} (a : A) : still (E := E) (mret a).
Proof. by apply still_id. Qed.
Lemma still_throw {A} (e : E) : still (A := A) (throw e).
Proof. by apply still_id. Qed.
Lemma still_lift {A} (r : result E A) : still (lift r).
Proof. apply still_id. by destruct r. Qed.
Lemma still_get : still (E := E) get_handle.
Proof. by apply still_id. Qed.
Lemma still_vec_get {A} (l : list A) i : still (E := E) (vec_get l i).
Proof. apply still_id. intros w. unfold vec_get. by destruct (l !! _). Qed.
Lemma still_bell loop : still (E := E) (with_bell loop).
Proof. intros w Hp. unfold with_bell. by destruct (loop (w_bell w)). Qed.
Lemma still_modify f : (forall h, hd_published_local (f h) = hd_published_local h) -> still (E := E) (modify_handle f).
Proof. intros Hf w Hp. split; [done|]. split; [done|]. apply Hf. Qed.

Lemma still_atomic {A} (f : Shared -> A * Shared) : (forall s, sh_slots (f s).2 = sh_slots s) -> still (E := E) (atomic f).
Proof.
  intros Hf w Hp. unfold atomic, slots_of, published_of. destruct (w_peer w) as [|p peer].
  - pose proof (Hf (w_shared w)) as H. by destruct (f (w_shared w)).
  - apply Forall_cons_iff in Hp as [Hp Hpeer]. pose proof (Hf (p (w_shared w))) as H. destruct (f (p (w_shared w))). cbn in *. by rewrite H.
Qed.
Lemma still_load {A} (f : Shared -> A) : still (E := E) (load f).
Proof. by apply still_atomic. Qed.
Lemma still_store f : (forall s, sh_slots (f s) = sh_slots s) -> still (E := E) (store f).
Proof. intros Hf. by apply still_atomic. Qed.

Lemma still_bind {A B} (m : M E A) (f : A -> M E B) : still m -> (forall a, still (f a)) -> still (m ≫= f).
Proof.
  intros Hm Hf w Hp. specialize (Hm w Hp). unfold mbind, M_bind. destruct (m w) as [[a|e|] w1]; cbn [snd] in *; [|done|done].
  destruct Hm as (Hp1 & <- & <-). by apply Hf.
Qed.
Lemma still_if {A} (c : bool) (m m' : M E A) : still m -> still m' -> still (if c then m else m').
Proof. by destruct c. Qed.
End Still.

Lemma still_attempt {E F A} (m : M E A) : still m -> still (E := F) (attempt m).
Proof. intros Hm w Hp. specialize (Hm w Hp). unfold attempt. by destruct (m w) as [[]]. Qed.

Lemma still_map_err {E F A} (f : E -> M F F) (m : M E A) : still m -> (forall e, still (f e)) -> still (map_errM f m).
Proof.
  intros Hm Hf w Hp. specialize (Hm w Hp). unfold map_errM. destruct (m w) as [[a|e|] w1]; cbn [snd] in *; [done| |done].
  destruct Hm as (Hp1 & <- & <-). specialize (Hf e w1 Hp1). by destruct (f e w1) as [[]].
Qed.

Create HintDb still.
#[local] Hint Resolve still_ret still_throw still_lift still_get still_vec_get still_bell still_load : still.

Ltac still_step :=
  first
  [ solve [auto with still nocore] | apply still_modify; by intros [] | apply still_atomic; intros ?s; by repeat case_match | apply still_store; reflexivity
  | progress cbv zeta | apply still_attempt | apply still_map_err; [|intros ?e] | apply still_bind; [|intros ?x] | apply still_if | case_match ].

Section Operations.
Context (b : Backing).

Lemma still_signal_data : still (signal_data_wake b).
Proof. unfold signal_data_wake, ring_bell. repeat still_step. Qed.
Lemma still_signal_capacity : still (signal_capacity b).
Proof. unfold signal_capacity, ring_bell. repeat still_step. Qed.
Hint Resolve still_signal_data still_signal_capacity : still.

Lemma still_enter_quarantine {E} : still (E := E) (enter_quarantine b).
Proof. unfold enter_quarantine. repeat still_step. Qed.
Hint Resolve still_enter_quarantine : still.
Lemma still_is_quarantined {E} : still (E := E) (is_quarantined b).
Proof. unfold is_quarantined. repeat still_step. Qed.
Lemma still_quarantine_with {E} e : still (E := E) (quarantine_with b e).
Proof. unfold quarantine_with. repeat still_step. Qed.
Hint Resolve still_is_quarantined still_quarantine_with : still.
Lemma still_quarantine_pe e : still (quarantine_pe b e).
Proof. unfold quarantine_pe. repeat still_step. Qed.
Hint Resolve still_quarantine_pe : still.

Lemma still_get_ledger {E} : still (E := E) get_ledger.
Proof. unfold get_ledger. repeat still_step. Qed.
Lemma still_put_ledger {E} l : still (E := E) (put_ledger l).
Proof. unfold put_ledger. repeat still_step. Qed.
Hint Resolve still_get_ledger still_put_ledger : still.
Lemma still_free_push {E} i x : still (E := E) (free_push i x).
Proof. unfold free_push. repeat still_step. Qed.
Lemma still_free_pop {E} i : still (E := E) (free_pop i).
Proof. unfold free_pop. repeat still_step. Qed.
Lemma still_set_state {E} x v : still (E := E) (set_state_of x v).
Proof. unfold set_state_of. repeat still_step. Qed.
Lemma still_set_generation {E} x v : still (E := E) (set_generation_of x v).
Proof. unfold set_generation_of. repeat still_step. Qed.
Hint Resolve still_free_push still_free_pop still_set_state still_set_generation : still.

Lemma still_reclaim_block x flagged : still (reclaim_block b x flagged).
Proof. unfold reclaim_block. repeat still_step. Qed.
Hint Resolve still_reclaim_block : still.
Lemma still_reclaim_bits word bits : still (reclaim_bits b word bits).
Proof. induction bits as [|bit bits IH]; cbn [reclaim_bits]; repeat still_step. Qed.
Hint Resolve still_reclaim_bits : still.
Lemma still_reclaim_words n : forall word, still (reclaim_words b n word).
Proof. induction n as [|n IH]; intros word; cbn [reclaim_words]; repeat still_step. Qed.
Hint Resolve still_reclaim_words : still.
Lemma still_reclaim_completions : still (reclaim_completions b).
Proof. unfold reclaim_completions. repeat still_step. Qed.
Hint Resolve still_reclaim_completions : still.
Lemma still_reclaim_scan fuel : forall index, still (reclaim_scan b fuel index).
Proof. induction fuel as [|fuel IH]; intros index; cbn [reclaim_scan]; repeat still_step. Qed.
Hint Resolve still_reclaim_scan : still.

Lemma still_descriptors_outstanding : still (descriptors_outstanding b).
Proof. unfold descriptors_outstanding. repeat still_step. Qed.
Hint Resolve still_descriptors_outstanding : still.
Lemma still_reserve inventory bound header : still (try_reserve_in b inventory bound header).
Proof. unfold try_reserve_in. repeat still_step. Qed.
Lemma still_abort {E} x : still (E := E) (abort_reservation b x).
Proof. unfold abort_reservation. repeat still_step. Qed.
Hint Resolve still_abort : still.
Lemma still_abort_now {E} r : still (E := E) (abort_now b r).
Proof. unfold abort_now. repeat still_step. Qed.
Hint Resolve still_abort_now : still.
Lemma still_write r bytes : still (reservation_write b r bytes).
Proof. unfold reservation_write, write_reservation. repeat still_step. Qed.
Lemma still_advance r n : still (reservation_advance b r n).
Proof. unfold reservation_advance. repeat still_step. Qed.

Lemma published_mark_live h x generation : hd_published_local (mark_live h x generation) = hd_published_local h.
Proof. unfold mark_live. by repeat case_match. Qed.

(** The same at one world. *)
Definition still_at {E A} (m : M E A) (w : World) : Prop := slot_peer (w_peer w) ->
  slot_peer (w_peer (m w).2) /\ slots_of (m w).2 = slots_of w /\ published_of (m w).2 = published_of w.

Lemma still_at_bind {E A B} (m : M E A) (f : A -> M E B) w : still_at m w -> (forall a, still (f a)) -> still_at (m ≫= f) w.
Proof.
  intros Hm Hf Hp. specialize (Hm Hp). unfold mbind, M_bind. destruct (m w) as [[a|e|] w1]; cbn [snd] in *; [|done|done].
  destruct Hm as (Hp1 & <- & <-). by apply Hf.
Qed.

Lemma still_at_get {E A} (f : Handle -> M E A) w : still_at (f (w_handle w)) w -> still_at (get_handle ≫= f) w.
Proof. done. Qed.

Lemma still_complete x generation : still (complete b x generation).
Proof.
  intros w. apply (still_at_get (E := WakeError)). apply still_at_bind; [intros Hp; by repeat case_match|].
  intros []. repeat still_step.
Qed.
Hint Resolve still_complete : still.

Lemma still_lease_drop l : still (PayloadLease_drop b l).
Proof. unfold PayloadLease_drop, return_once. repeat still_step. Qed.
Hint Resolve still_lease_drop : still.
Lemma still_verified consumed : still (verified_published b consumed).
Proof. unfold verified_published. repeat still_step. Qed.
Hint Resolve still_verified : still.
Lemma still_receive_inner : still (try_receive_inner b).
Proof.
  unfold try_receive_inner, copy_descriptor. repeat ((apply still_modify; intros h; apply published_mark_live) || still_step).
Qed.
Hint Resolve still_receive_inner : still.
Lemma still_receive : still (try_receive b).
Proof. unfold try_receive. repeat still_step. Qed.
Lemma still_release l : still (release_lease b l).
Proof. unfold release_lease, return_once. repeat still_step. Qed.
Lemma still_data_available : still (data_available b).
Proof. unfold data_available. repeat still_step. Qed.
Hint Resolve still_data_available : still.
Lemma still_drain : still drain.
Proof. unfold drain, read_bell. repeat still_step. Qed.
Hint Resolve still_drain : still.
Lemma still_armed_wait generation : still (armed_wait_holds b generation).
Proof. unfold armed_wait_holds. repeat still_step. Qed.
Hint Resolve still_armed_wait : still.
Lemma still_exhausted inventory bound : still (reservation_exhausted b inventory bound).
Proof. unfold reservation_exhausted. repeat still_step. Qed.
Hint Resolve still_exhausted : still.
Lemma still_armed_capacity generation inventory bound : still (armed_capacity_wait_holds b generation inventory bound).
Proof. unfold armed_capacity_wait_holds. repeat still_step. Qed.
Hint Resolve still_armed_capacity : still.
Lemma still_drain_reclaimed n : forall settled, still (drain_reclaimed n settled).
Proof. induction n as [|n IH]; intros settled; cbn [drain_reclaimed]; repeat still_step. Qed.
Hint Resolve still_drain_reclaimed : still.
Lemma still_reclaim_all : still (reclaim_all_completions b).
Proof. unfold reclaim_all_completions. repeat still_step. Qed.
Hint Resolve still_reclaim_all : still.
Lemma still_probe : still (probe b).
Proof. unfold probe. repeat still_step. Qed.
Lemma still_inventory : still (inventory b).
Proof. unfold inventory. repeat still_step. Qed.
Lemma still_take_reclaimed : still (take_reclaimed b).
Proof. unfold take_reclaimed. repeat still_step. Qed.
Lemma still_has_data : still (has_data b).
Proof. unfold has_data. repeat still_step. Qed.
Lemma still_arm_data_wait : still (arm_data_wait b).
Proof. unfold arm_data_wait, arm_data, unpark_data. repeat still_step. Qed.
Lemma still_complete_data_wait : still (complete_data_wait b).
Proof. unfold complete_data_wait, unpark_data. repeat still_step. Qed.
Lemma still_arm_capacity_wait inventory bound : still (arm_capacity_wait b inventory bound).
Proof. unfold arm_capacity_wait, arm_capacity, unpark_capacity. repeat still_step. Qed.
Lemma still_complete_capacity_wait : still (complete_capacity_wait b).
Proof. unfold complete_capacity_wait, unpark_capacity. repeat still_step. Qed.
Hint Resolve still_reserve still_write still_advance still_receive still_probe still_inventory still_take_reclaimed still_has_data
  still_arm_data_wait still_complete_data_wait still_arm_capacity_wait still_complete_capacity_wait : still.

(** Every operation but a commit writes no slot and publishes nothing. *)
Lemma still_exec op c : (forall n, op <> OpCommit n) -> still (exec b op c).
Proof.
  intros Hop. destruct c as [open leases]. destruct op; cbn [exec]; try (by edestruct Hop); unfold reservation_drop; repeat still_step.
Qed.

(** ** The commit *)

(** From worlds that meet [P] on their slots and published counter: [Q] if the computation returns a
    value, [R] if it does not. *)
Definition slots_to {E A} (P : (Z -> DescriptorSlot) -> Z -> Prop) (m : M E A) (Q : A -> (Z -> DescriptorSlot) -> Z -> Prop)
    (R : (Z -> DescriptorSlot) -> Z -> Prop) : Prop :=
  forall w, slot_peer (w_peer w) -> P (slots_of w) (published_of w) ->
    slot_peer (w_peer (m w).2) /\
    match (m w).1 with Done a => Q a | _ => R end (slots_of (m w).2) (published_of (m w).2).

Lemma slots_bind {E A B} P (m : M E A) (f : A -> M E B) Q R S :
  slots_to P m Q R -> (forall a, slots_to (Q a) (f a) S R) -> slots_to P (m ≫= f) S R.
Proof.
  intros Hm Hf w Hp HP. destruct (Hm w Hp HP) as [Hp' HQ]. unfold mbind, M_bind.
  destruct (m w) as [[a|e|] w1]; cbn [fst snd] in *; [by apply Hf|done|done].
Qed.

Lemma slots_still {E A} (P R : (Z -> DescriptorSlot) -> Z -> Prop) (m : M E A) :
  still m -> (forall s n, P s n -> R s n) -> slots_to P m (fun _ => P) R.
Proof. intros Hm HR w Hp HP. destruct (Hm w Hp) as (Hp' & -> & ->). split; [done|]. destruct (m w).1; auto. Qed.

Lemma slots_end {E A} (P R : (Z -> DescriptorSlot) -> Z -> Prop) (m : M E A) :
  still m -> (forall s n, P s n -> R s n) -> slots_to P m (fun _ => R) R.
Proof. intros Hm HR w Hp HP. destruct (Hm w Hp) as (Hp' & -> & ->). split; [done|]. destruct (m w).1; auto. Qed.

Lemma slots_write {E} P Q R index f : (forall s n, P s n -> Q (update s index (f (s index))) n) ->
  slots_to (E := E) P (store (fun s => set_slot index (f (sh_slots s index)) s)) (fun _ => Q) R.
Proof.
  intros HQ w Hp HP. unfold store, atomic, slots_of, published_of in *. destruct (w_peer w) as [|p peer]; cbn.
  - split; [done|]. by apply HQ.
  - apply Forall_cons_iff in Hp as [Hp Hpeer]. split; [done|]. rewrite Hp. by apply HQ.
Qed.

Lemma slots_publish {E} P Q R sequence : (forall s n, P s n -> Q s sequence) ->
  slots_to (E := E) P (modify_handle (set_published_local sequence)) (fun _ => Q) R.
Proof. intros HQ w Hp HP. split; [done|]. cbn. by eapply HQ. Qed.

(** What a commit of sequence number [published + 1] may have done: write that slot, and publish only
    the whole descriptor. *)
Definition committed (index published block generation body_len : Z) (s0 s : Z -> DescriptorSlot) (n : Z) : Prop :=
  (forall i, i <> index -> s i = s0 i) /\
  (n = published \/ n = published + 1 /\ s index = mkSlot (published + 1) block generation body_len).

(** Before the counter moves: some fields of the slot are written. *)
Definition writing (index published : Z) (s0 : Z -> DescriptorSlot) (ok : DescriptorSlot -> Prop)
    (s : Z -> DescriptorSlot) (n : Z) : Prop :=
  (forall i, i <> index -> s i = s0 i) /\ n = published /\ ok (s index).

Lemma writing_next index published s0 (ok ok' : DescriptorSlot -> Prop) f : (forall d, ok d -> ok' (f d)) ->
  forall s n, writing index published s0 ok s n -> writing index published s0 ok' (update s index (f (s index))) n.
Proof.
  intros Hf s n (Hs & -> & Hok). split; [intros i Hi; unfold update; bcase; [done|by apply Hs]|]. split; [done|].
  unfold update. rewrite Z.eqb_refl. by apply Hf.
Qed.

Lemma writing_committed index published block generation body_len s0 ok s n :
  writing index published s0 ok s n -> committed index published block generation body_len s0 s n.
Proof. intros (Hs & -> & _). split; [done|by left]. Qed.
Hint Resolve writing_committed : still.

Lemma slots_get {E} P R : slots_to (E := E) P get_handle (fun h s n => P s n /\ hd_published_local h = n) R.
Proof. intros w Hp HP. done. Qed.

Lemma slots_pure {E A} (X : Prop) P (m : M E A) Q R : (X -> slots_to P m Q R) -> slots_to (fun s n => P s n /\ X) m Q R.
Proof. intros H w Hp [HP HX]. by apply H. Qed.

Lemma slots_weaken {E A} P P' (m : M E A) Q R : (forall s n, P' s n -> P s n) -> slots_to P m Q R -> slots_to P' m Q R.
Proof. intros HP H w Hp HP'. auto. Qed.

Section Commit.
Context (s0 : Z -> DescriptorSlot) (published block generation body_len : Z).
Let index : Z := published mod descriptor_depth (bk_geometry b).
Let post := committed index published block generation body_len s0.
Let during := writing index published s0.

Lemma slots_field {E A} (ok ok' : DescriptorSlot -> Prop) f (k : () -> M E A) : (forall d, ok d -> ok' (f d)) ->
  slots_to (during ok') (k ()) (fun _ => post) post ->
  slots_to (during ok) (store (fun s => set_slot index (f (sh_slots s index)) s) ≫= k) (fun _ => post) post.
Proof.
  intros Hf Hk. apply slots_bind with (Q := fun _ => during ok'); [|intros []; exact Hk]. apply slots_write. by apply writing_next.
Qed.

Lemma slots_skip {E A B} ok (m : M E A) (k : A -> M E B) : still m -> (forall a, slots_to (during ok) (k a) (fun _ => post) post) ->
  slots_to (during ok) (m ≫= k) (fun _ => post) post.
Proof. intros Hm Hk. eapply slots_bind; [apply slots_still; [done|]|done]. intros. by eapply writing_committed. Qed.

Lemma slots_last {E A} ok (m : M E A) : still m -> slots_to (during ok) m (fun _ => post) post.
Proof. intros Hm. apply slots_end; [done|]. intros. by eapply writing_committed. Qed.

Lemma publish_commit_slots header :
  slots_to (fun s n => s = s0 /\ n = published) (publish_commit b block generation body_len header) (fun _ => post) post.
Proof.
  apply (slots_weaken (during (fun _ => True))); [intros s n [-> ->]; done|]. unfold publish_commit.
  apply slots_skip; [repeat still_step|intros _]. eapply slots_bind; [apply slots_get|intros h].
  apply (slots_weaken (fun s n => during (fun _ => True) s n /\ hd_published_local h = published)).
  { intros s n [Hd Hh]. split; [done|]. destruct Hd as (_ & <- & _). done. }
  apply slots_pure. intros ->. destruct (checked_add u64_MAX published 1) as [sequence|] eqn:Hadd; [|apply slots_last; repeat still_step].
  assert (sequence = published + 1) as -> by (unfold checked_add in Hadd; by case_match; simplify_eq).
  cbv zeta. replace (published + 1 - 1) with published by lia. fold index.
  do 4 (apply slots_skip; [repeat still_step|intros ?]).
  apply (slots_field _ (fun d => ds_block d = block) (fun d => mkSlot (ds_sequence d) block (ds_generation d) (ds_body_len d))); [done|].
  apply (slots_field _ (fun d => ds_block d = block /\ ds_generation d = generation)
    (fun d => mkSlot (ds_sequence d) (ds_block d) generation (ds_body_len d))); [done|].
  apply (slots_field _ (fun d => ds_block d = block /\ ds_generation d = generation /\ ds_body_len d = body_len)
    (fun d => mkSlot (ds_sequence d) (ds_block d) (ds_generation d) body_len)); [naive_solver|].
  apply (slots_field _ (fun d => d = mkSlot (published + 1) block generation body_len)
    (fun d => mkSlot (published + 1) (ds_block d) (ds_generation d) (ds_body_len d))); [by intros [] (? & ? & ?); cbn in *; subst|].
  apply slots_skip; [repeat still_step|intros exchanged].
  destruct exchanged; cbn [negb]; [|apply slots_last; repeat still_step].
  apply slots_bind with (Q := fun _ => post); [|intros []; apply slots_end; [repeat still_step|done]].
  apply slots_publish. intros s n (Hs & -> & Hd). split; [done|by right].
Qed.

End Commit.

Lemma commit_slots s0 published r body_len :
  let post := committed (published mod descriptor_depth (bk_geometry b)) published (pr_block r) (pr_generation r) body_len s0 in
  slots_to (fun s n => s = s0 /\ n = published) (commit b r body_len) (fun _ => post) post.
Proof.
  intros post. assert (forall s n, s = s0 /\ n = published -> post s n) as Hpost by (by intros s n [-> ->]; split; [|left]).
  unfold commit. case_match; [apply slots_end; [repeat still_step|done]|].
  eapply slots_bind; [apply slots_still; [repeat still_step|done]|intros quarantined].
  repeat case_match; try apply publish_commit_slots; (apply slots_end; [repeat still_step|done]).
Qed.
End Operations.

(** Two sequence numbers less than the depth apart have different slots. *)
Lemma slots_distinct d sequence published : 0 < d -> published - d < sequence - 1 < published ->
  (sequence - 1) mod d <> published mod d.
Proof.
  intros Hd Hs Heq. pose proof (Z.div_mod (sequence - 1) d ltac:(lia)) as H1. pose proof (Z.div_mod published d ltac:(lia)) as H2.
  rewrite <- Heq in H2. set (q1 := (sequence - 1) / d) in *. set (q2 := published / d) in *.
  assert (d * (q2 - q1) = published - (sequence - 1)) as Hq by (rewrite Z.mul_sub_distr_l; lia).
  destruct (Z.le_gt_cases (q2 - q1) 0); [pose proof (Z.mul_nonneg_nonpos d (q2 - q1))|pose proof (Z.mul_le_mono_nonneg_l 1 (q2 - q1) d)]; lia.
Qed.

(** An operation other than a commit leaves every slot; a commit leaves the slots of the others. *)
Lemma exec_slots b op h c s peer bell i : slot_peer peer ->
  ((exists body_len, op = OpCommit body_len) -> is_Some c.1 -> i <> hd_published_local h mod descriptor_depth (bk_geometry b)) ->
  sh_slots (w_shared (exec b op c (mkWorld s h peer bell)).2) i = sh_slots s i.
Proof.
  intros Hsp Hi. destruct c as [open leases]. assert ((exists body_len, op = OpCommit body_len) \/ forall n, op <> OpCommit n) as [[body_len ->]|Hn] by (destruct op; naive_solver).
  - destruct open as [r|]; [|done]. cbn [exec]. unfold mbind, M_bind, attempt.
    destruct (commit_slots b (sh_slots s) (hd_published_local h) r body_len (mkWorld s h peer bell) Hsp (conj eq_refl eq_refl)) as [_ H].
    destruct (commit b r body_len _) as [[]]; cbn in *; apply H; eauto.
  - assert (still (exec b op (open, leases))) as H by by apply still_exec.
    destruct (H (mkWorld s h peer bell) Hsp) as (_ & Hs & _). by apply (f_equal (fun f => f i)) in Hs.
Qed.

(** C3: the descriptor ring never overwrites a descriptor the peer has not consumed. In every reachable
    state the published counter is at most the depth ahead of the consumed counter last seen; against a
    peer that only reads the slots, every operation returns with the slot of each unconsumed sequence
    number unchanged; and a commit of the open reservation writes at most the slot of the next sequence
    number, publishes that number only with the block, the generation and the length of the reservation
    in the slot, and publishes it whenever it succeeds. *)
Theorem commit_slot_unused page_size b h c op s peer bell :
  backing_ok page_size b -> reach b h c -> op_ok op -> shared_ok s -> peer_ok peer -> slot_peer peer ->
  let w := mkWorld s h peer bell in
  let published := hd_published_local h in
  let depth := descriptor_depth (bk_geometry b) in
  0 <= hd_consumed_seen h <= published /\ published - hd_consumed_seen h <= depth /\
  (exists c' w', exec b op c w = (Done c', w') /\
     forall sequence, hd_consumed_seen h < sequence <= published ->
       sh_slots (w_shared w') ((sequence - 1) mod depth) = sh_slots s ((sequence - 1) mod depth)) /\
  (forall r body_len, c.1 = Some r -> is_u64 body_len ->
     let '(o, w') := commit b r body_len w in
     (forall i, i <> published mod depth -> sh_slots (w_shared w') i = sh_slots s i) /\
     (hd_published_local (w_handle w') = published \/
      hd_published_local (w_handle w') = published + 1 /\
      sh_slots (w_shared w') (published mod depth) = mkSlot (published + 1) (pr_block r) (pr_generation r) body_len) /\
     (forall id, o = Done id -> hd_published_local (w_handle w') = published + 1)).
Proof.
  intros Hb Hr Hop Hs Hp Hsp w published depth. pose proof (reach_inv _ _ Hb _ _ Hr) as Hside.
  pose proof Hside as (Hi & Hres & _). pose proof Hi as (_ & [Hc Hd Ho _] & _). split; [lia|]. split; [done|]. split.
  - destruct (wp_run _ _ _ _ s peer bell (wp_exec page_size b Hb op h c Hside Hop) Hs Hp) as [(c' & w' & Hx & _)|(e & _)]; [|by destruct e].
    exists c', w'. split; [done|]. intros sequence Hseq.
    change w' with (Done (E := Empty_set) c', w').2. rewrite <- Hx. apply exec_slots; [done|]. intros _ [r Hrr].
    destruct Ho as [Ho _]; [by rewrite (ro_block _ _ _ (Hres r Hrr))|]. apply slots_distinct; lia.
  - intros r body_len Hrr Hn.
    destruct (commit_slots b (sh_slots s) published r body_len w Hsp (conj eq_refl eq_refl)) as [_ H].
    pose proof (wp_run _ _ _ _ s peer bell (wp_commit page_size b Hb h r body_len Hi (Hres r Hrr) Hn) Hs Hp) as Hwp. fold w in Hwp.
    destruct (commit b r body_len w) as [o w']. cbn [fst snd] in H.
    assert (committed (published mod depth) published (pr_block r) (pr_generation r) body_len (sh_slots s) (slots_of w') (published_of w'))
      as [H1 H2] by (by destruct o). split; [done|]. split; [done|]. intros id ->.
    destruct Hwp as [(id' & w1 & [= <- <-] & [_ _ _ _ _ (_ & _ & Hpub)] & _)|(e & w1 & [=] & _)]. done.
Qed.

(** The producer above: its open reservation's commit, and the next operation after it. *)
Lemma commit_slot_unused_witness :
  match host_filled.1.1 with
  | Some r => sh_slots (w_shared (commit host_backing r 100 host_filled.2).2) 0 = mkSlot 1 0 1 100
  | None => False
  end /\
  exists c' w', exec host_backing host_op host_sent.1 host_sent.2 = (Done c', w') /\
    sh_slots (w_shared w') 0 = sh_slots (w_shared host_sent.2) 0.
Proof.
  split.
  - assert (match host_filled.1.1 with
            | Some r => (commit host_backing r 100 host_filled.2).1 = Done (mkIdentity (bk_incarnation host_backing) (bk_lane host_backing) 0 1)
                /\ (pr_block r, pr_generation r) = (0, 1)
            | None => False
            end /\ hd_published_local (w_handle host_filled.2) = 0 /\ w_peer host_filled.2 = []) as (Hc & Hz & Hpe)
      by (vm_compute; auto).
    pose proof host_filled_live as Hl. revert Hc Hz Hpe Hl. generalize host_filled.
    intros [[[r|] ls] [s h peer bell]]; cbn [fst snd w_handle w_shared w_peer]; [|done].
    intros [Hd Hr0] Hz -> [Hr Hs Hp]. cbn [fst snd w_handle w_shared w_peer] in *.
    destruct (commit_slot_unused 4096 host_backing h (Some r, ls) OpProbe s [] bell host_backing_ok Hr I Hs Hp (Forall_nil_2 _))
      as (_ & _ & _ & H).
    specialize (H r 100 eq_refl ltac:(mlia)). destruct (commit _ _ _ _) as [o w']. cbn [fst snd] in *.
    destruct H as (_ & H & Hdone). specialize (Hdone _ Hd). rewrite Hz in *.
    destruct H as [H|[_ H]]; [rewrite H in Hdone; discriminate Hdone|]. injection Hr0 as Hb Hg. rewrite Hb, Hg in H. exact H.
  - assert (hd_published_local (w_handle host_sent.2) = 1 /\ hd_consumed_seen (w_handle host_sent.2) = 0 /\ w_peer host_sent.2 = [])
      as (Hpub & Hcon & Hpe) by (vm_compute; auto).
    pose proof host_sent_live as Hl. revert Hpub Hcon Hpe Hl. generalize host_sent.
    intros [c [s h peer bell]]; cbn [fst snd w_handle w_shared w_peer].
    intros Hpub Hcon -> [Hr Hs Hp]. cbn [fst snd w_handle w_shared w_peer] in *.
    destruct (commit_slot_unused 4096 host_backing h c host_op s [] bell host_backing_ok Hr host_op_ok Hs Hp (Forall_nil_2 _))
      as (_ & _ & (c' & w' & Hx & H) & _).
    exists c', w'. split; [exact Hx|]. apply (H 1). lia.
Defined.
