(* ===== verification/Endpoint.v ===== *)
(** * Endpoint: opening a ring (crates/shm-transport/src/backend/ring.rs).

    [Ring::create] and [Ring::attach], and the in-place view of a reservation. What the operating
    system answers (the address of a new mapping, a random incarnation) is an argument. *)
From S2P Require Import Prelude.
From S2P Require Import Pool.
From S2P Require Import Descriptor.
From S2P Require Import SpanCopy.
From S2P Require Import Retained.
From S2P Require Import Grant.
From S2P Require Import Ring.
From S2P Require Import RingLogic.
From S2P Require Import RingLedger.
From S2P Require Import RingSafety.
From S2P Require Import RingTheorems.

(** ** Create and attach *)




Definition is_fresh {E} (b : Backing) : M E bool :=
  published ← match producer_page b with Ok _ => v ← load sh_published; mret (v =? 0) | Err _ => mret false end;
  consumed ← match consumer_page b with Ok _ => v ← load sh_consumed; mret (v =? 0) | Err _ => mret false end;
  mret (published && consumed).

(** ** The in-place view of a reservation: address and length *)
Definition lease_span (b : Backing) (block capacity : Z) : result RingError (Z * Z) :=
  if capacity =? 0 then
    header ← map_err from_mapping (header_ptr b block);
    map_err RE_Lease (LeaseSpan_new header 0)
  else
    ptr ← map_err from_mapping (body_ptr b block capacity);
    map_err RE_Lease (LeaseSpan_new ptr capacity).

Definition reservation_segment (b : Backing) (r : ProducerReservation) (index : Z)
    : result ProducerError (option (Z * Z)) :=
  if negb (index =? 0) then Ok None
  else span ← map_err PE_Ring (lease_span b (pr_block r) (pr_capacity r)); Ok (Some span).
















