(* ===== verification/Blocking.v ===== *)
(** * Blocking: waiting on a doorbell until a deadline (crates/shm-transport/src/backend/ring.rs)

    [Doorbell::wait_until] and the two loops built on it, [Ring::reserve_until_in] and
    [Ring::wait_for_data]. Time is in nanoseconds. What the clock and [poll] will do is a timeline: the
    time that passes before each reading of the clock, and what happens to the doorbell during each
    poll. A poll with a negative timeout in which nothing ever happens does not return, and neither
    does the loop that called it. *)
From S2P Require Import Prelude.
From S2P Require Import Pool.
From S2P Require Import Descriptor.
From S2P Require Import SpanCopy.
From S2P Require Import Retained.
From S2P Require Import Grant.
From S2P Require Import Ring.
From S2P Require Import RingLogic.
From S2P Require Import RingLedger.
From S2P Require Import RingSafety.
From S2P Require Import RingTheorems.

(** ** Time *)

(** During a poll a token arrives or a signal interrupts it after some time, it fails, or nothing happens. *)
Inductive PollEvent := TokenAfter (t : Z) | SignalAfter (t : Z) | PollFailure | Quiet.

Inductive PollAnswer := Polled (readable : bool) | PollInterrupted | PollError.

Record Timeline := mkTimeline { tl_now : Z; tl_ticks : list Z; tl_polls : list PollEvent }.

Definition NANOS_PER_MILLI : Z := 1000000.

(** [poll] on one descriptor: at most [timeout] milliseconds, or as long as it takes when it is negative. *)
Definition poll_readable (timeout : Z) (c : Timeline) : option (PollAnswer * Timeline) :=
  let '(event, polls) := match tl_polls c with [] => (Quiet, []) | event :: polls => (event, polls) end in
  let after t := mkTimeline (tl_now c + t) (tl_ticks c) polls in
  let limit := timeout * NANOS_PER_MILLI in
  let expires := if timeout <? 0 then None else Some (Polled false, after limit) in
  match event with
  | PollFailure => Some (PollError, after 0)
  | Quiet => expires
  | TokenAfter t => if (timeout <? 0) || (t <=? limit) then Some (Polled true, after t) else expires
  | SignalAfter t => if (timeout <? 0) || (t <=? limit) then Some (PollInterrupted, after t) else expires
  end.

(** ** The monad of a call that may block: [None] when it has not returned *)
Definition T (E A : Type) : Type := Timeline -> World -> option (outcome E A * Timeline) * World.

#[global] Instance T_ret {E} : MRet (T E) := fun A a c w => (Some (Done a, c), w).

#[global] Instance T_bind {E} : MBind (T E) := fun A B f m c w =>
  match m c w with
  | (Some (Done a, c), w) => f a c w
  | (Some (Fail e, c), w) => (Some (Fail e, c), w)
  | (Some (Panic, c), w) => (Some (Panic, c), w)
  | (None, w) => (None, w)
  end.

(** A call that does not block. *)
Definition call {E A} (m : M E A) : T E A := fun c w => let '(o, w) := m w in (Some (o, c), w).

Definition not_returned {E A} : T E A := fun _ w => (None, w).

Definition attemptT {E F A} (m : T E A) : T F (result E A) := fun c w =>
  match m c w with
  | (Some (Done a, c), w) => (Some (Done (Ok a), c), w)
  | (Some (Fail e, c), w) => (Some (Done (Err e), c), w)
  | (Some (Panic, c), w) => (Some (Panic, c), w)
  | (None, w) => (None, w)
  end.

Definition map_errT {E F A} (f : E -> M F F) (m : T E A) : T F A :=
  r ← attemptT m;
  match r with
  | Ok a => mret a
  | Err e => e ← call (f e); call (throw e)
  end.

(** [Instant::now]. *)
Definition read_clock {E} : T E Z := fun c w =>
  match tl_ticks c with
  | [] => (Some (Done (tl_now c), c), w)
  | t :: ticks => (Some (Done (tl_now c + t), mkTimeline (tl_now c + t) ticks (tl_polls c)), w)
  end.

Definition poll {E} (timeout : Z) : T E PollAnswer := fun c w =>
  match poll_readable timeout c with Some (a, c) => (Some (Done a, c), w) | None => (None, w) end.

(** ** Waiting *)
Definition i32_MAX : Z := 2147483647.
Definition u128_MAX : Z := 2 ^ 128 - 1.

(** [as i32], which wraps. *)
Definition as_i32 (z : Z) : Z := (z + 2 ^ 31) mod 2 ^ 32 - 2 ^ 31.

Definition poll_timeout (remaining : Z) : Z :=
  as_i32 (Z.min (Z.min u128_MAX (remaining / NANOS_PER_MILLI + 1)) i32_MAX).

(** The zero-timeout probe, then the blocking poll. *)
Definition wait_until (deadline : Z) : T RingError bool :=
  now ← read_clock;
  let remaining := Z.max 0 (deadline - now) in
  if remaining =? 0 then mret false
  else
    let timeout := poll_timeout remaining in
    probed ← poll 0;
    if match probed with Polled ready => ready | _ => false end then mret true
    else
      polled ← poll timeout;
      match polled with
      | Polled ready => mret ready
      | PollInterrupted => now ← read_clock; mret (now <? deadline)
      | PollError => call (throw RE_DoorbellFailed)
      end.

Section Blocking.
Context (b : Backing).

(** [None] when the blocks are exhausted and the deadline is ahead. *)
Definition try_until (inventory : Inventory) (bound : Z) (wire_header : list Z) (deadline : Z)
    : T ProducerError (option ProducerReservation) :=
  r ← call (attempt (try_reserve_in b inventory bound wire_header));
  match r with
  | Err PE_Exhausted => now ← read_clock; if now <? deadline then mret None else call (throw PE_Deadline)
  | Err e => call (throw e)
  | Ok r => mret (Some r)
  end.

(** One iteration after the wake epoch is armed; [None] starts the next iteration. *)
Definition armed_reserve (inventory : Inventory) (bound : Z) (wire_header : list Z) (generation deadline : Z)
    : T ProducerError (option ProducerReservation) :=
  o ← try_until inventory bound wire_header deadline;
  match o with
  | Some r => mret (Some r)
  | None =>
      current ← call (load (fun s => we_generation (sh_capacity_wake s)));
      if negb (current =? generation) then mret None
      else
        _ ← call (map_errM (quarantine_pe b) drain);
        o ← try_until inventory bound wire_header deadline;
        match o with
        | Some r => mret (Some r)
        | None =>
            current ← call (load (fun s => we_generation (sh_capacity_wake s)));
            if negb (current =? generation) then mret None
            else
              ready ← map_errT (quarantine_pe b) (wait_until deadline);
              passed ← (if (ready : bool) then mret false else now ← read_clock; mret (deadline <=? now));
              if (passed : bool) then call (throw PE_Deadline)
              else _ ← call (map_errM (quarantine_pe b) drain); mret None
        end
  end.

(** The guard of the armed epoch is dropped on every exit from an iteration. *)
Fixpoint reserve_until_in (fuel : nat) (inventory : Inventory) (bound : Z) (wire_header : list Z) (deadline : Z)
    : T ProducerError ProducerReservation :=
  match fuel with
  | O => not_returned
  | S fuel =>
      o ← try_until inventory bound wire_header deadline;
      match o with
      | Some r => mret r
      | None =>
          _ ← call (lift (map_err (fun e => PE_Ring (from_mapping e)) (capacity_wake_page b)));
          generation ← call (map_errM (fun e => mret (PE_Ring e)) arm_capacity);
          o ← attemptT (armed_reserve inventory bound wire_header generation deadline);
          _ ← call unpark_capacity;
          match o with
          | Err e => call (throw e)
          | Ok (Some r) => mret r
          | Ok None => reserve_until_in fuel inventory bound wire_header deadline
          end
      end
  end.

(** The part of an iteration that holds the armed epoch: whether the deadline has passed. *)
Definition blocked_wait (deadline : Z) : T RingError bool :=
  ready ← map_errT (quarantine_with b) (wait_until deadline);
  passed ← (if (ready : bool) then mret false else now ← read_clock; mret (deadline <=? now));
  if (passed : bool) then mret true
  else _ ← call (complete_data_wait b); mret false.

Fixpoint wait_for_data (fuel : nat) (deadline : Z) : T RingError bool :=
  match fuel with
  | O => not_returned
  | S fuel =>
      quarantined ← call (is_quarantined b);
      if (quarantined : bool) then call (throw RE_Quarantined)
      else
      available ← call (data_available b);
      if (available : bool) then mret true
      else
      now ← read_clock;
      if deadline <=? now then mret false
      else
        armed ← call (arm_data_wait b);
        if negb armed then wait_for_data fuel deadline
        else
          o ← attemptT (blocked_wait deadline);
          _ ← call unpark_data;
          match o with
          | Err e => call (throw e)
          | Ok true => mret false
          | Ok false => wait_for_data fuel deadline
          end
  end.
End Blocking.

(** ** Timelines that reach the deadline *)
Definition event_ok (event : PollEvent) : Prop :=
  match event with TokenAfter t | SignalAfter t => 0 <= t | _ => True end.

(** Time does not run backwards, and the readings listed reach the deadline. *)
Record timeline_ok (deadline : Z) (c : Timeline) : Prop := {
  to_ticks : Forall (fun t => 0 <= t) (tl_ticks c);
  to_polls : Forall event_ok (tl_polls c);
  to_reaches : deadline <= tl_now c + zsum (tl_ticks c);
}.

(** The time at the end is the time at the start, or a millisecond after the deadline, and what passed
    between the readings in between. *)
Definition on_time (deadline : Z) (c c' : Timeline) : Prop :=
  tl_now c' <= Z.max (tl_now c) (deadline + NANOS_PER_MILLI) + (zsum (tl_ticks c) - zsum (tl_ticks c')).

Record elapses (deadline : Z) (c c' : Timeline) : Prop := {
  el_ok : timeline_ok deadline c';
  el_ticks : (length (tl_ticks c') <= length (tl_ticks c))%nat;
  el_sum : zsum (tl_ticks c') <= zsum (tl_ticks c);
  el_late : on_time deadline c c';
}.

Lemma elapses_refl deadline c : timeline_ok deadline c -> elapses deadline c c.
Proof. intros Hc. split; [done|lia|lia|]. unfold on_time. lia. Qed.

Lemma elapses_trans deadline c1 c2 c3 : elapses deadline c1 c2 -> elapses deadline c2 c3 -> elapses deadline c1 c3.
Proof. unfold on_time. intros [_ H1 H2 H3] [H4 H5 H6 H7]. unfold on_time in *. split; [done|lia|lia|]. unfold on_time. lia. Qed.

Lemma poll_timeout_range remaining :
  0 < remaining -> 0 <= poll_timeout remaining /\ poll_timeout remaining * NANOS_PER_MILLI <= remaining + NANOS_PER_MILLI.
Proof.
  intros Hr. unfold poll_timeout, as_i32, i32_MAX, NANOS_PER_MILLI.
  pose proof (Z.div_pos remaining 1000000 ltac:(lia) ltac:(lia)). pose proof (Z.mul_div_le remaining 1000000 ltac:(lia)).
  set (q := remaining / 1000000) in *. set (v := Z.min _ _). assert (0 <= v <= 2147483647 /\ v <= q + 1) as [Hv Hq] by (unfold v, u128_MAX; lia).
  clearbody v. rewrite Z.mod_small by lia. lia.
Qed.

Lemma poll_elapses deadline timeout c :
  timeline_ok deadline c -> 0 <= timeout -> tl_now c + timeout * NANOS_PER_MILLI <= deadline + NANOS_PER_MILLI ->
  exists a c', poll_readable timeout c = Some (a, c') /\ elapses deadline c c'.
Proof.
  intros [Ht Hp Hd] H0 Hl. unfold poll_readable.
  destruct (match tl_polls c with [] => (Quiet, []) | event :: polls => (event, polls) end) as [event polls] eqn:Ep.
  assert (event_ok event /\ Forall event_ok polls) as [He Hps].
  { destruct (tl_polls c) as [|e l]; simplify_eq; [split; [done|constructor]|]. by apply Forall_cons_iff in Hp. }
  assert (forall t, 0 <= t <= timeout * NANOS_PER_MILLI -> elapses deadline c (mkTimeline (tl_now c + t) (tl_ticks c) polls)) as Hel.
  { intros t Hr. split; cbn [tl_now tl_ticks tl_polls]; [split; cbn [tl_now tl_ticks tl_polls]; [done|done|lia]|lia|lia|].
    unfold on_time. cbn [tl_now tl_ticks]. lia. }
  assert (0 <= timeout * NANOS_PER_MILLI) by (unfold NANOS_PER_MILLI; lia).
  rewrite (proj2 (Z.ltb_ge timeout 0)) by lia. cbn [orb].
  destruct event as [t|t| |]; cbn in He; try (destruct (Z.leb_spec t (timeout * NANOS_PER_MILLI)));
    (eexists _, _; split; [reflexivity|]; apply Hel; lia).
Qed.

(** ** Weakest precondition *)
Definition twp {E A} (m : T E A) (Q : A -> Timeline -> Handle -> Prop) (R : E -> Timeline -> Handle -> Prop)
    (c : Timeline) (h : Handle) : Prop :=
  forall s peer bell, shared_ok s -> peer_ok peer ->
    match m c (mkWorld s h peer bell) with
    | (Some (Done a, c'), w') => shared_ok (w_shared w') /\ peer_ok (w_peer w') /\ Q a c' (w_handle w')
    | (Some (Fail e, c'), w') => shared_ok (w_shared w') /\ peer_ok (w_peer w') /\ R e c' (w_handle w')
    | _ => False
    end.

Section TRules.
Context {E A : Type}.
Implicit Types (Q : A -> Timeline -> Handle -> Prop) (R : E -> Timeline -> Handle -> Prop).

Lemma twp_mono m Q Q' R R' c h :
  twp m Q R c h -> (forall a c' h', Q a c' h' -> Q' a c' h') -> (forall e c' h', R e c' h' -> R' e c' h') -> twp (E:=E) (A:=A) m Q' R' c h.
Proof.
  intros Hm HQ HR s peer bell Hs Hp. specialize (Hm s peer bell Hs Hp).
  destruct (m _ _) as [[[[a|e|] c']|] w']; naive_solver.
Qed.

Lemma twp_ret a Q R c h : Q a c h -> twp (mret a) Q R c h.
Proof. intros H s peer bell Hs Hp. cbn. done. Qed.

Lemma twp_call (m : M E A) Q R c h : wp m (fun a h' => Q a c h') (fun e h' => R e c h') h -> twp (call m) Q R c h.
Proof. intros Hm s peer bell Hs Hp. specialize (Hm s peer bell Hs Hp). unfold call. by destruct (m _) as [[a|e|] w']. Qed.

Lemma twp_throw e Q R c h : R e c h -> twp (call (throw e)) Q R c h.
Proof. intros H. by apply twp_call, wp_throw. Qed.

Lemma twp_bind {B} (m : T E B) (f : B -> T E A) Q R c h :
  twp m (fun x c' h' => twp (f x) Q R c' h') R c h -> twp (m ≫= f) Q R c h.
Proof.
  intros Hm s peer bell Hs Hp. specialize (Hm s peer bell Hs Hp). unfold mbind, T_bind.
  destruct (m _ _) as [[[[x|e|] c']|] w'] eqn:Em; [|done|done|done].
  destruct Hm as (Hs' & Hp' & Hf). destruct w' as [s' h' peer' bell']. apply (Hf s' peer' bell' Hs' Hp').
Qed.
End TRules.

Lemma twp_attempt {E F A} (m : T E A) (Q : result E A -> Timeline -> Handle -> Prop) (R : F -> Timeline -> Handle -> Prop) c h :
  twp m (fun a c' h' => Q (Ok a) c' h') (fun e c' h' => Q (Err e) c' h') c h -> twp (attemptT m) Q R c h.
Proof.
  intros Hm s peer bell Hs Hp. specialize (Hm s peer bell Hs Hp). unfold attemptT.
  by destruct (m _ _) as [[[[x|e|] c']|] w'].
Qed.

Lemma twp_map_err {E F A} (f : E -> M F F) (m : T E A) (Q : A -> Timeline -> Handle -> Prop) (R : F -> Timeline -> Handle -> Prop) c h :
  twp m Q (fun e c' h' => wp (f e) (fun e' h'' => R e' c' h'') (fun e' h'' => R e' c' h'') h') c h -> twp (map_errT f m) Q R c h.
Proof.
  intros Hm. unfold map_errT. apply twp_bind, twp_attempt. eapply twp_mono; [exact Hm| |]; cbn beta.
  - intros a c' h' H. by apply twp_ret.
  - intros e c' h' H. apply twp_bind, twp_call. eapply wp_mono; [exact H| |]; cbn beta; [|done]. intros e' h'' H'. by apply twp_throw.
Qed.

(** A reading before the deadline leaves fewer readings to come. *)
Lemma twp_clock {E} deadline (Q : Z -> Timeline -> Handle -> Prop) (R : E -> Timeline -> Handle -> Prop) c h :
  timeline_ok deadline c ->
  (forall c', elapses deadline c c' -> (tl_now c' < deadline -> (length (tl_ticks c') < length (tl_ticks c))%nat) -> Q (tl_now c') c' h) ->
  twp read_clock Q R c h.
Proof.
  intros Hc HQ s peer bell Hs Hp. unfold read_clock. pose proof Hc as [Ht Hps Hd]. destruct (tl_ticks c) as [|t ticks] eqn:Et; cbn.
  - split; [done|]. split; [done|]. apply HQ; [by apply elapses_refl|]. rewrite Et in *. cbn in Hd. lia.
  - split; [done|]. split; [done|]. apply Forall_cons_iff in Ht as [Ht Hts]. cbn in Hd.
    assert (zsum (t :: ticks) = t + zsum ticks) as Hz by done.
    apply (HQ (mkTimeline (tl_now c + t) ticks (tl_polls c))); cbn [tl_now tl_ticks tl_polls length]; [|lia]. unfold zsum in *.
    split; cbn [tl_now tl_ticks tl_polls]; rewrite ?Et; [|cbn; lia|unfold zsum; lia|].
    + split; cbn [tl_now tl_ticks tl_polls]; [done|done|unfold zsum; lia].
    + unfold on_time. rewrite Et. cbn [tl_now tl_ticks]. unfold zsum. lia.
Qed.

Lemma twp_poll {E} deadline timeout (Q : PollAnswer -> Timeline -> Handle -> Prop) (R : E -> Timeline -> Handle -> Prop) c h :
  timeline_ok deadline c -> 0 <= timeout -> tl_now c + timeout * NANOS_PER_MILLI <= deadline + NANOS_PER_MILLI ->
  (forall a c', poll_readable timeout c = Some (a, c') -> elapses deadline c c' -> Q a c' h) -> twp (poll timeout) Q R c h.
Proof.
  intros Hc H0 Hl HQ s peer bell Hs Hp. unfold poll. destruct (poll_elapses deadline timeout c Hc H0 Hl) as (a & c' & E0 & Hel).
  rewrite E0. split; [done|]. split; [done|]. by apply HQ.
Qed.

(** A wait always returns. *)
Lemma twp_wait deadline c h (Q : bool -> Timeline -> Handle -> Prop) (R : RingError -> Timeline -> Handle -> Prop) :
  timeline_ok deadline c ->
  (forall ready c', elapses deadline c c' -> Q ready c' h) -> (forall e c', elapses deadline c c' -> R e c' h) ->
  twp (wait_until deadline) Q R c h.
Proof.
  intros Hc HQ HR. unfold wait_until. apply twp_bind, (twp_clock deadline); [done|]. intros c1 H1 _.
  destruct (Z.eqb_spec (Z.max 0 (deadline - tl_now c1)) 0) as [|Hrem]; [by apply twp_ret, HQ|]. cbn zeta.
  destruct (poll_timeout_range (Z.max 0 (deadline - tl_now c1)) ltac:(lia)) as [Ht1 Ht2].
  apply twp_bind, (twp_poll deadline); [apply H1|lia|unfold NANOS_PER_MILLI; lia|]. intros a c2 Ha H2.
  assert (elapses deadline c c2) as H12 by (by eapply elapses_trans).
  destruct (match a with Polled ready => ready | _ => false end) eqn:Er; [by apply twp_ret, HQ|].
  assert (tl_now c2 = tl_now c1) as Hnow.
  { revert Ha. unfold poll_readable. destruct (match tl_polls c1 with [] => _ | _ => _ end) as [event polls] eqn:Ep.
    assert (event_ok event) as He.
    { destruct (el_ok _ _ _ H1) as [_ Hps _]. destruct (tl_polls c1) as [|e l]; simplify_eq; [done|]. by apply Forall_cons_iff in Hps as [? _]. }
    rewrite Z.mul_0_l. destruct event as [t|t| |]; cbn in He |- *; try (destruct (Z.leb_spec t 0)); intros ?; simplify_eq/=; lia. }
  apply twp_bind, (twp_poll deadline); [apply H2|done|rewrite Hnow; lia|]. intros a3 c3 _ H3.
  assert (elapses deadline c c3) as H13 by (by eapply elapses_trans). destruct a3 as [ready| |]; [by apply twp_ret, HQ| |by apply twp_throw, HR].
  apply twp_bind, (twp_clock deadline); [apply H3|]. intros c4 H4 _. apply twp_ret, HQ. by eapply elapses_trans.
Qed.

(** ** The errors of a reservation attempt *)
Definition raises {E A} (m : M E A) (P : E -> Prop) : Prop := forall w e w', m w = (Fail e, w') -> P e.
Definition yields {E A} (m : M E A) (P : A -> Prop) : Prop := forall w a w', m w = (Done a, w') -> P a.

Section Raises.
Context {E : Type} (P : E -> Prop).

Lemma raises_bind {A B} (m : M E A) (f : A -> M E B) : raises m P -> (forall a, raises (f a) P) -> raises (m ≫= f) P.
Proof. intros Hm Hf w e w'. unfold mbind, M_bind. destruct (m w) as [[a|e'|] w1] eqn:E1; intros H; simplify_eq; [by eapply Hf|by eapply Hm]. Qed.
Lemma raises_ret {A} (a : A) : raises (mret a) P.
Proof. by intros w e w' [=]. Qed.
Lemma raises_throw {A} e : P e -> raises (A := A) (throw e) P.
Proof. by intros He w e' w' [= <- _]. Qed.
Lemma raises_lift {A} (r : result E A) : match r with Ok _ => True | Err e => P e end -> raises (lift r) P.
Proof. destruct r; [intros _; apply raises_ret|apply raises_throw]. Qed.
Lemma raises_get : raises get_handle P.
Proof. by intros w e w' [=]. Qed.
Lemma raises_put h : raises (put_handle h) P.
Proof. by intros w e w' [=]. Qed.
Lemma raises_atomic {A} (f : Shared -> A * Shared) : raises (atomic f) P.
Proof. intros w e w'. unfold atomic. destruct (w_peer w); destruct (f _); by intros [=]. Qed.
Lemma raises_vec_get {A} (l : list A) i : raises (vec_get l i) P.
Proof. unfold vec_get. destruct (l !! _); [apply raises_ret|by intros w e w' [=]]. Qed.
Lemma raises_attempt {F A} (m : M F A) : raises (attempt m) P.
Proof. intros w e w'. unfold attempt. destruct (m w) as [[]]; by intros [=]. Qed.
Lemma raises_map_err {F A} (f : F -> M E E) (m : M F A) : (forall e, raises (f e) P /\ yields (f e) P) -> raises (map_errM f m) P.
Proof.
  intros Hf w e w'. unfold map_errM. destruct (m w) as [[a|e1|] w1]; [by intros [=]| |by intros [=]]. destruct (Hf e1) as [H1 H2].
  destruct (f e1 w1) as [[e2|e2|] w2] eqn:E2; intros [= <- <-]; [by eapply H2|by eapply H1].
Qed.
End Raises.

Lemma yields_bind {E A B} (m : M E A) (f : A -> M E B) (P : B -> Prop) : (forall a, yields (f a) P) -> yields (m ≫= f) P.
Proof. intros Hf w a w'. unfold mbind, M_bind. destruct (m w) as [[x|e'|] w1]; intros H; simplify_eq. by eapply Hf. Qed.
Lemma yields_ret {E A} (a : A) (P : A -> Prop) : P a -> yields (E := E) (mret a) P.
Proof. by intros Ha w x w' [= <- _]. Qed.

Ltac raises_step :=
  first
  [ apply raises_ret | apply raises_throw; discriminate | apply raises_get | apply raises_put | apply raises_atomic | apply raises_vec_get
  | apply raises_attempt | apply raises_lift; solve [unfold ok_or; repeat case_match; simplify_eq; done]
  | apply raises_map_err; intros ?e; split; [|first [apply yields_ret; discriminate | repeat (apply yields_bind; intros ?x); apply yields_ret; discriminate]]
  | apply raises_bind; [|intros ?x] | case_match ].

Lemma reserve_not_deadline b inventory bound header : raises (try_reserve_in b inventory bound header) (fun e => e <> PE_Deadline).
Proof.
  unfold try_reserve_in, quarantine_pe, quarantine_with, enter_quarantine, is_quarantined, free_pop, free_push, set_generation_of, set_state_of,
    get_ledger, put_ledger, modify_handle, load, store. repeat raises_step.
Qed.

Lemma wp_raises {E A} (m : M E A) Q (R : E -> Handle -> Prop) (P : E -> Prop) h :
  wp m Q R h -> raises m P -> wp m Q (fun e h' => R e h' /\ P e) h.
Proof.
  intros Hm Hr s peer bell Hs Hp. specialize (Hm s peer bell Hs Hp). specialize (Hr (mkWorld s h peer bell)).
  destruct (m _) as [[a|e|] w']; [done| |done]. specialize (Hr e w' eq_refl). tauto.
Qed.

(** ** The loops *)
Section Specs.
Context (page_size : Z) (b : Backing) (deadline : Z).
Hypothesis Hb : backing_ok page_size b.
Let g : PoolGeometry := bk_geometry b.

(** A granted reservation after refusals that charged nothing. *)
Definition granted_from (h : Handle) (inventory : Inventory) (bound : Z) (header : list Z)
    (r : ProducerReservation) (h' : Handle) : Prop :=
  exists h1, client_frame b h h1 /\ handle_inv g h' /\ reserved_to b h1 inventory bound header r h'.

Lemma granted_frame h h1 inventory bound header r h' :
  client_frame b h h1 -> granted_from h1 inventory bound header r h' -> granted_from h inventory bound header r h'.
Proof. intros Hf (h2 & H2 & H). exists h2. split; [by eapply client_trans|done]. Qed.

(** The state goes on to [c'] and [h'] with nothing charged. *)
Definition moves (c : Timeline) (h : Handle) (c' : Timeline) (h' : Handle) : Prop := elapses deadline c c' /\ client_frame b h h'.

Lemma moves_trans c1 h1 c2 h2 c3 h3 : moves c1 h1 c2 h2 -> moves c2 h2 c3 h3 -> moves c1 h1 c3 h3.
Proof. intros [? ?] [? ?]. split; [by eapply elapses_trans|by eapply client_trans]. Qed.

Lemma moves_time c1 h1 c2 c3 h2 : moves c1 h1 c2 h2 -> elapses deadline c2 c3 -> moves c1 h1 c3 h2.
Proof. intros [? ?] ?. split; [by eapply elapses_trans|done]. Qed.

Lemma moves_frame c1 h1 c2 h2 h3 : moves c1 h1 c2 h2 -> client_frame b h2 h3 -> moves c1 h1 c2 h3.
Proof. intros [? ?] ?. split; [done|by eapply client_trans]. Qed.

Definition ready_state (c : Timeline) (h : Handle) : Prop := timeline_ok deadline c /\ handle_inv g h.

Lemma moves_ready c h c' h' : moves c h c' h' -> ready_state c' h'.
Proof. intros [[] []]. done. Qed.

Lemma moves_refl c h : ready_state c h -> moves c h c h.
Proof. intros [? ?]. split; [by apply elapses_refl|by apply client_refl]. Qed.

Definition gave_up (c : Timeline) (h : Handle) (e : ProducerError) (c' : Timeline) (h' : Handle) : Prop :=
  moves c h c' h' /\ e <> PE_Exhausted /\ (e = PE_Deadline -> deadline <= tl_now c').

Lemma gave_up_moves c h c1 h1 e c' h' : moves c h c1 h1 -> gave_up c1 h1 e c' h' -> gave_up c h e c' h'.
Proof. intros Hm [H2 He]. split; [by eapply moves_trans|done]. Qed.

(** What an iteration leaves behind: a grant, or the state it goes on from. *)
Definition iterated (c : Timeline) (h : Handle) (inventory : Inventory) (bound : Z) (header : list Z)
    (o : option ProducerReservation) (c' : Timeline) (h' : Handle) : Prop :=
  match o with
  | Some r => granted_from h inventory bound header r h' /\ elapses deadline c c'
  | None => moves c h c' h'
  end.

Lemma iterated_moves c h c1 h1 inventory bound header o c' h' :
  moves c h c1 h1 -> iterated c1 h1 inventory bound header o c' h' -> iterated c h inventory bound header o c' h'.
Proof.
  intros Hm. destruct o as [r|]; cbn; [|by apply moves_trans]. destruct Hm. intros [? ?].
  split; [by eapply granted_frame|by eapply elapses_trans].
Qed.

(** Calls that charge nothing. *)
Lemma twp_framed {E A} (m : M E A) (Q : A -> Timeline -> Handle -> Prop) (R : E -> Timeline -> Handle -> Prop) c h c0 h0 :
  framed b m -> moves c0 h0 c h ->
  (forall a h', moves c0 h0 c h' -> Q a c h') -> (forall e h', moves c0 h0 c h' -> R e c h') -> twp (call m) Q R c h.
Proof.
  intros Hm Hmv HQ HR. apply twp_call. eapply wp_mono; [apply Hm, Hmv| |]; cbn beta; intros x h' Hf; [apply HQ|apply HR]; by eapply moves_frame.
Qed.

Lemma framed_pe {A} (m : M RingError A) : framed b m -> framed b (map_errM (quarantine_pe b) m).
Proof.
  intros Hm h Hinv. wp_step. eapply wp_mono; [by apply Hm| |]; cbn beta; [done|].
  intros e h' Hf. by apply wp_quarantine_pe, client_latch.
Qed.

Lemma raises_pe {A} (m : M RingError A) : raises (map_errM (quarantine_pe b) m) (fun e => exists e', e = PE_Ring e').
Proof.
  apply raises_map_err. intros e. unfold quarantine_pe, quarantine_with, enter_quarantine, modify_handle, store.
  split; [|apply yields_bind; intros x; apply yields_ret; by eexists]. repeat raises_step.
Qed.

(** Draining between the steps of an armed reservation. *)
Lemma twp_drain (Q : unit -> Timeline -> Handle -> Prop) c h c0 h0 :
  moves c0 h0 c h -> (forall h', moves c0 h0 c h' -> Q () c h') -> twp (call (map_errM (quarantine_pe b) drain)) Q (gave_up c0 h0) c h.
Proof.
  intros Hmv HQ. apply twp_call. eapply wp_mono; [apply wp_raises; [apply framed_pe; [apply framed_drain|apply Hmv]|apply raises_pe]| |]; cbn beta.
  - intros [] h' Hf. apply HQ. by eapply moves_frame.
  - intros e h' [Hf [e' ->]]. split; [by eapply moves_frame|]. done.
Qed.

(** A reading that decides whether the deadline has passed. *)
Lemma twp_passed {E} (Q : bool -> Timeline -> Handle -> Prop) (R : E -> Timeline -> Handle -> Prop) (ready : bool) c h c0 h0 :
  moves c0 h0 c h -> (forall passed c', moves c0 h0 c' h -> (passed = true -> deadline <= tl_now c') -> Q passed c' h) ->
  twp (if ready then mret false else now ← read_clock; mret (deadline <=? now)) Q R c h.
Proof.
  intros Hmv HQ. destruct ready; [by apply twp_ret, HQ|]. apply twp_bind, (twp_clock deadline); [apply Hmv|]. intros c' Hc' _. apply twp_ret, HQ.
  - by eapply moves_time.
  - intros ?%Z.leb_le. done.
Qed.

Lemma twp_try_until c h inventory bound header :
  ready_state c h ->
  twp (try_until b inventory bound header deadline)
    (fun o c' h' => iterated c h inventory bound header o c' h' /\ (o = None -> (length (tl_ticks c') < length (tl_ticks c))%nat))
    (gave_up c h) c h.
Proof.
  intros [Hc Hinv]. unfold try_until. apply twp_bind, twp_call, wp_attempt.
  eapply wp_mono; [apply wp_raises; [by apply (wp_try_reserve page_size b Hb)|apply reserve_not_deadline]| |]; cbn beta.
  - intros r h' [Hi Hr]. apply twp_ret. split; [|done]. split; [|by apply elapses_refl]. exists h. split; [by apply client_refl|done].
  - intros e h' [H%refused_client Hne]. assert (moves c h c h') as Hmv by (split; [by apply elapses_refl|done]).
    assert (e <> PE_Exhausted -> gave_up c h e c h') as Hg by done.
    destruct e; try (apply twp_throw; by apply Hg). clear Hg.
    apply twp_bind, (twp_clock deadline); [done|]. intros c' Hel Hlt. destruct (Z.ltb_spec (tl_now c') deadline).
    + apply twp_ret. split; [by eapply moves_time|auto].
    + apply twp_throw. split; [by eapply moves_time|done].
Qed.

Lemma twp_armed_reserve c h inventory bound header generation :
  ready_state c h ->
  twp (armed_reserve b inventory bound header generation deadline) (iterated c h inventory bound header) (gave_up c h) c h.
Proof.
  intros Hrs. unfold armed_reserve. apply twp_bind. eapply twp_mono; [by apply twp_try_until| |]; cbn beta; [|done].
  intros [r|] c1 h1 [H1 _]; [by apply twp_ret|]. cbn in H1. apply twp_bind, twp_call, wp_load. intros s Hs.
  destruct (negb _); [by apply twp_ret|]. apply twp_bind, (twp_drain _ _ _ _ _ H1). intros h2 H2.
  apply twp_bind. eapply twp_mono; [by apply twp_try_until, (moves_ready _ _ _ _ H2)| |]; cbn beta;
    [|intros e c3 h3 H3; by eapply gave_up_moves].
  intros o c3 h3 [H3 _]. pose proof (iterated_moves _ _ _ _ _ _ _ _ _ _ H2 H3) as H4. destruct o as [r|]; [by apply twp_ret|]. cbn in H4.
  apply twp_bind, twp_call, wp_load. intros s' Hs'. destruct (negb _); [by apply twp_ret|].
  apply twp_bind, twp_map_err, twp_wait; [apply H4| |].
  - intros ready c5 H5. assert (moves c h c5 h3) as Hm5 by (by eapply moves_time).
    apply twp_bind, (twp_passed _ _ _ _ _ _ _ Hm5). intros passed c6 H6 Hp. destruct passed; [apply twp_throw; split; [done|auto]|].
    apply twp_bind, (twp_drain _ _ _ _ _ H6). intros h7 H7. by apply twp_ret.
  - intros e c5 H5. apply wp_quarantine_pe. split; [|done]. eapply moves_frame; [by eapply moves_time|]. apply client_latch, client_refl, H4.
Qed.

Lemma twp_reserve_until fuel c h inventory bound header :
  ready_state c h -> (length (tl_ticks c) < fuel)%nat ->
  twp (reserve_until_in b fuel inventory bound header deadline)
    (fun r c' h' => granted_from h inventory bound header r h' /\ elapses deadline c c') (gave_up c h) c h.
Proof.
  revert c h. induction fuel as [|fuel IH]; intros c h Hrs Hlen; [lia|]. cbn [reserve_until_in]. apply twp_bind.
  eapply twp_mono; [by apply twp_try_until| |]; cbn beta; [|done].
  intros [r|] c1 h1 [H1 Hl]; [by apply twp_ret|]. cbn in H1. specialize (Hl eq_refl).
  apply twp_bind, twp_call, wp_lift. destruct (capacity_wake_page b); cbn [map_err]; [|by split].
  apply twp_bind, twp_call. wp_step. unfold arm_capacity. wp_step. wp_step. wp_step. apply wp_store; [auto with machine|]. apply wp_ret.
  apply twp_bind, twp_attempt. eapply twp_mono; [apply twp_armed_reserve, (moves_ready _ _ _ _ H1)| |]; cbn beta.
  - intros o c2 h2 H2. pose proof (iterated_moves _ _ _ _ _ _ _ _ _ _ H1 H2) as H3. apply twp_bind, twp_call, wp_store; [auto with machine|].
    destruct o as [r|]; [by apply twp_ret|]. cbn in H2, H3. eapply twp_mono; [apply IH; [by apply (moves_ready _ _ _ _ H3)|]| |]; cbn beta.
    + destruct H2 as [[_ ? _ _] _]. lia.
    + intros r c4 h4 H4. exact (iterated_moves _ _ _ _ _ _ _ (Some r) _ _ H3 H4).
    + intros e c4 h4 H4. by eapply gave_up_moves.
  - intros e c2 h2 H2. apply twp_bind, twp_call, wp_store; [auto with machine|]. apply twp_throw. by eapply gave_up_moves.
Qed.

(** *** Waiting for data *)
Lemma framed_unpark {E} : framed b (E := E) unpark_data.
Proof. intros h Hinv. unfold unpark_data. apply wp_store; [auto with machine|]. by apply client_refl. Qed.

Lemma twp_blocked_wait c h :
  ready_state c h ->
  twp (blocked_wait b deadline) (fun passed c' h' => moves c h c' h' /\ (passed = true -> deadline <= tl_now c'))
    (fun _ c' h' => moves c h c' h') c h.
Proof.
  intros Hrs. pose proof (moves_refl _ _ Hrs) as H0. unfold blocked_wait. apply twp_bind, twp_map_err, twp_wait; [apply Hrs| |].
  - intros ready c1 H1. assert (moves c h c1 h) as Hm by (by eapply moves_time).
    apply twp_bind, (twp_passed _ _ _ _ _ _ _ Hm). intros passed c2 H2 Hp. destruct passed; [apply twp_ret; auto|].
    apply twp_bind. eapply twp_framed; [apply (framed_complete_data_wait b)|exact H2| |]; [|done].
    intros _ h3 H3. by apply twp_ret.
  - intros e c1 H1. apply wp_quarantine_with. eapply moves_frame; [by eapply moves_time|]. apply client_latch, client_refl, Hrs.
Qed.

Definition waited (c : Timeline) (h : Handle) (available : bool) (c' : Timeline) (h' : Handle) : Prop :=
  moves c h c' h' /\ (available = false -> deadline <= tl_now c').

Lemma twp_wait_for_data fuel c h :
  ready_state c h -> (length (tl_ticks c) < fuel)%nat ->
  twp (wait_for_data b fuel deadline) (waited c h) (fun _ c' h' => moves c h c' h') c h.
Proof.
  revert c h. induction fuel as [|fuel IH]; intros c h Hrs Hlen; [lia|]. cbn [wait_for_data]. pose proof (moves_refl _ _ Hrs) as H0.
  apply twp_bind. eapply twp_framed; [apply framed_is_quarantined|exact H0| |done]. intros quarantined h1 H1.
  destruct quarantined; [by apply twp_throw|]. apply twp_bind. eapply twp_framed; [apply (framed_data_available page_size b Hb)|exact H1| |done].
  intros available h2 H2. destruct available; [apply twp_ret; by split|].
  apply twp_bind, (twp_clock deadline); [apply H2|]. intros c3 Hel Hlt. assert (moves c h c3 h2) as H3 by (by eapply moves_time).
  destruct (Z.leb_spec deadline (tl_now c3)) as [Hd|Hd]; [apply twp_ret; by split|]. specialize (Hlt Hd).
  assert (forall c' h', (length (tl_ticks c') <= length (tl_ticks c3))%nat -> moves c h c' h' ->
    twp (wait_for_data b fuel deadline) (waited c h) (fun _ c' h' => moves c h c' h') c' h') as Hnext.
  { intros c' h' Hl H'. eapply twp_mono; [apply IH; [by apply (moves_ready _ _ _ _ H')|lia]| |]; cbn beta.
    - intros a c4 h4 [H4 ?]. split; [by eapply moves_trans|done].
    - intros e c4 h4 H4. by eapply moves_trans. }
  apply twp_bind. eapply twp_framed; [apply (framed_arm_data_wait page_size b Hb)|exact H3| |done]. intros armed h4 H4.
  destruct armed; cbn [negb]; [|by apply Hnext]. apply twp_bind, twp_attempt.
  eapply twp_mono; [apply twp_blocked_wait, (moves_ready _ _ _ _ H4)| |]; cbn beta.
  - intros passed c5 h5 [H5 Hp]. pose proof (moves_trans _ _ _ _ _ _ H4 H5) as H6.
    apply twp_bind. eapply twp_framed; [apply framed_unpark|exact H6| |done]. intros _ h7 H7.
    destruct passed; [apply twp_ret; split; [done|auto]|]. apply Hnext; [apply H5|done].
  - intros e c5 h5 H5. pose proof (moves_trans _ _ _ _ _ _ H4 H5) as H6.
    apply twp_bind. eapply twp_framed; [apply framed_unpark|exact H6| |done]. intros _ h7 H7. by apply twp_throw.
Qed.
End Specs.

Lemma twp_run {E A} (m : T E A) Q R c h s peer bell :
  twp m Q R c h -> shared_ok s -> peer_ok peer ->
  (exists a c' w', m c (mkWorld s h peer bell) = (Some (Done a, c'), w') /\ Q a c' (w_handle w')) \/
  (exists e c' w', m c (mkWorld s h peer bell) = (Some (Fail e, c'), w') /\ R e c' (w_handle w')).
Proof.
  intros H Hs Hp. specialize (H s peer bell Hs Hp). destruct (m _ _) as [[[[a|e|] c']|] w'] eqn:Em; [left|right|done|done]; naive_solver.
Qed.

(** C39: the blocking calls return, and in time. Against any peer, any doorbell and any clock whose
    readings reach the deadline, a blocking reservation ends in a granted reservation or in an error
    other than exhaustion, and a wait for data ends in an answer or an error; the loops never run out of
    the iterations the readings allow, and no poll they make can block for ever. They end at most a
    millisecond after the deadline, not counting the time that passes between their own readings of the
    clock; they report the deadline only when it has passed; and a failed call keeps the open
    reservation, the generations, the leases and the published count. *)
Theorem blocking_calls_return page_size b h c inventory bound header deadline clock fuel s peer bell :
  backing_ok page_size b -> reach b h c -> shared_ok s -> peer_ok peer -> timeline_ok deadline clock ->
  (length (tl_ticks clock) < fuel)%nat ->
  match reserve_until_in b fuel inventory bound header deadline clock (mkWorld s h peer bell) with
  | (Some (Done r, clock'), w') => on_time deadline clock clock' /\
      hd_reserved_block (w_handle w') = Some (pr_block r) /\
      pr_capacity r = bound /\ class_for (bk_geometry b) inventory bound = Some (pr_class r)
  | (Some (Fail e, clock'), w') => on_time deadline clock clock' /\
      e <> PE_Exhausted /\ (e = PE_Deadline -> deadline <= tl_now clock') /\
      hd_reserved_block (w_handle w') = hd_reserved_block h /\
      pl_generations (hd_ledger (w_handle w')) = pl_generations (hd_ledger h) /\
      hd_live (w_handle w') = hd_live h /\ hd_published_local (w_handle w') = hd_published_local h
  | _ => False
  end /\
  match wait_for_data b fuel deadline clock (mkWorld s h peer bell) with
  | (Some (Done available, clock'), w') => on_time deadline clock clock' /\ (available = false -> deadline <= tl_now clock')
  | (Some (Fail e, clock'), w') => on_time deadline clock clock' /\ hd_live (w_handle w') = hd_live h
  | _ => False
  end.
Proof.
  intros Hb Hr Hs Hp Hc Hlen. pose proof (reach_handle _ _ Hb _ _ Hr) as Hi. assert (ready_state b deadline clock h) as Hrs by done. split.
  - destruct (twp_run _ _ _ _ _ s peer bell (twp_reserve_until page_size b deadline Hb fuel clock h inventory bound header Hrs Hlen) Hs Hp)
      as [(r & clock' & w' & -> & (h1 & _ & _ & H) & [])|(e & clock' & w' & -> & [[] []] & He)]; [|tauto].
    split; [done|]. destruct H as [_ _ Hblk _ _ _ [Hk _] _ (Hcap & _) _ _]. done.
  - destruct (twp_run _ _ _ _ _ s peer bell (twp_wait_for_data page_size b deadline Hb fuel clock h Hrs Hlen) Hs Hp)
      as [(a & clock' & w' & -> & [[] []] & Ha)|(e & clock' & w' & -> & [] & [])]; done.
Qed.

(** A deadline 5 ms ahead; nothing ever arrives, and a signal interrupts the second wait. *)
Definition sample_clock : Timeline := mkTimeline 0 [0; 10; 10; 10; 10; 10; 10; 6000000] [Quiet; SignalAfter 300; Quiet; Quiet].

Lemma blocking_calls_return_witness :
  match wait_for_data host_backing 9 5000000 sample_clock (mkWorld (initialize_mapping host_backing) host_side [] [SysInterrupted; SysBytes 1]) with
  | (Some (Done available, clock'), _) => available = false /\ 5000000 <= tl_now clock'
  | _ => False
  end.
Proof.
  assert (timeline_ok 5000000 sample_clock) as Hc.
  { split; [repeat constructor; discriminate|repeat constructor; discriminate|discriminate]. }
  pose proof (blocking_calls_return 4096 host_backing host_side (None, []) InvOrdinary 100 [] 5000000 sample_clock 9
    (initialize_mapping host_backing) [] [SysInterrupted; SysBytes 1] host_backing_ok host_side_reach host_shared_ok (Forall_nil_2 _) Hc
    ltac:(cbn; lia)) as [_ H].
  assert (match (wait_for_data host_backing 9 5000000 sample_clock
            (mkWorld (initialize_mapping host_backing) host_side [] [SysInterrupted; SysBytes 1])).1 with
    Some (Done a, _) => a | _ => true end = false) as Hf by (vm_compute; reflexivity).
  destruct (wait_for_data _ _ _ _) as [[[[a|e|] clock']|] w']; [|discriminate Hf|discriminate Hf|discriminate Hf].
  cbn in Hf. split; [exact Hf|]. exact (proj2 H Hf).
Defined.
