(* ===== verification/Vocab.v ===== *)
(** * Vocab: the tokenizer's vocabulary tables (crates/tokenizer/src/bpe.rs, build.rs).

    Tokens are byte strings with a rank. Lookup is split by token length: direct tables for one
    and two bytes, hash tables with the token packed into an integer key for three to seven and
    eight to fifteen bytes, and a byte-string map above. A hash table is a list of its entries, and
    an index past an array's end is [None], a panic. *)
From S2P Require Import Prelude.
From stdpp Require Import gmap.
#[local] Open Scope Z_scope.

(** ** Data *)
Definition NO_RANK : Z := u32_MAX.

Record Vocab := mkVocab {
  vc_ranks : gmap (list Z) Z;
  vc_short : list (Z * Z);
  vc_mid : list (Z * Z);
  vc_pair : list Z;
  vc_byte : list Z;
}.

(** The word a key is read from: [width] bytes in one load when the text extends that far, else
    the token's own bytes padded with zeroes. *)
Definition key_word (text : list Z) (start len width : nat) : option Z :=
  match get_range text start width with
  | Some w => Some (from_le_bytes w)
  | None =>
      token ← get_range text start len;
      Some (from_le_bytes (token ++ replicate (width - len) 0))
  end.

Definition u128_MAX : Z := 340282366920938463463374607431768211455.

(** A length outside the asserted range is a panic. *)
Definition short_key (text : list Z) (start len : nat) : option Z :=
  if (3 <=? len)%nat && (len <=? 7)%nat then
    word ← key_word text start len 8;
    Some (Z.lor (Z.land word (Z.shiftr u64_MAX (64 - 8 * Z.of_nat len))) (Z.shiftl (Z.of_nat len) 56))
  else None.

Definition mid_key (text : list Z) (start len : nat) : option Z :=
  if (8 <=? len)%nat && (len <=? 15)%nat then
    word ← key_word text start len 16;
    Some (Z.lor (Z.land word (Z.shiftr u128_MAX (128 - 8 * Z.of_nat len))) (Z.shiftl (Z.of_nat len) 120))
  else None.

(** [HashTable::find]: the entry whose key is equal. *)
Definition table_find (t : list (Z * Z)) (key : Z) : option Z :=
  snd <$> find (fun e => e.1 =? key) t.

(** [array[i] = v]. *)
Definition set_at (l : list Z) (i : Z) (v : Z) : option (list Z) :=
  if i <? Z.of_nat (length l) then Some (<[Z.to_nat i := v]> l) else None.

Definition vocab_insert (v : Vocab) (token : list Z) (rank : Z) : option Vocab :=
  match token with
  | [a] =>
      t ← set_at (vc_byte v) a rank;
      Some (mkVocab (vc_ranks v) (vc_short v) (vc_mid v) (vc_pair v) t)
  | [a; b] =>
      t ← set_at (vc_pair v) (a * 256 + b) rank;
      Some (mkVocab (vc_ranks v) (vc_short v) (vc_mid v) t (vc_byte v))
  | _ =>
      if (length token <=? 7)%nat then
        key ← short_key token 0 (length token);
        Some (mkVocab (vc_ranks v) ((key, rank) :: vc_short v) (vc_mid v) (vc_pair v) (vc_byte v))
      else if (length token <=? 15)%nat then
        key ← mid_key token 0 (length token);
        Some (mkVocab (vc_ranks v) (vc_short v) ((key, rank) :: vc_mid v) (vc_pair v) (vc_byte v))
      else Some (mkVocab (<[token := rank]> (vc_ranks v)) (vc_short v) (vc_mid v) (vc_pair v) (vc_byte v))
  end.

Definition rank_of (v : Vocab) (text : list Z) (a b : nat) : option Z :=
  if (b <? a)%nat then None
  else
    match (b - a)%nat with
    | 1%nat => x ← text !! a; vc_byte v !! Z.to_nat x
    | 2%nat => x ← text !! a; y ← text !! (a + 1)%nat; vc_pair v !! Z.to_nat (x * 256 + y)
    | len =>
        if (3 <=? len)%nat && (len <=? 7)%nat then
          key ← short_key text a len; Some (default NO_RANK (table_find (vc_short v) key))
        else if (8 <=? len)%nat && (len <=? 15)%nat then
          key ← mid_key text a len; Some (default NO_RANK (table_find (vc_mid v) key))
        else span ← get_range text a len; Some (default NO_RANK (vc_ranks v !! span))
    end.

(** ** The vocabulary blob *)

(** The records of the header, six bytes each, consuming the token bytes in order. *)
Fixpoint insert_records (v : Vocab) (n : nat) (header bytes : list Z) : option (Vocab * list Z) :=
  match n with
  | O => Some (v, bytes)
  | S n =>
      let rec := take 6 header in
      let len := Z.to_nat (from_le_bytes (take 2 rec)) in
      let rank := from_le_bytes (drop 2 rec) in
      if (length bytes <? len)%nat then None
      else
        v ← vocab_insert v (take len bytes) rank;
        insert_records v n (drop 6 header) (drop len bytes)
  end.

Definition empty_vocab : Vocab :=
  mkVocab ∅ [] [] (replicate (Z.to_nat 65536) NO_RANK) (replicate (Z.to_nat 256) NO_RANK).

Definition from_blob (blob : list Z) : option Vocab :=
  head ← get_range blob 0 4;
  let count := Z.to_nat (from_le_bytes head) in
  let rest := drop 4 blob in
  if (length rest <? count * 6)%nat then None
  else
    r ← insert_records empty_vocab count (take (count * 6) rest) (drop (count * 6) rest);
    let '(v, bytes) := r in
    match bytes with
    | [] => if forallb (fun r => negb (r =? NO_RANK)) (vc_byte v) then Some v else None
    | _ => None
    end.

(** What the build script writes for a token list. *)
Definition blob_of (tokens : list (list Z * Z)) : list Z :=
  le_bytes 4 (Z.of_nat (length tokens)) ++
  (tokens ≫= (fun t => le_bytes 2 (Z.of_nat (length t.1)) ++ le_bytes 4 t.2)) ++
  concat (fst <$> tokens).

(** ** Packed keys *)

(** The integer a token of up to [width - 1] bytes is stored under. *)
Definition packed (token : list Z) (bits : Z) : Z := from_le_bytes token + Z.of_nat (length token) * 2 ^ bits.

Lemma slice_prefix {A} (l : list A) start n k : (n <= k)%nat -> take n (slice start k l) = slice start n l.
Proof. intros H. unfold slice. by rewrite take_take, Nat.min_l. Qed.

Lemma key_word_mod text start len width :
  Forall is_u8 text -> (len <= width)%nat -> (start + len <= length text)%nat ->
  exists w, key_word text start len width = Some w /\ 0 <= w /\
    w mod 256 ^ Z.of_nat len = from_le_bytes (slice start len text).
Proof.
  intros Hu Hw Hl. unfold key_word. assert (Forall is_u8 (slice start len text)) as Hs by (by apply Forall_take, Forall_drop).
  unfold get_range at 1. bcase.
  - assert (Forall is_u8 (slice start width text)) as Hb by (by apply Forall_take, Forall_drop).
    eexists. split; [done|]. split; [by apply from_le_bytes_range|].
    destruct (from_le_bytes_split len (slice start width text)) as [_ <-]; [done|by rewrite length_slice|].
    by rewrite slice_prefix.
  - rewrite get_range_Some by done. cbn. eexists. split; [done|].
    assert (Forall is_u8 (slice start len text ++ replicate (width - len) 0)) as Hb
      by (apply Forall_app; split; [done|apply Forall_replicate; mlia]).
    split; [by apply from_le_bytes_range|].
    destruct (from_le_bytes_split len (slice start len text ++ replicate (width - len) 0)) as [_ <-]; [done| |].
    + rewrite length_app, length_slice by done. lia.
    + by rewrite take_app_length' by (by rewrite length_slice).
Qed.

Lemma pack_word w len total bits token :
  0 <= w -> 0 < len -> 8 * len <= bits < total -> Forall is_u8 token -> Z.of_nat (length token) = len ->
  w mod 256 ^ len = from_le_bytes token ->
  Z.lor (Z.land w (Z.shiftr (Z.ones total) (total - 8 * len))) (Z.shiftl len bits) = packed token bits.
Proof.
  intros Hw Hlen Hb Hu Hl Hm. rewrite Z.shiftr_div_pow2, Z.ones_div_pow2 by lia.
  replace (total - (total - 8 * len)) with (8 * len) by lia. rewrite Z.land_ones by lia.
  replace (2 ^ (8 * len)) with (256 ^ len) by (rewrite Z.pow_mul_r; [done|lia|lia]). rewrite Hm.
  pose proof (from_le_bytes_range token Hu) as Hr. rewrite Hl in Hr.
  assert (256 ^ len <= 2 ^ bits).
  { change 256 with (2 ^ 8). rewrite <- Z.pow_mul_r by lia. apply Z.pow_le_mono_r; lia. }
  rewrite Z.shiftl_mul_pow2 by lia. unfold packed. rewrite Hl. apply lor_disjoint; lia.
Qed.

Lemma short_key_packed text start len :
  Forall is_u8 text -> (3 <= len <= 7)%nat -> (start + len <= length text)%nat ->
  short_key text start len = Some (packed (slice start len text) 56).
Proof.
  intros Hu Hlen Hl. unfold short_key. do 2 (bcase; [|lia]). cbn [andb].
  destruct (key_word_mod text start len 8 Hu) as (w & -> & Hw & Hm); [lia|done|]. cbn.
  change u64_MAX with (Z.ones 64). rewrite (pack_word _ _ _ _ (slice start len text)); try done; try lia.
  - by apply Forall_take, Forall_drop.
  - by rewrite length_slice.
Qed.

Lemma mid_key_packed text start len :
  Forall is_u8 text -> (8 <= len <= 15)%nat -> (start + len <= length text)%nat ->
  mid_key text start len = Some (packed (slice start len text) 120).
Proof.
  intros Hu Hlen Hl. unfold mid_key. do 2 (bcase; [|lia]). cbn [andb].
  destruct (key_word_mod text start len 16 Hu) as (w & -> & Hw & Hm); [lia|done|]. cbn.
  change u128_MAX with (Z.ones 128). rewrite (pack_word _ _ _ _ (slice start len text)); try done; try lia.
  - by apply Forall_take, Forall_drop.
  - by rewrite length_slice.
Qed.

(** Different tokens have different keys. *)
Lemma packed_inj t1 t2 bits :
  Forall is_u8 t1 -> Forall is_u8 t2 -> 8 * Z.of_nat (length t1) <= bits -> 8 * Z.of_nat (length t2) <= bits ->
  packed t1 bits = packed t2 bits -> t1 = t2.
Proof.
  intros H1 H2 Hl1 Hl2 Heq. unfold packed in Heq.
  assert (forall t, Forall is_u8 t -> 8 * Z.of_nat (length t) <= bits -> 0 <= from_le_bytes t < 2 ^ bits) as Hr.
  { intros t Ht Hl. pose proof (from_le_bytes_range t Ht). change 256 with (2 ^ 8) in *.
    rewrite <- Z.pow_mul_r in * by lia. pose proof (Z.pow_le_mono_r 2 (8 * Z.of_nat (length t)) bits). lia. }
  pose proof (Hr t1 H1 Hl1). pose proof (Hr t2 H2 Hl2).
  assert (Z.of_nat (length t1) = Z.of_nat (length t2) /\ from_le_bytes t1 = from_le_bytes t2) as [Hlen Hval].
  { pose proof (Z.div_mod_unique (2 ^ bits) (Z.of_nat (length t1)) (Z.of_nat (length t2)) (from_le_bytes t1) (from_le_bytes t2)). lia. }
  rewrite <- (le_bytes_from_le_bytes t1), <- (le_bytes_from_le_bytes t2) by done.
  rewrite Hval. f_equal. lia.
Qed.

(** ** The tables represent one map from byte strings to ranks *)
Record vocab_ok (v : Vocab) (m : gmap (list Z) Z) : Prop := {
  vo_byte_length : length (vc_byte v) = Z.to_nat 256;
  vo_byte : forall a, is_u8 a -> vc_byte v !! Z.to_nat a = Some (default NO_RANK (m !! [a]));
  vo_pair_length : length (vc_pair v) = Z.to_nat 65536;
  vo_pair : forall a b, is_u8 a -> is_u8 b -> vc_pair v !! Z.to_nat (a * 256 + b) = Some (default NO_RANK (m !! [a; b]));
  vo_short : forall t, Forall is_u8 t -> (3 <= length t <= 7)%nat -> table_find (vc_short v) (packed t 56) = m !! t;
  vo_mid : forall t, Forall is_u8 t -> (8 <= length t <= 15)%nat -> table_find (vc_mid v) (packed t 120) = m !! t;
  vo_long : forall t, (16 <= length t)%nat -> vc_ranks v !! t = m !! t;
}.

Lemma empty_vocab_ok : vocab_ok empty_vocab ∅.
Proof.
  split; cbn [empty_vocab vc_byte vc_pair vc_short vc_mid vc_ranks]; rewrite ?length_replicate; try done.
  - intros a Ha. rewrite lookup_empty. apply lookup_replicate_2. mlia.
  - intros a b Ha Hb. rewrite lookup_empty. apply lookup_replicate_2. mlia.
Qed.

Lemma table_find_cons t key rank k :
  table_find ((key, rank) :: t) k = if key =? k then Some rank else table_find t k.
Proof. unfold table_find. cbn. by destruct (key =? k). Qed.

Lemma set_at_lookup l i v l' :
  set_at l i v = Some l' -> 0 <= i -> length l' = length l /\
  forall j, 0 <= j -> l' !! Z.to_nat j = if decide (j = i) then Some v else l !! Z.to_nat j.
Proof.
  unfold set_at. bcase; [|done]. intros [= <-] Hi. rewrite length_insert. split; [done|]. intros j Hj. case_decide as Hd.
  - subst. apply list_lookup_insert_eq. lia.
  - apply list_lookup_insert_ne. lia.
Qed.

Lemma lookup_insert_token (m : gmap (list Z) Z) t r t' :
  <[t := r]> m !! t' = if decide (t' = t) then Some r else m !! t'.
Proof. case_decide; [subst; apply lookup_insert_eq|by apply lookup_insert_ne]. Qed.

(** Inserting a token of one length leaves the answers for other tokens as they were. *)
Section Insert.
Context (v : Vocab) (m : gmap (list Z) Z) (rank : Z).
Hypothesis Hv : vocab_ok v m.

Lemma insert_other t t' : length t' <> length t -> <[t := rank]> m !! t' = m !! t'.
Proof. intros Hlen. apply lookup_insert_ne. by intros ->. Qed.

Ltac other_tables :=
  intros; rewrite insert_other by (cbn; lia);
  first [by apply (vo_byte _ _ Hv)|by apply (vo_pair _ _ Hv)|by apply (vo_short _ _ Hv)
        |by apply (vo_mid _ _ Hv)|by apply (vo_long _ _ Hv)].

Lemma insert_byte_ok a :
  is_u8 a -> exists v', vocab_insert v [a] rank = Some v' /\ vocab_ok v' (<[[a] := rank]> m).
Proof.
  intros Ha. cbn [vocab_insert]. pose proof (vo_byte_length _ _ Hv) as Hbl.
  destruct (set_at (vc_byte v) a rank) as [l|] eqn:Hset; [|unfold set_at in Hset; bcase; [done|mlia]].
  pose proof (set_at_lookup _ _ _ _ Hset ltac:(mlia)) as [Hlen Hlk]. eexists. split; [done|].
  split; cbn [vc_byte vc_pair vc_short vc_mid vc_ranks]; try apply Hv; try other_tables; [congruence|].
  intros x Hx. rewrite Hlk by mlia. rewrite lookup_insert_token. do 2 case_decide; simplify_eq; try done. by apply Hv.
Qed.

Lemma insert_pair_ok a b :
  is_u8 a -> is_u8 b -> exists v', vocab_insert v [a; b] rank = Some v' /\ vocab_ok v' (<[[a; b] := rank]> m).
Proof.
  intros Ha Hb. cbn [vocab_insert]. pose proof (vo_pair_length _ _ Hv) as Hpl.
  destruct (set_at (vc_pair v) (a * 256 + b) rank) as [l|] eqn:Hset; [|unfold set_at in Hset; bcase; [done|mlia]].
  pose proof (set_at_lookup _ _ _ _ Hset ltac:(mlia)) as [Hlen Hlk]. eexists. split; [done|].
  split; cbn [vc_byte vc_pair vc_short vc_mid vc_ranks]; try apply Hv; try other_tables; [congruence|].
  intros x y Hx Hy. rewrite Hlk by mlia. rewrite lookup_insert_token.
  destruct (decide (x = a)) as [->|]; [destruct (decide (y = b)) as [->|]|]; do 2 case_decide; simplify_eq; try done;
    try (by apply Hv); mlia.
Qed.

(** A hash table with a packed key in front answers for the new token and as before for others. *)
Lemma packed_table_ok t bits (table : list (Z * Z)) t' :
  Forall is_u8 t -> Forall is_u8 t' -> 8 * Z.of_nat (length t) <= bits -> 8 * Z.of_nat (length t') <= bits ->
  table_find table (packed t' bits) = m !! t' ->
  table_find ((packed t bits, rank) :: table) (packed t' bits) = <[t := rank]> m !! t'.
Proof.
  intros Hu Hu' Hl Hl' Hf. rewrite table_find_cons, lookup_insert_token. bcase.
  - case_decide as Hd; [done|]. exfalso. apply Hd. symmetry. by apply (packed_inj t t' bits).
  - case_decide; [by subst|done].
Qed.

Lemma insert_long_ok t :
  Forall is_u8 t -> (3 <= length t)%nat ->
  exists v', vocab_insert v t rank = Some v' /\ vocab_ok v' (<[t := rank]> m).
Proof.
  intros Hu H3. assert (slice 0 (length t) t = t) as Hsl by (unfold slice; by rewrite drop_0, firstn_all).
  assert (vocab_insert v t rank =
      if (length t <=? 7)%nat then
        key ← short_key t 0 (length t);
        Some (mkVocab (vc_ranks v) ((key, rank) :: vc_short v) (vc_mid v) (vc_pair v) (vc_byte v))
      else if (length t <=? 15)%nat then
        key ← mid_key t 0 (length t);
        Some (mkVocab (vc_ranks v) (vc_short v) ((key, rank) :: vc_mid v) (vc_pair v) (vc_byte v))
      else Some (mkVocab (<[t := rank]> (vc_ranks v)) (vc_short v) (vc_mid v) (vc_pair v) (vc_byte v))) as ->.
  { destruct t as [|a [|b [|c t]]]; cbn in H3; try lia. reflexivity. }
  bcase; [|bcase].
  - rewrite short_key_packed, Hsl by (done || lia). eexists. split; [done|].
    split; cbn [vc_byte vc_pair vc_short vc_mid vc_ranks]; try apply Hv; try other_tables.
    intros t' Ht' Hlen. apply packed_table_ok; try done; try lia. by apply Hv.
  - rewrite mid_key_packed, Hsl by (done || lia). eexists. split; [done|].
    split; cbn [vc_byte vc_pair vc_short vc_mid vc_ranks]; try apply Hv; try other_tables.
    intros t' Ht' Hlen. apply packed_table_ok; try done; try lia. by apply Hv.
  - eexists. split; [done|]. split; cbn [vc_byte vc_pair vc_short vc_mid vc_ranks]; try apply Hv; try other_tables.
    intros t' ?. rewrite !lookup_insert_token. case_decide; [done|]. by apply Hv.
Qed.

Lemma vocab_insert_ok t :
  Forall is_u8 t -> t <> [] -> exists v', vocab_insert v t rank = Some v' /\ vocab_ok v' (<[t := rank]> m).
Proof.
  intros Hu Hne. destruct t as [|a [|b [|c t]]]; [done| | |].
  - apply Forall_cons_iff in Hu as [Ha _]. by apply insert_byte_ok.
  - apply Forall_cons_iff in Hu as [Ha [Hb _]%Forall_cons_iff]. by apply insert_pair_ok.
  - apply insert_long_ok; [done|cbn; lia].
Qed.
End Insert.

(** ** Lookup *)
Lemma slice_lookup_1 {A} (l : list A) a x : l !! a = Some x -> slice a 1 l = [x].
Proof. intros H. unfold slice. by rewrite (drop_S _ _ _ H). Qed.

Lemma slice_lookup_2 {A} (l : list A) a x y : l !! a = Some x -> l !! S a = Some y -> slice a 2 l = [x; y].
Proof. intros H H'. unfold slice. by rewrite (drop_S _ _ _ H), (drop_S _ _ _ H'). Qed.

Lemma rank_of_lookup v m text a b :
  vocab_ok v m -> Forall is_u8 text -> (a < b <= length text)%nat ->
  rank_of v text a b = Some (default NO_RANK (m !! slice a (b - a) text)).
Proof.
  intros Hv Hu Hab. unfold rank_of. bcase; [lia|].
  destruct (lookup_lt_is_Some_2 text a) as [x Hx]; [lia|]. pose proof (Forall_lookup_1 _ _ _ _ Hu Hx) as Hxu.
  destruct (b - a)%nat as [|[|[|n]]] eqn:Hn; [lia| | |].
  - rewrite Hx. cbn. rewrite (slice_lookup_1 _ _ _ Hx). by apply (vo_byte _ _ Hv).
  - destruct (lookup_lt_is_Some_2 text (S a)) as [y Hy]; [lia|]. pose proof (Forall_lookup_1 _ _ _ _ Hu Hy) as Hyu.
    rewrite Hx, Nat.add_1_r, Hy. cbn. rewrite (slice_lookup_2 _ _ _ _ Hx Hy). by apply (vo_pair _ _ Hv).
  - rewrite <- Hn. assert (Forall is_u8 (slice a (b - a) text)) as Hs by (by apply Forall_take, Forall_drop).
    assert (length (slice a (b - a) text) = (b - a)%nat) as Hl by (apply length_slice; lia).
    destruct (Nat.leb_spec 3 (b - a)); [|lia]. destruct (Nat.leb_spec (b - a) 7); cbn [andb].
    { rewrite short_key_packed by (done || lia). cbn. by rewrite (vo_short _ _ Hv) by (done || lia). }
    destruct (Nat.leb_spec 8 (b - a)); [|lia]. destruct (Nat.leb_spec (b - a) 15); cbn [andb].
    { rewrite mid_key_packed by (done || lia). cbn. by rewrite (vo_mid _ _ Hv) by (done || lia). }
    rewrite get_range_Some by lia. cbn. by rewrite (vo_long _ _ Hv) by lia.
Qed.

(** ** Reading the blob *)
Record tokens_ok (tokens : list (list Z * Z)) : Prop := {
  tk_each : Forall (fun t => t.1 <> [] /\ Forall is_u8 t.1 /\ Z.of_nat (length t.1) <= 65535 /\ is_u32 t.2) tokens;
  tk_distinct : NoDup (fst <$> tokens);
  tk_count : Z.of_nat (length tokens) <= u32_MAX;
  tk_bytes : forall a, is_u8 a -> exists rank, ([a], rank) ∈ tokens /\ rank <> NO_RANK;
}.

Definition token_record (t : list Z * Z) : list Z := le_bytes 2 (Z.of_nat (length t.1)) ++ le_bytes 4 t.2.

Lemma token_record_fields t :
  Z.of_nat (length t.1) <= 65535 -> is_u32 t.2 ->
  Z.to_nat (from_le_bytes (take 2 (token_record t))) = length t.1 /\ from_le_bytes (drop 2 (token_record t)) = t.2.
Proof.
  intros Hl Hr. unfold token_record. rewrite take_app_length', drop_app_length' by (by rewrite length_le_bytes).
  rewrite !from_le_bytes_le_bytes by (cbn; munfold; lia). by rewrite Nat2Z.id.
Qed.

Lemma length_token_records tokens : length (tokens ≫= token_record) = (length tokens * 6)%nat.
Proof. induction tokens as [|t tokens IH]; [done|]. cbn [mbind list_bind]. rewrite length_app, IH. done. Qed.

Lemma insert_records_ok tokens v m rest :
  vocab_ok v m -> Forall (fun t => t.1 <> [] /\ Forall is_u8 t.1 /\ Z.of_nat (length t.1) <= 65535 /\ is_u32 t.2) tokens ->
  exists v', insert_records v (length tokens) (tokens ≫= token_record) (concat (fst <$> tokens) ++ rest) = Some (v', rest) /\
    vocab_ok v' (foldl (fun m t => <[t.1 := t.2]> m) m tokens).
Proof.
  revert v m. induction tokens as [|[t r] tokens IH]; intros v m Hv Hok; [by exists v|].
  apply Forall_cons_iff in Hok as [(Hne & Hu & Hlen & Hr) Hok]. cbn [fst snd] in *.
  cbn [length insert_records mbind list_bind fmap list_fmap concat foldl fst snd].
  rewrite take_app_length', drop_app_length' by done. destruct (token_record_fields (t, r)) as [-> ->]; [done|done|]. cbn [fst snd].
  bcase; [rewrite !length_app in *; lia|]. rewrite <- app_assoc, take_app_length, drop_app_length.
  destruct (vocab_insert_ok v m r Hv t Hu Hne) as (v1 & -> & Hv1). cbn. by apply IH.
Qed.

Lemma foldl_insert_union (tokens : list (list Z * Z)) (m : gmap (list Z) Z) :
  NoDup (fst <$> tokens) -> foldl (fun m t => <[t.1 := t.2]> m) m tokens = list_to_map tokens ∪ m.
Proof.
  revert m. induction tokens as [|[t r] tokens IH]; intros m Hnd; cbn [foldl fmap list_fmap list_to_map fst snd] in *.
  { rewrite list_to_map_nil. by rewrite (left_id_L ∅ (∪) m). }
  apply list.NoDup_cons in Hnd as [Hn Hnd]. rewrite IH by done.
  rewrite list_to_map_cons, <- insert_union_l, <- insert_union_r; [done|].
  by apply not_elem_of_list_to_map_1.
Qed.

Lemma from_blob_ok tokens :
  tokens_ok tokens -> exists v, from_blob (blob_of tokens) = Some v /\ vocab_ok v (list_to_map tokens).
Proof.
  intros [Heach Hnd Hcount Hbytes].
  destruct (insert_records_ok tokens empty_vocab ∅ [] empty_vocab_ok Heach) as (v & Hins & Hv).
  rewrite foldl_insert_union, (right_id_L ∅ (∪)) in Hv by done. rewrite app_nil_r in Hins.
  exists v. split; [|done].
  unfold from_blob, blob_of. rewrite get_range_Some by (rewrite length_app, length_le_bytes; lia).
  unfold slice. rewrite drop_0, take_app_length', drop_app_length' by (by rewrite length_le_bytes). cbn [mbind option_bind].
  rewrite from_le_bytes_le_bytes by (cbn; munfold; lia). rewrite Nat2Z.id.
  change (fun t : list Z * Z => le_bytes 2 (Z.of_nat (length t.1)) ++ le_bytes 4 t.2) with token_record.
  bcase; [rewrite length_app, length_token_records in *; lia|].
  rewrite take_app_length', drop_app_length' by (by rewrite length_token_records). rewrite Hins. cbn [mbind option_bind].
  assert (forallb (fun r => negb (r =? NO_RANK)) (vc_byte v) = true) as ->; [|done].
  apply forallb_forall. intros r Hr. apply list_elem_of_In, list_elem_of_lookup in Hr as [i Hi].
  pose proof (lookup_lt_Some _ _ _ Hi) as Hlt. rewrite (vo_byte_length _ _ Hv) in Hlt.
  pose proof (vo_byte _ _ Hv (Z.of_nat i) ltac:(mlia)) as Hb. rewrite Nat2Z.id, Hi in Hb.
  destruct (Hbytes (Z.of_nat i) ltac:(mlia)) as (rank & Hin & Hrank).
  rewrite (elem_of_list_to_map_1 _ _ _ Hnd Hin) in Hb. cbn in Hb. injection Hb as ->. by apply negb_true_iff, Z.eqb_neq.
Qed.

(** the vocabulary tables mean what the blob says. Reading the blob of a token list in which
    tokens are distinct and every byte is a token succeeds, and then the lookup of any nonempty span of
    any text, through the direct tables, the packed integer keys or the byte-string map and whether or
    not eight or sixteen bytes can be loaded at once, is the rank of exactly that byte string in the
    list, or none. *)
Theorem vocabulary_lookup_exact tokens :
  tokens_ok tokens ->
  exists v, from_blob (blob_of tokens) = Some v /\
    forall text a b, Forall is_u8 text -> (a < b <= length text)%nat ->
      rank_of v text a b = Some (default NO_RANK ((list_to_map tokens : gmap (list Z) Z) !! slice a (b - a) text)).
Proof.
  intros Hok. destruct (from_blob_ok tokens Hok) as (v & Hv & Hvo). exists v. split; [exact Hv|].
  intros. by apply rank_of_lookup.
Qed.

(** A small vocabulary: every byte, and four longer tokens. *)
Definition sample_tokens : list (list Z * Z) :=
  ((fun i => ([Z.of_nat i], Z.of_nat i)) <$> seq 0 256) ++
  [([97; 98], 256); ([97; 98; 99], 257); ([99; 97; 98], 258); (replicate 9 97, 259)].

Lemma sample_tokens_ok : tokens_ok sample_tokens.
Proof.
  split.
  - apply Forall_app. split.
    + apply Forall_fmap, Forall_seq. intros i Hi. cbn. split_and!; try done; try mlia. constructor; [mlia|constructor].
    + repeat constructor; vm_compute; discriminate.
  - refine (bool_decide_unpack (NoDup (fst <$> sample_tokens)) _). vm_compute. exact I.
  - vm_compute. discriminate.
  - intros a Ha. exists a. split; [|unfold NO_RANK; mlia]. apply elem_of_app. left. apply list_elem_of_fmap.
    exists (Z.to_nat a). rewrite elem_of_seq. rewrite Z2Nat.id by mlia. split; [done|mlia].
Qed.

Lemma vocabulary_lookup_exact_witness :
  exists v, from_blob (blob_of sample_tokens) = Some v /\ rank_of v [99; 97; 98; 99] 1 4 = Some 257.
Proof.
  destruct (vocabulary_lookup_exact sample_tokens sample_tokens_ok) as (v & Hv & Hr). exists v. split; [exact Hv|].
  rewrite Hr; [vm_compute; reflexivity|repeat constructor; vm_compute; discriminate|cbn; lia].
Defined.
