(* ===== verification/Bpe.v ===== *)
(** * Bpe: byte-pair merging (crates/tokenizer/src/bpe.rs).

    The two merge engines and the choice between them, and the reference they are meant to equal:
    merge the adjacent pair of lowest rank, leftmost first, until no pair is in the vocabulary. *)
From S2P Require Import Prelude.
From S2P Require Import Vocab.
From stdpp Require Import gmap.
#[local] Open Scope Z_scope.

Definition DEAD : Z := u32_MAX - 1.
Definition HEAP_THRESHOLD : nat := 192.
Definition HEAP_THRESHOLD_NON_ASCII : nat := 40.
Definition MAX_PIECE_BYTES : nat := 4096.

(** ** The reference

    A division of a piece is the list of its part boundaries, from 0 to the piece's length. *)
Section Reference.
Context (rk : nat -> nat -> Z).

(** Rank of the pair that starts at each boundary. *)
Fixpoint pair_ranks (bs : list nat) : list Z :=
  match bs with
  | a :: ((_ :: c :: _) as rest) => rk a c :: pair_ranks rest
  | _ => []
  end.

(** Position of the lowest finite rank, the leftmost among equals. *)
Fixpoint lowest (ranks : list Z) : option nat :=
  match ranks with
  | [] => None
  | r :: ranks =>
      match lowest ranks with
      | Some j => if r <=? nth j ranks NO_RANK then Some O else Some (S j)
      | None => if r <? NO_RANK then Some O else None
      end
  end.

Fixpoint merge_all (fuel : nat) (bs : list nat) : list nat :=
  match fuel with
  | O => bs
  | S fuel =>
      match lowest (pair_ranks bs) with
      | None => bs
      | Some i => merge_all fuel (delete (S i) bs)
      end
  end.

(** The ids of the parts. *)
Fixpoint part_ranks (bs : list nat) : list Z :=
  match bs with
  | a :: ((b :: _) as rest) => rk a b :: part_ranks rest
  | _ => []
  end.

Definition bpe_reference (n : nat) : list Z := part_ranks (merge_all n (seq 0 (S n))).
End Reference.

(** ** The scanning engine *)
Section Engines.
Context (v : Vocab) (text : list Z).

(** [self.pair[piece[i] * 256 + piece[i + 1]]]. *)
Definition initial_rank (start i : nat) : option Z :=
  x ← text !! (start + i)%nat; y ← text !! (start + i + 1)%nat; vc_pair v !! Z.to_nat (x * 256 + y).

(** The first loop of the scanning engine: parts, and the least rank seen with its index. *)
Fixpoint scan_init (start i n : nat) (min_rank : Z) (min_idx : nat)
    : option (list (nat * Z) * Z * nat) :=
  match n with
  | O => Some ([], min_rank, min_idx)
  | S n =>
      r ← initial_rank start i;
      let '(min_rank, min_idx) := if r <? min_rank then (r, i) else (min_rank, min_idx) in
      rest ← scan_init start (S i) n min_rank min_idx;
      let '(parts, min_rank, min_idx) := rest in
      Some ((i, r) :: parts, min_rank, min_idx)
  end.

Definition span_rank (start : nat) (parts : list (nat * Z)) (i last : nat) : option Z :=
  if (last <? length parts)%nat then
    a ← parts !! i; b ← parts !! last;
    rank_of v text (start + a.1) (start + b.1)
  else Some NO_RANK.

(** The rescan over [parts[..parts.len() - 1]]. *)
Fixpoint scan_min (parts : list (nat * Z)) (j : nat) (min_rank : Z) (min_idx : nat) : Z * nat :=
  match parts with
  | [] => (min_rank, min_idx)
  | (_, r) :: parts =>
      if r <? min_rank then scan_min parts (S j) r j else scan_min parts (S j) min_rank min_idx
  end.

Definition set_rank (parts : list (nat * Z)) (i : nat) (r : Z) : option (list (nat * Z)) :=
  p ← parts !! i; Some (<[i := (p.1, r)]> parts).

(** One merge of the scanning engine at index [i]. *)
Definition scan_merge (start : nat) (parts : list (nat * Z)) (i : nat) : option (list (nat * Z)) :=
  parts ← (if (0 <? i)%nat then
             r ← span_rank start parts (i - 1) (i + 2); set_rank parts (i - 1) r
           else Some parts);
  r ← span_rank start parts i (i + 3);
  parts ← set_rank parts i r;
  if (S i <? length parts)%nat then Some (delete (S i) parts) else None.

Fixpoint scan_loop (fuel : nat) (start : nat) (parts : list (nat * Z)) (min_rank : Z) (min_idx : nat)
    : option (list (nat * Z)) :=
  if min_rank =? NO_RANK then Some parts
  else
    match fuel with
    | O => None
    | S fuel =>
        parts ← scan_merge start parts min_idx;
        let '(min_rank, min_idx) := scan_min (take (length parts - 1) parts) 0 NO_RANK min_idx in
        scan_loop fuel start parts min_rank min_idx
    end.

(** [parts.windows(2)]. *)
Fixpoint scan_output (start : nat) (parts : list (nat * Z)) : option (list Z) :=
  match parts with
  | a :: ((b :: _) as rest) =>
      r ← rank_of v text (start + a.1) (start + b.1);
      out ← scan_output start rest;
      Some (r :: out)
  | _ => Some []
  end.

(** An empty piece underflows [n - 1]. *)
Definition merge_scan (start last : nat) : option (list Z) :=
  let n := (last - start)%nat in
  if (n =? 0)%nat then None else
  init ← scan_init start 0 (n - 1) NO_RANK 0;
  let '(parts, min_rank, min_idx) := init in
  let parts := parts ++ [((n - 1)%nat, NO_RANK); (n, NO_RANK)] in
  parts ← scan_loop n start parts min_rank min_idx;
  scan_output start parts.

(** ** The heap engine

    The heap is the multiset of its keys; [pop] takes a least one. *)
Definition heap_key (r i : Z) : Z := Z.lor (Z.shiftl r 32) i.

Fixpoint remove_one (x : Z) (l : list Z) : list Z :=
  match l with
  | [] => []
  | y :: l => if x =? y then l else y :: remove_one x l
  end.

Definition heap_pop (heap : list Z) : option (Z * list Z) :=
  match heap with
  | [] => None
  | x :: rest => let m := foldr Z.min x rest in Some (m, remove_one m heap)
  end.

Record Scratch := mkScratch {
  sc_next : list Z;
  sc_prev : list Z;
  sc_rank : list Z;
  sc_heap : list Z;
}.

Fixpoint heap_init (start i n : nat) : option (list Z * list Z) :=
  match n with
  | O => Some ([], [])
  | S n =>
      r ← initial_rank start i;
      rest ← heap_init start (S i) n;
      let '(ranks, heap) := rest in
      Some (r :: ranks, if r =? NO_RANK then heap else heap_key r (Z.of_nat i) :: heap)
  end.

Definition push_rank (r i : Z) (heap : list Z) : list Z := if r =? NO_RANK then heap else heap_key r i :: heap.

(** One popped key; [None] is an index out of bounds. *)
Definition heap_step (start n : nat) (s : Scratch) (key : Z) (heap : list Z) : option Scratch :=
  let r := Z.shiftr key 32 in
  let i := key mod 2 ^ 32 in
  current ← sc_rank s !! Z.to_nat i;
  if negb (current =? r) then Some (mkScratch (sc_next s) (sc_prev s) (sc_rank s) heap)
  else
    j ← sc_next s !! Z.to_nat i;
    after ← sc_next s !! Z.to_nat j;
    let next := <[Z.to_nat i := after]> (sc_next s) in
    _ ← sc_rank s !! Z.to_nat j;
    let rank := <[Z.to_nat j := DEAD]> (sc_rank s) in
    s ← (if after <? Z.of_nat n then
           _ ← sc_prev s !! Z.to_nat after;
           let prev := <[Z.to_nat after := i]> (sc_prev s) in
           beyond ← next !! Z.to_nat after;
           r ← rank_of v text (start + Z.to_nat i) (start + Z.to_nat beyond);
           Some (mkScratch next prev (<[Z.to_nat i := r]> rank) (push_rank r i heap))
         else Some (mkScratch next (sc_prev s) (<[Z.to_nat i := NO_RANK]> rank) heap));
    p ← sc_prev s !! Z.to_nat i;
    if p =? u32_MAX then Some s
    else
      r ← rank_of v text (start + Z.to_nat p) (start + Z.to_nat after);
      _ ← sc_rank s !! Z.to_nat p;
      Some (mkScratch (sc_next s) (sc_prev s) (<[Z.to_nat p := r]> (sc_rank s)) (push_rank r p (sc_heap s))).

Fixpoint heap_loop (fuel : nat) (start n : nat) (s : Scratch) : option Scratch :=
  match heap_pop (sc_heap s) with
  | None => Some s
  | Some (key, heap) =>
      match fuel with
      | O => None
      | S fuel => s ← heap_step start n s key heap; heap_loop fuel start n s
      end
  end.

Fixpoint heap_output (fuel : nat) (start n : nat) (next : list Z) (i : nat) : option (list Z) :=
  if (i <? n)%nat then
    match fuel with
    | O => None
    | S fuel =>
        j ← next !! i;
        r ← rank_of v text (start + i) (start + Z.to_nat j);
        out ← heap_output fuel start n next (Z.to_nat j);
        Some (r :: out)
    end
  else Some [].

Definition merge_heap (start last : nat) : option (list Z) :=
  let n := (last - start)%nat in
  if (n =? 0)%nat then None else
  init ← heap_init start 0 (n - 1);
  let '(ranks, heap) := init in
  let s := mkScratch (seqZ 1 (Z.of_nat n)) (u32_MAX :: seqZ 0 (Z.of_nat n - 1)) (ranks ++ [NO_RANK]) heap in
  s ← heap_loop (4 * n) start n s;
  heap_output n start n (sc_next s) 0.

(** ** One piece *)
Definition encode_piece (start last : nat) : option (list Z) :=
  whole ← rank_of v text start last;
  if negb (whole =? NO_RANK) then Some [whole]
  else
    piece ← get_range text start (last - start);
    first ← piece !! O;
    lead ← (if first =? 32 then piece !! 1%nat else Some first);
    let threshold := if lead <? 128 then HEAP_THRESHOLD else HEAP_THRESHOLD_NON_ASCII in
    if (last - start <=? threshold)%nat then merge_scan start last else merge_heap start last.
End Engines.

(** ** The lowest rank *)
Lemma lowest_None ranks : lowest ranks = None <-> forall k r, ranks !! k = Some r -> NO_RANK <= r.
Proof.
  induction ranks as [|r ranks IH]; cbn; [done|]. destruct (lowest ranks) as [j|].
  - split; [by destruct (r <=? _)|]. intros H. exfalso. assert (Some j = None) as E; [|done].
    apply IH. intros k r' Hk. by apply (H (S k)).
  - destruct IH as [IH _]. specialize (IH eq_refl). bcase; split; try done.
    + intros H'. specialize (H' O r eq_refl). lia.
    + intros _ [|k] r' Hk; cbn in Hk; [simplify_eq; lia|by eapply IH].
Qed.

Lemma lowest_Some_1 ranks k :
  lowest ranks = Some k ->
  exists r, ranks !! k = Some r /\ r < NO_RANK /\
    forall k' r', ranks !! k' = Some r' -> r <= r' /\ ((k' < k)%nat -> r < r').
Proof.
  revert k. induction ranks as [|r ranks IH]; intros k; cbn; [done|]. destruct (lowest ranks) as [j|] eqn:Hl.
  - destruct (IH j eq_refl) as (rj & Hj & Hfin & Hmin). rewrite (nth_lookup_Some _ _ _ _ Hj). bcase; intros [= <-].
    + exists r. split; [done|]. split; [lia|]. intros [|k'] r' Hk; cbn in Hk; [simplify_eq; lia|].
      destruct (Hmin k' r' Hk). lia.
    + exists rj. split; [done|]. split; [done|]. intros [|k'] r' Hk; cbn in Hk; [simplify_eq; lia|].
      destruct (Hmin k' r' Hk). split; [done|]. intros ?. lia.
  - pose proof (proj1 (lowest_None ranks) Hl) as Hn. bcase; [|done]. intros [= <-]. exists r. split; [done|]. split; [done|].
    intros [|k'] r' Hk; cbn in Hk; [simplify_eq; lia|]. specialize (Hn _ _ Hk). lia.
Qed.

Lemma lowest_Some_2 ranks k r :
  ranks !! k = Some r -> r < NO_RANK ->
  (forall k' r', ranks !! k' = Some r' -> r <= r' /\ ((k' < k)%nat -> r < r')) -> lowest ranks = Some k.
Proof.
  intros Hk Hfin Hmin. destruct (lowest ranks) as [j|] eqn:Hl.
  - apply lowest_Some_1 in Hl as (rj & Hj & _ & Hmin'). f_equal.
    destruct (Hmin j rj Hj), (Hmin' k r Hk). destruct (Nat.lt_trichotomy j k) as [?|[?|?]]; [lia|done|lia].
  - pose proof (proj1 (lowest_None ranks) Hl k r Hk). lia.
Qed.

(** The scan finds it. *)
Lemma scan_min_lowest parts j min_rank min_idx :
  Forall (fun p => p.2 <= NO_RANK) parts -> min_rank <= NO_RANK ->
  scan_min parts j min_rank min_idx =
  match lowest (snd <$> parts) with
  | Some k => let r := nth k (snd <$> parts) NO_RANK in if r <? min_rank then (r, (j + k)%nat) else (min_rank, min_idx)
  | None => (min_rank, min_idx)
  end.
Proof.
  intros Hle. revert j min_rank min_idx. induction Hle as [|[a r] parts Hr _ IH]; intros j min_rank min_idx Hmin; [done|].
  cbn [scan_min fmap list_fmap lowest snd] in *. destruct (lowest (snd <$> parts)) as [k|] eqn:Hl.
  - apply lowest_Some_1 in Hl as (rk & Hk & Hfin & _). rewrite (nth_lookup_Some _ _ _ _ Hk) in *.
    destruct (Z.leb_spec r rk); cbn [nth].
    + destruct (Z.ltb_spec r min_rank).
      * rewrite IH by lia. destruct (Z.ltb_spec rk r); [lia|]. f_equal. lia.
      * rewrite IH by lia. destruct (Z.ltb_spec rk min_rank); [lia|]. done.
    + rewrite (nth_lookup_Some _ _ _ _ Hk). destruct (Z.ltb_spec r min_rank).
      * rewrite IH by lia. destruct (Z.ltb_spec rk r); [|lia]. destruct (Z.ltb_spec rk min_rank); [|lia]. f_equal. lia.
      * rewrite IH by lia. destruct (Z.ltb_spec rk min_rank); [|done]. f_equal. lia.
  - destruct (Z.ltb_spec r NO_RANK); cbn [nth].
    + destruct (Z.ltb_spec r min_rank); rewrite IH by lia; [f_equal; lia|done].
    + destruct (Z.ltb_spec r min_rank); [lia|]. by rewrite IH by lia.
Qed.

Lemma scan_min_snoc parts a j min_rank min_idx :
  Forall (fun p => p.2 <= NO_RANK) parts -> min_rank <= NO_RANK ->
  scan_min (parts ++ [(a, NO_RANK)]) j min_rank min_idx = scan_min parts j min_rank min_idx.
Proof.
  intros Hle. revert j min_rank min_idx. induction Hle as [|[b r] parts Hr _ IH]; intros j min_rank min_idx Hmin; cbn in *.
  - destruct (Z.ltb_spec NO_RANK min_rank); [lia|done].
  - destruct (Z.ltb_spec r min_rank); apply IH; lia.
Qed.

(** ** Divisions *)
Section Correct.
Context (v : Vocab) (text : list Z) (start n : nat) (rk : nat -> nat -> Z).
Hypothesis Hrank_of : forall a b, (a < b <= n)%nat -> rank_of v text (start + a) (start + b) = Some (rk a b).
Hypothesis Hinitial : forall i, (i + 1 < n)%nat -> initial_rank v text start i = Some (rk i (i + 2)).
Hypothesis Hfinite : forall a b, rk a b = NO_RANK \/ 0 <= rk a b < DEAD.
Hypothesis Hn : (1 <= n)%nat /\ Z.of_nat n < u32_MAX.

Record division (bs : list nat) : Prop := {
  dv_order : forall i j a b, bs !! i = Some a -> bs !! j = Some b -> (i < j)%nat -> (a < b)%nat;
  dv_first : bs !! O = Some O;
  dv_last : list.last bs = Some n;
}.

Lemma rk_le a b : rk a b <= NO_RANK.
Proof. destruct (Hfinite a b); unfold DEAD, NO_RANK in *; lia. Qed.

Lemma division_bound bs i a : division bs -> bs !! i = Some a -> (a <= n)%nat /\ (S i = length bs <-> a = n).
Proof.
  intros [Hord _ Hlast] Hi. rewrite last_lookup in Hlast. pose proof (lookup_lt_Some _ _ _ Hi).
  destruct (decide (S i = length bs)) as [He|Hne].
  - rewrite <- He in Hlast. cbn in Hlast. simplify_eq. lia.
  - assert (a < n)%nat by (apply (Hord i (Nat.pred (length bs)) a n Hi Hlast); lia). lia.
Qed.

Lemma division_length bs : division bs -> (2 <= length bs)%nat.
Proof.
  intros Hd. pose proof (division_bound bs O O Hd (dv_first _ Hd)) as [_ Hz].
  pose proof (lookup_lt_Some _ _ _ (dv_first _ Hd)). destruct Hn. lia.
Qed.

Lemma division_delete bs i : division bs -> (S (S i) < length bs)%nat -> division (delete (S i) bs).
Proof.
  intros [Hord H0 Hl] Hi. split.
  - intros x y a b. rewrite !list_lookup_delete. intros Hx Hy Hxy. eapply Hord; [exact Hx|exact Hy|].
    repeat case_decide; lia.
  - by rewrite list_lookup_delete_lt by lia.
  - rewrite last_lookup in *. rewrite length_delete by (apply lookup_lt_is_Some_2; lia).
    rewrite list_lookup_delete_ge by lia. rewrite <- Hl. f_equal. lia.
Qed.

Lemma division_initial : division (seq 0 (S n)).
Proof.
  split.
  - intros i j a b. rewrite !lookup_seq. lia.
  - done.
  - rewrite last_lookup, length_seq. cbn [Nat.pred]. apply lookup_seq. lia.
Qed.

Lemma pair_ranks_lookup bs k :
  pair_ranks rk bs !! k = match bs !! k, bs !! S (S k) with Some a, Some c => Some (rk a c) | _, _ => None end.
Proof.
  revert k. induction bs as [|a bs IH]; intros k; [done|]. destruct bs as [|b [|c bs]].
  - cbn. by destruct k.
  - cbn. by destruct k as [|[|k]].
  - change (pair_ranks rk (a :: b :: c :: bs)) with (rk a c :: pair_ranks rk (b :: c :: bs)).
    destruct k as [|k]; [done|]. cbn [lookup list_lookup]. apply IH.
Qed.

Lemma lowest_bound bs i : lowest (pair_ranks rk bs) = Some i -> (S (S i) < length bs)%nat.
Proof.
  intros (r & Hi & _)%lowest_Some_1. rewrite pair_ranks_lookup in Hi.
  destruct (bs !! i); [|done]. destruct (bs !! S (S i)) eqn:E; [|done]. by eapply lookup_lt_Some.
Qed.

(** ** The scanning engine keeps each boundary with the rank of its pair *)
Definition pair_rank (bs : list nat) (k a : nat) : Z :=
  match bs !! S (S k) with Some c => rk a c | None => NO_RANK end.

Definition annot (bs : list nat) : list (nat * Z) := imap (fun k a => (a, pair_rank bs k a)) bs.

Lemma annot_lookup bs k : annot bs !! k = (fun a => (a, pair_rank bs k a)) <$> bs !! k.
Proof. apply list_lookup_imap. Qed.

Lemma length_annot bs : length (annot bs) = length bs.
Proof. apply length_imap. Qed.

Lemma pair_rank_le bs k a : pair_rank bs k a <= NO_RANK.
Proof. unfold pair_rank. destruct (bs !! _); [apply rk_le|done]. Qed.

Lemma scan_ranks_lowest bs :
  division bs -> lowest (snd <$> take (length (annot bs) - 1) (annot bs)) = lowest (pair_ranks rk bs).
Proof.
  intros Hd. pose proof (division_length bs Hd) as Hlen. rewrite length_annot.
  set (scanned := snd <$> take (length bs - 1) (annot bs)).
  assert (forall k r, pair_ranks rk bs !! k = Some r -> scanned !! k = Some r) as Hsub.
  { intros k r. rewrite pair_ranks_lookup. destruct (bs !! k) as [a|] eqn:Ha; [|done].
    destruct (bs !! S (S k)) as [c|] eqn:Hc; [|done]. intros [= <-]. apply lookup_lt_Some in Hc as Hlt.
    unfold scanned. rewrite list_lookup_fmap, lookup_take_lt, annot_lookup, Ha by lia. cbn. unfold pair_rank. by rewrite Hc. }
  assert (forall k r, scanned !! k = Some r -> r < NO_RANK -> pair_ranks rk bs !! k = Some r) as Hsup.
  { intros k r Hk Hr. unfold scanned in Hk. rewrite list_lookup_fmap in Hk. apply fmap_Some in Hk as ([a r'] & Hk & ->).
    apply lookup_take_Some in Hk as [Hk _]. rewrite annot_lookup in Hk. apply fmap_Some in Hk as (a' & Ha & [= -> ->]).
    cbn in *. rewrite pair_ranks_lookup, Ha. unfold pair_rank in *. destruct (bs !! S (S k)); [done|lia]. }
  destruct (lowest (pair_ranks rk bs)) as [k|] eqn:Hl.
  - apply lowest_Some_1 in Hl as (r & Hk & Hfin & Hmin). apply (lowest_Some_2 _ _ r); [by apply Hsub|done|].
    intros k' r' Hk'. destruct (Z.lt_ge_cases r' NO_RANK); [by apply Hmin, Hsup|]. split; [lia|]. intros _. lia.
  - apply lowest_None. intros k r Hk. destruct (Z.lt_ge_cases r NO_RANK) as [Hr|]; [|done].
    by apply (proj1 (lowest_None _) Hl k r), Hsup.
Qed.

(** The least rank and its index, as the loop carries them. *)
Definition scanned (bs : list nat) (min_rank : Z) (min_idx : nat) : Prop :=
  match lowest (pair_ranks rk bs) with
  | Some k => min_idx = k /\ min_rank <> NO_RANK
  | None => min_rank = NO_RANK
  end.

Lemma scanned_min bs idx min_rank min_idx :
  division bs -> scan_min (take (length (annot bs) - 1) (annot bs)) 0 NO_RANK idx = (min_rank, min_idx) ->
  scanned bs min_rank min_idx.
Proof.
  intros Hd. rewrite scan_min_lowest, scan_ranks_lowest by (try done; apply Forall_take, Forall_lookup_2; intros k [a r];
    rewrite annot_lookup; intros (a' & _ & [= -> ->])%fmap_Some; apply pair_rank_le).
  unfold scanned. destruct (lowest (pair_ranks rk bs)) as [k|] eqn:Hl; [|by intros [= -> ->]].
  rewrite <- (scan_ranks_lowest bs Hd) in Hl. apply lowest_Some_1 in Hl as (r & Hk & Hfin & _).
  rewrite (nth_lookup_Some _ _ _ _ Hk). cbn zeta. destruct (Z.ltb_spec r NO_RANK); [|lia]. intros [= -> ->]. lia.
Qed.

Lemma span_rank_ok (parts : list (nat * Z)) bs i a k :
  division bs -> parts.*1 = bs -> bs !! i = Some a -> (i < k)%nat ->
  span_rank v text start parts i k = Some (match bs !! k with Some c => rk a c | None => NO_RANK end).
Proof.
  intros Hd Hf Hi Hik. unfold span_rank. assert (length parts = length bs) as -> by (by rewrite <- Hf, length_fmap).
  rewrite <- Hf, list_lookup_fmap in Hi. apply fmap_Some in Hi as ([a' r] & Hi & ->). bcase.
  - destruct (lookup_lt_is_Some_2 bs k) as [c Hc]; [done|]. rewrite Hc. pose proof Hc as Hc'. rewrite <- Hf, list_lookup_fmap in Hc'.
    apply fmap_Some in Hc' as ([c' r'] & Hc' & ->). rewrite Hi, Hc'. cbn in *. apply Hrank_of.
    assert (bs !! i = Some a') as Hi' by (rewrite <- Hf, list_lookup_fmap, Hi; done).
    split; [by eapply (dv_order _ Hd i k)|by eapply division_bound].
  - by rewrite lookup_ge_None_2 by done.
Qed.

Lemma set_rank_ok (parts : list (nat * Z)) i a r0 r :
  parts !! i = Some (a, r0) -> set_rank parts i r = Some (<[i := (a, r)]> parts).
Proof. intros H. unfold set_rank. by rewrite H. Qed.

Lemma set_rank_fst (parts : list (nat * Z)) i a r0 r : parts !! i = Some (a, r0) -> (<[i := (a, r)]> parts).*1 = parts.*1.
Proof. intros H. rewrite list_fmap_insert. apply list_insert_id. by rewrite list_lookup_fmap, H. Qed.

Lemma annot_fst bs : (annot bs).*1 = bs.
Proof.
  apply list_eq. intros k. rewrite list_lookup_fmap, annot_lookup. by destruct (bs !! k).
Qed.

(** The rank of the pair that ends at the merged part. *)
Lemma scan_merge_left bs i :
  division bs -> (S (S i) < length bs)%nat ->
  exists parts, (if (0 <? i)%nat then
             r ← span_rank v text start (annot bs) (i - 1) (i + 2); set_rank (annot bs) (i - 1) r
           else Some (annot bs)) = Some parts /\ parts.*1 = bs /\ length parts = length bs /\
    forall k, parts !! k = if decide (S k = i) then (fun p => (p, pair_rank (delete (S i) bs) k p)) <$> bs !! k
                           else annot bs !! k.
Proof.
  intros Hd Hi. destruct (Nat.ltb_spec 0 i).
  - destruct (lookup_lt_is_Some_2 bs (i - 1)) as [p Hp]; [lia|]. pose proof (annot_lookup bs (i - 1)) as Hpi.
    rewrite Hp in Hpi. cbn in Hpi. rewrite (span_rank_ok _ bs _ p) by (try done; try apply annot_fst; lia).
    cbn. rewrite (set_rank_ok _ _ _ _ _ Hpi). eexists. split; [done|].
    rewrite (set_rank_fst _ _ _ _ _ Hpi), annot_fst, length_insert, length_annot. split; [done|]. split; [done|].
    intros k. case_decide as Hk.
    + replace k with (i - 1)%nat by lia. rewrite list_lookup_insert_eq by (rewrite length_annot; lia). rewrite Hp. cbn.
      unfold pair_rank. rewrite list_lookup_delete_ge by lia. by replace (S (S (S (i - 1)))) with (i + 2)%nat by lia.
    + apply list_lookup_insert_ne. lia.
  - exists (annot bs). rewrite annot_fst, length_annot. do 3 (split; [done|]). intros k. case_decide; [lia|done].
Qed.

(** A merge at [i] leaves the annotated division without boundary [S i]. *)
Lemma scan_merge_ok bs i :
  division bs -> (S (S i) < length bs)%nat ->
  scan_merge v text start (annot bs) i = Some (annot (delete (S i) bs)).
Proof.
  intros Hd Hi. destruct (lookup_lt_is_Some_2 bs i) as [a Ha]; [lia|].
  pose proof (annot_lookup bs i) as Hai. rewrite Ha in Hai. cbn in Hai. unfold scan_merge.
  destruct (scan_merge_left bs i Hd Hi) as (parts & -> & Hf & Hlp & Hlk).
  assert (exists r0, parts !! i = Some (a, r0)) as [r0 Hpi]
    by (rewrite Hlk; case_decide; [lia|]; rewrite Hai; eauto).
  cbn [mbind option_bind]. rewrite (span_rank_ok _ bs _ a) by (done || lia). cbn [mbind option_bind].
  rewrite (set_rank_ok _ _ _ _ _ Hpi). cbn [mbind option_bind]. rewrite length_insert, Hlp. bcase; [|lia]. f_equal.
  apply list_eq. intros k. rewrite annot_lookup, !list_lookup_delete. case_decide as Hk.
  - destruct (decide (k = i)) as [->|Hki].
    + rewrite list_lookup_insert_eq by lia. rewrite Ha. cbn. unfold pair_rank.
      rewrite list_lookup_delete_ge by lia. by replace (S (S (S i))) with (i + 3)%nat by lia.
    + rewrite list_lookup_insert_ne by done. rewrite Hlk. case_decide; [done|]. rewrite annot_lookup.
      destruct (bs !! k); [|done]. cbn. unfold pair_rank. by rewrite list_lookup_delete_lt by lia.
  - rewrite list_lookup_insert_ne by lia. rewrite Hlk. case_decide; [lia|]. rewrite annot_lookup.
    destruct (bs !! S k); [|done]. cbn. unfold pair_rank. by rewrite list_lookup_delete_ge by lia.
Qed.

Lemma scan_loop_ok fuel bs min_rank min_idx :
  division bs -> (length bs <= fuel + 2)%nat -> scanned bs min_rank min_idx ->
  scan_loop v text fuel start (annot bs) min_rank min_idx = Some (annot (merge_all rk fuel bs)) /\
  division (merge_all rk fuel bs).
Proof.
  revert bs min_rank min_idx. induction fuel as [|fuel IH]; intros bs min_rank min_idx Hd Hlen Hs; unfold scanned in Hs;
    cbn [scan_loop merge_all].
  - destruct (lowest (pair_ranks rk bs)) as [k|] eqn:Hl; [apply lowest_bound in Hl; lia|].
    subst. by rewrite Z.eqb_refl.
  - destruct (lowest (pair_ranks rk bs)) as [k|] eqn:Hl.
    + destruct Hs as [-> Hne]. destruct (Z.eqb_spec min_rank NO_RANK); [done|]. apply lowest_bound in Hl as Hk.
      rewrite scan_merge_ok by done. cbn [mbind option_bind].
      destruct (scan_min _ _ _ _) as [r j] eqn:Hm. pose proof (division_delete bs k Hd Hk) as Hd'.
      apply IH; [done|rewrite length_delete by (apply lookup_lt_is_Some_2; lia); lia|by eapply scanned_min].
    + subst. by rewrite Z.eqb_refl.
Qed.

Lemma scan_output_ok bs : division bs -> scan_output v text start (annot bs) = Some (part_ranks rk bs).
Proof.
  intros Hd. assert (forall (parts : list (nat * Z)) (l : list nat), parts.*1 = l ->
    (forall i a b, l !! i = Some a -> l !! S i = Some b -> (a < b <= n)%nat) ->
    scan_output v text start parts = Some (part_ranks rk l)) as H.
  { induction parts as [|[a r] parts IH]; intros l <- Hl; [done|]. destruct parts as [|[b r'] parts]; [done|].
    change (scan_output v text start ((a, r) :: (b, r') :: parts)) with
      (r ← rank_of v text (start + a) (start + b); out ← scan_output v text start ((b, r') :: parts); Some (r :: out)).
    rewrite Hrank_of by (by apply (Hl O)). cbn [mbind option_bind].
    rewrite (IH _ eq_refl) by (intros i; apply (Hl (S i))). done. }
  apply H; [apply annot_fst|]. intros i a b Ha Hb. split; [by eapply (dv_order _ Hd i (S i)); [..|lia]|by eapply division_bound].
Qed.

Lemma scan_init_ok i m min_rank min_idx :
  (i + m + 1 <= n)%nat ->
  exists min_rank' min_idx', scan_init v text start i m min_rank min_idx =
    Some ((fun j => (j, rk j (j + 2))) <$> seq i m, min_rank', min_idx') /\
    scan_min ((fun j => (j, rk j (j + 2))) <$> seq i m) i min_rank min_idx = (min_rank', min_idx').
Proof.
  revert i min_rank min_idx. induction m as [|m IH]; intros i min_rank min_idx Hi; cbn; [by eexists _, _|].
  rewrite Hinitial by lia. cbn. destruct (rk i (i + 2) <? min_rank).
  - destruct (IH (S i) (rk i (i + 2)) i) as (r & j & -> & Hmin); [lia|]. cbn. eexists _, _. split; [done|exact Hmin].
  - destruct (IH (S i) min_rank min_idx) as (r & j & -> & Hmin); [lia|]. cbn. eexists _, _. split; [done|exact Hmin].
Qed.

Lemma annot_initial :
  ((fun j => (j, rk j (j + 2))) <$> seq 0 (n - 1)) ++ [((n - 1)%nat, NO_RANK); (n, NO_RANK)] = annot (seq 0 (S n)).
Proof.
  apply list_eq. intros k. rewrite annot_lookup. destruct Hn as [Hn1 _]. destruct (Nat.lt_ge_cases k (n - 1)).
  - rewrite lookup_app_l by (rewrite length_fmap, length_seq; lia). rewrite list_lookup_fmap, !lookup_seq_lt by lia. cbn [fmap option_fmap option_map].
    unfold pair_rank. rewrite lookup_seq_lt by lia. replace (0 + S (S k))%nat with (0 + k + 2)%nat by lia. reflexivity.
  - rewrite lookup_app_r by (rewrite length_fmap, length_seq; lia). rewrite length_fmap, length_seq.
    destruct (decide (k = n - 1)%nat) as [->|]; [|destruct (decide (k = n)) as [->|]].
    + rewrite Nat.sub_diag, lookup_seq_lt by lia. cbn [fmap option_fmap option_map lookup list_lookup]. unfold pair_rank. by rewrite lookup_seq_ge by lia.
    + replace (n - (n - 1))%nat with 1%nat by lia. rewrite lookup_seq_lt by lia. cbn [fmap option_fmap option_map lookup list_lookup]. unfold pair_rank.
      by rewrite lookup_seq_ge by lia.
    + rewrite lookup_seq_ge by lia. by rewrite lookup_ge_None_2 by (cbn; lia).
Qed.

Lemma merge_scan_ok : merge_scan v text start (start + n) = Some (bpe_reference rk n).
Proof.
  unfold merge_scan. replace (start + n - start)%nat with n by lia. destruct Hn as [Hn1 _]. destruct (Nat.eqb_spec n 0); [lia|].
  destruct (scan_init_ok 0 (n - 1) NO_RANK 0) as (r & j & -> & Hmin); [lia|]. cbn [mbind option_bind]. rewrite annot_initial.
  assert (scanned (seq 0 (S n)) r j) as Hs.
  { apply (scanned_min _ 0 _ _ division_initial). rewrite <- Hmin, <- annot_initial, length_app, length_fmap, length_seq. cbn [length].
    replace (n - 1 + 2 - 1)%nat with (n - 1 + 1)%nat by lia. rewrite take_app_ge by (rewrite length_fmap, length_seq; lia).
    rewrite length_fmap, length_seq. replace (n - 1 + 1 - (n - 1))%nat with 1%nat by lia. cbn [take].
    apply scan_min_snoc; [|done]. apply Forall_fmap, Forall_forall. intros k _. apply rk_le. }
  destruct (scan_loop_ok n _ r j division_initial ltac:(rewrite length_seq; lia) Hs) as [-> Hd]. cbn [mbind option_bind].
  rewrite scan_output_ok by done. done.
Qed.

(** ** The heap *)
Lemma heap_key_eq r i : 0 <= r -> (i < n)%nat -> heap_key r (Z.of_nat i) = r * 2 ^ 32 + Z.of_nat i.
Proof.
  intros Hr Hi. unfold heap_key. rewrite Z.shiftl_mul_pow2, Z.lor_comm, lor_disjoint by (munfold; lia). lia.
Qed.

Lemma heap_key_unpack r i :
  0 <= r -> (i < n)%nat -> Z.shiftr (heap_key r (Z.of_nat i)) 32 = r /\ heap_key r (Z.of_nat i) mod 2 ^ 32 = Z.of_nat i.
Proof.
  intros Hr Hi. assert (0 <= Z.of_nat i < 2 ^ 32) as Hi' by (munfold; lia).
  rewrite heap_key_eq by done. rewrite Z.shiftr_div_pow2 by lia. rewrite Z.add_comm, Z.div_add, Z.mod_add by lia.
  rewrite Z.div_small, Z.mod_small by done. lia.
Qed.

Lemma heap_key_le r i r' i' :
  0 <= r -> 0 <= r' -> (i < n)%nat -> (i' < n)%nat ->
  heap_key r (Z.of_nat i) <= heap_key r' (Z.of_nat i') -> r < r' \/ (r = r' /\ (i <= i')%nat).
Proof. intros Hr Hr' Hi Hi'. rewrite !heap_key_eq by done. munfold. lia. Qed.

Lemma remove_one_perm x l : x ∈ l -> l ≡ₚ x :: remove_one x l.
Proof.
  induction l as [|y l IH]; [by intros ?%not_elem_of_nil|]. intros Hx. cbn. bcase; [by subst|].
  apply elem_of_cons in Hx as [->|Hx]; [done|]. rewrite (IH Hx) at 1. apply Permutation_swap.
Qed.

Lemma foldr_min_spec x l : foldr Z.min x l ∈ x :: l /\ forall y, y ∈ x :: l -> foldr Z.min x l <= y.
Proof.
  induction l as [|z l [IH1 IH2]]; cbn.
  - split; [by left|]. intros y ->%list_elem_of_singleton. done.
  - split.
    + destruct (Z.min_spec z (foldr Z.min x l)) as [[_ ->]|[_ ->]]; [by right; left|].
      apply elem_of_cons in IH1 as [->|IH1]; [by left|by right; right].
    + intros y [->|[->|Hy]%elem_of_cons]%elem_of_cons; [specialize (IH2 x ltac:(by left))| |specialize (IH2 y ltac:(by right))]; lia.
Qed.

Lemma heap_pop_spec heap key rest :
  heap_pop heap = Some (key, rest) -> heap ≡ₚ key :: rest /\ forall y, y ∈ heap -> key <= y.
Proof.
  destruct heap as [|x heap]; cbn [heap_pop]; [done|]. intros [= <- <-].
  destruct (foldr_min_spec x heap) as [Hin Hmin]. split; [by apply remove_one_perm|done].
Qed.

(** What the linked list, the ranks and the heap hold for a division. *)
Record heap_ok (bs : list nat) (s : Scratch) : Prop := {
  hk_lengths : length (sc_next s) = n /\ length (sc_prev s) = n /\ length (sc_rank s) = n;
  hk_next : forall k a b, bs !! k = Some a -> bs !! S k = Some b -> sc_next s !! a = Some (Z.of_nat b);
  hk_first : sc_prev s !! O = Some u32_MAX;
  hk_prev : forall k a b, bs !! k = Some a -> bs !! S k = Some b -> (b < n)%nat -> sc_prev s !! b = Some (Z.of_nat a);
  hk_rank : forall k a, bs !! k = Some a -> (a < n)%nat -> sc_rank s !! a = Some (pair_rank bs k a);
  hk_dead : forall a, (a < n)%nat -> a ∉ bs -> sc_rank s !! a = Some DEAD;
  hk_keys : forall key, key ∈ sc_heap s -> exists r i, key = heap_key r (Z.of_nat i) /\ (i < n)%nat /\ 0 <= r < DEAD;
  hk_live : forall k a, bs !! k = Some a -> (a < n)%nat -> pair_rank bs k a <> NO_RANK ->
    heap_key (pair_rank bs k a) (Z.of_nat a) ∈ sc_heap s;
}.

Lemma dv_inj bs x y a : division bs -> bs !! x = Some a -> bs !! y = Some a -> x = y.
Proof.
  intros Hd Hx Hy. destruct (Nat.lt_trichotomy x y) as [H|[H|H]]; [|done|].
  - pose proof (dv_order _ Hd _ _ _ _ Hx Hy H). lia.
  - pose proof (dv_order _ Hd _ _ _ _ Hy Hx H). lia.
Qed.

Lemma pair_rank_finite bs k a : pair_rank bs k a = NO_RANK \/ 0 <= pair_rank bs k a < DEAD.
Proof. unfold pair_rank. destruct (bs !! _); [apply Hfinite|by left]. Qed.

(** A key whose rank is the current one names the pair the reference merges. *)
Lemma popped_lowest bs s r i rest :
  division bs -> heap_ok bs s -> heap_pop (sc_heap s) = Some (heap_key r (Z.of_nat i), rest) ->
  (i < n)%nat -> 0 <= r < DEAD -> sc_rank s !! i = Some r ->
  exists k c, bs !! k = Some i /\ bs !! S (S k) = Some c /\ r = rk i c /\ lowest (pair_ranks rk bs) = Some k.
Proof.
  intros Hd Hok Hpop Hi Hr Hcur. destruct (decide (i ∈ bs)) as [Hin|Hout].
  2:{ rewrite (hk_dead _ _ Hok i Hi Hout) in Hcur. injection Hcur. lia. }
  apply list_elem_of_lookup in Hin as [k Hk]. rewrite (hk_rank _ _ Hok k i Hk Hi) in Hcur. injection Hcur as Hrank.
  pose proof Hrank as Hrank'. unfold pair_rank in Hrank'. destruct (bs !! S (S k)) as [c|] eqn:Hc; [|unfold DEAD, NO_RANK in *; lia].
  exists k, c. do 3 (split; [done|]). apply (lowest_Some_2 _ _ r).
  - rewrite pair_ranks_lookup, Hk, Hc. by f_equal.
  - unfold DEAD, NO_RANK in *. lia.
  - intros k' r' Hk'. rewrite pair_ranks_lookup in Hk'. destruct (bs !! k') as [a'|] eqn:Ha'; [|done].
    destruct (bs !! S (S k')) as [c'|] eqn:Hc'; [|done]. injection Hk' as <-.
    destruct (Hfinite a' c') as [->|Hf]; [unfold DEAD, NO_RANK in *; lia|].
    assert (pair_rank bs k' a' = rk a' c') as Hp by (unfold pair_rank; by rewrite Hc').
    assert (a' < n)%nat as Han.
    { pose proof (dv_order _ Hd _ _ _ _ Ha' Hc' ltac:(lia)). pose proof (division_bound _ _ _ Hd Hc'). lia. }
    pose proof (hk_live _ _ Hok k' a' Ha' Han ltac:(rewrite Hp; unfold DEAD, NO_RANK in *; lia)) as Hlive. rewrite Hp in Hlive.
    apply heap_pop_spec in Hpop as [_ Hmin]. specialize (Hmin _ Hlive). apply heap_key_le in Hmin; [|lia|lia|done|done].
    split; [lia|]. intros Hlt. pose proof (dv_order _ Hd _ _ _ _ Ha' Hk Hlt). lia.
Qed.

(** The scratch state after the merge at index [k] of the division, with boundaries [i], [j], [c]
    and the boundary before them, if any. *)
Section Merge.
Context (bs : list nat) (k i j c : nat) (s : Scratch) (rest : list Z).
Hypothesis Hd : division bs.
Hypothesis Hok : heap_ok bs s.
Hypothesis Hi : bs !! k = Some i.
Hypothesis Hj : bs !! S k = Some j.
Hypothesis Hc : bs !! S (S k) = Some c.
Hypothesis Hrest : forall key, key ∈ rest -> key ∈ sc_heap s.
Hypothesis Hkeep : forall key, key ∈ sc_heap s -> key <> heap_key (rk i c) (Z.of_nat i) -> key ∈ rest.

Let bs' : list nat := delete (S k) bs.

Definition left_of : option nat := match k with O => None | S k' => bs !! k' end.

Definition merged : Scratch :=
  let rank := <[i := pair_rank bs' k i]> (<[j := DEAD]> (sc_rank s)) in
  let heap := push_rank (pair_rank bs' k i) (Z.of_nat i) rest in
  let prev := if (c <? n)%nat then <[c := Z.of_nat i]> (sc_prev s) else sc_prev s in
  let next := <[i := Z.of_nat c]> (sc_next s) in
  match left_of with
  | None => mkScratch next prev rank heap
  | Some p => mkScratch next prev (<[p := pair_rank bs' (k - 1) p]> rank)
                (push_rank (pair_rank bs' (k - 1) p) (Z.of_nat p) heap)
  end.

Lemma merge_order : (i < j)%nat /\ (j < c)%nat /\ (c <= n)%nat.
Proof.
  split; [by apply (dv_order _ Hd k (S k)); [..|lia]|]. split; [by apply (dv_order _ Hd (S k) (S (S k))); [..|lia]|].
  by eapply division_bound.
Qed.

Lemma left_of_spec p : left_of = Some p -> (1 <= k)%nat /\ bs !! (k - 1)%nat = Some p /\ (p < i)%nat.
Proof.
  unfold left_of. destruct k as [|k'] eqn:Ek; [done|]. intros Hp. replace (S k' - 1)%nat with k' by lia.
  split; [lia|]. split; [done|]. by apply (dv_order _ Hd k' (S k')); [..|lia].
Qed.

Lemma left_of_None : left_of = None -> k = O /\ i = O.
Proof.
  unfold left_of. destruct k as [|k'] eqn:Ek.
  - intros _. split; [done|]. pose proof (dv_first _ Hd). congruence.
  - intros Hn'. apply lookup_lt_Some in Hi as Hlt. apply lookup_ge_None_1 in Hn'. lia.
Qed.

(** Entries of the new division. *)
Lemma new_lookup x a :
  bs' !! x = Some a -> exists y, bs !! y = Some a /\ y <> S k /\ y = (if decide (x < S k)%nat then x else S x).
Proof.
  unfold bs'. rewrite list_lookup_delete. intros H. eexists. split; [exact H|]. split; [case_decide; lia|done].
Qed.

Lemma new_pair_rank x a :
  bs' !! x = Some a -> x <> k -> S x <> k ->
  exists y, bs !! y = Some a /\ y <> k /\ y <> S k /\ S y <> k /\ pair_rank bs' x a = pair_rank bs y a.
Proof.
  intros Hx Hxk Hxk'. destruct (new_lookup x a Hx) as (y & Hy & Hne & Hdef). exists y. split; [done|].
  unfold pair_rank, bs'. rewrite list_lookup_delete. repeat case_decide; subst y; try lia; split_and!; try lia; done.
Qed.

Lemma new_member a : a ∈ bs' <-> a ∈ bs /\ a <> j.
Proof.
  rewrite !list_elem_of_lookup. split.
  - intros [x (y & Hy & Hne & _)%new_lookup]. split; [by exists y|]. intros ->. apply Hne. by eapply dv_inj.
  - intros [[y Hy] Hne]. assert (y <> S k) by (intros ->; congruence). unfold bs'.
    destruct (decide (y < S k)%nat).
    + exists y. by rewrite list_lookup_delete_lt by lia.
    + exists (y - 1)%nat. rewrite list_lookup_delete_ge by lia. by replace (S (y - 1)) with y by lia.
Qed.

Lemma merged_next : sc_next merged = <[i := Z.of_nat c]> (sc_next s).
Proof. unfold merged. by destruct left_of. Qed.
Lemma merged_prev : sc_prev merged = if (c <? n)%nat then <[c := Z.of_nat i]> (sc_prev s) else sc_prev s.
Proof. unfold merged. by destruct left_of. Qed.

Lemma merged_rank a :
  (a < n)%nat -> sc_rank merged !! a =
  if decide (left_of = Some a) then Some (pair_rank bs' (k - 1) a)
  else if decide (a = i) then Some (pair_rank bs' k i) else if decide (a = j) then Some DEAD else sc_rank s !! a.
Proof.
  intros Ha. pose proof merge_order as (Hij & Hjc & Hcn). destruct (hk_lengths _ _ Hok) as (_ & _ & Hl).
  assert (<[i := pair_rank bs' k i]> (<[j := DEAD]> (sc_rank s)) !! a =
    if decide (a = i) then Some (pair_rank bs' k i) else if decide (a = j) then Some DEAD else sc_rank s !! a) as H2.
  { case_decide as H1; [subst; apply list_lookup_insert_eq; rewrite length_insert; lia|].
    rewrite list_lookup_insert_ne by done. case_decide as H2; [subst; apply list_lookup_insert_eq; lia|].
    by apply list_lookup_insert_ne. }
  unfold merged. destruct left_of as [p|] eqn:Hp; cbn [sc_rank].
  - apply left_of_spec in Hp as (_ & _ & Hpi). destruct (decide (Some p = Some a)) as [[= ->]|H1].
    + apply list_lookup_insert_eq. rewrite !length_insert. lia.
    + rewrite list_lookup_insert_ne by congruence. exact H2.
  - destruct (decide (None = Some a)); [done|]. exact H2.
Qed.

Lemma push_rank_mem r a heap key : key ∈ push_rank r a heap <-> key ∈ heap \/ (r <> NO_RANK /\ key = heap_key r a).
Proof. unfold push_rank. bcase; [naive_solver|]. rewrite elem_of_cons. naive_solver. Qed.

Lemma merged_heap key :
  key ∈ sc_heap merged <-> key ∈ rest \/ (pair_rank bs' k i <> NO_RANK /\ key = heap_key (pair_rank bs' k i) (Z.of_nat i)) \/
    (exists p, left_of = Some p /\ pair_rank bs' (k - 1) p <> NO_RANK /\ key = heap_key (pair_rank bs' (k - 1) p) (Z.of_nat p)).
Proof.
  unfold merged. destruct left_of as [p|] eqn:Hp; cbn [sc_heap]; rewrite !push_rank_mem; [|naive_solver].
  split; [intros [[?|?]|?]; eauto|]. intros [?|[?|(q & [= <-] & ?)]]; auto.
Qed.


Lemma merged_lengths : length (sc_next merged) = n /\ length (sc_prev merged) = n /\ length (sc_rank merged) = n.
Proof.
  destruct (hk_lengths _ _ Hok) as (Hl1 & Hl2 & Hl3). rewrite merged_next, merged_prev. split; [by rewrite length_insert|].
  split; [destruct (c <? n)%nat; by rewrite ?length_insert|]. unfold merged. destruct left_of; cbn [sc_rank]; by rewrite !length_insert.
Qed.

Lemma new_adjacent x a b :
  bs' !! x = Some a -> bs' !! S x = Some b ->
  (a = i /\ b = c) \/ exists y, bs !! y = Some a /\ bs !! S y = Some b /\ y <> k /\ y <> S k.
Proof.
  unfold bs'. rewrite !list_lookup_delete. destruct (decide (x = k)) as [->|Hne].
  - rewrite decide_True, decide_False by lia. intros. left. split; congruence.
  - intros Ha Hb. right. destruct (decide (x < k)%nat).
    + rewrite decide_True in Ha by lia. rewrite decide_True in Hb by lia. exists x. split_and!; [done|done|lia|lia].
    + rewrite decide_False in Ha by lia. rewrite decide_False in Hb by lia. exists (S x). split_and!; [done|done|lia|lia].
Qed.

Lemma new_rank x a :
  bs' !! x = Some a -> (x = k /\ a = i) \/ (left_of = Some a /\ x = (k - 1)%nat) \/
  exists y, bs !! y = Some a /\ a <> i /\ a <> j /\ left_of <> Some a /\ pair_rank bs' x a = pair_rank bs y a.
Proof.
  intros Hx. destruct (decide (x = k)) as [->|Hxk]; [left|right].
  - split; [done|]. destruct (new_lookup _ _ Hx) as (y & Hy & _ & ->). rewrite decide_True in Hy by lia. congruence.
  - destruct (decide (S x = k)) as [Hs|Hs]; [left|right].
    + destruct (new_lookup _ _ Hx) as (y & Hy & _ & ->). rewrite decide_True in Hy by lia. split; [|lia].
      unfold left_of. by rewrite <- Hs.
    + destruct (new_pair_rank x a Hx Hxk Hs) as (y & Hy & H1 & H2 & H3 & ->). exists y. split; [done|].
      split; [intros ->; apply H1; by eapply dv_inj|]. split; [intros ->; apply H2; by eapply dv_inj|]. split; [|done].
      intros (Hk & Hp & _)%left_of_spec. apply H3. pose proof (dv_inj _ _ _ _ Hd Hy Hp). lia.
Qed.

Lemma merged_links_ok :
  (forall x a b, bs' !! x = Some a -> bs' !! S x = Some b -> sc_next merged !! a = Some (Z.of_nat b)) /\
  sc_prev merged !! O = Some u32_MAX /\
  (forall x a b, bs' !! x = Some a -> bs' !! S x = Some b -> (b < n)%nat -> sc_prev merged !! b = Some (Z.of_nat a)).
Proof.
  pose proof merge_order as (Hij & Hjc & Hcn). destruct (hk_lengths _ _ Hok) as (Hl1 & Hl2 & _).
  rewrite merged_next, merged_prev. split_and!.
  - intros x a b Ha Hb. destruct (new_adjacent x a b Ha Hb) as [[-> ->]|(y & Hya & Hyb & Hne & _)].
    + apply list_lookup_insert_eq. lia.
    + rewrite list_lookup_insert_ne by (intros ->; apply Hne; by eapply dv_inj). by eapply (hk_next _ _ Hok).
  - destruct (c <? n)%nat; [rewrite list_lookup_insert_ne by lia|]; apply (hk_first _ _ Hok).
  - intros x a b Ha Hb Hbn. destruct (new_adjacent x a b Ha Hb) as [[-> ->]|(y & Hya & Hyb & _ & Hne)].
    + destruct (Nat.ltb_spec c n); [|lia]. apply list_lookup_insert_eq. lia.
    + assert (b <> c) by (intros ->; apply Hne; pose proof (dv_inj _ _ _ _ Hd Hyb Hc); lia).
      destruct (c <? n)%nat; [rewrite list_lookup_insert_ne by done|]; by eapply (hk_prev _ _ Hok).
Qed.

Lemma merged_ok : heap_ok bs' merged.
Proof.
  pose proof merge_order as (Hij & Hjc & Hcn). destruct merged_links_ok as (Hnext & Hfirst & Hprev).
  split; [apply merged_lengths|exact Hnext|exact Hfirst|exact Hprev| | | |].
  - intros x a Hx Ha. rewrite merged_rank by done. destruct (new_rank x a Hx) as [[-> ->]|[[Hp ->]|(y & Hy & H1 & H2 & H3 & ->)]].
    + destruct (decide (left_of = Some i)) as [Hp|_]; [apply left_of_spec in Hp; lia|]. by rewrite decide_True.
    + by rewrite decide_True.
    + rewrite !decide_False by done. by apply (hk_rank _ _ Hok).
  - intros a Ha Hout. rewrite new_member in Hout. rewrite merged_rank by done.
    destruct (decide (left_of = Some a)) as [Hp|_].
    { apply left_of_spec in Hp as (_ & Hp & Hlt). destruct Hout. split; [by apply list_elem_of_lookup_2 in Hp|lia]. }
    destruct (decide (a = i)) as [->|_]; [destruct Hout; split; [by eapply list_elem_of_lookup_2|lia]|].
    destruct (decide (a = j)) as [|Hne]; [done|]. apply (hk_dead _ _ Hok); [done|]. tauto.
  - intros key [Hin|[[Hne ->]|(p & Hp & Hne & ->)]]%merged_heap.
    + by apply (hk_keys _ _ Hok), Hrest.
    + exists (pair_rank bs' k i), i. split; [done|]. split; [lia|]. by destruct (pair_rank_finite bs' k i).
    + apply left_of_spec in Hp as (_ & _ & Hlt). exists (pair_rank bs' (k - 1) p), p. split; [done|]. split; [lia|].
      by destruct (pair_rank_finite bs' (k - 1) p).
  - intros x a Hx Ha Hne. rewrite merged_heap. destruct (new_rank x a Hx) as [[-> ->]|[[Hp ->]|(y & Hy & H1 & _ & _ & Heq)]].
    + right. by left.
    + right. right. by exists a.
    + left. rewrite Heq in *. apply Hkeep; [by apply (hk_live _ _ Hok)|]. intros He.
      destruct (pair_rank_finite bs y a) as [|Hf]; [done|]. destruct (Hfinite i c) as [Hic|Hic].
      * rewrite Hic in He. rewrite !heap_key_eq in He by (unfold NO_RANK, u32_MAX; lia). unfold DEAD, NO_RANK in *. munfold. lia.
      * rewrite !heap_key_eq in He by lia. unfold DEAD in *. munfold. lia.
Qed.

(** The branch on the part after the merged one. *)
Lemma heap_step_right next rank :
  next = <[i := Z.of_nat c]> (sc_next s) -> rank = <[j := DEAD]> (sc_rank s) ->
  (if Z.of_nat c <? Z.of_nat n then
     _ ← sc_prev s !! c;
     let prev := <[c := Z.of_nat i]> (sc_prev s) in
     beyond ← next !! c;
     r ← rank_of v text (start + i) (start + Z.to_nat beyond);
     Some (mkScratch next prev (<[i := r]> rank) (push_rank r (Z.of_nat i) rest))
   else Some (mkScratch next (sc_prev s) (<[i := NO_RANK]> rank) rest)) =
  Some (mkScratch next (if (c <? n)%nat then <[c := Z.of_nat i]> (sc_prev s) else sc_prev s)
          (<[i := pair_rank bs' k i]> rank) (push_rank (pair_rank bs' k i) (Z.of_nat i) rest)).
Proof.
  intros -> ->. pose proof merge_order as (Hij & Hjc & Hcn). destruct (hk_lengths _ _ Hok) as (Hl1 & Hl2 & _).
  unfold pair_rank, bs'. rewrite list_lookup_delete, decide_False by lia.
  pose proof (division_bound _ _ _ Hd Hc) as [_ Hlast].
  destruct (Z.ltb_spec (Z.of_nat c) (Z.of_nat n)), (Nat.ltb_spec c n); try lia.
  - destruct (bs !! S (S (S k))) as [e|] eqn:He.
    2:{ apply lookup_ge_None_1 in He. apply lookup_lt_Some in Hc as Hlt. lia. }
    destruct (sc_prev s !! c) eqn:Hp; [|apply lookup_ge_None_1 in Hp; lia]. cbn [mbind option_bind].
    rewrite list_lookup_insert_ne by lia. rewrite (hk_next _ _ Hok _ _ _ Hc He). cbn [mbind option_bind].
    rewrite Nat2Z.id, Hrank_of; [done|]. split; [|by eapply division_bound].
    pose proof (dv_order _ Hd _ _ _ _ Hc He ltac:(lia)). lia.
  - destruct (bs !! S (S (S k))) as [e|] eqn:He; [|done]. apply lookup_lt_Some in He. lia.
Qed.

Lemma left_pair_rank p : (1 <= k)%nat -> pair_rank bs' (k - 1) p = rk p c.
Proof.
  intros Hk. unfold pair_rank, bs'. rewrite list_lookup_delete, decide_False by lia.
  replace (S (S (S (k - 1)))) with (S (S k)) by lia. by rewrite Hc.
Qed.

Lemma heap_step_merges :
  rk i c <> NO_RANK -> heap_step v text start n s (heap_key (rk i c) (Z.of_nat i)) rest = Some merged.
Proof.
  intros Hne. destruct (Hfinite i c) as [|Hic]; [done|]. pose proof merge_order as (Hij & Hjc & Hcn).
  destruct (hk_lengths _ _ Hok) as (Hl1 & Hl2 & Hl3). unfold heap_step.
  destruct (heap_key_unpack (rk i c) i) as [-> ->]; [lia|lia|]. rewrite Nat2Z.id.
  rewrite (hk_rank _ _ Hok _ _ Hi) by lia. unfold pair_rank at 1. rewrite Hc. cbn [mbind option_bind]. rewrite Z.eqb_refl. cbn [negb].
  rewrite (hk_next _ _ Hok _ _ _ Hi Hj). cbn [mbind option_bind]. rewrite Nat2Z.id, (hk_next _ _ Hok _ _ _ Hj Hc). cbn [mbind option_bind].
  rewrite Nat2Z.id. destruct (sc_rank s !! j) eqn:Hr; [|apply lookup_ge_None_1 in Hr; lia]. cbn [mbind option_bind].
  pose proof (heap_step_right _ _ eq_refl eq_refl) as Hright. cbn [mbind option_bind] in Hright. rewrite Hright.
  cbn [mbind option_bind sc_prev sc_next sc_rank sc_heap].
  rewrite <- merged_prev. destruct merged_links_ok as (_ & Hfirst & Hprev). remember (sc_prev merged) as prev eqn:Hpr.
  unfold merged. destruct left_of as [p|] eqn:Hp.
  - apply left_of_spec in Hp as (Hk & Hp & Hpi). destruct merged_lengths as (_ & Hlp & _).
    rewrite (Hprev (k - 1)%nat p i). 2-4: unfold bs'. 2: by rewrite list_lookup_delete_lt by lia.
    2: replace (S (k - 1)) with k by lia; by rewrite list_lookup_delete_lt by lia.
    2: lia. cbn [mbind option_bind]. destruct (Z.eqb_spec (Z.of_nat p) u32_MAX); [munfold; lia|]. rewrite Nat2Z.id.
    rewrite Hrank_of by lia. cbn [mbind option_bind].
    match goal with |- context [?l !! p] => destruct (l !! p) eqn:Hlp' end.
    2:{ apply lookup_ge_None_1 in Hlp'. rewrite !length_insert in Hlp'. lia. }
    cbn [mbind option_bind]. by rewrite left_pair_rank, Hpr, merged_prev.
  - apply left_of_None in Hp as [_ Hi0]. rewrite <- Hi0 in Hfirst. rewrite Hfirst. cbn [mbind option_bind].
    by rewrite Z.eqb_refl, Hpr, merged_prev.
Qed.
End Merge.

Lemma push_rank_length r a heap : (length (push_rank r a heap) <= S (length heap))%nat.
Proof. unfold push_rank. destruct (_ =? _); cbn [length]; lia. Qed.

Lemma merged_heap_length bs k i j c s rest : (length (sc_heap (merged bs k i j c s rest)) <= 2 + length rest)%nat.
Proof.
  unfold merged. pose proof (push_rank_length (pair_rank (delete (S k) bs) k i) (Z.of_nat i) rest).
  destruct (left_of bs k) as [p|]; cbn [sc_heap]; [|lia]. etrans; [apply push_rank_length|]. lia.
Qed.

(** A key whose rank is not the current one is dropped. *)
Lemma heap_step_stale bs s r i rest :
  heap_ok bs s -> heap_pop (sc_heap s) = Some (heap_key r (Z.of_nat i), rest) -> (i < n)%nat -> 0 <= r < DEAD ->
  sc_rank s !! i <> Some r ->
  let s' := mkScratch (sc_next s) (sc_prev s) (sc_rank s) rest in
  heap_step v text start n s (heap_key r (Z.of_nat i)) rest = Some s' /\ heap_ok bs s'.
Proof.
  intros Hok Hpop Hin Hr Hcur s'. apply heap_pop_spec in Hpop as [Hperm _]. split.
  - unfold heap_step. destruct (heap_key_unpack r i) as [-> ->]; [lia|done|]. rewrite Nat2Z.id.
    destruct (sc_rank s !! i) as [r'|] eqn:Hr'.
    + cbn [mbind option_bind]. destruct (Z.eqb_spec r' r); [congruence|done].
    + apply lookup_ge_None_1 in Hr'. destruct (hk_lengths _ _ Hok) as (_ & _ & Hl). lia.
  - destruct Hok as [H1 H2 H3 H4 H5 H6 H7 H8]. split; cbn [s' sc_next sc_prev sc_rank sc_heap]; try done.
    + intros key Hkey. apply H7. rewrite Hperm. by right.
    + intros k a Ha Han Hne. specialize (H8 k a Ha Han Hne). rewrite Hperm in H8. apply elem_of_cons in H8 as [He|]; [|done].
      exfalso. specialize (H5 k a Ha Han). destruct (pair_rank_finite bs k a) as [|Hf]; [done|].
      rewrite !heap_key_eq in He by (unfold DEAD in *; lia).
      assert (a = i /\ pair_rank bs k a = r) as [-> Heq] by (unfold DEAD in *; munfold; lia). congruence.
Qed.

(** A step either drops a stale key or makes the reference's merge. *)
Lemma heap_step_ok bs s key rest :
  division bs -> heap_ok bs s -> heap_pop (sc_heap s) = Some (key, rest) ->
  exists s', heap_step v text start n s key rest = Some s' /\
    ((heap_ok bs s' /\ sc_heap s' = rest) \/
     exists k, lowest (pair_ranks rk bs) = Some k /\ heap_ok (delete (S k) bs) s' /\ (length (sc_heap s') <= 2 + length rest)%nat).
Proof.
  intros Hd Hok Hpop. pose proof (heap_pop_spec _ _ _ Hpop) as [Hperm _].
  destruct (hk_keys _ _ Hok key) as (r & i & -> & Hin & Hr); [rewrite Hperm; by left|].
  destruct (decide (sc_rank s !! i = Some r)) as [Hcur|Hcur].
  2:{ destruct (heap_step_stale bs s r i rest) as [-> Hok']; try done. eexists. split; [done|]. by left. }
  destruct (popped_lowest bs s r i rest) as (k & c & Hk & Hc & -> & Hl); try done.
  destruct (bs !! S k) as [j|] eqn:Hj; [|apply lookup_ge_None_1 in Hj; apply lookup_lt_Some in Hc; lia].
  assert (forall key, key ∈ sc_heap s -> key <> heap_key (rk i c) (Z.of_nat i) -> key ∈ rest) as Hkeep.
  { intros key. rewrite Hperm. by intros [->|]%elem_of_cons. }
  exists (merged bs k i j c s rest). split.
  - apply heap_step_merges; try done. unfold DEAD, NO_RANK in *. lia.
  - right. exists k. split; [done|]. split.
    + apply merged_ok; try done. intros key ?. rewrite Hperm. by right.
    + apply merged_heap_length.
Qed.

Lemma merge_all_stop m bs : lowest (pair_ranks rk bs) = None -> merge_all rk m bs = bs.
Proof. destruct m; cbn [merge_all]; [done|]. by intros ->. Qed.

(** With no key left there is no pair to merge. *)
Lemma heap_done bs s : division bs -> heap_ok bs s -> heap_pop (sc_heap s) = None -> lowest (pair_ranks rk bs) = None.
Proof.
  intros Hd Hok Hpop. apply lowest_None. intros k r Hk. rewrite pair_ranks_lookup in Hk.
  destruct (bs !! k) as [a|] eqn:Ha; [|done]. destruct (bs !! S (S k)) as [c|] eqn:Hc; [|done]. injection Hk as <-.
  destruct (Hfinite a c) as [->|Hf]; [done|]. pose proof (hk_live _ _ Hok k a Ha) as Hl. unfold pair_rank in Hl. rewrite Hc in Hl.
  pose proof (dv_order _ Hd _ _ _ _ Ha Hc ltac:(lia)). pose proof (division_bound _ _ _ Hd Hc).
  specialize (Hl ltac:(lia) ltac:(unfold DEAD, NO_RANK in *; lia)). destruct (sc_heap s); [by apply not_elem_of_nil in Hl|done].
Qed.

Lemma heap_loop_ok fuel m bs s :
  division bs -> heap_ok bs s -> (length (sc_heap s) + 3 * (length bs - 2) <= fuel)%nat -> (length bs <= S (S m))%nat ->
  exists s', heap_loop v text fuel start n s = Some s' /\ heap_ok (merge_all rk m bs) s' /\ division (merge_all rk m bs).
Proof.
  revert m bs s. induction fuel as [|fuel IH]; intros m bs s Hd Hok Hfuel Hm; cbn [heap_loop];
    (destruct (heap_pop (sc_heap s)) as [[key rest]|] eqn:Hpop;
      [pose proof (heap_pop_spec _ _ _ Hpop) as [Hperm%Permutation_length _]; cbn [length] in Hperm
      |exists s; split; [done|]; rewrite merge_all_stop by (by eapply heap_done); done]).
  - lia.
  - destruct (heap_step_ok bs s key rest Hd Hok Hpop) as (s' & -> & [[Hok' <-]|(k & Hl & Hok' & Hlen)]); cbn [mbind option_bind].
    + apply IH; try done. lia.
    + apply lowest_bound in Hl as Hk. destruct m as [|m]; [lia|]. cbn [merge_all]. rewrite Hl.
      assert (length (delete (S k) bs) = (length bs - 1)%nat) as Hdl by (apply length_delete, lookup_lt_is_Some_2; lia).
      apply IH; [by apply division_delete|done|lia|lia].
Qed.

(** ** The heap engine's start and end *)
Lemma heap_init_ok i m :
  (i + m + 1 <= n)%nat -> exists heap, heap_init v text start i m = Some ((fun j => rk j (j + 2)) <$> seq i m, heap) /\
    (length heap <= m)%nat /\
    forall key, key ∈ heap <-> exists j, (i <= j < i + m)%nat /\ rk j (j + 2) <> NO_RANK /\ key = heap_key (rk j (j + 2)) (Z.of_nat j).
Proof.
  revert i. induction m as [|m IH]; intros i Hi; cbn [heap_init seq fmap list_fmap].
  - exists []. split; [done|]. split; [done|]. intros key. split; [by intros ?%not_elem_of_nil|]. intros (j & ? & _). lia.
  - rewrite Hinitial by lia. cbn [mbind option_bind]. destruct (IH (S i)) as (heap & -> & Hlen & Hmem); [lia|]. cbn [mbind option_bind].
    eexists. split; [reflexivity|]. split; [etrans; [apply (push_rank_length (rk i (i + 2)) (Z.of_nat i))|lia]|].
    intros key. etrans; [apply (push_rank_mem (rk i (i + 2)) (Z.of_nat i))|]. rewrite Hmem. split.
    + intros [(j & ? & ?)|[? ->]]; [exists j; split; [lia|done]|exists i; split; [lia|done]].
    + intros (j & Hj & Hne & ->). destruct (decide (j = i)) as [->|]; [by right|]. left. exists j. split; [lia|done].
Qed.

Lemma heap_init_state heap :
  (forall key, key ∈ heap <-> exists j, (0 <= j < 0 + (n - 1))%nat /\ rk j (j + 2) <> NO_RANK /\ key = heap_key (rk j (j + 2)) (Z.of_nat j)) ->
  heap_ok (seq 0 (S n)) (mkScratch (seqZ 1 (Z.of_nat n)) (u32_MAX :: seqZ 0 (Z.of_nat n - 1))
    (((fun j => rk j (j + 2)) <$> seq 0 (n - 1)) ++ [NO_RANK]) heap).
Proof.
  intros Hmem. destruct Hn as [Hn1 Hn2]. split; cbn [sc_next sc_prev sc_rank sc_heap].
  - cbn [length]. rewrite length_app, length_fmap, length_seq, !length_seqZ. cbn [length]. lia.
  - intros k a b (-> & ?)%lookup_seq (-> & ?)%lookup_seq. rewrite lookup_seqZ. lia.
  - done.
  - intros k a b (-> & ?)%lookup_seq (-> & ?)%lookup_seq Hb. cbn [Nat.add]. cbn [lookup list_lookup]. rewrite lookup_seqZ. lia.
  - intros k a (-> & Hk)%lookup_seq Ha. unfold pair_rank. cbn [Nat.add] in *. destruct (Nat.lt_ge_cases k (n - 1)).
    + rewrite lookup_app_l by (rewrite length_fmap, length_seq; lia). rewrite list_lookup_fmap, !lookup_seq_lt by lia. cbn [fmap option_fmap option_map].
      by replace (0 + S (S k))%nat with (0 + k + 2)%nat by lia.
    + rewrite lookup_app_r by (rewrite length_fmap, length_seq; lia). rewrite length_fmap, length_seq, lookup_seq_ge by lia.
      by replace (k - (n - 1))%nat with O by lia.
  - intros a Ha Hout. destruct Hout. apply elem_of_seq. lia.
  - intros key (j & Hj & Hne & ->)%Hmem. exists (rk j (j + 2)), j. split; [done|]. split; [lia|]. by destruct (Hfinite j (j + 2)).
  - intros k a (-> & Hk)%lookup_seq Ha Hne. unfold pair_rank in *. cbn [Nat.add] in *.
    destruct (Nat.lt_ge_cases k (n - 1)); [|by rewrite lookup_seq_ge in Hne by lia].
    rewrite lookup_seq_lt in * by lia. apply Hmem. exists k. replace (0 + S (S k))%nat with (k + 2)%nat in * by lia. split; [lia|done].
Qed.

Lemma heap_output_ok fuel bs s k a :
  division bs -> heap_ok bs s -> bs !! k = Some a -> (n <= a + fuel)%nat ->
  heap_output v text fuel start n (sc_next s) a = Some (part_ranks rk (drop k bs)).
Proof.
  intros Hd Hok. revert k a. induction fuel as [|fuel IH]; intros k a Hk Hf; cbn [heap_output];
    pose proof (division_bound _ _ _ Hd Hk) as [Han Hlast]; destruct (Nat.ltb_spec a n) as [Hlt|Hge].
  1: lia.
  2:{ destruct (bs !! S k) as [b|] eqn:Hb; [|apply lookup_ge_None_1 in Hb; apply lookup_lt_Some in Hk; lia].
    rewrite (hk_next _ _ Hok _ _ _ Hk Hb). cbn [mbind option_bind]. rewrite Nat2Z.id.
    pose proof (dv_order _ Hd _ _ _ _ Hk Hb ltac:(lia)). pose proof (division_bound _ _ _ Hd Hb) as [Hbn _].
    rewrite Hrank_of by lia. cbn [mbind option_bind]. rewrite (IH (S k) b Hb) by lia. cbn [mbind option_bind].
    by rewrite (drop_S _ _ _ Hk), (drop_S _ _ _ Hb). }
  all: rewrite (drop_S _ _ _ Hk), drop_ge by lia; done.
Qed.

Lemma merge_heap_ok : merge_heap v text start (start + n) = Some (bpe_reference rk n).
Proof.
  unfold merge_heap. replace (start + n - start)%nat with n by lia. destruct Hn as [Hn1 _]. destruct (Nat.eqb_spec n 0); [lia|].
  destruct (heap_init_ok 0 (n - 1)) as (heap & -> & Hlen & Hmem); [lia|]. cbn [mbind option_bind].
  destruct (heap_loop_ok (4 * n) n _ _ division_initial (heap_init_state heap Hmem)) as (s & -> & Hok & Hd).
  - cbn [sc_heap]. rewrite length_seq. lia.
  - rewrite length_seq. lia.
  - cbn [mbind option_bind]. rewrite (heap_output_ok n _ s O O Hd Hok (dv_first _ Hd)) by lia. done.
Qed.
End Correct.

(** ** Every part is a token *)
Section Parts.
Context (rk : nat -> nat -> Z).

(** Every part of the division has a rank. *)
Fixpoint all_ranked (bs : list nat) : Prop :=
  match bs with
  | a :: ((b :: _) as rest) => rk a b <> NO_RANK /\ all_ranked rest
  | _ => True
  end.

Lemma all_ranked_delete k a c bs :
  bs !! k = Some a -> bs !! S (S k) = Some c -> rk a c <> NO_RANK -> all_ranked bs -> all_ranked (delete (S k) bs).
Proof.
  revert bs. induction k as [|k IH]; intros [|x [|y bs]] Ha Hc Hne Hr; try done.
  - destruct bs as [|z bs]; [done|]. cbn in *. simplify_eq. tauto.
  - specialize (IH (y :: bs) Ha Hc Hne). destruct Hr as [H1 H2]. specialize (IH H2). destruct bs as [|z bs]; [done|].
    cbn [delete list_delete] in *. by split.
Qed.

Lemma all_ranked_merge m bs : all_ranked bs -> all_ranked (merge_all rk m bs).
Proof.
  revert bs. induction m as [|m IH]; intros bs Hr; cbn [merge_all]; [done|].
  destruct (lowest (pair_ranks rk bs)) as [k|] eqn:Hl; [|done]. apply lowest_Some_1 in Hl as (r & Hk & Hfin & _).
  rewrite pair_ranks_lookup in Hk. destruct (bs !! k) as [a|] eqn:Ha; [|done]. destruct (bs !! S (S k)) as [c|] eqn:Hc; [|done].
  injection Hk as <-. apply IH. eapply all_ranked_delete; [done|done|lia|done].
Qed.

Lemma all_ranked_seq i m : (forall a, (i <= a < i + m)%nat -> rk a (S a) <> NO_RANK) -> all_ranked (seq i (S m)).
Proof.
  revert i. induction m as [|m IH]; intros i H; [done|]. split; [apply H; lia|]. apply IH. intros a Ha. apply H. lia.
Qed.
End Parts.

(** ** Pieces of a text under a token list *)
Section Piece.
Context (m : gmap (list Z) Z) (text : list Z) (start : nat).

(** The rank of bytes [a] to [b] of the piece. *)
Definition token_rank (a b : nat) : Z := default NO_RANK (m !! slice (start + a) (b - a) text).

Fixpoint spans (bs : list nat) : list (list Z) :=
  match bs with
  | a :: ((b :: _) as rest) => slice (start + a) (b - a) text :: spans rest
  | _ => []
  end.

Lemma spans_concat a bs b :
  (forall i x y, (a :: bs) !! i = Some x -> (a :: bs) !! S i = Some y -> (x < y)%nat) -> list.last (a :: bs) = Some b ->
  (a <= b)%nat /\ concat (spans (a :: bs)) = slice (start + a) (b - a) text.
Proof.
  revert a. induction bs as [|c bs IH]; intros a Hord Hlast.
  - cbn in Hlast. simplify_eq. split; [done|]. rewrite Nat.sub_diag. done.
  - pose proof (Hord O a c eq_refl eq_refl) as Hac. destruct (IH c) as [Hcb Hcat]; [intros i; apply (Hord (S i))|done|].
    split; [lia|]. change (concat (spans (a :: c :: bs))) with (slice (start + a) (c - a) text ++ concat (spans (c :: bs))).
    rewrite Hcat. replace (b - a)%nat with ((c - a) + (b - c))%nat by lia. rewrite slice_app. do 2 f_equal. lia.
Qed.

Lemma spans_tokens bs : all_ranked token_rank bs -> Forall2 (fun t id => m !! t = Some id) (spans bs) (part_ranks token_rank bs).
Proof.
  induction bs as [|a [|b bs] IH]; intros Hr; try constructor.
  - destruct Hr as [Hr _]. unfold token_rank in *. destruct (m !! _); [done|]. by destruct Hr.
  - apply IH, Hr.
Qed.

Context (n : nat).
Hypothesis Hn : (1 <= n)%nat /\ Z.of_nat n < u32_MAX.

Lemma division_merge f bs : division n bs -> division n (merge_all token_rank f bs).
Proof.
  revert bs. induction f as [|f IH]; intros bs Hd; cbn [merge_all]; [done|].
  destruct (lowest _) as [k|] eqn:Hl; [|done]. apply IH, division_delete; try done. by eapply lowest_bound.
Qed.

Lemma reference_parts :
  (forall a, (a < n)%nat -> token_rank a (S a) <> NO_RANK) ->
  exists parts, Forall2 (fun t id => m !! t = Some id) parts (bpe_reference token_rank n) /\ concat parts = slice start n text.
Proof.
  intros Hbytes. unfold bpe_reference. set (bs := merge_all token_rank n (seq 0 (S n))).
  assert (division n bs) as Hd by (apply division_merge, division_initial; done).
  exists (spans bs). split.
  - apply spans_tokens, all_ranked_merge, all_ranked_seq. intros a Ha. apply Hbytes. lia.
  - pose proof (dv_first _ _ Hd) as H0. pose proof (dv_last _ _ Hd) as Hlast. pose proof (dv_order _ _ Hd) as Hord.
    destruct bs as [|a bs']; [done|]. injection H0 as ->. destruct (spans_concat 0 bs' n) as [_ ->]; [|done|].
    + intros i x y Hx Hy. eapply Hord; [done|done|lia].
    + by rewrite Nat.add_0_r, Nat.sub_0_r.
Qed.

Context (v : Vocab).
Hypothesis Hv : vocab_ok v m.
Hypothesis Hranks : forall t r, m !! t = Some r -> 0 <= r < DEAD.
Hypothesis Hu : Forall is_u8 text.
Hypothesis Hlen : (start + n <= length text)%nat.

Lemma token_rank_finite a b : token_rank a b = NO_RANK \/ 0 <= token_rank a b < DEAD.
Proof. unfold token_rank. destruct (m !! _) eqn:H; [right; by eapply Hranks|by left]. Qed.

Lemma token_rank_of a b : (a < b <= n)%nat -> rank_of v text (start + a) (start + b) = Some (token_rank a b).
Proof.
  intros Hab. rewrite (rank_of_lookup _ _ _ _ _ Hv) by (done || lia). unfold token_rank. do 4 f_equal. lia.
Qed.

Lemma token_initial i : (i + 1 < n)%nat -> initial_rank v text start i = Some (token_rank i (i + 2)).
Proof.
  intros Hi. rewrite <- token_rank_of by lia. unfold rank_of, initial_rank.
  destruct (Nat.ltb_spec (start + (i + 2)) (start + i)); [lia|]. by replace (start + (i + 2) - (start + i))%nat with 2%nat by lia.
Qed.

Lemma engines_ok :
  merge_scan v text start (start + n) = Some (bpe_reference token_rank n) /\
  merge_heap v text start (start + n) = Some (bpe_reference token_rank n).
Proof.
  split; [apply merge_scan_ok|apply merge_heap_ok]; auto using token_rank_of, token_initial, token_rank_finite.
Qed.
End Piece.

(** ** The piece encoder *)

(** A token list whose vocabulary the encoder runs on: no rank is one of the two sentinels. *)
Definition mergeable (tokens : list (list Z * Z)) : Prop := tokens_ok tokens /\ Forall (fun t => t.2 < DEAD) tokens.

Definition piece_of (text : list Z) (start last : nat) : Prop :=
  Forall is_u8 text /\ (start < last <= length text)%nat /\ Z.of_nat (last - start) < u32_MAX.

Section Tokens.
Context (tokens : list (list Z * Z)).
Hypothesis Htokens : mergeable tokens.

Lemma token_map_rank t r : (list_to_map tokens : gmap (list Z) Z) !! t = Some r -> (t, r) ∈ tokens /\ 0 <= r < DEAD.
Proof.
  intros H%elem_of_list_to_map_2. split; [done|]. destruct Htokens as [[Heach _ _ _] Hlt].
  rewrite list.Forall_forall in Heach, Hlt. specialize (Hlt _ H). destruct (Heach _ H) as (_ & _ & _ & Hr). cbn in *. mlia.
Qed.

Lemma token_bytes text start n a :
  Forall is_u8 text -> (start + n <= length text)%nat -> (a < n)%nat ->
  token_rank (list_to_map tokens) text start a (S a) <> NO_RANK.
Proof.
  intros Hu Hlen Ha. destruct (lookup_lt_is_Some_2 text (start + a)) as [x Hx]; [lia|].
  unfold token_rank. replace (S a - a)%nat with 1%nat by lia. rewrite (slice_lookup_1 _ _ _ Hx).
  destruct Htokens as [[_ Hnd _ Hbytes] _]. destruct (Hbytes x) as (r & Hr & Hne); [by eapply Forall_lookup_1|].
  by rewrite (elem_of_list_to_map_1 _ _ _ Hnd Hr).
Qed.

(** A piece that is no token has two bytes. *)
Lemma unlisted_piece text start last :
  Forall is_u8 text -> (start < last <= length text)%nat ->
  (list_to_map tokens : gmap (list Z) Z) !! slice start (last - start) text = None ->
  exists x y, slice start (last - start) text !! O = Some x /\ slice start (last - start) text !! 1%nat = Some y.
Proof.
  intros Hu Hrange Hnone. destruct (decide (last - start = 1)%nat) as [Hone|Hne].
  - destruct (token_bytes text start 1 0); [done|lia|lia|]. unfold token_rank. replace (start + 0)%nat with start by lia.
    replace (1 - 0)%nat with (last - start)%nat by lia. by rewrite Hnone.
  - pose proof (length_slice start (last - start) text ltac:(lia)).
    destruct (lookup_lt_is_Some_2 (slice start (last - start) text) 0) as [x Hx]; [lia|].
    destruct (lookup_lt_is_Some_2 (slice start (last - start) text) 1) as [y Hy]; [lia|]. by exists x, y.
Qed.
End Tokens.

(** C33: the two merge engines compute the reference. For every vocabulary read from the blob of a
    token list and every piece of every text, the rescanning engine and the linked-list engine with
    its heap of possibly stale keys both return (neither runs out of fuel nor indexes out of bounds)
    and give the ids of the division that merging the lowest-ranked adjacent pair, leftmost first,
    ends in. *)
Theorem merge_engines_agree tokens v text start last :
  mergeable tokens -> from_blob (blob_of tokens) = Some v -> piece_of text start last ->
  let reference := bpe_reference (token_rank (list_to_map tokens) text start) (last - start) in
  merge_scan v text start last = Some reference /\ merge_heap v text start last = Some reference.
Proof.
  intros Htok Hblob (Hu & Hrange & Hsize) reference.
  destruct (from_blob_ok tokens (proj1 Htok)) as (v' & Hv' & Hok). rewrite Hblob in Hv'. injection Hv' as <-.
  pose proof (engines_ok (list_to_map tokens) text start (last - start) ltac:(lia) v Hok) as He.
  replace (start + (last - start))%nat with last in He by lia. apply He; try done; try lia.
  intros t r Hr. by eapply token_map_rank.
Qed.

(** ** Encoding depends on the piece's bytes alone *)
Lemma bpe_reference_ext rk rk' n :
  (forall a b, (a <= n)%nat -> (b <= n)%nat -> rk a b = rk' a b) -> bpe_reference rk n = bpe_reference rk' n.
Proof.
  intros Heq. assert (forall bs, Forall (fun a => (a <= n)%nat) bs -> pair_ranks rk bs = pair_ranks rk' bs /\ part_ranks rk bs = part_ranks rk' bs) as Hext.
  { induction bs as [|a bs IH]; intros Hb; [done|]. apply Forall_cons_iff in Hb as [Ha Hb]. specialize (IH Hb) as [IH1 IH2].
    destruct bs as [|b bs]; [done|]. apply Forall_cons_iff in Hb as [Hb Hbs]. split.
    - destruct bs as [|c bs]; [done|]. apply Forall_cons_iff in Hbs as [Hc _].
      change (rk a c :: pair_ranks rk (b :: c :: bs) = rk' a c :: pair_ranks rk' (b :: c :: bs)). by rewrite IH1, Heq.
    - change (rk a b :: part_ranks rk (b :: bs) = rk' a b :: part_ranks rk' (b :: bs)). by rewrite IH2, Heq. }
  assert (forall m bs, Forall (fun a => (a <= n)%nat) bs ->
    merge_all rk m bs = merge_all rk' m bs /\ Forall (fun a => (a <= n)%nat) (merge_all rk m bs)) as Hmerge.
  { induction m as [|m IH]; intros bs Hb; cbn [merge_all]; [done|]. destruct (Hext bs Hb) as [<- _].
    destruct (lowest (pair_ranks rk bs)); [|done]. apply IH. by apply Forall_delete. }
  unfold bpe_reference. destruct (Hmerge n (seq 0 (S n))) as [<- Hb]; [apply Forall_seq; lia|]. by apply Hext.
Qed.

(** The ids of a piece. *)
Definition piece_ids (m : gmap (list Z) Z) (piece : list Z) : list Z :=
  match m !! piece with
  | Some id => [id]
  | None => bpe_reference (token_rank m piece 0) (length piece)
  end.

Lemma slice_slice {A} (l : list A) start n a k : (a + k <= n)%nat -> slice a k (slice start n l) = slice (start + a) k l.
Proof. intros H. unfold slice. rewrite skipn_firstn_comm, take_take, drop_drop, Nat.min_l by lia. done. Qed.

Lemma encode_piece_ids tokens v text start last :
  mergeable tokens -> from_blob (blob_of tokens) = Some v -> piece_of text start last ->
  encode_piece v text start last = Some (piece_ids (list_to_map tokens) (slice start (last - start) text)).
Proof.
  intros Htok Hblob (Hu & Hrange & Hsize). set (piece := slice start (last - start) text).
  destruct (from_blob_ok tokens (proj1 Htok)) as (v' & Hv' & Hok). rewrite Hblob in Hv'. injection Hv' as <-.
  unfold encode_piece, piece_ids. rewrite (rank_of_lookup _ _ _ _ _ Hok) by done. fold piece. cbn [mbind option_bind].
  destruct ((list_to_map tokens : gmap (list Z) Z) !! piece) as [whole|] eqn:Hid; cbn [default from_option Datatypes.id].
  - destruct (token_map_rank _ Htok _ _ Hid) as [Hin Hr]. destruct (Z.eqb_spec whole NO_RANK); [unfold DEAD, NO_RANK in *; lia|done].
  - rewrite Z.eqb_refl. cbn [negb]. rewrite get_range_Some by lia. fold piece. cbn [mbind option_bind].
    destruct (unlisted_piece _ Htok text start last Hu Hrange Hid) as (x & y & Hx & Hy). fold piece in Hx, Hy.
    rewrite Hx. cbn [mbind option_bind].
    destruct (engines_ok (list_to_map tokens) text start (last - start) ltac:(lia) v Hok) as [Hscan Hheap]; try done; try lia.
    { intros t r Hr. by eapply token_map_rank. }
    replace (start + (last - start))%nat with last in * by lia.
    assert (length piece = (last - start)%nat) as -> by (apply length_slice; lia).
    rewrite (bpe_reference_ext (token_rank (list_to_map tokens) piece 0) (token_rank (list_to_map tokens) text start)).
    + rewrite Hy. destruct (x =? 32); cbn [mbind option_bind]; by destruct (_ <=? _)%nat.
    + intros a b Ha Hb. unfold token_rank, piece. by rewrite slice_slice by lia.
Qed.

Lemma piece_ids_parts tokens piece :
  mergeable tokens -> Forall is_u8 piece -> piece <> [] -> Z.of_nat (length piece) < u32_MAX ->
  exists parts, Forall2 (fun t id => (t, id) ∈ tokens) parts (piece_ids (list_to_map tokens) piece) /\ concat parts = piece.
Proof.
  intros Htok Hu Hne Hsize. unfold piece_ids. destruct ((list_to_map tokens : gmap (list Z) Z) !! piece) as [whole|] eqn:Hid.
  - destruct (token_map_rank _ Htok _ _ Hid) as [Hin _]. exists [piece]. split; [by repeat constructor|]. apply app_nil_r.
  - assert (1 <= length piece)%nat by (destruct piece; [done|cbn; lia]).
    destruct (reference_parts (list_to_map tokens) piece 0 (length piece) ltac:(lia)) as (parts & Hparts & Hcat).
    { intros a Ha. by apply (token_bytes _ Htok _ _ (length piece)). }
    exists parts. split; [|rewrite Hcat; unfold slice; by rewrite drop_0, firstn_all].
    eapply Forall2_impl; [exact Hparts|]. intros t id Ht. by eapply token_map_rank.
Qed.

(** encoding a piece loses nothing. For every vocabulary read from a blob and every piece, the
    encoder returns; its ids are the whole piece's id when the piece is a token and the reference's
    otherwise, whichever engine the length threshold picks and wherever in the text the piece lies; and
    they are the ids of tokens of the vocabulary whose bytes, in order, are the piece. *)
Theorem encode_piece_exact tokens v text start last :
  mergeable tokens -> from_blob (blob_of tokens) = Some v -> piece_of text start last ->
  let piece := slice start (last - start) text in
  exists ids, encode_piece v text start last = Some ids /\
    ids = match (list_to_map tokens : gmap (list Z) Z) !! piece with
          | Some id => [id]
          | None => bpe_reference (token_rank (list_to_map tokens) piece 0) (length piece)
          end /\
    exists parts, Forall2 (fun t id => (t, id) ∈ tokens) parts ids /\ concat parts = piece.
Proof.
  intros Htok Hblob Hpiece piece. exists (piece_ids (list_to_map tokens) piece).
  split; [by apply encode_piece_ids|]. split; [done|]. destruct Hpiece as (Hu & Hrange & Hsize).
  assert (length piece = (last - start)%nat) as Hl by (apply length_slice; lia).
  apply piece_ids_parts; [done|by apply Forall_take, Forall_drop| |lia]. intros Hnil. rewrite Hnil in Hl. cbn in Hl. lia.
Qed.

Lemma sample_tokens_mergeable : mergeable sample_tokens.
Proof.
  split; [apply sample_tokens_ok|]. refine (bool_decide_unpack (Forall (fun t => t.2 < DEAD) sample_tokens) _). vm_compute. exact I.
Qed.

(** [cababcab], which divides into [cab], [abc] and [ab]. *)
Definition sample_text : list Z := [99; 97; 98; 97; 98; 99; 97; 98].

Lemma sample_piece : piece_of sample_text 0 8.
Proof.
  split; [refine (bool_decide_unpack (Forall is_u8 sample_text) _); vm_compute; exact I|]. split; [cbn; lia|]. vm_compute. reflexivity.
Qed.

Lemma merge_engines_agree_witness :
  exists v, from_blob (blob_of sample_tokens) = Some v /\ merge_scan v sample_text 0 8 = Some [258; 257; 256] /\
    merge_heap v sample_text 0 8 = Some [258; 257; 256].
Proof.
  destruct (from_blob_ok sample_tokens sample_tokens_ok) as (v & Hv & _). exists v. split; [exact Hv|].
  pose proof (merge_engines_agree sample_tokens v sample_text 0 8 sample_tokens_mergeable Hv sample_piece) as [-> ->].
  split; vm_compute; reflexivity.
Defined.

Lemma encode_piece_exact_witness :
  exists v, from_blob (blob_of sample_tokens) = Some v /\ encode_piece v sample_text 0 8 = Some [258; 257; 256].
Proof.
  destruct (from_blob_ok sample_tokens sample_tokens_ok) as (v & Hv & _). exists v. split; [exact Hv|].
  pose proof (encode_piece_exact sample_tokens v sample_text 0 8 sample_tokens_mergeable Hv sample_piece) as (ids & -> & -> & _).
  vm_compute. reflexivity.
Defined.
