(* ===== verification/Unicode.v ===== *)
(** * Unicode: character classes (crates/tokenizer/src/unicode_tables.rs, scan.rs).

    The two range tables, the lookup in them, and the packed table of the basic plane. Every scalar
    value has one of four classes; the theorems say that each lookup finds the class the ranges
    define. *)
From S2P Require Import Prelude.
#[local] Open Scope Z_scope.

(** ** The tables *)
Definition LETTER : list (Z * Z) := [
  (0x41, 0x5A); (0x61, 0x7A); (0xAA, 0xAA); (0xB5, 0xB5); (0xBA, 0xBA); (0xC0, 0xD6); (0xD8, 0xF6);
  (0xF8, 0x2C1); (0x2C6, 0x2D1); (0x2E0, 0x2E4); (0x2EC, 0x2EC); (0x2EE, 0x2EE); (0x370, 0x374);
  (0x376, 0x377); (0x37A, 0x37D); (0x37F, 0x37F); (0x386, 0x386); (0x388, 0x38A); (0x38C, 0x38C);
  (0x38E, 0x3A1); (0x3A3, 0x3F5); (0x3F7, 0x481); (0x48A, 0x52F); (0x531, 0x556); (0x559, 0x559);
  (0x560, 0x588); (0x5D0, 0x5EA); (0x5EF, 0x5F2); (0x620, 0x64A); (0x66E, 0x66F); (0x671, 0x6D3);
  (0x6D5, 0x6D5); (0x6E5, 0x6E6); (0x6EE, 0x6EF); (0x6FA, 0x6FC); (0x6FF, 0x6FF); (0x710, 0x710);
  (0x712, 0x72F); (0x74D, 0x7A5); (0x7B1, 0x7B1); (0x7CA, 0x7EA); (0x7F4, 0x7F5); (0x7FA, 0x7FA);
  (0x800, 0x815); (0x81A, 0x81A); (0x824, 0x824); (0x828, 0x828); (0x840, 0x858); (0x860, 0x86A);
  (0x870, 0x887); (0x889, 0x88E); (0x8A0, 0x8C9); (0x904, 0x939); (0x93D, 0x93D); (0x950, 0x950);
  (0x958, 0x961); (0x971, 0x980); (0x985, 0x98C); (0x98F, 0x990); (0x993, 0x9A8); (0x9AA, 0x9B0);
  (0x9B2, 0x9B2); (0x9B6, 0x9B9); (0x9BD, 0x9BD); (0x9CE, 0x9CE); (0x9DC, 0x9DD); (0x9DF, 0x9E1);
  (0x9F0, 0x9F1); (0x9FC, 0x9FC); (0xA05, 0xA0A); (0xA0F, 0xA10); (0xA13, 0xA28); (0xA2A, 0xA30);
  (0xA32, 0xA33); (0xA35, 0xA36); (0xA38, 0xA39); (0xA59, 0xA5C); (0xA5E, 0xA5E); (0xA72, 0xA74);
  (0xA85, 0xA8D); (0xA8F, 0xA91); (0xA93, 0xAA8); (0xAAA, 0xAB0); (0xAB2, 0xAB3); (0xAB5, 0xAB9);
  (0xABD, 0xABD); (0xAD0, 0xAD0); (0xAE0, 0xAE1); (0xAF9, 0xAF9); (0xB05, 0xB0C); (0xB0F, 0xB10);
  (0xB13, 0xB28); (0xB2A, 0xB30); (0xB32, 0xB33); (0xB35, 0xB39); (0xB3D, 0xB3D); (0xB5C, 0xB5D);
  (0xB5F, 0xB61); (0xB71, 0xB71); (0xB83, 0xB83); (0xB85, 0xB8A); (0xB8E, 0xB90); (0xB92, 0xB95);
  (0xB99, 0xB9A); (0xB9C, 0xB9C); (0xB9E, 0xB9F); (0xBA3, 0xBA4); (0xBA8, 0xBAA); (0xBAE, 0xBB9);
  (0xBD0, 0xBD0); (0xC05, 0xC0C); (0xC0E, 0xC10); (0xC12, 0xC28); (0xC2A, 0xC39); (0xC3D, 0xC3D);
  (0xC58, 0xC5A); (0xC5D, 0xC5D); (0xC60, 0xC61); (0xC80, 0xC80); (0xC85, 0xC8C); (0xC8E, 0xC90);
  (0xC92, 0xCA8); (0xCAA, 0xCB3); (0xCB5, 0xCB9); (0xCBD, 0xCBD); (0xCDD, 0xCDE); (0xCE0, 0xCE1);
  (0xCF1, 0xCF2); (0xD04, 0xD0C); (0xD0E, 0xD10); (0xD12, 0xD3A); (0xD3D, 0xD3D); (0xD4E, 0xD4E);
  (0xD54, 0xD56); (0xD5F, 0xD61); (0xD7A, 0xD7F); (0xD85, 0xD96); (0xD9A, 0xDB1); (0xDB3, 0xDBB);
  (0xDBD, 0xDBD); (0xDC0, 0xDC6); (0xE01, 0xE30); (0xE32, 0xE33); (0xE40, 0xE46); (0xE81, 0xE82);
  (0xE84, 0xE84); (0xE86, 0xE8A); (0xE8C, 0xEA3); (0xEA5, 0xEA5); (0xEA7, 0xEB0); (0xEB2, 0xEB3);
  (0xEBD, 0xEBD); (0xEC0, 0xEC4); (0xEC6, 0xEC6); (0xEDC, 0xEDF); (0xF00, 0xF00); (0xF40, 0xF47);
  (0xF49, 0xF6C); (0xF88, 0xF8C); (0x1000, 0x102A); (0x103F, 0x103F); (0x1050, 0x1055);
  (0x105A, 0x105D); (0x1061, 0x1061); (0x1065, 0x1066); (0x106E, 0x1070); (0x1075, 0x1081);
  (0x108E, 0x108E); (0x10A0, 0x10C5); (0x10C7, 0x10C7); (0x10CD, 0x10CD); (0x10D0, 0x10FA);
  (0x10FC, 0x1248); (0x124A, 0x124D); (0x1250, 0x1256); (0x1258, 0x1258); (0x125A, 0x125D);
  (0x1260, 0x1288); (0x128A, 0x128D); (0x1290, 0x12B0); (0x12B2, 0x12B5); (0x12B8, 0x12BE);
  (0x12C0, 0x12C0); (0x12C2, 0x12C5); (0x12C8, 0x12D6); (0x12D8, 0x1310); (0x1312, 0x1315);
  (0x1318, 0x135A); (0x1380, 0x138F); (0x13A0, 0x13F5); (0x13F8, 0x13FD); (0x1401, 0x166C);
  (0x166F, 0x167F); (0x1681, 0x169A); (0x16A0, 0x16EA); (0x16F1, 0x16F8); (0x1700, 0x1711);
  (0x171F, 0x1731); (0x1740, 0x1751); (0x1760, 0x176C); (0x176E, 0x1770); (0x1780, 0x17B3);
  (0x17D7, 0x17D7); (0x17DC, 0x17DC); (0x1820, 0x1878); (0x1880, 0x1884); (0x1887, 0x18A8);
  (0x18AA, 0x18AA); (0x18B0, 0x18F5); (0x1900, 0x191E); (0x1950, 0x196D); (0x1970, 0x1974);
  (0x1980, 0x19AB); (0x19B0, 0x19C9); (0x1A00, 0x1A16); (0x1A20, 0x1A54); (0x1AA7, 0x1AA7);
  (0x1B05, 0x1B33); (0x1B45, 0x1B4C); (0x1B83, 0x1BA0); (0x1BAE, 0x1BAF); (0x1BBA, 0x1BE5);
  (0x1C00, 0x1C23); (0x1C4D, 0x1C4F); (0x1C5A, 0x1C7D); (0x1C80, 0x1C8A); (0x1C90, 0x1CBA);
  (0x1CBD, 0x1CBF); (0x1CE9, 0x1CEC); (0x1CEE, 0x1CF3); (0x1CF5, 0x1CF6); (0x1CFA, 0x1CFA);
  (0x1D00, 0x1DBF); (0x1E00, 0x1F15); (0x1F18, 0x1F1D); (0x1F20, 0x1F45); (0x1F48, 0x1F4D);
  (0x1F50, 0x1F57); (0x1F59, 0x1F59); (0x1F5B, 0x1F5B); (0x1F5D, 0x1F5D); (0x1F5F, 0x1F7D);
  (0x1F80, 0x1FB4); (0x1FB6, 0x1FBC); (0x1FBE, 0x1FBE); (0x1FC2, 0x1FC4); (0x1FC6, 0x1FCC);
  (0x1FD0, 0x1FD3); (0x1FD6, 0x1FDB); (0x1FE0, 0x1FEC); (0x1FF2, 0x1FF4); (0x1FF6, 0x1FFC);
  (0x2071, 0x2071); (0x207F, 0x207F); (0x2090, 0x209C); (0x2102, 0x2102); (0x2107, 0x2107);
  (0x210A, 0x2113); (0x2115, 0x2115); (0x2119, 0x211D); (0x2124, 0x2124); (0x2126, 0x2126);
  (0x2128, 0x2128); (0x212A, 0x212D); (0x212F, 0x2139); (0x213C, 0x213F); (0x2145, 0x2149);
  (0x214E, 0x214E); (0x2183, 0x2184); (0x2C00, 0x2CE4); (0x2CEB, 0x2CEE); (0x2CF2, 0x2CF3);
  (0x2D00, 0x2D25); (0x2D27, 0x2D27); (0x2D2D, 0x2D2D); (0x2D30, 0x2D67); (0x2D6F, 0x2D6F);
  (0x2D80, 0x2D96); (0x2DA0, 0x2DA6); (0x2DA8, 0x2DAE); (0x2DB0, 0x2DB6); (0x2DB8, 0x2DBE);
  (0x2DC0, 0x2DC6); (0x2DC8, 0x2DCE); (0x2DD0, 0x2DD6); (0x2DD8, 0x2DDE); (0x2E2F, 0x2E2F);
  (0x3005, 0x3006); (0x3031, 0x3035); (0x303B, 0x303C); (0x3041, 0x3096); (0x309D, 0x309F);
  (0x30A1, 0x30FA); (0x30FC, 0x30FF); (0x3105, 0x312F); (0x3131, 0x318E); (0x31A0, 0x31BF);
  (0x31F0, 0x31FF); (0x3400, 0x4DBF); (0x4E00, 0xA48C); (0xA4D0, 0xA4FD); (0xA500, 0xA60C);
  (0xA610, 0xA61F); (0xA62A, 0xA62B); (0xA640, 0xA66E); (0xA67F, 0xA69D); (0xA6A0, 0xA6E5);
  (0xA717, 0xA71F); (0xA722, 0xA788); (0xA78B, 0xA7CD); (0xA7D0, 0xA7D1); (0xA7D3, 0xA7D3);
  (0xA7D5, 0xA7DC); (0xA7F2, 0xA801); (0xA803, 0xA805); (0xA807, 0xA80A); (0xA80C, 0xA822);
  (0xA840, 0xA873); (0xA882, 0xA8B3); (0xA8F2, 0xA8F7); (0xA8FB, 0xA8FB); (0xA8FD, 0xA8FE);
  (0xA90A, 0xA925); (0xA930, 0xA946); (0xA960, 0xA97C); (0xA984, 0xA9B2); (0xA9CF, 0xA9CF);
  (0xA9E0, 0xA9E4); (0xA9E6, 0xA9EF); (0xA9FA, 0xA9FE); (0xAA00, 0xAA28); (0xAA40, 0xAA42);
  (0xAA44, 0xAA4B); (0xAA60, 0xAA76); (0xAA7A, 0xAA7A); (0xAA7E, 0xAAAF); (0xAAB1, 0xAAB1);
  (0xAAB5, 0xAAB6); (0xAAB9, 0xAABD); (0xAAC0, 0xAAC0); (0xAAC2, 0xAAC2); (0xAADB, 0xAADD);
  (0xAAE0, 0xAAEA); (0xAAF2, 0xAAF4); (0xAB01, 0xAB06); (0xAB09, 0xAB0E); (0xAB11, 0xAB16);
  (0xAB20, 0xAB26); (0xAB28, 0xAB2E); (0xAB30, 0xAB5A); (0xAB5C, 0xAB69); (0xAB70, 0xABE2);
  (0xAC00, 0xD7A3); (0xD7B0, 0xD7C6); (0xD7CB, 0xD7FB); (0xF900, 0xFA6D); (0xFA70, 0xFAD9);
  (0xFB00, 0xFB06); (0xFB13, 0xFB17); (0xFB1D, 0xFB1D); (0xFB1F, 0xFB28); (0xFB2A, 0xFB36);
  (0xFB38, 0xFB3C); (0xFB3E, 0xFB3E); (0xFB40, 0xFB41); (0xFB43, 0xFB44); (0xFB46, 0xFBB1);
  (0xFBD3, 0xFD3D); (0xFD50, 0xFD8F); (0xFD92, 0xFDC7); (0xFDF0, 0xFDFB); (0xFE70, 0xFE74);
  (0xFE76, 0xFEFC); (0xFF21, 0xFF3A); (0xFF41, 0xFF5A); (0xFF66, 0xFFBE); (0xFFC2, 0xFFC7);
  (0xFFCA, 0xFFCF); (0xFFD2, 0xFFD7); (0xFFDA, 0xFFDC); (0x10000, 0x1000B); (0x1000D, 0x10026);
  (0x10028, 0x1003A); (0x1003C, 0x1003D); (0x1003F, 0x1004D); (0x10050, 0x1005D);
  (0x10080, 0x100FA); (0x10280, 0x1029C); (0x102A0, 0x102D0); (0x10300, 0x1031F);
  (0x1032D, 0x10340); (0x10342, 0x10349); (0x10350, 0x10375); (0x10380, 0x1039D);
  (0x103A0, 0x103C3); (0x103C8, 0x103CF); (0x10400, 0x1049D); (0x104B0, 0x104D3);
  (0x104D8, 0x104FB); (0x10500, 0x10527); (0x10530, 0x10563); (0x10570, 0x1057A);
  (0x1057C, 0x1058A); (0x1058C, 0x10592); (0x10594, 0x10595); (0x10597, 0x105A1);
  (0x105A3, 0x105B1); (0x105B3, 0x105B9); (0x105BB, 0x105BC); (0x105C0, 0x105F3);
  (0x10600, 0x10736); (0x10740, 0x10755); (0x10760, 0x10767); (0x10780, 0x10785);
  (0x10787, 0x107B0); (0x107B2, 0x107BA); (0x10800, 0x10805); (0x10808, 0x10808);
  (0x1080A, 0x10835); (0x10837, 0x10838); (0x1083C, 0x1083C); (0x1083F, 0x10855);
  (0x10860, 0x10876); (0x10880, 0x1089E); (0x108E0, 0x108F2); (0x108F4, 0x108F5);
  (0x10900, 0x10915); (0x10920, 0x10939); (0x10980, 0x109B7); (0x109BE, 0x109BF);
  (0x10A00, 0x10A00); (0x10A10, 0x10A13); (0x10A15, 0x10A17); (0x10A19, 0x10A35);
  (0x10A60, 0x10A7C); (0x10A80, 0x10A9C); (0x10AC0, 0x10AC7); (0x10AC9, 0x10AE4);
  (0x10B00, 0x10B35); (0x10B40, 0x10B55); (0x10B60, 0x10B72); (0x10B80, 0x10B91);
  (0x10C00, 0x10C48); (0x10C80, 0x10CB2); (0x10CC0, 0x10CF2); (0x10D00, 0x10D23);
  (0x10D4A, 0x10D65); (0x10D6F, 0x10D85); (0x10E80, 0x10EA9); (0x10EB0, 0x10EB1);
  (0x10EC2, 0x10EC4); (0x10F00, 0x10F1C); (0x10F27, 0x10F27); (0x10F30, 0x10F45);
  (0x10F70, 0x10F81); (0x10FB0, 0x10FC4); (0x10FE0, 0x10FF6); (0x11003, 0x11037);
  (0x11071, 0x11072); (0x11075, 0x11075); (0x11083, 0x110AF); (0x110D0, 0x110E8);
  (0x11103, 0x11126); (0x11144, 0x11144); (0x11147, 0x11147); (0x11150, 0x11172);
  (0x11176, 0x11176); (0x11183, 0x111B2); (0x111C1, 0x111C4); (0x111DA, 0x111DA);
  (0x111DC, 0x111DC); (0x11200, 0x11211); (0x11213, 0x1122B); (0x1123F, 0x11240);
  (0x11280, 0x11286); (0x11288, 0x11288); (0x1128A, 0x1128D); (0x1128F, 0x1129D);
  (0x1129F, 0x112A8); (0x112B0, 0x112DE); (0x11305, 0x1130C); (0x1130F, 0x11310);
  (0x11313, 0x11328); (0x1132A, 0x11330); (0x11332, 0x11333); (0x11335, 0x11339);
  (0x1133D, 0x1133D); (0x11350, 0x11350); (0x1135D, 0x11361); (0x11380, 0x11389);
  (0x1138B, 0x1138B); (0x1138E, 0x1138E); (0x11390, 0x113B5); (0x113B7, 0x113B7);
  (0x113D1, 0x113D1); (0x113D3, 0x113D3); (0x11400, 0x11434); (0x11447, 0x1144A);
  (0x1145F, 0x11461); (0x11480, 0x114AF); (0x114C4, 0x114C5); (0x114C7, 0x114C7);
  (0x11580, 0x115AE); (0x115D8, 0x115DB); (0x11600, 0x1162F); (0x11644, 0x11644);
  (0x11680, 0x116AA); (0x116B8, 0x116B8); (0x11700, 0x1171A); (0x11740, 0x11746);
  (0x11800, 0x1182B); (0x118A0, 0x118DF); (0x118FF, 0x11906); (0x11909, 0x11909);
  (0x1190C, 0x11913); (0x11915, 0x11916); (0x11918, 0x1192F); (0x1193F, 0x1193F);
  (0x11941, 0x11941); (0x119A0, 0x119A7); (0x119AA, 0x119D0); (0x119E1, 0x119E1);
  (0x119E3, 0x119E3); (0x11A00, 0x11A00); (0x11A0B, 0x11A32); (0x11A3A, 0x11A3A);
  (0x11A50, 0x11A50); (0x11A5C, 0x11A89); (0x11A9D, 0x11A9D); (0x11AB0, 0x11AF8);
  (0x11BC0, 0x11BE0); (0x11C00, 0x11C08); (0x11C0A, 0x11C2E); (0x11C40, 0x11C40);
  (0x11C72, 0x11C8F); (0x11D00, 0x11D06); (0x11D08, 0x11D09); (0x11D0B, 0x11D30);
  (0x11D46, 0x11D46); (0x11D60, 0x11D65); (0x11D67, 0x11D68); (0x11D6A, 0x11D89);
  (0x11D98, 0x11D98); (0x11EE0, 0x11EF2); (0x11F02, 0x11F02); (0x11F04, 0x11F10);
  (0x11F12, 0x11F33); (0x11FB0, 0x11FB0); (0x12000, 0x12399); (0x12480, 0x12543);
  (0x12F90, 0x12FF0); (0x13000, 0x1342F); (0x13441, 0x13446); (0x13460, 0x143FA);
  (0x14400, 0x14646); (0x16100, 0x1611D); (0x16800, 0x16A38); (0x16A40, 0x16A5E);
  (0x16A70, 0x16ABE); (0x16AD0, 0x16AED); (0x16B00, 0x16B2F); (0x16B40, 0x16B43);
  (0x16B63, 0x16B77); (0x16B7D, 0x16B8F); (0x16D40, 0x16D6C); (0x16E40, 0x16E7F);
  (0x16F00, 0x16F4A); (0x16F50, 0x16F50); (0x16F93, 0x16F9F); (0x16FE0, 0x16FE1);
  (0x16FE3, 0x16FE3); (0x17000, 0x187F7); (0x18800, 0x18CD5); (0x18CFF, 0x18D08);
  (0x1AFF0, 0x1AFF3); (0x1AFF5, 0x1AFFB); (0x1AFFD, 0x1AFFE); (0x1B000, 0x1B122);
  (0x1B132, 0x1B132); (0x1B150, 0x1B152); (0x1B155, 0x1B155); (0x1B164, 0x1B167);
  (0x1B170, 0x1B2FB); (0x1BC00, 0x1BC6A); (0x1BC70, 0x1BC7C); (0x1BC80, 0x1BC88);
  (0x1BC90, 0x1BC99); (0x1D400, 0x1D454); (0x1D456, 0x1D49C); (0x1D49E, 0x1D49F);
  (0x1D4A2, 0x1D4A2); (0x1D4A5, 0x1D4A6); (0x1D4A9, 0x1D4AC); (0x1D4AE, 0x1D4B9);
  (0x1D4BB, 0x1D4BB); (0x1D4BD, 0x1D4C3); (0x1D4C5, 0x1D505); (0x1D507, 0x1D50A);
  (0x1D50D, 0x1D514); (0x1D516, 0x1D51C); (0x1D51E, 0x1D539); (0x1D53B, 0x1D53E);
  (0x1D540, 0x1D544); (0x1D546, 0x1D546); (0x1D54A, 0x1D550); (0x1D552, 0x1D6A5);
  (0x1D6A8, 0x1D6C0); (0x1D6C2, 0x1D6DA); (0x1D6DC, 0x1D6FA); (0x1D6FC, 0x1D714);
  (0x1D716, 0x1D734); (0x1D736, 0x1D74E); (0x1D750, 0x1D76E); (0x1D770, 0x1D788);
  (0x1D78A, 0x1D7A8); (0x1D7AA, 0x1D7C2); (0x1D7C4, 0x1D7CB); (0x1DF00, 0x1DF1E);
  (0x1DF25, 0x1DF2A); (0x1E030, 0x1E06D); (0x1E100, 0x1E12C); (0x1E137, 0x1E13D);
  (0x1E14E, 0x1E14E); (0x1E290, 0x1E2AD); (0x1E2C0, 0x1E2EB); (0x1E4D0, 0x1E4EB);
  (0x1E5D0, 0x1E5ED); (0x1E5F0, 0x1E5F0); (0x1E7E0, 0x1E7E6); (0x1E7E8, 0x1E7EB);
  (0x1E7ED, 0x1E7EE); (0x1E7F0, 0x1E7FE); (0x1E800, 0x1E8C4); (0x1E900, 0x1E943);
  (0x1E94B, 0x1E94B); (0x1EE00, 0x1EE03); (0x1EE05, 0x1EE1F); (0x1EE21, 0x1EE22);
  (0x1EE24, 0x1EE24); (0x1EE27, 0x1EE27); (0x1EE29, 0x1EE32); (0x1EE34, 0x1EE37);
  (0x1EE39, 0x1EE39); (0x1EE3B, 0x1EE3B); (0x1EE42, 0x1EE42); (0x1EE47, 0x1EE47);
  (0x1EE49, 0x1EE49); (0x1EE4B, 0x1EE4B); (0x1EE4D, 0x1EE4F); (0x1EE51, 0x1EE52);
  (0x1EE54, 0x1EE54); (0x1EE57, 0x1EE57); (0x1EE59, 0x1EE59); (0x1EE5B, 0x1EE5B);
  (0x1EE5D, 0x1EE5D); (0x1EE5F, 0x1EE5F); (0x1EE61, 0x1EE62); (0x1EE64, 0x1EE64);
  (0x1EE67, 0x1EE6A); (0x1EE6C, 0x1EE72); (0x1EE74, 0x1EE77); (0x1EE79, 0x1EE7C);
  (0x1EE7E, 0x1EE7E); (0x1EE80, 0x1EE89); (0x1EE8B, 0x1EE9B); (0x1EEA1, 0x1EEA3);
  (0x1EEA5, 0x1EEA9); (0x1EEAB, 0x1EEBB); (0x20000, 0x2A6DF); (0x2A700, 0x2B739);
  (0x2B740, 0x2B81D); (0x2B820, 0x2CEA1); (0x2CEB0, 0x2EBE0); (0x2EBF0, 0x2EE5D);
  (0x2F800, 0x2FA1D); (0x30000, 0x3134A); (0x31350, 0x323AF)
].

Definition NUMBER : list (Z * Z) := [
  (0x30, 0x39); (0xB2, 0xB3); (0xB9, 0xB9); (0xBC, 0xBE); (0x660, 0x669); (0x6F0, 0x6F9);
  (0x7C0, 0x7C9); (0x966, 0x96F); (0x9E6, 0x9EF); (0x9F4, 0x9F9); (0xA66, 0xA6F); (0xAE6, 0xAEF);
  (0xB66, 0xB6F); (0xB72, 0xB77); (0xBE6, 0xBF2); (0xC66, 0xC6F); (0xC78, 0xC7E); (0xCE6, 0xCEF);
  (0xD58, 0xD5E); (0xD66, 0xD78); (0xDE6, 0xDEF); (0xE50, 0xE59); (0xED0, 0xED9); (0xF20, 0xF33);
  (0x1040, 0x1049); (0x1090, 0x1099); (0x1369, 0x137C); (0x16EE, 0x16F0); (0x17E0, 0x17E9);
  (0x17F0, 0x17F9); (0x1810, 0x1819); (0x1946, 0x194F); (0x19D0, 0x19DA); (0x1A80, 0x1A89);
  (0x1A90, 0x1A99); (0x1B50, 0x1B59); (0x1BB0, 0x1BB9); (0x1C40, 0x1C49); (0x1C50, 0x1C59);
  (0x2070, 0x2070); (0x2074, 0x2079); (0x2080, 0x2089); (0x2150, 0x2182); (0x2185, 0x2189);
  (0x2460, 0x249B); (0x24EA, 0x24FF); (0x2776, 0x2793); (0x2CFD, 0x2CFD); (0x3007, 0x3007);
  (0x3021, 0x3029); (0x3038, 0x303A); (0x3192, 0x3195); (0x3220, 0x3229); (0x3248, 0x324F);
  (0x3251, 0x325F); (0x3280, 0x3289); (0x32B1, 0x32BF); (0xA620, 0xA629); (0xA6E6, 0xA6EF);
  (0xA830, 0xA835); (0xA8D0, 0xA8D9); (0xA900, 0xA909); (0xA9D0, 0xA9D9); (0xA9F0, 0xA9F9);
  (0xAA50, 0xAA59); (0xABF0, 0xABF9); (0xFF10, 0xFF19); (0x10107, 0x10133); (0x10140, 0x10178);
  (0x1018A, 0x1018B); (0x102E1, 0x102FB); (0x10320, 0x10323); (0x10341, 0x10341);
  (0x1034A, 0x1034A); (0x103D1, 0x103D5); (0x104A0, 0x104A9); (0x10858, 0x1085F);
  (0x10879, 0x1087F); (0x108A7, 0x108AF); (0x108FB, 0x108FF); (0x10916, 0x1091B);
  (0x109BC, 0x109BD); (0x109C0, 0x109CF); (0x109D2, 0x109FF); (0x10A40, 0x10A48);
  (0x10A7D, 0x10A7E); (0x10A9D, 0x10A9F); (0x10AEB, 0x10AEF); (0x10B58, 0x10B5F);
  (0x10B78, 0x10B7F); (0x10BA9, 0x10BAF); (0x10CFA, 0x10CFF); (0x10D30, 0x10D39);
  (0x10D40, 0x10D49); (0x10E60, 0x10E7E); (0x10F1D, 0x10F26); (0x10F51, 0x10F54);
  (0x10FC5, 0x10FCB); (0x11052, 0x1106F); (0x110F0, 0x110F9); (0x11136, 0x1113F);
  (0x111D0, 0x111D9); (0x111E1, 0x111F4); (0x112F0, 0x112F9); (0x11450, 0x11459);
  (0x114D0, 0x114D9); (0x11650, 0x11659); (0x116C0, 0x116C9); (0x116D0, 0x116E3);
  (0x11730, 0x1173B); (0x118E0, 0x118F2); (0x11950, 0x11959); (0x11BF0, 0x11BF9);
  (0x11C50, 0x11C6C); (0x11D50, 0x11D59); (0x11DA0, 0x11DA9); (0x11F50, 0x11F59);
  (0x11FC0, 0x11FD4); (0x12400, 0x1246E); (0x16130, 0x16139); (0x16A60, 0x16A69);
  (0x16AC0, 0x16AC9); (0x16B50, 0x16B59); (0x16B5B, 0x16B61); (0x16D70, 0x16D79);
  (0x16E80, 0x16E96); (0x1CCF0, 0x1CCF9); (0x1D2C0, 0x1D2D3); (0x1D2E0, 0x1D2F3);
  (0x1D360, 0x1D378); (0x1D7CE, 0x1D7FF); (0x1E140, 0x1E149); (0x1E2F0, 0x1E2F9);
  (0x1E4F0, 0x1E4F9); (0x1E5F1, 0x1E5FA); (0x1E8C7, 0x1E8CF); (0x1E950, 0x1E959);
  (0x1EC71, 0x1ECAB); (0x1ECAD, 0x1ECAF); (0x1ECB1, 0x1ECB4); (0x1ED01, 0x1ED2D);
  (0x1ED2F, 0x1ED3D); (0x1F100, 0x1F10C); (0x1FBF0, 0x1FBF9)
].

(** ** Classes *)
Inductive Class := Letter | Number | Space | Other.

#[global] Instance Class_eq_dec : EqDecision Class.
Proof. solve_decision. Defined.

(** The stored discriminants. *)
Definition class_code (c : Class) : Z :=
  match c with Letter => 0 | Number => 1 | Space => 2 | Other => 3 end.

Definition is_ascii_alphabetic (b : Z) : bool := ((65 <=? b) && (b <=? 90)) || ((97 <=? b) && (b <=? 122)).
Definition is_ascii_digit (b : Z) : bool := (48 <=? b) && (b <=? 57).

Definition ascii_class (b : Z) : Class :=
  if is_ascii_alphabetic b then Letter
  else if is_ascii_digit b then Number
  else if (b =? 9) || (b =? 10) || (b =? 11) || (b =? 12) || (b =? 13) || (b =? 32) then Space
  else Other.

Definition ASCII_CLASS : list Class := ascii_class <$> seqZ 0 128.

(** The search narrows [lo, hi); [hi - lo] steps are enough. *)
Fixpoint in_ranges_loop (fuel : nat) (table : list (Z * Z)) (c : Z) (lo hi : nat) : option bool :=
  if (lo <? hi)%nat then
    match fuel with
    | O => None
    | S fuel =>
        let mid := (lo + (hi - lo) / 2)%nat in
        r ← table !! mid;
        let '(a, b) := r in
        if c <? a then in_ranges_loop fuel table c lo mid
        else if b <? c then in_ranges_loop fuel table c (mid + 1) hi
        else Some true
    end
  else Some false.

Definition in_ranges (table : list (Z * Z)) (c : Z) : option bool :=
  in_ranges_loop (length table) table c 0 (length table).

Definition is_space_scalar (c : Z) : bool :=
  (c =? 0xA0) || (c =? 0x1680) || ((0x2000 <=? c) && (c <=? 0x200A)) || (c =? 0x2028) || (c =? 0x2029)
  || (c =? 0x202F) || (c =? 0x205F) || (c =? 0x3000) || (c =? 0xFEFF).

Definition class_from_tables (c : Z) : option Class :=
  if c <? 0x80 then ASCII_CLASS !! Z.to_nat c
  else if is_space_scalar c then Some Space
  else
    letter ← in_ranges LETTER c;
    if letter : bool then Some Letter
    else
      number ← in_ranges NUMBER c;
      Some (if number : bool then Number else Other).

(** One code point of the packed table: [t[c >> 2] |= class << ((c & 3) * 2)]. *)
Definition bmp_set (t : list Z) (c : Z) : option (list Z) :=
  old ← t !! Z.to_nat (Z.shiftr c 2);
  class ← class_from_tables c;
  Some (<[Z.to_nat (Z.shiftr c 2) := Z.lor old (Z.shiftl (class_code class) (Z.land c 3 * 2))]> t).

Fixpoint bmp_fill (n : nat) (c : Z) (t : list Z) : option (list Z) :=
  match n with
  | O => Some t
  | S n => t ← bmp_set t c; bmp_fill n (c + 1) t
  end.

(** A function, so that it is only computed where it is read. *)
Definition BMP_CLASS (_ : unit) : option (list Z) := bmp_fill (Z.to_nat 0x10000) 0 (replicate (Z.to_nat 0x4000) 0).

Definition class_of_scalar (c : Z) : option Class :=
  if c <? 0x80 then ASCII_CLASS !! Z.to_nat c
  else if c <? 0x10000 then
    t ← BMP_CLASS tt;
    b ← t !! Z.to_nat (Z.shiftr c 2);
    let v := Z.land (Z.shiftr b (Z.land c 3 * 2)) 3 in
    Some (if v =? 0 then Letter else if v =? 1 then Number else if v =? 2 then Space else Other)
  else class_from_tables c.

(** Whether [c] is in the pre-tokenizer's whitespace class. *)
Definition is_whitespace (c : Z) : option bool :=
  class ← class_of_scalar c; Some (bool_decide (class = Space)).

(** ** The ranges define the classes *)
Definition in_range (c : Z) (r : Z * Z) : bool := (r.1 <=? c) && (c <=? r.2).
Definition is_letter (c : Z) : bool := existsb (in_range c) LETTER.
Definition is_number (c : Z) : bool := existsb (in_range c) NUMBER.
Definition is_space (c : Z) : bool :=
  ((9 <=? c) && (c <=? 13)) || (c =? 32) || is_space_scalar c.

(** The class of a scalar value by the definition of the four sets. *)
Definition scalar_class (c : Z) : Class :=
  if is_space c then Space else if is_letter c then Letter else if is_number c then Number else Other.

(** Ranges in increasing order, each nonempty and after the one before it. *)
Fixpoint ranges_sorted (prev : Z) (table : list (Z * Z)) : bool :=
  match table with
  | [] => true
  | (a, b) :: table => (prev <? a) && (a <=? b) && ranges_sorted b table
  end.

Lemma ranges_sorted_lookup table prev i r :
  ranges_sorted prev table = true -> table !! i = Some r -> prev < r.1 <= r.2.
Proof.
  revert prev i. induction table as [|[a b] table IH]; intros prev i Hs Hi; [done|]. cbn [ranges_sorted] in Hs.
  apply andb_true_iff in Hs as [Hab Hs]. destruct i as [|i]; cbn in Hi; [simplify_eq; cbn; lia|].
  pose proof (IH b i Hs Hi). lia.
Qed.

Lemma ranges_sorted_order table prev i j r s :
  ranges_sorted prev table = true -> table !! i = Some r -> table !! j = Some s -> (i < j)%nat -> r.2 < s.1.
Proof.
  revert prev i j. induction table as [|[a b] table IH]; intros prev i j Hs Hi Hj Hij; [done|]. cbn [ranges_sorted] in Hs.
  apply andb_true_iff in Hs as [_ Hs']. destruct j as [|j]; [lia|]. destruct i as [|i]; cbn in Hi, Hj.
  - simplify_eq. pose proof (ranges_sorted_lookup _ _ _ _ Hs' Hj). cbn. lia.
  - eapply IH; [done|done|done|lia].
Qed.

Lemma existsb_in_range table c : existsb (in_range c) table = true <-> exists i r, table !! i = Some r /\ r.1 <= c <= r.2.
Proof.
  rewrite existsb_exists. unfold in_range. split.
  - intros (r & Hin & Hr). apply list_elem_of_In, list_elem_of_lookup in Hin as [i Hi]. exists i, r. split; [done|lia].
  - intros (i & r & Hi & Hr). exists r. split; [by apply list_elem_of_In, list_elem_of_lookup_2 with i|lia].
Qed.

Lemma in_ranges_loop_ok table prev c fuel lo hi :
  ranges_sorted prev table = true -> (hi <= length table)%nat -> (hi <= lo + fuel)%nat ->
  (forall i r, table !! i = Some r -> (i < lo)%nat -> r.2 < c) ->
  (forall i r, table !! i = Some r -> (hi <= i)%nat -> c < r.1) ->
  in_ranges_loop fuel table c lo hi = Some (existsb (in_range c) table).
Proof.
  intros Hs. revert lo hi. induction fuel as [|fuel IH]; intros lo hi Hhi Hf Hlow Hhigh; cbn [in_ranges_loop];
    destruct (Nat.ltb_spec lo hi) as [Hlt|Hge]; try lia.
  2:{ pose proof (Nat.div_lt (hi - lo) 2 ltac:(lia) ltac:(lia)). set (mid := (lo + (hi - lo) / 2)%nat) in *.
      assert (lo <= mid < hi)%nat as Hmid by lia. clearbody mid.
      destruct (lookup_lt_is_Some_2 table mid) as [[a b] Hab]; [lia|]. rewrite Hab. cbn [mbind option_bind].
      pose proof (ranges_sorted_lookup _ _ _ _ Hs Hab) as Hne. cbn in Hne.
      destruct (Z.ltb_spec c a); [|destruct (Z.ltb_spec b c)].
      - apply IH; [lia|lia|done|]. intros i r Hi Hle. destruct (decide (i = mid)) as [->|]; [simplify_eq; done|].
        pose proof (ranges_sorted_order _ _ _ _ _ _ Hs Hab Hi ltac:(lia)). cbn in *. lia.
      - apply IH; [lia|lia| |done]. intros i r Hi Hle. destruct (decide (i = mid)) as [->|]; [simplify_eq; done|].
        pose proof (ranges_sorted_order _ _ _ _ _ _ Hs Hi Hab ltac:(lia)). cbn in *.
        pose proof (ranges_sorted_lookup _ _ _ _ Hs Hi). lia.
      - f_equal. symmetry. apply existsb_in_range. exists mid, (a, b). split; [done|]. cbn. lia. }
  all: f_equal; symmetry; apply not_true_is_false; intros (i & r & Hi & Hr)%existsb_in_range;
    destruct (Nat.lt_ge_cases i lo); [specialize (Hlow i r Hi)|specialize (Hhigh i r Hi)]; lia.
Qed.

Lemma in_ranges_ok table prev c :
  ranges_sorted prev table = true -> in_ranges table c = Some (existsb (in_range c) table).
Proof.
  intros Hs. apply (in_ranges_loop_ok _ _ _ _ _ _ Hs); [done|lia| |]; intros i r Hi Hlt; [lia|]. apply lookup_lt_Some in Hi. lia.
Qed.

Lemma tables_sorted : ranges_sorted 0 LETTER = true /\ ranges_sorted 0 NUMBER = true.
Proof. split; vm_compute; reflexivity. Qed.

(** Below 128 the tables and the direct table agree. *)
Lemma ascii_class_ok c : 0 <= c < 128 -> ASCII_CLASS !! Z.to_nat c = Some (scalar_class c).
Proof.
  intros Hc. assert (forallb (fun i => match ASCII_CLASS !! i with Some k => bool_decide (k = scalar_class (Z.of_nat i)) | None => false end)
    (seq 0 128) = true) as H by (vm_compute; reflexivity).
  rewrite forallb_forall in H. specialize (H (Z.to_nat c) ltac:(apply in_seq; lia)).
  destruct (ASCII_CLASS !! Z.to_nat c) as [k|]; [|done]. apply bool_decide_eq_true in H. rewrite Z2Nat.id in H by lia. by subst.
Qed.

Lemma class_from_tables_ok c : 0 <= c -> class_from_tables c = Some (scalar_class c).
Proof.
  intros Hc. unfold class_from_tables. destruct (Z.ltb_spec c 0x80); [apply ascii_class_ok; lia|].
  unfold scalar_class, is_space. destruct (Z.leb_spec c 13); [lia|]. destruct (Z.eqb_spec c 32); [lia|].
  rewrite andb_false_r. cbn [orb]. destruct (is_space_scalar c); [done|]. destruct tables_sorted as [HL HN].
  rewrite (in_ranges_ok _ _ _ HL). cbn [mbind option_bind]. fold (is_letter c). destruct (is_letter c); [done|].
  rewrite (in_ranges_ok _ _ _ HN). cbn [mbind option_bind]. fold (is_number c). by destruct (is_number c).
Qed.

(** ** The packed table *)
#[local] Ltac Zify.zify_post_hook ::= Z.div_mod_to_equations.

(** Bit [e] of the class of each code point below [C] is stored in its place, and zeroes elsewhere. *)
Definition bmp_ok (C : Z) (t : list Z) : Prop :=
  length t = Z.to_nat 0x4000 /\
  forall c e, 0 <= c < 0x10000 -> 0 <= e < 2 -> exists b, t !! Z.to_nat (c / 4) = Some b /\
    Z.testbit b (c mod 4 * 2 + e) = (c <? C) && Z.testbit (class_code (scalar_class c)) e.

Lemma class_code_bits k e : 2 <= e -> Z.testbit (class_code k) e = false.
Proof.
  intros He. apply Z.bits_above_log2; [by destruct k|]. assert (Z.log2 (class_code k) <= 1) by (destruct k; vm_compute; discriminate). lia.
Qed.

Lemma bmp_set_ok t C : 0 <= C < 0x10000 -> bmp_ok C t -> exists t', bmp_set t C = Some t' /\ bmp_ok (C + 1) t'.
Proof.
  intros HC [Hlen Hbits]. unfold bmp_set. rewrite Z.shiftr_div_pow2 by lia. change (2 ^ 2) with 4.
  change (Z.land C 3) with (Z.land C (Z.ones 2)). rewrite Z.land_ones by lia. change (2 ^ 2) with 4.
  destruct (lookup_lt_is_Some_2 t (Z.to_nat (C / 4))) as [old Hold]; [lia|]. rewrite Hold. cbn [mbind option_bind].
  rewrite class_from_tables_ok by lia. cbn [mbind option_bind]. eexists. split; [done|]. split; [by rewrite length_insert|].
  intros c e Hc He. destruct (decide (c / 4 = C / 4)) as [Heq|Hne].
  2:{ rewrite list_lookup_insert_ne by lia. destruct (Hbits c e Hc He) as (b & Hb & Hbit). exists b. split; [done|].
      rewrite Hbit. f_equal. destruct (Z.ltb_spec c C), (Z.ltb_spec c (C + 1)); try done; lia. }
  rewrite Heq, list_lookup_insert_eq by lia. eexists. split; [done|].
  destruct (Hbits c e Hc He) as (b & Hb & Hbit). rewrite Heq, Hold in Hb. injection Hb as <-.
  rewrite Z.lor_spec, Hbit, Z.shiftl_spec by lia. destruct (decide (c = C)) as [->|HcC].
  - destruct (Z.ltb_spec C C); [lia|]. destruct (Z.ltb_spec C (C + 1)); [|lia]. cbn [orb andb]. f_equal. lia.
  - assert (Z.testbit (class_code (scalar_class C)) (c mod 4 * 2 + e - C mod 4 * 2) = false) as ->.
    { assert (c mod 4 <> C mod 4) by (intros Hm; apply HcC; rewrite (Z.div_mod c 4), (Z.div_mod C 4); lia).
      destruct (Z.lt_ge_cases (c mod 4) (C mod 4)); [apply Z.testbit_neg_r|apply class_code_bits]; lia. }
    rewrite orb_false_r. f_equal. destruct (Z.ltb_spec c C), (Z.ltb_spec c (C + 1)); try done; lia.
Qed.

Lemma bmp_fill_ok n C t : 0 <= C -> C + Z.of_nat n <= 0x10000 -> bmp_ok C t ->
  exists t', bmp_fill n C t = Some t' /\ bmp_ok (C + Z.of_nat n) t'.
Proof.
  revert C t. induction n as [|n IH]; intros C t HC Hle Hok; cbn [bmp_fill].
  - exists t. by rewrite Z.add_0_r.
  - destruct (bmp_set_ok t C) as (t1 & -> & Hok1); [lia|done|]. cbn [mbind option_bind].
    destruct (IH (C + 1) t1) as (t2 & -> & Hok2); [lia|lia|done|]. exists t2. split; [done|].
    by replace (C + Z.of_nat (S n)) with (C + 1 + Z.of_nat n) by lia.
Qed.

Lemma bmp_empty_ok n : n = Z.to_nat 0x4000 -> bmp_ok 0 (replicate n 0).
Proof.
  intros Hn. split; [by rewrite length_replicate|]. intros c e Hc He. exists 0. split; [apply lookup_replicate_2; lia|].
  rewrite Z.bits_0. destruct (Z.ltb_spec c 0); [lia|reflexivity].
Qed.

Lemma BMP_CLASS_ok : exists t, BMP_CLASS tt = Some t /\ bmp_ok 0x10000 t.
Proof.
  unfold BMP_CLASS. pose proof (bmp_empty_ok _ eq_refl) as H0. revert H0. generalize (replicate (Z.to_nat 0x4000) 0). intros t0 H0.
  remember (Z.to_nat 0x10000) as n eqn:Hn. destruct (bmp_fill_ok n 0 t0) as (t & Ht & Hok); [lia|lia|exact H0|].
  exists t. split; [exact Ht|]. replace 0x10000 with (0 + Z.of_nat n) by lia. exact Hok.
Qed.

Lemma class_of_scalar_ok c : 0 <= c -> class_of_scalar c = Some (scalar_class c).
Proof.
  intros Hc. unfold class_of_scalar. destruct (Z.ltb_spec c 0x80); [apply ascii_class_ok; lia|].
  destruct (Z.ltb_spec c 0x10000); [|by apply class_from_tables_ok].
  destruct BMP_CLASS_ok as (t & -> & _ & Hbits). cbn [mbind option_bind].
  rewrite Z.shiftr_div_pow2 by lia. change (2 ^ 2) with 4. change (Z.land c 3) with (Z.land c (Z.ones 2)). rewrite Z.land_ones by lia.
  change (2 ^ 2) with 4. destruct (Hbits c 0) as (b & Hb & Hbit0); [lia|lia|]. destruct (Hbits c 1) as (b' & Hb' & Hbit1); [lia|lia|].
  rewrite Hb in Hb' |- *. injection Hb' as <-. cbn [mbind option_bind]. f_equal.
  destruct (Z.ltb_spec c 0x10000); [|lia]. cbn [andb] in *.
  assert (Z.land (Z.shiftr b (c mod 4 * 2)) 3 = class_code (scalar_class c)) as ->; [|by destruct (scalar_class c)].
  apply Z.bits_inj'. intros e He. rewrite Z.land_spec, Z.shiftr_spec by done.
  destruct (decide (e < 2)) as [Hlt|Hge].
  - assert (Z.testbit 3 e = true) as -> by (assert (e = 0 \/ e = 1) as [->| ->] by lia; done). rewrite andb_true_r, Z.add_comm.
    assert (e = 0 \/ e = 1) as [->| ->] by lia; done.
  - rewrite class_code_bits by lia. change 3 with (Z.ones 2). by rewrite Z.ones_spec_high, andb_false_r by lia.
Qed.

(** Whitespace is neither letter nor number, and no scalar value is both. *)
Definition range_disjoint (r s : Z * Z) : bool := (r.2 <? s.1) || (s.2 <? r.1).
Definition WHITESPACE : list (Z * Z) :=
  [(9, 13); (32, 32); (0xA0, 0xA0); (0x1680, 0x1680); (0x2000, 0x200A); (0x2028, 0x2029); (0x202F, 0x202F);
   (0x205F, 0x205F); (0x3000, 0x3000); (0xFEFF, 0xFEFF)].

Lemma ranges_apart t1 t2 c :
  forallb (fun r => forallb (range_disjoint r) t2) t1 = true ->
  existsb (in_range c) t1 = true -> existsb (in_range c) t2 = false.
Proof.
  rewrite forallb_forall. intros Hd. rewrite existsb_exists. intros (r & Hr & Hc). apply not_true_is_false.
  rewrite existsb_exists. intros (s & Hs & Hc'). specialize (Hd r Hr). rewrite forallb_forall in Hd. specialize (Hd s Hs).
  unfold range_disjoint, in_range in *. lia.
Qed.

Lemma is_space_ranges c : is_space c = existsb (in_range c) WHITESPACE.
Proof.
  unfold is_space, is_space_scalar, in_range. cbn [existsb WHITESPACE fst snd]. apply eq_true_iff_eq. lia.
Qed.

Lemma space_no_letter c : is_space c = true -> is_letter c = false /\ is_number c = false.
Proof. rewrite is_space_ranges. intros H. split; apply (ranges_apart WHITESPACE); [vm_compute; reflexivity|done|vm_compute; reflexivity|done]. Qed.

Lemma letter_no_number c : is_letter c = true -> is_number c = false.
Proof. apply ranges_apart. vm_compute. reflexivity. Qed.

(** The four sets are the four classes. *)
Lemma scalar_class_sets c :
  bool_decide (scalar_class c = Space) = is_space c /\ bool_decide (scalar_class c = Letter) = is_letter c /\
  bool_decide (scalar_class c = Number) = is_number c /\
  bool_decide (scalar_class c = Other) = negb (is_space c) && negb (is_letter c) && negb (is_number c).
Proof.
  unfold scalar_class. pose proof (space_no_letter c). pose proof (letter_no_number c).
  destruct (is_space c); [destruct H; [done|]; simplify_eq; by rewrite H, H1|]. destruct (is_letter c); [by rewrite H0|]. by destruct (is_number c).
Qed.

(** the packed class table and the binary search agree with the definition of the classes. For
    every scalar value the lookup the scanner uses, through the direct table below 128, the two-bit
    entries of the basic plane or the range search above it, returns: whitespace for exactly the ECMAScript
    set, and else letter or number for exactly the values some range of the Unicode tables covers. *)
Theorem character_classes_exact c :
  0 <= c <= 0x10FFFF ->
  class_of_scalar c = class_from_tables c /\
  class_of_scalar c = Some (scalar_class c) /\
  is_whitespace c = Some (is_space c) /\
  (scalar_class c = Letter <-> is_letter c = true) /\ (scalar_class c = Number <-> is_number c = true) /\
  (scalar_class c = Space <-> is_space c = true).
Proof.
  intros Hc. unfold is_whitespace. rewrite class_of_scalar_ok, class_from_tables_ok by lia. cbn [mbind option_bind].
  destruct (scalar_class_sets c) as (<- & <- & <- & _). rewrite !bool_decide_eq_true. done.
Qed.

(** A Cherokee letter, past the direct table. *)
Lemma character_classes_exact_witness : class_of_scalar 0x13A0 = Some Letter /\ is_whitespace 0x3000 = Some true.
Proof.
  destruct (character_classes_exact 0x13A0) as (_ & -> & _); [lia|]. destruct (character_classes_exact 0x3000) as (_ & _ & -> & _); [lia|].
  split; vm_compute; reflexivity.
Defined.
