(* ===== verification/Swar.v ===== *)
(** * Swar: eight characters at a time (crates/tokenizer/src/scan.rs).

    The scanner classifies eight ASCII bytes with a few operations on one 64-bit word. Each lane of
    the word is a byte; the theorem says that the mask marks exactly the lanes whose byte has the
    class. *)
From S2P Require Import Prelude.
From S2P Require Import Unicode.
#[local] Open Scope Z_scope.

(** ** The word operations *)
Definition HI : Z := 0x8080808080808080.
Definition LO : Z := 0x0101010101010101.

Definition wrapping_sub (max a b : Z) : Z := (a - b) mod (max + 1).

Definition between (x m n : Z) : Z :=
  Z.land (Z.land (wrapping_sub u64_MAX (LO * (0x7F + n)) x) (wrapping_add u64_MAX x (LO * (0x7F - m)))) HI.

Definition eq_lanes (x v : Z) : Z :=
  Z.land (not_u64 (wrapping_add u64_MAX (Z.lxor x (LO * v)) (LO * 0x7F))) HI.

Definition ascii_class_mask (w : Z) (class : Class) : Z :=
  match class with
  | Letter => between (Z.lor w (LO * 0x20)) 0x60 0x7B
  | Number => between w 0x2F 0x3A
  | Space => Z.lor (between w 0x08 0x0E) (eq_lanes w 0x20)
  | Other =>
      Z.land (not_u64 (Z.lor (Z.lor (Z.lor (between (Z.lor w (LO * 0x20)) 0x60 0x7B) (between w 0x2F 0x3A))
                                (between w 0x08 0x0E))
                         (eq_lanes w 0x20))) HI
  end.

(** ** Lanes

    [lanes f bs] is the word whose lanes are [f] of the bytes. *)
Definition lanes (f : Z -> Z) (bs : list Z) : Z := from_le_bytes (f <$> bs).

Lemma lanes_add f g bs : lanes f bs + lanes g bs = lanes (fun b => f b + g b) bs.
Proof. unfold lanes. induction bs as [|b bs IH]; cbn [fmap list_fmap from_le_bytes]; lia. Qed.

Lemma lanes_sub f g bs : lanes f bs - lanes g bs = lanes (fun b => f b - g b) bs.
Proof. unfold lanes. induction bs as [|b bs IH]; cbn [fmap list_fmap from_le_bytes]; lia. Qed.

Lemma lanes_const k bs : length bs = 8%nat -> LO * k = lanes (fun _ => k) bs.
Proof.
  intros Hlen. unfold lanes. do 9 (destruct bs as [|? bs]; [try discriminate|]); [|discriminate].
  unfold LO. cbn [fmap list_fmap from_le_bytes]. lia.
Qed.

Lemma lanes_range f bs :
  length bs = 8%nat -> Forall (fun b => 0 <= f b < 256) bs -> 0 <= lanes f bs <= u64_MAX.
Proof.
  intros Hlen Hf. pose proof (from_le_bytes_range (f <$> bs)) as Hr. rewrite length_fmap, Hlen in Hr.
  specialize (Hr ltac:(apply Forall_fmap; eapply Forall_impl; [|exact Hf]; intros b Hb; cbn in *; mlia)).
  unfold lanes. change (256 ^ Z.of_nat 8) with (u64_MAX + 1) in Hr. lia.
Qed.

Lemma lane_bits a A n : 0 <= a < 256 -> 0 <= n -> Z.testbit (a + 256 * A) n = if n <? 8 then Z.testbit a n else Z.testbit A (n - 8).
Proof.
  intros Ha Hn. rewrite Z.mul_comm. destruct (Z.ltb_spec n 8).
  - rewrite <- (Z.mod_pow2_bits_low _ 8) by lia. change (2 ^ 8) with 256. by rewrite Z.mod_add, Z.mod_small by lia.
  - replace n with (n - 8 + 8) at 1 by lia. rewrite <- Z.div_pow2_bits by lia. change (2 ^ 8) with 256.
    by rewrite Z.div_add, Z.div_small by lia.
Qed.

(** ** The lowest set bit *)
Lemma tz_step fuel i w :
  trailing_zeros (S fuel) i w = if Z.testbit w i then i else trailing_zeros fuel (i + 1) w.
Proof. done. Qed.

Lemma tz_shift fuel i w : 0 <= i -> trailing_zeros fuel (i + 8) (0 + 256 * w) = 8 + trailing_zeros fuel i w.
Proof.
  revert i. induction fuel as [|fuel IH]; intros i Hi; [cbn; lia|]. rewrite !tz_step, lane_bits by lia.
  destruct (Z.ltb_spec (i + 8) 8); [lia|]. replace (i + 8 - 8) with i by lia. destruct (Z.testbit w i); [lia|].
  replace (i + 8 + 1) with (i + 1 + 8) by lia. apply IH. lia.
Qed.

Lemma tz_low fuel w :
  (forall j, 0 <= j < 8 -> Z.testbit w j = false) -> trailing_zeros (8 + fuel) 0 w = trailing_zeros fuel (0 + 8) w.
Proof. intros H. cbn [Nat.add]. rewrite !tz_step, !H by lia. done. Qed.

Section Bitwise.
Context (op : Z -> Z -> Z) (bop : bool -> bool -> bool).
Hypothesis Hspec : forall x y n, 0 <= n -> Z.testbit (op x y) n = bop (Z.testbit x n) (Z.testbit y n).
Hypothesis Hlane : forall x y, 0 <= x < 256 -> 0 <= y < 256 -> 0 <= op x y < 256.
Hypothesis Hzero : op 0 0 = 0.

Lemma lanes_bitwise f g bs :
  Forall (fun b => 0 <= f b < 256) bs -> Forall (fun b => 0 <= g b < 256) bs ->
  op (lanes f bs) (lanes g bs) = lanes (fun b => op (f b) (g b)) bs.
Proof.
  unfold lanes. induction bs as [|b bs IH]; intros Hf Hg; [exact Hzero|].
  apply Forall_cons_iff in Hf as [Hfb Hf]. apply Forall_cons_iff in Hg as [Hgb Hg]. cbn [fmap list_fmap from_le_bytes].
  rewrite <- IH by done. apply Z.bits_inj'. intros n Hn. rewrite Hspec, !lane_bits by (done || by apply Hlane).
  destruct (Z.ltb_spec n 8); by rewrite Hspec by lia.
Qed.
End Bitwise.

Lemma byte_bits x : 0 <= x -> (x < 256 <-> forall n, 8 <= n -> Z.testbit x n = false).
Proof.
  intros Hx. split.
  - intros Hlt n Hn. rewrite <- (Z.mod_small x (2 ^ 8)) by (cbn; lia). by apply Z.mod_pow2_bits_high.
  - intros Hbits. destruct (Z.lt_ge_cases x 256) as [|Hge]; [done|].
    assert (Z.testbit x (Z.log2 x) = true) as Ht by (apply Z.bit_log2; lia). rewrite Hbits in Ht; [done|].
    by apply (Z.log2_le_mono 256).
Qed.

Lemma land_lane x y : 0 <= x < 256 -> 0 <= y < 256 -> 0 <= Z.land x y < 256.
Proof.
  intros Hx Hy. assert (0 <= Z.land x y) as Hn by (apply Z.land_nonneg; lia). split; [done|]. apply byte_bits; [done|].
  intros n ?. rewrite Z.land_spec, (proj1 (byte_bits x ltac:(lia)) ltac:(lia) n) by done. done.
Qed.

Lemma lor_lane x y : 0 <= x < 256 -> 0 <= y < 256 -> 0 <= Z.lor x y < 256.
Proof.
  intros Hx Hy. assert (0 <= Z.lor x y) as Hn by (apply Z.lor_nonneg; lia). split; [done|]. apply byte_bits; [done|].
  intros n ?. by rewrite Z.lor_spec, (proj1 (byte_bits x ltac:(lia)) ltac:(lia) n), (proj1 (byte_bits y ltac:(lia)) ltac:(lia) n) by done.
Qed.

Lemma lxor_lane x y : 0 <= x < 256 -> 0 <= y < 256 -> 0 <= Z.lxor x y < 256.
Proof.
  intros Hx Hy. assert (0 <= Z.lxor x y) as Hn by (apply Z.lxor_nonneg; lia). split; [done|]. apply byte_bits; [done|].
  intros n ?. by rewrite Z.lxor_spec, (proj1 (byte_bits x ltac:(lia)) ltac:(lia) n), (proj1 (byte_bits y ltac:(lia)) ltac:(lia) n) by done.
Qed.

Lemma lanes_land f g bs :
  Forall (fun b => 0 <= f b < 256) bs -> Forall (fun b => 0 <= g b < 256) bs ->
  Z.land (lanes f bs) (lanes g bs) = lanes (fun b => Z.land (f b) (g b)) bs.
Proof. apply (lanes_bitwise _ andb); [intros; apply Z.land_spec|apply land_lane|done]. Qed.

Lemma lanes_lor f g bs :
  Forall (fun b => 0 <= f b < 256) bs -> Forall (fun b => 0 <= g b < 256) bs ->
  Z.lor (lanes f bs) (lanes g bs) = lanes (fun b => Z.lor (f b) (g b)) bs.
Proof. apply (lanes_bitwise _ orb); [intros; apply Z.lor_spec|apply lor_lane|done]. Qed.

Lemma lanes_lxor f g bs :
  Forall (fun b => 0 <= f b < 256) bs -> Forall (fun b => 0 <= g b < 256) bs ->
  Z.lxor (lanes f bs) (lanes g bs) = lanes (fun b => Z.lxor (f b) (g b)) bs.
Proof. apply (lanes_bitwise _ xorb); [intros; apply Z.lxor_spec|apply lxor_lane|done]. Qed.

(** ** The operations lane by lane *)
Definition between_lane (m n b : Z) : Z := Z.land (Z.land (0x7F + n - b) (b + (0x7F - m))) 128.
Definition eq_lane (v b : Z) : Z := Z.land (Z.lxor (Z.lxor b v + 0x7F) 255) 128.

Section Word.
Context (bs : list Z).
Hypothesis Hlen : length bs = 8%nat.

Lemma HI_lanes : HI = lanes (fun _ => 128) bs.
Proof. by rewrite <- lanes_const. Qed.

Lemma all_lanes (P : Z -> Prop) : (forall b, P b) -> Forall P bs.
Proof. intros H. by apply Forall_true. Qed.

Lemma between_lanes f m n :
  Forall (fun b => 0 <= f b < 128) bs -> 0 <= m < 128 -> 0 <= n <= 128 ->
  between (lanes f bs) m n = lanes (fun b => between_lane m n (f b)) bs.
Proof.
  intros Hf Hm Hn. unfold between, wrapping_sub, wrapping_add. rewrite !(lanes_const _ bs), HI_lanes by done. rewrite lanes_sub, lanes_add.
  assert (Forall (fun b => 0 <= 0x7F + n - f b < 256) bs) as H1 by (eapply Forall_impl; [|exact Hf]; cbn; lia).
  assert (Forall (fun b => 0 <= f b + (0x7F - m) < 256) bs) as H2 by (eapply Forall_impl; [|exact Hf]; cbn; lia).
  pose proof (lanes_range _ bs Hlen H1). pose proof (lanes_range _ bs Hlen H2).
  rewrite !Z.mod_small by lia. rewrite lanes_land by done. apply lanes_land; [|apply all_lanes; lia].
  apply list.Forall_forall. intros b Hb. rewrite list.Forall_forall in H1, H2. apply land_lane; [by apply H1|by apply H2].
Qed.

Lemma eq_lanes_lanes f v :
  Forall (fun b => 0 <= f b < 128) bs -> 0 <= v < 128 -> eq_lanes (lanes f bs) v = lanes (fun b => eq_lane v (f b)) bs.
Proof.
  intros Hf Hv. unfold eq_lanes, wrapping_add, not_u64. rewrite !(lanes_const _ bs), HI_lanes by done.
  assert (Forall (fun b => 0 <= Z.lxor (f b) v < 128) bs) as Hx.
  { eapply Forall_impl; [|exact Hf]. cbn. intros b Hb. assert (0 <= Z.lxor (f b) v) by (apply Z.lxor_nonneg; lia). split; [done|].
    destruct (Z.eq_dec (Z.lxor (f b) v) 0) as [->|Hne]; [lia|]. apply (Z.log2_lt_pow2 _ 7); [lia|]. eapply Z.le_lt_trans; [apply Z.log2_lxor; lia|].
    assert (Z.log2 (f b) <= 6) by (apply (Z.log2_le_mono _ 127); lia). assert (Z.log2 v <= 6) by (apply (Z.log2_le_mono _ 127); lia). lia. }
  rewrite lanes_lxor by (first [apply all_lanes; lia|eapply Forall_impl; [|exact Hf]; cbn; lia]). rewrite lanes_add.
  assert (Forall (fun b => 0 <= Z.lxor (f b) v + 0x7F < 256) bs) as H1 by (eapply Forall_impl; [|exact Hx]; cbn; lia).
  pose proof (lanes_range _ bs Hlen H1). rewrite Z.mod_small by lia. change u64_MAX with (LO * 255). rewrite (lanes_const _ bs) by done.
  rewrite lanes_lxor by (first [done|apply all_lanes; lia]). apply lanes_land; [|apply all_lanes; lia].
  eapply Forall_impl; [|exact H1]. cbn. intros b Hb. by apply lxor_lane.
Qed.
End Word.

(** ** The class mask *)
Definition mask_lane (class : Class) (b : Z) : Z :=
  match class with
  | Letter => between_lane 0x60 0x7B (Z.lor b 0x20)
  | Number => between_lane 0x2F 0x3A b
  | Space => Z.lor (between_lane 0x08 0x0E b) (eq_lane 0x20 b)
  | Other =>
      Z.land (Z.lxor (Z.lor (Z.lor (Z.lor (between_lane 0x60 0x7B (Z.lor b 0x20)) (between_lane 0x2F 0x3A b))
                               (between_lane 0x08 0x0E b))
                        (eq_lane 0x20 b)) 255) 128
  end.

(** What holds of the bytes below 128 by checking each. *)
Lemma ascii_check (P : Z -> bool) b : forallb P (seqZ 0 128) = true -> 0 <= b < 128 -> P b = true.
Proof. rewrite forallb_forall. intros H Hb. apply H, list_elem_of_In, elem_of_seqZ. lia. Qed.

Lemma mask_lane_class class b : 0 <= b < 128 -> mask_lane class b = if decide (ascii_class b = class) then 128 else 0.
Proof.
  intros Hb. pose (P := fun b => mask_lane class b =? (if decide (ascii_class b = class) then 128 else 0)).
  apply Z.eqb_eq. change (P b = true). apply ascii_check; [|done]. destruct class; vm_compute; reflexivity.
Qed.

Lemma lane_ranges b :
  0 <= b < 128 -> 0 <= Z.lor b 0x20 < 128 /\ 0 <= between_lane 0x60 0x7B (Z.lor b 0x20) < 256 /\
  0 <= between_lane 0x2F 0x3A b < 256 /\ 0 <= between_lane 0x08 0x0E b < 256 /\ 0 <= eq_lane 0x20 b < 256.
Proof.
  intros Hb. pose (P := fun b => (Z.lor b 0x20 <? 128) && (between_lane 0x60 0x7B (Z.lor b 0x20) <? 256) &&
    (between_lane 0x2F 0x3A b <? 256) && (between_lane 0x08 0x0E b <? 256) && (eq_lane 0x20 b <? 256) &&
    (0 <=? Z.lor b 0x20) && (0 <=? between_lane 0x60 0x7B (Z.lor b 0x20)) && (0 <=? between_lane 0x2F 0x3A b) &&
    (0 <=? between_lane 0x08 0x0E b) && (0 <=? eq_lane 0x20 b)).
  assert (P b = true) as HP by (apply ascii_check; [vm_compute; reflexivity|done]). unfold P in HP. lia.
Qed.

Lemma ascii_class_mask_lanes class bs :
  length bs = 8%nat -> Forall (fun b => 0 <= b < 128) bs ->
  ascii_class_mask (from_le_bytes bs) class = lanes (mask_lane class) bs.
Proof.
  intros Hlen Ha. assert (from_le_bytes bs = lanes (fun b => b) bs) as -> by (unfold lanes; by rewrite list_fmap_id).
  assert (Z.lor (lanes (fun b => b) bs) (LO * 0x20) = lanes (fun b => Z.lor b 0x20) bs) as Hlower.
  { rewrite (lanes_const _ bs) by done. apply lanes_lor; eapply Forall_impl; try exact Ha; cbn; lia. }
  assert (between (Z.lor (lanes (fun b => b) bs) (LO * 0x20)) 0x60 0x7B = lanes (fun b => between_lane 0x60 0x7B (Z.lor b 0x20)) bs) as HL.
  { rewrite Hlower. apply between_lanes; [done| |lia|lia]. eapply Forall_impl; [|exact Ha]. intros b Hb. by apply lane_ranges. }
  assert (forall m n, 0 <= m < 128 -> 0 <= n <= 128 -> between (lanes (fun b => b) bs) m n = lanes (fun b => between_lane m n b) bs) as HB
    by (intros; by apply between_lanes).
  assert (eq_lanes (lanes (fun b => b) bs) 0x20 = lanes (fun b => eq_lane 0x20 b) bs) as HE by (apply eq_lanes_lanes; done || lia).
  destruct class; cbn [ascii_class_mask]; [exact HL|by apply HB| |].
  - rewrite HB, HE by lia. apply lanes_lor; eapply Forall_impl; try exact Ha; intros b Hb; by apply lane_ranges.
  - rewrite HL, !HB, HE by lia. unfold not_u64. change u64_MAX with (LO * 255). rewrite (lanes_const _ bs), (HI_lanes bs) by done.
    rewrite (lanes_lor (fun b => between_lane 0x60 0x7B (Z.lor b 0x20))) by (eapply Forall_impl; try exact Ha; intros b Hb; by apply lane_ranges).
    rewrite lanes_lor, lanes_lor, lanes_lxor, lanes_land; [done|..];
      eapply Forall_impl; try exact Ha; intros b Hb; cbn beta; repeat first [apply lxor_lane|apply lor_lane|by apply lane_ranges|lia].
Qed.

(** the word-at-a-time classification is exact. For every word of eight ASCII bytes and every
    class, the mask has the top bit of exactly the lanes whose byte has the class in the byte table,
    and no other bit: no carry or borrow crosses a lane. *)
Theorem class_mask_exact class bs :
  length bs = 8%nat -> Forall (fun b => 0 <= b < 128) bs ->
  ascii_class_mask (from_le_bytes bs) class =
  from_le_bytes ((fun b => if decide (ASCII_CLASS !! Z.to_nat b = Some class) then 128 else 0) <$> bs).
Proof.
  intros Hlen Ha. rewrite ascii_class_mask_lanes by done. unfold lanes. f_equal. apply list_fmap_ext. intros i b Hb.
  pose proof (Forall_lookup_1 _ _ _ _ Ha Hb) as Hlt. cbn in Hlt. rewrite mask_lane_class by done.
  unfold ASCII_CLASS. rewrite list_lookup_fmap, (lookup_seqZ_lt 0 128) by lia. cbn [fmap option_fmap option_map].
  rewrite Z2Nat.id, Z.add_0_l by lia. repeat case_decide; congruence.
Qed.

(** The bytes of [ab 1, x!]. *)
Lemma class_mask_exact_witness :
  ascii_class_mask (from_le_bytes [97; 98; 32; 49; 44; 32; 120; 33]) Letter = from_le_bytes [128; 128; 0; 0; 0; 0; 128; 0].
Proof.
  rewrite class_mask_exact; [vm_compute; reflexivity|reflexivity|].
  repeat (constructor; [lia|]). constructor.
Defined.
