(* ===== verification/Scan.v ===== *)
(** * Scan: the pre-tokenizer (crates/tokenizer/src/scan.rs).

    The hand-written scanner over UTF-8 bytes, and its runs in terms of scalar values. [None] is an
    index out of bounds. *)
From S2P Require Import Prelude.
From S2P Require Import Unicode.
From S2P Require Import Swar.
#[local] Open Scope Z_scope.

(** ** The scanner *)
Definition class_at (bytes : list Z) (i : nat) : option (Class * nat) :=
  b0 ← bytes !! i;
  if b0 <? 0x80 then class ← ASCII_CLASS !! Z.to_nat b0; Some (class, 1%nat)
  else
    r ← (if b0 <? 0xE0 then
           b1 ← bytes !! (i + 1)%nat;
           Some (Z.lor (Z.shiftl (Z.land b0 0x1F) 6) (Z.land b1 0x3F), 2%nat)
         else if b0 <? 0xF0 then
           b1 ← bytes !! (i + 1)%nat; b2 ← bytes !! (i + 2)%nat;
           Some (Z.lor (Z.lor (Z.shiftl (Z.land b0 0x0F) 12) (Z.shiftl (Z.land b1 0x3F) 6)) (Z.land b2 0x3F), 3%nat)
         else
           b1 ← bytes !! (i + 1)%nat; b2 ← bytes !! (i + 2)%nat; b3 ← bytes !! (i + 3)%nat;
           Some (Z.lor (Z.lor (Z.lor (Z.shiftl (Z.land b0 0x07) 18) (Z.shiftl (Z.land b1 0x3F) 12))
                          (Z.shiftl (Z.land b2 0x3F) 6)) (Z.land b3 0x3F), 4%nat));
    let '(cp, len) := r in
    class ← class_of_scalar cp;
    Some (class, len).

(** The eight-byte loop: [inl] the run's end, [inr] where the loop left off. *)
Fixpoint run_words (fuel : nat) (bytes : list Z) (i : nat) (class : Class) : option (nat + nat) :=
  match get_range bytes i 8 with
  | None => Some (inr i)
  | Some chunk =>
      let w := from_le_bytes chunk in
      if negb (Z.land w HI =? 0) then Some (inr i)
      else
        let m := ascii_class_mask w class in
        if m =? HI then
          match fuel with
          | O => None
          | S fuel => run_words fuel bytes (i + 8) class
          end
        else Some (inl (i + Z.to_nat (trailing_zeros 64 0 (Z.land (not_u64 m) HI) / 8))%nat)
  end.

(** The loop over single characters. *)
Fixpoint run_chars (fuel : nat) (bytes : list Z) (i : nat) (class : Class) : option nat :=
  if (i <? length bytes)%nat then
    match fuel with
    | O => None
    | S fuel =>
        r ← class_at bytes i;
        let '(c, len) := r in
        if decide (c = class) then run_chars fuel bytes (i + len) class else Some i
    end
  else Some i.

Definition run_end (bytes : list Z) (i : nat) (class : Class) : option nat :=
  r ← run_words (length bytes) bytes i class;
  match r with
  | inl last => Some last
  | inr i => run_chars (length bytes) bytes i class
  end.

(** [while bytes[last] & 0xC0 == 0x80 { last -= 1 }]. *)
Fixpoint back_up (bytes : list Z) (last : nat) : option nat :=
  b ← bytes !! last;
  if Z.land b 0xC0 =? 0x80 then
    match last with O => None | S last => back_up bytes last end
  else Some last.

Definition whitespace_piece_end (bytes : list Z) (pos l0 : nat) : option nat :=
  last ← run_end bytes (pos + l0) Space;
  if (last =? length bytes)%nat || (last =? pos + l0)%nat then Some last
  else back_up bytes (last - 1).

(** The contraction that starts at [pos], after its apostrophe. *)
Definition contraction_end (bytes : list Z) (pos : nat) : option (option nat) :=
  let n := length bytes in
  b1 ← bytes !! (pos + 1)%nat;
  if (b1 =? 115) || (b1 =? 116) || (b1 =? 109) || (b1 =? 100) then Some (Some (pos + 2)%nat)
  else if (b1 =? 114) || (b1 =? 118) then
    if (pos + 2 <? n)%nat then b2 ← bytes !! (pos + 2)%nat; Some (if b2 =? 101 then Some (pos + 3)%nat else None)
    else Some None
  else if b1 =? 108 then
    if (pos + 2 <? n)%nat then b2 ← bytes !! (pos + 2)%nat; Some (if b2 =? 108 then Some (pos + 3)%nat else None)
    else Some None
  else Some None.

Definition piece_end (bytes : list Z) (pos : nat) : option nat :=
  let n := length bytes in
  b0 ← bytes !! pos;
  if b0 <? 0x80 then
    short ← (if (b0 =? 39) && (pos + 1 <? n)%nat then contraction_end bytes pos else Some None);
    match short with
    | Some last => Some last
    | None =>
        c0 ← ASCII_CLASS !! Z.to_nat b0;
        spaced ← (if (b0 =? 32) && (pos + 1 <? n)%nat then
                    r ← class_at bytes (pos + 1);
                    let '(c1, l1) := r in
                    if decide (c1 = Space) then Some None
                    else last ← run_end bytes (pos + 1 + l1) c1; Some (Some last)
                  else Some None);
        match spaced with
        | Some last => Some last
        | None => if decide (c0 = Space) then whitespace_piece_end bytes pos 1 else run_end bytes (pos + 1) c0
        end
    end
  else
    r ← class_at bytes pos;
    let '(c0, l0) := r in
    if decide (c0 = Space) then whitespace_piece_end bytes pos l0 else run_end bytes (pos + l0) c0.

(** Every piece is at least one byte, so as many steps as bytes are enough. *)
Fixpoint pieces_loop (fuel : nat) (bytes : list Z) (pos : nat) : option (list (nat * nat)) :=
  if (length bytes <=? pos)%nat then Some []
  else
    match fuel with
    | O => None
    | S fuel =>
        last ← piece_end bytes pos;
        rest ← pieces_loop fuel bytes last;
        Some ((pos, last) :: rest)
    end.

Definition pieces (bytes : list Z) : option (list (nat * nat)) := pieces_loop (length bytes) bytes 0.

(** ** UTF-8 *)
Definition scalar (c : Z) : Prop := 0 <= c < 0xD800 \/ 0xE000 <= c < 0x110000.

Definition utf8 (c : Z) : list Z :=
  if c <? 0x80 then [c]
  else if c <? 0x800 then [0xC0 + c / 64; 0x80 + c mod 64]
  else if c <? 0x10000 then [0xE0 + c / 4096; 0x80 + c / 64 mod 64; 0x80 + c mod 64]
  else [0xF0 + c / 262144; 0x80 + c / 4096 mod 64; 0x80 + c / 64 mod 64; 0x80 + c mod 64].

(** The bytes of a string. *)
Definition encode_utf8 (cs : list Z) : list Z := cs ≫= utf8.

(** ** Decoding *)
#[local] Ltac Zify.zify_post_hook ::= Z.div_mod_to_equations.

Lemma lor_shiftl a b k : 0 <= k -> 0 <= a -> 0 <= b < 2 ^ k -> Z.lor (Z.shiftl a k) b = a * 2 ^ k + b.
Proof. intros Hk Ha Hb. rewrite Z.shiftl_mul_pow2, Z.lor_comm, lor_disjoint by lia. lia. Qed.

Lemma land_low x k m : 0 <= k -> m = Z.ones k -> Z.land x m = x mod 2 ^ k.
Proof. intros Hk ->. by apply Z.land_ones. Qed.

Lemma lookup_after {A} (P Q : list A) i : (P ++ Q) !! (length P + i)%nat = Q !! i.
Proof. rewrite lookup_app_r by lia. f_equal. lia. Qed.

Lemma scalar_range c : scalar c -> 0 <= c < 0x110000.
Proof. unfold scalar. lia. Qed.

Lemma class_at_ok P c R :
  scalar c -> class_at (P ++ utf8 c ++ R) (length P) = Some (scalar_class c, length (utf8 c)).
Proof.
  intros Hc%scalar_range. unfold class_at. pose proof (lookup_after P (utf8 c ++ R)) as Hat.
  rewrite <- (Nat.add_0_r (length P)) at 1. rewrite !Hat. unfold utf8.
  destruct (Z.ltb_spec c 0x80); [|destruct (Z.ltb_spec c 0x800); [|destruct (Z.ltb_spec c 0x10000)]];
    cbn [app lookup list_lookup length mbind option_bind].
  - destruct (Z.ltb_spec c 0x80); [|lia]. by rewrite ascii_class_ok by lia.
  - destruct (Z.ltb_spec (0xC0 + c / 64) 0x80); [lia|]. destruct (Z.ltb_spec (0xC0 + c / 64) 0xE0); [|lia]. cbn [mbind option_bind].
    rewrite (land_low _ 5 0x1F), (land_low _ 6 0x3F), lor_shiftl by (done || lia).
    rewrite class_of_scalar_ok by lia. cbn [mbind option_bind]. do 3 f_equal. lia.
  - destruct (Z.ltb_spec (0xE0 + c / 4096) 0x80); [lia|]. destruct (Z.ltb_spec (0xE0 + c / 4096) 0xE0); [lia|].
    destruct (Z.ltb_spec (0xE0 + c / 4096) 0xF0); [|lia]. cbn [mbind option_bind].
    rewrite (land_low _ 4 0x0F), !(land_low _ 6 0x3F) by done.
    rewrite (Z.shiftl_mul_pow2 _ 6), <- (Z.mul_comm (2 ^ 6)) by lia.
    replace (2 ^ 6 * ((0x80 + c / 64 mod 64) mod 2 ^ 6)) with (c / 64 mod 64 * 64) by lia.
    rewrite (lor_shiftl _ (c / 64 mod 64 * 64)) by lia. 
    replace ((0xE0 + c / 4096) mod 2 ^ 4 * 2 ^ 12 + c / 64 mod 64 * 64) with (c / 64 * 2 ^ 6) by lia.
    rewrite Z.lor_comm, lor_disjoint by lia. rewrite class_of_scalar_ok by lia. cbn [mbind option_bind]. do 3 f_equal. lia.
  - destruct (Z.ltb_spec (0xF0 + c / 262144) 0x80); [lia|]. destruct (Z.ltb_spec (0xF0 + c / 262144) 0xE0); [lia|].
    destruct (Z.ltb_spec (0xF0 + c / 262144) 0xF0); [lia|]. cbn [mbind option_bind].
    rewrite (land_low _ 3 0x07), !(land_low _ 6 0x3F) by done.
    rewrite (Z.shiftl_mul_pow2 _ 12), (Z.shiftl_mul_pow2 _ 6) by lia.
    replace ((0x80 + c / 4096 mod 64) mod 2 ^ 6 * 2 ^ 12) with (c / 4096 mod 64 * 4096) by lia.
    rewrite (lor_shiftl _ (c / 4096 mod 64 * 4096)) by lia.
    replace ((0xF0 + c / 262144) mod 2 ^ 3 * 2 ^ 18 + c / 4096 mod 64 * 4096) with (c / 4096 * 2 ^ 12) by lia.
    replace ((0x80 + c / 64 mod 64) mod 2 ^ 6 * 2 ^ 6) with (c / 64 mod 64 * 64) by lia.
    rewrite (Z.lor_comm (c / 4096 * 2 ^ 12)), lor_disjoint by lia.
    replace (c / 64 mod 64 * 64 + c / 4096 * 2 ^ 12) with (c / 64 * 2 ^ 6) by lia.
    rewrite Z.lor_comm, lor_disjoint by lia. rewrite class_of_scalar_ok by lia. cbn [mbind option_bind]. do 3 f_equal. lia.
Qed.

(** ** Runs *)
Fixpoint run_length (p : Z -> bool) (cs : list Z) : nat :=
  match cs with
  | c :: cs => if p c then S (run_length p cs) else O
  | [] => O
  end.

Definition of_class (class : Class) (c : Z) : bool := bool_decide (scalar_class c = class).

(** The characters, and the bytes, of the maximal run of a class. *)
Definition run_of (class : Class) (cs : list Z) : list Z := take (run_length (of_class class) cs) cs.
Definition run_bytes (class : Class) (cs : list Z) : nat := length (encode_utf8 (run_of class cs)).

Lemma encode_cons c cs : encode_utf8 (c :: cs) = utf8 c ++ encode_utf8 cs.
Proof. done. Qed.
Lemma encode_app cs cs' : encode_utf8 (cs ++ cs') = encode_utf8 cs ++ encode_utf8 cs'.
Proof. apply bind_app. Qed.

Lemma utf8_nonempty c : (1 <= length (utf8 c))%nat.
Proof. unfold utf8. repeat destruct (_ <? _); cbn; lia. Qed.

Lemma length_encode cs : (length cs <= length (encode_utf8 cs))%nat.
Proof.
  induction cs as [|c cs IH]; [done|]. rewrite encode_cons, length_app. pose proof (utf8_nonempty c). cbn [length]. lia.
Qed.

Lemma run_of_cons class c cs :
  run_of class (c :: cs) = if decide (scalar_class c = class) then c :: run_of class cs else [].
Proof.
  unfold run_of, of_class. cbn [run_length]. destruct (decide (scalar_class c = class)) as [H|H].
  - by rewrite bool_decide_eq_true_2.
  - by rewrite bool_decide_eq_false_2.
Qed.

Lemma run_bytes_cons class c cs :
  run_bytes class (c :: cs) = if decide (scalar_class c = class) then (length (utf8 c) + run_bytes class cs)%nat else O.
Proof. unfold run_bytes. rewrite run_of_cons. case_decide; [by rewrite encode_cons, length_app|done]. Qed.

Lemma run_chars_ok fuel P cs class :
  Forall scalar cs -> (length cs <= fuel)%nat ->
  run_chars fuel (P ++ encode_utf8 cs) (length P) class = Some (length P + run_bytes class cs)%nat.
Proof.
  intros Hs. revert fuel P. induction Hs as [|c cs Hc Hs IH]; intros fuel P Hf.
  - assert (length (P ++ encode_utf8 []) = length P) as Hl by (by rewrite app_nil_r).
    destruct fuel; cbn [run_chars]; rewrite Hl; destruct (Nat.ltb_spec (length P) (length P)); try lia;
      by rewrite Nat.add_0_r.
  - rewrite encode_cons, run_bytes_cons. cbn [length] in Hf. destruct fuel as [|fuel]; [lia|]. cbn [run_chars].
    pose proof (utf8_nonempty c). destruct (Nat.ltb_spec (length P) (length (P ++ utf8 c ++ encode_utf8 cs)));
      [|rewrite !length_app in *; lia].
    rewrite class_at_ok by done. cbn [mbind option_bind]. case_decide; [|by rewrite Nat.add_0_r].
    specialize (IH fuel (P ++ utf8 c) ltac:(lia)). rewrite length_app, <- app_assoc in IH. rewrite IH. f_equal. lia.
Qed.

(** ** Words of a run *)
Lemma encode_ascii_head cs b R : Forall scalar cs -> encode_utf8 cs = b :: R -> b < 0x80 ->
  exists cs', cs = b :: cs' /\ R = encode_utf8 cs'.
Proof.
  intros Hs He Hb. destruct Hs as [|c cs Hc Hs]; [done|]. rewrite encode_cons in He. apply scalar_range in Hc.
  unfold utf8 in He. destruct (Z.ltb_spec c 0x80); [|destruct (Z.ltb_spec c 0x800); [|destruct (Z.ltb_spec c 0x10000)]];
    cbn [app] in He; injection He as Hb' HR; [|lia|lia|lia]. subst. by exists cs.
Qed.

Lemma encode_ascii_prefix cs bs R :
  Forall scalar cs -> encode_utf8 cs = bs ++ R -> Forall (fun b => b < 0x80) bs ->
  exists cs', cs = bs ++ cs' /\ R = encode_utf8 cs'.
Proof.
  intros Hs He Hb. revert cs Hs He. induction Hb as [|b bs Hb _ IH]; intros cs Hs He; [by exists cs|].
  destruct (encode_ascii_head cs b (bs ++ R) Hs He Hb) as (cs' & -> & He'). apply Forall_cons_iff in Hs as [_ Hs].
  destruct (IH cs' Hs (eq_sym He')) as (cs'' & -> & HR). by exists cs''.
Qed.

Lemma encode_u8 cs : Forall scalar cs -> Forall is_u8 (encode_utf8 cs).
Proof.
  induction 1 as [|c cs Hc _ IH]; [constructor|]. rewrite encode_cons. apply Forall_app. split; [|done]. apply scalar_range in Hc.
  unfold utf8. destruct (Z.ltb_spec c 0x80); [|destruct (Z.ltb_spec c 0x800); [|destruct (Z.ltb_spec c 0x10000)]];
    repeat (constructor; [munfold; lia|]); constructor.
Qed.

Lemma lanes_nonneg f bs : Forall (fun b => 0 <= f b) bs -> 0 <= lanes f bs.
Proof. unfold lanes. induction 1; cbn [fmap list_fmap from_le_bytes]; lia. Qed.

Lemma lanes_zero f bs : Forall (fun b => 0 <= f b) bs -> (lanes f bs = 0 <-> Forall (fun b => f b = 0) bs).
Proof.
  unfold lanes. intros Hf. split.
  - induction Hf as [|b bs Hb Hf IH]; [constructor|]. cbn [fmap list_fmap from_le_bytes]. intros H.
    pose proof (lanes_nonneg f bs Hf). unfold lanes in *. constructor; [lia|]. apply IH. lia.
  - induction 1; cbn [fmap list_fmap from_le_bytes]; [done|]. apply Forall_cons_iff in Hf as [_ Hf]. specialize (IHForall Hf). lia.
Qed.

Lemma high_bits_clear bs :
  length bs = 8%nat -> Forall is_u8 bs -> (Z.land (from_le_bytes bs) HI = 0 <-> Forall (fun b => 0 <= b < 128) bs).
Proof.
  intros Hlen Hu. assert (from_le_bytes bs = lanes (fun b => b) bs) as -> by (unfold lanes; by rewrite list_fmap_id).
  assert (Forall (fun b => 0 <= b < 256) bs) as Hb by (eapply Forall_impl; [|exact Hu]; munfold; lia).
  rewrite (HI_lanes bs), lanes_land by (done || (apply all_lanes; lia)).
  assert (forall b, 0 <= b < 256 -> (Z.land b 128 = 0 <-> 0 <= b < 128)) as Hbit.
  { intros b Hb'. pose (Q := fun b => eqb (Z.land b 128 =? 0) (b <? 128)). assert (Q b = true) as HQ.
    { assert (forallb Q (seqZ 0 256) = true) as HA by (vm_compute; reflexivity). rewrite forallb_forall in HA.
      apply HA, list_elem_of_In, elem_of_seqZ. lia. }
    unfold Q in HQ. apply eqb_prop in HQ. lia. }
  rewrite lanes_zero by (eapply Forall_impl; [|exact Hb]; intros b ?; cbn; by apply land_lane).
  rewrite !Forall_forall in *. split; intros H b Hin; specialize (H b Hin); specialize (Hb b Hin); cbn in *; by apply Hbit.
Qed.

Lemma ascii_class_scalar b : 0 <= b < 128 -> ascii_class b = scalar_class b.
Proof.
  intros Hb. pose proof (ascii_class_ok b Hb) as H. unfold ASCII_CLASS in H.
  rewrite list_lookup_fmap, (lookup_seqZ_lt 0 128) in H by lia. cbn [fmap option_fmap option_map] in H.
  rewrite Z2Nat.id, Z.add_0_l in H by lia. congruence.
Qed.

(** The lanes outside the class. *)
Definition outside (class : Class) (b : Z) : Z := if decide (scalar_class b = class) then 0 else 128.

Lemma outside_range class b : 0 <= outside class b < 256.
Proof. unfold outside. case_decide; lia. Qed.

Lemma mask_complement class bs :
  length bs = 8%nat -> Forall (fun b => 0 <= b < 128) bs ->
  Z.land (not_u64 (ascii_class_mask (from_le_bytes bs) class)) HI = lanes (outside class) bs /\
  HI - ascii_class_mask (from_le_bytes bs) class = lanes (outside class) bs.
Proof.
  intros Hlen Ha. rewrite ascii_class_mask_lanes by done.
  assert (lanes (mask_lane class) bs = lanes (fun b => 128 - outside class b) bs) as ->.
  { unfold lanes. f_equal. apply list_fmap_ext. intros i b Hb. pose proof (Forall_lookup_1 _ _ _ _ Ha Hb) as Hlt. cbn in Hlt.
    rewrite mask_lane_class, ascii_class_scalar by done. unfold outside. by case_decide. }
  split.
  - unfold not_u64. change u64_MAX with (LO * 255). rewrite (lanes_const _ bs), (HI_lanes bs) by done.
    assert (Forall (fun b => 0 <= 128 - outside class b < 256) bs)
      by (apply all_lanes; intros b; unfold outside; case_decide; lia).
    rewrite lanes_lxor by (done || (apply all_lanes; lia)). rewrite lanes_land by (apply all_lanes; intros b; try apply lxor_lane;
      unfold outside; try case_decide; lia).
    unfold lanes. f_equal. apply list_fmap_ext. intros i b _. unfold outside. by case_decide.
  - rewrite (HI_lanes bs), lanes_sub by done. unfold lanes. f_equal. apply list_fmap_ext. intros i b _. lia.
Qed.

Lemma tz_lanes class bs fuel :
  (8 * length bs <= fuel)%nat -> lanes (outside class) bs <> 0 ->
  trailing_zeros fuel 0 (lanes (outside class) bs) = 8 * Z.of_nat (run_length (of_class class) bs) + 7.
Proof.
  revert fuel. induction bs as [|b bs IH]; intros fuel Hf Hne; [done|]. unfold lanes in *. cbn [length fmap list_fmap from_le_bytes] in *.
  do 8 (destruct fuel as [|fuel]; [lia|]). cbn [run_length]. unfold of_class at 1.
  destruct (decide (scalar_class b = class)) as [Hc|Hc].
  - assert (outside class b = 0) as Ho by (unfold outside; by rewrite decide_True). rewrite Ho in *.
    rewrite bool_decide_eq_true_2 by done. change (S (S (S (S (S (S (S (S fuel)))))))) with (8 + fuel)%nat.
    rewrite tz_low; [|intros j Hj; rewrite lane_bits, Z.bits_0 by lia; by destruct (Z.ltb_spec j 8); [|lia]].
    rewrite (tz_shift fuel 0), IH by lia. lia.
  - assert (outside class b = 128) as -> by (unfold outside; by rewrite decide_False).
    rewrite bool_decide_eq_false_2, !tz_step, !lane_bits by (done || lia). done.
Qed.

Lemma run_of_app class pre cs :
  Forall (fun c => scalar_class c = class) pre -> run_of class (pre ++ cs) = pre ++ run_of class cs.
Proof. induction 1 as [|c pre Hc _ IH]; [done|]. cbn [app]. by rewrite run_of_cons, decide_True, IH. Qed.

Lemma run_bytes_app class pre cs :
  Forall (fun c => scalar_class c = class) pre -> run_bytes class (pre ++ cs) = (length (encode_utf8 pre) + run_bytes class cs)%nat.
Proof. intros H. unfold run_bytes. by rewrite run_of_app, encode_app, length_app by done. Qed.

Lemma encode_ascii bs : Forall (fun b => 0 <= b < 128) bs -> encode_utf8 bs = bs.
Proof.
  induction 1 as [|b bs Hb _ IH]; [done|]. rewrite encode_cons, IH. unfold utf8. destruct (Z.ltb_spec b 0x80); [done|lia].
Qed.

Lemma run_length_app_stop p bs cs : (run_length p bs < length bs)%nat -> run_length p (bs ++ cs) = run_length p bs.
Proof.
  induction bs as [|b bs IH]; cbn; [lia|]. destruct (p b); [|done]. intros H. rewrite IH; [done|lia].
Qed.

Lemma run_length_le p cs : (run_length p cs <= length cs)%nat.
Proof. induction cs as [|c cs IH]; cbn; [done|]. destruct (p c); lia. Qed.

Lemma run_length_full p cs : (length cs <= run_length p cs)%nat -> Forall (fun c => p c = true) cs.
Proof.
  induction cs as [|c cs IH]; cbn; [constructor|]. destruct (p c) eqn:Hp; [|lia]. intros H. constructor; [done|]. apply IH. lia.
Qed.

(** A word inside a run: either all eight bytes belong to the class, or the run ends in it. *)
Lemma word_run class bs cs :
  length bs = 8%nat -> Forall (fun b => 0 <= b < 128) bs ->
  if ascii_class_mask (from_le_bytes bs) class =? HI then Forall (fun b => scalar_class b = class) bs
  else Z.to_nat (trailing_zeros 64 0 (Z.land (not_u64 (ascii_class_mask (from_le_bytes bs) class)) HI) / 8) =
    run_bytes class (bs ++ cs).
Proof.
  intros Hlen Ha. destruct (mask_complement class bs Hlen Ha) as [-> Hdiff].
  assert (Forall (fun b => 0 <= outside class b) bs) as Hnn by (apply all_lanes; intros b; apply outside_range).
  destruct (Z.eqb_spec (ascii_class_mask (from_le_bytes bs) class) HI) as [Heq|Hne].
  - rewrite Heq, Z.sub_diag in Hdiff. symmetry in Hdiff. apply lanes_zero in Hdiff; [|done]. eapply Forall_impl; [|exact Hdiff].
    cbn. unfold outside. intros b. by case_decide.
  - assert (lanes (outside class) bs <> 0) as Hnz by lia. rewrite tz_lanes by (done || lia).
    assert (run_length (of_class class) bs < length bs)%nat as Hlt.
    { pose proof (run_length_le (of_class class) bs). destruct (Nat.lt_ge_cases (run_length (of_class class) bs) (length bs)) as [|Hge]; [done|].
      destruct Hnz. apply lanes_zero; [done|]. eapply Forall_impl; [|apply run_length_full, Hge]. intros b Hb.
      unfold outside. rewrite decide_True; [done|]. by apply bool_decide_eq_true in Hb. }
    unfold run_bytes, run_of. rewrite run_length_app_stop, take_app_le by lia.
    rewrite encode_ascii by (by apply Forall_take). rewrite length_take. lia.
Qed.

Lemma run_words_ok fuel P cs class :
  Forall scalar cs -> (length (encode_utf8 cs) <= fuel)%nat ->
  exists r, run_words fuel (P ++ encode_utf8 cs) (length P) class = Some r /\
    match r with
    | inl last => last = (length P + run_bytes class cs)%nat
    | inr i => exists pre cs', cs = pre ++ cs' /\ Forall (fun c => scalar_class c = class) pre /\ i = (length P + length (encode_utf8 pre))%nat
    end.
Proof.
  revert P cs. induction fuel as [|fuel IH]; intros P cs Hs Hf.
  { exists (inr (length P)). split; [|exists [], cs; split_and!; [done|constructor|cbn; lia]]. cbn [run_words].
    unfold get_range. destruct (Nat.leb_spec (length P + 8) (length (P ++ encode_utf8 cs))); [rewrite length_app in *; lia|done]. }
  cbn [run_words]. unfold get_range. destruct (Nat.leb_spec (length P + 8) (length (P ++ encode_utf8 cs))) as [Hle|Hgt];
    [|exists (inr (length P)); split; [done|]; exists [], cs; split_and!; [done|constructor|cbn; lia]].
  unfold slice. rewrite drop_app_length. rewrite length_app in Hle. set (bs := take 8 (encode_utf8 cs)).
  assert (length bs = 8%nat) as Hlen by (unfold bs; rewrite length_take; lia).
  assert (Forall is_u8 bs) as Hu by (apply Forall_take; by apply encode_u8).
  destruct (Z.eqb_spec (Z.land (from_le_bytes bs) HI) 0) as [Hz|Hnz]; cbn [negb];
    [|exists (inr (length P)); split; [done|]; exists [], cs; split_and!; [done|constructor|cbn; lia]].
  apply high_bits_clear in Hz; [|done|done].
  destruct (encode_ascii_prefix cs bs (drop 8 (encode_utf8 cs)) Hs) as (cs' & Hcs & Hdrop);
    [unfold bs; by rewrite take_drop|eapply Forall_impl; [|exact Hz]; cbn; lia|].
  pose proof (word_run class bs cs' Hlen Hz) as Hword. clearbody bs. subst cs. apply Forall_app in Hs as [_ Hs].
  rewrite encode_app, (encode_ascii bs) in * by done.
  destruct (ascii_class_mask (from_le_bytes bs) class =? HI); [|eexists; split; [done|]; cbn beta iota; by rewrite Hword].
  rewrite length_app, Hlen in Hf. destruct (IH (P ++ bs) cs' Hs) as (r & Hr & Hspec); [lia|].
  rewrite length_app, Hlen, <- app_assoc in Hr. exists r. split; [exact Hr|]. rewrite length_app, Hlen in Hspec. destruct r as [last|i].
  - rewrite Hspec, run_bytes_app, encode_ascii, Hlen by done. lia.
  - destruct Hspec as (pre & cs'' & -> & Hpre & ->). exists (bs ++ pre), cs''. rewrite <- app_assoc. split; [done|].
    split; [by apply Forall_app|]. rewrite encode_app, (encode_ascii bs), length_app, Hlen by done. lia.
Qed.

Lemma run_end_ok P cs class :
  Forall scalar cs -> run_end (P ++ encode_utf8 cs) (length P) class = Some (length P + run_bytes class cs)%nat.
Proof.
  intros Hs. unfold run_end. destruct (run_words_ok (length (P ++ encode_utf8 cs)) P cs class Hs) as (r & -> & Hr);
    [rewrite length_app; lia|]. cbn [mbind option_bind]. destruct r as [last|i]; [by rewrite Hr|].
  destruct Hr as (pre & cs' & -> & Hpre & ->). apply Forall_app in Hs as [_ Hs].
  rewrite encode_app, run_bytes_app, app_assoc by done.
  replace (length P + length (encode_utf8 pre))%nat with (length (P ++ encode_utf8 pre)) by apply length_app.
  rewrite run_chars_ok; [|done|].
  - rewrite length_app. f_equal. lia.
  - rewrite !length_app. pose proof (length_encode cs'). lia.
Qed.
