(* ===== verification/Pattern.v ===== *)
(** * Pattern: the scanner is the regular expression (crates/tokenizer/src/scan.rs, lib.rs).

    The pre-tokenizer pattern with its ordered alternatives, greedy repetition and lookahead, on
    scalar values, and the proof that the scanner over bytes finds the same pieces. *)
From S2P Require Import Prelude.
From S2P Require Import Unicode.
From S2P Require Import Scan.
#[local] Open Scope Z_scope.

(** ** The pattern

    Match lengths in the order a backtracking matcher tries them. *)
Inductive re :=
| Chr (p : Z -> bool)
| Cat (r1 r2 : re)
| Maybe (r : re)
| Many1 (p : Z -> bool)
| NotAhead (p : Z -> bool).

(** [n, n - 1, .., 1]. *)
Fixpoint descending (n : nat) : list nat :=
  match n with O => [] | S n' => n :: descending n' end.

Fixpoint matches (r : re) (cs : list Z) : list nat :=
  match r with
  | Chr p => match cs with c :: _ => if p c then [1%nat] else [] | [] => [] end
  | Cat r1 r2 => matches r1 cs ≫= (fun k => (fun j => (k + j)%nat) <$> matches r2 (drop k cs))
  | Maybe r => matches r cs ++ [O]
  | Many1 p => descending (run_length p cs)
  | NotAhead p => match cs with c :: _ => if p c then [] else [O] | [] => [O] end
  end.

Definition lit (c : Z) : re := Chr (Z.eqb c).
Definition is_other (c : Z) : bool := negb (is_space c) && negb (is_letter c) && negb (is_number c).

(** ['s|'t|'re|'ve|'m|'ll|'d| ?\p{L}+| ?\p{N}+| ?[^\s\p{L}\p{N}]+|\s+(?!\S)|\s+]. *)
Definition CLAUDE_PAT : list re :=
  [ Cat (lit 39) (lit 115); Cat (lit 39) (lit 116); Cat (lit 39) (Cat (lit 114) (lit 101));
    Cat (lit 39) (Cat (lit 118) (lit 101)); Cat (lit 39) (lit 109); Cat (lit 39) (Cat (lit 108) (lit 108));
    Cat (lit 39) (lit 100);
    Cat (Maybe (lit 32)) (Many1 is_letter); Cat (Maybe (lit 32)) (Many1 is_number);
    Cat (Maybe (lit 32)) (Many1 is_other);
    Cat (Many1 is_space) (NotAhead (fun c => negb (is_space c))); Many1 is_space ].

(** The leftmost-first match at the start of [cs]. *)
Definition first_match (cs : list Z) : option nat := head (CLAUDE_PAT ≫= (fun r => matches r cs)).

(** Successive matches; a position without one is skipped. *)
Fixpoint regex_pieces (fuel : nat) (cs : list Z) : list (list Z) :=
  match fuel, cs with
  | S fuel, _ :: rest =>
      match first_match cs with
      | Some n => take n cs :: regex_pieces fuel (drop n cs)
      | None => regex_pieces fuel rest
      end
  | _, _ => []
  end.

(** Byte ranges of consecutive pieces. *)
Fixpoint byte_spans (pos : nat) (ps : list (list Z)) : list (nat * nat) :=
  match ps with
  | [] => []
  | p :: ps => let last := (pos + length (encode_utf8 p))%nat in (pos, last) :: byte_spans last ps
  end.

(** ** The scanner on characters *)
Definition contraction (cs : list Z) : option nat :=
  match cs with
  | c0 :: c1 :: rest =>
      if c0 =? 39 then
        if (c1 =? 115) || (c1 =? 116) || (c1 =? 109) || (c1 =? 100) then Some 2%nat
        else if (c1 =? 114) || (c1 =? 118) then
          match rest with c2 :: _ => if c2 =? 101 then Some 3%nat else None | [] => None end
        else if c1 =? 108 then
          match rest with c2 :: _ => if c2 =? 108 then Some 3%nat else None | [] => None end
        else None
      else None
  | _ => None
  end.

(** A whitespace run from [c] on gives its last character back before something else. *)
Definition space_piece (c : Z) (cs : list Z) : list Z :=
  let r := run_of Space cs in
  if (length r =? length cs)%nat || (length r =? 0)%nat then c :: r else take (length r) (c :: r).

Definition scan_piece (cs : list Z) : list Z :=
  match cs with
  | [] => []
  | c :: cs' =>
      match contraction cs with
      | Some k => take k cs
      | None =>
          match cs' with
          | c1 :: cs'' =>
              if (c =? 32) && negb (bool_decide (scalar_class c1 = Space)) then c :: c1 :: run_of (scalar_class c1) cs''
              else if decide (scalar_class c = Space) then space_piece c cs' else c :: run_of (scalar_class c) cs'
          | [] => if decide (scalar_class c = Space) then space_piece c cs' else c :: run_of (scalar_class c) cs'
          end
      end
  end.

(** ** Bytes of characters *)
Lemma utf8_cases c : scalar c ->
  (c < 128 /\ utf8 c = [c]) \/ (128 <= c /\ exists b R, utf8 c = b :: R /\ 192 <= b < 256 /\ Forall (fun x => 128 <= x < 192) R).
Proof.
  intros Hc%scalar_range. unfold utf8. destruct (Z.ltb_spec c 0x80); [by left|right]. split; [done|].
  destruct (Z.ltb_spec c 0x800); [|destruct (Z.ltb_spec c 0x10000)]; eexists _, _; (split; [done|]);
    (split; [|repeat (constructor; [|])]); try constructor; Z.div_mod_to_equations; lia.
Qed.

(** A byte test against an ASCII character is a test of the character. *)
Lemma first_byte_test c R b k : scalar c -> utf8 c ++ R = b :: tail (utf8 c ++ R) -> k < 128 -> (b =? k) = (c =? k).
Proof.
  intros Hc He Hk. destruct (utf8_cases c Hc) as [[Hlt Hu]|(Hge & b' & R' & Hu & Hb' & _)]; rewrite Hu in He; cbn [app tail] in He.
  - by injection He as ->.
  - injection He as ->. destruct (Z.eqb_spec b k), (Z.eqb_spec c k); try done; lia.
Qed.

Lemma encode_head c cs : scalar c -> exists b, encode_utf8 (c :: cs) !! O = Some b /\
  (b <? 0x80) = (c <? 0x80) /\ (forall k, k < 128 -> (b =? k) = (c =? k)) /\ (c < 0x80 -> b = c).
Proof.
  intros Hc. rewrite encode_cons. destruct (utf8_cases c Hc) as [[Hlt Hu]|(Hge & b & R & Hu & Hb & _)]; rewrite Hu; cbn [app lookup list_lookup].
  - exists c. split; [done|]. split; [done|]. split; [done|done].
  - exists b. split; [done|]. split; [destruct (Z.ltb_spec b 0x80), (Z.ltb_spec c 0x80); try done; lia|].
    split; [|lia]. intros k Hk. destruct (Z.eqb_spec b k), (Z.eqb_spec c k); try done; lia.
Qed.

Lemma continuation_test b : 0 <= b < 256 -> (Z.land b 0xC0 =? 0x80) = bool_decide (128 <= b < 192).
Proof.
  intros Hb. pose (F := fun b => eqb (Z.land b 0xC0 =? 0x80) (bool_decide (128 <= b < 192))).
  assert (F b = true) as HF; [|by apply eqb_prop].
  assert (forallb F (seqZ 0 256) = true) as HA by (vm_compute; reflexivity). rewrite forallb_forall in HA.
  apply HA, list_elem_of_In, elem_of_seqZ. lia.
Qed.

Lemma back_up_ok Q d R : scalar d -> back_up (Q ++ utf8 d ++ R) (length Q + length (utf8 d) - 1) = Some (length Q).
Proof.
  intros Hd. apply scalar_range in Hd as Hr. destruct (utf8_cases d Hd) as [[Hlt ->]|(Hge & b & S' & -> & Hb & HS)].
  - cbn [length]. replace (length Q + 1 - 1)%nat with (length Q) by lia.
    assert ((Q ++ [d] ++ R) !! length Q = Some d) as Hl by (rewrite lookup_app_r, Nat.sub_diag by lia; done).
    destruct (length Q); cbn [back_up]; rewrite Hl; cbn [mbind option_bind]; rewrite (continuation_test d), bool_decide_eq_false_2 by lia; done.
  - cbn [length]. replace (length Q + S (length S') - 1)%nat with (length Q + length S')%nat by lia.
    assert (forall k, (k <= length S')%nat -> back_up (Q ++ (b :: S') ++ R) (length Q + k) = Some (length Q)) as H; [|by apply H].
    induction k as [|k IH]; intros Hk.
    + rewrite Nat.add_0_r. assert ((Q ++ (b :: S') ++ R) !! length Q = Some b) as Hl by (rewrite lookup_app_r, Nat.sub_diag by lia; done).
      destruct (length Q); cbn [back_up]; rewrite Hl; cbn [mbind option_bind]; rewrite (continuation_test b), bool_decide_eq_false_2 by lia; done.
    + destruct (lookup_lt_is_Some_2 S' k) as [x Hx]; [lia|]. pose proof (Forall_lookup_1 _ _ _ _ HS Hx) as Hxr. cbn in Hxr.
      replace (length Q + S k)%nat with (S (length Q + k)) by lia. cbn [back_up].
      assert ((Q ++ (b :: S') ++ R) !! S (length Q + k) = Some x) as ->.
      { replace (S (length Q + k)) with (length Q + S k)%nat by lia. rewrite lookup_after. cbn [app lookup list_lookup]. by apply lookup_app_l_Some. }
      cbn [mbind option_bind]. rewrite (continuation_test x), bool_decide_eq_true_2 by lia. apply IH. lia.
Qed.

Lemma run_split class cs : cs = run_of class cs ++ drop (length (run_of class cs)) cs.
Proof.
  unfold run_of. rewrite length_take, Nat.min_l by apply run_length_le. by rewrite take_drop.
Qed.

(** ** Byte-level pieces *)
Lemma whitespace_end_ok P c cs :
  scalar c -> Forall scalar cs ->
  whitespace_piece_end (P ++ encode_utf8 (c :: cs)) (length P) (length (utf8 c)) =
  Some (length P + length (encode_utf8 (space_piece c cs)))%nat.
Proof.
  intros Hc Hs. unfold whitespace_piece_end, space_piece. rewrite encode_cons, app_assoc.
  replace (length P + length (utf8 c))%nat with (length (P ++ utf8 c)) by apply length_app.
  rewrite run_end_ok by done. cbn [mbind option_bind]. unfold run_bytes. set (r := run_of Space cs).
  pose proof (run_split Space cs) as Hsplit. fold r in Hsplit. set (rest := drop (length r) cs) in *. clearbody rest.
  assert (length (encode_utf8 cs) = length (encode_utf8 r) + length (encode_utf8 rest))%nat as Hbytes
    by (rewrite Hsplit at 1; by rewrite encode_app, length_app).
  assert (length cs = length r + length rest)%nat as Hchars by (rewrite Hsplit at 1; apply length_app).
  pose proof (length_encode r). pose proof (length_encode rest). rewrite (length_app (P ++ utf8 c)).
  assert (length (encode_utf8 rest) = 0%nat <-> length rest = 0%nat) as Hrest by (destruct rest; [done|cbn [length] in *; lia]).
  assert (length (encode_utf8 r) = 0%nat <-> length r = 0%nat) as Hr by (destruct r; [done|cbn [length] in *; lia]).
  set (last := (length (P ++ utf8 c) + length (encode_utf8 r))%nat).
  assert ((last =? length (P ++ utf8 c) + length (encode_utf8 cs))%nat || (last =? length (P ++ utf8 c))%nat =
    (length r =? length cs)%nat || (length r =? 0)%nat) as ->.
  { apply eq_true_iff_eq. rewrite !orb_true_iff, !Nat.eqb_eq. unfold last. lia. }
  destruct (_ || _) eqn:Hcase; [rewrite encode_cons, length_app; unfold last; rewrite length_app; f_equal; lia|].
  apply orb_false_iff in Hcase as [_ Hne%Nat.eqb_neq]. destruct (exists_last (l := r)) as (r' & d & Hd); [by intros ->|].
  assert (scalar d) as Hds.
  { rewrite Hsplit, Hd in Hs. apply Forall_app in Hs as [Hs _]. apply Forall_app in Hs as [_ Hs]. by apply Forall_cons_iff in Hs as [? _]. }
  assert (take (length r) (c :: r) = c :: r') as ->.
  { rewrite Hd, length_app, Nat.add_1_r. cbn [length take]. by rewrite take_app_length. }
  unfold last. rewrite Hsplit, Hd, !encode_app, encode_cons, app_nil_r, <- !app_assoc, !length_app.
  rewrite (app_assoc (utf8 c)), (app_assoc P). pose proof (utf8_nonempty d).
  pose proof (back_up_ok (P ++ utf8 c ++ encode_utf8 r') d (encode_utf8 rest) Hds) as Hb.
  rewrite encode_cons, length_app. rewrite !length_app in Hb.
  match goal with |- back_up _ ?i = _ => replace i with (length P + (length (utf8 c) + length (encode_utf8 r')) + length (utf8 d) - 1)%nat by lia end.
  exact Hb.
Qed.

Lemma utf8_ascii c : c < 128 -> utf8 c = [c].
Proof. intros Hc. unfold utf8. destruct (Z.ltb_spec c 0x80); [done|lia]. Qed.

Lemma contraction_bytes cs k : contraction cs = Some k -> length (encode_utf8 (take k cs)) = k.
Proof.
  unfold contraction. destruct cs as [|c0 [|c1 rest]]; [done|done|].
  destruct (Z.eqb_spec c0 39) as [->|]; [|done]. destruct ((c1 =? 115) || (c1 =? 116) || (c1 =? 109) || (c1 =? 100)) eqn:H1.
  { intros [= <-]. cbn [take]. rewrite !encode_cons, !utf8_ascii by lia. done. }
  destruct ((c1 =? 114) || (c1 =? 118)) eqn:H2; [|destruct (Z.eqb_spec c1 108) as [->|]; [|done]];
    (destruct rest as [|c2 rest]; [done|]);
    [destruct (Z.eqb_spec c2 101) as [->|]|destruct (Z.eqb_spec c2 108) as [->|]]; try done; intros [= <-]; cbn [take];
    rewrite !encode_cons, !utf8_ascii by lia; done.
Qed.

Lemma third_byte P c1 rest x :
  c1 < 128 -> Forall scalar rest -> x < 128 ->
  let bytes := P ++ encode_utf8 (39 :: c1 :: rest) in
  (if (length P + 2 <? length bytes)%nat then
     b2 ← bytes !! (length P + 2)%nat; Some (if b2 =? x then Some (length P + 3)%nat else None)
   else Some None) =
  Some ((fun k => (length P + k)%nat) <$> match rest with c2 :: _ => if c2 =? x then Some 3%nat else None | [] => None end).
Proof.
  intros Hc1 Hs Hx bytes. unfold bytes. rewrite lookup_after, length_app, !encode_cons, !utf8_ascii by lia. cbn [app length].
  change ((39 :: c1 :: encode_utf8 rest) !! 2%nat) with (encode_utf8 rest !! O). destruct rest as [|c2 rest].
  - change (length (encode_utf8 [])) with O. by rewrite Nat.ltb_irrefl.
  - apply Forall_cons_iff in Hs as [Hc2 _]. destruct (encode_head c2 rest Hc2) as (b & Hb & _ & Ht & _).
    pose proof (lookup_lt_Some _ _ _ Hb). destruct (Nat.ltb_spec (length P + 2) (length P + S (S (length (encode_utf8 (c2 :: rest)))))); [|lia].
    rewrite Hb. cbn [mbind option_bind]. rewrite Ht by done. by destruct (c2 =? x).
Qed.

Lemma contraction_end_ok P cs :
  Forall scalar cs -> cs <> [] ->
  contraction_end (P ++ encode_utf8 (39 :: cs)) (length P) = Some ((fun k => (length P + k)%nat) <$> contraction (39 :: cs)).
Proof.
  intros Hs Hne. destruct cs as [|c1 rest]; [done|]. apply Forall_cons_iff in Hs as [Hc1 Hs].
  destruct (encode_head c1 rest Hc1) as (b & Hb & _ & Ht & _). unfold contraction_end, contraction.
  rewrite (lookup_after P _ 1), (encode_cons 39), (utf8_ascii 39) by lia. cbn [app].
  change ((39 :: encode_utf8 (c1 :: rest)) !! 1%nat) with (encode_utf8 (c1 :: rest) !! O). rewrite Hb. cbn [mbind option_bind]. rewrite !Ht, Z.eqb_refl by lia.
  destruct ((c1 =? 115) || (c1 =? 116) || (c1 =? 109) || (c1 =? 100)); [done|].
  destruct ((c1 =? 114) || (c1 =? 118)) eqn:H2.
  { pose proof (third_byte P c1 rest 101 ltac:(lia) Hs ltac:(lia)) as H3.
    rewrite (encode_cons 39), (utf8_ascii 39) in H3 by lia. exact H3. }
  destruct (Z.eqb_spec c1 108) as [->|]; [|done].
  pose proof (third_byte P 108 rest 108 ltac:(lia) Hs ltac:(lia)) as H3. rewrite (encode_cons 39), (utf8_ascii 39) in H3 by lia. exact H3.
Qed.

(** The two tests on an ASCII lead, as the scanner makes them. *)
Lemma short_ok P c cs :
  Forall scalar cs -> c < 128 ->
  (if (c =? 39) && (length P + 1 <? length (P ++ encode_utf8 (c :: cs)))%nat then contraction_end (P ++ encode_utf8 (c :: cs)) (length P)
   else Some None) = Some ((fun k => (length P + k)%nat) <$> contraction (c :: cs)).
Proof.
  intros Hs Hc. destruct (Z.eqb_spec c 39) as [->|Hne]; cbn [andb].
  - destruct cs as [|c1 cs]; [rewrite length_app; change (length (encode_utf8 [39])) with 1%nat; by rewrite Nat.ltb_irrefl|].
    rewrite length_app, (encode_cons 39), (utf8_ascii 39), length_app by lia. pose proof (length_encode (c1 :: cs)). cbn [length] in *.
    destruct (Nat.ltb_spec (length P + 1) (length P + (1 + length (encode_utf8 (c1 :: cs))))); [|lia].
    by rewrite <- contraction_end_ok, (encode_cons 39), (utf8_ascii 39) by (done || lia).
  - unfold contraction. destruct (Z.eqb_spec c 39); [done|]. by destruct cs.
Qed.

Lemma spaced_ok P c cs :
  Forall scalar cs -> c < 128 ->
  let bytes := P ++ encode_utf8 (c :: cs) in
  (if (c =? 32) && (length P + 1 <? length bytes)%nat then
     r ← class_at bytes (length P + 1);
     let '(c1, l1) := r in
     if decide (c1 = Space) then Some None
     else last ← run_end bytes (length P + 1 + l1) c1; Some (Some last)
   else Some None) =
  Some (match cs with
        | c1 :: cs' =>
            if (c =? 32) && negb (bool_decide (scalar_class c1 = Space))
            then Some (length P + length (encode_utf8 (c :: c1 :: run_of (scalar_class c1) cs')))%nat else None
        | [] => None
        end).
Proof.
  intros Hs Hc bytes. unfold bytes. destruct (Z.eqb_spec c 32) as [->|Hne]; cbn [andb]; [|by destruct cs].
  rewrite (encode_cons 32), (utf8_ascii 32), length_app by lia. destruct cs as [|c1 cs];
    [change (length ([32] ++ encode_utf8 [])) with 1%nat; by rewrite Nat.ltb_irrefl|].
  apply Forall_cons_iff in Hs as [Hc1 Hs]. pose proof (length_encode (c1 :: cs)). rewrite length_app. cbn [length] in *.
  destruct (Nat.ltb_spec (length P + 1) (length P + (1 + length (encode_utf8 (c1 :: cs))))); [|lia].
  rewrite app_assoc, encode_cons. replace (length P + 1)%nat with (length (P ++ [32])) by (rewrite length_app; done).
  rewrite class_at_ok by done. cbn [mbind option_bind]. destruct (decide (scalar_class c1 = Space)) as [He|He].
  - by rewrite bool_decide_eq_true_2.
  - rewrite bool_decide_eq_false_2 by done. cbn [negb].
    rewrite <- (length_app (P ++ [32])), (app_assoc _ (utf8 c1)), run_end_ok by done. cbn [mbind option_bind]. do 2 f_equal.
    unfold run_bytes. rewrite !encode_cons, (utf8_ascii 32), !length_app by lia. cbn [length]. lia.
Qed.

Lemma plain_ok P c cs :
  scalar c -> Forall scalar cs ->
  (if decide (scalar_class c = Space) then whitespace_piece_end (P ++ encode_utf8 (c :: cs)) (length P) (length (utf8 c))
   else run_end (P ++ encode_utf8 (c :: cs)) (length P + length (utf8 c)) (scalar_class c)) =
  Some (length P + length (encode_utf8 (if decide (scalar_class c = Space) then space_piece c cs else c :: run_of (scalar_class c) cs)))%nat.
Proof.
  intros Hc Hs. case_decide; [by apply whitespace_end_ok|]. rewrite encode_cons, app_assoc, <- length_app, run_end_ok by done.
  rewrite encode_cons, !length_app. unfold run_bytes. f_equal. lia.
Qed.

Lemma piece_end_ok P cs :
  Forall scalar cs -> cs <> [] ->
  piece_end (P ++ encode_utf8 cs) (length P) = Some (length P + length (encode_utf8 (scan_piece cs)))%nat.
Proof.
  intros Hs Hne. destruct cs as [|c cs]; [done|]. apply Forall_cons_iff in Hs as [Hc Hs].
  destruct (encode_head c cs Hc) as (b & Hb & Hlt & _ & Hbc). pose proof (scalar_range _ Hc) as Hrange.
  unfold piece_end. pose proof (lookup_after P (encode_utf8 (c :: cs)) 0) as H0. rewrite Nat.add_0_r in H0. rewrite H0, Hb. cbn [mbind option_bind].
  rewrite Hlt. destruct (Z.ltb_spec c 0x80) as [Hascii|Hwide].
  - rewrite (Hbc Hascii). rewrite short_ok by done. cbn [mbind option_bind]. unfold scan_piece.
    destruct (contraction (c :: cs)) as [k|] eqn:Hk; cbn [fmap option_fmap option_map];
      [by rewrite (contraction_bytes _ _ Hk)|].
    rewrite ascii_class_ok by lia. cbn [mbind option_bind]. rewrite spaced_ok by done. cbn [mbind option_bind].
    pose proof (plain_ok P c cs Hc Hs) as Hplain. rewrite utf8_ascii in Hplain by done. cbn [length] in Hplain.
    destruct cs as [|c1 cs]; [exact Hplain|]. destruct (_ && _); [done|exact Hplain].
  - pose proof (plain_ok P c cs Hc Hs) as Hplain. rewrite encode_cons, class_at_ok by done. cbn [mbind option_bind].
    rewrite encode_cons in Hplain. rewrite Hplain. unfold scan_piece, contraction.
    destruct (Z.eqb_spec c 39); [lia|]. destruct (Z.eqb_spec c 32); [lia|]. by destruct cs.
Qed.

(** ** The pattern on characters *)
#[local] Arguments Z.eqb : simpl never.
Lemma head_app {A} (l1 l2 : list A) : head (l1 ++ l2) = match head l1 with Some x => Some x | None => head l2 end.
Proof. by destruct l1. Qed.

Lemma run_length_ext p q cs : (forall c, p c = q c) -> run_length p cs = run_length q cs.
Proof. intros H. induction cs as [|c cs IH]; cbn; [done|]. by rewrite H, IH. Qed.

Lemma class_predicates c :
  is_letter c = of_class Letter c /\ is_number c = of_class Number c /\ is_other c = of_class Other c /\ is_space c = of_class Space c.
Proof. unfold of_class, is_other. by destruct (scalar_class_sets c) as (-> & -> & -> & ->). Qed.

Lemma contraction_match cs : head (take 7 CLAUDE_PAT ≫= (fun r => matches r cs)) = contraction cs.
Proof.
  unfold contraction. destruct cs as [|c0 cs]; [done|]. destruct (Z.eqb_spec c0 39) as [->|Hne].
  2:{ assert ((39 =? c0) = false) as H0 by (by apply Z.eqb_neq). cbn. rewrite H0. by destruct cs. }
  destruct cs as [|c1 cs]; [done|]. cbn. change (39 =? 39) with true. cbn. rewrite !(Z.eqb_sym _ c1).
  destruct (Z.eqb_spec c1 115); [done|]. destruct (Z.eqb_spec c1 116); [done|]. cbn.
  destruct (Z.eqb_spec c1 114) as [->|]; [by destruct cs as [|c2 cs]; [|cbn; rewrite (Z.eqb_sym 101); destruct (c2 =? 101)]|]. cbn.
  destruct (Z.eqb_spec c1 118) as [->|]; [by destruct cs as [|c2 cs]; [|cbn; rewrite (Z.eqb_sym 101); destruct (c2 =? 101)]|].
  destruct (Z.eqb_spec c1 109); [done|]. cbn.
  destruct (Z.eqb_spec c1 108) as [->|]; [by destruct cs as [|c2 cs]; [|cbn; rewrite (Z.eqb_sym 108); destruct (c2 =? 108)]|].
  cbn. by destruct (c1 =? 100).
Qed.

Lemma descending_head n k : head ((fun j => (k + j)%nat) <$> descending n) = if (n =? 0)%nat then None else Some (k + n)%nat.
Proof. by destruct n. Qed.

(** [ ?X+] for a class other than whitespace. *)
Lemma word_match p K c cs :
  (forall x, p x = of_class K x) -> K <> Space ->
  head (matches (Cat (Maybe (lit 32)) (Many1 p)) (c :: cs)) =
  if c =? 32 then
    match cs with
    | c1 :: cs' => if decide (scalar_class c1 = K) then Some (length (c :: c1 :: run_of K cs')) else None
    | [] => None
    end
  else if decide (scalar_class c = K) then Some (length (c :: run_of K cs)) else None.
Proof.
  intros Hp HK. assert (forall l, run_length p l = length (run_of K l)) as Hlen.
  { intros l. unfold run_of. rewrite length_take, Nat.min_l by apply run_length_le. by apply run_length_ext. }
  assert (matches (Cat (Maybe (lit 32)) (Many1 p)) (c :: cs) =
    ((if 32 =? c then [1%nat] else []) ++ [O]) ≫= (fun k => (fun j => (k + j)%nat) <$> descending (run_length p (drop k (c :: cs))))) as -> by done.
  rewrite Z.eqb_sym. destruct (Z.eqb_spec c 32) as [->|Hne].
  - cbn [app mbind list_bind drop]. rewrite app_nil_r, head_app, !descending_head, !Hlen, run_of_cons.
    assert (scalar_class 32 = Space) as H32 by (vm_compute; reflexivity). rewrite H32, decide_False by done. cbn [length].
    rewrite drop_0. destruct cs as [|c1 cs]; [done|]. rewrite run_of_cons. by case_decide.
  - cbn [app mbind list_bind drop]. rewrite app_nil_r, descending_head, Hlen, run_of_cons. by case_decide.
Qed.

Lemma run_length_stop p cs : match drop (run_length p cs) cs with x :: _ => p x = false | [] => True end.
Proof. induction cs as [|c cs IH]; cbn; [done|]. destruct (p c) eqn:Hp; [exact IH|exact Hp]. Qed.

Lemma run_length_inside p cs k : (k < run_length p cs)%nat -> match drop k cs with x :: _ => p x = true | [] => False end.
Proof.
  revert k. induction cs as [|c cs IH]; intros k; cbn; [lia|]. destruct (p c) eqn:Hp; [|lia]. destruct k as [|k]; [done|].
  intros Hk. cbn. apply IH. lia.
Qed.

(** [\s+(?!\S)|\s+]. *)
Lemma space_match cs n :
  run_length is_space cs = S n ->
  head (matches (Cat (Many1 is_space) (NotAhead (fun c => negb (is_space c)))) cs ++ matches (Many1 is_space) cs) =
  Some (if (S n =? length cs)%nat || (n =? 0)%nat then S n else n).
Proof.
  intros Hn. cbn [matches]. rewrite Hn. pose proof (run_length_stop is_space cs) as Hstop. rewrite Hn in Hstop.
  pose proof (run_length_le is_space cs) as Hle. cbn [descending mbind list_bind].
  destruct (Nat.eqb_spec (S n) (length cs)) as [He|Hne].
  - rewrite drop_ge by lia. cbn [fmap list_fmap app head orb]. by rewrite Nat.add_0_r.
  - destruct (drop (S n) cs) as [|x rest] eqn:Hd; [apply (f_equal length) in Hd; rewrite length_drop in Hd; cbn [length] in Hd; lia|].
    rewrite Hstop. cbn [negb fmap list_fmap app orb]. destruct n as [|n]; [done|]. cbn [descending mbind list_bind Nat.eqb].
    pose proof (run_length_inside is_space cs (S n) ltac:(lia)) as Hin. destruct (drop (S n) cs) as [|y rest']; [done|].
    rewrite Hin. cbn [negb fmap list_fmap app head]. by rewrite Nat.add_0_r.
Qed.

Lemma length_run class cs : length (run_of class cs) = run_length (of_class class) cs.
Proof. unfold run_of. rewrite length_take, Nat.min_l; [done|apply run_length_le]. Qed.

Lemma space_piece_length c cs :
  length (space_piece c cs) =
  if (S (length (run_of Space cs)) =? length (c :: cs))%nat || (length (run_of Space cs) =? 0)%nat
  then S (length (run_of Space cs)) else length (run_of Space cs).
Proof.
  unfold space_piece. cbn [length Nat.eqb]. destruct (_ || _); [done|]. rewrite length_take. cbn [length]. lia.
Qed.

(** The scanner's piece is the first match. *)
Lemma first_match_piece c cs : first_match (c :: cs) = Some (length (scan_piece (c :: cs))).
Proof.
  unfold first_match. rewrite <- (take_drop 7 CLAUDE_PAT), bind_app, head_app, contraction_match. unfold scan_piece.
  destruct (contraction (c :: cs)) as [k|] eqn:Hk.
  { rewrite length_take. apply contraction_bytes in Hk as Hb. f_equal. unfold contraction in Hk. destruct cs as [|c1 cs]; [done|].
    cbn [length]. assert (k = 2%nat \/ (k = 3%nat /\ cs <> [])) as [->|[-> Hne]] by (repeat case_match; simplify_eq; auto); [lia|].
    destruct cs; [done|cbn [length]; lia]. }
  change (drop 7 CLAUDE_PAT) with [Cat (Maybe (lit 32)) (Many1 is_letter); Cat (Maybe (lit 32)) (Many1 is_number);
    Cat (Maybe (lit 32)) (Many1 is_other); Cat (Many1 is_space) (NotAhead (fun c => negb (is_space c))); Many1 is_space].
  cbn [mbind list_bind]. rewrite app_nil_r, !head_app.
  rewrite (word_match is_letter Letter), (word_match is_number Number), (word_match is_other Other) by (done || apply class_predicates).
  assert (scalar_class c = Space -> head (matches (Cat (Many1 is_space) (NotAhead (fun c => negb (is_space c)))) (c :: cs) ++
    matches (Many1 is_space) (c :: cs)) = Some (length (space_piece c cs))) as Hspace.
  { intros Hc. rewrite (space_match _ (length (run_of Space cs))); [by rewrite space_piece_length|].
    rewrite (run_length_ext _ (of_class Space)) by apply class_predicates. rewrite length_run. cbn [run_length].
    unfold of_class at 1. by rewrite bool_decide_eq_true_2. }
  rewrite head_app in Hspace. destruct (Z.eqb_spec c 32) as [->|Hne]; cbn [andb].
  - assert (scalar_class 32 = Space) as H32 by (vm_compute; reflexivity). specialize (Hspace H32). rewrite H32.
    destruct cs as [|c1 cs]; [exact Hspace|]. destruct (scalar_class c1) eqn:H1; cbn; try reflexivity. exact Hspace.
  - destruct (scalar_class c) eqn:H1; cbn [decide Class_eq_dec]; try (by destruct cs); by destruct cs; apply Hspace.
Qed.

(** ** All pieces *)
Lemma scan_piece_prefix c cs : exists rest, c :: cs = scan_piece (c :: cs) ++ rest /\ scan_piece (c :: cs) <> [].
Proof.
  unfold scan_piece. destruct (contraction (c :: cs)) as [k|] eqn:Hk.
  { exists (drop k (c :: cs)). rewrite take_drop. split; [done|]. intros Hn. apply contraction_bytes in Hk as Hb. rewrite Hn in Hb. cbn in Hb.
    subst k. unfold contraction in Hk. by repeat case_match. }
  assert (exists rest, c :: cs = (if decide (scalar_class c = Space) then space_piece c cs else c :: run_of (scalar_class c) cs) ++ rest /\
    (if decide (scalar_class c = Space) then space_piece c cs else c :: run_of (scalar_class c) cs) <> []) as Hplain.
  { case_decide.
    - unfold space_piece. pose proof (run_split Space cs) as Hs. destruct (_ || _) eqn:Hcase; [eexists; split; [cbn; by f_equal|done]|].
      apply orb_false_iff in Hcase as [_ Hne%Nat.eqb_neq]. set (r := run_of Space cs) in *. clearbody r.
      exists (drop (length r) (c :: r) ++ drop (length r) cs). rewrite app_assoc, take_drop. split; [cbn; by f_equal|].
      by destruct (length r).
    - pose proof (run_split (scalar_class c) cs) as Hs. eexists. split; [cbn; by f_equal|done]. }
  destruct cs as [|c1 cs]; [exact Hplain|]. destruct (_ && _); [|exact Hplain].
  pose proof (run_split (scalar_class c1) cs) as Hs. eexists. split; [cbn; by do 2 f_equal|done].
Qed.

Lemma regex_pieces_cons fuel c cs :
  exists rest, c :: cs = scan_piece (c :: cs) ++ rest /\ scan_piece (c :: cs) <> [] /\
    regex_pieces (S fuel) (c :: cs) = scan_piece (c :: cs) :: regex_pieces fuel rest.
Proof.
  destruct (scan_piece_prefix c cs) as (rest & Hsplit & Hne). exists rest. split; [done|]. split; [done|].
  cbn [regex_pieces]. rewrite first_match_piece. set (p := scan_piece (c :: cs)) in *. clearbody p. rewrite Hsplit.
  by rewrite take_app_length, drop_app_length.
Qed.

Lemma regex_pieces_concat fuel cs : (length cs <= fuel)%nat -> concat (regex_pieces fuel cs) = cs /\ Forall (fun p => p <> []) (regex_pieces fuel cs).
Proof.
  revert cs. induction fuel as [|fuel IH]; intros [|c cs] Hf; try (split; [done|constructor]); [cbn in Hf; lia|].
  destruct (regex_pieces_cons fuel c cs) as (rest & Hsplit & Hne & ->).
  apply (f_equal length) in Hsplit as Hl. rewrite length_app in Hl. cbn [length] in *.
  destruct (IH rest) as [Hc Hall]; [destruct (scan_piece (c :: cs)); [done|cbn [length] in *; lia]|].
  cbn [concat]. rewrite Hc, <- Hsplit. split; [done|by constructor].
Qed.

Lemma pieces_loop_ok f1 f2 P cs :
  Forall scalar cs -> (length cs <= f1)%nat -> (length cs <= f2)%nat ->
  pieces_loop f1 (P ++ encode_utf8 cs) (length P) = Some (byte_spans (length P) (regex_pieces f2 cs)).
Proof.
  revert f2 P cs. induction f1 as [|f1 IH]; intros f2 P cs Hs H1 H2; cbn [pieces_loop]; rewrite length_app.
  - destruct cs as [|c cs]; [|cbn in H1; lia]. change (length (encode_utf8 [])) with O.
    destruct (Nat.leb_spec (length P + 0) (length P)); [|lia]. by destruct f2.
  - destruct cs as [|c cs].
    { change (length (encode_utf8 [])) with O. destruct (Nat.leb_spec (length P + 0) (length P)); [|lia]. by destruct f2. }
    pose proof (length_encode (c :: cs)). cbn [length] in *.
    destruct (Nat.leb_spec (length P + length (encode_utf8 (c :: cs))) (length P)); [lia|].
    rewrite piece_end_ok by done. cbn [mbind option_bind]. destruct f2 as [|f2]; [lia|].
    destruct (regex_pieces_cons f2 c cs) as (rest & Hsplit & Hne & ->). cbn [byte_spans].
    apply (f_equal length) in Hsplit as Hl. rewrite length_app in Hl. cbn [length] in Hl.
    assert (1 <= length (scan_piece (c :: cs)))%nat by (destruct (scan_piece (c :: cs)); [done|cbn; lia]).
    set (p := scan_piece (c :: cs)) in *. clearbody p. rewrite Hsplit in Hs |- *. apply Forall_app in Hs as [_ Hs].
    rewrite encode_app, app_assoc, <- length_app, (IH f2) by (done || lia). done.
Qed.

(** C32: the hand-written scanner is the pattern. On the bytes of every string the scanner returns
    exactly the byte ranges of the successive leftmost-first matches of the pre-tokenizer pattern (ordered
    alternatives, greedy runs, the lookahead of the whitespace alternative), whether a run is walked eight
    bytes or one character at a time; every piece is nonempty and together they are the string. *)
Theorem scanner_is_pattern cs :
  Forall scalar cs ->
  let ps := regex_pieces (length cs) cs in
  pieces (encode_utf8 cs) = Some (byte_spans 0 ps) /\ concat ps = cs /\ Forall (fun p => p <> []) ps.
Proof.
  intros Hs ps. split; [|by apply regex_pieces_concat].
  apply (pieces_loop_ok _ _ [] cs Hs); [apply length_encode|done].
Qed.

(** [I'll  go] and a newline, then two ideographs. *)
Lemma scanner_is_pattern_witness :
  pieces (encode_utf8 [73; 39; 108; 108; 32; 32; 103; 111; 10; 0x4F60; 0x597D]) =
  Some [(0%nat, 1%nat); (1%nat, 4%nat); (4%nat, 5%nat); (5%nat, 8%nat); (8%nat, 9%nat); (9%nat, 15%nat)].
Proof.
  destruct (scanner_is_pattern [73; 39; 108; 108; 32; 32; 103; 111; 10; 0x4F60; 0x597D]) as [-> _]; [|vm_compute; reflexivity].
  repeat (constructor; [left; lia|]). constructor.
Defined.
