(* ===== verification/Tokenizer.v ===== *)
(** * Tokenizer: encoding a text (crates/tokenizer/src/lib.rs).

    The crate's entry points over the scanner and the merge engines: pieces longer than the cap are
    chunked at character boundaries, and the ids of the chunks follow each other. A string is the
    bytes of its scalar values; the embedded vocabulary is an argument. [None] is a panic. *)
From S2P Require Import Prelude.
From S2P Require Import Vocab.
From S2P Require Import Bpe.
From S2P Require Import Unicode.
From S2P Require Import Scan.
From S2P Require Import Pattern.
From stdpp Require Import gmap.
#[local] Open Scope Z_scope.

(** ** Chunks *)

(** [str::is_char_boundary]. *)
Definition is_char_boundary (bytes : list Z) (i : nat) : bool :=
  (i =? 0)%nat || (i =? length bytes)%nat ||
  match bytes !! i with Some b => negb ((128 <=? b) && (b <? 192)) | None => false end.

(** [while !rest.is_char_boundary(end) { end -= 1 }]; offset 0 is a boundary. *)
Fixpoint floor_boundary (bytes : list Z) (i : nat) : nat :=
  if is_char_boundary bytes i then i
  else match i with O => O | S i => floor_boundary bytes i end.

(** A chunk of no bytes would repeat forever: the fuel runs out. *)
Fixpoint char_chunks (fuel : nat) (rest : list Z) (max_bytes : nat) : option (list (list Z)) :=
  match rest with
  | [] => Some []
  | _ =>
      match fuel with
      | O => None
      | S fuel =>
          let last := floor_boundary rest (length rest `min` max_bytes) in
          chunks ← char_chunks fuel (drop last rest) max_bytes;
          Some (take last rest :: chunks)
      end
  end.

(** ** Encoding *)
Section Encode.
Context (v : Vocab).

(** The loop over the chunks of an over-long piece. *)
Fixpoint encode_chunks (bytes : list Z) (at_ : nat) (chunks : list (list Z)) : option (list Z) :=
  match chunks with
  | [] => Some []
  | chunk :: chunks =>
      ids ← encode_piece v bytes at_ (at_ + length chunk);
      rest ← encode_chunks bytes (at_ + length chunk) chunks;
      Some (ids ++ rest)
  end.

Definition encode_span (bytes : list Z) (start last : nat) : option (list Z) :=
  if (last - start <=? MAX_PIECE_BYTES)%nat then encode_piece v bytes start last
  else
    chunks ← char_chunks (last - start) (slice start (last - start) bytes) MAX_PIECE_BYTES;
    encode_chunks bytes start chunks.

Fixpoint encode_spans (bytes : list Z) (spans : list (nat * nat)) : option (list Z) :=
  match spans with
  | [] => Some []
  | (start, last) :: spans =>
      ids ← encode_span bytes start last;
      rest ← encode_spans bytes spans;
      Some (ids ++ rest)
  end.

Definition encode_bounded (bytes : list Z) : option (list Z) :=
  spans ← pieces bytes; encode_spans bytes spans.

Definition encode_ordinary (bytes : list Z) : option (list Z) := encode_bounded bytes.
Definition estimate_tokens (bytes : list Z) : option nat := ids ← encode_bounded bytes; Some (length ids).
End Encode.

(** ** Windows and paragraphs *)
Definition suffix_anchor (bytes : list Z) (lookback : nat) : option nat :=
  let from := floor_boundary bytes (length bytes - lookback) in
  spans ← pieces (drop from bytes);
  Some (match list.last (drop 2 spans) with Some (start, _) => (from + start)%nat | None => O end).

(** [str::chars().next()] of a nonempty string. *)
Definition next_code_point (bytes : list Z) : option Z :=
  x ← bytes !! 0%nat;
  if x <? 128 then Some x
  else
    let init := Z.land x 0x1F in
    y ← bytes !! 1%nat;
    if x <? 0xE0 then Some (Z.lor (Z.shiftl init 6) (Z.land y 0x3F))
    else
      z ← bytes !! 2%nat;
      let y_z := Z.lor (Z.shiftl (Z.land y 0x3F) 6) (Z.land z 0x3F) in
      if x <? 0xF0 then Some (Z.lor (Z.shiftl init 12) y_z)
      else
        w ← bytes !! 3%nat;
        Some (Z.lor (Z.shiftl (Z.land init 7) 18) (Z.lor (Z.shiftl y_z 6) (Z.land w 0x3F))).

Definition starts_outside_whitespace (bytes : list Z) : option bool :=
  match bytes with
  | [] => Some false
  | _ => c ← next_code_point bytes; w ← is_whitespace c; Some (negb w)
  end.

(** [text[from..].find('\n')]. *)
Fixpoint find_newline (bytes : list Z) : option nat :=
  match bytes with
  | [] => None
  | b :: bytes => if b =? 10 then Some O else S <$> find_newline bytes
  end.

(** One call of the iterator: the end of the next span, or [None] for the last. *)
Fixpoint next_split (fuel : nat) (bytes : list Z) (from : nat) : option (option nat) :=
  match find_newline (drop from bytes) with
  | None => Some None
  | Some offset =>
      match fuel with
      | O => None
      | S fuel =>
          let second := (from + offset + 1)%nat in
          found ← (if decide (bytes !! second = Some 10)
                   then starts_outside_whitespace (drop (second + 1) bytes) else Some false);
          if found : bool then Some (Some second) else next_split fuel bytes second
      end
  end.

Fixpoint spans_loop (fuel : nat) (bytes : list Z) (start : nat) : option (list (list Z)) :=
  match fuel with
  | O => None
  | S fuel =>
      split ← next_split (length bytes) bytes start;
      match split with
      | None => Some [drop start bytes]
      | Some second =>
          rest ← spans_loop fuel bytes (second + 1);
          Some (slice start (second - start) bytes :: rest)
      end
  end.

Definition paragraph_spans (bytes : list Z) : option (list (list Z)) := spans_loop (S (length bytes)) bytes 0.

(** ** Boundaries *)
Lemma boundary_char c p j :
  scalar c -> Forall scalar p ->
  is_char_boundary (utf8 c ++ encode_utf8 p) j =
  if (j =? 0)%nat then true
  else if (j <? length (utf8 c))%nat then false else is_char_boundary (encode_utf8 p) (j - length (utf8 c)).
Proof.
  intros Hc Hs. unfold is_char_boundary. destruct (Nat.eqb_spec j 0) as [->|Hj]; [done|]. cbn [orb]. rewrite length_app.
  destruct (Nat.ltb_spec j (length (utf8 c))) as [Hlt|Hge].
  - destruct (Nat.eqb_spec j (length (utf8 c) + length (encode_utf8 p))); [lia|]. cbn [orb]. rewrite lookup_app_l by done.
    destruct (utf8_cases c Hc) as [[_ Hu]|(_ & b & R & Hu & _ & HR)]; rewrite Hu in *; cbn [length] in Hlt; [lia|].
    destruct j as [|j]; [done|]. cbn [lookup list_lookup]. destruct (R !! j) as [x|] eqn:Hx; [|done].
    pose proof (Forall_lookup_1 _ _ _ _ HR Hx) as Hr. cbn in Hr. lia.
  - rewrite lookup_app_r by done. destruct (Nat.eqb_spec j (length (utf8 c) + length (encode_utf8 p))) as [He|Hne].
    + destruct (Nat.eqb_spec (j - length (utf8 c)) (length (encode_utf8 p))); [|lia]. by rewrite orb_true_r.
    + destruct (Nat.eqb_spec (j - length (utf8 c)) (length (encode_utf8 p))); [lia|]. cbn [orb]. rewrite orb_false_r.
      destruct (Nat.eqb_spec (j - length (utf8 c)) 0) as [Hz|]; [|done]. rewrite Hz. cbn [orb]. destruct p as [|d p]; [change (length (encode_utf8 [])) with O in *; lia|].
      apply Forall_cons_iff in Hs as [Hd _]. rewrite encode_cons. apply scalar_range in Hd as Hdr.
      destruct (utf8_cases d Hd) as [[Hlt ->]|(_ & b & R & -> & Hb & _)]; cbn [app lookup list_lookup]; lia.
Qed.

Lemma boundary_split p j :
  Forall scalar p -> (j <= length (encode_utf8 p))%nat -> is_char_boundary (encode_utf8 p) j = true ->
  exists p1 p2, p = p1 ++ p2 /\ j = length (encode_utf8 p1).
Proof.
  intros Hs. revert j. induction Hs as [|c p Hc Hs IH]; intros j Hj Hb.
  - exists [], []. split; [done|]. cbn in *. lia.
  - rewrite encode_cons in *. rewrite boundary_char in Hb by done. destruct (Nat.eqb_spec j 0) as [->|]; [by exists [], (c :: p)|].
    destruct (Nat.ltb_spec j (length (utf8 c))); [done|]. rewrite length_app in Hj.
    destruct (IH (j - length (utf8 c))%nat) as (p1 & p2 & -> & Hl); [lia|done|]. exists (c :: p1), p2. split; [done|].
    rewrite encode_cons, length_app. lia.
Qed.

Lemma floor_boundary_spec bytes i :
  (i <= length bytes)%nat -> is_char_boundary bytes (floor_boundary bytes i) = true /\ (floor_boundary bytes i <= i)%nat /\
  forall x, (x <= i)%nat -> is_char_boundary bytes x = true -> (x <= floor_boundary bytes i)%nat.
Proof.
  induction i as [|i IH]; intros Hi; cbn [floor_boundary].
  - destruct (is_char_boundary bytes 0) eqn:H0; split_and!; done || lia || (intros; lia).
  - destruct (is_char_boundary bytes (S i)) eqn:Hb; [split_and!; [done|lia|lia]|].
    destruct IH as (H1 & H2 & H3); [lia|]. split; [done|]. split; [lia|]. intros x Hx Hxb.
    destruct (decide (x = S i)) as [->|]; [congruence|]. apply H3; [lia|done].
Qed.

Lemma utf8_length c : (length (utf8 c) <= 4)%nat.
Proof. unfold utf8. repeat destruct (_ <? _); cbn; lia. Qed.

(** The first chunk of a nonempty string is a nonempty string within the cap. *)
Lemma chunk_split p max :
  Forall scalar p -> p <> [] -> (4 <= max)%nat ->
  let last := floor_boundary (encode_utf8 p) (length (encode_utf8 p) `min` max) in
  exists p1 p2, p = p1 ++ p2 /\ p1 <> [] /\ last = length (encode_utf8 p1) /\ (last <= max)%nat.
Proof.
  intros Hs Hne Hmax last. destruct (floor_boundary_spec (encode_utf8 p) (length (encode_utf8 p) `min` max)) as (Hb & Hle & Hgr); [lia|].
  fold last in Hb, Hle, Hgr. destruct (boundary_split p last Hs) as (p1 & p2 & Hp & Hl); [lia|done|]. exists p1, p2.
  split; [done|]. split; [|split; [done|lia]]. intros ->. destruct p as [|c p]; [done|]. apply Forall_cons_iff in Hs as [Hc Hs].
  specialize (Hgr (length (utf8 c))). pose proof (utf8_length c). pose proof (utf8_nonempty c). cbn [encode_utf8 mbind list_bind length] in Hl.
  rewrite encode_cons, length_app in Hgr. rewrite boundary_char in Hgr by done.
  destruct (Nat.eqb_spec (length (utf8 c)) 0); [lia|]. destruct (Nat.ltb_spec (length (utf8 c)) (length (utf8 c))); [lia|].
  rewrite Nat.sub_diag in Hgr. specialize (Hgr ltac:(lia) eq_refl). lia.
Qed.

Lemma char_chunks_ok fuel p max :
  Forall scalar p -> (length p <= fuel)%nat -> (4 <= max)%nat ->
  exists groups, char_chunks fuel (encode_utf8 p) max = Some (encode_utf8 <$> groups) /\ concat groups = p /\
    Forall (fun g => g <> [] /\ (length (encode_utf8 g) <= max)%nat) groups.
Proof.
  revert p. induction fuel as [|fuel IH]; intros p Hs Hf Hmax.
  - destruct p; [|cbn in Hf; lia]. exists []. split; [done|]. split; [done|constructor].
  - destruct p as [|c p]; [exists []; split; [done|]; split; [done|constructor]|].
    destruct (chunk_split (c :: p) max Hs ltac:(done) Hmax) as (p1 & p2 & Hp & Hne & Hlast & Hle).
    assert (exists b R, encode_utf8 (c :: p) = b :: R) as (b & R & HbR).
    { pose proof (length_encode (c :: p)). destruct (encode_utf8 (c :: p)); [cbn in *; lia|by eexists _, _]. }
    cbn [char_chunks]. rewrite HbR. rewrite <- HbR. rewrite Hlast, Hp, encode_app, drop_app_length, take_app_length.
    rewrite Hp in Hs. apply Forall_app in Hs as [Hs1 Hs2]. apply (f_equal length) in Hp. rewrite length_app in Hp. cbn [length] in *.
    destruct (IH p2 Hs2) as (groups & -> & Hcat & Hall); [destruct p1; [done|cbn [length] in *; lia]|done|].
    cbn [mbind option_bind]. exists (p1 :: groups). split; [done|]. split; [cbn; by rewrite Hcat|]. constructor; [|done]. split; [done|lia].
Qed.

(** ** The ids of a text *)

(** The ids of one piece, chunked when it is over the cap. *)
Definition span_ids (m : gmap (list Z) Z) (piece : list Z) : list Z :=
  if (length piece <=? MAX_PIECE_BYTES)%nat then piece_ids m piece
  else default [] (char_chunks (length piece) piece MAX_PIECE_BYTES) ≫= piece_ids m.

Definition text_ids (m : gmap (list Z) Z) (cs : list Z) : list Z :=
  regex_pieces (length cs) cs ≫= (fun p => span_ids m (encode_utf8 p)).

Lemma encode_nonempty p : p <> [] -> (1 <= length (encode_utf8 p))%nat.
Proof. intros Hne. pose proof (length_encode p). destruct p; [done|cbn [length] in *; lia]. Qed.

Section Text.
Context (tokens : list (list Z * Z)) (v : Vocab).
Hypothesis Htok : mergeable tokens.
Hypothesis Hblob : from_blob (blob_of tokens) = Some v.
Let m : gmap (list Z) Z := list_to_map tokens.

Lemma encode_at P p R :
  Forall is_u8 (P ++ encode_utf8 p ++ R) -> p <> [] -> (length (encode_utf8 p) <= MAX_PIECE_BYTES)%nat ->
  encode_piece v (P ++ encode_utf8 p ++ R) (length P) (length P + length (encode_utf8 p)) = Some (piece_ids m (encode_utf8 p)).
Proof.
  intros Hu Hne Hmax. pose proof (encode_nonempty p Hne).
  assert (piece_of (P ++ encode_utf8 p ++ R) (length P) (length P + length (encode_utf8 p))) as Hp.
  { split; [done|]. split; [rewrite !length_app; lia|]. unfold MAX_PIECE_BYTES in Hmax. munfold. lia. }
  rewrite (encode_piece_ids tokens) by done.
  do 2 f_equal. unfold slice. replace (length P + length (encode_utf8 p) - length P)%nat with (length (encode_utf8 p)) by lia.
  by rewrite drop_app_length, take_app_length.
Qed.

Lemma encode_chunks_ok groups P R :
  Forall is_u8 (P ++ encode_utf8 (concat groups) ++ R) ->
  Forall (fun g => g <> [] /\ (length (encode_utf8 g) <= MAX_PIECE_BYTES)%nat) groups ->
  encode_chunks v (P ++ encode_utf8 (concat groups) ++ R) (length P) (encode_utf8 <$> groups) =
  Some ((encode_utf8 <$> groups) ≫= piece_ids m).
Proof.
  revert P. induction groups as [|g groups IH]; intros P Hu Hg; [done|]. apply Forall_cons_iff in Hg as [[Hne Hmax] Hg].
  cbn [concat fmap list_fmap encode_chunks mbind list_bind]. cbn [concat] in Hu. rewrite encode_app, <- app_assoc in *.
  rewrite encode_at by done. cbn [mbind option_bind]. specialize (IH (P ++ encode_utf8 g)).
  rewrite length_app, <- app_assoc in IH. rewrite IH by done. done.
Qed.

Lemma encode_span_ok P p R :
  Forall is_u8 (P ++ encode_utf8 p ++ R) -> Forall scalar p -> p <> [] ->
  encode_span v (P ++ encode_utf8 p ++ R) (length P) (length P + length (encode_utf8 p)) = Some (span_ids m (encode_utf8 p)).
Proof.
  intros Hu Hs Hne. unfold encode_span, span_ids.
  replace (length P + length (encode_utf8 p) - length P)%nat with (length (encode_utf8 p)) by lia.
  destruct (Nat.leb_spec (length (encode_utf8 p)) MAX_PIECE_BYTES); [by apply encode_at|].
  unfold slice. rewrite drop_app_length, take_app_length.
  destruct (char_chunks_ok (length (encode_utf8 p)) p MAX_PIECE_BYTES Hs) as (groups & -> & <- & Hg);
    [apply length_encode|unfold MAX_PIECE_BYTES; lia|]. cbn [mbind option_bind default from_option Datatypes.id].
  by apply encode_chunks_ok.
Qed.

Lemma encode_spans_ok ps P :
  Forall is_u8 (P ++ encode_utf8 (concat ps)) -> Forall scalar (concat ps) -> Forall (fun p => p <> []) ps ->
  encode_spans v (P ++ encode_utf8 (concat ps)) (byte_spans (length P) ps) = Some (ps ≫= (fun p => span_ids m (encode_utf8 p))).
Proof.
  revert P. induction ps as [|p ps IH]; intros P Hu Hs Hne; [done|]. apply Forall_cons_iff in Hne as [Hp Hne].
  cbn [concat byte_spans encode_spans mbind list_bind]. cbn [concat] in *. apply Forall_app in Hs as [Hsp Hs].
  rewrite encode_app in *. rewrite encode_span_ok by done. cbn [mbind option_bind]. specialize (IH (P ++ encode_utf8 p)).
  rewrite length_app, <- app_assoc in IH. rewrite IH by done. done.
Qed.

Lemma encode_text cs : Forall scalar cs -> encode_bounded v (encode_utf8 cs) = Some (text_ids m cs).
Proof.
  intros Hs. unfold encode_bounded, text_ids. destruct (regex_pieces_concat (length cs) cs) as [Hcat Hne]; [done|].
  pose proof (pieces_loop_ok (length (encode_utf8 cs)) (length cs) [] cs Hs) as Hp.
  unfold pieces. change (pieces_loop (length (encode_utf8 cs)) (encode_utf8 cs) 0) with
    (pieces_loop (length (encode_utf8 cs)) ([] ++ encode_utf8 cs) (length (@nil Z))). rewrite Hp by (done || apply length_encode).
  cbn [mbind option_bind]. pose proof (encode_spans_ok (regex_pieces (length cs) cs) []) as He. rewrite Hcat in He.
  apply He; [by apply encode_u8|done|done].
Qed.

Lemma span_ids_parts p :
  Forall scalar p -> p <> [] ->
  exists parts, Forall2 (fun t id => (t, id) ∈ tokens) parts (span_ids m (encode_utf8 p)) /\ concat parts = encode_utf8 p.
Proof.
  intros Hs Hne. assert (forall g, Forall scalar g -> g <> [] -> (length (encode_utf8 g) <= MAX_PIECE_BYTES)%nat ->
    exists parts, Forall2 (fun t id => (t, id) ∈ tokens) parts (piece_ids m (encode_utf8 g)) /\ concat parts = encode_utf8 g) as Hone.
  { intros g Hg Hgne Hgmax. apply piece_ids_parts; [done|by apply encode_u8| |unfold MAX_PIECE_BYTES in Hgmax; munfold; lia].
    intros Hnil. apply encode_nonempty in Hgne. rewrite Hnil in Hgne. cbn in Hgne. lia. }
  unfold span_ids. destruct (Nat.leb_spec (length (encode_utf8 p)) MAX_PIECE_BYTES); [by apply Hone|].
  destruct (char_chunks_ok (length (encode_utf8 p)) p MAX_PIECE_BYTES Hs) as (groups & -> & <- & Hg);
    [apply length_encode|unfold MAX_PIECE_BYTES; lia|]. cbn [default from_option Datatypes.id]. clear Hne H.
  induction groups as [|g groups IH]; [exists []; split; [constructor|done]|]. apply Forall_cons_iff in Hg as [[Hgne Hgmax] Hg].
  cbn [concat] in Hs. apply Forall_app in Hs as [Hsg Hs]. destruct (Hone g Hsg Hgne Hgmax) as (parts & Hp & Hc).
  destruct (IH Hs Hg) as (rest & Hr & Hrc). exists (parts ++ rest). cbn [fmap list_fmap mbind list_bind concat].
  split; [by apply Forall2_app|]. by rewrite concat_app, Hc, Hrc, encode_app.
Qed.

Lemma text_ids_parts cs :
  Forall scalar cs -> exists parts, Forall2 (fun t id => (t, id) ∈ tokens) parts (text_ids m cs) /\ concat parts = encode_utf8 cs.
Proof.
  intros Hs. unfold text_ids. destruct (regex_pieces_concat (length cs) cs) as [Hcat Hne]; [done|].
  set (ps := regex_pieces (length cs) cs) in *. clearbody ps. subst cs. induction Hne as [|p ps Hp _ IH].
  - exists []. split; [constructor|done].
  - cbn [concat] in *. apply Forall_app in Hs as [Hsp Hs]. destruct (span_ids_parts p Hsp Hp) as (parts & Hf & Hc).
    destruct (IH Hs) as (rest & Hr & Hrc). exists (parts ++ rest). cbn [mbind list_bind].
    split; [by apply Forall2_app|]. by rewrite concat_app, Hc, Hrc, encode_app.
Qed.
End Text.

(** C34: encoding a text loses nothing and always returns. For every vocabulary read from a blob and
    every string of any length, the encoder returns without a panic, over-long pieces chunked at
    character boundaries included; the token count is the number of ids; and the ids are those of tokens
    of the vocabulary whose bytes, in order, are exactly the string. *)
Theorem encode_roundtrip tokens v cs :
  mergeable tokens -> from_blob (blob_of tokens) = Some v -> Forall scalar cs ->
  exists ids, encode_ordinary v (encode_utf8 cs) = Some ids /\ estimate_tokens v (encode_utf8 cs) = Some (length ids) /\
    exists parts, Forall2 (fun t id => (t, id) ∈ tokens) parts ids /\ concat parts = encode_utf8 cs.
Proof.
  intros Htok Hblob Hs. exists (text_ids (list_to_map tokens) cs). unfold encode_ordinary, estimate_tokens.
  rewrite (encode_text tokens v Htok Hblob cs Hs). split; [done|]. split; [done|]. by apply text_ids_parts.
Qed.

Lemma encode_roundtrip_witness :
  exists v ids, from_blob (blob_of sample_tokens) = Some v /\ encode_ordinary v (encode_utf8 [97; 98; 32; 99; 97; 98; 0xE9]) = Some ids /\
    exists parts, concat parts = [97; 98; 32; 99; 97; 98; 195; 169] /\ length parts = length ids.
Proof.
  destruct (from_blob_ok sample_tokens sample_tokens_ok) as (v & Hv & _).
  destruct (encode_roundtrip sample_tokens v [97; 98; 32; 99; 97; 98; 0xE9] sample_tokens_mergeable Hv) as (ids & H1 & _ & parts & H2 & H3).
  - repeat (constructor; [left; lia|]). constructor.
  - exists v, ids. split; [exact Hv|]. split; [exact H1|]. exists parts. split; [exact H3|]. exact (Forall2_length _ _ _ H2).
Defined.
