(* ===== verification/Paragraph.v ===== *)
(** * Paragraph: counting a text by its paragraphs (crates/tokenizer/src/lib.rs).

    The join identity: a blank line before something other than whitespace is a boundary of pieces, so
    the count of a text is the sum of the counts of its paragraphs and of the newlines between them. *)
From S2P Require Import Prelude.
From S2P Require Import Vocab.
From S2P Require Import Bpe.
From S2P Require Import Unicode.
From S2P Require Import Scan.
From S2P Require Import Pattern.
From S2P Require Import Tokenizer.
From stdpp Require Import gmap.
#[local] Open Scope Z_scope.

(** ** Pieces across a newline *)
Lemma class_newline : scalar_class 10 = Space.
Proof. vm_compute. reflexivity. Qed.

Lemma run_of_newline K l R : K <> Space -> run_of K (l ++ 10 :: R) = run_of K l.
Proof.
  intros HK. induction l as [|c l IH]; cbn [app]; rewrite ?run_of_cons.
  - rewrite class_newline, decide_False by done. done.
  - by rewrite IH.
Qed.

Lemma contraction_newline x R : x <> [] -> contraction (x ++ 10 :: R) = contraction x.
Proof.
  destruct x as [|c0 [|c1 [|c2 x]]]; [done| | |]; intros _; unfold contraction; cbn [app].
  - by destruct (c0 =? 39).
  - by destruct (c0 =? 39), ((c1 =? 115) || (c1 =? 116) || (c1 =? 109) || (c1 =? 100)), ((c1 =? 114) || (c1 =? 118)), (c1 =? 108).
  - done.
Qed.

Section Join.
Context (d : Z) (b : list Z).
Hypothesis Hd : scalar_class d <> Space.

Lemma run_space_newline l :
  run_of Space (l ++ 10 :: d :: b) = if (length (run_of Space l) =? length l)%nat then l ++ [10] else run_of Space l.
Proof.
  induction l as [|c l IH]; cbn [app]; rewrite ?run_of_cons.
  - rewrite class_newline, decide_True, decide_False by done. done.
  - case_decide; [|done]. rewrite IH. cbn [length Nat.eqb]. by destruct (_ =? _)%nat.
Qed.

Lemma space_piece_newline c l : space_piece c (l ++ 10 :: d :: b) = space_piece c l.
Proof.
  unfold space_piece. rewrite run_space_newline. set (r := run_of Space l).
  pose proof (run_split Space l) as Hsplit. fold r in Hsplit. rewrite length_app. cbn [length].
  assert (length l = length r + length (drop (length r) l))%nat as Hl by (rewrite Hsplit at 1; apply length_app).
  destruct (Nat.eqb_spec (length r) (length l)) as [He|Hne]; cbn [orb].
  - assert (r = l) as ->.
    { rewrite Hsplit. rewrite drop_ge by lia. by rewrite app_nil_r. }
    rewrite length_app. cbn [length]. destruct (Nat.eqb_spec (length l + 1) (length l + S (S (length b)))); [lia|].
    destruct (Nat.eqb_spec (length l + 1) 0); [lia|]. cbn [orb]. rewrite Nat.add_1_r. cbn [take]. by rewrite take_app_length.
  - destruct (Nat.eqb_spec (length r) (length l + S (S (length b)))); [lia|]. done.
Qed.

Lemma scan_piece_newline x : x <> [] -> scan_piece (x ++ 10 :: d :: b) = scan_piece x.
Proof.
  intros Hne. destruct x as [|c x]; [done|]. pose proof (contraction_newline (c :: x) (d :: b) Hne) as Hc.
  cbn [app] in *. unfold scan_piece. rewrite Hc. destruct (contraction (c :: x)) as [k|] eqn:Hk.
  { apply contraction_bytes in Hk as Hb. assert (k <= length (c :: x))%nat as Hle.
    { unfold contraction in Hk. destruct x as [|c1 [|c2 x]]; repeat case_match; simplify_eq; cbn; lia. }
    change (c :: x ++ 10 :: d :: b) with ((c :: x) ++ 10 :: d :: b). by rewrite take_app_le. }
  assert ((if decide (scalar_class c = Space) then space_piece c (x ++ 10 :: d :: b) else c :: run_of (scalar_class c) (x ++ 10 :: d :: b)) =
    (if decide (scalar_class c = Space) then space_piece c x else c :: run_of (scalar_class c) x)) as Hplain
    by (case_decide; [apply space_piece_newline|by rewrite run_of_newline]).
  destruct x as [|c1 x]; cbn [app] in *.
  - rewrite class_newline, bool_decide_eq_true_2, andb_false_r by done. exact Hplain.
  - case_bool_decide as H1; cbn [negb]; rewrite ?andb_false_r, ?andb_true_r; [exact Hplain|].
    destruct (c =? 32); [by rewrite run_of_newline|exact Hplain].
Qed.
End Join.

Lemma regex_pieces_fuel f1 f2 cs : (length cs <= f1)%nat -> (length cs <= f2)%nat -> regex_pieces f1 cs = regex_pieces f2 cs.
Proof.
  revert f2 cs. induction f1 as [|f1 IH]; intros f2 [|c cs] H1 H2; try (by destruct f2); [cbn in H1; lia|].
  destruct f2 as [|f2]; [cbn in H2; lia|]. destruct (regex_pieces_cons f1 c cs) as (rest & Hsplit & Hne & ->).
  destruct (regex_pieces_cons f2 c cs) as (rest' & Hsplit' & _ & ->). rewrite Hsplit in Hsplit' at 1. apply app_inv_head in Hsplit' as <-.
  apply (f_equal length) in Hsplit. rewrite length_app in Hsplit. cbn [length] in *.
  f_equal. apply IH; destruct (scan_piece (c :: cs)); cbn [length] in *; done || lia.
Qed.

Definition pieces_of (cs : list Z) : list (list Z) := regex_pieces (length cs) cs.

Lemma pieces_of_cons c cs :
  exists rest, c :: cs = scan_piece (c :: cs) ++ rest /\ scan_piece (c :: cs) <> [] /\ pieces_of (c :: cs) = scan_piece (c :: cs) :: pieces_of rest.
Proof.
  unfold pieces_of. cbn [length]. destruct (regex_pieces_cons (length cs) c cs) as (rest & Hs & Hne & ->). exists rest.
  split; [done|]. split; [done|]. f_equal. apply (f_equal length) in Hs. rewrite length_app in Hs. cbn [length] in Hs.
  apply regex_pieces_fuel; [|done]. destruct (scan_piece (c :: cs)); cbn [length] in *; done || lia.
Qed.

Lemma pieces_join x d b :
  scalar_class d <> Space -> pieces_of (x ++ 10 :: d :: b) = pieces_of x ++ pieces_of [10] ++ pieces_of (d :: b).
Proof.
  intros Hd. remember (length x) as n eqn:Hn. revert x Hn. induction n as [n IH] using lt_wf_ind. intros x Hn.
  destruct x as [|c x].
  - cbn [app]. destruct (pieces_of_cons 10 (d :: b)) as (rest & Hs & Hne & ->).
    assert (scan_piece (10 :: d :: b) = [10]) as Hp.
    { cbn [scan_piece contraction]. change (10 =? 39) with false. change (10 =? 32) with false. cbn [andb].
      rewrite class_newline, decide_True by done. unfold space_piece. rewrite run_of_cons, decide_False by done. done. }
    rewrite Hp in *. cbn [app] in Hs. injection Hs as <-. done.
  - destruct (pieces_of_cons c (x ++ 10 :: d :: b)) as (rest & Hs & Hne & Hp).
    destruct (pieces_of_cons c x) as (rest' & Hs' & Hne' & Hp'). cbn [app]. rewrite Hp, Hp'.
    pose proof (scan_piece_newline d b Hd (c :: x) ltac:(done)) as Heq. cbn [app] in Heq. rewrite Heq in *. cbn [app]. f_equal.
    assert (rest = rest' ++ 10 :: d :: b) as ->.
    { apply (app_inv_head (scan_piece (c :: x))). rewrite <- Hs, app_assoc, <- Hs'. done. }
    apply (IH (length rest')); [|done]. apply (f_equal length) in Hs'. rewrite length_app in Hs'. cbn [length] in *.
    destruct (scan_piece (c :: x)); cbn [length] in *; done || lia.
Qed.

(** ** The iterator *)
Section Bytes.
#[local] Ltac Zify.zify_post_hook ::= Z.div_mod_to_equations.

Lemma next_code_point_ok c R : scalar c -> next_code_point (utf8 c ++ R) = Some c.
Proof.
  intros Hc%scalar_range. unfold next_code_point, utf8.
  destruct (Z.ltb_spec c 0x80); [|destruct (Z.ltb_spec c 0x800); [|destruct (Z.ltb_spec c 0x10000)]];
    cbn [app lookup list_lookup mbind option_bind].
  - destruct (Z.ltb_spec c 128); [done|lia].
  - destruct (Z.ltb_spec (0xC0 + c / 64) 128); [lia|]. destruct (Z.ltb_spec (0xC0 + c / 64) 0xE0); [|lia].
    rewrite (land_low _ 5 0x1F), (land_low _ 6 0x3F), lor_shiftl by (done || lia). f_equal. lia.
  - destruct (Z.ltb_spec (0xE0 + c / 4096) 128); [lia|]. destruct (Z.ltb_spec (0xE0 + c / 4096) 0xE0); [lia|].
    destruct (Z.ltb_spec (0xE0 + c / 4096) 0xF0); [|lia].
    rewrite (land_low _ 5 0x1F), !(land_low _ 6 0x3F) by done. rewrite (lor_shiftl _ _ 6) by lia.
    rewrite (lor_shiftl _ _ 12) by lia. f_equal. lia.
  - destruct (Z.ltb_spec (0xF0 + c / 262144) 128); [lia|]. destruct (Z.ltb_spec (0xF0 + c / 262144) 0xE0); [lia|].
    destruct (Z.ltb_spec (0xF0 + c / 262144) 0xF0); [lia|].
    rewrite (land_low _ 5 0x1F), !(land_low _ 6 0x3F), (land_low _ 3 7) by done.
    rewrite (lor_shiftl ((0x80 + c / 4096 mod 64) mod 2 ^ 6)) by lia. rewrite (lor_shiftl _ _ 6) by lia.
    rewrite (lor_shiftl _ _ 18) by lia. f_equal. lia.
Qed.
End Bytes.

Lemma starts_outside_ok cs :
  Forall scalar cs ->
  starts_outside_whitespace (encode_utf8 cs) = Some (match cs with d :: _ => negb (bool_decide (scalar_class d = Space)) | [] => false end).
Proof.
  intros Hs. destruct cs as [|d cs]; [done|]. apply Forall_cons_iff in Hs as [Hd _].
  unfold starts_outside_whitespace. pose proof (length_encode (d :: cs)) as Hl. destruct (encode_utf8 (d :: cs)) as [|x R] eqn:He; [cbn in Hl; lia|].
  rewrite <- He, encode_cons, next_code_point_ok by done. cbn [mbind option_bind]. unfold is_whitespace.
  rewrite class_of_scalar_ok by (apply scalar_range in Hd; lia). done.
Qed.

Lemma find_newline_ok cs :
  Forall scalar cs ->
  match find_newline (encode_utf8 cs) with
  | Some offset => exists u w, cs = u ++ 10 :: w /\ offset = length (encode_utf8 u)
  | None => True
  end.
Proof.
  induction 1 as [|c cs Hc Hs IH]; [done|]. rewrite encode_cons.
  assert (forall l R, Forall (fun x => x <> 10) l -> find_newline (l ++ R) = (fun k => (length l + k)%nat) <$> find_newline R) as Hskip.
  { intros l R Hl. induction Hl as [|x l Hx _ IHl]; cbn [app find_newline]; [by destruct (find_newline R)|].
    destruct (Z.eqb_spec x 10); [done|]. rewrite IHl. by destruct (find_newline R). }
  destruct (Z.eq_dec c 10) as [->|Hne].
  - exists [], cs. done.
  - rewrite Hskip.
    + destruct (find_newline (encode_utf8 cs)) as [k|]; [|done]. cbn [fmap option_fmap option_map].
      destruct IH as (u & w & -> & ->). exists (c :: u), w. split; [done|]. by rewrite encode_cons, length_app.
    + destruct (utf8_cases c Hc) as [[_ ->]|(_ & b & R & -> & Hb & HR)]; [by repeat constructor|]. constructor; [lia|].
      eapply Forall_impl; [exact HR|]. cbn. lia.
Qed.

(** What the next cut is. *)
Definition cut_at (cs : list Z) (split : option nat) (pos : nat) : Prop :=
  match split with
  | None => True
  | Some second => exists u d w, cs = u ++ 10 :: 10 :: d :: w /\ scalar_class d <> Space /\ second = (pos + length (encode_utf8 u) + 1)%nat
  end.

Lemma next_split_ok fuel P cs :
  Forall scalar cs -> (length cs <= fuel)%nat ->
  exists split, next_split fuel (P ++ encode_utf8 cs) (length P) = Some split /\ cut_at cs split (length P).
Proof.
  revert P cs. induction fuel as [|fuel IH]; intros P cs Hs Hf; cbn [next_split]; rewrite drop_app_length;
    pose proof (find_newline_ok cs Hs) as Hfind; destruct (find_newline (encode_utf8 cs)) as [off|]; try (by exists None).
  { destruct Hfind as (u & w & -> & _). rewrite length_app in Hf. cbn in Hf. lia. }
  destruct Hfind as (u & w & -> & ->). apply Forall_app in Hs as [Hu Hw%Forall_cons_iff]. destruct Hw as [_ Hw].
  assert (encode_utf8 (u ++ 10 :: w) = (encode_utf8 u ++ [10]) ++ encode_utf8 w) as Henc
    by (by rewrite encode_app, encode_cons, <- app_assoc).
  assert (length P + length (encode_utf8 u) + 1 = length (P ++ encode_utf8 u ++ [10%Z]))%nat as Hsec by (rewrite !length_app; cbn [length]; lia).
  rewrite Henc, app_assoc, Hsec. rewrite length_app in Hf. cbn [length] in Hf.
  destruct (IH (P ++ encode_utf8 u ++ [10]) w Hw ltac:(lia)) as (split & Hrec & Hcut).
  assert (cut_at (u ++ 10 :: w) split (length P)) as Hcut'.
  { destruct split as [second|]; [|done]. destruct Hcut as (u' & d & w' & -> & Hd & ->). exists (u ++ 10 :: u'), d, w'.
    split; [by rewrite <- app_assoc|]. split; [done|]. rewrite encode_app, encode_cons, !length_app. change (length (utf8 10)) with 1%nat. cbn [length]. lia. }
  case_decide as Hten.
  2:{ cbn [mbind option_bind]. exists split. split; [exact Hrec|done]. }
  rewrite <- (Nat.add_0_r (length (P ++ encode_utf8 u ++ [10]))), lookup_after in Hten.
  destruct (encode_ascii_head w 10 (tail (encode_utf8 w)) Hw) as (w' & -> & Hw'); [by destruct (encode_utf8 w); [done|injection Hten as ->]|lia|].
  apply Forall_cons_iff in Hw as [_ Hw]. set (Q := P ++ encode_utf8 u ++ [10]) in *.
  assert (drop (length Q + 1) (Q ++ encode_utf8 (10 :: w')) = encode_utf8 w') as Hdrop.
  { rewrite encode_cons, app_assoc. replace (length Q + 1)%nat with (length (Q ++ utf8 10)) by apply length_app. apply drop_app_length. }
  rewrite Hdrop, starts_outside_ok by done. cbn [mbind option_bind]. destruct w' as [|d w']; [by exists split|].
  case_bool_decide as Hd; cbn [negb]; [by exists split|]. eexists. split; [done|]. exists u, d, w'. split; [done|]. split; [done|]. done.
Qed.

(** ** The count *)

(** Paragraphs joined by the second newline of each blank line. *)
Fixpoint join_newline (ps : list (list Z)) : list Z :=
  match ps with
  | [] => []
  | [p] => p
  | p :: ps => p ++ 10 :: join_newline ps
  end.

Definition opens_outside (p : list Z) : Prop := match p with d :: _ => scalar_class d <> Space | [] => False end.

Lemma spans_loop_ok fuel P cs :
  Forall scalar cs -> (length cs < fuel)%nat ->
  exists ps, spans_loop fuel (P ++ encode_utf8 cs) (length P) = Some (encode_utf8 <$> ps) /\ ps <> [] /\ join_newline ps = cs /\
    match cs with d :: _ => head ps ≫= head = Some d | [] => True end /\ Forall opens_outside (tail ps).
Proof.
  revert P cs. induction fuel as [|fuel IH]; intros P cs Hs Hf; [lia|]. cbn [spans_loop].
  destruct (next_split_ok (length (P ++ encode_utf8 cs)) P cs Hs) as (split & -> & Hcut);
    [rewrite length_app; pose proof (length_encode cs); lia|]. cbn [mbind option_bind]. destruct split as [second|].
  2:{ rewrite drop_app_length. exists [cs]. split_and!; [done|done|done|by destruct cs|constructor]. }
  destruct Hcut as (u & d & w & -> & Hd & ->).
  assert (u ++ 10 :: 10 :: d :: w = (u ++ [10]) ++ 10 :: d :: w) as Hcs by (by rewrite <- app_assoc). rewrite Hcs in Hs |- *.
  apply Forall_app in Hs as [Hu Hs]. apply Forall_cons_iff in Hs as [_ Hs]. rewrite length_app in Hf. cbn [length] in Hf.
  assert (length (encode_utf8 (u ++ [10%Z])) = length (encode_utf8 u) + 1)%nat as Hlen by (by rewrite encode_app, length_app).
  destruct (IH (P ++ encode_utf8 (u ++ [10]) ++ [10]) (d :: w) Hs) as (ps & Hps & Hne & Hjoin & Hhead & Hall); [cbn [length]; lia|].
  assert (P ++ encode_utf8 ((u ++ [10]) ++ 10 :: d :: w) = (P ++ encode_utf8 (u ++ [10]) ++ [10]) ++ encode_utf8 (d :: w)) as Henc
    by (by rewrite (encode_app (u ++ [10])), encode_cons, <- !app_assoc).
  rewrite Henc. replace (length P + length (encode_utf8 u) + 1 + 1)%nat with (length (P ++ encode_utf8 (u ++ [10]) ++ [10]))
    by (rewrite !length_app, Hlen; cbn [length]; lia).
  rewrite Hps. cbn [mbind option_bind]. exists ((u ++ [10]) :: ps). split; [|split; [done|split; [|split]]].
  - cbn [fmap list_fmap]. do 2 f_equal. unfold slice. rewrite <- !app_assoc, drop_app_length.
    replace (length P + length (encode_utf8 u) + 1 - length P)%nat with (length (encode_utf8 (u ++ [10%Z]))) by lia. apply take_app_length.
  - destruct ps as [|p ps]; [done|]. change (join_newline ((u ++ [10]) :: p :: ps)) with ((u ++ [10]) ++ 10 :: join_newline (p :: ps)). by rewrite Hjoin.
  - by destruct u.
  - cbn [tail]. destruct ps as [|p ps]; [done|]. constructor; [|exact Hall]. cbn [head mbind option_bind] in Hhead.
    destruct p as [|e p]; [done|]. cbn in Hhead. injection Hhead as ->. exact Hd.
Qed.

Lemma text_ids_join m x cs :
  opens_outside cs -> text_ids m (x ++ 10 :: cs) = text_ids m x ++ text_ids m [10] ++ text_ids m cs.
Proof.
  destruct cs as [|d b]; [done|]. intros Hd. unfold text_ids. pose proof (pieces_join x d b Hd) as Hp. unfold pieces_of in Hp.
  by rewrite Hp, !bind_app.
Qed.

Lemma join_opens p ps : opens_outside p -> opens_outside (join_newline (p :: ps)).
Proof. destruct p as [|d p]; [done|]. intros Hd. by destruct ps. Qed.

Lemma join_count m ps :
  ps <> [] -> Forall opens_outside (tail ps) ->
  length (text_ids m (join_newline ps)) =
  (sum_list ((fun p => length (text_ids m p)) <$> ps) + (length ps - 1) * length (text_ids m [10%Z]))%nat.
Proof.
  induction ps as [|p ps IH]; intros Hne Hall; [done|]. destruct ps as [|q ps]; [unfold sum_list; cbn [fmap list_fmap sum_list_with length join_newline Datatypes.id]; lia|].
  change (join_newline (p :: q :: ps)) with (p ++ 10 :: join_newline (q :: ps)). cbn [tail] in Hall.
  pose proof (Forall_inv Hall) as Hq. rewrite text_ids_join by (by apply join_opens). rewrite !length_app, IH;
    [|done|by apply Forall_inv_tail in Hall]. unfold sum_list. cbn [fmap list_fmap sum_list_with length Datatypes.id]. lia.
Qed.

Lemma estimate_text tokens v cs :
  mergeable tokens -> from_blob (blob_of tokens) = Some v -> Forall scalar cs ->
  estimate_tokens v (encode_utf8 cs) = Some (length (text_ids (list_to_map tokens) cs)).
Proof. intros Htok Hblob Hs. unfold estimate_tokens. by rewrite (encode_text tokens v Htok Hblob cs Hs). Qed.

Lemma join_scalars ps : Forall scalar (join_newline ps) -> Forall (fun p => Forall scalar p) ps.
Proof.
  induction ps as [|p ps IH]; intros Hs; [constructor|]. destruct ps as [|q ps]; [by repeat constructor|].
  change (join_newline (p :: q :: ps)) with (p ++ 10 :: join_newline (q :: ps)) in Hs.
  apply Forall_app in Hs as [Hp [_ Hs]%Forall_cons_iff]. constructor; [done|by apply IH].
Qed.

Lemma paragraphs_counted tokens v cs :
  mergeable tokens -> from_blob (blob_of tokens) = Some v -> Forall scalar cs ->
  exists ps counts newline,
    paragraph_spans (encode_utf8 cs) = Some (encode_utf8 <$> ps) /\ ps <> [] /\ Forall (fun p => Forall scalar p) ps /\ join_newline ps = cs /\ Forall opens_outside (tail ps) /\
    mapM (estimate_tokens v) (encode_utf8 <$> ps) = Some counts /\ estimate_tokens v [10] = Some newline /\
    estimate_tokens v (encode_utf8 cs) = Some (sum_list counts + (length ps - 1) * newline)%nat.
Proof.
  intros Htok Hblob Hs. destruct (spans_loop_ok (S (length (encode_utf8 cs))) [] cs Hs) as (ps & Hps & Hne & Hjoin & _ & Hall);
    [pose proof (length_encode cs); lia|].
  exists ps, ((fun p => length (text_ids (list_to_map tokens) p)) <$> ps), (length (text_ids (list_to_map tokens) [10])).
  split; [exact Hps|]. split; [done|]. split; [apply join_scalars; by rewrite Hjoin|].
  split; [done|]. split; [done|]. split; [|split].
  - apply mapM_Some_2. rewrite Forall2_fmap_l, Forall2_fmap_r. apply Forall_Forall2_diag.
    eapply Forall_impl; [apply join_scalars; by rewrite Hjoin|]. intros p Hp. by apply (estimate_text tokens).
  - apply (estimate_text tokens v [10]); [done|done|]. constructor; [left; lia|constructor].
  - rewrite (estimate_text tokens) by done. f_equal. rewrite <- Hjoin. by apply join_count.
Qed.

(** A text counts as its paragraphs. Cutting a string at the blank lines before something other
    than whitespace gives back the string when the parts are joined by a newline each; every part
    after the first starts outside whitespace; and the token count of the string is the sum of the
    counts of the parts plus one count of a newline for each part after the first. *)
Theorem paragraphs_count tokens v cs :
  mergeable tokens -> from_blob (blob_of tokens) = Some v -> Forall scalar cs ->
  exists ps counts newline,
    paragraph_spans (encode_utf8 cs) = Some (encode_utf8 <$> ps) /\ join_newline ps = cs /\ Forall opens_outside (tail ps) /\
    mapM (estimate_tokens v) (encode_utf8 <$> ps) = Some counts /\ estimate_tokens v [10] = Some newline /\
    estimate_tokens v (encode_utf8 cs) = Some (sum_list counts + (length ps - 1) * newline)%nat.
Proof.
  intros Htok Hblob Hs.
  destruct (paragraphs_counted tokens v cs Htok Hblob Hs) as (ps & counts & newline & Hps & _ & _ & Hjoin & Hrest).
  by exists ps, counts, newline.
Qed.

(** [ab], a blank line, [cab]. *)
Lemma paragraphs_count_witness :
  exists v, from_blob (blob_of sample_tokens) = Some v /\
    paragraph_spans (encode_utf8 [97; 98; 10; 10; 99; 97; 98]) = Some [[97; 98; 10]; [99; 97; 98]] /\
    estimate_tokens v (encode_utf8 [97; 98; 10; 10; 99; 97; 98]) = Some (2 + 1 + 1)%nat.
Proof.
  destruct (from_blob_ok sample_tokens sample_tokens_ok) as (v & Hv & _). exists v. split; [exact Hv|].
  assert (paragraph_spans (encode_utf8 [97; 98; 10; 10; 99; 97; 98]) = Some [[97; 98; 10]; [99; 97; 98]]) as Hspans by (vm_compute; reflexivity).
  split; [exact Hspans|]. assert (forall l, Forall (fun c => 0 <= c < 128) l -> Forall scalar l) as Hsc
    by (intros l Hl; eapply Forall_impl; [exact Hl|]; intros c Hc; left; cbn in Hc; lia).
  destruct (paragraphs_count sample_tokens v [97; 98; 10; 10; 99; 97; 98] sample_tokens_mergeable Hv) as (ps & cts & nl & Hp & _ & _ & Hm & Hn & ->).
  - apply Hsc. repeat (constructor; [lia|]). constructor.
  - rewrite Hspans in Hp. injection Hp as Hp. rewrite <- Hp in Hm. apply (f_equal length) in Hp. rewrite length_fmap in Hp. cbn in Hp. rewrite <- Hp.
    assert (forall l n, Forall (fun c => 0 <= c < 128) l -> length (text_ids (list_to_map sample_tokens) l) = n -> estimate_tokens v l = Some n) as He.
    { intros l n Hl <-. rewrite <- (estimate_text _ _ _ sample_tokens_mergeable Hv) by (by apply Hsc). by rewrite encode_ascii. }
    rewrite (He [10] 1%nat) in Hn; [|repeat (constructor; [lia|]); constructor|vm_compute; reflexivity]. injection Hn as <-.
    cbn [mapM mbind option_bind] in Hm. rewrite (He [97; 98; 10] 2%nat), (He [99; 97; 98] 1%nat) in Hm;
      try (repeat (constructor; [lia|]); constructor); try (vm_compute; reflexivity). cbn in Hm. injection Hm as <-. reflexivity.
Defined.

(** ** The anchor of a window

    The text [a'r] is three pieces and its anchor is the start of the last; with an [e] appended the
    apostrophe and the [re] are one contraction, and that anchor is inside it. *)
Lemma anchor_inside_contraction :
  suffix_anchor [97; 39; 114] 100 = Some 2%nat /\ pieces [97; 39; 114; 101] = Some [(0%nat, 1%nat); (1%nat, 4%nat)].
Proof. split; vm_compute; reflexivity. Qed.
