(* ===== verification/BTree.v ===== *)
(** * BTree: strings and ordered maps with string keys

    [BTreeMap<String, V>] of the standard library: an association list in strictly increasing
    key order, keys compared byte by byte as Rust compares strings. *)
From S2P Require Import Prelude.
From stdpp Require Import strings sorting.

#[local] Open Scope Z_scope.

(** ** Appending strings *)
Lemma append_assoc (s t u : string) : ((s +:+ t) +:+ u)%string = (s +:+ (t +:+ u))%string.
Proof. induction s as [|a s IH]; [done|]. exact (f_equal (String a) IH). Qed.

Lemma append_nil_r (s : string) : (s +:+ EmptyString)%string = s.
Proof. induction s as [|a s IH]; [done|]. exact (f_equal (String a) IH). Qed.

Lemma append_cons a (s t : string) : (String a s +:+ t)%string = String a (s +:+ t)%string.
Proof. done. Qed.

Section BTree.
Context {V : Type}.
Implicit Types (m : list (string * V)) (k : string) (v : V).

Definition btree_get k m : option V := snd <$> find (fun kv => bool_decide (kv.1 = k)) m.

(** [BTreeMap::insert]: replaces the value of a present key. *)
Fixpoint btree_insert k v m : list (string * V) :=
  match m with
  | [] => [(k, v)]
  | (k', v') :: rest =>
      match String.compare k k' with
      | Lt => (k, v) :: m
      | Eq => (k, v) :: rest
      | Gt => (k', v') :: btree_insert k v rest
      end
  end.

(** [entry(k).or_insert(v)]: keeps the value of a present key. *)
Definition btree_entry k v m : list (string * V) :=
  match btree_get k m with Some _ => m | None => btree_insert k v m end.

(** [iter().collect()]. *)
Definition btree_collect (l : list (string * V)) : list (string * V) :=
  foldl (fun m kv => btree_insert kv.1 kv.2 m) [] l.

Lemma btree_get_cons k k' v' m :
  btree_get k ((k', v') :: m) = if bool_decide (k' = k) then Some v' else btree_get k m.
Proof. unfold btree_get. cbn [find fst]. by destruct (bool_decide (k' = k)). Qed.

Lemma btree_get_insert k v m k' :
  btree_get k' (btree_insert k v m) = if bool_decide (k = k') then Some v else btree_get k' m.
Proof.
  induction m as [|[k0 v0] m IH]; cbn [btree_insert].
  - rewrite btree_get_cons. done.
  - destruct (String.compare k k0) eqn:E; rewrite ?btree_get_cons; [|done|].
    + apply String.compare_eq_iff in E as ->. by destruct (bool_decide (k0 = k')).
    + rewrite IH. destruct (bool_decide_reflect (k0 = k')) as [->|]; [|done].
      rewrite bool_decide_eq_false_2; [done|]. intros ->.
      pose proof (String.compare_antisym k' k') as Ha. rewrite E in Ha. done.
Qed.

Lemma btree_get_entry k v m k' :
  btree_get k' (btree_entry k v m) =
  match btree_get k' m with Some v' => Some v' | None => if bool_decide (k = k') then Some v else None end.
Proof.
  unfold btree_entry. destruct (btree_get k m) as [v0|] eqn:E.
  - destruct (btree_get k' m) eqn:E'; [done|]. rewrite bool_decide_eq_false_2; congruence.
  - rewrite btree_get_insert. destruct (bool_decide_reflect (k = k')) as [->|]; [by rewrite E|].
    by destruct (btree_get k' m).
Qed.

Lemma btree_get_elem k m v : btree_get k m = Some v -> (k, v) ∈ m.
Proof.
  induction m as [|[k0 v0] m IH]; [done|]. rewrite btree_get_cons.
  destruct (bool_decide_reflect (k0 = k)) as [->|]; [intros [= ->]; left|right; auto].
Qed.

(** ** The keys stay in strictly increasing order *)
Definition key_lt (k k' : string) : Prop := String.compare k k' = Lt.

Lemma string_compare_refl k : String.compare k k = Eq.
Proof. pose proof (String.compare_antisym k k). by destruct (String.compare k k). Qed.

#[global] Instance key_lt_trans : Transitive key_lt.
Proof.
  unfold key_lt. intros a. induction a as [|x a IH]; intros [|y b] [|z c]; cbn; try done.
  unfold Ascii.compare. intros H1 H2.
  destruct (N.compare_spec (Ascii.N_of_ascii x) (Ascii.N_of_ascii y)) as [E1|E1|E1]; [| |done];
  destruct (N.compare_spec (Ascii.N_of_ascii y) (Ascii.N_of_ascii z)) as [E2|E2|E2]; try done.
  - rewrite E1, E2, N.compare_refl. eauto.
  - rewrite E1. by rewrite (proj2 (N.compare_lt_iff _ _)).
  - rewrite <- E2. by rewrite (proj2 (N.compare_lt_iff _ _)).
  - rewrite (proj2 (N.compare_lt_iff _ _)); [done|lia].
Qed.

Lemma key_lt_irrefl k : ~ key_lt k k.
Proof. unfold key_lt. by rewrite string_compare_refl. Qed.

Definition key_ordered m : Prop := StronglySorted key_lt (map fst m).

Lemma btree_insert_ordered k v m : key_ordered m -> key_ordered (btree_insert k v m).
Proof.
  unfold key_ordered. induction m as [|[k0 v0] m IH]; cbn [btree_insert map fst]; intros Hs.
  - by repeat constructor.
  - apply StronglySorted_inv in Hs as [Hs Hall].
    destruct (String.compare k k0) eqn:E; cbn [map fst].
    + apply String.compare_eq_iff in E as ->. by constructor.
    + constructor; [by constructor|]. constructor; [done|].
      eapply Forall_impl; [exact Hall|]. intros x Hx. by transitivity k0.
    + constructor; [by apply IH|].
      assert (key_lt k0 k) as Hk by (unfold key_lt; by rewrite String.compare_antisym, E).
      clear IH Hs. induction m as [|[k1 v1] m IH]; cbn [btree_insert map fst]; [by repeat constructor|].
      apply Forall_cons in Hall as [Hk1 Hall].
      destruct (String.compare k k1) eqn:E1; cbn [map fst]; repeat constructor; auto.
Qed.

Lemma btree_collect_ordered l : key_ordered (btree_collect l).
Proof.
  unfold btree_collect. assert (key_ordered (@nil (string * V))) as H by constructor.
  revert H. generalize (@nil (string * V)). induction l as [|kv l IH]; intros m Hm; [done|].
  cbn [foldl]. apply IH. by apply btree_insert_ordered.
Qed.

Lemma key_ordered_NoDup m : key_ordered m -> NoDup (map fst m).
Proof.
  unfold key_ordered. induction m as [|[k v] m IH]; [constructor|]. cbn [map fst].
  intros [Hs Hall]%StronglySorted_inv. apply list.NoDup_cons. split; [|by apply IH].
  intros Hin. rewrite list.Forall_forall in Hall. apply (key_lt_irrefl k). by apply Hall.
Qed.

Lemma elem_of_btree_get k v m : NoDup (map fst m) -> (k, v) ∈ m -> btree_get k m = Some v.
Proof.
  induction m as [|[k0 v0] m IH]; [by intros _ ?%elem_of_nil|].
  cbn [map fst]. intros [Hk0 Hnd]%list.NoDup_cons [E|Hin]%elem_of_cons; rewrite btree_get_cons.
  - injection E as -> ->. by rewrite bool_decide_eq_true_2.
  - rewrite bool_decide_eq_false_2; [by apply IH|]. intros ->. apply Hk0.
    apply list_elem_of_fmap. by exists (k, v).
Qed.

Lemma elem_of_btree_insert k v m kv : kv ∈ btree_insert k v m -> kv = (k, v) \/ kv ∈ m.
Proof.
  induction m as [|[k0 v0] m IH]; cbn [btree_insert].
  - intros ->%list_elem_of_singleton. by left.
  - destruct (String.compare k k0); rewrite !elem_of_cons; tauto.
Qed.

Lemma elem_of_btree_collect l kv : kv ∈ btree_collect l -> kv ∈ l.
Proof.
  unfold btree_collect. enough (forall m, kv ∈ foldl (fun m kv => btree_insert kv.1 kv.2 m) m l -> kv ∈ m \/ kv ∈ l) as H.
  { intros [H'%elem_of_nil|H']%H; done. }
  induction l as [|[k v] l IH]; intros m; cbn [foldl]; [by left|].
  intros [[->|H]%elem_of_btree_insert|H]%IH; rewrite ?elem_of_cons; auto.
Qed.

End BTree.
