(* ===== verification/SortBy.v ===== *)
(** * SortBy: comparison functions and sorting by one

    Rust orders through functions that return an [Ordering]; [sort_by], [sort_by_key] and
    [sort_unstable_by] of slices take one. A lawful comparison is an instance of [TotalCmp];
    [sort_by] is the stable sort, and the unstable sorts of the code are applied where no two
    elements compare equal, so that every sort gives the same list ([sorted_unique]). *)
From S2P Require Import Prelude BTree.
From stdpp Require Import strings sorting.

#[local] Open Scope Z_scope.

Class TotalCmp {A} (cmp : A -> A -> comparison) : Prop := {
  cmp_opp : forall x y, cmp y x = CompOpp (cmp x y);
  cmp_le_trans : forall x y z, cmp x y <> Gt -> cmp y z <> Gt -> cmp x z <> Gt;
}.

(** [Ordering::then_with], [Ordering::reverse] as swapped operands, and comparison by a key. *)
Definition then_with (c d : comparison) : comparison := match c with Eq => d | _ => c end.
Definition cmp_by {A B} (f : A -> B) (cmp : B -> B -> comparison) : A -> A -> comparison := fun x y => cmp (f x) (f y).
Definition cmp_rev {A} (cmp : A -> A -> comparison) : A -> A -> comparison := fun x y => cmp y x.
Definition cmp_then {A} (c d : A -> A -> comparison) : A -> A -> comparison := fun x y => then_with (c x y) (d x y).

Arguments cmp_opp {A} cmp {_} x y.
Arguments cmp_le_trans {A} cmp {_} x y z _ _.

#[global] Typeclasses Opaque cmp_by cmp_rev cmp_then.

Section Laws.
Context {A : Type} (cmp : A -> A -> comparison) `{!TotalCmp cmp}.

Definition cmp_le (x y : A) : Prop := cmp x y <> Gt.

Lemma cmp_refl x : cmp x x = Eq.
Proof. pose proof (cmp_opp cmp x x). by destruct (cmp x x). Qed.

Lemma cmp_gt_le x y : cmp x y = Gt -> cmp_le y x.
Proof. unfold cmp_le. rewrite (cmp_opp cmp x y). by intros ->. Qed.

Lemma cmp_eq_trans x y z : cmp x y = Eq -> cmp y z = Eq -> cmp x z = Eq.
Proof.
  intros Hxy Hyz. pose proof (cmp_le_trans cmp x y z) as H1. pose proof (cmp_le_trans cmp z y x) as H2.
  rewrite (cmp_opp cmp y z), (cmp_opp cmp x y), (cmp_opp cmp x z), Hxy, Hyz in *. cbn in *.
  destruct (cmp x z); [done|exfalso; by apply H2|exfalso; by apply H1].
Qed.

Lemma cmp_eq_l x y z : cmp x y = Eq -> cmp x z = cmp y z.
Proof.
  intros Hxy. assert (cmp y x = Eq) as Hyx by by rewrite (cmp_opp cmp x y), Hxy.
  pose proof (cmp_le_trans cmp y x z) as H1. pose proof (cmp_le_trans cmp x y z) as H2. rewrite Hxy, Hyx in *.
  pose proof (cmp_eq_trans y x z Hyx) as H3. pose proof (cmp_eq_trans x y z Hxy) as H4.
  destruct (cmp x z), (cmp y z); intuition congruence.
Qed.

(** ** The sort *)
Fixpoint sort_insert (x : A) (l : list A) : list A :=
  match l with
  | [] => [x]
  | y :: rest => match cmp x y with Gt => y :: sort_insert x rest | _ => x :: l end
  end.

Definition sort_by (l : list A) : list A := foldr sort_insert [] l.

Lemma sort_insert_perm x l : sort_insert x l ≡ₚ x :: l.
Proof.
  induction l as [|y rest IH]; [done|]. cbn [sort_insert]. destruct (cmp x y); [done|done|].
  rewrite IH. apply Permutation_swap.
Qed.

Lemma sort_by_perm l : sort_by l ≡ₚ l.
Proof. induction l as [|x l IH]; [done|]. cbn [sort_by foldr]. rewrite sort_insert_perm. by constructor. Qed.

Lemma sort_insert_sorted x l : StronglySorted cmp_le l -> StronglySorted cmp_le (sort_insert x l).
Proof.
  induction l as [|y rest IH]; [by repeat constructor|]. intros [Hs Hall]%StronglySorted_inv. cbn [sort_insert].
  assert (cmp_le x y -> StronglySorted cmp_le (x :: y :: rest)) as Hle.
  { intros Hxy. constructor; [by constructor|]. constructor; [done|].
    eapply Forall_impl; [exact Hall|]. intros z. by apply (cmp_le_trans cmp). }
  destruct (cmp x y) eqn:E; [apply Hle; unfold cmp_le; congruence|apply Hle; unfold cmp_le; congruence|].
  constructor; [by apply IH|]. rewrite sort_insert_perm. constructor; [by apply cmp_gt_le|done].
Qed.

Lemma sort_by_sorted l : StronglySorted cmp_le (sort_by l).
Proof. induction l as [|x l IH]; [constructor|]. by apply sort_insert_sorted. Qed.

(** Where only equal elements compare equal, a list has one sorted arrangement. *)
Lemma sorted_unique l1 l2 :
  StronglySorted cmp_le l1 -> StronglySorted cmp_le l2 -> l1 ≡ₚ l2 ->
  (forall x y, x ∈ l1 -> y ∈ l1 -> cmp x y = Eq -> x = y) -> l1 = l2.
Proof.
  intros Hs1. revert l2. induction Hs1 as [|x l1 Hs1 IH Hall1]; intros l2 Hs2 Hp Heq.
  - apply Permutation_nil in Hp. by subst.
  - destruct l2 as [|y l2]; [by apply Permutation_sym, Permutation_nil in Hp|].
    apply StronglySorted_inv in Hs2 as [Hs2 Hall2].
    assert (y ∈ x :: l1) as Hy by (rewrite Hp; left). assert (x ∈ y :: l2) as Hx by (rewrite <- Hp; left).
    rewrite list.Forall_forall in Hall1, Hall2.
    assert (x = y) as <-.
    { apply elem_of_cons in Hy as [->|Hy']; [done|]. apply elem_of_cons in Hx as [->|Hx']; [done|].
      apply Heq; [left|by right|]. specialize (Hall1 y Hy'). specialize (Hall2 x Hx').
      unfold cmp_le in *. rewrite (cmp_opp cmp x y) in Hall2. by destruct (cmp x y). }
    f_equal. apply IH; [done|by apply Permutation_cons_inv in Hp|].
    intros u v Hu Hv. apply Heq; by right.
Qed.

Lemma sort_by_unique l1 l2 :
  l1 ≡ₚ l2 -> (forall x y, x ∈ l1 -> y ∈ l1 -> cmp x y = Eq -> x = y) -> sort_by l1 = sort_by l2.
Proof.
  intros Hp Heq. apply sorted_unique; [apply sort_by_sorted|apply sort_by_sorted|by rewrite !sort_by_perm|].
  intros x y. rewrite !sort_by_perm. apply Heq.
Qed.

Lemma sort_by_id l :
  StronglySorted cmp_le l -> (forall x y, x ∈ l -> y ∈ l -> cmp x y = Eq -> x = y) -> sort_by l = l.
Proof.
  intros Hs Heq. symmetry. apply sorted_unique; [done|apply sort_by_sorted|by rewrite sort_by_perm|done].
Qed.

(** Distinct elements that never compare equal come out strictly increasing. *)
Lemma sorted_strict l :
  NoDup l -> (forall x y, x ∈ l -> y ∈ l -> cmp x y = Eq -> x = y) -> StronglySorted cmp_le l ->
  StronglySorted (fun x y => cmp x y = Lt) l.
Proof.
  intros Hnd Heq Hs. induction Hs as [|x l Hs IH Hall]; [constructor|]. apply list.NoDup_cons in Hnd as [Hx Hnd].
  constructor; [apply IH; [done|]; intros u v Hu Hv; apply Heq; by right|].
  rewrite list.Forall_forall in *. intros y Hy. specialize (Hall y Hy). unfold cmp_le in Hall.
  destruct (cmp x y) eqn:E; [|done|done]. apply Heq in E as ->; [done|left|by right].
Qed.

Lemma sort_by_strict l :
  NoDup l -> (forall x y, x ∈ l -> y ∈ l -> cmp x y = Eq -> x = y) ->
  StronglySorted (fun x y => cmp x y = Lt) (sort_by l).
Proof.
  intros Hnd Heq. apply sorted_strict; [by rewrite sort_by_perm| |apply sort_by_sorted].
  intros x y. rewrite !sort_by_perm. apply Heq.
Qed.

End Laws.

(** ** Instances *)
#[global] Instance Z_total_cmp : TotalCmp Z.compare.
Proof. split; [intros x y; apply Z.compare_antisym|]. intros x y z. change (x <= y -> y <= z -> x <= z). lia. Qed.

#[global] Instance nat_total_cmp : TotalCmp Nat.compare.
Proof.
  split; [intros x y; apply Nat.compare_antisym|]. intros x y z.
  rewrite !Nat.compare_le_iff. lia.
Qed.

#[global] Instance string_total_cmp : TotalCmp String.compare.
Proof.
  split; [intros x y; apply String.compare_antisym|]. intros x y z Hxy Hyz.
  destruct (String.compare x y) eqn:E1; [apply String.compare_eq_iff in E1 as ->; done| |done].
  destruct (String.compare y z) eqn:E2; [apply String.compare_eq_iff in E2 as <-; by rewrite E1| |done].
  by rewrite (key_lt_trans x y z E1 E2).
Qed.

#[global] Instance cmp_by_total {A B} (f : A -> B) cmp : TotalCmp cmp -> TotalCmp (cmp_by f cmp).
Proof. unfold cmp_by. intros [Ho Ht]. split; [intros x y; apply Ho|intros x y z; apply Ht]. Qed.

#[global] Instance cmp_rev_total {A} (cmp : A -> A -> comparison) : TotalCmp cmp -> TotalCmp (cmp_rev cmp).
Proof. unfold cmp_rev. intros [Ho Ht]. split; [intros x y; apply Ho|intros x y z H1 H2; by apply (Ht z y x)]. Qed.

#[global] Instance cmp_then_total {A} (c d : A -> A -> comparison) : TotalCmp c -> TotalCmp d -> TotalCmp (cmp_then c d).
Proof.
  intros Hc Hd. split; unfold cmp_then.
  - intros x y. rewrite (cmp_opp c x y), (cmp_opp d x y). by destruct (c x y).
  - intros x y z. destruct (c x y) eqn:E1, (c y z) eqn:E2; cbn [then_with]; try done.
    + rewrite (cmp_eq_trans c x y z E1 E2). apply (cmp_le_trans d).
    + by rewrite (cmp_eq_l c x y z E1), E2.
    + assert (c z y = Eq) as E2' by by rewrite (cmp_opp c y z), E2.
      rewrite (cmp_opp c z x), (cmp_eq_l c z y x E2'), <- (cmp_opp c y x), E1. done.
    + intros _ _. assert (c x z <> Gt) as H by (apply (cmp_le_trans c x y z); congruence).
      destruct (c x z) eqn:E3; [|done|done]. exfalso.
      rewrite (cmp_eq_l c x z y E3), (cmp_opp c y z), E2 in E1. done.
Qed.

(** ** Counting distinct elements *)
Lemma length_remove_dups_snoc `{EqDecision A} (l : list A) x :
  length (remove_dups (l ++ [x])) = (length (remove_dups l) + if bool_decide (x ∈ l) then 0 else 1)%nat.
Proof.
  case_bool_decide as Hx.
  - rewrite Nat.add_0_r. apply Permutation_length, NoDup_Permutation; [apply NoDup_remove_dups..|].
    intros y. rewrite !elem_of_remove_dups, elem_of_app, list_elem_of_singleton. naive_solver.
  - rewrite Nat.add_1_r. change (S (length ?l)) with (length (x :: l)).
    apply Permutation_length, NoDup_Permutation; [apply NoDup_remove_dups|apply list.NoDup_cons|].
    + rewrite elem_of_remove_dups. split; [done|apply NoDup_remove_dups].
    + intros y. rewrite elem_of_cons, !elem_of_remove_dups, elem_of_app, list_elem_of_singleton. tauto.
Qed.

Lemma length_remove_dups_app `{EqDecision A} (l l' : list A) : (length (remove_dups l) <= length (remove_dups (l ++ l')))%nat.
Proof.
  apply submseteq_length, NoDup_submseteq; [apply NoDup_remove_dups|].
  intros o. rewrite !elem_of_remove_dups, elem_of_app. by left.
Qed.

(** ** Ordered maps with the same lookups are equal *)
Lemma StronglySorted_map {A B} (f : A -> B) (R : B -> B -> Prop) (R' : A -> A -> Prop) l :
  (forall x y, R (f x) (f y) -> R' x y) -> StronglySorted R (map f l) -> StronglySorted R' l.
Proof.
  intros HR. induction l as [|x l IH]; [constructor|]. cbn [map]. intros [Hs Hall]%StronglySorted_inv.
  constructor; [by apply IH|]. apply (Forall_fmap f (R (f x))) in Hall. eapply Forall_impl; [exact Hall|]. intros y. apply HR.
Qed.

Lemma StronglySorted_weaken {A} (R R' : A -> A -> Prop) l :
  (forall x y, R x y -> R' x y) -> StronglySorted R l -> StronglySorted R' l.
Proof.
  intros HR. induction 1 as [|x l Hs IH Hall]; constructor; [done|]. eapply Forall_impl; [exact Hall|]. intros y. apply HR.
Qed.

Lemma StronglySorted_reverse {A} (R R' : A -> A -> Prop) l :
  (forall x y, R x y -> R' y x) -> StronglySorted R l -> StronglySorted R' (reverse l).
Proof.
  intros HR. induction 1 as [|x l Hs IH Hall]; [constructor|]. rewrite reverse_cons, StronglySorted_app.
  split_and!; [|done|by repeat constructor]. intros y z Hy ->%list_elem_of_singleton. rewrite elem_of_reverse in Hy.
  rewrite list.Forall_forall in Hall. apply HR. by apply Hall.
Qed.

Lemma StronglySorted_lookup {A} (R : A -> A -> Prop) l :
  (forall i j x y, (i < j)%nat -> l !! i = Some x -> l !! j = Some y -> R x y) -> StronglySorted R l.
Proof.
  induction l as [|x l IH]; intros H; [constructor|]. constructor.
  - apply IH. intros i j u v Hij Hi Hj. apply (H (S i) (S j)); [lia|done|done].
  - rewrite list.Forall_forall. intros y (j & Hj)%list_elem_of_lookup_1. apply (H O (S j)); [lia|done|done].
Qed.

Lemma NoDup_map_inj {A B} (f : A -> B) l x y : NoDup (map f l) -> x ∈ l -> y ∈ l -> f x = f y -> x = y.
Proof.
  intros Hnd (i & Hi)%list_elem_of_lookup_1 (j & Hj)%list_elem_of_lookup_1 E.
  assert (i = j) as <-; [|congruence]. apply (NoDup_lookup (f <$> l) i j (f x)); [done|by rewrite list_lookup_fmap, Hi|].
  by rewrite list_lookup_fmap, Hj, E.
Qed.

Lemma btree_ext {V} (m1 m2 : list (string * V)) :
  key_ordered m1 -> key_ordered m2 -> (forall k, btree_get k m1 = btree_get k m2) -> m1 = m2.
Proof.
  intros H1 H2 Hget. pose proof (key_ordered_NoDup _ H1) as N1. pose proof (key_ordered_NoDup _ H2) as N2.
  assert (forall m : list (string * V), key_ordered m -> StronglySorted (cmp_le (cmp_by fst String.compare)) m) as Hs.
  { intros m. apply StronglySorted_map. intros x y Hxy. unfold cmp_le, cmp_by. unfold key_lt in Hxy. congruence. }
  apply (sorted_unique (cmp_by fst String.compare)); [by apply Hs|by apply Hs| |].
  - apply NoDup_Permutation; [by apply (NoDup_fmap_1 fst)|by apply (NoDup_fmap_1 fst)|].
    intros [k v]. split; intros Hin.
    + apply btree_get_elem. rewrite <- Hget. by apply elem_of_btree_get.
    + apply btree_get_elem. rewrite Hget. by apply elem_of_btree_get.
  - intros [k v] [k' v'] Hx Hy E. unfold cmp_by in E. cbn in E. apply String.compare_eq_iff in E as ->.
    apply elem_of_btree_get in Hx, Hy; [|done..]. congruence.
Qed.
