(* ===== verification/Doubles.v ===== *)
(** * Doubles: [f64] of the standard library

    The executable binary64 specification of the standard library, with the operations the code
    applies to doubles. There is one not-a-number value, taken as positive by [total_cmp]. *)
From S2P Require Import Prelude BTree SortBy.
From Stdlib Require Import SpecFloat.

#[local] Open Scope Z_scope.

Definition f64 : Type := spec_float.
Definition f64_of_Z (n : Z) : f64 := binary_normalize 53 1024 n 0 false.
Definition f64_add : f64 -> f64 -> f64 := SFadd 53 1024.
Definition f64_sub : f64 -> f64 -> f64 := SFsub 53 1024.
Definition f64_mul : f64 -> f64 -> f64 := SFmul 53 1024.
Definition f64_div : f64 -> f64 -> f64 := SFdiv 53 1024.
Definition f64_ge (a b : f64) : bool := SFleb b a.
Definition f64_gt (a b : f64) : bool := SFltb b a.
Definition f64_finite (a : f64) : bool := match a with S754_zero _ | S754_finite _ _ _ => true | _ => false end.
Definition f64_is_nan (a : f64) : bool := match a with S754_nan => true | _ => false end.

(** [f64::min] and [f64::max] return the other operand when one is not a number. *)
Definition f64_min (a b : f64) : f64 :=
  match SFcompare a b with
  | Some Gt => b
  | Some _ => a
  | None => if f64_is_nan a then b else a
  end.
Definition f64_max (a b : f64) : f64 :=
  match SFcompare a b with
  | Some Lt => b
  | Some _ => a
  | None => if f64_is_nan a then b else a
  end.

(** [as u64] of a non-negative double below 2^64. *)
Definition f64_as_u64 (a : f64) : Z :=
  match a with
  | S754_finite false m e => if 0 <=? e then Z.pos m * 2 ^ e else Z.pos m / 2 ^ (- e)
  | _ => 0
  end.

(** [f64::total_cmp] compares the bit patterns as sign-magnitude integers: the sign, then the
    exponent, then the significand. *)
Definition total_key (f : f64) : Z * (Z * Z) :=
  match f with
  | S754_infinity true => (0, (0, 0))
  | S754_finite true m e => (1, (- e, - Z.pos m))
  | S754_zero true => (2, (0, 0))
  | S754_zero false => (3, (0, 0))
  | S754_finite false m e => (4, (e, Z.pos m))
  | S754_infinity false => (5, (0, 0))
  | S754_nan => (6, (0, 0))
  end.

Definition f64_total_cmp : f64 -> f64 -> comparison :=
  cmp_by total_key (cmp_then (cmp_by fst Z.compare) (cmp_by snd (cmp_then (cmp_by fst Z.compare) (cmp_by snd Z.compare)))).

#[global] Instance f64_total_cmp_total : TotalCmp f64_total_cmp.
Proof. unfold f64_total_cmp. apply _. Qed.

Lemma total_key_inj a b : total_key a = total_key b -> a = b.
Proof. destruct a as [[]|[]| |[] m e], b as [[]|[]| |[] m' e']; cbn; try done; intros [= He Hm]; f_equal; lia. Qed.

Lemma then_with_eq c d : then_with c d = Eq -> c = Eq /\ d = Eq.
Proof. by destruct c. Qed.

Lemma f64_total_cmp_eq a b : f64_total_cmp a b = Eq -> a = b.
Proof.
  unfold f64_total_cmp, cmp_by, cmp_then. intros H. apply total_key_inj.
  destruct (total_key a) as [c1 [e1 m1]], (total_key b) as [c2 [e2 m2]]. cbn [fst snd] in H.
  apply then_with_eq in H as [Hc [He Hm]%then_with_eq].
  apply Z.compare_eq in Hc, He, Hm. by subst.
Qed.

#[global] Instance f64_eq_dec : EqDecision f64.
Proof. solve_decision. Defined.

(** ** Signs *)

(** A clear sign bit, or not a number. *)
Definition non_negative (f : f64) : Prop :=
  match f with S754_zero s | S754_infinity s | S754_finite s _ _ => s = false | S754_nan => True end.

Lemma add_zero_l f : non_negative f -> f64_add (S754_zero false) f = f.
Proof. destruct f as [[]|[]| |[] m e]; done. Qed.

Lemma round_sign sx m e l : sx = false -> non_negative (binary_round_aux 53 1024 sx m e l).
Proof.
  intros ->. unfold binary_round_aux. destruct (shr_fexp 53 1024 m e l) as [r e'].
  destruct (shr_fexp _ _ _ e' loc_Exact) as [r' e'']. destruct (shr_m r'); [done| |done]. by destruct (e'' <=? 1024 - 53).
Qed.

Lemma normalize_non_negative m e : 0 <= m -> non_negative (binary_normalize 53 1024 m e false).
Proof.
  intros Hm. destruct m as [|m|m]; [done| |lia]. unfold binary_normalize, binary_round.
  destruct (shl_align _ _ _). by apply round_sign.
Qed.

Lemma f64_of_Z_non_negative n : 0 <= n -> non_negative (f64_of_Z n).
Proof. apply normalize_non_negative. Qed.

Lemma f64_add_non_negative a b : non_negative a -> non_negative b -> non_negative (f64_add a b).
Proof.
  destruct a as [[]|[]| |[] m e], b as [[]|[]| |[] m' e']; try done. intros _ _.
  unfold f64_add, SFadd. apply normalize_non_negative. done.
Qed.

Lemma f64_div_non_negative a b : non_negative a -> non_negative b -> non_negative (f64_div a b).
Proof.
  destruct a as [[]|[]| |[] m e], b as [[]|[]| |[] m' e']; try done. intros _ _.
  unfold f64_div, SFdiv. destruct (SFdiv_core_binary _ _ _ _ _ _) as [[q e1] l]. by apply round_sign.
Qed.

(** ** Integers below 2^53 are exact *)

Lemma digits2_log2 p : Z.pos (digits2_pos p) = Z.log2 (Z.pos p) + 1.
Proof.
  induction p as [p IH|p IH|]; cbn [digits2_pos]; [| |done]; rewrite Pos2Z.inj_succ, IH.
  - change (Z.pos p~1) with (2 * Z.pos p + 1). rewrite Z.log2_succ_double by lia. lia.
  - change (Z.pos p~0) with (2 * Z.pos p). rewrite Z.log2_double by lia. lia.
Qed.

Lemma iter_pos_nat {A} (f : A -> A) p : forall x, iter_pos f p x = Nat.iter (Pos.to_nat p) f x.
Proof.
  induction p as [p IH|p IH|]; intros x; cbn [iter_pos]; [| |done]; rewrite !IH, <- Nat.iter_add.
  - replace (Pos.to_nat p~1) with (S (Pos.to_nat p + Pos.to_nat p)) by lia. by rewrite Nat.iter_succ_r.
  - f_equal. lia.
Qed.

(** Shifting zeros out is exact. *)
Lemma shr_exact m k e : 0 <= k -> shr (Build_shr_record (m * 2 ^ k) false false) e k = (Build_shr_record m false false, e + k).
Proof.
  intros Hk. destruct k as [|p|p]; [|cbn [shr]|lia]; [by rewrite Z.pow_0_r, Z.mul_1_r, Z.add_0_r|]. f_equal. rewrite iter_pos_nat.
  rewrite <- (positive_nat_Z p). generalize (Pos.to_nat p) as n. clear. induction n as [|n IH]; [by rewrite Nat2Z.inj_0, Z.pow_0_r, Z.mul_1_r|].
  rewrite Nat.iter_succ_r, <- IH. f_equal. rewrite Nat2Z.inj_succ, Z.pow_succ_r by lia.
  replace (m * (2 * 2 ^ Z.of_nat n)) with (2 * (m * 2 ^ Z.of_nat n)) by lia.
  by destruct (m * 2 ^ Z.of_nat n).
Qed.

Lemma shl_align_spec m e e' : e' <= e -> Z.pos (shl_align m e e').1 = Z.pos m * 2 ^ (e - e') /\ (shl_align m e e').2 = e'.
Proof.
  intros He. unfold shl_align. destruct (e' - e) as [|p|p] eqn:E; [|lia|]; cbn [fst snd].
  - replace (e - e') with 0 by lia. lia.
  - split; [|done]. replace (e - e') with (Z.pos p) by lia. clear. induction p as [|p IH] using Pos.peano_ind; [cbn; lia|].
    rewrite Pos.iter_succ, Pos2Z.inj_succ, Z.pow_succ_r by lia. rewrite Pos2Z.inj_xO, IH. lia.
Qed.

(** A significand of 53 bits with [k] zeros below it. *)
Lemma round_exact M k e : Z.log2 (Z.pos M) = 52 -> 0 <= k -> -1074 <= e + k <= 971 ->
  binary_round_aux 53 1024 false (Z.pos M * 2 ^ k) e loc_Exact = S754_finite false M (e + k).
Proof.
  intros HM Hk He. assert (0 < 2 ^ k) as Hp by lia.
  assert (Zdigits2 (Z.pos M * 2 ^ k) = 53 + k) as Hd.
  { destruct (Z.pos M * 2 ^ k) as [|q|q] eqn:E; [lia| |lia]. cbn [Zdigits2]. rewrite digits2_log2, <- E, Z.log2_mul_pow2 by lia. lia. }
  unfold binary_round_aux, shr_fexp. rewrite Hd. unfold fexp at 1, emin. cbn [shr_record_of_loc].
  replace (Z.max (53 + k + e - 53) (3 - 1024 - 53) - e) with k by lia.
  rewrite shr_exact by done. cbn [shr_m loc_of_shr_record round_nearest_even].
  replace (Zdigits2 (Z.pos M)) with 53 by (cbn [Zdigits2]; rewrite digits2_log2, HM; done).
  unfold fexp, emin. replace (Z.max (53 + (e + k) - 53) (3 - 1024 - 53) - (e + k)) with 0 by lia.
  cbn [shr shr_m]. destruct (Z.leb_spec (e + k) (1024 - 53)); [done|lia].
Qed.

(** The double of an integer in 1..2^53-1. *)
Definition packed (n : Z) : f64 := S754_finite false (Z.to_pos (n * 2 ^ (52 - Z.log2 n))) (Z.log2 n - 52).

Lemma packed_log2 n : 0 < n < 2 ^ 53 -> 0 <= Z.log2 n <= 52 /\ Z.log2 (n * 2 ^ (52 - Z.log2 n)) = 52 /\ 0 < n * 2 ^ (52 - Z.log2 n).
Proof.
  intros Hn. pose proof (Z.log2_nonneg n). pose proof (proj1 (Z.log2_lt_pow2 n 53 ltac:(lia)) ltac:(lia)).
  split; [lia|]. split; [rewrite Z.log2_mul_pow2 by lia; lia|]. apply Z.mul_pos_pos; [lia|]. apply Z.pow_pos_nonneg; lia.
Qed.

(** Any representation of the integer normalizes to it. *)
Lemma normalize_packed n e : 0 < n < 2 ^ 53 -> e <= 0 -> binary_normalize 53 1024 (n * 2 ^ (- e)) e false = packed n.
Proof.
  intros Hn He. destruct (packed_log2 n Hn) as (Hl & HM & Hpos). unfold packed. set (L := Z.log2 n) in *.
  assert (0 < 2 ^ (- e)) as Hp by (apply Z.pow_pos_nonneg; lia).
  destruct (n * 2 ^ (- e)) as [|m|m] eqn:Em; [lia| |lia]. cbn [binary_normalize]. unfold binary_round.
  rewrite digits2_log2, <- Em, Z.log2_mul_pow2 by lia. fold L. unfold fexp, emin.
  replace (Z.max (- e + L + 1 + e - 53) (3 - 1024 - 53)) with (L - 52) by lia.
  set (M := Z.to_pos (n * 2 ^ (52 - L))). assert (Z.pos M = n * 2 ^ (52 - L)) as HMp by (subst M; lia).
  destruct (Z.le_gt_cases (L - 52) e) as [Hle|Hgt].
  - destruct (shl_align_spec m e (L - 52) Hle) as [Hm Hx]. destruct (shl_align m e (L - 52)) as [mz ez]. cbn [fst snd] in *.
    rewrite <- Em, <- Z.mul_assoc, <- Z.pow_add_r in Hm by lia. replace (- e + (e - (L - 52))) with (52 - L) in Hm by lia.
    rewrite <- HMp in Hm. injection Hm as ->. subst ez.
    pose proof (round_exact M 0 (L - 52) ltac:(congruence) ltac:(lia) ltac:(lia)) as H. rewrite Z.pow_0_r, Z.mul_1_r, Z.add_0_r in H. exact H.
  - assert (shl_align m e (L - 52) = (m, e)) as -> by (unfold shl_align; destruct (L - 52 - e) eqn:?; [done|done|lia]).
    rewrite <- Em. replace (n * 2 ^ (- e)) with (Z.pos M * 2 ^ (L - 52 - e)).
    2:{ rewrite HMp, <- Z.mul_assoc, <- Z.pow_add_r by lia. do 2 f_equal. lia. }
    rewrite round_exact by (congruence || lia). f_equal. lia.
Qed.

Lemma f64_of_Z_packed n : 0 < n < 2 ^ 53 -> f64_of_Z n = packed n.
Proof. intros Hn. unfold f64_of_Z. rewrite <- (normalize_packed n 0 Hn) by lia. f_equal. cbn. lia. Qed.

(** Sums of non-negative integers below 2^53 are exact. *)
Lemma f64_add_exact a c : 0 <= a -> 0 <= c -> a + c < 2 ^ 53 -> f64_add (f64_of_Z a) (f64_of_Z c) = f64_of_Z (a + c).
Proof.
  intros Ha Hc Hs. destruct (Z.eq_dec a 0) as [->|Ha0]; [by apply add_zero_l, f64_of_Z_non_negative|].
  destruct (Z.eq_dec c 0) as [->|Hc0]; [rewrite Z.add_0_r, f64_of_Z_packed by lia; done|].
  rewrite (f64_of_Z_packed a), (f64_of_Z_packed c), (f64_of_Z_packed (a + c)) by lia.
  destruct (packed_log2 a ltac:(lia)) as (Hla & _ & Hpa), (packed_log2 c ltac:(lia)) as (Hlc & _ & Hpc).
  unfold packed at 1 2, f64_add, SFadd. set (la := Z.log2 a) in *. set (lc := Z.log2 c) in *.
  set (e := Z.min (la - 52) (lc - 52)). cbn [cond_Zopp].
  rewrite (proj1 (shl_align_spec _ (la - 52) e ltac:(lia))), (proj1 (shl_align_spec _ (lc - 52) e ltac:(lia))), !Z2Pos.id by done.
  rewrite <- !Z.mul_assoc, <- !Z.pow_add_r by lia.
  replace (52 - la + (la - 52 - e)) with (- e) by lia. replace (52 - lc + (lc - 52 - e)) with (- e) by lia.
  rewrite <- Z.mul_add_distr_r. apply normalize_packed; lia.
Qed.

(** A quarter of such an integer is exact. *)
Lemma f64_mul_quarter n : 0 < n < 2 ^ 53 ->
  f64_mul (f64_of_Z n) (S754_finite false 4503599627370496 (-54)) =
  S754_finite false (Z.to_pos (n * 2 ^ (52 - Z.log2 n))) (Z.log2 n - 54).
Proof.
  intros Hn. rewrite f64_of_Z_packed by done. destruct (packed_log2 n Hn) as (Hl & HM & Hpos). unfold packed, f64_mul, SFmul. cbn [xorb].
  set (M := Z.to_pos (n * 2 ^ (52 - Z.log2 n))). assert (Z.pos M = n * 2 ^ (52 - Z.log2 n)) as HMp by (subst M; lia).
  rewrite Pos2Z.inj_mul. change (Z.pos 4503599627370496) with (2 ^ 52). rewrite round_exact by (congruence || lia). f_equal. lia.
Qed.

(** Sums of lists. *)
Lemma f64_sum_exact l : forall a, 0 <= a -> Forall (fun n => 0 <= n) l -> a + foldr Z.add 0 l < 2 ^ 53 ->
  foldl f64_add (f64_of_Z a) (map f64_of_Z l) = f64_of_Z (a + foldr Z.add 0 l).
Proof.
  induction l as [|n l IH]; intros a Ha Hl Hs; cbn [foldl map foldr] in *; [f_equal; lia|].
  apply Forall_cons_iff in Hl as [Hn Hl]. assert (0 <= foldr Z.add 0 l) by (clear -Hl; induction Hl; cbn; lia).
  rewrite f64_add_exact by lia. rewrite IH by (done || lia). f_equal. lia.
Qed.

(** An iterator's sum starts at the negative zero. *)
Lemma f64_iter_sum l : Forall (fun n => 0 <= n) l -> foldr Z.add 0 l < 2 ^ 53 ->
  foldl f64_add (S754_zero true) (map f64_of_Z l) =
  match l with [] => S754_zero true | _ => f64_of_Z (foldr Z.add 0 l) end.
Proof.
  destruct l as [|n l]; [done|]. intros Hl Hs. cbn [foldl map]. apply Forall_cons_iff in Hl as [Hn Hl].
  assert (0 <= foldr Z.add 0 l) by (clear -Hl; induction Hl; cbn; lia). cbn [foldr] in Hs.
  assert (f64_add (S754_zero true) (f64_of_Z n) = f64_of_Z n) as ->.
  { pose proof (f64_of_Z_non_negative n Hn) as H0. by destruct (f64_of_Z n) as [[]|[]| |[] ? ?]. }
  by apply f64_sum_exact.
Qed.
