(* ===== verification/CacheState.v ===== *)
(** * CacheState: the prompt-cache freeze and replay core (cache-stability/src/lib.rs)

    A pass either replays the frozen units verbatim (a defer), re-renders the volatile ones
    (Soft) or rebuilds the whole prefix (Hard). The state is one value written back whole;
    [step] returns the state it leaves along with the outcome, the loaded state itself on an
    error. Strings are compared for equality only. *)
From S2P Require Import Prelude BTree.
From stdpp Require Import strings gmap.

#[local] Open Scope Z_scope.

Module Cache.

(** ** Data *)
Inductive Action := SoftPlus | Soft | Hard.

Inductive DurabilityClass := Episode | Lineage.

Record FrozenUnit := mkUnit {
  key : string;
  kind : string;
  frozen_payload : string;
  durability_class : DurabilityClass;
  reset_rule : string;
}.

Inductive StepError :=
| VersionExhausted (version : Z)
| DuplicateFrozenKey (k : string).

Record CoreState := mkCore {
  version : Z;
  boundary_id : string;
  frozen_units : list FrozenUnit;
  pending_changes : list FrozenUnit;
  reconcile_pending : bool;
}.

Record PassInput := mkPass {
  proposed : Action;
  boundary_present : string;
  rendered_units : list FrozenUnit;
  queued : list FrozenUnit;
  new_boundary_id : option string;
  run_started : bool;
}.

Record StepResult := mkResult {
  sr_action : Action;
  sr_reconcile_pending : bool;
}.

#[global] Instance Action_eq_dec : EqDecision Action.
Proof. solve_decision. Defined.
#[global] Instance DurabilityClass_eq_dec : EqDecision DurabilityClass.
Proof. solve_decision. Defined.
#[global] Instance FrozenUnit_eq_dec : EqDecision FrozenUnit.
Proof. solve_decision. Defined.
#[global] Instance CoreState_eq_dec : EqDecision CoreState.
Proof. solve_decision. Defined.

(** ** Operations *)
Definition pass_new (proposed : Action) (boundary_present : string) : PassInput :=
  mkPass proposed boundary_present [] [] None false.

Definition empty : CoreState := mkCore 0 EmptyString [] [] false.

Definition cached_prefix_bytes (s : CoreState) : string :=
  String.concat EmptyString (map frozen_payload (frozen_units s)).

(** [iter_mut().find(same key)] replaced in place, otherwise [push]. *)
Fixpoint put_unit (unit : FrozenUnit) (frozen : list FrozenUnit) : list FrozenUnit :=
  match frozen with
  | [] => [unit]
  | u :: rest => if bool_decide (key u = key unit) then unit :: rest else u :: put_unit unit rest
  end.

Definition apply_units (frozen units : list FrozenUnit) : list FrozenUnit :=
  foldl (fun frozen unit => put_unit unit frozen) frozen units.

Definition is_lineage (u : FrozenUnit) : bool := bool_decide (durability_class u = Lineage).

(** The first unit whose key is already in [seen]; every key met is inserted. *)
Fixpoint find_duplicate (seen : gset string) (units : list FrozenUnit) : option FrozenUnit :=
  match units with
  | [] => None
  | u :: rest => if bool_decide (key u ∈ seen) then Some u else find_duplicate ({[ key u ]} ∪ seen) rest
  end.

Definition step_defer (s : CoreState) (input : PassInput) (boundary_match : bool) : CoreState * StepResult :=
  let reconcile := negb boundary_match && negb (bool_decide (boundary_id s = EmptyString)) in
  (mkCore (version s) (boundary_id s) (frozen_units s) (pending_changes s ++ queued input) reconcile,
   mkResult SoftPlus reconcile).

Definition step_soft (s : CoreState) (input : PassInput) (boundary_match : bool) : CoreState * StepResult :=
  let frozen := apply_units (frozen_units s) (rendered_units input) in
  let reconcile :=
    if negb boundary_match && negb (bool_decide (boundary_id s = EmptyString)) then true
    else reconcile_pending s in
  let boundary :=
    if boundary_match && negb reconcile
    then default (boundary_id s) (new_boundary_id input) else boundary_id s in
  (mkCore (version s + 1) boundary frozen (pending_changes s) reconcile, mkResult Soft reconcile).

Definition step_hard (s : CoreState) (input : PassInput) (boundary_match : bool) : CoreState * StepResult :=
  let rendered_keys := map key (rendered_units input) in
  let pending := filter (fun q => key q ∉ rendered_keys) (pending_changes s) in
  let frozen := apply_units [] (rendered_units input ++ pending) in
  let minted := bool_decide (is_Some (new_boundary_id input)) in
  let boundary := default (boundary_id s) (new_boundary_id input) in
  let reconcile := negb minted && negb boundary_match && negb (bool_decide (boundary = EmptyString)) in
  (mkCore (version s + 1) boundary frozen [] reconcile, mkResult Hard reconcile).

Definition is_bust (a : Action) : bool := match a with SoftPlus => false | _ => true end.

Definition start_run (s : CoreState) : CoreState :=
  mkCore (version s) (boundary_id s) (List.filter is_lineage (frozen_units s))
    (List.filter is_lineage (pending_changes s)) (reconcile_pending s).

Definition step (s : CoreState) (input : PassInput) : CoreState * result StepError StepResult :=
  if is_bust (proposed input) && (version s =? u64_MAX)
  then (s, Err (VersionExhausted (version s)))
  else match find_duplicate ∅ (frozen_units s) with
  | Some duplicate => (s, Err (DuplicateFrozenKey (key duplicate)))
  | None =>
      let boundary_match := bool_decide (boundary_present input = boundary_id s) in
      let s := if run_started input then start_run s else s in
      let out := match proposed input with
        | SoftPlus => step_defer s input boundary_match
        | Soft => step_soft s input boundary_match
        | Hard => step_hard s input boundary_match
        end in
      (out.1, Ok out.2)
  end.

(** ** Specification: the frozen set as an ordered map

    [unit_map] is the contents (the first unit of a key counts, and keys are unique in a
    loaded state); [add_keys] is the order: known keys keep their slot, new ones append. *)
Definition unit_map (units : list FrozenUnit) : gmap string FrozenUnit :=
  list_to_map (map (fun u => (key u, u)) units).

(** The last unit of each key. *)
Definition last_units (units : list FrozenUnit) : gmap string FrozenUnit := unit_map (reverse units).

Definition add_keys (keys new : list string) : list string :=
  foldl (fun keys k => if bool_decide (k ∈ keys) then keys else keys ++ [k]) keys new.

(** A run of passes: the state the last one leaves. *)
Definition run_steps (s : CoreState) (inputs : list PassInput) : CoreState :=
  foldl (fun s input => (step s input).1) s inputs.

(** The well-formed states: the version fits its width, frozen keys are unique, and a
    reconcile is pending only against a boundary that was minted. *)
Record wf (s : CoreState) : Prop := {
  wf_version : is_u64 (version s);
  wf_keys : NoDup (map key (frozen_units s));
  wf_reconcile : reconcile_pending s = true -> boundary_id s <> EmptyString;
}.

(** ** Lemmas *)
Lemma find_duplicate_None seen units :
  find_duplicate seen units = None <->
  NoDup (map key units) /\ (forall u, u ∈ units -> key u ∉ seen).
Proof.
  revert seen. induction units as [|u us IH]; intros seen; cbn [find_duplicate map].
  - split; [|done]. intros _. split; [constructor|]. intros u Hu. by apply elem_of_nil in Hu.
  - destruct (bool_decide_reflect (key u ∈ seen)) as [Hin|Hin].
    + split; [done|]. intros [_ H]. exfalso. apply (H u); [left|done].
    + rewrite IH, list.NoDup_cons. split.
      * intros [Hnd Hs]. split; [split; [|done]|].
        -- intros (v & Hk & Hv)%list_elem_of_fmap. apply (Hs v Hv). set_solver.
        -- intros v [->|Hv]%elem_of_cons; [done|]. intros Hk. apply (Hs v Hv). set_solver.
      * intros [[Hu Hnd] Hs]. split; [done|]. intros v Hv.
        assert (key v <> key u) by (intros E; apply Hu; rewrite <- E; apply list_elem_of_fmap; eauto).
        pose proof (Hs v ltac:(by right)). set_solver.
Qed.

Lemma find_duplicate_Some seen units u :
  find_duplicate seen units = Some u ->
  exists pre post, units = pre ++ u :: post /\ (key u ∈ seen \/ key u ∈ map key pre) /\
    NoDup (map key pre) /\ (forall v, v ∈ pre -> key v ∉ seen).
Proof.
  revert seen. induction units as [|v us IH]; intros seen; cbn [find_duplicate]; [done|].
  destruct (bool_decide_reflect (key v ∈ seen)) as [Hin|Hin].
  - intros [= ->]. exists [], us. repeat split; [by left|constructor|]. intros w Hw. by apply elem_of_nil in Hw.
  - intros (pre & post & -> & Hk & Hnd & Hs)%IH. exists (v :: pre), post. cbn [map app].
    repeat split; [|apply list.NoDup_cons; split; [|done]|].
    + destruct Hk as [Hk|Hk]; [|by right; right]. apply elem_of_union in Hk as [Hk|Hk]; [|by left].
      right. apply elem_of_singleton in Hk as ->. left.
    + intros (w & Hk' & Hw)%list_elem_of_fmap. apply (Hs w Hw). set_solver.
    + intros w [->|Hw]%elem_of_cons; [done|]. specialize (Hs w Hw). set_solver.
Qed.

Lemma keys_put_unit u fs : map key (put_unit u fs) = add_keys (map key fs) [key u].
Proof.
  unfold add_keys. cbn [foldl]. induction fs as [|v fs IH]; [done|]. cbn [put_unit map].
  destruct (bool_decide_reflect (key v = key u)) as [E|E]; cbn [map].
  - rewrite E, bool_decide_eq_true_2 by left. done.
  - rewrite IH. destruct (bool_decide_reflect (key u ∈ map key fs)) as [Hi|Hi].
    + by rewrite bool_decide_eq_true_2 by (by right).
    + rewrite bool_decide_eq_false_2; [done|]. intros [E'|?]%elem_of_cons; [by rewrite E' in E|done].
Qed.

Lemma keys_apply_units us fs : map key (apply_units fs us) = add_keys (map key fs) (map key us).
Proof.
  unfold apply_units. revert fs. induction us as [|u us IH]; intros fs; [done|].
  cbn [foldl map]. by rewrite IH, keys_put_unit.
Qed.

Lemma NoDup_add_keys new keys : NoDup keys -> NoDup (add_keys keys new).
Proof.
  unfold add_keys. revert keys. induction new as [|k new IH]; intros keys Hnd; [done|]. cbn [foldl].
  apply IH. destruct (bool_decide_reflect (k ∈ keys)); [done|].
  apply list.NoDup_app. repeat split; [done| |apply NoDup_singleton].
  intros x Hx ->%list_elem_of_singleton. done.
Qed.

Lemma elem_of_add_keys new keys k : k ∈ add_keys keys new <-> k ∈ keys \/ k ∈ new.
Proof.
  unfold add_keys. revert keys. induction new as [|k' new IH]; intros keys; cbn [foldl].
  - rewrite elem_of_nil. tauto.
  - rewrite IH, elem_of_cons. destruct (bool_decide_reflect (k' ∈ keys)).
    + split; [tauto|]. intros [?|[->|?]]; auto.
    + rewrite elem_of_app, list_elem_of_singleton. tauto.
Qed.

Lemma NoDup_apply_units us fs : NoDup (map key fs) -> NoDup (map key (apply_units fs us)).
Proof. rewrite keys_apply_units. apply NoDup_add_keys. Qed.

Lemma unit_map_cons u us : unit_map (u :: us) = <[key u := u]> (unit_map us).
Proof. done. Qed.

Lemma unit_map_put u fs : unit_map (put_unit u fs) = <[key u := u]> (unit_map fs).
Proof.
  induction fs as [|v fs IH]; [done|]. cbn [put_unit].
  destruct (bool_decide_reflect (key v = key u)) as [E|E].
  - rewrite !unit_map_cons, E. by rewrite insert_insert_eq.
  - rewrite !unit_map_cons, IH. by apply insert_insert_ne.
Qed.

Lemma unit_map_app us vs : unit_map (us ++ vs) = unit_map us ∪ unit_map vs.
Proof. unfold unit_map. rewrite map_app. apply list_to_map_app. Qed.

Lemma unit_map_apply us fs : unit_map (apply_units fs us) = last_units us ∪ unit_map fs.
Proof.
  unfold last_units, apply_units. revert fs. induction us as [|u us IH]; intros fs.
  - symmetry. apply (left_id_L ∅ (∪)).
  - cbn [foldl]. rewrite IH, reverse_cons, unit_map_app, unit_map_put, <- (assoc_L (∪)).
    f_equal. apply insert_union_singleton_l.
Qed.

Lemma unit_map_None us k : unit_map us !! k = None <-> k ∉ map key us.
Proof.
  unfold unit_map. rewrite <- not_elem_of_list_to_map. rewrite map_map. done.
Qed.

Lemma unit_map_Some us k u : unit_map us !! k = Some u -> u ∈ us /\ key u = k.
Proof.
  unfold unit_map. intros H%elem_of_list_to_map_2. apply list_elem_of_fmap in H as (v & E & Hv).
  by injection E as -> ->.
Qed.

Lemma unit_map_lookup us u : NoDup (map key us) -> u ∈ us -> unit_map us !! key u = Some u.
Proof.
  intros Hnd Hu. unfold unit_map. apply elem_of_list_to_map_1; [by rewrite map_map|].
  apply list_elem_of_fmap. by exists u.
Qed.

Lemma find_unit_map us k : find (fun u => bool_decide (key u = k)) us = unit_map us !! k.
Proof.
  induction us as [|u us IH]; [done|]. cbn [find]. rewrite unit_map_cons.
  destruct (bool_decide_reflect (key u = k)) as [->|Hn]; [by rewrite lookup_insert_eq|].
  by rewrite lookup_insert_ne.
Qed.

(** The pass proper, once the loaded state has been accepted. *)
Definition pass_body (s : CoreState) (input : PassInput) : CoreState * StepResult :=
  let boundary_match := bool_decide (boundary_present input = boundary_id s) in
  let s := if run_started input then start_run s else s in
  match proposed input with
  | SoftPlus => step_defer s input boundary_match
  | Soft => step_soft s input boundary_match
  | Hard => step_hard s input boundary_match
  end.

(** A busting pass has a version left to stamp. *)
Definition has_version (s : CoreState) (input : PassInput) : Prop :=
  is_bust (proposed input) = true -> version s <> u64_MAX.

Lemma step_accepted s input :
  NoDup (map key (frozen_units s)) -> has_version s input ->
  step s input = ((pass_body s input).1, Ok (pass_body s input).2).
Proof.
  intros Hnd Hv. unfold step, pass_body.
  assert (is_bust (proposed input) && (version s =? u64_MAX) = false) as ->.
  { apply andb_false_iff. destruct (is_bust (proposed input)) eqn:E; [right|by left].
    apply Z.eqb_neq. by apply Hv. }
  replace (find_duplicate ∅ (frozen_units s)) with (@None FrozenUnit); [done|].
  symmetry. apply find_duplicate_None. split; [done|]. set_solver.
Qed.

Lemma NoDup_keys_filter f units : NoDup (map key units) -> NoDup (map key (List.filter f units)).
Proof.
  induction units as [|u us IH]; [done|]. cbn [map List.filter]. intros [Hu Hnd]%list.NoDup_cons.
  destruct (f u); [|by apply IH]. cbn [map]. apply list.NoDup_cons. split; [|by apply IH].
  intros (v & Hk & Hv)%list_elem_of_fmap. apply Hu. apply list_elem_of_fmap. exists v. split; [done|].
  apply list_elem_of_In in Hv. apply filter_In in Hv as [Hv _]. by apply list_elem_of_In.
Qed.

Lemma pass_body_keys s input :
  NoDup (map key (frozen_units s)) -> NoDup (map key (frozen_units (pass_body s input).1)).
Proof.
  intros Hnd. unfold pass_body.
  assert (NoDup (map key (frozen_units (if run_started input then start_run s else s)))) as Hnd'
    by (destruct (run_started input); [by apply NoDup_keys_filter|done]).
  destruct (proposed input); cbn [step_defer step_soft step_hard frozen_units fst];
    [done|by apply NoDup_apply_units|]. apply NoDup_apply_units. constructor.
Qed.

Lemma pass_body_version s input :
  version (pass_body s input).1 = version s + (if is_bust (proposed input) then 1 else 0).
Proof. unfold pass_body. destruct (run_started input), (proposed input); cbn; lia. Qed.

Lemma pass_body_result s input :
  (pass_body s input).2 = mkResult (proposed input) (reconcile_pending (pass_body s input).1).
Proof. unfold pass_body. by destruct (proposed input). Qed.

Lemma pass_body_reconcile s input :
  (reconcile_pending s = true -> boundary_id s <> EmptyString) ->
  reconcile_pending (pass_body s input).1 = true -> boundary_id (pass_body s input).1 <> EmptyString.
Proof.
  intros Hs. unfold pass_body.
  assert (boundary_id (if run_started input then start_run s else s) = boundary_id s) as Hb
    by by destruct (run_started input).
  assert (reconcile_pending (if run_started input then start_run s else s) = reconcile_pending s) as Hr
    by by destruct (run_started input).
  destruct (proposed input); cbn [step_defer step_soft step_hard fst boundary_id reconcile_pending].
  - rewrite Hb. intros [_ H%negb_true_iff]%andb_true_iff. by apply bool_decide_eq_false in H.
  - rewrite Hb, Hr.
    destruct (bool_decide_reflect (boundary_present input = boundary_id s)) as [Hm|Hm]; cbn [negb andb].
    + destruct (reconcile_pending s); [cbn [negb]; auto|discriminate].
    + intros H. destruct (bool_decide_reflect (boundary_id s = EmptyString)); [|done]. by apply Hs.
  - intros [_ H%negb_true_iff]%andb_true_iff. by apply bool_decide_eq_false in H.
Qed.

Lemma step_wf s input : wf s -> wf (step s input).1.
Proof.
  intros [Hv Hk Hr].
  destruct (decide (is_bust (proposed input) = true /\ version s = u64_MAX)) as [[Hb Hm]|Hn].
  - unfold step. rewrite Hb, Hm. cbn. by constructor.
  - assert (has_version s input) as Hhv by (intros ? ?; tauto).
    rewrite step_accepted by done. cbn [fst]. constructor.
    + rewrite pass_body_version. unfold has_version in Hhv.
      destruct (is_bust (proposed input)); [specialize (Hhv eq_refl)|]; mlia.
    + by apply pass_body_keys.
    + by apply pass_body_reconcile.
Qed.

Lemma empty_wf : wf empty.
Proof. constructor; cbn; [mlia|constructor|done]. Qed.

Lemma steps_wf inputs s : wf s -> wf (run_steps s inputs).
Proof. revert s. induction inputs as [|i rest IH]; intros s Hs; [done|]. apply IH. by apply step_wf. Qed.

Definition busts (inputs : list PassInput) : nat :=
  length (List.filter (fun input => is_bust (proposed input)) inputs).

Lemma steps_version inputs s :
  wf s -> version (run_steps s inputs) = Z.min u64_MAX (version s + Z.of_nat (busts inputs)).
Proof.
  unfold busts. revert s. induction inputs as [|i rest IH]; intros s Hs.
  - destruct Hs as [Hv _ _]. cbn. mlia.
  - cbn [run_steps foldl]. change (foldl _ ?s0 rest) with (run_steps s0 rest). rewrite IH by by apply step_wf.
    cbn [List.filter]. destruct Hs as [Hv Hk _]. destruct (is_bust (proposed i)) eqn:Hb.
    + destruct (Z.eq_dec (version s) u64_MAX) as [Hm|Hm].
      * unfold step. rewrite Hb, Hm. cbn. mlia.
      * rewrite step_accepted; [|done|by intros _]. cbn [fst]. rewrite pass_body_version, Hb. cbn [length]. mlia.
    + rewrite step_accepted; [|done|by intros ?; congruence]. cbn [fst].
      rewrite pass_body_version, Hb. f_equal. lia.
Qed.

(** A pass on any loaded state, well formed or not, either runs or changes nothing. It
    refuses exactly when a busting pass finds the version at its maximum, or when two frozen
    units share a key, and it then names the first key that repeats. *)
Theorem step_refusals s input :
  match (step s input).2 with
  | Ok r => NoDup (map key (frozen_units s)) /\ has_version s input /\
      r = mkResult (proposed input) (reconcile_pending (step s input).1)
  | Err (VersionExhausted v) =>
      (step s input).1 = s /\ is_bust (proposed input) = true /\ version s = u64_MAX /\ v = u64_MAX
  | Err (DuplicateFrozenKey k) =>
      (step s input).1 = s /\ has_version s input /\
      exists pre u post, frozen_units s = pre ++ u :: post /\ key u = k /\
        k ∈ map key pre /\ NoDup (map key pre)
  end.
Proof.
  destruct (is_bust (proposed input) && (version s =? u64_MAX)) eqn:Hv.
  - unfold step. rewrite Hv. cbn. apply andb_true_iff in Hv as [? ?%Z.eqb_eq]. auto.
  - assert (has_version s input) as Hhv.
    { intros Hb Hm. rewrite Hb, Hm, Z.eqb_refl in Hv. done. }
    destruct (find_duplicate ∅ (frozen_units s)) as [u|] eqn:Hd.
    + unfold step. rewrite Hv, Hd. cbn. split; [done|]. split; [done|].
      apply find_duplicate_Some in Hd as (pre & post & E & [Hk|Hk] & Hnd & _); [set_solver|].
      by exists pre, u, post.
    + apply find_duplicate_None in Hd as [Hnd _]. rewrite step_accepted by done. cbn.
      split; [done|]. split; [done|]. apply pass_body_result.
Qed.

(** C40: Every state the core can reach from the empty one, by any passes, is well formed: its
    version counts the busting passes run so far and never exceeds 64 bits, its frozen keys are
    unique, and a reconcile is pending only against a minted boundary. So a pass on it never
    meets a duplicate key and fails only when the version is exhausted. *)
Theorem reachable_states_well_formed inputs input :
  wf (run_steps empty inputs) /\
  version (run_steps empty inputs) = Z.min u64_MAX (Z.of_nat (busts inputs)) /\
  ((step (run_steps empty inputs) input).2 =
     (if is_bust (proposed input) && (u64_MAX <=? Z.of_nat (busts inputs))
      then Err (VersionExhausted u64_MAX)
      else Ok (mkResult (proposed input) (reconcile_pending (step (run_steps empty inputs) input).1)))).
Proof.
  pose proof (steps_wf inputs empty empty_wf) as Hwf.
  pose proof (steps_version inputs empty empty_wf) as Hver. cbn [empty version] in Hver.
  split; [done|]. split; [by rewrite Hver|].
  set (s := run_steps empty inputs) in *. destruct Hwf as [_ Hk _].
  destruct (is_bust (proposed input)) eqn:Hb; cbn [andb].
  - destruct (Z.leb_spec u64_MAX (Z.of_nat (busts inputs))).
    + assert (version s = u64_MAX) as Hm by lia. unfold step. rewrite Hb, Hm. done.
    + rewrite step_accepted; [cbn|done|intros _; lia]. by rewrite pass_body_result.
  - rewrite step_accepted; [cbn|done|by intros ?; congruence]. by rewrite pass_body_result.
Qed.

(** ** Replay, deferred work and the stable baseline *)
Lemma concat_nil_app (l l' : list string) :
  String.concat EmptyString (l ++ l') = (String.concat EmptyString l +:+ String.concat EmptyString l')%string.
Proof.
  assert (forall s (l : list string), String.concat EmptyString (s :: l) = (s +:+ String.concat EmptyString l)%string) as Hc.
  { intros s [|s' l0]; [|done]. symmetry. apply append_nil_r. }
  induction l as [|s l IH]; [done|]. cbn [app]. by rewrite !Hc, IH, append_assoc.
Qed.

Lemma put_unit_app st v u :
  key u ∉ map key st -> put_unit u (st ++ v) = st ++ put_unit u v.
Proof.
  induction st as [|w st IH]; [done|]. cbn [map app put_unit]. intros [Hw Hst]%not_elem_of_cons.
  rewrite bool_decide_eq_false_2 by congruence. by rewrite IH.
Qed.

Lemma apply_units_app us st v :
  (forall u, u ∈ us -> key u ∉ map key st) -> apply_units (st ++ v) us = st ++ apply_units v us.
Proof.
  unfold apply_units. revert v. induction us as [|u us IH]; intros v Hu; [done|]. cbn [foldl].
  rewrite put_unit_app by (apply Hu; left). apply IH. intros w Hw. apply Hu. by right.
Qed.

Lemma filter_lineage_twice us : List.filter is_lineage (List.filter is_lineage us) = List.filter is_lineage us.
Proof.
  induction us as [|u us IH]; [done|]. cbn [List.filter]. destruct (is_lineage u) eqn:E; [|done].
  cbn [List.filter]. by rewrite E, IH.
Qed.

Lemma filter_all_lineage us : Forall (fun u => durability_class u = Lineage) us -> List.filter is_lineage us = us.
Proof.
  induction 1 as [|u us Hu Hus IH]; [done|]. cbn [List.filter]. unfold is_lineage at 1.
  by rewrite bool_decide_eq_true_2, IH by done.
Qed.

(** What a run start leaves of a list of units. *)
Definition survivors (started : bool) (us : list FrozenUnit) : list FrozenUnit :=
  if started then List.filter is_lineage us else us.

Lemma frozen_after_start s (started : bool) :
  frozen_units (if started then start_run s else s) = survivors started (frozen_units s).
Proof. by destruct started. Qed.

Lemma pending_after_start s (started : bool) :
  pending_changes (if started then start_run s else s) = survivors started (pending_changes s).
Proof. by destruct started. Qed.

Lemma NoDup_keys_survivors b us : NoDup (map key us) -> NoDup (map key (survivors b us)).
Proof. destruct b; [apply NoDup_keys_filter|done]. Qed.

Lemma survivors_survivors b b' us : survivors b' (survivors b us) = survivors (b || b') us.
Proof. destruct b, b'; cbn; [apply filter_lineage_twice|done..]. Qed.

Lemma defers_replay inputs s :
  NoDup (map key (frozen_units s)) ->
  Forall (fun i => proposed i = SoftPlus) inputs ->
  frozen_units (run_steps s inputs) = survivors (existsb run_started inputs) (frozen_units s) /\
  version (run_steps s inputs) = version s /\ boundary_id (run_steps s inputs) = boundary_id s.
Proof.
  intros Hnd Hi. revert s Hnd. induction Hi as [|i rest Hi Hrest IH]; intros s Hnd; [done|].
  cbn [run_steps foldl existsb]. change (foldl _ ?s0 rest) with (run_steps s0 rest).
  rewrite step_accepted; [|done|by intros Hb; rewrite Hi in Hb]. cbn [fst].
  unfold pass_body. rewrite Hi. cbn [step_defer fst].
  edestruct IH as (IHf & IHv & IHb); [|rewrite IHf, IHv, IHb; cbn [frozen_units version boundary_id]].
  - cbn [frozen_units]. rewrite frozen_after_start. by apply NoDup_keys_survivors.
  - rewrite frozen_after_start, survivors_survivors. by destruct (run_started i).
Qed.

(** Over any run of defer passes, whatever they queue and whatever boundary token they
    observe, the version and the boundary stand still and the frozen set only loses episode
    units, when a run starts; so a frozen set of lineage units replays exactly the same
    cached-prefix bytes on every one of them. *)
Theorem defers_replay_prefix s inputs :
  NoDup (map key (frozen_units s)) ->
  Forall (fun i => proposed i = SoftPlus) inputs ->
  frozen_units (run_steps s inputs) = survivors (existsb run_started inputs) (frozen_units s) /\
  version (run_steps s inputs) = version s /\ boundary_id (run_steps s inputs) = boundary_id s /\
  (Forall (fun u => durability_class u = Lineage) (frozen_units s) \/ existsb run_started inputs = false ->
   cached_prefix_bytes (run_steps s inputs) = cached_prefix_bytes s).
Proof.
  intros Hnd Hi. destruct (defers_replay inputs s Hnd Hi) as (Hf & Hv & Hb).
  repeat split; [done..|]. intros Hl. unfold cached_prefix_bytes. rewrite Hf.
  destruct Hl as [Hl| ->]; [|done]. destruct (existsb run_started inputs); [|done].
  cbn. by rewrite filter_all_lineage.
Qed.

(** A Soft pass leaves every byte in front of the first unit it renders where it was: the
    frozen units before it are the same units in the same slots, each rendered unit replaces
    the one of its key or is appended, and the deferred queue is not touched. *)
Theorem soft_keeps_baseline s input stable volatile :
  NoDup (map key (frozen_units s)) -> has_version s input ->
  proposed input = Soft -> run_started input = false ->
  frozen_units s = stable ++ volatile ->
  (forall u, u ∈ rendered_units input -> key u ∉ map key stable) ->
  exists volatile',
    frozen_units (step s input).1 = stable ++ volatile' /\
    map key volatile' = add_keys (map key volatile) (map key (rendered_units input)) /\
    unit_map volatile' = last_units (rendered_units input) ∪ unit_map volatile /\
    pending_changes (step s input).1 = pending_changes s /\
    cached_prefix_bytes (step s input).1 =
      (String.concat EmptyString (map frozen_payload stable) +:+
       String.concat EmptyString (map frozen_payload volatile'))%string.
Proof.
  intros Hnd Hv Hp Hr Hf Hu. exists (apply_units volatile (rendered_units input)).
  assert (frozen_units (step s input).1 = stable ++ apply_units volatile (rendered_units input)) as Hs.
  { rewrite step_accepted by done. unfold pass_body. rewrite Hp, Hr. cbn [fst step_soft frozen_units].
    rewrite Hf. by apply apply_units_app. }
  repeat split; [done|apply keys_apply_units|apply unit_map_apply| |].
  - rewrite step_accepted by done. unfold pass_body. by rewrite Hp, Hr.
  - unfold cached_prefix_bytes. rewrite Hs, map_app. apply concat_nil_app.
Qed.

(** The units the passes of a run queue: only a defer queues. *)
Definition queued_units (inputs : list PassInput) : list FrozenUnit :=
  concat (map (fun i => if is_bust (proposed i) then [] else queued i) inputs).

Lemma queue_kept inputs s :
  wf s -> version s + Z.of_nat (busts inputs) <= u64_MAX ->
  Forall (fun i => proposed i <> Hard /\ run_started i = false) inputs ->
  pending_changes (run_steps s inputs) = pending_changes s ++ queued_units inputs.
Proof.
  unfold queued_units, busts. intros Hwf Hv Hi. revert s Hwf Hv.
  induction Hi as [|i rest [Hh Hr] Hrest IH]; intros s Hwf Hv; [by rewrite app_nil_r|].
  cbn [run_steps foldl map concat]. change (foldl _ ?s0 rest) with (run_steps s0 rest).
  cbn [List.filter] in Hv.
  assert (has_version s i) as Hhv.
  { intros Hb Hm. rewrite Hb in Hv. cbn [length] in Hv. lia. }
  rewrite IH; [|by apply step_wf|]; destruct Hwf as [_ Hk _]; rewrite step_accepted by done; cbn [fst].
  - unfold pass_body. rewrite Hr. destruct (proposed i) eqn:Hp; [|done..]. cbn. by rewrite app_assoc.
  - rewrite pass_body_version. destruct (is_bust (proposed i)); cbn [length] in Hv; lia.
Qed.

Lemma last_units_None us k : last_units us !! k = None <-> k ∉ map key us.
Proof.
  unfold last_units. rewrite unit_map_None. unfold reverse. rewrite rev_append_rev, app_nil_r, map_rev.
  rewrite !list_elem_of_In, <- in_rev. done.
Qed.

Lemma last_units_Some us k u : last_units us !! k = Some u -> u ∈ us /\ key u = k.
Proof. unfold last_units. intros [H ?]%unit_map_Some. split; [|done]. by rewrite elem_of_reverse in H. Qed.

Lemma last_units_app us vs : last_units (us ++ vs) = last_units vs ∪ last_units us.
Proof. unfold last_units. by rewrite reverse_app, unit_map_app. Qed.

Lemma unit_map_filter_keys (ks : list string) us :
  unit_map (filter (fun q => key q ∉ ks) us) = filter (fun kv => kv.1 ∉ ks) (unit_map us).
Proof.
  induction us as [|u us IH]; [done|]. rewrite unit_map_cons.
  destruct (decide (key u ∉ ks)) as [Hk|Hk].
  - rewrite filter_cons_True by done. rewrite unit_map_cons, IH. symmetry. by apply map_filter_insert_True.
  - rewrite filter_cons_False by done. rewrite IH. symmetry. rewrite map_filter_insert_False by done.
    rewrite map_filter_delete. apply delete_id. apply map_lookup_filter_None. by right; intros ? ? ?.
Qed.

Lemma last_units_rendered_first us vs :
  last_units (us ++ filter (fun q => key q ∉ map key us) vs) = last_units us ∪ last_units vs.
Proof.
  rewrite last_units_app. unfold last_units at 1. rewrite <- filter_reverse.
  rewrite (unit_map_filter_keys (map key us)). fold (last_units vs).
  apply map_eq. intros k. rewrite !lookup_union.
  destruct (last_units us !! k) as [u|] eqn:Hk.
  - assert (k ∈ map key us) as Hin by (apply dec_stable; intros Hn%last_units_None; congruence).
    rewrite (map_lookup_filter_None_2); [by destruct (last_units vs !! k)|]. right. by intros ? ? ?.
  - apply last_units_None in Hk. rewrite map_lookup_filter. destruct (last_units vs !! k); [|done].
    cbn. by rewrite option_guard_True.
Qed.

(** Deferred work is never lost and never outlives a Hard pass. After any passes other than
    Hard, a Hard pass freezes exactly the keys it renders and the keys queued since, whoever
    queued them: a rendered unit wins over a queued one of the same key, a later one over an
    earlier one, and the queue is empty afterwards. Nothing else of the old frozen set stays. *)
Theorem hard_drains_deferred_work s inputs input :
  wf s -> version s + Z.of_nat (busts inputs) < u64_MAX ->
  Forall (fun i => proposed i <> Hard /\ run_started i = false) inputs ->
  proposed input = Hard ->
  let final := run_steps s (inputs ++ [input]) in
  let deferred := survivors (run_started input) (pending_changes s ++ queued_units inputs) in
  pending_changes final = [] /\
  unit_map (frozen_units final) = last_units (rendered_units input) ∪ last_units deferred /\
  map key (frozen_units final) =
    add_keys [] (map key (rendered_units input) ++
                 map key (filter (fun q => key q ∉ map key (rendered_units input)) deferred)).
Proof.
  intros Hwf Hv Hi Hp. cbv zeta. unfold run_steps. rewrite foldl_app. cbn [foldl].
  change (foldl _ s inputs) with (run_steps s inputs).
  pose proof (steps_wf inputs s Hwf) as [_ Hk _].
  pose proof (steps_version inputs s Hwf) as Hver.
  rewrite step_accepted; [|done|intros _; lia]. cbn [fst]. unfold pass_body. rewrite Hp.
  cbn [step_hard fst pending_changes frozen_units]. rewrite pending_after_start.
  rewrite (queue_kept inputs s) by (done || lia).
  split; [done|]. split.
  - rewrite unit_map_apply, last_units_rendered_first. apply (right_id_L ∅ (∪)).
  - by rewrite keys_apply_units, map_app.
Qed.

(** ** A session: a baseline [m0], a delta [m1], one reduction queued on a defer. *)
Definition sample_unit (k payload : string) : FrozenUnit := mkUnit k "synthesized-region" payload Lineage "".

Definition sample_state : CoreState :=
  mkCore 7 "b0" [sample_unit "m0" "BASE"; sample_unit "m1" "delta"] [] false.

Definition sample_defer : PassInput := mkPass SoftPlus "-" [] [sample_unit "red:1" "short"] None true.

Definition sample_soft : PassInput := mkPass Soft "b0" [sample_unit "m1" "delta2"; sample_unit "red:0" "cut"] [] None false.

Definition sample_hard : PassInput := mkPass Hard "-" [sample_unit "m0" "NEW"; sample_unit "m1" ""] [] (Some "b1"%string) false.

Lemma sample_keys : NoDup (map key (frozen_units sample_state)).
Proof. apply (bool_decide_unpack _). vm_compute. exact I. Qed.

Lemma sample_wf : wf sample_state.
Proof. constructor; [cbn; mlia|apply sample_keys|done]. Qed.

Lemma defers_replay_prefix_witness :
  cached_prefix_bytes (run_steps sample_state [sample_defer; sample_defer]) = "BASEdelta"%string.
Proof.
  destruct (defers_replay_prefix sample_state [sample_defer; sample_defer] sample_keys) as (_ & _ & _ & H).
  - repeat constructor.
  - rewrite H; [reflexivity|]. left. repeat constructor.
Defined.

Lemma soft_keeps_baseline_witness :
  exists volatile', frozen_units (step sample_state sample_soft).1 = [sample_unit "m0" "BASE"] ++ volatile'.
Proof.
  destruct (soft_keeps_baseline sample_state sample_soft [sample_unit "m0" "BASE"] [sample_unit "m1" "delta"])
    as (v & H & _); [apply sample_keys|intros _; discriminate|reflexivity|reflexivity|reflexivity| |eauto].
  intros u [->|[->|Hu%elem_of_nil]%elem_of_cons]%elem_of_cons; [| |done];
    apply (bool_decide_unpack _); vm_compute; exact I.
Defined.

Lemma hard_drains_deferred_work_witness :
  pending_changes (run_steps sample_state ([mkPass SoftPlus "-" [] [sample_unit "red:1" "short"] None false] ++ [sample_hard])) = [].
Proof.
  apply (hard_drains_deferred_work sample_state [mkPass SoftPlus "-" [] [sample_unit "red:1" "short"] None false] sample_hard);
    [apply sample_wf|reflexivity| |reflexivity].
  repeat constructor. discriminate.
Defined.

(** A Soft pass that misses its anchor marks a reconcile; a defer that finds it clears one. *)
Example soft_marks_reconcile :
  reconcile_pending (step sample_state (pass_new Soft "-")).1 = true.
Proof. vm_compute. reflexivity. Qed.

Example defer_clears_reconcile :
  reconcile_pending (run_steps sample_state [pass_new SoftPlus "-"; pass_new SoftPlus "b0"]) = false.
Proof. vm_compute. reflexivity. Qed.

(** The queued reduction is frozen by the Hard pass, after the rendered units. *)
Example queued_reduction_frozen :
  map key (frozen_units (run_steps sample_state [sample_defer; sample_soft; sample_hard])) = ["m0"; "m1"; "red:1"]%string.
Proof. vm_compute. reflexivity. Qed.

End Cache.
