(* ===== verification/Classify.v ===== *)
(** * Classify: which pass a session gets (context-core/src/lib.rs, daemon/src/transform.rs)

    The classifier maps the shape of the persisted frozen set and the signals of the request to
    a plan; the daemon overrides the plan for sub-agents, lineage descents and reverts, and
    derives the boundary token from the live blocks. *)
From S2P Require Import Prelude CacheState.
From stdpp Require Import strings gmap.

#[local] Open Scope Z_scope.

Module Plan.
Import Cache.

(** ** context-core *)
Inductive PersistedShape := Fresh | LegacyBaseline | ValidM0M1 | CachedM1Missing | Unknown.

Record ClassifierInput := mkClassifier {
  shape : PersistedShape;
  render_config_changed : bool;
  hard_fold_requested : bool;
  ci_boundary_present : bool;
  ci_reconcile_pending : bool;
  m1_revision_changed : bool;
  reductions_pending_now : bool;
  bust_opportunity : bool;
}.

Inductive PassPlan := PHard | PMigrateHard | PSoft | PDefer | PReject.

#[global] Instance PassPlan_eq_dec : EqDecision PassPlan.
Proof. solve_decision. Defined.
#[global] Instance PersistedShape_eq_dec : EqDecision PersistedShape.
Proof. solve_decision. Defined.

Definition classify (input : ClassifierInput) : PassPlan :=
  match shape input with
  | Fresh => PHard
  | LegacyBaseline => PMigrateHard
  | CachedM1Missing => PHard
  | Unknown => PReject
  | ValidM0M1 =>
      if render_config_changed input then PHard
      else if hard_fold_requested input then PHard
      else if ci_reconcile_pending input && negb (ci_boundary_present input) then PHard
      else if ci_reconcile_pending input then PDefer
      else if ci_boundary_present input && bust_opportunity input &&
              (m1_revision_changed input || reductions_pending_now input) then PSoft
      else PDefer
  end.

Definition pass_action (plan : PassPlan) : option Action :=
  match plan with
  | PHard | PMigrateHard => Some Hard
  | PSoft => Some Soft
  | PDefer => Some SoftPlus
  | PReject => None
  end.

(** ** The shape of a persisted frozen set *)
Definition RED_KEY_PREFIX : string := "red:".
Definition CAV_KEY_PREFIX : string := "cav:".
Definition STRIP_KEY_PREFIX : string := "strip:".
Definition LEGACY_TRANSITION_CONSUMED_KEY : string := "migration:renderer-transition-v1".
Definition TRANSITION_CONSUMED_KEY : string := "migration:renderer-transition-v2".

Definition starts_with (s p : string) : bool := String.prefix p s.

Definition count_key (k : string) (core : CoreState) : nat :=
  length (filter (fun u => key u = k) (frozen_units core)).

(** The units a frozen set may hold beside the two regions. *)
Definition side_key (k : string) : bool :=
  starts_with k RED_KEY_PREFIX || starts_with k STRIP_KEY_PREFIX || starts_with k CAV_KEY_PREFIX ||
  bool_decide (k = LEGACY_TRANSITION_CONSUMED_KEY) || bool_decide (k = TRANSITION_CONSUMED_KEY).

Definition is_legacy_baseline (core : CoreState) : bool :=
  (length (frozen_units core) =? 1)%nat &&
  match frozen_units core with u :: _ => bool_decide (key u = "baseline"%string) | [] => false end &&
  bool_decide (pending_changes core = []).

Definition cached_m1_missing (core : CoreState) : bool :=
  (count_key "m0" core =? 1)%nat && (count_key "m1" core =? 0)%nat &&
  forallb (fun u => bool_decide (key u = "m0"%string) || side_key (key u)) (frozen_units core).

Definition valid_m0m1_shape (core : CoreState) : bool :=
  (count_key "m0" core =? 1)%nat && (count_key "m1" core =? 1)%nat &&
  forallb (fun u => bool_decide (key u = "m0"%string) || bool_decide (key u = "m1"%string) || side_key (key u))
    (frozen_units core).

Definition persisted_shape (core : CoreState) (initialized : bool) : PersistedShape :=
  if negb initialized then Fresh
  else if is_legacy_baseline core then LegacyBaseline
  else if cached_m1_missing core then CachedM1Missing
  else if valid_m0m1_shape core then ValidM0M1
  else Unknown.

(** ** Must-not-wait gates *)
Inductive PassDecision := DDefer | DExecute | DForce85 | DEmergency95.

#[global] Instance PassDecision_eq_dec : EqDecision PassDecision.
Proof. solve_decision. Defined.

Record ActivationGateInputs := mkGates {
  g_pass : PassDecision;
  g_history_summarizer_active : bool;
  g_initialized : bool;
  g_soft_refresh_pending : bool;
  g_render_config_changed : bool;
  g_first_fold_due : bool;
  g_idle_ttl_fired : bool;
  g_coverage_fold_due : bool;
  g_external_revision_changed : bool;
  g_project_memory_epoch_hard_due : bool;
  g_emergency_arm_engaged : bool;
  g_reconcile_hard_due : bool;
}.

Record ActivationGates := mkActivation {
  ag_hard_fold_requested : bool;
  ag_ordinary_history_summarizer_veto : bool;
}.

Definition activation_gates (i : ActivationGateInputs) : ActivationGates :=
  let hard_fold_requested :=
    g_first_fold_due i || g_idle_ttl_fired i || g_coverage_fold_due i ||
    g_external_revision_changed i || g_project_memory_epoch_hard_due i in
  let veto :=
    g_history_summarizer_active i && bool_decide (g_pass i = DExecute) &&
    negb hard_fold_requested && negb (g_emergency_arm_engaged i) && negb (g_soft_refresh_pending i) &&
    negb (g_render_config_changed i) && negb (g_reconcile_hard_due i) && g_initialized i in
  mkActivation hard_fold_requested veto.

(** ** The daemon's decision

    The fields are the values the transform has computed when it reaches its gates. *)
Record PlanInput := mkPlan {
  pi_scheduled : PassDecision;            (** the scheduler's decision *)
  pi_drain_active : bool;                 (** its drain latch *)
  pi_idle_ttl_fired : bool;
  pi_history_summarizer_active : bool;
  pi_initialized : bool;
  pi_bootstrap_seed_fold_pending : bool;
  pi_soft_refresh_pending : bool;
  pi_render_config_changed : bool;
  pi_has_history_segments : bool;
  pi_coverage_fold_due : bool;
  pi_external_revision_changed : bool;
  pi_project_memory_epoch_hard_due : bool;
  pi_m1_digest_changed : bool;
  pi_todo_injection_pending : bool;
  pi_reductions_pending : bool;
  pi_is_subagent : bool;
  pi_force_hard : bool;                   (** a lineage descent *)
  pi_history_seq_changed : bool;
  pi_newest_evicted : bool;               (** the newest history segment ends on an evicted block *)
  pi_lineage_anchor_failure : bool;
  pi_revert : bool;                       (** the coverage resolution is a revert *)
}.

Definition boundary_live (core : CoreState) (live_ids : list string) : bool :=
  negb (bool_decide (boundary_id core = EmptyString)) && bool_decide (boundary_id core ∈ live_ids).

Definition boundary_token (core : CoreState) (live_ids : list string) : string :=
  if boundary_live core live_ids then boundary_id core else "-"%string.

(** A pending soft refresh promotes a deferred pass. *)
Definition scheduled_pass (i : PlanInput) : PassDecision :=
  if pi_soft_refresh_pending i && bool_decide (pi_scheduled i = DDefer) then DExecute else pi_scheduled i.

Definition is_force (p : PassDecision) : bool :=
  match p with DForce85 | DEmergency95 => true | _ => false end.

Definition reconcile_hard_due (core : CoreState) (live_ids : list string) : bool :=
  reconcile_pending core && negb (boundary_live core live_ids).

Definition first_fold_due (core : CoreState) (i : PlanInput) : bool :=
  bool_decide (boundary_id core = EmptyString) && pi_has_history_segments i.

Definition gates (core : CoreState) (live_ids : list string) (i : PlanInput) : ActivationGates :=
  activation_gates
    (mkGates (scheduled_pass i) (pi_history_summarizer_active i) (pi_initialized i)
       (pi_soft_refresh_pending i) (pi_render_config_changed i) (first_fold_due core i)
       (pi_idle_ttl_fired i) (pi_coverage_fold_due i) (pi_external_revision_changed i)
       (pi_project_memory_epoch_hard_due i) (is_force (scheduled_pass i) || pi_drain_active i)
       (reconcile_hard_due core live_ids)).

Definition pass_already_busting (core : CoreState) (live_ids : list string) (i : PlanInput) : bool :=
  negb (pi_initialized i) || pi_render_config_changed i || ag_hard_fold_requested (gates core live_ids i) ||
  reconcile_hard_due core live_ids || is_force (scheduled_pass i) || pi_soft_refresh_pending i || pi_drain_active i.

Definition independent_bust_opportunity (core : CoreState) (live_ids : list string) (i : PlanInput) : bool :=
  bool_decide (scheduled_pass i = DExecute) && negb (ag_ordinary_history_summarizer_veto (gates core live_ids i)) ||
  pass_already_busting core live_ids i.

Definition classifier_input (core : CoreState) (live_ids : list string) (i : PlanInput) : ClassifierInput :=
  mkClassifier (persisted_shape core (pi_initialized i && negb (pi_bootstrap_seed_fold_pending i)))
    (pi_render_config_changed i) (ag_hard_fold_requested (gates core live_ids i))
    (boundary_live core live_ids) (reconcile_pending core)
    (pi_m1_digest_changed i || pi_soft_refresh_pending i || pi_todo_injection_pending i)
    (pi_reductions_pending i) (independent_bust_opportunity core live_ids i || pi_reductions_pending i).

(** The plan before a failed anchor or an unreconciled revert holds the pass. *)
Definition base_plan (core : CoreState) (live_ids : list string) (i : PlanInput) : PassPlan :=
  let plan := classify (classifier_input core live_ids i) in
  let plan :=
    if pi_todo_injection_pending i && independent_bust_opportunity core live_ids i && negb (reconcile_pending core) &&
       bool_decide (plan = PDefer) then PSoft else plan in
  let plan :=
    if pi_is_subagent i then (if bool_decide (scheduled_pass i = DDefer) then PDefer else PSoft)
    else if pi_force_hard i then PHard else plan in
  let evicted_end_fold_due :=
    negb (pi_is_subagent i) && bool_decide (plan = PSoft) && pi_history_seq_changed i && pi_newest_evicted i in
  if evicted_end_fold_due then PHard else plan.

(** The plan and the core the pass starts from. *)
Definition decide_plan (core : CoreState) (live_ids : list string) (i : PlanInput) : PassPlan * CoreState :=
  let revert_unreconciled := pi_revert i && negb (reconcile_pending core) in
  if pi_lineage_anchor_failure i || revert_unreconciled
  then (PDefer, mkCore (version core) (boundary_id core) (frozen_units core) (pending_changes core) true)
  else (base_plan core live_ids i, core).

(** ** Lemmas *)
Lemma starts_with_app p s : starts_with (p +:+ s)%string p = true.
Proof. unfold starts_with. induction p as [|a p IH]; [by destruct s|].
  change (String.prefix (String a p) (String a (p +:+ s)%string) = true). cbn. destruct (Ascii.ascii_dec a a); [exact IH|done]. Qed.

Lemma starts_with_spec s p : starts_with s p = true -> exists t, s = (p +:+ t)%string.
Proof.
  unfold starts_with. revert s. induction p as [|a p IH]; intros s; [by exists s|].
  destruct s as [|b s]; [done|]. cbn. destruct (Ascii.ascii_dec a b) as [->|]; [|done].
  intros [t ->]%IH. by exists t.
Qed.

Lemma count_key_app k v b fs gs p r :
  count_key k (mkCore v b (fs ++ gs) p r) = (count_key k (mkCore v b fs p r) + count_key k (mkCore v b gs p r))%nat.
Proof. unfold count_key. cbn [frozen_units]. by rewrite filter_app, length_app. Qed.

Lemma count_key_one k core :
  NoDup (map key (frozen_units core)) ->
  count_key k core = (if bool_decide (k ∈ map key (frozen_units core)) then 1 else 0)%nat.
Proof.
  unfold count_key. induction (frozen_units core) as [|u us IH]; [done|]. cbn [map].
  intros [Hu Hnd]%list.NoDup_cons. specialize (IH Hnd). destruct (decide (key u = k)) as [E|E].
  - rewrite filter_cons_True, (bool_decide_eq_true_2 (k ∈ key u :: _)) by (done || (rewrite E; left)).
    cbn [length]. rewrite IH, bool_decide_eq_false_2 by congruence. done.
  - rewrite filter_cons_False by done. rewrite IH.
    destruct (bool_decide_reflect (k ∈ map key us)) as [Hk|Hk].
    + by rewrite bool_decide_eq_true_2 by (by right).
    + rewrite bool_decide_eq_false_2; [done|]. intros [?|?]%elem_of_cons; congruence.
Qed.

(** A frozen set with unique keys has the recognized shape exactly when it holds both regions and
    side units only. *)
Lemma valid_shape_iff core :
  NoDup (map key (frozen_units core)) ->
  valid_m0m1_shape core = true <->
  "m0"%string ∈ map key (frozen_units core) /\ "m1"%string ∈ map key (frozen_units core) /\
  forall u, u ∈ frozen_units core -> key u = "m0"%string \/ key u = "m1"%string \/ side_key (key u) = true.
Proof.
  intros Hnd. unfold valid_m0m1_shape. rewrite !count_key_one by done.
  rewrite !andb_true_iff, !Nat.eqb_eq, forallb_forall.
  assert (forall k, (if bool_decide (k ∈ map key (frozen_units core)) then 1 else 0)%nat = 1%nat <->
    k ∈ map key (frozen_units core)) as Hc by (intros k; case_bool_decide; split; done).
  rewrite !Hc. split; [intros [[H0 H1] H]|intros (H0 & H1 & H)]; repeat split; [done..| |done|done|];
    intros u Hu; specialize (H u); rewrite list_elem_of_In in *; specialize (H Hu);
    rewrite !orb_true_iff, !bool_decide_eq_true in *; tauto.
Qed.

Lemma valid_shape_persisted core : valid_m0m1_shape core = true -> persisted_shape core true = ValidM0M1.
Proof.
  intros H. unfold persisted_shape. cbn [negb]. rewrite H.
  unfold valid_m0m1_shape in H. apply andb_true_iff in H as [[H0 H1]%andb_true_iff _].
  assert (cached_m1_missing core = false) as ->.
  { unfold cached_m1_missing. apply Nat.eqb_eq in H1. rewrite H1, andb_false_r. done. }
  assert (is_legacy_baseline core = false) as ->; [|done].
  unfold is_legacy_baseline, count_key in *. destruct (frozen_units core) as [|u [|v us]]; [done| |done].
  destruct (bool_decide_reflect (key u = "baseline"%string)) as [E|]; [|done].
  rewrite filter_cons_False in H0 by (rewrite E; discriminate). done.
Qed.

Lemma lost_boundary_plan core live_ids i :
  valid_m0m1_shape core = true -> reconcile_pending core = true -> boundary_live core live_ids = false ->
  pi_initialized i = true -> pi_bootstrap_seed_fold_pending i = false -> pi_is_subagent i = false ->
  base_plan core live_ids i = PHard.
Proof.
  intros Hs Hr Hb Hi Hbs Hsub. unfold base_plan. rewrite Hsub, Hr.
  assert (classify (classifier_input core live_ids i) = PHard) as ->.
  { unfold classify, classifier_input.
    cbn [shape render_config_changed hard_fold_requested ci_boundary_present ci_reconcile_pending].
    rewrite Hi, Hbs, Hr, Hb. cbn [andb negb]. rewrite valid_shape_persisted by done.
    destruct (pi_render_config_changed i), (ag_hard_fold_requested (gates core live_ids i)); done. }
  rewrite andb_false_r. cbn. by destruct (pi_force_hard i).
Qed.

Lemma valid_shape_plan core live_ids i :
  valid_m0m1_shape core = true ->
  pi_initialized i = true -> pi_bootstrap_seed_fold_pending i = false ->
  base_plan core live_ids i <> PReject.
Proof.
  intros Hs Hi Hbs. unfold base_plan.
  assert (classify (classifier_input core live_ids i) <> PReject) as Hc.
  { unfold classify. cbn [classifier_input shape]. rewrite Hi, Hbs. cbn [andb negb].
    rewrite valid_shape_persisted by done. repeat case_match; done. }
  repeat case_match; done.
Qed.

(** ** The history summarizer's veto *)
Definition set_summarizer (b : bool) (i : PlanInput) : PlanInput :=
  mkPlan (pi_scheduled i) (pi_drain_active i) (pi_idle_ttl_fired i) b (pi_initialized i)
    (pi_bootstrap_seed_fold_pending i) (pi_soft_refresh_pending i) (pi_render_config_changed i)
    (pi_has_history_segments i) (pi_coverage_fold_due i) (pi_external_revision_changed i)
    (pi_project_memory_epoch_hard_due i) (pi_m1_digest_changed i) (pi_todo_injection_pending i)
    (pi_reductions_pending i) (pi_is_subagent i) (pi_force_hard i) (pi_history_seq_changed i)
    (pi_newest_evicted i) (pi_lineage_anchor_failure i) (pi_revert i).

(** The reasons for which a pass must not wait. *)
Definition must_not_wait (core : CoreState) (live_ids : list string) (i : PlanInput) : bool :=
  ag_hard_fold_requested (gates core live_ids i) || is_force (scheduled_pass i) || pi_drain_active i ||
  pi_soft_refresh_pending i || pi_render_config_changed i || reconcile_hard_due core live_ids ||
  negb (pi_initialized i).

Lemma forced_pass_not_vetoed core live_ids i :
  must_not_wait core live_ids i = true -> ag_ordinary_history_summarizer_veto (gates core live_ids i) = false.
Proof.
  unfold must_not_wait, gates, activation_gates.
  cbn [ag_hard_fold_requested ag_ordinary_history_summarizer_veto g_first_fold_due g_idle_ttl_fired g_coverage_fold_due
       g_external_revision_changed g_project_memory_epoch_hard_due g_pass g_history_summarizer_active
       g_emergency_arm_engaged g_soft_refresh_pending g_render_config_changed g_reconcile_hard_due g_initialized].
  destruct (first_fold_due core i || _ || _ || _ || _), (is_force (scheduled_pass i)), (pi_drain_active i),
    (pi_soft_refresh_pending i), (pi_render_config_changed i), (reconcile_hard_due core live_ids), (pi_initialized i);
    cbn; rewrite ?andb_false_r; done.
Qed.

Lemma vetoed_pass_has_no_bust core live_ids i :
  pi_history_summarizer_active i = true -> must_not_wait core live_ids i = false ->
  independent_bust_opportunity core live_ids i = false.
Proof.
  intros Ha Hm. unfold independent_bust_opportunity, pass_already_busting.
  assert (scheduled_pass i = DExecute -> ag_ordinary_history_summarizer_veto (gates core live_ids i) = true) as Hv.
  { intros Hp. unfold must_not_wait in Hm. rewrite !orb_false_iff in Hm.
    destruct Hm as [[[[[[Hf H1] H2] H3] H4] H5] H6%negb_false_iff]. cbn in *. rewrite Hf, Ha, H2, H3, H4, H5, H6, Hp.
    done. }
  unfold must_not_wait in Hm. rewrite !orb_false_iff in Hm.
  destruct Hm as [[[[[[Hf H1] H2] H3] H4] H5] H6%negb_false_iff]. rewrite Hf, H1, H2, H3, H4, H5, H6. cbn [negb orb].
  destruct (bool_decide_reflect (scheduled_pass i = DExecute)) as [E|]; [|done]. by rewrite Hv.
Qed.

(** A running history summarizer holds back an ordinary pass only. When a fold, a pressure
    band, the drain latch, an explicit flush, a configuration change, a due reconcile or a first
    render forces the pass, the plan is the one an idle summarizer gives; when none does, the
    boundary stands, no lineage descent is due and no reduction waits, the pass of a valid
    session with a running summarizer defers. *)
Theorem summarizer_veto_exact core live_ids i :
  (must_not_wait core live_ids i = true ->
   decide_plan core live_ids (set_summarizer true i) = decide_plan core live_ids (set_summarizer false i)) /\
  (must_not_wait core live_ids i = false ->
   valid_m0m1_shape core = true -> pi_bootstrap_seed_fold_pending i = false ->
   pi_is_subagent i = false -> pi_force_hard i = false -> pi_reductions_pending i = false ->
   (decide_plan core live_ids (set_summarizer true i)).1 = PDefer).
Proof.
  split.
  - intros Hm. assert (forall b, ag_ordinary_history_summarizer_veto (gates core live_ids (set_summarizer b i)) = false) as Hv
      by (intros b; by apply forced_pass_not_vetoed).
    unfold decide_plan, base_plan, classifier_input, independent_bust_opportunity. rewrite !Hv. reflexivity.
  - intros Hm Hs Hbs Hsub Hf Hrp.
    pose proof (vetoed_pass_has_no_bust core live_ids (set_summarizer true i) eq_refl Hm) as Hnb.
    unfold must_not_wait in Hm. rewrite !orb_false_iff in Hm.
    destruct Hm as [[[[[[Hhf H1] H2] H3] H4] H5] Hi%negb_false_iff].
    assert (classify (classifier_input core live_ids (set_summarizer true i)) = PDefer) as Hc.
    { unfold classify, classifier_input. rewrite Hnb. cbn [shape render_config_changed hard_fold_requested
        ci_boundary_present ci_reconcile_pending bust_opportunity m1_revision_changed reductions_pending_now
        set_summarizer pi_initialized pi_bootstrap_seed_fold_pending pi_render_config_changed pi_reductions_pending].
      rewrite Hi, Hbs, valid_shape_persisted by done.
      assert (ag_hard_fold_requested (gates core live_ids (set_summarizer true i)) = false) as -> by done.
      unfold reconcile_hard_due in H5. cbn [andb negb orb]. rewrite H4, H5, Hrp, andb_false_r.
      by destruct (reconcile_pending core). }
    unfold decide_plan. destruct (_ || _); [done|]. cbn [fst]. unfold base_plan. rewrite Hc, Hnb.
    rewrite andb_false_r. cbn. by rewrite Hsub, Hf.
Qed.

(** An idle request of a session with a baseline. *)
Definition idle_request : PlanInput :=
  mkPlan DExecute false false false true false false false false false false false
    true false false false false false false false false.

Lemma summarizer_veto_exact_witness :
  (decide_plan sample_state ["b0"%string] (set_summarizer true idle_request)).1 = PDefer /\
  (decide_plan sample_state ["b0"%string] (set_summarizer false idle_request)).1 = PSoft.
Proof.
  split; [|vm_compute; reflexivity].
  apply (proj2 (summarizer_veto_exact sample_state ["b0"%string] idle_request)); vm_compute; reflexivity.
Defined.

End Plan.
