(* ===== verification/Passes.v ===== *)
(** * Passes: what a pass does to the frozen set (daemon/src/transform.rs)

    The frozen set holds the two rendered regions [m0] and [m1], the reductions of tail blocks
    ([red:]), the stripped messages ([strip:]), the compressed texts ([cav:]) and the renderer
    transition marker. This file models how each kind is minted, carried over and pruned, and
    the three passes that combine them and hand the result to the cache core. The rendered
    regions, the reductions selected for the pass and the newly minted strip and compression
    payloads are inputs. *)
From S2P Require Import Prelude CacheState Classify BTree.
From stdpp Require Import strings pretty gmap.

#[local] Open Scope Z_scope.

Module Passes.
Import Cache Plan.

(** ** Data *)

(** What the passes read of a live block: its id, its ordinal, whether it is reasoning. *)
Record FlatBlock := mkBlock { fb_id : string; fb_ordinal : Z; fb_reasoning : bool }.

Record ReductionDecision := mkReduction { target_id : string; rd_kind : string; payload : string }.

(** What [surviving_strip_units] reads of a request message: its id and its block count. *)
Record IngressMessage := mkMessage { mid : string; content_len : nat }.

Inductive TransformError :=
| ReductionConflict
| CoverageGap
| BoundaryNotPresent
| UnknownShape
| Core (e : StepError).

(** ** Units *)
Definition SYNTH_REGION_KIND : string := "synthesized-region".
Definition RED_SUPPRESS_TAG_OVERLAY_RULE : string := "suppress_tag_overlay".

Definition synth_region (k p : string) : FrozenUnit := mkUnit k SYNTH_REGION_KIND p Lineage "".

Definition render_m1_body (body : string) : FrozenUnit := synth_region "m1" body.

Definition red_unit (target k p : string) : FrozenUnit :=
  mkUnit (RED_KEY_PREFIX +:+ target)%string k p Lineage "".

Definition red_unit_with_tag_policy (target k p : string) (suppress : bool) : FrozenUnit :=
  let unit := red_unit target k p in
  if suppress
  then mkUnit (key unit) (kind unit) (frozen_payload unit) (durability_class unit) RED_SUPPRESS_TAG_OVERLAY_RULE
  else unit.

Definition strip_unit (k m p : string) : FrozenUnit :=
  mkUnit ("strip:" +:+ k +:+ ":" +:+ m)%string ("strip_" +:+ k)%string p Lineage "".

Definition terse_text_compression_unit (block_id : string) (depth : Z) (p : string) : FrozenUnit :=
  mkUnit (CAV_KEY_PREFIX +:+ block_id)%string "terse_text_compression" p Lineage (pretty depth).

(** ** Strings *)
Fixpoint strip_prefix (p s : string) : option string :=
  match p, s with
  | EmptyString, _ => Some s
  | String a p, String b s => if bool_decide (a = b) then strip_prefix p s else None
  | String _ _, EmptyString => None
  end.

(** The part after the first colon, [split_once(':')]. *)
Fixpoint after_colon (s : string) : option string :=
  match s with
  | EmptyString => None
  | String a s => if bool_decide (a = Ascii.ascii_of_N 58) then Some s else after_colon s
  end.

(** ** Coverage *)
Definition is_tail (ordinal : Z) (coverage : option Z) : bool :=
  match coverage with None => true | Some c => c <? ordinal end.

(** The map from id to ordinal, built from the live blocks: a later block of an id wins. *)
Definition live_ord (live : list FlatBlock) : gmap string Z :=
  list_to_map (reverse (map (fun b => (fb_id b, fb_ordinal b)) live)).

(** The ids of the tail. *)
Definition tail_ids (live : list FlatBlock) (coverage : option Z) : gset string :=
  list_to_set (map fb_id (List.filter (fun b => is_tail (fb_ordinal b) coverage) live)).

Definition reasoning_ids (live : list FlatBlock) : gset string :=
  list_to_set (map fb_id (List.filter fb_reasoning live)).

(** ** Reductions *)
Definition frozen_red_payload (core : CoreState) (target : string) : option string :=
  frozen_payload <$> find (fun u => bool_decide (key u = (RED_KEY_PREFIX +:+ target)%string)) (frozen_units core).

Definition frozen_red_targets (core : CoreState) : gset string :=
  list_to_set (omap (fun u => strip_prefix RED_KEY_PREFIX (key u)) (frozen_units core)).

Fixpoint validate_reduction_monotonicity (core : CoreState) (reductions : list ReductionDecision)
  : result TransformError unit :=
  match reductions with
  | [] => Ok tt
  | r :: rest =>
      match frozen_red_payload core (target_id r) with
      | Some frozen =>
          if bool_decide (frozen <> payload r) then Err ReductionConflict
          else validate_reduction_monotonicity core rest
      | None => validate_reduction_monotonicity core rest
      end
  end.

Definition reductions_pending (core : CoreState) (reductions : list ReductionDecision)
  (live : list FlatBlock) (coverage : option Z) : bool :=
  existsb (fun r => bool_decide (target_id r ∈ tail_ids live coverage) &&
                    bool_decide (target_id r ∉ frozen_red_targets core)) reductions.

Definition new_reduction_units (core : CoreState) (reductions : list ReductionDecision)
  (live : list FlatBlock) (coverage : option Z) (suppress : bool) : list FrozenUnit :=
  map snd
    (foldl (fun by_target r =>
       if bool_decide (target_id r ∈ reasoning_ids live) then by_target
       else if bool_decide (target_id r ∈ tail_ids live coverage) &&
               bool_decide (target_id r ∉ frozen_red_targets core)
       then btree_entry (target_id r)
              (red_unit_with_tag_policy (target_id r) (rd_kind r) (payload r) suppress) by_target
       else by_target) [] reductions).

(** Kind, payload and reset rule by target: the frozen reductions, then the selected ones. *)
Definition add_frozen_reduction (eff : list (string * (string * string * string))) (u : FrozenUnit) :=
  match strip_prefix RED_KEY_PREFIX (key u) with
  | Some target => btree_insert target (kind u, frozen_payload u, reset_rule u) eff
  | None => eff
  end.

Definition add_selected_reduction (suppress : bool) (eff : list (string * (string * string * string)))
  (r : ReductionDecision) :=
  btree_entry (target_id r)
    (rd_kind r, payload r, if suppress then RED_SUPPRESS_TAG_OVERLAY_RULE else ""%string) eff.

Definition effective_reductions (core : CoreState) (reductions : list ReductionDecision) (suppress : bool)
  : list (string * (string * string * string)) :=
  foldl (add_selected_reduction suppress) (foldl add_frozen_reduction [] (frozen_units core)) reductions.

Definition surviving_red_units (effective : list (string * (string * string * string)))
  (live : list FlatBlock) (coverage : option Z) : list FrozenUnit :=
  omap (fun e =>
    let '(target, (k, p, rule)) := e in
    match live_ord live !! target with
    | Some ord =>
        if is_tail ord coverage
        then Some (mkUnit (key (red_unit target k p)) k p Lineage rule)
        else None
    | None => None
    end) effective.

Definition retain_frozen (f : FrozenUnit -> bool) (core : CoreState) : CoreState :=
  mkCore (version core) (boundary_id core) (List.filter f (frozen_units core)) (pending_changes core)
    (reconcile_pending core).

(** Keeps the unit unless its target is live and covered. *)
Definition keep_uncovered (prefix : string) (live : list FlatBlock) (coverage : option Z) (u : FrozenUnit) : bool :=
  match strip_prefix prefix (key u) with
  | None => true
  | Some target =>
      match live_ord live !! target with
      | Some ord => is_tail ord coverage
      | None => true
      end
  end.

Definition prune_covered_red_units (core : CoreState) (live : list FlatBlock) (coverage : option Z) : CoreState :=
  retain_frozen (keep_uncovered RED_KEY_PREFIX live coverage) core.

(** ** Compressed texts and strips *)
Definition prune_covered_terse_text_compression_units (core : CoreState) (live : list FlatBlock)
  (coverage : option Z) : CoreState :=
  retain_frozen (keep_uncovered CAV_KEY_PREFIX live coverage) core.

Definition surviving_terse_text_compression_units (core : CoreState) (new_units : list FrozenUnit)
  (live : list FlatBlock) (coverage : option Z) : list FrozenUnit :=
  let add by_key u :=
    match strip_prefix CAV_KEY_PREFIX (key u) with
    | Some target => if bool_decide (target ∈ tail_ids live coverage) then btree_insert (key u) u by_key else by_key
    | None => by_key
    end in
  map snd (foldl add (foldl add []
    (List.filter (fun u => starts_with (key u) CAV_KEY_PREFIX) (frozen_units core))) new_units).

Definition surviving_strip_units (core : CoreState) (messages : list IngressMessage) : list FrozenUnit :=
  let live_mids : gset string := list_to_set (map mid messages) in
  let live_block_ids : gset string :=
    list_to_set (concat (map (fun m =>
      map (fun index => (mid m +:+ "#" +:+ pretty (N.of_nat index))%string) (seq 0 (content_len m))) messages)) in
  List.filter (fun u =>
    starts_with (key u) "strip:merged_reasoning:" || starts_with (key u) "strip:reasoning_age:" ||
    starts_with (key u) "strip:trailing_blank_keep:" || starts_with (key u) "strip:trailing_blank_strip:" ||
    match strip_prefix STRIP_KEY_PREFIX (key u) ≫= after_colon with
    | Some target => bool_decide (target ∈ live_mids) || bool_decide (target ∈ live_block_ids)
    | None => false
    end)
    (List.filter (fun u => starts_with (key u) STRIP_KEY_PREFIX) (frozen_units core)).

(** ** The passes

    [strips] and [compressions] are the payloads minted on this pass. *)
Record PassUnits := mkUnits {
  pu_reductions : list ReductionDecision;
  pu_suppress : bool;
  pu_live : list FlatBlock;
  pu_messages : list IngressMessage;
  pu_strips : list (string * string * string);
  pu_compressions : list (string * Z * string);
}.

Definition new_strip_units (w : PassUnits) : list FrozenUnit :=
  map (fun '(k, m, p) => strip_unit k m p) (pu_strips w).

Definition new_compression_units (w : PassUnits) : list FrozenUnit :=
  map (fun '(b, d, p) => terse_text_compression_unit b d p) (pu_compressions w).

Definition lift_step (r : CoreState * result StepError StepResult) : result TransformError CoreState :=
  match r.2 with Ok _ => Ok r.1 | Err e => Err (Core e) end.

(** The units a fold freezes, over the core it starts from and the coverage it establishes. *)
Definition fold_units (core : CoreState) (w : PassUnits) (m0_bytes : string) (m1_unit : FrozenUnit)
  (coverage : option Z) : list FrozenUnit :=
  [synth_region "m0" m0_bytes; m1_unit] ++
  surviving_red_units (effective_reductions core (pu_reductions w) (pu_suppress w)) (pu_live w) coverage ++
  (surviving_strip_units core (pu_messages w) ++ new_strip_units w) ++
  surviving_terse_text_compression_units core (new_compression_units w) (pu_live w) coverage.

(** A composition of the history into [m0]: its bytes, the anchor and ordinal it covers through,
    whether the store leaves a live block at or below that ordinal without a segment, and
    whether its anchor is a well-formed block id. *)
Record Fold := mkFold {
  f_m0_bytes : string;
  f_boundary : string;
  f_coverage : option Z;
  f_uncovered : bool;
  f_block_id : bool;
}.

Definition anchor_absent (live : list FlatBlock) (f : Fold) : bool :=
  bool_decide (is_Some (f_coverage f)) &&
  (bool_decide (f_boundary f = EmptyString) || negb (bool_decide (f_boundary f ∈ map fb_id live))).

Definition checked_fold (live : list FlatBlock) (f : Fold) : result TransformError Fold :=
  if f_uncovered f then Err CoverageGap
  else if anchor_absent live f then Err BoundaryNotPresent
  else Ok f.

(** The fold of a Hard plan: an anchor the live array does not hold re-cuts the history once, when
    a reconcile is pending or the anchor names an evicted block. [recut] is the composition
    after the truncation. *)
Definition hard_fold (core : CoreState) (live : list FlatBlock) (f recut : Fold) : result TransformError Fold :=
  if f_uncovered f then Err CoverageGap
  else if anchor_absent live f then
    let names_evicted := f_block_id f && negb (bool_decide (f_boundary f ∈ map fb_id live)) in
    if reconcile_pending core || names_evicted then checked_fold live recut else Err BoundaryNotPresent
  else Ok f.

Definition hard_pass (core : CoreState) (w : PassUnits) (token m1_body : string) (f : Fold)
  : result TransformError CoreState :=
  let rendered := fold_units core w (f_m0_bytes f) (render_m1_body m1_body) (f_coverage f) in
  let core := mkCore (version core) (boundary_id core) [] [] (reconcile_pending core) in
  lift_step (step core (mkPass Hard token rendered [] (Some (f_boundary f)) false)).

(** [new_coverage] is the anchor and ordinal a coverage-extending delta moves to, and whether the
    store leaves a live block at or below the ordinal without a segment. *)
Definition soft_pass (core : CoreState) (w : PassUnits) (token m1_body : string)
  (new_coverage : option (string * Z * bool)) (coverage : option Z) : result TransformError CoreState :=
  let rendered :=
    [render_m1_body m1_body] ++
    new_reduction_units core (pu_reductions w) (pu_live w) coverage (pu_suppress w) ++
    new_strip_units w ++ new_compression_units w in
  match new_coverage with
  | Some (id, coverage_end, uncovered) =>
      if uncovered : bool then Err CoverageGap
      else if bool_decide (id = EmptyString) || negb (bool_decide (id ∈ map fb_id (pu_live w)))
      then Err BoundaryNotPresent
      else
        core ← lift_step (step core (mkPass Soft token rendered [] (Some id) false));
        Ok (prune_covered_terse_text_compression_units
              (prune_covered_red_units core (pu_live w) (Some coverage_end))
              (pu_live w) (Some coverage_end))
  | None => lift_step (step core (mkPass Soft token rendered [] None false))
  end.

Definition defer_pass (core : CoreState) (token : string) : result TransformError CoreState :=
  lift_step (step core (pass_new SoftPlus token)).

Definition subagent_pass (core : CoreState) (w : PassUnits) (token : string) (pass : PassDecision)
  : result TransformError CoreState :=
  if bool_decide (pass = DDefer) then Ok core
  else lift_step (step core
    (mkPass Soft token (new_reduction_units core (pu_reductions w) (pu_live w) None (pu_suppress w)) [] None false)).

(** What the composition of a pass supplies: the fold of a Hard plan and its re-cut with the note
    body, the delta body of a Soft plan and the fold that replaces an oversized one, the
    coverage the delta extends to and the loaded coverage. *)
Record Composed := mkComposed {
  c_fold : Fold;
  c_recut : Fold;
  c_note_body : string;
  c_m1_body : option string;
  c_refold : Fold;
  c_new_coverage : option (string * Z * bool);
  c_coverage : option Z;
}.

Definition mark_reconcile (core : CoreState) : CoreState :=
  mkCore (version core) (boundary_id core) (frozen_units core) (pending_changes core) true.

(** Whether the session holds a baseline: initialized and no bootstrap seed fold pending. *)
Definition established (i : PlanInput) : bool := pi_initialized i && negb (pi_bootstrap_seed_fold_pending i).

(** The pass a plan selects, with whether the session holds a baseline afterwards. *)
Definition dispatch (loaded core : CoreState) (plan : PassPlan) (token : string)
  (i : PlanInput) (w : PassUnits) (c : Composed) : result TransformError (CoreState * bool) :=
  if pi_is_subagent i then
    core ← subagent_pass core w token (scheduled_pass i);
    Ok (core, established i)
  else match plan with
  | PReject => Err UnknownShape
  | PHard | PMigrateHard =>
      f ← hard_fold loaded (pu_live w) (c_fold c) (c_recut c);
      core ← hard_pass core w token (c_note_body c) f;
      Ok (core, true)
  | PSoft =>
      match c_m1_body c with
      | None =>
          f ← checked_fold (pu_live w) (c_refold c);
          core ← hard_pass core w token (c_note_body c) f;
          Ok (core, negb (pi_bootstrap_seed_fold_pending i))
      | Some body =>
          core ← soft_pass core w token body (c_new_coverage c) (c_coverage c);
          Ok (core, established i)
      end
  | PDefer =>
      core ← defer_pass core token;
      Ok (core, established i)
  end.

(** The plan reads whether a selected reduction of a tail block is not frozen yet. *)
Definition with_reductions_pending (b : bool) (i : PlanInput) : PlanInput :=
  mkPlan (pi_scheduled i) (pi_drain_active i) (pi_idle_ttl_fired i) (pi_history_summarizer_active i)
    (pi_initialized i) (pi_bootstrap_seed_fold_pending i) (pi_soft_refresh_pending i)
    (pi_render_config_changed i) (pi_has_history_segments i) (pi_coverage_fold_due i)
    (pi_external_revision_changed i) (pi_project_memory_epoch_hard_due i) (pi_m1_digest_changed i)
    (pi_todo_injection_pending i) b (pi_is_subagent i) (pi_force_hard i) (pi_history_seq_changed i)
    (pi_newest_evicted i) (pi_lineage_anchor_failure i) (pi_revert i).

Definition pass_plan (loaded : CoreState) (i : PlanInput) (w : PassUnits) (c : Composed) : PassPlan * CoreState :=
  let pending := reductions_pending loaded (pu_reductions w) (pu_live w) (c_coverage c) in
  decide_plan loaded (map fb_id (pu_live w)) (with_reductions_pending pending i).

(** The cache part of a transform pass: the core it commits. *)
Definition run_pass (loaded : CoreState) (i : PlanInput) (w : PassUnits) (c : Composed)
  : result TransformError (CoreState * bool) :=
  _ ← validate_reduction_monotonicity loaded (pu_reductions w);
  let token := boundary_token loaded (map fb_id (pu_live w)) in
  let '(plan, core) := pass_plan loaded i w c in
  out ← dispatch loaded core plan token i w c;
  Ok (if pi_lineage_anchor_failure i then mark_reconcile out.1 else out.1, out.2).

(** ** Keys *)
Lemma strip_prefix_Some p s t : strip_prefix p s = Some t <-> s = (p +:+ t)%string.
Proof.
  revert s. induction p as [|a p IH]; intros s; cbn [strip_prefix].
  - split; [by intros [= ->]|]. intros ->. done.
  - destruct s as [|b s]; [done|]. change (String a p +:+ t)%string with (String a (p +:+ t)%string).
    destruct (bool_decide_reflect (a = b)) as [->|Hn].
    + rewrite IH. split; [by intros ->|]. by intros [= ->].
    + split; [done|]. by intros [= -> _].
Qed.

Lemma string_app_inj (p s t : string) : (p +:+ s)%string = (p +:+ t)%string -> s = t.
Proof. intros H. apply (f_equal (strip_prefix p)) in H. rewrite !(proj2 (strip_prefix_Some p _ _) eq_refl) in H. by injection H. Qed.

Lemma side_key_red t : side_key (RED_KEY_PREFIX +:+ t)%string = true.
Proof. unfold side_key. by rewrite starts_with_app. Qed.

Lemma side_key_strip s : starts_with s STRIP_KEY_PREFIX = true -> side_key s = true.
Proof. intros H. unfold side_key. by rewrite H, orb_true_r. Qed.

Lemma side_key_cav s : starts_with s CAV_KEY_PREFIX = true -> side_key s = true.
Proof. intros H. unfold side_key. by rewrite H, !orb_true_r. Qed.

Lemma strip_unit_key k m p : starts_with (key (strip_unit k m p)) STRIP_KEY_PREFIX = true.
Proof. apply (starts_with_app STRIP_KEY_PREFIX). Qed.

Lemma compression_unit_key b d p : starts_with (key (terse_text_compression_unit b d p)) CAV_KEY_PREFIX = true.
Proof. apply starts_with_app. Qed.

(** Keys of different kinds differ. *)
Definition is_red (u : FrozenUnit) : Prop := exists t, key u = (RED_KEY_PREFIX +:+ t)%string.

Lemma red_not_strip t s : starts_with s STRIP_KEY_PREFIX = true -> s <> (RED_KEY_PREFIX +:+ t)%string.
Proof. intros [r ->]%starts_with_spec. discriminate. Qed.

Lemma red_not_cav t s : starts_with s CAV_KEY_PREFIX = true -> s <> (RED_KEY_PREFIX +:+ t)%string.
Proof. intros [r ->]%starts_with_spec. discriminate. Qed.

(** ** The units each operation yields *)
Lemma frozen_red_targets_spec core t :
  t ∈ frozen_red_targets core <-> (RED_KEY_PREFIX +:+ t)%string ∈ map key (frozen_units core).
Proof.
  unfold frozen_red_targets. rewrite elem_of_list_to_set, list_elem_of_omap. split.
  - intros (u & Hu & E%strip_prefix_Some). rewrite <- E. apply list_elem_of_fmap. eauto.
  - intros (u & E & Hu)%list_elem_of_fmap. exists u. split; [done|]. by apply strip_prefix_Some.
Qed.

Lemma new_reduction_units_spec core rs live coverage suppress u :
  u ∈ new_reduction_units core rs live coverage suppress ->
  exists t, key u = (RED_KEY_PREFIX +:+ t)%string /\ t ∉ frozen_red_targets core.
Proof.
  unfold new_reduction_units. set (f := fun _ _ => _). intros (kv & -> & Hkv)%list_elem_of_fmap.
  set (P := fun kv : string * FrozenUnit =>
    exists t, key kv.2 = (RED_KEY_PREFIX +:+ t)%string /\ t ∉ frozen_red_targets core).
  enough (forall m, Forall P m -> Forall P (foldl f m rs)) as H.
  { specialize (H [] (Forall_nil_2 _)). rewrite list.Forall_forall in H. exact (H kv Hkv). }
  clear Hkv kv. induction rs as [|r rs IH]; intros m Hm; [done|]. cbn [foldl]. apply IH. unfold f.
  case_bool_decide; [done|]. destruct (bool_decide_reflect (target_id r ∈ tail_ids live coverage)); [|done].
  destruct (bool_decide_reflect (target_id r ∉ frozen_red_targets core)) as [Hn|]; [|done]. cbn [andb].
  unfold btree_entry. destruct (btree_get _ _); [done|]. apply list.Forall_forall.
  intros kv [->|Hkv]%elem_of_btree_insert; [|rewrite list.Forall_forall in Hm; auto].
  exists (target_id r). split; [|done]. cbn. by destruct suppress.
Qed.

Lemma surviving_red_units_spec eff live coverage u :
  u ∈ surviving_red_units eff live coverage -> is_red u.
Proof.
  unfold surviving_red_units. rewrite list_elem_of_omap. intros ([t [[k p] rule]] & _ & H).
  destruct (live_ord live !! t); [|done]. destruct (is_tail _ _); [|done]. injection H as <-. by exists t.
Qed.

Lemma surviving_strip_units_spec core ms u :
  u ∈ surviving_strip_units core ms -> starts_with (key u) STRIP_KEY_PREFIX = true.
Proof.
  unfold surviving_strip_units. rewrite list_elem_of_In, !filter_In. tauto.
Qed.

Lemma surviving_compressions_spec core new live coverage u :
  u ∈ surviving_terse_text_compression_units core new live coverage ->
  starts_with (key u) CAV_KEY_PREFIX = true.
Proof.
  unfold surviving_terse_text_compression_units. set (add := fun _ _ => _).
  intros (kv & -> & Hkv)%list_elem_of_fmap. revert kv Hkv.
  set (P := fun kv : string * FrozenUnit => starts_with (key kv.2) CAV_KEY_PREFIX = true).
  enough (forall us m, Forall P m -> Forall P (foldl add m us)) as H.
  { apply list.Forall_forall. apply H, H. constructor. }
  induction us as [|v us IH]; intros m Hm; [done|]. cbn [foldl]. apply IH. unfold add.
  destruct (strip_prefix CAV_KEY_PREFIX (key v)) as [t|] eqn:E; [|done]. case_bool_decide; [|done].
  apply list.Forall_forall. intros kv [->|Hkv]%elem_of_btree_insert; [|rewrite list.Forall_forall in Hm; auto].
  apply strip_prefix_Some in E. unfold P. cbn [snd]. rewrite E. apply starts_with_app.
Qed.

Lemma new_strip_units_spec w u : u ∈ new_strip_units w -> starts_with (key u) STRIP_KEY_PREFIX = true.
Proof. intros ([[k m] p] & -> & _)%list_elem_of_fmap. apply strip_unit_key. Qed.

Lemma new_compression_units_spec w u : u ∈ new_compression_units w -> starts_with (key u) CAV_KEY_PREFIX = true.
Proof. intros ([[b d] p] & -> & _)%list_elem_of_fmap. apply compression_unit_key. Qed.

(** ** The passes, inverted *)
Lemma lift_step_Ok s input s' :
  lift_step (step s input) = Ok s' ->
  NoDup (map key (frozen_units s)) /\ has_version s input /\ s' = (pass_body s input).1.
Proof.
  intros H. assert (NoDup (map key (frozen_units s)) /\ has_version s input) as [Hn Hv].
  { unfold lift_step, step in H. destruct (is_bust (proposed input) && (version s =? u64_MAX)) eqn:E; [done|].
    destruct (find_duplicate ∅ (frozen_units s)) eqn:Ed; [done|].
    apply find_duplicate_None in Ed as [? _]. split; [done|]. intros Hb Hm.
    rewrite Hb, Hm, Z.eqb_refl in E. done. }
  rewrite step_accepted in H by done. split; [done|]. split; [done|]. by injection H.
Qed.

Lemma hard_pass_Ok core w token body f core' :
  hard_pass core w token body f = Ok core' ->
  version core <> u64_MAX /\
  core' = mkCore (version core + 1) (f_boundary f)
            (apply_units [] (fold_units core w (f_m0_bytes f) (render_m1_body body) (f_coverage f))) [] false.
Proof.
  unfold hard_pass. intros (_ & Hv & ->)%lift_step_Ok. split; [by apply Hv|].
  unfold pass_body. cbn -[apply_units fold_units]. by rewrite app_nil_r.
Qed.

(** The units a Soft pass renders. *)
Definition soft_units (core : CoreState) (w : PassUnits) (body : string) (coverage : option Z) : list FrozenUnit :=
  [render_m1_body body] ++
  new_reduction_units core (pu_reductions w) (pu_live w) coverage (pu_suppress w) ++
  new_strip_units w ++ new_compression_units w.

(** The boundary and reconcile flag a Soft pass leaves. *)
Lemma soft_pass_Ok core w token body nc coverage core' :
  soft_pass core w token body nc coverage = Ok core' ->
  NoDup (map key (frozen_units core)) /\ version core <> u64_MAX /\ version core' = version core + 1 /\
  frozen_units core' =
    match nc with
    | Some (_, e, _) =>
        List.filter (keep_uncovered CAV_KEY_PREFIX (pu_live w) (Some e))
          (List.filter (keep_uncovered RED_KEY_PREFIX (pu_live w) (Some e))
             (apply_units (frozen_units core) (soft_units core w body coverage)))
    | None => apply_units (frozen_units core) (soft_units core w body coverage)
    end /\
  (token <> boundary_id core -> boundary_id core <> EmptyString ->
   boundary_id core' = boundary_id core /\ reconcile_pending core' = true).
Proof.
  assert (forall nb core1,
    lift_step (step core (mkPass Soft token (soft_units core w body coverage) [] nb false)) = Ok core1 ->
    NoDup (map key (frozen_units core)) /\ version core <> u64_MAX /\ version core1 = version core + 1 /\
    frozen_units core1 = apply_units (frozen_units core) (soft_units core w body coverage) /\
    (token <> boundary_id core -> boundary_id core <> EmptyString ->
     boundary_id core1 = boundary_id core /\ reconcile_pending core1 = true)) as Hs.
  { intros nb core1 (Hn & Hv & ->)%lift_step_Ok. split; [done|]. split; [by apply Hv|].
    unfold pass_body. cbn [run_started proposed step_soft fst version frozen_units boundary_present rendered_units
      boundary_id reconcile_pending]. split; [done|]. split; [done|]. intros Ht Hb.
    rewrite (bool_decide_eq_false_2 (token = _)), (bool_decide_eq_false_2 (boundary_id core = _)) by done. done. }
  unfold soft_pass. fold (soft_units core w body coverage). destruct nc as [[[id e] unc]|]; [|apply Hs].
  destruct unc; [done|]. destruct (_ || _); [done|]. unfold mbind, result_bind.
  destruct (lift_step _) as [core1|] eqn:E; [|done]. intros [= <-].
  destruct (Hs _ _ E) as (? & ? & ? & Hf & Hb). cbn [retain_frozen prune_covered_red_units
    prune_covered_terse_text_compression_units frozen_units version boundary_id reconcile_pending].
  rewrite Hf. repeat split; (done || by apply Hb).
Qed.

Lemma defer_pass_Ok core token core' :
  defer_pass core token = Ok core' ->
  NoDup (map key (frozen_units core)) /\
  core' = mkCore (version core) (boundary_id core) (frozen_units core) (pending_changes core)
    (negb (bool_decide (token = boundary_id core)) && negb (bool_decide (boundary_id core = EmptyString))).
Proof.
  unfold defer_pass. intros (Hn & _ & ->)%lift_step_Ok. split; [done|].
  unfold pass_body, pass_new. cbn. by rewrite app_nil_r.
Qed.

(** ** Every pass keeps a recognized frozen set *)

(** A core whose version fits, whose keys are unique and which, once the session holds a
    baseline, has the recognized shape. *)
Definition session_ok (core : CoreState) (holds_baseline : bool) : Prop :=
  is_u64 (version core) /\ NoDup (map key (frozen_units core)) /\
  (holds_baseline = true -> valid_m0m1_shape core = true).

Definition region_or_side (k : string) : Prop := k = "m0"%string \/ k = "m1"%string \/ side_key k = true.

Lemma elem_of_put_unit v u fs : v ∈ put_unit u fs -> v = u \/ v ∈ fs.
Proof.
  induction fs as [|w fs IH]; cbn [put_unit].
  - intros ->%list_elem_of_singleton. by left.
  - case_bool_decide; rewrite !elem_of_cons; tauto.
Qed.

Lemma elem_of_apply_units v us fs : v ∈ apply_units fs us -> v ∈ fs \/ v ∈ us.
Proof.
  unfold apply_units. revert fs. induction us as [|u us IH]; intros fs; cbn [foldl]; [by left|].
  intros [[->|H]%elem_of_put_unit|H]%IH; rewrite ?elem_of_cons; auto.
Qed.

Lemma fold_units_keys core w bytes body coverage u :
  u ∈ fold_units core w bytes (render_m1_body body) coverage -> region_or_side (key u).
Proof.
  unfold fold_units, region_or_side. rewrite !elem_of_app, !elem_of_cons, elem_of_nil.
  intros [[->|[->|[]]]|[H|[[H|H]|H]]]; [by left|by right; left|right; right..].
  - apply surviving_red_units_spec in H as [t ->]. apply side_key_red.
  - apply side_key_strip. by eapply surviving_strip_units_spec.
  - apply side_key_strip. by eapply new_strip_units_spec.
  - apply side_key_cav. by eapply surviving_compressions_spec.
Qed.

Lemma soft_units_keys core w body coverage u :
  u ∈ soft_units core w body coverage -> region_or_side (key u).
Proof.
  unfold soft_units, region_or_side. rewrite !elem_of_app, list_elem_of_singleton.
  intros [->|[H|[H|H]]]; [by right; left|right; right..].
  - apply new_reduction_units_spec in H as (t & -> & _). apply side_key_red.
  - apply side_key_strip. by eapply new_strip_units_spec.
  - apply side_key_cav. by eapply new_compression_units_spec.
Qed.

Lemma apply_units_valid core us core' :
  NoDup (map key (frozen_units core)) -> valid_m0m1_shape core = true ->
  (forall u, u ∈ us -> region_or_side (key u)) ->
  frozen_units core' = apply_units (frozen_units core) us -> valid_m0m1_shape core' = true.
Proof.
  intros Hnd Hv Hu Hf. apply valid_shape_iff in Hv as (H0 & H1 & Hall); [|done].
  assert (NoDup (map key (frozen_units core'))) by (rewrite Hf; by apply NoDup_apply_units).
  apply valid_shape_iff; [done|]. rewrite Hf, keys_apply_units, !elem_of_add_keys.
  split; [by left|]. split; [by left|]. intros u [H'|H']%elem_of_apply_units; [by apply Hall|by apply Hu].
Qed.

Lemma filter_keeps_valid prefix live coverage core core' :
  prefix = RED_KEY_PREFIX \/ prefix = CAV_KEY_PREFIX ->
  NoDup (map key (frozen_units core)) -> valid_m0m1_shape core = true ->
  frozen_units core' = List.filter (keep_uncovered prefix live coverage) (frozen_units core) ->
  valid_m0m1_shape core' = true.
Proof.
  intros Hp Hnd Hv Hf. apply valid_shape_iff in Hv as (H0 & H1 & Hall); [|done].
  assert (NoDup (map key (frozen_units core'))) as Hnd' by (rewrite Hf; by apply NoDup_keys_filter).
  apply valid_shape_iff; [done|]. rewrite Hf.
  assert (forall k, k = "m0"%string \/ k = "m1"%string -> k ∈ map key (frozen_units core) ->
    k ∈ map key (List.filter (keep_uncovered prefix live coverage) (frozen_units core))) as Hk.
  { intros k Hk (u & -> & Hu)%list_elem_of_fmap. apply list_elem_of_fmap. exists u. split; [done|].
    apply list_elem_of_In, filter_In. split; [by apply list_elem_of_In|]. unfold keep_uncovered.
    destruct Hk as [-> | ->], Hp as [-> | ->]; reflexivity. }
  repeat split; [apply Hk; auto..|]. intros u Hu%list_elem_of_In. apply filter_In in Hu as [Hu _].
  apply Hall. by apply list_elem_of_In.
Qed.

Lemma hard_pass_session core w token body f core' :
  is_u64 (version core) -> hard_pass core w token body f = Ok core' -> session_ok core' true.
Proof.
  intros Hv (Hm & ->)%hard_pass_Ok.
  assert (NoDup (map key (apply_units [] (fold_units core w (f_m0_bytes f) (render_m1_body body) (f_coverage f)))))
    as Hnd by (apply NoDup_apply_units; constructor).
  split; [cbn; mlia|]. split; [done|]. intros _. apply valid_shape_iff; [done|].
  cbn [frozen_units]. rewrite keys_apply_units, !elem_of_add_keys. split; [right; left|].
  split; [right; right; left|]. intros u [H%elem_of_nil|H]%elem_of_apply_units; [done|].
  by apply fold_units_keys in H.
Qed.

Lemma soft_pass_session core w token body nc coverage core' b :
  session_ok core b -> soft_pass core w token body nc coverage = Ok core' -> session_ok core' b.
Proof.
  intros (Hv & Hnd & Hs) (_ & Hm & Hv' & Hf & _)%soft_pass_Ok. split; [mlia|].
  assert (NoDup (map key (apply_units (frozen_units core) (soft_units core w body coverage)))) as Hna
    by by apply NoDup_apply_units.
  split; [rewrite Hf; destruct nc as [[[? ?] ?]|]; [by repeat apply NoDup_keys_filter|done]|].
  intros Hb. specialize (Hs Hb).
  set (applied := mkCore 0 "" (apply_units (frozen_units core) (soft_units core w body coverage)) [] false).
  assert (valid_m0m1_shape applied = true) as Ha.
  { eapply apply_units_valid; [exact Hnd|exact Hs| |reflexivity]. apply soft_units_keys. }
  destruct nc as [[[id e] unc]|]; [|by unfold valid_m0m1_shape, count_key in *; rewrite Hf].
  set (red_pruned := retain_frozen (keep_uncovered RED_KEY_PREFIX (pu_live w) (Some e)) applied).
  assert (valid_m0m1_shape red_pruned = true) as Hr.
  { eapply (filter_keeps_valid RED_KEY_PREFIX _ _ applied); [by left|exact Hna|exact Ha|reflexivity]. }
  eapply (filter_keeps_valid CAV_KEY_PREFIX _ _ red_pruned); [by right| |exact Hr|exact Hf].
  by apply NoDup_keys_filter.
Qed.

Lemma subagent_pass_session core w token pass core' b :
  session_ok core b -> subagent_pass core w token pass = Ok core' -> session_ok core' b.
Proof.
  intros (Hv & Hnd & Hs). unfold subagent_pass. case_bool_decide; [by intros [= <-]|].
  intros (_ & Hm & ->)%lift_step_Ok. specialize (Hm eq_refl). split; [rewrite pass_body_version; cbn; mlia|].
  split; [by apply pass_body_keys|]. intros Hb.
  eapply apply_units_valid; [exact Hnd|by apply Hs| |reflexivity].
  intros u (t & -> & _)%new_reduction_units_spec. right; right. apply side_key_red.
Qed.

Lemma defer_pass_session core token core' b :
  session_ok core b -> defer_pass core token = Ok core' -> session_ok core' b.
Proof. intros Hs (_ & ->)%defer_pass_Ok. exact Hs. Qed.

Lemma decide_plan_core core live_ids i b :
  session_ok core b -> session_ok (decide_plan core live_ids i).2 b.
Proof. unfold decide_plan. intros Hs. by destruct (_ || _). Qed.

Lemma mark_reconcile_session core b : session_ok core b -> session_ok (mark_reconcile core) b.
Proof. done. Qed.

(** No pass refuses a shape by itself. *)
Definition not_unknown {A} (r : result TransformError A) : Prop := r <> Err UnknownShape.

Lemma validate_not_unknown core rs : not_unknown (validate_reduction_monotonicity core rs).
Proof. unfold not_unknown. induction rs as [|r rs IH]; cbn; [done|]. repeat case_match; done. Qed.

Lemma lift_step_not_unknown r : not_unknown (lift_step r).
Proof. unfold not_unknown, lift_step. by destruct (r.2). Qed.

Lemma folds_not_unknown core live f recut :
  not_unknown (checked_fold live f) /\ not_unknown (hard_fold core live f recut).
Proof. unfold not_unknown, hard_fold, checked_fold. split; repeat case_match; done. Qed.

Lemma passes_not_unknown core w token body nc coverage pass f :
  not_unknown (hard_pass core w token body f) /\ not_unknown (soft_pass core w token body nc coverage) /\
  not_unknown (defer_pass core token) /\ not_unknown (subagent_pass core w token pass).
Proof.
  repeat split; [apply lift_step_not_unknown| |apply lift_step_not_unknown|].
  - unfold soft_pass. destruct nc as [[[id e] unc]|]; [|apply lift_step_not_unknown].
    destruct unc; [done|]. destruct (_ || _); [done|]. unfold mbind, result_bind.
    pose proof (lift_step_not_unknown (step core (mkPass Soft token (soft_units core w body coverage) [] (Some id) false))) as H.
    unfold soft_units in H. destruct (lift_step _); [done|]. intros [= ->]. by apply H.
  - unfold subagent_pass. case_bool_decide; [done|]. apply lift_step_not_unknown.
Qed.

(** What a pass of a session may return. *)
Definition outcome_ok (i : PlanInput) (out : result TransformError (CoreState * bool)) : Prop :=
  match out with
  | Ok (core', holds) => session_ok core' holds /\ (established i = true -> holds = true)
  | Err e => established i = true -> e <> UnknownShape
  end.

(** A sub-pass that fails for a reason of its own, or leaves a good core. *)
Lemma bind_outcome {A} i (r : result TransformError A) k :
  not_unknown r -> (forall a, r = Ok a -> outcome_ok i (k a)) -> outcome_ok i (mbind k r).
Proof.
  intros Hn Hk. unfold mbind, result_bind. destruct r as [a|e]; [by apply Hk|]. intros _ ->. by apply Hn.
Qed.

Lemma dispatch_outcome loaded core plan token i w c :
  session_ok core (established i) -> (established i = true -> plan <> PReject) ->
  outcome_ok i (dispatch loaded core plan token i w c).
Proof.
  intros Hs Hp. pose proof (proj1 Hs) as Hv. unfold dispatch.
  assert (forall holds body f, (established i = true -> holds = true) ->
    outcome_ok i (core ← hard_pass core w token body f; Ok (core, holds))) as Hhard.
  { intros holds body f Hh. apply bind_outcome; [apply (passes_not_unknown core w token body None None DDefer f)|].
    intros core' (Hv' & Hn' & Hs')%(hard_pass_session _ _ _ _ _ _ Hv). split; [|done]. repeat split; auto; apply Hv'. }
  destruct (pi_is_subagent i).
  - apply bind_outcome; [apply (passes_not_unknown core w token "" None None _ (c_fold c))|].
    intros core' H'. split; [|done]. by eapply subagent_pass_session.
  - destruct plan.
    1,2: apply bind_outcome; [apply folds_not_unknown|]; intros f _; by apply Hhard.
    + destruct (c_m1_body c) as [body|].
      * apply bind_outcome; [apply (passes_not_unknown core w token body _ _ DDefer (c_fold c))|].
        intros core' H'. split; [|done]. by eapply soft_pass_session.
      * apply bind_outcome; [apply (folds_not_unknown core _ _ (c_refold c))|]. intros f _. apply Hhard.
        unfold established. by intros [_ ?]%andb_true_iff.
    + apply bind_outcome; [apply (passes_not_unknown core w token "" None None DDefer (c_fold c))|].
      intros core' H'. split; [|done]. by eapply defer_pass_session.
    + intros Hi. by apply Hp in Hi.
Qed.

Lemma run_pass_outcome loaded i w c :
  session_ok loaded (established i) -> outcome_ok i (run_pass loaded i w c).
Proof.
  intros Hs. unfold run_pass.
  apply bind_outcome; [apply validate_not_unknown|]. intros [] _.
  assert (session_ok (pass_plan loaded i w c).2 (established i)) as Hs' by by apply decide_plan_core.
  assert (established i = true -> (pass_plan loaded i w c).1 <> PReject) as Hrej.
  { intros Hi. assert (valid_m0m1_shape loaded = true) as Hval' by by apply Hs.
    unfold established in Hi. apply andb_true_iff in Hi as [Hi Hb%negb_true_iff].
    unfold pass_plan, decide_plan. destruct (_ || _); [done|]. by apply valid_shape_plan. }
  destruct (pass_plan loaded i w c) as [plan core]. cbn [fst snd] in *.
  pose proof (dispatch_outcome loaded core plan (boundary_token loaded (map fb_id (pu_live w))) i w c Hs' Hrej) as H.
  unfold mbind, result_bind. destruct (dispatch _ _ _ _ _ _ _) as [[core' holds]|e]; [|exact H].
  cbn. by destruct (pi_lineage_anchor_failure i).
Qed.

(** Whatever a request carries, the core a transform pass commits again has a version that
    fits, unique frozen keys and, once the session holds a baseline, one [m0], one [m1] and side
    units only; so the next pass is never refused for an unknown shape. A session starts with
    the empty core and no baseline, and any fold establishes one. *)
Theorem pass_keeps_session loaded i w c :
  session_ok loaded (established i) ->
  match run_pass loaded i w c with
  | Ok (core', holds) => session_ok core' holds /\ (established i = true -> holds = true)
  | Err e => established i = true -> e <> UnknownShape
  end.
Proof. apply run_pass_outcome. Qed.

(** ** A lost boundary is rebuilt *)

(** The core holds a live anchor, or covers nothing, by one of the folds of the composition. *)
Definition rebuilt (w : PassUnits) (c : Composed) (core : CoreState) : Prop :=
  reconcile_pending core = false /\
  exists f, f ∈ [c_fold c; c_recut c; c_refold c] /\ boundary_id core = f_boundary f /\
    (f_coverage f = None \/ f_boundary f ∈ map fb_id (pu_live w)).

(** A pass of the main session with a sound lineage anchor. *)
Definition main_pass (i : PlanInput) : Prop :=
  established i = true /\ pi_is_subagent i = false /\ pi_lineage_anchor_failure i = false.

Lemma anchor_absent_false live f :
  anchor_absent live f = false -> f_coverage f = None \/ f_boundary f ∈ map fb_id live.
Proof.
  unfold anchor_absent. destruct (f_coverage f); [|by left].
  rewrite bool_decide_eq_true_2 by eauto. cbn. intros [_ H%negb_false_iff]%orb_false_iff.
  apply bool_decide_eq_true in H. by right.
Qed.

Lemma checked_fold_Ok live f f' :
  checked_fold live f = Ok f' -> f' = f /\ (f_coverage f = None \/ f_boundary f ∈ map fb_id live).
Proof.
  unfold checked_fold. destruct (f_uncovered f); [done|]. destruct (anchor_absent live f) eqn:E; [done|].
  intros [= ->]. split; [done|]. by apply anchor_absent_false.
Qed.

Lemma hard_fold_Ok core live f recut f' :
  hard_fold core live f recut = Ok f' ->
  (f' = f \/ f' = recut) /\ (f_coverage f' = None \/ f_boundary f' ∈ map fb_id live).
Proof.
  unfold hard_fold. destruct (f_uncovered f); [done|]. destruct (anchor_absent live f) eqn:E.
  - destruct (_ || _); [|done]. intros [-> H]%checked_fold_Ok. auto.
  - intros [= <-]. split; [by left|]. by apply anchor_absent_false.
Qed.

Lemma hard_rebuilds core w token body f c core' :
  f ∈ [c_fold c; c_recut c; c_refold c] -> f_coverage f = None \/ f_boundary f ∈ map fb_id (pu_live w) ->
  hard_pass core w token body f = Ok core' -> rebuilt w c core'.
Proof. intros Hf Hl (_ & ->)%hard_pass_Ok. split; [done|]. by exists f. Qed.

Lemma dispatch_hard_rebuilds loaded core token i w c core' h :
  pi_is_subagent i = false -> dispatch loaded core PHard token i w c = Ok (core', h) -> rebuilt w c core'.
Proof.
  intros Hsub. unfold dispatch. rewrite Hsub. intros H. inv_bind.
  apply hard_fold_Ok in Hok as [Hf Hl]. eapply hard_rebuilds; [|exact Hl|exact Hok0].
  destruct Hf as [-> | ->]; rewrite !elem_of_cons; auto.
Qed.

(** A dispatched pass that does not see its boundary rebuilds it or records the loss. *)
Lemma dispatch_lost loaded core plan i w c core' h :
  pi_is_subagent i = false -> plan <> PReject ->
  boundary_id core <> EmptyString -> boundary_id core <> "-"%string ->
  dispatch loaded core plan "-" i w c = Ok (core', h) ->
  rebuilt w c core' \/ (boundary_id core' = boundary_id core /\ reconcile_pending core' = true).
Proof.
  intros Hsub Hp Hb Hd. destruct plan; [| | | |done]; unfold dispatch; rewrite Hsub; intros H.
  1,2: left; apply (dispatch_hard_rebuilds loaded core "-" i w c core' h Hsub); unfold dispatch; by rewrite Hsub.
  - destruct (c_m1_body c) as [body|]; inv_bind.
    + right. apply soft_pass_Ok in Hok as (_ & _ & _ & _ & Hl). apply Hl; congruence.
    + left. apply checked_fold_Ok in Hok as [-> Hl]. eapply hard_rebuilds; [|exact Hl|exact Hok0].
      rewrite !elem_of_cons. auto.
  - inv_bind. right. apply defer_pass_Ok in Hok as (_ & ->). cbn [boundary_id reconcile_pending].
    by rewrite (bool_decide_eq_false_2 ("-"%string = _)), (bool_decide_eq_false_2 (boundary_id core = _)) by congruence.
Qed.

Lemma boundary_live_absent core live_ids : boundary_id core ∉ live_ids -> boundary_live core live_ids = false.
Proof. intros H. unfold boundary_live. by rewrite (bool_decide_eq_false_2 _ H), andb_false_r. Qed.

Lemma run_pass_dispatch loaded i w c core' h :
  pi_lineage_anchor_failure i = false -> run_pass loaded i w c = Ok (core', h) ->
  let d := pass_plan loaded i w c in
  dispatch loaded d.2 d.1 (boundary_token loaded (map fb_id (pu_live w))) i w c = Ok (core', h).
Proof.
  intros Hl. unfold run_pass. destruct (pass_plan loaded i w c) as [plan core]. rewrite Hl. cbn [fst snd].
  intros H. inv_bind. by destruct a0.
Qed.

Lemma lost_boundary_pass loaded i w c core' h :
  session_ok loaded true -> main_pass i ->
  boundary_id loaded <> EmptyString -> boundary_id loaded <> "-"%string ->
  boundary_id loaded ∉ map fb_id (pu_live w) ->
  run_pass loaded i w c = Ok (core', h) ->
  rebuilt w c core' \/ (boundary_id core' = boundary_id loaded /\ reconcile_pending core' = true).
Proof.
  intros Hs (Hi & Hsub & Hl) Hb Hd Hn H%run_pass_dispatch; [|done]. cbv zeta in H.
  unfold boundary_token in H. rewrite (boundary_live_absent _ _ Hn) in H. unfold pass_plan, decide_plan in H.
  cbn [with_reductions_pending pi_lineage_anchor_failure pi_revert] in H. rewrite Hl in H. cbn [orb] in H.
  apply andb_true_iff in Hi as [Hi Hbs%negb_true_iff]. destruct (pi_revert i && _).
  - apply (dispatch_lost loaded (mark_reconcile loaded) PDefer i w c core' h); done.
  - eapply (dispatch_lost loaded loaded _ i w c core' h); [done| |done|done|exact H].
    apply valid_shape_plan; [by apply Hs|done|done].
Qed.

Lemma pending_reconcile_pass loaded i w c core' h :
  session_ok loaded true -> main_pass i -> reconcile_pending loaded = true ->
  boundary_id loaded ∉ map fb_id (pu_live w) ->
  run_pass loaded i w c = Ok (core', h) -> rebuilt w c core'.
Proof.
  intros Hs (Hi & Hsub & Hl) Hr Hn H%run_pass_dispatch; [|done]. cbv zeta in H. unfold pass_plan, decide_plan in H.
  cbn [with_reductions_pending pi_lineage_anchor_failure pi_revert] in H. rewrite Hl, Hr, andb_false_r in H. cbn [orb fst snd] in H.
  apply andb_true_iff in Hi as [Hi Hbs%negb_true_iff]. rewrite lost_boundary_plan in H; try done.
  - by eapply dispatch_hard_rebuilds.
  - by apply Hs.
  - by apply boundary_live_absent.
Qed.

(** C7: A boundary that disappears from the conversation is rebuilt by the second pass at the
    latest: a main-session pass that no longer sees it either folds the history onto a live
    anchor (or covers nothing) with no reconcile left, or replays and records the loss, and then
    the next pass that commits is such a fold, whatever else the requests carry. *)
Theorem lost_boundary_rebuilt loaded i1 w1 c1 s1 h1 i2 w2 c2 s2 h2 :
  session_ok loaded true -> main_pass i1 -> main_pass i2 ->
  boundary_id loaded <> EmptyString -> boundary_id loaded <> "-"%string ->
  boundary_id loaded ∉ map fb_id (pu_live w1) -> boundary_id loaded ∉ map fb_id (pu_live w2) ->
  run_pass loaded i1 w1 c1 = Ok (s1, h1) -> run_pass s1 i2 w2 c2 = Ok (s2, h2) ->
  rebuilt w1 c1 s1 \/ (reconcile_pending s1 = true /\ rebuilt w2 c2 s2).
Proof.
  intros Hs Hi1 Hi2 Hb Hd Hn1 Hn2 H1 H2.
  assert (session_ok loaded (established i1)) as Hs' by (rewrite (proj1 Hi1); exact Hs).
  pose proof (run_pass_outcome loaded i1 w1 c1 Hs') as Ho. rewrite H1 in Ho.
  destruct Ho as [Hs1 Hh]. rewrite (Hh (proj1 Hi1)) in Hs1.
  destruct (lost_boundary_pass _ _ _ _ _ _ Hs Hi1 Hb Hd Hn1 H1) as [?|[Hb1 Hr1]]; [by left|].
  right. split; [done|]. eapply (pending_reconcile_pass s1); try done. by rewrite Hb1.
Qed.

(** ** Frozen reductions never change *)
Lemma frozen_red_payload_map core t :
  frozen_red_payload core t = frozen_payload <$> unit_map (frozen_units core) !! (RED_KEY_PREFIX +:+ t)%string.
Proof. unfold frozen_red_payload. by rewrite find_unit_map. Qed.

Lemma apply_keeps fs us k :
  k ∉ map key us -> unit_map (apply_units fs us) !! k = unit_map fs !! k.
Proof. intros H%last_units_None. rewrite unit_map_apply, lookup_union, H. by destruct (unit_map fs !! k). Qed.

Lemma filter_keeps f us u :
  NoDup (map key us) -> u ∈ us -> f u = true -> unit_map (List.filter f us) !! key u = Some u.
Proof.
  intros Hnd Hu Hf. apply unit_map_lookup; [by apply NoDup_keys_filter|].
  apply list_elem_of_In, filter_In. by rewrite <- list_elem_of_In.
Qed.

Lemma soft_units_fresh core w body coverage t :
  (RED_KEY_PREFIX +:+ t)%string ∈ map key (frozen_units core) ->
  (RED_KEY_PREFIX +:+ t)%string ∉ map key (soft_units core w body coverage).
Proof.
  intros Ht%frozen_red_targets_spec (u & E & Hu)%list_elem_of_fmap. revert Hu.
  unfold soft_units. rewrite !elem_of_app, list_elem_of_singleton. intros [->|[H|[H|H]]].
  - discriminate.
  - apply new_reduction_units_spec in H as (t' & E' & Hn). rewrite E' in E.
    apply string_app_inj in E as ->. done.
  - apply new_strip_units_spec in H. by apply (red_not_strip t (key u)).
  - apply new_compression_units_spec in H. by apply (red_not_cav t (key u)).
Qed.

Lemma selected_keeps suppress rs t v m :
  btree_get t m = Some v -> btree_get t (foldl (add_selected_reduction suppress) m rs) = Some v.
Proof.
  revert m. induction rs as [|r rs IH]; intros m Hm; [done|]. cbn [foldl]. apply IH.
  unfold add_selected_reduction. by rewrite btree_get_entry, Hm.
Qed.

Lemma frozen_keeps us t v m :
  (RED_KEY_PREFIX +:+ t)%string ∉ map key us -> btree_get t m = Some v ->
  btree_get t (foldl add_frozen_reduction m us) = Some v.
Proof.
  revert m. induction us as [|x us IH]; intros m Hv Hm; [done|]. cbn [foldl map] in *.
  apply not_elem_of_cons in Hv as [Hx Hv]. apply IH; [done|]. unfold add_frozen_reduction.
  destruct (strip_prefix RED_KEY_PREFIX (key x)) as [t'|] eqn:E; [|done].
  apply strip_prefix_Some in E. rewrite btree_get_insert, bool_decide_eq_false_2; [done|]. congruence.
Qed.

Lemma effective_frozen core rs suppress u t :
  NoDup (map key (frozen_units core)) -> u ∈ frozen_units core -> key u = (RED_KEY_PREFIX +:+ t)%string ->
  btree_get t (effective_reductions core rs suppress) = Some (kind u, frozen_payload u, reset_rule u).
Proof.
  intros Hnd Hu Hk. apply selected_keeps. revert Hu Hnd. generalize (@nil (string * (string * string * string))).
  induction (frozen_units core) as [|v us IH]; intros m; [by intros ?%elem_of_nil|]. cbn [foldl map].
  intros [->|Hu]%elem_of_cons [Hv Hnd]%list.NoDup_cons; [|by apply IH].
  apply frozen_keeps; [by rewrite <- Hk|]. unfold add_frozen_reduction.
  rewrite Hk, (proj2 (strip_prefix_Some RED_KEY_PREFIX _ t) eq_refl).
  by rewrite btree_get_insert, bool_decide_eq_true_2.
Qed.

Lemma effective_ordered core rs suppress : key_ordered (effective_reductions core rs suppress).
Proof.
  assert (forall us (m : list (string * (string * string * string))), key_ordered m -> key_ordered (foldl add_frozen_reduction m us)) as Hf.
  { induction us as [|u us IH]; intros m Hm; [done|]. cbn [foldl]. apply IH. unfold add_frozen_reduction.
    destruct (strip_prefix _ _); [by apply btree_insert_ordered|done]. }
  assert (forall m, key_ordered m -> key_ordered (foldl (add_selected_reduction suppress) m rs)) as Hr.
  { induction rs as [|r rs IH]; intros m Hm; [done|]. cbn [foldl]. apply IH. unfold add_selected_reduction, btree_entry.
    destruct (btree_get _ _); [done|by apply btree_insert_ordered]. }
  apply Hr, Hf. constructor.
Qed.

(** The survivor of a target that is live in the tail carries its effective reduction. *)
Lemma surviving_last eff live coverage t ord k p rule :
  key_ordered eff -> btree_get t eff = Some (k, p, rule) ->
  live_ord live !! t = Some ord -> is_tail ord coverage = true ->
  last_units (surviving_red_units eff live coverage) !! (RED_KEY_PREFIX +:+ t)%string =
    Some (mkUnit (RED_KEY_PREFIX +:+ t)%string k p Lineage rule).
Proof.
  intros Ho Hg Hl Ht.
  assert (mkUnit (RED_KEY_PREFIX +:+ t)%string k p Lineage rule ∈ surviving_red_units eff live coverage) as Hin.
  { apply list_elem_of_omap. exists (t, (k, p, rule)). split; [by apply btree_get_elem|]. by rewrite Hl, Ht. }
  destruct (last_units (surviving_red_units eff live coverage) !! (RED_KEY_PREFIX +:+ t)%string) as [u|] eqn:E.
  - apply last_units_Some in E as [Hu Hk]. f_equal.
    apply list_elem_of_omap in Hu as ([t' [[k' p'] rule']] & He & Hu).
    destruct (live_ord live !! t') as [ord'|]; [|done]. destruct (is_tail ord' coverage); [|done].
    injection Hu as <-. cbn [key red_unit] in *. apply string_app_inj in Hk as ->.
    apply elem_of_btree_get in He; [|by apply key_ordered_NoDup]. rewrite Hg in He. by injection He as -> -> ->.
  - apply last_units_None in E. exfalso. apply E. apply list_elem_of_fmap.
    by exists (mkUnit (RED_KEY_PREFIX +:+ t)%string k p Lineage rule).
Qed.

Lemma last_units_absent us k : (forall u, u ∈ us -> key u <> k) -> last_units us !! k = None.
Proof. intros H. apply last_units_None. intros (u & -> & Hu)%list_elem_of_fmap. by apply (H u). Qed.

Lemma hard_keeps_reduction core w token body f core' u t ord :
  NoDup (map key (frozen_units core)) -> u ∈ frozen_units core -> key u = (RED_KEY_PREFIX +:+ t)%string ->
  live_ord (pu_live w) !! t = Some ord -> is_tail ord (f_coverage f) = true ->
  hard_pass core w token body f = Ok core' ->
  unit_map (frozen_units core') !! (RED_KEY_PREFIX +:+ t)%string =
    Some (mkUnit (RED_KEY_PREFIX +:+ t)%string (kind u) (frozen_payload u) Lineage (reset_rule u)).
Proof.
  intros Hnd Hu Hk Hl Ht (_ & ->)%hard_pass_Ok. cbn [frozen_units]. rewrite unit_map_apply.
  change (unit_map []) with (∅ : gmap string FrozenUnit). rewrite (right_id_L ∅ (∪)).
  unfold fold_units. rewrite !last_units_app, !lookup_union.
  rewrite (last_units_absent (surviving_terse_text_compression_units _ _ _ _)),
    (last_units_absent (new_strip_units w)), (last_units_absent (surviving_strip_units _ _)).
  - erewrite surviving_last; [done|apply effective_ordered|by apply effective_frozen|done|done].
  - intros v Hv. apply red_not_strip. by eapply surviving_strip_units_spec.
  - intros v Hv. apply red_not_strip. by eapply new_strip_units_spec.
  - intros v Hv. apply red_not_cav. by eapply surviving_compressions_spec.
Qed.

Lemma soft_keeps_reduction core w token body nc coverage core' u t ord :
  NoDup (map key (frozen_units core)) -> u ∈ frozen_units core -> key u = (RED_KEY_PREFIX +:+ t)%string ->
  live_ord (pu_live w) !! t = Some ord ->
  (forall id e unc, nc = Some (id, e, unc) -> is_tail ord (Some e) = true) ->
  soft_pass core w token body nc coverage = Ok core' ->
  unit_map (frozen_units core') !! (RED_KEY_PREFIX +:+ t)%string = Some u.
Proof.
  intros Hnd Hu Hk Hl Ht (_ & _ & _ & Hf & _)%soft_pass_Ok. rewrite Hf. clear Hf.
  assert (unit_map (apply_units (frozen_units core) (soft_units core w body coverage)) !! key u = Some u) as Ha.
  { rewrite apply_keeps; [by apply unit_map_lookup|]. rewrite Hk. apply soft_units_fresh. rewrite <- Hk.
    apply list_elem_of_fmap. by exists u. }
  assert (NoDup (map key (apply_units (frozen_units core) (soft_units core w body coverage)))) as Hna
    by by apply NoDup_apply_units.
  rewrite <- Hk. destruct nc as [[[id e] unc]|]; [|done]. apply unit_map_Some in Ha as [Ha _].
  assert (keep_uncovered RED_KEY_PREFIX (pu_live w) (Some e) u = true) as Hr.
  { unfold keep_uncovered. rewrite Hk, (proj2 (strip_prefix_Some RED_KEY_PREFIX _ t) eq_refl), Hl. by eapply Ht. }
  assert (keep_uncovered CAV_KEY_PREFIX (pu_live w) (Some e) u = true) as Hc
    by (unfold keep_uncovered; by rewrite Hk).
  apply filter_keeps; [by apply NoDup_keys_filter| |done].
  apply list_elem_of_In, filter_In. by rewrite <- list_elem_of_In.
Qed.

(** The coverages a pass can establish. *)
Definition coverages (c : Composed) : list (option Z) :=
  [f_coverage (c_fold c); f_coverage (c_recut c); f_coverage (c_refold c);
   (fun nc => nc.1.2) <$> c_new_coverage c].

Lemma dispatch_keeps_reduction loaded core plan token i w c core' h u t ord :
  NoDup (map key (frozen_units core)) -> u ∈ frozen_units core -> key u = (RED_KEY_PREFIX +:+ t)%string ->
  live_ord (pu_live w) !! t = Some ord -> Forall (fun cov => is_tail ord cov = true) (coverages c) ->
  dispatch loaded core plan token i w c = Ok (core', h) ->
  exists rule, unit_map (frozen_units core') !! (RED_KEY_PREFIX +:+ t)%string =
    Some (mkUnit (RED_KEY_PREFIX +:+ t)%string (kind u) (frozen_payload u) rule (reset_rule u)).
Proof.
  intros Hnd Hu Hk Hl Ht. unfold dispatch.
  assert (forall f body core1, f ∈ [c_fold c; c_recut c; c_refold c] -> hard_pass core w token body f = Ok core1 ->
    unit_map (frozen_units core1) !! (RED_KEY_PREFIX +:+ t)%string =
    Some (mkUnit (RED_KEY_PREFIX +:+ t)%string (kind u) (frozen_payload u) Lineage (reset_rule u))) as Hhard.
  { intros f body core1 Hf. eapply hard_keeps_reduction; try done. rewrite list.Forall_forall in Ht. apply Ht.
    unfold coverages. rewrite !elem_of_cons, elem_of_nil in Hf. rewrite !elem_of_cons.
    destruct Hf as [->|[->|[->|[]]]]; auto. }
  assert (forall core1, unit_map (frozen_units core1) !! (RED_KEY_PREFIX +:+ t)%string = Some u ->
    exists rule, unit_map (frozen_units core1) !! (RED_KEY_PREFIX +:+ t)%string =
      Some (mkUnit (RED_KEY_PREFIX +:+ t)%string (kind u) (frozen_payload u) rule (reset_rule u))) as Hsame.
  { intros core1 ->. exists (durability_class u). destruct u. cbn in *. by subst. }
  destruct (pi_is_subagent i); [|destruct plan]; intros H.
  - inv_bind. apply Hsame. unfold subagent_pass in Hok. case_bool_decide; inv_bind.
    + rewrite <- Hk. by apply unit_map_lookup.
    + apply lift_step_Ok in Hok as (_ & _ & ->). unfold pass_body. cbn [proposed run_started step_soft fst frozen_units rendered_units].
      rewrite apply_keeps; [rewrite <- Hk; by apply unit_map_lookup|].
      intros (v & E & (t' & E' & Hn)%new_reduction_units_spec)%list_elem_of_fmap. rewrite E' in E.
      apply string_app_inj in E as ->. apply Hn, frozen_red_targets_spec. rewrite <- Hk. apply list_elem_of_fmap. by exists u.
  - inv_bind. apply hard_fold_Ok in Hok as [[-> | ->] _]; eexists; eapply Hhard; try done; rewrite !elem_of_cons; auto.
  - inv_bind. apply hard_fold_Ok in Hok as [[-> | ->] _]; eexists; eapply Hhard; try done; rewrite !elem_of_cons; auto.
  - destruct (c_m1_body c) as [body|]; inv_bind.
    + apply Hsame. eapply soft_keeps_reduction; try done. intros id e unc E.
      rewrite list.Forall_forall in Ht. apply Ht. unfold coverages. rewrite E. rewrite !elem_of_cons. cbn. auto.
    + apply checked_fold_Ok in Hok as [-> _]. eexists; eapply Hhard; try done; rewrite !elem_of_cons; auto.
  - inv_bind. apply defer_pass_Ok in Hok as (_ & ->). apply Hsame. rewrite <- Hk. by apply unit_map_lookup.
  - done.
Qed.

(** C8: Once a tail block has been reduced, the bytes that replace it never change while it stays
    in the tail: no pass, whatever plan it takes, whatever the selection decides and however the
    coverage moves past other blocks, changes the kind, the payload or the rule of a frozen
    reduction; and a selection that disagrees with a frozen payload is refused. *)
Theorem frozen_reductions_immutable loaded i w c core' h u t ord :
  session_ok loaded (established i) ->
  u ∈ frozen_units loaded -> key u = (RED_KEY_PREFIX +:+ t)%string ->
  live_ord (pu_live w) !! t = Some ord -> Forall (fun cov => is_tail ord cov = true) (coverages c) ->
  run_pass loaded i w c = Ok (core', h) ->
  (exists class, unit_map (frozen_units core') !! (RED_KEY_PREFIX +:+ t)%string =
    Some (mkUnit (RED_KEY_PREFIX +:+ t)%string (kind u) (frozen_payload u) class (reset_rule u))) /\
  frozen_red_payload core' t = Some (frozen_payload u) /\
  (forall r, r ∈ pu_reductions w -> target_id r = t -> payload r = frozen_payload u).
Proof.
  intros (_ & Hnd & _) Hu Hk Hl Ht H.
  assert (validate_reduction_monotonicity loaded (pu_reductions w) = Ok tt) as Hval.
  { unfold run_pass in H. inv_bind. by destruct a. }
  assert (exists class, unit_map (frozen_units core') !! (RED_KEY_PREFIX +:+ t)%string =
    Some (mkUnit (RED_KEY_PREFIX +:+ t)%string (kind u) (frozen_payload u) class (reset_rule u))) as [class Hc].
  { unfold run_pass in H. assert (frozen_units (pass_plan loaded i w c).2 = frozen_units loaded) as Hd
      by (unfold pass_plan, decide_plan; by destruct (_ || _)).
    destruct (pass_plan loaded i w c) as [plan core]. cbn [snd] in Hd. inv_bind. destruct a0 as [core1 h1]. cbn [fst snd] in *.
    edestruct (dispatch_keeps_reduction loaded core plan) as [cl Hcl]; [..|exact Hok0|]; try rewrite Hd; try done.
    exists cl. by destruct (pi_lineage_anchor_failure i). }
  split; [by exists class|]. split; [rewrite frozen_red_payload_map, Hc; done|].
  assert (frozen_red_payload loaded t = Some (frozen_payload u)) as Hp
    by (rewrite frozen_red_payload_map, <- Hk, unit_map_lookup; done).
  clear H Hc Ht Hl. induction (pu_reductions w) as [|r rs IH]; [by intros r ?%elem_of_nil|].
  cbn in Hval. intros r' [->|Hr]%elem_of_cons E.
  - rewrite E, Hp in Hval. destruct (bool_decide_reflect (frozen_payload u <> payload r)); [done|].
    symmetry. by apply dec_stable.
  - apply IH; [|done|done]. repeat case_match; done.
Qed.

(** ** A session whose boundary is reverted away *)
Definition sample_session : CoreState :=
  mkCore 7 "a#0" [synth_region "m0" "BASE"; render_m1_body "delta"; red_unit "b#1" "drop" "[dropped 3]"] [] false.

Definition sample_live : list FlatBlock := [mkBlock "b#0" 4 false; mkBlock "b#1" 5 false].

Definition sample_units : PassUnits :=
  mkUnits [mkReduction "b#1" "drop" "[dropped 3]"] false sample_live [mkMessage "b" 2] [] [].

Definition sample_fold : Fold := mkFold "NEW" "b#0" (Some 4) false true.

Definition sample_composed : Composed :=
  mkComposed sample_fold sample_fold "" (Some "delta2"%string) sample_fold None (Some 2).

Lemma sample_session_ok : session_ok sample_session true.
Proof.
  split; [cbn; mlia|]. split; [apply (bool_decide_unpack _); vm_compute; exact I|].
  intros _. vm_compute. reflexivity.
Qed.

Definition after (s : CoreState) : CoreState :=
  match run_pass s idle_request sample_units sample_composed with Ok (s', _) => s' | Err _ => s end.

Lemma idle_main : main_pass idle_request.
Proof. repeat split. Qed.

Lemma sample_absent : boundary_id sample_session ∉ map fb_id (pu_live sample_units).
Proof. apply (bool_decide_unpack _). vm_compute. exact I. Qed.

Lemma pass_keeps_session_witness :
  session_ok (after sample_session) true.
Proof.
  pose proof (pass_keeps_session sample_session idle_request sample_units sample_composed sample_session_ok) as H.
  unfold after. destruct (run_pass sample_session idle_request sample_units sample_composed) as [[s h]|e] eqn:E.
  - destruct H as [H Hh]. specialize (Hh eq_refl). by rewrite Hh in H.
  - apply sample_session_ok.
Defined.

Lemma lost_boundary_rebuilt_witness :
  rebuilt sample_units sample_composed (after sample_session) \/
  (reconcile_pending (after sample_session) = true /\
   rebuilt sample_units sample_composed (after (after sample_session))).
Proof.
  apply (lost_boundary_rebuilt sample_session idle_request sample_units sample_composed (after sample_session) true
           idle_request sample_units sample_composed (after (after sample_session)) true);
    [apply sample_session_ok|apply idle_main|apply idle_main|discriminate|discriminate
    |apply sample_absent|apply sample_absent|vm_compute; reflexivity|vm_compute; reflexivity].
Defined.

Lemma frozen_reductions_immutable_witness :
  frozen_red_payload (after (after sample_session)) "b#1" = Some "[dropped 3]"%string.
Proof.
  assert (session_ok (after sample_session) true) as Hs.
  { split; [vm_compute; split; discriminate|]. split; [apply (bool_decide_unpack _); vm_compute; exact I|].
    intros _. vm_compute. reflexivity. }
  apply (frozen_reductions_immutable (after sample_session) idle_request sample_units sample_composed
           (after (after sample_session)) true (red_unit "b#1" "drop" "[dropped 3]") "b#1" 5);
    [exact Hs|vm_compute; right; right; left|reflexivity|vm_compute; reflexivity| |vm_compute; reflexivity].
  repeat constructor; vm_compute; reflexivity.
Defined.

End Passes.
