(* ===== verification/CanonicalJson.v ===== *)
(** * CanonicalJson: the canonical encoding digests are computed over
    (context-core/src/canonical_json.rs)

    Text is the string of its UTF-8 bytes. A JSON value is serde_json's; an object is the list
    of its entries. The encoder appends to an output string, as the code does; the hash is a
    parameter. *)
From S2P Require Import Prelude BTree.
From stdpp Require Import strings sorting.
From Stdlib Require Import SpecFloat.

#[local] Open Scope Z_scope.

Module CanonicalJson.

(** ** Data *)

(** serde_json's [Number]: a double is its sign, mantissa and exponent. *)
Inductive Number :=
| PosInt (n : Z)
| NegInt (n : Z)
| Float (f : spec_float).

Inductive Value :=
| Null
| Bool (b : bool)
| Num (n : Number)
| Str (s : string)
| Array (items : list Value)
| Object (entries : list (string * Value)).

(** The message of the error formats the number; the model carries the number. *)
Inductive ContractError := NotCanonical (n : Number).

Definition MAX_SAFE_INTEGER : Z := 9007199254740991.
Definition i64_MAX : Z := 9223372036854775807.

(** ** Numbers *)
Definition as_i64 (n : Number) : option Z :=
  match n with
  | PosInt n => if n <=? i64_MAX then Some n else None
  | NegInt n => Some n
  | Float _ => None
  end.

(** [u64 as f64]: 53 significant bits, to nearest, ties to even. *)
Definition u64_as_f64 (n : Z) : spec_float :=
  match n with
  | Zpos _ =>
      let e := Z.max 0 (Z.log2 n - 52) in
      let q := n / 2 ^ e in
      let r := n mod 2 ^ e in
      let up := (2 ^ e <? 2 * r) || ((2 ^ e =? 2 * r) && Z.odd q) in
      S754_finite false (Z.to_pos (if up then q + 1 else q)) e
  | _ => S754_zero false
  end.

Definition as_f64 (n : Number) : spec_float :=
  match n with
  | PosInt n => u64_as_f64 n
  | NegInt n => match u64_as_f64 (- n) with S754_finite _ m e => S754_finite true m e | f => f end
  | Float f => f
  end.

Definition f64_is_finite (f : spec_float) : bool :=
  match f with S754_zero _ | S754_finite _ _ _ => true | _ => false end.

Definition f64_fract_is_zero (f : spec_float) : bool :=
  match f with
  | S754_finite _ m e => (0 <=? e) || (Z.pos m mod 2 ^ (- e) =? 0)
  | _ => true
  end.

(** [abs() > bound] for an integer the format represents exactly. *)
Definition f64_abs_gt (f : spec_float) (bound : Z) : bool :=
  match f with
  | S754_finite _ m e => if 0 <=? e then bound <? Z.pos m * 2 ^ e else bound * 2 ^ (- e) <? Z.pos m
  | S754_zero _ => bound <? 0
  | _ => true
  end.

(** [as i64] of a finite double of small magnitude: truncation. *)
Definition f64_as_i64 (f : spec_float) : Z :=
  match f with
  | S754_finite s m e =>
      let a := if 0 <=? e then Z.pos m * 2 ^ e else Z.pos m / 2 ^ (- e) in
      if s then - a else a
  | _ => 0
  end.

Definition number_as_safe_integer (number : Number) : option Z :=
  match as_i64 number with
  | Some value => if (- MAX_SAFE_INTEGER <=? value) && (value <=? MAX_SAFE_INTEGER) then Some value else None
  | None =>
      let value := as_f64 number in
      if negb (f64_is_finite value) || negb (f64_fract_is_zero value) || f64_abs_gt value MAX_SAFE_INTEGER
      then None
      else Some (f64_as_i64 value)
  end.

(** ** Formatting *)
Definition ascii_of (z : Z) : Ascii.ascii := Ascii.ascii_of_N (Z.to_N z).
Definition byte_of (c : Ascii.ascii) : Z := Z.of_N (Ascii.N_of_ascii c).

Definition decimal_digit (d : Z) : string := String (ascii_of (48 + d)) EmptyString.

(** Decimal digits, 20 of which hold any 64-bit magnitude. *)
Fixpoint decimal_digits (fuel : nat) (n : Z) : string :=
  match fuel with
  | O => EmptyString
  | S fuel => if n <? 10 then decimal_digit n else (decimal_digits fuel (n / 10) +:+ decimal_digit (n mod 10))%string
  end.

Definition display_i64 (n : Z) : string :=
  if n <? 0 then ("-" +:+ decimal_digits 20 (- n))%string else decimal_digits 20 n.

Definition hex_digit (d : Z) : string := String (ascii_of (if d <? 10 then 48 + d else 87 + d)) EmptyString.

(** [{byte:02x}] and [{byte:04x}]. *)
Definition hex2 (b : Z) : string := (hex_digit (b / 16) +:+ hex_digit (b mod 16))%string.
Definition hex4 (b : Z) : string := ("00" +:+ hex2 b)%string.

Definition QUOTE : Z := 34.
Definition BACKSLASH : Z := 92.
Definition quote : string := String (ascii_of QUOTE) EmptyString.

(** ** Encoding *)

(** The loop of [encode_canonical_string]: [bytes] are the bytes from [index] on, [copied] the
    first byte not yet in [out]. *)
Fixpoint string_loop (value bytes : string) (index copied : nat) (out : string) : nat * string :=
  match bytes with
  | EmptyString => (copied, out)
  | String c rest =>
      let byte := byte_of c in
      if (0x20 <=? byte) && negb (byte =? QUOTE) && negb (byte =? BACKSLASH)
      then string_loop value rest (S index) copied out
      else
        let out := (out +:+ String.substring copied (index - copied) value)%string in
        let out :=
          if byte =? QUOTE then (out +:+ "\" +:+ quote)%string
          else if byte =? BACKSLASH then (out +:+ "\\")%string
          else (out +:+ "\u" +:+ hex4 byte)%string in
        string_loop value rest (S index) (index + 1) out
  end.

Definition encode_canonical_string (out value : string) : string :=
  let out := (out +:+ quote)%string in
  let '(copied, out) := string_loop value value 0 0 out in
  (out +:+ String.substring copied (String.length value - copied) value +:+ quote)%string.

(** The array loop; the object loop writes the key first. *)
Definition encode_items {A} (enc : string -> A -> result ContractError string) :=
  fix loop (index : nat) (out : string) (items : list A) {struct items} : result ContractError string :=
    match items with
    | [] => Ok out
    | item :: rest =>
        let out := if (0 <? index)%nat then (out +:+ ",")%string else out in
        out ← enc out item;
        loop (S index) out rest
    end.

Definition encode_entry (out : string) (entry : string * (string -> result ContractError string))
  : result ContractError string :=
  let out := encode_canonical_string out entry.1 in
  let out := (out +:+ ":")%string in
  entry.2 out.

(** The sorted map holds references: an entry's value is the computation that appends it. *)
Fixpoint encode_canonical_value (out : string) (value : Value) {struct value} : result ContractError string :=
  match value with
  | Null => Ok (out +:+ "null")%string
  | Bool true => Ok (out +:+ "true")%string
  | Bool false => Ok (out +:+ "false")%string
  | Num number =>
      integer ← ok_or (number_as_safe_integer number) (NotCanonical number);
      Ok (out +:+ display_i64 integer)%string
  | Str text => Ok (encode_canonical_string out text)
  | Array items =>
      let out := (out +:+ "[")%string in
      out ← encode_items (fun out enc => enc out) 0 out (map (fun item out => encode_canonical_value out item) items);
      Ok (out +:+ "]")%string
  | Object entries =>
      let sorted := btree_collect (map (fun entry => (entry.1, fun out => encode_canonical_value out entry.2)) entries) in
      let out := (out +:+ "{")%string in
      out ← encode_items encode_entry 0 out sorted;
      Ok (out +:+ "}")%string
  end.

Definition canonical_json_encode (value : Value) : result ContractError string :=
  encode_canonical_value EmptyString value.

(** ** Digests

    [sha256] maps the bytes of a message to the 32 bytes of its digest. *)
Definition lower_hex (bytes : list Z) : string :=
  foldl (fun out byte => out +:+ hex2 byte)%string EmptyString bytes.

Definition newline : string := String (ascii_of 10) EmptyString.

Definition canonical_digest (sha256 : string -> list Z) (protocol canonical : string) : string :=
  lower_hex (sha256 (protocol +:+ newline +:+ canonical)%string).

Definition protocol_digest (sha256 : string -> list Z) (protocol : string) (value : Value)
  : result ContractError string :=
  canonical ← canonical_json_encode value;
  Ok (canonical_digest sha256 protocol canonical).

Fixpoint all_lower_hex (text : string) : bool :=
  match text with
  | EmptyString => true
  | String c rest =>
      let b := byte_of c in
      ((48 <=? b) && (b <=? 57) || (97 <=? b) && (b <=? 102)) && all_lower_hex rest
  end.

Definition is_lower_hex (text : string) (expected_len : nat) : bool :=
  (String.length text =? expected_len)%nat && all_lower_hex text.

(** ** Specification

    The value an encoding stands for: integers, and objects with their keys in order. *)
Inductive canonical :=
| CNull
| CBool (b : bool)
| CInt (z : Z)
| CStr (s : string)
| CArray (items : list canonical)
| CObject (entries : list (string * canonical)).

(** The integer a JSON number is exactly equal to. *)
Definition denotes (n : Number) (z : Z) : Prop :=
  match n with
  | PosInt n | NegInt n => n = z
  | Float (S754_zero _) => z = 0
  | Float (S754_finite s m e) =>
      let m := if s then Z.neg m else Z.pos m in
      if 0 <=? e then m * 2 ^ e = z else m = z * 2 ^ (- e)
  | Float _ => False
  end.

Definition exact_integer (n : Number) : option Z :=
  match n with
  | PosInt n | NegInt n => Some n
  | Float (S754_zero _) => Some 0
  | Float (S754_finite s m e) =>
      let m := if s then Z.neg m else Z.pos m in
      if 0 <=? e then Some (m * 2 ^ e)
      else if bool_decide (m = m / 2 ^ (- e) * 2 ^ (- e)) then Some (m / 2 ^ (- e)) else None
  | Float _ => None
  end.

(** An integer JavaScript holds exactly. *)
Definition safe_integer (n : Number) : option Z :=
  z ← exact_integer n; if Z.abs z <? 2 ^ 53 then Some z else None.

Definition collect {A B} (f : A -> option B) :=
  fix go (l : list A) : option (list B) :=
    match l with
    | [] => Some []
    | x :: rest => match f x, go rest with Some y, Some ys => Some (y :: ys) | _, _ => None end
    end.

Fixpoint canon (v : Value) : option canonical :=
  match v with
  | Null => Some CNull
  | Bool b => Some (CBool b)
  | Num n => CInt <$> safe_integer n
  | Str s => Some (CStr s)
  | Array items => CArray <$> collect id (map canon items)
  | Object entries =>
      CObject <$> collect (fun e => pair e.1 <$> e.2)
        (btree_collect (map (fun e => (e.1, canon e.2)) entries))
  end.

(** The numbers of a value; of entries with one key the last is the one that counts. *)
Fixpoint numbers (v : Value) : list Number :=
  match v with
  | Num n => [n]
  | Array items => concat (map numbers items)
  | Object entries => concat (map snd (btree_collect (map (fun e => (e.1, numbers e.2)) entries)))
  | _ => []
  end.

(** The reference printer. *)
Definition escape_byte (c : Ascii.ascii) : string :=
  let byte := byte_of c in
  if (0x20 <=? byte) && negb (byte =? QUOTE) && negb (byte =? BACKSLASH) then String c EmptyString
  else if byte =? QUOTE then ("\" +:+ quote)%string
  else if byte =? BACKSLASH then "\\"%string
  else ("\u" +:+ hex4 byte)%string.

Fixpoint escape (s : string) : string :=
  match s with EmptyString => EmptyString | String c s => (escape_byte c +:+ escape s)%string end.

Definition print_string (s : string) : string := (quote +:+ escape s +:+ quote)%string.

Fixpoint separated (index : nat) (ss : list string) : string :=
  match ss with
  | [] => EmptyString
  | s :: rest => ((if (0 <? index)%nat then "," else "") +:+ s +:+ separated (S index) rest)%string
  end.

Fixpoint print (c : canonical) : string :=
  match c with
  | CNull => "null"
  | CBool true => "true"
  | CBool false => "false"
  | CInt z => display_i64 z
  | CStr s => print_string s
  | CArray items => ("[" +:+ separated 0 (map print items) +:+ "]")%string
  | CObject entries =>
      ("{" +:+ separated 0 (map (fun e => print_string e.1 +:+ ":" +:+ print e.2)%string entries) +:+ "}")%string
  end.

(** ** The number rule *)

Lemma float_as_safe_integer s m e z :
  number_as_safe_integer (Float (S754_finite s m e)) = Some z <->
  denotes (Float (S754_finite s m e)) z /\ - MAX_SAFE_INTEGER <= z <= MAX_SAFE_INTEGER.
Proof.
  unfold number_as_safe_integer, MAX_SAFE_INTEGER.
  cbn [as_i64 as_f64 f64_is_finite f64_fract_is_zero f64_abs_gt f64_as_i64 negb orb denotes].
  destruct (Z.leb_spec 0 e) as [He|He]; cbn [negb orb].
  - set (a := Z.pos m * 2 ^ e). assert (0 <= a) by (apply Z.mul_nonneg_nonneg; [lia|apply Z.pow_nonneg; lia]).
    replace ((if s then Z.neg m else Z.pos m) * 2 ^ e) with (if s then - a else a)
      by (unfold a; destruct s; [change (Z.neg m) with (- Z.pos m); ring|done]).
    clearbody a. destruct (Z.ltb_spec 9007199254740991 a).
    + split; [done|]. destruct s; lia.
    + split; [intros [= <-]; destruct s; lia|]. intros [<- ?]. by destruct s.
  - set (d := 2 ^ (- e)). assert (0 < d) as Hd by (apply Z.pow_pos_nonneg; lia). clearbody d.
    pose proof (Z.div_mod (Z.pos m) d ltac:(lia)) as Hdm. pose proof (Z.mod_pos_bound (Z.pos m) d Hd).
    destruct (Z.eqb_spec (Z.pos m mod d) 0) as [Hr|Hr]; cbn [negb orb].
    + rewrite Hr, Z.add_0_r in Hdm. set (a := Z.pos m / d) in *. clearbody a. assert (0 <= a) by nia.
      destruct (Z.ltb_spec (9007199254740991 * d) (Z.pos m)).
      * split; [done|]. intros [E ?]. exfalso. destruct s; [change (Z.neg m) with (- Z.pos m) in E|]; nia.
      * split; [intros [= <-]; split; [destruct s; [change (Z.neg m) with (- Z.pos m)|]; nia|destruct s; nia]|].
        intros [E ?]. f_equal. destruct s; [change (Z.neg m) with (- Z.pos m) in E|]; nia.
    + split; [done|]. intros [E _]. exfalso. apply Hr.
      destruct s; [change (Z.neg m) with (- Z.pos m) in E|].
      * replace (Z.pos m) with ((- z) * d) by lia. apply Z.mod_mul. lia.
      * rewrite E. apply Z.mod_mul. lia.
Qed.

Lemma large_u64_refused n : i64_MAX < n -> number_as_safe_integer (PosInt n) = None.
Proof.
  intros Hn. unfold number_as_safe_integer. cbn [as_i64 as_f64]. rewrite (proj2 (Z.leb_gt _ _)) by done. unfold i64_MAX in Hn.
  destruct n as [|p|p]; [lia| |lia]. set (n := Z.pos p) in *. unfold u64_as_f64. fold n. change (match n with Z.pos _ => ?a | _ => _ end) with a.
  unfold n at 1. fold n. assert (63 <= Z.log2 n) as Hl by (apply Z.log2_le_pow2; lia). rewrite Z.max_r by lia.
  set (e := Z.log2 n - 52). assert (2 ^ 52 <= n / 2 ^ e) as Hq.
  { apply Z.div_le_lower_bound; [apply Z.pow_pos_nonneg; lia|]. rewrite <- Z.pow_add_r by lia.
    replace (e + 52) with (Z.log2 n) by (unfold e; lia). apply Z.log2_spec. lia. }
  set (up := (2 ^ e <? 2 * (n mod 2 ^ e)) || _). set (q := n / 2 ^ e) in *.
  set (m := if up then q + 1 else q). assert (2 ^ 52 <= m) as Hm by (unfold m; destruct up; lia). clearbody m.
  assert (2 ^ 11 <= 2 ^ e) as He by (apply Z.pow_le_mono_r; unfold e; lia). assert (0 <= e) as He0 by (unfold e; lia). clearbody e.
  cbn [f64_is_finite f64_fract_is_zero f64_abs_gt negb orb]. rewrite Z2Pos.id by lia.
  rewrite (proj2 (Z.leb_le 0 e)) by lia. cbn [orb negb]. unfold MAX_SAFE_INTEGER.
  destruct (Z.ltb_spec 9007199254740991 (m * 2 ^ e)); [done|nia].
Qed.

Lemma safe_integer_range n z : number_as_safe_integer n = Some z -> - MAX_SAFE_INTEGER <= z <= MAX_SAFE_INTEGER.
Proof.
  intros H. destruct (as_i64 n) as [v|] eqn:E.
  - unfold number_as_safe_integer in H. rewrite E in H.
    destruct (Z.leb_spec (- MAX_SAFE_INTEGER) v), (Z.leb_spec v MAX_SAFE_INTEGER); try done.
    cbn in H. injection H as <-. lia.
  - assert (number_as_safe_integer (Float (as_f64 n)) = Some z) as Hf
      by (unfold number_as_safe_integer in *; by rewrite E in H).
    destruct (as_f64 n) as [s|s| |s m e]; [|done|done|apply float_as_safe_integer in Hf; tauto].
    injection Hf as <-. unfold MAX_SAFE_INTEGER. lia.
Qed.

(** A number is accepted exactly when it equals an integer of magnitude at most 2^53 - 1, and
    it is then encoded as that integer: unsigned, negative and floating-point numbers alike, with
    fractional, infinite, not-a-number and oversized ones refused. *)
Theorem safe_integers_exact n z :
  number_as_safe_integer n = Some z <-> denotes n z /\ - MAX_SAFE_INTEGER <= z <= MAX_SAFE_INTEGER.
Proof.
  destruct n as [n|n|[s|s| |s m e]].
  - destruct (Z.leb_spec n i64_MAX).
    + unfold number_as_safe_integer. cbn [as_i64 denotes]. rewrite (proj2 (Z.leb_le n i64_MAX)) by done.
      destruct (Z.leb_spec (- MAX_SAFE_INTEGER) n), (Z.leb_spec n MAX_SAFE_INTEGER); cbn [andb]; naive_solver lia.
    + rewrite large_u64_refused by lia. cbn. split; [done|]. unfold MAX_SAFE_INTEGER, i64_MAX in *. lia.
  - unfold number_as_safe_integer. cbn [as_i64 denotes].
    destruct (Z.leb_spec (- MAX_SAFE_INTEGER) n), (Z.leb_spec n MAX_SAFE_INTEGER); cbn [andb]; naive_solver lia.
  - cbn. unfold MAX_SAFE_INTEGER. split; [by intros [= <-]|]. by intros [-> _].
  - cbn. naive_solver.
  - cbn. naive_solver.
  - apply float_as_safe_integer.
Qed.

Lemma exact_integer_spec n z : exact_integer n = Some z <-> denotes n z.
Proof.
  destruct n as [n|n|[s|s| |s m e]]; cbn [exact_integer denotes]; try naive_solver.
  set (k := if s then Z.neg m else Z.pos m). clearbody k. cbn zeta. destruct (Z.leb_spec 0 e); [naive_solver|].
  set (d := 2 ^ (- e)). assert (0 < d) as Hd by (apply Z.pow_pos_nonneg; lia). clearbody d. case_bool_decide as Hk.
  - split; [intros [= <-]; done|]. intros ->. by rewrite Z.div_mul by lia.
  - split; [done|]. intros ->. by rewrite Z.div_mul in Hk by lia.
Qed.

Lemma safe_integer_spec n z : safe_integer n = Some z <-> denotes n z /\ Z.abs z < 2 ^ 53.
Proof.
  unfold safe_integer. rewrite <- exact_integer_spec. destruct (exact_integer n) as [y|]; cbn [mbind option_bind]; [|naive_solver].
  destruct (Z.ltb_spec (Z.abs y) (2 ^ 53)); [naive_solver|]. split; [done|]. intros [[= <-] ?]. lia.
Qed.

(** The code's number rule is the specified one. *)
Lemma number_rule n : number_as_safe_integer n = safe_integer n.
Proof.
  apply option_eq. intros z. rewrite safe_integers_exact, safe_integer_spec. unfold MAX_SAFE_INTEGER. split; intros [? ?]; (split; [done|lia]).
Qed.

Lemma refused_number n : safe_integer n = None -> forall z, denotes n z -> 2 ^ 53 <= Z.abs z.
Proof.
  intros Hn z Hz. destruct (Z.le_gt_cases (2 ^ 53) (Z.abs z)) as [?|Hlt]; [done|].
  assert (safe_integer n = Some z) by (by apply safe_integer_spec). congruence.
Qed.

Example number_rule_samples :
  number_as_safe_integer (Float (S754_finite true 3 2)) = Some (-12) /\
  number_as_safe_integer (Float (S754_finite true 3 (-1))) = None.
Proof. by split. Qed.

(** ** The encoder prints the canonical value *)
Section ValueInd.
Variable P : Value -> Prop.
Hypothesis Hnull : P Null.
Hypothesis Hbool : forall b, P (Bool b).
Hypothesis Hnum : forall n, P (Num n).
Hypothesis Hstr : forall s, P (Str s).
Hypothesis Harray : forall items, Forall P items -> P (Array items).
Hypothesis Hobject : forall entries, Forall (fun e => P e.2) entries -> P (Object entries).

Fixpoint Value_ind' (v : Value) : P v :=
  match v with
  | Null => Hnull
  | Bool b => Hbool b
  | Num n => Hnum n
  | Str s => Hstr s
  | Array items =>
      Harray items ((fix go l : Forall P l :=
        match l with [] => Forall_nil_2 P | x :: l => Forall_cons_2 P x l (Value_ind' x) (go l) end) items)
  | Object entries =>
      Hobject entries ((fix go l : Forall (fun e => P e.2) l :=
        match l with [] => Forall_nil_2 _ | e :: l => Forall_cons_2 _ e l (Value_ind' e.2) (go l) end) entries)
  end.
End ValueInd.

Section CanonicalInd.
Variable P : canonical -> Prop.
Hypothesis Hnull : P CNull.
Hypothesis Hbool : forall b, P (CBool b).
Hypothesis Hint : forall z, P (CInt z).
Hypothesis Hstr : forall s, P (CStr s).
Hypothesis Harray : forall items, Forall P items -> P (CArray items).
Hypothesis Hobject : forall entries, Forall (fun e => P e.2) entries -> P (CObject entries).

Fixpoint canonical_ind' (v : canonical) : P v :=
  match v with
  | CNull => Hnull
  | CBool b => Hbool b
  | CInt n => Hint n
  | CStr s => Hstr s
  | CArray items =>
      Harray items ((fix go l : Forall P l :=
        match l with [] => Forall_nil_2 P | x :: l => Forall_cons_2 P x l (canonical_ind' x) (go l) end) items)
  | CObject entries =>
      Hobject entries ((fix go l : Forall (fun e => P e.2) l :=
        match l with [] => Forall_nil_2 _ | e :: l => Forall_cons_2 _ e l (canonical_ind' e.2) (go l) end) entries)
  end.
End CanonicalInd.

(** Lengths and substrings. *)
Lemma length_append (s t : string) : String.length (s +:+ t)%string = (String.length s + String.length t)%nat.
Proof. induction s as [|a s IH]; [done|]. rewrite append_cons. cbn [String.length]. lia. Qed.

Lemma substring_prefix (s t : string) : String.substring 0 (String.length s) (s +:+ t)%string = s.
Proof.
  induction s as [|a s IH]; [by destruct t|]. rewrite append_cons. cbn [String.length String.substring].
  by rewrite IH.
Qed.

Lemma substring_mid (s t u : string) :
  String.substring (String.length s) (String.length t) (s +:+ t +:+ u)%string = t.
Proof.
  induction s as [|a s IH]; [exact (substring_prefix t u)|]. rewrite append_cons. cbn [String.length String.substring].
  exact IH.
Qed.

Lemma escape_app (s t : string) : escape (s +:+ t)%string = (escape s +:+ escape t)%string.
Proof. induction s as [|a s IH]; [done|]. rewrite append_cons. cbn [escape]. by rewrite IH, append_assoc. Qed.

(** The bytes between two escapes print as themselves. *)
Definition plain (s : string) : Prop := escape s = s.

Lemma string_loop_spec rest : forall value pre mid out,
  value = (pre +:+ mid +:+ rest)%string -> plain mid ->
  let '(copied, out') := string_loop value rest (String.length pre + String.length mid) (String.length pre) out in
  (out' +:+ String.substring copied (String.length value - copied) value)%string = (out +:+ mid +:+ escape rest)%string.
Proof.
  induction rest as [|c rest IH]; intros value pre mid out Hv Hm; cbn [string_loop escape].
  - rewrite Hv, append_nil_r, length_append, Nat.add_comm, Nat.add_sub. f_equal.
    pose proof (substring_mid pre mid EmptyString) as H. by rewrite append_nil_r in H.
  - set (escaped := if byte_of c =? QUOTE then _ else _).
    assert (escape_byte c = if (32 <=? byte_of c) && negb (byte_of c =? QUOTE) && negb (byte_of c =? BACKSLASH)
      then String c EmptyString else if byte_of c =? QUOTE then ("\" +:+ quote)%string
      else if byte_of c =? BACKSLASH then "\\"%string else ("\u" +:+ hex4 (byte_of c))%string) as He by done.
    destruct ((32 <=? byte_of c) && _ && _) eqn:Hp.
    + replace (S (String.length pre + String.length mid))
        with (String.length pre + String.length (mid +:+ String c EmptyString)%string)%nat
        by (rewrite length_append; cbn [String.length]; lia).
      assert (value = (pre +:+ (mid +:+ String c EmptyString) +:+ rest)%string) as Hv' by (by rewrite Hv, append_assoc).
      assert (plain (mid +:+ String c EmptyString)%string) as Hm'.
      { unfold plain in *. rewrite escape_app, Hm. cbn [escape]. by rewrite He, append_nil_r. }
      specialize (IH value pre _ out Hv' Hm'). destruct (string_loop _ _ _ _ _) as [copied out'].
      by rewrite IH, He, append_assoc.
    + set (out1 := (out +:+ mid +:+ escape_byte c)%string).
      assert (escaped = out1) as ->.
      { unfold escaped, out1. rewrite He. replace (String.length pre + String.length mid - String.length pre)%nat
          with (String.length mid) by lia. rewrite Hv, substring_mid.
        destruct (byte_of c =? QUOTE), (byte_of c =? BACKSLASH); by rewrite append_assoc. }
      assert (value = ((pre +:+ mid +:+ String c EmptyString) +:+ EmptyString +:+ rest)%string) as Hv'
        by (by rewrite Hv, !append_assoc).
      specialize (IH value _ EmptyString out1 Hv' eq_refl). rewrite !length_append in IH. cbn [String.length] in IH.
      rewrite Nat.add_0_r, (Nat.add_assoc (String.length pre)) in IH.
      rewrite <- (Nat.add_1_r (_ + _)). destruct (string_loop _ _ _ _ _) as [copied out'].
      rewrite IH. unfold out1. by rewrite !append_assoc.
Qed.

Lemma encode_string_spec out s : encode_canonical_string out s = (out +:+ print_string s)%string.
Proof.
  unfold encode_canonical_string, print_string.
  pose proof (string_loop_spec s s EmptyString EmptyString (out +:+ quote)%string eq_refl eq_refl) as H.
  cbn [String.length Nat.add] in H. destruct (string_loop _ _ _ _ _) as [copied out'].
  rewrite <- append_assoc, H, !append_assoc. done.
Qed.

(** An encoding step that appends the text [sem] gives, or refuses one of the numbers [nums] lists. *)
Definition appends {A} (enc : string -> A -> result ContractError string) (sem : A -> option string)
  (nums : A -> list Number) (x : A) : Prop :=
  forall out, match sem x with
  | Some s => enc out x = Ok (out +:+ s)%string
  | None => exists n, enc out x = Err (NotCanonical n) /\ n ∈ nums x /\ safe_integer n = None
  end.

Lemma encode_items_spec {A} enc sem nums (items : list A) :
  Forall (appends enc sem nums) items -> forall index out,
  match collect sem items with
  | Some ss => encode_items enc index out items = Ok (out +:+ separated index ss)%string
  | None => exists n, encode_items enc index out items = Err (NotCanonical n) /\ n ∈ concat (map nums items) /\ safe_integer n = None
  end.
Proof.
  induction 1 as [|x items Hx Hall IH]; intros index out; cbn [collect encode_items separated map concat].
  - by rewrite append_nil_r.
  - set (out1 := if (0 <? index)%nat then (out +:+ ",")%string else out).
    assert (out1 = (out +:+ (if (0 <? index)%nat then "," else ""))%string) as E
      by (unfold out1; destruct (0 <? index)%nat; by rewrite ?append_nil_r).
    specialize (Hx out1). destruct (sem x) as [s|].
    + rewrite Hx. cbn [mbind result_bind]. specialize (IH (S index) (out1 +:+ s)%string).
      destruct (collect sem items) as [ss|]; [|destruct IH as (n & -> & Hn & Hs); exists n; rewrite elem_of_app; auto].
      etransitivity; [exact IH|]. by rewrite E, !append_assoc.
    + destruct Hx as (n & -> & Hin & Hn). exists n. rewrite elem_of_app. auto.
Qed.

Lemma btree_insert_map {A B} (f : A -> B) k v m :
  btree_insert k (f v) (map (fun e => (e.1, f e.2)) m) = map (fun e => (e.1, f e.2)) (btree_insert k v m).
Proof.
  induction m as [|[k' v'] m IH]; [done|]. cbn [map btree_insert fst snd]. destruct (String.compare k k'); [done|done|].
  by rewrite IH.
Qed.

Lemma btree_collect_map {A B} (f : A -> B) l :
  btree_collect (map (fun e => (e.1, f e.2)) l) = map (fun e => (e.1, f e.2)) (btree_collect l).
Proof.
  unfold btree_collect. change (@nil (string * B)) with (map (fun e : string * A => (e.1, f e.2)) []) at 1.
  generalize (@nil (string * A)). induction l as [|e l IH]; intros m; [done|]. cbn [map foldl fst snd].
  by rewrite btree_insert_map, IH.
Qed.

Lemma encode_items_map {A B} (g : B -> A) enc xs : forall index out,
  encode_items enc index out (map g xs) = encode_items (fun out x => enc out (g x)) index out xs.
Proof.
  induction xs as [|x xs IH]; intros index out; [done|]. cbn [map encode_items]. unfold mbind, result_bind.
  destruct (enc _ (g x)); [apply IH|done].
Qed.

Lemma collect_map {A B C} (g : B -> option C) (h : A -> B) l : collect g (map h l) = collect (fun x => g (h x)) l.
Proof. induction l as [|x l IH]; [done|]. cbn [map collect]. by rewrite IH. Qed.

Lemma collect_fmap {A B C} (g : A -> option B) (f : B -> C) l :
  collect (fun x => f <$> g x) l = map f <$> collect g l.
Proof. induction l as [|x l IH]; [done|]. cbn [collect]. rewrite IH. destruct (g x), (collect g l); done. Qed.

Lemma encode_value_spec v : appends encode_canonical_value (fun v => print <$> canon v) numbers v.
Proof.
  induction v as [|b|n|s|items IH|entries IH] using Value_ind'; intros out; cbn [canon encode_canonical_value numbers].
  - done.
  - by destruct b.
  - rewrite number_rule. destruct (safe_integer n) as [z|] eqn:E; cbn; [done|]. exists n. split; [done|]. split; [by left|done].
  - cbn. by rewrite encode_string_spec.
  - rewrite encode_items_map, collect_map.
    pose proof (encode_items_spec (fun out x => encode_canonical_value out x) _ _ items IH 0 (out +:+ "[")%string) as H.
    rewrite collect_fmap in H. unfold id. destruct (collect canon items) as [cs|]; cbn [fmap option_fmap option_map] in *.
    + unfold mbind, result_bind. rewrite H. cbn [print]. by rewrite !append_assoc.
    + destruct H as (n & H & Hn). exists n. unfold mbind, result_bind. by rewrite H.
  - rewrite (btree_collect_map numbers), map_map. cbn [fst snd]. rewrite (btree_collect_map (fun v out => encode_canonical_value out v)), (btree_collect_map canon).
    rewrite encode_items_map, collect_map. cbn [fst snd].
    set (sorted := btree_collect entries).
    set (pr := fun e : string * canonical => (print_string e.1 +:+ ":" +:+ print e.2)%string).
    assert (Forall (appends (fun out e => encode_entry out (e.1, fun out => encode_canonical_value out e.2))
      (fun e => pr <$> (pair e.1 <$> canon e.2)) (fun e => numbers e.2)) sorted) as Hall.
    { rewrite list.Forall_forall in *. intros e He%elem_of_btree_collect out1. specialize (IH e He).
      unfold encode_entry. cbn [fst snd]. rewrite encode_string_spec.
      specialize (IH ((out1 +:+ print_string e.1) +:+ ":")%string).
      cbv beta in IH. destruct (canon e.2) as [c|]; cbn [fmap option_fmap option_map] in *; [|exact IH].
      rewrite IH. unfold pr. cbn [fst snd]. by rewrite !append_assoc. }
    pose proof (encode_items_spec _ _ _ sorted Hall 0 (out +:+ "{")%string) as H.
    rewrite collect_fmap in H.
    destruct (collect (fun x => pair x.1 <$> canon x.2) sorted) as [cs|]; cbn [fmap option_fmap option_map] in *.
    + unfold mbind, result_bind. rewrite H. cbn [print]. fold pr. by rewrite !append_assoc.
    + destruct H as (n & H & Hn). exists n. unfold mbind, result_bind. by rewrite H.
Qed.

(** ** A reference parser *)
Definition unhex (c : Ascii.ascii) : option Z :=
  let b := byte_of c in
  if (48 <=? b) && (b <=? 57) then Some (b - 48)
  else if (65 <=? b) && (b <=? 70) then Some (b - 55)
  else if (97 <=? b) && (b <=? 102) then Some (b - 87) else None.

(** The letters of the two-character escapes and the bytes they stand for. *)
Definition unescape (d : Ascii.ascii) : option Z :=
  let b := byte_of d in
  if (b =? QUOTE) || (b =? BACKSLASH) || (b =? 47) then Some b
  else if b =? 98 then Some 8 else if b =? 102 then Some 12 else if b =? 110 then Some 10
  else if b =? 114 then Some 13 else if b =? 116 then Some 9 else None.

(** The text up to the closing quote: RFC 8259, with [\u] escapes of ASCII characters only. A raw
    control character, an unknown escape letter and a missing hex digit are refused. *)
Fixpoint parse_string (s : string) : option (string * string) :=
  match s with
  | EmptyString => None
  | String c rest =>
      if byte_of c =? QUOTE then Some (EmptyString, rest)
      else if byte_of c <? 0x20 then None
      else if byte_of c =? BACKSLASH then
        match rest with
        | String d rest =>
            if byte_of d =? 117 then
              match rest with
              | String h3 (String h2 (String h1 (String h0 rest))) =>
                  d3 ← unhex h3; d2 ← unhex h2; d1 ← unhex h1; d0 ← unhex h0;
                  let code := ((d3 * 16 + d2) * 16 + d1) * 16 + d0 in
                  if code <? 0x80 then '(t, r) ← parse_string rest; Some (String (ascii_of code) t, r) else None
              | _ => None
              end
            else b ← unescape d; '(t, r) ← parse_string rest; Some (String (ascii_of b) t, r)
        | EmptyString => None
        end
      else '(t, r) ← parse_string rest; Some (String c t, r)
  end.

Definition is_digit (b : Z) : bool := (48 <=? b) && (b <=? 57).

Fixpoint read_digits (acc : Z) (s : string) : Z * string :=
  match s with
  | String c rest => if is_digit (byte_of c) then read_digits (10 * acc + (byte_of c - 48)) rest else (acc, s)
  | EmptyString => (acc, s)
  end.

Fixpoint drop_prefix (p s : string) : option string :=
  match p, s with
  | EmptyString, _ => Some s
  | String a p, String b s => if bool_decide (a = b) then drop_prefix p s else None
  | _, EmptyString => None
  end.

(** An unsigned integer: digits, with no leading zero. *)
Definition read_integer (s : string) : option (Z * string) :=
  match s with
  | String c rest =>
      if byte_of c =? 48
      then match rest with String d _ => if is_digit (byte_of d) then None else Some (0, rest) | EmptyString => Some (0, rest) end
      else if is_digit (byte_of c) then Some (read_digits 0 s) else None
  | EmptyString => None
  end.

(** One or more elements separated by commas, then the closing byte. *)
Fixpoint parse_separated {A} (elem : string -> option (A * string)) (close : Z) (n : nat) (s : string)
  : option (list A * string) :=
  match n with
  | O => None
  | S n =>
      '(x, s) ← elem s;
      match s with
      | String c rest =>
          if byte_of c =? close then Some ([x], rest)
          else if byte_of c =? 44 then '(xs, r) ← parse_separated elem close n rest; Some (x :: xs, r)
          else None
      | EmptyString => None
      end
  end.

Definition parse_list {A} (elem : string -> option (A * string)) (close : Z) (n : nat) (s : string)
  : option (list A * string) :=
  match s with
  | String c rest => if byte_of c =? close then Some ([], rest) else parse_separated elem close n s
  | EmptyString => None
  end.

Definition parse_entry {A} (elem : string -> option (A * string)) (s : string) : option ((string * A) * string) :=
  s ← drop_prefix quote s;
  '(k, s) ← parse_string s;
  s ← drop_prefix ":" s;
  '(x, s) ← elem s;
  Some ((k, x), s).

Fixpoint parse_value (fuel : nat) (s : string) : option (canonical * string) :=
  match fuel, s with
  | O, _ | _, EmptyString => None
  | S fuel, String c rest =>
      let b := byte_of c in
      if b =? 110 then r ← drop_prefix "ull" rest; Some (CNull, r)
      else if b =? 116 then r ← drop_prefix "rue" rest; Some (CBool true, r)
      else if b =? 102 then r ← drop_prefix "alse" rest; Some (CBool false, r)
      else if b =? QUOTE then '(t, r) ← parse_string rest; Some (CStr t, r)
      else if b =? 91 then '(l, r) ← parse_list (parse_value fuel) 93 fuel rest; Some (CArray l, r)
      else if b =? 123 then '(l, r) ← parse_list (parse_entry (parse_value fuel)) 125 fuel rest; Some (CObject l, r)
      else if b =? 45 then '(n, r) ← read_integer rest; Some (CInt (- n), r)
      else '(n, r) ← read_integer s; Some (CInt n, r)
  end.

Definition parse (s : string) : option canonical :=
  '(c, r) ← parse_value (S (String.length s)) s;
  if bool_decide (r = EmptyString) then Some c else None.

(** ** Parsing what was printed *)
Lemma parse_escape_byte c rest :
  parse_string (escape_byte c +:+ rest)%string = '(t, r) ← parse_string rest; Some (String c t, r).
Proof. destruct c as [[] [] [] [] [] [] [] []]; reflexivity. Qed.

Lemma parse_escape s rest : parse_string (escape s +:+ quote +:+ rest)%string = Some (s, rest).
Proof.
  induction s as [|c s IH]; [reflexivity|]. cbn [escape]. by rewrite append_assoc, parse_escape_byte, IH.
Qed.

(** The text after a number does not continue it. *)
Definition stops (s : string) : Prop :=
  match s with String c _ => is_digit (byte_of c) = false | EmptyString => True end.

Lemma byte_of_ascii_of z : 0 <= z < 256 -> byte_of (ascii_of z) = z.
Proof.
  intros H. unfold byte_of, ascii_of. rewrite Ascii.N_ascii_embedding by lia. lia.
Qed.

Lemma parse_digit acc d rest :
  0 <= d < 10 -> read_digits acc (decimal_digit d +:+ rest)%string = read_digits (10 * acc + d) rest.
Proof.
  intros Hd. unfold decimal_digit. rewrite append_cons. cbn [read_digits]. rewrite byte_of_ascii_of by lia.
  unfold is_digit. rewrite (proj2 (Z.leb_le _ _)), (proj2 (Z.leb_le _ _)) by lia. cbn [andb].
  f_equal. lia.
Qed.

Lemma parse_decimal fuel n rest :
  0 <= n < 10 ^ Z.of_nat fuel -> (0 < fuel)%nat ->
  read_digits 0 (decimal_digits fuel n +:+ rest)%string = read_digits n rest.
Proof.
  revert n rest. induction fuel as [|fuel IH]; intros n rest Hn Hf; [lia|]. cbn [decimal_digits].
  destruct (Z.ltb_spec n 10); [rewrite parse_digit by lia; f_equal; lia|].
  rewrite append_assoc. rewrite Nat2Z.inj_succ, Z.pow_succ_r in Hn by lia.
  destruct fuel as [|fuel]; [cbn in Hn; lia|].
  rewrite IH; [|split; [apply Z.div_pos; lia|apply Z.div_lt_upper_bound; lia]|lia].
  rewrite parse_digit by (apply Z.mod_pos_bound; lia). f_equal. pose proof (Z.div_mod n 10). lia.
Qed.

Lemma parse_stop n s : stops s -> read_digits n s = (n, s).
Proof. destruct s as [|c s]; [done|]. cbn. by intros ->. Qed.

(** The first digit, which is zero for zero only. *)
Lemma decimal_first fuel n : 0 <= n < 10 ^ Z.of_nat fuel -> (0 < fuel)%nat ->
  exists d s, 0 <= d < 10 /\ decimal_digits fuel n = String (ascii_of (48 + d)) s /\ (d = 0 -> n = 0 /\ s = EmptyString).
Proof.
  revert n. induction fuel as [|fuel IH]; intros n Hn Hf; [lia|]. cbn [decimal_digits].
  destruct (Z.ltb_spec n 10); [exists n, EmptyString; split; [lia|]; by split|]. rewrite Nat2Z.inj_succ, Z.pow_succ_r in Hn by lia.
  destruct fuel as [|fuel]; [cbn in Hn; lia|].
  destruct (IH (n / 10)) as (d & s & Hd & -> & Hz); [split; [apply Z.div_pos; lia|apply Z.div_lt_upper_bound; lia]|lia|].
  exists d, (s +:+ decimal_digit (n mod 10))%string. split; [done|]. split; [done|]. intros [H0 _]%Hz.
  pose proof (Z.div_le_mono 10 n 10 ltac:(lia) ltac:(lia)). rewrite Z.div_same in * by lia. lia.
Qed.

(** Every integer of the value is safe. *)
Fixpoint safe_ints (c : canonical) : Prop :=
  match c with
  | CInt z => - MAX_SAFE_INTEGER <= z <= MAX_SAFE_INTEGER
  | CArray items => foldr (fun c p => safe_ints c /\ p) True items
  | CObject entries => foldr (fun e p => safe_ints e.2 /\ p) True entries
  | _ => True
  end.

(** The fuel a value needs: one per node and one per element of a list. *)
Fixpoint size (c : canonical) : nat :=
  match c with
  | CArray items => S (foldr (fun c n => S (size c) + n) 0 items)
  | CObject entries => S (foldr (fun e n => S (size e.2) + n) 0 entries)
  | _ => 1
  end%nat.

Lemma foldr_and_Forall {A} (P : A -> Prop) l : foldr (fun x p => P x /\ p) True l <-> Forall P l.
Proof. induction l as [|x l IH]; cbn [foldr]; [by split|]. rewrite IH, Forall_cons. done. Qed.

Lemma foldr_size {A} (f : A -> nat) l x :
  x ∈ l -> (S (f x) <= foldr (fun x n => S (f x) + n) 0 l)%nat /\ (length l <= foldr (fun x n => S (f x) + n) 0 l)%nat.
Proof.
  assert (length l <= foldr (fun x n => S (f x) + n) 0 l)%nat as Hl by (induction l; cbn [length foldr]; lia).
  intros Hx. split; [|done]. clear Hl. induction l as [|y l IH]; [by apply elem_of_nil in Hx|].
  cbn [foldr]. apply elem_of_cons in Hx as [->|Hx]; [lia|]. specialize (IH Hx). lia.
Qed.

Lemma separated_S i ss : separated (S i) ss = separated 1 ss.
Proof.
  revert i. induction ss as [|s ss IH]; intros i; [done|]. cbn [separated Nat.ltb Nat.leb].
  by rewrite (IH (S i)), (IH 1%nat).
Qed.

(** A parser reads back what a printer wrote, before a text that does not continue it. *)
Definition reads {A} (elem : string -> option (A * string)) (pr : A -> string) (x : A) : Prop :=
  forall rest, stops rest -> elem (pr x +:+ rest)%string = Some (x, rest).

Lemma parse_separated_spec {A} (elem : string -> option (A * string)) pr close xs x : forall n rest,
  0 <= close < 256 -> close <> 44 -> is_digit close = false -> (length xs < n)%nat ->
  Forall (reads elem pr) (x :: xs) ->
  parse_separated elem close n (pr x +:+ separated 1 (map pr xs) +:+ String (ascii_of close) rest)%string = Some (x :: xs, rest).
Proof.
  revert x. induction xs as [|y xs IH]; intros x n rest Hc Hc' Hd Hn Hall; (destruct n as [|n]; [cbn in Hn; lia|]);
    apply Forall_cons in Hall as [Hx Hall]; cbn [map separated parse_separated length] in *.
  - change (EmptyString +:+ ?s)%string with s. rewrite Hx by (cbn; by rewrite byte_of_ascii_of).
    cbn [mbind option_bind]. by rewrite byte_of_ascii_of, Z.eqb_refl.
  - cbn [Nat.ltb Nat.leb]. rewrite separated_S, !append_assoc, append_cons. change ("" +:+ ?s)%string with s.
    rewrite Hx by reflexivity. cbn [mbind option_bind].
    change (byte_of _) with 44 at 1 2. rewrite (proj2 (Z.eqb_neq 44 close)), Z.eqb_refl by lia.
    by rewrite IH by (done || lia).
Qed.

Lemma parse_list_spec {A} (elem : string -> option (A * string)) pr close xs n rest :
  0 <= close < 256 -> close <> 44 -> is_digit close = false -> (length xs <= n)%nat ->
  Forall (reads elem pr) xs ->
  Forall (fun x => exists c s, pr x = String c s /\ byte_of c <> close) xs ->
  parse_list elem close n (separated 0 (map pr xs) +:+ String (ascii_of close) rest)%string = Some (xs, rest).
Proof.
  intros Hc Hc' Hd Hn Hall Hf. destruct xs as [|x xs]; cbn [map separated].
  - change (EmptyString +:+ ?s)%string with s. cbn [parse_list]. by rewrite byte_of_ascii_of, Z.eqb_refl.
  - cbn [Nat.ltb Nat.leb]. rewrite !append_assoc. change ("" +:+ ?s)%string with s.
    pose proof (parse_separated_spec elem pr close xs x n rest Hc Hc' Hd Hn Hall) as H.
    apply Forall_cons in Hf as [(c & s & E & Hne) _]. unfold parse_list. rewrite E, append_cons in *.
    by rewrite (proj2 (Z.eqb_neq _ _) Hne).
Qed.

Lemma print_first c : safe_ints c ->
  exists a s, print c = String a s /\ byte_of a <> 93.
Proof.
  destruct c as [|[]|z|s|items|entries]; intros Hs; cbn [print].
  - by eexists _, _.
  - by eexists _, _.
  - by eexists _, _.
  - unfold display_i64. cbn [safe_ints] in Hs. destruct (z <? 0) eqn:E; [by eexists _, _|]. apply Z.ltb_ge in E.
    unfold MAX_SAFE_INTEGER in Hs. destruct (decimal_first 20 z) as (d & s & Hd & -> & _); [lia|lia|]. eexists _, _. split; [done|].
    rewrite byte_of_ascii_of; lia.
  - by eexists _, _.
  - by eexists _, _.
  - by eexists _, _.
Qed.

Lemma read_decimal n rest : 0 <= n <= MAX_SAFE_INTEGER -> stops rest -> read_integer (decimal_digits 20 n +:+ rest)%string = Some (n, rest).
Proof.
  intros Hn Hr. unfold MAX_SAFE_INTEGER in Hn. pose proof (parse_decimal 20 n rest ltac:(lia) ltac:(lia)) as Hp. rewrite (parse_stop n rest Hr) in Hp.
  destruct (decimal_first 20 n) as (d & s & Hd & E & Hz); [lia|lia|]. rewrite E, append_cons in *. cbn [read_integer].
  rewrite byte_of_ascii_of by lia. destruct (Z.eqb_spec (48 + d) 48).
  - destruct Hz as [-> ->]; [lia|]. change (EmptyString +:+ rest)%string with rest. destruct rest as [|c rest]; [done|]. cbn in Hr. by rewrite Hr.
  - unfold is_digit at 1. rewrite (proj2 (Z.leb_le _ _)), (proj2 (Z.leb_le _ _)) by lia. cbn [andb]. by rewrite Hp.
Qed.

Lemma parse_int_spec z fuel rest :
  - MAX_SAFE_INTEGER <= z <= MAX_SAFE_INTEGER -> stops rest ->
  parse_value (S fuel) (display_i64 z +:+ rest)%string = Some (CInt z, rest).
Proof.
  intros Hz Hr. unfold display_i64. destruct (Z.ltb_spec z 0).
  - rewrite append_assoc, append_cons. cbn [parse_value]. change ("" +:+ ?s)%string with s.
    change (byte_of _) with 45 at 1 2 3 4 5 6 7. cbn -[read_integer decimal_digits].
    rewrite read_decimal by (done || lia). cbn [mbind option_bind]. by rewrite Z.opp_involutive.
  - pose proof (read_decimal z rest ltac:(lia) Hr) as Hp. unfold MAX_SAFE_INTEGER in Hz.
    destruct (decimal_first 20 z) as (d & s & Hd & E & _); [lia|lia|]. rewrite E, append_cons in *.
    cbn [parse_value]. rewrite Hp. rewrite byte_of_ascii_of by lia. unfold QUOTE.
    by rewrite !(proj2 (Z.eqb_neq _ _)) by lia.
Qed.

Lemma drop_prefix_app p s : drop_prefix p (p +:+ s)%string = Some s.
Proof. induction p as [|a p IH]; [done|]. rewrite append_cons. cbn [drop_prefix]. by rewrite bool_decide_eq_true_2. Qed.

Lemma parse_entry_reads {A} (elem : string -> option (A * string)) pr e :
  reads elem pr e.2 -> reads (parse_entry elem) (fun e => print_string e.1 +:+ ":" +:+ pr e.2)%string e.
Proof.
  intros H rest Hr. unfold parse_entry, print_string. rewrite !append_assoc, drop_prefix_app. cbn [mbind option_bind].
  rewrite parse_escape. cbn [mbind option_bind]. rewrite drop_prefix_app. cbn [mbind option_bind].
  rewrite (H rest Hr). by destruct e.
Qed.

Lemma parse_print c : safe_ints c -> forall fuel, (size c <= fuel)%nat -> reads (parse_value fuel) print c.
Proof.
  induction c as [|b|z|s|items IH|entries IH] using canonical_ind'; intros Hs fuel Hf rest Hr;
    (destruct fuel as [|fuel]; [cbn in Hf; lia|]).
  - reflexivity.
  - by destruct b.
  - by apply parse_int_spec.
  - cbn [print]. unfold print_string. rewrite !append_assoc.
    change (quote +:+ (escape s +:+ quote +:+ rest))%string with (String (ascii_of 34) (escape s +:+ quote +:+ rest)%string).
    cbn [parse_value]. change (byte_of (ascii_of 34)) with 34. rewrite parse_escape. reflexivity.
  - cbn [safe_ints size print] in *. apply foldr_and_Forall in Hs. rewrite append_assoc.
    change ("[" +:+ ?s)%string with (String (ascii_of 91) s). cbn [parse_value].
    change (byte_of (ascii_of 91)) with 91. cbn -[parse_list separated print].
    rewrite append_assoc. change ("]" +:+ rest)%string with (String (ascii_of 93) rest).
    rewrite parse_list_spec; [done|lia|done|done| | |].
    + destruct items as [|x items]; [cbn; lia|].
      destruct (foldr_size size (x :: items) x) as [_ ?]; [left|lia].
    + rewrite list.Forall_forall in *. intros x Hx. apply IH; [done|by apply Hs|].
      destruct (foldr_size size items x Hx); lia.
    + eapply Forall_impl; [exact Hs|]. intros x. apply print_first.
  - cbn [safe_ints size print] in *. apply (foldr_and_Forall (fun e : string * canonical => safe_ints e.2)) in Hs.
    rewrite append_assoc.
    change ("{" +:+ ?s)%string with (String (ascii_of 123) s). cbn [parse_value].
    change (byte_of (ascii_of 123)) with 123. cbn -[parse_list separated print parse_entry print_string].
    rewrite append_assoc. change ("}" +:+ rest)%string with (String (ascii_of 125) rest).
    rewrite parse_list_spec; [done|lia|done|done| | |].
    + destruct entries as [|x entries]; [cbn; lia|].
      destruct (foldr_size (fun e : string * canonical => size e.2) (x :: entries) x) as [_ ?]; [left|lia].
    + rewrite list.Forall_forall in *. intros e He. apply parse_entry_reads. apply IH; [done|by apply Hs|].
      destruct (foldr_size (fun e : string * canonical => size e.2) entries e He); lia.
    + apply list.Forall_forall. intros e _. eexists _, _. split; [reflexivity|discriminate].
Qed.

Lemma length_separated i ss :
  (foldr (fun s n => String.length s + n) 0 ss + length ss <= String.length (separated (S i) ss))%nat.
Proof.
  revert i. induction ss as [|s ss IH]; intros i; [done|]. cbn [separated foldr length Nat.ltb Nat.leb].
  rewrite !length_append. specialize (IH (S i)). cbn [String.length]. lia.
Qed.

Lemma length_list_print {A} (pr : A -> string) (sz : A -> nat) (o c : string) xs :
  String.length o = 1%nat -> String.length c = 1%nat ->
  Forall (fun x => sz x <= String.length (pr x))%nat xs ->
  (S (foldr (fun x n => S (sz x) + n) 0 xs) <= String.length (o +:+ separated 0 (map pr xs) +:+ c)%string)%nat.
Proof.
  intros Ho Hc Hall. rewrite !length_append, Ho, Hc. destruct xs as [|x xs]; [cbn; lia|].
  cbn [map separated Nat.ltb Nat.leb foldr]. rewrite !length_append. cbn [String.length].
  apply Forall_cons in Hall as [Hx Hall]. pose proof (length_separated 0 (map pr xs)) as Hl.
  assert (foldr (fun x n => S (sz x) + n) 0 xs <= foldr (fun s n => String.length s + n) 0 (map pr xs) + length (map pr xs))%nat.
  { clear Hl. induction Hall as [|y ys Hy Hys IH]; [done|]. cbn [foldr map length]. lia. }
  lia.
Qed.

Lemma size_print c : safe_ints c -> (size c <= String.length (print c))%nat.
Proof.
  induction c as [|b|z|s|items IH|entries IH] using canonical_ind'; intros Hs; cbn [size print].
  - cbn; lia.
  - destruct b; cbn; lia.
  - destruct (print_first (CInt z) Hs) as (a & s & E & _). cbn [print] in E. rewrite E. cbn; lia.
  - unfold print_string. rewrite length_append. cbn. lia.
  - cbn [safe_ints] in Hs. apply foldr_and_Forall in Hs. apply length_list_print; [done|done|].
    rewrite list.Forall_forall in *. auto.
  - cbn [safe_ints] in Hs. apply (foldr_and_Forall (fun e : string * canonical => safe_ints e.2)) in Hs.
    apply (length_list_print (fun e => print_string e.1 +:+ ":" +:+ print e.2)%string (fun e => size e.2)); [done|done|].
    rewrite list.Forall_forall in *. intros e He. rewrite !length_append. specialize (IH e He (Hs e He)). lia.
Qed.

Lemma parse_printed c : safe_ints c -> parse (print c) = Some c.
Proof.
  intros Hs. unfold parse. pose proof (parse_print c Hs (S (String.length (print c)))) as H.
  specialize (H ltac:(pose proof (size_print c Hs); lia) EmptyString I). rewrite append_nil_r in H. rewrite H. done.
Qed.

(** ** Round trip *)
Lemma collect_Forall {A B} (f : A -> option B) (P : B -> Prop) l ys :
  (forall x y, x ∈ l -> f x = Some y -> P y) -> collect f l = Some ys -> Forall P ys.
Proof.
  revert ys. induction l as [|x l IH]; intros ys H; cbn [collect]; [by intros [= <-]|].
  destruct (f x) as [y|] eqn:E; [|done]. destruct (collect f l) as [ys'|]; [|done]. intros [= <-].
  constructor; [by eapply H; [left|]|]. apply IH; [|done]. intros x' y' Hx'. apply H. by right.
Qed.

Lemma canon_safe v c : canon v = Some c -> safe_ints c.
Proof.
  revert c. induction v as [|b|n|s|items IH|entries IH] using Value_ind'; intros c; cbn [canon].
  - by intros [= <-].
  - by intros [= <-].
  - intros (z & Hz & ->)%fmap_Some. rewrite <- number_rule in Hz. by apply safe_integer_range in Hz.
  - by intros [= <-].
  - intros (cs & H & ->)%fmap_Some. cbn [safe_ints]. apply foldr_and_Forall. revert H. rewrite collect_map.
    apply collect_Forall. intros x y Hx. rewrite list.Forall_forall in IH. by apply IH.
  - intros (cs & H & ->)%fmap_Some. cbn [safe_ints]. apply (foldr_and_Forall (fun e : string * canonical => safe_ints e.2)). revert H.
    rewrite (btree_collect_map canon), collect_map. apply collect_Forall. intros e y He%elem_of_btree_collect.
    cbn [fst snd]. intros (c & Hc & ->)%fmap_Some. rewrite list.Forall_forall in IH. by apply (IH e He).
Qed.

Lemma encode_canon v :
  match canon v with
  | Some c => canonical_json_encode v = Ok (print c) /\ safe_ints c
  | None => exists n, canonical_json_encode v = Err (NotCanonical n) /\ n ∈ numbers v /\ safe_integer n = None
  end.
Proof.
  pose proof (encode_value_spec v EmptyString) as H. unfold canonical_json_encode.
  cbv beta in H. destruct (canon v) as [c|] eqn:E; cbn in H; [|exact H]. split; [exact H|by eapply canon_safe].
Qed.

(** C36: The canonical encoding loses nothing and is unambiguous. Encoding succeeds exactly on the
    values all of whose numbers (those of a repeated key's last entry) equal an integer below 2^53 in
    magnitude, and a JSON parser reads the text back to the value with its numbers as those integers
    and its objects' keys in order; otherwise the error names a number of the value that equals no
    such integer. *)
Theorem canonical_roundtrip v :
  match canonical_json_encode v, canon v with
  | Ok s, Some c => parse s = Some c
  | Err (NotCanonical n), None => n ∈ numbers v /\ forall z, denotes n z -> 2 ^ 53 <= Z.abs z
  | _, _ => False
  end.
Proof.
  pose proof (encode_canon v) as H. destruct (canon v) as [c|].
  - destruct H as [-> Hs]. by apply parse_printed.
  - destruct H as (n & -> & Hin & Hn). split; [done|by apply refused_number].
Qed.

(** Two values have the same canonical text, and so the same digest input, exactly when they
    are the same up to the order of object keys and the spelling of integral numbers. *)
Theorem canonical_injective v v' s s' :
  canonical_json_encode v = Ok s -> canonical_json_encode v' = Ok s' ->
  s = s' <-> canon v = canon v'.
Proof.
  intros H H'. pose proof (encode_canon v) as E. pose proof (encode_canon v') as E'. rewrite H in E. rewrite H' in E'.
  destruct (canon v) as [c|]; [|naive_solver]. destruct (canon v') as [c'|]; [|naive_solver].
  destruct E as [[= ->] Hs], E' as [[= ->] Hs']. split; [|congruence]. intros Hp.
  apply (f_equal parse) in Hp. by rewrite !parse_printed in Hp.
Qed.

(** Key order and the spelling of an integer do not matter. *)
Definition sample_value : Value :=
  Object [("b"%string, Num (PosInt 12)); ("a"%string, Array [Bool true; Null; Str (String (ascii_of 10) quote)])].

Definition sample_value' : Value :=
  Object [("a"%string, Array [Bool true; Null; Str (String (ascii_of 10) quote)]);
          ("b"%string, Num (Float (S754_finite false 3 2)))].

Lemma canonical_injective_witness :
  canonical_json_encode sample_value = canonical_json_encode sample_value'.
Proof.
  destruct (canonical_json_encode sample_value) as [s|e] eqn:E; [|discriminate E].
  destruct (canonical_json_encode sample_value') as [s'|e] eqn:E'; [|discriminate E'].
  f_equal. apply (canonical_injective sample_value sample_value' s s' E E'). vm_compute. reflexivity.
Defined.

End CanonicalJson.
