(* ===== verification/Scheduler.v ===== *)
(** * Scheduler: pass decisions from context pressure and time (daemon/src/scheduler.rs)

    Usage percentages and thresholds are doubles ([Doubles]). Text is the list of its scalar values where the code
    works on characters, and a string of bytes where it is a map key. The overflow detector,
    which matches provider error texts with a regular-expression library, is a parameter. *)
From S2P Require Import Prelude BTree Classify Doubles.
From stdpp Require Import strings gmap.
From Stdlib Require Import SpecFloat.

#[local] Open Scope Z_scope.

Module Scheduler.
Import Plan.

(** ** Constants *)
Definition DEFAULT_EXECUTE_THRESHOLD_PERCENTAGE : f64 := f64_of_Z 65.
Definition MAX_EXECUTE_THRESHOLD_PERCENTAGE : f64 := f64_of_Z 90.
Definition MIN_FORCE_MATERIALIZE_PERCENTAGE : f64 := f64_of_Z 85.
Definition EMERGENCY_PERCENTAGE : f64 := f64_of_Z 95.
Definition DEFAULT_CACHE_TTL_MS : Z := 300000.
Definition EMERGENCY_DRAIN_EXIT_MARGIN : f64 := f64_of_Z 10.
Definition EMERGENCY_DRAIN_FALLBACK_EXIT_PERCENTAGE : f64 := f64_of_Z 55.
Definition EMERGENCY_DRAIN_FAILURE_BACKOFF_MS : Z := 60000.
Definition EMERGENCY_DRAIN_MAX_LATCH_MS : Z := 1800000.

(** ** Data *)
Inductive ExecuteThresholdConfig :=
| Percentage (value : f64)
| ByModel (values : list (string * f64)).

Record SchedulerConfig := mkConfig {
  execute_threshold_percentage : ExecuteThresholdConfig;
  execute_threshold_tokens : option (list (string * f64));
}.

Record ContextUsage := mkUsage {
  percentage : f64;
  input_tokens : f64;
  hard_wall_percentage : option f64;
}.

Record SessionMeta := mkMeta {
  last_response_time_ms : Z;
  cache_ttl : list Z;
}.

Inductive BaseDecision := BDefer | BExecute.

Record EscalationBands := mkBands {
  force_materialize_percentage : f64;
  emergency_percentage : f64;
}.

Inductive Band := Normal | Force85 | Emergency95.

Record TailState := mkTail { mid_tool_use : bool }.

Record BoundaryBypass := mkBypass { explicit_bust : bool; subagent : bool }.

Record DeferredExecute := mkDeferred { reason : string }.

Record LatchState := mkLatch { active_since_ms : option Z }.

Inductive ContextLimitProvenance := PromptOnly | Combined | UnknownProvenance.

(** What the scheduler reads of a detected overflow. *)
Record OverflowDetection := mkOverflow {
  is_overflow : bool;
  reported_limit : option Z;
  reported_limit_provenance : option ContextLimitProvenance;
}.

Record SchedulerInputs := mkInputs {
  si_config : SchedulerConfig;
  si_usage : ContextUsage;
  si_session : SessionMeta;
  si_now_ms : Z;
  si_model_key : option string;
  si_context_limit : option f64;
  si_tail_state : TailState;
  si_deferred_execute : option DeferredExecute;
  si_boundary_bypass : BoundaryBypass;
  si_drain_latch : LatchState;
  si_overflow_error_text : option string;
  si_emergency_recovery_armed : bool;
}.

Record SchedulerOutcome := mkOutcome {
  so_pass : PassDecision;
  so_pressure_execute : bool;
  so_idle_ttl_fired : bool;
  so_drain_latch : LatchState;
  so_deferred_execute : option DeferredExecute;
  so_detected_limit : option Z;
  so_detected_limit_provenance : option ContextLimitProvenance;
}.

#[global] Instance BaseDecision_eq_dec : EqDecision BaseDecision.
Proof. solve_decision. Defined.

(** ** Bands *)
Definition escalation_bands (effective_threshold_percentage : f64) : EscalationBands :=
  let threshold :=
    if f64_finite effective_threshold_percentage
    then f64_min effective_threshold_percentage MAX_EXECUTE_THRESHOLD_PERCENTAGE
    else DEFAULT_EXECUTE_THRESHOLD_PERCENTAGE in
  mkBands (f64_max MIN_FORCE_MATERIALIZE_PERCENTAGE (f64_add threshold (f64_of_Z 2))) EMERGENCY_PERCENTAGE.

Definition derive_band_with_hard_wall (usage_percentage hard_wall effective_threshold : f64) : Band :=
  let bands := escalation_bands effective_threshold in
  if f64_ge hard_wall (emergency_percentage bands) then Emergency95
  else if f64_ge usage_percentage (force_materialize_percentage bands) then Force85
  else Normal.

Definition derive_band (usage_percentage effective_threshold : f64) : Band :=
  derive_band_with_hard_wall usage_percentage usage_percentage effective_threshold.

(** ** Cache lifetimes *)

(** [char::is_whitespace]: the Unicode property White_Space. *)
Definition char_is_whitespace (c : Z) : bool :=
  ((9 <=? c) && (c <=? 13)) || (c =? 32) || (c =? 0x85) || (c =? 0xA0) || (c =? 0x1680) ||
  ((0x2000 <=? c) && (c <=? 0x200A)) || (c =? 0x2028) || (c =? 0x2029) || (c =? 0x202F) ||
  (c =? 0x205F) || (c =? 0x3000).

Fixpoint trim_start (s : list Z) : list Z :=
  match s with c :: rest => if char_is_whitespace c then trim_start rest else s | [] => [] end.

Definition trim (s : list Z) : list Z := reverse (trim_start (reverse (trim_start s))).

Definition to_ascii_lowercase (c : Z) : Z := if (65 <=? c) && (c <=? 90) then c + 32 else c.

(** [eq_ignore_ascii_case("never")]. *)
Definition is_never (s : list Z) : bool := bool_decide (map to_ascii_lowercase s = [110; 101; 118; 101; 114]).

Definition is_ascii_digit (c : Z) : bool := (48 <=? c) && (c <=? 57).

Definition digits_value (s : list Z) : Z := foldl (fun n c => 10 * n + (c - 48)) 0 s.

Definition unit_multiplier (c : Z) : option Z :=
  if c =? 115 then Some 1000
  else if c =? 109 then Some 60000
  else if c =? 104 then Some 3600000
  else None.

Definition parse_cache_ttl (ttl : list Z) : result unit Z :=
  let normalized := trim ttl in
  if is_never normalized then Ok u64_MAX
  else
    '(number, multiplier) ←
      (if negb (bool_decide (normalized = [])) && forallb is_ascii_digit normalized
       then Ok (normalized, 1)
       else match list.last normalized with
       | None => Err tt
       | Some unit_char =>
           multiplier ← ok_or (unit_multiplier unit_char) tt;
           Ok (take (length normalized - 1) normalized, multiplier)
       end);
    if bool_decide (number = []) || negb (forallb is_ascii_digit number) then Err tt
    else
      let milliseconds := f64_mul (f64_of_Z (digits_value number)) (f64_of_Z multiplier) in
      Ok (if negb (f64_finite milliseconds) || f64_ge milliseconds (f64_of_Z u64_MAX)
          then u64_MAX else f64_as_u64 milliseconds).

Definition scheduler_ttl_ms (ttl : list Z) : Z :=
  match parse_cache_ttl ttl with Ok ms => ms | Err _ => DEFAULT_CACHE_TTL_MS end.

Definition ttl_execute_fired (now_ms last ttl_ms : Z) : bool := ttl_ms <? saturating_sub now_ms last.

Definition ttl_hard_expired (now_ms last ttl_ms : Z) : bool :=
  (0 <? last) && (ttl_ms <? saturating_sub now_ms last).

(** ** Thresholds *)
Definition is_finite_positive (value : f64) : bool := f64_finite value && f64_gt value (S754_zero false).

(** The text before and after the first slash. *)
Fixpoint split_slash (s : string) : option (string * string) :=
  match s with
  | EmptyString => None
  | String c rest =>
      if bool_decide (c = Ascii.ascii_of_N 47) then Some (EmptyString, rest)
      else '(p, m) ← split_slash rest; Some (String c p, m)
  end.

(** [rfind('-')]. *)
Fixpoint last_dash (s : string) : option nat :=
  match s with
  | EmptyString => None
  | String c rest =>
      match last_dash rest with
      | Some i => Some (S i)
      | None => if bool_decide (c = Ascii.ascii_of_N 45) then Some O else None
      end
  end.

Fixpoint lookup_loop (fuel : nat) (provider model_id : string) : list string :=
  match fuel with
  | O => []
  | S fuel =>
      if bool_decide (model_id = EmptyString) then []
      else
        (if bool_decide (provider = EmptyString) then [] else [(provider +:+ "/" +:+ model_id)%string]) ++
        [model_id] ++
        match last_dash model_id with
        | None => []
        | Some O => []
        | Some i => lookup_loop fuel provider (String.substring 0 i model_id)
        end
  end.

Definition model_key_lookup_order (model_key : string) : list string :=
  let '(provider, model_id) := match split_slash model_key with Some pm => pm | None => (EmptyString, model_key) end in
  lookup_loop (String.length model_id) provider model_id.

(** The first candidate the map holds, else its default. *)
Definition resolve_match (values : list (string * f64)) (model_key : option string) : option f64 :=
  let candidates := match model_key with Some k => model_key_lookup_order k | None => [] end in
  match omap (fun k => btree_get k values) candidates with
  | v :: _ => Some v
  | [] => btree_get "default" values
  end.

Definition resolve_execute_threshold (config : ExecuteThresholdConfig) (model_key : option string)
  (fallback : f64) (tokens_config : option (list (string * f64))) (context_limit : option f64) : f64 :=
  let by_tokens :=
    tokens ← tokens_config; limit ← context_limit;
    (if is_finite_positive limit then
       token_value ← resolve_match tokens model_key;
       if is_finite_positive token_value then
         let cap := f64_mul limit (f64_div MAX_EXECUTE_THRESHOLD_PERCENTAGE (f64_of_Z 100)) in
         let effective_tokens := f64_min token_value cap in
         Some (f64_min (f64_mul (f64_div effective_tokens limit) (f64_of_Z 100)) MAX_EXECUTE_THRESHOLD_PERCENTAGE)
       else None
     else None) in
  match by_tokens with
  | Some p => p
  | None =>
      let resolved :=
        match config with
        | Percentage value => value
        | ByModel values => default fallback (resolve_match values model_key)
        end in
      let resolved := if negb (f64_finite resolved) || SFltb resolved (S754_zero false) then fallback else resolved in
      f64_min resolved MAX_EXECUTE_THRESHOLD_PERCENTAGE
  end.

(** The limit the usage implies when none is configured. *)
Definition effective_context_limit (context_limit : option f64) (usage : ContextUsage) : option f64 :=
  match context_limit with
  | Some l => Some l
  | None =>
      if f64_gt (percentage usage) (S754_zero false) && f64_gt (input_tokens usage) (S754_zero false)
      then Some (f64_div (input_tokens usage) (f64_div (percentage usage) (f64_of_Z 100)))
      else None
  end.

Definition should_execute (config : SchedulerConfig) (session : SessionMeta) (usage : ContextUsage)
  (now_ms : Z) (model_key : option string) (context_limit : option f64) : BaseDecision :=
  if SFeqb (percentage usage) (S754_zero false) && (last_response_time_ms session =? 0) then BDefer
  else
    let threshold :=
      resolve_execute_threshold (execute_threshold_percentage config) model_key
        DEFAULT_EXECUTE_THRESHOLD_PERCENTAGE (execute_threshold_tokens config)
        (effective_context_limit context_limit usage) in
    if f64_ge (percentage usage) threshold then BExecute
    else if ttl_execute_fired now_ms (last_response_time_ms session) (scheduler_ttl_ms (cache_ttl session))
    then BExecute else BDefer.

(** ** Deferral and the drain latch *)
Definition pending_execute : DeferredExecute := mkDeferred "execute-none".

Definition bypass_is_active (b : BoundaryBypass) : bool := explicit_bust b || subagent b.

Definition apply_boundary_deferral (decision : PassDecision) (tail_state : TailState)
  (pending : option DeferredExecute) (bypass : BoundaryBypass) : PassDecision * option DeferredExecute :=
  if bool_decide (decision = DDefer) then (DDefer, pending)
  else if is_force decision || bypass_is_active bypass then (decision, pending)
  else if mid_tool_use tail_state then (DDefer, Some (default pending_execute pending))
  else (decision, pending).

Definition drain_deferred_after_work (pending : option DeferredExecute) (work_succeeded : bool) : option DeferredExecute :=
  if work_succeeded then None else pending.

Definition emergency_drain_exit_threshold (execute_threshold : f64) : f64 :=
  if negb (f64_finite execute_threshold) || SFleb execute_threshold (S754_zero false)
  then EMERGENCY_DRAIN_FALLBACK_EXIT_PERCENTAGE
  else f64_max (f64_sub execute_threshold EMERGENCY_DRAIN_EXIT_MARGIN) (S754_zero false).

Definition latch_is_active (l : LatchState) : bool := bool_decide (is_Some (active_since_ms l)).

Definition advance_drain_latch (state : LatchState) (usage_percentage execute_threshold : f64) (now_ms : Z) : LatchState :=
  if f64_ge usage_percentage (force_materialize_percentage (escalation_bands execute_threshold))
  then mkLatch (match active_since_ms state with Some t => Some t | None => Some now_ms end)
  else match active_since_ms state with
  | None => state
  | Some since =>
      let expired := EMERGENCY_DRAIN_MAX_LATCH_MS <? saturating_sub now_ms since in
      let below_exit := SFltb usage_percentage (emergency_drain_exit_threshold execute_threshold) in
      if below_exit || expired then mkLatch None else state
  end.

Definition drain_bypass_allowed (latch : LatchState) (failure_at_ms now_ms : Z) : bool :=
  if negb (latch_is_active latch) then false
  else negb ((0 <? failure_at_ms) && (saturating_sub now_ms failure_at_ms <? EMERGENCY_DRAIN_FAILURE_BACKOFF_MS)).

(** ** The decision *)
Definition threshold_of (i : SchedulerInputs) : f64 :=
  resolve_execute_threshold (execute_threshold_percentage (si_config i)) (si_model_key i)
    DEFAULT_EXECUTE_THRESHOLD_PERCENTAGE (execute_threshold_tokens (si_config i))
    (effective_context_limit (si_context_limit i) (si_usage i)).

Definition decide (detect_overflow : string -> OverflowDetection) (i : SchedulerInputs) : SchedulerOutcome :=
  let threshold := threshold_of i in
  let ttl_ms := scheduler_ttl_ms (cache_ttl (si_session i)) in
  let idle_ttl_fired := ttl_hard_expired (si_now_ms i) (last_response_time_ms (si_session i)) ttl_ms in
  let base := should_execute (si_config i) (si_session i) (si_usage i) (si_now_ms i) (si_model_key i) (si_context_limit i) in
  let pressure_execute_requested :=
    f64_gt (percentage (si_usage i)) (S754_zero false) && f64_ge (percentage (si_usage i)) threshold in
  let pass :=
    if bool_decide (base = BExecute) || idle_ttl_fired || bool_decide (is_Some (si_deferred_execute i))
    then DExecute else DDefer in
  let pass :=
    match derive_band_with_hard_wall (percentage (si_usage i))
            (default (percentage (si_usage i)) (hard_wall_percentage (si_usage i))) threshold with
    | Emergency95 => DEmergency95
    | Force85 => DForce85
    | Normal => pass
    end in
  let pass := if si_emergency_recovery_armed i && bool_decide (pass = DDefer) then DEmergency95 else pass in
  let '(pass, deferred_execute) :=
    apply_boundary_deferral pass (si_tail_state i) (si_deferred_execute i) (si_boundary_bypass i) in
  let pressure_execute := pressure_execute_requested && negb (bool_decide (pass = DDefer)) in
  let drain_latch := advance_drain_latch (si_drain_latch i) (percentage (si_usage i)) threshold (si_now_ms i) in
  let overflow := d ← detect_overflow <$> si_overflow_error_text i; if is_overflow d then Some d else None in
  mkOutcome pass pressure_execute idle_ttl_fired drain_latch deferred_execute (overflow ≫= reported_limit)
    (overflow ≫= reported_limit_provenance).

(** ** What the daemon persists between passes (daemon/src/transform.rs)

    The deferred intent survives a deferred pass only; the latch always. *)
Record SchedulerMeta := mkSchedulerMeta {
  deferred_execute_state : option DeferredExecute;
  emergency_drain_active : bool;
  emergency_drain_entered_at_ms : Z;
}.

Definition latch_from_meta (meta : SchedulerMeta) : LatchState :=
  mkLatch (if emergency_drain_active meta then Some (Z.max (emergency_drain_entered_at_ms meta) 0) else None).

Definition apply_scheduler_meta (outcome : SchedulerOutcome) : SchedulerMeta :=
  mkSchedulerMeta
    (if bool_decide (so_pass outcome = DDefer) then so_deferred_execute outcome else None)
    (latch_is_active (so_drain_latch outcome))
    (default 0 (active_since_ms (so_drain_latch outcome))).

(** A pass reads the persisted intent and latch. *)
Definition with_meta (meta : SchedulerMeta) (i : SchedulerInputs) : SchedulerInputs :=
  mkInputs (si_config i) (si_usage i) (si_session i) (si_now_ms i) (si_model_key i) (si_context_limit i)
    (si_tail_state i) (deferred_execute_state meta) (si_boundary_bypass i) (latch_from_meta meta)
    (si_overflow_error_text i) (si_emergency_recovery_armed i).

(** A run of passes: their outcomes, each over what the one before it persisted. *)
Fixpoint schedule (detect_overflow : string -> OverflowDetection) (meta : SchedulerMeta)
  (inputs : list SchedulerInputs) : list SchedulerOutcome :=
  match inputs with
  | [] => []
  | i :: rest =>
      let outcome := decide detect_overflow (with_meta meta i) in
      outcome :: schedule detect_overflow (apply_scheduler_meta outcome) rest
  end.

(** ** Lemmas *)
Lemma f64_min_le a : SFcompare (f64_min a MAX_EXECUTE_THRESHOLD_PERCENTAGE) MAX_EXECUTE_THRESHOLD_PERCENTAGE <> Some Gt.
Proof.
  unfold f64_min. destruct (SFcompare a MAX_EXECUTE_THRESHOLD_PERCENTAGE) as [[]|] eqn:E; try congruence.
  - vm_compute. discriminate.
  - destruct (f64_is_nan a); [vm_compute; discriminate|congruence].
Qed.

(** The decision before the tail is looked at. *)
Definition requested_pass (i : SchedulerInputs) : PassDecision :=
  let pass :=
    if bool_decide (should_execute (si_config i) (si_session i) (si_usage i) (si_now_ms i) (si_model_key i)
                      (si_context_limit i) = BExecute) ||
       ttl_hard_expired (si_now_ms i) (last_response_time_ms (si_session i)) (scheduler_ttl_ms (cache_ttl (si_session i))) ||
       bool_decide (is_Some (si_deferred_execute i))
    then DExecute else DDefer in
  let pass :=
    match derive_band_with_hard_wall (percentage (si_usage i))
            (default (percentage (si_usage i)) (hard_wall_percentage (si_usage i))) (threshold_of i) with
    | Emergency95 => DEmergency95
    | Force85 => DForce85
    | Normal => pass
    end in
  if si_emergency_recovery_armed i && bool_decide (pass = DDefer) then DEmergency95 else pass.

Lemma decide_pass detect i :
  let out := apply_boundary_deferral (requested_pass i) (si_tail_state i) (si_deferred_execute i) (si_boundary_bypass i) in
  so_pass (decide detect i) = out.1 /\ so_deferred_execute (decide detect i) = out.2 /\
  so_drain_latch (decide detect i) =
    advance_drain_latch (si_drain_latch i) (percentage (si_usage i)) (threshold_of i) (si_now_ms i).
Proof.
  cbv zeta. unfold decide. fold (requested_pass i).
  destruct (apply_boundary_deferral (requested_pass i) _ _ _) as [pass deferred]. done.
Qed.







(** ** The emergency drain latch *)

(** The latch was armed by this pass. *)
Definition arms (i : SchedulerInputs) (since : Z) : Prop :=
  si_now_ms i = since /\
  f64_ge (percentage (si_usage i)) (force_materialize_percentage (escalation_bands (threshold_of i))) = true.

(** This pass kept a latch armed at [since]. *)
Definition keeps (since : Z) (i : SchedulerInputs) : Prop :=
  f64_ge (percentage (si_usage i)) (force_materialize_percentage (escalation_bands (threshold_of i))) = true \/
  (SFltb (percentage (si_usage i)) (emergency_drain_exit_threshold (threshold_of i)) = false /\
   saturating_sub (si_now_ms i) since <= EMERGENCY_DRAIN_MAX_LATCH_MS).

(** The passes so far account for the latch. *)
Definition justified (past : list SchedulerInputs) (latch : LatchState) : Prop :=
  match active_since_ms latch with
  | None => True
  | Some since => exists pre i post, past = pre ++ i :: post /\ arms i since /\ Forall (keeps since) post
  end.

Lemma advance_justified past latch i :
  justified past latch ->
  justified (past ++ [i]) (advance_drain_latch latch (percentage (si_usage i)) (threshold_of i) (si_now_ms i)).
Proof.
  unfold justified, advance_drain_latch. intros H.
  destruct (f64_ge _ _) eqn:Hge.
  - cbn [active_since_ms]. destruct (active_since_ms latch) as [since|].
    + destruct H as (pre & j & post & -> & Ha & Hk). exists pre, j, (post ++ [i]).
      rewrite <- app_assoc. split; [done|]. split; [done|]. apply Forall_app. split; [done|].
      apply Forall_singleton. by left.
    + exists past, i, []. by repeat split.
  - destruct (active_since_ms latch) as [since|] eqn:Es; [|by rewrite Es].
    destruct (SFltb _ _) eqn:Hlt; [done|].
    destruct (Z.ltb_spec EMERGENCY_DRAIN_MAX_LATCH_MS (saturating_sub (si_now_ms i) since)); [done|]. cbn [orb].
    rewrite Es. destruct H as (pre & j & post & -> & Ha & Hk). exists pre, j, (post ++ [i]).
    rewrite <- app_assoc. split; [done|]. split; [done|]. apply Forall_app. split; [done|].
    apply Forall_singleton. right. split; [done|lia].
Qed.

Lemma latch_persisted detect i :
  0 <= si_now_ms i -> (forall t, active_since_ms (si_drain_latch i) = Some t -> 0 <= t) ->
  latch_from_meta (apply_scheduler_meta (decide detect i)) = so_drain_latch (decide detect i) /\
  (forall t, active_since_ms (so_drain_latch (decide detect i)) = Some t -> 0 <= t).
Proof.
  intros Hn Hl. unfold latch_from_meta, apply_scheduler_meta. cbn [emergency_drain_active emergency_drain_entered_at_ms].
  destruct (decide_pass detect i) as (_ & _ & ->). set (latch := advance_drain_latch _ _ _ _).
  assert (forall t, active_since_ms latch = Some t -> 0 <= t) as Ht.
  { intros t. unfold latch, advance_drain_latch. destruct (f64_ge _ _).
    - cbn. destruct (active_since_ms (si_drain_latch i)) as [t'|]; intros [= <-]; [by apply Hl|done].
    - destruct (active_since_ms (si_drain_latch i)) as [t'|] eqn:E; [|by rewrite E].
      destruct (_ || _); [done|]. rewrite E. intros [= <-]. by apply Hl. }
  split; [|done]. clearbody latch. destruct latch as [[since|]]; [|done]. cbn.
  rewrite Z.max_l by by apply Ht. done.
Qed.

Lemma schedule_justified detect inputs : forall past meta,
  Forall (fun i => 0 <= si_now_ms i) inputs ->
  justified past (latch_from_meta meta) -> (emergency_drain_active meta = true -> 0 <= emergency_drain_entered_at_ms meta) ->
  forall k outcome, schedule detect meta inputs !! k = Some outcome ->
  justified (past ++ take (S k) inputs) (so_drain_latch outcome).
Proof.
  induction inputs as [|i inputs IH]; intros past meta Hn Hj Hm k outcome Hk; [by destruct k|].
  apply Forall_cons in Hn as [Hi Hn]. cbn [schedule] in Hk.
  set (i' := with_meta meta i) in *.
  assert (justified (past ++ [i]) (so_drain_latch (decide detect i'))) as Hj'.
  { destruct (decide_pass detect i') as (_ & _ & ->).
    exact (advance_justified past (latch_from_meta meta) i Hj). }
  destruct k as [|k]; [injection Hk as <-; exact Hj'|]. cbn [take].
  rewrite (cons_middle i), app_assoc. eapply IH; [done| | |exact Hk].
  - destruct (latch_persisted detect i') as [-> _]; [done| |exact Hj'].
    intros t. cbn. destruct (emergency_drain_active meta); [|done]. intros [= <-]. lia.
  - destruct (latch_persisted detect i') as [_ Ht]; [done| |].
    { intros t. cbn. destruct (emergency_drain_active meta); [|done]. intros [= <-]. lia. }
    cbn [apply_scheduler_meta emergency_drain_active emergency_drain_entered_at_ms]. intros _.
    destruct (active_since_ms (so_drain_latch (decide detect i'))) eqn:E; [by apply Ht|done].
Qed.

(** The emergency drain latch is active after a pass only for a reason on record: some pass at
    or before it reached the force band and armed it at that time, and every pass since either
    was in the force band too or stayed at or above the exit threshold within thirty minutes of
    the arming. So below the force band the latch never outlives thirty minutes, and it never
    survives a pass below the exit threshold. *)
Theorem drain_latch_justified detect inputs k outcome since :
  Forall (fun i => 0 <= si_now_ms i) inputs ->
  schedule detect (mkSchedulerMeta None false 0) inputs !! k = Some outcome ->
  active_since_ms (so_drain_latch outcome) = Some since ->
  exists pre i post, take (S k) inputs = pre ++ i :: post /\ arms i since /\ Forall (keeps since) post.
Proof.
  intros Hn Hk Hs. pose proof (schedule_justified detect inputs [] (mkSchedulerMeta None false 0) Hn I ltac:(done) k outcome Hk) as H.
  unfold justified in H. by rewrite Hs in H.
Qed.

(** ** Candidates of a model key *)

(** More fuel than the length of the model id changes nothing. *)
Lemma last_dash_lt s i : last_dash s = Some i -> (i < String.length s)%nat.
Proof.
  revert i. induction s as [|c s IH]; intros i; [done|]. cbn [last_dash String.length].
  destruct (last_dash s) as [j|]; [intros [= <-]; specialize (IH j eq_refl); lia|].
  case_bool_decide; [intros [= <-]; lia|done].
Qed.

Lemma length_substring_prefix i s : (i <= String.length s)%nat -> String.length (String.substring 0 i s) = i.
Proof.
  revert s. induction i as [|i IH]; intros [|c s] H; cbn in *; [done|done|lia|]. f_equal. apply IH. lia.
Qed.

Lemma lookup_loop_enough provider fuel fuel' model_id :
  (String.length model_id <= fuel)%nat -> (fuel <= fuel')%nat ->
  lookup_loop fuel' provider model_id = lookup_loop fuel provider model_id.
Proof.
  revert fuel' model_id. induction fuel as [|fuel IH]; intros fuel' model_id Hl Hf.
  - destruct model_id; [|cbn in Hl; lia]. by destruct fuel'.
  - destruct fuel' as [|fuel']; [lia|]. cbn [lookup_loop]. case_bool_decide; [done|]. do 2 f_equal.
    destruct (last_dash model_id) as [[|i]|] eqn:E; [done| |done]. apply last_dash_lt in E.
    apply IH; [|lia]. rewrite length_substring_prefix; lia.
Qed.

(** ** Sample sessions *)
Definition no_overflow (_ : string) : OverflowDetection := mkOverflow false None None.

Definition sample_inputs (usage : Z) (now : Z) (in_tool_call : bool) : SchedulerInputs :=
  mkInputs (mkConfig (Percentage (f64_of_Z 65)) None) (mkUsage (f64_of_Z usage) (f64_of_Z 1000) None)
    (mkMeta now [53; 109]) now None (Some (f64_of_Z 100000)) (mkTail in_tool_call) None (mkBypass false false)
    (mkLatch None) None false.


Example deferred_in_tool_call :
  so_deferred_execute (decide no_overflow (sample_inputs 70 1000 true)) = Some pending_execute /\
  so_pass (decide no_overflow (sample_inputs 70 1000 true)) = DDefer /\
  so_pass (decide no_overflow (sample_inputs 70 1000 false)) = DExecute /\
  so_pass (decide no_overflow (sample_inputs 88 1000 true)) = DForce85 /\
  so_pass (decide no_overflow (sample_inputs 96 1000 true)) = DEmergency95.
Proof. vm_compute. repeat split. Qed.

Definition latch_run (inputs : list SchedulerInputs) : list (option Z) :=
  map (fun o => active_since_ms (so_drain_latch o)) (schedule no_overflow (mkSchedulerMeta None false 0) inputs).

Lemma drain_latch_justified_witness :
  exists pre i post, take 2 [sample_inputs 88 1000 false; sample_inputs 70 2000 false] = pre ++ i :: post /\
    arms i 1000 /\ Forall (keeps 1000) post.
Proof.
  destruct (schedule no_overflow (mkSchedulerMeta None false 0) [sample_inputs 88 1000 false; sample_inputs 70 2000 false] !! 1%nat)
    as [outcome|] eqn:E; [|discriminate E].
  apply (drain_latch_justified no_overflow [sample_inputs 88 1000 false; sample_inputs 70 2000 false] 1%nat outcome 1000);
    [repeat constructor; discriminate|exact E|].
  vm_compute in E. injection E as <-. reflexivity.
Defined.

(** Re-entering the force band does not restart the thirty minutes: armed at 1 s and in the band
    again 29 minutes later, the latch is gone two minutes after that. *)
Example reentry_does_not_renew_latch :
  latch_run [sample_inputs 88 1000 false; sample_inputs 88 1741000 false; sample_inputs 70 1861000 false] =
    [Some 1000; Some 1000; None].
Proof. vm_compute. reflexivity. Qed.

(** ["5m"], [" 30s "], ["Never"], [""] and ["5d"]. *)
Example cache_ttls :
  parse_cache_ttl [53; 109] = Ok 300000 /\ parse_cache_ttl [32; 51; 48; 115; 32] = Ok 30000 /\
  parse_cache_ttl [78; 101; 118; 101; 114] = Ok u64_MAX /\ parse_cache_ttl [] = Err tt /\
  parse_cache_ttl [53; 100] = Err tt.
Proof. vm_compute. repeat split. Qed.

Example lookup_order :
  model_key_lookup_order "anthropic/claude-opus-4" =
    ["anthropic/claude-opus-4"; "claude-opus-4"; "anthropic/claude-opus"; "claude-opus"; "anthropic/claude"; "claude"]%string.
Proof. vm_compute. reflexivity. Qed.

End Scheduler.
