(* ===== verification/TokenCache.v ===== *)
(** * TokenCache: the shared token-count cache (daemon/src/token_cache.rs)

    Two generations of counts keyed by digests, behind one lock. A call locks twice: to look
    up, and after counting outside the lock to insert; other threads may run between the two,
    so the second section starts from a cache of its own. Counters are those of the calling
    thread. The hash is a parameter; the tokenizer is the interface [TokenEstimator], which
    the modelled tokenizer implements. *)
From S2P Require Import Prelude Vocab Bpe Unicode Scan Tokenizer Paragraph.
From stdpp Require Import gmap.

#[local] Open Scope Z_scope.

Module TokenCache.

(** ** The tokenizer, as the cache sees it *)
Class TokenEstimator := {
  valid_text : list Z -> Prop;
  estimate : list Z -> Z;
  text_spans : list Z -> list (list Z);
}.

(** What the cache relies on: counts are not negative, and a text counts as its paragraphs plus
    a newline between two of them. *)
Class EstimatorLaws `{TokenEstimator} : Prop := {
  estimate_nonneg : forall c, valid_text c -> 0 <= estimate c;
  spans_valid : forall c, valid_text c -> Forall valid_text (text_spans c);
  spans_estimate : forall c, valid_text c ->
    estimate c = zsum (map estimate (text_spans c)) + (Z.of_nat (length (text_spans c)) - 1) * estimate [10];
}.

Definition digest : Type := list Z.

Definition GENERATION_CAP : nat := Z.to_nat 65536.
Definition MIN_CACHED_LEN : nat := 64.
Definition PARAGRAPH_CACHED_LEN : nat := Z.to_nat 4096.
Definition PARAGRAPH_MAX_SPANS : nat := Z.to_nat 8192.

Record Generations := mkGenerations {
  current : gmap digest Z;
  previous : gmap digest Z;
}.

Definition generations_default : Generations := mkGenerations ∅ ∅.

Record TokenCacheStats := mkStats {
  hits : Z;
  misses : Z;
  bypassed : Z;
  calls : Z;
  tokenized_bytes : Z;
}.

Definition bump (h m b c t : Z) (s : TokenCacheStats) : TokenCacheStats :=
  mkStats (hits s + h) (misses s + m) (bypassed s + b) (calls s + c) (tokenized_bytes s + t).

(** ** Operations *)
Definition insert_current (g : Generations) (k : digest) (count : Z) : Generations :=
  let g := if (GENERATION_CAP <=? size (current g))%nat then mkGenerations ∅ (current g) else g in
  mkGenerations (<[k := count]> (current g)) (previous g).

Definition lookup_count (g : Generations) (k : digest) : option Z * Generations :=
  match current g !! k with
  | Some count => (Some count, g)
  | None =>
      match previous g !! k with
      | Some count => (Some count, insert_current g k count)
      | None => (None, g)
      end
  end.

Section Cache.
Context (sha256 : list Z -> digest).
Context (revision_key : digest).
Context `{TokenEstimator}.

Definition cache_key (content_digest : digest) : digest := sha256 (revision_key ++ content_digest).
Definition raw_key (content : list Z) : digest := sha256 (revision_key ++ [0] ++ content).

(** A call returns the count, the cache it leaves and the counters; [env] is the cache it finds
    when it locks again to insert. *)
Definition count_missed (env : Generations) (k : digest) (content : list Z) (s : TokenCacheStats)
  : Z * Generations * TokenCacheStats :=
  let s := bump 0 1 0 0 (Z.of_nat (length content)) s in
  let count := estimate content in
  match try_u32 count with
  | None => (count, env, s)
  | Some cached => (count, insert_current env k cached, s)
  end.

Definition count_keyed (g env : Generations) (k : digest) (content : list Z) (s : TokenCacheStats)
  : Z * Generations * TokenCacheStats :=
  let s := bump 0 0 0 1 0 s in
  match lookup_count g k with
  | (Some count, g) => (count, g, bump 1 0 0 0 0 s)
  | (None, _) => count_missed env k content s
  end.

Definition count_under (g env : Generations) (content_digest : digest) (content : list Z) (s : TokenCacheStats) :=
  count_keyed g env (cache_key content_digest) content s.

Definition cached_count_under (g env : Generations) (content : list Z) (s : TokenCacheStats)
  : Z * Generations * TokenCacheStats :=
  if (length content <? MIN_CACHED_LEN)%nat
  then (estimate content, g, bump 0 0 1 1 (Z.of_nat (length content)) s)
  else count_keyed g env (raw_key content) content s.

(** The span lookups of one locked section. *)
Fixpoint lookup_spans (g : Generations) (keys : list (option digest)) : list (option Z) * Generations :=
  match keys with
  | [] => ([], g)
  | k :: rest =>
      let '(count, g) := match k with Some k => lookup_count g k | None => (None, g) end in
      let '(counts, g) := lookup_spans g rest in
      (count :: counts, g)
  end.

(** The loop over spans, keys and counts: total, tokenized bytes and entries to insert. *)
Fixpoint sum_spans (spans : list (list Z)) (keys : list (option digest)) (counts : list (option Z))
  (total bytes : Z) (missed : list (digest * Z)) : Z * Z * list (digest * Z) :=
  match spans, keys, counts with
  | span :: spans, k :: keys, count :: counts =>
      match count with
      | Some count => sum_spans spans keys counts (total + count) bytes missed
      | None =>
          let count := estimate span in
          let missed := match k, try_u32 count with Some k, Some count => missed ++ [(k, count)] | _, _ => missed end in
          sum_spans spans keys counts (total + count) (bytes + Z.of_nat (length span)) missed
      end
  | _, _, _ => (total, bytes, missed)
  end.

Definition insert_all (g : Generations) (entries : list (digest * Z)) : Generations :=
  foldl (fun g e => insert_current g e.1 e.2) g entries.

Definition cached_paragraph_count (g mid env : Generations) (content : list Z) (s : TokenCacheStats)
  : Z * Generations * TokenCacheStats :=
  let whole := raw_key content in
  let s := bump 0 0 0 1 0 s in
  match lookup_count g whole with
  | (Some count, g) => (count, g, bump 1 0 0 0 0 s)
  | (None, _) =>
      let spans := take (PARAGRAPH_MAX_SPANS + 1) (text_spans content) in
      if negb ((2 <=? length spans)%nat && (length spans <=? PARAGRAPH_MAX_SPANS)%nat)
      then count_missed env whole content s
      else
        let keys := map (fun span => if (MIN_CACHED_LEN <=? length span)%nat then Some (raw_key span) else None) spans in
        let '(counts, _) := lookup_spans mid keys in
        let total := (Z.of_nat (length spans) - 1) * estimate [10] in
        let '(total, tokenized_bytes, missed) := sum_spans spans keys counts total 0 [] in
        let s := if tokenized_bytes =? 0 then bump 1 0 0 0 tokenized_bytes s else bump 0 1 0 0 tokenized_bytes s in
        let missed := match try_u32 total with Some count => missed ++ [(whole, count)] | None => missed end in
        (total, insert_all env missed, s)
  end.

Definition cached_estimate_tokens (g mid env : Generations) (content : list Z) (s : TokenCacheStats)
  : Z * Generations * TokenCacheStats :=
  if (PARAGRAPH_CACHED_LEN <=? length content)%nat then cached_paragraph_count g mid env content s
  else cached_count_under g env content s.

End Cache.

(** ** Exactness *)
Section Exact.
Context (sha256 : list Z -> digest).
Context (revision_key : digest).
Context `{EstimatorLaws}.

(** The messages hashed so far, none of which collide, and the contents callers bind to digests. *)
Context (hashed : list Z -> Prop).
Context (binds : digest -> list Z -> Prop).
Hypothesis no_collision : forall x y, hashed x -> hashed y -> sha256 x = sha256 y -> x = y.
Hypothesis binds_unique : forall d c c', binds d c -> binds d c' -> c = c'.

Definition raw_message (content : list Z) : list Z := revision_key ++ [0] ++ content.
Definition digest_message (d : digest) : list Z := revision_key ++ d.

(** A message stands for a count: the count of its raw content, or of the content its digest is
    bound to. *)
Definition stands_for (x : list Z) (n : Z) : Prop :=
  (exists c, x = raw_message c /\ (MIN_CACHED_LEN <= length c)%nat /\ n = estimate c) \/
  (exists d c, x = digest_message d /\ length d = 32%nat /\ binds d c /\ n = estimate c).

Definition true_entry (k : digest) (n : Z) : Prop := exists x, hashed x /\ sha256 x = k /\ stands_for x n.

Definition sound (g : Generations) : Prop :=
  map_Forall true_entry (current g) /\ map_Forall true_entry (previous g).

Definition within_cap (g : Generations) : Prop :=
  (size (current g) <= GENERATION_CAP)%nat /\ (size (previous g) <= GENERATION_CAP)%nat.

Definition good (g : Generations) : Prop := sound g /\ within_cap g.

#[local] Notation raw_key := (raw_key sha256 revision_key).
#[local] Notation cache_key := (cache_key sha256 revision_key).

Lemma stands_for_raw c n :
  (MIN_CACHED_LEN <= length c)%nat -> stands_for (raw_message c) n -> n = estimate c.
Proof.
  intros Hc [(c' & E & _ & ->)|(d & c' & E & Hd & _ & _)].
  - unfold raw_message in E. simplify_list_eq. done.
  - exfalso. unfold raw_message, digest_message in E. apply app_inv_head in E. subst d.
    cbn in Hd. unfold MIN_CACHED_LEN in Hc. lia.
Qed.

Lemma stands_for_digest d c n : length d = 32%nat -> binds d c -> stands_for (digest_message d) n -> n = estimate c.
Proof.
  intros Hd Hb [(c' & E & Hc & _)|(d' & c' & E & _ & Hb' & ->)].
  - exfalso. unfold raw_message, digest_message in E. apply app_inv_head in E. subst d.
    cbn in Hd. unfold MIN_CACHED_LEN in Hc. lia.
  - unfold digest_message in E. apply app_inv_head in E. subst d'. by rewrite (binds_unique d c c').
Qed.

Lemma true_entry_exact x n : hashed x -> true_entry (sha256 x) n -> stands_for x n.
Proof. intros Hx (y & Hy & E & Hs). by rewrite (no_collision x y). Qed.

Lemma insert_good g k n : good g -> true_entry k n -> good (insert_current g k n).
Proof.
  intros [[Hc Hp] [Hsc Hsp]] Hk. unfold insert_current. destruct (Nat.leb_spec GENERATION_CAP (size (current g))) as [Hf|Hf].
  - split; split; cbn [current previous].
    + apply map_Forall_insert_2; [done|]. apply map_Forall_empty.
    + done.
    + rewrite map_size_insert_None by apply lookup_empty. rewrite map_size_empty. unfold GENERATION_CAP. lia.
    + done.
  - split; split; cbn [current previous]; [by apply map_Forall_insert_2|done| |done].
    rewrite map_size_insert. destruct (current g !! k); unfold id; lia.
Qed.

Lemma lookup_good g k :
  good g -> good (lookup_count g k).2 /\ (forall n, (lookup_count g k).1 = Some n -> true_entry k n).
Proof.
  intros Hg. pose proof Hg as [[Hc Hp] _]. unfold lookup_count.
  destruct (current g !! k) as [n|] eqn:E; [split; [done|]; intros ? [= <-]; by apply (Hc k)|].
  destruct (previous g !! k) as [n|] eqn:E'; [|done]. assert (true_entry k n) by by apply (Hp k).
  split; [by apply insert_good|]. by intros ? [= <-].
Qed.

Lemma lookup_raw g c n :
  good g -> hashed (raw_message c) -> (MIN_CACHED_LEN <= length c)%nat ->
  (lookup_count g (raw_key c)).1 = Some n -> n = estimate c.
Proof.
  intros Hg Hh Hc Hl. apply stands_for_raw; [done|]. apply true_entry_exact; [done|].
  by apply (lookup_good g (raw_key c) Hg).
Qed.

Lemma raw_entry c : hashed (raw_message c) -> (MIN_CACHED_LEN <= length c)%nat -> true_entry (raw_key c) (estimate c).
Proof. intros Hh Hc. exists (raw_message c). split; [done|]. split; [done|]. left. by exists c. Qed.

(** The counters of a thread account for every call. *)
Definition accounted (s s' : TokenCacheStats) : Prop :=
  calls s' = calls s + 1 /\
  hits s' + misses s' + bypassed s' = hits s + misses s + bypassed s + 1.

(** The outcome of one call that counts [content]. *)
Definition exact_call (content : list Z) (s : TokenCacheStats) (out : Z * Generations * TokenCacheStats) : Prop :=
  out.1.1 = estimate content /\ good out.1.2 /\ accounted s out.2.

Lemma count_missed_exact env k content s0 s :
  good env -> true_entry k (estimate content) -> s = bump 0 0 0 1 0 s0 ->
  exact_call content s0 (count_missed env k content s).
Proof.
  intros He Hk ->. unfold count_missed. destruct (try_u32 (estimate content)) as [n|] eqn:E.
  - apply try_u32_Some in E as [-> _]. split; [done|]. split; [by apply insert_good|]. split; cbn; lia.
  - split; [done|]. split; [done|]. split; cbn; lia.
Qed.

Lemma count_keyed_exact g env k content s :
  good g -> good env -> true_entry k (estimate content) -> (forall n, true_entry k n -> n = estimate content) ->
  exact_call content s (count_keyed g env k content s).
Proof.
  intros Hg He Hk Hu. unfold count_keyed. pose proof (lookup_good g k Hg) as [Hg' Hn].
  destruct (lookup_count g k) as [[n|] g']; cbn [fst snd] in *.
  - split; [cbn; by apply Hu, Hn|]. split; [done|]. split; cbn; lia.
  - by eapply count_missed_exact.
Qed.

Lemma cached_count_exact g env content s :
  good g -> good env -> ((MIN_CACHED_LEN <= length content)%nat -> hashed (raw_message content)) ->
  exact_call content s (cached_count_under sha256 revision_key g env content s).
Proof.
  intros Hg He Hh. unfold cached_count_under. destruct (Nat.ltb_spec (length content) MIN_CACHED_LEN) as [Hl|Hl].
  - split; [done|]. split; [done|]. split; cbn; lia.
  - specialize (Hh Hl). apply count_keyed_exact; [done|done|by apply raw_entry|].
    intros n Hn. apply stands_for_raw; [done|]. by apply true_entry_exact.
Qed.

(** The messages a call hashes. *)
Definition hashes (content : list Z) : Prop :=
  ((MIN_CACHED_LEN <= length content)%nat -> hashed (raw_message content)) /\
  Forall (fun span => (MIN_CACHED_LEN <= length span)%nat -> hashed (raw_message span)) (text_spans content).

Definition span_key (span : list Z) : option digest :=
  if (MIN_CACHED_LEN <=? length span)%nat then Some (raw_key span) else None.

Lemma lookup_spans_exact spans : forall g,
  good g -> Forall (fun span => (MIN_CACHED_LEN <= length span)%nat -> hashed (raw_message span)) spans ->
  Forall2 (fun span count => forall n, count = Some n -> n = estimate span) spans
    (lookup_spans g (map span_key spans)).1.
Proof.
  induction spans as [|span spans IH]; intros g Hg Hall; [constructor|].
  apply Forall_cons in Hall as [Hs Hall]. cbn [map lookup_spans]. unfold span_key at 1.
  destruct (Nat.leb_spec MIN_CACHED_LEN (length span)) as [Hl|Hl].
  - pose proof (lookup_good g (raw_key span) Hg) as [Hg' _].
    pose proof (fun n => lookup_raw g span n Hg (Hs Hl) Hl) as Hn.
    destruct (lookup_count g (raw_key span)) as [count g']. cbn [fst snd] in *. specialize (IH g' Hg' Hall).
    destruct (lookup_spans g' (map span_key spans)) as [counts g'']. constructor; [exact Hn|exact IH].
  - specialize (IH g Hg Hall). destruct (lookup_spans g (map span_key spans)) as [counts g''].
    by constructor.
Qed.

Lemma sum_spans_exact spans counts :
  Forall2 (fun span count => forall n, count = Some n -> n = estimate span) spans counts ->
  Forall (fun span => (MIN_CACHED_LEN <= length span)%nat -> hashed (raw_message span)) spans ->
  forall total bytes missed, Forall (fun e => true_entry e.1 e.2) missed ->
  let out := sum_spans spans (map span_key spans) counts total bytes missed in
  out.1.1 = total + zsum (map estimate spans) /\ Forall (fun e => true_entry e.1 e.2) out.2.
Proof.
  induction 1 as [|span count spans counts Hc Hcs IH]; intros Hall total bytes missed Hm; cbv zeta.
  - cbn. split; [lia|done].
  - apply Forall_cons in Hall as [Hs Hall]. cbn [map sum_spans zsum foldr]. destruct count as [n|].
    + destruct (IH Hall (total + n) bytes missed Hm) as [E ?]. split; [|done].
      rewrite E, (Hc n eq_refl). unfold zsum. lia.
    + set (missed' := match span_key span with Some _ => _ | None => _ end).
      destruct (IH Hall (total + estimate span) (bytes + Z.of_nat (length span)) missed') as [E ?].
      { unfold missed', span_key. destruct (Nat.leb_spec MIN_CACHED_LEN (length span)) as [Hl|]; [|done].
        destruct (try_u32 (estimate span)) as [c|] eqn:Ec; [|done]. apply try_u32_Some in Ec as [-> _].
        apply Forall_app. split; [done|]. apply Forall_singleton. cbn. by apply raw_entry; [apply Hs|]. }
      split; [|done]. rewrite E. unfold zsum. lia.
Qed.

Lemma insert_all_good entries : forall g, good g -> Forall (fun e => true_entry e.1 e.2) entries -> good (insert_all g entries).
Proof.
  unfold insert_all. induction entries as [|e entries IH]; intros g Hg Hall; [done|].
  apply Forall_cons in Hall as [He Hall]. cbn [foldl]. apply IH; [by apply insert_good|done].
Qed.

Lemma paragraph_count_exact g mid env content s :
  good g -> good mid -> good env -> valid_text content -> (PARAGRAPH_CACHED_LEN <= length content)%nat -> hashes content ->
  exact_call content s (cached_paragraph_count sha256 revision_key g mid env content s).
Proof.
  intros Hg Hm He Hv Hlong [Hh Hspans].
  assert (MIN_CACHED_LEN <= length content)%nat as Hl by (unfold MIN_CACHED_LEN, PARAGRAPH_CACHED_LEN in *; lia).
  specialize (Hh Hl). pose proof (raw_entry content Hh Hl) as Hwhole. unfold cached_paragraph_count.
  pose proof (lookup_good g (raw_key content) Hg) as [Hg' _]. pose proof (fun n => lookup_raw g content n Hg Hh Hl) as Hn.
  destruct (lookup_count g (raw_key content)) as [[n|] g']; cbn [fst snd] in *.
  { split; [by apply Hn|]. split; [done|]. split; cbn; lia. }
  set (spans := take (PARAGRAPH_MAX_SPANS + 1) (text_spans content)).
  destruct (Nat.leb_spec 2 (length spans)) as [H2|]; [|by eapply count_missed_exact].
  destruct (Nat.leb_spec (length spans) PARAGRAPH_MAX_SPANS) as [Hmax|]; [|by eapply count_missed_exact]. cbn [andb negb].
  assert (spans = text_spans content) as Esp.
  { unfold spans. apply take_ge. unfold spans in Hmax. rewrite length_take in Hmax. lia. }
  assert (Forall (fun span => (MIN_CACHED_LEN <= length span)%nat -> hashed (raw_message span)) spans) as Hall by by rewrite Esp.
  fold span_key. change (fun span => if (MIN_CACHED_LEN <=? length span)%nat then Some (raw_key span) else None) with span_key.
  pose proof (lookup_spans_exact spans mid Hm Hall) as Hc.
  destruct (lookup_spans mid (map span_key spans)) as [counts mid']. cbn [fst] in Hc.
  pose proof (sum_spans_exact spans counts Hc Hall ((Z.of_nat (length spans) - 1) * estimate [10]) 0 [] ltac:(constructor)) as [Ht Hmiss].
  destruct (sum_spans spans (map span_key spans) counts _ 0 []) as [[total bytes] missed]. cbn [fst snd] in *.
  assert (total = estimate content) as ->.
  { rewrite Ht, (spans_estimate content Hv), <- Esp. lia. }
  split; [done|]. split.
  - cbn [fst snd]. apply insert_all_good; [done|]. destruct (try_u32 (estimate content)) as [c|] eqn:Ec; [|done].
    apply try_u32_Some in Ec as [-> _]. apply Forall_app. split; [done|]. by apply Forall_singleton.
  - cbn [snd]. destruct (bytes =? 0); split; cbn; lia.
Qed.

Lemma cached_estimate_exact g mid env content s :
  good g -> good mid -> good env -> valid_text content -> hashes content ->
  exact_call content s (cached_estimate_tokens sha256 revision_key g mid env content s).
Proof.
  intros Hg Hm He Hv Hh. unfold cached_estimate_tokens.
  destruct (Nat.leb_spec PARAGRAPH_CACHED_LEN (length content)); [by apply paragraph_count_exact|].
  apply cached_count_exact; [done|done|apply Hh].
Qed.

Lemma count_under_exact g env d content s :
  good g -> good env -> length d = 32%nat -> binds d content -> hashed (digest_message d) ->
  exact_call content s (count_under sha256 revision_key g env d content s).
Proof.
  intros Hg He Hd Hb Hh. apply count_keyed_exact; [done|done| |].
  - exists (digest_message d). split; [done|]. split; [done|]. right. by exists d, content.
  - intros n Hn. apply (stands_for_digest d); [done|done|]. by apply true_entry_exact.
Qed.

End Exact.

(** ** The modelled tokenizer implements the interface *)
Definition tokenizer_estimator (v : Vocab) : TokenEstimator := {|
  valid_text c := exists cs, Forall scalar cs /\ c = encode_utf8 cs;
  estimate c := Z.of_nat (default 0%nat (estimate_tokens v c));
  text_spans c := default [] (paragraph_spans c);
|}.

Lemma zsum_counts v ps counts :
  mapM (estimate_tokens v) ps = Some counts ->
  zsum (map (fun c => Z.of_nat (default 0%nat (estimate_tokens v c))) ps) = Z.of_nat (sum_list counts).
Proof.
  intros Hm%mapM_Some. induction Hm as [|p n ps counts Hp Hps IH]; [done|].
  cbn [map zsum foldr]. rewrite Hp. change (default 0%nat (Some n)) with n. unfold zsum in IH. rewrite IH.
  change (sum_list (n :: counts)) with (n + sum_list counts)%nat. lia.
Qed.

#[global] Instance tokenizer_laws tokens v :
  mergeable tokens -> from_blob (blob_of tokens) = Some v -> EstimatorLaws (H := tokenizer_estimator v).
Proof.
  intros Htok Hblob. split; unfold estimate, text_spans, valid_text; cbn [tokenizer_estimator].
  - intros c _. lia.
  - intros c (cs & Hs & ->).
    destruct (paragraphs_counted tokens v cs Htok Hblob Hs) as (ps & counts & nl & -> & _ & Hps & _). change (default [] (Some ?l)) with l.
    rewrite Forall_fmap. eapply Forall_impl; [exact Hps|]. intros p Hp. by exists p.
  - intros c (cs & Hs & ->).
    destruct (paragraphs_counted tokens v cs Htok Hblob Hs) as (ps & counts & nl & Hsp & Hne & _ & _ & _ & Hm & Hnl & Hall).
    rewrite Hsp, Hall, Hnl. change (default [] (Some ?l)) with l. cbn [default from_option id]. rewrite (zsum_counts v _ counts Hm), length_fmap.
    destruct ps; [done|]. cbn [length]. lia.
Qed.

(** Counting through the cache gives the tokenizer's own count, on every path: short texts,
    cached and uncached ones, and long texts assembled from the cached counts of their
    paragraphs. Whatever other threads did to the cache between a call's locked sections, as long
    as they too only stored true counts, and as long as no two hashed messages collide, the
    result is exact, every stored entry is again a true count, neither generation exceeds its cap,
    and the thread's counters account for the call. *)
Theorem cached_counts_exact tokens v sha256 revision_key hashed binds g mid env cs s :
  mergeable tokens -> from_blob (blob_of tokens) = Some v ->
  (forall x y, hashed x -> hashed y -> sha256 x = sha256 y -> x = y) ->
  (forall d c c', binds d c -> binds d c' -> c = c') ->
  let est := tokenizer_estimator v in
  good sha256 revision_key hashed binds g -> good sha256 revision_key hashed binds mid ->
  good sha256 revision_key hashed binds env ->
  Forall scalar cs -> hashes revision_key hashed (encode_utf8 cs) ->
  let '(n, g', s') := cached_estimate_tokens sha256 revision_key g mid env (encode_utf8 cs) s in
  estimate_tokens v (encode_utf8 cs) = Some (Z.to_nat n) /\ good sha256 revision_key hashed binds g' /\ accounted s s'.
Proof.
  intros Htok Hblob Hinj Hb est Hg Hm He Hs Hh.
  pose proof (tokenizer_laws tokens v Htok Hblob) as Hlaws.
  pose proof (cached_estimate_exact sha256 revision_key hashed binds Hinj g mid env (encode_utf8 cs) s Hg Hm He) as Hx.
  specialize (Hx (ex_intro _ cs (conj Hs eq_refl)) Hh).
  destruct (cached_estimate_tokens sha256 revision_key g mid env (encode_utf8 cs) s) as [[n g'] s'].
  destruct Hx as (Hn & Hg' & Ha). split; [|done]. cbn in Hn. rewrite Hn, Nat2Z.id.
  rewrite (estimate_text tokens v cs Htok Hblob Hs). done.
Qed.

Lemma default_good `{TokenEstimator} sha256 revision_key hashed binds :
  good sha256 revision_key hashed binds generations_default.
Proof. split; split; cbn; [apply map_Forall_empty|apply map_Forall_empty|rewrite map_size_empty; lia..]. Qed.

(** An empty cache, a hash without collisions, a text of seventy bytes. *)
Lemma cached_counts_exact_witness :
  exists v, from_blob (blob_of sample_tokens) = Some v /\
    let est := tokenizer_estimator v in
    let '(n, _, _) := cached_estimate_tokens (fun x => x) [] generations_default generations_default generations_default
      (encode_utf8 (replicate 70 97)) (mkStats 0 0 0 0 0) in
    estimate_tokens v (encode_utf8 (replicate 70 97)) = Some (Z.to_nat n).
Proof.
  destruct (from_blob_ok sample_tokens sample_tokens_ok) as (v & Hv & _). exists v. split; [exact Hv|].
  pose proof (cached_counts_exact sample_tokens v (fun x => x) [] (fun _ => True) (fun _ _ => False)
    generations_default generations_default generations_default (replicate 70 97) (mkStats 0 0 0 0 0)
    sample_tokens_mergeable Hv) as H. cbv zeta in H.
  cbv zeta. destruct (cached_estimate_tokens _ _ _ _ _ _ _) as [[n g'] s'].
  apply H; [auto|intros; contradiction|apply default_good|apply default_good|apply default_good| |].
  - apply Forall_replicate. left. lia.
  - split; [auto|]. apply list.Forall_forall. auto.
Defined.

End TokenCache.
