(* ===== verification/WindowCoverage.v ===== *)
(** * WindowCoverage: what a declared anchor means for a submitted window
    (daemon/src/window_coverage.rs)

    The store's answers for one pass are the fields of a [CoverageSnapshot]; resolving a window
    against it and numbering its messages is a pure computation. Ids are strings of bytes. *)
From Stdlib Require Import Sorted.
From S2P Require Import Prelude BTree CanonicalJson.
From stdpp Require Import strings.

#[local] Open Scope Z_scope.

Module Window.

(** ** Data *)
Record WindowMessage := mkWindowMessage { wm_mid : string; synthetic : bool }.

Record DeclaredAnchor := mkDeclared { da_mid : string; da_sequence : Z }.

Inductive Resolution :=
| RNormal
| StaleSlice (cut : nat)
| Revert (keep_through_seq : option Z)
| RUnknown
| FirstPass.

Record HistorySegmentEdge := mkEdge {
  edge_sequence : Z;
  start_message : Z;
  end_message : Z;
  start_message_id : string;
  end_message_id : string;
}.

Record CoverageSnapshot := mkSnapshot {
  row_version : option Z;
  continuation_base : option Z;
  newest : option HistorySegmentEdge;
  rendered : option HistorySegmentEdge;
  declared_row : option HistorySegmentEdge;
  newest_window_end : option HistorySegmentEdge;
}.

Record Resolved := mkResolved {
  resolution : Resolution;
  anchor : option HistorySegmentEdge;
  ordinals : list Z;
}.

(** The messages of the errors are formatted text; the model names their cause. *)
Inductive ResolveError :=
| WindowStart
| EndMismatch
| NewerThanRendered
| MatchedNoMessage
| NegativeEnd.

(** ** Block ids *)

(** The parts around the last [#]. *)
Fixpoint rsplit_hash (s : string) : option (string * string) :=
  match s with
  | EmptyString => None
  | String c rest =>
      match rsplit_hash rest with
      | Some (m, i) => Some (String c m, i)
      | None => if bool_decide (c = Ascii.ascii_of_N 35) then Some (EmptyString, rest) else None
      end
  end.

Fixpoint contains_hash (s : string) : bool :=
  match s with
  | EmptyString => false
  | String c rest => bool_decide (c = Ascii.ascii_of_N 35) || contains_hash rest
  end.

Fixpoint digits_only (acc : Z) (s : string) : option Z :=
  match s with
  | EmptyString => Some acc
  | String c rest =>
      let b := CanonicalJson.byte_of c in
      if (48 <=? b) && (b <=? 57)
      then let acc := 10 * acc + (b - 48) in if acc <=? u64_MAX then digits_only acc rest else None
      else None
  end.

(** [str::parse::<usize>]: an optional plus sign and at least one digit. *)
Definition parse_usize (s : string) : option Z :=
  let digits := match s with String c rest => if bool_decide (c = Ascii.ascii_of_N 43) then rest else s | _ => s end in
  if bool_decide (digits = EmptyString) then None else digits_only 0 digits.

Definition split_block_id (id : string) : option (string * Z) :=
  '(m, index) ← rsplit_hash id;
  if bool_decide (m = EmptyString) || contains_hash m then None
  else index ← parse_usize index; Some (m, index).

(** [block_id] of wire.rs fills a buffer of 20 digits from the end. *)
Fixpoint id_digits (fuel : nat) (rest : Z) (digits : string) : string :=
  match fuel with
  | O => digits
  | S fuel =>
      let digits := String (CanonicalJson.ascii_of (48 + rest mod 10)) digits in
      if rest / 10 =? 0 then digits else id_digits fuel (rest / 10) digits
  end.

Definition block_id (m : string) (index : Z) : string := (m +:+ "#" +:+ id_digits 20 index EmptyString)%string.

Definition end_mid (row : HistorySegmentEdge) : option string := fst <$> split_block_id (end_message_id row).

(** ** Resolution *)
Definition cut_of (r : Resolution) : nat := match r with StaleSlice cut => cut | _ => O end.

(** [iter().position(..)]. *)
Fixpoint position_of (m : string) (window : list WindowMessage) : option nat :=
  match window with
  | [] => None
  | w :: rest => if bool_decide (wm_mid w = m) then Some O else S <$> position_of m rest
  end.

Definition row_position (window : list WindowMessage) (row : HistorySegmentEdge) : option nat :=
  m ← end_mid row; position_of m window.

(** [iter().rposition(|m| !m.synthetic)]. *)
Fixpoint last_live (window : list WindowMessage) : option nat :=
  match window with
  | [] => None
  | w :: rest =>
      match last_live rest with
      | Some i => Some (S i)
      | None => if synthetic w then None else Some O
      end
  end.

Fixpoint ordinals_loop (anchor_ordinal : option Z) (first : Z) (last : option nat) (window : list WindowMessage)
  (index : nat) (next_live : Z) (prior : option Z) : list Z :=
  match window with
  | [] => []
  | w :: rest =>
      let ordinal :=
        if negb (synthetic w) then next_live
        else if match last with Some l => (index <? l)%nat | None => false end
        then default (default 0 anchor_ordinal) prior
        else match prior with Some p => p + 1 | None => first end in
      let next_live := if negb (synthetic w) then next_live + 1 else next_live in
      ordinal :: ordinals_loop anchor_ordinal first last rest (S index) next_live (Some ordinal)
  end.

Definition assign_ordinals (window : list WindowMessage) (anchor_ordinal continuation : option Z) : list Z :=
  let first := default (default 0 continuation + 1) anchor_ordinal in
  ordinals_loop anchor_ordinal first (last_live window) window 0 first None.

Definition unknown : Resolved := mkResolved RUnknown None [].

Definition unanchored (window : list WindowMessage) (r : Resolution) (continuation : option Z) : Resolved :=
  mkResolved r None (assign_ordinals window None continuation).

(** The end of [resolve]: the effective anchor numbers what remains after the cut. *)
Definition anchored (window : list WindowMessage) (r : Resolution) (row : HistorySegmentEdge) : result ResolveError Resolved :=
  if end_message row <? 0 then Err NegativeEnd
  else Ok (mkResolved r (Some row) (assign_ordinals (drop (cut_of r) window) (Some (end_message row)) None)).

Definition resolve (snapshot : CoverageSnapshot) (declared : option DeclaredAnchor) (window : list WindowMessage)
  : result ResolveError Resolved :=
  match declared with
  | Some declared =>
      if negb (bool_decide (wm_mid <$> head window = Some (da_mid declared))) then Err WindowStart
      else match declared_row snapshot with
      | None => Ok unknown
      | Some row =>
          if negb (bool_decide (end_mid row = Some (da_mid declared))) then Err EndMismatch
          else match rendered snapshot with
          | None => Ok unknown
          | Some r =>
              if edge_sequence r =? edge_sequence row then anchored window RNormal row
              else if edge_sequence row <? edge_sequence r then
                match row_position window r with
                | Some cut => anchored window (StaleSlice cut) r
                | None => anchored window (Revert (Some (edge_sequence row))) row
                end
              else Err NewerThanRendered
          end
      end
  | None =>
      match rendered snapshot, newest_window_end snapshot with
      | None, _ => Ok (unanchored window FirstPass (continuation_base snapshot))
      | Some _, None => Ok (unanchored window (Revert None) None)
      | Some _, Some hit =>
          cut ← ok_or (row_position window hit) MatchedNoMessage;
          anchored window (StaleSlice cut) hit
      end
  end.

(** ** Block ids round-trip *)
Lemma rsplit_no_hash s : contains_hash s = false -> rsplit_hash s = None.
Proof.
  induction s as [|c s IH]; [done|]. cbn [contains_hash rsplit_hash]. intros [Hc Hs]%orb_false_iff.
  rewrite IH by done. by rewrite Hc.
Qed.

Lemma rsplit_app m s : contains_hash s = false -> rsplit_hash (m +:+ "#" +:+ s)%string = Some (m, s).
Proof.
  intros Hs. induction m as [|c m IH].
  - change ("" +:+ "#" +:+ s)%string with (String (Ascii.ascii_of_N 35) s). cbn [rsplit_hash].
    by rewrite rsplit_no_hash, bool_decide_eq_true_2.
  - rewrite append_cons. cbn [rsplit_hash]. by rewrite IH.
Qed.

Lemma byte_of_digit d : 0 <= d < 10 -> CanonicalJson.byte_of (CanonicalJson.ascii_of (48 + d)) = 48 + d.
Proof. intros. apply CanonicalJson.byte_of_ascii_of. lia. Qed.

(** Digits in front of a text of digits. *)
Lemma id_digits_spec fuel : forall rest digits,
  0 <= rest < 10 ^ Z.of_nat fuel -> (0 < fuel)%nat ->
  exists s, id_digits fuel rest digits = (s +:+ digits)%string /\ s <> EmptyString /\
    contains_hash s = false /\ (forall c t, s = String c t -> c <> Ascii.ascii_of_N 43) /\
    (forall t, rest <= u64_MAX -> digits_only 0 (s +:+ t)%string = digits_only rest t).
Proof.
  induction fuel as [|fuel IH]; intros rest digits Hr Hf; [lia|]. cbn [id_digits].
  pose proof (Z.mod_pos_bound rest 10 ltac:(lia)) as Hm. pose proof (Z.div_mod rest 10 ltac:(lia)) as Hdm.
  set (d := rest mod 10) in *. set (q := rest / 10) in *.
  assert (forall e, (e = Ascii.ascii_of_N 35 \/ e = Ascii.ascii_of_N 43) -> CanonicalJson.ascii_of (48 + d) <> e) as Hne.
  { intros e He E. apply (f_equal CanonicalJson.byte_of) in E. rewrite byte_of_digit in E by lia.
    destruct He as [-> | ->]; [change (CanonicalJson.byte_of _) with 35 in E|change (CanonicalJson.byte_of _) with 43 in E]; lia. }
  assert (forall a t, 0 <= a -> 10 * a + d <= u64_MAX ->
    digits_only a (String (CanonicalJson.ascii_of (48 + d)) t) = digits_only (10 * a + d) t) as Hstep.
  { intros a t Ha Hb. cbn [digits_only]. rewrite byte_of_digit by lia.
    rewrite (proj2 (Z.leb_le 48 _)), (proj2 (Z.leb_le _ 57)) by lia. cbn [andb].
    replace (48 + d - 48) with d by lia. by rewrite (proj2 (Z.leb_le _ _)). }
  destruct (Z.eqb_spec q 0) as [Hq|Hq].
  - exists (String (CanonicalJson.ascii_of (48 + d)) EmptyString). split_and!; [done|done| | |].
    + cbn [contains_hash]. rewrite bool_decide_eq_false_2; [done|]. apply Hne. by left.
    + intros c t [= <- <-]. apply Hne. by right.
    + intros t Hmax. rewrite append_cons. change ("" +:+ t)%string with t. rewrite Hstep by lia. f_equal. lia.
  - assert (0 <= q < 10 ^ Z.of_nat fuel) as Hqr.
    { rewrite Nat2Z.inj_succ, Z.pow_succ_r in Hr by lia. split; [apply Z.div_pos; lia|apply Z.div_lt_upper_bound; lia]. }
    assert (0 < fuel)%nat as Hf' by (destruct fuel; [cbn in Hqr; lia|lia]).
    destruct (IH q (String (CanonicalJson.ascii_of (48 + d)) digits) Hqr Hf') as (s & E & Hs & Hh & Hp & Hd).
    exists (s +:+ String (CanonicalJson.ascii_of (48 + d)) EmptyString)%string. split_and!.
    + rewrite E, append_assoc. done.
    + destruct s; done.
    + clear -Hh Hne. induction s as [|c s IH]; cbn [contains_hash] in *.
      * match goal with |- contains_hash (_ +:+ ?t) = _ => change (contains_hash t = false) end. cbn [contains_hash]. rewrite bool_decide_eq_false_2; [done|]. apply Hne. by left.
      * rewrite append_cons. cbn [contains_hash]. apply orb_false_iff in Hh as [-> Hh]. by rewrite IH.
    + destruct s as [|c s]; [done|]. rewrite append_cons. intros c' t [= <- <-]. by eapply Hp.
    + intros t Hmax. rewrite append_assoc, append_cons. change ("" +:+ t)%string with t.
      rewrite Hd by lia. rewrite Hstep by lia. f_equal. lia.
Qed.

(** The id of a block splits back into its message and its index, unless the message id itself
    holds the separator, in which case it never does. *)
Lemma block_id_split m index :
  0 <= index <= u64_MAX ->
  split_block_id (block_id m index) =
    if bool_decide (m = EmptyString) || contains_hash m then None else Some (m, index).
Proof.
  intros Hi. unfold split_block_id, block_id.
  destruct (id_digits_spec 20 index EmptyString) as (s & E & Hs & Hh & Hp & Hd); [unfold u64_MAX in Hi; lia|lia|].
  rewrite append_nil_r in E. rewrite E, rsplit_app by done. cbn [mbind option_bind].
  destruct (bool_decide (m = EmptyString) || contains_hash m); [done|].
  assert (parse_usize s = Some index) as ->; [|done]. unfold parse_usize. destruct s as [|c s]; [done|].
  rewrite (bool_decide_eq_false_2 (c = Ascii.ascii_of_N 43)) by by eapply Hp. rewrite bool_decide_eq_false_2 by done.
  specialize (Hd EmptyString ltac:(lia)). rewrite append_nil_r in Hd. by rewrite Hd.
Qed.

(** ** Ordinals *)

(** The same numbering with the position test replaced by what it stands for: whether a live
    message follows. *)
Fixpoint number (a : option Z) (first : Z) (window : list WindowMessage) (next : Z) (prior : option Z) : list Z :=
  match window with
  | [] => []
  | w :: rest =>
      let ordinal :=
        if negb (synthetic w) then next
        else match last_live rest with
        | Some _ => default (default 0 a) prior
        | None => match prior with Some p => p + 1 | None => first end
        end in
      ordinal :: number a first rest (if negb (synthetic w) then next + 1 else next) (Some ordinal)
  end.

(** [last] is the position, counted from [index] on, of the last live message of what is left. *)
Definition last_from (last : option nat) (index : nat) (window : list WindowMessage) : Prop :=
  match last_live window with
  | Some i => last = Some (index + i)%nat
  | None => forall l, last = Some l -> (l < index)%nat
  end.

Lemma ordinals_loop_number a first last window : forall index next prior,
  last_from last index window ->
  ordinals_loop a first last window index next prior = number a first window next prior.
Proof.
  induction window as [|w rest IH]; intros index next prior Hl; [done|].
  cbn [ordinals_loop number]. unfold last_from in Hl. cbn [last_live] in Hl.
  assert (last_from last (S index) rest) as Hrest.
  { unfold last_from. destruct (last_live rest) as [i|]; [rewrite Hl; f_equal; lia|].
    intros l El. destruct (synthetic w); [specialize (Hl l El); lia|]. assert (l = index + 0)%nat by congruence. lia. }
  rewrite (IH _ _ _ Hrest). destruct (synthetic w) eqn:Es; cbn [negb]; [|done].
  destruct (last_live rest) as [i|].
  - rewrite Hl. by rewrite (proj2 (Nat.ltb_lt _ _)) by lia.
  - destruct last as [l|]; [|done]. specialize (Hl l eq_refl). by rewrite (proj2 (Nat.ltb_ge _ _)) by lia.
Qed.

Lemma assign_ordinals_number window a continuation :
  assign_ordinals window a continuation =
    let first := default (default 0 continuation + 1) a in number a first window first None.
Proof.
  unfold assign_ordinals. apply ordinals_loop_number. unfold last_from.
  destruct (last_live window); done.
Qed.

(** The ordinals of the live messages, in order. *)
Definition live_ordinals (window : list WindowMessage) (os : list Z) : list Z :=
  snd <$> filter (fun p => synthetic (fst p) = false) (zip window os).

Definition live_messages (window : list WindowMessage) : nat := length (filter (fun w => synthetic w = false) window).

Lemma number_length a first window : forall next prior, length (number a first window next prior) = length window.
Proof. induction window as [|w rest IH]; intros next prior; [done|]. cbn. by rewrite IH. Qed.

Lemma number_live a first window : forall next prior,
  live_ordinals window (number a first window next prior) = seqZ next (Z.of_nat (live_messages window)).
Proof.
  unfold live_ordinals, live_messages. induction window as [|w rest IH]; intros next prior; [done|].
  cbn [number zip zip_with]. rewrite !filter_cons. cbn [fst]. destruct (synthetic w) eqn:Es; cbn [negb].
  - rewrite !decide_False by done. apply IH.
  - rewrite !decide_True by done. cbn [length]. rewrite fmap_cons, IH, (seqZ_cons next) by lia. cbn [snd].
    f_equal. f_equal; lia.
Qed.

Lemma number_sorted a first window : forall next prior,
  (is_Some (last_live window) -> default (default 0 a) prior <= next) -> default 0 a <= next ->
  Sorted Z.le (number a first window next prior) /\
  (forall p, prior = Some p -> HdRel Z.le p (number a first window next prior)).
Proof.
  induction window as [|w rest IH]; intros next prior Hp Ha; [split; [constructor|intros; constructor]|].
  cbn [number]. cbn [last_live] in Hp.
  set (o := if negb (synthetic w) then next else _).
  assert (is_Some (last_live rest) -> o <= (if negb (synthetic w) then next + 1 else next)) as Ho.
  { intros [i Ei]. subst o. rewrite Ei in *. destruct (synthetic w); cbn [negb]; [|lia]. apply Hp. by eexists. }
  destruct (IH (if negb (synthetic w) then next + 1 else next) (Some o)) as [Hs Hh].
  { exact Ho. }
  { destruct (synthetic w); cbn [negb]; lia. }
  split; [constructor; [exact Hs|by apply Hh]|]. intros p ->. constructor. subst o.
  change (default (default 0 a) (Some p)) with p in *.
  destruct (synthetic w) eqn:Es; cbn [negb]; [destruct (last_live rest); lia|].
  apply Hp. destruct (last_live rest); by eexists.
Qed.

Lemma number_bounds a first window : forall next prior,
  0 <= default 0 a <= first -> first <= next ->
  (forall p, prior = Some p -> 0 <= p) ->
  Forall (fun o => 0 <= o < Z.max next (default first (Z.succ <$> prior)) + Z.of_nat (length window))
    (number a first window next prior).
Proof.
  induction window as [|w rest IH]; intros next prior Ha Hn Hp; [constructor|].
  cbn [number length]. set (o := if negb (synthetic w) then next else _).
  assert (0 <= o <= Z.max next (default first (Z.succ <$> prior))) as Ho.
  { subst o. destruct (synthetic w); cbn [negb]; [|lia].
    destruct prior as [p|]; [specialize (Hp p eq_refl)|];
      destruct (last_live rest); cbn [fmap option_fmap option_map default id] in *; lia. }
  constructor; [lia|].
  eapply Forall_impl; [apply IH; [lia|destruct (synthetic w); cbn [negb]; lia|intros p [= <-]; lia]|].
  intros o' Ho'. cbv beta in *. cbn [fmap option_fmap option_map] in Ho'.
  change (default first (Some (Z.succ o))) with (Z.succ o) in Ho'.
  destruct (synthetic w); cbn [negb] in Ho'; lia.
Qed.

(** ** The head of an anchored window *)
Lemma position_of_first m window i :
  position_of m window = Some i ->
  (exists w, window !! i = Some w /\ wm_mid w = m) /\
  (forall j w, (j < i)%nat -> window !! j = Some w -> wm_mid w <> m).
Proof.
  revert i. induction window as [|w rest IH]; intros i; cbn [position_of]; [done|].
  case_bool_decide as Hm.
  - intros [= <-]. split; [by exists w|intros; lia].
  - intros (j & Hj & ->)%fmap_Some. destruct (IH j Hj) as [Hw Hmin]. split; [exact Hw|].
    intros [|k] w' Hk; [by intros [= <-]|]. apply (Hmin k). lia.
Qed.

Lemma position_of_none m window : position_of m window = None -> Forall (fun w => wm_mid w <> m) window.
Proof.
  induction window as [|w rest IH]; cbn [position_of]; [constructor|].
  case_bool_decide as Hm; [done|]. intros H%fmap_None. constructor; [done|by apply IH].
Qed.

Lemma position_first window row i :
  row_position window row = Some i ->
  (exists w, window !! i = Some w /\ end_mid row = Some (wm_mid w)) /\
  (forall j w, (j < i)%nat -> window !! j = Some w -> end_mid row <> Some (wm_mid w)).
Proof.
  unfold row_position. intros (m & Hm & Hp)%bind_Some. destruct (position_of_first _ _ _ Hp) as [(w & Hw & E) Hmin].
  rewrite Hm. split; [exists w; by subst m|]. intros j w' Hj Hw' [= E']. by apply (Hmin j w').
Qed.

Lemma number_head a window next :
  default next a = next -> window <> [] ->
  (a = None -> forall w, head window = Some w -> synthetic w = false) ->
  head (number a next window next None) = Some next.
Proof.
  intros Ha Hne Hl. destruct window as [|w rest]; [done|]. cbn [number head]. f_equal.
  destruct (synthetic w) eqn:Es; cbn [negb]; [|done]. destruct (last_live rest); [|done].
  destruct a as [x|]; [exact Ha|]. specialize (Hl eq_refl w eq_refl). congruence.
Qed.

(** What the last step of [resolve] yields when the row's end message is where the cut is. *)
Definition heads_at (window : list WindowMessage) (res : Resolved) (row : HistorySegmentEdge) : Prop :=
  let cut := cut_of (resolution res) in
  0 <= end_message row /\
  (exists m, window !! cut = Some m /\ end_mid row = Some (wm_mid m)) /\
  (forall j m, (j < cut)%nat -> window !! j = Some m -> end_mid row <> Some (wm_mid m)) /\
  length (ordinals res) = (length window - cut)%nat /\
  head (ordinals res) = Some (end_message row) /\
  live_ordinals (drop cut window) (ordinals res) =
    seqZ (end_message row) (Z.of_nat (live_messages (drop cut window))).

Lemma anchored_heads window r row res :
  (exists m, window !! cut_of r = Some m /\ end_mid row = Some (wm_mid m)) ->
  (forall j m, (j < cut_of r)%nat -> window !! j = Some m -> end_mid row <> Some (wm_mid m)) ->
  anchored window r row = Ok res ->
  resolution res = r /\ anchor res = Some row /\ heads_at window res row.
Proof.
  intros Hm Hmin. unfold anchored. destruct (Z.ltb_spec (end_message row) 0) as [|Hpos]; [done|].
  intros [= <-]. split; [done|]. split; [done|]. unfold heads_at. cbn [resolution ordinals].
  rewrite assign_ordinals_number. cbv zeta. change (default _ (Some ?x)) with x.
  rewrite number_length, number_live, length_drop. split_and!; try done.
  apply number_head; [done| |done].
  destruct Hm as (m & Hm & _). intros E%(f_equal length). rewrite length_drop in E.
  apply lookup_lt_Some in Hm. cbn in E. lia.
Qed.

(** A declared anchor whose row passed both guards heads the window. *)
Lemma declared_heads (window : list WindowMessage) (declared : DeclaredAnchor) (row : HistorySegmentEdge) :
  wm_mid <$> head window = Some (da_mid declared) -> end_mid row = Some (da_mid declared) ->
  (exists m, window !! 0%nat = Some m /\ end_mid row = Some (wm_mid m)).
Proof.
  intros (m & Hm & E)%fmap_Some Hr. exists m. split; [by destruct window|]. by rewrite Hr, E.
Qed.

(** ** Claims *)

(** Every message of a window receives exactly one ordinal; the live (non-synthetic) messages
    receive consecutive ordinals that start at the anchor's ordinal, or, with no anchor, one past
    the continuation base; whatever the synthetic messages borrow or continue, the ordinals never
    decrease along the window and stay below the first ordinal plus the length of the window, so
    the 64-bit additions of the loop stay in range whenever that sum does. *)
Theorem window_ordinals window a continuation :
  0 <= default 0 a -> 0 <= default 0 continuation ->
  let first := default (default 0 continuation + 1) a in
  let os := assign_ordinals window a continuation in
  length os = length window /\
  live_ordinals window os = seqZ first (Z.of_nat (live_messages window)) /\
  Sorted Z.le os /\
  Forall (fun o => 0 <= o < first + Z.of_nat (length window)) os.
Proof.
  intros Ha Hc first os. assert (0 <= default 0 a <= first) as Hf.
  { subst first. destruct a as [x|]; cbn in *; lia. }
  subst os. rewrite assign_ordinals_number. fold first. cbv zeta. split_and!.
  - apply number_length.
  - apply number_live.
  - apply number_sorted; [intros _; exact (proj2 Hf)|exact (proj2 Hf)].
  - pose proof (number_bounds a first window first None Hf (Z.le_refl _) ltac:(done)) as H.
    change (default first (Z.succ <$> None)) with first in H. by rewrite Z.max_id in H.
Qed.

Lemma window_ordinals_witness :
  let w := [mkWindowMessage "a" true; mkWindowMessage "b" false; mkWindowMessage "c" true;
            mkWindowMessage "d" false; mkWindowMessage "e" true; mkWindowMessage "f" true] in
  assign_ordinals w None (Some 4) = [0; 5; 5; 6; 7; 8] /\ Sorted Z.le (assign_ordinals w None (Some 4)).
Proof.
  intros w. split; [vm_compute; reflexivity|].
  destruct (window_ordinals w None (Some 4) ltac:(vm_compute; discriminate) ltac:(vm_compute; discriminate))
    as (_ & _ & H & _). exact H.
Defined.

(** Whenever a resolution carries an effective anchor, the end message of the anchored history
    segment is the first message left after the cut and no message that was cut off is that end
    message; there is one ordinal per message left, the head of the processed window receives
    the segment's end ordinal, and the live messages count on from it. *)
Theorem anchor_heads_window snapshot declared window res row :
  resolve snapshot declared window = Ok res -> anchor res = Some row -> heads_at window res row.
Proof.
  assert (forall r row', (exists m, window !! cut_of r = Some m /\ end_mid row' = Some (wm_mid m)) ->
    (forall j m, (j < cut_of r)%nat -> window !! j = Some m -> end_mid row' <> Some (wm_mid m)) ->
    anchored window r row' = Ok res -> anchor res = Some row -> heads_at window res row) as Hanch.
  { intros r row' H1 H2 H3 H4. destruct (anchored_heads window r row' res H1 H2 H3) as (_ & E & Hh). congruence. }
  unfold resolve. destruct declared as [d|].
  - case_bool_decide as Hd; cbn [negb]; [|done].
    destruct (declared_row snapshot) as [dr|]; [|by intros [= <-]].
    case_bool_decide as He; cbn [negb]; [|done].
    destruct (rendered snapshot) as [r|]; [|by intros [= <-]].
    pose proof (declared_heads window d dr Hd He) as Hz.
    destruct (Z.eqb_spec (edge_sequence r) (edge_sequence dr)); [apply Hanch; [exact Hz|cbn; lia]|].
    destruct (Z.ltb_spec (edge_sequence dr) (edge_sequence r)); [|done].
    destruct (row_position window r) as [cut|] eqn:Ep; [|apply Hanch; [exact Hz|cbn; lia]].
    destruct (position_first window r cut Ep). by apply Hanch.
  - destruct (rendered snapshot) as [r|]; [|by intros [= <-]].
    destruct (newest_window_end snapshot) as [hit|]; [|by intros [= <-]].
    destruct (row_position window hit) as [cut|] eqn:Ep; cbn [ok_or mbind result_bind]; [|done].
    destruct (position_first window hit cut Ep). by apply Hanch.
Qed.

Lemma anchor_heads_window_witness :
  let e n m id := mkEdge n 1 m "s#0" id in
  let s := mkSnapshot None None None (Some (e 2 7 "c#1")) (Some (e 1 4 "a#0")) None in
  let w := [mkWindowMessage "a" false; mkWindowMessage "b" false; mkWindowMessage "c" true; mkWindowMessage "d" false] in
  let res := mkResolved (StaleSlice 2) (Some (e 2 7 "c#1")) [7; 7] in
  resolve s (Some (mkDeclared "a" 1)) w = Ok res /\ heads_at w res (e 2 7 "c#1").
Proof.
  intros e s w res. split; [vm_compute; reflexivity|].
  apply (anchor_heads_window s (Some (mkDeclared "a" 1)) w res (e 2 7 "c#1")); vm_compute; reflexivity.
Defined.

(** Coverage is reverted through a declared row only when a newer row is rendered and its end
    message is nowhere in the window. *)
Theorem revert_only_when_lost snapshot declared window res k :
  resolve snapshot declared window = Ok res -> resolution res = Revert (Some k) ->
  exists r, rendered snapshot = Some r /\ k < edge_sequence r /\
    forall m, end_mid r = Some m -> Forall (fun w => wm_mid w <> m) window.
Proof.
  assert (forall r row, anchored window r row = Ok res -> resolution res = r) as Hr.
  { intros r row. unfold anchored. destruct (end_message row <? 0); [done|]. by intros [= <-]. }
  unfold resolve. destruct declared as [d|].
  - case_bool_decide as Hd; cbn [negb]; [|done].
    destruct (declared_row snapshot) as [dr|]; [|by intros [= <-]].
    case_bool_decide as He; cbn [negb]; [|done].
    destruct (rendered snapshot) as [r|]; [|by intros [= <-]].
    destruct (Z.eqb_spec (edge_sequence r) (edge_sequence dr)); [intros HE%Hr; by rewrite HE|].
    destruct (Z.ltb_spec (edge_sequence dr) (edge_sequence r)); [|done].
    destruct (row_position window r) as [cut|] eqn:Ep; intros HE%Hr; rewrite HE; [done|]. intros [= <-].
    exists r. split_and!; [done|done|]. intros m Hm. unfold row_position in Ep. rewrite Hm in Ep. by apply position_of_none.
  - destruct (rendered snapshot) as [r|]; [|by intros [= <-]].
    destruct (newest_window_end snapshot) as [hit|]; [|by intros [= <-]].
    destruct (row_position window hit) as [cut|]; cbn [ok_or mbind result_bind]; [|done]. intros HE%Hr. by rewrite HE.
Qed.

End Window.
