(* ===== verification/Utf8.v ===== *)
(** * Utf8: the standard library's UTF-8 validation

    [str::from_utf8] accepts exactly the encodings of sequences of Unicode scalar values; the
    validator below is its table of well-formed byte sequences, and [utf8_valid_exact] relates it
    to the encoder of [Scan]. *)
From S2P Require Import Prelude Scan.

#[local] Open Scope Z_scope.

(** ** UTF-8 validity: [str::from_utf8] *)
Definition byte_between (lo hi b : Z) : bool := (lo <=? b) && (b <=? hi).
Definition continuation (b : Z) : bool := byte_between 0x80 0xBF b.

(** The second byte a lead byte of three or four bytes allows. *)
Definition second_of_three (b0 b1 : Z) : bool :=
  ((b0 =? 0xE0) && byte_between 0xA0 0xBF b1) || (byte_between 0xE1 0xEC b0 && continuation b1) ||
  ((b0 =? 0xED) && byte_between 0x80 0x9F b1) || (byte_between 0xEE 0xEF b0 && continuation b1).

Definition second_of_four (b0 b1 : Z) : bool :=
  ((b0 =? 0xF0) && byte_between 0x90 0xBF b1) || (byte_between 0xF1 0xF3 b0 && continuation b1) ||
  ((b0 =? 0xF4) && byte_between 0x80 0x8F b1).

Fixpoint utf8_valid (bs : list Z) : bool :=
  match bs with
  | [] => true
  | b0 :: r0 =>
      if b0 <? 0x80 then utf8_valid r0
      else match r0 with
      | [] => false
      | b1 :: r1 =>
          if byte_between 0xC2 0xDF b0 && continuation b1 then utf8_valid r1
          else match r1 with
          | [] => false
          | b2 :: r2 =>
              if second_of_three b0 b1 && continuation b2 then utf8_valid r2
              else match r2 with
              | [] => false
              | b3 :: r3 =>
                  if second_of_four b0 b1 && continuation b2 && continuation b3 then utf8_valid r3 else false
              end
          end
      end
  end.

(** ** The validator accepts exactly the encodings *)
#[local] Ltac Zify.zify_post_hook ::= Z.div_mod_to_equations.

Lemma byte_between_spec lo hi b : byte_between lo hi b = true <-> lo <= b <= hi.
Proof. unfold byte_between. lia. Qed.

(** One encoded scalar value in front. *)
Lemma utf8_valid_step c R : scalar c -> utf8_valid (utf8 c ++ R) = utf8_valid R.
Proof.
  intros Hc. unfold scalar in Hc. unfold utf8.
  destruct (Z.ltb_spec c 0x80); [cbn [app utf8_valid]; by rewrite (proj2 (Z.ltb_lt _ _))|].
  destruct (Z.ltb_spec c 0x800).
  { cbn [app utf8_valid]. rewrite (proj2 (Z.ltb_ge _ _)) by lia.
    replace (byte_between 0xC2 0xDF (0xC0 + c / 64) && continuation (0x80 + c mod 64)) with true; [done|].
    unfold continuation, byte_between. lia. }
  destruct (Z.ltb_spec c 0x10000); cbn [app utf8_valid]; rewrite (proj2 (Z.ltb_ge _ _)) by lia.
  - replace (byte_between 0xC2 0xDF _ && _) with false by (unfold continuation, byte_between; lia).
    replace (second_of_three _ _ && _) with true; [done|]. unfold second_of_three, continuation, byte_between. lia.
  - replace (byte_between 0xC2 0xDF _ && _) with false by (unfold continuation, byte_between; lia).
    replace (second_of_three _ _ && _) with false by (unfold second_of_three, continuation, byte_between; lia).
    replace (second_of_four _ _ && _ && _) with true; [done|]. unfold second_of_four, continuation, byte_between. lia.
Qed.

(** The scalar value of a well-formed sequence. *)
Lemma utf8_two b0 b1 :
  byte_between 0xC2 0xDF b0 && continuation b1 = true ->
  let c := (b0 - 0xC0) * 64 + (b1 - 0x80) in scalar c /\ utf8 c = [b0; b1].
Proof.
  intros H c. unfold continuation, byte_between in H. assert (0xC2 <= b0 <= 0xDF /\ 0x80 <= b1 <= 0xBF) as [H0 H1] by lia.
  unfold scalar, utf8. split; [lia|]. rewrite (proj2 (Z.ltb_ge c 0x80)), (proj2 (Z.ltb_lt c 0x800)) by lia.
  repeat f_equal; lia.
Qed.

Lemma utf8_three b0 b1 b2 :
  second_of_three b0 b1 && continuation b2 = true ->
  let c := (b0 - 0xE0) * 4096 + (b1 - 0x80) * 64 + (b2 - 0x80) in scalar c /\ utf8 c = [b0; b1; b2].
Proof.
  intros H c. unfold second_of_three, continuation, byte_between in H.
  assert (0x80 <= b2 <= 0xBF /\ 0xE0 <= b0 <= 0xEF /\ 0x80 <= b1 <= 0xBF /\
    (b0 = 0xE0 -> 0xA0 <= b1) /\ (b0 = 0xED -> b1 <= 0x9F)) as (H2 & H0 & H1 & Ha & Hb) by lia.
  clear H. assert (0x800 <= c < 0x10000) as Hc by lia. unfold scalar, utf8. split; [lia|].
  rewrite (proj2 (Z.ltb_ge c 0x80)), (proj2 (Z.ltb_ge c 0x800)), (proj2 (Z.ltb_lt c 0x10000)) by lia.
  repeat f_equal; lia.
Qed.

Lemma utf8_four b0 b1 b2 b3 :
  second_of_four b0 b1 && continuation b2 && continuation b3 = true ->
  let c := (b0 - 0xF0) * 262144 + (b1 - 0x80) * 4096 + (b2 - 0x80) * 64 + (b3 - 0x80) in
  scalar c /\ utf8 c = [b0; b1; b2; b3].
Proof.
  intros H c. unfold second_of_four, continuation, byte_between in H.
  assert (0x80 <= b3 <= 0xBF /\ 0x80 <= b2 <= 0xBF /\ 0xF0 <= b0 <= 0xF4 /\ 0x80 <= b1 <= 0xBF /\
    (b0 = 0xF0 -> 0x90 <= b1) /\ (b0 = 0xF4 -> b1 <= 0x8F)) as (H3 & H2 & H0 & H1 & Ha & Hb) by lia.
  clear H. assert (0x10000 <= c < 0x110000) as Hc by lia. unfold scalar, utf8. split; [lia|].
  rewrite (proj2 (Z.ltb_ge c 0x80)), (proj2 (Z.ltb_ge c 0x800)), (proj2 (Z.ltb_ge c 0x10000)) by lia.
  repeat f_equal; lia.
Qed.

Lemma utf8_valid_decode n : forall bs,
  (length bs <= n)%nat -> Forall (fun b => 0 <= b) bs -> utf8_valid bs = true ->
  exists cs, Forall scalar cs /\ encode_utf8 cs = bs.
Proof.
  induction n as [|n IH]; intros [|b0 r0] Hn Hb Hv; try (cbn in Hn; lia); try (by exists []).
  assert (forall c R bs, scalar c -> utf8 c ++ R = bs -> (exists cs, Forall scalar cs /\ encode_utf8 cs = R) ->
    exists cs, Forall scalar cs /\ encode_utf8 cs = bs) as Hcons.
  { intros c R bs Hc <- (cs & Hcs & <-). exists (c :: cs). split; [by constructor|apply encode_cons]. }
  cbn [utf8_valid] in Hv. cbn [length] in Hn. apply list.Forall_cons in Hb as [Hb0 Hb].
  destruct (Z.ltb_spec b0 0x80) as [H0|H0].
  { apply (Hcons b0 r0); [unfold scalar; lia| |apply IH; [lia|done|done]]. unfold utf8. by rewrite (proj2 (Z.ltb_lt _ _)). }
  destruct r0 as [|b1 r1]; [done|]. cbn [length] in Hn. apply list.Forall_cons in Hb as [_ Hb].
  destruct (byte_between 0xC2 0xDF b0 && continuation b1) eqn:E2.
  { destruct (utf8_two b0 b1 E2) as [Hc Hu]. eapply (Hcons _ r1); [exact Hc|by rewrite Hu|apply IH; [lia|done|done]]. }
  destruct r1 as [|b2 r2]; [done|]. cbn [length] in Hn. apply list.Forall_cons in Hb as [_ Hb].
  destruct (second_of_three b0 b1 && continuation b2) eqn:E3.
  { destruct (utf8_three b0 b1 b2 E3) as [Hc Hu]. eapply (Hcons _ r2); [exact Hc|by rewrite Hu|apply IH; [lia|done|done]]. }
  destruct r2 as [|b3 r3]; [done|]. cbn [length] in Hn. apply list.Forall_cons in Hb as [_ Hb].
  destruct (second_of_four b0 b1 && continuation b2 && continuation b3) eqn:E4; [|done].
  destruct (utf8_four b0 b1 b2 b3 E4) as [Hc Hu]. eapply (Hcons _ r3); [exact Hc|by rewrite Hu|apply IH; [lia|done|done]].
Qed.

(** Validation accepts a byte string exactly when it encodes scalar values. *)
Theorem utf8_valid_exact bs :
  Forall is_u8 bs -> utf8_valid bs = true <-> exists cs, Forall scalar cs /\ encode_utf8 cs = bs.
Proof.
  intros Hb. split.
  - apply (utf8_valid_decode (length bs)); [done|]. eapply Forall_impl; [|exact Hb]. intros b Hu. mlia.
  - intros (cs & Hcs & <-). induction Hcs as [|c cs Hc Hcs IH]; [done|]. rewrite encode_cons, utf8_valid_step by done.
    apply IH. rewrite encode_cons in Hb. apply list.Forall_app in Hb as [_ Hb]. exact Hb.
Qed.
