(* ===== verification/Fusion.v ===== *)
(** * Fusion: lane rankings and their reciprocal-rank fusion
    (retrieval/src/fusion/lane.rs, retrieval/src/fusion/rrf.rs)

    Three lanes rank occurrences; fusion sums one term per lane that ranked an occurrence. An
    occurrence identifier is a string of 32 bytes, compared byte by byte as its digest is; scores
    and weights are doubles. A value per lane is a [Slots]. *)
From S2P Require Import Prelude BTree SortBy Doubles.
From stdpp Require Import strings sorting.
From Stdlib Require Import SpecFloat.

#[local] Open Scope Z_scope.

Module Fusion.

(** ** Lanes *)
Inductive Lane := LaneExact | LaneLexical | LaneDense.

#[global] Instance Lane_eq_dec : EqDecision Lane.
Proof. solve_decision. Defined.

Definition LANE_ORDER : list Lane := [LaneExact; LaneLexical; LaneDense].

Definition lane_index (l : Lane) : Z := match l with LaneExact => 0 | LaneLexical => 1 | LaneDense => 2 end.

(** [[A; Lane::ORDER.len()]], indexed by [Lane::index]. *)
Record Slots (A : Type) := mkSlots { at_exact : A; at_lexical : A; at_dense : A }.
Arguments mkSlots {A} at_exact at_lexical at_dense.
Arguments at_exact {A} s.
Arguments at_lexical {A} s.
Arguments at_dense {A} s.

Definition lane_slot {A} (l : Lane) (s : Slots A) : A :=
  match l with LaneExact => at_exact s | LaneLexical => at_lexical s | LaneDense => at_dense s end.

Definition put_slot {A} (l : Lane) (a : A) (s : Slots A) : Slots A :=
  match l with
  | LaneExact => mkSlots a (at_lexical s) (at_dense s)
  | LaneLexical => mkSlots (at_exact s) a (at_dense s)
  | LaneDense => mkSlots (at_exact s) (at_lexical s) a
  end.

Definition slots_map {A} (f : Lane -> A) : Slots A := mkSlots (f LaneExact) (f LaneLexical) (f LaneDense).

(** ** Data *)
Definition OccurrenceId : Type := string.
Definition OCCURRENCE_ENCODING_VERSION : Z := 2.

Inductive RawScore := ScoreExact | ScoreLexical (value : f64) | ScoreDense (value : f64).

Inductive IdentityRefusal :=
| MalformedDigest
| MalformedToken
| ScoreLaneMismatch (declared found : Lane)
| NonFiniteScore
| DuplicateLane (lane : Lane)
| EncodingVersion (lane : Lane) (expected found : Z)
| TupleMismatch
| MalformedSpan.

Record LaneHit := mkHit { hit_occurrence : OccurrenceId; hit_score : RawScore }.

Record LaneEntry := mkEntry { le_occurrence : OccurrenceId; le_position : Z; le_score : RawScore }.

Record LaneRanking := mkRanking { lr_lane : Lane; lr_version : Z; lr_entries : list LaneEntry }.

(** ** Scores *)
Definition score_lane (s : RawScore) : Lane :=
  match s with ScoreExact => LaneExact | ScoreLexical _ => LaneLexical | ScoreDense _ => LaneDense end.

Definition score_is_finite (s : RawScore) : bool :=
  match s with ScoreExact => true | ScoreLexical v | ScoreDense v => f64_finite v end.

(** [None] is the arm of mixed kinds, which panics. *)
Definition better_first (a b : RawScore) : option comparison :=
  match a, b with
  | ScoreExact, ScoreExact => Some Eq
  | ScoreLexical l, ScoreLexical r => Some (f64_total_cmp l r)
  | ScoreDense l, ScoreDense r => Some (f64_total_cmp r l)
  | _, _ => None
  end.

(** The order the sort sees; where [better_first] panics it is completed by the lanes, and
    [consolidate_loop_lane] shows that this never happens. *)
Definition rank_scores (a b : RawScore) : comparison :=
  default (Z.compare (lane_index (score_lane a)) (lane_index (score_lane b))) (better_first a b).

(** ** Consolidation of one lane *)
Definition keep_best (h : LaneHit) (best : list (OccurrenceId * RawScore)) : list (OccurrenceId * RawScore) :=
  match btree_get (hit_occurrence h) best with
  | Some incumbent =>
      match rank_scores (hit_score h) incumbent with
      | Lt => btree_insert (hit_occurrence h) (hit_score h) best
      | _ => best
      end
  | None => btree_insert (hit_occurrence h) (hit_score h) best
  end.

Fixpoint consolidate_loop (lane : Lane) (hits : list LaneHit) (best : list (OccurrenceId * RawScore))
  : result IdentityRefusal (list (OccurrenceId * RawScore)) :=
  match hits with
  | [] => Ok best
  | h :: rest =>
      if negb (bool_decide (score_lane (hit_score h) = lane)) then Err (ScoreLaneMismatch lane (score_lane (hit_score h)))
      else if negb (score_is_finite (hit_score h)) then Err NonFiniteScore
      else consolidate_loop lane rest (keep_best h best)
  end.

Definition rank_cmp : OccurrenceId * RawScore -> OccurrenceId * RawScore -> comparison :=
  cmp_then (cmp_by snd rank_scores) (cmp_by fst String.compare).

Definition entries_of (ordered : list (OccurrenceId * RawScore)) : list LaneEntry :=
  imap (fun i p => mkEntry p.1 (Z.of_nat i + 1) p.2) ordered.

Definition consolidate (lane : Lane) (encoding_version : Z) (hits : list LaneHit) : result IdentityRefusal LaneRanking :=
  if negb (encoding_version =? OCCURRENCE_ENCODING_VERSION)
  then Err (EncodingVersion lane OCCURRENCE_ENCODING_VERSION encoding_version)
  else
    best ← consolidate_loop lane hits [];
    Ok (mkRanking lane encoding_version (entries_of (sort_by rank_cmp best))).

(** ** Declared lanes *)
Definition DeclaredLanes : Type := Slots (option LaneRanking).

Fixpoint admit_loop (rankings : list LaneRanking) (slots : DeclaredLanes) : result IdentityRefusal DeclaredLanes :=
  match rankings with
  | [] => Ok slots
  | r :: rest =>
      match lane_slot (lr_lane r) slots with
      | Some _ => Err (DuplicateLane (lr_lane r))
      | None => admit_loop rest (put_slot (lr_lane r) (Some r) slots)
      end
  end.

Definition DeclaredLanes_admit (rankings : list LaneRanking) : result IdentityRefusal DeclaredLanes :=
  admit_loop rankings (mkSlots None None None).

Definition rankings (lanes : DeclaredLanes) : list LaneRanking := omap (fun l => lane_slot l lanes) LANE_ORDER.

(** ** Parameters *)
Inductive ParameterRefusal := RefusedWeight (lane : Lane) | RefusedK | SumOverflow.

Record FusionParameters := mkParameters { weights : Slots f64; fusion_k : f64 }.

Definition term (p : FusionParameters) (lane : Lane) (position : Z) : f64 :=
  f64_div (lane_slot lane (weights p)) (f64_add (fusion_k p) (f64_of_Z position)).

Fixpoint admit_weights (lanes : list Lane) (admitted : Slots f64) : result ParameterRefusal (Slots f64) :=
  match lanes with
  | [] => Ok admitted
  | lane :: rest =>
      let weight := lane_slot lane admitted in
      if negb (f64_finite weight) || SFltb weight (S754_zero false) then Err (RefusedWeight lane)
      else admit_weights rest (put_slot lane (f64_add weight (S754_zero false)) admitted)
  end.

Definition FusionParameters_new (ws : Slots f64) (k : f64) : result ParameterRefusal FusionParameters :=
  admitted ← admit_weights LANE_ORDER ws;
  if negb (f64_finite k) || SFleb k (S754_zero false) then Err RefusedK
  else
    let parameters := mkParameters admitted k in
    let maximum := foldl (fun sum lane => f64_add sum (term parameters lane 1)) (S754_zero false) LANE_ORDER in
    if negb (f64_finite maximum) then Err SumOverflow else Ok parameters.

(** ** Fusion *)
Record LaneContribution := mkContribution { lc_position : Z; lc_score : RawScore }.

Definition Contributions : Type := Slots (option LaneContribution).

Record FusedEntry := mkFused {
  fe_occurrence : OccurrenceId;
  fe_position : Z;
  fe_score : f64;
  fe_contributions : Contributions;
}.

Record Fused := mkFusedRanking { fused_entries : list FusedEntry; undeclared : Slots bool }.

Record UnionExceeded := mkUnionExceeded { exceeded_bound : Z }.

Definition no_contributions : Contributions := mkSlots None None None.

Definition entry_contribution (e : LaneEntry) : LaneContribution := mkContribution (le_position e) (le_score e).

Definition union_step (bound : Z) (lane : Lane) (e : LaneEntry) (union : list (OccurrenceId * Contributions))
  : result UnionExceeded (list (OccurrenceId * Contributions)) :=
  let fill s := btree_insert (le_occurrence e) (put_slot lane (Some (entry_contribution e)) s) union in
  match btree_get (le_occurrence e) union with
  | None => if bound <=? Z.of_nat (length union) then Err (mkUnionExceeded bound) else Ok (fill no_contributions)
  | Some s => Ok (fill s)
  end.

Fixpoint union_entries (bound : Z) (lane : Lane) (entries : list LaneEntry) (union : list (OccurrenceId * Contributions))
  : result UnionExceeded (list (OccurrenceId * Contributions)) :=
  match entries with
  | [] => Ok union
  | e :: rest => union ← union_step bound lane e union; union_entries bound lane rest union
  end.

Fixpoint union_rankings (bound : Z) (rs : list LaneRanking) (union : list (OccurrenceId * Contributions))
  : result UnionExceeded (list (OccurrenceId * Contributions)) :=
  match rs with
  | [] => Ok union
  | r :: rest => union ← union_entries bound (lr_lane r) (lr_entries r) union; union_rankings bound rest union
  end.

Definition fused_score (p : FusionParameters) (s : Contributions) : f64 :=
  foldl (fun sum lane =>
    match lane_slot lane s with
    | Some c => f64_add sum (term p lane (lc_position c))
    | None => sum
    end) (S754_zero false) LANE_ORDER.

Definition fused_cmp : FusedEntry -> FusedEntry -> comparison :=
  cmp_then (cmp_rev (cmp_by fe_score f64_total_cmp)) (cmp_by fe_occurrence String.compare).

Definition with_position (i : nat) (e : FusedEntry) : FusedEntry :=
  mkFused (fe_occurrence e) (Z.of_nat i + 1) (fe_score e) (fe_contributions e).

Definition score_union (p : FusionParameters) (union : list (OccurrenceId * Contributions)) : list FusedEntry :=
  map (fun oc => mkFused oc.1 1 (fused_score p oc.2) oc.2) union.

Definition fuse (lanes : DeclaredLanes) (p : FusionParameters) (bound : Z) : result UnionExceeded Fused :=
  union ← union_rankings bound (rankings lanes) [];
  Ok (mkFusedRanking (imap with_position (sort_by fused_cmp (score_union p union)))
        (slots_map (fun l => negb (bool_decide (is_Some (lane_slot l lanes)))))).

(** [Fused::direct] and [Fused::filter]. *)
Definition direct (r : LaneRanking) (p : FusionParameters) : Fused :=
  let lane := lr_lane r in
  mkFusedRanking
    (map (fun e => mkFused (le_occurrence e) (le_position e) (term p lane (le_position e))
                     (put_slot lane (Some (entry_contribution e)) no_contributions)) (lr_entries r))
    (slots_map (fun l => negb (bool_decide (l = lane)))).

Definition fused_filter (keep : FusedEntry -> bool) (f : Fused) : Fused :=
  mkFusedRanking (filter (fun e => keep e = true) (fused_entries f)) (undeclared f).

(** ** Scores are totally ordered *)
#[global] Instance rank_scores_total : TotalCmp rank_scores.
Proof.
  split.
  - intros [|l|l] [|r|r]; try done; apply (cmp_opp f64_total_cmp).
  - intros [|l|l] [|r|r] [|t|t]; try done; unfold rank_scores; cbn [better_first default from_option id]; try done;
      intros; by eapply (cmp_le_trans f64_total_cmp).
Qed.

Lemma rank_scores_eq a b : rank_scores a b = Eq -> a = b.
Proof.
  destruct a as [|l|l], b as [|r|r]; try done; intros H%f64_total_cmp_eq; by subst.
Qed.

#[global] Instance rank_cmp_total : TotalCmp rank_cmp.
Proof. unfold rank_cmp. apply _. Qed.

Lemma rank_cmp_eq a b : rank_cmp a b = Eq -> a = b.
Proof.
  destruct a as [o s], b as [o' s']. unfold rank_cmp, cmp_then, cmp_by. cbn [fst snd].
  intros [Hs Ho]%then_with_eq. apply rank_scores_eq in Hs as ->. by apply String.compare_eq_iff in Ho as ->.
Qed.

#[global] Instance fused_cmp_total : TotalCmp fused_cmp.
Proof. unfold fused_cmp. apply _. Qed.

Lemma fused_cmp_eq a b : fused_cmp a b = Eq -> fe_occurrence a = fe_occurrence b.
Proof. unfold fused_cmp, cmp_then, cmp_by. intros [_ H]%then_with_eq. by apply String.compare_eq_iff in H. Qed.

(** ** Consolidation keeps the best score of each occurrence *)
Definition acceptable (lane : Lane) (h : LaneHit) : Prop :=
  score_lane (hit_score h) = lane /\ score_is_finite (hit_score h) = true.

(** The map after the hits [H]: the best score of every occurrence hit. *)
Definition bests (H : list LaneHit) (best : list (OccurrenceId * RawScore)) : Prop :=
  key_ordered best /\
  (forall h, h ∈ H -> exists s, btree_get (hit_occurrence h) best = Some s /\ rank_scores s (hit_score h) <> Gt) /\
  (forall o s, btree_get o best = Some s -> mkHit o s ∈ H).

Lemma keep_best_bests H best h : bests H best -> bests (h :: H) (keep_best h best).
Proof.
  intros (Ho & Hall & Hin). destruct h as [o s]. unfold keep_best. cbn [hit_occurrence hit_score].
  assert (bests (mkHit o s :: H) (btree_insert o s best) \/ exists inc, btree_get o best = Some inc /\ rank_scores s inc <> Lt) as Hc.
  { destruct (btree_get o best) as [inc|] eqn:E; [destruct (rank_scores s inc) eqn:Er; [right; exists inc; by rewrite Er|left|right; exists inc; by rewrite Er]|left].
    all: split_and!; [by apply btree_insert_ordered| |
      intros o' s'; rewrite btree_get_insert; case_bool_decide; [intros [= <-]; subst; by left|right; by apply Hin]].
    all: intros h'; rewrite btree_get_insert; intros [->|Hh]%elem_of_cons; cbn [hit_occurrence hit_score];
      [rewrite bool_decide_eq_true_2 by done; exists s; by rewrite (cmp_refl rank_scores)|].
    all: case_bool_decide as Eo; [exists s; split; [done|]|by apply Hall].
    all: destruct (Hall h' Hh) as (s' & Hs' & Hle); rewrite <- Eo, E in Hs'; try done; injection Hs' as <-.
    apply (cmp_le_trans rank_scores _ inc); [congruence|done]. }
  destruct (btree_get o best) as [inc|] eqn:E; [|destruct Hc as [Hc|(inc & ? & _)]; done].
  destruct (rank_scores s inc) eqn:Er; [|by destruct Hc as [Hc|(inc' & [= <-] & Hn)]|].
  all: split_and!; [done| |intros o' s' Hg; right; by apply Hin].
  all: intros h' [->|Hh]%elem_of_cons; [exists inc; cbn [hit_occurrence hit_score]; split; [done|]|by apply Hall].
  all: rewrite (cmp_opp rank_scores s inc), Er; done.
Qed.

Lemma consolidate_loop_ok lane hits best :
  Forall (acceptable lane) hits -> consolidate_loop lane hits best = Ok (foldl (fun b h => keep_best h b) best hits).
Proof.
  intros Hh. revert best. induction Hh as [|h rest [Hl Hf] _ IH]; intros best; [done|]. cbn [consolidate_loop foldl].
  rewrite bool_decide_eq_true_2, Hf by done. apply IH.
Qed.

Lemma consolidate_loop_inv lane hits best out :
  consolidate_loop lane hits best = Ok out -> Forall (acceptable lane) hits.
Proof.
  revert best. induction hits as [|h rest IH]; intros best; [constructor|]. cbn [consolidate_loop].
  case_bool_decide as Hl; cbn [negb]; [|done]. destruct (score_is_finite (hit_score h)) eqn:Hf; cbn [negb]; [|done].
  intros H%IH. by constructor.
Qed.

Lemma bests_fold hits : bests hits (foldl (fun b h => keep_best h b) [] hits).
Proof.
  assert (forall H best, bests H best -> bests (reverse hits ++ H) (foldl (fun b h => keep_best h b) best hits)) as Hgen.
  { induction hits as [|h rest IH]; intros H best Hb; [done|]. cbn [foldl].
    rewrite reverse_cons, <- app_assoc. apply IH. by apply keep_best_bests. }
  destruct (Hgen [] []) as (Ho & Hall & Hin).
  - split_and!; [constructor|by intros h ?%elem_of_nil|done].
  - split_and!; [done| |].
    + intros h Hh. apply Hall. by rewrite app_nil_r, elem_of_reverse.
    + intros o s Hg. apply Hin in Hg. by rewrite app_nil_r, elem_of_reverse in Hg.
Qed.

(** The best scores depend on the set of hits only. *)
Lemma bests_same H H' best best' :
  bests H best -> bests H' best' -> (forall h, h ∈ H <-> h ∈ H') -> best = best'.
Proof.
  intros (Ho & Hall & Hin) (Ho' & Hall' & Hin') Hset. apply btree_ext; [done|done|]. intros o.
  assert (forall s, btree_get o best = Some s -> btree_get o best' = Some s) as Hto.
  { intros s Hs. pose proof (Hin o s Hs) as Hh. rewrite Hset in Hh. destruct (Hall' _ Hh) as (s' & Hs' & Hle).
    cbn [hit_occurrence hit_score] in *. pose proof (Hin' o s' Hs') as Hh'. rewrite <- Hset in Hh'.
    destruct (Hall _ Hh') as (s2 & Hs2 & Hle2). cbn [hit_occurrence hit_score] in *. rewrite Hs in Hs2.
    injection Hs2 as <-. rewrite (rank_scores_eq s s'); [done|].
    rewrite (cmp_opp rank_scores s s') in Hle. by destruct (rank_scores s s'). }
  assert (forall s, btree_get o best' = Some s -> is_Some (btree_get o best)) as Hfro.
  { intros s Hs. pose proof (Hin' o s Hs) as Hh. rewrite <- Hset in Hh. destruct (Hall _ Hh) as (s' & Hs' & _). by exists s'. }
  destruct (btree_get o best) as [s|]; [by rewrite (Hto s)|].
  destruct (btree_get o best') as [s|]; [by destruct (Hfro s eq_refl)|done].
Qed.

(** The consolidated ranking of a list of acceptable hits. *)
Lemma consolidate_ok lane version hits r :
  consolidate lane version hits = Ok r ->
  version = OCCURRENCE_ENCODING_VERSION /\ Forall (acceptable lane) hits /\
  exists best, bests hits best /\ r = mkRanking lane version (entries_of (sort_by rank_cmp best)).
Proof.
  unfold consolidate. destruct (Z.eqb_spec version OCCURRENCE_ENCODING_VERSION); cbn [negb]; [|done].
  destruct (consolidate_loop lane hits []) as [best|] eqn:E; cbn [mbind result_bind]; [|done]. intros [= <-].
  pose proof (consolidate_loop_inv _ _ _ _ E) as Ha. split; [done|]. split; [done|].
  rewrite consolidate_loop_ok in E by done. injection E as <-. eexists. split; [apply bests_fold|done].
Qed.

Lemma entries_of_occurrences ordered : map le_occurrence (entries_of ordered) = map fst ordered.
Proof. unfold entries_of. change (map ?f ?l) with (f <$> l). rewrite fmap_imap. apply (imap_const fst). Qed.

Lemma entries_of_pairs ordered : map (fun e => (le_occurrence e, le_score e)) (entries_of ordered) = ordered.
Proof.
  unfold entries_of. change (map ?f ?l) with (f <$> l). rewrite fmap_imap.
  rewrite <- (list_fmap_id ordered) at 2. etransitivity; [|apply (imap_const id)]. apply imap_ext. intros i [o s] _. done.
Qed.

Lemma elem_of_entries_of ordered e : e ∈ entries_of ordered -> (le_occurrence e, le_score e) ∈ ordered.
Proof.
  intros He. rewrite <- (entries_of_pairs ordered). change (map ?f ?l) with (f <$> l). apply list_elem_of_fmap. by exists e.
Qed.

(** A ranking as consolidation makes it. *)
Definition wf_ranking (r : LaneRanking) : Prop :=
  NoDup (map le_occurrence (lr_entries r)) /\
  forall i e, lr_entries r !! i = Some e -> le_position e = Z.of_nat i + 1 /\ score_lane (le_score e) = lr_lane r.

Lemma bests_NoDup H best : bests H best -> NoDup (map fst best).
Proof. intros [Ho _]. by apply key_ordered_NoDup. Qed.

Lemma consolidate_wf lane version hits r : consolidate lane version hits = Ok r -> lr_lane r = lane /\ wf_ranking r.
Proof.
  intros (_ & Ha & best & Hb & ->)%consolidate_ok. split; [done|]. split; cbn [lr_entries lr_lane].
  - rewrite entries_of_occurrences. change (NoDup (fst <$> sort_by rank_cmp best)). rewrite (sort_by_perm rank_cmp).
    by eapply bests_NoDup.
  - intros i e Hi. unfold entries_of in Hi. rewrite list_lookup_imap in Hi.
    destruct (sort_by rank_cmp best !! i) as [[o s]|] eqn:E; [|done]. injection Hi as <-. cbn [le_position le_score]. split; [done|].
    apply list_elem_of_lookup_2 in E. rewrite (sort_by_perm rank_cmp) in E. destruct Hb as (Ho & _ & Hin).
    apply elem_of_btree_get in E; [|by apply key_ordered_NoDup]. apply Hin in E.
    rewrite list.Forall_forall in Ha. by destruct (Ha _ E).
Qed.

Lemma consolidate_same lane version hits hits' r :
  (forall h, h ∈ hits <-> h ∈ hits') -> consolidate lane version hits = Ok r -> consolidate lane version hits' = Ok r.
Proof.
  intros Hset (-> & Ha & best & Hb & ->)%consolidate_ok. unfold consolidate. rewrite Z.eqb_refl. cbn [negb].
  rewrite consolidate_loop_ok.
  - cbn [mbind result_bind]. do 4 f_equal. eapply bests_same; [apply bests_fold|exact Hb|]. intros h. by rewrite Hset.
  - rewrite list.Forall_forall in *. intros h Hh. apply Ha. by rewrite Hset.
Qed.

(** ** Claims on consolidation *)

(** A lane's ranking depends only on the set of its hits: the order in which probes and
    generations produced them, and how often each was repeated, change nothing. The ranking holds
    every occurrence hit exactly once, with the best of its scores, in order of score and then of
    identifier bytes, numbered from one; the arm of the comparison that panics on scores of two
    lanes is never reached. *)
Theorem consolidation_order_free lane version hits hits' r :
  (forall h, h ∈ hits <-> h ∈ hits') ->
  consolidate lane version hits = Ok r ->
  consolidate lane version hits' = Ok r /\
  wf_ranking r /\
  (forall o, o ∈ map le_occurrence (lr_entries r) <-> o ∈ map hit_occurrence hits) /\
  (forall e h, e ∈ lr_entries r -> h ∈ hits -> hit_occurrence h = le_occurrence e ->
     rank_scores (le_score e) (hit_score h) <> Gt /\ mkHit (le_occurrence e) (le_score e) ∈ hits) /\
  StronglySorted (fun e e' => rank_cmp (le_occurrence e, le_score e) (le_occurrence e', le_score e') = Lt) (lr_entries r) /\
  (forall e e', e ∈ lr_entries r -> e' ∈ lr_entries r -> is_Some (better_first (le_score e) (le_score e'))).
Proof.
  intros Hset Hc. pose proof (consolidate_wf _ _ _ _ Hc) as [_ Hwf].
  pose proof (consolidate_ok _ _ _ _ Hc) as (-> & Ha & best & Hb & ->). pose proof Hb as (Ho & Hall & Hin).
  pose proof (bests_NoDup _ _ Hb) as Hnd. cbn [lr_entries].
  assert (forall e, e ∈ entries_of (sort_by rank_cmp best) -> btree_get (le_occurrence e) best = Some (le_score e)) as Hget.
  { intros e He%elem_of_entries_of. rewrite (sort_by_perm rank_cmp) in He. by apply elem_of_btree_get. }
  split_and!; [by eapply consolidate_same|exact Hwf| | | |].
  - intros o. rewrite entries_of_occurrences. change (map ?f ?l) with (f <$> l).
    rewrite (sort_by_perm rank_cmp), !list_elem_of_fmap. split.
    + intros ([o' s] & -> & He). apply elem_of_btree_get in He; [|done]. by exists (mkHit o' s); split; [|apply Hin].
    + intros (h & -> & Hh). destruct (Hall h Hh) as (s & Hs & _). apply btree_get_elem in Hs. by eexists (_, s).
  - intros e h He Hh E. pose proof (Hget e He) as Hg. destruct (Hall h Hh) as (s & Hs & Hle).
    rewrite E, Hg in Hs. injection Hs as <-. split; [done|by apply Hin].
  - apply (StronglySorted_map (fun e => (le_occurrence e, le_score e)) (fun x y => rank_cmp x y = Lt)); [done|].
    rewrite entries_of_pairs. apply (sort_by_strict rank_cmp); [by apply (NoDup_fmap_1 fst)|].
    intros x y _ _. apply rank_cmp_eq.
  - intros e e' He He'. assert (forall e, e ∈ entries_of (sort_by rank_cmp best) -> score_lane (le_score e) = lane) as Hl.
    { intros e0 He0. apply Hget, Hin in He0. rewrite list.Forall_forall in Ha. by destruct (Ha _ He0). }
    apply Hl in He, He'. destruct (le_score e), (le_score e'); try (by eexists); cbn in *; congruence.
Qed.

Lemma consolidation_order_free_witness :
  let h o v := mkHit o (ScoreLexical (f64_of_Z v)) in
  let hits := [h "b" (-3); h "a" (-1); h "b" (-2); h "c" (-3)] in
  let hits' := [h "c" (-3); h "b" (-2); h "b" (-3); h "b" (-3); h "a" (-1)] in
  let r := mkRanking LaneLexical 2 [mkEntry "b" 1 (ScoreLexical (f64_of_Z (-3)));
             mkEntry "c" 2 (ScoreLexical (f64_of_Z (-3))); mkEntry "a" 3 (ScoreLexical (f64_of_Z (-1)))] in
  consolidate LaneLexical 2 hits = Ok r /\ consolidate LaneLexical 2 hits' = Ok r.
Proof.
  intros h hits hits' r. assert (consolidate LaneLexical 2 hits = Ok r) as Hr by (vm_compute; reflexivity).
  split; [exact Hr|]. apply (consolidation_order_free LaneLexical 2 hits hits' r); [|exact Hr].
  intros x. subst hits hits'. rewrite !elem_of_cons, elem_of_nil. tauto.
Defined.

(** ** The union of the lanes *)
Lemma slot_put {A} l l' (a : A) s : lane_slot l (put_slot l' a s) = if bool_decide (l = l') then a else lane_slot l s.
Proof. by destruct l, l'. Qed.

Lemma slot_map {A} (f : Lane -> A) l : lane_slot l (slots_map f) = f l.
Proof. by destruct l. Qed.

Lemma slots_ext {A} (s s' : Slots A) : (forall l, lane_slot l s = lane_slot l s') -> s = s'.
Proof.
  intros H. pose proof (H LaneExact). pose proof (H LaneLexical). pose proof (H LaneDense).
  destruct s, s'. cbn in *. congruence.
Qed.

Definition pair_id (p : Lane * LaneEntry) : OccurrenceId := le_occurrence p.2.

Definition distinct (P : list (Lane * LaneEntry)) : nat := length (remove_dups (pair_id <$> P)).

Lemma distinct_app_le P Q : (distinct P <= distinct (P ++ Q))%nat.
Proof. unfold distinct. rewrite fmap_app. apply length_remove_dups_app. Qed.

Lemma distinct_snoc P p :
  distinct (P ++ [p]) = (distinct P + if bool_decide (pair_id p ∈ pair_id <$> P) then 0 else 1)%nat.
Proof. unfold distinct. rewrite fmap_app. apply length_remove_dups_snoc. Qed.

(** The union after the lane entries [P]: one slot per lane that ranked the occurrence. *)
Definition united (P : list (Lane * LaneEntry)) (u : list (OccurrenceId * Contributions)) : Prop :=
  key_ordered u /\
  (forall o, o ∈ pair_id <$> P -> is_Some (btree_get o u)) /\
  (forall o s, btree_get o u = Some s -> o ∈ pair_id <$> P /\
     forall l c, lane_slot l s = Some c <-> exists e, (l, e) ∈ P /\ le_occurrence e = o /\ c = entry_contribution e).

Lemma united_length P u : united P u -> length u = distinct P.
Proof.
  intros (Ho & Hin & Hs). pose proof (key_ordered_NoDup _ Ho) as Hnd. unfold distinct.
  rewrite <- (length_map fst u). apply Permutation_length, NoDup_Permutation; [done|apply NoDup_remove_dups|].
  intros o. rewrite elem_of_remove_dups. split.
  - intros ([o' s] & -> & Hx)%list_elem_of_fmap. apply elem_of_btree_get in Hx; [|done]. by destruct (Hs _ _ Hx).
  - intros [s Hg]%Hin. apply btree_get_elem in Hg. apply list_elem_of_fmap. by exists (o, s).
Qed.

(** Filling one more slot. *)
Lemma united_fill P u lane e s :
  united P u -> (forall e', (lane, e') ∈ P -> le_occurrence e' <> le_occurrence e) ->
  (btree_get (le_occurrence e) u = Some s \/ (btree_get (le_occurrence e) u = None /\ s = no_contributions)) ->
  united (P ++ [(lane, e)]) (btree_insert (le_occurrence e) (put_slot lane (Some (entry_contribution e)) s) u).
Proof.
  intros (Ho & Hin & Hs) Hfresh Hget. split_and!; [by apply btree_insert_ordered| |].
  - intros o. rewrite fmap_app, elem_of_app, btree_get_insert. case_bool_decide as E; [by eexists|].
    intros [H|H%list_elem_of_singleton]; [by apply Hin|done].
  - intros o s'. rewrite btree_get_insert, fmap_app, elem_of_app. case_bool_decide as E.
    + intros [= <-]. subst o. split; [right; apply list_elem_of_singleton; done|].
      intros l c. rewrite slot_put. setoid_rewrite elem_of_app. setoid_rewrite list_elem_of_singleton.
      assert (forall l c, lane_slot l s = Some c <->
        exists e', (l, e') ∈ P /\ le_occurrence e' = le_occurrence e /\ c = entry_contribution e') as Hold.
      { intros l' c'. destruct Hget as [Hg|[Hg ->]]; [by apply Hs|]. split; [by destruct l'|].
        intros (e' & He' & E' & _). assert (le_occurrence e' ∈ pair_id <$> P) as H by (apply list_elem_of_fmap; by exists (l', e')).
        apply Hin in H as [? H]. rewrite E' in H. congruence. }
      case_bool_decide as El; [subst l|rewrite Hold].
      * split; [intros [= <-]; exists e; by split; [right|]|].
        intros (e' & [H|[= ->]] & E' & ->); [by apply Hfresh in H|done].
      * split; [intros (e' & H & H'); exists e'; by split; [left|]|].
        intros (e' & [H|[= -> ->]] & H'); [by exists e'|done].
    + intros Hg. destruct (Hs o s' Hg) as [Hi Hc]. split; [by left|]. intros l c. rewrite Hc.
      setoid_rewrite elem_of_app. setoid_rewrite list_elem_of_singleton. split.
      * intros (e' & H & H'). exists e'. by split; [left|].
      * intros (e' & [H|[= -> ->]] & H'); [by exists e'|]. by destruct H' as [<- _].
Qed.

(** The outcome of filling the slots of more entries. *)
Definition union_outcome (bound : Z) (P Q : list (Lane * LaneEntry))
  (out : result UnionExceeded (list (OccurrenceId * Contributions))) : Prop :=
  match out with
  | Ok u => united (P ++ Q) u /\ Z.of_nat (distinct (P ++ Q)) <= bound
  | Err x => x = mkUnionExceeded bound /\ bound < Z.of_nat (distinct (P ++ Q))
  end.

Lemma union_step_outcome bound P u lane e :
  united P u -> Z.of_nat (distinct P) <= bound -> (forall e', (lane, e') ∈ P -> le_occurrence e' <> le_occurrence e) ->
  union_outcome bound P [(lane, e)] (union_step bound lane e u).
Proof.
  intros Hu Hb Hfresh. pose proof (united_length _ _ Hu) as Hlen. unfold union_step, union_outcome.
  rewrite distinct_snoc. destruct (btree_get (le_occurrence e) u) as [s|] eqn:E.
  - split; [apply united_fill; auto|]. destruct Hu as (_ & _ & Hs). destruct (Hs _ _ E) as [Hin _].
    rewrite bool_decide_eq_true_2 by done. lia.
  - rewrite bool_decide_eq_false_2; [|destruct Hu as (_ & Hin & _); intros [? H]%Hin; unfold pair_id in H; cbn [snd] in H; congruence].
    destruct (Z.leb_spec bound (Z.of_nat (length u))); [split; [done|lia]|split; [apply united_fill; auto|lia]].
Qed.

Lemma union_outcome_bind bound P Q R m f :
  union_outcome bound P Q m -> (forall u, united (P ++ Q) u -> Z.of_nat (distinct (P ++ Q)) <= bound -> union_outcome bound (P ++ Q) R (f u)) ->
  union_outcome bound P (Q ++ R) (m ≫= f).
Proof.
  intros Hm Hf. destruct m as [u|x]; cbn [mbind result_bind].
  - destruct Hm as [Hu Hb]. specialize (Hf u Hu Hb). unfold union_outcome in *. by rewrite app_assoc.
  - destruct Hm as [-> Hb]. split; [done|]. rewrite app_assoc. pose proof (distinct_app_le (P ++ Q) R). lia.
Qed.

Lemma union_entries_outcome bound lane es : forall P u,
  united P u -> Z.of_nat (distinct P) <= bound -> NoDup (map le_occurrence es) ->
  (forall e e', e ∈ es -> (lane, e') ∈ P -> le_occurrence e' <> le_occurrence e) ->
  union_outcome bound P (pair lane <$> es) (union_entries bound lane es u).
Proof.
  induction es as [|e es IH]; intros P u Hu Hb Hnd Hfresh; cbn [union_entries fmap list_fmap].
  - split; by rewrite app_nil_r.
  - cbn [map] in Hnd. apply list.NoDup_cons in Hnd as [He Hnd]. change (?x :: ?l) with ([x] ++ l).
    apply union_outcome_bind; [apply union_step_outcome; [done|done|]; intros e'; apply Hfresh; left|].
    intros u' Hu' Hb'. apply IH; [done|done|done|]. intros e1 e' He1 [H|[= ->]%list_elem_of_singleton]%elem_of_app.
    + apply Hfresh; [by right|done].
    + intros E. apply He. rewrite E. apply list_elem_of_fmap. by exists e1.
Qed.

Definition pairs_of (rs : list LaneRanking) : list (Lane * LaneEntry) :=
  concat ((fun r => pair (lr_lane r) <$> lr_entries r) <$> rs).

Lemma union_rankings_outcome bound rs : forall P u,
  united P u -> Z.of_nat (distinct P) <= bound -> NoDup (map lr_lane rs) -> Forall wf_ranking rs ->
  (forall r e, r ∈ rs -> (lr_lane r, e) ∉ P) ->
  union_outcome bound P (pairs_of rs) (union_rankings bound rs u).
Proof.
  induction rs as [|r rs IH]; intros P u Hu Hb Hnd Hwf Hfresh; cbn [union_rankings].
  - unfold pairs_of. cbn. split; by rewrite app_nil_r.
  - cbn [map] in Hnd. apply list.NoDup_cons in Hnd as [Hr Hnd]. apply Forall_cons in Hwf as [[Hids _] Hwf].
    unfold pairs_of. cbn [fmap list_fmap concat]. apply union_outcome_bind.
    + apply union_entries_outcome; [done|done|done|]. intros e e' _ H. exfalso. eapply Hfresh; [left|exact H].
    + intros u' Hu' Hb'. apply IH; [done|done|done|done|]. intros r' e Hr' [H|H]%elem_of_app.
      * eapply Hfresh; [by right|exact H].
      * apply list_elem_of_fmap in H as (e' & [= E _] & _). apply Hr. rewrite <- E. apply list_elem_of_fmap. by exists r'.
Qed.

(** Lanes as [DeclaredLanes_admit] makes them from consolidated rankings. *)
Definition wf_lanes (lanes : DeclaredLanes) : Prop :=
  forall l r, lane_slot l lanes = Some r -> lr_lane r = l /\ wf_ranking r.

Lemma admitted_lanes_wf rs lanes : Forall wf_ranking rs -> DeclaredLanes_admit rs = Ok lanes -> wf_lanes lanes.
Proof.
  unfold DeclaredLanes_admit. assert (wf_lanes (mkSlots None None None)) as Hw by by intros [] r.
  revert Hw. generalize (mkSlots (@None LaneRanking) None None). induction rs as [|r rs IH]; intros slots Hw Hrs; cbn [admit_loop].
  - by intros [= <-].
  - apply Forall_cons in Hrs as [Hr Hrs]. destruct (lane_slot (lr_lane r) slots); [done|]. apply IH; [|done].
    intros l r'. rewrite slot_put. case_bool_decide as E; [intros [= <-]; by subst|apply Hw].
Qed.

(** A lane ranks an occurrence by an entry. *)
Definition ranks (lanes : DeclaredLanes) (l : Lane) (e : LaneEntry) : Prop :=
  exists r, lane_slot l lanes = Some r /\ e ∈ lr_entries r.

(** The occurrences some lane ranks, each once. *)
Definition ranked_ids (lanes : DeclaredLanes) : list OccurrenceId :=
  remove_dups (le_occurrence <$> concat (lr_entries <$> rankings lanes)).

Lemma elem_of_rankings lanes r : r ∈ rankings lanes <-> exists l, lane_slot l lanes = Some r.
Proof.
  unfold rankings. rewrite list_elem_of_omap. split; [intros (l & _ & H); by exists l|].
  intros [l H]. exists l. split; [|done]. destruct l; repeat (left || right).
Qed.

Lemma rankings_lanes lanes : wf_lanes lanes -> NoDup (map lr_lane (rankings lanes)).
Proof.
  intros Hwf. assert (forall ls, NoDup ls -> NoDup (map lr_lane (omap (fun l => lane_slot l lanes) ls))) as H.
  { intros ls. induction ls as [|l ls IH]; [constructor|]. intros [Hl Hnd]%list.NoDup_cons. cbn [omap list_omap].
    destruct (lane_slot l lanes) as [r|] eqn:E; [|by apply IH]. cbn [map]. apply list.NoDup_cons. split; [|by apply IH].
    intros (r' & E' & Hr')%list_elem_of_fmap. apply list_elem_of_omap in Hr' as (l' & Hl' & Hs').
    destruct (Hwf _ _ E) as [<- _], (Hwf _ _ Hs') as [<- _]. congruence. }
  apply H. apply (bool_decide_eq_true (NoDup LANE_ORDER)). reflexivity.
Qed.

Lemma elem_of_pairs lanes l e : wf_lanes lanes -> (l, e) ∈ pairs_of (rankings lanes) <-> ranks lanes l e.
Proof.
  intros Hwf. unfold pairs_of, ranks. rewrite list_elem_of_In, in_concat. split.
  - intros (x & (r & <- & Hr)%in_map_iff & (e' & [= <- <-] & He)%in_map_iff). apply list_elem_of_In in Hr, He.
    apply elem_of_rankings in Hr as [l' Hl']. destruct (Hwf _ _ Hl') as [-> _]. by exists r.
  - intros (r & Hl & He). exists (pair (lr_lane r) <$> lr_entries r). destruct (Hwf _ _ Hl) as [<- _]. split.
    + apply in_map_iff. exists r. split; [done|]. apply list_elem_of_In, elem_of_rankings. by eexists.
    + apply list_elem_of_In, list_elem_of_fmap. by exists e.
Qed.

Lemma ranked_pairs lanes : pair_id <$> pairs_of (rankings lanes) = le_occurrence <$> concat (lr_entries <$> rankings lanes).
Proof.
  unfold pairs_of. induction (rankings lanes) as [|r rs IH]; [done|].
  cbn [fmap list_fmap concat]. rewrite !fmap_app, IH. f_equal. rewrite <- list_fmap_compose. done.
Qed.

Lemma distinct_ranked lanes : distinct (pairs_of (rankings lanes)) = length (ranked_ids lanes).
Proof.
  unfold distinct, ranked_ids. by rewrite ranked_pairs.
Qed.

Lemma united_nil : united [] [].
Proof. split_and!; [constructor|by intros o ?%elem_of_nil|done]. Qed.

Lemma fuse_union lanes p bound :
  wf_lanes lanes -> 0 <= bound ->
  match fuse lanes p bound with
  | Ok f => exists u, united (pairs_of (rankings lanes)) u /\ Z.of_nat (length (ranked_ids lanes)) <= bound /\
      f = mkFusedRanking (imap with_position (sort_by fused_cmp (score_union p u)))
            (slots_map (fun l => negb (bool_decide (is_Some (lane_slot l lanes)))))
  | Err x => x = mkUnionExceeded bound /\ bound < Z.of_nat (length (ranked_ids lanes))
  end.
Proof.
  intros Hwf Hb. rewrite <- distinct_ranked. unfold fuse.
  pose proof (union_rankings_outcome bound (rankings lanes) [] [] united_nil Hb (rankings_lanes lanes Hwf)) as H.
  unfold union_outcome in H. cbn [app] in H.
  destruct (union_rankings bound (rankings lanes) []) as [u|x]; cbn [mbind result_bind].
  - destruct H as [Hu Hd]; [|by intros r e _ ?%elem_of_nil|exists u; split_and!; done].
    rewrite list.Forall_forall. intros r [l Hl]%elem_of_rankings. by destruct (Hwf _ _ Hl).
  - apply H; [|by intros r e _ ?%elem_of_nil].
    rewrite list.Forall_forall. intros r [l Hl]%elem_of_rankings. by destruct (Hwf _ _ Hl).
Qed.

Lemma score_union_ids p u : map fe_occurrence (score_union p u) = map fst u.
Proof. unfold score_union. rewrite map_map. done. Qed.

Lemma score_union_strict p u :
  key_ordered u -> StronglySorted (fun a b => fused_cmp a b = Lt) (sort_by fused_cmp (score_union p u)).
Proof.
  intros Ho. apply (sort_by_strict fused_cmp).
  - apply (NoDup_fmap_1 fe_occurrence). change (NoDup (map fe_occurrence (score_union p u))).
    rewrite score_union_ids. by apply key_ordered_NoDup.
  - intros x y Hx Hy E%fused_cmp_eq. unfold score_union in *.
    apply list_elem_of_fmap in Hx as ([o s] & -> & Hx), Hy as ([o' s'] & -> & Hy).
    cbn [fe_occurrence fst] in E. subst o'.
    apply elem_of_btree_get in Hx, Hy; [|by apply key_ordered_NoDup..].
    rewrite Hx in Hy. by injection Hy as <-.
Qed.

Lemma with_position_sorted l :
  StronglySorted (fun a b => fused_cmp a b = Lt) l -> StronglySorted (fun a b => fused_cmp a b = Lt) (imap with_position l).
Proof.
  assert (forall n, StronglySorted (fun a b => fused_cmp a b = Lt) l ->
    StronglySorted (fun a b => fused_cmp a b = Lt) (imap (fun i => with_position (n + i)) l)) as H; [|exact (H O)].
  induction l as [|x l IH]; intros n; [constructor|]. intros [Hs Hall]%StronglySorted_inv. cbn [imap].
  constructor.
  - rewrite (imap_ext _ (fun i => with_position (S n + i))) by (intros; unfold compose; f_equal; lia). by apply IH.
  - rewrite list.Forall_forall in *. intros y (i & z & -> & Hz)%elem_of_lookup_imap_1. apply list_elem_of_lookup_2 in Hz.
    exact (Hall z Hz).
Qed.

(** ** One lane alone *)

(** What the fusion of one lane holds before it is sorted. *)
Definition lone_entry (p : FusionParameters) (lane : Lane) (e : LaneEntry) : FusedEntry :=
  mkFused (le_occurrence e) 1 (term p lane (le_position e))
    (put_slot lane (Some (entry_contribution e)) no_contributions).

Lemma lone_score p lane c :
  non_negative (term p lane (lc_position c)) ->
  fused_score p (put_slot lane (Some c) no_contributions) = term p lane (lc_position c).
Proof. intros H. unfold fused_score. destruct lane; cbn [LANE_ORDER foldl lane_slot put_slot no_contributions at_exact at_lexical at_dense]; by apply add_zero_l. Qed.

(** The union of one lane, in identifier order, is its entries. *)
Lemma lone_union p r u :
  wf_ranking r -> (forall e, e ∈ lr_entries r -> non_negative (term p (lr_lane r) (le_position e))) ->
  united (pairs_of [r]) u -> score_union p u ≡ₚ map (lone_entry p (lr_lane r)) (lr_entries r).
Proof.
  intros [Hnd _] Hpos (Ho & Hin & Hs). pose proof (key_ordered_NoDup _ Ho) as Hu.
  assert (forall l e, (l, e) ∈ pairs_of [r] <-> l = lr_lane r /\ e ∈ lr_entries r) as Hp.
  { intros l e. unfold pairs_of. cbn. rewrite app_nil_r, list_elem_of_fmap. naive_solver. }
  assert (forall o s, btree_get o u = Some s ->
    exists e, e ∈ lr_entries r /\ le_occurrence e = o /\ s = put_slot (lr_lane r) (Some (entry_contribution e)) no_contributions) as Hsl.
  { intros o s Hg. destruct (Hs o s Hg) as [([l e] & -> & [-> He]%Hp)%list_elem_of_fmap Hc]. exists e. split; [done|].
    split; [done|]. apply slots_ext. intros l. rewrite slot_put. case_bool_decide as El.
    - subst l. apply Hc. exists e. by rewrite Hp.
    - destruct (lane_slot l s) as [c|] eqn:E; [|by destruct l]. apply Hc in E as (e' & [-> _]%Hp & _). done. }
  apply NoDup_Permutation.
  - apply (NoDup_fmap_1 fe_occurrence). change (NoDup (map fe_occurrence (score_union p u))). by rewrite score_union_ids.
  - apply (NoDup_fmap_1 fe_occurrence). change (NoDup (map fe_occurrence (map (lone_entry p (lr_lane r)) (lr_entries r)))).
    by rewrite map_map.
  - intros x. unfold score_union. rewrite !list_elem_of_fmap. split.
    + intros ([o s] & -> & Hx). apply elem_of_btree_get in Hx; [|done]. destruct (Hsl _ _ Hx) as (e & He & <- & ->).
      exists e. split; [|done]. unfold lone_entry. cbn [fst snd]. by rewrite lone_score by by apply Hpos.
    + intros (e & -> & He). destruct (Hin (le_occurrence e)) as [s Hg].
      { apply list_elem_of_fmap. exists (lr_lane r, e). by rewrite Hp. }
      exists (le_occurrence e, s). split; [|by apply btree_get_elem].
      destruct (Hsl _ _ Hg) as (e' & He' & E & ->). assert (e' = e) as ->.
      { by eapply NoDup_map_inj. }
      unfold lone_entry. cbn [fst snd]. by rewrite lone_score by by apply Hpos.
Qed.

(** Entries of decreasing terms are in the order fusion sorts by. *)
Definition decreasing_terms (p : FusionParameters) (lane : Lane) (n : Z) : Prop :=
  forall i j, 1 <= i < j -> j <= n -> f64_total_cmp (term p lane j) (term p lane i) = Lt.

Lemma lone_sorted p r :
  wf_ranking r -> decreasing_terms p (lr_lane r) (Z.of_nat (length (lr_entries r))) ->
  StronglySorted (cmp_le fused_cmp) (map (lone_entry p (lr_lane r)) (lr_entries r)).
Proof.
  intros [_ Hpos] Hdec. apply StronglySorted_lookup. intros i j x y Hij Hi Hj.
  change (map ?f ?l) with (f <$> l) in *. rewrite list_lookup_fmap in Hi, Hj.
  apply fmap_Some in Hi as (e & He & ->), Hj as (e' & He' & ->).
  destruct (Hpos _ _ He) as [Ee _], (Hpos _ _ He') as [Ee' _]. apply lookup_lt_Some in He'.
  unfold cmp_le, fused_cmp, cmp_then, cmp_rev, cmp_by, lone_entry. cbn [fe_score fe_occurrence].
  rewrite Ee, Ee', Hdec by lia. done.
Qed.

Lemma with_position_lone p r :
  wf_ranking r -> imap with_position (map (lone_entry p (lr_lane r)) (lr_entries r)) = fused_entries (direct r p).
Proof.
  intros [_ Hpos]. apply list_eq. intros i. unfold direct. cbn [fused_entries]. change (map ?f ?l) with (f <$> l).
  rewrite list_lookup_imap, !list_lookup_fmap. destruct (lr_entries r !! i) as [e|] eqn:E; [|done].
  cbn [fmap option_fmap option_map]. unfold with_position, lone_entry.
  cbn [fe_occurrence fe_position fe_score fe_contributions]. by destruct (Hpos _ _ E) as [-> _].
Qed.

Definition lone_lane (r : LaneRanking) : DeclaredLanes := put_slot (lr_lane r) (Some r) (mkSlots None None None).

Lemma lone_rankings r : rankings (lone_lane r) = [r].
Proof. unfold rankings, lone_lane. by destruct (lr_lane r). Qed.

(** Admitted parameters have no negative term. *)
Lemma admit_weights_non_negative lanes ws admitted :
  admit_weights lanes ws = Ok admitted ->
  forall l, l ∈ lanes \/ non_negative (lane_slot l ws) -> non_negative (lane_slot l admitted).
Proof.
  revert ws. induction lanes as [|lane rest IH]; intros ws; cbn [admit_weights].
  - intros [= <-] l [H%elem_of_nil|H]; done.
  - destruct (negb (f64_finite (lane_slot lane ws)) || SFltb (lane_slot lane ws) (S754_zero false)) eqn:E; [done|].
    intros Ha l Hl. apply (IH _ Ha). destruct (decide (l = lane)) as [->|Hne].
    + right. rewrite slot_put, bool_decide_eq_true_2 by done. by destruct (lane_slot lane ws) as [[]|[]| |[] m e].
    + destruct Hl as [[->|Hl]%elem_of_cons|Hl]; [done|by left|right]. by rewrite slot_put, bool_decide_eq_false_2.
Qed.

Lemma terms_non_negative ws k p lane position :
  FusionParameters_new ws k = Ok p -> 0 <= position -> non_negative (term p lane position).
Proof.
  unfold FusionParameters_new. destruct (admit_weights LANE_ORDER ws) as [admitted|] eqn:Ea; cbn [mbind result_bind]; [|done].
  destruct (negb (f64_finite k) || SFleb k (S754_zero false)) eqn:Ek; [done|].
  lazymatch goal with |- (if ?b then _ else _) = _ -> _ => destruct b; [done|] end. intros [= <-] Hp. unfold term. cbn [weights fusion_k].
  apply f64_div_non_negative.
  - apply (admit_weights_non_negative _ _ _ Ea). left. destruct lane; repeat (left || right).
  - apply f64_add_non_negative; [|by apply f64_of_Z_non_negative]. by destruct k as [[]|[]| |[] m e].
Qed.

(** ** Claims on fusion *)

(** C37: Fusing declared lanes either refuses, exactly when more distinct occurrences are ranked
    than the bound allows, or returns every ranked occurrence exactly once, strictly ordered by
    descending score and then by identifier bytes, with the position of its place; its
    contributions are exactly the lane entries that rank it, and its score is their terms summed
    in lane order. *)
Theorem fusion_exact lanes p bound :
  wf_lanes lanes -> 0 <= bound ->
  match fuse lanes p bound with
  | Err x => exceeded_bound x = bound /\ bound < Z.of_nat (length (ranked_ids lanes))
  | Ok f =>
      Z.of_nat (length (ranked_ids lanes)) <= bound /\
      map fe_occurrence (fused_entries f) ≡ₚ ranked_ids lanes /\
      StronglySorted (fun a b => fused_cmp a b = Lt) (fused_entries f) /\
      forall i e, fused_entries f !! i = Some e ->
        fe_position e = Z.of_nat i + 1 /\
        fe_score e = fused_score p (fe_contributions e) /\
        forall l c, lane_slot l (fe_contributions e) = Some c <->
          exists le, ranks lanes l le /\ le_occurrence le = fe_occurrence e /\ c = entry_contribution le
  end.
Proof.
  intros Hwf Hb. pose proof (fuse_union lanes p bound Hwf Hb) as H.
  destruct (fuse lanes p bound) as [f|x]; [|by destruct H as [-> ?]].
  destruct H as (u & Hu & Hlen & ->). cbn [fused_entries]. pose proof Hu as (Ho & Hin & Hs). pose proof (key_ordered_NoDup _ Ho) as Hnd.
  split_and!; [done| |by apply with_position_sorted, score_union_strict|].
  - change (map ?f ?l) with (f <$> l). rewrite fmap_imap, (imap_const fe_occurrence), (sort_by_perm fused_cmp).
    change (map fe_occurrence (score_union p u) ≡ₚ ranked_ids lanes). rewrite score_union_ids.
    apply NoDup_Permutation; [done|apply NoDup_remove_dups|]. intros o. unfold ranked_ids. rewrite elem_of_remove_dups.
    rewrite <- ranked_pairs. split.
    + intros ([o' s] & -> & Hx)%list_elem_of_fmap. apply elem_of_btree_get in Hx; [|done]. by destruct (Hs _ _ Hx).
    + intros [s Hg]%Hin. apply btree_get_elem in Hg. apply list_elem_of_fmap. by exists (o, s).
  - intros i e Hi. rewrite list_lookup_imap in Hi. apply fmap_Some in Hi as (x & Hx & ->).
    apply list_elem_of_lookup_2 in Hx. rewrite (sort_by_perm fused_cmp) in Hx. unfold score_union in Hx.
    apply list_elem_of_fmap in Hx as ([o s] & -> & Hx). apply elem_of_btree_get in Hx; [|done].
    unfold with_position. cbn [fe_position fe_score fe_contributions fe_occurrence fst snd]. split; [done|]. split; [done|].
    intros l c. destruct (Hs _ _ Hx) as [_ Hc]. rewrite Hc. by setoid_rewrite (elem_of_pairs lanes l _ Hwf).
Qed.

Lemma fusion_exact_witness :
  let r l es := mkRanking l 2 es in
  let lanes := mkSlots None
    (Some (r LaneLexical [mkEntry "b" 1 (ScoreLexical (f64_of_Z (-3))); mkEntry "a" 2 (ScoreLexical (f64_of_Z (-1)))]))
    (Some (r LaneDense [mkEntry "c" 1 (ScoreDense (f64_of_Z 1)); mkEntry "a" 2 (ScoreDense (f64_of_Z 0))])) in
  let p := mkParameters (mkSlots (f64_of_Z 1) (f64_of_Z 1) (f64_of_Z 1)) (f64_of_Z 60) in
  exists f, fuse lanes p 3 = Ok f /\ map fe_occurrence (fused_entries f) = ["a"; "b"; "c"] /\
    StronglySorted (fun a b => fused_cmp a b = Lt) (fused_entries f).
Proof.
  intros r lanes p. assert (wf_lanes lanes) as Hwf.
  { intros [] r'; [done|..]; intros [= <-]; (split; [done|]); (split; [apply (bool_decide_eq_true (NoDup _)); reflexivity|]);
      intros [|[|i]] e; cbn; (done || (intros [= <-]; done)). }
  pose proof (fusion_exact lanes p 3 Hwf ltac:(lia)) as H.
  assert (exists f, fuse lanes p 3 = Ok f /\ map fe_occurrence (fused_entries f) = ["a"; "b"; "c"]) as (f & E & Hm)
    by (eexists; split; [vm_compute; reflexivity|vm_compute; reflexivity]).
  rewrite E in H. exists f. split; [exact E|]. split; [exact Hm|]. apply H.
Defined.

(** Returning one lane's ranking directly equals fusing that lane alone, under admitted
    parameters whose terms, as doubles, strictly decrease over the positions the lane fills. *)
Theorem direct_is_fusion r ws k p bound :
  wf_ranking r -> FusionParameters_new ws k = Ok p -> Z.of_nat (length (lr_entries r)) <= bound ->
  decreasing_terms p (lr_lane r) (Z.of_nat (length (lr_entries r))) ->
  fuse (lone_lane r) p bound = Ok (direct r p).
Proof.
  intros Hwf Hnew Hb Hdec. assert (wf_lanes (lone_lane r)) as Hl.
  { intros l r'. unfold lone_lane. rewrite slot_put. case_bool_decide as E; [intros [= <-]; by subst|by destruct l]. }
  pose proof (fuse_union (lone_lane r) p bound Hl ltac:(lia)) as H. rewrite lone_rankings in H.
  assert (length (ranked_ids (lone_lane r)) <= length (lr_entries r))%nat as Hle.
  { unfold ranked_ids. rewrite lone_rankings. cbn [fmap list_fmap concat]. rewrite app_nil_r.
    etransitivity; [|apply Nat.eq_le_incl, (length_fmap le_occurrence)].
    apply submseteq_length, NoDup_submseteq; [apply NoDup_remove_dups|].
    intros o. by rewrite elem_of_remove_dups. }
  destruct (fuse (lone_lane r) p bound) as [f|x] eqn:E; [|destruct H as [_ H]; lia].
  destruct H as (u & Hu & _ & ->). f_equal. unfold direct. cbv zeta. f_equal.
  - etransitivity; [|exact (with_position_lone p r Hwf)]. f_equal.
    rewrite <- (sort_by_id fused_cmp (map (lone_entry p (lr_lane r)) (lr_entries r))); [|by apply lone_sorted|].
    + apply (sort_by_unique fused_cmp); [apply lone_union; [done| |done]|].
      * intros e (i & Hi)%list_elem_of_lookup_1. destruct Hwf as [_ Hp]. destruct (Hp _ _ Hi) as [-> _].
        apply (terms_non_negative ws k p _ _ Hnew). lia.
      * intros x y Hx Hy Hxy%fused_cmp_eq. destruct Hu as (Ho & _). eapply (NoDup_map_inj fe_occurrence); eauto.
        rewrite score_union_ids. by apply key_ordered_NoDup.
    + intros x y Hx Hy Hxy%fused_cmp_eq. eapply (NoDup_map_inj fe_occurrence); eauto. rewrite map_map. by destruct Hwf.
  - apply slots_ext. intros l. rewrite !slot_map. unfold lone_lane. rewrite slot_put. f_equal.
    apply bool_decide_ext. case_bool_decide as El; [split; [done|by eexists]|].
    split; [intros [? H]; by destruct l|done].
Qed.

Lemma direct_is_fusion_witness :
  let ws := mkSlots (f64_of_Z 1) (f64_of_Z 1) (f64_of_Z 1) in
  let r := mkRanking LaneLexical 2 [mkEntry "b" 1 (ScoreLexical (f64_of_Z (-3))); mkEntry "a" 2 (ScoreLexical (f64_of_Z (-1)))] in
  exists p, FusionParameters_new ws (f64_of_Z 60) = Ok p /\ fuse (lone_lane r) p 10 = Ok (direct r p).
Proof.
  intros ws r. assert (wf_ranking r) as Hwf.
  { split; [apply (bool_decide_eq_true (NoDup _)); reflexivity|].
    intros [|[|i]] e; cbn; [intros [= <-]; done|intros [= <-]; done|done]. }
  assert (exists p, FusionParameters_new ws (f64_of_Z 60) = Ok p /\ f64_total_cmp (term p LaneLexical 2) (term p LaneLexical 1) = Lt)
    as (p & E & Ht) by (eexists; split; [vm_compute; reflexivity|vm_compute; reflexivity]).
  exists p. split; [exact E|]. apply (direct_is_fusion r ws (f64_of_Z 60) p 10 Hwf E); [vm_compute; discriminate|].
  intros i j Hi Hj. change (Z.of_nat (length (lr_entries r))) with 2 in Hj.
  assert (i = 1) as -> by lia. assert (j = 2) as -> by lia. exact Ht.
Defined.

(** Where the terms of two positions round to the same double, fusing a lane alone orders them by
    identifier, not by lane position: with [k] = 2^60 and a lane weight of one, fusion reverses
    the ranking that [direct] returns. *)
Lemma direct_differs_when_terms_tie :
  let ws := mkSlots (f64_of_Z 1) (f64_of_Z 1) (f64_of_Z 1) in
  let h o v := mkHit o (ScoreLexical (f64_of_Z v)) in
  exists p r, FusionParameters_new ws (f64_of_Z (2 ^ 60)) = Ok p /\
    consolidate LaneLexical 2 [h "a" (-1); h "b" (-2)] = Ok r /\
    map fe_occurrence (fused_entries (direct r p)) = ["b"; "a"] /\
    (map fe_occurrence ∘ fused_entries) <$> (match fuse (lone_lane r) p 10 with Ok f => Some f | Err _ => None end) = Some ["a"; "b"].
Proof.
  intros ws h. do 2 eexists. split; [vm_compute; reflexivity|]. split; [vm_compute; reflexivity|].
  split; vm_compute; reflexivity.
Qed.

End Fusion.
