(* ===== verification/Packing.v ===== *)
(** * Packing: selecting, bounding and grouping the occurrences of a prepared context
    (retrieval/src/packing)

    Byte payloads are lists of bytes; identifiers are strings. The hash maps the code indexes are
    association lists in insertion order. Panicking slices and map indexing return [None]. *)
From S2P Require Import Prelude BTree SortBy Scan Utf8 Fusion.
From stdpp Require Import strings sorting.

#[local] Open Scope Z_scope.

Module Packing.
Import Fusion.

(** ** Data *)
Record Span := mkSpan { span_start : Z; span_end : Z }.

Inductive OccurrenceClass := Messages | CanonicalClaims | PromotedMemory | GitCommits | RawToolSpans | RepositoryDocuments.

#[global] Instance OccurrenceClass_eq_dec : EqDecision OccurrenceClass.
Proof. solve_decision. Defined.

Record ParentGroupKey := mkParentKey { parent_id : string; parent_revision : Z }.

#[global] Instance ParentGroupKey_eq_dec : EqDecision ParentGroupKey.
Proof. solve_decision. Defined.

Record GroupingKey := mkGroupingKey { gk_class : OccurrenceClass; gk_parent : ParentGroupKey; gk_representation : string }.

#[global] Instance GroupingKey_eq_dec : EqDecision GroupingKey.
Proof. solve_decision. Defined.

Inductive Grouping := Grouped (key : GroupingKey) | NonGrouping (class : OccurrenceClass).

Record PayloadRef := mkPayloadRef { payload_id : string; byte_length : Z }.

Inductive Sensitivity := Normal | Sensitive | Secret.

Record Provenance := mkProvenance {
  domain_id : string;
  source_object_id : string;
  source_evidence_id : string;
  source_artifact_digest : string;
  created_commit_seq : Z;
}.

Inductive TombstoneReason := TombSuperseded | TombRetired | TombEvidenceInvalidated | TombPurged.

Record Tombstone := mkTombstone { invalidated_commit_seq : Z; tombstone_reason : TombstoneReason }.

Record SelectedOccurrence := mkSelected {
  occurrence : OccurrenceId;
  oc_class : OccurrenceClass;
  oc_revision : Z;
  oc_representation : string;
  oc_span : option Span;
  payload : PayloadRef;
  sensitivity : Sensitivity;
  provenance : Provenance;
  tombstone : option Tombstone;
  grouping : Grouping;
}.

(** [Grouping::applies_to] and [SelectedOccurrence::is_stale_for]. *)
Definition grouping_applies_to (c : OccurrenceClass) : bool := bool_decide (c = RawToolSpans).

Definition is_stale_for (row : SelectedOccurrence) (selected_revision : Z) : bool :=
  match tombstone row with Some _ => true | None => negb (oc_revision row =? selected_revision) end.

(** ** Grouping *)
Record Selected := mkItem { sel_row : SelectedOccurrence; sel_bytes : list Z }.

Inductive Ungrouped := EmptySpan | SpanOverflow | OverlapDisagreement | Utf8Boundary.

Inductive GroupIdentity := IdGrouped (key : GroupingKey) | IdSingle (id : OccurrenceId).

#[global] Instance GroupIdentity_eq_dec : EqDecision GroupIdentity.
Proof. solve_decision. Defined.

Definition identity_of (row : SelectedOccurrence) : GroupIdentity :=
  match grouping row with Grouped key => IdGrouped key | NonGrouping _ => IdSingle (occurrence row) end.

Record MergedRange := mkRange { mr_span : Span; mr_bytes : list Z; mr_members : list OccurrenceId }.

Record Group := mkGroup { g_identity : GroupIdentity; first_fused : nat; g_ranges : list MergedRange }.

Record Partition := mkPartition { groups : list Group; refused : list (OccurrenceId * Ungrouped) }.

Record Member := mkMember {
  m_fused : nat;
  m_occurrence : OccurrenceId;
  m_start : Z;
  m_end : Z;
  whole_buffer : bool;
  m_bytes : list Z;
}.

Definition group_members (g : Group) : list OccurrenceId := concat (mr_members <$> g_ranges g).

Definition member_of (fused : nat) (item : Selected) : Member :=
  let row := sel_row item in
  let '(s, e) := match oc_span row with None => (0, byte_length (payload row)) | Some sp => (span_start sp, span_end sp) end in
  mkMember fused (occurrence row) s e (match oc_span row with None => true | Some _ => false end) (sel_bytes item).

(** [index.entry(identity)] with the parallel [order] and [buckets]. *)
Fixpoint bucket_push (i : GroupIdentity) (m : Member) (buckets : list (GroupIdentity * list Member))
  : list (GroupIdentity * list Member) :=
  match buckets with
  | [] => [(i, [m])]
  | (i', ms) :: rest => if bool_decide (i = i') then (i', ms ++ [m]) :: rest else (i', ms) :: bucket_push i m rest
  end.

Fixpoint fill_buckets (fused : nat) (selected : list Selected) (buckets : list (GroupIdentity * list Member))
  : list (GroupIdentity * list Member) :=
  match selected with
  | [] => buckets
  | item :: rest => fill_buckets (S fused) rest (bucket_push (identity_of (sel_row item)) (member_of fused item) buckets)
  end.

Definition span_refusal (m : Member) : option Ungrouped :=
  if m_end m <? m_start m then Some SpanOverflow
  else if (m_end m =? m_start m) && negb (whole_buffer m) then Some EmptySpan
  else if negb (m_end m - m_start m =? Z.of_nat (length (m_bytes m))) then Some SpanOverflow
  else None.

Definition beyond (length : Z) (m : Member) : option Ungrouped :=
  if length <? m_end m then Some SpanOverflow else None.

(** [Vec::retain] with a closure that records why an element goes. *)
Definition retain (reason : Member -> option Ungrouped) (ms : list Member) : list Member * list (OccurrenceId * Ungrouped) :=
  (filter (fun m => reason m = None) ms, omap (fun m => pair (m_occurrence m) <$> reason m) ms).

Definition member_cmp : Member -> Member -> comparison :=
  cmp_then (cmp_by m_start Z.compare) (cmp_then (cmp_by m_end Z.compare) (cmp_by m_occurrence String.compare)).

(** The runs, most recent first. *)
Definition run_of_member (m : Member) : MergedRange * bool :=
  (mkRange (mkSpan (m_start m) (m_end m)) (m_bytes m) [m_occurrence m], false).

Definition run_extend (current : MergedRange) (disagreed : bool) (m : Member) : option (MergedRange * bool) :=
  let cur := mr_span current in
  let overlap := Z.to_nat (span_end cur - m_start m) in
  let cut := Nat.min overlap (length (m_bytes m)) in
  let shared := take cut (m_bytes m) in
  let tail := drop cut (m_bytes m) in
  let offset := Z.to_nat (m_start m - span_start cur) in
  here ← get_range (mr_bytes current) offset (length shared);
  let disagreed := if bool_decide (here = shared) then disagreed else true in
  Some (mkRange (mkSpan (span_start cur) (Z.max (span_end cur) (m_end m))) (mr_bytes current ++ tail)
          (mr_members current ++ [m_occurrence m]), disagreed).

Definition run_step (runs : list (MergedRange * bool)) (m : Member) : option (list (MergedRange * bool)) :=
  match runs with
  | (current, disagreed) :: rest =>
      if m_start m <=? span_end (mr_span current)
      then run ← run_extend current disagreed m; Some (run :: rest)
      else Some (run_of_member m :: runs)
  | [] => Some [run_of_member m]
  end.

Fixpoint run_loop (runs : list (MergedRange * bool)) (ms : list Member) : option (list (MergedRange * bool)) :=
  match ms with
  | [] => Some runs
  | m :: rest => runs ← run_step runs m; run_loop runs rest
  end.

Definition finish_reason (run : MergedRange * bool) : option Ungrouped :=
  if run.2 then Some OverlapDisagreement
  else if negb (utf8_valid (mr_bytes run.1)) then Some Utf8Boundary
  else None.

Definition finish (run : MergedRange * bool) (ranges : list MergedRange) (refused : list (OccurrenceId * Ungrouped))
  : list MergedRange * list (OccurrenceId * Ungrouped) :=
  match finish_reason run with
  | Some reason => (ranges, refused ++ ((fun o => (o, reason)) <$> mr_members run.1))
  | None => (ranges ++ [run.1], refused)
  end.

Fixpoint finish_loop (runs : list (MergedRange * bool)) (ranges : list MergedRange) (refused : list (OccurrenceId * Ungrouped))
  : list MergedRange * list (OccurrenceId * Ungrouped) :=
  match runs with
  | [] => (ranges, refused)
  | run :: rest => let '(ranges, refused) := finish run ranges refused in finish_loop rest ranges refused
  end.

Definition merge (members : list Member) (refused : list (OccurrenceId * Ungrouped))
  : option (list MergedRange * list (OccurrenceId * Ungrouped)) :=
  let '(members, gone) := retain span_refusal members in
  let whole_length := m_end <$> List.find whole_buffer members in
  let '(members, gone') := match whole_length with Some l => retain (beyond l) members | None => (members, []) end in
  runs ← run_loop [] (sort_by member_cmp members);
  Some (finish_loop (reverse runs) [] (refused ++ gone ++ gone')).

(** [fused[member]]: the first position recorded for the occurrence. *)
Definition fused_index (members : list Member) (o : OccurrenceId) : option nat :=
  m_fused <$> List.find (fun m => bool_decide (m_occurrence m = o)) members.

(** [Iterator::min]. *)
Definition min_list (l : list nat) : option nat :=
  match l with [] => None | x :: rest => Some (foldl Nat.min x rest) end.

Fixpoint group_loop (buckets : list (GroupIdentity * list Member)) (refused : list (OccurrenceId * Ungrouped))
  (groups : list Group) : option (list Group * list (OccurrenceId * Ungrouped)) :=
  match buckets with
  | [] => Some (groups, refused)
  | (i, members) :: rest =>
      '(ranges, refused) ← merge members refused;
      indices ← mapM (fused_index members) (concat (mr_members <$> ranges));
      let groups := match min_list indices with Some f => groups ++ [mkGroup i f ranges] | None => groups end in
      group_loop rest refused groups
  end.

Definition group (selected : list Selected) : option Partition :=
  '(gs, refused) ← group_loop (fill_buckets 0 selected []) [] [];
  Some (mkPartition (sort_by (cmp_by first_fused Nat.compare) gs) refused).

(** ** Token counts: the trait and its implementation for [u64] *)
Class TokenCount (C : Type) := {
  tc_zero : C;
  tc_max : C;
  tc_checked_add : C -> C -> option C;
  tc_checked_sub : C -> C -> option C;
  tc_leb : C -> C -> bool;
}.

Class TokenCountLaws (C : Type) `{TokenCount C} := {
  tc_value : C -> Z;
  tc_value_nonneg : forall a, 0 <= tc_value a;
  tc_zero_value : tc_value tc_zero = 0;
  tc_add_some : forall a b c, tc_checked_add a b = Some c -> tc_value c = tc_value a + tc_value b;
  tc_add_none : forall a b, tc_checked_add a b = None -> tc_value tc_max < tc_value a + tc_value b;
  tc_sub_some : forall a b c, tc_checked_sub a b = Some c -> tc_value c = tc_value a - tc_value b;
  tc_sub_none : forall a b, tc_checked_sub a b = None -> tc_value a < tc_value b;
  tc_leb_value : forall a b, tc_leb a b = (tc_value a <=? tc_value b);
}.

#[global] Instance u64_tokens : TokenCount N := {|
  tc_zero := 0%N;
  tc_max := Z.to_N u64_MAX;
  tc_checked_add a b := if (a + b <=? Z.to_N u64_MAX)%N then Some (a + b)%N else None;
  tc_checked_sub a b := if (b <=? a)%N then Some (a - b)%N else None;
  tc_leb := N.leb;
|}.

#[global] Instance u64_tokens_laws : TokenCountLaws N.
Proof.
  refine {| tc_value := Z.of_N |}; cbn [tc_zero tc_max tc_checked_add tc_checked_sub tc_leb u64_tokens].
  - intros a. lia.
  - done.
  - intros a b c. destruct (N.leb_spec (a + b) (Z.to_N u64_MAX)); [|done]. intros [= <-]. lia.
  - intros a b. destruct (N.leb_spec (a + b) (Z.to_N u64_MAX)); [done|]. lia.
  - intros a b c. destruct (N.leb_spec b a); [|done]. intros [= <-]. lia.
  - intros a b. destruct (N.leb_spec b a); [done|]. lia.
  - intros a b. destruct (N.leb_spec a b), (Z.leb_spec (Z.of_N a) (Z.of_N b)); lia.
Defined.

(** ** Required context *)
Inductive EligibilityVerdict :=
| VerdictOk | VerdictRetracted | VerdictSuperseded | VerdictStale | VerdictWrongScope | VerdictHidden | VerdictProviderSensitive.

Inductive Disposition := Eligible | PolicyExcluded (verdict : EligibilityVerdict).

Record RequiredRequest := mkRequest { rq_occurrence : OccurrenceId; rq_revision : Z }.

Record RequiredBounds := mkRequiredBounds { rb_payload_loads : Z; rb_payload_bytes : Z; rb_item_bytes : Z }.

Inductive RequiredBound := BoundPayloadLoads | BoundPayloadBytes | BoundItemBytes.

Inductive RequiredContextFailure (C : Type) :=
| Missing (o : OccurrenceId)
| StaleRow (o : OccurrenceId)
| HiddenRow (o : OccurrenceId)
| CorruptRow (o : OccurrenceId)
| Ineligible (o : OccurrenceId) (verdict : EligibilityVerdict)
| Oversized (o : OccurrenceId) (bound : RequiredBound)
| OverBudget (limit charged : C).
Arguments Missing {C} o.
Arguments StaleRow {C} o.
Arguments HiddenRow {C} o.
Arguments CorruptRow {C} o.
Arguments Ineligible {C} o verdict.
Arguments Oversized {C} o bound.
Arguments OverBudget {C} limit charged.

Record RequiredFact := mkFact { fact_request : RequiredRequest; fact_row : SelectedOccurrence; fact_disposition : Disposition }.

Section Required.
Context {C : Type} `{TokenCount C}.

(** The checks of one fact before its size; [None] lets it pass. *)
Definition fact_fault (f : RequiredFact) : option (RequiredContextFailure C) :=
  let o := rq_occurrence (fact_request f) in
  let row := fact_row f in
  if negb (bool_decide (occurrence row = o)) then Some (CorruptRow o)
  else if is_stale_for row (rq_revision (fact_request f)) then Some (StaleRow o)
  else match fact_disposition f with
  | Eligible => None
  | PolicyExcluded VerdictHidden => Some (HiddenRow o)
  | PolicyExcluded (VerdictStale | VerdictSuperseded) => Some (StaleRow o)
  | PolicyExcluded v => Some (Ineligible o v)
  end.

Fixpoint required_loop (b : RequiredBounds) (facts : list RequiredFact) (total : Z) (admitted : list SelectedOccurrence)
  : result (RequiredContextFailure C) (list SelectedOccurrence) :=
  match facts with
  | [] => Ok admitted
  | f :: rest =>
      let o := rq_occurrence (fact_request f) in
      match fact_fault f with
      | Some e => Err e
      | None =>
          let bytes := byte_length (payload (fact_row f)) in
          if rb_item_bytes b <? bytes then Err (Oversized o BoundItemBytes)
          else match checked_add u64_MAX total bytes with
          | Some t => if t <=? rb_payload_bytes b then required_loop b rest t (admitted ++ [fact_row f])
                      else Err (Oversized o BoundPayloadBytes)
          | None => Err (Oversized o BoundPayloadBytes)
          end
      end
  end.

Definition admit_required (facts : list RequiredFact) (b : RequiredBounds)
  : result (RequiredContextFailure C) (list SelectedOccurrence) :=
  match facts !! Z.to_nat (rb_payload_loads b) with
  | Some f => Err (Oversized (rq_occurrence (fact_request f)) BoundPayloadLoads)
  | None => required_loop b facts 0 []
  end.

(** [reserve_required]: one cost per item, summed under the limit. *)
Fixpoint reserve_loop (items : list (SelectedOccurrence * list Z)) (limit : C) (cost : SelectedOccurrence -> list Z -> C)
  (costs : list C) (charged : C) : result (RequiredContextFailure C) (list C * C) :=
  match items with
  | [] => Ok (costs, charged)
  | (row, bytes) :: rest =>
      if negb (Z.of_nat (length bytes) =? byte_length (payload row)) then Err (CorruptRow (occurrence row))
      else
        let c := cost row bytes in
        let sum := tc_checked_add charged c in
        match sum with
        | Some s => if tc_leb s limit then reserve_loop rest limit cost (costs ++ [c]) s else Err (OverBudget limit s)
        | None => Err (OverBudget limit tc_max)
        end
  end.

Definition reserve_required (admitted : list SelectedOccurrence) (bytes : list (list Z)) (limit : C)
  (cost : SelectedOccurrence -> list Z -> C) : result (RequiredContextFailure C) (list C * C) :=
  match admitted !! length bytes with
  | Some row => Err (CorruptRow (occurrence row))
  | None => reserve_loop (zip admitted bytes) limit cost [] tc_zero
  end.

(** ** The optional scan *)
Record ScanResult := mkScan { sc_admitted : list nat; sc_skipped : list nat; sc_remaining : C }.

Section OptionalScan.
Context {St : Type} (marginal : St -> nat -> C * St) (admit_item : St -> nat -> St).

Definition scan_step (index : nat) (sc : ScanResult * St) : ScanResult * St :=
  let '(cost, state) := marginal sc.2 index in
  match tc_checked_sub (sc_remaining sc.1) cost with
  | Some rest => (mkScan (sc_admitted sc.1 ++ [index]) (sc_skipped sc.1) rest, admit_item state index)
  | None => (mkScan (sc_admitted sc.1) (sc_skipped sc.1 ++ [index]) (sc_remaining sc.1), state)
  end.

Definition skip_and_continue (budget : C) (count : nat) (state : St) : ScanResult * St :=
  foldl (fun sc i => scan_step i sc) (mkScan [] [] budget, state) (seq 0 count).

End OptionalScan.
End Required.

(** ** Bounds of the optional set *)
Inductive OptionalBound := OFusedCandidates | OParents | OSpansPerParent | OPayloadLoads | OPayloadBytes | OItemBytes.

Record BoundExceeded := mkExceeded { be_bound : OptionalBound; be_at : Z }.

Record OptionalBounds := mkOptionalBounds {
  max_fused_candidates : Z;
  max_parents : Z;
  max_spans_per_parent : Z;
  max_payload_loads : Z;
  max_payload_bytes : Z;
  max_item_bytes : Z;
}.

Definition admit_fused_candidates (count : Z) (b : OptionalBounds) : result BoundExceeded unit :=
  if max_fused_candidates b <? count then Err (mkExceeded OFusedCandidates (max_fused_candidates b)) else Ok tt.

(** [spans_per_parent], and [entry(identity).or_insert(0) += 1]. *)
Definition span_count (i : GroupIdentity) (counts : list (GroupIdentity * Z)) : option Z :=
  snd <$> List.find (fun p => bool_decide (p.1 = i)) counts.

Fixpoint count_span (i : GroupIdentity) (counts : list (GroupIdentity * Z)) : list (GroupIdentity * Z) :=
  match counts with
  | [] => [(i, 1)]
  | (i', n) :: rest => if bool_decide (i' = i) then (i', n + 1) :: rest else (i', n) :: count_span i rest
  end.

Fixpoint optional_loop (b : OptionalBounds) (rows : list SelectedOccurrence) (at_ : Z) (total : Z)
  (counts : list (GroupIdentity * Z)) : result BoundExceeded unit :=
  match rows with
  | [] => Ok tt
  | row :: rest =>
      let exceeded bound := Err (mkExceeded bound at_) in
      if max_payload_loads b <=? at_ then exceeded OPayloadLoads
      else if max_item_bytes b <? byte_length (payload row) then exceeded OItemBytes
      else match (t ← checked_add u64_MAX total (byte_length (payload row)); if t <=? max_payload_bytes b then Some t else None) with
      | None => exceeded OPayloadBytes
      | Some total =>
          let i := identity_of row in
          if negb (bool_decide (is_Some (span_count i counts))) && (max_parents b <=? Z.of_nat (length counts))
          then exceeded OParents
          else
            let counts := count_span i counts in
            if max_spans_per_parent b <? default 0 (span_count i counts) then exceeded OSpansPerParent
            else optional_loop b rest (at_ + 1) total counts
      end
  end.

Definition admit_optional_set (rows : list SelectedOccurrence) (b : OptionalBounds) : result BoundExceeded unit :=
  optional_loop b rows 0 0 [].

(** ** Merged ranges *)

(** A member whose bytes fill its span. *)
Definition fits (m : Member) : Prop := m_start m <= m_end m /\ Z.of_nat (length (m_bytes m)) = m_end m - m_start m.

(** The part of a range a member's span names. *)
Definition member_slice (r : MergedRange) (m : Member) : list Z :=
  slice (Z.to_nat (m_start m - span_start (mr_span r))) (length (m_bytes m)) (mr_bytes r).

(** A run is made of members: it spans them and nothing else, and unless they disagreed each
    member reads its own bytes. *)
Record run_ok (run : MergedRange * bool) (ms : list Member) : Prop := {
  run_members : mr_members run.1 = map m_occurrence ms;
  run_length : Z.of_nat (length (mr_bytes run.1)) = span_end (mr_span run.1) - span_start (mr_span run.1);
  run_inside : forall m, m ∈ ms -> span_start (mr_span run.1) <= m_start m /\ m_end m <= span_end (mr_span run.1);
  run_reads : run.2 = false -> forall m, m ∈ ms -> member_slice run.1 m = m_bytes m;
  run_covered : forall pos, span_start (mr_span run.1) <= pos < span_end (mr_span run.1) ->
    exists m, m ∈ ms /\ m_start m <= pos < m_end m;
}.

Lemma run_of_member_ok m : fits m -> run_ok (run_of_member m) [m].
Proof.
  intros [Hs Hl]. split; cbn [run_of_member fst snd mr_span mr_bytes mr_members span_start span_end map]; [done|lia| | |].
  - intros m' ->%list_elem_of_singleton. lia.
  - intros _ m' ->%list_elem_of_singleton. unfold member_slice, slice. cbn [mr_span mr_bytes span_start].
    rewrite Z.sub_diag. cbn [Z.to_nat drop]. by rewrite firstn_all.
  - intros pos Hpos. exists m. split; [left|done].
Qed.

Lemma slice_app_l {A} o n (l l' : list A) : (o + n <= length l)%nat -> slice o n (l ++ l') = slice o n l.
Proof. intros H. unfold slice. rewrite drop_app_le by lia. by rewrite take_app_le by (rewrite length_drop; lia). Qed.

Lemma run_extend_ok current disagreed ms m :
  run_ok (current, disagreed) ms -> ms <> [] -> fits m ->
  span_start (mr_span current) <= m_start m <= span_end (mr_span current) ->
  exists run, run_extend current disagreed m = Some run /\ run_ok run (ms ++ [m]) /\
    span_start (mr_span run.1) = span_start (mr_span current) /\ span_end (mr_span current) <= span_end (mr_span run.1).
Proof.
  intros [Hm Hl Hi Hr Hc] Hne [Hs Hf] Hst. cbn [fst snd] in *. unfold run_extend.
  set (a := span_start (mr_span current)) in *. set (b := span_end (mr_span current)) in *.
  set (cut := Nat.min (Z.to_nat (b - m_start m)) (length (m_bytes m))).
  set (off := Z.to_nat (m_start m - a)).
  assert (length (take cut (m_bytes m)) = cut) as Hcut by (rewrite length_take; lia).
  assert (off + cut <= length (mr_bytes current))%nat as Hoff by lia.
  rewrite get_range_Some by lia. cbn [mbind option_bind]. rewrite Hcut. eexists. split; [reflexivity|].
  cbn [fst snd mr_span span_start span_end]. split; [|split; [done|lia]].
  split; cbn [fst snd mr_members mr_bytes mr_span span_start span_end].
  - by rewrite Hm, map_app.
  - rewrite length_app, length_drop. lia.
  - intros m' [H| ->%list_elem_of_singleton]%elem_of_app; [apply Hi in H; lia|lia].
  - case_bool_decide as Hsame; [|done]. intros Hd m' [H| ->%list_elem_of_singleton]%elem_of_app;
      unfold member_slice; cbn [mr_span mr_bytes span_start]; fold a.
    + specialize (Hr Hd _ H). unfold member_slice in Hr. fold a in Hr.
      destruct (m_bytes m') as [|x t] eqn:Eb; [by unfold slice|]. rewrite slice_app_l; [exact Hr|].
      apply (f_equal length) in Hr. unfold slice in Hr. rewrite length_take, length_drop in Hr. cbn [length] in *. lia.
    + fold off. destruct (decide (cut = length (m_bytes m))) as [E|E].
      * rewrite slice_app_l by lia. rewrite <- E, Hsame, E. apply firstn_all.
      * assert (off + cut = length (mr_bytes current))%nat as Hend by lia.
        replace (length (m_bytes m)) with (cut + (length (m_bytes m) - cut))%nat at 1 by lia.
        rewrite slice_app, slice_app_l, Hsame by lia. etransitivity; [|apply (take_drop cut)]. f_equal.
        unfold slice. rewrite Hend, drop_app_length, take_ge; [done|]. rewrite length_drop. lia.
  - intros pos Hpos. destruct (Z.ltb_spec pos b) as [Hb|Hb].
    + destruct (Hc pos) as (m' & H & H'); [lia|]. exists m'. split; [apply elem_of_app; by left|done].
    + exists m. split; [apply elem_of_app; right; by apply list_elem_of_singleton|lia].
Qed.

(** All runs, most recent first, with the members of each. *)
Definition runs_ok (runs : list (MergedRange * bool)) (done_ : list Member) : Prop :=
  exists mss, Forall2 run_ok runs mss /\ Forall (fun ms => ms <> []) mss /\ concat (reverse mss) = done_ /\
    StronglySorted (fun newer older => span_end (mr_span older.1) < span_start (mr_span newer.1)) runs.

Lemma run_ok_span run ms : run_ok run ms -> span_start (mr_span run.1) <= span_end (mr_span run.1).
Proof. intros [_ Hl _ _ _]. lia. Qed.

Lemma run_step_ok runs done_ m :
  runs_ok runs done_ -> fits m -> (forall run, head runs = Some run -> span_start (mr_span run.1) <= m_start m) ->
  exists runs', run_step runs m = Some runs' /\ runs_ok runs' (done_ ++ [m]) /\
    (forall run, head runs' = Some run -> span_start (mr_span run.1) <= m_start m).
Proof.
  intros (mss & Hruns & Hne & Hd & Hsep) Hm Hst. destruct Hruns as [|[current disagreed] ms runs mss Hrun Hruns]; cbn [run_step].
  - exists [run_of_member m]. split; [done|]. split; [|intros run [= <-]; cbn; lia]. exists [[m]].
    cbn in Hd. subst done_. split_and!; [constructor; [by apply run_of_member_ok|constructor]|by repeat constructor|done|by repeat constructor].
  - apply StronglySorted_inv in Hsep as [Hsep Hall]. apply Forall_cons in Hne as [Hne1 Hne].
    specialize (Hst _ eq_refl). cbn [fst] in *. rewrite reverse_cons, concat_app in Hd. cbn in Hd. rewrite app_nil_r in Hd.
    destruct (Z.leb_spec (m_start m) (span_end (mr_span current))) as [Hle|Hgt].
    + destruct (run_extend_ok current disagreed ms m Hrun Hne1 Hm) as (run & E & Hrun' & Hs' & He'); [lia|].
      rewrite E. cbn [mbind option_bind]. eexists. split; [reflexivity|]. split; [|intros run' [= <-]; lia].
      exists ((ms ++ [m]) :: mss). split_and!.
      * by constructor.
      * constructor; [by destruct ms|done].
      * rewrite reverse_cons, concat_app. cbn. by rewrite app_nil_r, <- Hd, <- app_assoc.
      * constructor; [done|]. eapply Forall_impl; [exact Hall|]. intros older. by rewrite Hs'.
    + eexists. split; [reflexivity|]. split; [|intros run' [= <-]; cbn; lia]. exists ([m] :: ms :: mss). split_and!.
      * constructor; [by apply run_of_member_ok|by constructor].
      * by repeat constructor.
      * rewrite reverse_cons, concat_app, reverse_cons, concat_app. cbn. by rewrite app_nil_r, <- Hd.
      * constructor; [by constructor|]. constructor; [done|]. eapply Forall_impl; [exact Hall|].
        intros older Ho. pose proof (run_ok_span _ _ Hrun). cbn in *. lia.
Qed.

Lemma run_loop_ok ms : forall runs done_,
  runs_ok runs done_ -> Forall fits ms -> StronglySorted (fun m m' => m_start m <= m_start m') ms ->
  (forall run m, head runs = Some run -> m ∈ ms -> span_start (mr_span run.1) <= m_start m) ->
  exists runs', run_loop runs ms = Some runs' /\ runs_ok runs' (done_ ++ ms).
Proof.
  induction ms as [|m ms IH]; intros runs done_ Hr Hf Hs Hst; cbn [run_loop].
  - exists runs. split; [done|by rewrite app_nil_r].
  - apply Forall_cons in Hf as [Hm Hf]. apply StronglySorted_inv in Hs as [Hs Hall].
    destruct (run_step_ok runs done_ m Hr Hm) as (runs' & E & Hr' & Hh'); [intros run Hrun; apply Hst; [done|left]|].
    rewrite E. cbn [mbind option_bind]. destruct (IH runs' (done_ ++ [m]) Hr' Hf Hs) as (runs'' & E' & Hr'').
    + intros run m' Hrun Hm'. rewrite list.Forall_forall in Hall. specialize (Hall m' Hm'). specialize (Hh' run Hrun). lia.
    + exists runs''. split; [done|]. by rewrite <- app_assoc in Hr''.
Qed.

(** A range that is kept: it is made of members and is text. *)
Definition range_ok (ms : list Member) (r : MergedRange) : Prop :=
  ms <> [] /\ run_ok (r, false) ms /\ utf8_valid (mr_bytes r) = true.

Definition ordered_apart : list MergedRange -> Prop :=
  StronglySorted (fun a b => span_end (mr_span a) < span_start (mr_span b)).

Lemma finish_loop_ok runs : forall mss ranges refused,
  Forall2 run_ok runs mss -> Forall (fun ms => ms <> []) mss ->
  StronglySorted (fun a b => span_end (mr_span a.1) < span_start (mr_span b.1)) runs ->
  exists kept lost, finish_loop runs ranges refused = (ranges ++ kept, refused ++ lost) /\
    concat (mr_members <$> kept) ++ map fst lost ≡ₚ map m_occurrence (concat mss) /\
    (forall r, r ∈ kept -> exists ms, ms ∈ mss /\ range_ok ms r) /\
    ordered_apart kept /\ (forall r, r ∈ kept -> exists b, (r, b) ∈ runs).
Proof.
  induction runs as [|run runs IH]; intros mss ranges refused Hr Hne Hs.
  - apply Forall2_nil_inv_l in Hr as ->. exists [], []. cbn [finish_loop]. rewrite !app_nil_r.
    split_and!; [done|done|by intros r ?%elem_of_nil|constructor|by intros r ?%elem_of_nil].
  - apply Forall2_cons_inv_l in Hr as (ms & mss' & Hrun & Hr & ->). apply Forall_cons in Hne as [Hms Hne].
    apply StronglySorted_inv in Hs as [Hs Hall]. cbn [finish_loop]. unfold finish.
    destruct (finish_reason run) as [reason|] eqn:E.
    + destruct (IH mss' ranges (refused ++ ((fun o => (o, reason)) <$> mr_members run.1)) Hr Hne Hs)
        as (kept & lost & Ef & Hp & Hok & Hsep & Hin).
      exists kept, (((fun o => (o, reason)) <$> mr_members run.1) ++ lost). split_and!.
      * by rewrite Ef, <- app_assoc.
      * cbn [concat]. rewrite !map_app, <- Hp. replace (map fst ((fun o => (o, reason)) <$> mr_members run.1)) with (map m_occurrence ms).
        { rewrite !app_assoc. apply Permutation_app_tail, Permutation_app_comm. }
        rewrite (run_members _ _ Hrun). change (map fst ?l) with (fst <$> l). rewrite <- list_fmap_compose. by rewrite list_fmap_id.
      * intros r H. destruct (Hok r H) as (ms' & H' & H''). exists ms'. split; [by right|done].
      * done.
      * intros r H. destruct (Hin r H) as [b Hb]. exists b. by right.
    + destruct (IH mss' (ranges ++ [run.1]) refused Hr Hne Hs) as (kept & lost & Ef & Hp & Hok & Hsep & Hin).
      exists (run.1 :: kept), lost. unfold finish_reason in E. destruct run as [r disagreed]. cbn [fst snd] in *.
      destruct disagreed; [done|]. destruct (utf8_valid (mr_bytes r)) eqn:Eu; [|done]. split_and!.
      * by rewrite Ef, <- app_assoc.
      * cbn [fmap list_fmap concat]. pose proof (run_members _ _ Hrun) as Hmem. cbn [fst] in Hmem. by rewrite map_app, <- Hp, <- app_assoc, Hmem.
      * intros r' [->|H]%elem_of_cons; [exists ms; split; [left|by split_and!]|].
        destruct (Hok r' H) as (ms' & H' & H''). exists ms'. split; [by right|done].
      * constructor; [done|]. rewrite list.Forall_forall. intros r' H. destruct (Hin r' H) as [b Hb].
        rewrite list.Forall_forall in Hall. by apply (Hall _ Hb).
      * intros r' [->|H]%elem_of_cons; [exists false; left|]. destruct (Hin r' H) as [b Hb]. exists b. by right.
Qed.

Lemma retain_perm reason ms :
  map m_occurrence (retain reason ms).1 ++ map fst (retain reason ms).2 ≡ₚ map m_occurrence ms.
Proof.
  unfold retain. cbn [fst snd]. induction ms as [|m ms IH]; [done|]. rewrite filter_cons. cbn [omap list_omap].
  destruct (reason m) as [r|] eqn:E; cbn [fmap option_fmap option_map].
  - rewrite decide_False by done. cbn [map fst]. rewrite <- IH. symmetry. apply Permutation_middle.
  - rewrite decide_True by done. cbn [map app]. by rewrite IH.
Qed.

Lemma retain_elem reason ms m : m ∈ (retain reason ms).1 -> reason m = None /\ m ∈ ms.
Proof. unfold retain. cbn [fst]. by intros H%list_elem_of_filter. Qed.

Lemma span_refusal_fits m : span_refusal m = None -> fits m.
Proof.
  unfold span_refusal, fits. destruct (Z.ltb_spec (m_end m) (m_start m)); [done|].
  destruct ((m_end m =? m_start m) && negb (whole_buffer m)); [done|].
  destruct (Z.eqb_spec (m_end m - m_start m) (Z.of_nat (length (m_bytes m)))); [|done]. lia.
Qed.

#[global] Instance member_cmp_total : TotalCmp member_cmp.
Proof. unfold member_cmp. apply _. Qed.

Lemma member_cmp_start m m' : member_cmp m m' <> Gt -> m_start m <= m_start m'.
Proof. unfold member_cmp, cmp_then, cmp_by. destruct (Z.compare_spec (m_start m) (m_start m')); cbn [then_with]; [lia|lia|done]. Qed.

(** Merging members keeps or refuses each exactly once, and what it keeps is sound. *)
Lemma merge_ok members refused :
  exists ranges lost, merge members refused = Some (ranges, refused ++ lost) /\
    concat (mr_members <$> ranges) ++ map fst lost ≡ₚ map m_occurrence members /\
    (forall r, r ∈ ranges -> exists ms, (forall m, m ∈ ms -> m ∈ members) /\ range_ok ms r) /\
    ordered_apart ranges.
Proof.
  unfold merge. pose proof (retain_perm span_refusal members) as Hp1. pose proof (retain_elem span_refusal members) as He1.
  destruct (retain span_refusal members) as [ms1 gone1]. cbn [fst snd] in *.
  set (second := match _ with Some l => retain (beyond l) ms1 | None => (ms1, []) end).
  assert (map m_occurrence second.1 ++ map fst second.2 ≡ₚ map m_occurrence ms1 /\ (forall m, m ∈ second.1 -> m ∈ ms1)) as [Hp2 He2].
  { subst second. destruct (m_end <$> List.find whole_buffer ms1) as [l|].
    - split; [apply retain_perm|]. intros m H. by apply retain_elem in H as [_ H].
    - cbn [fst snd map]. by rewrite app_nil_r. }
  destruct second as [ms2 gone2]. cbn [fst snd] in *.
  pose proof (sort_by_perm member_cmp ms2) as Hsort.
  destruct (run_loop_ok (sort_by member_cmp ms2) [] []) as (runs & E & mss & Hf2 & Hne & Hd & Hsep).
  - exists []. split_and!; constructor.
  - rewrite Hsort, list.Forall_forall. intros m H. apply span_refusal_fits. by apply He1, He2.
  - eapply (StronglySorted_weaken _ _ _ member_cmp_start), (sort_by_sorted member_cmp).
  - done.
  - rewrite E. cbn [mbind option_bind]. cbn [app] in Hd.
    destruct (finish_loop_ok (reverse runs) (reverse mss) [] (refused ++ gone1 ++ gone2)) as (kept & lost & Ef & Hp & Hok & Hk & _).
    + by apply Forall2_reverse.
    + by apply Forall_reverse.
    + eapply StronglySorted_reverse; [|exact Hsep]. done.
    + exists kept, ((gone1 ++ gone2) ++ lost). rewrite Ef. cbn [app]. split; [by rewrite !app_assoc|]. split_and!; [| |done].
      * rewrite <- Hp1, <- Hp2. rewrite Hd in Hp. change (map ?f ?l) with (f <$> l) in *. rewrite Hsort in Hp.
        rewrite <- Hp, !fmap_app, <- !app_assoc. apply Permutation_app_head.
        rewrite !app_assoc, (Permutation_app_comm (fst <$> gone1)). rewrite Permutation_app_comm. by rewrite <- app_assoc.
      * intros r H. destruct (Hok r H) as (ms & Hms & Hr). exists ms. split; [|done]. intros m Hm.
        assert (m ∈ sort_by member_cmp ms2) as Hin.
        { rewrite <- Hd, list_elem_of_In, in_concat. exists ms. by rewrite <- !list_elem_of_In. }
        rewrite Hsort in Hin. by apply He1, He2.
Qed.

(** ** Buckets *)
Lemma bucket_push_perm i m buckets : concat (snd <$> bucket_push i m buckets) ≡ₚ m :: concat (snd <$> buckets).
Proof.
  induction buckets as [|[i' ms] rest IH]; [done|]. cbn [bucket_push]. case_bool_decide; cbn [fmap list_fmap snd concat].
  - rewrite <- app_assoc. symmetry. apply Permutation_middle.
  - rewrite IH. symmetry. apply Permutation_middle.
Qed.

Lemma bucket_push_elem i m buckets i' ms m' :
  (i', ms) ∈ bucket_push i m buckets -> m' ∈ ms ->
  (i' = i /\ m' = m) \/ exists ms0, (i', ms0) ∈ buckets /\ m' ∈ ms0.
Proof.
  induction buckets as [|[j js] rest IH]; cbn [bucket_push].
  - intros [= -> ->]%list_elem_of_singleton ->%list_elem_of_singleton. by left.
  - case_bool_decide as E; [subst j|]; intros [[= -> ->]|H]%elem_of_cons Hm.
    + apply elem_of_app in Hm as [Hm| ->%list_elem_of_singleton]; [right; exists js; split; [left|done]|by left].
    + right. exists ms. split; [by right|done].
    + right. exists js. split; [left|done].
    + destruct (IH H Hm) as [?|(ms0 & H0 & H0')]; [by left|]. right. exists ms0. split; [by right|done].
Qed.

Lemma bucket_push_keys i m buckets :
  fst <$> bucket_push i m buckets = (fst <$> buckets) ++ (if bool_decide (i ∈ fst <$> buckets) then [] else [i]).
Proof.
  induction buckets as [|[j js] rest IH]; [done|]. cbn [bucket_push].
  destruct (bool_decide_reflect (i = j)) as [E|E]; cbn [fmap list_fmap fst].
  - subst j. rewrite bool_decide_eq_true_2 by left. by rewrite app_nil_r.
  - fold (fst <$> bucket_push i m rest). rewrite IH. cbn [app]. f_equal. f_equal.
    rewrite (bool_decide_ext (i ∈ j :: (fst <$> rest)) (i ∈ fst <$> rest)); [done|]. rewrite elem_of_cons. naive_solver.
Qed.

(** A member stands for an item of the selection with the given identity. *)
Definition item_member (selected : list Selected) (i : GroupIdentity) (m : Member) : Prop :=
  exists k item, selected !! k = Some item /\ identity_of (sel_row item) = i /\ m = member_of k item.

Lemma member_of_occurrence k item : m_occurrence (member_of k item) = occurrence (sel_row item).
Proof. unfold member_of. by destruct (oc_span (sel_row item)). Qed.

Lemma fill_buckets_ok rest : forall pre buckets,
  concat (snd <$> buckets) ≡ₚ imap member_of pre ->
  (forall i ms m, (i, ms) ∈ buckets -> m ∈ ms -> item_member pre i m) -> NoDup (fst <$> buckets) ->
  let out := fill_buckets (length pre) rest buckets in
  concat (snd <$> out) ≡ₚ imap member_of (pre ++ rest) /\
  (forall i ms m, (i, ms) ∈ out -> m ∈ ms -> item_member (pre ++ rest) i m) /\ NoDup (fst <$> out).
Proof.
  induction rest as [|item rest IH]; intros pre buckets Hp He Hn; cbn [fill_buckets]; [by rewrite app_nil_r|].
  replace (S (length pre)) with (length (pre ++ [item])) by (rewrite length_app; cbn; lia).
  replace (pre ++ item :: rest) with ((pre ++ [item]) ++ rest) by by rewrite <- app_assoc.
  apply IH.
  - rewrite bucket_push_perm, Hp, imap_app. cbn [imap]. rewrite Nat.add_0_r. apply Permutation_cons_append.
  - intros i ms m Hi Hm. destruct (bucket_push_elem _ _ _ _ _ _ Hi Hm) as [[-> ->]|(ms0 & H0 & Hm0)].
    + exists (length pre), item. split; [by apply list_lookup_middle|done].
    + destruct (He _ _ _ H0 Hm0) as (k & it & Hk & H). exists k, it. split; [by apply lookup_app_l_Some|done].
  - rewrite bucket_push_keys. case_bool_decide as E; [by rewrite app_nil_r|]. apply list.NoDup_app.
    split_and!; [done|intros x Hx ->%list_elem_of_singleton; done|apply NoDup_singleton].
Qed.

(** ** Groups *)
Lemma fused_index_ok members l :
  (forall o, o ∈ l -> o ∈ map m_occurrence members) -> exists indices, mapM (fused_index members) l = Some indices /\ length indices = length l.
Proof.
  intros Hl. assert (Forall (fun o => is_Some (fused_index members o)) l) as Hs.
  { rewrite list.Forall_forall. intros o (m & -> & Hm)%Hl%list_elem_of_fmap. unfold fused_index.
    destruct (List.find _ members) as [m'|] eqn:E; [by eexists|]. exfalso.
    pose proof (find_none _ _ E m) as H. cbv beta in H. rewrite bool_decide_eq_true_2 in H by done.
    discriminate H. by apply list_elem_of_In. }
  clear Hl. induction Hs as [|o l [i Hi] _ (is_ & IH & Hlen)]; [by exists []|]. exists (i :: is_). cbn [mapM].
  rewrite Hi. cbn [mbind option_bind]. rewrite IH. cbn. by rewrite Hlen.
Qed.

(** What each group of the loop holds. *)
Definition group_ok (buckets : list (GroupIdentity * list Member)) (g : Group) : Prop :=
  exists ms0, (g_identity g, ms0) ∈ buckets /\ ordered_apart (g_ranges g) /\
    forall r, r ∈ g_ranges g -> exists ms, (forall m, m ∈ ms -> m ∈ ms0) /\ range_ok ms r.

Lemma group_loop_ok buckets : forall refused gs,
  exists gs' lost, group_loop buckets refused gs = Some (gs ++ gs', refused ++ lost) /\
    concat (group_members <$> gs') ++ map fst lost ≡ₚ map m_occurrence (concat (snd <$> buckets)) /\
    (forall g, g ∈ gs' -> group_ok buckets g) /\ sublist (g_identity <$> gs') (fst <$> buckets).
Proof.
  induction buckets as [|[i members] rest IH]; intros refused gs; cbn [group_loop].
  - exists [], []. rewrite !app_nil_r. split_and!; [done|done|by intros g ?%elem_of_nil|constructor].
  - destruct (merge_ok members refused) as (ranges & lost & Em & Hp & Hok & Hsep). rewrite Em. cbn [mbind option_bind].
    destruct (fused_index_ok members (concat (mr_members <$> ranges))) as (indices & Ei & Hlen).
    { intros o Ho. rewrite <- Hp. apply elem_of_app. by left. }
    rewrite Ei. cbn [mbind option_bind]. set (gs1 := match min_list indices with Some f => [mkGroup i f ranges] | None => [] end).
    assert (match min_list indices with Some f => gs ++ [mkGroup i f ranges] | None => gs end = gs ++ gs1) as ->.
    { subst gs1. destruct (min_list indices); [done|by rewrite app_nil_r]. }
    destruct (IH (refused ++ lost) (gs ++ gs1)) as (gs' & lost' & El & Hp' & Hok' & Hsub). exists (gs1 ++ gs'), (lost ++ lost').
    split; [by rewrite El, <- !app_assoc|].
    assert (concat (group_members <$> gs1) = concat (mr_members <$> ranges)) as Hm1.
    { subst gs1. destruct indices as [|x ix]; cbn [min_list fmap list_fmap concat].
      - symmetry in Hlen. by apply nil_length_inv in Hlen as ->.
      - unfold group_members. cbn [g_ranges]. by rewrite app_nil_r. }
    split_and!.
    + rewrite fmap_app, concat_app, Hm1. cbn [fmap list_fmap snd concat]. rewrite !map_app, <- Hp, <- Hp'.
      rewrite <- !app_assoc. apply Permutation_app_head. rewrite !app_assoc. apply Permutation_app_tail, Permutation_app_comm.
    + intros g [H|H]%elem_of_app.
      * exists members. subst gs1. destruct (min_list indices); [|by apply elem_of_nil in H].
        apply list_elem_of_singleton in H as ->. cbn [g_identity g_ranges]. split; [left|]. by split.
      * destruct (Hok' g H) as (ms0 & Hin & H'). exists ms0. split; [by right|done].
    + rewrite fmap_app. cbn [fmap list_fmap fst]. subst gs1. destruct (min_list indices); cbn [fmap list_fmap app]; by constructor.
Qed.

(** ** Claims on grouping *)

(** Grouping never panics, and every selected occurrence ends up exactly once, in one group or
    among the refused. There is at most one group per identity and groups keep the order of their
    first fused constituent. Within a group the ranges are disjoint and not adjacent, in offset
    order; every range is built from items of that identity only, has exactly as many bytes as its
    span, spans no position outside a selected span, is valid UTF-8, and each member reads back
    its own bytes at its own offsets. *)
Theorem grouping_partition selected :
  exists p, group selected = Some p /\
    concat (group_members <$> groups p) ++ map fst (refused p) ≡ₚ map (fun item => occurrence (sel_row item)) selected /\
    NoDup (g_identity <$> groups p) /\
    StronglySorted (fun a b => (first_fused a <= first_fused b)%nat) (groups p) /\
    forall g, g ∈ groups p -> ordered_apart (g_ranges g) /\
      forall r, r ∈ g_ranges g -> exists ms, (forall m, m ∈ ms -> item_member selected (g_identity g) m) /\ range_ok ms r.
Proof.
  unfold group. destruct (fill_buckets_ok selected [] []) as (Hp & He & Hn); [done|by intros i ms m ?%elem_of_nil|constructor|].
  cbn [length app] in *. set (buckets := fill_buckets 0 selected []) in *.
  destruct (group_loop_ok buckets [] []) as (gs & lost & E & Hperm & Hok & Hsub). rewrite E. cbn [mbind option_bind app].
  eexists. split; [reflexivity|]. cbn [groups refused].
  pose proof (sort_by_perm (cmp_by first_fused Nat.compare) gs) as Hs. split_and!.
  - rewrite Hs, Hperm. change (map ?f ?l) with (f <$> l). rewrite Hp, fmap_imap.
    rewrite <- (imap_const (fun item => occurrence (sel_row item)) selected). erewrite imap_ext; [reflexivity|].
    intros k item _. apply member_of_occurrence.
  - rewrite Hs. by eapply sublist_NoDup.
  - eapply StronglySorted_weaken; [|apply (sort_by_sorted (cmp_by first_fused Nat.compare))].
    intros a b Hab. unfold cmp_le, cmp_by in Hab. by apply Nat.compare_le_iff.
  - intros g Hg. rewrite Hs in Hg. destruct (Hok g Hg) as (ms0 & Hin & Hsep & Hr). split; [done|].
    intros r Hrr. destruct (Hr r Hrr) as (ms & Hms & Hro). exists ms. split; [|done]. intros m Hm. by eapply He; [|apply Hms].
Qed.

(** ** The bounds of the optional set *)
Definition rows_with (i : GroupIdentity) (rows : list SelectedOccurrence) : Z :=
  Z.of_nat (length (filter (fun row => identity_of row = i) rows)).

Definition within (b : OptionalBounds) (rows : list SelectedOccurrence) : Prop :=
  Z.of_nat (length rows) <= max_payload_loads b /\
  Forall (fun row => byte_length (payload row) <= max_item_bytes b) rows /\
  zsum (map (fun row => byte_length (payload row)) rows) <= max_payload_bytes b /\
  Z.of_nat (length (remove_dups (identity_of <$> rows))) <= max_parents b /\
  (forall i, rows_with i rows <= max_spans_per_parent b).

(** The counts after the rows [pre]. *)
Definition counted (pre : list SelectedOccurrence) (counts : list (GroupIdentity * Z)) : Prop :=
  length counts = length (remove_dups (identity_of <$> pre)) /\
  forall i, span_count i counts = if bool_decide (i ∈ identity_of <$> pre) then Some (rows_with i pre) else None.

Lemma span_count_cons i j n counts :
  span_count i ((j, n) :: counts) = if bool_decide (j = i) then Some n else span_count i counts.
Proof. unfold span_count. cbn [List.find fst]. by destruct (bool_decide (j = i)). Qed.

Lemma span_count_count i j counts :
  span_count i (count_span j counts) =
    if bool_decide (j = i) then Some (default 0 (span_count i counts) + 1) else span_count i counts.
Proof.
  induction counts as [|[k n] counts IH]; cbn [count_span]; [rewrite span_count_cons; by destruct (bool_decide (j = i))|].
  destruct (bool_decide_reflect (k = j)) as [->|Hk]; rewrite !span_count_cons; [by destruct (bool_decide (j = i))|].
  rewrite IH. destruct (bool_decide_reflect (k = i)) as [->|]; [|done]. by rewrite bool_decide_eq_false_2 by congruence.
Qed.

Lemma count_span_length j counts :
  length (count_span j counts) = (length counts + if bool_decide (is_Some (span_count j counts)) then 0 else 1)%nat.
Proof.
  induction counts as [|[k n] counts IH]; [done|]. cbn [count_span]. rewrite span_count_cons.
  destruct (bool_decide_reflect (k = j)) as [->|Hk]; cbn [length].
  - rewrite bool_decide_eq_true_2 by by eexists. lia.
  - rewrite IH. lia.
Qed.

Lemma rows_with_snoc i rows row : rows_with i (rows ++ [row]) = rows_with i rows + (if bool_decide (identity_of row = i) then 1 else 0).
Proof.
  unfold rows_with. rewrite filter_app, length_app, filter_cons, filter_nil.
  destruct (decide (identity_of row = i)); [rewrite bool_decide_eq_true_2|rewrite bool_decide_eq_false_2]; cbn [length]; (done || lia).
Qed.

Lemma rows_with_absent i rows : i ∉ identity_of <$> rows -> rows_with i rows = 0.
Proof.
  intros Hi. unfold rows_with. induction rows as [|row rows IH]; [done|]. rewrite filter_cons.
  cbn [fmap list_fmap] in Hi. rewrite not_elem_of_cons in Hi. destruct Hi as [Hne Hi].
  rewrite decide_False by congruence. by apply IH.
Qed.

Lemma counted_snoc pre row counts : counted pre counts -> counted (pre ++ [row]) (count_span (identity_of row) counts).
Proof.
  intros [Hl Hc]. split.
  - rewrite count_span_length, Hl, fmap_app. change (identity_of <$> [row]) with [identity_of row].
    rewrite length_remove_dups_snoc, Hc. f_equal.
    destruct (bool_decide_reflect (identity_of row ∈ identity_of <$> pre)).
    + by rewrite bool_decide_eq_true_2 by by eexists.
    + rewrite bool_decide_eq_false_2; [done|]. by intros [].
  - intros i. rewrite span_count_count, Hc, rows_with_snoc, fmap_app.
    rewrite (bool_decide_ext (i ∈ _ ++ _) (i ∈ identity_of <$> pre \/ i = identity_of row))
      by by rewrite elem_of_app; cbn; rewrite list_elem_of_singleton.
    destruct (bool_decide_reflect (identity_of row = i)) as [E|E].
    + rewrite (bool_decide_eq_true_2 (_ \/ _)) by by right. f_equal. f_equal.
      case_bool_decide as Hin; [done|]. cbn. by rewrite rows_with_absent.
    + rewrite Z.add_0_r. do 2 case_bool_decide; naive_solver.
Qed.

Lemma within_prefix b pre rest : Forall (fun row => 0 <= byte_length (payload row)) rest -> within b (pre ++ rest) -> within b pre.
Proof.
  intros Hpos (Hl & Hi & Hs & Hp & Hc). rewrite length_app in Hl. rewrite map_app, zsum_app in Hs.
  apply Forall_app in Hi as [Hi _]. split_and!; [lia|done| | |].
  - pose proof (zsum_nonneg (map (fun row => byte_length (payload row)) rest)) as H.
    rewrite Forall_map in H. specialize (H Hpos). lia.
  - rewrite fmap_app in Hp. pose proof (length_remove_dups_app (identity_of <$> pre) (identity_of <$> rest)). lia.
  - intros i. specialize (Hc i). unfold rows_with in *. rewrite filter_app, length_app in Hc. lia.
Qed.

(** One more row stays within the bounds exactly when the checks of the loop pass. *)
Lemma within_snoc b pre row :
  within b pre ->
  within b (pre ++ [row]) <->
    Z.of_nat (length pre) < max_payload_loads b /\ byte_length (payload row) <= max_item_bytes b /\
    zsum (map (fun r => byte_length (payload r)) pre) + byte_length (payload row) <= max_payload_bytes b /\
    Z.of_nat (length (remove_dups (identity_of <$> pre))) + (if bool_decide (identity_of row ∈ identity_of <$> pre) then 0 else 1) <= max_parents b /\
    rows_with (identity_of row) pre + 1 <= max_spans_per_parent b.
Proof.
  intros (Hl & Hi & Hs & Hp & Hc). unfold within. rewrite length_app, map_app, zsum_app, fmap_app, Forall_app, Forall_singleton.
  change (identity_of <$> [row]) with [identity_of row]. rewrite length_remove_dups_snoc.
  cbn [length map zsum foldr]. setoid_rewrite rows_with_snoc.
  assert (forall P Q : Prop, P <-> Q -> (Z.of_nat (length pre + 1) <= max_payload_loads b /\ P <-> Z.of_nat (length pre) < max_payload_loads b /\ Q)) as Hhd.
  { intros P Q HPQ. rewrite HPQ. split; intros [H HQ]; (split; [lia|exact HQ]). }
  apply Hhd. rewrite Z.add_0_r. split.
  - intros ((_ & H2) & H3 & H4 & H5). split; [done|]. split; [done|]. split.
    + destruct (bool_decide (identity_of row ∈ identity_of <$> pre)); lia.
    + specialize (H5 (identity_of row)). by rewrite bool_decide_eq_true_2 in H5.
  - intros (H2 & H3 & H4 & H5). split; [done|]. split; [done|]. split.
    + destruct (bool_decide (identity_of row ∈ identity_of <$> pre)); lia.
    + intros i. destruct (bool_decide_reflect (identity_of row = i)) as [<-|]; [done|]. specialize (Hc i). lia.
Qed.

(** The outcome of the loop on the rows after [pre]. *)
Definition optional_outcome (b : OptionalBounds) (all : list SelectedOccurrence) (out : result BoundExceeded unit) : Prop :=
  match out with
  | Ok _ => within b all
  | Err e => exists k, be_at e = Z.of_nat k /\ (k < length all)%nat /\ within b (take k all) /\ ~ within b (take (S k) all)
  end.

Lemma optional_loop_ok b rest : forall pre counts,
  max_payload_bytes b <= u64_MAX -> within b pre -> counted pre counts ->
  optional_outcome b (pre ++ rest)
    (optional_loop b rest (Z.of_nat (length pre)) (zsum (map (fun r => byte_length (payload r)) pre)) counts).
Proof.
  induction rest as [|row rest IH]; intros pre counts Hu Hw Hc; cbn [optional_loop]; [by rewrite app_nil_r|].
  pose proof (within_snoc b pre row Hw) as Hsnoc. pose proof Hc as [Hlen Hcnt].
  assert (~ within b (pre ++ [row]) -> forall bd, optional_outcome b (pre ++ row :: rest) (Err (mkExceeded bd (Z.of_nat (length pre))))) as Hbad.
  { intros Hn bd. exists (length pre). split; [done|]. split; [rewrite length_app; cbn; lia|].
    rewrite take_app_length. split; [done|]. replace (S (length pre)) with (length (pre ++ [row])) by (rewrite length_app; cbn; lia).
    replace (pre ++ row :: rest) with ((pre ++ [row]) ++ rest) by by rewrite <- app_assoc. by rewrite take_app_length. }
  destruct (Z.leb_spec (max_payload_loads b) (Z.of_nat (length pre))); [apply Hbad; rewrite Hsnoc; lia|].
  destruct (Z.ltb_spec (max_item_bytes b) (byte_length (payload row))); [apply Hbad; rewrite Hsnoc; lia|].
  set (total := zsum _) in *. unfold checked_add.
  destruct (Z.leb_spec (total + byte_length (payload row)) u64_MAX); cbn [mbind option_bind]; [|apply Hbad; rewrite Hsnoc; lia].
  destruct (Z.leb_spec (total + byte_length (payload row)) (max_payload_bytes b)); [|apply Hbad; rewrite Hsnoc; lia].
  rewrite Hcnt, Hlen. rewrite (bool_decide_ext (is_Some _) (identity_of row ∈ identity_of <$> pre))
    by (case_bool_decide; split; [done|by eexists|by intros []|done]).
  lazymatch goal with |- context [if ?c && ?d then _ else _] => destruct (c && d) eqn:Ep end.
  { apply Hbad. rewrite Hsnoc. apply andb_true_iff in Ep as [E1 E2]. destruct (bool_decide _); [done|lia]. }
  rewrite span_count_count, bool_decide_eq_true_2 by done. cbn [default from_option id]. rewrite Hcnt.
  replace (default 0 _ + 1) with (rows_with (identity_of row) pre + 1).
  2:{ case_bool_decide; [done|]. by rewrite rows_with_absent. }
  destruct (Z.ltb_spec (max_spans_per_parent b) (rows_with (identity_of row) pre + 1)); [apply Hbad; rewrite Hsnoc; lia|].
  replace (pre ++ row :: rest) with ((pre ++ [row]) ++ rest) by by rewrite <- app_assoc.
  replace (Z.of_nat (length pre) + 1) with (Z.of_nat (length (pre ++ [row]))) by (rewrite length_app; cbn; lia).
  replace (total + byte_length (payload row)) with (zsum (map (fun r => byte_length (payload r)) (pre ++ [row])))
    by (rewrite map_app, zsum_app; cbn; unfold total; lia).
  apply IH; [done| |by apply counted_snoc]. rewrite Hsnoc. split_and!; try lia.
  apply andb_false_iff in Ep. destruct Hw as (_ & _ & _ & Hp & _). destruct (bool_decide _); [lia|]. cbn [negb] in Ep. destruct Ep as [?|?]; [done|lia].
Qed.

(** ** Claims on bounds *)

(** The optional rows are admitted exactly when they respect every bound: the number of loads,
    the size of each payload, the total size, the number of distinct parents and the rows per
    parent. Otherwise the error names the first position at which the rows up to and including it
    break a bound. *)
Theorem optional_set_bounds rows b :
  Forall (fun row => 0 <= byte_length (payload row)) rows ->
  0 <= max_payload_loads b -> 0 <= max_payload_bytes b <= u64_MAX -> 0 <= max_parents b -> 0 <= max_spans_per_parent b ->
  match admit_optional_set rows b with
  | Ok _ => within b rows
  | Err e => ~ within b rows /\
      exists k, be_at e = Z.of_nat k /\ (k < length rows)%nat /\ within b (take k rows) /\ ~ within b (take (S k) rows)
  end.
Proof.
  intros Hpos H1 H2 H3 H4. unfold admit_optional_set.
  pose proof (optional_loop_ok b rows [] [] (proj2 H2)) as H. cbn [app length map zsum foldr] in H.
  assert (within b []) as Hw by (split_and!; [done|apply Forall_nil_2|apply H2|done|intros i; done]).
  specialize (H Hw (conj eq_refl (fun _ => eq_refl))). change (Z.of_nat 0) with 0 in H.
  unfold optional_outcome in H. destruct (optional_loop b rows 0 0 []) as [u|e]; [done|]. split; [|done].
  destruct H as (k & _ & _ & _ & Hk). intros Hall. apply Hk. apply (within_prefix b _ (drop (S k) rows)); [by apply Forall_drop|].
  by rewrite take_drop.
Qed.

Lemma optional_set_bounds_witness :
  let row o n := mkSelected o RawToolSpans 1 "raw" None (mkPayloadRef "p" n) Normal (mkProvenance "d" "s" "e" "a" 1) None
                   (NonGrouping RawToolSpans) in
  let rows := [row "a" 3; row "b" 4; row "c" 9] in
  let b := mkOptionalBounds 10 10 10 10 10 10 in
  admit_optional_set rows b = Err (mkExceeded OPayloadBytes 2) /\ ~ within b rows.
Proof.
  intros row rows b. assert (admit_optional_set rows b = Err (mkExceeded OPayloadBytes 2)) as E by (vm_compute; reflexivity).
  split; [exact E|]. pose proof (optional_set_bounds rows b) as H. rewrite E in H. apply H; [|vm_compute; intuition discriminate..].
  repeat (apply Forall_cons; split; [vm_compute; discriminate|]). apply Forall_nil_2.
Defined.

(** ** Required context *)
Section RequiredLaws.
Context {C : Type} `{TokenCountLaws C}.

Lemma required_loop_ok b facts : forall total admitted rows,
  0 <= total -> rb_payload_bytes b <= u64_MAX -> Forall (fun f => 0 <= byte_length (payload (fact_row f))) facts ->
  required_loop (C := C) b facts total admitted = Ok rows <->
    Forall (fun f => fact_fault (C := C) f = None /\ byte_length (payload (fact_row f)) <= rb_item_bytes b) facts /\
    (facts <> [] -> total + zsum (map (fun f => byte_length (payload (fact_row f))) facts) <= rb_payload_bytes b) /\
    rows = admitted ++ map fact_row facts.
Proof.
  induction facts as [|f facts IH]; intros total admitted rows Ht Hu Hpos; cbn [required_loop map zsum foldr].
  - rewrite app_nil_r. split; [intros [= <-]; split_and!; [apply Forall_nil_2|done|done]|by intros (_ & _ & ->)].
  - apply Forall_cons in Hpos as [Hf Hpos]. rewrite Forall_cons.
    pose proof (zsum_nonneg (map (fun f => byte_length (payload (fact_row f))) facts)) as Hz. rewrite Forall_map in Hz. specialize (Hz Hpos).
    unfold zsum in *. set (bytes := byte_length (payload (fact_row f))) in *. set (more := foldr Z.add 0 _) in *.
    destruct (fact_fault f) as [e|] eqn:E; [split; [done|]; by intros ([[? _] _] & _)|].
    destruct (Z.ltb_spec (rb_item_bytes b) bytes); [split; [done|]; intros ([[_ ?] _] & _); lia|]. unfold checked_add.
    destruct (Z.leb_spec (total + bytes) u64_MAX);
      [|split; [done|]; intros (_ & Hs & _); specialize (Hs ltac:(done)); lia].
    destruct (Z.leb_spec (total + bytes) (rb_payload_bytes b));
      [|split; [done|]; intros (_ & Hs & _); specialize (Hs ltac:(done)); lia].
    rewrite IH by (done || lia). rewrite <- app_assoc. cbn [app]. split.
    + intros (Hall & Hs & ->). split_and!; [done|done|done| |done]. intros _. destruct facts as [|f' facts]; [cbn in more; lia|].
      specialize (Hs ltac:(done)). lia.
    + intros ([_ Hall] & Hs & ->). specialize (Hs ltac:(done)). split_and!; [done|intros _; lia|done].
Qed.

(** Required facts are admitted exactly when there are no more of them than the load bound, each
    names its own row, that row is neither stale nor excluded by policy nor larger than an item may
    be, and their total size stays within its bound; the admitted rows are then the facts' rows,
    in order. *)
Theorem required_admission_exact facts b rows :
  0 <= rb_payload_loads b -> 0 <= rb_payload_bytes b <= u64_MAX ->
  Forall (fun f => 0 <= byte_length (payload (fact_row f))) facts ->
  admit_required (C := C) facts b = Ok rows <->
    Z.of_nat (length facts) <= rb_payload_loads b /\
    Forall (fun f => occurrence (fact_row f) = rq_occurrence (fact_request f) /\ tombstone (fact_row f) = None /\
      oc_revision (fact_row f) = rq_revision (fact_request f) /\ fact_disposition f = Eligible /\
      byte_length (payload (fact_row f)) <= rb_item_bytes b) facts /\
    zsum (map (fun f => byte_length (payload (fact_row f))) facts) <= rb_payload_bytes b /\
    rows = map fact_row facts.
Proof.
  intros Hl Hb Hpos. assert (forall f, fact_fault (C := C) f = None <->
    occurrence (fact_row f) = rq_occurrence (fact_request f) /\ tombstone (fact_row f) = None /\
    oc_revision (fact_row f) = rq_revision (fact_request f) /\ fact_disposition f = Eligible) as Hff.
  { intros f. unfold fact_fault, is_stale_for. case_bool_decide; cbn [negb]; [|naive_solver].
    destruct (tombstone (fact_row f)); [naive_solver|].
    destruct (Z.eqb_spec (oc_revision (fact_row f)) (rq_revision (fact_request f))); cbn [negb]; [|naive_solver].
    destruct (fact_disposition f) as [|[]]; naive_solver. }
  unfold admit_required. destruct (facts !! Z.to_nat (rb_payload_loads b)) as [f|] eqn:E.
  - apply lookup_lt_Some in E. split; [done|]. lia.
  - apply lookup_ge_None_1 in E. rewrite required_loop_ok by (done || lia). cbn [app].
    setoid_rewrite Hff. split.
    + intros (Hall & Hs & ->). split_and!; [lia| | |done].
      * eapply Forall_impl; [exact Hall|]. naive_solver.
      * destruct facts; [cbn; lia|]. specialize (Hs ltac:(done)). lia.
    + intros (_ & Hall & Hs & ->). split_and!; [|intros _; lia|done]. eapply Forall_impl; [exact Hall|]. naive_solver.
Qed.

(** Reserving tokens charges every admitted item its cost and never more than the limit. *)
Lemma reserve_loop_ok items limit (cost : SelectedOccurrence -> list Z -> C) : forall costs charged out sum,
  reserve_loop items limit cost costs charged = Ok (out, sum) ->
  out = costs ++ map (fun p => cost p.1 p.2) items /\
  tc_value sum = tc_value charged + zsum (map (fun p => tc_value (cost p.1 p.2)) items) /\
  (items = [] \/ tc_value sum <= tc_value limit) /\
  Forall (fun p => Z.of_nat (length p.2) = byte_length (payload p.1)) items.
Proof.
  induction items as [|[row bytes] items IH]; intros costs charged out sum; cbn [reserve_loop].
  - intros [= <- <-]. cbn. rewrite app_nil_r. split_and!; [done|lia|by left|apply Forall_nil_2].
  - destruct (Z.eqb_spec (Z.of_nat (length bytes)) (byte_length (payload row))); cbn [negb]; [|done].
    destruct (tc_checked_add charged (cost row bytes)) as [s|] eqn:Ea; [|done]. apply tc_add_some in Ea.
    destruct (tc_leb s limit) eqn:El; [|done]. rewrite tc_leb_value in El. intros (-> & Hs & Hor & Hall)%IH.
    cbn [map zsum foldr fst snd] in *. unfold zsum in *. split_and!; [by rewrite <- app_assoc|lia| |by apply Forall_cons].
    right. destruct Hor as [->|]; [cbn in Hs; lia|done].
Qed.

Theorem reservation_within_limit admitted bytes limit (cost : SelectedOccurrence -> list Z -> C) costs charged :
  reserve_required admitted bytes limit cost = Ok (costs, charged) ->
  costs = map (fun p => cost p.1 p.2) (zip admitted bytes) /\ length costs = length admitted /\
  tc_value charged = zsum (map tc_value costs) /\ (tc_value charged <= tc_value limit \/ costs = []).
Proof.
  unfold reserve_required. destruct (admitted !! length bytes) eqn:E; [done|]. apply lookup_ge_None_1 in E.
  intros (-> & Hs & Hor & _)%reserve_loop_ok. rewrite tc_zero_value in Hs. cbn [app]. split_and!.
  - done.
  - rewrite length_map, length_zip_with. lia.
  - rewrite map_map. lia.
  - destruct Hor as [->|]; [by right|by left].
Qed.

(** ** The optional scan *)
Section ScanLaws.
Context {St : Type} (marginal : St -> nat -> C * St) (admit_item : St -> nat -> St) (budget : C) (state : St).

Notation scan n := (skip_and_continue marginal admit_item budget n state).

(** The price of an item when the scan reaches it. *)
Definition price (i : nat) : Z := tc_value (marginal (scan i).2 i).1.

Lemma scan_S n : scan (S n) = scan_step marginal admit_item n (scan n).
Proof. unfold skip_and_continue. by rewrite seq_S, foldl_app. Qed.

(** The scan admits an item exactly when its price, in the state the admitted items before it left,
    fits in what remains, and goes on after an item that does not; the budget is the price of
    the admitted items plus what remains, and every item is admitted or skipped once. *)
Theorem scan_greedy count :
  sc_admitted (scan count).1 ++ sc_skipped (scan count).1 ≡ₚ seq 0 count /\
  tc_value (sc_remaining (scan count).1) + zsum (map price (sc_admitted (scan count).1)) = tc_value budget /\
  (forall i, (i < count)%nat -> i ∈ sc_admitted (scan count).1 <-> price i <= tc_value (sc_remaining (scan i).1)).
Proof.
  induction count as [|n (Hp & Hb & Hi)]; [split_and!; [done|cbn; lia|lia]|]. rewrite scan_S. unfold scan_step.
  assert (forall i, i ∈ sc_admitted (scan n).1 -> (i < n)%nat) as Hlt.
  { intros i Hi'. assert (i ∈ seq 0 n) as [_ ?]%elem_of_seq; [|lia]. rewrite <- Hp. apply elem_of_app. by left. }
  pose proof (eq_refl (price n)) as Hpr. unfold price in Hpr at 2.
  destruct (marginal (scan n).2 n) as [cost st] eqn:Em. cbn [fst] in Hpr.
  destruct (tc_checked_sub (sc_remaining (scan n).1) cost) as [rest|] eqn:Es; cbn [fst sc_admitted sc_skipped sc_remaining].
  - apply tc_sub_some in Es. pose proof (tc_value_nonneg rest). rewrite seq_S, <- Hp. split_and!.
    + rewrite <- app_assoc. rewrite <- app_assoc. apply Permutation_app_head, Permutation_app_comm.
    + rewrite map_app, zsum_app. cbn. lia.
    + intros i Hin. rewrite elem_of_app, list_elem_of_singleton. destruct (decide (i = n)) as [->|]; [|rewrite <- Hi by lia; tauto].
      split; [lia|by right].
  - apply tc_sub_none in Es. rewrite seq_S, <- Hp. split_and!; [by rewrite app_assoc|done|].
    intros i Hin. destruct (decide (i = n)) as [->|]; [|apply Hi; lia]. split; [intros ?%Hlt; lia|lia].
Qed.

End ScanLaws.
End RequiredLaws.

Lemma required_admission_exact_witness :
  let row o n := mkSelected o Messages 7 "text" None (mkPayloadRef "p" n) Normal (mkProvenance "d" "s" "e" "a" 1) None
                   (NonGrouping Messages) in
  let fact o n := mkFact (mkRequest o 7) (row o n) Eligible in
  let facts := [fact "a" 3; fact "b" 4] in
  let b := mkRequiredBounds 2 7 5 in
  admit_required (C := N) facts b = Ok [row "a" 3; row "b" 4] /\
  zsum (map (fun f => byte_length (payload (fact_row f))) facts) <= rb_payload_bytes b.
Proof.
  intros row fact facts b.
  assert (admit_required (C := N) facts b = Ok [row "a" 3; row "b" 4]) as E by (vm_compute; reflexivity).
  split; [exact E|]. apply (required_admission_exact (C := N) facts b [row "a" 3; row "b" 4]) in E;
    [apply E|vm_compute; intuition discriminate|vm_compute; intuition discriminate|].
  repeat (apply Forall_cons; split; [vm_compute; discriminate|]). apply Forall_nil_2.
Defined.

(** Two overlapping spans of one parent merge; a third that disagrees on the shared byte makes the
    whole run refused; a whole object stands alone. *)
Example group_overlapping :
  let key := mkGroupingKey RawToolSpans (mkParentKey "p" 1) "raw" in
  let row o sp n g := mkSelected o RawToolSpans 1 "raw" sp (mkPayloadRef "p" n) Normal (mkProvenance "d" "s" "e" "a" 1) None g in
  let a := mkItem (row "a" (Some (mkSpan 2 5)) 3 (Grouped key)) [98; 99; 100] in
  let b := mkItem (row "b" (Some (mkSpan 4 6)) 2 (Grouped key)) [100; 101] in
  let c := mkItem (row "c" (Some (mkSpan 4 6)) 2 (Grouped key)) [102; 101] in
  let w := mkItem (row "w" None 1 (NonGrouping Messages)) [97] in
  let single := mkGroup (IdSingle "w") 0 [mkRange (mkSpan 0 1) [97] ["w"]] in
  group [w; b; a] = Some (mkPartition
    [single; mkGroup (IdGrouped key) 1 [mkRange (mkSpan 2 6) [98; 99; 100; 101] ["a"; "b"]]] []) /\
  group [w; b; a; c] = Some (mkPartition [single]
    [("a", OverlapDisagreement); ("b", OverlapDisagreement); ("c", OverlapDisagreement)]).
Proof. split; vm_compute; reflexivity. Qed.

End Packing.
