(* ===== verification/Lease.v ===== *)
(** * Lease: single-writer leases with epoch fencing (lease/src/lib.rs)

    A lease file holds a writer epoch in decimal. The file is a list of bytes; a write that stops
    after some bytes leaves a prefix of its byte writes applied, in order. The advisory lock of one
    key is the list of its live holders; the operating system releases a holder's lock when its
    process dies. *)
From S2P Require Import Prelude SortBy.
From stdpp Require Import sorting.

#[local] Open Scope Z_scope.

Module Lease.

(** ** Keys *)
Record LeaseKey := mkLeaseKey { module_id : list Z; backend : list Z; scope_key : list Z }.

Definition SEPARATOR : Z := 31.

(** [identity]: [None] is the panic on a field that contains the separator. *)
Definition identity (k : LeaseKey) : option (list Z) :=
  if bool_decide (SEPARATOR ∈ module_id k) || bool_decide (SEPARATOR ∈ backend k) || bool_decide (SEPARATOR ∈ scope_key k)
  then None
  else Some (module_id k ++ [SEPARATOR] ++ backend k ++ [SEPARATOR] ++ scope_key k).

Definition fnv1a (bytes : list Z) : Z :=
  foldl (fun h b => (Z.lxor h b * 0x100000001b3) mod (u64_MAX + 1)) 0xcbf29ce484222325 bytes.

(** [{:016x}] and the name of a lease file. *)
Definition hex_char (d : Z) : Z := if d <? 10 then 48 + d else 87 + d.

Fixpoint hex_digits (n : nat) (x : Z) : list Z :=
  match n with O => [] | S n => hex_digits n (x / 16) ++ [hex_char (x mod 16)] end.

Definition fnv1a_hex (bytes : list Z) : list Z := hex_digits 16 (fnv1a bytes).

(** ".lease" *)
Definition lease_name (k : LeaseKey) : option (list Z) :=
  (fun i => fnv1a_hex i ++ [46; 108; 101; 97; 115; 101]) <$> identity k.

(** ** Epochs in the file *)
Definition EPOCH_WIDTH : nat := 20.

Inductive EpochFault := TooLong | EmptyEpoch | NotDecimal | OutOfRange | Exhausted | WriteFault.

Definition epoch_digit (b : Z) : bool := (48 <=? b) && (b <=? 57).

Fixpoint accumulate (acc : Z) (bytes : list Z) : option Z :=
  match bytes with
  | [] => Some acc
  | d :: rest => acc ← checked_mul u64_MAX acc 10; acc ← checked_add u64_MAX acc (d - 48); accumulate acc rest
  end.

Definition read_epoch (file : list Z) : result EpochFault Z :=
  let bytes := take (EPOCH_WIDTH + 1) file in
  if (EPOCH_WIDTH <? length bytes)%nat then Err TooLong
  else if bool_decide (bytes = []) then Err EmptyEpoch
  else if negb (forallb epoch_digit bytes) then Err NotDecimal
  else ok_or (accumulate 0 bytes) OutOfRange.

(** [format!("{epoch:020}")] of a 64-bit value. *)
Fixpoint epoch_decimal (n : nat) (x : Z) : list Z :=
  match n with O => [] | S n => epoch_decimal n (x / 10) ++ [48 + x mod 10] end.

(** One byte written at an offset at most the length of the file. *)
Definition write_byte (file : list Z) (w : nat * Z) : list Z :=
  if (w.1 <? length file)%nat then <[w.1 := w.2]> file else file ++ [w.2].

Definition writes_at (offset : nat) (bytes : list Z) : list (nat * Z) := imap (fun i b => ((offset + i)%nat, b)) bytes.

(** The byte writes of [persist_epoch], in order: ['x'] up to the width, then the digits. *)
Definition persist_writes (file : list Z) (epoch : Z) : list (nat * Z) :=
  (if (length file <? EPOCH_WIDTH)%nat then writes_at (length file) (replicate (EPOCH_WIDTH - length file) 120) else []) ++
  writes_at 0 (epoch_decimal EPOCH_WIDTH epoch).

(** The file after the first [n] byte writes, and after all of them. *)
Definition persist_interrupted (n : nat) (file : list Z) (epoch : Z) : list Z :=
  foldl write_byte file (take n (persist_writes file epoch)).

Definition persist_epoch (file : list Z) (epoch : Z) : list Z := foldl write_byte file (persist_writes file epoch).

(** [bump_epoch_above] up to the write: the epoch to persist. *)
Definition next_epoch (file : list Z) (recovery_floor : option Z) : result EpochFault Z :=
  let epoch_floor := default 0 recovery_floor in
  prev ← match recovery_floor with
         | Some floor => if bool_decide (file = []) then Ok floor else read_epoch file
         | None => read_epoch file
         end;
  ok_or (checked_add u64_MAX (Z.max prev epoch_floor) 1) Exhausted.

(** A [fault] stops the write after that many bytes. *)
Definition bump_epoch_above (file : list Z) (recovery_floor : option Z) (fault : option nat) : result EpochFault Z * list Z :=
  match next_epoch file recovery_floor with
  | Err e => (Err e, file)
  | Ok next =>
      match fault with
      | Some n => (Err WriteFault, persist_interrupted n file next)
      | None => (Ok next, persist_epoch file next)
      end
  end.

(** ** The lease of one key *)
Record Holder := mkHolder { exclusive : bool; held_epoch : Z }.

Record Store := mkStore {
  lease_file : option (list Z);
  holders : list Holder;
  granted : list Z; (* the epochs of exclusive acquisitions, newest first *)
}.

Inductive LeaseError := Held | Io (fault : EpochFault).

(** [open_lease_file] publishes a missing file complete, with epoch zero. *)
Definition open_lease_file (s : Store) : list Z := default (persist_epoch [] 0) (lease_file s).

Definition acquire_exclusive (recovery_floor : option Z) (fault : option nat) (s : Store) : result LeaseError Z * Store :=
  let file := open_lease_file s in
  match holders s with
  | _ :: _ => (Err Held, mkStore (Some file) (holders s) (granted s))
  | [] =>
      match bump_epoch_above file recovery_floor fault with
      | (Ok epoch, file) => (Ok epoch, mkStore (Some file) [mkHolder true epoch] (epoch :: granted s))
      | (Err e, file) => (Err (Io e), mkStore (Some file) [] (granted s))
      end
  end.

Definition acquire (fault : option nat) (s : Store) : result LeaseError Z * Store := acquire_exclusive None fault s.

Definition acquire_above (epoch_floor : Z) (fault : option nat) (s : Store) : result LeaseError Z * Store :=
  acquire_exclusive (Some epoch_floor) fault s.

Definition acquire_shared (s : Store) : result LeaseError Z * Store :=
  let file := open_lease_file s in
  if existsb exclusive (holders s) then (Err Held, mkStore (Some file) (holders s) (granted s))
  else match read_epoch file with
  | Ok epoch => (Ok epoch, mkStore (Some file) (mkHolder false epoch :: holders s) (granted s))
  | Err e => (Err (Io e), mkStore (Some file) (holders s) (granted s))
  end.

(** Dropping a held lease, or the death of its process. *)
Definition drop_holder (i : nat) (s : Store) : Store := mkStore (lease_file s) (delete i (holders s)) (granted s).

(** ** Steps: calls of any process, the end of a holder, and the loss of the file's content *)
Inductive lease_step : Store -> Store -> Prop :=
| step_acquire fault s : lease_step s (acquire fault s).2
| step_acquire_above floor fault s :
    0 <= floor ->
    (lease_file s = Some [] -> Forall (fun e => e <= floor) (granted s)) ->
    lease_step s (acquire_above floor fault s).2
| step_acquire_shared s : lease_step s (acquire_shared s).2
| step_release i s : lease_step s (drop_holder i s)
| step_emptied s : lease_step s (mkStore (Some []) (holders s) (granted s)).

Definition initial : Store := mkStore None [] [].

Inductive lease_reachable : Store -> Prop :=
| reachable_initial : lease_reachable initial
| reachable_step s s' : lease_reachable s -> lease_step s s' -> lease_reachable s'.

(** ** Values of digit strings *)
Definition value_of (ds : list Z) : Z := foldl (fun a d => 10 * a + (d - 48)) 0 ds.

Lemma value_foldl ds : forall a, foldl (fun a d => 10 * a + (d - 48)) a ds = a * 10 ^ Z.of_nat (length ds) + value_of ds.
Proof.
  unfold value_of. induction ds as [|d ds IH]; intros a; [cbn; lia|]. cbn [foldl length].
  rewrite IH, (IH (10 * 0 + (d - 48))), Nat2Z.inj_succ, Z.pow_succ_r by lia. lia.
Qed.

Lemma value_app a b : value_of (a ++ b) = value_of a * 10 ^ Z.of_nat (length b) + value_of b.
Proof. unfold value_of at 1. rewrite foldl_app, value_foldl. done. Qed.

Lemma value_range ds : forallb epoch_digit ds = true -> 0 <= value_of ds < 10 ^ Z.of_nat (length ds).
Proof.
  induction ds as [|d ds IH] using rev_ind; [done|]. rewrite forallb_app. cbn [forallb]. intros H.
  apply andb_true_iff in H as [H Hd]. specialize (IH H). rewrite value_app, length_app. cbn [length].
  rewrite Nat2Z.inj_add, Z.pow_add_r by lia. change (10 ^ Z.of_nat 1) with 10.
  replace (value_of [d]) with (d - 48) by (unfold value_of; cbn [foldl]; lia). unfold epoch_digit in Hd. lia.
Qed.

Lemma accumulate_value ds : forall acc,
  forallb epoch_digit ds = true -> 0 <= acc ->
  accumulate acc ds = let v := acc * 10 ^ Z.of_nat (length ds) + value_of ds in
                      if (bool_decide (ds = []) || (v <=? u64_MAX)) then Some v else None.
Proof.
  induction ds as [|d ds IH]; intros acc Hd Ha; [cbn; f_equal; lia|]. cbn [forallb] in Hd. apply andb_true_iff in Hd as [Hd Hds].
  cbn zeta. rewrite (bool_decide_eq_false_2 (d :: ds = [])) by done. cbn [orb accumulate].
  pose proof (value_range ds Hds) as Hv. assert (48 <= d <= 57) as Hdd by (unfold epoch_digit in Hd; lia).
  assert (1 <= 10 ^ Z.of_nat (length ds)) as Hp by (pose proof (Z.pow_pos_nonneg 10 (Z.of_nat (length ds))); lia).
  replace (acc * 10 ^ Z.of_nat (length (d :: ds)) + value_of (d :: ds))
    with ((acc * 10 + (d - 48)) * 10 ^ Z.of_nat (length ds) + value_of ds).
  2:{ cbn [length]. rewrite Nat2Z.inj_succ, Z.pow_succ_r by lia. unfold value_of at 2. cbn [foldl].
      rewrite value_foldl. lia. }
  unfold checked_mul. destruct (Z.leb_spec (acc * 10) u64_MAX); cbn [mbind option_bind].
  2:{ destruct (Z.leb_spec ((acc * 10 + (d - 48)) * 10 ^ Z.of_nat (length ds) + value_of ds) u64_MAX); [nia|done]. }
  unfold checked_add. destruct (Z.leb_spec (acc * 10 + (d - 48)) u64_MAX); cbn [mbind option_bind].
  2:{ destruct (Z.leb_spec ((acc * 10 + (d - 48)) * 10 ^ Z.of_nat (length ds) + value_of ds) u64_MAX); [nia|done]. }
  rewrite IH by (done || lia). cbn zeta. destruct ds as [|d' ds']; [|done]. cbn [bool_decide orb].
  rewrite bool_decide_eq_true_2 by done. cbn [orb length Z.of_nat value_of foldl] in *. rewrite (proj2 (Z.leb_le _ _)) by lia. done.
Qed.

(** What a successful read means. *)
Lemma read_epoch_ok file e :
  read_epoch file = Ok e <->
    (0 < length file <= EPOCH_WIDTH)%nat /\ forallb epoch_digit file = true /\ value_of file = e /\ e <= u64_MAX.
Proof.
  unfold read_epoch. rewrite length_take.
  destruct (Nat.ltb_spec EPOCH_WIDTH (Nat.min (EPOCH_WIDTH + 1) (length file))); [split; [done|lia]|].
  rewrite take_ge by lia. case_bool_decide as E; [subst file; split; [done|cbn; lia]|].
  destruct (forallb epoch_digit file) eqn:Ed; cbn [negb]; [|split; [done|by intros (_ & ? & _)]].
  rewrite accumulate_value by (done || lia). cbn zeta. rewrite Z.mul_0_l, Z.add_0_l.
  rewrite (bool_decide_eq_false_2 (file = [])) by done. cbn [orb].
  assert (0 < length file)%nat by (destruct file; [done|cbn; lia]).
  destruct (Z.leb_spec (value_of file) u64_MAX); cbn [ok_or].
  - split; [intros [= <-]; split_and!; [lia|lia|done|done|done]|by intros (_ & _ & -> & _)].
  - split; [done|]. intros (_ & _ & <- & ?). lia.
Qed.

Lemma length_epoch_decimal n x : length (epoch_decimal n x) = n.
Proof. revert x. induction n as [|n IH]; intros x; [done|]. cbn [epoch_decimal]. rewrite length_app, IH. cbn. lia. Qed.

Lemma epoch_decimal_digits n x : forallb epoch_digit (epoch_decimal n x) = true.
Proof.
  revert x. induction n as [|n IH]; intros x; [done|]. cbn [epoch_decimal]. rewrite forallb_app, IH. cbn [forallb andb].
  pose proof (Z.mod_pos_bound x 10). unfold epoch_digit. lia.
Qed.

Lemma value_epoch_decimal n x : 0 <= x < 10 ^ Z.of_nat n -> value_of (epoch_decimal n x) = x.
Proof.
  revert x. induction n as [|n IH]; intros x Hx; [cbn in *; lia|]. cbn [epoch_decimal]. rewrite value_app, IH.
  - cbn [length]. change (10 ^ Z.of_nat 1) with 10. pose proof (Z.div_mod x 10). unfold value_of. cbn [foldl]. lia.
  - rewrite Nat2Z.inj_succ, Z.pow_succ_r in Hx by lia. split; [apply Z.div_pos; lia|apply Z.div_lt_upper_bound; lia].
Qed.

(** ** Writes *)
Lemma writes_at_foldl bytes : forall offset file,
  (offset <= length file)%nat ->
  foldl write_byte file (writes_at offset bytes) = take offset file ++ bytes ++ drop (offset + length bytes) file.
Proof.
  unfold writes_at. induction bytes as [|b bytes IH]; intros offset file Ho.
  - cbn. rewrite Nat.add_0_r. by rewrite take_drop.
  - cbn [imap foldl]. rewrite Nat.add_0_r.
    rewrite (imap_ext _ (fun i b0 => ((S offset + i)%nat, b0))) by (intros; unfold compose; f_equal; lia).
    unfold write_byte at 2. cbn [fst snd]. destruct (Nat.ltb_spec offset (length file)) as [Hlt|Hge].
    + rewrite IH by (rewrite length_insert; lia).
      assert (length (take offset file) = offset) as Hlen by (rewrite length_take; lia).
      rewrite insert_take_drop by done. cbn [length app].
      rewrite (cons_middle b), (app_assoc (take offset file)).
      assert (length (take offset file ++ [b]) = S offset) as Hl by (rewrite length_app; cbn; lia).
      rewrite <- Hl at 1. rewrite take_app_length, drop_app_ge, drop_drop, <- app_assoc by lia. cbn [app]. do 4 f_equal. lia.
    + assert (offset = length file) as -> by lia. rewrite IH by (rewrite length_app; cbn; lia).
      rewrite take_ge by (rewrite length_app; cbn; lia). rewrite (take_ge file) by lia. rewrite <- app_assoc. cbn [app length].
      rewrite !drop_ge by (rewrite ?length_app; cbn; lia). done.
Qed.

Lemma writes_at_take n offset bytes : take n (writes_at offset bytes) = writes_at offset (take n bytes).
Proof.
  unfold writes_at. apply list_eq. intros i. rewrite list_lookup_imap. destruct (decide (i < n)%nat).
  - rewrite !lookup_take_lt by done. by rewrite list_lookup_imap.
  - rewrite !lookup_take_ge by lia. done.
Qed.

(** The states a write can stop in: the file filled up with some ['x'], or some digits of the new
    epoch over the filled file. *)
Lemma interrupted_state n file epoch :
  (length file <= EPOCH_WIDTH)%nat ->
  let fill := (EPOCH_WIDTH - length file)%nat in
  ((n <= fill)%nat /\ persist_interrupted n file epoch = file ++ replicate n 120) \/
  exists k, (k <= EPOCH_WIDTH)%nat /\ (k = EPOCH_WIDTH \/ n = (fill + k)%nat) /\
    persist_interrupted n file epoch = take k (epoch_decimal EPOCH_WIDTH epoch) ++ drop k (file ++ replicate fill 120).
Proof.
  intros Hl fill. unfold persist_interrupted, persist_writes.
  assert ((if (length file <? EPOCH_WIDTH)%nat then writes_at (length file) (replicate (EPOCH_WIDTH - length file) 120) else []) =
    writes_at (length file) (replicate fill 120)) as ->.
  { destruct (Nat.ltb_spec (length file) EPOCH_WIDTH); [done|]. subst fill. by replace (EPOCH_WIDTH - length file)%nat with O by lia. }
  assert (length (writes_at (length file) (replicate fill 120)) = fill) as Hw by (unfold writes_at; by rewrite length_imap, length_replicate).
  rewrite take_app, Hw, foldl_app, !writes_at_take, take_replicate.
  rewrite (writes_at_foldl _ (length file)) by done. rewrite take_ge, (drop_ge file), app_nil_r by lia.
  destruct (decide (n <= fill)%nat) as [Hn|Hn].
  - left. split; [done|]. replace (n - fill)%nat with O by lia. by rewrite Nat.min_l by lia.
  - right. rewrite Nat.min_r by lia. rewrite writes_at_foldl by lia. rewrite take_0. cbn [app Nat.add].
    assert (length (take (n - fill) (epoch_decimal EPOCH_WIDTH epoch)) = Nat.min (n - fill) EPOCH_WIDTH) as Ht
      by (rewrite length_take, length_epoch_decimal; lia).
    exists (Nat.min (n - fill) EPOCH_WIDTH). split; [lia|]. split; [lia|]. rewrite Ht. f_equal.
    destruct (decide (n - fill <= EPOCH_WIDTH)%nat); [by rewrite Nat.min_l by lia|].
    rewrite Nat.min_r by lia. by rewrite !take_ge by (rewrite ?length_epoch_decimal; lia).
Qed.

Lemma filled_not_decimal file k fill :
  (k < length file + fill)%nat -> (0 < fill)%nat -> forallb epoch_digit (drop k (file ++ replicate fill 120)) = false.
Proof.
  intros Hk Hf. destruct (forallb epoch_digit (drop k (file ++ replicate fill 120))) eqn:E; [|done].
  rewrite forallb_forall in E. assert (In 120 (drop k (file ++ replicate fill 120))) as Hin.
  { apply list_elem_of_In, (list_elem_of_lookup_2 _ (length file + fill - 1 - k)%nat). rewrite lookup_drop.
    replace (k + (length file + fill - 1 - k))%nat with (length file + (fill - 1))%nat by lia.
    rewrite lookup_app_r by lia. apply lookup_replicate. lia. }
  by apply E in Hin.
Qed.

(** Most significant digits first: a partial overwrite by a larger value never lowers it. *)
Lemma partial_overwrite_ge a b k :
  length a = length b -> forallb epoch_digit a = true -> forallb epoch_digit b = true -> value_of b <= value_of a ->
  value_of b <= value_of (take k a ++ drop k b).
Proof.
  intros Hl Ha Hb Hv.
  assert (length (drop k a) = length (drop k b)) as Hd by (rewrite !length_drop; lia).
  pose proof (value_app (take k b) (drop k b)) as Eb. rewrite take_drop in Eb.
  pose proof (value_app (take k a) (drop k a)) as Ea. rewrite take_drop, Hd in Ea. rewrite value_app.
  assert (forall l, forallb epoch_digit l = true -> forallb epoch_digit (drop k l) = true) as Hdd.
  { intros l H. rewrite <- (take_drop k l), forallb_app in H. by apply andb_true_iff in H as [_ H]. }
  pose proof (value_range _ (Hdd a Ha)) as Ra. pose proof (value_range _ (Hdd b Hb)) as Rb. rewrite Hd in Ra.
  assert (value_of (take k b) <= value_of (take k a)) by nia. nia.
Qed.

Lemma persist_epoch_reads file epoch :
  (length file <= EPOCH_WIDTH)%nat -> 0 <= epoch <= u64_MAX ->
  persist_epoch file epoch = epoch_decimal EPOCH_WIDTH epoch /\ read_epoch (persist_epoch file epoch) = Ok epoch.
Proof.
  intros Hl He. assert (persist_epoch file epoch = epoch_decimal EPOCH_WIDTH epoch) as E.
  { set (n := length (persist_writes file epoch)). assert (persist_epoch file epoch = persist_interrupted n file epoch) as ->.
    { unfold persist_epoch, persist_interrupted. by rewrite take_ge by (subst n; lia). }
    assert (n = EPOCH_WIDTH - length file + EPOCH_WIDTH)%nat as Hn.
    { subst n. unfold persist_writes, writes_at. rewrite length_app, length_imap, length_epoch_decimal.
      destruct (Nat.ltb_spec (length file) EPOCH_WIDTH); [rewrite length_imap, length_replicate; lia|change (length []) with O; lia]. }
    destruct (interrupted_state n file epoch Hl) as [[H _]|(k & Hk & Hor & ->)]; [unfold EPOCH_WIDTH in *; lia|].
    assert (k = EPOCH_WIDTH) as -> by lia. rewrite take_ge by (rewrite length_epoch_decimal; lia).
    rewrite drop_ge by (rewrite length_app, length_replicate; lia). by rewrite app_nil_r. }
  split; [done|]. rewrite E. apply read_epoch_ok. rewrite length_epoch_decimal. split_and!; [unfold EPOCH_WIDTH; lia|lia| | |lia].
  - apply epoch_decimal_digits.
  - apply value_epoch_decimal. change (10 ^ Z.of_nat EPOCH_WIDTH) with 100000000000000000000. unfold u64_MAX in He. lia.
Qed.

(** Whatever a stopped write leaves, a later read gives the new epoch or one not below the old. *)
Lemma interrupted_reads n file next e :
  (length file <= EPOCH_WIDTH)%nat -> 0 <= next <= u64_MAX ->
  (file = [] \/ exists prev, read_epoch file = Ok prev /\ prev <= next) ->
  read_epoch (persist_interrupted n file next) = Ok e ->
  e = next \/ exists prev, read_epoch file = Ok prev /\ prev <= e.
Proof.
  intros Hl Hn Hfile Hread. pose proof (interrupted_state n file next Hl) as Hst. cbv zeta in Hst.
  set (fill := (EPOCH_WIDTH - length file)%nat) in *.
  destruct Hst as [[Hnf E]|(k & Hk & _ & E)]; rewrite E in Hread.
  - destruct n as [|n]; [rewrite app_nil_r in Hread; right; by exists e|].
    apply read_epoch_ok in Hread as (_ & Hd & _). pose proof (filled_not_decimal file 0 (S n)) as Hf. rewrite drop_0 in Hf.
    rewrite Hf in Hd by lia. done.
  - destruct (decide (k = EPOCH_WIDTH)) as [->|Hk'].
    { left. rewrite take_ge in Hread by (rewrite length_epoch_decimal; lia).
      rewrite drop_ge, app_nil_r in Hread by (rewrite length_app, length_replicate; lia).
      destruct (persist_epoch_reads file next Hl Hn) as [Ep Er]. rewrite Ep in Er. congruence. }
    apply read_epoch_ok in Hread as (_ & Hd & Hv & _). rewrite forallb_app in Hd. apply andb_true_iff in Hd as [_ Hd].
    destruct (decide (fill = O)) as [Hf|Hf]; [|rewrite filled_not_decimal in Hd by lia; done].
    rewrite Hf in Hv. cbn [replicate] in Hv. rewrite app_nil_r in Hv.
    destruct Hfile as [->|(prev & Hr & Hle)]; [cbn in Hf; done|]. right. exists prev. split; [done|].
    apply read_epoch_ok in Hr as (_ & Hdf & <- & _). rewrite <- Hv. apply partial_overwrite_ge.
    + rewrite length_epoch_decimal. lia.
    + apply epoch_decimal_digits.
    + done.
    + rewrite value_epoch_decimal; [done|]. change (10 ^ Z.of_nat EPOCH_WIDTH) with 100000000000000000000. unfold u64_MAX in Hn. lia.
Qed.

(** ** The invariant of a store *)
Definition granted_below (file : list Z) (gs : list Z) : Prop :=
  file = [] \/ forall e, read_epoch file = Ok e -> Forall (fun g => g <= e) gs.

Record lease_inv (s : Store) : Prop := {
  inv_exclusive : forall h, h ∈ holders s -> exclusive h = true -> holders s = [h];
  inv_order : StronglySorted (fun newer older => older < newer) (granted s);
  inv_file : match lease_file s with None => granted s = [] | Some file => granted_below file (granted s) end;
}.

Lemma open_below s : lease_inv s -> granted_below (open_lease_file s) (granted s).
Proof.
  intros [_ _ Hf]. unfold open_lease_file. destruct (lease_file s) as [file|]; [exact Hf|].
  right. rewrite Hf. intros e _. apply Forall_nil_2.
Qed.

(** The next epoch exceeds what the file or, for an emptied file, the floor holds. *)
Lemma next_epoch_ok file floor next :
  (forall f, floor = Some f -> 0 <= f) -> next_epoch file floor = Ok next ->
  (length file <= EPOCH_WIDTH)%nat /\ 0 <= next <= u64_MAX /\
  ((file = [] /\ exists f, floor = Some f /\ f < next) \/ exists prev, read_epoch file = Ok prev /\ prev < next).
Proof.
  intros Hfl. unfold next_epoch.
  assert (forall prev, read_epoch file = Ok prev -> ok_or (checked_add u64_MAX (Z.max prev (default 0 floor)) 1) Exhausted = Ok next ->
    (length file <= EPOCH_WIDTH)%nat /\ 0 <= next <= u64_MAX /\
    ((file = [] /\ exists f, floor = Some f /\ f < next) \/ exists prev, read_epoch file = Ok prev /\ prev < next)) as Hread.
  { intros prev Hr Hc. pose proof Hr as (Hl & Hd & Hv & Hm)%read_epoch_ok. pose proof (value_range file Hd).
    destruct (checked_add u64_MAX (Z.max prev (default 0 floor)) 1) as [x|] eqn:Ec; [|done]. apply checked_add_Some in Ec as [-> Hc'].
    injection Hc as <-. split_and!; [lia|lia|lia|]. right. exists prev. split; [done|lia]. }
  destruct floor as [f|].
  - case_bool_decide as Hfile; cbn [mbind result_bind].
    + change (default 0 (Some f)) with f. rewrite Z.max_id. specialize (Hfl f eq_refl).
      destruct (checked_add u64_MAX f 1) as [x|] eqn:Ec; [|done]. apply checked_add_Some in Ec as [-> Hc]. intros [= <-].
      subst file. split_and!; [cbn; unfold EPOCH_WIDTH; lia|lia|lia|]. left. split; [done|]. exists f. split; [done|lia].
    + destruct (read_epoch file) as [prev|] eqn:Er; cbn [mbind result_bind]; [|done]. by apply Hread.
  - destruct (read_epoch file) as [prev|] eqn:Er; cbn [mbind result_bind]; [|done]. by apply Hread.
Qed.

(** A bump keeps the file above everything granted, and an epoch it returns is above it too. *)
Lemma bump_ok file floor fault gs :
  (forall f, floor = Some f -> 0 <= f /\ (file = [] -> Forall (fun g => g <= f) gs)) -> granted_below file gs ->
  match bump_epoch_above file floor fault with
  | (Ok epoch, file') => Forall (fun g => g < epoch) gs /\ granted_below file' (epoch :: gs)
  | (Err _, file') => granted_below file' gs
  end.
Proof.
  intros Hfl Hb. unfold bump_epoch_above. destruct (next_epoch file floor) as [next|] eqn:En; [|done].
  apply next_epoch_ok in En as (Hl & Hn & Hprev); [|intros f Hf; by apply Hfl].
  assert (Forall (fun g => g < next) gs) as Hlt.
  { destruct Hprev as [(-> & f & -> & Hf)|(prev & Hr & Hp)].
    - destruct (Hfl f eq_refl) as [_ H]. eapply Forall_impl; [exact (H eq_refl)|]. cbn. lia.
    - destruct Hb as [->|Hb]; [done|]. eapply Forall_impl; [exact (Hb prev Hr)|]. cbn. lia. }
  destruct fault as [n|].
  - right. intros e He. apply (interrupted_reads n file next e Hl Hn) in He as [->|(prev & Hr & Hle)].
    + eapply Forall_impl; [exact Hlt|]. cbn. lia.
    + destruct Hb as [->|Hb]; [done|]. eapply Forall_impl; [exact (Hb prev Hr)|]. cbn. lia.
    + destruct Hprev as [[-> _]|(prev & Hr & Hp)]; [by left|]. right. exists prev. split; [done|lia].
  - split; [done|]. right. destruct (persist_epoch_reads file next Hl Hn) as [_ Er]. rewrite Er. intros e [= <-].
    constructor; [lia|]. eapply Forall_impl; [exact Hlt|]. cbn. lia.
Qed.

Lemma acquire_exclusive_inv floor fault s :
  (forall f, floor = Some f -> 0 <= f /\ (lease_file s = Some [] -> Forall (fun g => g <= f) (granted s))) ->
  lease_inv s -> lease_inv (acquire_exclusive floor fault s).2.
Proof.
  intros Hfl Hi. pose proof (open_below s Hi) as Hb. pose proof Hi as [He Ho Hf]. unfold acquire_exclusive.
  destruct (holders s) as [|h hs] eqn:Eh; [|split; cbn [snd holders granted lease_file]; [by rewrite <- Eh in *|done|done]].
  pose proof (bump_ok (open_lease_file s) floor fault (granted s)) as Hbump.
  assert (open_lease_file s = [] -> lease_file s = Some []) as Hempty.
  { unfold open_lease_file. destruct (lease_file s) as [file|]; [intros H; f_equal; exact H|].
    destruct (persist_epoch_reads [] 0) as [E _]; [cbn; unfold EPOCH_WIDTH; lia|unfold u64_MAX; lia|]. cbn [default from_option id].
    rewrite E. done. }
  specialize (Hbump ltac:(intros f Ef; destruct (Hfl f Ef) as [H1 H2]; split; [done|]; intros H3; by apply H2, Hempty) Hb).
  destruct (bump_epoch_above (open_lease_file s) floor fault) as [[epoch|e] file']; cbn [snd].
  - destruct Hbump as [Hlt Hbelow]. split; cbn [holders granted lease_file]; [by intros h ->%list_elem_of_singleton| |done].
    by constructor.
  - split; cbn [holders granted lease_file]; [by intros h ?%elem_of_nil|done|done].
Qed.

Lemma acquire_shared_inv s : lease_inv s -> lease_inv (acquire_shared s).2.
Proof.
  intros Hi. pose proof (open_below s Hi) as Hb. pose proof Hi as [He Ho Hf]. unfold acquire_shared.
  destruct (existsb exclusive (holders s)) eqn:Ex; [by split|].
  destruct (read_epoch (open_lease_file s)) as [epoch|e]; cbn [snd]; [|by split].
  split; cbn [holders granted lease_file]; [|done|done]. intros h [->|Hh]%elem_of_cons Hx; [done|].
  exfalso. assert (existsb exclusive (holders s) = true) as Hc; [|congruence].
  apply existsb_exists. exists h. split; [by apply list_elem_of_In|done].
Qed.

Lemma release_inv i s : lease_inv s -> lease_inv (drop_holder i s).
Proof.
  intros [He Ho Hf]. split; cbn [drop_holder holders granted lease_file]; [|done|done]. intros h Hh Hx.
  assert (h ∈ holders s) as Hin.
  { apply list_elem_of_In. apply list_elem_of_In in Hh. rewrite delete_take_drop in Hh. apply in_app_or in Hh.
    rewrite <- (take_drop i (holders s)). apply in_or_app. destruct Hh as [Hh|Hh]; [by left|right].
    rewrite <- (take_drop 1 (drop i (holders s))), drop_drop. apply in_or_app. right. by rewrite Nat.add_1_r. }
  specialize (He h Hin Hx). rewrite He in *. destruct i as [|i]; [by apply elem_of_nil in Hh|done].
Qed.

Lemma reachable_inv s : lease_reachable s -> lease_inv s.
Proof.
  induction 1 as [|s s' _ IH Hstep].
  - split; cbn; [by intros h ?%elem_of_nil|constructor|done].
  - destruct Hstep as [fault s|floor fault s Hfl Hg|s|i s|s].
    + by apply acquire_exclusive_inv.
    + apply acquire_exclusive_inv; [|done]. intros f [= <-]. done.
    + by apply acquire_shared_inv.
    + by apply release_inv.
    + destruct IH as [He Ho _]. split; cbn [holders granted lease_file]; [done|done|by left].
Qed.

(** ** Claims *)

(** C31: Whatever the interleaving of acquisitions, releases, process deaths, writes that stop
    after any byte and losses of the file's content, an exclusive holder is the only holder, and
    every exclusive acquisition was granted an epoch greater than all granted before it, as long
    as a caller that recovers an emptied file passes a floor covering what was granted. *)
Theorem lease_fencing s :
  lease_reachable s ->
  (forall h, h ∈ holders s -> exclusive h = true -> holders s = [h]) /\
  StronglySorted (fun newer older => older < newer) (granted s).
Proof. intros [He Ho _]%reachable_inv. done. Qed.

(** Two acquisitions, the second after a write that stopped inside the digits. *)
Lemma lease_fencing_witness :
  let s1 := (acquire None initial).2 in
  let s2 := drop_holder 0 s1 in
  let s3 := (acquire (Some 19%nat) s2).2 in
  let s4 := (acquire_above 5 None s3).2 in
  granted s4 = [6; 1] /\ StronglySorted (fun newer older => older < newer) (granted s4).
Proof.
  intros s1 s2 s3 s4. split; [vm_compute; reflexivity|].
  destruct (lease_fencing s4) as [_ H]; [|exact H].
  eapply reachable_step; [eapply reachable_step; [eapply reachable_step; [eapply reachable_step; [constructor|]|]|]|].
  - exact (step_acquire None initial).
  - exact (step_release 0 s1).
  - exact (step_acquire (Some 19%nat) s2).
  - apply (step_acquire_above 5 None s3); [lia|]. vm_compute. discriminate.
Defined.

(** A persist that stops after any number of bytes leaves a file that cannot be read, or reads
    as the new epoch, or reads as an epoch not below the previous one; a persist that completes
    reads as the new epoch. *)
Theorem interrupted_persist_monotone n file prev next :
  read_epoch file = Ok prev -> prev < next <= u64_MAX ->
  (forall e, read_epoch (persist_interrupted n file next) = Ok e -> prev <= e) /\
  read_epoch (persist_epoch file next) = Ok next.
Proof.
  intros Hr Hn. pose proof Hr as (Hl & Hd & Hv & _)%read_epoch_ok. pose proof (value_range file Hd). split.
  - intros e He. apply interrupted_reads in He as [->|(p & Hp & Hle)]; [lia| |lia|lia|].
    + rewrite Hr in Hp. injection Hp as <-. done.
    + right. exists prev. split; [done|lia].
  - apply persist_epoch_reads; lia.
Qed.

Lemma interrupted_persist_monotone_witness :
  let file := epoch_decimal 20 99 in
  read_epoch file = Ok 99 /\ read_epoch (persist_interrupted 18 file 100) = Ok 199 /\
  read_epoch (persist_epoch file 100) = Ok 100.
Proof.
  intros file. assert (read_epoch file = Ok 99) as Hr by (vm_compute; reflexivity).
  split; [exact Hr|]. split; [vm_compute; reflexivity|].
  apply (interrupted_persist_monotone 18 file 99 100 Hr). unfold u64_MAX. lia.
Defined.

(** Two keys share their identity only when they are equal, so a lock identity never aliases two
    keys; a field with the separator never gets one. *)
Lemma split_separator a b a' b' :
  SEPARATOR ∉ a -> SEPARATOR ∉ a' -> a ++ [SEPARATOR] ++ b = a' ++ [SEPARATOR] ++ b' -> a = a' /\ b = b'.
Proof.
  revert a'. induction a as [|x a IH]; intros [|y a'] Ha Ha'; cbn [app].
  - by intros [= ->].
  - intros [= Ey _]. exfalso. apply Ha'. rewrite Ey. left.
  - intros [= Ex _]. exfalso. apply Ha. rewrite <- Ex. left.
  - intros [= -> E]. apply not_elem_of_cons in Ha as [_ Ha], Ha' as [_ Ha']. destruct (IH a' Ha Ha' E) as [-> ->]. done.
Qed.

Theorem identity_injective k k' i : identity k = Some i -> identity k' = Some i -> k = k'.
Proof.
  unfold identity. destruct k as [m b sc], k' as [m' b' sc']. cbn [module_id backend scope_key].
  destruct (_ || _ || _) eqn:E; [done|]. destruct (bool_decide (SEPARATOR ∈ m') || _ || _) eqn:E'; [done|].
  rewrite !orb_false_iff, !bool_decide_eq_false in E, E'. destruct E as [[Hm Hb] _], E' as [[Hm' Hb'] _].
  intros [= <-] [= Heq]. symmetry in Heq. destruct (split_separator _ _ _ _ Hm Hm' Heq) as [-> Heq'].
  destruct (split_separator _ _ _ _ Hb Hb' Heq') as [-> ->]. done.
Qed.

End Lease.
