(* ===== verification/Payload.v ===== *)
(** * Payload: what replaces a reduced tool call (daemon/src/selection.rs)

    A reduced call keeps a placeholder, a skeleton of its input or a hinted diff. Text is the
    string of its UTF-8 bytes, so a character boundary is a byte that continues no character.
    [to_string] is serde_json's compact printer, which the code calls. *)
From S2P Require Import Prelude BTree SortBy CanonicalJson Utf8.
From stdpp Require Import strings sorting.
From Stdlib Require Import SpecFloat.

#[local] Open Scope Z_scope.

Module Payload.
Import CanonicalJson.

Definition EDIT_REGION_HINT_LEN : nat := 40.
Definition TRUNCATION_SENTINEL : string := "...[truncated]".
Definition DROPPED_PLACEHOLDER : string := "[dropped]".
Definition DIFF_KEYS : list string := ["oldString"; "newString"; "content"; "old_string"; "new_string"].
Definition INPUT_CLAMP_BYTES : nat := 500.
Definition SKELETON_ARG_LEN : nat := 5.

(** ** Characters of a string *)
Definition continues (c : Ascii.ascii) : bool := continuation (byte_of c).

(** [len_utf8] and [len_utf16] of the character with this first byte. *)
Definition len_utf8 (c : Ascii.ascii) : nat :=
  if byte_of c <? 0x80 then 1 else if byte_of c <? 0xE0 then 2 else if byte_of c <? 0xF0 then 3 else 4.
Definition len_utf16 (c : Ascii.ascii) : nat := if byte_of c <? 0xF0 then 1 else 2.

Fixpoint utf16_len (text : string) : nat :=
  match text with
  | EmptyString => 0
  | String c rest => (if continues c then 0 else len_utf16 c) + utf16_len rest
  end.

(** The loop of [utf16_prefix] over [char_indices]; [start] is the byte index. *)
Fixpoint utf16_end (text : string) (start used end_ limit : nat) : nat :=
  match text with
  | EmptyString => end_
  | String c rest =>
      if continues c then utf16_end rest (S start) used end_ limit
      else if (limit <? used + len_utf16 c)%nat then end_
      else utf16_end rest (S start) (used + len_utf16 c) (start + len_utf8 c) limit
  end.

Definition utf16_prefix (text : string) (limit : nat) : string := String.substring 0 (utf16_end text 0 0 0 limit) text.

Definition ends_with (s suffix : string) : bool :=
  (String.length suffix <=? String.length s)%nat &&
  bool_decide (String.substring (String.length s - String.length suffix) (String.length suffix) s = suffix).

(** [chars().count()] and the byte index of the [n]th character. *)
Fixpoint chars_count (s : string) : nat :=
  match s with EmptyString => 0 | String c rest => (if continues c then 0 else 1) + chars_count rest end.

Fixpoint char_index (n index : nat) (s : string) : option nat :=
  match s with
  | EmptyString => None
  | String c rest =>
      if continues c then char_index n (S index) rest
      else match n with O => Some index | S n => char_index n (S index) rest end
  end.

Definition string_char_boundary (s : string) (index : nat) : bool :=
  (index =? 0)%nat || (index =? String.length s)%nat ||
  match String.get index s with Some c => negb (continues c) | None => false end.

(** The [while] of [safe_prefix]. *)
Fixpoint boundary_below (s : string) (end_ : nat) : nat :=
  match end_ with
  | O => O
  | S e => if string_char_boundary s end_ then end_ else boundary_below s e
  end.

Definition safe_prefix (s : string) (max_len : nat) : string :=
  String.substring 0 (boundary_below s (Nat.min max_len (String.length s))) s.

(** ** Payloads *)
Definition region_hint (value : string) : string :=
  if ends_with value TRUNCATION_SENTINEL &&
     (utf16_len value <=? EDIT_REGION_HINT_LEN + utf16_len TRUNCATION_SENTINEL)%nat
  then value
  else if (EDIT_REGION_HINT_LEN <? utf16_len value)%nat
  then (utf16_prefix value EDIT_REGION_HINT_LEN +:+ TRUNCATION_SENTINEL)%string
  else value.

(** The rewriting of one entry in the loop of [edit_marker_payload]. *)
Definition hint_entry (kv : string * Value) : string * Value :=
  if bool_decide (kv.1 ∈ DIFF_KEYS)
  then match kv.2 with Str s => (kv.1, Str (region_hint s)) | _ => kv end
  else kv.

Definition items_text (n : nat) : string := ("[" +:+ display_i64 (Z.of_nat n) +:+ " items]")%string.

Definition clamp_string (s : string) : string :=
  (safe_prefix s (default (String.length s) (char_index SKELETON_ARG_LEN 0 s)) +:+ TRUNCATION_SENTINEL)%string.

(** The match of [clamp_object] on one value. *)
Definition clamp_value (v : Value) : Value :=
  match v with
  | Str s => if (SKELETON_ARG_LEN <? chars_count s)%nat then Str (clamp_string s) else v
  | Array items => Str (items_text (length items))
  | Object _ => Str "[object]"
  | _ => v
  end.

Section Printing.
Context (to_string : Value -> string).

(** [keys.sort()] sorts the keys, the values are looked up by key. *)
Fixpoint canonical_json (value : Value) : string :=
  match value with
  | Object entries =>
      let parts := sort_by (cmp_by fst String.compare) (map (fun kv => (kv.1, canonical_json kv.2)) entries) in
      ("{" +:+ String.concat "," (map (fun kv => to_string (Str kv.1) +:+ ":" +:+ kv.2) parts) +:+ "}")%string
  | Array arr => ("[" +:+ String.concat "," (map canonical_json arr) +:+ "]")%string
  | other => to_string other
  end.

Definition edit_marker_payload (input : Value) : string :=
  match input with
  | Object entries => canonical_json (Object (map hint_entry entries))
  | _ => DROPPED_PLACEHOLDER
  end.

Definition clamp_object (entries : list (string * Value)) : string :=
  canonical_json (Object (map (fun kv => (kv.1, clamp_value kv.2)) entries)).

Definition skeleton_payload (input : Value) : string :=
  if (String.length (to_string input) <=? INPUT_CLAMP_BYTES)%nat then canonical_json input
  else match input with
       | Object entries => clamp_object entries
       | Array items => items_text (length items)
       | _ => canonical_json input
       end.

(** ** The payload does not depend on the order of an object's entries *)

(** The same JSON value up to the order of the entries of its objects. *)
Inductive json_equiv : Value -> Value -> Prop :=
| equiv_refl v : json_equiv v v
| equiv_array xs ys : Forall2 json_equiv xs ys -> json_equiv (Array xs) (Array ys)
| equiv_object es fs gs :
    NoDup (map fst es) -> es ≡ₚ fs -> Forall2 (fun a b => a.1 = b.1 /\ json_equiv a.2 b.2) fs gs ->
    json_equiv (Object es) (Object gs).

Lemma sort_entries_unique (l1 l2 : list (string * string)) :
  NoDup (map fst l1) -> l1 ≡ₚ l2 -> sort_by (cmp_by fst String.compare) l1 = sort_by (cmp_by fst String.compare) l2.
Proof.
  intros Hnd Hp. apply (sort_by_unique (cmp_by fst String.compare)); [done|]. intros x y Hx Hy Hc.
  apply (NoDup_map_inj fst l1); [done|done|done|]. by apply String.compare_eq_iff.
Qed.

Lemma canonical_json_equiv v : forall w, json_equiv v w -> canonical_json v = canonical_json w.
Proof.
  induction v as [| | | |xs IH|es IH] using Value_ind'; intros w Hw; inversion Hw as [|? ys Hy|? fs gs Hnd Hp Hg]; subst; try done.
  - cbn [canonical_json]. do 3 f_equal. induction Hy as [|x y xs ys Hxy Hy IHy]; [done|].
    apply list.Forall_cons in IH as [Hx IH]. cbn [map]. f_equal; [by apply Hx|]. apply IHy; [done|by constructor].
  - cbn [canonical_json]. do 4 f_equal. rewrite (sort_entries_unique _ (map (fun kv => (kv.1, canonical_json kv.2)) fs)).
    + f_equal. rewrite Hp in IH. clear Hp Hnd Hw es. induction Hg as [|[k x] [k' y] fs gs [Hk Hxy] Hg IHg]; [done|].
      apply list.Forall_cons in IH as [Hx IH]. cbn in Hk; subst k'. cbn [map fst snd]. f_equal; [f_equal; by apply (Hx y)|by apply IHg].
    + rewrite map_map. by cbn [fst].
    + by rewrite Hp.
Qed.

Lemma hint_entry_equiv a b : a.1 = b.1 -> json_equiv a.2 b.2 -> (hint_entry a).1 = (hint_entry b).1 /\ json_equiv (hint_entry a).2 (hint_entry b).2.
Proof.
  destruct a as [k v], b as [k' w]. cbn. intros <- Hvw. unfold hint_entry. cbn. case_bool_decide; [|done].
  inversion Hvw; subst; cbn; [|by split..]. destruct w; cbn; by split; [|constructor].
Qed.

Lemma fst_hint_entry kv : (hint_entry kv).1 = kv.1.
Proof. unfold hint_entry. case_bool_decide; [|done]. by destruct (kv.2). Qed.

#[global] Instance canonical_json_proper : Proper (json_equiv ==> eq) canonical_json.
Proof. intros v w Hvw. by apply canonical_json_equiv. Qed.

(** Inputs that differ only in the order of their entries get the same edit marker. *)
Lemma edit_marker_payload_equiv v w : json_equiv v w -> edit_marker_payload v = edit_marker_payload w.
Proof.
  inversion 1 as [|? ys Hy|es fs gs Hnd Hp Hg]; subst; try done. cbn [edit_marker_payload].
  apply canonical_json_equiv, equiv_object with (map hint_entry fs).
  - rewrite map_map, (map_ext _ fst); [done|apply fst_hint_entry].
  - by rewrite Hp.
  - apply Forall2_fmap. eapply Forall2_impl; [exact Hg|]. intros a b [? ?]. by apply hint_entry_equiv.
Qed.

End Printing.

(** ** Prefixes cut at characters *)

(** The bytes of one character: its first byte and as many continuations as it announces. *)
Definition is_char (s : string) : bool :=
  match s with
  | EmptyString => false
  | String c rest =>
      negb (continues c) && (S (String.length rest) =? len_utf8 c)%nat && forallb continues (String.list_ascii_of_string rest)
  end.

Definition text (cs : list string) : string := String.concat EmptyString cs.
Definition units (s : string) : nat := match s with EmptyString => 0 | String c _ => len_utf16 c end.

Fixpoint take_units (limit : nat) (cs : list string) : list string :=
  match cs with
  | [] => []
  | c :: rest => if (units c <=? limit)%nat then c :: take_units (limit - units c) rest else []
  end.

Lemma text_cons c cs : text (c :: cs) = (c +:+ text cs)%string.
Proof. unfold text. destruct cs; cbn [String.concat]; [by rewrite append_nil_r|done]. Qed.

Lemma text_app cs ds : text (cs ++ ds) = (text cs +:+ text ds)%string.
Proof. induction cs as [|c cs IH]; [done|]. cbn [app]. by rewrite !text_cons, IH, append_assoc. Qed.

Lemma utf16_len_app s t : utf16_len (s +:+ t) = (utf16_len s + utf16_len t)%nat.
Proof. induction s as [|c s IH]; [done|]. rewrite append_cons. cbn [utf16_len]. lia. Qed.

Lemma utf16_len_continuations s : forallb continues (String.list_ascii_of_string s) = true -> utf16_len s = 0%nat.
Proof.
  induction s as [|c s IH]; [done|]. cbn [String.list_ascii_of_string forallb utf16_len]. intros [-> Hs]%andb_true_iff.
  by rewrite IH.
Qed.

Lemma utf16_len_char c : is_char c = true -> utf16_len c = units c.
Proof.
  destruct c as [|c rest]; [done|]. cbn [is_char utf16_len units]. intros [[Hc _]%andb_true_iff Hr]%andb_true_iff.
  apply negb_true_iff in Hc. rewrite Hc, utf16_len_continuations by done. lia.
Qed.

Lemma utf16_end_continuations s t start used end_ limit :
  forallb continues (String.list_ascii_of_string s) = true ->
  utf16_end (s +:+ t) start used end_ limit = utf16_end t (start + String.length s) used end_ limit.
Proof.
  revert start. induction s as [|c s IH]; intros start Hs; [by rewrite Nat.add_0_r|]. rewrite append_cons.
  cbn [String.list_ascii_of_string forallb] in Hs. apply andb_true_iff in Hs as [Hc Hs].
  cbn [utf16_end String.length]. rewrite Hc, IH by done. f_equal. lia.
Qed.

Lemma utf16_end_text cs limit start used :
  Forall (fun c => is_char c = true) cs -> (used <= limit)%nat ->
  utf16_end (text cs) start used start limit = (start + String.length (text (take_units (limit - used) cs)))%nat.
Proof.
  revert start used. induction cs as [|c cs IH]; intros start used Hcs Hu; [cbn; lia|].
  apply list.Forall_cons in Hcs as [Hc Hcs]. rewrite text_cons. destruct c as [|c rest]; [done|].
  cbn [is_char] in Hc. apply andb_true_iff in Hc as [[Hc Hlen%Nat.eqb_eq]%andb_true_iff Hr]. apply negb_true_iff in Hc.
  rewrite append_cons. cbn [utf16_end take_units units]. rewrite Hc.
  destruct (limit <? used + len_utf16 c)%nat eqn:E.
  - apply Nat.ltb_lt in E. destruct (len_utf16 c <=? limit - used)%nat eqn:E'; [apply Nat.leb_le in E'; lia|cbn; lia].
  - apply Nat.ltb_ge in E. destruct (len_utf16 c <=? limit - used)%nat eqn:E'; [|apply Nat.leb_gt in E'; lia].
    rewrite utf16_end_continuations by done. replace (S start + String.length rest)%nat with (start + len_utf8 c)%nat by lia.
    rewrite IH by (done || lia). rewrite text_cons, length_append. cbn [String.length].
    rewrite Nat.sub_add_distr. lia.
Qed.

Lemma take_units_prefix limit cs : take_units limit cs `prefix_of` cs.
Proof.
  revert limit. induction cs as [|c cs IH]; intros limit; [done|]. cbn. case_match; [by apply prefix_cons|apply prefix_nil].
Qed.

Lemma utf16_len_take_units limit cs :
  Forall (fun c => is_char c = true) cs -> (utf16_len (text (take_units limit cs)) <= limit)%nat.
Proof.
  revert limit. induction cs as [|c cs IH]; intros limit Hcs; [cbn; lia|]. apply list.Forall_cons in Hcs as [Hc Hcs].
  cbn [take_units]. destruct (units c <=? limit)%nat eqn:E; [|cbn; lia]. apply Nat.leb_le in E.
  rewrite text_cons, utf16_len_app, utf16_len_char by done. specialize (IH (limit - units c)%nat Hcs). lia.
Qed.

(** The prefix holds whole characters, as many as fit the limit. *)
Lemma utf16_prefix_text cs limit :
  Forall (fun c => is_char c = true) cs -> utf16_prefix (text cs) limit = text (take_units limit cs).
Proof.
  intros Hcs. unfold utf16_prefix. rewrite utf16_end_text, Nat.sub_0_r by (done || lia).
  destruct (take_units_prefix limit cs) as [rest Hr]. rewrite Hr at 2. rewrite text_app. apply substring_prefix.
Qed.

Lemma ends_with_app s t : ends_with (s +:+ t) t = true.
Proof.
  unfold ends_with. rewrite length_append, andb_true_iff, Nat.leb_le, bool_decide_eq_true. split; [lia|].
  replace (String.length s + String.length t - String.length t)%nat with (String.length s) by lia.
  rewrite <- (append_nil_r t) at 2. by rewrite substring_mid.
Qed.

(** A hinted value is left alone when it is hinted again. *)
Theorem region_hint_idempotent cs :
  Forall (fun c => is_char c = true) cs -> region_hint (region_hint (text cs)) = region_hint (text cs).
Proof.
  intros Hcs. assert (region_hint (text cs) = text cs \/
    region_hint (text cs) = (utf16_prefix (text cs) EDIT_REGION_HINT_LEN +:+ TRUNCATION_SENTINEL)%string) as [E|E].
  { unfold region_hint. case_match; [by left|]. case_match; [by right|by left]. }
  - by rewrite !E.
  - rewrite E. unfold region_hint. rewrite ends_with_app, utf16_len_app, utf16_prefix_text by done.
    pose proof (utf16_len_take_units EDIT_REGION_HINT_LEN cs Hcs) as Hle.
    destruct (_ <=? _)%nat eqn:E3; [done|]. apply Nat.leb_gt in E3. lia.
Qed.
End Payload.
