(* ===== verification/Selection.v ===== *)
(** * Selection: which blocks of the tail are reduced (daemon/src/selection.rs,
    daemon/src/tool_vocabulary.rs)

    Blocks are grouped into tool arcs; selectors choose arcs; a chosen arc expands to decisions on
    its blocks. A hash map is an association list in insertion order and a hash set a list; where
    the code iterates over one, the order is the parameter [iter_order]. The Unicode lowercase
    mapping and serde_json's printer are parameters. The theorems are in [SelectionProofs]. *)
From S2P Require Import Prelude BTree SortBy Doubles CanonicalJson WindowCoverage Passes Payload.
From stdpp Require Import strings sorting.
From Stdlib Require Import SpecFloat.

#[local] Open Scope Z_scope.

Module Selection.
Import CanonicalJson Passes Payload.

(** ** Doubles as the code uses them *)

(** The value of a finite double rounded half away from zero ([f64::round]) and up ([f64::ceil]). *)
Definition f64_round (f : f64) : f64 :=
  match f with
  | S754_finite s m e =>
      let n := if 0 <=? e then Z.pos m * 2 ^ e else (2 * Z.pos m + 2 ^ (- e)) / (2 * 2 ^ (- e)) in
      if n =? 0 then S754_zero s else f64_of_Z (if s then - n else n)
  | _ => f
  end.

Definition f64_ceil_usize (f : f64) : Z :=
  match f with
  | S754_finite false m e => if 0 <=? e then Z.pos m * 2 ^ e else (Z.pos m + 2 ^ (- e) - 1) / 2 ^ (- e)
  | _ => 0
  end.

(** ** Constants *)
Definition TODOWRITE_KEEP : Z := 1.
Definition EIDNARA_REDUCE_KEEP : nat := 3.
Definition TARGET_FRACTION : f64 := f64_div (f64_of_Z 30) (f64_of_Z 100).
Definition TIER_RECENCY_RESERVE : f64 := f64_div (f64_of_Z 20) (f64_of_Z 100).
Definition AGE_RECLAIM_MIN_TOKENS : Z := 250.
Definition EMERGENCY_REARM_MIN_TOKENS : f64 := f64_of_Z 2000.
Definition TOKENS_PER_BYTE : f64 := f64_div (f64_of_Z 25) (f64_of_Z 100).
Definition RECENT_TOOL_SKELETON_WINDOW : nat := 20.

(** ** Tool vocabulary *)
Inductive ToolClass := Edit | TodoWrite | ZeroValueMeta | EidnaraReduce | EidnaraNote | Tabled | UnknownTool.

#[global] Instance ToolClass_eq_dec : EqDecision ToolClass.
Proof. solve_decision. Defined.

Definition TODO_TOOL : string := "todowrite".
Definition EDIT_TOOLS : list string := ["edit"; "write"].
Definition ZERO_VALUE_META_TOOLS : list string := ["bash_status"; "bash_kill"].
Definition T1_TOOLS : list string := [TODO_TOOL; "read"; "task"; "aft_outline"; "aft_zoom"].
Definition T2_TOOLS : list string := ["edit"; "write"; "apply_patch"; "grep"; "glob"; "aft_search"].
Definition EXIT_CODE_TOOL : string := "bash".
Definition ZERO_VALUE_NOTE_ACTIONS : list string := ["read"; "dismiss"].
Definition PATH_KEYS : list string := ["filePath"; "file_path"; "path"].
Definition EIDNARA_REDUCE_TOOL : string := "eidnara_reduce".
Definition EIDNARA_NOTE_TOOL : string := "eidnara_note".

(** [lower.starts_with("mcp_")] and the drain of those four bytes. *)
Definition strip_mcp (s : string) : string :=
  if String.prefix "mcp_" s then String.substring 4 (String.length s - 4) s else s.

Definition in_table (name : string) (table : list string) : bool := bool_decide (name ∈ table).

(** [object.get(key).and_then(Value::as_str)], over the keys in order. *)
Definition object_string (key : string) (entries : list (string * Value)) : option string :=
  match List.find (fun kv => bool_decide (kv.1 = key)) entries with
  | Some (_, Str s) => Some s
  | _ => None
  end.

Fixpoint find_string (keys : list string) (entries : list (string * Value)) : option string :=
  match keys with
  | [] => None
  | k :: rest => match object_string k entries with Some s => Some s | None => find_string rest entries end
  end.

Definition first_string (input : Value) (keys : list string) : option string :=
  match input with Object entries => find_string keys entries | _ => None end.

Definition path_arg (input : Value) : option string := first_string input PATH_KEYS.

Definition is_zero_value_note_call (input : Value) : bool :=
  match first_string input ["action"] with Some a => in_table a ZERO_VALUE_NOTE_ACTIONS | None => false end.

(** ** Data *)
Inductive RedKind := KDrop | KSkeleton | KEditMarker.

Definition kind_str (k : RedKind) : string :=
  match k with KDrop => "drop" | KSkeleton => "skeleton" | KEditMarker => "edit_marker" end.

Inductive SelMessageRole := Assistant | System | NonAssistant.

#[global] Instance SelMessageRole_eq_dec : EqDecision SelMessageRole.
Proof. solve_decision. Defined.

Inductive SelKind :=
| ToolCall (name : string) (input : Value)
| ToolResult (tool_name : string) (outcome : option string)
| Reasoning | Text | RedactedReasoning | Media | Opaque.

Record SelItem := mkSelItem {
  item_id : string;
  item_ordinal : Z;
  message_role : SelMessageRole;
  item_kind : SelKind;
  provider_executed : bool;
  byte_size : Z;
  token_count : option Z;
  item_arc : option string;
}.

Inductive PassClass := PCExecute | PCEmergencyForce | PCDefer.

#[global] Instance PassClass_eq_dec : EqDecision PassClass.
Proof. solve_decision. Defined.

Record SelectionContext := mkSelectionContext {
  pass_class : PassClass;
  current_total_input_tokens : f64;
  ceiling_tokens : f64;
  protected_cutoff_ordinal : Z;
  last_execute_ordinal : Z;
  scheduler_pressure_execute : bool;
  prior_input_sample : f64;
  has_prior_drop : bool;
  agent_drop_ids : list string;
  agent_drop_command_ids : list (string * string);
  first_applied_agent_drop_ids : list string;
  pass_already_busting : bool;
  supersession_ride_available : bool;
  tag_window_protected_block_ids : list string;
  exempt_message_protected_block_ids : list string;
}.

Definition has (x : string) (l : list string) : bool := bool_decide (x ∈ l).

Definition block_is_protected (ctx : SelectionContext) (id : string) : bool :=
  has id (tag_window_protected_block_ids ctx) || has id (exempt_message_protected_block_ids ctx).

Record ToolArc := mkArc {
  arc_id : string;
  arc_name : string;
  arc_ordinal : Z;
  arc_provider_executed : bool;
  call_inputs : list (string * Value);
  call_bytes : Z;
  result_ids : list string;
  result_bytes : Z;
  reclaim_tokens : option Z;
  reduced : bool;
}.

Definition reclaim_bytes (a : ToolArc) : Z := call_bytes a + result_bytes a.
Definition arc_input (a : ToolArc) : option Value := snd <$> head (call_inputs a).

Inductive ArcShape := Skeleton | FullDrop | EditMarker.

(** ** Hash maps with string keys *)
Section Assoc.
Context {V : Type}.

Definition assoc_get (k : string) (m : list (string * V)) : option V := snd <$> List.find (fun kv => bool_decide (kv.1 = k)) m.

(** [entry(k)]: [None] in the closure is the vacant entry. *)
Fixpoint assoc_upd (k : string) (f : option V -> V) (m : list (string * V)) : list (string * V) :=
  match m with
  | [] => [(k, f None)]
  | (k', v) :: rest => if bool_decide (k' = k) then (k', f (Some v)) :: rest else (k', v) :: assoc_upd k f rest
  end.

Definition assoc_insert (k : string) (v : V) (m : list (string * V)) : list (string * V) := assoc_upd k (fun _ => v) m.
Definition assoc_or_insert (k : string) (v : V) (m : list (string * V)) : list (string * V) := assoc_upd k (default v) m.

End Assoc.

(** ** Arcs *)
Definition new_arc (id : string) : ToolArc := mkArc id "" u64_MAX false [] 0 [] 0 None false.

(** The body of [group_arcs]'s loop on the entry of the item's arc. *)
Definition absorb (frozen : list string) (item : SelItem) (a : ToolArc) : ToolArc :=
  let ordinal := Z.min (arc_ordinal a) (item_ordinal item) in
  let tokens := match token_count item with
                | Some t => Some (Z.min u64_MAX (default 0 (reclaim_tokens a) + t))
                | None => reclaim_tokens a
                end in
  let red := if has (item_id item) frozen then true else reduced a in
  match item_kind item with
  | ToolCall name input =>
      mkArc (arc_id a) name ordinal (provider_executed item) (call_inputs a ++ [(item_id item, input)])
        (call_bytes a + byte_size item) (result_ids a) (result_bytes a) tokens red
  | ToolResult tool_name _ =>
      mkArc (arc_id a) (if bool_decide (arc_name a = EmptyString) then tool_name else arc_name a) ordinal
        (if provider_executed item then true else arc_provider_executed a) (call_inputs a) (call_bytes a)
        (result_ids a ++ [item_id item]) (result_bytes a + byte_size item) tokens red
  | _ => mkArc (arc_id a) (arc_name a) ordinal (arc_provider_executed a) (call_inputs a) (call_bytes a) (result_ids a)
           (result_bytes a) tokens red
  end.

Definition arcs_step (frozen : list string) (arcs : list (string * ToolArc)) (item : SelItem) : list (string * ToolArc) :=
  match item_arc item with
  | None => arcs
  | Some id => assoc_upd id (fun e => absorb frozen item (default (new_arc id) e)) arcs
  end.

(** Oldest first; newest first is the same comparison with swapped operands. *)
Definition arc_cmp : ToolArc -> ToolArc -> comparison := cmp_then (cmp_by arc_ordinal Z.compare) (cmp_by arc_id String.compare).
Definition newest_cmp : ToolArc -> ToolArc -> comparison := cmp_rev arc_cmp.

Definition item_message_id (item : SelItem) : option string :=
  '(m, index) ← Window.rsplit_hash (item_id item);
  (fun _ => m) <$> Window.parse_usize index.

(** ** Reasoning *)
Record AdjacencyMessageShape := mkAdjacency {
  adj_mid : string;
  adj_ordinal : Z;
  adj_role : SelMessageRole;
  adj_reasoning : bool;
  adj_items : list SelItem;
}.

Definition is_reasoning (k : SelKind) : bool := match k with Reasoning | RedactedReasoning => true | _ => false end.
Definition is_tool (k : SelKind) : bool := match k with ToolCall _ _ | ToolResult _ _ => true | _ => false end.
Definition is_result (k : SelKind) : bool := match k with ToolResult _ _ => true | _ => false end.

Definition fully_removed_by_arc (m : AdjacencyMessageShape) : option string :=
  first ← head (adj_items m);
  id ← item_arc first;
  if forallb (fun item => bool_decide (item_arc item = Some id) && is_tool (item_kind item)) (adj_items m) then Some id else None.

Definition is_result_separator (m : AdjacencyMessageShape) : bool :=
  bool_decide (adj_role m = NonAssistant) && existsb (fun item => is_result (item_kind item)) (adj_items m).

Definition adjacency_step (messages : list (string * AdjacencyMessageShape)) (item : SelItem) : list (string * AdjacencyMessageShape) :=
  match item_message_id item with
  | None => messages
  | Some m =>
      assoc_upd m (fun e =>
        let msg := default (mkAdjacency m (item_ordinal item) (message_role item) false []) e in
        mkAdjacency (adj_mid msg) (Z.min (adj_ordinal msg) (item_ordinal item)) (adj_role msg)
          (adj_reasoning msg || is_reasoning (item_kind item)) (adj_items msg ++ [item])) messages
  end.

Definition adjacency_cmp : AdjacencyMessageShape -> AdjacencyMessageShape -> comparison :=
  cmp_then (cmp_by adj_ordinal Z.compare) (cmp_by adj_mid String.compare).

(** [removable_by_arc], from the messages in order. *)
Fixpoint removable (index : nat) (messages : list AdjacencyMessageShape) (m : list (string * list nat)) : list (string * list nat) :=
  match messages with
  | [] => m
  | msg :: rest =>
      removable (S index) rest
        (match fully_removed_by_arc msg with
         | Some id => assoc_upd id (fun e => default [] e ++ [index]) m
         | None => m
         end)
  end.

(** [chunk_by(|left, right| right == left + 1)]. *)
Fixpoint chunk_runs (l : list nat) : list (list nat) :=
  match l with
  | [] => []
  | x :: rest =>
      match chunk_runs rest with
      | (y :: run) :: runs => if bool_decide (y = S x) then (x :: y :: run) :: runs else [x] :: (y :: run) :: runs
      | runs => [x] :: runs
      end
  end.

Definition hazardous_run (messages : list AdjacencyMessageShape) (run : list nat) : bool :=
  match head run, list.last run with
  | Some first, Some lst =>
      match (if (first =? 0)%nat then None else messages !! (first - 1)%nat), messages !! (lst + 1)%nat with
      | Some l, Some r =>
          existsb (fun i => match messages !! i with Some m => is_result_separator m | None => false end) run &&
          bool_decide (adj_role l = Assistant) && bool_decide (adj_role r = Assistant) && (adj_reasoning l || adj_reasoning r)
      | _, _ => false
      end
  | _, _ => false
  end.

Record ReasoningMessageShape := mkReasoningShape {
  has_reasoning : bool;
  has_durable_non_tool_sibling : bool;
  tool_arc_ids : list string;
}.

Definition reasoning_step (messages : list (string * ReasoningMessageShape)) (item : SelItem) : list (string * ReasoningMessageShape) :=
  match item_message_id item with
  | None => messages
  | Some m =>
      assoc_upd m (fun e =>
        let msg := default (mkReasoningShape false false []) e in
        let durable := mkReasoningShape (has_reasoning msg) true (tool_arc_ids msg) in
        match item_kind item with
        | Reasoning | RedactedReasoning => mkReasoningShape true (has_durable_non_tool_sibling msg) (tool_arc_ids msg)
        | ToolCall _ _ | ToolResult _ _ =>
            if negb (provider_executed item)
            then match item_arc item with
                 | Some id => mkReasoningShape (has_reasoning msg) (has_durable_non_tool_sibling msg) (id :: tool_arc_ids msg)
                 | None => durable
                 end
            else durable
        | Opaque => msg
        | _ => durable
        end) messages
  end.

Definition reasoning_ineligible_arc_ids (items : list SelItem) : list string :=
  concat (map (fun km => if has_reasoning km.2 && negb (has_durable_non_tool_sibling km.2) then tool_arc_ids km.2 else [])
            (foldl reasoning_step [] items)).

(** [arc_by_block_id]: a later block of the same id replaces an earlier one. *)
Definition arc_by_block (items : list SelItem) : list (string * string) :=
  foldl (fun m item => match item_arc item with Some a => assoc_insert (item_id item) a m | None => m end) [] items.

(** Whether a target's arc may be reduced without leaving reasoning alone in its message. *)
Definition arc_may_reduce (by_block : list (string * string)) (ineligible : list string) (d : ReductionDecision) : bool :=
  match assoc_get (target_id d) by_block with Some a => negb (has a ineligible) | None => true end.

Definition filter_reasoning_ineligible_decisions (items : list SelItem) (ds : list ReductionDecision) : list ReductionDecision :=
  let ineligible := reasoning_ineligible_arc_ids items in
  if bool_decide (ineligible = []) then ds
  else filter (fun d => arc_may_reduce (arc_by_block items) ineligible d = true) ds.

(** ** Decisions of one arc *)
Definition drop_decision (id : string) : ReductionDecision := mkReduction id (kind_str KDrop) DROPPED_PLACEHOLDER.

Definition dedupe_rank (kind : string) : Z :=
  if bool_decide (kind = "drop"%string) then 3
  else if bool_decide (kind = "edit_marker"%string) then 2
  else if bool_decide (kind = "skeleton"%string) then 1
  else 0.

Definition dedupe_step (best : list (string * ReductionDecision)) (d : ReductionDecision) : list (string * ReductionDecision) :=
  match assoc_get (target_id d) best with
  | Some existing => if dedupe_rank (rd_kind d) <=? dedupe_rank (rd_kind existing) then best else assoc_insert (target_id d) d best
  | None => assoc_insert (target_id d) d best
  end.

Section Select.
Context (to_lowercase : string -> string).
Context (to_string : Value -> string).
Context (iter_order : forall A : Type, list A -> list A).

Definition normalize (name : string) : string := strip_mcp (to_lowercase name).

Definition classify_tool (name : string) : ToolClass :=
  let name := normalize name in
  if in_table name EDIT_TOOLS then Edit
  else if bool_decide (name = TODO_TOOL) then TodoWrite
  else if in_table name ZERO_VALUE_META_TOOLS then ZeroValueMeta
  else if bool_decide (name = EIDNARA_REDUCE_TOOL) then EidnaraReduce
  else if bool_decide (name = EIDNARA_NOTE_TOOL) then EidnaraNote
  else if in_table name T1_TOOLS || in_table name T2_TOOLS || bool_decide (name = EXIT_CODE_TOOL) then Tabled
  else UnknownTool.

(** [resolve_tool_tier]: the tier of the twice normalized name, as a number. *)
Definition resolve_tool_tier (name : string) : Z :=
  let name := normalize (normalize name) in
  if in_table name T1_TOOLS then 1 else if in_table name T2_TOOLS then 2 else 3.

Definition group_arcs (items : list SelItem) (frozen : list string) : list ToolArc :=
  sort_by arc_cmp (iter_order _ (map snd (foldl (arcs_step frozen) [] items))).

Definition reasoning_adjacency_collapse_arc_ids (items : list SelItem) : list string :=
  let messages := sort_by adjacency_cmp (iter_order _ (map snd (foldl adjacency_step [] items))) in
  omap (fun ki => if existsb (hazardous_run messages) (chunk_runs ki.2) then Some ki.1 else None)
    (iter_order _ (removable 0 messages [])).

Definition expand_arc (a : ToolArc) (shape : ArcShape) (frozen : list string) : list ReductionDecision :=
  omap (fun ci =>
    if has ci.1 frozen then None
    else Some (match shape with
               | Skeleton => mkReduction ci.1 (kind_str KSkeleton) (skeleton_payload to_string ci.2)
               | FullDrop => drop_decision ci.1
               | EditMarker => mkReduction ci.1 (kind_str KEditMarker) (edit_marker_payload to_string ci.2)
               end)) (call_inputs a) ++
  omap (fun id => if has id frozen then None else Some (drop_decision id)) (result_ids a).

(** ** The selectors *)
Definition newest_eidnara_reduce_arc_ids (arcs : list ToolArc) : list string :=
  map arc_id (take EIDNARA_REDUCE_KEEP
    (sort_by newest_cmp (filter (fun a => classify_tool (arc_name a) = EidnaraReduce) arcs))).

Record Supersession := mkSupersession { intents : list (string * bool); todowrite_seen : Z; seen_file : list string }.

Definition supersede (protected_reduce : list string) (s : Supersession) (a : ToolArc) : Supersession :=
  let class := classify_tool (arc_name a) in
  let s :=
    match (if bool_decide (class = Edit) then i ← arc_input a; path_arg i else None) with
    | Some fp =>
        if has fp (seen_file s) then mkSupersession (assoc_or_insert (arc_id a) true (intents s)) (todowrite_seen s) (seen_file s)
        else mkSupersession (intents s) (todowrite_seen s) (fp :: seen_file s)
    | None => s
    end in
  let '(is_drop_target, seen) :=
    match class with
    | TodoWrite => (TODOWRITE_KEEP <? todowrite_seen s + 1, todowrite_seen s + 1)
    | EidnaraReduce => (negb (has (arc_id a) protected_reduce), todowrite_seen s)
    | ZeroValueMeta => (true, todowrite_seen s)
    | EidnaraNote => (match arc_input a with Some i => is_zero_value_note_call i | None => false end, todowrite_seen s)
    | Edit | Tabled | UnknownTool => (false, todowrite_seen s)
    end in
  mkSupersession (if is_drop_target then assoc_insert (arc_id a) false (intents s) else intents s) seen (seen_file s).

(** The intents: whether an arc becomes an edit marker rather than a drop. *)
Definition select_supersession (arcs : list ToolArc) : list (string * bool) :=
  intents (foldl (supersede (newest_eidnara_reduce_arc_ids arcs)) (mkSupersession [] 0 []) (sort_by newest_cmp arcs)).

Definition two_pass_batch_can_apply (ctx : SelectionContext) : bool :=
  scheduler_pressure_execute ctx && (pass_already_busting ctx || bool_decide (pass_class ctx = PCEmergencyForce)).

Definition select_two_pass (arcs : list ToolArc) (ctx : SelectionContext) : list string :=
  if negb (two_pass_batch_can_apply ctx) || (last_execute_ordinal ctx =? 0) then []
  else
    let protected_reduce := newest_eidnara_reduce_arc_ids arcs in
    let newest_todowrite := arc_id <$> head (sort_by newest_cmp (filter (fun a => classify_tool (arc_name a) = TodoWrite) arcs)) in
    map arc_id (filter (fun a =>
      (arc_ordinal a <=? last_execute_ordinal ctx) &&
      match reclaim_tokens a with Some t => AGE_RECLAIM_MIN_TOKENS <=? t | None => true end &&
      negb (bool_decide (Some (arc_id a) = newest_todowrite)) &&
      negb (has (arc_id a) protected_reduce) = true) arcs).

Definition agent_drop_rides (ctx : SelectionContext) (live_ids frozen : list string) (id : string) : bool :=
  existsb (fun other =>
    negb (bool_decide (other = id)) && negb (has other (first_applied_agent_drop_ids ctx)) && has other live_ids &&
    negb (has other frozen) && negb (block_is_protected ctx other) &&
    negb (bool_decide (assoc_get other (agent_drop_command_ids ctx) = assoc_get id (agent_drop_command_ids ctx))))
    (agent_drop_ids ctx).

Definition select_agent_drops (ctx : SelectionContext) (live_ids frozen : list string) : list ReductionDecision :=
  omap (fun id =>
    if has id frozen || negb (has id live_ids) || block_is_protected ctx id then None
    else
      let first_applied := has id (first_applied_agent_drop_ids ctx) in
      let natural_bust := pass_already_busting ctx ||
        (bool_decide (pass_class ctx = PCExecute) && f64_gt (ceiling_tokens ctx) (S754_zero false) &&
         f64_ge (current_total_input_tokens ctx) (ceiling_tokens ctx)) in
      let can_ride := natural_bust || (first_applied && agent_drop_rides ctx live_ids frozen id) in
      if first_applied && negb can_ride then None else Some (drop_decision id)) (agent_drop_ids ctx).

Definition bytes_to_tokens (bytes : Z) : f64 := f64_round (f64_mul (f64_of_Z bytes) TOKENS_PER_BYTE).

Definition floor_step (frozen : list string) (acc : list (string * Z) * f64) (item : SelItem) : list (string * Z) * f64 :=
  if negb (has (item_id item) frozen) && negb (bool_decide (message_role item = System)) &&
     match item_kind item with Opaque => false | _ => true end
  then match item_arc item with
       | Some id => (assoc_upd id (fun e => match e with Some b => Z.min u64_MAX (b + byte_size item) | None => byte_size item end) acc.1, acc.2)
       | None => (acc.1, f64_add acc.2 (bytes_to_tokens (byte_size item)))
       end
  else acc.

Definition active_floor_tokens (items : list SelItem) (frozen : list string) : f64 :=
  let '(tool_tag_bytes, tokens) := foldl (floor_step frozen) ([], S754_zero false) items in
  f64_add tokens (foldl f64_add (S754_zero true) (map bytes_to_tokens (iter_order _ (map snd tool_tag_bytes)))).

(** The tokens an emergency reclaims, when it does. *)
Definition emergency_target (ctx : SelectionContext) (floor : f64) : option f64 :=
  let ceiling := ceiling_tokens ctx in
  let total := current_total_input_tokens ctx in
  if negb (f64_finite ceiling) || SFleb ceiling (S754_zero false) then None
  else if negb (f64_finite total) || SFleb total (S754_zero false) then None
  else if has_prior_drop ctx && SFeqb total (prior_input_sample ctx) then None
  else
    let fixed_floor := f64_max (f64_sub total floor) (S754_zero false) in
    let working_span := f64_max (f64_sub ceiling fixed_floor) (S754_zero false) in
    let target := f64_add fixed_floor (f64_mul TARGET_FRACTION working_span) in
    let reclaim := f64_round (f64_sub total target) in
    if SFleb reclaim EMERGENCY_REARM_MIN_TOKENS then None else Some reclaim.

(** The newest share of a tier that is kept. *)
Definition tier_reserve (arcs : list ToolArc) (tier : Z) : list string :=
  let nums := sort_by newest_cmp (filter (fun a => resolve_tool_tier (arc_name a) = tier) arcs) in
  map arc_id (take (Z.to_nat (f64_ceil_usize (f64_mul TIER_RECENCY_RESERVE (f64_of_Z (Z.of_nat (length nums)))))) nums).

Definition emergency_candidate (arcs : list ToolArc) (ctx : SelectionContext) (a : ToolArc) : bool :=
  let tier := resolve_tool_tier (arc_name a) in
  negb ((protected_cutoff_ordinal ctx <? arc_ordinal a) && (0 <? protected_cutoff_ordinal ctx)) &&
  negb (has (arc_id a) (newest_eidnara_reduce_arc_ids arcs)) &&
  negb (((tier =? 1) || (tier =? 2)) && (has (arc_id a) (tier_reserve arcs 1) || has (arc_id a) (tier_reserve arcs 2))).

(** The candidates of the tiers in turn, oldest first. *)
Definition emergency_queue (arcs : list ToolArc) (ctx : SelectionContext) : list ToolArc :=
  concat (map (fun tier =>
    sort_by arc_cmp (filter (fun a => emergency_candidate arcs ctx a = true /\ resolve_tool_tier (arc_name a) = tier) arcs)) [3; 2; 1]).

(** The walk stops after the arc that meets the target. *)
Fixpoint emergency_walk (target : f64) (reclaimed : f64) (queue : list ToolArc) : list ToolArc :=
  match queue with
  | [] => []
  | a :: rest =>
      let reclaimed := f64_add reclaimed (bytes_to_tokens (reclaim_bytes a)) in
      if f64_ge reclaimed target then [a] else a :: emergency_walk target reclaimed rest
  end.

Definition select_emergency (arcs : list ToolArc) (ctx : SelectionContext) (floor : f64) : list string :=
  match emergency_target ctx floor with
  | None => []
  | Some target => map arc_id (emergency_walk target (S754_zero false) (emergency_queue arcs ctx))
  end.

(** ** The whole selection *)
Record SelectionOutcome := mkOutcome {
  decisions : list ReductionDecision;
  batch_can_apply : bool;
  eligible_count : option nat;
  withheld_by_tag_window : option nat;
  withheld_by_exempt_message : option nat;
  applied_count : option nat;
}.

Definition intent_shape (edit_marker : bool) : ArcShape := if edit_marker then EditMarker else FullDrop.

Definition add_drops (ids : list string) (shapes : list (string * ArcShape)) : list (string * ArcShape) :=
  foldl (fun m id => assoc_or_insert id FullDrop m) shapes (iter_order _ ids).

Definition add_intents (its : list (string * bool)) (shapes : list (string * ArcShape)) : list (string * ArcShape) :=
  foldl (fun m it => assoc_or_insert it.1 (intent_shape it.2) m) shapes (iter_order _ its).

(** The shapes of the chosen arcs and, where supersession ran, its arcs. *)
Definition choose_arcs (items : list SelItem) (frozen : list string) (ctx : SelectionContext) (smart_drops : bool)
  (active : list ToolArc) : list (string * ArcShape) * option (list string) :=
  let two_pass := select_two_pass active ctx in
  match pass_class ctx with
  | PCEmergencyForce =>
      let emergency := select_emergency active ctx (active_floor_tokens items frozen) in
      let shapes := add_drops emergency (add_drops two_pass []) in
      if smart_drops && (negb (bool_decide (emergency = [])) || negb (bool_decide (two_pass = [])))
      then let its := select_supersession active in (add_intents its shapes, Some (map fst its))
      else (shapes, None)
  | PCExecute =>
      let shapes := add_drops two_pass [] in
      if smart_drops && (supersession_ride_available ctx || negb (bool_decide (two_pass = [])))
      then let its := select_supersession active in (add_intents its shapes, Some (map fst its))
      else (shapes, None)
  | PCDefer => ([], None)
  end.

Definition find_arc (id : string) (arcs : list ToolArc) : option ToolArc := List.find (fun a => bool_decide (arc_id a = id)) arcs.

(** The superseded arcs one of whose blocks is protected. *)
Definition protected_supersession (active : list ToolArc) (eligible : option (list string)) (protected : list string) : option (list string) :=
  (fun ids => filter (fun id =>
     match find_arc id active with
     | Some a => existsb (fun ci => has ci.1 protected) (call_inputs a) || existsb (fun r => has r protected) (result_ids a)
     | None => false
     end = true) ids) <$> eligible.

Definition withholds (o : option (list string)) (id : string) : bool := match o with Some l => has id l | None => false end.

Definition resolve_shape (collapse window : list string) (id : string) (shape : ArcShape) : ArcShape :=
  match shape with
  | FullDrop => if has id collapse || has id window then Skeleton else FullDrop
  | other => other
  end.

Definition live_block_ids (items : list SelItem) : list string :=
  map item_id (filter (fun item => match item_kind item with Media | Opaque | Reasoning | RedactedReasoning => false | _ => true end = true) items).

Definition dedupe_and_sort (ds : list ReductionDecision) : list ReductionDecision :=
  sort_by (cmp_by target_id String.compare) (iter_order _ (map snd (foldl dedupe_step [] ds))).

Definition active_arcs (items : list SelItem) (frozen : list string) : list ToolArc :=
  let ineligible := reasoning_ineligible_arc_ids items in
  filter (fun a => reduced a = false /\ arc_provider_executed a = false /\ has (arc_id a) ineligible = false) (group_arcs items frozen).

(** The decisions of the chosen arcs. *)
Definition arc_decisions (items : list SelItem) (frozen : list string) (active : list ToolArc)
  (shapes : list (string * ArcShape)) (withheld : string -> bool) : list ReductionDecision :=
  let collapse := reasoning_adjacency_collapse_arc_ids items in
  let window := map arc_id (take RECENT_TOOL_SKELETON_WINDOW (sort_by newest_cmp active)) in
  concat (map (fun ks =>
    match find_arc ks.1 active with
    | Some a => if withheld ks.1 then [] else expand_arc a (resolve_shape collapse window ks.1 ks.2) frozen
    | None => []
    end) (iter_order _ shapes)).

Definition select_reductions_with_outcome (items : list SelItem) (frozen : list string) (ctx : SelectionContext) (smart_drops : bool)
  : SelectionOutcome :=
  if bool_decide (pass_class ctx = PCDefer) then mkOutcome [] false None None None None
  else
    let active := active_arcs items frozen in
    let '(shapes, eligible) := choose_arcs items frozen ctx smart_drops active in
    let tag := protected_supersession active eligible (tag_window_protected_block_ids ctx) in
    let exempt := protected_supersession active eligible (exempt_message_protected_block_ids ctx) in
    let out := arc_decisions items frozen active shapes (fun id => withholds tag id || withholds exempt id) ++
               select_agent_drops ctx (live_block_ids items) frozen in
    let by_block := arc_by_block items in
    let ineligible := reasoning_ineligible_arc_ids items in
    let out := filter (fun d => arc_may_reduce by_block ineligible d = true) out in
    let out := filter (fun d => block_is_protected ctx (target_id d) = false) out in
    let ds := dedupe_and_sort out in
    let applied := (fun ids => remove_dups (omap (fun d =>
        match assoc_get (target_id d) by_block with Some a => if has a ids then Some a else None | None => None end) ds)) <$> eligible in
    let withheld_count o := match o, applied with
      | Some p, Some ap => Some (length (filter (fun id => has id ap = false) (remove_dups p)))
      | _, _ => None
      end in
    mkOutcome ds (two_pass_batch_can_apply ctx) ((fun ids => length (remove_dups ids)) <$> eligible) (withheld_count tag)
      (withheld_count exempt) ((fun l : list string => length l) <$> applied).

Definition select_reductions (items : list SelItem) (frozen : list string) (ctx : SelectionContext) (smart_drops : bool)
  : list ReductionDecision := decisions (select_reductions_with_outcome items frozen ctx smart_drops).

End Select.

End Selection.
