(* ===== verification/SelectionProofs.v ===== *)
(** * SelectionProofs: the reductions a pass selects (daemon/src/selection.rs)

    What the decisions of a pass may target, that an arc is reduced whole, that the order in which
    hash maps are iterated does not show, and which arcs an emergency evicts. *)
From S2P Require Import Prelude BTree SortBy Doubles CanonicalJson WindowCoverage Passes Payload Selection.
From stdpp Require Import strings sorting sets.
From Stdlib Require Import SpecFloat.

#[local] Open Scope Z_scope.

Module SelectionProofs.
Import CanonicalJson Passes Payload Selection.

(** ** Association lists as maps *)
Section AssocLemmas.
Context {V : Type}.
Implicit Types (m : list (string * V)) (k : string) (v : V).

Lemma assoc_get_cons k k' v m : assoc_get k ((k', v) :: m) = if bool_decide (k' = k) then Some v else assoc_get k m.
Proof. unfold assoc_get. cbn. by case_bool_decide. Qed.

Lemma assoc_get_upd k k' f m :
  assoc_get k' (assoc_upd k f m) = if bool_decide (k = k') then Some (f (assoc_get k m)) else assoc_get k' m.
Proof.
  induction m as [|[k1 v1] m IH]; cbn [assoc_upd].
  - rewrite assoc_get_cons. by case_bool_decide.
  - rewrite assoc_get_cons. destruct (bool_decide_reflect (k1 = k)) as [->|Hne].
    + rewrite !assoc_get_cons. by case_bool_decide.
    + rewrite !assoc_get_cons, IH. destruct (bool_decide_reflect (k1 = k')) as [->|]; [|done].
      destruct (bool_decide_reflect (k = k')) as [->|]; [done|done].
Qed.

Lemma elem_of_keys_upd k f m x : x ∈ map fst (assoc_upd k f m) <-> x = k \/ x ∈ map fst m.
Proof.
  induction m as [|[k1 v1] m IH]; cbn [assoc_upd]; [cbn; set_solver|].
  destruct (bool_decide_reflect (k1 = k)) as [->|]; cbn [map fst]; rewrite !elem_of_cons; [tauto|rewrite IH; tauto].
Qed.

Lemma assoc_upd_NoDup k f m : NoDup (map fst m) -> NoDup (map fst (assoc_upd k f m)).
Proof.
  induction m as [|[k1 v1] m IH]; cbn [assoc_upd map fst]; intros Hnd; [apply NoDup_singleton|].
  apply list.NoDup_cons in Hnd as [Hx Hnd]. destruct (bool_decide_reflect (k1 = k)) as [->|]; cbn [map fst].
  - by constructor.
  - constructor; [|by apply IH]. rewrite elem_of_keys_upd. naive_solver.
Qed.

Lemma assoc_get_elem k v m : assoc_get k m = Some v -> (k, v) ∈ m.
Proof.
  induction m as [|[k1 v1] m IH]; [done|]. rewrite assoc_get_cons. case_bool_decide; [|by right; apply IH].
  intros [= ->]. subst. left.
Qed.

Lemma elem_of_assoc_get k v m : NoDup (map fst m) -> (k, v) ∈ m <-> assoc_get k m = Some v.
Proof.
  intros Hnd. split; [|apply assoc_get_elem]. induction m as [|[k1 v1] m IH]; [by intros ?%not_elem_of_nil|].
  apply list.NoDup_cons in Hnd as [Hx Hnd]. rewrite assoc_get_cons, elem_of_cons. intros [[= -> ->]|Hin].
  - by rewrite bool_decide_true.
  - rewrite bool_decide_false; [by apply IH|]. intros ->. apply Hx. by apply (list_elem_of_fmap_2 fst _ (k, v)).
Qed.

Lemma assoc_get_None k m : assoc_get k m = None <-> k ∉ map fst m.
Proof.
  induction m as [|[k1 v1] m IH]; [set_solver|]. rewrite assoc_get_cons. cbn [map fst].
  rewrite not_elem_of_cons. destruct (bool_decide_reflect (k1 = k)) as [->|]; naive_solver.
Qed.

(** Updating through a fold keeps the keys distinct. *)
Lemma foldl_assoc_NoDup {B} (step : list (string * V) -> B -> list (string * V)) l m :
  (forall m b, NoDup (map fst m) -> NoDup (map fst (step m b))) -> NoDup (map fst m) -> NoDup (map fst (foldl step m l)).
Proof. intros Hs. revert m. induction l as [|b l IH]; intros m Hm; [done|]. by apply IH, Hs. Qed.

End AssocLemmas.

(** Folding insertions of absent keys. *)
Lemma assoc_get_or_insert {V} (k k' : string) (v : V) m :
  assoc_get k' (assoc_or_insert k v m) =
    match assoc_get k' m with Some x => Some x | None => if bool_decide (k = k') then Some v else None end.
Proof.
  unfold assoc_or_insert. rewrite assoc_get_upd. case_bool_decide; subst; by destruct (assoc_get k' m).
Qed.

Lemma assoc_get_insert {V} (k k' : string) (v : V) m :
  assoc_get k' (assoc_insert k v m) = if bool_decide (k = k') then Some v else assoc_get k' m.
Proof. unfold assoc_insert. by rewrite assoc_get_upd. Qed.

Lemma assoc_get_fold_or_insert {B V} (key : B -> string) (val : B -> V) l m k :
  assoc_get k (foldl (fun m b => assoc_or_insert (key b) (val b) m) m l) =
    match assoc_get k m with
    | Some x => Some x
    | None => val <$> List.find (fun b => bool_decide (key b = k)) l
    end.
Proof.
  revert m. induction l as [|b l IH]; intros m; cbn [foldl List.find]; [by destruct (assoc_get k m)|].
  rewrite IH, assoc_get_or_insert. destruct (assoc_get k m); [done|]. by case_bool_decide.
Qed.

Lemma has_spec x l : has x l = true <-> x ∈ l.
Proof. unfold has. apply bool_decide_eq_true. Qed.

Lemma has_false x l : has x l = false <-> x ∉ l.
Proof. unfold has. apply bool_decide_eq_false. Qed.

Lemma has_ext x l1 l2 : (x ∈ l1 <-> x ∈ l2) -> has x l1 = has x l2.
Proof. intros Hx. unfold has. by apply bool_decide_ext. Qed.

(** ** Arcs *)

Definition is_call (k : SelKind) : bool := match k with ToolCall _ _ => true | _ => false end.

(** Some item of arc [k] has the property. *)
Definition some_in (items : list SelItem) (k : string) (P : SelItem -> Prop) : Prop :=
  exists item, item ∈ items /\ item_arc item = Some k /\ P item.

Lemma elem_of_snoc {A} (l : list A) x y : x ∈ l ++ [y] <-> x ∈ l \/ x = y.
Proof. rewrite elem_of_app, list_elem_of_singleton. done. Qed.

Lemma some_in_snoc items k P item : some_in (items ++ [item]) k P <-> some_in items k P \/ (item_arc item = Some k /\ P item).
Proof.
  unfold some_in. setoid_rewrite elem_of_snoc. split.
  - intros (x & [Hx| ->] & Hk & HP); [left; by exists x|by right].
  - intros [(x & Hx & Hk & HP)|[Hk HP]]; [exists x|exists item]; tauto.
Qed.

Lemma some_in_nil k P : some_in [] k P <-> False.
Proof. split; [|done]. intros (x & ?%not_elem_of_nil & _). done. Qed.

(** The blocks of an arc's calls and results and its flags are those of its items. *)
Record arc_ok (items : list SelItem) (frozen : list string) (k : string) (a : ToolArc) : Prop := {
  ok_id : arc_id a = k;
  ok_calls id : id ∈ map fst (call_inputs a) <-> some_in items k (fun i => item_id i = id /\ is_call (item_kind i) = true);
  ok_inputs id input : (id, input) ∈ call_inputs a ->
    some_in items k (fun i => item_id i = id /\ exists name, item_kind i = ToolCall name input);
  ok_results id : id ∈ result_ids a <-> some_in items k (fun i => item_id i = id /\ is_result (item_kind i) = true);
  ok_reduced : reduced a = true <-> some_in items k (fun i => item_id i ∈ frozen);
  ok_provider : arc_provider_executed a = true ->
    some_in items k (fun i => is_tool (item_kind i) = true /\ provider_executed i = true);
  ok_client : arc_provider_executed a = false -> some_in items k (fun i => is_tool (item_kind i) = true) ->
    some_in items k (fun i => is_tool (item_kind i) = true /\ provider_executed i = false);
}.

Lemma arc_ok_new items frozen k : (forall P, ~ some_in items k P) -> arc_ok items frozen k (new_arc k).
Proof.
  intros Hno. split; cbn; [done| | | | |done|].
  - intros id. split; [by intros ?%not_elem_of_nil|by intros ?%Hno].
  - by intros id input ?%not_elem_of_nil.
  - intros id. split; [by intros ?%not_elem_of_nil|by intros ?%Hno].
  - split; [done|by intros ?%Hno].
  - by intros _ ?%Hno.
Qed.

Lemma arc_ok_skip items frozen k a item : item_arc item <> Some k -> arc_ok items frozen k a -> arc_ok (items ++ [item]) frozen k a.
Proof.
  intros Hno [Hid Hc Hinp Hr Hred Hp Hcl].
  split; [done|intros id; rewrite some_in_snoc, Hc; tauto|intros id input; rewrite some_in_snoc; eauto|intros id; rewrite some_in_snoc, Hr; tauto| | |];
    rewrite !some_in_snoc; tauto.
Qed.

Lemma arc_ok_absorb items frozen k a item :
  item_arc item = Some k -> arc_ok items frozen k a -> arc_ok (items ++ [item]) frozen k (absorb frozen item a).
Proof.
  intros Hin [Hid Hc Hinp Hr Hred Hp Hcl]. split.
  - unfold absorb. by destruct (item_kind item).
  - intros id. rewrite some_in_snoc, <- Hc. unfold absorb. destruct (item_kind item); cbn [call_inputs is_call];
      rewrite ?map_app, ?elem_of_app; cbn [map fst]; rewrite ?list_elem_of_singleton; intuition congruence.
  - intros id input. rewrite some_in_snoc. unfold absorb. destruct (item_kind item) eqn:E; cbn [call_inputs]; auto.
    rewrite elem_of_snoc. intros [?|[= -> ->]]; [by auto|right]. eauto.
  - intros id. rewrite some_in_snoc, <- Hr. unfold absorb. destruct (item_kind item); cbn [result_ids is_result];
      rewrite ?elem_of_app, ?list_elem_of_singleton; intuition congruence.
  - rewrite some_in_snoc, <- Hred.
    assert (reduced (absorb frozen item a) = if has (item_id item) frozen then true else reduced a) as ->.
    { unfold absorb. by destruct (item_kind item). }
    destruct (has (item_id item) frozen) eqn:E; [apply has_spec in E|apply has_false in E]; tauto.
  - rewrite some_in_snoc. unfold absorb. destruct (item_kind item); cbn [arc_provider_executed is_tool]; try tauto.
    destruct (provider_executed item); tauto.
  - rewrite !some_in_snoc. unfold absorb. destruct (item_kind item); cbn [arc_provider_executed is_tool];
      try (destruct (provider_executed item)); intuition congruence.
Qed.

Lemma arcs_invariant items frozen :
  let m := foldl (arcs_step frozen) [] items in
  (forall k a, assoc_get k m = Some a -> arc_ok items frozen k a) /\
  (forall k, assoc_get k m = None -> forall P, ~ some_in items k P).
Proof.
  induction items as [|item items [IH1 IH2]] using rev_ind; cbn zeta; [split; [done|]; by intros k _ P ?%some_in_nil|].
  rewrite foldl_app. cbn [foldl]. unfold arcs_step at 1 3. destruct (item_arc item) as [id|] eqn:E.
  - split; intros k; rewrite assoc_get_upd; destruct (bool_decide_reflect (id = k)) as [->|Hne].
    + intros a [= <-]. apply arc_ok_absorb; [done|]. destruct (assoc_get k _) as [a|] eqn:Ea; [by apply IH1|].
      by apply arc_ok_new, IH2.
    + intros a Ha. apply arc_ok_skip; [congruence|by apply IH1].
    + done.
    + intros Hk P. rewrite some_in_snoc. intros [?%IH2|]; [done|done|naive_solver].
  - split; [intros k a Ha; apply arc_ok_skip; [congruence|by apply IH1]|].
    intros k Hk P. rewrite some_in_snoc. intros [?%IH2|[? _]]; [done|done|congruence].
Qed.

Lemma arcs_NoDup items frozen : NoDup (map fst (foldl (arcs_step frozen) [] items)).
Proof.
  apply foldl_assoc_NoDup; [|by apply list.NoDup_nil]. intros m item Hm. unfold arcs_step. case_match; [by apply assoc_upd_NoDup|done].
Qed.

(** ** One decision per target *)

(** [d] is a decision of [ds] that no decision on the same target outranks. *)
Definition best_of (ds : list ReductionDecision) (d : ReductionDecision) : Prop :=
  d ∈ ds /\ forall d', d' ∈ ds -> target_id d' = target_id d -> dedupe_rank (rd_kind d') <= dedupe_rank (rd_kind d).

Lemma dedupe_invariant ds :
  let m := foldl dedupe_step [] ds in
  NoDup (map fst m) /\
  (forall t d, assoc_get t m = Some d -> target_id d = t /\ best_of ds d) /\
  (forall t, assoc_get t m = None -> forall d, d ∈ ds -> target_id d <> t).
Proof.
  induction ds as [|d ds (IH1 & IH2 & IH3)] using rev_ind; cbn zeta.
  { split; [by apply list.NoDup_nil|]. split; [done|]. by intros t _ d ?%not_elem_of_nil. }
  rewrite foldl_app. cbn [foldl]. set (m := foldl dedupe_step [] ds) in *.
  assert (dedupe_step m d = m /\ (exists e, assoc_get (target_id d) m = Some e /\ dedupe_rank (rd_kind d) <= dedupe_rank (rd_kind e)) \/
    dedupe_step m d = assoc_insert (target_id d) d m /\
    (forall e, assoc_get (target_id d) m = Some e -> dedupe_rank (rd_kind e) <= dedupe_rank (rd_kind d))) as [[-> (e & He & Hle)]|[-> Hlt]].
  { unfold dedupe_step. destruct (assoc_get (target_id d) m) as [e|] eqn:E; [|by right].
    destruct (_ <=? _) eqn:El; [apply Z.leb_le in El; left; eauto|apply Z.leb_gt in El; right].
    split; [done|]. intros e' [= <-]. lia. }
  - split; [done|]. split.
    + intros t d' Hd'. destruct (IH2 t d' Hd') as (Ht & Hin & Hb). split; [done|]. split; [apply elem_of_snoc; by left|].
      intros x [Hx| ->]%elem_of_snoc Hxt; [by apply Hb|]. replace d' with e in *; [done|]. congruence.
    + intros t Ht x [Hx| ->]%elem_of_snoc; [by apply IH3|]. intros <-. congruence.
  - split; [by apply assoc_upd_NoDup|]. split; intros t.
    + intros d'. rewrite assoc_get_insert. destruct (bool_decide_reflect (target_id d = t)) as [<-|Hne].
      * intros [= <-]. split; [done|]. split; [apply elem_of_snoc; by right|].
        intros x [Hx| ->]%elem_of_snoc Hxt; [|done]. destruct (assoc_get (target_id d) m) as [e|] eqn:E.
        -- destruct (IH2 _ _ E) as (Het & _ & Hb). transitivity (dedupe_rank (rd_kind e)); [apply Hb; [done|congruence]|by apply Hlt].
        -- by apply (IH3 _ E) in Hxt.
      * intros Hd'. destruct (IH2 t d' Hd') as (Ht & Hin & Hb). split; [done|]. split; [apply elem_of_snoc; by left|].
        intros x [Hx| ->]%elem_of_snoc Hxt; [by apply Hb|congruence].
    + rewrite assoc_get_insert. destruct (bool_decide_reflect (target_id d = t)) as [<-|Hne]; [done|].
      intros Ht x [Hx| ->]%elem_of_snoc; [by apply IH3|done].
Qed.

Section Orders.
Context (iter_order : forall A : Type, list A -> list A).
Context (Hiter : forall A (l : list A), iter_order A l ≡ₚ l).

Lemma dedupe_targets ds :
  map target_id (map snd (foldl dedupe_step [] ds)) = map fst (foldl dedupe_step [] ds).
Proof.
  destruct (dedupe_invariant ds) as (Hnd & Hb & _). rewrite map_map. apply map_ext_in. intros [t d] Hin%list_elem_of_In.
  apply elem_of_assoc_get in Hin; [|done]. by apply Hb in Hin as [<- _].
Qed.

(** The result is strictly ordered by target and keeps, for every target, a decision of the
    highest rank. *)
Lemma dedupe_and_sort_spec ds :
  StronglySorted (fun a b => String.compare (target_id a) (target_id b) = Lt) (dedupe_and_sort iter_order ds) /\
  (forall d, d ∈ dedupe_and_sort iter_order ds -> best_of ds d) /\
  (forall d, d ∈ ds -> exists d', d' ∈ dedupe_and_sort iter_order ds /\ target_id d' = target_id d).
Proof.
  destruct (dedupe_invariant ds) as (Hnd & Hb & Hn).
  pose proof Hnd as Hnd'. rewrite <- dedupe_targets in Hnd'. set (m := foldl dedupe_step [] ds) in *.
  assert (forall d, d ∈ dedupe_and_sort iter_order ds <-> exists t, assoc_get t m = Some d) as Hel.
  { intros d. unfold dedupe_and_sort. rewrite sort_by_perm, Hiter, list_elem_of_fmap. split.
    - intros ([t x] & -> & Hin). exists t. by apply elem_of_assoc_get.
    - intros [t Ht]. exists (t, d). split; [done|]. by apply elem_of_assoc_get. }
  split; [|split].
  - apply (sort_by_strict (cmp_by target_id String.compare)).
    + rewrite Hiter. by apply (NoDup_fmap_1 target_id).
    + intros x y. rewrite !Hiter. intros Hx Hy E. apply (NoDup_map_inj target_id (map snd m)); [done|done|done|].
      by apply String.compare_eq_iff.
  - intros d [t Ht]%Hel. by apply Hb in Ht as [_ Ht].
  - intros d Hd. destruct (assoc_get (target_id d) m) as [d'|] eqn:E.
    + exists d'. split; [apply Hel; by exists (target_id d)|]. by apply Hb in E as [E _].
    + by apply (Hn _ E) in Hd.
Qed.

(** ** The arcs a pass may choose *)
Lemma elem_of_group_arcs items frozen a : a ∈ group_arcs iter_order items frozen -> arc_ok items frozen (arc_id a) a.
Proof.
  unfold group_arcs. rewrite sort_by_perm, Hiter, list_elem_of_fmap. intros ([k x] & -> & Hin). cbn [snd].
  apply elem_of_assoc_get in Hin; [|apply arcs_NoDup]. destruct (arcs_invariant items frozen) as [Hok _].
  apply Hok in Hin. by rewrite (ok_id _ _ _ _ Hin).
Qed.

Lemma group_arcs_ids items frozen : map arc_id (group_arcs iter_order items frozen) ≡ₚ map fst (foldl (arcs_step frozen) [] items).
Proof.
  unfold group_arcs. rewrite sort_by_perm, Hiter, map_map. erewrite map_ext_in; [done|]. intros [k a] Hin%list_elem_of_In.
  apply elem_of_assoc_get in Hin; [|apply arcs_NoDup]. destruct (arcs_invariant items frozen) as [Hok _].
  by apply (ok_id _ _ _ _ (Hok _ _ Hin)).
Qed.

Lemma elem_of_active_arcs items frozen a :
  a ∈ active_arcs iter_order items frozen ->
  arc_ok items frozen (arc_id a) a /\ reduced a = false /\ arc_provider_executed a = false /\
  arc_id a ∉ reasoning_ineligible_arc_ids items.
Proof.
  unfold active_arcs. rewrite list_elem_of_filter. intros ((Hr & Hp & Hi) & Ha). apply has_false in Hi.
  by apply elem_of_group_arcs in Ha.
Qed.

Lemma find_arc_Some k arcs a : find_arc k arcs = Some a -> a ∈ arcs /\ arc_id a = k.
Proof. unfold find_arc. intros [Hin Hk]%find_some. apply bool_decide_eq_true in Hk. by apply list_elem_of_In in Hin. Qed.

End Orders.

Section Decisions.
Context (to_lowercase : string -> string) (to_string : Value -> string).
Context (iter_order : forall A : Type, list A -> list A).
Context (Hiter : forall A (l : list A), iter_order A l ≡ₚ l).

(** ** The decisions of one arc *)
Lemma elem_of_expand_arc a shape frozen d :
  d ∈ expand_arc to_string a shape frozen ->
  target_id d ∉ frozen /\ (target_id d ∈ map fst (call_inputs a) \/ target_id d ∈ result_ids a).
Proof.
  unfold expand_arc. rewrite elem_of_app, !list_elem_of_omap. intros [([id input] & Hin & Hd)|(id & Hin & Hd)]; cbn [fst] in Hd.
  - destruct (has id frozen) eqn:E; [done|]. apply has_false in E.
    assert (target_id d = id) as -> by (injection Hd as <-; by destruct shape).
    split; [done|]. left. by apply (list_elem_of_fmap_2 fst _ (id, input)).
  - destruct (has id frozen) eqn:E; [done|]. apply has_false in E. injection Hd as <-. split; [done|by right].
Qed.

Lemma expand_arc_covers a shape frozen id :
  id ∉ frozen -> id ∈ map fst (call_inputs a) \/ id ∈ result_ids a ->
  exists d, d ∈ expand_arc to_string a shape frozen /\ target_id d = id.
Proof.
  intros Hf%has_false [([k input] & -> & Hin)%list_elem_of_fmap|Hin].
  - eexists. split; [unfold expand_arc; apply elem_of_app; left; apply list_elem_of_omap; exists (k, input); cbn [fst] in *; by rewrite Hf|].
    by destruct shape.
  - exists (drop_decision id). split; [|done]. unfold expand_arc. apply elem_of_app. right.
    apply list_elem_of_omap. exists id. by rewrite Hf.
Qed.

Lemma elem_of_agent_drops ctx live frozen d :
  d ∈ select_agent_drops ctx live frozen ->
  d = drop_decision (target_id d) /\ target_id d ∈ agent_drop_ids ctx /\ target_id d ∉ frozen /\ target_id d ∈ live.
Proof.
  unfold select_agent_drops. rewrite list_elem_of_omap. intros (id & Hin & Hd). cbn zeta in Hd.
  destruct (has id frozen || _ || _)%bool eqn:E; [done|]. apply orb_false_iff in E as [[E1 E2]%orb_false_iff _].
  apply has_false in E1. apply negb_false_iff, has_spec in E2.
  destruct (_ && _)%bool; [done|]. injection Hd as <-. done.
Qed.

(** Every decision before the merge. *)
Definition raw_decisions (items : list SelItem) (frozen : list string) (ctx : SelectionContext) (smart_drops : bool)
  : list ReductionDecision :=
  let active := active_arcs iter_order items frozen in
  let '(shapes, eligible) := choose_arcs to_lowercase iter_order items frozen ctx smart_drops active in
  let tag := protected_supersession active eligible (tag_window_protected_block_ids ctx) in
  let exempt := protected_supersession active eligible (exempt_message_protected_block_ids ctx) in
  arc_decisions to_string iter_order items frozen active shapes (fun id => withholds tag id || withholds exempt id) ++
  select_agent_drops ctx (live_block_ids items) frozen.

Definition kept (items : list SelItem) (ctx : SelectionContext) (d : ReductionDecision) : Prop :=
  (forall a, assoc_get (target_id d) (arc_by_block items) = Some a -> a ∉ reasoning_ineligible_arc_ids items) /\
  block_is_protected ctx (target_id d) = false.

Lemma arc_may_reduce_spec by_block ineligible d :
  arc_may_reduce by_block ineligible d = true <-> forall a, assoc_get (target_id d) by_block = Some a -> a ∉ ineligible.
Proof.
  unfold arc_may_reduce. destruct (assoc_get _ _) as [a|]; [|naive_solver]. rewrite negb_true_iff, has_false. naive_solver.
Qed.

(** The guard other callers apply keeps, in order, the decisions selection would keep. *)
Lemma filter_reasoning_ineligible_spec items ds :
  filter_reasoning_ineligible_decisions items ds =
  filter (fun d => arc_may_reduce (arc_by_block items) (reasoning_ineligible_arc_ids items) d = true) ds.
Proof.
  unfold filter_reasoning_ineligible_decisions. cbn zeta. case_bool_decide as E; [|done]. rewrite E. clear E.
  induction ds as [|d ds IH]; [done|]. rewrite filter_cons_True; [by f_equal|]. apply arc_may_reduce_spec.
  intros a _. apply not_elem_of_nil.
Qed.

Lemma select_reductions_eq items frozen ctx smart_drops :
  pass_class ctx <> PCDefer ->
  exists out, select_reductions to_lowercase to_string iter_order items frozen ctx smart_drops = dedupe_and_sort iter_order out /\
    forall d, d ∈ out <-> d ∈ raw_decisions items frozen ctx smart_drops /\ kept items ctx d.
Proof.
  intros Hd. unfold select_reductions, select_reductions_with_outcome. rewrite bool_decide_false by done. unfold raw_decisions.
  destruct (choose_arcs _ _ _ _ _ _ _) as [shapes eligible]. cbn zeta. cbn [decisions]. eexists. split; [done|].
  intros d. rewrite !list_elem_of_filter. unfold kept.
  rewrite arc_may_reduce_spec. tauto.
Qed.

(** The shape a chosen arc is reduced to. *)
Definition resolved (items : list SelItem) (active : list ToolArc) (k : string) (shape : ArcShape) : ArcShape :=
  resolve_shape (reasoning_adjacency_collapse_arc_ids iter_order items)
    (map arc_id (take RECENT_TOOL_SKELETON_WINDOW (sort_by newest_cmp active))) k shape.

Lemma elem_of_arc_decisions items frozen active shapes withheld d :
  d ∈ arc_decisions to_string iter_order items frozen active shapes withheld <->
  exists k shape a, (k, shape) ∈ shapes /\ find_arc k active = Some a /\ withheld k = false /\
    d ∈ expand_arc to_string a (resolved items active k shape) frozen.
Proof.
  unfold arc_decisions. rewrite list_elem_of_In, in_concat. setoid_rewrite in_map_iff. split.
  - intros (l & ([k shape] & <- & Hin) & Hd). cbn [fst snd] in Hd. apply list_elem_of_In in Hd. apply list_elem_of_In in Hin.
    rewrite Hiter in Hin. destruct (find_arc k active) as [a|] eqn:Ea; [|by apply not_elem_of_nil in Hd].
    destruct (withheld k) eqn:Ew; [by apply not_elem_of_nil in Hd|]. eauto 10.
  - intros (k & shape & a & Hin & Ha & Hw & Hd). exists (expand_arc to_string a (resolved items active k shape) frozen).
    split; [|by apply list_elem_of_In]. exists (k, shape). cbn [fst snd]. rewrite Ha, Hw. split; [done|].
    apply list_elem_of_In. by rewrite Hiter.
Qed.

Definition reducible (k : SelKind) : bool :=
  match k with Media | Opaque | Reasoning | RedactedReasoning => false | _ => true end.

Lemma elem_of_live_block_ids items id :
  id ∈ live_block_ids items <-> exists item, item ∈ items /\ item_id item = id /\ reducible (item_kind item) = true.
Proof.
  unfold live_block_ids. rewrite list_elem_of_fmap. setoid_rewrite list_elem_of_filter. unfold reducible. naive_solver.
Qed.

(** Where a decision on a block of a chosen arc comes from. *)
Definition from_arc (items : list SelItem) (frozen : list string) (target : string) (k : string) : Prop :=
  some_in items k (fun i => item_id i = target /\ is_tool (item_kind i) = true) /\
  ~ some_in items k (fun i => item_id i ∈ frozen) /\
  k ∉ reasoning_ineligible_arc_ids items /\
  some_in items k (fun i => is_tool (item_kind i) = true /\ provider_executed i = false).

Lemma active_blocks items frozen a id :
  arc_ok items frozen (arc_id a) a ->
  id ∈ map fst (call_inputs a) \/ id ∈ result_ids a <->
  some_in items (arc_id a) (fun i => item_id i = id /\ is_tool (item_kind i) = true).
Proof.
  intros Hok. rewrite (ok_calls _ _ _ _ Hok), (ok_results _ _ _ _ Hok). unfold some_in. split.
  - intros [(i & ? & ? & ? & Hk)|(i & ? & ? & ? & Hk)]; exists i; (split; [done|]); (split; [done|]); (split; [done|]);
      by destruct (item_kind i).
  - intros (i & ? & ? & ? & Hk). destruct (item_kind i) eqn:E; try done; [left|right]; exists i; by rewrite E.
Qed.

Lemma raw_decision_origin items frozen ctx smart_drops d :
  d ∈ raw_decisions items frozen ctx smart_drops ->
  target_id d ∉ frozen /\ target_id d ∈ live_block_ids items /\
  (d = drop_decision (target_id d) /\ target_id d ∈ agent_drop_ids ctx \/ exists k, from_arc items frozen (target_id d) k).
Proof.
  unfold raw_decisions. destruct (choose_arcs _ _ _ _ _ _ _) as [shapes eligible]. cbn zeta. rewrite elem_of_app.
  intros [(k & shape & a & _ & Ha & _ & Hd)%elem_of_arc_decisions|(? & ? & ? & ?)%elem_of_agent_drops]; [|by auto].
  apply find_arc_Some in Ha as [(Hok & Hr & Hp & Hi)%elem_of_active_arcs <-]; [|done].
  apply elem_of_expand_arc in Hd as [Hf Hb]. apply (active_blocks _ _ _ _ Hok) in Hb. split; [done|]. split.
  - destruct Hb as (i & Hi1 & _ & Hid & Hk). apply elem_of_live_block_ids. exists i. split; [done|]. split; [done|].
    by destruct (item_kind i).
  - right. exists (arc_id a). split; [done|]. split; [|split; [done|]].
    + rewrite <- (ok_reduced _ _ _ _ Hok). congruence.
    + apply (ok_client _ _ _ _ Hok); [done|]. destruct Hb as (i & ? & ? & _ & ?). by exists i.
Qed.

Lemma arc_by_block_item items id a :
  assoc_get id (arc_by_block items) = Some a -> some_in items a (fun i => item_id i = id).
Proof.
  unfold arc_by_block. induction items as [|item items IH] using rev_ind; [done|]. rewrite foldl_app, some_in_snoc. cbn [foldl].
  destruct (item_arc item) as [b|]; [|tauto]. rewrite assoc_get_insert. case_bool_decide; [|tauto]. intros [= ->]. tauto.
Qed.

Lemma arc_by_block_get items id k :
  NoDup (map item_id items) -> some_in items k (fun i => item_id i = id) -> assoc_get id (arc_by_block items) = Some k.
Proof.
  intros Hnd (i & Hi & Hk & Hid). destruct (assoc_get id (arc_by_block items)) as [a|] eqn:E.
  - apply arc_by_block_item in E as (j & Hj & Ha & Hjd).
    assert (i = j) as -> by (apply (NoDup_map_inj item_id items); [done|done|done|congruence]). congruence.
  - exfalso. clear Hnd. unfold arc_by_block in E. induction items as [|item items IH] using rev_ind; [by apply not_elem_of_nil in Hi|].
    rewrite foldl_app in E. cbn [foldl] in E. apply elem_of_snoc in Hi as [Hi| ->].
    + apply IH; [done|]. destruct (item_arc item) as [b|]; [|done]. rewrite assoc_get_insert in E. by case_bool_decide.
    + rewrite Hk, assoc_get_insert, bool_decide_true in E by done. done.
Qed.

(** C10: selection touches only what it may. A pass that defers decides nothing. Otherwise the
    decisions are strictly ordered by target, so each block gets at most one, and every target is an
    item of the pass that is not frozen, not protected, and not media, opaque data or reasoning; the
    arc its block belongs to does not leave reasoning alone in a message; and either the agent asked
    for the drop or the block is a tool block of an arc of which no block is frozen and some block is
    the client's. This holds whatever the iteration order of the hash maps. *)
Theorem selection_safe items frozen ctx smart_drops :
  let ds := select_reductions to_lowercase to_string iter_order items frozen ctx smart_drops in
  (pass_class ctx = PCDefer -> ds = []) /\
  StronglySorted (fun a b => String.compare (target_id a) (target_id b) = Lt) ds /\
  forall d, d ∈ ds ->
    target_id d ∉ frozen /\ block_is_protected ctx (target_id d) = false /\
    (exists item, item ∈ items /\ item_id item = target_id d /\ reducible (item_kind item) = true) /\
    (forall a, assoc_get (target_id d) (arc_by_block items) = Some a -> a ∉ reasoning_ineligible_arc_ids items) /\
    (d = drop_decision (target_id d) /\ target_id d ∈ agent_drop_ids ctx \/ exists k, from_arc items frozen (target_id d) k).
Proof.
  cbn zeta. destruct (decide (pass_class ctx = PCDefer)) as [Hd|Hd].
  - assert (select_reductions to_lowercase to_string iter_order items frozen ctx smart_drops = []) as ->.
    { unfold select_reductions, select_reductions_with_outcome. by rewrite bool_decide_true. }
    split; [done|]. split; [constructor|]. by intros d ?%not_elem_of_nil.
  - destruct (select_reductions_eq items frozen ctx smart_drops Hd) as (out & -> & Hout).
    destruct (dedupe_and_sort_spec iter_order Hiter out) as (Hs & Hb & _). split; [done|]. split; [done|].
    intros d [[Hraw [Hk Hp]]%Hout _]%Hb. apply raw_decision_origin in Hraw as (Hf & Hl & Ho).
    split; [done|]. split; [done|]. split; [by apply elem_of_live_block_ids|]. by split.
Qed.

(** C11: a tool arc is reduced whole. With distinct block ids, when a decision was not asked for by
    the agent, its block belongs to an arc and every tool block of that arc, calls and results, is
    decided in the same pass unless it is protected: a call never loses its result alone. *)
Theorem arcs_reduced_whole items frozen ctx smart_drops d :
  let ds := select_reductions to_lowercase to_string iter_order items frozen ctx smart_drops in
  NoDup (map item_id items) -> d ∈ ds -> target_id d ∉ agent_drop_ids ctx ->
  exists k, some_in items k (fun i => item_id i = target_id d) /\
    forall sibling, sibling ∈ items -> item_arc sibling = Some k -> is_tool (item_kind sibling) = true ->
      block_is_protected ctx (item_id sibling) = true \/ exists d', d' ∈ ds /\ target_id d' = item_id sibling.
Proof.
  cbn zeta. intros Hnd Hd Hag. destruct (decide (pass_class ctx = PCDefer)) as [Hc|Hc].
  { unfold select_reductions, select_reductions_with_outcome in Hd. rewrite bool_decide_true in Hd by done. by apply not_elem_of_nil in Hd. }
  destruct (select_reductions_eq items frozen ctx smart_drops Hc) as (out & Hds & Hout). rewrite Hds in *.
  destruct (dedupe_and_sort_spec iter_order Hiter out) as (_ & Hb & Hcov). apply Hb in Hd as [[Hraw _]%Hout _].
  unfold raw_decisions in Hraw, Hout. destruct (choose_arcs _ _ _ _ _ _ _) as [shapes eligible]. cbn zeta in Hraw, Hout.
  apply elem_of_app in Hraw as [(k & shape & a & Hin & Ha & Hw & Hex)%elem_of_arc_decisions|(_ & ? & _)%elem_of_agent_drops]; [|done].
  pose proof Ha as Ha'. apply find_arc_Some in Ha' as [(Hok & Hr & _ & Hi)%elem_of_active_arcs <-]; [|done].
  exists (arc_id a). split.
  { apply elem_of_expand_arc in Hex as [_ Hx]. apply (active_blocks _ _ _ _ Hok) in Hx as (i & ? & ? & ? & _). by exists i. }
  intros x Hx Hxk Hxt. destruct (block_is_protected ctx (item_id x)) eqn:Ep; [by left|right].
  assert (item_id x ∉ frozen) as Hxf. { intros Hf. assert (reduced a = true); [|congruence]. apply (ok_reduced _ _ _ _ Hok). by exists x. }
  destruct (expand_arc_covers a (resolved items (active_arcs iter_order items frozen) (arc_id a) shape) frozen (item_id x)) as (e & He & Het); [done| |].
  { apply (active_blocks _ _ _ _ Hok). by exists x. }
  rewrite <- Het. apply Hcov, Hout. split; [apply elem_of_app; left; apply elem_of_arc_decisions; by exists (arc_id a), shape, a|].
  unfold kept. rewrite Het. split; [|done]. intros b Hb'. rewrite (arc_by_block_get items _ (arc_id a)) in Hb'; [congruence|done|].
  by exists x.
Qed.

End Decisions.

(** ** The iteration order does not show *)
#[local] Instance arc_cmp_total : TotalCmp arc_cmp.
Proof. unfold arc_cmp. apply _. Qed.

#[local] Instance adjacency_cmp_total : TotalCmp adjacency_cmp.
Proof. unfold adjacency_cmp. apply _. Qed.

Lemma arc_cmp_Eq a b : arc_cmp a b = Eq -> arc_id a = arc_id b.
Proof.
  unfold arc_cmp, cmp_then, cmp_by. destruct (arc_ordinal a ?= arc_ordinal b); try done. apply String.compare_eq_iff.
Qed.

Lemma adjacency_cmp_Eq a b : adjacency_cmp a b = Eq -> adj_mid a = adj_mid b.
Proof.
  unfold adjacency_cmp, cmp_then, cmp_by. destruct (adj_ordinal a ?= adj_ordinal b); try done. apply String.compare_eq_iff.
Qed.

Lemma adjacency_keys items : let m := foldl adjacency_step [] items in
  NoDup (map fst m) /\ forall k x, assoc_get k m = Some x -> adj_mid x = k.
Proof.
  induction items as [|item items [IH1 IH2]] using rev_ind; cbn zeta; [by split; [apply list.NoDup_nil|]|].
  rewrite foldl_app. cbn [foldl]. unfold adjacency_step at 1 3. destruct (item_message_id item) as [mid|]; [|done].
  split; [by apply assoc_upd_NoDup|]. intros k x. rewrite assoc_get_upd. case_bool_decide; [|apply IH2]. intros [= <-]. cbn.
  destruct (assoc_get mid _) eqn:E; cbn; [|done]. apply IH2 in E. congruence.
Qed.

(** Sorting the values of a map whose keys the comparison reads gives one list. *)
Lemma sort_values_unique {V} (cmp : V -> V -> comparison) `{!TotalCmp cmp} (key : V -> string) (m : list (string * V)) l1 l2 :
  NoDup (map fst m) -> (forall k x, assoc_get k m = Some x -> key x = k) ->
  (forall x y, cmp x y = Eq -> key x = key y) ->
  l1 ≡ₚ map snd m -> l2 ≡ₚ map snd m -> sort_by cmp l1 = sort_by cmp l2.
Proof.
  intros Hnd Hkey Heq H1 H2. apply (sort_by_unique cmp); [by rewrite H1, H2|]. intros x y. rewrite !H1, !list_elem_of_fmap.
  intros ([k a] & -> & Ha) ([k' b] & -> & Hb) E%Heq. apply elem_of_assoc_get in Ha, Hb; [|done..]. cbn [snd] in *.
  pose proof (Hkey _ _ Ha). pose proof (Hkey _ _ Hb). congruence.
Qed.

Section TwoOrders.
Context (to_lowercase : string -> string) (to_string : Value -> string).
Context (o1 o2 : forall A : Type, list A -> list A).
Context (Ho1 : forall A (l : list A), o1 A l ≡ₚ l) (Ho2 : forall A (l : list A), o2 A l ≡ₚ l).

Lemma group_arcs_order_free items frozen : group_arcs o1 items frozen = group_arcs o2 items frozen.
Proof.
  unfold group_arcs. apply (sort_values_unique arc_cmp arc_id (foldl (arcs_step frozen) [] items));
    [apply arcs_NoDup| |apply arc_cmp_Eq|apply Ho1|apply Ho2].
  intros k a Ha. destruct (arcs_invariant items frozen) as [Hok _]. by apply (ok_id _ _ _ _ (Hok _ _ Ha)).
Qed.

Lemma active_arcs_order_free items frozen : active_arcs o1 items frozen = active_arcs o2 items frozen.
Proof. unfold active_arcs. by rewrite group_arcs_order_free. Qed.

Lemma adjacency_order_free items k :
  k ∈ reasoning_adjacency_collapse_arc_ids o1 items <-> k ∈ reasoning_adjacency_collapse_arc_ids o2 items.
Proof.
  unfold reasoning_adjacency_collapse_arc_ids. destruct (adjacency_keys items) as [Hnd Hk].
  rewrite (sort_values_unique adjacency_cmp adj_mid _ _ (o2 _ (map snd (foldl adjacency_step [] items))) Hnd Hk adjacency_cmp_Eq (Ho1 _ _) (Ho2 _ _)).
  generalize (sort_by adjacency_cmp (o2 _ (map snd (foldl adjacency_step [] items)))) as messages. intros messages.
  cbn zeta. rewrite !list_elem_of_omap. by setoid_rewrite Ho1; setoid_rewrite Ho2.
Qed.

Lemma resolved_order_free items active k shape : resolved o1 items active k shape = resolved o2 items active k shape.
Proof. unfold resolved, resolve_shape. destruct shape; try done. by rewrite (has_ext k _ _ (adjacency_order_free items k)). Qed.

(** *** The chosen shapes *)
Definition same_map {V} (m1 m2 : list (string * V)) : Prop :=
  NoDup (map fst m1) /\ NoDup (map fst m2) /\ forall k, assoc_get k m1 = assoc_get k m2.

Lemma find_perm {B} (key : B -> string) (l1 l2 : list B) k :
  l1 ≡ₚ l2 -> (forall x y, x ∈ l1 -> y ∈ l1 -> key x = key y -> x = y) ->
  List.find (fun b => bool_decide (key b = k)) l1 = List.find (fun b => bool_decide (key b = k)) l2.
Proof.
  intros Hp Hinj. destruct (List.find _ l1) as [x|] eqn:E1, (List.find _ l2) as [y|] eqn:E2; [| | |done].
  - apply find_some in E1 as [H1 K1%bool_decide_eq_true], E2 as [H2 K2%bool_decide_eq_true]. f_equal.
    apply list_elem_of_In in H1, H2. apply Hinj; [done|by rewrite Hp|congruence].
  - apply find_some in E1 as [H1 K1]. apply list_elem_of_In in H1. rewrite Hp in H1. apply list_elem_of_In in H1.
    by rewrite (find_none _ _ E2 _ H1) in K1.
  - apply find_some in E2 as [H2 K2]. apply list_elem_of_In in H2. rewrite <- Hp in H2. apply list_elem_of_In in H2.
    by rewrite (find_none _ _ E1 _ H2) in K2.
Qed.

Lemma or_insert_same_map {B V} (key : B -> string) (val : B -> V) l1 l2 m1 m2 :
  l1 ≡ₚ l2 -> (forall x y, x ∈ l1 -> y ∈ l1 -> key x = key y -> x = y) -> same_map m1 m2 ->
  same_map (foldl (fun m b => assoc_or_insert (key b) (val b) m) m1 l1) (foldl (fun m b => assoc_or_insert (key b) (val b) m) m2 l2).
Proof.
  intros Hp Hinj (H1 & H2 & Hg). split; [|split].
  - apply foldl_assoc_NoDup; [|done]. intros. by apply assoc_upd_NoDup.
  - apply foldl_assoc_NoDup; [|done]. intros. by apply assoc_upd_NoDup.
  - intros k. by rewrite !assoc_get_fold_or_insert, Hg, (find_perm key l1 l2 k Hp Hinj).
Qed.

Lemma add_drops_same_map ids m1 m2 : same_map m1 m2 -> same_map (add_drops o1 ids m1) (add_drops o2 ids m2).
Proof.
  intros Hm. apply (or_insert_same_map (fun id => id) (fun _ => FullDrop)); [by rewrite Ho1, Ho2|done|done].
Qed.

Lemma add_intents_same_map its m1 m2 :
  NoDup (map fst its) -> same_map m1 m2 -> same_map (add_intents o1 its m1) (add_intents o2 its m2).
Proof.
  intros Hnd Hm. apply (or_insert_same_map fst (fun it => intent_shape it.2)); [by rewrite Ho1, Ho2| |done].
  intros x y. rewrite !Ho1. by apply NoDup_map_inj.
Qed.

Lemma select_supersession_NoDup arcs : NoDup (map fst (select_supersession to_lowercase arcs)).
Proof.
  unfold select_supersession. generalize (newest_eidnara_reduce_arc_ids to_lowercase arcs) as pr. intros pr.
  assert (forall l s, NoDup (map fst (intents s)) -> NoDup (map fst (intents (foldl (supersede to_lowercase pr) s l)))) as Hf;
    [|apply Hf; by apply list.NoDup_nil].
  induction l as [|a l IH]; intros s Hs; [done|]. cbn [foldl]. apply IH. unfold supersede. cbn zeta.
  set (s' := match (if bool_decide _ then _ else None) with Some fp => _ | None => s end).
  assert (NoDup (map fst (intents s'))) as Hs'.
  { subst s'. destruct (if bool_decide _ then _ else None) as [fp|]; [|done].
    destruct (has fp _); cbn [intents]; [by apply assoc_upd_NoDup|done]. }
  clearbody s'. destruct (match classify_tool _ _ with TodoWrite => _ | _ => _ end) as [b seen]. cbn [intents].
  destruct b; [by apply assoc_upd_NoDup|done].
Qed.

(** The doubles of the floor are summed in iteration order; a pass under pressure reads the sum. *)
Definition floors_agree (items : list SelItem) (frozen : list string) (ctx : SelectionContext) : Prop :=
  pass_class ctx = PCEmergencyForce -> active_floor_tokens o1 items frozen = active_floor_tokens o2 items frozen.

(** Below 2^53 bytes each sum of tokens is an integer a double holds exactly. *)
Definition measured (items : list SelItem) : Prop :=
  Forall (fun item => 0 <= byte_size item) items /\ zsum (map byte_size items) < 2 ^ 53.

Definition tokens_of (bytes : Z) : Z := (bytes + 2) / 4.

Lemma bytes_to_tokens_exact n : 0 <= n < 2 ^ 53 -> bytes_to_tokens n = f64_of_Z (tokens_of n).
Proof.
  intros Hn. unfold bytes_to_tokens. assert (TOKENS_PER_BYTE = S754_finite false 4503599627370496 (-54)) as -> by (vm_compute; reflexivity).
  destruct (Z.eq_dec n 0) as [->|Hz]; [reflexivity|]. rewrite f64_mul_quarter by lia.
  destruct (packed_log2 n ltac:(lia)) as (Hl & _ & Hpos). unfold f64_round. destruct (Z.leb_spec 0 (Z.log2 n - 54)); [lia|].
  rewrite Z2Pos.id by done. set (L := Z.log2 n) in *. clearbody L.
  replace (2 ^ (- (L - 54))) with (4 * 2 ^ (52 - L)).
  2:{ change 4 with (2 ^ 2). rewrite <- Z.pow_add_r by lia. f_equal. lia. }
  assert (0 < 2 ^ (52 - L)) as Hp by (apply Z.pow_pos_nonneg; lia). set (p := 2 ^ (52 - L)) in *. clearbody p.
  replace (2 * (n * p) + 4 * p) with ((n + 2) * (2 * p)) by lia. replace (2 * (4 * p)) with (4 * (2 * p)) by lia.
  rewrite Z.div_mul_cancel_r by lia. fold (tokens_of n). destruct (Z.eqb_spec (tokens_of n) 0) as [->|]; [reflexivity|done].
Qed.

Lemma tokens_of_le n : 0 <= n -> 0 <= tokens_of n <= n.
Proof. unfold tokens_of. intros Hn. split; [apply Z.div_pos; lia|]. apply Z.lt_succ_r, Z.div_lt_upper_bound; lia. Qed.

Lemma tokens_sum l : Forall (fun n => 0 <= n) l -> 0 <= zsum (map tokens_of l) <= zsum l /\ Forall (fun n => 0 <= n) (map tokens_of l).
Proof.
  induction 1 as [|n l Hn _ [IH IHf]]; [by split; [cbn; lia|]|]. cbn [map zsum foldr] in *. pose proof (tokens_of_le n Hn).
  unfold zsum in *. split; [lia|]. constructor; [lia|done].
Qed.

(** The bytes of one tool arc add up, so the map's values are at most the items' bytes. *)
Lemma floor_bytes frozen items : forall acc,
  Forall (fun item => 0 <= byte_size item) items -> Forall (fun n => 0 <= n) (map snd acc.1) ->
  let m := (foldl (floor_step frozen) acc items).1 in
  Forall (fun n => 0 <= n) (map snd m) /\ zsum (map snd m) <= zsum (map snd acc.1) + zsum (map byte_size items).
Proof.
  induction items as [|item items IH]; intros acc Hi Ha; cbn [foldl map zsum foldr]; [split; [done|]; unfold zsum; lia|].
  apply Forall_cons_iff in Hi as [Hsize Hi]. set (acc' := floor_step frozen acc item).
  enough (Forall (fun n => 0 <= n) (map snd acc'.1) /\ zsum (map snd acc'.1) <= zsum (map snd acc.1) + byte_size item) as [Hn Hs].
  { destruct (IH acc' Hi Hn) as [H1 H2]. split; [exact H1|]. unfold zsum in *. lia. }
  subst acc'. unfold floor_step. case_match; [|split; [done|lia]]. destruct (item_arc item) as [id|]; cbn [fst]; [|split; [done|lia]].
  clear IH Hi H. destruct acc as [m tokens]. cbn [fst] in *. induction m as [|[k v] m IHm]; cbn [assoc_upd map snd zsum foldr] in *.
  - split; [by constructor|unfold zsum; cbn; lia].
  - apply Forall_cons_iff in Ha as [Hv Hm]. case_bool_decide; cbn [map snd foldr].
    + split; [constructor; [unfold u64_MAX; lia|done]|unfold zsum; lia].
    + destruct (IHm Hm) as [H1 H2]. split; [by constructor|unfold zsum in *; lia].
Qed.

(** The sum of the tool arcs' tokens is one integer, whatever the order. *)
Lemma arc_tokens_order_free (l1 l2 : list Z) : l1 ≡ₚ l2 -> Forall (fun n => 0 <= n) l1 -> zsum l1 < 2 ^ 53 ->
  foldl f64_add (S754_zero true) (map bytes_to_tokens l1) = foldl f64_add (S754_zero true) (map bytes_to_tokens l2).
Proof.
  intros Hp Hn Hs.
  assert (forall l, l ≡ₚ l1 -> foldl f64_add (S754_zero true) (map bytes_to_tokens l) =
    match l1 with [] => S754_zero true | _ => f64_of_Z (zsum (map tokens_of l1)) end) as H; [|by rewrite !H].
  intros l Hl. assert (Forall (fun n => 0 <= n) l) as Hln by (by rewrite Hl). assert (zsum l = zsum l1) as Hls by (by rewrite Hl).
  assert (map bytes_to_tokens l = map f64_of_Z (map tokens_of l)) as ->.
  { rewrite map_map. apply map_ext_in. intros n Hin%list_elem_of_In. apply bytes_to_tokens_exact.
    split; [by eapply Forall_forall|]. rewrite <- Hls in Hs. eapply Z.le_lt_trans; [|exact Hs]. by apply zsum_elem. }
  destruct (tokens_sum l Hln) as [Ht Htn]. rewrite f64_iter_sum by (done || (unfold zsum in *; lia)).
  assert (foldr Z.add 0 (map tokens_of l) = zsum (map tokens_of l1)) as -> by (change (zsum (map tokens_of l) = zsum (map tokens_of l1)); by rewrite Hl).
  destruct l as [|x l], l1 as [|y l1]; [done|by apply Permutation_nil_cons in Hl|by apply symmetry, Permutation_nil_cons in Hl|done].
Qed.

Lemma floors_exact items frozen : measured items -> active_floor_tokens o1 items frozen = active_floor_tokens o2 items frozen.
Proof.
  intros [Hn Hs]. unfold active_floor_tokens. destruct (floor_bytes frozen items ([], S754_zero false) Hn ltac:(constructor)) as [Hm Hms].
  destruct (foldl (floor_step frozen) ([], S754_zero false) items) as [m tokens]. cbn [fst map] in *. change (zsum []) with 0 in Hms. f_equal.
  apply arc_tokens_order_free; [by rewrite Ho1, Ho2|by rewrite Ho1|]. replace (zsum (o1 Z (map snd m))) with (zsum (map snd m)); [eapply Z.le_lt_trans; [exact Hms|exact Hs]|].
  by rewrite Ho1.
Qed.

Lemma choose_arcs_order_free items frozen ctx smart_drops active :
  floors_agree items frozen ctx ->
  let c1 := choose_arcs to_lowercase o1 items frozen ctx smart_drops active in
  let c2 := choose_arcs to_lowercase o2 items frozen ctx smart_drops active in
  same_map c1.1 c2.1 /\ c1.2 = c2.2.
Proof.
  intros Hfl. assert (same_map (V := ArcShape) [] []) as Hnil by (split; [by apply list.NoDup_nil|]; by split; [apply list.NoDup_nil|]).
  unfold choose_arcs. cbn zeta. destruct (pass_class ctx) eqn:E; [| |done].
  - case_match; cbn [fst snd]; (split; [|done]); [apply add_intents_same_map; [apply select_supersession_NoDup|]|]; by apply add_drops_same_map.
  - rewrite (Hfl E). case_match; cbn [fst snd]; (split; [|done]); [apply add_intents_same_map; [apply select_supersession_NoDup|]|];
      by apply add_drops_same_map, add_drops_same_map.
Qed.

(** *** The decisions *)

(** The decision on a block, from the shape of its arc. *)
Definition block_decision (item : SelItem) (shape : ArcShape) : ReductionDecision :=
  match item_kind item with
  | ToolCall _ input =>
      match shape with
      | Skeleton => mkReduction (item_id item) (kind_str KSkeleton) (skeleton_payload to_string input)
      | FullDrop => drop_decision (item_id item)
      | EditMarker => mkReduction (item_id item) (kind_str KEditMarker) (edit_marker_payload to_string input)
      end
  | _ => drop_decision (item_id item)
  end.

Lemma expand_arc_blocks items frozen a shape d :
  arc_ok items frozen (arc_id a) a -> d ∈ expand_arc to_string a shape frozen ->
  exists item, item ∈ items /\ item_arc item = Some (arc_id a) /\ d = block_decision item shape /\ target_id d = item_id item.
Proof.
  intros Hok. unfold expand_arc. rewrite elem_of_app, !list_elem_of_omap. intros [([id input] & Hin & Hd)|(id & Hin & Hd)]; cbn [fst snd] in Hd.
  - apply (ok_inputs _ _ _ _ Hok) in Hin as (i & Hi & Hk & <- & name & E). destruct (has _ _); [done|]. injection Hd as <-.
    exists i. unfold block_decision. rewrite E. by destruct shape.
  - apply (ok_results _ _ _ _ Hok) in Hin as (i & Hi & Hk & <- & E). destruct (has _ _); [done|]. injection Hd as <-.
    exists i. unfold block_decision. by destruct (item_kind i).
Qed.

Lemma drop_rank item shape : dedupe_rank (rd_kind (block_decision item shape)) = 3 -> block_decision item shape = drop_decision (item_id item).
Proof. unfold block_decision. destruct (item_kind item); try done. by destruct shape. Qed.

(** Two decisions of the same rank on one block are the same decision. *)
Lemma raw_consistent items frozen ctx smart_drops d d' :
  NoDup (map item_id items) ->
  NoDup (map fst (choose_arcs to_lowercase o1 items frozen ctx smart_drops (active_arcs o1 items frozen)).1) ->
  d ∈ raw_decisions to_lowercase to_string o1 items frozen ctx smart_drops ->
  d' ∈ raw_decisions to_lowercase to_string o1 items frozen ctx smart_drops ->
  target_id d = target_id d' -> dedupe_rank (rd_kind d) = dedupe_rank (rd_kind d') -> d = d'.
Proof.
  intros Hnd. unfold raw_decisions. destruct (choose_arcs _ _ _ _ _ _ _) as [shapes eligible]. cbn [fst]. cbn zeta. intros Hs.
  assert (forall e, e ∈ arc_decisions to_string o1 items frozen (active_arcs o1 items frozen) shapes
      (fun id => withholds (protected_supersession (active_arcs o1 items frozen) eligible (tag_window_protected_block_ids ctx)) id ||
         withholds (protected_supersession (active_arcs o1 items frozen) eligible (exempt_message_protected_block_ids ctx)) id) ->
      exists i k shape, i ∈ items /\ item_arc i = Some k /\ assoc_get k shapes = Some shape /\ target_id e = item_id i /\
        e = block_decision i (resolved o1 items (active_arcs o1 items frozen) k shape)) as Hb.
  { intros e (k & shape & a & Hin & Ha & _ & He)%elem_of_arc_decisions; [|done].
    apply find_arc_Some in Ha as [(Hok & _)%elem_of_active_arcs <-]; [|done]. apply elem_of_assoc_get in Hin; [|done].
    destruct (expand_arc_blocks _ _ _ _ _ Hok He) as (i & ? & ? & ? & ?). eauto 10. }
  rewrite !elem_of_app. intros [(i & k & sh & Hi & Hk & Hsh & Ht & Hd)%Hb|(Hd & _)%elem_of_agent_drops]
    [(i' & k' & sh' & Hi' & Hk' & Hsh' & Ht' & Hd')%Hb|(Hd' & _)%elem_of_agent_drops] Htt Hr.
  - assert (i = i') as <- by (apply (NoDup_map_inj item_id items); [done|done|done|congruence]). congruence.
  - rewrite Hd, drop_rank; [congruence|]. rewrite <- Hd, Hr, Hd'. done.
  - rewrite Hd', drop_rank; [congruence|]. rewrite <- Hd', <- Hr, Hd. done.
  - congruence.
Qed.

End TwoOrders.

(** Strictly ordered lists with the same elements are equal. *)
Lemma strict_sorted_ext {A} (R : A -> A -> Prop) l1 l2 :
  (forall x y, R x y -> ~ R y x) -> StronglySorted R l1 -> StronglySorted R l2 -> (forall x, x ∈ l1 <-> x ∈ l2) -> l1 = l2.
Proof.
  intros Has H1. revert l2. induction H1 as [|x l1 H1 IH Hx]; intros l2 H2 Hel.
  - destruct l2 as [|y l2]; [done|]. exfalso. apply (not_elem_of_nil y), Hel. left.
  - destruct H2 as [|y l2 H2 Hy]; [exfalso; apply (not_elem_of_nil x), Hel; left|].
    rewrite list.Forall_forall in Hx, Hy. assert (x = y) as <-.
    { assert (x ∈ y :: l2) as Hxy by (apply Hel; left). apply elem_of_cons in Hxy as [->|Hxy]; [done|].
      assert (y ∈ x :: l1) as Hyx by (apply Hel; left). apply elem_of_cons in Hyx as [->|Hyx]; [done|].
      exfalso. apply (Has x y); [by apply Hx|by apply Hy]. }
    f_equal. apply IH; [done|]. intros z. specialize (Hel z). rewrite !elem_of_cons in Hel.
    assert (x ∉ l1) by (intros Hxx; apply (Has x x); by apply Hx). assert (x ∉ l2) by (intros Hxx; apply (Has x x); by apply Hy).
    split; intros Hz; [destruct (proj1 Hel (or_intror Hz)) as [->|]|destruct (proj2 Hel (or_intror Hz)) as [->|]]; done.
Qed.

Lemma dedupe_and_sort_elem iter_order (Hiter : forall A (l : list A), iter_order A l ≡ₚ l) ds d :
  (forall d d', d ∈ ds -> d' ∈ ds -> target_id d = target_id d' -> dedupe_rank (rd_kind d) = dedupe_rank (rd_kind d') -> d = d') ->
  d ∈ dedupe_and_sort iter_order ds <-> best_of ds d.
Proof.
  intros Hc. destruct (dedupe_and_sort_spec iter_order Hiter ds) as (_ & Hb & Hcov). split; [apply Hb|]. intros [Hd Hbest].
  destruct (Hcov d Hd) as (e & He & Ht). destruct (Hb e He) as [He' Hebest]. replace d with e; [done|].
  apply Hc; [done|done|done|]. apply Z.le_antisymm; [by apply Hbest|by apply Hebest].
Qed.


Section OrderFree.
Context (to_lowercase : string -> string) (to_string : Value -> string).
Context (o1 o2 : forall A : Type, list A -> list A).
Context (Ho1 : forall A (l : list A), o1 A l ≡ₚ l) (Ho2 : forall A (l : list A), o2 A l ≡ₚ l).

Lemma raw_order_free items frozen ctx smart_drops d :
  floors_agree o1 o2 items frozen ctx ->
  d ∈ raw_decisions to_lowercase to_string o1 items frozen ctx smart_drops <->
  d ∈ raw_decisions to_lowercase to_string o2 items frozen ctx smart_drops.
Proof.
  intros Hfl. unfold raw_decisions. rewrite (active_arcs_order_free o1 o2 Ho1 Ho2 items frozen).
  destruct (choose_arcs_order_free to_lowercase o1 o2 Ho1 Ho2 items frozen ctx smart_drops (active_arcs o2 items frozen) Hfl)
    as [(Hn1 & Hn2 & Hg) He].
  destruct (choose_arcs _ o1 _ _ _ _ _) as [sh1 el1], (choose_arcs _ o2 _ _ _ _ _) as [sh2 el2]. cbn [fst snd] in *. subst el2. cbn zeta.
  rewrite !elem_of_app, !elem_of_arc_decisions by done.
  enough (forall k sh, (k, sh) ∈ sh1 <-> (k, sh) ∈ sh2) as Hsh.
  { setoid_rewrite Hsh. setoid_rewrite (resolved_order_free o1 o2 Ho1 Ho2). done. }
  intros k sh. by rewrite !elem_of_assoc_get, Hg by done.
Qed.

Lemma choose_arcs_NoDup items frozen ctx smart_drops active :
  floors_agree o1 o2 items frozen ctx ->
  NoDup (map fst (choose_arcs to_lowercase o1 items frozen ctx smart_drops active).1) /\
  NoDup (map fst (choose_arcs to_lowercase o2 items frozen ctx smart_drops active).1).
Proof. intros Hfl. by destruct (choose_arcs_order_free to_lowercase o1 o2 Ho1 Ho2 items frozen ctx smart_drops active Hfl) as [(? & ? & _) _]. Qed.

Lemma decisions_order_free items frozen ctx smart_drops :
  NoDup (map item_id items) -> floors_agree o1 o2 items frozen ctx -> pass_class ctx <> PCDefer ->
  select_reductions to_lowercase to_string o1 items frozen ctx smart_drops =
  select_reductions to_lowercase to_string o2 items frozen ctx smart_drops.
Proof.
  intros Hnd Hfl Hd.
  destruct (select_reductions_eq to_lowercase to_string o1 items frozen ctx smart_drops Hd) as (out1 & -> & H1).
  destruct (select_reductions_eq to_lowercase to_string o2 items frozen ctx smart_drops Hd) as (out2 & -> & H2).
  assert (forall d, d ∈ out1 <-> d ∈ out2) as Hel by (intros d; by rewrite H1, H2, raw_order_free).
  assert (forall d d', d ∈ out1 -> d' ∈ out1 -> target_id d = target_id d' -> dedupe_rank (rd_kind d) = dedupe_rank (rd_kind d') -> d = d') as Hc.
  { intros d d' [Hr _]%H1 [Hr' _]%H1. apply (raw_consistent to_lowercase to_string o1 Ho1 items frozen ctx smart_drops); [done| |done|done].
    by apply choose_arcs_NoDup. }
  apply (strict_sorted_ext (fun a b => String.compare (target_id a) (target_id b) = Lt)).
  - intros x y Hxy Hyx. rewrite (cmp_opp String.compare), Hxy in Hyx. done.
  - by apply dedupe_and_sort_spec.
  - by apply dedupe_and_sort_spec.
  - intros d. rewrite !dedupe_and_sort_elem; [unfold best_of; by setoid_rewrite Hel|done| |done|done].
    intros x y Hx%Hel Hy%Hel. by apply Hc.
Qed.

(** C12: the result does not depend on how hash maps are iterated. With distinct block ids, any two
    iteration orders give the same outcome, decisions and counts alike. A pass in the emergency band reads
    a sum of doubles taken in iteration order; below 2^53 bytes of blocks the sum is exact and so is the same. *)
Theorem selection_order_free items frozen ctx smart_drops :
  NoDup (map item_id items) -> (pass_class ctx = PCEmergencyForce -> measured items) ->
  select_reductions_with_outcome to_lowercase to_string o1 items frozen ctx smart_drops =
  select_reductions_with_outcome to_lowercase to_string o2 items frozen ctx smart_drops.
Proof.
  intros Hnd Hm. assert (floors_agree o1 o2 items frozen ctx) as Hfl by (intros He; by apply (floors_exact o1 o2 Ho1 Ho2); auto).
  destruct (decide (pass_class ctx = PCDefer)) as [Hd|Hd].
  { unfold select_reductions_with_outcome. by rewrite !bool_decide_true. }
  pose proof (decisions_order_free items frozen ctx smart_drops Hnd Hfl Hd) as Hds.
  unfold select_reductions, select_reductions_with_outcome in *. rewrite bool_decide_false in * by done.
  rewrite (active_arcs_order_free o1 o2 Ho1 Ho2 items frozen) in *.
  destruct (choose_arcs_order_free to_lowercase o1 o2 Ho1 Ho2 items frozen ctx smart_drops (active_arcs o2 items frozen) Hfl) as [_ He].
  destruct (choose_arcs _ o1 _ _ _ _ _) as [sh1 el1], (choose_arcs _ o2 _ _ _ _ _) as [sh2 el2]. cbn [snd] in He. subst el2.
  cbn zeta in *. cbn [decisions] in Hds. by rewrite Hds.
Qed.

End OrderFree.

(** ** Emergency eviction *)
Section Emergency.
Context (to_lowercase : string -> string).
Implicit Types (arcs : list ToolArc) (ctx : SelectionContext).

Definition reclaimed (l : list ToolArc) : f64 :=
  foldl (fun r a => f64_add r (bytes_to_tokens (reclaim_bytes a))) (S754_zero false) l.

(** Later tiers first, oldest first within a tier. *)
Definition evicts_before (x y : ToolArc) : Prop :=
  resolve_tool_tier to_lowercase (arc_name y) < resolve_tool_tier to_lowercase (arc_name x) \/
  resolve_tool_tier to_lowercase (arc_name x) = resolve_tool_tier to_lowercase (arc_name y) /\ cmp_le arc_cmp x y.

Lemma emergency_walk_spec target queue : forall done_,
  exists n, emergency_walk target (reclaimed done_) queue = take n queue /\ (n <= length queue)%nat /\
    (forall i, (0 < i < n)%nat -> f64_ge (reclaimed (done_ ++ take i queue)) target = false) /\
    (n = length queue \/ f64_ge (reclaimed (done_ ++ take n queue)) target = true).
Proof.
  induction queue as [|a queue IH]; intros done_; [exists 0%nat; cbn; split_and!; [done|lia|lia|by left]|]. cbn [emergency_walk].
  assert (f64_add (reclaimed done_) (bytes_to_tokens (reclaim_bytes a)) = reclaimed (done_ ++ [a])) as ->.
  { unfold reclaimed. by rewrite foldl_app. }
  destruct (f64_ge (reclaimed (done_ ++ [a])) target) eqn:E.
  - exists 1%nat. cbn. rewrite take_0. split_and!; [done|lia|lia|by right].
  - destruct (IH (done_ ++ [a])) as (n & -> & Hn & Hlt & Hend). exists (S n). cbn [take length].
    split_and!; [done|lia| |].
    + intros [|[|i]] Hi; [lia|cbn [take]; by rewrite take_0|]. cbn [take]. specialize (Hlt (S i)).
      rewrite <- app_assoc in Hlt. apply Hlt. lia.
    + rewrite <- app_assoc in Hend. destruct Hend as [->|Hend]; [by left|by right].
Qed.

Lemma tier_range name : resolve_tool_tier to_lowercase name ∈ [3; 2; 1].
Proof. unfold resolve_tool_tier. case_match; [|case_match]; rewrite !elem_of_cons; auto. Qed.

Lemma elem_of_emergency_queue arcs ctx a :
  a ∈ emergency_queue to_lowercase arcs ctx <-> a ∈ arcs /\ emergency_candidate to_lowercase arcs ctx a = true.
Proof.
  pose proof (tier_range (arc_name a)) as Ht. unfold emergency_queue. cbn [map concat].
  rewrite app_nil_r, !elem_of_app, !sort_by_perm, !list_elem_of_filter. rewrite !elem_of_cons in Ht.
  assert (forall z, z ∉ ([] : list Z)) by (intros z; apply not_elem_of_nil). naive_solver.
Qed.

Lemma emergency_queue_sorted arcs ctx : StronglySorted evicts_before (emergency_queue to_lowercase arcs ctx).
Proof.
  assert (forall t, StronglySorted evicts_before (sort_by arc_cmp (filter (fun a =>
      emergency_candidate to_lowercase arcs ctx a = true /\ resolve_tool_tier to_lowercase (arc_name a) = t) arcs))) as Ht.
  { intros t. set (l := sort_by _ _). assert (forall a, a ∈ l -> resolve_tool_tier to_lowercase (arc_name a) = t) as Hl.
    { intros a. unfold l. rewrite sort_by_perm, list_elem_of_filter. tauto. }
    assert (StronglySorted (cmp_le arc_cmp) l) as Hs by apply (sort_by_sorted arc_cmp). clearbody l. induction Hs as [|x l Hs IH Hall]; constructor.
    - apply IH. intros a Ha. apply Hl. by right.
    - rewrite list.Forall_forall in *. intros y Hy. right. rewrite !Hl by (by left || by right). split; [done|by apply Hall]. }
  unfold emergency_queue. cbn [map concat]. rewrite app_nil_r, !StronglySorted_app.
  split_and!; [|apply Ht| |apply Ht|apply Ht].
  - intros x y. rewrite elem_of_app, !sort_by_perm, !list_elem_of_filter. unfold evicts_before. intros [[_ ->] _] [[[_ ->] _]|[[_ ->] _]]; lia.
  - intros x y. rewrite !sort_by_perm, !list_elem_of_filter. unfold evicts_before. intros [[_ ->] _] [[_ ->] _]; lia.
Qed.

(** An emergency evicts no more than it must. Without a target nothing is evicted. With one, the
    evicted arcs are a first part of a queue that holds exactly the candidates, later tiers first and
    oldest first within a tier; the estimate falls short of the target after every shorter part, and
    the walk stops only when it is met or the queue ends. A candidate lies at or below the protected
    cutoff, is none of the newest reduce calls and, in the two upper tiers, outside the newest share. *)
Theorem emergency_evicts_least arcs ctx floor :
  let queue := emergency_queue to_lowercase arcs ctx in
  match emergency_target ctx floor with
  | None => select_emergency to_lowercase arcs ctx floor = []
  | Some target => exists n,
      select_emergency to_lowercase arcs ctx floor = map arc_id (take n queue) /\
      (forall i, (0 < i < n)%nat -> f64_ge (reclaimed (take i queue)) target = false) /\
      (n = length queue \/ f64_ge (reclaimed (take n queue)) target = true)
  end /\
  StronglySorted evicts_before queue /\
  (forall a, a ∈ queue <-> a ∈ arcs /\ emergency_candidate to_lowercase arcs ctx a = true) /\
  (forall a, a ∈ queue ->
    (0 < protected_cutoff_ordinal ctx -> arc_ordinal a <= protected_cutoff_ordinal ctx) /\
    arc_id a ∉ newest_eidnara_reduce_arc_ids to_lowercase arcs /\
    (resolve_tool_tier to_lowercase (arc_name a) < 3 ->
      arc_id a ∉ tier_reserve to_lowercase arcs 1 /\ arc_id a ∉ tier_reserve to_lowercase arcs 2)).
Proof.
  cbn zeta. split; [|split; [apply emergency_queue_sorted|split; [apply elem_of_emergency_queue|]]].
  - unfold select_emergency. destruct (emergency_target ctx floor) as [target|]; [|done].
    destruct (emergency_walk_spec target (emergency_queue to_lowercase arcs ctx) []) as (n & Hw & _ & Hlt & Hend).
    exists n. cbn [reclaimed foldl app] in *. change (reclaimed []) with (S754_zero false) in Hw. by rewrite Hw.
  - intros a [_ Hc]%elem_of_emergency_queue. unfold emergency_candidate in Hc. cbn zeta in Hc.
    apply andb_true_iff in Hc as [[H1%negb_true_iff H2%negb_true_iff]%andb_true_iff H3%negb_true_iff].
    split; [|split; [by apply has_false|]].
    + intros H0. apply andb_false_iff in H1 as [H1%Z.ltb_ge|H1%Z.ltb_ge]; lia.
    + intros Ht. pose proof (tier_range (arc_name a)) as Hr. rewrite !elem_of_cons in Hr.
      assert (resolve_tool_tier to_lowercase (arc_name a) = 1 \/ resolve_tool_tier to_lowercase (arc_name a) = 2) as Ht'.
      { destruct Hr as [|[|[|?%not_elem_of_nil]]]; [lia|by right|by left|done]. }
      apply andb_false_iff in H3 as [H3|[H3%has_false H4%has_false]%orb_false_iff]; [|done].
      destruct Ht' as [E|E]; by rewrite E in H3.
Qed.

End Emergency.

(** ** A pass evaluated *)
Module Sample.

Definition print_scalar (v : Value) : string := match v with Str s => s | Bool true => "true" | _ => "0" end.
Definition edit_of (path : string) : Value := Object [("filePath", Str path); ("newString", Str "x")]%string.
Definition block (id : string) (ordinal : Z) (role : SelMessageRole) (k : SelKind) (arc : option string) : SelItem :=
  mkSelItem id ordinal role k false 4000 None arc.

(** Two edits of one file with their results, a note the agent drops and a reasoning block. *)
Definition items : list SelItem := [
  block "m1#0" 1 Assistant (ToolCall "edit" (edit_of "a")) (Some "m1#0"); block "m1#1" 1 Assistant Text None;
  block "m2#0" 2 NonAssistant (ToolResult "edit" None) (Some "m1#0");
  block "m3#0" 3 Assistant (ToolCall "edit" (edit_of "a")) (Some "m3#0"); block "m3#1" 3 Assistant Text None;
  block "m4#0" 4 NonAssistant (ToolResult "edit" None) (Some "m3#0");
  block "m5#0" 5 Assistant Text None; block "m5#1" 5 Assistant Reasoning None]%string.

Definition context (class : PassClass) : SelectionContext :=
  mkSelectionContext class (f64_of_Z 90000) (f64_of_Z 80000) 0 0 false (S754_zero false) false ["m5#0"; "m5#1"]%string [] [] false true [] [].

Definition select (order : forall A, list A -> list A) : list ReductionDecision :=
  select_reductions (fun n => n) print_scalar order items [] (context PCExecute) true.

End Sample.

Lemma selection_safe_witness :
  map (fun d => (target_id d, rd_kind d)) (Sample.select (fun A => reverse)) =
    [("m1#0", "edit_marker"); ("m2#0", "drop"); ("m5#0", "drop")]%string /\
  forall d, d ∈ Sample.select (fun A => reverse) -> target_id d ∉ ([] : list string).
Proof.
  split; [vm_compute; reflexivity|]. intros d Hd.
  exact (proj1 (proj2 (proj2 (selection_safe (fun n => n) Sample.print_scalar (fun A => reverse) (fun A => reverse_Permutation)
    Sample.items [] (Sample.context PCExecute) true)) d Hd)).
Defined.

Lemma arcs_reduced_whole_witness :
  let d := mkReduction "m2#0" "drop" "[dropped]" in
  d ∈ Sample.select (fun A => reverse) /\
  exists k, some_in Sample.items k (fun i => item_id i = "m2#0"%string) /\
    forall sibling, sibling ∈ Sample.items -> item_arc sibling = Some k -> is_tool (item_kind sibling) = true ->
      block_is_protected (Sample.context PCExecute) (item_id sibling) = true \/
      exists d', d' ∈ Sample.select (fun A => reverse) /\ target_id d' = item_id sibling.
Proof.
  assert (mkReduction "m2#0" "drop" "[dropped]" ∈ Sample.select (fun A => reverse)) as Hin.
  { unfold Sample.select. vm_compute. right. left. }
  split; [exact Hin|].
  apply (arcs_reduced_whole (fun n => n) Sample.print_scalar (fun A => reverse) (fun A => reverse_Permutation)
    Sample.items [] (Sample.context PCExecute) true (mkReduction "m2#0" "drop" "[dropped]")); [|exact Hin|].
  - apply (bool_decide_unpack _). vm_compute. exact I.
  - apply (bool_decide_unpack _). vm_compute. exact I.
Defined.

Lemma selection_order_free_witness :
  select_reductions_with_outcome (fun n => n) Sample.print_scalar (fun A => reverse) Sample.items [] (Sample.context PCEmergencyForce) true =
  select_reductions_with_outcome (fun n => n) Sample.print_scalar (fun A l => l) Sample.items [] (Sample.context PCEmergencyForce) true.
Proof.
  apply (selection_order_free (fun n => n) Sample.print_scalar (fun A => reverse) (fun A l => l) (fun A => reverse_Permutation)
    (fun A l => Permutation_refl l)).
  - apply (bool_decide_unpack _). vm_compute. exact I.
  - intros _. split; [repeat constructor; vm_compute; discriminate|vm_compute; reflexivity].
Defined.

(** ** Where the documentation and the code part *)

(** The documentation of [select_reductions] excludes provider-executed blocks; an agent's drop of
    one is decided, and so is a provider's call in an arc whose last call is the client's. *)
Lemma provider_executed_targets :
  let call id pe := mkSelItem id 1 Assistant (ToolCall "read" Null) pe 4000 None (Some "m1#0"%string) in
  let ctx drops := mkSelectionContext PCExecute (f64_of_Z 1) (f64_of_Z 0) 0 9 true (S754_zero false) false drops [] [] true false [] [] in
  map target_id (select_reductions (fun n => n) Sample.print_scalar (fun A l => l) [call "m1#0" true]%string [] (ctx ["m1#0"]%string) true) = ["m1#0"]%string /\
  map target_id (select_reductions (fun n => n) Sample.print_scalar (fun A l => l) [call "m1#0" true; call "m1#1" false]%string [] (ctx []) true) =
    ["m1#0"; "m1#1"]%string.
Proof. split; [vm_compute; reflexivity|vm_compute; reflexivity]. Qed.

(** [ToolArc::name] is documented as the name of the arc's first call; it is the last one's. *)
Lemma arc_name_is_last_call :
  let call id name := mkSelItem id 1 Assistant (ToolCall name Null) false 4000 None (Some "m1#0"%string) in
  map arc_name (group_arcs (fun A l => l) [call "m1#0" "read"; call "m1#1" "grep"]%string []) = ["grep"]%string.
Proof. vm_compute. reflexivity. Qed.

End SelectionProofs.
