(* ===== verification/JsonString.v ===== *)
(** * JsonString: JSON strings and their sizes (daemon/src/json_string.rs, daemon/src/dispatch.rs)

    The encoder escapes a string eight or sixteen bytes at a time; a second routine only counts the
    bytes the encoder would write, and [compact_json_len] counts a whole value. Text is a list of
    bytes. *)
From S2P Require Import Prelude Pool BTree Swar CanonicalJson.
From stdpp Require Import strings.
From Stdlib Require Import SpecFloat.

#[local] Open Scope Z_scope.

Module JsonString.
Import CanonicalJson.

(** ** The encoder *)
Definition ONES : Z := LO.
Definition HIGHS : Z := HI.

Definition escape_marks (word : Z) : Z :=
  let quote := Z.lxor word (ONES * 34) in
  let backslash := Z.lxor word (ONES * 92) in
  Z.land (Z.land (Z.lor (Z.lor (wrapping_sub u64_MAX word (ONES * 0x20)) (Z.land (wrapping_sub u64_MAX quote ONES) (not_u64 quote)))
                        (Z.land (wrapping_sub u64_MAX backslash ONES) (not_u64 backslash)))
                 (not_u64 word)) HIGHS.

Definition HEX : list Z := [48; 49; 50; 51; 52; 53; 54; 55; 56; 57; 97; 98; 99; 100; 101; 102].

(** The escape padded to six bytes, and its length. *)
Definition escape (byte : Z) : list Z * nat :=
  let short :=
    if byte =? 34 then 34 else if byte =? 92 then 92 else if byte =? 8 then 98 else if byte =? 9 then 116
    else if byte =? 10 then 110 else if byte =? 12 then 102 else if byte =? 13 then 114 else 0 in
  if negb (short =? 0) then ([92; short; 0; 0; 0; 0], 2%nat)
  else if byte <? 0x20
  then ([92; 117; 48; 48; default 0 (HEX !! Z.to_nat (Z.shiftr byte 4)); default 0 (HEX !! Z.to_nat (Z.land byte 15))], 6%nat)
  else ([byte; 0; 0; 0; 0; 0], 1%nat).

Definition push_escape (out : list Z) (byte : Z) : list Z :=
  let '(esc, len) := escape byte in take (length out + len) (out ++ esc).

(** The inner loop, sixteen bytes at a time. *)
Fixpoint skip_blocks (fuel : nat) (bytes : list Z) (at_ : nat) : nat :=
  match fuel with
  | O => at_
  | S fuel =>
      match get_range bytes at_ 16 with
      | Some block =>
          let low := from_le_bytes (take 8 block) in
          let high := from_le_bytes (drop 8 block) in
          if negb (Z.lor (escape_marks low) (escape_marks high) =? 0) then at_ else skip_blocks fuel bytes (at_ + 16)
      | None => at_
      end
  end.

(** The loop over words: the end of the copied run, the position, and the output. *)
Fixpoint word_loop (fuel : nat) (bytes : list Z) (run at_ : nat) (out : list Z) : nat * nat * list Z :=
  match fuel with
  | O => (run, at_, out)
  | S fuel =>
      let at_ := skip_blocks (length bytes) bytes at_ in
      match get_range bytes at_ 8 with
      | None => (run, at_, out)
      | Some word =>
          let marks := escape_marks (from_le_bytes word) in
          if marks =? 0 then word_loop fuel bytes run (at_ + 8) out
          else
            let lane := Z.to_nat (trailing_zeros 64 0 marks / 8) in
            let out := out ++ slice run (at_ - run) bytes in
            let out := take (length out + lane) (out ++ word) in
            let out := push_escape out (default 0 (word !! lane)) in
            let run := (at_ + lane + 1)%nat in
            word_loop fuel bytes run run out
      end
  end.

Definition needs_escape (byte : Z) : bool := (byte <? 0x20) || (byte =? 34) || (byte =? 92).

(** The loop over the bytes that are left. *)
Fixpoint tail_loop (bytes rest : list Z) (index run : nat) (out : list Z) : nat * list Z :=
  match rest with
  | [] => (run, out)
  | byte :: rest =>
      if needs_escape byte
      then tail_loop bytes rest (S index) (S index) (push_escape (out ++ slice run (index - run) bytes) byte)
      else tail_loop bytes rest (S index) run out
  end.

Definition push_json_string (out bytes : list Z) : list Z :=
  let '(run, at_, out) := word_loop (S (length bytes)) bytes 0 0 (out ++ [34]) in
  let '(run, out) := tail_loop bytes (drop at_ bytes) at_ run out in
  out ++ drop run bytes ++ [34].

(** ** Counting *)
Definition ESCAPE_GROWTH : list Z := map (fun byte => Z.of_nat (escape byte).2 - 1) (seqZ 0 256).
Definition escape_growth (byte : Z) : Z := default 0 (ESCAPE_GROWTH !! Z.to_nat byte).

Fixpoint len_loop (fuel : nat) (bytes : list Z) (at_ : nat) (len : Z) : nat * Z :=
  match fuel with
  | O => (at_, len)
  | S fuel =>
      match get_range bytes at_ 8 with
      | None => (at_, len)
      | Some chunk =>
          let marks := escape_marks (from_le_bytes chunk) in
          if marks =? 0 then len_loop fuel bytes (at_ + 8) len
          else
            let at_ := (at_ + Z.to_nat (trailing_zeros 64 0 marks / 8))%nat in
            len_loop fuel bytes (S at_) (len + escape_growth (default 0 (bytes !! at_)))
      end
  end.

Definition json_string_len (bytes : list Z) : Z :=
  let '(at_, len) := len_loop (S (length bytes)) bytes 0 (Z.of_nat (length bytes) + 2) in
  len + zsum (map escape_growth (drop at_ bytes)).

(** *** The size of a value *)
Definition bytes_of (s : string) : list Z := map byte_of (String.list_ascii_of_string s).
Definition MAX_WIRE_BODY_BYTES : Z := MAX_FRAME_BYTES.

Inductive PreparedOutputError := BodyTooLarge (len max : Z) | LengthOverflow.

(** [CountingWriter]: the writes of the serializer stop at the first that fails. *)
Definition add_len (len n : Z) : result PreparedOutputError Z :=
  match checked_add u64_MAX len n with
  | None => Err LengthOverflow
  | Some next => if MAX_WIRE_BODY_BYTES <? next then Err (BodyTooLarge next MAX_WIRE_BODY_BYTES) else Ok next
  end.

Fixpoint count_writes (len : Z) (pieces : list (list Z)) : Z * result PreparedOutputError Z :=
  match pieces with
  | [] => (len, Ok len)
  | piece :: pieces =>
      match add_len len (Z.of_nat (length piece)) with
      | Ok next => count_writes next pieces
      | Err e => (len, Err e)
      end
  end.

(** [u64::checked_ilog10] of a positive number. *)
Fixpoint ilog10 (fuel : nat) (n : Z) : Z :=
  match fuel with
  | O => 0
  | S fuel => if n <? 10 then 0 else 1 + ilog10 fuel (n / 10)
  end.
Definition checked_ilog10 (n : Z) : option Z := if n <=? 0 then None else Some (ilog10 20 n).
Definition digits (value : Z) : Z := match checked_ilog10 value with Some log => log + 1 | None => 1 end.

(** [try_fold] over lengths that may have overflowed. *)
Fixpoint try_sum (len : Z) (lens : list (option Z)) : option Z :=
  match lens with
  | [] => Some len
  | n :: lens => n ← n; len ← checked_add u64_MAX len n; try_sum len lens
  end.

Section Size.
(** The writes of [serde_json::to_writer]. *)
Context (pieces : Value -> list (list Z)).

Definition compact_number_len (number : Number) : Z :=
  match number with
  | PosInt value => digits value
  | NegInt value => 1 + digits (Z.abs value)
  | Float _ => fst (count_writes 0 (pieces (Num number)))
  end.

Fixpoint compact_json_len (value : Value) : option Z :=
  match value with
  | Null => Some 4
  | Bool true => Some 4
  | Bool false => Some 5
  | Num number => Some (compact_number_len number)
  | Str text => Some (json_string_len (bytes_of text))
  | Array items => try_sum (Z.max 0 (Z.of_nat (length items) - 1) + 2) (map compact_json_len items)
  | Object fields =>
      try_sum (Z.max 0 (Z.of_nat (length fields) - 1) + 2)
        (concat (map (fun kv => [Some (json_string_len (bytes_of kv.1) + 1); compact_json_len kv.2]) fields))
  end.

Definition measure_serialize (value : Value) : result PreparedOutputError Z := snd (count_writes 0 (pieces value)).

Definition measure_json (value : Value) : result PreparedOutputError Z :=
  match compact_json_len value with
  | Some len => if len <=? MAX_WIRE_BODY_BYTES then Ok len else measure_serialize value
  | None => measure_serialize value
  end.

End Size.

(** ** The reference: every byte by itself

    The escapes serde_json documents: a letter after a backslash for the quote, the backslash and five
    control characters, [\u00] and two lower-case hex digits for the other control characters. *)
Definition serde_escapes : list (Z * Z) := [(34, 34); (92, 92); (8, 98); (12, 102); (10, 110); (13, 114); (9, 116)].

Definition hex_byte (d : Z) : Z := if d <? 10 then 48 + d else 87 + d.

Definition esc (byte : Z) : list Z :=
  match snd <$> list_find (fun e => e.1 = byte) serde_escapes with
  | Some (_, letter) => [92; letter]
  | None => if byte <? 32 then [92; 117; 48; 48; hex_byte (byte / 16); hex_byte (byte mod 16)] else [byte]
  end.

Definition escaped (bytes : list Z) : list Z := concat (map esc bytes).
Definition json_quoted (bytes : list Z) : list Z := 34 :: escaped bytes ++ [34].

(** The code's table is the documented one. *)
Lemma escape_table byte : 0 <= byte < 256 -> take (escape byte).2 (escape byte).1 = esc byte.
Proof.
  intros Hb. pose (P := fun byte => bool_decide (take (escape byte).2 (escape byte).1 = esc byte)).
  assert (P byte = true) as H by (apply byte_check; [vm_compute; reflexivity|done]). by apply bool_decide_eq_true in H.
Qed.

Lemma push_escape_spec out byte : 0 <= byte < 256 -> push_escape out byte = out ++ esc byte.
Proof. intros Hb. rewrite <- escape_table by done. unfold push_escape. destruct (escape byte) as [e n]. by rewrite take_app_add. Qed.

Lemma esc_plain byte : 0 <= byte < 256 -> needs_escape byte = false -> esc byte = [byte].
Proof.
  intros Hb Hn. pose (P := fun byte => needs_escape byte || bool_decide (esc byte = [byte])).
  assert (P byte = true) as H by (apply byte_check; [vm_compute; reflexivity|done]).
  unfold P in H. rewrite Hn in H. by apply bool_decide_eq_true in H.
Qed.

(** ** The marks of a word

    The same computation on a word of [n] bytes. A borrow leaves a lane only when its byte is
    escaped, so the marks below the first escaped byte are exact. *)
Fixpoint ones (n : nat) : Z := match n with O => 0 | S n => 1 + 256 * ones n end.

Definition marks (n : nat) (w : Z) : Z :=
  let q := Z.lxor w (ones n * 34) in
  let s := Z.lxor w (ones n * 92) in
  let all := ones n * 255 in
  Z.land (Z.land (Z.lor (Z.lor ((w - ones n * 0x20) mod 256 ^ Z.of_nat n) (Z.land ((q - ones n) mod 256 ^ Z.of_nat n) (Z.lxor q all)))
                        (Z.land ((s - ones n) mod 256 ^ Z.of_nat n) (Z.lxor s all)))
                 (Z.lxor w all)) (ones n * 128).

Lemma escape_marks_eq w : escape_marks w = marks 8 w.
Proof. reflexivity. Qed.

Section Pair.
Context (op : Z -> Z -> Z) (bop : bool -> bool -> bool).
Hypothesis Hspec : forall x y n, 0 <= n -> Z.testbit (op x y) n = bop (Z.testbit x n) (Z.testbit y n).
Hypothesis Hlane : forall x y, 0 <= x < 256 -> 0 <= y < 256 -> 0 <= op x y < 256.

Lemma pair_bitwise a A b B : 0 <= a < 256 -> 0 <= b < 256 -> op (a + 256 * A) (b + 256 * B) = op a b + 256 * op A B.
Proof.
  intros Ha Hb. apply Z.bits_inj'. intros n Hn. rewrite Hspec, !lane_bits by (done || by apply Hlane).
  destruct (Z.ltb_spec n 8); by rewrite Hspec by lia.
Qed.
End Pair.

Lemma pair_land a A b B : 0 <= a < 256 -> 0 <= b < 256 -> Z.land (a + 256 * A) (b + 256 * B) = Z.land a b + 256 * Z.land A B.
Proof. apply (pair_bitwise _ andb); [intros; apply Z.land_spec|apply land_lane]. Qed.

Lemma pair_lor a A b B : 0 <= a < 256 -> 0 <= b < 256 -> Z.lor (a + 256 * A) (b + 256 * B) = Z.lor a b + 256 * Z.lor A B.
Proof. apply (pair_bitwise _ orb); [intros; apply Z.lor_spec|apply lor_lane]. Qed.

Lemma pair_lxor a A b B : 0 <= a < 256 -> 0 <= b < 256 -> Z.lxor (a + 256 * A) (b + 256 * B) = Z.lxor a b + 256 * Z.lxor A B.
Proof. apply (pair_bitwise _ xorb); [intros; apply Z.lxor_spec|apply lxor_lane]. Qed.

(** Subtraction with the borrow of the lowest lane, which leaves the lane [(a - b) mod 256]. *)
Lemma pair_sub n a A b B : 0 <= a < 256 -> 0 <= b < 256 ->
  (a + 256 * A - (b + 256 * B)) mod 256 ^ Z.of_nat (S n) =
  (a - b) mod 256 + 256 * ((A - B - (if a <? b then 1 else 0)) mod 256 ^ Z.of_nat n).
Proof.
  intros Ha Hb. rewrite Nat2Z.inj_succ, Z.pow_succ_r by lia. rewrite Z.rem_mul_r by (try lia; apply Z.pow_pos_nonneg; lia).
  replace (a + 256 * A - (b + 256 * B)) with (a - b + (A - B) * 256) by ring.
  rewrite Z.mod_add, Z.div_add by lia. do 3 f_equal.
  destruct (Z.ltb_spec a b) as [Hlt|Hge]; [|rewrite (Z.div_small (a - b)); lia].
  replace ((a - b) / 256) with (-1); [lia|]. apply (Z.div_unique _ _ _ (a - b + 256)); lia.
Qed.

(** The lowest lane of the marks. *)
Definition mark_lane (b : Z) : Z :=
  let q := Z.lxor b 34 in
  let s := Z.lxor b 92 in
  Z.land (Z.land (Z.lor (Z.lor ((b - 0x20) mod 256) (Z.land ((q - 1) mod 256) (Z.lxor q 255)))
                        (Z.land ((s - 1) mod 256) (Z.lxor s 255)))
                 (Z.lxor b 255)) 128.

Lemma mark_lane_spec b : 0 <= b < 256 -> mark_lane b = if needs_escape b then 128 else 0.
Proof.
  intros Hb. apply Z.eqb_eq. apply (byte_check (fun b => mark_lane b =? (if needs_escape b then 128 else 0))); [vm_compute; reflexivity|done].
Qed.

Lemma marks_cons n b W : 0 <= b < 256 ->
  exists M, marks (S n) (b + 256 * W) = mark_lane b + 256 * M /\ (needs_escape b = false -> M = marks n W).
Proof.
  intros Hb. unfold marks. cbn [ones].
  replace ((1 + 256 * ones n) * 34) with (34 + 256 * (ones n * 34)) by ring.
  replace ((1 + 256 * ones n) * 92) with (92 + 256 * (ones n * 92)) by ring.
  replace ((1 + 256 * ones n) * 255) with (255 + 256 * (ones n * 255)) by ring.
  replace ((1 + 256 * ones n) * 128) with (128 + 256 * (ones n * 128)) by ring.
  replace ((1 + 256 * ones n) * 0x20) with (0x20 + 256 * (ones n * 0x20)) by ring. cbn zeta.
  assert (0 <= Z.lxor b 34 < 256) by (apply lxor_lane; lia). assert (0 <= Z.lxor b 92 < 256) by (apply lxor_lane; lia).
  rewrite !(pair_lxor b W) by lia. rewrite !pair_sub, !pair_lxor by lia.
  assert (forall x, 0 <= x mod 256 < 256) as Hm by (intros; by apply Z.mod_pos_bound).
  assert (forall x, 0 <= x < 256 -> 0 <= Z.lxor x 255 < 256) as Hx by (intros; by apply lxor_lane).
  assert (forall x y, 0 <= x < 256 -> 0 <= y < 256 -> 0 <= Z.land x y < 256) as Hl by (intros; by apply land_lane).
  assert (forall x y, 0 <= x < 256 -> 0 <= y < 256 -> 0 <= Z.lor x y < 256) as Ho by (intros; by apply lor_lane).
  rewrite !pair_land by auto. rewrite !pair_lor by auto. rewrite !pair_land by first [lia|auto 20]. eexists. split; [reflexivity|].
  unfold needs_escape. rewrite !orb_false_iff. intros [[H1 H2] H3].
  replace (b <? 0x20) with false by done.
  assert (Z.lxor b 34 <> 0) by (intros E%Z.lxor_eq; lia). assert (Z.lxor b 92 <> 0) by (intros E%Z.lxor_eq; lia).
  replace (Z.lxor b 34 <? 1) with false by lia. replace (Z.lxor b 92 <? 1) with false by lia. by rewrite !Z.sub_0_r.
Qed.

Definition is_bytes (bs : list Z) : Prop := Forall (fun b => 0 <= b < 256) bs.

(** The bytes before the first that is escaped. *)
Fixpoint plain_run (bs : list Z) : nat :=
  match bs with
  | [] => 0
  | b :: bs => if needs_escape b then 0 else S (plain_run bs)
  end.

Lemma plain_run_le bs : (plain_run bs <= length bs)%nat.
Proof. induction bs as [|b bs IH]; [done|]. cbn. case_match; lia. Qed.

Lemma plain_run_plain bs : Forall (fun b => needs_escape b = false) (take (plain_run bs) bs).
Proof. induction bs as [|b bs IH]; [constructor|]. cbn. case_match eqn:E; [constructor|]. by constructor. Qed.

Lemma plain_run_stop bs : (plain_run bs < length bs)%nat -> needs_escape (default 0 (bs !! plain_run bs)) = true.
Proof. induction bs as [|b bs IH]; cbn; [lia|]. case_match eqn:E; [done|]. intros H. apply IH. lia. Qed.

Lemma marks_first n bs fuel : length bs = n -> is_bytes bs -> (8 * n <= fuel)%nat ->
  if (plain_run bs <? n)%nat
  then marks n (from_le_bytes bs) <> 0 /\ trailing_zeros fuel 0 (marks n (from_le_bytes bs)) = 8 * Z.of_nat (plain_run bs) + 7
  else marks n (from_le_bytes bs) = 0.
Proof.
  revert n fuel. induction bs as [|b bs IH]; intros n fuel <- Hb Hf; [reflexivity|]. apply list.Forall_cons in Hb as [Hb Hbs].
  cbn [length from_le_bytes plain_run]. destruct (marks_cons (length bs) b (from_le_bytes bs) Hb) as (M & -> & HM).
  rewrite (mark_lane_spec b Hb). do 8 (destruct fuel as [|fuel]; [cbn in Hf; lia|]).
  change (S (S (S (S (S (S (S (S fuel)))))))) with (8 + fuel)%nat. destruct (needs_escape b) eqn:E.
  - change (0 <? S (length bs))%nat with true. split; [lia|]. cbn [Nat.add]. rewrite !tz_step, !lane_bits by lia. reflexivity.
  - specialize (HM eq_refl) as ->. specialize (IH (length bs) fuel eq_refl Hbs ltac:(cbn in Hf; lia)).
    change (S (plain_run bs) <? S (length bs))%nat with (plain_run bs <? length bs)%nat.
    destruct (plain_run bs <? length bs)%nat; [|by rewrite IH]. destruct IH as [Hne Htz]. split; [lia|].
    rewrite tz_low; [|intros j Hj; rewrite lane_bits, Z.bits_0 by lia; by destruct (Z.ltb_spec j 8); [|lia]].
    rewrite (tz_shift fuel 0), Htz by lia. lia.
Qed.

(** Eight bytes: no mark when none is escaped, else the lowest mark names the first one. *)
Lemma escape_marks_word bs : length bs = 8%nat -> is_bytes bs ->
  if (plain_run bs <? 8)%nat
  then escape_marks (from_le_bytes bs) <> 0 /\ Z.to_nat (trailing_zeros 64 0 (escape_marks (from_le_bytes bs)) / 8) = plain_run bs
  else escape_marks (from_le_bytes bs) = 0.
Proof.
  intros Hlen Hb. rewrite escape_marks_eq. pose proof (marks_first 8 bs 64 Hlen Hb ltac:(lia)) as H.
  destruct (plain_run bs <? 8)%nat; [|done]. destruct H as [H1 H2]. split; [done|]. rewrite H2.
  replace (8 * Z.of_nat (plain_run bs) + 7) with (7 + Z.of_nat (plain_run bs) * 8) by lia.
  rewrite Z.div_add, Z.div_small by lia. lia.
Qed.

Lemma escaped_app a b : escaped (a ++ b) = escaped a ++ escaped b.
Proof. unfold escaped. by rewrite map_app, concat_app. Qed.

Lemma escaped_plain bs : is_bytes bs -> Forall (fun b => needs_escape b = false) bs -> escaped bs = bs.
Proof.
  intros Hb Hp. induction bs as [|b bs IH]; [done|]. apply list.Forall_cons in Hb as [Hb Hbs], Hp as [Hp Hps].
  unfold escaped in *. cbn [map concat]. rewrite esc_plain, IH by done. done.
Qed.

Lemma plain_run_full bs : (plain_run bs = length bs)%nat -> Forall (fun b => needs_escape b = false) bs.
Proof. intros E. pose proof (plain_run_plain bs) as H. by rewrite E, firstn_all in H. Qed.

(** ** The loops *)
Section Loops.
Context (bytes : list Z) (Hbytes : is_bytes bytes).

Definition plain_between (i j : nat) : Prop := forall k b, (i <= k < j)%nat -> bytes !! k = Some b -> needs_escape b = false.

Lemma plain_join i j k : plain_between i j -> plain_between j k -> plain_between i k.
Proof. intros H1 H2 x b Hx Hb. destruct (decide (x < j)%nat); [apply (H1 x b); [lia|done]|apply (H2 x b); [lia|done]]. Qed.

Lemma is_bytes_slice o n : is_bytes (slice o n bytes).
Proof. unfold slice. by apply Forall_take, Forall_drop. Qed.

Lemma plain_slice i j : (i <= j)%nat -> plain_between i j -> Forall (fun b => needs_escape b = false) (slice i (j - i) bytes).
Proof.
  intros Hij Hp. apply Forall_lookup_2. intros k b Hk. unfold slice in Hk. apply lookup_take_Some in Hk as [Hk Hlt].
  rewrite lookup_drop in Hk. apply (Hp (i + k)%nat); [lia|done].
Qed.

Lemma slice_plain i n : Forall (fun b => needs_escape b = false) (slice i n bytes) -> plain_between i (i + n).
Proof.
  intros Hf k b Hk Hb. apply (Forall_lookup_1 _ _ (k - i) b Hf). unfold slice. rewrite lookup_take_lt by lia. rewrite lookup_drop.
  by replace (i + (k - i))%nat with k by lia.
Qed.

Lemma take_slice (i j : nat) : (i <= j)%nat -> take j bytes = take i bytes ++ slice i (j - i) bytes.
Proof. intros H. unfold slice. by replace j with (i + (j - i))%nat at 1 by lia; rewrite take_take_drop. Qed.

(** A plain stretch is copied as it is. *)
Lemma escaped_stretch i j : (i <= j)%nat -> plain_between i j -> escaped (take j bytes) = escaped (take i bytes) ++ slice i (j - i) bytes.
Proof.
  intros Hij Hp. rewrite (take_slice i j), escaped_app by done. f_equal. apply escaped_plain; [apply is_bytes_slice|by apply plain_slice].
Qed.

Lemma get_range_inv o n c : get_range bytes o n = Some c -> c = slice o n bytes /\ length c = n /\ (o + n <= length bytes)%nat.
Proof.
  unfold get_range. destruct (Nat.leb_spec (o + n) (length bytes)); [|done]. intros [= <-]. split; [done|]. split; [|done].
  by apply length_slice.
Qed.

Lemma word_plain at_ word : get_range bytes at_ 8 = Some word -> escape_marks (from_le_bytes word) = 0 -> plain_between at_ (at_ + 8).
Proof.
  intros (-> & Hlen & _)%get_range_inv Hm. pose proof (escape_marks_word _ Hlen (is_bytes_slice at_ 8)) as H.
  destruct (Nat.ltb_spec (plain_run (slice at_ 8 bytes)) 8); [by destruct H|]. apply slice_plain, plain_run_full.
  pose proof (plain_run_le (slice at_ 8 bytes)). lia.
Qed.

Lemma skip_blocks_spec fuel at_ : (at_ <= length bytes)%nat ->
  (at_ <= skip_blocks fuel bytes at_ <= length bytes)%nat /\ plain_between at_ (skip_blocks fuel bytes at_).
Proof.
  revert at_. induction fuel as [|fuel IH]; intros at_ Hat; cbn [skip_blocks]; [split; [lia|intros k b Hk; lia]|].
  assert (plain_between at_ at_) as Hrefl by (intros k b Hk; lia).
  destruct (get_range bytes at_ 16) as [block|] eqn:E; [|by split; [lia|]].
  destruct (Z.lor _ _ =? 0) eqn:Em; cbn [negb]; [|by split; [lia|]]. apply Z.eqb_eq, Z.lor_eq_0_iff in Em as [E1 E2].
  apply get_range_inv in E as (-> & Hlen & Hb). destruct (IH (at_ + 16)%nat Hb) as [Hr Hp]. split; [lia|].
  apply (plain_join _ (at_ + 8)); [|apply (plain_join _ (at_ + 16)); [|done]].
  - apply (word_plain _ (take 8 (slice at_ 16 bytes))); [|done]. rewrite get_range_Some by lia. unfold slice. by rewrite take_take.
  - replace (at_ + 16)%nat with (at_ + 8 + 8)%nat by lia. apply (word_plain _ (drop 8 (slice at_ 16 bytes))); [|done].
    rewrite get_range_Some by lia. unfold slice. rewrite skipn_firstn_comm, drop_drop. done.
Qed.

(** The output so far is the escaped text up to [run]; what follows up to [at_] is plain. *)
Definition loop_inv (pre : list Z) (run at_ : nat) (out : list Z) : Prop :=
  (run <= at_ <= length bytes)%nat /\ plain_between run at_ /\ out = pre ++ escaped (take run bytes).

Lemma escaped_snoc i b : bytes !! i = Some b -> escaped (take (S i) bytes) = escaped (take i bytes) ++ esc b.
Proof. intros Hi. rewrite (take_S_r _ _ _ Hi), escaped_app. unfold escaped at 2. cbn. by rewrite app_nil_r. Qed.

Lemma byte_at i b : bytes !! i = Some b -> 0 <= b < 256.
Proof. intros Hi. exact (Forall_lookup_1 _ _ _ _ Hbytes Hi). Qed.

Lemma word_loop_spec fuel pre run at_ out :
  loop_inv pre run at_ out ->
  let '(run', at', out') := word_loop fuel bytes run at_ out in
  loop_inv pre run' at' out' /\ ((length bytes - at_ < fuel)%nat -> (length bytes < at' + 8)%nat).
Proof.
  revert run at_ out. induction fuel as [|fuel IH]; intros run at0 out (Hr & Hp & ->); cbn [word_loop]; [split; [done|lia]|].
  destruct (skip_blocks_spec (length bytes) at0 ltac:(lia)) as [Hs Hsp]. set (at_ := skip_blocks (length bytes) bytes at0) in *.
  assert (plain_between run at_) as Hp' by (by apply (plain_join _ at0)).
  destruct (get_range bytes at_ 8) as [word|] eqn:E.
  2:{ split; [by split; [lia|]|]. intros _. unfold get_range in E. destruct (Nat.leb_spec (at_ + 8) (length bytes)); [done|lia]. }
  pose proof (get_range_inv _ _ _ E) as (Hw & Hlen & Hb). destruct (escape_marks (from_le_bytes word) =? 0) eqn:Em.
  - apply Z.eqb_eq in Em. specialize (IH run (at_ + 8)%nat (pre ++ escaped (take run bytes))). cbn zeta.
    destruct (word_loop _ _ _ _ _) as [[run' at'] out']. destruct IH as [HI Hend].
    { split; [lia|]. split; [|done]. apply (plain_join _ at_); [done|]. by apply (word_plain _ word). }
    split; [done|]. intros Hf. apply Hend. lia.
  - apply Z.eqb_neq in Em. pose proof (escape_marks_word word Hlen ltac:(subst word; apply is_bytes_slice)) as Hm.
    destruct (Nat.ltb_spec (plain_run word) 8) as [Hlt|]; [|done]. destruct Hm as [_ ->]. set (lane := plain_run word) in *.
    assert (bytes !! (at_ + lane)%nat = word !! lane) as Hlook.
    { subst word. unfold slice. rewrite lookup_take_lt, lookup_drop by lia. done. }
    destruct (lookup_lt_is_Some_2 word lane ltac:(lia)) as [b Hbl].
    assert (slice at_ lane bytes = take lane word) as Hsl by (rewrite Hw; unfold slice; rewrite take_take; f_equal; lia).
    assert (plain_between at_ (at_ + lane)) as Hpl by (apply slice_plain; rewrite Hsl; apply plain_run_plain).
    assert (take ((length ((pre ++ escaped (take run bytes)) ++ slice run (at_ - run) bytes)) + lane)
              (((pre ++ escaped (take run bytes)) ++ slice run (at_ - run) bytes) ++ word) =
            pre ++ escaped (take (at_ + lane) bytes)) as ->.
    { rewrite take_app_add, <- (app_assoc pre), <- escaped_stretch by (done || lia). rewrite <- app_assoc. f_equal.
      rewrite (escaped_stretch at_ (at_ + lane)), <- Hsl by (done || lia). by replace (at_ + lane - at_)%nat with lane by lia. }
    cbn zeta. rewrite Hbl. cbn [default]. change (default 0 (Some b)) with b.
    rewrite push_escape_spec by (by apply (byte_at (at_ + lane)); rewrite Hlook). rewrite <- app_assoc, <- escaped_snoc by (by rewrite Hlook).
    specialize (IH (at_ + lane + 1)%nat (at_ + lane + 1)%nat (pre ++ escaped (take (at_ + lane + 1) bytes))).
    replace (S (at_ + lane)) with (at_ + lane + 1)%nat by lia.
    destruct (word_loop _ _ _ _ _) as [[run' at'] out']. destruct IH as [HI Hend].
    { split; [lia|]. split; [intros k x Hk; lia|done]. }
    split; [done|]. intros Hf. apply Hend. lia.
Qed.

Lemma tail_loop_spec rest index run pre out :
  rest = drop index bytes -> loop_inv pre run index out ->
  let '(run', out') := tail_loop bytes rest index run out in loop_inv pre run' (length bytes) out'.
Proof.
  revert index run out. induction rest as [|byte rest IH]; intros index run out Hrest (Hr & Hp & ->); cbn [tail_loop].
  - assert (index = length bytes) as <-; [|by split]. assert (length (drop index bytes) = 0%nat) as Hl by (by rewrite <- Hrest).
    rewrite length_drop in Hl. lia.
  - assert (bytes !! index = Some byte) as Hi by (rewrite <- (Nat.add_0_r index), <- lookup_drop, <- Hrest; done).
    assert (rest = drop (S index) bytes) as Hrest' by (rewrite <- Nat.add_1_r, <- drop_drop, <- Hrest; done).
    pose proof (lookup_lt_Some _ _ _ Hi). destruct (needs_escape byte) eqn:E.
    + apply IH; [done|]. split; [lia|]. split; [intros k b Hk; lia|].
      rewrite push_escape_spec by (by apply (byte_at index)). by rewrite <- (app_assoc pre), <- escaped_stretch, <- app_assoc, <- escaped_snoc by (done || lia).
    + apply IH; [done|]. split; [lia|]. split; [|done]. apply (plain_join _ index); [done|]. intros k b Hk Hb.
      replace k with index in Hb by lia. congruence.
Qed.

Lemma push_json_string_spec out : push_json_string out bytes = out ++ json_quoted bytes.
Proof.
  unfold push_json_string. pose proof (word_loop_spec (S (length bytes)) (out ++ [34]) 0 0 (out ++ [34])) as H.
  destruct (word_loop _ _ _ _ _) as [[run at_] out1]. destruct H as [Hi _]; [split; [lia|]; split; [intros k b Hk; lia|by rewrite app_nil_r]|].
  pose proof (tail_loop_spec (drop at_ bytes) at_ run (out ++ [34]) out1 eq_refl Hi) as H. destruct (tail_loop _ _ _ _ _) as [run' out'].
  destruct H as (Hr & Hp & ->). unfold json_quoted. rewrite <- !app_assoc. cbn [app]. do 2 f_equal.
  pose proof (escaped_stretch run' (length bytes) ltac:(lia) Hp) as Hs. rewrite firstn_all in Hs. rewrite Hs, <- app_assoc. do 2 f_equal.
  unfold slice. rewrite firstn_all2; [done|]. rewrite length_drop. lia.
Qed.

(** *** Counting *)
Definition growth (bs : list Z) : Z := zsum (map escape_growth bs).

Lemma escape_growth_spec b : 0 <= b < 256 -> escape_growth b = Z.of_nat (length (esc b)) - 1.
Proof.
  intros Hb. apply Z.eqb_eq. apply (byte_check (fun b => escape_growth b =? Z.of_nat (length (esc b)) - 1)); [vm_compute; reflexivity|done].
Qed.

Lemma growth_app a b : growth (a ++ b) = growth a + growth b.
Proof. unfold growth. by rewrite map_app, zsum_app. Qed.

Lemma length_escaped bs : is_bytes bs -> Z.of_nat (length (escaped bs)) = Z.of_nat (length bs) + growth bs.
Proof.
  induction bs as [|b bs IH]; intros Hb; [done|]. apply list.Forall_cons in Hb as [Hb Hbs]. specialize (IH Hbs).
  unfold escaped, growth, zsum in *. cbn [map concat foldr]. rewrite length_app, escape_growth_spec by done. cbn [length]. lia.
Qed.

Lemma growth_plain i j : (i <= j)%nat -> plain_between i j -> growth (take j bytes) = growth (take i bytes).
Proof.
  intros Hij Hp. rewrite (take_slice i j), growth_app by done. enough (growth (slice i (j - i) bytes) = 0) by lia.
  pose proof (length_escaped _ (is_bytes_slice i (j - i))) as H. rewrite escaped_plain in H; [lia|apply is_bytes_slice|by apply plain_slice].
Qed.

Lemma len_loop_spec fuel base at_ : (at_ <= length bytes)%nat ->
  let '(at', len') := len_loop fuel bytes at_ (base + growth (take at_ bytes)) in
  (at_ <= at' <= length bytes)%nat /\ len' = base + growth (take at' bytes) /\
  ((length bytes - at_ < fuel)%nat -> (length bytes < at' + 8)%nat).
Proof.
  revert at_. induction fuel as [|fuel IH]; intros at_ Hat; cbn [len_loop]; [split_and!; done || lia|].
  destruct (get_range bytes at_ 8) as [word|] eqn:E.
  2:{ split_and!; [lia|lia|done|]. intros _. unfold get_range in E. destruct (Nat.leb_spec (at_ + 8) (length bytes)); [done|lia]. }
  pose proof (get_range_inv _ _ _ E) as (Hw & Hlen & Hb). destruct (escape_marks (from_le_bytes word) =? 0) eqn:Em.
  - apply Z.eqb_eq in Em. rewrite <- (growth_plain at_ (at_ + 8)) by (try lia; by apply (word_plain _ word)).
    specialize (IH (at_ + 8)%nat Hb). destruct (len_loop _ _ _ _) as [at' len']. destruct IH as (H1 & H2 & H3). split_and!; [lia|lia|done|].
    intros Hf. apply H3. lia.
  - apply Z.eqb_neq in Em. pose proof (escape_marks_word word Hlen ltac:(subst word; apply is_bytes_slice)) as Hm.
    destruct (Nat.ltb_spec (plain_run word) 8) as [Hlt|]; [|done]. destruct Hm as [_ ->]. set (lane := plain_run word) in *. cbn zeta.
    destruct (lookup_lt_is_Some_2 bytes (at_ + lane) ltac:(lia)) as [b Hbl]. rewrite Hbl. change (default 0 (Some b)) with b.
    assert (slice at_ lane bytes = take lane word) as Hsl by (rewrite Hw; unfold slice; rewrite take_take; f_equal; lia).
    assert (base + growth (take at_ bytes) + escape_growth b = base + growth (take (S (at_ + lane)) bytes)) as ->.
    { rewrite (take_S_r _ _ _ Hbl), growth_app, (growth_plain at_ (at_ + lane)); [unfold growth at 3, zsum; cbn; lia|lia|].
      apply slice_plain. rewrite Hsl. apply plain_run_plain. }
    specialize (IH (S (at_ + lane)) ltac:(lia)). destruct (len_loop _ _ _ _) as [at' len']. destruct IH as (H1 & H2 & H3).
    split_and!; [lia|lia|done|]. intros Hf. apply H3. lia.
Qed.

Lemma json_string_len_spec : json_string_len bytes = Z.of_nat (length (json_quoted bytes)).
Proof.
  unfold json_string_len. pose proof (len_loop_spec (S (length bytes)) (Z.of_nat (length bytes) + 2) 0 ltac:(lia)) as H.
  change (growth (take 0 bytes)) with 0 in H. rewrite Z.add_0_r in H.
  destruct (len_loop _ _ _ _) as [at' len']. destruct H as (H1 & -> & _). change (zsum (map escape_growth (drop at' bytes))) with (growth (drop at' bytes)).
  rewrite <- Z.add_assoc, <- growth_app, take_drop. unfold json_quoted. cbn [length]. rewrite length_app. cbn [length].
  pose proof (length_escaped bytes Hbytes). lia.
Qed.

End Loops.

(** The fast string routines are exact. For every string of bytes the encoder appends exactly
    the quoted text in which every byte is escaped by itself, its word loop runs to the last eight
    bytes, and the counting routine returns the length of that text. *)
Theorem json_string_exact out bytes :
  is_bytes bytes ->
  push_json_string out bytes = out ++ json_quoted bytes /\
  json_string_len bytes = Z.of_nat (length (json_quoted bytes)) /\
  let '(_, at_, _) := word_loop (S (length bytes)) bytes 0 0 (out ++ [34]) in (length bytes < at_ + 8)%nat.
Proof.
  intros Hb. split; [by apply push_json_string_spec|]. split; [by apply json_string_len_spec|].
  pose proof (word_loop_spec bytes Hb (S (length bytes)) (out ++ [34]) 0 0 (out ++ [34])) as H.
  destruct (word_loop _ _ _ _ _) as [[run at_] out1]. destruct H as [_ H]; [|by apply H; lia].
  split; [lia|]; split; [intros k b Hk; lia|by rewrite app_nil_r].
Qed.

Definition sample_text : list Z := [104; 105; 32; 34; 97; 34; 10; 92; 1; 120; 121; 122; 195; 169; 33; 33; 33].

Lemma json_string_exact_witness :
  json_string_len sample_text = 28 /\ push_json_string [] sample_text = [] ++ json_quoted sample_text.
Proof.
  assert (is_bytes sample_text) as Hb by (unfold sample_text; repeat (constructor; [lia|]); constructor).
  split; [vm_compute; reflexivity|]. exact (proj1 (json_string_exact [] sample_text Hb)).
Defined.

(** ** The size of a value *)

(** serde_json's compact text of a value, with the text of a double as a parameter. *)
Section CompactText.
Context (float_text : spec_float -> list Z).

Definition number_text (number : Number) : list Z :=
  match number with
  | PosInt n => bytes_of (decimal_digits 20 n)
  | NegInt n => 45 :: bytes_of (decimal_digits 20 (Z.abs n))
  | Float f => float_text f
  end.

Fixpoint comma_separated (texts : list (list Z)) : list Z :=
  match texts with
  | [] => []
  | [t] => t
  | t :: texts => t ++ 44 :: comma_separated texts
  end.

Fixpoint compact_text (value : Value) : list Z :=
  match value with
  | Null => bytes_of "null"
  | Bool true => bytes_of "true"
  | Bool false => bytes_of "false"
  | Num number => number_text number
  | Str text => json_quoted (bytes_of text)
  | Array items => 91 :: comma_separated (map compact_text items) ++ [93]
  | Object fields => 123 :: comma_separated (map (fun kv => json_quoted (bytes_of kv.1) ++ 58 :: compact_text kv.2) fields) ++ [125]
  end.

End CompactText.

(** What the code relies on in serde_json's writer: the pieces it writes make up the compact text,
    and a double prints within a wire body. *)
Class CompactWriter (pieces : Value -> list (list Z)) (float_text : spec_float -> list Z) : Prop := {
  writes_text v : concat (pieces v) = compact_text float_text v;
  float_short f : Z.of_nat (length (float_text f)) <= MAX_WIRE_BODY_BYTES;
}.

Lemma is_bytes_of s : is_bytes (bytes_of s).
Proof.
  unfold bytes_of. apply list.Forall_forall. intros b (c & -> & _)%list_elem_of_fmap. unfold byte_of.
  pose proof (Ascii.N_ascii_bounded c). lia.
Qed.

Lemma length_bytes_of s : length (bytes_of s) = String.length s.
Proof. unfold bytes_of. rewrite length_map. induction s as [|c s IH]; cbn; [done|by rewrite IH]. Qed.

Lemma length_decimal fuel n : 0 <= n -> n < 10 ^ Z.of_nat fuel -> (0 < fuel)%nat -> Z.of_nat (String.length (decimal_digits fuel n)) = ilog10 fuel n + 1.
Proof.
  revert n. induction fuel as [|fuel IH]; intros n Hn Hlt Hf; [lia|]. cbn [decimal_digits ilog10].
  destruct (Z.ltb_spec n 10); [done|]. rewrite Nat2Z.inj_succ, Z.pow_succ_r in Hlt by lia.
  destruct fuel as [|fuel]; [cbn in Hlt; lia|]. rewrite length_append. cbn [String.length decimal_digit].
  rewrite Nat2Z.inj_add, IH; [lia|apply Z.div_pos; lia|apply Z.div_lt_upper_bound; lia|lia].
Qed.

Lemma digits_spec n : 0 <= n <= u64_MAX -> digits n = Z.of_nat (length (bytes_of (decimal_digits 20 n))).
Proof.
  intros Hn. rewrite length_bytes_of, length_decimal by (try lia; munfold; cbn; lia). unfold digits, checked_ilog10.
  destruct (Z.leb_spec n 0); [|done]. by replace n with 0 by lia.
Qed.

(** The integers of a value are those serde_json's [Number] holds. *)
Definition number_ok (n : Number) : bool :=
  match n with PosInt n => (0 <=? n) && (n <=? u64_MAX) | NegInt n => (- 2 ^ 63 <=? n) && (n <? 0) | Float _ => true end.

Fixpoint value_ok (v : Value) : bool :=
  match v with
  | Num n => number_ok n
  | Array items => forallb value_ok items
  | Object fields => forallb (fun kv => value_ok kv.2) fields
  | _ => true
  end.

Lemma count_writes_spec pieces len : 0 <= len <= MAX_WIRE_BODY_BYTES ->
  let total := len + Z.of_nat (length (concat pieces)) in
  if total <=? MAX_WIRE_BODY_BYTES then count_writes len pieces = (total, Ok total)
  else exists n e, count_writes len pieces = (n, Err (BodyTooLarge e MAX_WIRE_BODY_BYTES)) /\ MAX_WIRE_BODY_BYTES < e <= total \/
    count_writes len pieces = (n, Err LengthOverflow) /\ u64_MAX < total.
Proof.
  revert len. induction pieces as [|p pieces IH]; intros len Hlen; cbn [concat count_writes].
  - cbn. rewrite Z.add_0_r. destruct (Z.leb_spec len MAX_WIRE_BODY_BYTES); [done|lia].
  - rewrite length_app, Nat2Z.inj_add. unfold add_len. destruct (checked_add u64_MAX len (Z.of_nat (length p))) as [next|] eqn:E.
    + apply checked_add_Some in E as [-> Hle]. destruct (Z.ltb_spec MAX_WIRE_BODY_BYTES (len + Z.of_nat (length p))) as [Hlt|Hge].
      * destruct (Z.leb_spec (len + (Z.of_nat (length p) + Z.of_nat (length (concat pieces)))) MAX_WIRE_BODY_BYTES); [lia|].
        exists len, (len + Z.of_nat (length p)). left. split; [done|lia].
      * specialize (IH (len + Z.of_nat (length p)) ltac:(lia)). cbn zeta in IH. by rewrite <- Z.add_assoc in IH.
    + apply checked_add_None in E. destruct (Z.leb_spec (len + (Z.of_nat (length p) + Z.of_nat (length (concat pieces)))) MAX_WIRE_BODY_BYTES).
      * unfold MAX_WIRE_BODY_BYTES, MAX_FRAME_BYTES in *. munfold. lia.
      * exists len, 0. right. split; [done|lia].
Qed.

Lemma count_writes_nonneg pieces len : 0 <= len ->
  0 <= fst (count_writes len pieces) /\ forall n, snd (count_writes len pieces) = Ok n -> 0 <= n.
Proof.
  revert len. induction pieces as [|p pieces IH]; intros len Hlen; cbn [count_writes]; [split; [done|]; cbn; intros n [= <-]; done|].
  unfold add_len. destruct (checked_add _ _ _) as [next|] eqn:E; [|by split]. apply checked_add_Some in E as [-> _].
  destruct (_ <? _); [by split|]. apply IH. lia.
Qed.

Lemma length_comma_separated texts :
  Z.of_nat (length (comma_separated texts)) = Z.max 0 (Z.of_nat (length texts) - 1) + zsum (map (fun t => Z.of_nat (length t)) texts).
Proof.
  unfold zsum. induction texts as [|t [|u texts] IH]; [done|cbn; lia|]. cbn [comma_separated map foldr] in *. rewrite length_app. cbn [length] in *. lia.
Qed.

(** A sum that overflows exceeds the width. *)
Lemma try_sum_spec len lens ns :
  0 <= len -> Forall (fun n => 0 <= n) ns ->
  Forall2 (fun o n => match o with Some m => m = n | None => u64_MAX < n end) lens ns ->
  match try_sum len lens with Some total => total = len + zsum ns | None => u64_MAX < len + zsum ns end.
Proof.
  intros Hlen Hns Hl. unfold zsum. revert len Hlen. induction Hl as [|o n lens ns Ho Hl IH]; intros len Hlen; cbn [try_sum foldr]; [lia|].
  apply list.Forall_cons in Hns as [Hn Hns]. assert (0 <= foldr Z.add 0 ns) as Hz by (by apply zsum_nonneg).
  destruct o as [m|]; cbn; [subst m|lia]. destruct (checked_add u64_MAX len n) as [l'|] eqn:E; cbn.
  - apply checked_add_Some in E as [-> _]. specialize (IH Hns (len + n) ltac:(lia)). by rewrite Z.add_assoc.
  - apply checked_add_None in E. lia.
Qed.

Lemma ilog10_nonneg fuel n : 0 <= ilog10 fuel n.
Proof. revert n. induction fuel as [|fuel IH]; intros n; cbn; [lia|]. case_match; [lia|]. specialize (IH (n / 10)). lia. Qed.

Lemma try_sum_nonneg lens : forall len n, 0 <= len -> (forall m, Some m ∈ lens -> 0 <= m) -> try_sum len lens = Some n -> 0 <= n.
Proof.
  induction lens as [|o lens IH]; intros len n Hlen Hl; cbn; [intros [= <-]; done|]. destruct o as [m|]; cbn; [|done].
  destruct (checked_add _ _ _) as [l|] eqn:E; cbn; [|done]. apply checked_add_Some in E as [-> _]. apply IH.
  - specialize (Hl m ltac:(left)). lia.
  - intros k Hk. apply Hl. by right.
Qed.

Lemma compact_json_len_nonneg pieces v n : compact_json_len pieces v = Some n -> 0 <= n.
Proof.
  revert n. induction v as [| [] |num|s|items IH|fields IH] using Value_ind'; intros n; cbn [compact_json_len]; try (intros [= <-]; lia).
  - intros [= <-]. destruct num as [m|m|f]; cbn [compact_number_len]; [| |by apply count_writes_nonneg];
      unfold digits, checked_ilog10; case_match; simplify_eq; try case_match; simplify_eq; pose proof (ilog10_nonneg 20 m); pose proof (ilog10_nonneg 20 (Z.abs m)); lia.
  - intros [= <-]. rewrite json_string_len_spec by apply is_bytes_of. lia.
  - apply try_sum_nonneg; [lia|]. intros m (v & Hv & Hin)%list_elem_of_fmap. rewrite list.Forall_forall in IH. by apply (IH v).
  - apply try_sum_nonneg; [lia|]. rewrite list.Forall_forall in IH. intros m Hm. apply list_elem_of_In, in_concat in Hm as (l & Hl & Hm).
    apply in_map_iff in Hl as (kv & <- & Hkv). apply list_elem_of_In in Hkv. destruct Hm as [Hm|[Hm|[]]]; [|by apply (IH kv)].
    injection Hm as <-. rewrite json_string_len_spec by apply is_bytes_of. lia.
Qed.

Lemma measure_json_nonneg pieces v n : measure_json pieces v = Ok n -> 0 <= n.
Proof.
  unfold measure_json, measure_serialize. destruct (compact_json_len pieces v) as [m|] eqn:E; [|by apply count_writes_nonneg].
  apply compact_json_len_nonneg in E. destruct (_ <=? _); [by intros [= <-]|by apply count_writes_nonneg].
Qed.

Section Measure.
Context (pieces : Value -> list (list Z)) (float_text : spec_float -> list Z).
Context `{HW : !CompactWriter pieces float_text}.

Notation size v := (Z.of_nat (length (compact_text float_text v))).

Lemma compact_number_len_spec n : number_ok n = true -> compact_number_len pieces n = Z.of_nat (length (number_text float_text n)).
Proof.
  destruct n as [n|n|f]; cbn [number_ok compact_number_len number_text]; intros Hn.
  - apply digits_spec. lia.
  - cbn [length]. rewrite digits_spec; [lia|]. munfold. lia.
  - pose proof (count_writes_spec (pieces (Num (Float f))) 0 ltac:(unfold MAX_WIRE_BODY_BYTES, MAX_FRAME_BYTES; lia)) as H. cbn zeta in H.
    rewrite (writes_text (Num (Float f))) in H. cbn [compact_text number_text] in H.
    pose proof (float_short f). rewrite Z.add_0_l in H. destruct (Z.leb_spec (Z.of_nat (length (float_text f))) MAX_WIRE_BODY_BYTES); [|lia]. by rewrite H.
Qed.

Lemma size_array items :
  size (Array items) = Z.max 0 (Z.of_nat (length items) - 1) + 2 + zsum (map (fun v => size v) items).
Proof. cbn [compact_text length]. rewrite length_app, Nat2Z.inj_succ, Nat2Z.inj_add, length_comma_separated, map_map, length_map. cbn [length]. lia. Qed.

Lemma zsum_concat_pairs {A} (f g : A -> Z) l : zsum (concat (map (fun x => [f x; g x]) l)) = zsum (map (fun x => f x + g x) l).
Proof. unfold zsum. induction l as [|x l IH]; [done|]. cbn in *. lia. Qed.

Lemma size_object fields :
  size (Object fields) = Z.max 0 (Z.of_nat (length fields) - 1) + 2 +
    zsum (concat (map (fun kv => [Z.of_nat (length (json_quoted (bytes_of kv.1))) + 1; size kv.2]) fields)).
Proof.
  cbn [compact_text length]. rewrite length_app, Nat2Z.inj_succ, Nat2Z.inj_add, length_comma_separated, map_map, length_map, zsum_concat_pairs.
  cbn [length]. rewrite (map_ext (fun kv => Z.of_nat (length (json_quoted (bytes_of kv.1) ++ 58 :: compact_text float_text kv.2)))
    (fun kv => Z.of_nat (length (json_quoted (bytes_of kv.1))) + 1 + size kv.2)); [lia|].
  intros kv. rewrite length_app. cbn [length]. lia.
Qed.

(** The structural count is the length of the text, and overflows only above the width. *)
Lemma compact_json_len_spec v : value_ok v = true ->
  match compact_json_len pieces v with Some n => n = size v | None => u64_MAX < size v end.
Proof.
  induction v as [| [] |n|s|items IH|fields IH] using Value_ind'; intros Hok; [done|done|done| | | |].
  - by apply compact_number_len_spec.
  - cbn [compact_json_len compact_text]. by rewrite json_string_len_spec by apply is_bytes_of.
  - cbn [compact_json_len]. rewrite size_array. apply try_sum_spec; [lia| |].
    + apply list.Forall_forall. intros n (v & -> & _)%list_elem_of_fmap. lia.
    + cbn [value_ok] in Hok. rewrite forallb_forall in Hok. apply Forall2_fmap, Forall_Forall2_diag.
      rewrite list.Forall_forall in IH |- *. intros v Hv. apply IH; [done|]. apply Hok. by apply list_elem_of_In.
  - cbn [compact_json_len]. rewrite size_object. apply try_sum_spec; [lia| |].
    + clear. induction fields as [|kv fields IH]; [constructor|]. cbn. constructor; [lia|]. constructor; [lia|done].
    + cbn [value_ok] in Hok. induction fields as [|kv fields IHf]; [constructor|]. cbn [forallb map concat app] in *.
      apply andb_true_iff in Hok as [Hk Hok]. apply list.Forall_cons in IH as [Hv IH]. constructor; [by rewrite json_string_len_spec by apply is_bytes_of|].
      constructor; [by apply Hv|]. by apply IHf.
Qed.

(** C35: measuring is exact. For every JSON value, the measured length is the length of the text
    serde_json writes, when that fits a wire body; otherwise measuring fails, with an overflow only
    when the length exceeds the machine's width, and never because of the structural count. *)
Theorem measure_json_exact v :
  value_ok v = true ->
  if size v <=? MAX_WIRE_BODY_BYTES then measure_json pieces v = Ok (size v)
  else exists n, measure_json pieces v = Err (BodyTooLarge n MAX_WIRE_BODY_BYTES) /\ MAX_WIRE_BODY_BYTES < n <= size v \/
    measure_json pieces v = Err LengthOverflow /\ u64_MAX < size v.
Proof.
  intros Hok. pose proof (compact_json_len_spec v Hok) as Hc.
  pose proof (count_writes_spec (pieces v) 0 ltac:(unfold MAX_WIRE_BODY_BYTES, MAX_FRAME_BYTES; lia)) as Hs. cbn zeta in Hs.
  rewrite (writes_text v), Z.add_0_l in Hs. unfold measure_json, measure_serialize. destruct (compact_json_len pieces v) as [n|].
  - subst n. destruct (Z.leb_spec (size v) MAX_WIRE_BODY_BYTES); [done|].
    destruct Hs as (m & e & [[-> ?]|[-> ?]]); [exists e; by left|exists 0; by right].
  - destruct (Z.leb_spec (size v) MAX_WIRE_BODY_BYTES); [unfold MAX_WIRE_BODY_BYTES, MAX_FRAME_BYTES in *; munfold; lia|].
    destruct Hs as (m & e & [[-> ?]|[-> ?]]); [exists e; by left|exists 0; by right].
Qed.

End Measure.

(** A writer that writes the text in one piece and prints every double as [0.5]. *)
Definition half (_ : spec_float) : list Z := bytes_of "0.5".
Definition one_piece (v : Value) : list (list Z) := [compact_text half v].

#[global] Instance one_piece_writer : CompactWriter one_piece half.
Proof. split; [intros v; cbn; apply app_nil_r|]. intros f. vm_compute. done. Qed.

Definition sample_value : Value :=
  Object [("path", Str (String (ascii_of 12) "a")); ("lines", Array [Num (PosInt 120); Num (NegInt (-7)); Num (Float (S754_zero false)); Bool false; Null])]%string.

Lemma measure_json_exact_witness : measure_json one_piece sample_value = Ok 46.
Proof.
  pose proof (measure_json_exact one_piece half sample_value eq_refl) as H.
  assert (Z.of_nat (length (compact_text half sample_value)) = 46) as E by (vm_compute; reflexivity). rewrite E in H. exact H.
Defined.

End JsonString.
