(* ===== verification/Recipe.v ===== *)
(** * Recipe: the edit recipe a transform response carries (daemon/src/edit_recipe.rs)

    A recipe rebuilds an output from ranges of two captured sources and literal values. The daemon
    builds it, the client parses it, checks it against its sources and applies it. Shared handles
    are the values they point to; slicing and indexing out of range is the outcome [Panic].
    serde_json's writer and its equality of values are parameters. *)
From S2P Require Import Prelude Pool BTree Swar Doubles CanonicalJson JsonString.
From stdpp Require Import gmap strings.
From Stdlib Require Import SpecFloat.

#[local] Open Scope Z_scope.

Module Recipe.
Import CanonicalJson JsonString.

Definition MAX_REVISION_BYTES : nat := 128.
Definition MAX_RECONSTRUCTED_BYTES : Z := MAX_WIRE_BODY_BYTES.
Definition MAX_CONFIRM_PROBES : nat := 8.
Definition MAX_JSON_NESTING : nat := 127.

Definition Revision := string.

Inductive Source := Input | Previous.

#[global] Instance Source_eq_dec : EqDecision Source.
Proof. solve_decision. Defined.

Inductive Operation {V : Type} := Keep (source : Source) (start count : Z) | Insert (values : list V).
Arguments Operation V : clear implicits.

Record Recipe := mkRecipe {
  base_revision : Revision;
  output_revision : Revision;
  previous_output_revision : option Revision;
  operations : list (Operation Value);
}.

Record SourceBase := mkSourceBase { revision : Revision; base_values : list Value; base_lengths : list Z }.
Record AppliedRecipe := mkApplied { values : list Value; lengths : list Z; bytes : Z }.

Inductive RecipeError :=
| EmptyRevision | RevisionTooLong (bytes : nat)
| WrongBaseRevision | WrongPreviousRevision | MissingPreviousBase | UnusedPreviousRevision
| UnknownOperation (op : string) | UnknownSource (source : string)
| MissingField (field : string) | UnknownField (field : string) | UnsafeInteger (field : string)
| ZeroCount | EmptyInsert
| BackwardRange (source : Source) (index : nat) | OutOfBounds (source : Source) (index : nat)
| Overflow | OutputTooLarge (bytes : Z) | LengthMismatch (source : Source) | Malformed (detail : string).

(** ** Revisions *)
Definition parse_revision (value : string) : result RecipeError Revision :=
  if bool_decide (value = EmptyString) then Err EmptyRevision
  else if (MAX_REVISION_BYTES <? String.length value)%nat then Err (RevisionTooLong (String.length value))
  else Ok value.

(** The allocator of one incarnation: its text and the counter. *)
Record RevisionAllocator := mkAllocator { incarnation : string; next : Z }.

Definition allocate (a : RevisionAllocator) : option Revision * RevisionAllocator :=
  match checked_add u64_MAX (next a) 1 with
  | None => (None, a)
  | Some n =>
      (match parse_revision (incarnation a +:+ "-" +:+ decimal_digits 20 (next a)) with Ok r => Some r | Err _ => None end,
       mkAllocator (incarnation a) n)
  end.

(** ** Parsing *)
Definition MAX_SAFE_AS_F64 : f64 := u64_as_f64 MAX_SAFE_INTEGER.

Definition safe_integer (value : Value) (field : string) : result RecipeError Z :=
  match value with
  | Num (PosInt n) => if n <=? MAX_SAFE_INTEGER then Ok n else Err (UnsafeInteger field)
  | Num n =>
      let v := as_f64 n in
      if f64_fract_is_zero v && SFleb (S754_zero false) v && SFleb v MAX_SAFE_AS_F64 then Ok (f64_as_i64 v)
      else Err (UnsafeInteger field)
  | _ => Err (UnsafeInteger field)
  end.

Definition field_of (map : list (string * Value)) (field : string) : option Value :=
  snd <$> List.find (fun kv => bool_decide (kv.1 = field)) map.

Definition required (map : list (string * Value)) (field : string) : result RecipeError Value :=
  match field_of map field with Some v => Ok v | None => Err (MissingField field) end.

Definition reject_unknown_fields (map : list (string * Value)) (known : list string) : result RecipeError unit :=
  match List.find (fun kv => negb (bool_decide (kv.1 ∈ known))) map with
  | Some kv => Err (UnknownField kv.1)
  | None => Ok tt
  end.

Definition as_str (v : Value) : option string := match v with Str s => Some s | _ => None end.
Definition malformed {A} (o : option A) (detail : string) : result RecipeError A :=
  match o with Some a => Ok a | None => Err (Malformed detail) end.

Definition parse_source (v : Value) : result RecipeError Source :=
  match v with
  | Str s =>
      if bool_decide (s = "input"%string) then Ok Input
      else if bool_decide (s = "previous"%string) then Ok Previous
      else Err (UnknownSource s)
  | _ => Err (Malformed "source is not a string")
  end.

Definition parse_keep (map : list (string * Value)) : result RecipeError (Operation Value) :=
  _ ← reject_unknown_fields map ["op"; "source"; "start"; "count"]%string;
  s ← required map "source"; source ← parse_source s;
  a ← required map "start"; start ← safe_integer a "start";
  b ← required map "count"; count ← safe_integer b "count";
  if count =? 0 then Err ZeroCount else Ok (Keep source start count).

Definition parse_insert (map : list (string * Value)) : result RecipeError (Operation Value) :=
  _ ← reject_unknown_fields map ["op"; "values"]%string;
  v ← required map "values";
  match v with
  | Array [] => Err EmptyInsert
  | Array vs => Ok (Insert vs)
  | _ => Err (Malformed "values is not an array")
  end.

Definition operation_from_json (value : Value) : result RecipeError (Operation Value) :=
  match value with
  | Object map =>
      v ← required map "op";
      op ← malformed (as_str v) "op is not a string";
      if bool_decide (op = "keep"%string) then parse_keep map
      else if bool_decide (op = "insert"%string) then parse_insert map
      else Err (UnknownOperation op)
  | _ => Err (Malformed "operation is not an object")
  end.

(** [ContainerChildren]: the values of an array or object. *)
Definition children (value : Value) : option (list Value) :=
  match value with
  | Array vs => Some vs
  | Object fields => Some (map snd fields)
  | _ => None
  end.

(** The loop of [validate_json_nesting]: the work stack, innermost frame first. *)
Fixpoint nesting_loop (fuel : nat) (work : list (nat * list Value)) (max_pending : nat) : option (result RecipeError nat) :=
  match fuel with
  | O => None
  | S fuel =>
      match work with
      | [] => Some (Ok max_pending)
      | (_, []) :: work => nesting_loop fuel work max_pending
      | (depth, child :: rest) :: work =>
          match children child with
          | None => nesting_loop fuel ((depth, rest) :: work) max_pending
          | Some cs =>
              if (MAX_JSON_NESTING <=? S depth)%nat then Some (Err (Malformed "recipe exceeds the JSON nesting limit"))
              else nesting_loop fuel ((S depth, cs) :: (depth, rest) :: work) (Nat.max max_pending (S (S (length work))))
          end
      end
  end.

(** The number of values, which bounds the loop. *)
Fixpoint value_count (v : Value) : nat :=
  match v with
  | Array vs => S (sum_list (map value_count vs))
  | Object fields => S (sum_list (map (fun kv => value_count kv.2) fields))
  | _ => 1
  end.

Definition validate_json_nesting (value : Value) : option (result RecipeError nat) :=
  match children value with
  | None => Some (Ok 0%nat)
  | Some cs => nesting_loop (2 * value_count value + 1) [(0%nat, cs)] 1
  end.

Definition parse_revision_value (v : Value) (detail : string) : result RecipeError Revision :=
  match v with Str s => parse_revision s | _ => Err (Malformed detail) end.

Fixpoint parse_operations (vs : list Value) : result RecipeError (list (Operation Value)) :=
  match vs with
  | [] => Ok []
  | v :: vs => op ← operation_from_json v; ops ← parse_operations vs; Ok (op :: ops)
  end.

Definition keeps_previous {V} (op : Operation V) : bool := match op with Keep Previous _ _ => true | _ => false end.

(** [None] is the nesting loop out of fuel. *)
Definition recipe_from_json (value : Value) : option (result RecipeError Recipe) :=
  nesting ← validate_json_nesting value;
  Some (
    _ ← nesting;
    match value with
    | Object map =>
        b ← required map "base_revision"; base ← parse_revision_value b "base_revision is not a string";
        o ← required map "output_revision"; output ← parse_revision_value o "output_revision is not a string";
        previous ← match field_of map "previous_output_revision" with
                   | Some p => r ← parse_revision_value p "previous_output_revision is not a string"; Ok (Some r)
                   | None => Ok None
                   end;
        ops ← required map "operations";
        match ops with
        | Array vs =>
            operations ← parse_operations vs;
            let uses_previous := existsb keeps_previous operations in
            match previous with
            | None => if uses_previous then Err MissingPreviousBase else Ok (mkRecipe base output previous operations)
            | Some _ => if negb uses_previous then Err UnusedPreviousRevision else Ok (mkRecipe base output previous operations)
            end
        | _ => Err (Malformed "operations is not an array")
        end
    | _ => Err (Malformed "recipe is not an object")
    end).

(** What [Serialize] derives. *)
Definition source_text (s : Source) : string := match s with Input => "input" | Previous => "previous" end.

Definition operation_to_json (op : Operation Value) : Value :=
  match op with
  | Keep s start count =>
      Object [("op", Str "keep"); ("source", Str (source_text s)); ("start", Num (PosInt start)); ("count", Num (PosInt count))]%string
  | Insert vs => Object [("op", Str "insert"); ("values", Array vs)]%string
  end.

Definition recipe_to_json (r : Recipe) : Value :=
  Object ([("base_revision", Str (base_revision r)); ("output_revision", Str (output_revision r))]%string ++
    match previous_output_revision r with Some p => [("previous_output_revision", Str p)]%string | None => [] end ++
    [("operations"%string, Array (map operation_to_json (operations r)))]).

(** ** Applying *)
Inductive outcome (A : Type) := Done (a : A) | Fail (e : RecipeError) | Panic.
Arguments Done {A} _.
Arguments Fail {A} _.
Arguments Panic {A}.

Definition outcome_bind {A B} (m : outcome A) (f : A -> outcome B) : outcome B :=
  match m with Done a => f a | Fail e => Fail e | Panic => Panic end.

Notation "x <~ m ; k" := (outcome_bind m (fun x => k)) (at level 100, m at next level, right associativity).

Definition lift {A} (r : result RecipeError A) : outcome A := match r with Ok a => Done a | Err e => Fail e end.

(** [l[start..end]] of positions held as [u64]. *)
Definition index_range {A} (l : list A) (start end_ : Z) : outcome (list A) :=
  if (start <=? end_) && (end_ <=? Z.of_nat (length l)) then Done (slice (Z.to_nat start) (Z.to_nat (end_ - start)) l) else Panic.

Definition add_entry (bytes : Z) (entries : nat) (length : Z) : result RecipeError Z :=
  let separator := if (0 <? entries)%nat then 1 else 0 in
  match sum ← checked_add u64_MAX bytes length; checked_add u64_MAX sum separator with
  | None => Err Overflow
  | Some sum => if MAX_RECONSTRUCTED_BYTES <? sum then Err (OutputTooLarge sum) else Ok sum
  end.

(** The first pass of [apply]: cursors of the two sources, entries, bytes, inserted lengths. *)
Record Sizing := mkSizing { cur_input : Z; cur_previous : Z; entries : nat; sized : Z; inserted : list Z }.

Definition cursor (s : Source) (st : Sizing) : Z := match s with Input => cur_input st | Previous => cur_previous st end.

Definition set_cursor (s : Source) (c : Z) (st : Sizing) : Sizing :=
  match s with
  | Input => mkSizing c (cur_previous st) (entries st) (sized st) (inserted st)
  | Previous => mkSizing (cur_input st) c (entries st) (sized st) (inserted st)
  end.

Fixpoint add_lengths (ls : list Z) (st : Sizing) : result RecipeError Sizing :=
  match ls with
  | [] => Ok st
  | l :: ls =>
      b ← add_entry (sized st) (entries st) l;
      add_lengths ls (mkSizing (cur_input st) (cur_previous st) (S (entries st)) b (inserted st))
  end.

Section Apply.
Context (pieces : Value -> list (list Z)).

Definition canonical_len (value : Value) : result RecipeError Z :=
  match measure_json pieces value with
  | Ok n => Ok n
  | Err (BodyTooLarge len _) => Err (OutputTooLarge len)
  | Err LengthOverflow => Err Overflow
  end.

Fixpoint insert_lengths (vs : list Value) (st : Sizing) : result RecipeError Sizing :=
  match vs with
  | [] => Ok st
  | v :: vs =>
      l ← canonical_len v;
      b ← add_entry (sized st) (entries st) l;
      insert_lengths vs (mkSizing (cur_input st) (cur_previous st) (S (entries st)) b (inserted st ++ [l]))
  end.

Section WithBases.
Context (recipe : Recipe) (input : SourceBase) (previous : option SourceBase).

(** The base a keep names in the first pass. *)
Definition checked_base (s : Source) : result RecipeError SourceBase :=
  match s with
  | Input => Ok input
  | Previous =>
      match previous, previous_output_revision recipe with
      | Some base, Some r => if bool_decide (revision base = r) then Ok base else Err WrongPreviousRevision
      | _, _ => Err MissingPreviousBase
      end
  end.

Definition size_keep (index : nat) (s : Source) (start count : Z) (st : Sizing) : outcome Sizing :=
  base <~ lift (checked_base s);
  match checked_add u64_MAX start count with
  | None => Fail Overflow
  | Some end_ =>
      if start <? cursor s st then Fail (BackwardRange s index)
      else if Z.of_nat (length (base_values base)) <? end_ then Fail (OutOfBounds s index)
      else
        ls <~ index_range (base_lengths base) start end_;
        lift (add_lengths ls (set_cursor s end_ st))
  end.

Fixpoint size_loop (index : nat) (ops : list (Operation Value)) (st : Sizing) : outcome Sizing :=
  match ops with
  | [] => Done st
  | Keep s start count :: ops => st <~ size_keep index s start count st; size_loop (S index) ops st
  | Insert vs :: ops => st <~ lift (insert_lengths vs st); size_loop (S index) ops st
  end.

Fixpoint build_loop (ops : list (Operation Value)) (inserted : list Z) (inserted_index : nat) (output : list Value) (lens : list Z)
  : outcome (list Value * list Z) :=
  match ops with
  | [] => Done (output, lens)
  | Keep s start count :: ops =>
      base <~ match s with
              | Input => Done input
              | Previous => match previous with Some b => Done b | None => Fail MissingPreviousBase end
              end;
      match checked_add u64_MAX start count with
      | None => Fail Overflow
      | Some end_ =>
          vs <~ index_range (base_values base) start end_;
          ls <~ index_range (base_lengths base) start end_;
          build_loop ops inserted inserted_index (output ++ vs) (lens ++ ls)
      end
  | Insert vs :: ops =>
      let end_ := (inserted_index + length vs)%nat in
      ls <~ index_range inserted (Z.of_nat inserted_index) (Z.of_nat end_);
      build_loop ops inserted end_ (output ++ vs) (lens ++ ls)
  end.

Definition apply_recipe : outcome AppliedRecipe :=
  if negb (length (base_values input) =? length (base_lengths input))%nat then Fail (LengthMismatch Input)
  else if match previous with Some b => negb (length (base_values b) =? length (base_lengths b))%nat | None => false end
  then Fail (LengthMismatch Previous)
  else if negb (bool_decide (base_revision recipe = revision input)) then Fail WrongBaseRevision
  else
    st <~ size_loop 0 (operations recipe) (mkSizing 0 0 0 2 []);
    if MAX_RECONSTRUCTED_BYTES <? sized st then Fail (OutputTooLarge (sized st))
    else
      out <~ build_loop (operations recipe) (inserted st) 0 [] [];
      Done (mkApplied out.1 out.2 (sized st)).

End WithBases.
End Apply.

(** ** Building *)
Record Keyed (K V : Type) := mkKeyed { key : K; value : V }.
Arguments mkKeyed {K V} _ _.
Arguments key {K V} _.
Arguments value {K V} _.

Section Build.
Context {K V : Type} `{Countable K} (equal : V -> V -> bool).

(** [KeyIndex]: the ascending positions of every key. *)
Fixpoint index_from (position : nat) (entries : list (Keyed K V)) (m : gmap K (list nat)) : gmap K (list nat) :=
  match entries with
  | [] => m
  | e :: entries => index_from (S position) entries (<[key e := default [] (m !! key e) ++ [position]]> m)
  end.

Definition KeyIndex_new (entries : list (Keyed K V)) : gmap K (list nat) := index_from 0 entries ∅.

(** The positions from the first that is not below the cursor. *)
Fixpoint from_cursor (cursor : nat) (positions : list nat) : list nat :=
  match positions with
  | [] => []
  | p :: rest => if (p <? cursor)%nat then from_cursor cursor rest else positions
  end.

(** The probes, with the budget left. *)
Fixpoint probe (entries : list (Keyed K V)) (wanted : Keyed K V) (positions : list nat) (remaining : nat) : option nat * nat :=
  match positions with
  | [] => (None, remaining)
  | p :: rest =>
      let remaining := (remaining - 1)%nat in
      match entries !! p with
      | Some e => if equal (value e) (value wanted) then (Some p, remaining) else probe entries wanted rest remaining
      | None => (None, remaining)
      end
  end.

Definition confirm (index : gmap K (list nat)) (entries : list (Keyed K V)) (cursor : nat) (wanted : Keyed K V) (remaining : nat)
  : option nat * nat :=
  match index !! key wanted with
  | None => (None, remaining)
  | Some positions => probe entries wanted (take remaining (from_cursor cursor positions)) remaining
  end.

Definition push_keep (ops : list (Operation V)) (s : Source) (position : nat) : list (Operation V) :=
  match list.last ops with
  | Some (Keep s' start count) =>
      if bool_decide (s' = s) && (start + count =? Z.of_nat position)
      then take (length ops - 1) ops ++ [Keep s' start (count + 1)]
      else ops ++ [Keep s (Z.of_nat position) 1]
  | _ => ops ++ [Keep s (Z.of_nat position) 1]
  end.

Definition push_value (ops : list (Operation V)) (v : V) : list (Operation V) :=
  match list.last ops with
  | Some (Insert vs) => take (length ops - 1) ops ++ [Insert (vs ++ [v])]
  | _ => ops ++ [Insert [v]]
  end.

Record Built := mkBuilt { next_input : nat; next_previous : nat; built : list (Operation V); used_previous : bool }.

Definition build_step (input : list (Keyed K V)) (previous : option (list (Keyed K V))) (st : Built) (entry : Keyed K V) : Built :=
  let '(previous_hit, remaining) :=
    match previous with
    | Some entries => confirm (KeyIndex_new entries) entries (next_previous st) entry MAX_CONFIRM_PROBES
    | None => (None, MAX_CONFIRM_PROBES)
    end in
  match previous_hit with
  | Some p => mkBuilt (next_input st) (S p) (push_keep (built st) Previous p) true
  | None =>
      match fst (confirm (KeyIndex_new input) input (next_input st) entry remaining) with
      | Some p => mkBuilt (S p) (next_previous st) (push_keep (built st) Input p) (used_previous st)
      | None => mkBuilt (next_input st) (next_previous st) (push_value (built st) (value entry)) (used_previous st)
      end
  end.

Definition build_operations (output input : list (Keyed K V)) (previous : option (list (Keyed K V))) : Built :=
  foldl (build_step input previous) (mkBuilt 0 0 [] false) output.

End Build.

Definition build_recipe {K} `{Countable K} (value_eq : Value -> Value -> bool) (output : list (Keyed K Value))
  (input : Revision * list (Keyed K Value)) (previous : option (Revision * list (Keyed K Value))) (output_revision : Revision) : Recipe :=
  let b := build_operations value_eq output input.2 (snd <$> previous) in
  mkRecipe input.1 output_revision
    (match previous with Some p => if used_previous b then Some p.1 else None | None => None end) (built b).

End Recipe.
