(* ===== verification/RecipeProofs.v ===== *)
(** * RecipeProofs: what a recipe rebuilds (daemon/src/edit_recipe.rs)

    The nesting check, the JSON round trip, the application of an arbitrary recipe, and that a built
    recipe, sent as JSON and applied by the client, gives the output it was built for. *)
From S2P Require Import Prelude Pool BTree Swar Doubles CanonicalJson JsonString Recipe.
From stdpp Require Import gmap strings sorting.
From Stdlib Require Import SpecFloat.

#[local] Open Scope Z_scope.

Module RecipeProofs.
Import CanonicalJson JsonString Recipe.

(** ** Nesting *)
Fixpoint nest (v : Value) : nat :=
  match v with
  | Array vs => S (foldr Nat.max 0%nat (map nest vs))
  | Object fields => S (foldr Nat.max 0%nat (map (fun kv => nest kv.2) fields))
  | _ => 0
  end.

Definition nest_all (vs : list Value) : nat := foldr Nat.max 0%nat (map nest vs).

Fixpoint cost (v : Value) : nat :=
  match v with
  | Array vs => 2 + sum_list (map cost vs)
  | Object fields => 2 + sum_list (map (fun kv => cost kv.2) fields)
  | _ => 1
  end.

Lemma children_nest v cs : children v = Some cs -> nest v = S (nest_all cs) /\ cost v = (2 + sum_list (map cost cs))%nat.
Proof. destruct v; cbn; try done; intros [= <-]; [done|]. unfold nest_all. by rewrite !map_map. Qed.

Lemma children_None v : children v = None -> nest v = 0%nat /\ cost v = 1%nat.
Proof. by destruct v. Qed.

Definition frame_spec (v : Value) : Prop := forall cs depth work fuel pending,
  depth = length work -> (S depth <= pending)%nat -> (S depth <= MAX_JSON_NESTING)%nat ->
  nesting_loop (cost v + fuel) ((depth, v :: cs) :: work) pending =
    if (S depth + nest v <=? MAX_JSON_NESTING)%nat
    then nesting_loop fuel ((depth, cs) :: work) (Nat.max pending (S depth + nest v))
    else Some (Err (Malformed "recipe exceeds the JSON nesting limit")).

Lemma frames_spec vs depth work fuel pending :
  Forall frame_spec vs -> depth = length work -> (S depth <= pending)%nat -> (S depth <= MAX_JSON_NESTING)%nat ->
  nesting_loop (sum_list (map cost vs) + fuel) ((depth, vs) :: work) pending =
    if (S depth + nest_all vs <=? MAX_JSON_NESTING)%nat
    then nesting_loop fuel ((depth, []) :: work) (Nat.max pending (S depth + nest_all vs))
    else Some (Err (Malformed "recipe exceeds the JSON nesting limit")).
Proof.
  intros Hvs Hd. revert fuel pending. induction Hvs as [|v vs Hv Hvs IH]; intros fuel pending Hp Hm; cbn [map sum_list].
  - change (nest_all []) with 0%nat. rewrite Nat.add_0_r. rewrite (proj2 (Nat.leb_le _ _) Hm). f_equal. lia.
  - change (nest_all (v :: vs)) with (Nat.max (nest v) (nest_all vs)). rewrite <- Nat.add_assoc, Hv by done.
    destruct (Nat.leb_spec (S depth + nest v) MAX_JSON_NESTING) as [H1|H1].
    + rewrite IH by lia. destruct (Nat.leb_spec (S depth + nest_all vs) MAX_JSON_NESTING) as [H2|H2];
        destruct (Nat.leb_spec (S depth + Nat.max (nest v) (nest_all vs)) MAX_JSON_NESTING); try lia; [|done]. f_equal. lia.
    + destruct (Nat.leb_spec (S depth + Nat.max (nest v) (nest_all vs)) MAX_JSON_NESTING); [lia|done].
Qed.

Lemma frame_scalar v : children v = None -> frame_spec v.
Proof.
  intros Hc cs depth work fuel pending Hd Hp Hm. destruct (children_None v Hc) as [-> ->]. cbn [Nat.add nesting_loop]. rewrite Hc, Nat.add_0_r.
  rewrite (proj2 (Nat.leb_le _ _) Hm). f_equal. lia.
Qed.

Lemma nesting_push v vs cs depth work fuel pending : children v = Some vs ->
  nesting_loop (S fuel) ((depth, v :: cs) :: work) pending =
    if (MAX_JSON_NESTING <=? S depth)%nat then Some (Err (Malformed "recipe exceeds the JSON nesting limit"))
    else nesting_loop fuel ((S depth, vs) :: (depth, cs) :: work) (Nat.max pending (S (S (length work)))).
Proof. intros Hc. cbn [nesting_loop]. by rewrite Hc. Qed.

Lemma frame_container v vs : children v = Some vs -> Forall frame_spec vs -> frame_spec v.
Proof.
  intros Hc Hvs cs depth work fuel pending Hd Hp Hm. destruct (children_nest v vs Hc) as [-> ->]. cbn [Nat.add].
  rewrite (nesting_push v vs) by done. destruct (Nat.leb_spec MAX_JSON_NESTING (S depth)) as [Hge|Hlt].
  - destruct (Nat.leb_spec (S (depth + S (nest_all vs))) MAX_JSON_NESTING); [lia|done].
  - rewrite <- Nat.add_succ_r, frames_spec by (try done; cbn [length]; lia). cbn [nesting_loop].
    replace (S (S depth) + nest_all vs)%nat with (S (depth + S (nest_all vs))) by lia.
    destruct (Nat.leb_spec (S (depth + S (nest_all vs))) MAX_JSON_NESTING); [|done]. f_equal. lia.
Qed.

Lemma frame_all v : frame_spec v.
Proof.
  induction v as [| | | |vs IH|fields IH] using Value_ind'; try (by apply frame_scalar).
  - by apply (frame_container _ vs).
  - apply (frame_container _ (map snd fields)); [done|]. by apply Forall_fmap.
Qed.

Lemma cost_count v : (cost v <= 2 * value_count v)%nat.
Proof.
  induction v as [| | | |vs IH|fields IH] using Value_ind'; cbn; try lia.
  - induction IH as [|v vs Hv IH IHvs]; cbn; lia.
  - induction IH as [|v vs Hv IH IHvs]; cbn; lia.
Qed.

(** The nesting check is exact and its loop ends: a value is accepted exactly when its arrays and
    objects nest at most 127 deep, and the answer is that depth, the most frames the work stack holds. *)
Theorem validate_json_nesting_spec v :
  validate_json_nesting v =
    Some (if (nest v <=? MAX_JSON_NESTING)%nat then Ok (nest v) else Err (Malformed "recipe exceeds the JSON nesting limit")).
Proof.
  unfold validate_json_nesting. destruct (children v) as [cs|] eqn:E; [|by destruct (children_None v E) as [-> _]].
  destruct (children_nest v cs E) as [Hn Hc]. pose proof (cost_count v) as Hcc.
  replace (2 * value_count v + 1)%nat with (sum_list (map cost cs) + (2 + (2 * value_count v + 1 - 2 - sum_list (map cost cs))))%nat by lia.
  rewrite frames_spec; [|apply list.Forall_forall; intros; apply frame_all|done|lia|unfold MAX_JSON_NESTING; lia].
  rewrite Hn. change (1 + nest_all cs)%nat with (S (nest_all cs)). destruct (_ <=? _)%nat; [|done]. cbn [Nat.add nesting_loop]. do 2 f_equal.
Qed.

(** ** The JSON of a recipe *)
Definition revision_ok (r : Revision) : Prop := r <> EmptyString /\ (String.length r <= MAX_REVISION_BYTES)%nat.

Definition operation_ok {V} (op : Operation V) : Prop :=
  match op with
  | Keep _ start count => 0 <= start <= MAX_SAFE_INTEGER /\ 0 < count <= MAX_SAFE_INTEGER
  | Insert vs => vs <> []
  end.

Record recipe_ok (r : Recipe) : Prop := {
  ok_base : revision_ok (base_revision r);
  ok_output : revision_ok (output_revision r);
  ok_previous : match previous_output_revision r with Some p => revision_ok p | None => True end;
  ok_uses : existsb keeps_previous (operations r) = bool_decide (is_Some (previous_output_revision r));
  ok_operations : Forall operation_ok (operations r);
}.

Lemma parse_revision_ok r : revision_ok r <-> parse_revision r = Ok r.
Proof.
  unfold revision_ok, parse_revision. case_bool_decide; [naive_solver|].
  destruct (Nat.ltb_spec MAX_REVISION_BYTES (String.length r)); [|naive_solver]. split; [lia|done].
Qed.

Lemma safe_integer_ok n field : n <= MAX_SAFE_INTEGER -> safe_integer (Num (PosInt n)) field = Ok n.
Proof. intros Hn. cbn. by rewrite (proj2 (Z.leb_le _ _) Hn). Qed.

Lemma operation_roundtrip op : operation_ok op -> operation_from_json (operation_to_json op) = Ok op.
Proof.
  destruct op as [s start count|vs]; cbn [operation_ok operation_to_json operation_from_json].
  - intros [Hs Hc]. unfold parse_keep.
    match goal with |- context [required ?m "op"] => change (required m "op") with (Ok (E := RecipeError) (Str "keep")) end.
    cbn [mbind result_bind malformed as_str]. change (bool_decide ("keep"%string = "keep"%string)) with true. cbn [mbind result_bind].
    repeat match goal with
    | |- context [reject_unknown_fields ?m ?k] => change (reject_unknown_fields m k) with (Ok (E := RecipeError) tt)
    | |- context [required ?m "source"] => change (required m "source") with (Ok (E := RecipeError) (Str (source_text s)))
    | |- context [required ?m "start"] => change (required m "start") with (Ok (E := RecipeError) (Num (PosInt start)))
    | |- context [required ?m "count"] => change (required m "count") with (Ok (E := RecipeError) (Num (PosInt count)))
    end.
    assert (parse_source (Str (source_text s)) = Ok s) as Hsrc by (by destruct s).
    cbn [mbind result_bind]. rewrite Hsrc. cbn [mbind result_bind]. rewrite safe_integer_ok by lia. cbn [mbind result_bind].
    rewrite safe_integer_ok by lia. cbn [mbind result_bind]. destruct (Z.eqb_spec count 0); [lia|done].
  - intros Hv. destruct vs as [|v vs]; [done|]. reflexivity.
Qed.

Lemma parse_operations_roundtrip ops : Forall operation_ok ops -> parse_operations (map operation_to_json ops) = Ok ops.
Proof.
  induction 1 as [|op ops Hop Hops IH]; [done|]. cbn [map parse_operations]. rewrite operation_roundtrip by done. cbn [mbind result_bind].
  by rewrite IH.
Qed.

(** A valid recipe is read back from its JSON. *)
Lemma recipe_roundtrip r : recipe_ok r -> (nest (recipe_to_json r) <= MAX_JSON_NESTING)%nat -> recipe_from_json (recipe_to_json r) = Some (Ok r).
Proof.
  intros [Hb Ho Hp Hu Hops] Hn. unfold recipe_from_json. rewrite validate_json_nesting_spec. rewrite (proj2 (Nat.leb_le _ _) Hn). cbn [mbind option_bind result_bind].
  destruct r as [b o p ops]. unfold recipe_to_json. cbn [base_revision output_revision previous_output_revision operations] in *.
  apply parse_revision_ok in Hb, Ho. f_equal. destruct p as [p|]; cbn [app];
    repeat match goal with
    | |- context [required ?m "base_revision"] => change (required m "base_revision") with (Ok (E := RecipeError) (Str b))
    | |- context [required ?m "output_revision"] => change (required m "output_revision") with (Ok (E := RecipeError) (Str o))
    | |- context [required ?m "operations"] => change (required m "operations") with (Ok (E := RecipeError) (Array (map operation_to_json ops)))
    end; cbn [mbind result_bind parse_revision_value]; rewrite Hb; cbn [mbind result_bind]; rewrite Ho; cbn [mbind result_bind].
  - match goal with |- context [field_of ?m "previous_output_revision"] => change (field_of m "previous_output_revision") with (Some (Str p)) end.
    cbn [parse_revision_value]. apply parse_revision_ok in Hp. rewrite Hp. cbn [mbind result_bind].
    rewrite parse_operations_roundtrip by done. cbn [mbind result_bind]. by rewrite Hu, bool_decide_true.
  - match goal with |- context [field_of ?m "previous_output_revision"] => change (field_of m "previous_output_revision") with (@None Value) end.
    cbn [mbind result_bind]. rewrite parse_operations_roundtrip by done. cbn [mbind result_bind].
    by rewrite Hu, bool_decide_false by (by intros [? ?]).
Qed.

(** ** Applying a recipe *)
Definition entry_total (ls : list Z) : Z := 2 + zsum ls + Z.max 0 (Z.of_nat (length ls) - 1).

Lemma entry_total_app ls ls' : Forall (fun l => 0 <= l) ls' -> entry_total ls <= entry_total (ls ++ ls').
Proof. intros H%zsum_nonneg. unfold entry_total. rewrite zsum_app, length_app. lia. Qed.

Lemma entry_total_snoc ls l : entry_total (ls ++ [l]) = entry_total ls + l + (if (0 <? length ls)%nat then 1 else 0).
Proof. unfold entry_total. rewrite zsum_app, length_app. unfold zsum at 2. cbn [foldr length]. destruct (Nat.ltb_spec 0 (length ls)); lia. Qed.

(** One entry more is accepted exactly when the array still fits. *)
Lemma add_entry_spec ls l : 0 <= l -> entry_total ls <= MAX_RECONSTRUCTED_BYTES ->
  match add_entry (entry_total ls) (length ls) l with
  | Ok b => b = entry_total (ls ++ [l]) /\ b <= MAX_RECONSTRUCTED_BYTES
  | Err _ => MAX_RECONSTRUCTED_BYTES < entry_total (ls ++ [l])
  end.
Proof.
  intros Hl Ht. rewrite entry_total_snoc. unfold add_entry. cbn zeta.
  assert (MAX_RECONSTRUCTED_BYTES < u64_MAX) by (unfold MAX_RECONSTRUCTED_BYTES, MAX_WIRE_BODY_BYTES, MAX_FRAME_BYTES; munfold; lia).
  destruct (checked_add u64_MAX (entry_total ls) l) as [a|] eqn:E1; cbn [mbind option_bind].
  2:{ apply checked_add_None in E1. case_match; lia. }
  apply checked_add_Some in E1 as [-> _]. destruct (checked_add u64_MAX (entry_total ls + l) _) as [b|] eqn:E2.
  - apply checked_add_Some in E2 as [-> _]. destruct (Z.ltb_spec MAX_RECONSTRUCTED_BYTES (entry_total ls + l + (if (0 <? length ls)%nat then 1 else 0))); [done|]. by split.
  - apply checked_add_None in E2. lia.
Qed.

Section Applying.
Context (pieces : Value -> list (list Z)) (recipe : Recipe) (input : SourceBase) (previous : option SourceBase).

Definition size (v : Value) : Z := match canonical_len pieces v with Ok n => n | Err _ => 0 end.
Definition measurable (v : Value) : Prop := canonical_len pieces v = Ok (size v).

Definition source_values (s : Source) : list Value := match s with Input => base_values input | Previous => default [] (base_values <$> previous) end.
Definition source_lengths (s : Source) : list Z := match s with Input => base_lengths input | Previous => default [] (base_lengths <$> previous) end.

Definition op_values (op : Operation Value) : list Value :=
  match op with Keep s start count => slice (Z.to_nat start) (Z.to_nat count) (source_values s) | Insert vs => vs end.
Definition op_lengths (op : Operation Value) : list Z :=
  match op with Keep s start count => slice (Z.to_nat start) (Z.to_nat count) (source_lengths s) | Insert vs => map size vs end.
Definition op_inserted (op : Operation Value) : list Z := match op with Keep _ _ _ => [] | Insert vs => map size vs end.
Definition op_measurable (op : Operation Value) : Prop := match op with Keep _ _ _ => True | Insert vs => Forall measurable vs end.

(** Ranges lie in their source and never move back; a keep from the previous output names it. *)
Fixpoint ops_valid (ci cp : Z) (ops : list (Operation Value)) : Prop :=
  match ops with
  | [] => True
  | Keep Input start count :: ops =>
      ci <= start /\ start + count <= Z.of_nat (length (base_values input)) /\ ops_valid (start + count) cp ops
  | Keep Previous start count :: ops =>
      (exists base, previous = Some base /\ previous_output_revision recipe = Some (revision base)) /\
      cp <= start /\ start + count <= Z.of_nat (length (source_values Previous)) /\ ops_valid ci (start + count) ops
  | Insert _ :: ops => ops_valid ci cp ops
  end.

(** What the types of the code give: lengths and positions are machine integers. *)
Definition base_fits (b : SourceBase) : Prop :=
  length (base_values b) = length (base_lengths b) /\ Z.of_nat (length (base_values b)) <= u64_MAX /\ Forall (fun l => 0 <= l) (base_lengths b).
Definition op_fits (op : Operation Value) : Prop := match op with Keep _ start count => 0 <= start /\ 0 <= count | Insert _ => True end.

Context (Hinput : base_fits input) (Hprevious : match previous with Some b => base_fits b | None => True end).

Lemma size_nonneg v : 0 <= size v.
Proof.
  unfold size, canonical_len. destruct (measure_json pieces v) as [n|[]] eqn:E; [|lia|lia]. by apply measure_json_nonneg in E.
Qed.

Lemma sizes_nonneg vs : Forall (fun l => 0 <= l) (map size vs).
Proof. apply list.Forall_forall. intros l (v & -> & _)%list_elem_of_fmap. apply size_nonneg. Qed.

Lemma source_lengths_nonneg s o n : Forall (fun l => 0 <= l) (slice o n (source_lengths s)).
Proof.
  unfold slice. apply Forall_take, Forall_drop. destruct s; cbn [source_lengths]; [by destruct Hinput as (_ & _ & ?)|].
  destruct previous as [b|]; cbn; [by destruct Hprevious as (_ & _ & ?)|constructor].
Qed.

Lemma op_lengths_nonneg op : Forall (fun l => 0 <= l) (op_lengths op).
Proof. destruct op; [apply source_lengths_nonneg|apply sizes_nonneg]. Qed.

Lemma all_lengths_nonneg ops : Forall (fun l => 0 <= l) (concat (map op_lengths ops)).
Proof. induction ops as [|op ops IH]; [constructor|]. cbn. apply Forall_app. split; [apply op_lengths_nonneg|done]. Qed.

(** The sizing state after the entries [ls] with [ins] inserted. *)
Definition sizing (ci cp : Z) (ls ins : list Z) : Sizing := mkSizing ci cp (length ls) (entry_total ls) ins.

Lemma add_lengths_spec new ci cp ls ins : Forall (fun l => 0 <= l) new -> entry_total ls <= MAX_RECONSTRUCTED_BYTES ->
  match add_lengths new (sizing ci cp ls ins) with
  | Ok st => st = sizing ci cp (ls ++ new) ins /\ entry_total (ls ++ new) <= MAX_RECONSTRUCTED_BYTES
  | Err _ => MAX_RECONSTRUCTED_BYTES < entry_total (ls ++ new)
  end.
Proof.
  intros Hnew. revert ls. induction Hnew as [|l new Hl Hnew IH]; intros ls Ht; [by rewrite app_nil_r|]. cbn [add_lengths]. cbn [sizing sized entries].
  pose proof (add_entry_spec ls l Hl Ht) as Ha. cbn [sizing] in *. destruct (add_entry _ _ _) as [b|e]; cbn [mbind result_bind].
  - destruct Ha as [-> Hb]. specialize (IH (ls ++ [l]) Hb). rewrite <- app_assoc in IH. cbn [app] in IH.
    replace (S (length ls)) with (length (ls ++ [l])) by (rewrite length_app; cbn; lia). exact IH.
  - eapply Z.lt_le_trans; [exact Ha|]. replace (ls ++ l :: new) with ((ls ++ [l]) ++ new) by (by rewrite <- app_assoc). by apply entry_total_app.
Qed.

Lemma insert_lengths_spec vs ci cp ls ins : entry_total ls <= MAX_RECONSTRUCTED_BYTES ->
  match insert_lengths pieces vs (sizing ci cp ls ins) with
  | Ok st => st = sizing ci cp (ls ++ map size vs) (ins ++ map size vs) /\ Forall measurable vs /\
      entry_total (ls ++ map size vs) <= MAX_RECONSTRUCTED_BYTES
  | Err _ => Forall measurable vs -> MAX_RECONSTRUCTED_BYTES < entry_total (ls ++ map size vs)
  end.
Proof.
  revert ls ins. induction vs as [|v vs IH]; intros ls ins Ht; [cbn; by rewrite !app_nil_r|]. cbn [insert_lengths].
  destruct (canonical_len pieces v) as [n|e] eqn:E; cbn [mbind result_bind].
  2:{ intros [Hm _]%list.Forall_cons. unfold measurable in Hm. congruence. }
  assert (size v = n) as Hn by (unfold size; by rewrite E). assert (measurable v) as Hm by (unfold measurable; by rewrite Hn). subst n.
  pose proof (add_entry_spec ls (size v) (size_nonneg v) Ht) as Ha. cbn [sizing sized entries].
  destruct (add_entry _ _ _) as [b|e]; cbn [mbind result_bind].
  - destruct Ha as [-> Hb]. specialize (IH (ls ++ [size v]) (ins ++ [size v]) Hb). cbn [map].
    replace (S (length ls)) with (length (ls ++ [size v])) by (rewrite length_app; cbn; lia). unfold sizing in IH.
    rewrite <- !app_assoc in IH. cbn [app] in IH. destruct (insert_lengths _ _ _); [|by intros [_ ?]%list.Forall_cons; apply IH].
    destruct IH as (-> & Hvs & Hle). split; [done|]. split; [by constructor|done].
  - intros _. eapply Z.lt_le_trans; [exact Ha|]. cbn [map].
    replace (ls ++ size v :: map size vs) with ((ls ++ [size v]) ++ map size vs) by (by rewrite <- app_assoc). apply entry_total_app, sizes_nonneg.
Qed.

Definition cur (s : Source) (ci cp : Z) : Z := match s with Input => ci | Previous => cp end.
Definition advance (s : Source) (c ci cp : Z) : Z * Z := match s with Input => (c, cp) | Previous => (ci, c) end.

Definition keep_valid (s : Source) (start count ci cp : Z) : Prop :=
  (s = Previous -> exists base, previous = Some base /\ previous_output_revision recipe = Some (revision base)) /\
  cur s ci cp <= start /\ start + count <= Z.of_nat (length (source_values s)).

Lemma ops_valid_keep s start count ci cp ops :
  ops_valid ci cp (Keep s start count :: ops) <->
  keep_valid s start count ci cp /\ ops_valid (advance s (start + count) ci cp).1 (advance s (start + count) ci cp).2 ops.
Proof. unfold keep_valid. destruct s; cbn [ops_valid cur advance source_values fst snd]; [intuition congruence|]. tauto. Qed.

(** The base the first pass finds is the source, when there is one. *)
Lemma checked_base_spec s :
  match checked_base recipe input previous s with
  | Ok base => base_values base = source_values s /\ base_lengths base = source_lengths s /\ base_fits base /\
      (s = Previous -> exists base, previous = Some base /\ previous_output_revision recipe = Some (revision base))
  | Err _ => ~ (s = Previous -> exists base, previous = Some base /\ previous_output_revision recipe = Some (revision base))
  end.
Proof.
  destruct s; cbn [checked_base source_values source_lengths]; [by split_and!|].
  destruct previous as [b|], (previous_output_revision recipe) as [r|]; try (intros H; destruct (H eq_refl) as (? & ? & ?); congruence).
  case_bool_decide as E; cbn; [split_and!; try done; intros _; exists b; by subst r|].
  intros H. destruct (H eq_refl) as (? & [= <-] & [= ->]). done.
Qed.

Lemma size_keep_spec index s start count ci cp ls ins :
  0 <= start -> 0 <= count -> entry_total ls <= MAX_RECONSTRUCTED_BYTES ->
  let new := op_lengths (Keep s start count) in
  match size_keep recipe input previous index s start count (sizing ci cp ls ins) with
  | Done st => keep_valid s start count ci cp /\
      st = sizing (advance s (start + count) ci cp).1 (advance s (start + count) ci cp).2 (ls ++ new) ins /\
      entry_total (ls ++ new) <= MAX_RECONSTRUCTED_BYTES
  | Fail _ => keep_valid s start count ci cp -> MAX_RECONSTRUCTED_BYTES < entry_total (ls ++ new)
  | Panic => False
  end.
Proof.
  intros Hs Hc Ht new. unfold size_keep, keep_valid. pose proof (checked_base_spec s) as Hb.
  destruct (checked_base recipe input previous s) as [base|e]; cbn [lift outcome_bind]; [|tauto]. destruct Hb as (Hv & Hl & (Hlen & Hfit & _) & Hrev).
  destruct (checked_add u64_MAX start count) as [end_|] eqn:E.
  2:{ apply checked_add_None in E. rewrite <- Hv. intros (_ & _ & ?). lia. }
  apply checked_add_Some in E as [-> _]. assert (cursor s (sizing ci cp ls ins) = cur s ci cp) as -> by (by destruct s).
  destruct (Z.ltb_spec start (cur s ci cp)); [lia|]. rewrite <- Hv. destruct (Z.ltb_spec (Z.of_nat (length (base_values base))) (start + count)); [lia|].
  unfold index_range. rewrite <- Hlen. destruct (Z.leb_spec start (start + count)); [|lia].
  destruct (Z.leb_spec (start + count) (Z.of_nat (length (base_values base)))); [|lia]. cbn [andb outcome_bind].
  replace (start + count - start) with count by lia. rewrite Hl.
  assert (set_cursor s (start + count) (sizing ci cp ls ins) =
    sizing (advance s (start + count) ci cp).1 (advance s (start + count) ci cp).2 ls ins) as -> by (by destruct s).
  pose proof (add_lengths_spec new (advance s (start + count) ci cp).1 (advance s (start + count) ci cp).2 ls ins (op_lengths_nonneg _) Ht) as Ha.
  unfold new, op_lengths in *. destruct (add_lengths _ _); cbn [lift]; [|done]. destruct Ha as [-> Ha]. split; [done|]. by split.
Qed.

Lemma size_loop_spec ops : forall index ci cp ls ins, Forall op_fits ops -> entry_total ls <= MAX_RECONSTRUCTED_BYTES ->
  let new := concat (map op_lengths ops) in
  match size_loop pieces recipe input previous index ops (sizing ci cp ls ins) with
  | Done st => ops_valid ci cp ops /\ Forall op_measurable ops /\ entry_total (ls ++ new) <= MAX_RECONSTRUCTED_BYTES /\
      sized st = entry_total (ls ++ new) /\ inserted st = ins ++ concat (map op_inserted ops)
  | Fail _ => ~ (ops_valid ci cp ops /\ Forall op_measurable ops /\ entry_total (ls ++ new) <= MAX_RECONSTRUCTED_BYTES)
  | Panic => False
  end.
Proof.
  induction ops as [|op ops IH]; intros index ci cp ls ins Hf Ht; cbn zeta.
  { cbn. rewrite !app_nil_r. by split_and!. }
  apply list.Forall_cons in Hf as [Hop Hf]. cbn [size_loop map concat]. rewrite (app_assoc ls).
  pose proof (all_lengths_nonneg ops) as Hall. destruct op as [s start count|vs].
  - destruct Hop as [Hs Hc]. pose proof (size_keep_spec index s start count ci cp ls ins Hs Hc Ht) as Hk. cbn zeta in Hk.
    destruct (size_keep _ _ _ _ _ _ _ _) as [st|e|]; cbn [outcome_bind]; [| |done].
    + destruct Hk as (Hkv & -> & Hle). specialize (IH (S index) (advance s (start + count) ci cp).1 (advance s (start + count) ci cp).2 (ls ++ op_lengths (Keep s start count)) ins Hf Hle). cbn zeta in IH.
      destruct (size_loop _ _ _ _ _ _ _); [| |done].
      * destruct IH as (Hv & Hm & Hb & Hsz & Hi). split; [by apply ops_valid_keep|]. split; [by constructor|]. done.
      * intros (Hv & Hm & Hb). apply ops_valid_keep in Hv as [_ Hv]. apply list.Forall_cons in Hm as [_ Hm]. tauto.
    + intros (Hv & _ & Hb). apply ops_valid_keep in Hv as [Hv _]. specialize (Hk Hv).
      pose proof (entry_total_app (ls ++ op_lengths (Keep s start count)) _ Hall). lia.
  - pose proof (insert_lengths_spec vs ci cp ls ins Ht) as Hk. cbn [op_lengths op_inserted].
    destruct (insert_lengths _ _ _) as [st|e]; cbn [lift outcome_bind].
    + destruct Hk as (-> & Hm & Hle). specialize (IH (S index) ci cp (ls ++ map size vs) (ins ++ map size vs) Hf Hle). cbn zeta in IH.
      destruct (size_loop _ _ _ _ _ _ _); [| |done].
      * destruct IH as (Hv & Hms & Hb & Hsz & Hi). split_and!; [done|by constructor|done|done|]. by rewrite Hi, <- (app_assoc ins).
      * intros (Hv & Hms & Hb). apply list.Forall_cons in Hms as [_ Hms]. tauto.
    + intros (_ & Hm & Hb). apply list.Forall_cons in Hm as [Hm _]. specialize (Hk Hm).
      pose proof (entry_total_app (ls ++ map size vs) _ Hall). lia.
Qed.

(** The second pass, on operations the first accepted. *)
Lemma build_loop_spec ops : forall ci cp pre out lens,
  ops_valid ci cp ops -> Forall op_fits ops ->
  build_loop input previous ops (pre ++ concat (map op_inserted ops)) (length pre) out lens =
    Done (out ++ concat (map op_values ops), lens ++ concat (map op_lengths ops)).
Proof.
  induction ops as [|op ops IH]; intros ci cp pre out lens Hv Hf; [cbn; by rewrite !app_nil_r|].
  apply list.Forall_cons in Hf as [Hop Hf]. cbn [map concat]. rewrite !(app_assoc out), !(app_assoc lens). destruct op as [s start count|vs].
  - apply ops_valid_keep in Hv as [(Hrev & _ & Hle) Hv]. destruct Hop as [Hs Hc]. cbn [build_loop op_inserted app op_values op_lengths].
    assert (exists base, match s with Input => Done input | Previous => match previous with Some b => Done b | None => Fail MissingPreviousBase end end = Done base /\
      base_values base = source_values s /\ base_lengths base = source_lengths s /\ base_fits base) as (base & -> & Hbv & Hbl & Hlen & Hfit & _).
    { destruct s; [by exists input|]. destruct (Hrev eq_refl) as (b & Hb & _). cbn [source_values source_lengths]. rewrite Hb in *. by exists b. }
    cbn [outcome_bind]. rewrite <- Hbv in Hle. rewrite checked_add_ok by lia. unfold index_range. rewrite <- Hlen.
    destruct (Z.leb_spec start (start + count)); [|lia].
    destruct (Z.leb_spec (start + count) (Z.of_nat (length (base_values base)))); [|lia]. cbn [andb outcome_bind].
    replace (start + count - start) with count by lia. rewrite Hbv, Hbl. eapply IH; [exact Hv|done].
  - cbn [build_loop op_inserted op_values op_lengths ops_valid] in *. unfold index_range.
    rewrite !length_app, length_map. destruct (Z.leb_spec (Z.of_nat (length pre)) (Z.of_nat (length pre + length vs))); [|lia].
    destruct (Z.leb_spec (Z.of_nat (length pre + length vs)) (Z.of_nat (length pre + (length vs + length (concat (map op_inserted ops)))))); [|lia].
    cbn [andb outcome_bind].
    replace (slice (Z.to_nat (Z.of_nat (length pre))) (Z.to_nat (Z.of_nat (length pre + length vs) - Z.of_nat (length pre)))
      (pre ++ map size vs ++ concat (map op_inserted ops))) with (map size vs).
    + rewrite (app_assoc pre). replace (length pre + length vs)%nat with (length (pre ++ map size vs)) by (by rewrite length_app, length_map).
      by eapply IH.
    + unfold slice. rewrite Nat2Z.id, drop_app_length. replace (Z.to_nat _) with (length (map size vs)) by (rewrite length_map; lia).
      by rewrite take_app_length.
Qed.

End Applying.

Section Exact.
Context (pieces : Value -> list (list Z)) (recipe : Recipe) (input : SourceBase) (previous : option SourceBase).

(** Lengths are machine integers. *)
Definition base_sized (b : SourceBase) : Prop := Z.of_nat (length (base_values b)) <= u64_MAX /\ Forall (fun l => 0 <= l) (base_lengths b).
Definition lengths_match (b : SourceBase) : Prop := length (base_values b) = length (base_lengths b).

(** When a recipe applies. *)
Record applicable : Prop := {
  ap_input : lengths_match input;
  ap_previous : match previous with Some b => lengths_match b | None => True end;
  ap_revision : base_revision recipe = revision input;
  ap_ranges : ops_valid recipe input previous 0 0 (operations recipe);
  ap_measured : Forall (op_measurable pieces) (operations recipe);
  ap_fits : entry_total (concat (map (op_lengths pieces input previous) (operations recipe))) <= MAX_RECONSTRUCTED_BYTES;
}.

Definition rebuilt : AppliedRecipe :=
  let ls := concat (map (op_lengths pieces input previous) (operations recipe)) in
  mkApplied (concat (map (op_values input previous) (operations recipe))) ls (entry_total ls).

Lemma apply_recipe_spec :
  base_sized input -> match previous with Some b => base_sized b | None => True end -> Forall op_fits (operations recipe) ->
  match apply_recipe pieces recipe input previous with
  | Done a => applicable /\ a = rebuilt
  | Fail _ => ~ applicable
  | Panic => False
  end.
Proof.
  intros [Hi1 Hi2] Hp Hops. unfold apply_recipe.
  destruct (Nat.eqb_spec (length (base_values input)) (length (base_lengths input))) as [Ei|Ei]; cbn [negb]; [|by intros [? _ _ _ _ _]].
  destruct (match previous with Some b => negb (length (base_values b) =? length (base_lengths b))%nat | None => false end) eqn:Ep.
  { intros [_ Hm _ _ _ _]. destruct previous as [b|]; [|done]. apply negb_true_iff, Nat.eqb_neq in Ep. done. }
  assert (match previous with Some b => base_fits b | None => True end) as Hpf.
  { destruct previous as [b|]; [|done]. apply negb_false_iff, Nat.eqb_eq in Ep. by destruct Hp. }
  case_bool_decide as Er; cbn [negb]; [|by intros [_ _ ? _ _ _]].
  assert (base_fits input) as Hif by done. assert (entry_total [] <= MAX_RECONSTRUCTED_BYTES) as H0 by (by vm_compute).
  pose proof (size_loop_spec pieces recipe input previous Hif Hpf (operations recipe) 0 0 0 [] [] Hops H0) as Hs. cbn zeta in Hs. cbn [app] in Hs.
  change (sizing 0 0 [] []) with (mkSizing 0 0 0 2 []) in Hs. destruct (size_loop _ _ _ _ _ _ _) as [st|e|]; cbn [outcome_bind]; [| |done].
  - destruct Hs as (Hv & Hm & Hle & Hsz & Hins). rewrite Hsz. destruct (Z.ltb_spec MAX_RECONSTRUCTED_BYTES (entry_total (concat (map (op_lengths pieces input previous) (operations recipe)))));
      [lia|]. rewrite Hins. pose proof (build_loop_spec pieces recipe input previous Hif Hpf (operations recipe) 0 0 [] [] [] Hv Hops) as Hb.
    cbn [app length] in Hb. rewrite Hb. cbn [outcome_bind fst snd].
    split; [|done]. split; try done. unfold lengths_match. destruct previous as [b|]; [by destruct Hpf|done].
  - intros [_ _ _ Hv Hm Hle]. by apply Hs.
Qed.

(** C25: applying a recipe is exact, whoever sent it. It never indexes out of range. It succeeds
    exactly when both captured sources have one length per value, the recipe names the input, every
    range lies in a source that it names and begins at or after the end of the previous range of that
    source, every inserted value can be measured and the array fits; the result is then the ranges
    and values in order, their lengths and the size of the array with brackets and commas. *)
Theorem apply_exact :
  base_sized input -> match previous with Some b => base_sized b | None => True end -> Forall op_fits (operations recipe) ->
  match apply_recipe pieces recipe input previous with
  | Done a => applicable /\ a = rebuilt
  | Fail _ => ~ applicable
  | Panic => False
  end.
Proof. apply apply_recipe_spec. Qed.

End Exact.

(** ** Building a recipe *)
Section Building.
Context {K V : Type} `{Countable K} (equal : V -> V -> bool).

Definition positions_ok (bound : nat) (m : gmap K (list nat)) : Prop :=
  forall k ps, m !! k = Some ps -> StronglySorted lt ps /\ Forall (fun p => (p < bound)%nat) ps.

Lemma index_from_ok (entries : list (Keyed K V)) : forall position m,
  positions_ok position m -> positions_ok (position + length entries) (index_from position entries m).
Proof.
  induction entries as [|e entries IH]; intros position m Hm; [by rewrite Nat.add_0_r|]. cbn [index_from length]. rewrite <- Nat.add_succ_comm.
  apply IH. intros k ps. rewrite lookup_insert_Some. intros [[<- <-]|[_ Hk]].
  - assert (StronglySorted lt (default [] (m !! key e)) /\ Forall (fun p => (p < position)%nat) (default [] (m !! key e))) as [Hs Hf].
    { destruct (m !! key e) as [ps|] eqn:E; [by apply Hm in E|]. cbn. split; constructor. }
    split.
    + apply StronglySorted_app. split_and!; [|done|by repeat constructor]. intros x y Hx ->%list_elem_of_singleton.
      rewrite list.Forall_forall in Hf. by apply Hf.
    + apply Forall_app. split; [|by repeat constructor; lia]. eapply Forall_impl; [exact Hf|]. cbn. lia.
  - apply Hm in Hk as [Hs Hf]. split; [done|]. eapply Forall_impl; [exact Hf|]. cbn. lia.
Qed.

Lemma KeyIndex_ok (entries : list (Keyed K V)) : positions_ok (length entries) (KeyIndex_new entries).
Proof. apply (index_from_ok entries 0). intros k ps. by rewrite lookup_empty. Qed.

Lemma from_cursor_spec c ps : StronglySorted lt ps -> forall p, p ∈ from_cursor c ps -> (c <= p)%nat /\ p ∈ ps.
Proof.
  induction 1 as [|q ps Hs IH Hall]; intros p; cbn [from_cursor]; [by intros ?%not_elem_of_nil|].
  destruct (Nat.ltb_spec q c).
  - intros Hp. destruct (IH p Hp). split; [done|by right].
  - intros Hp. split; [|done]. apply elem_of_cons in Hp as [->|Hp]; [done|]. rewrite list.Forall_forall in Hall. specialize (Hall p Hp). lia.
Qed.

Lemma probe_spec (entries : list (Keyed K V)) wanted ps : forall remaining p,
  fst (probe equal entries wanted ps remaining) = Some p ->
  p ∈ ps /\ exists e, entries !! p = Some e /\ equal (value e) (value wanted) = true.
Proof.
  induction ps as [|q ps IH]; intros remaining p; cbn [probe]; [done|]. destruct (entries !! q) as [e|] eqn:E; [|done].
  destruct (equal (value e) (value wanted)) eqn:Eq.
  - intros [= <-]. split; [left|]. by exists e.
  - intros Hp. apply IH in Hp as [? ?]. split; [by right|done].
Qed.

(** A confirmed position lies at or after the cursor and holds an equal value. *)
Lemma confirm_spec (entries : list (Keyed K V)) c wanted remaining p :
  fst (confirm equal (KeyIndex_new entries) entries c wanted remaining) = Some p ->
  (c <= p)%nat /\ exists e, entries !! p = Some e /\ equal (value e) (value wanted) = true.
Proof.
  unfold confirm. destruct (KeyIndex_new entries !! key wanted) as [ps|] eqn:E; [|done]. apply KeyIndex_ok in E as [Hs _].
  intros [Hin He]%probe_spec. split; [|done]. apply (from_cursor_spec c ps Hs). rewrite <- (take_drop remaining). apply elem_of_app. by left.
Qed.

(** At most the budget is spent, and every position probed is in range. *)
Lemma confirm_budget (entries : list (Keyed K V)) c wanted remaining :
  (snd (confirm equal (KeyIndex_new entries) entries c wanted remaining) <= remaining)%nat /\
  forall ps p, KeyIndex_new entries !! key wanted = Some ps -> p ∈ ps -> (p < length entries)%nat.
Proof.
  split.
  - unfold confirm. case_match; [|done]. generalize (take remaining (from_cursor c l)) as ps. intros ps. revert remaining.
    induction ps as [|q ps IH]; intros remaining; cbn [probe]; [done|]. case_match; [|cbn; lia]. case_match; [cbn; lia|]. specialize (IH (remaining - 1)%nat). lia.
  - intros ps p [_ Hf]%KeyIndex_ok Hp. rewrite list.Forall_forall in Hf. by apply Hf.
Qed.

(** *** Operations as a walk over the sources *)
Section Walk.
Context (inp prev : list V).

Definition src (s : Source) : list V := match s with Input => inp | Previous => prev end.

Definition walk_step (c : Z * Z) (op : Operation V) : option (Z * Z) :=
  match op with
  | Keep s start count =>
      if (cur s c.1 c.2 <=? start) && (0 <? count) && (start + count <=? Z.of_nat (length (src s)))
      then Some (advance s (start + count) c.1 c.2) else None
  | Insert vs => match vs with [] => None | _ => Some c end
  end.

Fixpoint walk (c : Z * Z) (ops : list (Operation V)) : option (Z * Z) :=
  match ops with [] => Some c | op :: ops => c ← walk_step c op; walk c ops end.

Definition yields (op : Operation V) : list V :=
  match op with Keep s start count => slice (Z.to_nat start) (Z.to_nat count) (src s) | Insert vs => vs end.

Lemma walk_app c ops ops' : walk c (ops ++ ops') = c ← walk c ops; walk c ops'.
Proof. revert c. induction ops as [|op ops IH]; intros c; [done|]. cbn. destruct (walk_step c op); cbn; [apply IH|done]. Qed.

Lemma walk_nonneg ops : forall c c', walk c ops = Some c' -> 0 <= c.1 -> 0 <= c.2 -> 0 <= c'.1 /\ 0 <= c'.2.
Proof.
  induction ops as [|op ops IH]; intros c c'; [by intros [= ->]|]. cbn. destruct (walk_step c op) as [d|] eqn:E; cbn; [|done].
  intros Hw H1 H2. apply (IH d c' Hw); destruct op as [[] start count|[]]; cbn in E; simplify_eq; try done; case_match; simplify_eq; cbn; lia.
Qed.

Lemma slice_snoc (l : list V) (o n : nat) v : l !! (o + n)%nat = Some v -> slice o (n + 1) l = slice o n l ++ [v].
Proof.
  intros Hv. rewrite slice_app. f_equal. unfold slice. by rewrite (drop_S _ _ _ Hv).
Qed.

Lemma push_keep_spec ops c s p v :
  walk (0, 0) ops = Some c -> cur s c.1 c.2 <= Z.of_nat p -> src s !! p = Some v ->
  walk (0, 0) (push_keep ops s p) = Some (advance s (Z.of_nat p + 1) c.1 c.2) /\
  concat (map yields (push_keep ops s p)) = concat (map yields ops) ++ [v] /\
  existsb keeps_previous (push_keep ops s p) = existsb keeps_previous ops || bool_decide (s = Previous).
Proof.
  intros Hw Hc Hv. pose proof (lookup_lt_Some _ _ _ Hv) as Hlt. unfold push_keep.
  assert (walk (0, 0) (ops ++ [Keep s (Z.of_nat p) 1]) = Some (advance s (Z.of_nat p + 1) c.1 c.2) /\
    concat (map yields (ops ++ [Keep s (Z.of_nat p) 1])) = concat (map yields ops) ++ [v] /\
    existsb keeps_previous (ops ++ [Keep s (Z.of_nat p) 1]) = existsb keeps_previous ops || bool_decide (s = Previous)) as Hnew.
  { rewrite walk_app, Hw, map_app, concat_app, existsb_app. cbn [mbind option_bind walk walk_step map concat yields existsb].
    destruct (Z.leb_spec (cur s c.1 c.2) (Z.of_nat p)); [|lia]. destruct (Z.leb_spec (Z.of_nat p + 1) (Z.of_nat (length (src s)))); [|lia].
    split; [done|]. split; [|f_equal; by destruct s]. f_equal. rewrite app_nil_r, Nat2Z.id. apply (slice_snoc (src s) p 0). by rewrite Nat.add_0_r. }
  destruct (list.last ops) as [[s' start count|vs]|] eqn:El; [|done|done]. destruct (bool_decide (s' = s) && (start + count =? Z.of_nat p)) eqn:E; [|done].
  apply andb_true_iff in E as [->%bool_decide_eq_true E%Z.eqb_eq]. apply last_Some in El as [init ->]. clear Hnew.
  rewrite length_app. cbn [length]. rewrite Nat.add_sub, take_app_length. rewrite walk_app in Hw |- *. destruct (walk (0, 0) init) as [d|] eqn:Ed; [|done].
  cbn [mbind option_bind walk walk_step] in *. apply walk_nonneg in Ed as [Hd1 Hd2]; [|done..].
  destruct ((cur s d.1 d.2 <=? start) && (0 <? count) && (start + count <=? Z.of_nat (length (src s)))) eqn:Ec; [|done]. cbn in Hw. simplify_eq.
  apply andb_true_iff in Ec as [[E1 E2]%andb_true_iff E3]. assert (0 <= start) by (destruct s; cbn [cur] in *; lia).
  rewrite E1. destruct (Z.ltb_spec 0 (count + 1)); [|lia]. destruct (Z.leb_spec (start + (count + 1)) (Z.of_nat (length (src s)))); [|lia].
  rewrite !map_app, !concat_app, !existsb_app. cbn [mbind option_bind map concat yields existsb andb]. split.
  - rewrite Z.add_assoc, E. destruct s; done.
  - split; [|destruct s; cbn; rewrite ?orb_false_r, ?orb_true_r; done].
    rewrite !app_nil_r, <- app_assoc. f_equal. replace (Z.to_nat (count + 1)) with (Z.to_nat count + 1)%nat by lia. apply slice_snoc.
    by replace (Z.to_nat start + Z.to_nat count)%nat with p by lia.
Qed.

Lemma push_value_spec ops c v :
  walk (0, 0) ops = Some c ->
  walk (0, 0) (push_value ops v) = Some c /\ concat (map yields (push_value ops v)) = concat (map yields ops) ++ [v] /\
  existsb keeps_previous (push_value ops v) = existsb keeps_previous ops.
Proof.
  intros Hw. unfold push_value.
  assert (walk (0, 0) (ops ++ [Insert [v]]) = Some c /\ concat (map yields (ops ++ [Insert [v]])) = concat (map yields ops) ++ [v] /\
    existsb keeps_previous (ops ++ [Insert [v]]) = existsb keeps_previous ops) as Hnew.
  { rewrite walk_app, Hw, map_app, concat_app, existsb_app. cbn. by rewrite orb_false_r. }
  destruct (list.last ops) as [[s' start count|vs]|] eqn:El; [done| |done]. apply last_Some in El as [init ->]. clear Hnew.
  rewrite length_app. cbn [length]. rewrite Nat.add_sub, take_app_length. rewrite walk_app in Hw |- *. destruct (walk (0, 0) init) as [d|]; [|done].
  cbn [mbind option_bind walk walk_step] in *. rewrite !map_app, !concat_app, !existsb_app. cbn [map concat yields existsb keeps_previous].
  destruct vs as [|w vs]; [done|]. cbn [app] in *. split; [done|]. split; [|done]. by rewrite !app_nil_r, <- app_assoc.
Qed.

End Walk.

(** Each output entry is kept from a source value equal to it, or inserted. *)
Lemma build_operations_spec (output input : list (Keyed K V)) (previous : option (list (Keyed K V))) :
  let inp := map value input in
  let prev := map value (default [] previous) in
  let st := build_operations equal output input previous in
  walk inp prev (0, 0) (built st) = Some (Z.of_nat (next_input st), Z.of_nat (next_previous st)) /\
  Forall2 (fun v w => v = w \/ equal v w = true) (concat (map (yields inp prev) (built st))) (map value output) /\
  existsb keeps_previous (built st) = used_previous st /\ (used_previous st = true -> is_Some previous).
Proof.
  cbn zeta. unfold build_operations. induction output as [|entry output (IH1 & IH2 & IH3 & IH4)] using rev_ind; [cbn; by split_and!; [|constructor|..]|].
  rewrite foldl_app. cbn [foldl]. set (st := foldl _ _ output) in *. unfold build_step.
  set (inp := map value input) in *. set (prev := map value (default [] previous)) in *.
  assert (forall s p (e : Keyed K V), src inp prev s !! p = Some (value e) -> equal (value e) (value entry) = true -> 
    cur s (Z.of_nat (next_input st)) (Z.of_nat (next_previous st)) <= Z.of_nat p ->
    walk inp prev (0, 0) (push_keep (built st) s p) = Some (advance s (Z.of_nat (S p)) (Z.of_nat (next_input st)) (Z.of_nat (next_previous st))) /\
    Forall2 (fun v w => v = w \/ equal v w = true) (concat (map (yields inp prev) (push_keep (built st) s p))) (map value (output ++ [entry])) /\
    existsb keeps_previous (push_keep (built st) s p) = used_previous st || bool_decide (s = Previous)) as Hkeep.
  { intros s p e Hv He Hc. destruct (push_keep_spec inp prev (built st) _ s p (value e) IH1 Hc Hv) as (-> & -> & ->).
    rewrite IH3, map_app, Nat2Z.inj_succ. split; [done|]. split; [|done]. apply Forall2_app; [done|]. constructor; [by right|constructor]. }
  destruct (match previous with Some entries => confirm _ _ _ _ _ _ | None => _ end) as [hit remaining] eqn:Ep.
  destruct hit as [p|].
  - destruct previous as [entries|]; [|done]. assert (fst (confirm equal (KeyIndex_new entries) entries (next_previous st) entry MAX_CONFIRM_PROBES) = Some p) as Hp by (by rewrite Ep).
    apply confirm_spec in Hp as (Hle & e & He & Heq). cbn [built next_input next_previous used_previous]. destruct (Hkeep Previous p e) as (-> & H2 & ->); [|done|cbn [cur]; lia|].
    { cbn [src]. unfold prev. change (default [] (Some entries)) with entries. by rewrite list_lookup_fmap, He. }
    cbn [advance]. split_and!; [done|done|by rewrite bool_decide_true, orb_true_r|by eexists].
  - destruct (confirm equal (KeyIndex_new input) input (next_input st) entry remaining) as [[p|] rem'] eqn:Ei; cbn [fst].
    + assert (fst (confirm equal (KeyIndex_new input) input (next_input st) entry remaining) = Some p) as Hp by (by rewrite Ei).
      apply confirm_spec in Hp as (Hle & e & He & Heq). cbn [built next_input next_previous used_previous]. destruct (Hkeep Input p e) as (-> & H2 & ->); [|done|cbn [cur]; lia|].
      { cbn [src]. unfold inp. by rewrite list_lookup_fmap, He. }
      cbn [advance]. split_and!; [done|done|by rewrite bool_decide_false, orb_false_r|done].
    + cbn [built next_input next_previous used_previous]. destruct (push_value_spec inp prev (built st) _ (value entry) IH1) as (-> & -> & ->).
      rewrite map_app. split_and!; [done| |done|done].
      apply Forall2_app; [done|]. constructor; [by left|constructor].
Qed.

(** Inserted values come from the output. *)
Definition inserts_all (P : V -> Prop) (op : Operation V) : Prop := match op with Keep _ _ _ => True | Insert vs => Forall P vs end.

Lemma build_inserts (P : V -> Prop) (output input : list (Keyed K V)) previous :
  Forall P (map value output) -> Forall (inserts_all P) (built (build_operations equal output input previous)).
Proof.
  unfold build_operations. induction output as [|entry output IH] using rev_ind; intros HP; [constructor|]. rewrite foldl_app. cbn [foldl].
  rewrite map_app in HP. apply Forall_app in HP as [HP Hentry]. apply list.Forall_cons in Hentry as [He _]. specialize (IH HP).
  set (st := foldl _ _ output) in *. unfold build_step. destruct (match previous with Some _ => _ | None => _ end) as [hit remaining].
  assert (forall s p, Forall (inserts_all P) (push_keep (built st) s p)) as Hk.
  { intros s p. unfold push_keep. repeat case_match; apply Forall_app; (split; [by try apply Forall_take|by repeat constructor]). }
  destruct hit; [apply Hk|]. destruct (confirm _ _ _ _ _ _) as [[]]; cbn [fst built]; [apply Hk|].
  unfold push_value. destruct (list.last (built st)) as [[s start count|vs]|] eqn:El; try (apply Forall_app; split; [done|by repeat constructor]).
  apply last_Some in El as [init E]. apply Forall_app. split; [by apply Forall_take|]. rewrite E in IH. apply Forall_app in IH as [_ IH].
  apply list.Forall_cons in IH as [IH _]. constructor; [|constructor]. cbn in *. apply Forall_app. split; [done|by repeat constructor].
Qed.

End Building.

(** ** From the daemon to the client *)
Section Delivery.
Context {K : Type} `{Countable K} (pieces : Value -> list (list Z)) (value_eq : Value -> Value -> bool).

(** A source as the client captured it. *)
Definition captured (r : Revision) (entries : list (Keyed K Value)) : SourceBase :=
  mkSourceBase r (map value entries) (map (size pieces) (map value entries)).

Lemma walk_valid recipe input previous prev (Hprev : prev = source_values input previous Previous) ops : forall c c',
  (existsb keeps_previous ops = true -> exists base, previous = Some base /\ previous_output_revision recipe = Some (revision base)) ->
  0 <= c.1 -> 0 <= c.2 -> walk (base_values input) prev c ops = Some c' ->
  ops_valid recipe input previous c.1 c.2 ops /\ Forall op_fits ops /\
  (Z.of_nat (length (base_values input)) <= MAX_SAFE_INTEGER -> Z.of_nat (length prev) <= MAX_SAFE_INTEGER -> Forall operation_ok ops).
Proof.
  induction ops as [|op ops IH]; intros c c' Hp H1 H2 Hw; [by split_and!; [|constructor|constructor]|]. cbn [walk] in Hw.
  destruct (walk_step (base_values input) prev c op) as [d|] eqn:E; [|done]. cbn [mbind option_bind] in Hw.
  assert (0 <= d.1 /\ 0 <= d.2) as [Hd1 Hd2].
  { apply (walk_nonneg (base_values input) prev [op] c d); [|done|done]. cbn [walk]. by rewrite E. }
  destruct (IH d c') as (Hv & Hf & Hok); [|done|done|done|].
  { intros Hx. apply Hp. cbn. rewrite Hx. apply orb_true_r. }
  destruct op as [s start count|vs]; cbn [walk_step] in E.
  - destruct ((cur s c.1 c.2 <=? start) && (0 <? count) && (start + count <=? Z.of_nat (length (src (base_values input) prev s)))) eqn:Ec; [|done]. injection E as <-.
    apply andb_true_iff in Ec as [[E1 E2]%andb_true_iff E3]. assert (0 <= start) by (destruct s; cbn [cur] in *; lia). split; [|split].
    + apply ops_valid_keep. split; [|done]. split; [intros ->; by apply Hp|]. split; [lia|]. destruct s; cbn [src source_values] in *; [lia|]. subst prev. cbn in E3. lia.
    + constructor; [cbn; lia|done].
    + intros Hi Hpl. constructor; [cbn; destruct s; cbn [src] in *; lia|by apply Hok].
  - destruct vs as [|v vs]; [done|]. injection E as <-. split; [done|]. split; [by constructor|]. intros Hi Hpl. constructor; [done|by apply Hok].
Qed.

Lemma captured_sized r entries : Z.of_nat (length entries) <= u64_MAX -> base_sized (captured r entries).
Proof. intros Hl. split; cbn; [by rewrite length_map|apply sizes_nonneg]. Qed.

Lemma yields_values input previous prev op : prev = source_values input previous Previous ->
  yields (base_values input) prev op = op_values input previous op.
Proof. intros ->. by destruct op as [[] ? ?|?]. Qed.

Lemma op_lengths_captured input previous op :
  base_lengths input = map (size pieces) (base_values input) ->
  match previous with Some b => base_lengths b = map (size pieces) (base_values b) | None => True end ->
  op_lengths pieces input previous op = map (size pieces) (op_values input previous op).
Proof.
  intros Hi Hp. destruct op as [[] start count|vs]; cbn [op_lengths op_values source_lengths source_values]; [..|done]; unfold slice.
  - by rewrite Hi, skipn_map, firstn_map.
  - destruct previous as [b|]; cbn; [by rewrite Hp, skipn_map, firstn_map|by rewrite !drop_nil, !take_nil].
Qed.

(** C24: what the daemon builds, the client rebuilds. For any output, input and previous output
    whose revisions are valid and whose output values can be measured, and provided the recipe's JSON
    nests within the limit: the client parses the recipe back as it was built, and applying it to its
    captured sources gives, entry by entry, the output's value or a source value equal to it, with
    their lengths and the array's size; it fails only when that array exceeds the wire limit. *)
Theorem recipe_delivery (output input : list (Keyed K Value)) previous base_rev output_rev :
  let r := build_recipe value_eq output (base_rev, input) previous output_rev in
  let inb := captured base_rev input in
  let prevb := (fun p => captured p.1 p.2) <$> previous in
  revision_ok base_rev -> revision_ok output_rev -> match previous with Some p => revision_ok p.1 | None => True end ->
  Z.of_nat (length input) <= MAX_SAFE_INTEGER ->
  match previous with Some p => Z.of_nat (length p.2) <= MAX_SAFE_INTEGER | None => True end ->
  Forall (measurable pieces) (map value output) ->
  (nest (recipe_to_json r) <= MAX_JSON_NESTING)%nat ->
  recipe_from_json (recipe_to_json r) = Some (Ok r) /\
  exists vs, Forall2 (fun v w => v = w \/ value_eq v w = true) vs (map value output) /\
    let ls := map (size pieces) vs in
    if entry_total ls <=? MAX_RECONSTRUCTED_BYTES
    then apply_recipe pieces r inb prevb = Done (mkApplied vs ls (entry_total ls))
    else exists e, apply_recipe pieces r inb prevb = Fail e.
Proof.
  cbn zeta. intros Hb Ho Hp Hli Hlp Hm Hn. set (r := build_recipe _ _ _ _ _) in *.
  destruct (build_operations_spec value_eq output input (snd <$> previous)) as (Hw & Hvs & Hu & Hus).
  pose proof (build_inserts value_eq (measurable pieces) output input (snd <$> previous) Hm) as Hins.
  set (b := build_operations value_eq output input (snd <$> previous)) in *.
  set (inb := captured base_rev input) in *. set (prevb := (fun p => captured p.1 p.2) <$> previous).
  set (prev := map value (default [] (snd <$> previous))) in *.
  assert (prev = source_values inb prevb Previous) as Hprev by (subst prev prevb; by destruct previous).
  assert (previous_output_revision r = if used_previous b then fst <$> previous else None) as Hpr.
  { clear. subst r b. unfold build_recipe. cbn [previous_output_revision snd]. destruct previous; by destruct (used_previous _). }
  assert (existsb keeps_previous (built b) = true -> exists base, prevb = Some base /\ previous_output_revision r = Some (revision base)) as Hrev.
  { rewrite Hu. intros Ht. rewrite Hpr, Ht. destruct (Hus Ht) as [x Hx]. subst prevb. destruct previous as [p|]; [|done]. by exists (captured p.1 p.2). }
  destruct (walk_valid r inb prevb prev Hprev (built b) (0, 0) _ Hrev ltac:(done) ltac:(done) Hw) as (Hv & Hf & Hok).
  split.
  - apply recipe_roundtrip; [|done]. split; [done|done| | |].
    + rewrite Hpr. destruct (used_previous b), previous; done.
    + change (operations r) with (built b). rewrite Hu, Hpr. destruct (used_previous b) eqn:Eu; [|by rewrite bool_decide_false by (by intros [? ?])].
      destruct (Hus eq_refl) as [x Hx]. destruct previous as [p|]; [|done]. symmetry. apply bool_decide_true. by eexists.
    + apply Hok; [cbn; by rewrite length_map|]. subst prev. destruct previous as [p|]; cbn; [by rewrite length_map|done].
  - exists (concat (map (op_values inb prevb) (built b))). split.
    { rewrite (map_ext (op_values inb prevb) (yields (base_values inb) prev)); [exact Hvs|]. intros op. symmetry. by apply yields_values. }
    assert (concat (map (op_lengths pieces inb prevb) (built b)) = map (size pieces) (concat (map (op_values inb prevb) (built b)))) as Hls.
    { rewrite concat_map, map_map. f_equal. apply map_ext. intros op. apply op_lengths_captured; [done|]. subst prevb. by destruct previous. }
    assert (MAX_SAFE_INTEGER <= u64_MAX) by done.
    assert (base_sized inb) as Hi by (apply captured_sized; lia).
    assert (match prevb with Some b => base_sized b | None => True end) as Hpb
      by (subst prevb; destruct previous as [p|]; [apply captured_sized; lia|done]).
    pose proof (apply_recipe_spec pieces r inb prevb Hi Hpb Hf) as Ha. unfold rebuilt in Ha. change (operations r) with (built b) in Ha.
    rewrite Hls in Ha. destruct (Z.leb_spec (entry_total (map (size pieces) (concat (map (op_values inb prevb) (built b))))) MAX_RECONSTRUCTED_BYTES) as [Hle|Hgt].
    + assert (applicable pieces r inb prevb) as Hap.
      { split; [unfold lengths_match; cbn; by rewrite !length_map| |done|done| |].
        - subst prevb. destruct previous as [p|]; [unfold lengths_match; cbn; by rewrite !length_map|done].
        - change (operations r) with (built b). eapply Forall_impl; [exact Hins|]. by intros [? ? ?|?].
        - change (operations r) with (built b). by rewrite Hls. }
      destruct (apply_recipe pieces r inb prevb); [by destruct Ha as [_ ->]|done|done].
    + destruct (apply_recipe pieces r inb prevb) as [a|e|]; [|by exists e|done]. destruct Ha as [[_ _ _ _ _ Hle] _].
      change (operations r) with (built b) in Hle. rewrite Hls in Hle. lia.
Qed.

End Delivery.

(** ** Revisions *)

(** The revisions one allocator hands out, in order. *)
Fixpoint allocations (n : nat) (a : RevisionAllocator) : list Revision :=
  match n with
  | O => []
  | S n => match allocate a with (Some r, a) => r :: allocations n a | (None, _) => [] end
  end.

Lemma append_inj_l (s t u : string) : (s +:+ t)%string = (s +:+ u)%string -> t = u.
Proof. induction s as [|c s IH]; [done|]. rewrite !append_cons. intros [= E]. by apply IH. Qed.

Lemma decimal_inj m n : 0 <= m <= u64_MAX -> 0 <= n <= u64_MAX -> decimal_digits 20 m = decimal_digits 20 n -> m = n.
Proof.
  intros Hm Hn E. assert (u64_MAX < 10 ^ Z.of_nat 20) by (by vm_compute).
  pose proof (parse_decimal 20 m EmptyString ltac:(lia) ltac:(lia)) as Pm. pose proof (parse_decimal 20 n EmptyString ltac:(lia) ltac:(lia)) as Pn.
  rewrite E, Pn in Pm. cbn in Pm. congruence.
Qed.

Lemma allocate_Some a r a' : allocate a = (Some r, a') ->
  r = (incarnation a +:+ "-" +:+ decimal_digits 20 (next a))%string /\ next a < u64_MAX /\ a' = mkAllocator (incarnation a) (next a + 1).
Proof.
  unfold allocate. destruct (checked_add u64_MAX (next a) 1) as [n|] eqn:E; [|done]. apply checked_add_Some in E as [-> Hle].
  destruct (parse_revision _) as [v|] eqn:Ep; [|done]. intros [= -> <-]. split; [|split; [lia|done]].
  unfold parse_revision in Ep. case_bool_decide; [done|]. destruct (_ <? _)%nat; [done|]. by injection Ep as <-.
Qed.

(** An allocator never hands out a revision twice. *)
Theorem revisions_distinct n a : 0 <= next a -> NoDup (allocations n a).
Proof.
  assert (forall n a r, 0 <= next a -> r ∈ allocations n a -> exists c, next a <= c < u64_MAX /\ r = (incarnation a +:+ "-" +:+ decimal_digits 20 c)%string) as Hel.
  { clear n a. induction n as [|n IH]; intros a r Ha; cbn [allocations]; [by intros ?%not_elem_of_nil|]. destruct (allocate a) as [[r0|] a'] eqn:E; [|by intros ?%not_elem_of_nil].
    apply allocate_Some in E as (-> & Hlt & ->). rewrite elem_of_cons. intros [->|Hr]; [exists (next a); split; [lia|done]|].
    apply IH in Hr as (c & Hc & ->); cbn [next incarnation] in *; [exists c; split; [lia|done]|lia]. }
  revert a. induction n as [|n IH]; intros a Ha; cbn [allocations]; [by apply list.NoDup_nil|]. destruct (allocate a) as [[r|] a'] eqn:E; [|by apply list.NoDup_nil].
  apply allocate_Some in E as (-> & Hlt & ->). apply list.NoDup_cons. split; [|apply IH; cbn [next]; lia].
  intros (c & Hc & E)%Hel; cbn [next incarnation] in *; [|lia]. apply append_inj_l, append_inj_l, decimal_inj in E; lia.
Qed.

(** ** A recipe evaluated *)
Module Sample.

Definition msg (s : string) : Keyed nat Value := mkKeyed (String.length s) (Str s).
Definition input : list (Keyed nat Value) := [msg "first"; msg "second"; msg "third!"].
Definition previous : list (Keyed nat Value) := [msg "[summary]"; msg "second"].
Definition output : list (Keyed nat Value) := [msg "[summary]"; msg "second"; msg "note"; msg "third!"].
Definition str_eq (v w : Value) : bool := match v, w with Str s, Str t => bool_decide (s = t) | _, _ => false end.
Definition recipe : Recipe := build_recipe str_eq output ("in", input)%string (Some ("out0", previous)%string) "out1".

End Sample.

Lemma recipe_delivery_witness :
  operations Sample.recipe = [Keep Previous 0 2; Insert [Str "note"]; Keep Input 2 1] /\
  recipe_from_json (recipe_to_json Sample.recipe) = Some (Ok Sample.recipe).
Proof.
  split; [vm_compute; reflexivity|].
  apply (recipe_delivery one_piece Sample.str_eq Sample.output Sample.input (Some ("out0"%string, Sample.previous)) "in" "out1").
  - split; [done|]. vm_compute. lia.
  - split; [done|]. vm_compute. lia.
  - split; [done|]. vm_compute. lia.
  - vm_compute. done.
  - vm_compute. done.
  - repeat (constructor; [vm_compute; reflexivity|]). constructor.
  - vm_compute. lia.
Defined.

Lemma apply_exact_witness :
  let base := mkSourceBase "in" [Str "a"; Str "b"] [3; 3] in
  let r := mkRecipe "in" "out" None [Keep Input 1 1; Keep Input 0 1] in
  apply_recipe one_piece r base None = Fail (BackwardRange Input 1) /\ ~ applicable one_piece r base None.
Proof.
  split; [vm_compute; reflexivity|].
  apply (apply_exact one_piece (mkRecipe "in" "out" None [Keep Input 1 1; Keep Input 0 1]) (mkSourceBase "in" [Str "a"; Str "b"] [3; 3]) None).
  - split; [by vm_compute|]. repeat (constructor; [lia|]). constructor.
  - done.
  - repeat (constructor; [cbn; lia|]). constructor.
Defined.

End RecipeProofs.
