(* ===== verification/Routing.v ===== *)
(** * Routing: the registry of routes (host-runtime/src/routing.rs)

    One lock guards the registry, so its operations are atomic steps, and what tasks and connections
    do is a sequence of them. A generation is its id, an abort handle the id of its task; whether a
    generation is cancelled and which tasks have finished are arguments. *)
From S2P Require Import Prelude.
From stdpp Require Import gmap.

#[local] Open Scope Z_scope.

Module Routing.

Definition u16_MAX : Z := 65535.

Inductive RouteClass := General | Reserved.

Record RouteHandle := mkHandle { channel : Z; epoch : Z }.

#[global] Instance RouteHandle_eq_dec : EqDecision RouteHandle.
Proof. solve_decision. Defined.

Inductive OccState := Binding (close_requested : bool) | Live | Closing.

#[global] Instance OccState_eq_dec : EqDecision OccState.
Proof. solve_decision. Defined.

Record Occupant := mkOccupant {
  occ_epoch : Z;
  generation : Z;
  occ_state : OccState;
  class : RouteClass;
  aborts : list Z;
  tracker_closed : bool;
  cancelled : bool;
  gone_started : bool;
}.

Record Slot := mkSlot { last_epoch : Z; occupant : option Occupant }.

Record Inner := mkInner { slots : gmap Z Slot; live : Z; cursor : Z; accepting : bool }.

Definition new_registry : Inner := mkInner ∅ 0 1 true.

(** ** Reserving *)
Definition new_occupant (e gen : Z) (c : RouteClass) : Occupant := mkOccupant e gen (Binding false) c [] false false false.

(** The scan over the channels; the slot of every channel it visits is created. *)
Fixpoint reserve_loop (fuel : nat) (gen : Z) (c : RouteClass) (start candidate : Z) (m : gmap Z Slot) : gmap Z Slot * option RouteHandle :=
  match fuel with
  | O => (m, None)
  | S fuel =>
      let next := wrapping_add u16_MAX candidate 1 in
      if candidate =? 0
      then if next =? start then (m, None) else reserve_loop fuel gen c start next m
      else
        let slot := default (mkSlot 0 None) (m !! candidate) in
        let m := <[candidate := slot]> m in
        if match occupant slot with None => true | Some _ => false end && (last_epoch slot <? u32_MAX)
        then
          let e := last_epoch slot + 1 in
          (<[candidate := mkSlot e (Some (new_occupant e gen c))]> m, Some (mkHandle candidate e))
        else if next =? start then (m, None) else reserve_loop fuel gen c start next m
  end.

Definition reserve (max_routes gen : Z) (gen_cancelled : bool) (c : RouteClass) (r : Inner) : Inner * option RouteHandle :=
  if negb (accepting r) || gen_cancelled || (max_routes <=? live r) then (r, None)
  else
    let '(m, hit) := reserve_loop (Z.to_nat (u16_MAX + 1)) gen c (cursor r) (cursor r) (slots r) in
    match hit with
    | Some h => (mkInner m (live r + 1) (wrapping_add u16_MAX (channel h) 1) (accepting r), Some h)
    | None => (mkInner m (live r) (cursor r) (accepting r), None)
    end.

(** ** Operations on one route *)
Definition with_slots (m : gmap Z Slot) (r : Inner) : Inner := mkInner m (live r) (cursor r) (accepting r).

Definition occupant_of (h : RouteHandle) (r : Inner) : option Occupant := slot ← slots r !! channel h; occupant slot.

(** Writing an occupant back through [get_mut]. *)
Definition set_occupant (h : RouteHandle) (o : Occupant) (r : Inner) : Inner :=
  match slots r !! channel h with
  | Some slot => with_slots (<[channel h := mkSlot (last_epoch slot) (Some o)]> (slots r)) r
  | None => r
  end.

Definition with_state (s : OccState) (o : Occupant) : Occupant :=
  mkOccupant (occ_epoch o) (generation o) s (class o) (aborts o) (tracker_closed o) (cancelled o) (gone_started o).
Definition cancel (o : Occupant) : Occupant :=
  mkOccupant (occ_epoch o) (generation o) (occ_state o) (class o) (aborts o) (tracker_closed o) true (gone_started o).

Inductive BindInstall := Installed | CloseWins.
Inductive BindViolation := Lost | EpochDiverged | State (s : OccState).

(** [Err] is the panic after the guard is released. *)
Definition install_bound (h : RouteHandle) (r : Inner) : Inner * result BindViolation BindInstall :=
  match occupant_of h r with
  | None => (r, Err Lost)
  | Some o =>
      if negb (occ_epoch o =? epoch h) then (r, Err EpochDiverged)
      else
        match occ_state o with
        | Binding false => (set_occupant h (with_state Live o) r, Ok Installed)
        | Binding true => (set_occupant h (with_state Closing o) r, Ok CloseWins)
        | s => (r, Err (State s))
        end
  end.

Definition take_rejected_bind (h : RouteHandle) (r : Inner) : Inner :=
  match occupant_of h r with
  | None => r
  | Some o => if negb (occ_epoch o =? epoch h) then r else set_occupant h (with_state Closing (cancel o)) r
  end.

Definition freeze_admission (r : Inner) : Inner := mkInner (slots r) (live r) (cursor r) false.

(** [take_close_ownership]: the occupant left behind; the aborts go to the owner. *)
Definition take_close_ownership (o : Occupant) : Occupant * list Z :=
  (mkOccupant (occ_epoch o) (generation o) Closing (class o) [] true true (gone_started o), aborts o).

Inductive CloseDecision := Owner (gen : Z) (aborts : list Z) | DeferredToBind | AlreadyGone.

Definition begin_close_for (h : RouteHandle) (owner : option Z) (r : Inner) : Inner * CloseDecision :=
  match occupant_of h r with
  | None => (r, AlreadyGone)
  | Some o =>
      if negb (occ_epoch o =? epoch h) || match owner with Some g => negb (generation o =? g) | None => false end
      then (r, AlreadyGone)
      else
        match occ_state o with
        | Binding _ => (set_occupant h (with_state (Binding true) (cancel o)) r, DeferredToBind)
        | Live => let '(o', handles) := take_close_ownership o in (set_occupant h o' r, Owner (generation o) handles)
        | Closing => (r, AlreadyGone)
        end
  end.

Definition finalize_close (h : RouteHandle) (r : Inner) : Inner :=
  match slots r !! channel h with
  | Some (mkSlot last (Some o)) =>
      if occ_epoch o =? epoch h
      then mkInner (<[channel h := mkSlot last None]> (slots r)) (live r - 1) (cursor r) (accepting r)
      else r
  | _ => r
  end.

(** The token handed out is the route's own; its cancelled state is what matters. *)
Definition register_dispatch (h : RouteHandle) (gen_id abort : Z) (finished : list Z) (r : Inner) : Inner * bool :=
  if negb (accepting r) then (r, false)
  else
    match occupant_of h r with
    | None => (r, false)
    | Some o =>
        if negb (occ_epoch o =? epoch h) || negb (generation o =? gen_id) || negb (bool_decide (occ_state o = Live)) then (r, false)
        else
          let kept := filter (fun a => a ∉ finished) (aborts o) ++ [abort] in
          (set_occupant h (mkOccupant (occ_epoch o) (generation o) (occ_state o) (class o) kept (tracker_closed o) (cancelled o) (gone_started o)) r, true)
    end.

Definition route_tracker (h : RouteHandle) (gen_id : Z) (r : Inner) : option RouteClass :=
  o ← occupant_of h r;
  if (occ_epoch o =? epoch h) && (generation o =? gen_id) && bool_decide (occ_state o = Live) then Some (class o) else None.

Definition mark_gone_started (h : RouteHandle) (r : Inner) : Inner * bool :=
  match occupant_of h r with
  | None => (r, false)
  | Some o =>
      if negb (occ_epoch o =? epoch h) || gone_started o then (r, false)
      else (set_occupant h (mkOccupant (occ_epoch o) (generation o) (occ_state o) (class o) (aborts o) (tracker_closed o) (cancelled o) true) r, true)
  end.

(** ** Operations on every route; a hash map is iterated in some order. *)
Definition all_routes (r : Inner) : list RouteHandle :=
  omap (fun cs => o ← occupant cs.2; Some (mkHandle cs.1 (occ_epoch o))) (map_to_list (slots r)).

Definition routes_of_generation (gen_id : Z) (r : Inner) : list RouteHandle :=
  omap (fun cs => o ← occupant cs.2; if generation o =? gen_id then Some (mkHandle cs.1 (occ_epoch o)) else None) (map_to_list (slots r)).

(** [begin_close_generation]: a snapshot of the generation's routes, then one close at a time, each under the lock. *)
Fixpoint close_each (gen_id : Z) (hs : list RouteHandle) (r : Inner) : Inner * list (RouteHandle * CloseDecision) :=
  match hs with
  | [] => (r, [])
  | h :: hs => let '(r, d) := begin_close_for h (Some gen_id) r in let '(r, ds) := close_each gen_id hs r in (r, (h, d) :: ds)
  end.

Definition begin_close_generation (gen_id : Z) (r : Inner) : Inner * list (RouteHandle * CloseDecision) :=
  close_each gen_id (routes_of_generation gen_id r) r.

Definition drain_slot (s : Slot) : Slot :=
  match occupant s with
  | None => s
  | Some o =>
      if gone_started o then s
      else
        match occ_state o with
        | Binding _ => mkSlot (last_epoch s) (Some (with_state (Binding true) (cancel o)))
        | _ => mkSlot (last_epoch s) (Some (take_close_ownership o).1)
        end
  end.

Definition drained (c : Z) (s : Slot) : option (RouteHandle * list Z) :=
  o ← occupant s;
  if gone_started o then None
  else match occ_state o with
       | Binding _ => None
       | _ => Some (mkHandle c (occ_epoch o), aborts o)
       end.

Definition force_drain (r : Inner) : Inner * list (RouteHandle * list Z) :=
  (with_slots (drain_slot <$> slots r) r, omap (fun cs => drained cs.1 cs.2) (map_to_list (slots r))).

(** ** Steps *)
Inductive Op :=
| OReserve (gen : Z) (gen_cancelled : bool) (c : RouteClass)
| OInstall (h : RouteHandle)
| OReject (h : RouteHandle)
| OFreeze
| OBeginClose (h : RouteHandle) (owner : option Z)
| OFinalize (h : RouteHandle)
| ODispatch (h : RouteHandle) (gen_id abort : Z) (finished : list Z)
| OMarkGone (h : RouteHandle)
| OForceDrain.

Inductive Resp :=
| RHandle (h : option RouteHandle) | RBind (b : result BindViolation BindInstall) | RUnit
| RClose (d : CloseDecision) | RBool (b : bool) | RDrained (l : list (RouteHandle * list Z)).

Definition step (max_routes : Z) (r : Inner) (op : Op) : Inner * Resp :=
  match op with
  | OReserve gen c_ c => let '(r, h) := reserve max_routes gen c_ c r in (r, RHandle h)
  | OInstall h => let '(r, b) := install_bound h r in (r, RBind b)
  | OReject h => (take_rejected_bind h r, RUnit)
  | OFreeze => (freeze_admission r, RUnit)
  | OBeginClose h owner => let '(r, d) := begin_close_for h owner r in (r, RClose d)
  | OFinalize h => (finalize_close h r, RUnit)
  | ODispatch h g a f => let '(r, b) := register_dispatch h g a f r in (r, RBool b)
  | OMarkGone h => let '(r, b) := mark_gone_started h r in (r, RBool b)
  | OForceDrain => let '(r, l) := force_drain r in (r, RDrained l)
  end.

(** The events of a run: every operation with its answer. *)
Fixpoint run (max_routes : Z) (r : Inner) (ops : list Op) : Inner * list (Op * Resp) :=
  match ops with
  | [] => (r, [])
  | op :: ops => let '(r', resp) := step max_routes r op in let '(r'', evs) := run max_routes r' ops in (r'', (op, resp) :: evs)
  end.

(** ** Slots under a step *)
Definition slot_at (m : gmap Z Slot) (c : Z) : Slot := default (mkSlot 0 None) (m !! c).

(** How an operation may change a route it leaves in place. *)
Record evolves (o o' : Occupant) : Prop := {
  ev_epoch : occ_epoch o' = occ_epoch o;
  ev_generation : generation o' = generation o;
  ev_gone : gone_started o = true -> gone_started o' = true;
  ev_cancelled : cancelled o = true -> cancelled o' = true;
  ev_closing : occ_state o = Closing -> occ_state o' = Closing;
  ev_requested : occ_state o = Binding true -> occ_state o' = Binding true \/ occ_state o' = Closing;
}.

Lemma evolves_refl o : evolves o o.
Proof. split; auto. Qed.

(** A slot is untouched, its route evolves or is released, or a free slot takes a new route. *)
Definition slot_step (s s' : Slot) : Prop :=
  last_epoch s' = last_epoch s /\
    match occupant s, occupant s' with
    | Some o, Some o' => evolves o o'
    | None, Some _ => False
    | _, None => True
    end \/
  occupant s = None /\ last_epoch s < u32_MAX /\ last_epoch s' = last_epoch s + 1 /\
    exists gen c, occupant s' = Some (new_occupant (last_epoch s + 1) gen c).

Lemma slot_step_refl s : slot_step s s.
Proof. left. split; [done|]. destruct (occupant s); [apply evolves_refl|done]. Qed.

Lemma slot_at_insert m c s c' : slot_at (<[c := s]> m) c' = if decide (c = c') then s else slot_at m c'.
Proof. unfold slot_at. case_decide; [subst; by rewrite lookup_insert_eq|by rewrite lookup_insert_ne]. Qed.

Lemma occupant_of_Some h r o : occupant_of h r = Some o ->
  exists s, slots r !! channel h = Some s /\ occupant s = Some o /\ slot_at (slots r) (channel h) = s.
Proof.
  unfold occupant_of, slot_at. destruct (slots r !! channel h) as [s|]; cbn; [|done]. intros Ho. by exists s.
Qed.

Lemma set_occupant_step h r o o' c : occupant_of h r = Some o -> evolves o o' ->
  slot_step (slot_at (slots r) c) (slot_at (slots (set_occupant h o' r)) c).
Proof.
  intros (s & Hs & Ho & Hat)%occupant_of_Some Hev. unfold set_occupant. rewrite Hs. cbn [slots with_slots]. rewrite slot_at_insert.
  case_decide as Hc; [subst c|apply slot_step_refl]. rewrite Hat. left. cbn. by rewrite Ho.
Qed.

(** *** The scan *)
Definition available (m : gmap Z Slot) (c : Z) : Prop := 1 <= c <= u16_MAX /\ occupant (slot_at m c) = None /\ last_epoch (slot_at m c) < u32_MAX.

Definition occupied (m : gmap Z Slot) : gmap Z Occupant := omap occupant m.

Lemma occupied_touch m c : occupied (<[c := slot_at m c]> m) = occupied m.
Proof.
  apply map_eq. intros i. unfold occupied. rewrite !lookup_omap. destruct (decide (c = i)) as [<-|].
  - rewrite lookup_insert_eq. unfold slot_at. by destruct (m !! c).
  - by rewrite lookup_insert_ne.
Qed.

Lemma slot_at_touch m c c' : slot_at (<[c := slot_at m c]> m) c' = slot_at m c'.
Proof. rewrite slot_at_insert. case_decide; by subst. Qed.

Lemma candidate_wraps start k : 0 <= start <= u16_MAX -> Z.of_nat k < 65536 ->
  let next := (start + Z.of_nat (S k)) mod (u16_MAX + 1) in
  (next = start -> Z.of_nat (S k) = 65536) /\ (next <> start -> Z.of_nat (S k) < 65536).
Proof.
  intros Hs Hk. cbn zeta. unfold u16_MAX in *. change (65535 + 1) with 65536.
  assert (start + Z.of_nat (S k) < 65536 \/ 65536 <= start + Z.of_nat (S k)) as [H|H] by lia.
  - rewrite Z.mod_small by lia. lia.
  - replace (start + Z.of_nat (S k)) with (start + Z.of_nat (S k) - 65536 + 1 * 65536) by lia. rewrite Z.mod_add by lia.
    rewrite Z.mod_small; lia.
Qed.

(** What a scan of the channels in [todo] has done to the slots [m]. *)
Definition scanned (gen : Z) (cl : RouteClass) (m : gmap Z Slot) (todo : Z -> Prop) (res : gmap Z Slot * option RouteHandle) : Prop :=
  match res.2 with
  | Some h => available m (channel h) /\ epoch h = last_epoch (slot_at m (channel h)) + 1 /\
      (forall c, slot_at res.1 c = if decide (channel h = c) then mkSlot (epoch h) (Some (new_occupant (epoch h) gen cl)) else slot_at m c) /\
      occupied res.1 = <[channel h := new_occupant (epoch h) gen cl]> (occupied m)
  | None => (forall c, slot_at res.1 c = slot_at m c) /\ occupied res.1 = occupied m /\ forall c, todo c -> ~ available m c
  end.

(** A scan that has passed a channel which is not available, leaving every slot as it was. *)
Lemma scanned_pass gen cl m m' (todo todo' : Z -> Prop) x res :
  (forall c, slot_at m' c = slot_at m c) -> occupied m' = occupied m -> ~ available m x ->
  (forall c, todo c -> c = x \/ todo' c) -> scanned gen cl m' todo' res -> scanned gen cl m todo res.
Proof.
  intros Hm Ho Hx Htodo. unfold scanned. destruct res as [m'' [h|]]; cbn [fst snd].
  - unfold available. rewrite !Hm, Ho. intros (H1 & H2 & H3 & H4). do 3 (split; [try done|]); [|done]. intros c. rewrite H3. case_decide; [done|apply Hm].
  - rewrite Ho. intros (H1 & H2 & H3). split; [intros c; by rewrite H1|]. split; [done|]. intros c Hc.
    destruct (Htodo c Hc) as [->|Hc']; [done|]. specialize (H3 c Hc'). unfold available in *. by rewrite Hm in H3.
Qed.

(** The channels a scan from [start] has yet to visit after [k] of them. *)
Definition ahead (start : Z) (k : nat) (c : Z) : Prop :=
  exists j, Z.of_nat k <= Z.of_nat j < 65536 /\ c = (start + Z.of_nat j) mod (u16_MAX + 1).

Lemma ahead_S start k c : ahead start k c -> c = (start + Z.of_nat k) mod (u16_MAX + 1) \/ ahead start (S k) c.
Proof. intros (j & Hj & ->). destruct (decide (j = k)) as [->|]; [by left|]. right. exists j. split; [lia|done]. Qed.

Lemma ahead_0 start c : 0 <= start <= u16_MAX -> 0 <= c <= u16_MAX -> ahead start 0 c.
Proof.
  intros Hs Hc. exists (Z.to_nat ((c - start) mod (u16_MAX + 1))). unfold u16_MAX in *. pose proof (Z.mod_pos_bound (c - start) 65536 ltac:(lia)).
  change (65535 + 1) with 65536. rewrite Z2Nat.id by lia. split; [lia|]. rewrite Zplus_mod_idemp_r. rewrite Z.mod_small; lia.
Qed.

(** The scan visits every channel once and takes the first that is available. *)
Lemma reserve_loop_spec gen cl start : 0 <= start <= u16_MAX -> forall fuel k m,
  Z.of_nat fuel = 65536 - Z.of_nat k -> Z.of_nat k < 65536 ->
  scanned gen cl m (ahead start k) (reserve_loop fuel gen cl start ((start + Z.of_nat k) mod (u16_MAX + 1)) m).
Proof.
  intros Hstart. induction fuel as [|fuel IH]; intros k m Hf Hk; [lia|]. cbn [reserve_loop].
  set (cand := (start + Z.of_nat k) mod (u16_MAX + 1)).
  assert (0 <= cand < u16_MAX + 1) as Hr by (apply Z.mod_pos_bound; unfold u16_MAX; lia).
  assert (wrapping_add u16_MAX cand 1 = (start + Z.of_nat (S k)) mod (u16_MAX + 1)) as ->.
  { unfold wrapping_add, cand. rewrite Zplus_mod_idemp_l. f_equal. lia. }
  destruct (candidate_wraps start k Hstart Hk) as [Hend Hgo]. set (next := (start + Z.of_nat (S k)) mod (u16_MAX + 1)) in *.
  assert (forall m', (forall c, slot_at m' c = slot_at m c) -> occupied m' = occupied m -> ~ available m cand ->
    scanned gen cl m (ahead start k) (if next =? start then (m', None) else reserve_loop fuel gen cl start next m')) as Hnext.
  { intros m' Hm Ho Hna. apply (scanned_pass gen cl m m' _ (ahead start (S k)) cand _ Hm Ho Hna (ahead_S start k)).
    destruct (Z.eqb_spec next start) as [E|E].
    - unfold scanned. split; [done|]. split; [done|]. intros c (j & Hj & _). specialize (Hend E). lia.
    - specialize (Hgo E). apply IH; lia. }
  destruct (Z.eqb_spec cand 0) as [E0|E0]; [apply Hnext; [done|done|]; intros [? _]; lia|].
  change (default (mkSlot 0 None) (m !! cand)) with (slot_at m cand).
  destruct (match occupant (slot_at m cand) with None => true | Some _ => false end && (last_epoch (slot_at m cand) <? u32_MAX)) eqn:E.
  - apply andb_true_iff in E as [E1 E2]. unfold scanned. cbn [channel epoch fst snd]. destruct (occupant (slot_at m cand)) eqn:Eo; [done|].
    split; [split; [unfold u16_MAX in *; lia|split; [done|lia]]|]. split; [done|]. split.
    + intros c. rewrite slot_at_insert. case_decide; [done|]. apply slot_at_touch.
    + unfold occupied. rewrite omap_insert_Some with (y := new_occupant (last_epoch (slot_at m cand) + 1) gen cl) by done. f_equal. apply occupied_touch.
  - apply Hnext; [intros c; apply slot_at_touch|apply occupied_touch|]. intros (_ & Ho & Hl). rewrite Ho in E. cbn in E. lia.
Qed.

(** ** The invariant *)
Definition stops (s : OccState) : bool := match s with Closing | Binding true => true | _ => false end.

(** The route's token is cancelled exactly from the moment a close or a rejection has been recorded;
    a closed tracker has handed its tasks over, and a route being bound has none. *)
Record occ_ok (o : Occupant) : Prop := {
  ok_cancelled : cancelled o = stops (occ_state o);
  ok_tracker : tracker_closed o = true -> occ_state o = Closing /\ aborts o = [];
  ok_binding : forall b, occ_state o = Binding b -> aborts o = [];
}.

Record slot_ok (c : Z) (s : Slot) : Prop := {
  ok_channel : 1 <= c <= u16_MAX;
  ok_last : 0 <= last_epoch s <= u32_MAX;
  ok_occupant : forall o, occupant s = Some o -> occ_epoch o = last_epoch s /\ 1 <= occ_epoch o /\ occ_ok o;
}.

Record RegInv (max_routes : Z) (r : Inner) : Prop := {
  inv_live : live r = Z.of_nat (size (occupied (slots r)));
  inv_max : live r <= max_routes;
  inv_cursor : 0 <= cursor r <= u16_MAX;
  inv_slots : forall c s, slots r !! c = Some s -> slot_ok c s;
}.

Lemma RegInv_new max_routes : 0 <= max_routes -> RegInv max_routes new_registry.
Proof. intros H. split; cbn; [done|done|unfold u16_MAX; lia|]. intros c s. by rewrite lookup_empty. Qed.

Lemma slot_at_last max_routes r c : RegInv max_routes r -> 0 <= last_epoch (slot_at (slots r) c) <= u32_MAX.
Proof.
  intros [_ _ _ H]. unfold slot_at. destruct (slots r !! c) eqn:E; [by destruct (H _ _ E)|]. cbn. unfold u32_MAX. lia.
Qed.

Lemma slot_at_occupant max_routes r c o : RegInv max_routes r -> occupant (slot_at (slots r) c) = Some o ->
  1 <= c <= u16_MAX /\ occ_epoch o = last_epoch (slot_at (slots r) c) /\ 1 <= occ_epoch o /\ occ_ok o.
Proof.
  intros [_ _ _ H]. unfold slot_at. destruct (slots r !! c) eqn:E; [|done]. destruct (H _ _ E) as [Hc _ Ho]. cbn. intros Hs. split; [done|by apply Ho].
Qed.

Lemma occupied_lookup m c o : occupied m !! c = Some o <-> occupant (slot_at m c) = Some o.
Proof. unfold occupied, slot_at. rewrite lookup_omap. by destruct (m !! c). Qed.

(** Writing back a route that evolves keeps the invariant. *)
Lemma RegInv_set_occupant max_routes h r o o' : RegInv max_routes r -> occupant_of h r = Some o -> occ_epoch o' = occ_epoch o -> occ_ok o' ->
  RegInv max_routes (set_occupant h o' r).
Proof.
  intros [Hl Hm Hc Hs] (s & Hls & Ho & Hat)%occupant_of_Some He Hok. unfold set_occupant. rewrite Hls. split; cbn; [|done|done|].
  - unfold occupied. rewrite omap_insert_Some with (y := o') by done. rewrite map_size_insert_Some; [done|].
    exists o. apply occupied_lookup. by rewrite Hat.
  - intros c s'. rewrite lookup_insert_Some. intros [[<- <-]|[_ H]]; [|by apply Hs].
    destruct (Hs _ _ Hls) as [H1 H2 H3]. destruct (H3 _ Ho) as (H4 & H5 & _). split; [done|done|]. cbn. intros ? [= <-]. rewrite He. done.
Qed.

Lemma occupied_drain m : dom (occupied (drain_slot <$> m)) = dom (occupied m).
Proof.
  apply set_eq. intros c. unfold occupied. rewrite !elem_of_dom, !lookup_omap, lookup_fmap. destruct (m !! c) as [s|]; [|done]. cbn.
  unfold drain_slot. destruct (occupant s) as [o|] eqn:Eo; [|by rewrite Eo]. destruct (gone_started o); [by rewrite Eo|]. by destruct (occ_state o).
Qed.

Lemma drain_slot_ok c s : slot_ok c s -> slot_ok c (drain_slot s).
Proof.
  intros [Hc Hl Ho]. unfold drain_slot. destruct (occupant s) as [o|] eqn:Eo; [|split; [done..|by rewrite Eo]].
  destruct (Ho o eq_refl) as (He & H1 & Hok). destruct (gone_started o); [split; [done..|by rewrite Eo]|].
  destruct (occ_state o) as [b| |] eqn:Es; (split; [done..|]); cbn; intros ? [= <-]; (split; [done|]); (split; [done|]); split; cbn; try done.
  - intros Ht%(ok_tracker _ Hok). by destruct Ht as [Ht _]; rewrite Es in Ht.
  - intros _ _. by apply (ok_binding _ Hok b).
Qed.

(** Reserving, as one fact: the registry's slots after the scan. *)
Lemma reserve_spec max_routes gen gc cl r : RegInv max_routes r ->
  let '(r', hit) := reserve max_routes gen gc cl r in
  match hit with
  | Some h => accepting r = true /\ gc = false /\ live r < max_routes /\ live r' = live r + 1 /\ accepting r' = true /\
      cursor r' = wrapping_add u16_MAX (channel h) 1 /\ scanned gen cl (slots r) (fun c => 0 <= c <= u16_MAX) (slots r', Some h)
  | None => live r' = live r /\ accepting r' = accepting r /\ cursor r' = cursor r /\ (forall c, slot_at (slots r') c = slot_at (slots r) c) /\
      occupied (slots r') = occupied (slots r) /\
      (accepting r = true -> gc = false -> live r < max_routes -> forall c, ~ available (slots r) c)
  end.
Proof.
  intros HI. unfold reserve. destruct (negb (accepting r) || gc || (max_routes <=? live r)) eqn:G.
  - split_and!; try done. intros Ha -> H. rewrite Ha in G. cbn in G. lia.
  - apply orb_false_iff in G as [[Ga ->]%orb_false_iff Gl]. apply negb_false_iff in Ga. apply Z.leb_gt in Gl.
    assert (scanned gen cl (slots r) (fun c => 0 <= c <= u16_MAX) (reserve_loop (Z.to_nat (u16_MAX + 1)) gen cl (cursor r) (cursor r) (slots r))) as Hs.
    { pose proof (inv_cursor _ _ HI) as Hc. pose proof (reserve_loop_spec gen cl (cursor r) Hc (Z.to_nat (u16_MAX + 1)) 0 (slots r) ltac:(unfold u16_MAX; lia) ltac:(lia)) as H.
      rewrite Z.add_0_r, Z.mod_small in H by lia. revert H. unfold scanned. destruct (reserve_loop _ _ _ _ _ _) as [m [h|]]; cbn [fst snd]; [done|].
      intros (H1 & H2 & H3). split; [done|]. split; [done|]. intros c Hr. apply H3, ahead_0; done. }
    destruct (reserve_loop _ _ _ _ _ _) as [m [h|]]; cbn [live accepting cursor slots]; [by split_and!|].
    destruct Hs as (H1 & H2 & H3). split_and!; try done. intros _ _ _ c Hav. apply (H3 c); [|done]. destruct Hav; lia.
Qed.

Lemma scan_slots_ok gen cl start fuel c m : 0 <= c <= u16_MAX -> (forall c s, m !! c = Some s -> slot_ok c s) ->
  forall c' s, (reserve_loop fuel gen cl start c m).1 !! c' = Some s -> slot_ok c' s.
Proof.
  revert c m. induction fuel as [|fuel IH]; intros c m Hc Hm; [exact Hm|]. cbn [reserve_loop].
  assert (0 <= wrapping_add u16_MAX c 1 <= u16_MAX) as Hn.
  { unfold wrapping_add. pose proof (Z.mod_pos_bound (c + 1) (u16_MAX + 1)). unfold u16_MAX in *. lia. }
  destruct (Z.eqb_spec c 0) as [|E0]; [destruct (_ =? start); [exact Hm|by apply IH]|].
  assert (slot_ok c (default (mkSlot 0 None) (m !! c))) as Hok.
  { destruct (m !! c) eqn:E; [by apply Hm|]. split; cbn; [lia|unfold u32_MAX; lia|done]. }
  set (sl := default (mkSlot 0 None) (m !! c)) in *.
  assert (forall c' s, <[c := sl]> m !! c' = Some s -> slot_ok c' s) as Hm'.
  { intros c' s. rewrite lookup_insert_Some. intros [[<- <-]|[_ H]]; [done|by apply Hm]. }
  destruct (occupant sl) eqn:Eo; cbn [andb]; [destruct (_ =? start); [exact Hm'|by apply IH]|].
  destruct (Z.ltb_spec (last_epoch sl) u32_MAX); [|destruct (_ =? start); [exact Hm'|by apply IH]].
  intros c' s. cbn [fst]. rewrite lookup_insert_Some. intros [[<- <-]|[_ H']]; [|by apply Hm'].
  destruct Hok as [H1 H2 _]. split; cbn; [done|lia|]. intros ? [= <-]. cbn. split; [done|]. split; [lia|]. by split.
Qed.

Lemma RegInv_reserve max_routes gen gc cl r : RegInv max_routes r -> RegInv max_routes (reserve max_routes gen gc cl r).1.
Proof.
  intros HI. pose proof (reserve_spec max_routes gen gc cl r HI) as H.
  assert (forall c s, slots (reserve max_routes gen gc cl r).1 !! c = Some s -> slot_ok c s) as Hs.
  { pose proof (scan_slots_ok gen cl (cursor r) (Z.to_nat (u16_MAX + 1)) (cursor r) (slots r) (inv_cursor _ _ HI) (inv_slots _ _ HI)) as Hl.
    unfold reserve. destruct (_ || _); [exact (inv_slots _ _ HI)|]. by destruct (reserve_loop _ _ _ _ _ _) as [m [h|]]. }
  destruct HI as [Hl Hm Hc _]. destruct (reserve max_routes gen gc cl r) as [r' [h|]]; cbn [fst] in *.
  - destruct H as (Ha & _ & Hlt & Hl' & _ & Hcur & (_ & Hfree & _) & _ & _ & Hocc). cbn [fst snd] in *. split; [| |rewrite Hcur|done]; [|lia|].
    + rewrite Hocc, map_size_insert_None; [lia|]. destruct (occupied (slots r) !! channel h) as [o|] eqn:E; [|done].
      apply occupied_lookup in E. congruence.
    + unfold wrapping_add. pose proof (Z.mod_pos_bound (channel h + 1) (u16_MAX + 1)). unfold u16_MAX in *. lia.
  - destruct H as (H1 & H2 & H3 & H4 & H5 & _). split; [by rewrite H1, H5|lia|by rewrite H3|done].
Qed.

Lemma RegInv_finalize max_routes h r : RegInv max_routes r -> RegInv max_routes (finalize_close h r).
Proof.
  intros HI. unfold finalize_close. destruct (slots r !! channel h) as [[last [o|]]|] eqn:E; try done. case_match; [|done].
  destruct HI as [Hl Hm Hc Hs]. assert (occupied (slots r) !! channel h = Some o) as Ho by (unfold occupied; by rewrite lookup_omap, E).
  split; cbn; [|lia|done|].
  - unfold occupied. rewrite omap_insert_None by done. fold (occupied (slots r)). rewrite map_size_delete_Some by done.
    assert (size (occupied (slots r)) <> 0%nat) as Hne; [|lia]. intros Hz%map_size_empty_iff. by rewrite Hz, lookup_empty in Ho.
  - intros c s. rewrite lookup_insert_Some. intros [[<- <-]|[_ H']]; [|by apply Hs]. destruct (Hs _ _ E) as [H1 H2 _]. by split.
Qed.

(** ** Every step *)
(** What the operations on one route do: nothing, or one write of the route their handle names. *)
Definition updates (h : RouteHandle) (r r' : Inner) : Prop :=
  r' = r \/ exists o o', occupant_of h r = Some o /\ occ_epoch o = epoch h /\ evolves o o' /\ (occ_ok o -> occ_ok o') /\ r' = set_occupant h o' r.

Lemma updates_refl h r : updates h r r.
Proof. by left. Qed.

Lemma updates_set h r o o' : occupant_of h r = Some o -> occ_epoch o = epoch h -> evolves o o' -> (occ_ok o -> occ_ok o') -> updates h r (set_occupant h o' r).
Proof. intros. right. by exists o, o'. Qed.

Ltac route_update :=
  lazymatch goal with
  | H : occupant_of ?h ?r = Some ?o |- updates ?h ?r (set_occupant ?h ?o' ?r) =>
      apply (updates_set h r o o' H);
      [lia|split; cbn; intuition congruence
      |intros [Hca Htr Hbi]; split; cbn in *; try (rewrite Hca; by repeat match goal with E : occ_state _ = _ |- _ => rewrite E end); intuition (eauto; congruence)]
  | |- _ => apply updates_refl
  end.

Ltac route_guard := repeat match goal with
  | |- context [match occupant_of ?h ?r with _ => _ end] => destruct (occupant_of h r) eqn:?; [|apply updates_refl]
  | |- context [if negb ?b || _ then _ else _] => destruct b eqn:?; cbn [negb orb]; [|apply updates_refl]
  | |- context [if negb ?b then _ else _] => destruct b eqn:?; cbn [negb]; [|apply updates_refl]
  end; rewrite ?Z.eqb_eq, ?bool_decide_eq_true in *.

Lemma install_updates h r : updates h r (install_bound h r).1.
Proof. unfold install_bound. route_guard. destruct (occ_state o) as [[]| |] eqn:Es; cbn [fst]; route_update. Qed.

Lemma reject_updates h r : updates h r (take_rejected_bind h r).
Proof. unfold take_rejected_bind. route_guard. route_update. Qed.

Lemma begin_close_updates h owner r : updates h r (begin_close_for h owner r).1.
Proof.
  unfold begin_close_for. route_guard. destruct (match owner with Some _ => _ | None => _ end); [apply updates_refl|].
  destruct (occ_state o) eqn:Es; cbn [fst take_close_ownership]; route_update.
Qed.

Lemma dispatch_updates h g a f r : updates h r (register_dispatch h g a f r).1.
Proof.
  unfold register_dispatch. destruct (negb (accepting r)); [apply updates_refl|]. route_guard.
  destruct (_ || _) eqn:G; [apply updates_refl|]. apply orb_false_iff in G as [[G1%negb_false_iff%Z.eqb_eq _]%orb_false_iff G2%negb_false_iff%bool_decide_eq_true].
  cbn [fst]. route_update.
Qed.

Lemma gone_updates h r : updates h r (mark_gone_started h r).1.
Proof. unfold mark_gone_started. route_guard. destruct (gone_started o) eqn:Eg; cbn [fst]; route_update. Qed.

Lemma updates_inv max_routes h r r' : RegInv max_routes r -> updates h r r' -> RegInv max_routes r'.
Proof.
  intros HI [->|(o & o' & Ho & _ & Hev & Hok & ->)]; [done|]. apply (RegInv_set_occupant max_routes h r o o' HI Ho (ev_epoch _ _ Hev)).
  apply Hok. apply occupant_of_Some in Ho as (s & _ & Ho & Hat). eapply (slot_at_occupant max_routes r (channel h)); [done|by rewrite Hat].
Qed.

Lemma updates_slot_step h r r' c : updates h r r' -> slot_step (slot_at (slots r) c) (slot_at (slots r') c).
Proof. intros [->|(o & o' & Ho & _ & Hev & _ & ->)]; [apply slot_step_refl|by eapply set_occupant_step]. Qed.


(** The operations that act on one route, by their handle. *)
Lemma step_updates max_routes r op :
  match op with
  | OInstall h | OReject h | OBeginClose h _ | ODispatch h _ _ _ | OMarkGone h => updates h r (step max_routes r op).1
  | _ => True
  end.
Proof.
  destruct op as [| h | h | | h owner | | h g a f | h |]; try done; cbn [step].
  - pose proof (install_updates h r) as H. by destruct (install_bound h r).
  - apply reject_updates.
  - pose proof (begin_close_updates h owner r) as H. by destruct (begin_close_for h owner r).
  - pose proof (dispatch_updates h g a f r) as H. by destruct (register_dispatch h g a f r).
  - pose proof (gone_updates h r) as H. by destruct (mark_gone_started h r).
Qed.

Lemma RegInv_step max_routes r op : RegInv max_routes r -> RegInv max_routes (step max_routes r op).1.
Proof.
  intros HI. pose proof (step_updates max_routes r op) as Hu.
  destruct op as [gen gc cl| | | | |h| | |]; try (by eapply updates_inv); cbn [step] in *.
  - pose proof (RegInv_reserve max_routes gen gc cl r HI) as H. by destruct (reserve max_routes gen gc cl r).
  - destruct HI. by split.
  - by apply RegInv_finalize.
  - cbn. destruct HI as [Hl Hm Hc Hs]. split; cbn; [|done|done|].
    + by rewrite <- size_dom, occupied_drain, size_dom.
    + intros c s. rewrite lookup_fmap. destruct (slots r !! c) as [s0|] eqn:E; cbn; [|done]. intros [= <-]. apply drain_slot_ok. by apply Hs.
Qed.

Lemma drain_slot_step s : slot_step s (drain_slot s).
Proof.
  unfold drain_slot. destruct (occupant s) as [o|] eqn:Eo; [|apply slot_step_refl]. destruct (gone_started o) eqn:Eg; [apply slot_step_refl|].
  destruct (occ_state o) eqn:Es; (left; split; [done|]); rewrite Eo; cbn; split; cbn; try congruence; by auto.
Qed.

Lemma finalize_slot_step h r c : slot_step (slot_at (slots r) c) (slot_at (slots (finalize_close h r)) c).
Proof.
  unfold finalize_close. destruct (slots r !! channel h) as [[last [o|]]|] eqn:E; try apply slot_step_refl. case_match; [|apply slot_step_refl]. cbn [slots].
  rewrite slot_at_insert. case_decide; [subst c|apply slot_step_refl]. left. unfold slot_at. by rewrite E.
Qed.

(** Every operation takes every slot through a [slot_step]. *)
Lemma step_slot_step max_routes r op c : RegInv max_routes r -> slot_step (slot_at (slots r) c) (slot_at (slots (step max_routes r op).1) c).
Proof.
  intros HI. pose proof (step_updates max_routes r op) as Hu.
  destruct op as [gen gc cl| | | | |h| | |]; try (by eapply updates_slot_step); cbn [step] in *.
  - pose proof (reserve_spec max_routes gen gc cl r HI) as H. destruct (reserve max_routes gen gc cl r) as [r' [h|]]; cbn [fst].
    + destruct H as (_ & _ & _ & _ & _ & _ & (_ & Hfree & Hlt) & He & Hat & _). cbn [fst snd] in *. rewrite Hat.
      case_decide; [subst c|apply slot_step_refl]. right. split; [done|]. split; [done|]. split; [done|]. rewrite <- He. by exists gen, cl.
    + destruct H as (_ & _ & _ & H & _). rewrite H. apply slot_step_refl.
  - apply slot_step_refl.
  - apply finalize_slot_step.
  - cbn. unfold slot_at. rewrite lookup_fmap. destruct (slots r !! c) as [s|]; cbn; [apply drain_slot_step|apply slot_step_refl].
Qed.


(** ** Sequences of operations *)
Definition Event : Type := Op * Resp.

(** What an event says of the route [h]. *)
Definition reserved (e : Event) (h : RouteHandle) : Prop := match e with (OReserve _ _ _, RHandle (Some h')) => h' = h | _ => False end.


Lemma run_cons max_routes r op ops :
  (run max_routes r (op :: ops)).2 = (op, (step max_routes r op).2) :: (run max_routes (step max_routes r op).1 ops).2.
Proof. cbn [run]. destruct (step max_routes r op) as [r' resp]. cbn [fst snd]. by destruct (run max_routes r' ops). Qed.

Section run.
Variable max_routes : Z.
Variables K1 K2 : Event -> RouteHandle -> Prop.
Variable D : RouteHandle -> Inner -> Prop.
Hypothesis D_stable : forall r op h, RegInv max_routes r -> D h r -> D h (step max_routes r op).1.
Hypothesis K1_sets : forall r op h, RegInv max_routes r -> K1 (op, (step max_routes r op).2) h -> D h (step max_routes r op).1.
Hypothesis K2_needs : forall r op h, RegInv max_routes r -> K2 (op, (step max_routes r op).2) h -> ~ D h r.


End run.

(** A handle whose epoch its channel has reached, and whose route, while it is there, satisfies [P]. *)
Definition settled (P : Occupant -> Prop) (h : RouteHandle) (r : Inner) : Prop :=
  epoch h <= last_epoch (slot_at (slots r) (channel h)) /\
  forall o, occupant (slot_at (slots r) (channel h)) = Some o -> occ_epoch o = epoch h -> P o.

Lemma settled_stable max_routes P : (forall o o', evolves o o' -> P o -> P o') ->
  forall r op h, RegInv max_routes r -> settled P h r -> settled P h (step max_routes r op).1.
Proof.
  intros HP r op h HI [Hu Ho]. pose proof (step_slot_step max_routes r op (channel h) HI) as Hs. unfold settled.
  set (s := slot_at (slots r) (channel h)) in *. set (s' := slot_at (slots (step max_routes r op).1) (channel h)) in *.
  destruct Hs as [[Hl Hocc]|(Hnone & _ & Hl & gen & c & Hnew)].
  - rewrite Hl. split; [done|]. intros o' Ho' He. rewrite Ho' in Hocc. destruct (occupant s) as [o|]; [|done].
    apply (HP o o' Hocc). apply Ho; [done|]. rewrite <- He. symmetry. apply (ev_epoch _ _ Hocc).
  - rewrite Hl. split; [lia|]. intros o' Ho' He. rewrite Hnew in Ho'. simplify_eq/=. lia.
Qed.

Lemma set_occupant_settled max_routes (P : Occupant -> Prop) h r o o' : RegInv max_routes r ->
  occupant_of h r = Some o -> occ_epoch o = epoch h -> P o' -> settled P h (set_occupant h o' r).
Proof.
  intros HI (s & Hs & Ho & Hat)%occupant_of_Some He HP. unfold settled, set_occupant. rewrite Hs. cbn [slots with_slots].
  rewrite slot_at_insert, decide_True by done. cbn. rewrite <- Hat in Ho. destruct (slot_at_occupant max_routes r _ o HI Ho) as (_ & Hl & _).
  rewrite Hat in Hl. split; [lia|]. by intros ? [= <-].
Qed.



Lemma begin_close_spec h owner r :
  match (begin_close_for h owner r).2 with
  | AlreadyGone => True
  | d => exists o o', occupant_of h r = Some o /\ occ_epoch o = epoch h /\ (begin_close_for h owner r).1 = set_occupant h o' r /\
      stops (occ_state o') = true /\ match d with Owner _ _ => occ_state o = Live /\ occ_state o' = Closing | _ => True end
  end.
Proof.
  unfold begin_close_for. destruct (occupant_of h r) as [o|] eqn:Ho; [|done]. destruct (_ || _) eqn:G; [done|].
  apply orb_false_iff in G as [G1%negb_false_iff%Z.eqb_eq _]. destruct (occ_state o) eqn:Es; cbn; [|..|done]; exists o; by eexists.
Qed.







Lemma updates_free h r r' c : updates h r r' -> occupant (slot_at (slots r) c) = None -> occupant (slot_at (slots r') c) = None.
Proof.
  intros [->|(o & o' & (s & Hs & Ho & Hat)%occupant_of_Some & _ & _ & _ & ->)]; [done|]. unfold set_occupant. rewrite Hs. cbn [slots with_slots].
  rewrite slot_at_insert. case_decide; [subst c; rewrite Hat; congruence|done].
Qed.



(** ** The claims *)
Lemma evolves_stops o o' : evolves o o' -> stops (occ_state o) = true -> stops (occ_state o') = true.
Proof.
  intros [_ _ _ _ Hc Hr]. destruct (occ_state o) as [[]| |]; try done; intros _; [by destruct (Hr eq_refl) as [-> | ->]|by rewrite Hc].
Qed.

Section lifecycle.
Variable max_routes : Z.
Variable ops : list Op.
Hypothesis Hmax : 0 <= max_routes.









End lifecycle.


(** A close that is still running when shutdown drains the registry gets a second owner, and a route
    whose route-gone started does not. *)
Definition sample_ops : list Op :=
  let h := mkHandle 1 1 in
  [OReserve 7 false General; OInstall h; ODispatch h 7 100 []; OBeginClose h (Some 7); ODispatch h 7 101 []; OFreeze; OForceDrain; OMarkGone h; OMarkGone h;
   OForceDrain; OBeginClose h None; OFinalize h; OReserve 7 false General].


(** A handle the registry hands out names a routed channel at a nonzero epoch. *)
Lemma reserved_range_from max_routes ops r e h : RegInv max_routes r -> e ∈ (run max_routes r ops).2 -> reserved e h ->
  1 <= channel h <= u16_MAX /\ 1 <= epoch h <= u32_MAX.
Proof.
  revert r. induction ops as [|op ops IH]; intros r HI; [by intros ?%not_elem_of_nil|]. rewrite run_cons, elem_of_cons. intros [->|He] Hres.
  - destruct op as [gen gc cl| | | | | | | |]; cbn [step] in Hres; try (revert Hres; unfold reserved; repeat case_match; done).
    pose proof (reserve_spec max_routes gen gc cl r HI) as H. destruct (reserve max_routes gen gc cl r) as [r' [h'|]]; [|done]. cbn in Hres. subst h'.
    destruct H as (_ & _ & _ & _ & _ & _ & (Hc & _ & Hl) & He & _). cbn [snd fst] in *. pose proof (slot_at_last max_routes r (channel h) HI). lia.
  - eapply IH; [|done..]. by apply RegInv_step.
Qed.

Lemma reserved_range max_routes ops e h : 0 <= max_routes -> e ∈ (run max_routes new_registry ops).2 -> reserved e h ->
  1 <= channel h <= u16_MAX /\ 1 <= epoch h <= u32_MAX.
Proof. intros H. apply reserved_range_from. by apply RegInv_new. Qed.

(** ** Closing a generation *)
Definition quiet (gen_id : Z) (o : Occupant) : Prop := generation o = gen_id -> stops (occ_state o) = true.

Lemma evolves_quiet gen_id o o' : evolves o o' -> quiet gen_id o -> quiet gen_id o'.
Proof. intros Hev Hq Hg. apply (evolves_stops o o' Hev), Hq. by rewrite <- (ev_generation _ _ Hev). Qed.

Lemma begin_close_step max_routes h owner r : (begin_close_for h owner r).1 = (step max_routes r (OBeginClose h owner)).1.
Proof. cbn [step]. by destruct (begin_close_for h owner r). Qed.

Lemma close_quiet max_routes gen_id h r : RegInv max_routes r -> epoch h <= last_epoch (slot_at (slots r) (channel h)) ->
  settled (quiet gen_id) h (begin_close_for h (Some gen_id) r).1.
Proof.
  intros HI Hu. pose proof (begin_close_spec h (Some gen_id) r) as Hs.
  destruct (begin_close_for h (Some gen_id) r) as [r' d] eqn:E. cbn [fst snd] in *.
  destruct d as [g l| |]; try (destruct Hs as (o & o' & Ho & He & -> & Hst & _); eapply (set_occupant_settled max_routes); [done..|]; by intros _).
  revert E. unfold begin_close_for. destruct (occupant_of h r) as [o|] eqn:Ho.
  - apply occupant_of_Some in Ho as (s & _ & Hos & Hat). destruct (_ || _) eqn:G; [|destruct (occ_state o) eqn:Es; intros [=]; subst r'].
    + intros [= <-]. split; [done|]. rewrite Hat, Hos. intros ? [= <-] He Hg. rewrite He, Hg, !Z.eqb_refl in G. done.
    + split; [done|]. rewrite Hat, Hos. intros ? [= <-] _ _. by rewrite Es.
  - intros [= <-]. split; [done|]. intros o Hoc. revert Ho Hoc. unfold occupant_of, slot_at. by destruct (slots r !! channel h) as [s|]; cbn; [intros ->|].
Qed.

Lemma close_each_settled max_routes gen_id hs r h : RegInv max_routes r -> settled (quiet gen_id) h r -> settled (quiet gen_id) h (close_each gen_id hs r).1.
Proof.
  revert r. induction hs as [|h0 hs IH]; intros r HI Hs; [done|]. cbn [close_each].
  pose proof (RegInv_step max_routes r (OBeginClose h0 (Some gen_id)) HI) as HI'.
  pose proof (settled_stable max_routes (quiet gen_id) (evolves_quiet gen_id) r (OBeginClose h0 (Some gen_id)) h HI Hs) as Hs'.
  rewrite <- begin_close_step in HI', Hs'. destruct (begin_close_for h0 (Some gen_id) r) as [r1 d]. specialize (IH r1 HI' Hs').
  by destruct (close_each gen_id hs r1).
Qed.

Lemma close_each_quiet max_routes gen_id hs r h : RegInv max_routes r -> h ∈ hs -> epoch h <= last_epoch (slot_at (slots r) (channel h)) ->
  settled (quiet gen_id) h (close_each gen_id hs r).1.
Proof.
  revert r. induction hs as [|h0 hs IH]; intros r HI; [by intros ?%not_elem_of_nil|]. rewrite elem_of_cons. intros Hin Hu. cbn [close_each].
  pose proof (RegInv_step max_routes r (OBeginClose h0 (Some gen_id)) HI) as HI'.
  pose proof (settled_stable max_routes (fun _ => True) (fun _ _ _ _ => I) r (OBeginClose h0 (Some gen_id)) h HI (conj Hu (fun _ _ _ => I))) as [Hu' _].
  rewrite <- begin_close_step in HI', Hu'. pose proof (close_quiet max_routes gen_id h0 r HI) as Hq.
  destruct (begin_close_for h0 (Some gen_id) r) as [r1 d]. cbn [fst] in *.
  enough (settled (quiet gen_id) h (close_each gen_id hs r1).1) as Hend by (by destruct (close_each gen_id hs r1)).
  destruct Hin as [->|Hin]; [apply (close_each_settled max_routes); auto|by apply IH].
Qed.

(** No operation gives a route another generation, so the routes a close of [gen_id] finds are those it leaves. *)
Lemma close_each_origin max_routes gen_id hs r c o : RegInv max_routes r -> occupant (slot_at (slots (close_each gen_id hs r).1) c) = Some o ->
  exists o0, occupant (slot_at (slots r) c) = Some o0 /\ occ_epoch o = occ_epoch o0 /\ generation o = generation o0.
Proof.
  revert r. induction hs as [|h0 hs IH]; intros r HI Ho; [by exists o|]. cbn [close_each] in Ho.
  pose proof (RegInv_step max_routes r (OBeginClose h0 (Some gen_id)) HI) as HI'.
  pose proof (step_slot_step max_routes r (OBeginClose h0 (Some gen_id)) c HI) as Hs.
  pose proof (updates_free h0 r _ c (begin_close_updates h0 (Some gen_id) r)) as Hf.
  rewrite <- begin_close_step in HI', Hs. destruct (begin_close_for h0 (Some gen_id) r) as [r1 d]. cbn [fst] in *.
  assert (occupant (slot_at (slots (close_each gen_id hs r1).1) c) = Some o) as Ho1 by (by destruct (close_each gen_id hs r1)).
  destruct (IH r1 HI' Ho1) as (o1 & Ho1' & He & Hg). destruct (occupant (slot_at (slots r) c)) as [o0|] eqn:E; [|rewrite Hf in Ho1'; done].
  destruct Hs as [[_ Hs]|(Hn & _)]; [|congruence]. rewrite E, Ho1' in Hs. exists o0. split; [done|].
  by rewrite He, Hg, (ev_epoch _ _ Hs), (ev_generation _ _ Hs).
Qed.

Lemma close_each_inv max_routes gen_id hs r : RegInv max_routes r -> RegInv max_routes (close_each gen_id hs r).1.
Proof.
  revert r. induction hs as [|h0 hs IH]; intros r HI; [done|]. cbn [close_each]. pose proof (begin_close_updates h0 (Some gen_id) r) as Hu.
  destruct (begin_close_for h0 (Some gen_id) r) as [r1 d]. specialize (IH r1 (updates_inv max_routes h0 r r1 HI Hu)). by destruct (close_each gen_id hs r1).
Qed.

Lemma elem_of_routes_of_generation gen_id r c o : occupant (slot_at (slots r) c) = Some o -> generation o = gen_id ->
  mkHandle c (occ_epoch o) ∈ routes_of_generation gen_id r.
Proof.
  unfold slot_at. destruct (slots r !! c) as [s|] eqn:E; [|done]. cbn. intros Ho Hg. apply list_elem_of_omap. exists (c, s).
  split; [by apply elem_of_map_to_list|]. cbn. rewrite Ho. cbn. by rewrite Hg, Z.eqb_refl.
Qed.

(** Closing a generation leaves none of its routes able to be published or to take a dispatch: every route it still
    has is closing, or will close when its bind completes, with its token cancelled; and no route's handle or owner changes. *)
Theorem close_generation_stops max_routes gen_id r : RegInv max_routes r ->
  let r' := (begin_close_generation gen_id r).1 in
  RegInv max_routes r' /\
  forall c o, occupant (slot_at (slots r') c) = Some o ->
    (generation o = gen_id -> stops (occ_state o) = true /\ cancelled o = true) /\
    exists o0, occupant (slot_at (slots r) c) = Some o0 /\ occ_epoch o = occ_epoch o0 /\ generation o = generation o0.
Proof.
  intros HI. cbn zeta. unfold begin_close_generation. set (hs := routes_of_generation gen_id r).
  pose proof (close_each_inv max_routes gen_id hs r HI) as HI'. split; [done|]. intros c o Ho.
  destruct (close_each_origin max_routes gen_id hs r c o HI Ho) as (o0 & Ho0 & He & Hg). split; [|by exists o0]. intros Hgen.
  assert (stops (occ_state o) = true) as Hst.
  { destruct (slot_at_occupant max_routes r c o0 HI Ho0) as (_ & Hl & _).
    destruct (close_each_quiet max_routes gen_id hs r (mkHandle c (occ_epoch o0)) HI) as [_ Hq].
    - apply elem_of_routes_of_generation; congruence.
    - cbn. lia.
    - by apply (Hq o Ho). }
  split; [done|]. destruct (slot_at_occupant max_routes _ c o HI' Ho) as (_ & _ & _ & Hok). by rewrite (ok_cancelled _ Hok).
Qed.

Lemma run_inv max_routes ops r : RegInv max_routes r -> RegInv max_routes (run max_routes r ops).1.
Proof.
  revert r. induction ops as [|op ops IH]; intros r HI; [done|]. cbn [run]. pose proof (RegInv_step max_routes r op HI) as HI'.
  destruct (step max_routes r op) as [r' resp]. specialize (IH r' HI'). by destruct (run max_routes r' ops).
Qed.

Definition two_generations : Inner :=
  (run 4 new_registry [OReserve 7 false General; OInstall (mkHandle 1 1); OReserve 8 false General; OReserve 7 false Reserved]).1.

Lemma close_generation_stops_witness :
  RegInv 4 two_generations /\ (begin_close_generation 7 two_generations).2 = [(mkHandle 3 1, DeferredToBind); (mkHandle 1 1, Owner 7 [])] /\
  RegInv 4 (begin_close_generation 7 two_generations).1.
Proof.
  assert (RegInv 4 two_generations) as HI by (apply run_inv, RegInv_new; lia). split; [exact HI|]. split; [vm_compute; reflexivity|].
  exact (proj1 (close_generation_stops 4 7 two_generations HI)).
Defined.

(** Whatever the order of the operations, the live count is the number of occupied channels and never passes the
    limit, channels and epochs stay in their ranges with a route's epoch the last of its channel, and a route's token is
    cancelled exactly when its close has been recorded; and a reservation succeeds exactly when admission is open, the
    generation is not cancelled, the limit is not reached and some channel is free and not retired: it then occupies one
    such channel, at the epoch after its last, and touches no other. *)
Theorem reserve_exact max_routes ops gen gc cl : 0 <= max_routes ->
  let r := (run max_routes new_registry ops).1 in
  let '(r', hit) := reserve max_routes gen gc cl r in
  RegInv max_routes r /\
  match hit with
  | Some h => accepting r = true /\ gc = false /\ live r < max_routes /\ available (slots r) (channel h) /\
      epoch h = last_epoch (slot_at (slots r) (channel h)) + 1 /\ occupant_of h r' = Some (new_occupant (epoch h) gen cl) /\
      live r' = live r + 1 /\ forall c, c <> channel h -> slot_at (slots r') c = slot_at (slots r) c
  | None => (accepting r = false \/ gc = true \/ live r = max_routes \/ forall c, ~ available (slots r) c) /\
      live r' = live r /\ forall c, slot_at (slots r') c = slot_at (slots r) c
  end.
Proof.
  intros Hm r. assert (RegInv max_routes r) as HI by (apply run_inv, RegInv_new; done).
  pose proof (reserve_spec max_routes gen gc cl r HI) as H. pose proof (inv_max _ _ HI). destruct (reserve max_routes gen gc cl r) as [r' [h|]]; (split; [done|]).
  - destruct H as (H1 & H2 & H3 & H4 & _ & _ & Hav & He & Hat & _). cbn [fst snd] in *. split_and!; try done.
    + pose proof (Hat (channel h)) as Hh. rewrite decide_True in Hh by done. revert Hh. unfold occupant_of, slot_at. by destruct (slots r' !! channel h) as [s|]; cbn; [intros ->|].
    + intros c Hc. by rewrite Hat, decide_False.
  - destruct H as (H1 & _ & _ & H4 & _ & H6). split; [|done]. destruct (accepting r) eqn:Ea; [|by left]. destruct gc eqn:Eg; [by auto|].
    destruct (decide (live r = max_routes)) as [|Hne]; [by auto|]. right. right. right. apply H6; [done|done|lia].
Qed.

Lemma reserve_exact_witness :
  (reserve 4 7 false General (run 4 new_registry sample_ops).1).2 = None /\
  (reserve 4 7 false General new_registry).2 = Some (mkHandle 1 1) /\
  RegInv 4 new_registry.
Proof.
  split; [vm_compute; reflexivity|]. split; [vm_compute; reflexivity|].
  pose proof (reserve_exact 4 [] 7 false General ltac:(lia)) as H. cbn zeta in H. change (run 4 new_registry []).1 with new_registry in H.
  destruct (reserve 4 7 false General new_registry). exact (proj1 H).
Defined.

End Routing.
