(* ===== verification/Wire.v ===== *)
(** * Wire: the frame envelope of the host runtime (host-runtime/src/wire.rs)

    Twenty header bytes, little endian, then the body. *)
From S2P Require Import Prelude.
From S2P Require Import Pool.
From S2P Require Import Descriptor.
From S2P Require Import Grant.
From S2P Require Import Routing.
From stdpp Require Import gmap.

#[local] Open Scope Z_scope.

Module Wire.

Definition HEADER_LEN : Z := WIRE_HEADER_BYTES.
Definition MAX_BODY_LEN : Z := MAX_FRAME_BYTES.

(** ** Frame types and flags *)
Inductive FrameType :=
| Request | Response | Push | StreamData | StreamEnd | FtError | FtCancel | Ping | Pong | Hello | HelloAck | Goodbye.

#[global] Instance FrameType_eq_dec : EqDecision FrameType.
Proof. solve_decision. Defined.

(** [ty as u8] *)
Definition FrameType_as_u8 (t : FrameType) : Z :=
  match t with
  | Request => 0 | Response => 1 | Push => 2 | StreamData => 3 | StreamEnd => 4 | FtError => 5
  | FtCancel => 6 | Ping => 7 | Pong => 8 | Hello => 9 | HelloAck => 10 | Goodbye => 11
  end.

Definition FrameType_from_u8 (b : Z) : option FrameType :=
  match b with
  | 0 => Some Request | 1 => Some Response | 2 => Some Push | 3 => Some StreamData | 4 => Some StreamEnd | 5 => Some FtError
  | 6 => Some FtCancel | 7 => Some Ping | 8 => Some Pong | 9 => Some Hello | 10 => Some HelloAck | 11 => Some Goodbye
  | _ => None
  end.

Definition is_pure_header (t : FrameType) : bool := match t with FtCancel | Ping | Pong | Goodbye => true | _ => false end.

Inductive Priority := Passive | Interactive | Background.
Inductive AdmissionClass := Normal | Expedite | Sheddable.

#[global] Instance Priority_eq_dec : EqDecision Priority.
Proof. solve_decision. Defined.
#[global] Instance AdmissionClass_eq_dec : EqDecision AdmissionClass.
Proof. solve_decision. Defined.

Definition Priority_as_u8 (p : Priority) : Z := match p with Passive => 0 | Interactive => 1 | Background => 2 end.
Definition AdmissionClass_as_u8 (a : AdmissionClass) : Z := match a with Normal => 0 | Expedite => 1 | Sheddable => 2 end.

Definition Priority_from_bits (bits : Z) : option Priority :=
  match bits with 0 => Some Passive | 1 => Some Interactive | 2 => Some Background | _ => None end.
Definition AdmissionClass_from_bits (bits : Z) : option AdmissionClass :=
  match bits with 0 => Some Normal | 1 => Some Expedite | 2 => Some Sheddable | _ => None end.

Definition FLAG_BINARY : Z := 0x01.
Definition FLAG_PRIORITY_MASK : Z := 0x06.
Definition FLAG_PRIORITY_SHIFT : Z := 1.
Definition FLAG_LAST : Z := 0x08.
Definition FLAG_ADMISSION_MASK : Z := 0x30.
Definition FLAG_ADMISSION_SHIFT : Z := 4.
Definition FLAG_RESERVED_MASK : Z := 0xc0.

(** [Flags] is its byte. *)
Definition Flags_new (binary : bool) (priority : Priority) (last : bool) : Z :=
  let b := 0 in
  let b := if binary then Z.lor b FLAG_BINARY else b in
  let b := Z.lor b (Z.shiftl (Priority_as_u8 priority) FLAG_PRIORITY_SHIFT) in
  if last then Z.lor b FLAG_LAST else b.

Definition is_binary (f : Z) : bool := negb (Z.land f FLAG_BINARY =? 0).
Definition is_last (f : Z) : bool := negb (Z.land f FLAG_LAST =? 0).
Definition priority (f : Z) : option Priority := Priority_from_bits (Z.shiftr (Z.land f FLAG_PRIORITY_MASK) FLAG_PRIORITY_SHIFT).
Definition admission_class (f : Z) : option AdmissionClass :=
  AdmissionClass_from_bits (Z.shiftr (Z.land f FLAG_ADMISSION_MASK) FLAG_ADMISSION_SHIFT).
Definition has_reserved_bits (f : Z) : bool := negb (Z.land f FLAG_RESERVED_MASK =? 0).

(** ** The header *)
Record EnvelopeHeader := mkHeader { len : Z; ty : FrameType; flags : Z; channel : Z; epoch : Z; corr : Z }.

Definition EnvelopeHeader_encode (h : EnvelopeHeader) : list Z :=
  le_bytes 4 (len h) ++ [FrameType_as_u8 (ty h)] ++ [flags h] ++ le_bytes 2 (channel h) ++ le_bytes 4 (epoch h) ++ le_bytes 8 (corr h).

Inductive DecodeError :=
| TooShortForHeader (have : nat)
| UnknownFrameType (byte : Z)
| ReservedFlagBits (f : Z)
| ReservedPriorityBits (f : Z)
| ReservedAdmissionClass (f : Z)
| SheddableIllegalFrameType (t : FrameType) (f : Z)
| NonzeroEpochOnControlChannel (e : Z)
| ZeroEpochOnRoutedChannel (c : Z)
| PureHeaderFrameWithBody (t : FrameType) (l : Z).

(** An index the length check has put in range. *)
Definition byte_at (bytes : list Z) (i : nat) : Z := default 0 (bytes !! i).

Definition is_some {A} (o : option A) : bool := match o with Some _ => true | None => false end.

Definition decode_header (bytes : list Z) : result DecodeError EnvelopeHeader :=
  if Z.of_nat (length bytes) <? HEADER_LEN then Err (TooShortForHeader (length bytes))
  else
    let len := from_le_bytes (slice 0 4 bytes) in
    ty ← ok_or (FrameType_from_u8 (byte_at bytes 4)) (UnknownFrameType (byte_at bytes 4));
    let flags := byte_at bytes 5 in
    if has_reserved_bits flags then Err (ReservedFlagBits flags)
    else if negb (is_some (priority flags)) then Err (ReservedPriorityBits flags)
    else
      ac ← ok_or (admission_class flags) (ReservedAdmissionClass flags);
      if bool_decide (ac = Sheddable) && negb (bool_decide (ty = Push) || bool_decide (ty = StreamData)) then Err (SheddableIllegalFrameType ty flags)
      else if is_pure_header ty && negb (len =? 0) then Err (PureHeaderFrameWithBody ty len)
      else
        let channel := from_le_bytes (slice 6 2 bytes) in
        let epoch := from_le_bytes (slice 8 4 bytes) in
        if (channel =? 0) && negb (epoch =? 0) then Err (NonzeroEpochOnControlChannel epoch)
        else if negb (channel =? 0) && (epoch =? 0) then Err (ZeroEpochOnRoutedChannel channel)
        else Ok (mkHeader len ty flags channel epoch (from_le_bytes (slice 12 8 bytes))).

(** ** Frames *)
Record FrameId := mkFrameId { id_channel : Z; id_epoch : Z; id_corr : Z }.

Definition FrameId_control (corr : Z) : FrameId := mkFrameId 0 0 corr.
Definition FrameId_routed (route : Routing.RouteHandle) (corr : Z) : FrameId := mkFrameId (Routing.channel route) (Routing.epoch route) corr.

Record EncodeError := mkEncodeError { body_len : Z }.

Definition frame_header (t : FrameType) (f : Z) (id : FrameId) (n : Z) : result EncodeError EnvelopeHeader :=
  if MAX_BODY_LEN <? n then Err (mkEncodeError n)
  else if u32_MAX <? n then Err (mkEncodeError n)
  else Ok (mkHeader n t f (id_channel id) (id_epoch id) (id_corr id)).

(** The slice operations on the body's buffer. *)
Definition resize (l : list Z) (n : nat) (x : Z) : list Z := take n l ++ replicate (n - length l) x.
Definition copy_within (l : list Z) (n dst : nat) : list Z := take dst l ++ take n l ++ drop (dst + n) l.

Definition encode_owned_frame (t : FrameType) (f : Z) (id : FrameId) (body : list Z) : result EncodeError (list Z) :=
  let n := length body in
  hdr ← frame_header t f id (Z.of_nat n);
  let header := EnvelopeHeader_encode hdr in
  let body := resize body (n + Z.to_nat HEADER_LEN) 0 in
  let body := copy_within body n (Z.to_nat HEADER_LEN) in
  Ok (header ++ drop (Z.to_nat HEADER_LEN) body).

Definition SPLIT_WRITE_MIN_BODY : Z := 16 * 1024.

Definition encode_split_frame (t : FrameType) (f : Z) (id : FrameId) (body : list Z) : result EncodeError (list Z * list Z) :=
  if Z.of_nat (length body) <? SPLIT_WRITE_MIN_BODY
  then frame ← encode_owned_frame t f id body; Ok (frame, [])
  else hdr ← frame_header t f id (Z.of_nat (length body)); Ok (EnvelopeHeader_encode hdr, body).

Definition response_flags (binary last : bool) : Z := Flags_new binary Interactive last.
Definition pure_header_flags : Z := Flags_new false Passive false.

(** ** What the bytes of a header may say *)
Definition flags_of (binary : bool) (p : Priority) (last : bool) (a : AdmissionClass) : Z :=
  Z.b2z binary + 2 * Priority_as_u8 p + 8 * Z.b2z last + 16 * AdmissionClass_as_u8 a.

Record header_ok (h : EnvelopeHeader) : Prop := {
  hk_len : is_u32 (len h);
  hk_channel : 0 <= channel h <= Routing.u16_MAX;
  hk_epoch : is_u32 (epoch h);
  hk_corr : is_u64 (corr h);
  hk_flags : exists binary p last a, flags h = flags_of binary p last a /\ (a = Sheddable -> ty h = Push \/ ty h = StreamData);
  hk_pure : is_pure_header (ty h) = true -> len h = 0;
  hk_control : channel h = 0 <-> epoch h = 0;
}.

Lemma from_as_u8 t : FrameType_from_u8 (FrameType_as_u8 t) = Some t.
Proof. by destruct t. Qed.

Lemma as_from_u8 b t : FrameType_from_u8 b = Some t -> b = FrameType_as_u8 t.
Proof. unfold FrameType_from_u8. repeat (case_match; try done); intros [= <-]; done. Qed.

(** The fields of a flag byte, read back. *)
Lemma flags_of_fields b p l a : let f := flags_of b p l a in
  has_reserved_bits f = false /\ priority f = Some p /\ admission_class f = Some a /\ is_binary f = b /\ is_last f = l /\ is_u8 f.
Proof. destruct b, p, l, a; vm_compute; by split_and!. Qed.

Lemma Flags_new_of b p l : Flags_new b p l = flags_of b p l Normal.
Proof. by destruct b, p, l. Qed.

(** A flag byte the decoder's checks let through is made of its fields. *)
Lemma flags_fields_inv f p a : is_u8 f -> has_reserved_bits f = false -> priority f = Some p -> admission_class f = Some a ->
  f = flags_of (is_binary f) p (is_last f) a.
Proof.
  intros Hf Hr Hp Ha.
  pose (P := fun f => has_reserved_bits f || match priority f, admission_class f with
                                             | Some p, Some a => f =? flags_of (is_binary f) p (is_last f) a | _, _ => true end).
  assert (P f = true) as H by (apply byte_check; [vm_compute; reflexivity|mlia]).
  unfold P in H. rewrite Hr, Hp, Ha in H. cbn in H. lia.
Qed.

Lemma length_header_encode h : length (EnvelopeHeader_encode h) = 20%nat.
Proof. unfold EnvelopeHeader_encode. by rewrite !length_app, !length_le_bytes. Qed.

Lemma header_encode_u8 h : is_u8 (flags h) -> Forall is_u8 (EnvelopeHeader_encode h).
Proof.
  intros Hf. unfold EnvelopeHeader_encode. rewrite !Forall_app, !Forall_singleton. split_and!; try apply le_bytes_u8; [destruct (ty h); cbn; mlia|done].
Qed.

Lemma encode_slices h rest : let bs := EnvelopeHeader_encode h ++ rest in
  slice 0 4 bs = le_bytes 4 (len h) /\ byte_at bs 4 = FrameType_as_u8 (ty h) /\ byte_at bs 5 = flags h /\
  slice 6 2 bs = le_bytes 2 (channel h) /\ slice 8 4 bs = le_bytes 4 (epoch h) /\ slice 12 8 bs = le_bytes 8 (corr h).
Proof. by split_and!. Qed.

(** A valid header followed by anything decodes to itself. *)
Lemma decode_encode h rest : header_ok h -> decode_header (EnvelopeHeader_encode h ++ rest) = Ok h.
Proof.
  intros [Hl Hc He Hco (b & p & l & a & Hf & Hsh) Hpu Hct]. destruct (encode_slices h rest) as (E1 & E2 & E3 & E4 & E5 & E6).
  unfold decode_header. rewrite length_app, length_header_encode. destruct (Z.ltb_spec (Z.of_nat (20 + length rest)) HEADER_LEN) as [H|_].
  { unfold HEADER_LEN, WIRE_HEADER_BYTES in H. lia. }
  rewrite E1, E2, E3, E4, E5, E6, from_as_u8. rewrite !from_le_bytes_le_bytes by (unfold Routing.u16_MAX in *; cbn; mlia).
  destruct (flags_of_fields b p l a) as (H1 & H2 & H3 & _). rewrite Hf, H1, H2, H3. cbn.
  assert (bool_decide (a = Sheddable) && negb (bool_decide (ty h = Push) || bool_decide (ty h = StreamData)) = false) as ->.
  { case_bool_decide as Ha; [|done]. destruct (Hsh Ha) as [-> | ->]; done. }
  assert (is_pure_header (ty h) && negb (len h =? 0) = false) as ->.
  { destruct (is_pure_header (ty h)); [|done]. by rewrite Hpu. }
  destruct (Z.eqb_spec (channel h) 0) as [Hz|Hz]; destruct (Z.eqb_spec (epoch h) 0) as [Hz'|Hz']; cbn; try tauto; rewrite <- Hf; by destruct h.
Qed.

Lemma length_20 (bs : list Z) : (20 <= length bs)%nat ->
  take 20 bs = slice 0 4 bs ++ [byte_at bs 4] ++ [byte_at bs 5] ++ slice 6 2 bs ++ slice 8 4 bs ++ slice 12 8 bs.
Proof. intros H. do 20 (destruct bs as [|? bs]; [cbn in H; lia|]). done. Qed.

Lemma byte_at_u8 bs i : Forall is_u8 bs -> is_u8 (byte_at bs i).
Proof. intros H. unfold byte_at. destruct (bs !! i) eqn:E; [by eapply Forall_lookup_1|cbn; mlia]. Qed.

Lemma slice_le_range o n bs : Forall is_u8 bs -> (o + n <= length bs)%nat -> 0 <= from_le_bytes (slice o n bs) < 256 ^ Z.of_nat n.
Proof. intros Hb Hl. pose proof (from_le_bytes_range _ (slice_u8 o n bs Hb)) as H. by rewrite length_slice in H. Qed.

(** What the decoder accepts is a valid header, in its own bytes. *)
Lemma header_decode_sound bs h : Forall is_u8 bs -> decode_header bs = Ok h -> header_ok h /\ take 20 bs = EnvelopeHeader_encode h.
Proof.
  intros Hb. unfold decode_header. destruct (Z.ltb_spec (Z.of_nat (length bs)) HEADER_LEN) as [|Hl]; [done|].
  unfold HEADER_LEN, WIRE_HEADER_BYTES in Hl. destruct (FrameType_from_u8 (byte_at bs 4)) as [t|] eqn:Et; cbn [ok_or mbind result_bind]; [|done].
  apply as_from_u8 in Et. destruct (has_reserved_bits (byte_at bs 5)) eqn:Er; [done|].
  destruct (priority (byte_at bs 5)) as [p|] eqn:Ep; cbn [is_some negb]; [|done]. destruct (admission_class (byte_at bs 5)) as [a|] eqn:Ea; cbn [ok_or mbind result_bind]; [|done].
  case_match eqn:Es; [done|]. case_match eqn:Eu; [done|]. case_match eqn:E1; [done|]. case_match eqn:E2; [done|]. intros [= <-].
  pose proof (slice_le_range 0 4 bs Hb ltac:(lia)). pose proof (slice_le_range 6 2 bs Hb ltac:(lia)).
  pose proof (slice_le_range 8 4 bs Hb ltac:(lia)). pose proof (slice_le_range 12 8 bs Hb ltac:(lia)).
  split; [|rewrite length_20 by lia; unfold EnvelopeHeader_encode; cbn [len ty flags channel epoch corr]; by rewrite !le_slice, Et by (done || lia)].
  split; cbn [len ty flags channel epoch corr]; try (unfold Routing.u16_MAX; cbn in *; mlia).
  - exists (is_binary (byte_at bs 5)), p, (is_last (byte_at bs 5)), a. split; [apply flags_fields_inv; [by apply byte_at_u8|done..]|].
    intros ->. cbn in Es. destruct (bool_decide (t = Push)) eqn:E; [left|right]; [by apply bool_decide_eq_true in E|].
    cbn in Es. by apply negb_false_iff, bool_decide_eq_true in Es.
  - intros Hp. rewrite Hp in Eu. lia.
Qed.

(** C30: decoding accepts exactly the encodings of the valid headers, whatever follows them, and gives the header back. *)
Theorem wire_header_exact bs h : Forall is_u8 bs ->
  decode_header bs = Ok h <-> header_ok h /\ take 20 bs = EnvelopeHeader_encode h.
Proof.
  intros Hb. split; [by apply header_decode_sound|]. intros [Hok Ht]. rewrite <- (take_drop 20 bs), Ht. by apply decode_encode.
Qed.

Lemma wire_header_exact_witness :
  let h := mkHeader 1234 Request (Flags_new false Interactive false) 42 1 7 in
  Forall is_u8 (EnvelopeHeader_encode h) /\ decode_header (EnvelopeHeader_encode h) = Ok h /\ header_ok h.
Proof.
  intros h. assert (Forall is_u8 (EnvelopeHeader_encode h)) as Hb by (apply header_encode_u8; vm_compute; split; discriminate).
  split; [exact Hb|]. split; [vm_compute; reflexivity|]. exact (proj1 (proj1 (wire_header_exact _ _ Hb) eq_refl)).
Defined.

(** ** Frames *)
Lemma owned_frame_layout t f id body hdr : frame_header t f id (Z.of_nat (length body)) = Ok hdr ->
  encode_owned_frame t f id body = Ok (EnvelopeHeader_encode hdr ++ body).
Proof.
  intros E. unfold encode_owned_frame. rewrite E. cbn [mbind result_bind]. do 2 f_equal. change (Z.to_nat HEADER_LEN) with 20%nat.
  unfold resize, copy_within. rewrite (take_ge body) by lia. set (buf := body ++ replicate (length body + 20 - length body) 0).
  assert (length buf = (length body + 20)%nat) as Hl by (unfold buf; rewrite length_app, length_replicate; lia).
  rewrite drop_app_length' by (rewrite length_take; lia). rewrite (drop_ge buf) by lia. rewrite app_nil_r. unfold buf. by rewrite take_app_length.
Qed.

Lemma split_frame_layout t f id body hdr : frame_header t f id (Z.of_nat (length body)) = Ok hdr ->
  exists a b, encode_split_frame t f id body = Ok (a, b) /\ a ++ b = EnvelopeHeader_encode hdr ++ body.
Proof.
  intros E. unfold encode_split_frame. destruct (_ <? SPLIT_WRITE_MIN_BODY).
  - rewrite (owned_frame_layout t f id body hdr E). cbn. eexists _, _. split; [done|]. by rewrite app_nil_r.
  - rewrite E. cbn. by eexists _, _.
Qed.

Lemma frame_header_total t f id n : frame_header t f id n =
  if n <=? MAX_BODY_LEN then Ok (mkHeader n t f (id_channel id) (id_epoch id) (id_corr id)) else Err (mkEncodeError n).
Proof.
  unfold frame_header. destruct (Z.ltb_spec MAX_BODY_LEN n); destruct (Z.leb_spec n MAX_BODY_LEN); try lia; [done|].
  destruct (Z.ltb_spec u32_MAX n) as [H'|]; [|done]. assert (MAX_BODY_LEN <= u32_MAX) by (vm_compute; discriminate). lia.
Qed.

(** A frame for a route the registry handed out, with flags made by [Flags::new], is refused exactly when its body is
    over the cap; otherwise both encoders give the header followed by the body, and a receiver that decodes it finds the
    frame's own type, flags, route, correlation and body length. *)
Theorem routed_frames_accepted max_routes ops h t binary prio last corr body : 0 <= max_routes ->
  (exists e, e ∈ (Routing.run max_routes Routing.new_registry ops).2 /\ Routing.reserved e h) ->
  is_u64 corr -> (is_pure_header t = true -> body = []) ->
  let f := Flags_new binary prio last in let id := FrameId_routed h corr in let n := Z.of_nat (length body) in
  if n <=? MAX_BODY_LEN
  then exists frame a b, encode_owned_frame t f id body = Ok frame /\ encode_split_frame t f id body = Ok (a, b) /\ a ++ b = frame /\
       decode_header frame = Ok (mkHeader n t f (Routing.channel h) (Routing.epoch h) corr) /\ drop 20 frame = body
  else encode_owned_frame t f id body = Err (mkEncodeError n) /\ encode_split_frame t f id body = Err (mkEncodeError n).
Proof.
  intros Hmax (e & He & Hres) Hcorr Hpure f id n. pose proof (frame_header_total t f id n) as Hh. destruct (Z.leb_spec n MAX_BODY_LEN) as [Hn|Hn].
  - destruct (split_frame_layout t f id body _ Hh) as (a & b & Hs & Hab). set (hdr := mkHeader _ _ _ _ _ _) in Hh, Hab.
    exists (EnvelopeHeader_encode hdr ++ body), a, b. split; [by apply owned_frame_layout|]. split; [done|]. split; [done|]. split.
    + apply decode_encode. destruct (Routing.reserved_range max_routes ops e h Hmax He Hres) as [Hc Hep].
      split; cbn; [|unfold Routing.u16_MAX in *; lia|unfold Routing.u16_MAX in *; mlia|done| |intros H; unfold n; by rewrite Hpure|lia].
      * assert (MAX_BODY_LEN <= u32_MAX) by (vm_compute; discriminate). mlia.
      * exists binary, prio, last, Normal. split; [apply Flags_new_of|done].
    + apply drop_app_length'. by rewrite length_header_encode.
  - unfold encode_split_frame, encode_owned_frame. fold n. rewrite Hh. cbn. split; [done|]. by destruct (n <? SPLIT_WRITE_MIN_BODY).
Qed.

Lemma routed_frames_accepted_witness :
  let h := Routing.mkHandle 1 1 in
  (exists e, e ∈ (Routing.run 4 Routing.new_registry Routing.sample_ops).2 /\ Routing.reserved e h) /\
  exists frame a b, encode_owned_frame Request (Flags_new false Interactive true) (FrameId_routed h 9) [1; 2] = Ok frame /\
    encode_split_frame Request (Flags_new false Interactive true) (FrameId_routed h 9) [1; 2] = Ok (a, b) /\ a ++ b = frame /\
    decode_header frame = Ok (mkHeader 2 Request (Flags_new false Interactive true) 1 1 9) /\ drop 20 frame = [1; 2].
Proof.
  intros h. assert (exists e, e ∈ (Routing.run 4 Routing.new_registry Routing.sample_ops).2 /\ Routing.reserved e h) as Hex.
  { exists (Routing.OReserve 7 false Routing.General, Routing.RHandle (Some h)). split; [|done]. apply list_elem_of_here. }
  split; [exact Hex|].
  exact (routed_frames_accepted 4 Routing.sample_ops h Request false Interactive true 9 [1; 2] ltac:(lia) Hex ltac:(mlia) ltac:(discriminate)).
Defined.

End Wire.
