(* ===== verification/Publisher.v ===== *)
(** * Publisher: the single publication owner of a host endpoint (host-runtime/src/ring_transport.rs)

    Frames enter in admission order; [pump] publishes them on the ring, and a reserved frame may
    pass a blocked head. The ring is the one of Ring.v, against any peer. The readings of the
    monotonic clock are a function of their position, [charge] and [written] leave with their frame,
    and the frames published are recorded in the order the hook and [written] are called. *)
From S2P Require Import Prelude.
From S2P Require Import Pool.
From S2P Require Import Descriptor.
From S2P Require Import SpanCopy.
From S2P Require Import Retained.
From S2P Require Import Grant.
From S2P Require Import Ring.
From S2P Require Import RingLogic.
From S2P Require Import RingLedger.
From S2P Require Import RingSafety.
From S2P Require Import RingTheorems.
From S2P Require Import Wire.

Module Publisher.

(** ** Frames *)

(** A direct frame's serializer: any sequence of writes, each knowing whether the last one was
    taken, then success, or an error or a panic. *)
Inductive Serializer :=
| SDone (ok : bool)
| SWrite (bytes : list Z) (k : bool -> Serializer).

Record DirectFrame := mkDirect { df_header : list Z; df_body_len : Z; df_serializer : Serializer }.

(** The charge is its bytes, the callback and the terminal credit their ids. *)
Record OutboundFrame := mkOutbound {
  of_bytes : list Z;
  of_tail : list Z;
  of_direct : option DirectFrame;
  of_charge : Z;
  of_written : option Z;
  of_credit : option Z;
}.

Record PendingFrame := mkPending {
  pd_frame : OutboundFrame;
  pd_header : option Wire.EnvelopeHeader;
  pd_inventory : Inventory;
  pd_body_len : Z;
  pd_deadline : Z;
}.

Definition inventory_for (header : Wire.EnvelopeHeader) (body_len terminal_capacity : Z) : Inventory :=
  if Wire.is_pure_header (Wire.ty header) && (body_len =? 0) then InvControl
  else match Wire.ty header with
       | Wire.FtError | Wire.StreamEnd => if body_len <=? terminal_capacity then InvTerminal else InvOrdinary
       | _ => InvOrdinary
       end.

Definition stream_key (x : PendingFrame) : option (Z * Z) :=
  header ← pd_header x;
  if Wire.is_pure_header (Wire.ty header) then None else Some (Wire.channel header, Wire.corr header).

(** ** The publisher *)
Record Publisher := mkPublisher {
  pb_pending : list PendingFrame;
  pb_capacity : nat;
  pb_frame_deadline : Z;
  pb_terminal_capacity : Z;
  pb_direct_failures : Z;
  pb_credits : list (option Z);
  pb_ticks : nat;
  pb_published : list PendingFrame;
}.

Definition set_pending (v : list PendingFrame) (p : Publisher) : Publisher :=
  mkPublisher v (pb_capacity p) (pb_frame_deadline p) (pb_terminal_capacity p) (pb_direct_failures p) (pb_credits p) (pb_ticks p) (pb_published p).
Definition set_failures (v : Z) (p : Publisher) : Publisher :=
  mkPublisher (pb_pending p) (pb_capacity p) (pb_frame_deadline p) (pb_terminal_capacity p) v (pb_credits p) (pb_ticks p) (pb_published p).
Definition set_credits (v : list (option Z)) (p : Publisher) : Publisher :=
  mkPublisher (pb_pending p) (pb_capacity p) (pb_frame_deadline p) (pb_terminal_capacity p) (pb_direct_failures p) v (pb_ticks p) (pb_published p).
Definition set_ticks (v : nat) (p : Publisher) : Publisher :=
  mkPublisher (pb_pending p) (pb_capacity p) (pb_frame_deadline p) (pb_terminal_capacity p) (pb_direct_failures p) (pb_credits p) v (pb_published p).
Definition set_log (v : list PendingFrame) (p : Publisher) : Publisher :=
  mkPublisher (pb_pending p) (pb_capacity p) (pb_frame_deadline p) (pb_terminal_capacity p) (pb_direct_failures p) (pb_credits p) (pb_ticks p) v.

Definition has_pending (p : Publisher) : bool := negb (length (pb_pending p) =? 0)%nat.
Definition can_accept (p : Publisher) : bool := (length (pb_pending p) <? pb_capacity p)%nat.
Definition blocked_head (p : Publisher) : option (Inventory * Z) :=
  match pb_pending p with [] => None | x :: _ => Some (pd_inventory x, pd_body_len x) end.

(** [split_at_checked] at the header. *)
Definition split_header (bytes : list Z) : option (list Z * list Z) :=
  if (length bytes <? Z.to_nat Wire.HEADER_LEN)%nat then None
  else Some (take (Z.to_nat Wire.HEADER_LEN) bytes, drop (Z.to_nat Wire.HEADER_LEN) bytes).

Definition ok_of {E A} (r : result E A) : option A := match r with Ok a => Some a | Err _ => None end.

Section Operations.
Context (b : Backing) (clock : nat -> Z).

Definition Publisher_new (capacity : nat) (frame_deadline : Z) : Publisher :=
  let g := bk_geometry b in
  mkPublisher [] (Nat.max capacity 1) frame_deadline
    (match geometry_class g Terminal with Some c => ClassSpec_body_capacity c | None => 0 end)
    0 (replicate (Z.to_nat (block_count g)) None) 0 [].

Definition frame_header_of (f : OutboundFrame) : option Wire.EnvelopeHeader :=
  match of_direct f with
  | Some d => ok_of (Wire.decode_header (df_header d))
  | None => '(header, _) ← split_header (of_bytes f); ok_of (Wire.decode_header header)
  end.

Definition frame_body_len (f : OutboundFrame) : Z :=
  match of_direct f with
  | Some d => df_body_len d
  | None => saturating_add (saturating_sub (Z.of_nat (length (of_bytes f))) Wire.HEADER_LEN) (Z.of_nat (length (of_tail f)))
  end.

Definition push (f : OutboundFrame) (p : Publisher) : Publisher :=
  let header := frame_header_of f in
  let body_len := frame_body_len f in
  let inventory := match header with None => InvOrdinary | Some h => inventory_for h body_len (pb_terminal_capacity p) end in
  let x := mkPending f header inventory body_len (clock (pb_ticks p) + pb_frame_deadline p) in
  set_ticks (S (pb_ticks p)) (set_pending (pb_pending p ++ [x]) p).

(** ** Publishing one frame *)

(** [commit_before]: the reservation is dropped, so aborted, when the deadline has passed. The
    number of clock readings so far goes in and comes out. *)
Definition commit_before (r : ProducerReservation) (body_len deadline : Z) (t : nat) : M Empty_set (nat * result unit unit) :=
  if deadline <=? clock t then _ ← reservation_drop b r; mret (S t, Err ())
  else
    o ← attempt (commit b r body_len);
    mret (S t, match o with Ok _ => Ok () | Err _ => Err () end).

(** [ReservationWriter] under the serializer. *)
Fixpoint serialize (s : Serializer) (r : ProducerReservation) (written : Z) : M Empty_set (ProducerReservation * Z * bool) :=
  match s with
  | SDone ok => mret (r, written, ok)
  | SWrite bytes k =>
      o ← attempt (reservation_write b r bytes);
      match o with
      | Ok (r, Ok _) => serialize (k true) r (written + Z.of_nat (length bytes))
      | Ok (r, Err _) => serialize (k false) r written
      | Err _ => serialize (k false) r written
      end
  end.

Inductive DirectFailure := Body | Commit.

Definition publish_direct (r : ProducerReservation) (d : DirectFrame) (body_len deadline : Z) (t : nat)
    : M Empty_set (nat * result DirectFailure unit) :=
  '(r, written, ok) ← serialize (df_serializer d) r 0;
  if negb ok || negb (written =? body_len) then _ ← reservation_drop b r; mret (t, Err Body)
  else '(t, o) ← commit_before r body_len deadline t; mret (t, map_err (fun _ => Commit) o).

(** [reservation.write(..)?]: the reservation, dropped on an error. *)
Definition write_or_drop (r : ProducerReservation) (bytes : list Z) : M Empty_set (option ProducerReservation) :=
  o ← attempt (reservation_write b r bytes);
  match o with
  | Ok (r, Ok _) => mret (Some r)
  | Ok (r, Err _) => _ ← reservation_drop b r; mret None
  | Err _ => _ ← reservation_drop b r; mret None
  end.

Definition publish_owned (r : ProducerReservation) (bytes tail : list Z) (body_len deadline : Z) (t : nat)
    : M Empty_set (nat * result unit unit) :=
  match split_header bytes with
  | None => _ ← reservation_drop b r; mret (t, Err ())
  | Some (_, first_body) =>
      r ← write_or_drop r first_body;
      match r with
      | None => mret (t, Err ())
      | Some r =>
          r ← write_or_drop r tail;
          match r with None => mret (t, Err ()) | Some r => commit_before r body_len deadline t end
      end
  end.

(** The header and body length of a frame as [try_publish] takes them. *)
Definition frame_parts (f : OutboundFrame) : option (list Z * Z) :=
  match of_direct f with
  | Some d => Some (df_header d, df_body_len d)
  | None =>
      '(header, first_body) ← split_header (of_bytes f);
      n ← checked_add u64_MAX (Z.of_nat (length first_body)) (Z.of_nat (length (of_tail f)));
      Some (header, n)
  end.

Definition publish_frame (f : OutboundFrame) (r : ProducerReservation) (body_len deadline : Z) (p : Publisher)
    : M Empty_set (Publisher * bool) :=
  match of_direct f with
  | Some d =>
      '(t, o) ← publish_direct r d body_len deadline (pb_ticks p);
      let p := set_ticks t p in
      match o with
      | Ok _ => mret (p, true)
      | Err Body => mret (set_failures (pb_direct_failures p + 1) p, false)
      | Err Commit => mret (p, false)
      end
  | None =>
      '(t, o) ← publish_owned r (of_bytes f) (of_tail f) body_len deadline (pb_ticks p);
      mret (set_ticks t p, is_ok o)
  end.

(** [Ok false] leaves the frame pending; an error after the reservation has taken it out. *)
Definition try_publish (index : nat) (p : Publisher) : M Empty_set (Publisher * result unit bool) :=
  match pb_pending p !! index with
  | None => panic
  | Some x =>
      match frame_parts (pd_frame x) with
      | None => mret (p, Err ())
      | Some (header, body_len) =>
          o ← attempt (try_reserve_in b (pd_inventory x) body_len header);
          match o with
          | Err PE_Exhausted => mret (p, Ok false)
          | Err _ => mret (p, Err ())
          | Ok r =>
              let p := set_pending (delete index (pb_pending p)) p in
              '(p, ok) ← publish_frame (pd_frame x) r body_len (pd_deadline x) p;
              if negb ok then mret (p, Err ())
              else
                let p := set_credits (<[Z.to_nat (pr_block r) := of_credit (pd_frame x)]> (pb_credits p)) p in
                mret (set_log (pb_published p ++ [x]) p, Ok true)
          end
      end
  end.

(** ** Pumping *)
Definition eligible (p : Publisher) (index : nat) (head_blocked : bool) (x : PendingFrame) : bool :=
  if (index =? 0)%nat then true
  else if head_blocked then
    match pd_inventory x with
    | InvControl => match pd_header x with Some h => negb (bool_decide (Wire.ty h = Wire.Goodbye)) | None => false end
    | InvTerminal => negb (existsb (fun y => bool_decide (stream_key y = stream_key x)) (take index (pb_pending p)))
    | InvOrdinary => false
    end
  else true.

Fixpoint pump_loop (fuel : nat) (index : nat) (head_blocked : bool) (p : Publisher) : M Empty_set (Publisher * result unit unit) :=
  match fuel with
  | O => mret (p, Ok ())
  | S fuel =>
      match pb_pending p !! index with
      | None => mret (p, Ok ())
      | Some x =>
          if negb (eligible p index head_blocked x) then pump_loop fuel (S index) head_blocked p
          else
            '(p, o) ← try_publish index p;
            match o with
            | Err _ => mret (p, Err ())
            | Ok true => pump_loop fuel index (if (index =? 0)%nat then false else head_blocked) p
            | Ok false => pump_loop fuel (S index) (if (index =? 0)%nat then true else head_blocked) p
            end
      end
  end.

(** The callback of [take_reclaimed]: the credit of a block that came back is released. *)
Definition settle (credits : list (option Z)) (block : Z) : list (option Z) := <[Z.to_nat block := None]> credits.

Definition pump (p : Publisher) : M Empty_set (Publisher * result unit unit) :=
  o ← attempt (take_reclaimed b);
  match o with
  | Err _ => mret (p, Err ())
  | Ok settled =>
      let p := set_credits (foldl settle (pb_credits p) settled) p in
      let now := clock (pb_ticks p) in
      let p := set_ticks (S (pb_ticks p)) p in
      if existsb (fun x => pd_deadline x <=? now) (pb_pending p) then mret (p, Err ())
      else pump_loop (length (pb_pending p)) 0 false p
  end.

Definition publisher_arm_capacity_wait (p : Publisher) : M Empty_set (Publisher * result unit bool) :=
  match blocked_head p with
  | None => mret (p, Ok false)
  | Some (inventory, bound) =>
      o ← attempt (arm_capacity_wait b inventory bound);
      match o with
      | Err _ => mret (p, Err ())
      | Ok false => mret (p, Ok false)
      | Ok true =>
          let before := length (pb_pending p) in
          '(p, o) ← pump p;
          match o with
          | Err _ => mret (p, Err ())
          | Ok _ =>
              if (length (pb_pending p) =? before)%nat then mret (p, Ok true)
              else
                o ← attempt (complete_capacity_wait b);
                mret (p, match o with Ok _ => Ok false | Err _ => Err () end)
          end
      end
  end.

(** What an endpoint does with its publisher; it stops using it once a call fails. *)
Inductive POp := PPush (f : OutboundFrame) | PPump | PArm.

Definition publisher_step (op : POp) (p : Publisher) : M Empty_set (Publisher * bool) :=
  match op with
  | PPush f => mret (push f p, true)
  | PPump => '(p, o) ← pump p; mret (p, is_ok o)
  | PArm => '(p, o) ← publisher_arm_capacity_wait p; mret (p, is_ok o)
  end.

Fixpoint publisher_run (ops : list POp) (p : Publisher) : M Empty_set (Publisher * bool) :=
  match ops with
  | [] => mret (p, true)
  | op :: ops => '(p, ok) ← publisher_step op p; if (ok : bool) then publisher_run ops p else mret (p, false)
  end.
End Operations.

(** ** Publication order *)

(** [A] merges [R] and [Q], each in its own order. *)
Inductive shuffle {X} : list X -> list X -> list X -> Prop :=
| shuffle_nil : shuffle [] [] []
| shuffle_left x R Q A : shuffle R Q A -> shuffle (x :: R) Q (x :: A)
| shuffle_right x R Q A : shuffle R Q A -> shuffle R (x :: Q) (x :: A).

Lemma shuffle_nil_r {X} (R : list X) : shuffle R [] R.
Proof. induction R; by constructor. Qed.

Lemma shuffle_snoc {X} (R Q A : list X) x : shuffle R Q A -> shuffle R (Q ++ [x]) (A ++ [x]).
Proof. induction 1; cbn; by repeat constructor. Qed.

Lemma shuffle_perm {X} (R Q A : list X) : shuffle R Q A -> R ++ Q ≡ₚ A.
Proof. induction 1 as [|x R Q A _ IH|x R Q A _ IH]; [done|by cbn; rewrite IH|by rewrite <- Permutation_middle, IH]. Qed.

(** Moving one element of the right list to the left. *)
Lemma shuffle_move {X} (R Q1 Q2 A : list X) x : shuffle R (Q1 ++ x :: Q2) A -> exists R', R' ≡ₚ x :: R /\ shuffle R' (Q1 ++ Q2) A.
Proof.
  remember (Q1 ++ x :: Q2) as Q eqn:E. intros H. revert Q1 E. induction H as [|y R Q A H IH|y R Q A H IH]; intros Q1 E.
  - by destruct Q1.
  - destruct (IH _ E) as (R' & HR & Hs). exists (y :: R'). split; [rewrite HR; constructor|by constructor].
  - destruct Q1 as [|z Q1]; cbn in E; simplify_eq.
    + exists (x :: R). split; [done|by constructor].
    + destruct (IH _ eq_refl) as (R' & HR & Hs). exists R'. split; [done|by constructor].
Qed.

(** What precedes the first pending element has left. *)
Lemma shuffle_head {X} (R Q A : list X) x : shuffle R (x :: Q) A -> exists A1 A2 R2, A = A1 ++ x :: A2 /\ R = A1 ++ R2.
Proof.
  remember (x :: Q) as Q' eqn:E. intros H. revert E. induction H as [|y R Q' A H IH|y R Q' A H IH]; intros E; [done| |].
  - destruct (IH E) as (A1 & A2 & R2 & -> & ->). by exists (y :: A1), A2, R2.
  - simplify_eq. by exists [], A, R.
Qed.

(** The frames that pass nothing: ordinary data and [Goodbye]. *)
Definition barrier (x : PendingFrame) : bool :=
  match pd_inventory x with
  | InvOrdinary => true
  | InvControl => match pd_header x with Some h => bool_decide (Wire.ty h = Wire.Goodbye) | None => true end
  | InvTerminal => false
  end.

(** What [x] may pass, when it does. *)
Definition may_pass (passed : list PendingFrame) (x : PendingFrame) : Prop :=
  passed = [] \/ barrier x = false /\ (pd_inventory x = InvTerminal -> forall y, y ∈ passed -> stream_key y <> stream_key x).

Definition classified (x : PendingFrame) : Prop := pd_inventory x = InvControl -> stream_key x = None.

(** The frames of one stream, and the ordinary ones. *)
Definition of_stream (k : Z * Z) (l : list PendingFrame) : list PendingFrame := filter (fun x => stream_key x = Some k) l.
Definition ordinary (l : list PendingFrame) : list PendingFrame := filter (fun x => pd_inventory x = InvOrdinary) l.

(** [P] has been published and [Q] is pending of the frames admitted in the order [A]. *)
Record Order (A P Q : list PendingFrame) : Prop := {
  or_shuffle : exists R, R ≡ₚ P /\ shuffle R Q A;
  or_stream : forall k, of_stream k P ++ of_stream k Q = of_stream k A;
  or_ordinary : ordinary P ++ ordinary Q = ordinary A;
  or_barrier : forall P1 y P2, P = P1 ++ y :: P2 -> barrier y = true -> exists A1 A2, A = A1 ++ y :: A2 /\ A1 ⊆+ P1;
  or_class : Forall classified Q;
}.

Lemma Order_new : Order [] [] [].
Proof. split; [exists []; split; [done|constructor]|done|done|by intros []|constructor]. Qed.

Lemma Order_push A P Q x : Order A P Q -> classified x -> Order (A ++ [x]) P (Q ++ [x]).
Proof.
  intros [(R & HR & Hs) Hst Hor Hb Hc] Hx. split.
  - exists R. split; [done|by apply shuffle_snoc].
  - intros k. unfold of_stream in *. rewrite !list.filter_app, app_assoc. by rewrite Hst.
  - unfold ordinary in *. rewrite !list.filter_app, app_assoc. by rewrite Hor.
  - intros P1 y P2 HP Hy. destruct (Hb P1 y P2 HP Hy) as (A1 & A2 & -> & HA). exists A1, (A2 ++ [x]). by rewrite <- app_assoc.
  - rewrite Forall_app, Forall_singleton. done.
Qed.

Lemma filter_pass {X} (p : X -> Prop) `{Hdec : !forall x, Decision (p x)} (P Q1 Q2 : list X) x :
  (p x -> filter p Q1 = []) -> filter p (P ++ [x]) ++ filter p (Q1 ++ Q2) = filter p P ++ filter p (Q1 ++ x :: Q2).
Proof.
  intros H. rewrite !list.filter_app, list.filter_cons, list.filter_cons. destruct (decide (p x)) as [Hx|]; [|by rewrite list.filter_nil, app_nil_r].
  rewrite (H Hx), list.filter_nil. by rewrite <- app_assoc.
Qed.

Lemma filter_none {X} (p : X -> Prop) `{Hdec : !forall x, Decision (p x)} (l : list X) : (forall x, x ∈ l -> ~ p x) -> filter p l = [].
Proof.
  intros H. induction l as [|x l IH]; [done|]. rewrite list.filter_cons. rewrite decide_False; [|apply H; by left]. apply IH. intros y Hy. apply H. by right.
Qed.

Lemma may_pass_ordinary l x : may_pass l x -> pd_inventory x = InvOrdinary -> l = [].
Proof. intros [->|[Hb _]] Hi; [done|]. unfold barrier in Hb. by rewrite Hi in Hb. Qed.

Lemma Order_publish A P Q1 x Q2 : Order A P (Q1 ++ x :: Q2) -> may_pass Q1 x -> Order A (P ++ [x]) (Q1 ++ Q2).
Proof.
  intros [(R & HR & Hs) Hst Hor Hb Hc] Hp. apply Forall_app in Hc as [Hc1 [Hx Hc2]%list.Forall_cons]. split.
  - destruct (shuffle_move R Q1 Q2 A x Hs) as (R' & HR' & Hs'). exists R'. split; [|done]. rewrite HR', HR. apply Permutation_cons_append.
  - intros k. unfold of_stream. rewrite filter_pass; [apply Hst|]. intros Hk. apply filter_none. intros y Hy Hky.
    destruct Hp as [->|[Hbar Hterm]]; [by apply not_elem_of_nil in Hy|]. destruct (pd_inventory x) eqn:Ei.
    + unfold barrier in Hbar. by rewrite Ei in Hbar.
    + unfold classified in Hx. rewrite (Hx Ei) in Hk. done.
    + apply (Hterm eq_refl y Hy). congruence.
  - unfold ordinary. rewrite filter_pass; [apply Hor|]. intros Hi. by rewrite (may_pass_ordinary Q1 x Hp Hi).
  - intros P1 y P2 HP Hy. destruct P2 as [|z P2 _] using rev_ind.
    + apply app_inj_tail in HP as [-> ->]. destruct Hp as [->|[Hbar _]]; [|congruence].
      destruct (shuffle_head R Q2 A y Hs) as (A1 & A2 & R2 & -> & ->). exists A1, A2. split; [done|].
      rewrite <- HR. apply submseteq_inserts_r. done.
    + rewrite app_comm_cons, app_assoc in HP. apply app_inj_tail in HP as [-> ->]. by eapply Hb.
  - by apply Forall_app.
Qed.

(** ** The publisher keeps the order *)

(** What holds of every result of a computation, whatever the ring and the peer do. *)
Definition always {E A} (m : M E A) (Q : A -> Prop) : Prop := forall w a w', m w = (Done a, w') -> Q a.

Lemma always_ret {E A} (a : A) Q : Q a -> always (E := E) (mret a) Q.
Proof. intros H w a' w' [= <- <-]. done. Qed.

Lemma always_bind {E A B} (m : M E A) (f : A -> M E B) P Q : always m P -> (forall a, P a -> always (f a) Q) -> always (m ≫= f) Q.
Proof.
  intros Hm Hf w x w'. unfold mbind, M_bind. destruct (m w) as [[a|e|] w1] eqn:E1; intros H; try done. exact (Hf a (Hm w a w1 E1) w1 x w' H).
Qed.

Lemma always_mono {E A} (m : M E A) (P Q : A -> Prop) : always m P -> (forall a, P a -> Q a) -> always m Q.
Proof. intros Hm HPQ w a w' H. by apply HPQ, (Hm w a w'). Qed.

Lemma always_any {E A B} (m : M E A) (f : A -> M E B) Q : (forall a, always (f a) Q) -> always (m ≫= f) Q.
Proof. intros H. apply (always_bind m f (fun _ => True)); [done|]. intros a _. apply H. Qed.

Lemma always_panic {E A} (Q : A -> Prop) : always (E := E) panic Q.
Proof. by intros w a w' [=]. Qed.

Section Keeps.
Context (b : Backing) (clock : nat -> Z).

(** Publishing a frame leaves the queue and the record to its caller. *)
Lemma publish_frame_keeps f r n d p :
  always (publish_frame b clock f r n d p) (fun o => pb_pending o.1 = pb_pending p /\ pb_published o.1 = pb_published p).
Proof.
  unfold publish_frame. destruct (of_direct f); apply always_any; intros [t o]; [destruct o as [|[]]|]; by apply always_ret.
Qed.

Lemma try_publish_effect index p : always (try_publish b clock index p) (fun o =>
  exists x, pb_pending p !! index = Some x /\
  match o.2 with
  | Ok true => pb_pending o.1 = delete index (pb_pending p) /\ pb_published o.1 = pb_published p ++ [x]
  | Ok false => o.1 = p
  | Err _ => pb_published o.1 = pb_published p
  end).
Proof.
  unfold try_publish. destruct (pb_pending p !! index) as [x|] eqn:Ex; [|apply always_panic].
  enough (always (match frame_parts (pd_frame x) with Some _ => _ | None => _ end) _) as H by (eapply always_mono; [exact H|]; intros o Ho; exists x; split; [done|exact Ho]).
  destruct (frame_parts (pd_frame x)) as [[header n]|] eqn:Eparts; [|by apply always_ret].
  apply always_any. intros [r|e].
  - eapply always_bind; [apply publish_frame_keeps|]. intros [p' ok] [Hq Hl]. cbn [fst] in *.
    destruct ok; cbn [negb]; apply always_ret; cbn; [|done]. by rewrite Hq, Hl.
  - destruct e; by apply always_ret.
Qed.

(** The published frames extend those before, and what is pending now follows the admission order. *)
Definition keeps (A : list PendingFrame) (p : Publisher) (ok : bool) : Prop :=
  exists Q, Order A (pb_published p) Q /\ (ok = true -> Q = pb_pending p).

Lemma eligible_may_pass p index hb x : (index <> 0%nat -> hb = true) -> eligible p index hb x = true -> may_pass (take index (pb_pending p)) x.
Proof.
  intros Hhb. unfold eligible. destruct (Nat.eqb_spec index 0) as [->|Hi]; [by left|].
  rewrite (Hhb Hi). intros H. right. unfold barrier.
  destruct (pd_inventory x); [done| |].
  - destruct (pd_header x); [|done]. apply negb_true_iff in H. by rewrite H.
  - split; [done|]. intros _ y Hy Hk. apply negb_true_iff in H. rewrite <- not_true_iff_false, existsb_exists in H. apply H.
    exists y. split; [by apply list_elem_of_In|by apply bool_decide_eq_true].
Qed.

Lemma pump_loop_keeps A fuel : forall index hb p, (index <> 0%nat -> hb = true) -> Order A (pb_published p) (pb_pending p) ->
  always (pump_loop b clock fuel index hb p) (fun o => keeps A o.1 (is_ok o.2)).
Proof.
  induction fuel as [|fuel IH]; intros index hb p Hhb Ho; [apply always_ret; by exists (pb_pending p)|]. cbn [pump_loop].
  destruct (pb_pending p !! index) as [x|] eqn:Ex; [|apply always_ret; by exists (pb_pending p)].
  destruct (eligible p index hb x) eqn:Ee; cbn [negb]; [|apply IH; [|done]; intros _].
  - eapply always_bind; [apply try_publish_effect|]. intros [p' [[]|]]; cbn [fst snd]; intros H.
    + destruct H as (x' & Hx & Hq & Hl). rewrite Ex in Hx. simplify_eq. apply IH; [destruct (Nat.eqb_spec index 0); done|].
      rewrite Hl, Hq, delete_take_drop. apply Order_publish; [by rewrite take_drop_middle|by eapply eligible_may_pass].
    + destruct H as (_ & _ & ->). apply IH; [|done]. intros _. destruct (Nat.eqb_spec index 0) as [|Hne]; [done|by apply Hhb].
    + destruct H as (_ & _ & H). apply always_ret. exists (pb_pending p). cbn. by rewrite H.
  - destruct (decide (index = 0%nat)) as [->|Hne]; [done|by apply Hhb].
Qed.

(** The pending frames are fuel enough: more changes nothing. *)
Lemma pump_loop_fuel fuel k : forall index hb p w, (length (pb_pending p) <= index + fuel)%nat ->
  pump_loop b clock (fuel + k) index hb p w = pump_loop b clock fuel index hb p w.
Proof.
  induction fuel as [|fuel IH]; intros index hb p w Hl; cbn [pump_loop plus].
  - destruct k; [done|]. cbn [pump_loop]. by rewrite (proj2 (lookup_ge_None _ _)) by lia.
  - destruct (pb_pending p !! index) as [x|] eqn:Ex; [|done]. destruct (negb _); [apply IH; lia|]. unfold mbind, M_bind.
    destruct (try_publish b clock index p w) as [[[p' o]|e|] w'] eqn:Et; [|done|done].
    destruct (try_publish_effect index p w (p', o) w' Et) as (x' & _ & H). cbn [fst snd] in H. destruct o as [[]|]; [| |done]; apply IH.
    + destruct H as [-> _]. rewrite length_delete by (by eexists). pose proof (lookup_lt_Some _ _ _ Ex). lia.
    + subst p'. lia.
Qed.

Lemma pump_keeps A p : Order A (pb_published p) (pb_pending p) -> always (pump b clock p) (fun o => keeps A o.1 (is_ok o.2)).
Proof.
  intros Ho. unfold pump. apply always_any. intros [settled|e]; [|apply always_ret; by exists (pb_pending p)].
  destruct (existsb _ _); [apply always_ret; by exists (pb_pending p)|]. by apply pump_loop_keeps.
Qed.

Lemma arm_keeps A p : Order A (pb_published p) (pb_pending p) -> always (publisher_arm_capacity_wait b clock p) (fun o => keeps A o.1 (is_ok o.2)).
Proof.
  intros Ho. unfold publisher_arm_capacity_wait. destruct (blocked_head p) as [[i n]|]; [|apply always_ret; by exists (pb_pending p)].
  apply always_any. intros [[]|]; try (apply always_ret; by exists (pb_pending p)). eapply always_bind; [by apply (pump_keeps A)|].
  intros [p' [[]|]] (Q & HQ & Hp); cbn [fst snd is_ok] in *; [|apply always_ret; by exists Q].
  destruct (_ =? _)%nat; [apply always_ret; by exists Q|]. apply always_any. intros [|]; apply always_ret; exists Q; by split.
Qed.

(** The frames of a push are classified by their own header. *)
Lemma push_classified f p : exists x, push clock f p = set_ticks (S (pb_ticks p)) (set_pending (pb_pending p ++ [x]) p) /\ pd_frame x = f /\ classified x.
Proof.
  eexists. split; [reflexivity|]. split; [done|]. unfold classified, stream_key. cbn.
  destruct (frame_header_of f) as [h|]; cbn; [|done]. unfold inventory_for. destruct (Wire.is_pure_header (Wire.ty h)); [done|].
  cbn. by destruct (Wire.ty h); repeat case_match.
Qed.

Definition pushed (ops : list POp) : list OutboundFrame := omap (fun op => match op with PPush f => Some f | _ => None end) ops.

Lemma push_order A f p : Order A (pb_published p) (pb_pending p) ->
  exists x, pd_frame x = f /\ Order (A ++ [x]) (pb_published (push clock f p)) (pb_pending (push clock f p)).
Proof. intros Ho. destruct (push_classified f p) as (x & -> & Hf & Hc). exists x. split; [done|]. by apply Order_push. Qed.

(** [A'] extends [A] by frames pushed by [ops]: all of them when the run did not fail. *)
Definition admitted (ops : list POp) (A A' : list PendingFrame) (ok : bool) : Prop :=
  exists B, A' = A ++ B /\ (pd_frame <$> B) `prefix_of` pushed ops /\ (ok = true -> pd_frame <$> B = pushed ops).

Lemma step_keeps op A p : Order A (pb_published p) (pb_pending p) ->
  always (publisher_step b clock op p) (fun o => exists A', admitted [op] A A' o.2 /\ keeps A' o.1 o.2).
Proof.
  intros Ho. assert (forall ok, (match op with PPush _ => False | _ => True end) -> admitted [op] A A ok) as Hsame.
  { intros ok Hop. exists []. rewrite app_nil_r. by destruct op. }
  destruct op as [f| |]; cbn [publisher_step].
  - apply always_ret. destruct (push_order A f p Ho) as (x & Hf & Hx). exists (A ++ [x]). split; [|by eexists].
    exists [x]. cbn. rewrite Hf. done.
  - eapply always_bind; [by apply (pump_keeps A)|]. intros [p' o] Hk. apply always_ret. exists A. split; [by apply Hsame|done].
  - eapply always_bind; [by apply (arm_keeps A)|]. intros [p' o] Hk. apply always_ret. exists A. split; [by apply Hsame|done].
Qed.

Lemma run_keeps ops : forall A p, Order A (pb_published p) (pb_pending p) ->
  always (publisher_run b clock ops p) (fun o => exists A', admitted ops A A' o.2 /\ keeps A' o.1 o.2).
Proof.
  induction ops as [|op ops IH]; intros A p Ho; cbn [publisher_run].
  - apply always_ret. exists A. split; [exists []; by rewrite app_nil_r|]. by exists (pb_pending p).
  - eapply always_bind; [by apply step_keeps|]. intros [p' ok] (A1 & (B1 & -> & Hpre & Hall) & Q & HQ & Hq). cbn [fst snd] in *.
    assert (pushed (op :: ops) = pushed [op] ++ pushed ops) as Hcons by (unfold pushed; by rewrite <- omap_app).
    destruct ok.
    + rewrite (Hq eq_refl) in HQ. eapply always_mono; [by apply IH|]. intros o (A2 & (B2 & -> & Hpre2 & Hall2) & Hk).
      exists ((A ++ B1) ++ B2). split; [|done]. exists (B1 ++ B2). rewrite <- app_assoc, fmap_app, Hcons, (Hall eq_refl). split; [done|].
      split; [by apply prefix_app|]. intros Ho2. by rewrite Hall2.
    + apply always_ret. exists (A ++ B1). split; [|by exists Q]. exists B1. split; [done|]. split; [|done]. rewrite Hcons. by apply prefix_app_r.
Qed.
End Keeps.

(** C27: whatever the ring and the peer do, and in any sequence of admissions and pumps, the frames a publisher has
    published are distinct admissions of its own: together with the pending ones they are exactly the frames admitted, as
    long as no call has failed. Frames of one request stream, and ordinary frames among themselves, are published in the
    order they were admitted; and when an ordinary frame or a [Goodbye] is published, every frame admitted before it has
    been. *)
Theorem publication_order b clock capacity frame_deadline ops w p ok w' :
  publisher_run b clock ops (Publisher_new b capacity frame_deadline) w = (Done (p, ok), w') ->
  exists A Q, (pd_frame <$> A) `prefix_of` pushed ops /\ pb_published p ++ Q ≡ₚ A /\
    (ok = true -> pd_frame <$> A = pushed ops /\ Q = pb_pending p) /\
    (forall k, of_stream k (pb_published p) ++ of_stream k Q = of_stream k A) /\
    ordinary (pb_published p) ++ ordinary Q = ordinary A /\
    forall P1 y P2, pb_published p = P1 ++ y :: P2 -> barrier y = true -> exists A1 A2, A = A1 ++ y :: A2 /\ A1 ⊆+ P1.
Proof.
  intros H. destruct (run_keeps b clock ops [] (Publisher_new b capacity frame_deadline) Order_new w (p, ok) w' H)
    as (A & (B & -> & Hpre & Hall) & Q & [(R & HR & Hs) Hst Hor Hb _] & Hq). cbn [fst snd app] in *.
  exists B, Q. split; [done|]. split; [rewrite <- HR; by apply shuffle_perm|]. split; [intros Ho; by auto|]. done.
Qed.

(** ** The publisher on the ring *)
Inductive serializer_ok : Serializer -> Prop :=
| ok_done ok : serializer_ok (SDone ok)
| ok_write bytes k : Forall is_u8 bytes -> (forall r, serializer_ok (k r)) -> serializer_ok (SWrite bytes k).

(** Bytes are machine bytes, and a direct frame carries a header and a machine length. *)
Record frame_ok (f : OutboundFrame) : Prop := {
  fo_bytes : Forall is_u8 (of_bytes f);
  fo_tail : Forall is_u8 (of_tail f);
  fo_direct : forall d, of_direct f = Some d -> header_ok (df_header d) /\ is_u64 (df_body_len d) /\ serializer_ok (df_serializer d);
}.

Definition pop_ok (op : POp) : Prop := match op with PPush f => frame_ok f | _ => True end.

Lemma split_header_ok bytes header body : Forall is_u8 bytes -> split_header bytes = Some (header, body) -> header_ok header /\ Forall is_u8 body.
Proof.
  intros Hb. unfold split_header. change (Z.to_nat Wire.HEADER_LEN) with 20%nat. destruct (Nat.ltb_spec (length bytes) 20) as [|Hl]; [done|]. intros [= <- <-].
  split; [split; [rewrite length_take; lia|by apply Forall_take]|by apply Forall_drop].
Qed.

Lemma frame_parts_ok f header n : frame_ok f -> frame_parts f = Some (header, n) -> header_ok header /\ is_u64 n.
Proof.
  intros [Hb Ht Hd]. unfold frame_parts. destruct (of_direct f) as [d|]; [intros [= <- <-]; by destruct (Hd d eq_refl) as (? & ? & _)|].
  destruct (split_header (of_bytes f)) as [[hd body]|] eqn:E; cbn; [|done]. destruct (checked_add _ _ _) as [n'|] eqn:Ec; cbn; [|done].
  intros [= <- <-]. apply checked_add_Some in Ec as [-> Hc]. split; [exact (proj1 (split_header_ok _ _ _ Hb E))|]. mlia.
Qed.

Section OnRing.
Context (page_size : Z) (b : Backing) (clock : nat -> Z).
Hypothesis Hb : backing_ok page_size b.
Variable ls : list PayloadLease.

(** The side with no reservation open, having published [n] descriptors. *)
Definition idle (n : Z) (h : Handle) : Prop := side_inv b h (None, ls) /\ hd_published_local h = n.
Definition idle_any (h : Handle) : Prop := side_inv b h (None, ls).
(** The side with a reservation open. *)
Definition opened (n : Z) (r : ProducerReservation) (h : Handle) : Prop := side_inv b h (Some r, ls) /\ hd_published_local h = n.

Lemma opened_res n r h : opened n r h -> handle_inv (bk_geometry b) h /\ res_ok b h r /\ leases_ok b h ls.
Proof. intros [(Hi & Hr & Hl) _]. split; [done|]. split; [by apply Hr|done]. Qed.

Lemma wp_drop_opened {E} n r h (R : E -> Handle -> Prop) : opened n r h -> wp (reservation_drop b r) (fun _ h' => idle n h') R h.
Proof.
  intros Ho. pose proof (opened_res n r h Ho) as (Hi & Hr & Hl). unfold reservation_drop. wp_step.
  eapply wp_mono; [by apply (wp_abort_now page_size b Hb); [|apply Hr]| |done]. intros r' h' [_ Ha]. apply wp_ret.
  split; [by eapply aborted_side|]. destruct Ha as [_ _ _ _ _ [-> _] _]. apply Ho.
Qed.

Lemma wp_drop_finished {E} r h (Q : unit -> Handle -> Prop) (R : E -> Handle -> Prop) : pr_finished r = true -> Q () h -> wp (reservation_drop b r) Q R h.
Proof. intros Hf HQ. unfold reservation_drop, abort_now. rewrite Hf. wp_step. by apply wp_ret, wp_ret. Qed.

Lemma wp_commit_before n r body_len deadline t h (R : Empty_set -> Handle -> Prop) : opened n r h -> is_u64 body_len ->
  wp (commit_before b clock r body_len deadline t) (fun o h' => idle_any h' /\ hd_published_local h' <= n + 1 /\ (is_ok o.2 = true -> hd_published_local h' = n + 1)) R h.
Proof.
  intros Ho Hn. pose proof (opened_res n r h Ho) as (Hi & Hr & Hl). unfold commit_before. destruct (deadline <=? clock t).
  - wp_step. eapply wp_mono; [by apply (wp_drop_opened n)| |done]. intros _ h' [H1 H2]. apply wp_ret. cbn. split; [done|]. split; [lia|done].
  - wp_step. wp_step. destruct Ho as [_ Hp]. eapply wp_mono; [by apply (wp_commit page_size b Hb)| |]; cbn beta.
    + intros id h' [Hc _]. apply wp_ret. split; [by eapply committed_side|]. destruct Hc as [_ _ _ _ _ (_ & _ & Hpub)]. cbn. lia.
    + intros e h' H. apply wp_ret. cbn. destruct H as [[_ [pub Hc]]|[Ha|Ha]].
      * split; [by eapply committed_side|]. destruct Hc as [_ _ _ _ _ Hpub]. destruct pub; destruct Hpub as (_ & _ & Hpub); split; (lia || done).
      * split; [by eapply aborted_side|]. destruct Ha as [_ _ _ _ _ [Hpub _] _]. split; (lia || done).
      * split; [eapply aborted_side; [done|]; by eapply (frame_leases b h)|]. destruct Ha as [_ _ _ _ _ [Hpub _] _]. cbn in Hpub. split; (lia || done).
Qed.

Lemma wp_write_opened {E} n r bytes h (Q : result ProducerError (ProducerReservation * result ProducerError unit) -> Handle -> Prop) (R : E -> Handle -> Prop) :
  opened n r h -> Forall is_u8 bytes ->
  (forall r' o h', opened n r' h' -> Q (Ok (r', o)) h') ->
  (forall r' o h', pr_finished r' = true -> idle n h' -> Q (Ok (r', o)) h') ->
  wp (attempt (reservation_write b r bytes)) Q R h.
Proof.
  intros Ho Hbytes H1 H2. pose proof (opened_res n r h Ho) as (Hi & Hr & Hl). wp_step.
  eapply wp_mono; [by apply (wp_reservation_write page_size b Hb)| |done]; cbn beta. intros [r' o] h' [[-> Hr']|[Hf Ha]]; cbn [fst] in *.
  - apply H1. destruct Ho as [_ Hp]. split; [|done]. split; [done|]. split; [by intros ? [= <-]|done].
  - apply H2; [done|]. split; [by eapply aborted_side|]. destruct Ha as [_ _ _ _ _ [-> _] _]. apply Ho.
Qed.

(** A reservation in hand: open, or already aborted. *)
Definition held (n : Z) (r : ProducerReservation) (h : Handle) : Prop := opened n r h \/ pr_finished r = true /\ idle n h.

Lemma wp_drop_held {E} n r h (R : E -> Handle -> Prop) : held n r h -> wp (reservation_drop b r) (fun _ h' => idle n h') R h.
Proof. intros [Ho|[Hf Hi]]; [by apply wp_drop_opened|by apply wp_drop_finished]. Qed.

Lemma wp_write_held {E} n r bytes h (Q : result ProducerError (ProducerReservation * result ProducerError unit) -> Handle -> Prop) (R : E -> Handle -> Prop) :
  held n r h -> Forall is_u8 bytes -> (forall r' o h', held n r' h' -> Q (Ok (r', o)) h') -> wp (attempt (reservation_write b r bytes)) Q R h.
Proof.
  intros [Ho|[Hf Hi]] Hbytes HQ.
  - apply (wp_write_opened n); [done|done| |]; intros; apply HQ; [by left|by right].
  - wp_step. unfold reservation_write. rewrite Hf. apply wp_ret. apply HQ. by right.
Qed.

Lemma wp_commit_held n r body_len deadline t h (R : Empty_set -> Handle -> Prop) : held n r h -> is_u64 body_len ->
  wp (commit_before b clock r body_len deadline t) (fun o h' => idle_any h' /\ hd_published_local h' <= n + 1 /\ (is_ok o.2 = true -> hd_published_local h' = n + 1)) R h.
Proof.
  intros [Ho|[Hf [Hi Hp]]] Hn; [by apply wp_commit_before|]. unfold commit_before. destruct (deadline <=? clock t).
  - wp_step. apply wp_drop_finished; [done|]. apply wp_ret. cbn. split; [done|]. split; [lia|done].
  - wp_step. wp_step. unfold commit. rewrite Hf. apply wp_throw. apply wp_ret. cbn. split; [done|]. split; [lia|done].
Qed.

Lemma wp_serialize n sz : serializer_ok sz -> forall r written h (R : Empty_set -> Handle -> Prop), held n r h ->
  wp (serialize b sz r written) (fun o h' => held n o.1.1 h') R h.
Proof.
  induction 1 as [ok|bytes k Hbytes _ IH]; intros r written h R Hh; cbn [serialize]; [by apply wp_ret|].
  wp_step. apply (wp_write_held n); [done|done|]. intros r' [] h' Hh'; by apply IH.
Qed.

Lemma wp_publish_frame n f r body_len deadline p h (R : Empty_set -> Handle -> Prop) : opened n r h -> frame_ok f -> is_u64 body_len ->
  wp (publish_frame b clock f r body_len deadline p)
    (fun o h' => idle_any h' /\ hd_published_local h' <= n + 1 /\ (o.2 = true -> hd_published_local h' = n + 1)) R h.
Proof.
  intros Ho [Hbytes Htail Hdirect] Hn. assert (held n r h) as Hh by (by left).
  assert (forall (P : Prop) h', idle n h' -> idle_any h' /\ hd_published_local h' <= n + 1 /\ (false = true -> P)) as Hidle.
  { intros P h' [Hi Hp]. split; [done|]. split; [lia|done]. }
  unfold publish_frame. destruct (of_direct f) as [d|] eqn:Ed.
  - destruct (Hdirect d eq_refl) as (_ & _ & Hser). unfold publish_direct. wp_step. wp_step.
    eapply wp_mono; [by apply (wp_serialize n)| |done]; cbn beta. intros [[r' written] ok] h' Hh'. cbn [fst] in Hh'.
    destruct (negb ok || _).
    + wp_step. eapply wp_mono; [by apply (wp_drop_held n)| |done]. intros ? h2 Hi. apply wp_ret, wp_ret. by apply Hidle.
    + wp_step. eapply wp_mono; [by apply (wp_commit_held n)| |done]. intros [t o] h2 Hc. apply wp_ret. destruct o; by apply wp_ret.
  - unfold publish_owned. wp_step. destruct (split_header (of_bytes f)) as [[hd body]|] eqn:Es.
    2:{ wp_step. eapply wp_mono; [by apply (wp_drop_held n)| |done]. intros ? h2 Hi. apply wp_ret, wp_ret. by apply Hidle. }
    assert (forall r bytes h (Q : option ProducerReservation -> Handle -> Prop), held n r h -> Forall is_u8 bytes ->
      (forall r' h', held n r' h' -> Q (Some r') h') -> (forall h', idle n h' -> Q None h') -> wp (write_or_drop b r bytes) Q R h) as Hwrite.
    { intros r0 bytes h0 Q Hr0 Hb0 HS HN. unfold write_or_drop. wp_step. apply (wp_write_held n); [done|done|]. intros r' [] h' Hh'; [by apply wp_ret, HS|].
      wp_step. eapply wp_mono; [by apply (wp_drop_held n)| |done]. intros ? h2 Hi. by apply wp_ret, HN. }
    wp_step. apply Hwrite; [done|exact (proj2 (split_header_ok _ _ _ Hbytes Es))| |intros h' Hi; by apply wp_ret, wp_ret, Hidle].
    intros r' h' Hh'. wp_step. apply Hwrite; [done|done| |intros h2 Hi; by apply wp_ret, wp_ret, Hidle].
    intros r2 h2 Hh2. eapply wp_mono; [by apply (wp_commit_held n)| |done]. intros [t o] h3 Hc. by apply wp_ret.
Qed.

(** What the record says and what the ring has: one descriptor for each frame. *)
Definition in_step (n0 : Z) (p : Publisher) (ok : bool) (h : Handle) : Prop :=
  idle_any h /\ (ok = true -> hd_published_local h = n0 + Z.of_nat (length (pb_published p))).

Lemma refused_idle h h' : idle_any h -> refused_to b h h' -> idle_any h' /\ hd_published_local h' = hd_published_local h.
Proof.
  intros Hi Hr. split; [|apply Hr]. eapply (frame_side b); [|exact Hi]. by apply refused_client.
Qed.

Definition frames_ok (p : Publisher) : Prop := Forall (fun x => frame_ok (pd_frame x)) (pb_pending p).

(** A fact that holds of every result can be added to a postcondition. *)
Lemma wp_always {E A} (m : M E A) (P : A -> Prop) (Q : A -> Handle -> Prop) (R : E -> Handle -> Prop) h :
  always m P -> wp m Q R h -> wp m (fun a h' => P a /\ Q a h') R h.
Proof.
  intros HP Hm s peer bell Hs Hp. specialize (Hm s peer bell Hs Hp). destruct (m _) as [[a|e|] w'] eqn:E1; try done.
  destruct Hm as (? & ? & ?). split; [done|]. split; [done|]. split; [by eapply HP|done].
Qed.

Lemma wp_try_publish n0 index p h (R : Empty_set -> Handle -> Prop) : in_step n0 p true h -> frames_ok p -> (index < length (pb_pending p))%nat ->
  wp (try_publish b clock index p) (fun o h' => in_step n0 o.1 (is_ok o.2) h' /\ frames_ok o.1) R h.
Proof.
  intros [Hi Hp] Hf Hlt. specialize (Hp eq_refl). unfold try_publish.
  destruct (lookup_lt_is_Some_2 (pb_pending p) index Hlt) as [x Hx]. rewrite Hx. pose proof (Forall_lookup_1 _ _ _ _ Hf Hx) as Hfx.
  assert (forall h', idle_any h' -> hd_published_local h' = hd_published_local h -> forall o, in_step n0 p o h' /\ frames_ok p) as Hsame.
  { intros h' Hi' Hp' o. split; [|done]. split; [done|]. intros _. by rewrite Hp'. }
  destruct (frame_parts (pd_frame x)) as [[header n]|] eqn:Eparts; [|apply wp_ret; by apply Hsame].
  destruct (frame_parts_ok _ _ _ Hfx Eparts) as [Hh Hn]. pose proof Hi as (Hinv & _ & Hls).
  wp_step. wp_step. eapply wp_mono; [by apply (wp_try_reserve page_size b Hb)| |]; cbn beta.
  2:{ intros e h' [Hi' Hp']%refused_idle; [|done]. destruct e; apply wp_ret; by apply Hsame. }
  intros r h' [Hinv' Hres]. assert (opened (hd_published_local h) r h') as Ho.
  { split; [exact (reserved_side b h _ _ _ r h' ls Hinv Hls Hn Hh Hinv' Hres)|]. apply Hres. }
  wp_step. eapply wp_mono; [eapply wp_always; [apply publish_frame_keeps|by eapply wp_publish_frame]| |done]; cbn beta.
  intros [p' ok] h2 ((Hq & Hl) & Hi2 & Hle & Hok). cbn [fst snd] in *.
  assert (frames_ok p') as Hf' by (unfold frames_ok; rewrite Hq; by apply Forall_delete).
  destruct ok; cbn [negb]; apply wp_ret; cbn [fst snd is_ok]; [|split; [by split|done]].
  split; [|done]. split; [done|]. intros _. cbn. rewrite Hl, length_app, Hok by done. cbn. lia.
Qed.

Lemma wp_pump_loop n0 fuel : forall index hb p h (R : Empty_set -> Handle -> Prop), in_step n0 p true h -> frames_ok p ->
  wp (pump_loop b clock fuel index hb p) (fun o h' => in_step n0 o.1 (is_ok o.2) h' /\ frames_ok o.1) R h.
Proof.
  induction fuel as [|fuel IH]; intros index hb p h R Hs Hf; cbn [pump_loop]; [by apply wp_ret|].
  destruct (pb_pending p !! index) as [x|] eqn:Ex; [|by apply wp_ret]. destruct (negb _); [by apply IH|]. wp_step.
  eapply wp_mono; [apply (wp_try_publish n0); [done|done|by eapply lookup_lt_Some]| |done]; cbn beta.
  intros [p' [[]|]] h' [Hs' Hf']; cbn [fst snd is_ok] in *; [by apply IH|by apply IH|by apply wp_ret].
Qed.

Lemma framed_in_step n0 p o h h' : in_step n0 p true h -> client_frame b h h' -> in_step n0 p o h'.
Proof. intros [Hi Hp] Hc. split; [by eapply (frame_side b)|]. intros _. rewrite (cf_published _ _ _ Hc). by apply Hp. Qed.

Lemma wp_pump n0 p h (R : Empty_set -> Handle -> Prop) : in_step n0 p true h -> frames_ok p ->
  wp (pump b clock p) (fun o h' => in_step n0 o.1 (is_ok o.2) h' /\ frames_ok o.1) R h.
Proof.
  intros Hs Hf. pose proof Hs as [(Hinv & _) _]. unfold pump. wp_step. wp_step.
  eapply wp_mono; [by apply (framed_take_reclaimed page_size b Hb)| |]; cbn beta.
  - intros settled h' Hc. assert (in_step n0 p true h') as Hs' by (by eapply framed_in_step).
    destruct (existsb _ _); [apply wp_ret; split; [by destruct Hs'|done]|]. by apply wp_pump_loop.
  - intros e h' Hc. apply wp_ret. split; [by eapply framed_in_step|done].
Qed.

Lemma wp_arm n0 p h (R : Empty_set -> Handle -> Prop) : in_step n0 p true h -> frames_ok p ->
  wp (publisher_arm_capacity_wait b clock p) (fun o h' => in_step n0 o.1 (is_ok o.2) h' /\ frames_ok o.1) R h.
Proof.
  intros Hs Hf. unfold publisher_arm_capacity_wait. destruct (blocked_head p) as [[i n]|]; [|by apply wp_ret].
  wp_step. wp_step. eapply wp_mono; [apply (framed_arm_capacity_wait page_size b Hb); apply Hs| |]; cbn beta.
  2:{ intros e h' Hc. apply wp_ret. split; [by eapply framed_in_step|done]. }
  intros [] h' Hc; (assert (in_step n0 p true h') as Hs' by (by eapply framed_in_step)); [|by apply wp_ret].
  wp_step. eapply wp_mono; [by apply (wp_pump n0)| |done]; cbn beta. intros [p' [[]|]] h2 [Hs2 Hf2]; cbn [fst snd is_ok] in *; [|by apply wp_ret].
  destruct (_ =? _)%nat; [by apply wp_ret|]. wp_step. wp_step.
  eapply wp_mono; [apply (framed_complete_capacity_wait b); apply Hs2| |]; cbn beta; intros ? h3 Hc3; apply wp_ret; (split; [by eapply framed_in_step|done]).
Qed.

Lemma wp_publisher_run n0 ops : Forall pop_ok ops -> forall p h (R : Empty_set -> Handle -> Prop), in_step n0 p true h -> frames_ok p ->
  wp (publisher_run b clock ops p) (fun o h' => in_step n0 o.1 o.2 h') R h.
Proof.
  induction 1 as [|op ops Hop _ IH]; intros p h R Hs Hf; cbn [publisher_run]; [by apply wp_ret|]. wp_step.
  eapply (wp_mono _ (fun o h' => in_step n0 o.1 o.2 h' /\ frames_ok o.1)); [| |done].
  - destruct op as [f| |]; cbn [publisher_step].
    + apply wp_ret. split; [done|]. apply Forall_app. split; [done|]. by constructor.
    + wp_step. eapply wp_mono; [by apply (wp_pump n0)| |done]. intros [p' o] h' H. by apply wp_ret.
    + wp_step. eapply wp_mono; [by apply (wp_arm n0)| |done]. intros [p' o] h' H. by apply wp_ret.
  - intros [p' []] h' [Hs' Hf']; cbn [fst snd] in *; [by apply IH|by apply wp_ret].
Qed.
End OnRing.

(** ** A host that sends a response, its end and a goodbye *)
Definition sample_frame (t : Wire.FrameType) (id : Wire.FrameId) (body : list Z) : OutboundFrame :=
  mkOutbound (match Wire.encode_owned_frame t Wire.pure_header_flags id body with Ok bytes => bytes | Err _ => [] end) [] None 0 None None.

Definition sample_run : list POp :=
  [PPush (sample_frame Wire.StreamData (Wire.mkFrameId 3 1 9) [1; 2; 3]); PPush (sample_frame Wire.StreamEnd (Wire.mkFrameId 3 1 9) []);
   PPump; PPush (sample_frame Wire.Goodbye (Wire.FrameId_control 0) []); PPump; PArm].

Definition sample_world : World := mkWorld (initialize_mapping host_backing) host_side [] [].

Lemma sample_bytes t id body : Forall is_u8 body -> Forall is_u8 (of_bytes (sample_frame t id body)).
Proof.
  intros Hb. unfold sample_frame. cbn [of_bytes]. destruct (Wire.encode_owned_frame t Wire.pure_header_flags id body) as [bytes|] eqn:E; [|constructor].
  pose proof (Wire.frame_header_total t Wire.pure_header_flags id (Z.of_nat (length body))) as Hh.
  destruct (Z.of_nat (length body) <=? Wire.MAX_BODY_LEN).
  - rewrite (Wire.owned_frame_layout _ _ _ _ _ Hh) in E. set (hdr := Wire.mkHeader _ _ _ _ _ _) in *.
    assert (bytes = Wire.EnvelopeHeader_encode hdr ++ body) as -> by congruence. apply Forall_app. split; [|done]. apply Wire.header_encode_u8. vm_compute. split; discriminate.
  - unfold Wire.encode_owned_frame in E. rewrite Hh in E. done.
Qed.

Lemma sample_run_ok : Forall pop_ok sample_run.
Proof.
  assert (forall t id body, Forall is_u8 body -> frame_ok (sample_frame t id body)) as H.
  { intros t id body Hb. split; [by apply sample_bytes|constructor|done]. }
  unfold sample_run. repeat (apply list.Forall_cons; split); try done; apply H; repeat constructor; mlia.
Qed.

(** C28: on a reachable ring side with no reservation open, no sequence of admissions and pumps can make the publisher
    panic, whatever the peer writes and when: it ends with no reservation open and every lease valid, and as long as no
    call has failed the ring has published exactly one descriptor for every frame the publisher has recorded. *)
Theorem publisher_safe page_size b clock capacity frame_deadline ops h ls s peer bell :
  backing_ok page_size b -> reach b h (None, ls) -> Forall pop_ok ops -> shared_ok s -> peer_ok peer ->
  exists p ok w', publisher_run b clock ops (Publisher_new b capacity frame_deadline) (mkWorld s h peer bell) = (Done (p, ok), w') /\
    side_inv b (w_handle w') (None, ls) /\
    (ok = true -> hd_published_local (w_handle w') = hd_published_local h + Z.of_nat (length (pb_published p))).
Proof.
  intros Hb Hr Hops Hs Hp. pose proof (reach_inv _ _ Hb _ _ Hr) as Hi.
  assert (in_step b ls (hd_published_local h) (Publisher_new b capacity frame_deadline) true h) as Hst by (split; [done|]; cbn; lia).
  destruct (wp_run _ _ _ _ s peer bell (wp_publisher_run page_size b clock Hb ls (hd_published_local h) ops Hops
    (Publisher_new b capacity frame_deadline) h (fun _ _ => False) Hst (Forall_nil_2 _)) Hs Hp) as [([p ok] & w' & Hx & Hi' & Hok)|(e & _)]; [|by destruct e].
  by exists p, ok, w'.
Qed.

Lemma publisher_safe_witness :
  exists p ok w', publisher_run host_backing (fun _ => 0) sample_run (Publisher_new host_backing 8 100) sample_world = (Done (p, ok), w') /\
    side_inv host_backing (w_handle w') (None, []).
Proof.
  destruct (publisher_safe 4096 host_backing (fun _ => 0) 8 100 sample_run host_side [] (initialize_mapping host_backing) [] []
    host_backing_ok host_side_reach sample_run_ok host_shared_ok (Forall_nil_2 _)) as (p & ok & w' & Hx & Hi & _).
  exists p, ok, w'. split; [exact Hx|exact Hi].
Defined.

Definition sample_end : Publisher :=
  match publisher_run host_backing (fun _ => 0) sample_run (Publisher_new host_backing 8 100) sample_world with
  | (Done (p, true), _) => p
  | _ => Publisher_new host_backing 8 100
  end.

Lemma sample_done : exists w', publisher_run host_backing (fun _ => 0) sample_run (Publisher_new host_backing 8 100) sample_world = (Done (sample_end, true), w').
Proof.
  assert (match publisher_run host_backing (fun _ => 0) sample_run (Publisher_new host_backing 8 100) sample_world with (Done (_, true), _) => true | _ => false end = true)
    as H by (vm_compute; reflexivity).
  unfold sample_end. destruct (publisher_run host_backing (fun _ => 0) sample_run (Publisher_new host_backing 8 100) sample_world) as [[[p []]|e|] w']; try discriminate H.
  exists w'. reflexivity.
Qed.

Lemma publication_order_witness :
  (Wire.ty <$> omap pd_header (pb_published sample_end)) = [Wire.StreamData; Wire.StreamEnd; Wire.Goodbye] /\
  exists A, pd_frame <$> A = pushed sample_run /\ ordinary (pb_published sample_end) ++ ordinary (pb_pending sample_end) = ordinary A.
Proof.
  split; [vm_compute; reflexivity|]. destruct sample_done as [w' E].
  destruct (publication_order host_backing (fun _ => 0) 8 100 sample_run sample_world sample_end true w' E) as (A & Q & _ & _ & Hall & _ & Hord & _).
  destruct (Hall eq_refl) as [HA ->]. exists A. split; [exact HA|exact Hord].
Defined.

End Publisher.
