(* ===== verification/FrameChannel.v ===== *)
(** * FrameChannel: admission to the outbound queue and its final drain (host-runtime/src/frame_channel.rs)

    Senders, closers and the finishing endpoint run concurrently. A step is one access to a shared
    object: a cancellation token, the admission lock or the queue; a sequence of steps is an
    interleaving. The queue is tokio's channel, used through the interface [Mpsc]. *)
From S2P Require Import Prelude.

#[local] Open Scope Z_scope.

(** What the code relies on of [tokio::sync::mpsc]: first in, first out, and a receive that finds
    nothing means the queue is empty. *)
Class Mpsc (C F : Type) := {
  mp_empty : C;
  mp_items : C -> list F;
  mp_send : F -> C -> C;
  mp_try_recv : C -> option (F * C);
  mp_items_empty : mp_items mp_empty = [];
  mp_items_send f c : mp_items (mp_send f c) = mp_items c ++ [f];
  mp_items_recv c : match mp_try_recv c with
                    | Some (f, c') => mp_items c = f :: mp_items c'
                    | None => mp_items c = []
                    end;
}.

#[global] Instance list_mpsc (F : Type) : Mpsc (list F) F.
Proof.
  refine {| mp_empty := []; mp_items l := l; mp_send f l := l ++ [f]; mp_try_recv l := match l with [] => None | f :: l => Some (f, l) end |}.
  - reflexivity.
  - reflexivity.
  - by intros [].
Defined.

Module FrameChannel.
Section Channel.
Context {C F : Type} `{!Mpsc C F}.

(** ** State *)

(** One call of [send_before]: waiting for a permit, holding one, holding the admission lock shared,
    past the re-check of [retired], queued but still under the lock, and returned. *)
Inductive Sender :=
| Waiting (frame : F)
| Permitted (frame : F)
| Locked (frame : F)
| Checked (frame : F)
| Queued (frame : F)
| Sent (frame : F)
| WriterGone (frame : F).

(** One call of [drain_finished]. *)
Inductive Drain := NotDraining | TriedOnce | Exclusive.

Record State := mkState {
  tx : C;
  retired : bool;
  generation : bool;
  discard : bool;
  finish : bool;
  senders : list Sender;
  half_finished : nat;
  half_discarded : nat;
  drain : Drain;
  drained : bool;
  received : list F;
}.

(** Any number of sends, none started. *)
Definition frame_sender (frames : list F) : State :=
  mkState mp_empty false false false false (Waiting <$> frames) 0 0 NotDraining false [].

Definition set_sender (i : nat) (x : Sender) (s : State) : State :=
  mkState (tx s) (retired s) (generation s) (discard s) (finish s) (<[i := x]> (senders s)) (half_finished s) (half_discarded s) (drain s) (drained s) (received s).
Definition set_tx (v : C) (s : State) : State :=
  mkState v (retired s) (generation s) (discard s) (finish s) (senders s) (half_finished s) (half_discarded s) (drain s) (drained s) (received s).
Definition set_tokens (r g d f : bool) (s : State) : State :=
  mkState (tx s) r g d f (senders s) (half_finished s) (half_discarded s) (drain s) (drained s) (received s).
Definition set_half (hf hd : nat) (s : State) : State :=
  mkState (tx s) (retired s) (generation s) (discard s) (finish s) (senders s) hf hd (drain s) (drained s) (received s).
Definition set_drain (d : Drain) (v : bool) (s : State) : State :=
  mkState (tx s) (retired s) (generation s) (discard s) (finish s) (senders s) (half_finished s) (half_discarded s) d v (received s).
Definition receive (frame : F) (c : C) (s : State) : State :=
  mkState c (retired s) (generation s) (discard s) (finish s) (senders s) (half_finished s) (half_discarded s) (drain s) (drained s) (received s ++ [frame]).

(** The admission lock: who holds it shared, and whether it is held exclusively. *)
Definition shares (x : Sender) : bool := match x with Locked _ | Checked _ | Queued _ => true | _ => false end.
Definition shared (s : State) : bool := existsb shares (senders s).
Definition exclusive (s : State) : bool := match drain s with Exclusive => true | _ => false end.

(** ** Steps *)
Inductive Event :=
| EvReserve (i : nat) | EvReserveRetired (i : nat) | EvReserveClosed (i : nat) | EvDeadline (i : nat)
| EvLock (i : nat) | EvCheck (i : nat) | EvPush (i : nat) | EvUnlock (i : nat)
| EvFinishRetire | EvFinishToken | EvDiscardRetire | EvDiscardToken | EvFail
| EvRecv | EvDrainTry | EvDrainLock | EvDrainLast.

(** [None]: the step is not enabled. *)
Definition step (e : Event) (s : State) : option State :=
  match e with
  | EvReserve i =>
      match senders s !! i with Some (Waiting f) => if retired s then None else Some (set_sender i (Permitted f) s) | _ => None end
  | EvReserveRetired i =>
      match senders s !! i with Some (Waiting f) => if retired s then Some (set_sender i (WriterGone f) s) else None | _ => None end
  | EvReserveClosed i =>
      match senders s !! i with Some (Waiting f) => Some (set_sender i (WriterGone f) s) | _ => None end
  | EvDeadline i =>
      match senders s !! i with
      | Some (Waiting f) => Some (set_tokens true true (discard s) (finish s) (set_sender i (WriterGone f) s))
      | _ => None
      end
  | EvLock i =>
      match senders s !! i with Some (Permitted f) => if exclusive s then None else Some (set_sender i (Locked f) s) | _ => None end
  | EvCheck i =>
      match senders s !! i with
      | Some (Locked f) => Some (set_sender i (if retired s then WriterGone f else Checked f) s)
      | _ => None
      end
  | EvPush i => match senders s !! i with Some (Checked f) => Some (set_sender i (Queued f) (set_tx (mp_send f (tx s)) s)) | _ => None end
  | EvUnlock i => match senders s !! i with Some (Queued f) => Some (set_sender i (Sent f) s) | _ => None end
  | EvFinishRetire => Some (set_half (S (half_finished s)) (half_discarded s) (set_tokens true (generation s) (discard s) (finish s) s))
  | EvFinishToken =>
      match half_finished s with
      | O => None
      | S n => Some (set_half n (half_discarded s) (set_tokens (retired s) (generation s) (discard s) true s))
      end
  | EvDiscardRetire => Some (set_half (half_finished s) (S (half_discarded s)) (set_tokens true (generation s) (discard s) (finish s) s))
  | EvDiscardToken =>
      match half_discarded s with
      | O => None
      | S n => Some (set_half (half_finished s) n (set_tokens (retired s) (generation s) true (finish s) s))
      end
  | EvFail => Some (set_tokens true true (discard s) (finish s) s)
  | EvRecv =>
      match drain s with
      | NotDraining => match mp_try_recv (tx s) with Some (f, c) => Some (receive f c s) | None => Some s end
      | _ => None
      end
  | EvDrainTry =>
      match drain s with
      | NotDraining =>
          if negb (finish s) then None
          else match mp_try_recv (tx s) with Some (f, c) => Some (receive f c s) | None => Some (set_drain TriedOnce (drained s) s) end
      | _ => None
      end
  | EvDrainLock =>
      match drain s with TriedOnce => if shared s then None else Some (set_drain Exclusive (drained s) s) | _ => None end
  | EvDrainLast =>
      match drain s with
      | Exclusive =>
          match mp_try_recv (tx s) with
          | Some (f, c) => Some (receive f c (set_drain NotDraining (drained s) s))
          | None => Some (set_drain NotDraining true s)
          end
      | _ => None
      end
  end.

(** An interleaving: every step of it is enabled where it is taken. *)
Fixpoint run (es : list Event) (s : State) : option State :=
  match es with [] => Some s | e :: es => s ← step e s; run es s end.

(** ** Invariant *)

(** The frame of a send that has queued it. *)
Definition queued (x : Sender) : option F := match x with Queued f | Sent f => Some f | _ => None end.
Definition pushing (x : Sender) : bool := match x with Checked _ => true | _ => false end.

Record Inv (s : State) : Prop := {
  inv_finish : finish s = true \/ half_finished s <> 0%nat \/ drain s <> NotDraining \/ drained s = true -> retired s = true;
  inv_exclusive : drain s = Exclusive -> shared s = false;
  inv_drained : drained s = true -> mp_items (tx s) = [] /\ existsb pushing (senders s) = false;
  inv_frames : omap queued (senders s) ≡ₚ received s ++ mp_items (tx s);
}.

Lemma Inv_new frames : Inv (frame_sender frames).
Proof.
  split; cbn; [intros [?|[?|[?|?]]]; done|done|done|]. rewrite mp_items_empty. by induction frames.
Qed.

(** What replacing one sender does to the frames and the flags read off the senders. *)
Lemma existsb_insert (p : Sender -> bool) (l : list Sender) i x y : l !! i = Some x -> (p x = true \/ p y = false) -> existsb p l = false -> existsb p (<[i := y]> l) = false.
Proof.
  revert i. induction l as [|z l IH]; intros [|i]; cbn; [done..| |].
  - intros [= ->] Hp [Hx Hl]%orb_false_iff. destruct Hp as [Hp|Hp]; [congruence|]. by rewrite Hp, Hl.
  - intros Hi Hp [Hz Hl]%orb_false_iff. by rewrite Hz, IH.
Qed.

Lemma omap_insert_same (l : list Sender) i x y : l !! i = Some x -> queued y = queued x -> omap queued (<[i := y]> l) = omap queued l.
Proof. revert i. induction l as [|z l IH]; intros [|i]; cbn; [done..| |]; [by intros [= ->] ->|]. intros Hi Hq. by rewrite IH. Qed.

Lemma omap_insert_new (l : list Sender) i x y f : l !! i = Some x -> queued x = None -> queued y = Some f -> omap queued (<[i := y]> l) ≡ₚ f :: omap queued l.
Proof.
  revert i. induction l as [|z l IH]; intros [|i]; cbn; [done..| |]; [by intros [= ->] -> ->|]. intros Hi Hx Hy. destruct (queued z); rewrite IH by done; [constructor|done].
Qed.

Lemma existsb_lookup (p : Sender -> bool) (l : list Sender) i x : l !! i = Some x -> existsb p l = false -> p x = false.
Proof.
  revert i. induction l as [|z l IH]; intros [|i]; cbn; [done..| |].
  - by intros [= ->] [Hx _]%orb_false_iff.
  - intros Hi [_ Hl]%orb_false_iff. by eapply IH.
Qed.

Lemma existsb_imp (p q : Sender -> bool) (l : list Sender) : (forall x, p x = true -> q x = true) -> existsb q l = false -> existsb p l = false.
Proof.
  intros H. induction l as [|x l IH]; cbn; [done|]. intros [Hq Hl]%orb_false_iff. rewrite IH by done. destruct (p x) eqn:E; [|done]. by rewrite (H x E) in Hq.
Qed.

(** A send that moves on without queueing its frame. *)
Lemma Inv_set_sender i x y s : senders s !! i = Some x -> queued y = queued x -> (shares y = true -> shares x = true \/ exclusive s = false) ->
  (pushing y = true -> drained s = false) -> Inv s -> Inv (set_sender i y s).
Proof.
  intros Hi Hq Hs Hp [Hf He Hd Hm]. split; cbn; [done| | |].
  - intros Hx. apply (existsb_insert _ _ i x); [done| |by apply He]. destruct (shares y) eqn:Ey; [|by right]. destruct (Hs eq_refl) as [|Hex]; [by left|].
    unfold exclusive in Hex. by rewrite Hx in Hex.
  - intros Hdr. destruct (Hd Hdr) as [Hit Hpu]. split; [done|]. apply (existsb_insert _ _ i x); [done| |done]. right.
    destruct (pushing y); [|done]. by rewrite Hp in Hdr.
  - by rewrite (omap_insert_same _ i x).
Qed.

(** Taking a frame out of the queue. *)
Lemma Inv_receive f c s : mp_try_recv (tx s) = Some (f, c) -> Inv s -> Inv (receive f c s).
Proof.
  intros Hr [Hf He Hd Hm]. pose proof (mp_items_recv (tx s)) as Hit. rewrite Hr in Hit. split; cbn; [done|done| |].
  - intros Hdr. destruct (Hd Hdr) as [Hn _]. congruence.
  - rewrite Hm, Hit. by rewrite <- app_assoc.
Qed.

Lemma Inv_tokens r g d f s : (retired s = true -> r = true) -> (f = true -> r = true) -> Inv s -> Inv (set_tokens r g d f s).
Proof. intros Hr Hfr [Hf He Hd Hm]. split; cbn; [|done..]. intros [H|H]; [by apply Hfr|]. apply Hr, Hf. by right. Qed.

Lemma Inv_half n m s : (n <> 0%nat -> retired s = true) -> Inv s -> Inv (set_half n m s).
Proof. intros Hr [Hf He Hd Hm]. split; cbn; [|done..]. intros [H|[H|H]]; [apply Hf; by left|by apply Hr|apply Hf; by right; right]. Qed.

Lemma Inv_drain d s : retired s = true \/ d = NotDraining -> (d = Exclusive -> shared s = false) -> Inv s -> Inv (set_drain d (drained s) s).
Proof.
  intros Hr Hx [Hf He Hd Hm]. split; cbn; [|done..]. intros H. destruct Hr as [| ->]; [done|]. apply Hf. tauto.
Qed.

Lemma Inv_push i f s : senders s !! i = Some (Checked f) -> Inv s -> Inv (set_sender i (Queued f) (set_tx (mp_send f (tx s)) s)).
Proof.
  intros Hi [Hf He Hd Hm]. split; cbn; [done| | |].
  - intros Hx. apply (existsb_insert _ _ i (Checked f)); [done|by left|by apply He].
  - intros Hdr. destruct (Hd Hdr) as [_ Hpu]. by pose proof (existsb_lookup _ _ _ _ Hi Hpu).
  - rewrite (omap_insert_new _ i (Checked f) _ f) by done. rewrite mp_items_send, Hm, app_assoc. apply Permutation_cons_append.
Qed.

Lemma Inv_step e s s' : step e s = Some s' -> Inv s -> Inv s'.
Proof.
  intros Hst HI. pose proof (inv_finish _ HI) as Hfin.
  assert (retired s = false -> drained s = false) as Hret by (destruct (drained s) eqn:E; [rewrite Hfin by auto|]; done).
  destruct e as [i|i|i|i|i|i|i|i| | | | | | | | |]; cbn [step] in Hst;
    try (destruct (senders s !! i) as [[]|] eqn:Hi; try done).
  - destruct (retired s); simplify_eq. by eapply Inv_set_sender.
  - destruct (retired s); simplify_eq. by eapply Inv_set_sender.
  - simplify_eq. by eapply Inv_set_sender.
  - simplify_eq. apply Inv_tokens; [done|done|]. by eapply Inv_set_sender.
  - destruct (exclusive s) eqn:Ex; simplify_eq. eapply Inv_set_sender; [done|done|by right|done|done].
  - simplify_eq. destruct (retired s) eqn:Er; eapply Inv_set_sender; try done; [by left|by intros _; apply Hret].
  - simplify_eq. by apply Inv_push.
  - simplify_eq. by eapply Inv_set_sender.
  - simplify_eq. apply Inv_half; [done|]. by apply Inv_tokens.
  - destruct (half_finished s) as [|n] eqn:Eh; simplify_eq. assert (retired s = true) as Hr by (apply Hfin; right; left; lia).
    apply Inv_half; [done|]. by apply Inv_tokens.
  - simplify_eq. apply Inv_half; [done|]. by apply Inv_tokens.
  - destruct (half_discarded s) as [|n]; simplify_eq. apply Inv_half; [intros H; apply Hfin; auto|].
    apply Inv_tokens; [done| |done]. intros Hf. apply Hfin. by left.
  - simplify_eq. by apply Inv_tokens.
  - destruct (drain s); try done. destruct (mp_try_recv (tx s)) as [[f c]|] eqn:Er; simplify_eq; [by apply Inv_receive|done].
  - destruct (drain s); try done. destruct (finish s) eqn:Ef; cbn in Hst; [|done].
    destruct (mp_try_recv (tx s)) as [[f c]|] eqn:Er; simplify_eq; [by apply Inv_receive|]. apply Inv_drain; [left; auto|done|done].
  - destruct (drain s) eqn:Ed; try done. destruct (shared s) eqn:Es; simplify_eq. apply Inv_drain; [left|done|done]. apply Hfin. right. right. left. congruence.
  - destruct (drain s) eqn:Ed; try done. assert (retired s = true) as Hr by (apply Hfin; right; right; left; congruence).
    assert (shared s = false) as Hsh by (by apply HI).
    destruct (mp_try_recv (tx s)) as [[f c]|] eqn:Er; simplify_eq; [apply Inv_receive; [done|]; by apply Inv_drain; [left| |]|].
    pose proof (mp_items_recv (tx s)) as Hit. rewrite Er in Hit. destruct HI as [_ _ _ Hm]. split; cbn; [done|done| |done].
    intros _. split; [done|]. eapply existsb_imp; [|exact Hsh]. by intros [].
Qed.

Lemma Inv_run es : forall s s', run es s = Some s' -> Inv s -> Inv s'.
Proof.
  induction es as [|e es IH]; intros s s'; cbn [run]; [by intros [= <-]|]. destruct (step e s) as [s1|] eqn:E; cbn; [|done].
  intros H HI. eapply IH; [done|]. by eapply Inv_step.
Qed.

Lemma drained_stays e s s' : step e s = Some s' -> drained s = true -> drained s' = true.
Proof. intros H Hd. destruct e; cbn [step] in H; repeat case_match; simplify_eq; done. Qed.

(** C29: in every interleaving of sends, closes and the endpoint, once a [drain_finished] after [finish] has answered that
    nothing is left, the answer is final: the frames received are exactly those of the sends that have queued theirs, no
    send is left that could still queue one, and this stays so whatever happens next. *)
Theorem drained_is_final frames es s : run es (frame_sender frames) = Some s -> drained s = true ->
  received s ≡ₚ omap queued (senders s) /\ mp_items (tx s) = [] /\
  forall es' s', run es' s = Some s' -> received s' = received s /\ received s' ≡ₚ omap queued (senders s').
Proof.
  intros Hr Hd. pose proof (Inv_run es _ _ Hr (Inv_new frames)) as HI. destruct (inv_drained _ HI Hd) as [Hit _].
  split; [rewrite (inv_frames _ HI), Hit; by rewrite app_nil_r|]. split; [done|]. clear Hr.
  intros es'. revert s HI Hd Hit. induction es' as [|e es' IH]; intros s HI Hd Hit s'; cbn [run].
  - intros [= <-]. split; [done|]. rewrite (inv_frames _ HI), Hit. by rewrite app_nil_r.
  - destruct (step e s) as [s1|] eqn:E; cbn; [|done]. intros Hr. pose proof (Inv_step e s s1 E HI) as HI1.
    pose proof (drained_stays e s s1 E Hd) as Hd1. destruct (inv_drained _ HI1 Hd1) as [Hit1 _].
    assert (received s1 = received s) as <-; [|by eapply IH].
    pose proof (mp_items_recv (tx s)) as Hrc. rewrite Hit in Hrc.
    destruct e; cbn [step] in E; repeat case_match; simplify_eq; done.
Qed.

End Channel.

Definition sample_events : list Event :=
  [EvReserve 0; EvReserve 1; EvLock 0; EvCheck 0; EvFinishRetire; EvFinishToken; EvDrainTry; EvPush 0; EvLock 1; EvUnlock 0; EvCheck 1;
   EvDrainLock; EvDrainLast; EvDrainTry; EvDrainLock; EvDrainLast].

Definition sample_state : State (C := list Z) := default (frame_sender []) (run sample_events (frame_sender [10; 20])).

Lemma sample_state_run : run sample_events (frame_sender (C := list Z) [10; 20]) = Some sample_state.
Proof. vm_compute. reflexivity. Qed.

Lemma drained_is_final_witness :
  received sample_state = [10] /\ senders sample_state = [Sent 10; WriterGone 20] /\ drained sample_state = true /\ mp_items (tx sample_state) = [].
Proof.
  split; [vm_compute; reflexivity|]. split; [vm_compute; reflexivity|].
  assert (drained sample_state = true) as Hd by (vm_compute; reflexivity). split; [exact Hd|].
  exact (proj1 (proj2 (drained_is_final [10; 20] sample_events sample_state sample_state_run Hd))).
Defined.

End FrameChannel.
