(* ===== verification/Boundary.v ===== *)
(** * Boundary: the compactable and the protected part of a session (daemon/src/boundary.rs)

    Where the protected tail starts, what may be compacted before it, the manual cut of a wrapup, and
    whether a summarizing run fires. Ordinals are [Z] below 2^64 - 1, token sums and percentages
    doubles. Whether a text block counts as a user's own words after cleaning (chunk_text.rs) and the
    formatted size of the eligible messages are arguments. *)
From S2P Require Import Prelude.
From S2P Require Import BTree.
From S2P Require Import SortBy.
From S2P Require Import Doubles.
From S2P Require Import Scheduler.
From S2P Require Import Selection.
From Stdlib Require Import SpecFloat.
From stdpp Require Import strings.

#[local] Open Scope Z_scope.

Module Boundary.

(** ** Doubles *)
Definition zero : f64 := S754_zero false.

Definition f64_floor (a : f64) : f64 :=
  match a with
  | S754_finite s m e =>
      if 0 <=? e then a
      else let q := (if s then Z.neg m else Z.pos m) / 2 ^ (- e) in if q =? 0 then S754_zero s else f64_of_Z q
  | _ => a
  end.

(** Half away from zero. *)
Definition round_half_away (a : f64) : f64 :=
  match a with
  | S754_finite s m e =>
      if 0 <=? e then a
      else let q := (2 * Z.pos m + 2 ^ (- e)) / (2 * 2 ^ (- e)) in if q =? 0 then S754_zero s else f64_of_Z (if s then - q else q)
  | _ => a
  end.

Definition f64_lt (a b : f64) : bool := SFltb a b.
Definition f64_le (a b : f64) : bool := SFleb a b.

(** [clamp] keeps a value that is not a number. *)
Definition f64_clamp (x lo hi : f64) : f64 := if f64_lt x lo then lo else if f64_gt x hi then hi else x.

Definition ratio (a b : Z) : f64 := f64_div (f64_of_Z a) (f64_of_Z b).

(** Decimal constants are the doubles nearest to their quotients. *)
Definition ALPHA : f64 := ratio 3 10.
Definition FLOOR_RATIO : f64 := ratio 8 100.
Definition FLOOR_MIN : f64 := f64_of_Z 2000.
Definition FLOOR_MAX : f64 := f64_of_Z 12000.
Definition ABS_CAP : f64 := f64_of_Z 96000.
Definition MAX_USABLE_RATIO : f64 := ratio 4 10.
Definition RESERVED_HEADROOM_MIN : f64 := f64_of_Z 1000.
Definition RESERVED_HEADROOM_RATIO : f64 := ratio 2 100.
Definition NON_EMERGENCY_MAX_CAP : f64 := f64_of_Z 250000.
Definition FORCE80_MAX_CAP : f64 := f64_of_Z 500000.
Definition FORCE95_MAX_CAP : f64 := f64_of_Z 750000.
Definition NORMAL_HYSTERESIS_TOKENS : f64 := f64_of_Z 256.
Definition MIN_FORCE_ELIGIBLE_TOKENS_CAP : f64 := f64_of_Z 1000.
Definition TRIGGER_BUDGET_PERCENTAGE : f64 := ratio 5 100.
Definition TRIGGER_BUDGET_MIN : f64 := f64_of_Z 5000.
Definition TRIGGER_BUDGET_MAX : f64 := f64_of_Z 50000.
Definition POST_DROP_TARGET_RATIO : f64 := ratio 75 100.
Definition MIN_PROACTIVE_TAIL_TOKEN_ESTIMATE : f64 := f64_of_Z 6000.
Definition MIN_PROACTIVE_TAIL_MESSAGE_COUNT : Z := 12.
Definition TAIL_SIZE_TRIGGER_MULTIPLIER : f64 := f64_of_Z 3.
Definition FORCE80_CAP_TIER_PERCENTAGE : f64 := f64_of_Z 80.
Definition BLOCK_UNTIL_DONE_PERCENTAGE : f64 := f64_of_Z 95.

(** ** Messages, with the fields these functions read *)
Inductive Role := User | Assistant | System | Other (value : string).

#[global] Instance Role_eq_dec : EqDecision Role.
Proof. solve_decision. Defined.

Record BoundaryBlock := mkBlock {
  bb_kind : Selection.SelKind;
  bb_provider_executed : bool;
  bb_arc_id : option string;
  bb_original : string;
  bb_original_token_count : Z;
  bb_ignored : bool;
}.

Record BoundaryMsg := mkMsg { message_ordinal : Z; role : Role; blocks : list BoundaryBlock }.

Record BoundaryContext := mkContext {
  context_limit : f64;
  execute_threshold_percentage : f64;
  usage_percentage : f64;
  usage_input_tokens : f64;
  last_history_segment_end_ordinal : option Z;
  prior_boundary_ordinal : Z;
  publication_floor_active : bool;
  emergency_tail_scale : option f64;
  ctx_trigger_budget : option f64;
  fold_is_only_reclaim : bool;
  prepare_lead : Z;
}.

(** The reason is a constructor for each spelling. *)
Inductive TriggerReason := ProjectedHeadroom | ForceBand | CommitClusters | TailSize | WindowCap | ColdImport.

Inductive BoundaryReason :=
| EmptySession (input_tokens : f64) | WholeSession | SizeWalk | HugeMessage | SemanticSnap
| WrapupEmpty | WrapupWithinKeep | WrapupKeepWatermark | WrapupToolArc | WrapupUserSnap
| Forced (reason : TriggerReason).

Record BoundaryResolution := mkResolution {
  protected_start_ordinal : Z;
  eligible_head : Z * Z;
  n_tokens : f64;
  floored_by_live_prompt : bool;
  fenced_by_open_arc : bool;
  true_raw_eligible_tokens : f64;
  oversize_atomic_unit : bool;
  raw_message_count : Z;
  boundary_reason : BoundaryReason;
}.

(** ** Targets and caps *)
Definition derive_trigger_budget (context_limit execute_threshold_percentage : f64) : f64 :=
  if negb (f64_finite context_limit) || f64_le context_limit zero then TRIGGER_BUDGET_MIN
  else
    let threshold_fraction := f64_div (f64_max execute_threshold_percentage zero) (f64_of_Z 100) in
    let usable := f64_mul context_limit threshold_fraction in
    let derived := round_half_away (f64_mul usable TRIGGER_BUDGET_PERCENTAGE) in
    f64_clamp derived TRIGGER_BUDGET_MIN TRIGGER_BUDGET_MAX.

Definition clamp_percentage (value : f64) : f64 := if negb (f64_finite value) then zero else f64_clamp value zero (f64_of_Z 100).

Record ProtectedTailTokenTarget := mkTarget {
  t_usable : f64; t_raw_n : f64; t_floor_n : f64; t_ceiling_n : f64; t_effective_floor : f64; t_n : f64;
  t_headroom : f64; t_trigger_budget : f64; t_reserve : f64;
}.

Definition derive_protected_tail_token_target (ctx : BoundaryContext) : ProtectedTailTokenTarget :=
  let safe_context_limit :=
    if f64_finite (context_limit ctx) && f64_gt (context_limit ctx) zero then context_limit ctx else f64_of_Z 128000 in
  let safe_threshold :=
    if f64_finite (execute_threshold_percentage ctx) then f64_max (execute_threshold_percentage ctx) zero else f64_of_Z 65 in
  let usable := f64_max (round_half_away (f64_div (f64_mul safe_context_limit safe_threshold) (f64_of_Z 100))) (f64_of_Z 1) in
  let usage := clamp_percentage (usage_percentage ctx) in
  let trigger_budget := default (derive_trigger_budget safe_context_limit safe_threshold) (ctx_trigger_budget ctx) in
  let reserve := f64_max RESERVED_HEADROOM_MIN (round_half_away (f64_mul usable RESERVED_HEADROOM_RATIO)) in
  let raw_n := round_half_away (f64_mul (f64_mul usable ALPHA) (f64_sub (f64_of_Z 1) (f64_div usage (f64_of_Z 100)))) in
  let floor_n := f64_min FLOOR_MAX (f64_max FLOOR_MIN (round_half_away (f64_mul usable FLOOR_RATIO))) in
  let headroom := f64_min (f64_add trigger_budget reserve) (f64_floor (f64_mul usable (ratio 1 2))) in
  let ceiling_n := f64_max (f64_of_Z 1)
    (f64_min (f64_min ABS_CAP (f64_floor (f64_mul usable MAX_USABLE_RATIO))) (f64_sub usable headroom)) in
  let effective_floor := f64_min floor_n ceiling_n in
  let n := f64_min ceiling_n (f64_max effective_floor raw_n) in
  mkTarget usable raw_n floor_n ceiling_n effective_floor n headroom trigger_budget reserve.

Definition non_emergency_per_run_cap (usable n : f64) : f64 :=
  f64_min NON_EMERGENCY_MAX_CAP (f64_max (f64_mul (f64_of_Z 2) n) (f64_min (round_half_away (f64_mul (ratio 1 4) usable)) (f64_of_Z 100000))).
Definition force80_per_run_cap (usable n : f64) : f64 :=
  f64_min FORCE80_MAX_CAP (f64_max (f64_mul (f64_of_Z 3) n) (f64_min (round_half_away (f64_mul (ratio 35 100) usable)) (f64_of_Z 150000))).
Definition force95_per_run_cap (usable n : f64) : f64 :=
  f64_min FORCE95_MAX_CAP (f64_max (f64_mul (f64_of_Z 4) n) (f64_min (round_half_away (f64_mul (ratio 1 2) usable)) (f64_of_Z 250000))).

Definition select_per_run_cap (usage_percentage n context_limit execute_threshold_percentage : f64) : f64 :=
  let usable := f64_max (round_half_away (f64_div (f64_mul context_limit execute_threshold_percentage) (f64_of_Z 100))) (f64_of_Z 1) in
  if f64_ge usage_percentage BLOCK_UNTIL_DONE_PERCENTAGE then force95_per_run_cap usable n
  else if f64_ge usage_percentage FORCE80_CAP_TIER_PERCENTAGE then force80_per_run_cap usable n
  else non_emergency_per_run_cap usable n.

Definition get_proactive_history_segment_trigger_percentage (execute_threshold_percentage : f64) (lead : Z) : f64 :=
  f64_max (f64_sub execute_threshold_percentage (f64_of_Z lead)) (f64_of_Z 1).

Definition derive_min_force_eligible_tokens (scaled_n : f64) : f64 :=
  f64_min MIN_FORCE_ELIGIBLE_TOKENS_CAP (f64_max (f64_floor (f64_div scaled_n (f64_of_Z 8))) (f64_of_Z 1)).

(** ** Ordinals *)
Definition z_min (l : list Z) : option Z := foldr (fun x acc => Some (match acc with None => x | Some y => Z.min x y end)) None l.
Definition z_max (l : list Z) : option Z := foldr (fun x acc => Some (match acc with None => x | Some y => Z.max x y end)) None l.

Definition saturating_succ (x : Z) : Z := Z.min u64_MAX (x + 1).

Definition ordinals_of (messages : list BoundaryMsg) : list Z := message_ordinal <$> messages.
Definition first_live_message_ordinal (messages : list BoundaryMsg) : option Z := z_min (ordinals_of messages).

Definition history_segment_offset (last_end : option Z) (messages : list BoundaryMsg) : option Z :=
  match last_end with Some e => Some (saturating_succ e) | None => first_live_message_ordinal messages end.

(** ** The token index *)
Record TokenIndex := mkIndex {
  ix_raw_message_count : Z;
  first_ordinal : Z;
  last_ordinal : Z;
  terminal_ordinal : Z;
  ordinals : list Z;
  prefix : list f64;
}.

Definition message_total (m : BoundaryMsg) : f64 := foldl (fun acc b => f64_add acc (f64_of_Z (bb_original_token_count b))) zero (blocks m).

Definition by_ordinal {A} : Z * A -> Z * A -> comparison := cmp_by fst Z.compare.

Fixpoint is_sorted_by_key {A} (l : list (Z * A)) : bool :=
  match l with
  | x :: (y :: _) as t => (x.1 <=? y.1) && is_sorted_by_key t
  | _ => true
  end.

(** The totals of one ordinal are added to its prefix sum. *)
Definition index_step (acc : list Z * list f64) (entry : Z * f64) : list Z * list f64 :=
  let '(ords, pre) := acc in
  let previous := default zero (list.last pre) in
  if bool_decide (list.last ords = Some entry.1)
  then (ords, take (length pre - 1) pre ++ [f64_add previous entry.2])
  else (ords ++ [entry.1], pre ++ [f64_add previous entry.2]).

Definition TokenIndex_new (messages : list BoundaryMsg) : TokenIndex :=
  let totals := (fun m => (message_ordinal m, message_total m)) <$> messages in
  let totals := if is_sorted_by_key totals then totals else sort_by by_ordinal totals in
  let '(ords, pre) := foldl index_step ([], [zero]) totals in
  mkIndex (Z.of_nat (length ords)) (default 1 (head ords)) (default 0 (list.last ords))
    (match list.last ords with Some o => saturating_succ o | None => 1 end) ords pre.

Definition prefix_at (ix : TokenIndex) (i : nat) : f64 := default zero (prefix ix !! i).

(** [binary_search] on distinct sorted ordinals, and [partition_point]. *)
Fixpoint index_of (x : Z) (l : list Z) : option nat :=
  match l with [] => None | y :: l => if x =? y then Some O else S <$> index_of x l end.
Fixpoint count_below (x : Z) (l : list Z) : nat :=
  match l with [] => O | y :: l => if y <? x then S (count_below x l) else O end.

Definition token_for_ordinal (ix : TokenIndex) (ordinal : Z) : f64 :=
  match index_of ordinal (ordinals ix) with
  | Some i => f64_sub (prefix_at ix (S i)) (prefix_at ix i)
  | None => zero
  end.

Definition total_tokens (ix : TokenIndex) : f64 := default zero (list.last (prefix ix)).
Definition lower_bound (ix : TokenIndex) (ordinal : Z) : nat := count_below ordinal (ordinals ix).

Definition exclusive_end_for_prefix_index (ix : TokenIndex) (i : nat) : Z :=
  match i with O => first_ordinal ix | S i => saturating_succ (default 0 (ordinals ix !! i)) end.

Definition clamp_ordinal (ix : TokenIndex) (ordinal : Z) : Z :=
  match ordinals ix with [] => ordinal | _ => Z.min (Z.max ordinal (first_ordinal ix)) (terminal_ordinal ix) end.

Definition suffix_tokens_from_ordinal (ix : TokenIndex) (ordinal : Z) : f64 :=
  match ordinals ix with
  | [] => zero
  | _ =>
      if ordinal <=? first_ordinal ix then total_tokens ix
      else if terminal_ordinal ix <=? ordinal then zero
      else f64_sub (total_tokens ix) (prefix_at ix (lower_bound ix ordinal))
  end.

Definition range_tokens (ix : TokenIndex) (start_inclusive end_exclusive : Z) : f64 :=
  match ordinals ix with
  | [] => zero
  | _ =>
      if end_exclusive <=? start_inclusive then zero
      else
        let start := Z.max start_inclusive (first_ordinal ix) in
        let last := Z.min (Z.max end_exclusive start) (terminal_ordinal ix) in
        if last <=? start then zero
        else
          let start_index := lower_bound ix start in
          let end_index := lower_bound ix last in
          if (end_index <=? start_index)%nat then zero else f64_sub (prefix_at ix end_index) (prefix_at ix start_index)
  end.

(** The binary search both lookups share; [hi] plus one minus [lo] steps at most. *)
Fixpoint search_loop (fuel : nat) (ix : TokenIndex) (cut : f64) (lo hi best : nat) : nat :=
  match fuel with
  | O => best
  | S fuel =>
      if (hi <? lo)%nat then best
      else
        let mid := ((lo + hi) / 2)%nat in
        if f64_le (prefix_at ix mid) cut then search_loop fuel ix cut (S mid) hi mid
        else if (mid =? 0)%nat then best
        else search_loop fuel ix cut lo (mid - 1) best
  end.

Definition find_suffix_start_for_tokens (ix : TokenIndex) (tokens : f64) : Z :=
  match ordinals ix with
  | [] => 1
  | _ =>
      if negb (f64_finite tokens) || f64_le tokens zero then terminal_ordinal ix
      else
        let target := f64_max (f64_floor tokens) zero in
        let total := total_tokens ix in
        if f64_lt total target then first_ordinal ix
        else
          let cut := f64_sub total target in
          let hi := (length (prefix ix) - 1)%nat in
          let best := search_loop (S hi) ix cut 0 hi 0 in
          default (terminal_ordinal ix) (ordinals ix !! best)
  end.

Definition find_head_end_for_cap (ix : TokenIndex) (start_inclusive end_exclusive : Z) (cap_tokens : f64) : Z :=
  match ordinals ix with
  | [] => start_inclusive
  | _ =>
      let start := Z.min (Z.max start_inclusive (first_ordinal ix)) (terminal_ordinal ix) in
      let last := Z.min (Z.max end_exclusive start) (terminal_ordinal ix) in
      if negb (f64_finite cap_tokens) || f64_le cap_tokens zero then start
      else
        let start_index := lower_bound ix start in
        let end_index := lower_bound ix last in
        if (end_index <=? start_index)%nat then start
        else
          let cut := f64_add (prefix_at ix start_index) (f64_floor cap_tokens) in
          let best_index := search_loop (S (end_index - start_index)) ix cut start_index end_index start_index in
          if (best_index =? start_index)%nat then Z.min (saturating_succ (default 0 (ordinals ix !! start_index))) last
          else Z.min (exclusive_end_for_prefix_index ix best_index) last
  end.

(** ** Tool arcs *)
Record ToolArc := mkArc { inv_ordinal : Z; res_ordinal : option Z }.

Definition completed_tool_arc_crosses_boundary (inv res boundary : Z) : bool := (inv <? boundary) && (boundary <=? res).

(** The calls and results of one arc id. *)
Definition PartialArc : Type := list Z * list Z.

Definition arc_step (ordinal : Z) (partial : list (string * PartialArc)) (block : BoundaryBlock) : list (string * PartialArc) :=
  if bb_provider_executed block then partial
  else
    match bb_arc_id block with
    | None => partial
    | Some arc_id =>
        let entry := default ([], []) (btree_get arc_id partial) in
        let entry :=
          match bb_kind block with
          | Selection.ToolCall _ _ => (entry.1 ++ [ordinal], entry.2)
          | Selection.ToolResult _ _ => (entry.1, entry.2 ++ [ordinal])
          | _ => entry
          end in
        btree_insert arc_id entry partial
    end.

Definition collect_arcs (messages : list BoundaryMsg) : list (string * PartialArc) :=
  foldl (fun partial m => foldl (arc_step (message_ordinal m)) partial (blocks m)) [] messages.

Fixpoint position_from (x : Z) (l : list Z) : option nat :=
  match l with [] => None | y :: l => if x <=? y then Some O else S <$> position_from x l end.

(** Each call takes the first result at or after it that is left. *)
Fixpoint pair_calls (invs res : list Z) : list ToolArc :=
  match invs with
  | [] => []
  | inv :: invs =>
      match position_from inv res with
      | Some i => mkArc inv (res !! i) :: pair_calls invs (delete i res)
      | None => mkArc inv None :: pair_calls invs res
      end
  end.

Definition tool_arc_cmp : ToolArc -> ToolArc -> comparison :=
  cmp_then (cmp_by inv_ordinal Z.compare) (cmp_by (fun a => default u64_MAX (res_ordinal a)) Z.compare).

Definition build_tool_arcs (messages : list BoundaryMsg) : list ToolArc :=
  sort_by tool_arc_cmp
    (collect_arcs messages ≫= (fun '(_, (inv, res)) => pair_calls (sort_by Z.compare inv) (sort_by Z.compare res))).

Definition newest_message_protected_floor (arcs : list ToolArc) (ix : TokenIndex) : Z :=
  let last := last_ordinal ix in
  default last (z_min (inv_ordinal <$> filter (fun a => inv_ordinal a = last \/ res_ordinal a = Some last) arcs)).

(** ** Fences *)
Definition completed (arcs : list ToolArc) : list (Z * Z) := omap (fun a => r ← res_ordinal a; Some (inv_ordinal a, r)) arcs.

Definition min_invocation (candidate : Z) (component : list (Z * Z)) : Z := default candidate (z_min component.*1).
Definition max_result (candidate : Z) (component : list (Z * Z)) : Z := default candidate (z_max component.*2).

Definition grow (lo hi : Z) (component : list (Z * Z)) (arc : Z * Z) : list (Z * Z) :=
  if (arc.1 <=? hi) && (lo <=? arc.2) && negb (bool_decide (arc ∈ component)) then component ++ [arc] else component.

Fixpoint grow_loop (n : nat) (candidate : Z) (arcs component : list (Z * Z)) : list (Z * Z) :=
  match n with
  | O => component
  | S n =>
      let grown := foldl (grow (min_invocation candidate component) (max_result candidate component)) component arcs in
      if (length grown =? length component)%nat then grown else grow_loop n candidate arcs grown
  end.

Definition fence_boundary_for_completed_tool_arcs (candidate : Z) (arcs : list ToolArc) (floor : Z) : Z :=
  let all := completed arcs in
  let component := filter (fun a => completed_tool_arc_crosses_boundary a.1 a.2 candidate = true) all in
  match component with
  | [] => candidate
  | _ =>
      let component := grow_loop (S (length all)) candidate all component in
      if min_invocation candidate component <? floor then saturating_succ (max_result candidate component)
      else min_invocation candidate component
  end.

(** The first recent open arc at or above the floor or the boundary. *)
Definition open_arc_fence (arcs : list ToolArc) (floor cutoff boundary : Z) : option Z :=
  inv_ordinal <$> head (filter (fun a => res_ordinal a = None /\ cutoff <= inv_ordinal a /\ (floor <= inv_ordinal a \/ boundary <= inv_ordinal a)) arcs).

Definition fence_boundary_for_tool_arcs (candidate : Z) (arcs : list ToolArc) (floor cutoff : Z) : Z * bool :=
  let boundary := fence_boundary_for_completed_tool_arcs candidate arcs floor in
  let '(boundary, open_arc) :=
    match open_arc_fence arcs floor cutoff boundary with Some inv => (inv, true) | None => (boundary, false) end in
  (fence_boundary_for_completed_tool_arcs boundary arcs floor, open_arc).

Definition wrapup_pass (offset : Z) (arcs : list ToolArc) (boundary : Z) : Z :=
  foldl (fun next a =>
    match res_ordinal a with
    | None => next
    | Some result => if (offset <=? inv_ordinal a) && (inv_ordinal a <? next) && (next <=? result) then inv_ordinal a else next
    end) boundary arcs.

Fixpoint wrapup_loop (n : nat) (offset : Z) (arcs : list ToolArc) (boundary : Z) : Z :=
  match n with
  | O => boundary
  | S n => let next := wrapup_pass offset arcs boundary in if next =? boundary then boundary else wrapup_loop n offset arcs next
  end.

Definition fence_wrapup_boundary_for_tool_arcs (candidate : Z) (arcs : list ToolArc) (offset : Z) : Z :=
  wrapup_loop (S (length arcs)) offset arcs candidate.

Section Resolve.
(** Whether a text block holds a user's own words. *)
Variable meaningful_text : string -> bool.

Definition has_meaningful_user_text (bs : list BoundaryBlock) : bool :=
  existsb (fun b => negb (bb_ignored b) && match bb_kind b with Selection.Text => true | _ => false end && meaningful_text (bb_original b)) bs.

Definition is_user_prompt (m : BoundaryMsg) : bool := bool_decide (role m = User) && has_meaningful_user_text (blocks m).

Definition msg_by_ordinal : BoundaryMsg -> BoundaryMsg -> comparison := cmp_by message_ordinal Z.compare.

(** ** Snapping *)
Definition snap_wrapup_boundary_to_user (messages : list BoundaryMsg) (ix : TokenIndex) (candidate offset : Z) (trigger_budget : f64) : Z :=
  if candidate <=? offset then candidate
  else
    let limit := f64_clamp trigger_budget (f64_of_Z 2000) (f64_of_Z 48000) in
    let ordered := sort_by (cmp_rev msg_by_ordinal) messages in
    match head (filter (fun m => offset <= message_ordinal m <= candidate /\ is_user_prompt m = true) ordered) with
    | Some m => if f64_le (range_tokens ix (message_ordinal m) candidate) limit then message_ordinal m else candidate
    | None => candidate
    end.

Definition is_semantic_boundary_candidate (m : BoundaryMsg) : bool :=
  is_user_prompt m || existsb (fun b => Selection.is_tool (bb_kind b)) (blocks m).

Definition huge (ix : TokenIndex) (ordinal : Z) (scaled_n : f64) : bool :=
  f64_gt (token_for_ordinal ix ordinal) (f64_max (f64_mul (f64_of_Z 2) scaled_n) (f64_of_Z 64000)).

Definition semantic_snap_boundary (messages : list BoundaryMsg) (ix : TokenIndex) (candidate : Z) (scaled_n : f64) (floor : Z) : Z :=
  let ordered := sort_by msg_by_ordinal messages in
  let snapped := default candidate
    (list.last (message_ordinal <$> filter (fun m => floor <= message_ordinal m <= candidate /\ is_semantic_boundary_candidate m = true) ordered)) in
  if snapped =? candidate then candidate
  else
    let extra_tokens := f64_sub (suffix_tokens_from_ordinal ix snapped) (suffix_tokens_from_ordinal ix candidate) in
    if f64_gt extra_tokens (f64_min (round_half_away (f64_mul (ratio 3 2) scaled_n)) (f64_of_Z 48000)) then candidate
    else if existsb (fun m => (message_ordinal m =? snapped) && bool_decide (role m = User) && huge ix snapped scaled_n) ordered then candidate
    else snapped.

(** ** The cap of one run *)
Definition fence_head_for_open_arcs (arcs : list ToolArc) (offset cutoff : Z) (last : Z) : Z * bool :=
  foldl (fun acc a =>
    match res_ordinal a with
    | Some _ => acc
    | None =>
        if (cutoff <=? inv_ordinal a) && (offset <=? inv_ordinal a) && (inv_ordinal a <? acc.1)
        then (Z.min acc.1 (inv_ordinal a), true) else acc
    end) (last, false) arcs.

Definition apply_head_cap (ix : TokenIndex) (protected_tail_start offset : Z) (arcs : list ToolArc) (cap_tokens : f64) (cutoff : Z)
    : Z * bool * bool :=
  if protected_tail_start <=? offset then (offset, false, false)
  else
    let last := find_head_end_for_cap ix offset protected_tail_start cap_tokens in
    let oversize := (last =? offset + 1) && f64_gt (token_for_ordinal ix offset) cap_tokens in
    let last := fence_boundary_for_completed_tool_arcs last arcs offset in
    let '(last, fenced) := fence_head_for_open_arcs arcs offset cutoff last in
    let last := fence_boundary_for_completed_tool_arcs last arcs offset in
    if last <=? offset then (offset, oversize, fenced) else (Z.min last protected_tail_start, oversize, fenced).

(** ** The protected tail *)
Definition last_prompt (messages : list BoundaryMsg) : option Z :=
  message_ordinal <$> head (filter (fun m => is_user_prompt m = true) (reverse messages)).

(** The walk back over the tail's tokens, fenced, snapped to a message that opens a turn, and fenced again; whether an open arc moved it. *)
Definition walk_boundary (messages : list BoundaryMsg) (ix : TokenIndex) (arcs : list ToolArc) (offset : Z) (scaled_n : f64)
    : Z * BoundaryReason * bool :=
  let cutoff := find_suffix_start_for_tokens ix scaled_n in
  let reason := if cutoff =? first_ordinal ix then WholeSession else SizeWalk in
  let '(boundary, reason) :=
    if (cutoff <? terminal_ordinal ix) && huge ix cutoff scaled_n && (cutoff <? last_ordinal ix) then (cutoff + 1, HugeMessage) else (cutoff, reason) in
  let '(boundary, open1) := fence_boundary_for_tool_arcs boundary arcs offset cutoff in
  let snapped := semantic_snap_boundary messages ix boundary scaled_n offset in
  let reason := if snapped =? boundary then reason else SemanticSnap in
  let '(boundary, open2) := fence_boundary_for_tool_arcs snapped arcs offset cutoff in
  (boundary, reason, open1 || open2).

(** The runtime floors, the live prompt, the hysteresis and the newest-message guard; whether the prompt moved it. *)
Definition apply_floors (messages : list BoundaryMsg) (ctx : BoundaryContext) (ix : TokenIndex) (arcs : list ToolArc) (offset boundary : Z)
    : Z * bool :=
  let usage := clamp_percentage (usage_percentage ctx) in
  let runtime_floor := if publication_floor_active ctx then Z.max offset (prior_boundary_ordinal ctx) else offset in
  let start := Z.max boundary runtime_floor in
  let force := Scheduler.force_materialize_percentage (Scheduler.escalation_bands (execute_threshold_percentage ctx)) in
  let '(start, floored) :=
    match emergency_tail_scale ctx, last_prompt messages with
    | None, Some prompt =>
        if f64_lt usage force && (offset <=? prompt) && (prompt <? start) then (prompt, true) else (start, false)
    | _, _ => (start, false)
    end in
  let start := if (offset <? start) && f64_le (range_tokens ix offset start) NORMAL_HYSTERESIS_TOKENS then offset else start in
  let start := clamp_ordinal ix start in
  let start :=
    if fold_is_only_reclaim ctx
    then clamp_ordinal ix (Z.max (Z.min start (newest_message_protected_floor arcs ix)) offset)
    else start in
  (start, floored).

Definition offset_of (ctx : BoundaryContext) (messages : list BoundaryMsg) : Z :=
  default 1 (history_segment_offset (last_history_segment_end_ordinal ctx) messages).

Definition resolve_protected_tail_boundary (messages : list BoundaryMsg) (ctx : BoundaryContext) : BoundaryResolution :=
  let ix := TokenIndex_new messages in
  let count := ix_raw_message_count ix in
  let offset := offset_of ctx messages in
  let usage := clamp_percentage (usage_percentage ctx) in
  if count =? 0 then
    mkResolution 1 (offset, offset) zero false false zero false count (EmptySession (round_half_away (f64_max (usage_input_tokens ctx) zero)))
  else
    let target := derive_protected_tail_token_target ctx in
    let scaled_n :=
      match emergency_tail_scale ctx with Some scale => f64_max (f64_floor (f64_mul (t_n target) scale)) (f64_of_Z 1) | None => t_n target end in
    let arcs := build_tool_arcs messages in
    let cutoff := find_suffix_start_for_tokens ix scaled_n in
    let '(boundary, reason, open_walk) := walk_boundary messages ix arcs offset scaled_n in
    let '(start, floored) := apply_floors messages ctx ix arcs offset boundary in
    let start := fence_boundary_for_completed_tool_arcs start arcs offset in
    let cap := select_per_run_cap usage scaled_n (context_limit ctx) (execute_threshold_percentage ctx) in
    let '(eligible_end, oversize, open_head) := apply_head_cap ix start offset arcs cap cutoff in
    mkResolution start (offset, eligible_end) scaled_n floored (open_walk || open_head) (range_tokens ix offset start) oversize count reason.

(** ** Manual wrapup *)
Record WrapupBoundaryResolution := mkWrapup {
  wr_boundary : BoundaryResolution;
  raw_messages_above_last_history_segment : Z;
  target_protected_start_ordinal : Z;
}.

Fixpoint dedup (l : list Z) : list Z :=
  match l with
  | x :: (y :: _) as t => if x =? y then dedup t else x :: dedup t
  | l => l
  end.

Definition live_ordinals (messages : list BoundaryMsg) (offset : Z) : list Z :=
  dedup (sort_by Z.compare (filter (fun o => offset <= o) (ordinals_of messages))).

Definition resolve_wrapup_boundary (messages : list BoundaryMsg) (last_end : option Z) (keep : nat) (context_limit threshold : f64)
    : WrapupBoundaryResolution :=
  let ix := TokenIndex_new messages in
  let count := ix_raw_message_count ix in
  let offset := default 1 (history_segment_offset last_end messages) in
  let live := live_ordinals messages offset in
  let keep := Nat.max keep 1 in
  match live with
  | [] => mkWrapup (mkResolution offset (offset, offset) (f64_of_Z (Z.of_nat keep)) false false zero false count WrapupEmpty) 0 offset
  | _ =>
      let '(start, reason) :=
        if (length live <=? keep)%nat then (offset, WrapupWithinKeep)
        else
          let start := default 0 (live !! (length live - keep)%nat) in
          let arcs := build_tool_arcs messages in
          let fenced := fence_wrapup_boundary_for_tool_arcs start arcs offset in
          let reason := if fenced =? start then WrapupKeepWatermark else WrapupToolArc in
          let budget := derive_trigger_budget context_limit threshold in
          let snapped := snap_wrapup_boundary_to_user messages ix fenced offset budget in
          let reason := if snapped =? fenced then reason else WrapupUserSnap in
          let refenced := fence_wrapup_boundary_for_tool_arcs snapped arcs offset in
          let reason := if refenced =? snapped then reason else WrapupToolArc in
          (Z.min refenced (newest_message_protected_floor arcs ix), reason) in
      let start := clamp_ordinal ix (Z.max start offset) in
      mkWrapup (mkResolution start (offset, start) (f64_of_Z (Z.of_nat keep)) false false (range_tokens ix offset start) false count reason)
        (Z.of_nat (length live)) start
  end.

End Resolve.
End Boundary.
