(* ===== verification/BoundaryProofs.v ===== *)
(** * BoundaryProofs: what the boundary of a session guarantees (daemon/src/boundary.rs)

    The fences close the set of overlapping completed tool arcs within their bound, so no boundary they
    return separates a call from its result; the head that may be summarized and the protected tail are
    therefore cut between complete calls, a live user prompt stays protected, and a manual wrapup never
    keeps fewer messages than asked for. *)
From S2P Require Import Prelude.
From S2P Require Import BTree.
From S2P Require Import SortBy.
From S2P Require Import Doubles.
From S2P Require Import Scheduler.
From S2P Require Import CanonicalJson.
From S2P Require Import Selection.
From S2P Require Import Boundary.
From Stdlib Require Import SpecFloat.
From stdpp Require Import strings sorting sets.

#[local] Open Scope Z_scope.

Import Boundary.

(** ** Least and greatest of a list *)
Lemma z_min_spec (l : list Z) :
  match z_min l with None => l = [] | Some m => m ∈ l /\ forall x, x ∈ l -> m <= x end.
Proof.
  induction l as [|y l IH]; cbn; [done|]. unfold z_min in IH. destruct (foldr _ _ l) as [m|].
  - destruct IH as [Hm Hle]. split; [destruct (Z.min_spec y m) as [[_ ->]|[_ ->]]; set_solver|].
    intros x [-> | Hx]%elem_of_cons; [lia|]. specialize (Hle x Hx). lia.
  - subst l. split; [set_solver|]. intros x Hx%list_elem_of_singleton. lia.
Qed.

Lemma z_max_spec (l : list Z) :
  match z_max l with None => l = [] | Some m => m ∈ l /\ forall x, x ∈ l -> x <= m end.
Proof.
  induction l as [|y l IH]; cbn; [done|]. unfold z_max in IH. destruct (foldr _ _ l) as [m|].
  - destruct IH as [Hm Hle]. split; [destruct (Z.max_spec y m) as [[_ ->]|[_ ->]]; set_solver|].
    intros x [-> | Hx]%elem_of_cons; [lia|]. specialize (Hle x Hx). lia.
  - subst l. split; [set_solver|]. intros x Hx%list_elem_of_singleton. lia.
Qed.

Lemma min_invocation_le c comp a : a ∈ comp -> min_invocation c comp <= a.1.
Proof.
  intros Ha. unfold min_invocation. pose proof (z_min_spec comp.*1) as H. destruct (z_min _) as [m|]; cbn.
  - apply H. by apply list_elem_of_fmap_2.
  - apply fmap_nil_inv in H. subst. set_solver.
Qed.

Lemma max_result_ge c comp a : a ∈ comp -> a.2 <= max_result c comp.
Proof.
  intros Ha. unfold max_result. pose proof (z_max_spec comp.*2) as H. destruct (z_max _) as [m|]; cbn.
  - apply H. by apply list_elem_of_fmap_2.
  - apply fmap_nil_inv in H. subst. set_solver.
Qed.

Lemma min_invocation_in c comp : comp <> [] -> exists a, a ∈ comp /\ min_invocation c comp = a.1.
Proof.
  intros Hne. unfold min_invocation. pose proof (z_min_spec comp.*1) as H. destruct (z_min _) as [m|]; cbn.
  - destruct H as [(a & -> & Ha)%list_elem_of_fmap _]. by exists a.
  - by apply fmap_nil_inv in H.
Qed.

Lemma max_result_in c comp : comp <> [] -> exists a, a ∈ comp /\ max_result c comp = a.2.
Proof.
  intros Hne. unfold max_result. pose proof (z_max_spec comp.*2) as H. destruct (z_max _) as [m|]; cbn.
  - destruct H as [(a & -> & Ha)%list_elem_of_fmap _]. by exists a.
  - by apply fmap_nil_inv in H.
Qed.

(** ** The closure of overlapping arcs *)
Section Closure.
Context (candidate : Z).

Lemma grow_fold lo hi comp arcs :
  exists extra,
    foldl (grow lo hi) comp arcs = comp ++ extra
    /\ (forall a, a ∈ extra -> a ∈ arcs /\ a ∉ comp /\ a.1 <= hi /\ lo <= a.2)
    /\ (forall a, a ∈ arcs -> a.1 <= hi -> lo <= a.2 -> a ∈ comp ++ extra).
Proof.
  revert comp. induction arcs as [|a arcs IH]; intros comp; cbn [foldl].
  { exists []. rewrite app_nil_r. set_solver. }
  unfold grow at 2. destruct (_ && _) eqn:E.
  - rewrite !andb_true_iff, !Z.leb_le, negb_true_iff, bool_decide_eq_false in E.
    destruct (IH (comp ++ [a])) as (extra & -> & H1 & H2). exists (a :: extra). rewrite <- app_assoc. split; [done|]. split.
    + intros x [-> | Hx]%elem_of_cons; [set_solver|]. destruct (H1 x Hx) as (? & ? & ?). set_solver.
    + intros x [-> | Hx]%elem_of_cons ? ?; [set_solver|]. rewrite cons_middle, app_assoc. by apply H2.
  - destruct (IH comp) as (extra & -> & H1 & H2). exists extra. split; [done|]. split.
    + intros x Hx. destruct (H1 x Hx). set_solver.
    + intros x [-> | Hx]%elem_of_cons Hhi Hlo; [|by apply H2].
      rewrite (proj2 (Z.leb_le _ _) Hhi), (proj2 (Z.leb_le _ _) Hlo) in E. cbn in E. apply negb_false_iff, bool_decide_eq_true in E. set_solver.
Qed.

Definition missing (arcs comp : list (Z * Z)) : nat := length (filter (fun a => a ∉ comp) arcs).

Lemma missing_app arcs comp extra : (missing arcs (comp ++ extra) <= missing arcs comp)%nat.
Proof. unfold missing. induction arcs as [|a arcs IH]; [done|]. rewrite !list.filter_cons. repeat case_decide; cbn; set_solver by lia. Qed.

Lemma missing_lt arcs comp extra x : x ∈ arcs -> x ∉ comp -> x ∈ extra -> (missing arcs (comp ++ extra) < missing arcs comp)%nat.
Proof.
  intros Hx Hc He. induction arcs as [|a arcs IH]; [set_solver|]. pose proof (missing_app arcs comp extra).
  unfold missing in *. rewrite !list.filter_cons. apply elem_of_cons in Hx as [-> | Hx]; repeat case_decide; cbn; try set_solver by lia.
Qed.

Definition closed (arcs comp : list (Z * Z)) : Prop :=
  forall a, a ∈ arcs -> a.1 <= max_result candidate comp -> min_invocation candidate comp <= a.2 -> a ∈ comp.

(** The loop reaches a closed set before its bound, and adds only arcs that overlap what it has. *)
Lemma grow_loop_closed n arcs comp (P : Z * Z -> Prop) :
  (missing arcs comp < n)%nat -> (forall a, a ∈ comp -> P a) -> comp <> [] ->
  (forall comp' a, comp' <> [] -> (forall x, x ∈ comp' -> P x) -> a ∈ arcs ->
     a.1 <= max_result candidate comp' -> min_invocation candidate comp' <= a.2 -> P a) ->
  let final := grow_loop n candidate arcs comp in
  closed arcs final /\ (forall a, a ∈ comp -> a ∈ final) /\ (forall a, a ∈ final -> P a).
Proof.
  intros Hn HP Hne Hstep. revert comp Hn HP Hne. induction n as [|n IH]; intros comp Hn HP Hne; [lia|]. cbn.
  destruct (grow_fold (min_invocation candidate comp) (max_result candidate comp) comp arcs) as (extra & -> & Hin & Hall).
  destruct (Nat.eqb_spec (length (comp ++ extra)) (length comp)) as [E|E].
  - rewrite length_app in E. assert (extra = []) as -> by (destruct extra; [done | cbn in E; lia]). rewrite app_nil_r in *.
    split; [exact Hall | done].
  - destruct extra as [|x extra]; [by rewrite app_nil_r in E|].
    destruct (Hin x) as (Hx & Hxc & _); [set_solver|].
    destruct (IH (comp ++ x :: extra)) as (H1 & H2 & H3).
    + pose proof (missing_lt arcs comp (x :: extra) x Hx Hxc ltac:(set_solver)). lia.
    + intros a [Ha|Ha]%elem_of_app; [by apply HP|]. destruct (Hin a Ha) as (? & _ & ? & ?). by apply (Hstep comp).
    + by destruct comp.
    + split; [done|]. split; [|done]. intros a Ha. apply H2. set_solver.
Qed.
End Closure.

(** ** Completed arcs and the fence *)

(** No completed arc has its call before [b] and its result at or after it. *)
Definition uncrossed (arcs : list ToolArc) (b : Z) : Prop := forall i r, mkArc i (Some r) ∈ arcs -> ~ (i < b <= r).
Definition sound_arcs (arcs : list ToolArc) : Prop := forall i r, mkArc i (Some r) ∈ arcs -> i <= r < u64_MAX.

Lemma elem_of_completed arcs i r : (i, r) ∈ completed arcs <-> mkArc i (Some r) ∈ arcs.
Proof.
  unfold completed. rewrite list_elem_of_omap. split.
  - intros ([i' [r'|]] & Ha & E); cbn in E; by simplify_eq.
  - intros Ha. by exists (mkArc i (Some r)).
Qed.

Lemma crosses_iff i r b : completed_tool_arc_crosses_boundary i r b = true <-> i < b <= r.
Proof. unfold completed_tool_arc_crosses_boundary. rewrite andb_true_iff, Z.ltb_lt, Z.leb_le. lia. Qed.

Lemma uncrossed_min arcs a b : uncrossed arcs a -> uncrossed arcs b -> uncrossed arcs (Z.min a b).
Proof. intros Ha Hb i r Hin. specialize (Ha i r Hin). specialize (Hb i r Hin). lia. Qed.

Section Fence.
Context (candidate : Z) (arcs : list ToolArc) (floor : Z).
Hypothesis Hs : sound_arcs arcs.

Definition crossing : list (Z * Z) := filter (fun a => completed_tool_arc_crosses_boundary a.1 a.2 candidate = true) (completed arcs).

Lemma elem_of_crossing i r : (i, r) ∈ crossing <-> mkArc i (Some r) ∈ arcs /\ i < candidate <= r.
Proof. unfold crossing. rewrite list_elem_of_filter, elem_of_completed, crosses_iff. cbn. tauto. Qed.

Lemma missing_le (l comp : list (Z * Z)) : (missing l comp < S (length l))%nat.
Proof. unfold missing. pose proof (length_filter (fun a => a ∉ comp) l). lia. Qed.

(** Either nothing crosses the candidate, or the result is one side of a closed set of arcs around it. *)
Lemma fence_cases (P : Z * Z -> Prop) :
  (forall a, a ∈ crossing -> P a) ->
  (forall comp a, comp <> [] -> (forall x, x ∈ comp -> P x) -> a ∈ completed arcs ->
     a.1 <= max_result candidate comp -> min_invocation candidate comp <= a.2 -> P a) ->
  let b := fence_boundary_for_completed_tool_arcs candidate arcs floor in
  (uncrossed arcs candidate /\ b = candidate)
  \/ exists comp, closed candidate (completed arcs) comp /\ comp <> []
       /\ (forall a, a ∈ comp -> P a) /\ (exists a, a ∈ comp /\ a.1 < candidate <= a.2)
       /\ b = (if min_invocation candidate comp <? floor then saturating_succ (max_result candidate comp) else min_invocation candidate comp).
Proof.
  intros HP Hstep b. unfold b, fence_boundary_for_completed_tool_arcs. fold crossing.
  destruct crossing as [|[i r] comp] eqn:E.
  { left. split; [|done]. intros i r Hin Hc. assert ((i, r) ∈ crossing) as Hx by by apply elem_of_crossing. rewrite E in Hx. set_solver. }
  right. rewrite <- E in *. set (final := grow_loop _ _ _ _).
  destruct (grow_loop_closed candidate (S (length (completed arcs))) (completed arcs) crossing P) as (H1 & H2 & H3).
  - apply missing_le.
  - done.
  - by rewrite E.
  - done.
  - assert ((i, r) ∈ crossing) as Hin by (rewrite E; set_solver).
    exists final. split; [done|]. split; [|split; [done|]; split; [|done]].
    + intros F. specialize (H2 _ Hin). unfold final in F. rewrite F in H2. set_solver.
    + exists (i, r). split; [by apply H2|]. cbn. by apply elem_of_crossing in Hin as [_ ?].
Qed.

(** The fence's result separates no completed call from its result. *)
Lemma fence_uncrossed : uncrossed arcs (fence_boundary_for_completed_tool_arcs candidate arcs floor).
Proof.
  destruct (fence_cases (fun a => a ∈ completed arcs)) as [[Hu ->] | (comp & Hcl & Hne & HP & _ & ->)].
  - intros a Ha. by apply list_elem_of_filter in Ha as [_ ?].
  - done.
  - done.
  - intros i r Hin. pose proof (proj2 (elem_of_completed arcs i r) Hin) as Hc. pose proof (Hs i r Hin) as Hir.
    destruct (max_result_in candidate comp Hne) as ([i1 r1] & H1 & E1). destruct (min_invocation_in candidate comp Hne) as ([i2 r2] & H2 & E2).
    pose proof (Hs i1 r1 (proj1 (elem_of_completed _ _ _) (HP _ H1))) as Hs1.
    pose proof (Hs i2 r2 (proj1 (elem_of_completed _ _ _) (HP _ H2))) as Hs2.
    pose proof (max_result_ge candidate comp _ H2) as Hm2. pose proof (min_invocation_le candidate comp _ H1) as Hm1. cbn in *.
    destruct (Z.ltb_spec (min_invocation candidate comp) floor); intros Hx.
    + unfold saturating_succ in Hx. assert ((i, r) ∈ comp) as Hin' by (apply Hcl; cbn; [done | lia | lia]).
      apply (max_result_ge candidate) in Hin'. cbn in Hin'. lia.
    + assert ((i, r) ∈ comp) as Hin' by (apply Hcl; cbn; [done | lia | lia]). apply (min_invocation_le candidate) in Hin'. cbn in Hin'. lia.
Qed.

(** A fence whose floor nothing crosses only moves back, and not past its floor. *)
Lemma fence_back :
  uncrossed arcs floor -> floor <= candidate -> floor <= fence_boundary_for_completed_tool_arcs candidate arcs floor <= candidate.
Proof.
  intros Hf Hc. destruct (fence_cases (fun a => floor <= a.1)) as [[_ ->] | (comp & Hcl & Hne & HP & (a & Ha & Hx) & ->)].
  - intros [i r] [Hin Hx]%elem_of_crossing. specialize (Hf i r Hin). cbn. lia.
  - intros comp [i r] Hne HP Hin%elem_of_completed _ Hlo. specialize (Hf i r Hin). cbn in *.
    destruct (min_invocation_in candidate comp Hne) as (x & Hx & E). specialize (HP x Hx). lia.
  - lia.
  - destruct (min_invocation_in candidate comp Hne) as (x & Hx' & E). pose proof (HP x Hx'). pose proof (min_invocation_le candidate comp a Ha).
    rewrite (proj2 (Z.ltb_ge _ _)) by lia. lia.
Qed.

(** It leaves a candidate alone that nothing crosses. *)
Lemma fence_id : uncrossed arcs candidate -> fence_boundary_for_completed_tool_arcs candidate arcs floor = candidate.
Proof.
  intros Hu. unfold fence_boundary_for_completed_tool_arcs. fold crossing. destruct crossing as [|[i r] c] eqn:E; [done|].
  assert ((i, r) ∈ crossing) as [Hin Hx]%elem_of_crossing by (rewrite E; set_solver). by specialize (Hu i r Hin).
Qed.
End Fence.

(** ** Arcs come from the messages *)
Definition calls_arc (id : string) (b : BoundaryBlock) : Prop :=
  bb_provider_executed b = false /\ bb_arc_id b = Some id /\ match bb_kind b with Selection.ToolCall _ _ => True | _ => False end.
Definition answers_arc (id : string) (b : BoundaryBlock) : Prop :=
  bb_provider_executed b = false /\ bb_arc_id b = Some id /\ match bb_kind b with Selection.ToolResult _ _ => True | _ => False end.

#[global] Instance calls_arc_dec id b : Decision (calls_arc id b).
Proof. unfold calls_arc. destruct (bb_kind b); apply _. Defined.
#[global] Instance answers_arc_dec id b : Decision (answers_arc id b).
Proof. unfold answers_arc. destruct (bb_kind b); apply _. Defined.

(** The ordinals of an arc id's calls and results, in message order. *)
Definition call_ordinals (id : string) (ms : list BoundaryMsg) : list Z :=
  ms ≫= (fun m => (fun _ => message_ordinal m) <$> filter (calls_arc id) (blocks m)).
Definition result_ordinals (id : string) (ms : list BoundaryMsg) : list Z :=
  ms ≫= (fun m => (fun _ => message_ordinal m) <$> filter (answers_arc id) (blocks m)).

Definition arc_entry (id : string) (partial : list (string * PartialArc)) : PartialArc := default ([], []) (btree_get id partial).

Lemma arc_step_entry o partial b id :
  arc_entry id (arc_step o partial b)
  = ((arc_entry id partial).1 ++ (if decide (calls_arc id b) then [o] else []),
     (arc_entry id partial).2 ++ (if decide (answers_arc id b) then [o] else [])).
Proof.
  unfold arc_step. destruct (bb_provider_executed b) eqn:Ep.
  { rewrite !decide_False by (intros [? _]; congruence). rewrite !app_nil_r. by destruct (arc_entry id partial). }
  destruct (bb_arc_id b) as [id'|] eqn:Ea.
  2:{ rewrite !decide_False by (intros (_ & ? & _); congruence). rewrite !app_nil_r. by destruct (arc_entry id partial). }
  unfold arc_entry at 1. rewrite btree_get_insert. case_bool_decide as E.
  - subst id'. cbn [default]. fold (arc_entry id partial). destruct (arc_entry id partial) as [inv res].
    destruct (decide (calls_arc id b)) as [Hc|Hc], (decide (answers_arc id b)) as [Ha|Ha]; unfold calls_arc, answers_arc in *; destruct (bb_kind b); cbn; rewrite ?app_nil_r; naive_solver.
  - rewrite !decide_False by (intros (_ & ? & _); congruence). rewrite !app_nil_r. fold (arc_entry id partial). by destruct (arc_entry id partial).
Qed.

Lemma arc_blocks_entry o bs partial id :
  arc_entry id (foldl (arc_step o) partial bs)
  = ((arc_entry id partial).1 ++ ((fun _ => o) <$> filter (calls_arc id) bs),
     (arc_entry id partial).2 ++ ((fun _ => o) <$> filter (answers_arc id) bs)).
Proof.
  revert partial. induction bs as [|b bs IH]; intros partial; cbn [foldl].
  { cbn. rewrite !app_nil_r. by destruct (arc_entry id partial). }
  rewrite IH, arc_step_entry. cbn [fst snd]. rewrite !list.filter_cons, <- !app_assoc. repeat case_decide; done.
Qed.

Lemma collect_arcs_entry ms id : arc_entry id (collect_arcs ms) = (call_ordinals id ms, result_ordinals id ms).
Proof.
  unfold collect_arcs. enough (forall partial,
    arc_entry id (foldl (fun partial m => foldl (arc_step (message_ordinal m)) partial (blocks m)) partial ms)
    = ((arc_entry id partial).1 ++ call_ordinals id ms, (arc_entry id partial).2 ++ result_ordinals id ms)) as H by apply H.
  induction ms as [|m ms IH]; intros partial; cbn [foldl].
  { cbn. rewrite !app_nil_r. by destruct (arc_entry id partial). }
  rewrite IH, arc_blocks_entry. cbn. by rewrite <- !app_assoc.
Qed.

Lemma collect_arcs_keys ms : key_ordered (collect_arcs ms).
Proof.
  unfold collect_arcs. enough (forall partial, key_ordered partial ->
    key_ordered (foldl (fun partial m => foldl (arc_step (message_ordinal m)) partial (blocks m)) partial ms)) as H by (apply H; constructor).
  induction ms as [|m ms IH]; intros partial Hp; cbn [foldl]; [done|]. apply IH. clear IH.
  revert partial Hp. induction (blocks m) as [|b bs IH]; intros partial Hp; cbn [foldl]; [done|]. apply IH.
  unfold arc_step. repeat case_match; try done; by apply btree_insert_ordered.
Qed.

Lemma elem_of_collect ms id (e : PartialArc) : (id, e) ∈ collect_arcs ms -> e = (call_ordinals id ms, result_ordinals id ms).
Proof.
  intros Hin. rewrite <- collect_arcs_entry.
  symmetry. unfold arc_entry. by rewrite (elem_of_btree_get id e _ (key_ordered_NoDup _ (collect_arcs_keys ms)) Hin).
Qed.

Lemma position_from_spec x l i : position_from x l = Some i -> exists y, l !! i = Some y /\ x <= y.
Proof.
  revert i. induction l as [|y l IH]; intros i H; cbn in H; [done|]. destruct (Z.leb_spec x y); simplify_eq; [by exists y|].
  destruct (position_from x l) as [j|] eqn:E; cbn in H; simplify_eq. by apply IH.
Qed.

Lemma pair_calls_sound invs res i r : mkArc i (Some r) ∈ pair_calls invs res -> i ∈ invs /\ r ∈ res /\ i <= r.
Proof.
  revert res. induction invs as [|inv invs IH]; intros res H; cbn in H; [set_solver|].
  destruct (position_from inv res) as [k|] eqn:E.
  - apply position_from_spec in E as (y & Hy & Hle). rewrite Hy in H. apply elem_of_cons in H as [H|H]; simplify_eq.
    + split; [set_solver|]. split; [|done]. by eapply list_elem_of_lookup_2.
    + apply IH in H as (? & Hr & ?). split; [set_solver|]. split; [|done]. eapply elem_of_submseteq; [exact Hr|]. apply sublist_submseteq, sublist_delete.
  - apply elem_of_cons in H as [H|H]; simplify_eq. apply IH in H. set_solver.
Qed.

Lemma elem_of_build ms a :
  a ∈ build_tool_arcs ms <-> exists id e, (id, e) ∈ collect_arcs ms /\ a ∈ pair_calls (sort_by Z.compare e.1) (sort_by Z.compare e.2).
Proof.
  unfold build_tool_arcs. rewrite sort_by_perm, list_elem_of_bind. split.
  - intros ([id [inv res]] & Ha & Hin). by exists id, (inv, res).
  - intros (id & [inv res] & Hin & Ha). exists (id, (inv, res)). by split.
Qed.

(** Every completed arc pairs a call with a result of the same arc id in the same or a later message. *)
Lemma build_sound ms i r : mkArc i (Some r) ∈ build_tool_arcs ms -> exists id, i ∈ call_ordinals id ms /\ r ∈ result_ordinals id ms /\ i <= r.
Proof.
  intros (id & e & Hin & Ha)%elem_of_build. apply elem_of_collect in Hin. subst e. apply pair_calls_sound in Ha as (Hi & Hr & Hle). cbn [fst snd] in *.
  rewrite sort_by_perm in Hi, Hr. by exists id.
Qed.

(** A call and a result that are alone under their arc id make a completed arc. *)
Lemma build_unique ms id i r : call_ordinals id ms = [i] -> result_ordinals id ms = [r] -> i <= r -> mkArc i (Some r) ∈ build_tool_arcs ms.
Proof.
  intros Hi Hr Hle. apply elem_of_build. exists id, ([i], [r]). split.
  - apply btree_get_elem. pose proof (collect_arcs_entry ms id) as E. rewrite Hi, Hr in E. unfold arc_entry in E.
    destruct (btree_get id _); cbn in E; [f_equal; exact E | discriminate E].
  - cbn. rewrite (proj2 (Z.leb_le i r) Hle). cbn. set_solver.
Qed.

Lemma elem_of_call_ordinals id ms o : o ∈ call_ordinals id ms -> exists m, m ∈ ms /\ message_ordinal m = o.
Proof. unfold call_ordinals. intros (m & Ho & Hm)%list_elem_of_bind. apply list_elem_of_fmap in Ho as (? & -> & _). by exists m. Qed.
Lemma elem_of_result_ordinals id ms o : o ∈ result_ordinals id ms -> exists m, m ∈ ms /\ message_ordinal m = o.
Proof. unfold result_ordinals. intros (m & Ho & Hm)%list_elem_of_bind. apply list_elem_of_fmap in Ho as (? & -> & _). by exists m. Qed.

Definition ordinals_ok (ms : list BoundaryMsg) : Prop := Forall (fun m => 0 <= message_ordinal m < u64_MAX) ms.

Lemma build_arcs_sound ms : ordinals_ok ms -> sound_arcs (build_tool_arcs ms).
Proof.
  intros Hok i r (id & Hi & Hr & Hle)%build_sound. split; [done|]. apply elem_of_result_ordinals in Hr as (m & Hm & <-).
  unfold ordinals_ok in Hok. rewrite Forall_forall in Hok. by apply Hok.
Qed.

(** ** The token index holds the session's ordinals *)
Lemma sorted_by_key {A} (l : list (Z * A)) : is_sorted_by_key l = true -> StronglySorted Z.le l.*1.
Proof.
  intros H. apply Sorted_StronglySorted; [intros ? ? ?; lia|]. induction l as [|x [|y l] IH]; [by constructor | by repeat constructor|].
  cbn in H. apply andb_true_iff in H as [Hxy%Z.leb_le H]. constructor; [by apply IH | by constructor].
Qed.

#[global] Instance by_ordinal_total {A} : TotalCmp (@by_ordinal A).
Proof. unfold by_ordinal. apply _. Qed.
#[global] Instance msg_by_ordinal_total : TotalCmp msg_by_ordinal.
Proof. unfold msg_by_ordinal. apply _. Qed.

Lemma sort_by_ordinal_sorted {A} (l : list (Z * A)) : StronglySorted Z.le (sort_by by_ordinal l).*1.
Proof.
  apply (StronglySorted_fmap fst (cmp_le by_ordinal)); [|apply sort_by_sorted, _].
  intros x y H. by apply Z.compare_le_iff.
Qed.

Lemma index_fold (l : list (Z * f64)) ords pre :
  StronglySorted Z.lt ords -> StronglySorted Z.le l.*1 -> (forall x y, x ∈ ords -> y ∈ l.*1 -> x <= y) ->
  let r := foldl index_step (ords, pre) l in
  StronglySorted Z.lt r.1 /\ forall x, x ∈ r.1 <-> x ∈ ords \/ x ∈ l.*1.
Proof.
  revert ords pre. induction l as [|[o t] l IH]; intros ords pre Ho Hl Hb; cbn [foldl]; [set_solver|].
  cbn in Hl. apply StronglySorted_inv in Hl as [Hl Ht]. rewrite Forall_forall in Ht. cbv zeta.
  change (index_step (ords, pre) (o, t)) with
    (if bool_decide (list.last ords = Some o)
     then (ords, take (length pre - 1) pre ++ [f64_add (default zero (list.last pre)) t])
     else (ords ++ [o], pre ++ [f64_add (default zero (list.last pre)) t])).
  case_bool_decide as E.
  - destruct (IH ords (take (length pre - 1) pre ++ [f64_add (default zero (list.last pre)) t])) as [H1 H2]; [done | done | set_solver|].
    split; [done|]. intros x. etransitivity; [exact (H2 x)|]. cbn. apply list.last_Some_elem_of in E. set_solver.
  - destruct (IH (ords ++ [o]) (pre ++ [f64_add (default zero (list.last pre)) t])) as [H1 H2].
    + apply StronglySorted_app. split; [|split; [done | by repeat constructor]]. intros x y Hx Hy%list_elem_of_singleton. subst y.
      pose proof (Hb x o Hx ltac:(set_solver)). destruct (decide (x = o)) as [-> | Hne]; [|lia]. exfalso. apply E.
      destruct (list.last ords) as [z|] eqn:Ez; [|apply list.last_None in Ez; set_solver]. f_equal.
      apply list.last_Some in Ez as [l' ->]. apply StronglySorted_app in Ho as (Ho & _ & _).
      apply elem_of_app in Hx as [Hx| ->%list_elem_of_singleton]; [|done].
      specialize (Ho o z Hx ltac:(set_solver)). specialize (Hb z o ltac:(set_solver) ltac:(set_solver)). lia.
    + done.
    + set_solver.
    + split; [done|]. intros x. etransitivity; [exact (H2 x)|]. cbn. set_solver.
Qed.

Lemma index_spec ms :
  let ix := TokenIndex_new ms in
  StronglySorted Z.lt (ordinals ix) /\ (forall o, o ∈ ordinals ix <-> o ∈ ordinals_of ms)
  /\ first_ordinal ix = default 1 (head (ordinals ix)) /\ last_ordinal ix = default 0 (list.last (ordinals ix))
  /\ terminal_ordinal ix = match list.last (ordinals ix) with Some o => saturating_succ o | None => 1 end
  /\ ix_raw_message_count ix = Z.of_nat (length (ordinals ix)).
Proof.
  cbv zeta. unfold TokenIndex_new. set (totals := (fun m => (message_ordinal m, message_total m)) <$> ms).
  set (l := if is_sorted_by_key totals then totals else sort_by by_ordinal totals).
  assert (StronglySorted Z.le l.*1) as Hl.
  { unfold l. destruct (is_sorted_by_key totals) eqn:E; [by apply sorted_by_key | apply sort_by_ordinal_sorted]. }
  assert (Hperm : l ≡ₚ totals) by (unfold l; destruct (is_sorted_by_key totals); [done | apply sort_by_perm]).
  assert (Hin : forall o, o ∈ l.*1 <-> o ∈ ordinals_of ms).
  { intros o. rewrite Hperm. unfold totals, ordinals_of. rewrite <- list_fmap_compose. done. }
  destruct (index_fold l [] [zero]) as [H1 H2]; [constructor | done | set_solver|].
  destruct (foldl index_step _ l) as [ords pre]. cbn in *. split; [done|]. split; [|done]. intros o. rewrite H2, Hin. set_solver.
Qed.

Lemma sorted_head_last (l : list Z) o :
  StronglySorted Z.lt l -> o ∈ l -> exists f z, head l = Some f /\ list.last l = Some z /\ f <= o <= z /\ f ∈ l /\ z ∈ l.
Proof.
  intros Hs Ho. destruct l as [|f l]; [set_solver|]. destruct (list.last (f :: l)) as [z|] eqn:E; [|by apply list.last_None in E].
  exists f, z. split; [done|]. split; [done|]. pose proof (list.last_Some_elem_of _ _ E). split; [|set_solver]. split.
  - apply StronglySorted_inv in Hs as [_ Hf]. rewrite Forall_forall in Hf. apply elem_of_cons in Ho as [-> | Ho]; [lia|].
    specialize (Hf _ Ho). lia.
  - apply list.last_Some in E as [l' E]. rewrite E in *. apply StronglySorted_app in Hs as (Hs & _ & _).
    apply elem_of_app in Ho as [Ho| ->%list_elem_of_singleton]; [|lia]. specialize (Hs o z Ho ltac:(set_solver)). lia.
Qed.

Lemma ordinals_ok_elem ms o : ordinals_ok ms -> o ∈ ordinals_of ms -> 0 <= o < u64_MAX.
Proof. intros Hok (m & -> & Hm)%list_elem_of_fmap. unfold ordinals_ok in Hok. rewrite Forall_forall in Hok. by apply Hok. Qed.

Lemma index_bounds ms o :
  ordinals_ok ms -> o ∈ ordinals_of ms ->
  let ix := TokenIndex_new ms in
  first_ordinal ix <= o <= last_ordinal ix /\ terminal_ordinal ix = last_ordinal ix + 1 /\ ordinals ix <> []
  /\ first_ordinal ix ∈ ordinals_of ms /\ last_ordinal ix ∈ ordinals_of ms /\ (ix_raw_message_count ix =? 0) = false.
Proof.
  intros Hok Ho ix. destruct (index_spec ms) as (Hs & Hin & Hf & Hl & Ht & Hc). fold ix in Hs, Hin, Hf, Hl, Ht, Hc.
  destruct (sorted_head_last _ _ Hs (proj2 (Hin o) Ho)) as (f & z & Ef & Ez & Hle & Hfi & Hzi).
  rewrite Hf, Hl, Ht, Hc, Ef, Ez. cbn. apply Hin in Hfi, Hzi. pose proof (ordinals_ok_elem ms z Hok Hzi).
  unfold saturating_succ. split; [lia|]. split; [lia|]. split; [by destruct (ordinals ix)|]. split; [done|]. split; [done|].
  destruct (ordinals ix); [done|]. apply Z.eqb_neq. cbn. lia.
Qed.

Lemma clamp_between ms o s lo :
  ordinals_ok ms -> o ∈ ordinals_of ms -> lo <= s <= o -> lo <= clamp_ordinal (TokenIndex_new ms) s <= o.
Proof.
  intros Hok Ho Hs. destruct (index_bounds ms o Hok Ho) as (Hb & Ht & Hne & _). unfold clamp_ordinal.
  destruct (ordinals (TokenIndex_new ms)); [done|]. lia.
Qed.

(** ** The token search *)
Section Search.
Context (ix : TokenIndex) (cut : f64).

Definition prefix_fits (i : nat) : Prop := f64_le (prefix_at ix i) cut = true.

(** When prefix sums below a fitting one fit, the search ends at the greatest one that prefix_fits, or where it
    started when none does; one step per index is enough. *)
Lemma search_loop_spec fuel lo hi best :
  (forall i j, (i <= j <= hi)%nat -> prefix_fits j -> prefix_fits i) -> (S hi - lo <= fuel)%nat ->
  let r := search_loop fuel ix cut lo hi best in
  (r = best /\ forall i, (lo <= i <= hi)%nat -> ~ prefix_fits i)
  \/ ((lo <= r <= hi)%nat /\ prefix_fits r /\ forall i, (r < i <= hi)%nat -> ~ prefix_fits i).
Proof.
  revert lo hi best. induction fuel as [|fuel IH]; intros lo hi best Hm Hf; cbn [search_loop]; cbv zeta.
  { left. split; [done|]. lia. }
  destruct (Nat.ltb_spec hi lo); [left; split; [done|]; lia|].
  set (mid := ((lo + hi) / 2)%nat). assert (lo <= mid <= hi)%nat as Hmid.
  { split; [apply Nat.div_le_lower_bound | apply Nat.Div0.div_le_upper_bound]; lia. }
  destruct (f64_le (prefix_at ix mid) cut) eqn:E.
  - destruct (IH (S mid) hi mid) as [[-> H1] | (H1 & H2 & H3)]; [done | lia | |]; right.
    + split; [done|]. split; [done|]. intros i Hi. apply H1. lia.
    + split; [lia|]. done.
  - assert (Hno : forall i, (mid <= i <= hi)%nat -> ~ prefix_fits i).
    { intros i Hi Hfi. assert (prefix_fits mid) as Hx by (apply (Hm mid i); [lia | done]). unfold prefix_fits in Hx. congruence. }
    destruct (Nat.eqb_spec mid 0) as [E0|E0]; [left; split; [done|]; intros i Hi; apply Hno; lia|].
    destruct (IH lo (mid - 1)%nat best) as [[-> H1] | (H1 & H2 & H3)]; [intros i j Hij; apply Hm; lia | lia | left | right].
    + split; [done|]. intros i Hi. destruct (decide (mid <= i)%nat); [apply Hno; lia | apply H1; lia].
    + split; [lia|]. split; [done|]. intros i Hi. destruct (decide (mid <= i)%nat); [apply Hno; lia | apply H3; lia].
Qed.
End Search.

(** ** The head cap *)
Lemma head_cap_spec ix start offset arcs cap cutoff :
  sound_arcs arcs -> uncrossed arcs start ->
  let e := (apply_head_cap ix start offset arcs cap cutoff).1.1 in
  offset <= e /\ (offset < e -> e <= start /\ uncrossed arcs e).
Proof.
  intros Hs Hu. unfold apply_head_cap. destruct (Z.leb_spec start offset); [cbn; lia|].
  destruct (fence_head_for_open_arcs _ _ _ _) as [last fenced]. cbv zeta.
  set (e := fence_boundary_for_completed_tool_arcs last arcs offset). destruct (Z.leb_spec e offset); cbn; [lia|].
  split; [lia|]. intros _. split; [lia|]. apply uncrossed_min; [by apply fence_uncrossed | done].
Qed.

(** ** The protected tail *)
Section Resolve.
Context (meaningful_text : string -> bool) (ms : list BoundaryMsg) (ctx : BoundaryContext).
Hypothesis Hok : ordinals_ok ms.

Let arcs := build_tool_arcs ms.
Let ix := TokenIndex_new ms.
Let offset := offset_of ctx ms.
Let resolution := resolve_protected_tail_boundary meaningful_text ms ctx.

(** The tail starts at the final fence of a floored walk, and the head cap ends the head. *)
Lemma resolve_shape :
  ms = [] \/ exists boundary cap cutoff,
    let start := (apply_floors meaningful_text ms ctx ix arcs offset boundary).1 in
    protected_start_ordinal resolution = fence_boundary_for_completed_tool_arcs start arcs offset
    /\ eligible_head resolution = (offset, (apply_head_cap ix (protected_start_ordinal resolution) offset arcs cap cutoff).1.1).
Proof.
  destruct (decide (ms = [])) as [|Hne]; [by left|]. right.
  assert (exists o, o ∈ ordinals_of ms) as [o Hm] by (clear -Hne; destruct ms as [|m l]; [done | exists (message_ordinal m); set_solver]).
  destruct (index_bounds ms _ Hok Hm) as (_ & _ & _ & _ & _ & Hc).
  unfold resolution, resolve_protected_tail_boundary. rewrite Hc. fold ix arcs offset.
  destruct (walk_boundary _ _ _ _ _ _) as [[boundary reason] open_walk] eqn:Ew. destruct (apply_floors _ _ _ _ _ _ _) as [start floored] eqn:Ef.
  destruct (apply_head_cap _ _ _ _ _ _) as [[e oversize] open_head] eqn:Eh. exists boundary. do 2 eexists. cbn. rewrite Ef. split; [done|].
  cbn. by rewrite Eh.
Qed.

Lemma resolve_cut :
  uncrossed arcs (protected_start_ordinal resolution)
  /\ (eligible_head resolution).1 = offset /\ offset <= (eligible_head resolution).2
  /\ (offset < (eligible_head resolution).2 ->
        (eligible_head resolution).2 <= protected_start_ordinal resolution /\ uncrossed arcs (eligible_head resolution).2).
Proof.
  destruct resolve_shape as [E | (boundary & cap & cutoff & Hp & He)].
  - split; [intros i r; unfold arcs; rewrite E; cbn; set_solver|]. unfold resolution, offset. rewrite E. 
    change (eligible_head (resolve_protected_tail_boundary meaningful_text [] ctx)) with (offset_of ctx [], offset_of ctx []). cbn [fst snd]. lia.
  - assert (Hs : sound_arcs arcs) by by apply build_arcs_sound.
    assert (Hu : uncrossed arcs (protected_start_ordinal resolution)) by (rewrite Hp; by apply fence_uncrossed).
    rewrite He. cbn [fst snd]. split; [done|]. split; [done|]. by apply head_cap_spec.
Qed.

Lemma last_prompt_ordinal p : last_prompt meaningful_text ms = Some p -> p ∈ ordinals_of ms.
Proof.
  unfold last_prompt. intros (m & Hm & ->)%fmap_Some. apply list_elem_of_fmap_2.
  apply head_Some_elem_of, list_elem_of_filter in Hm as [_ Hm]. by rewrite elem_of_reverse in Hm.
Qed.

Definition below_force_band : Prop :=
  f64_lt (clamp_percentage (usage_percentage ctx))
    (Scheduler.force_materialize_percentage (Scheduler.escalation_bands (execute_threshold_percentage ctx))) = true.

(** Below the force band and outside an emergency, the floors keep the start between the offset and the prompt. *)
Lemma floor_keeps_prompt boundary p :
  emergency_tail_scale ctx = None -> below_force_band -> last_prompt meaningful_text ms = Some p -> offset <= p ->
  offset <= (apply_floors meaningful_text ms ctx ix arcs offset boundary).1 <= p.
Proof.
  intros He Hf Hp Ho. pose proof (last_prompt_ordinal p Hp) as Hin. unfold apply_floors. unfold below_force_band in Hf. rewrite He, Hp, Hf.
  rewrite (proj2 (Z.leb_le _ _) Ho). cbn [andb].
  set (floor := if publication_floor_active ctx then _ else _). assert (offset <= floor) by (unfold floor; destruct (publication_floor_active ctx); lia).
  destruct (if p <? Z.max boundary floor then _ else _) as [start floored] eqn:E.
  assert (offset <= start <= p) as Hs by (destruct (Z.ltb_spec p (Z.max boundary floor)); simplify_eq; lia). clear E.
  set (start' := if _ && _ then offset else start). assert (offset <= start' <= p) as Hs' by (unfold start'; destruct (_ && _); lia).
  assert (Hc : offset <= clamp_ordinal ix start' <= p) by by apply clamp_between.
  cbn [fst]. destruct (fold_is_only_reclaim ctx); [|done]. apply clamp_between; [done | done | lia].
Qed.

Lemma resolve_keeps_prompt p :
  emergency_tail_scale ctx = None -> below_force_band -> last_prompt meaningful_text ms = Some p -> offset <= p -> uncrossed arcs offset ->
  offset <= protected_start_ordinal resolution <= p /\ (eligible_head resolution).2 <= p.
Proof.
  intros He Hf Hp Ho Hu. destruct resolve_cut as (_ & _ & Hle & Hcut).
  assert (offset <= protected_start_ordinal resolution <= p) as Hps.
  { destruct resolve_shape as [E | (boundary & cap & cutoff & -> & _)].
    - apply last_prompt_ordinal in Hp. rewrite E in Hp. cbn in Hp. set_solver.
    - pose proof (floor_keeps_prompt boundary p He Hf Hp Ho) as H.
      pose proof (fence_back (apply_floors meaningful_text ms ctx ix arcs offset boundary).1 arcs offset (build_arcs_sound ms Hok) Hu (proj1 H)). lia. }
  split; [done|]. destruct (decide (offset < (eligible_head resolution).2)) as [H|H]; [apply Hcut in H as [? _]; lia | lia].
Qed.
End Resolve.

(** ** The wrapup fence *)

(** No completed arc whose call is at or after [offset] is separated at [b]. *)
Definition uncrossed_from (offset : Z) (arcs : list ToolArc) (b : Z) : Prop :=
  forall i r, mkArc i (Some r) ∈ arcs -> offset <= i -> ~ (i < b <= r).

Lemma wrapup_pass_spec offset arcs b :
  let next := wrapup_pass offset arcs b in
  (next = b /\ uncrossed_from offset arcs b) \/ (next < b /\ offset <= next /\ exists a, a ∈ arcs /\ inv_ordinal a = next).
Proof.
  revert b. induction arcs as [|[i res] arcs IH]; intros b; cbv zeta.
  { left. split; [done|]. intros i r H. set_solver. }
  assert (wrapup_pass offset (mkArc i res :: arcs) b
    = wrapup_pass offset arcs (match res with None => b | Some r => if (offset <=? i) && (i <? b) && (b <=? r) then i else b end)) as -> by done.
  destruct res as [r|].
  2:{ destruct (IH b) as [[E H] | (? & ? & a & ? & ?)]; [left|right].
      - split; [done|]. intros i' r' [[=]|Hin]%elem_of_cons. by apply H.
      - split; [done|]. split; [done|]. exists a. set_solver. }
  destruct ((offset <=? i) && (i <? b) && (b <=? r)) eqn:E.
  - rewrite !andb_true_iff, !Z.leb_le, Z.ltb_lt in E. right.
    destruct (IH i) as [[-> _] | (? & ? & a & ? & ?)].
    + split; [lia|]. split; [lia|]. exists (mkArc i (Some r)). set_solver.
    + split; [lia|]. split; [done|]. exists a. set_solver.
  - destruct (IH b) as [[Eb H] | (? & ? & a & ? & ?)]; [left|right].
    + split; [done|]. intros i' r' [[= -> ->]|Hin]%elem_of_cons; [|by apply H]. intros ? ?.
      rewrite !andb_false_iff, !Z.leb_gt, Z.ltb_ge in E. lia.
    + split; [done|]. split; [done|]. exists a. set_solver.
Qed.

Definition calls_before (arcs : list ToolArc) (b : Z) : nat := length (filter (fun a => inv_ordinal a < b) arcs).

Lemma calls_before_le arcs b b' : b' <= b -> (calls_before arcs b' <= calls_before arcs b)%nat.
Proof. intros Hb. unfold calls_before. induction arcs as [|a arcs IH]; [done|]. rewrite !list.filter_cons. repeat case_decide; cbn; lia. Qed.

Lemma calls_before_lt arcs b a : a ∈ arcs -> inv_ordinal a < b -> (calls_before arcs (inv_ordinal a) < calls_before arcs b)%nat.
Proof.
  intros Ha Hb. induction arcs as [|x arcs IH]; [set_solver|]. pose proof (calls_before_le arcs b (inv_ordinal a) ltac:(lia)).
  unfold calls_before in *. rewrite !list.filter_cons. apply elem_of_cons in Ha as [-> | Ha]; [|specialize (IH Ha)]; repeat case_decide; cbn; lia.
Qed.

(** Every round but the last moves the boundary back to another call, so one round per arc and one more are enough. *)
Lemma wrapup_loop_spec n offset arcs b :
  (calls_before arcs b < n)%nat ->
  let e := wrapup_loop n offset arcs b in uncrossed_from offset arcs e /\ e <= b /\ (e = b \/ offset <= e).
Proof.
  revert b. induction n as [|n IH]; intros b Hn; [lia|]. cbn. destruct (wrapup_pass_spec offset arcs b) as [[E H] | (Hlt & Ho & a & Ha & Ea)].
  - rewrite E, Z.eqb_refl. split; [done|]. lia.
  - rewrite (proj2 (Z.eqb_neq _ _)) by lia. destruct (IH (wrapup_pass offset arcs b)) as (H1 & H2 & H3).
    + rewrite <- Ea in Hlt |- *. pose proof (calls_before_lt arcs b a Ha Hlt). lia.
    + split; [done|]. lia.
Qed.

Lemma wrapup_fence_spec candidate arcs offset :
  let e := fence_wrapup_boundary_for_tool_arcs candidate arcs offset in uncrossed_from offset arcs e /\ e <= candidate /\ (e = candidate \/ offset <= e).
Proof. apply wrapup_loop_spec. unfold calls_before. pose proof (length_filter (fun a => inv_ordinal a < candidate) arcs). lia. Qed.

Lemma snap_wrapup_between mt ms ix candidate offset budget :
  offset <= candidate -> offset <= snap_wrapup_boundary_to_user mt ms ix candidate offset budget <= candidate.
Proof.
  intros Hc. unfold snap_wrapup_boundary_to_user. destruct (Z.leb_spec candidate offset); [lia|].
  destruct (head _) as [m|] eqn:E; [|lia]. apply head_Some_elem_of, list_elem_of_filter in E as [[Hm _] _]. destruct (f64_le _ _); lia.
Qed.

(** ** The messages a wrapup counts *)
Lemma dedup_cons y z l : dedup (y :: z :: l) = if y =? z then dedup (z :: l) else y :: dedup (z :: l).
Proof. done. Qed.

Lemma dedup_elem l x : x ∈ dedup l <-> x ∈ l.
Proof.
  induction l as [|y [|z l] IH]; [done | done|]. rewrite dedup_cons. destruct (Z.eqb_spec y z) as [-> | Hne].
  - rewrite IH. set_solver.
  - rewrite elem_of_cons, IH. set_solver.
Qed.

Lemma dedup_sorted l : StronglySorted Z.le l -> StronglySorted Z.lt (dedup l).
Proof.
  induction l as [|y [|z l] IH]; intros Hs; [constructor | by repeat constructor|].
  apply StronglySorted_inv in Hs as [Hs Hy]. specialize (IH Hs). rewrite dedup_cons. destruct (Z.eqb_spec y z) as [-> | Hne]; [done|].
  constructor; [done|]. rewrite Forall_forall in *. intros x Hx. apply (proj1 (dedup_elem _ _)) in Hx. pose proof (Hy z ltac:(set_solver)).
  apply StronglySorted_inv in Hs as [_ Hz]. rewrite Forall_forall in Hz. apply elem_of_cons in Hx as [-> | Hx]; [lia|]. specialize (Hz x Hx). lia.
Qed.

Lemma live_ordinals_spec ms offset :
  StronglySorted Z.lt (live_ordinals ms offset) /\ forall o, o ∈ live_ordinals ms offset <-> offset <= o /\ o ∈ ordinals_of ms.
Proof.
  unfold live_ordinals. split.
  - apply dedup_sorted. eapply StronglySorted_weaken; [|apply (sort_by_sorted Z.compare)]. intros x y H. by apply Z.compare_le_iff.
  - intros o. rewrite dedup_elem, sort_by_perm, list_elem_of_filter. done.
Qed.

Lemma sorted_lookup_le (l : list Z) i j x y : StronglySorted Z.lt l -> (i <= j)%nat -> l !! i = Some x -> l !! j = Some y -> x <= y.
Proof.
  revert i j. induction l as [|z l IH]; intros i j Hs Hij Hi Hj; [done|]. apply StronglySorted_inv in Hs as [Hs Hz]. rewrite Forall_forall in Hz.
  destruct i as [|i], j as [|j]; cbn in *; simplify_eq; try lia.
  - apply list_elem_of_lookup_2 in Hj. specialize (Hz _ Hj). lia.
  - eapply (IH i j); [done | lia | done | done].
Qed.

Lemma newest_floor_cases arcs ix :
  let F := newest_message_protected_floor arcs ix in F = last_ordinal ix \/ mkArc F (Some (last_ordinal ix)) ∈ arcs.
Proof.
  unfold newest_message_protected_floor. cbv zeta. set (l := inv_ordinal <$> _). pose proof (z_min_spec l) as H.
  destruct (z_min l) as [m|]; cbn; [|by left]. destruct H as [((i & res) & -> & Ha)%list_elem_of_fmap _].
  apply list_elem_of_filter in Ha as [Hc Ha]. cbn in *. destruct Hc as [?| ->]; [by left | by right].
Qed.

Section Wrapup.
Context (meaningful_text : string -> bool) (ms : list BoundaryMsg) (last_end : option Z) (keep : nat) (limit threshold : f64).
Hypothesis Hok : ordinals_ok ms.

Let arcs := build_tool_arcs ms.
Let ix := TokenIndex_new ms.
Let offset := default 1 (history_segment_offset last_end ms).
Let live := live_ordinals ms offset.
Let wrapup := resolve_wrapup_boundary meaningful_text ms last_end keep limit threshold.

Lemma live_bounds o : o ∈ live -> offset <= o /\ o <= last_ordinal ix /\ o ∈ ordinals_of ms.
Proof.
  intros [? Ho]%(proj2 (live_ordinals_spec ms offset)). destruct (index_bounds ms o Hok Ho) as ((_ & ?) & _). by split.
Qed.

(** A start that no later arc crosses stays so when it is raised to the first message of the session. *)
Lemma clamp_uncrossed s o :
  o ∈ live -> s <= o -> uncrossed_from offset arcs s ->
  uncrossed_from offset arcs (clamp_ordinal ix s) /\ clamp_ordinal ix s <= o /\ s <= clamp_ordinal ix s.
Proof.
  intros (_ & Hl & Ho)%live_bounds Hs Hu. destruct (index_bounds ms o Hok Ho) as (Hb & Ht & Hne & _). fold ix in Hb, Ht, Hne.
  assert (clamp_ordinal ix s = Z.max s (first_ordinal ix)) as ->.
  { unfold clamp_ordinal. destruct (ordinals ix); [done|]. lia. }
  split; [|lia]. intros i r Hin Hi. pose proof (Hu i r Hin Hi). intros Hx. destruct (build_sound ms i r Hin) as (id & Hc & _).
  apply elem_of_call_ordinals in Hc as (m & Hm & <-). pose proof (list_elem_of_fmap_2 message_ordinal ms m Hm) as Hmo.
  destruct (index_bounds ms _ Hok Hmo) as ((? & _) & _). subst ix. lia.
Qed.

(** The fenced and snapped start, before the newest-message guard. *)
Lemma newest_floor_uncrossed mark refenced :
  mark ∈ live -> refenced <= mark -> offset <= refenced -> uncrossed_from offset arcs refenced ->
  let s := Z.max (Z.min refenced (newest_message_protected_floor arcs ix)) offset in offset <= s <= refenced /\ uncrossed_from offset arcs s.
Proof.
  intros (Ho & Hl & _)%live_bounds Hr Hro Hu. pose proof (newest_floor_cases arcs ix) as HF. cbv zeta in *.
  set (F := newest_message_protected_floor arcs ix) in *. split; [lia|].
  destruct (Z.le_gt_cases refenced F) as [H|H].
  - by replace (Z.max (Z.min refenced F) offset) with refenced by lia.
  - destruct (Z.lt_ge_cases F offset) as [H'|H'].
    + replace (Z.max (Z.min refenced F) offset) with offset by lia. intros i r _ Hi. lia.
    + destruct HF as [HF|HF]; [lia|]. specialize (Hu F _ HF H'). lia.
Qed.

(** Where the tail of a wrapup starts. *)
Lemma wrapup_cut :
  let b := wr_boundary wrapup in let start := protected_start_ordinal b in
  eligible_head b = (offset, start) /\ offset <= start /\ uncrossed_from offset arcs start
  /\ (forall i o, live !! i = Some o -> (length live <= i + Nat.max keep 1)%nat -> start <= o).
Proof.
  unfold wrapup, resolve_wrapup_boundary. fold offset live ix. destruct live as [|o0 l] eqn:El.
  { cbn. split; [done|]. split; [lia|]. split; [|done]. intros i r _ Hi. lia. }
  assert (o0 ∈ live) as H0 by (rewrite El; set_solver). rewrite <- El in *. clear El.
  assert (Hle0 : offset <= o0) by (by apply live_bounds in H0 as [? _]).
  destruct (Nat.leb_spec (length live) (Nat.max keep 1)) as [Hk|Hk].
  - cbn. replace (Z.max offset offset) with offset by lia.
    assert (Hall : forall o, o ∈ live -> uncrossed_from offset arcs (clamp_ordinal ix offset) /\ clamp_ordinal ix offset <= o /\ offset <= clamp_ordinal ix offset).
    { intros o Ho. apply clamp_uncrossed; [done | by apply live_bounds in Ho as [? _] |]. intros i r _ Hi. lia. }
    destruct (Hall o0 H0) as (Hu & _ & Hle). split; [done|]. split; [done|]. split; [done|].
    intros i o Hi _. apply list_elem_of_lookup_2, Hall in Hi. lia.
  - destruct (lookup_lt_is_Some_2 live (length live - Nat.max keep 1)) as [mark Em]; [lia|]. rewrite Em. change (default 0 (Some mark)) with mark.
    assert (Hmark : mark ∈ live) by by apply list_elem_of_lookup_2 in Em. pose proof (proj1 (live_bounds _ Hmark)) as Hom.
    fold arcs. set (fenced := fence_wrapup_boundary_for_tool_arcs mark arcs offset).
    set (snapped := snap_wrapup_boundary_to_user _ _ _ _ _ _). set (refenced := fence_wrapup_boundary_for_tool_arcs snapped arcs offset).
    destruct (wrapup_fence_spec mark arcs offset) as (_ & Hf1 & Hf2). fold fenced in Hf1, Hf2.
    assert (offset <= snapped <= fenced) as Hsn by (apply snap_wrapup_between; lia).
    destruct (wrapup_fence_spec snapped arcs offset) as (Hr1 & Hr2 & Hr3). fold refenced in Hr1, Hr2, Hr3.
    destruct (newest_floor_uncrossed mark refenced) as [Hs1 Hs2]; [done | lia | lia | done|].
    destruct (clamp_uncrossed _ mark Hmark (Z.le_trans _ _ _ (proj2 Hs1) (Z.le_trans _ _ _ Hr2 (Z.le_trans _ _ _ (proj2 Hsn) Hf1))) Hs2) as (Hc1 & Hc2 & Hc3). cbn [wr_boundary protected_start_ordinal eligible_head]. split; [done|]. split; [lia|]. split; [done|].
    intros i o Hi Hlen. transitivity mark; [done|]. eapply (sorted_lookup_le live (length live - Nat.max keep 1) i); [|lia|done|done].
    apply live_ordinals_spec.
Qed.
End Wrapup.

(** ** The offset of the next run *)

(** No completed arc crosses the offset of a session nothing was summarized of. *)
Lemma fresh_offset_uncrossed ms ctx :
  last_history_segment_end_ordinal ctx = None -> uncrossed (build_tool_arcs ms) (offset_of ctx ms).
Proof.
  intros Hn i r (id & Hc & _)%build_sound. apply elem_of_call_ordinals in Hc as (m & Hm & <-). unfold offset_of, history_segment_offset, first_live_message_ordinal.
  rewrite Hn. pose proof (z_min_spec (ordinals_of ms)) as H. destruct (z_min _) as [f|]; cbn.
  - destruct H as [_ H]. specialize (H _ (list_elem_of_fmap_2 message_ordinal ms m Hm)). lia.
  - apply fmap_nil_inv in H. subst ms. set_solver.
Qed.

(** Once a head was summarized, the next run starts at its end, which no completed arc crosses either. *)
Lemma next_offset_uncrossed mt ms ctx ctx' :
  ordinals_ok ms ->
  let b := resolve_protected_tail_boundary mt ms ctx in
  (eligible_head b).1 < (eligible_head b).2 <= u64_MAX -> last_history_segment_end_ordinal ctx' = Some ((eligible_head b).2 - 1) ->
  offset_of ctx' ms = (eligible_head b).2 /\ uncrossed (build_tool_arcs ms) (offset_of ctx' ms).
Proof.
  intros Hok b Hne He. destruct (resolve_cut mt ms ctx Hok) as (_ & Ho & _ & Hcut). fold b in Ho, Hcut. rewrite Ho in Hne.
  assert (offset_of ctx' ms = (eligible_head b).2) as E.
  { unfold offset_of, history_segment_offset. rewrite He. cbn. unfold saturating_succ. lia. }
  rewrite E. split; [done|]. apply Hcut, Hne.
Qed.

(** ** The session of the witnesses *)
Definition text_msg (o : Z) (r : Role) (t : string) (tokens : Z) : BoundaryMsg := mkMsg o r [mkBlock Selection.Text false None t tokens false].
Definition call_msg (o : Z) (id : string) (tokens : Z) : BoundaryMsg :=
  mkMsg o Assistant [mkBlock (Selection.ToolCall "bash" CanonicalJson.Null) false (Some id) "" tokens false].
Definition result_msg (o : Z) (id : string) (tokens : Z) : BoundaryMsg :=
  mkMsg o (Other "tool") [mkBlock (Selection.ToolResult "bash" None) false (Some id) "" tokens false].

Definition sample_session : list BoundaryMsg :=
  [text_msg 1 User "start" 300; text_msg 2 Assistant "plan" 700; call_msg 3 "a" 100; result_msg 4 "a" 1900;
   text_msg 5 Assistant "done" 100; text_msg 6 User "next" 50; text_msg 7 Assistant "ok" 20].

Definition sample_context (publication_floor : bool) : BoundaryContext :=
  mkContext (f64_of_Z 8000) (f64_of_Z 65) (f64_of_Z 40) (f64_of_Z 3200) None 7 publication_floor None None false 2.

Definition own_words (s : string) : bool := negb (String.eqb s "start").

Lemma sample_ok : ordinals_ok sample_session.
Proof. unfold ordinals_ok, u64_MAX. repeat constructor; cbn; lia. Qed.

(** C13: the protected tail and the head that may be summarized are cut between complete tool calls. The
    head starts at the offset and ends at or before the protected start; no completed tool arc has its
    call before and its result at or after either cut; in particular, for an arc id with one call and one
    later result, the result is summarized whenever its call is. *)
Theorem boundary_keeps_tool_pairs (mt : string -> bool) (ms : list BoundaryMsg) (ctx : BoundaryContext) :
  ordinals_ok ms ->
  let b := resolve_protected_tail_boundary mt ms ctx in
  let first := (eligible_head b).1 in
  let last := (eligible_head b).2 in
  first = offset_of ctx ms /\ first <= last /\ (first < last -> last <= protected_start_ordinal b)
  /\ uncrossed (build_tool_arcs ms) (protected_start_ordinal b)
  /\ (first < last -> uncrossed (build_tool_arcs ms) last)
  /\ forall id call result,
       call_ordinals id ms = [call] -> result_ordinals id ms = [result] -> call <= result ->
       (call < protected_start_ordinal b -> result < protected_start_ordinal b) /\ (first < last -> call < last -> result < last).
Proof.
  intros Hok b first last. destruct (resolve_cut mt ms ctx Hok) as (Hu & Ho & Hle & Hcut). fold b in Hu, Ho, Hle, Hcut.
  unfold first, last. rewrite Ho. split; [done|]. split; [done|]. split; [by intros H; apply Hcut|]. split; [done|]. split; [by intros H; apply Hcut|].
  intros id call result Hc Hr Hcr. pose proof (build_unique ms id call result Hc Hr Hcr) as Hin. split.
  - specialize (Hu _ _ Hin). lia.
  - intros Hne. destruct (Hcut Hne) as [_ Hx]. specialize (Hx _ _ Hin). lia.
Qed.

Lemma boundary_keeps_tool_pairs_witness :
  let b := resolve_protected_tail_boundary own_words sample_session (sample_context false) in
  eligible_head b = (1, 3) /\ protected_start_ordinal b = 3 /\ uncrossed (build_tool_arcs sample_session) 3.
Proof.
  split; [vm_compute; reflexivity|]. split; [vm_compute; reflexivity|].
  exact (proj1 (proj2 (proj2 (proj2 (boundary_keeps_tool_pairs own_words sample_session (sample_context false) sample_ok))))).
Defined.

(** C14: outside an emergency and below the force band, the newest prompt of the user that was not
    summarized yet stays in the protected tail, wherever the token walk, the publication floor or a prior
    boundary put its start, as long as no completed arc crosses the offset (which holds for a fresh
    session and after every run). *)
Theorem live_prompt_protected (mt : string -> bool) (ms : list BoundaryMsg) (ctx : BoundaryContext) (prompt : Z) :
  ordinals_ok ms -> emergency_tail_scale ctx = None -> below_force_band ctx ->
  last_prompt mt ms = Some prompt -> offset_of ctx ms <= prompt -> uncrossed (build_tool_arcs ms) (offset_of ctx ms) ->
  let b := resolve_protected_tail_boundary mt ms ctx in
  offset_of ctx ms <= protected_start_ordinal b <= prompt /\ (eligible_head b).2 <= prompt.
Proof. intros Hok He Hf Hp Ho Hu. exact (resolve_keeps_prompt mt ms ctx Hok prompt He Hf Hp Ho Hu). Qed.

Lemma live_prompt_protected_witness :
  let b := resolve_protected_tail_boundary own_words sample_session (sample_context true) in
  floored_by_live_prompt b = true /\ protected_start_ordinal b = 6 /\ (eligible_head b).2 <= 6.
Proof.
  split; [vm_compute; reflexivity|]. split; [vm_compute; reflexivity|].
  refine (proj2 (live_prompt_protected own_words sample_session (sample_context true) 6 sample_ok eq_refl _ _ _ _)).
  - vm_compute; reflexivity.
  - vm_compute; reflexivity.
  - vm_compute; discriminate.
  - exact (fresh_offset_uncrossed sample_session (sample_context true) eq_refl).
Defined.

(** A manual wrapup never summarizes one of the newest messages it was asked to keep, nor cuts
    between the call and the result of a tool arc whose call is still raw: the cut is at or before the
    watermark, the head ends where the tail starts, and the search for a cut outside every arc reaches
    one within its bound. *)
Theorem wrapup_keeps_tail (mt : string -> bool) (ms : list BoundaryMsg) (last_end : option Z) (keep : nat) (limit threshold : f64) :
  ordinals_ok ms ->
  let b := wr_boundary (resolve_wrapup_boundary mt ms last_end keep limit threshold) in
  let offset := default 1 (history_segment_offset last_end ms) in
  let live := live_ordinals ms offset in
  eligible_head b = (offset, protected_start_ordinal b) /\ offset <= protected_start_ordinal b
  /\ uncrossed_from offset (build_tool_arcs ms) (protected_start_ordinal b)
  /\ StronglySorted Z.lt live /\ (forall o, o ∈ live <-> offset <= o /\ o ∈ ordinals_of ms)
  /\ (forall i o, live !! i = Some o -> (length live <= i + Nat.max keep 1)%nat -> protected_start_ordinal b <= o).
Proof.
  intros Hok b offset live. destruct (wrapup_cut mt ms last_end keep limit threshold Hok) as (H1 & H2 & H3 & H4).
  destruct (live_ordinals_spec ms offset) as [H5 H6]. by repeat split; try done; apply H6.
Qed.

Lemma wrapup_keeps_tail_witness :
  let b := wr_boundary (resolve_wrapup_boundary own_words sample_session None 4 (f64_of_Z 8000) (f64_of_Z 65)) in
  boundary_reason b = WrapupToolArc /\ eligible_head b = (1, 3) /\ uncrossed_from 1 (build_tool_arcs sample_session) 3.
Proof.
  split; [vm_compute; reflexivity|]. split; [vm_compute; reflexivity|].
  exact (proj1 (proj2 (proj2 (wrapup_keeps_tail own_words sample_session None 4 (f64_of_Z 8000) (f64_of_Z 65) sample_ok)))).
Defined.
