(* ===== verification/ParallelMap.v ===== *)
(** * ParallelMap: the order-preserving worker-pool map (daemon/src/parallel_map.rs)

    [map_with] splits its input into one chunk per worker and joins the parts in order; [map_until] maps
    the next batch while the previous one is consumed, and stops when the consumer does. Workers are
    modelled by what they compute: chunk by chunk, each with a fresh state. The theorems show that neither
    the number of workers nor the batch sizes can be observed. *)
From S2P Require Import Prelude.
From stdpp Require Import list.

Module ParallelMap.

Definition MIN_ITEMS_PER_WORKER : nat := 24.
Definition MAX_WORKERS : nat := 4.

(** The worker count, when the host has the cores and the pool started. *)
Definition pool (available_parallelism : nat) (built : bool) : option nat :=
  let threads := Nat.min available_parallelism MAX_WORKERS in
  if (threads <? 2)%nat then None else if built then Some threads else None.

Definition chunk_len (a b : nat) : nat := ((a + b - 1) / b)%nat.

Section Map.
Context {T S R : Type} (default_state : S) (map : S -> T -> S * R).

(** One worker's chunk, with the state it shares. *)
Fixpoint run_from (state : S) (chunk : list T) : list R :=
  match chunk with
  | [] => []
  | item :: chunk => let '(state, r) := map state item in r :: run_from state chunk
  end.
Definition run_chunk (chunk : list T) : list R := run_from default_state chunk.

(** [rest.split_off(chunk)] while the rest is longer than a chunk; every round removes an item. *)
Fixpoint split_chunks (fuel chunk : nat) (rest : list T) : list (list T) :=
  match fuel with
  | O => [rest]
  | Datatypes.S fuel =>
      if (chunk <? length rest)%nat then take chunk rest :: split_chunks fuel chunk (drop chunk rest) else [rest]
  end.

Definition map_with (workers_available : option nat) (items : list T) : list R :=
  match workers_available with
  | Some threads =>
      if (2 * MIN_ITEMS_PER_WORKER <=? length items)%nat && (1 <? threads)%nat then
        let workers := Nat.min (length items / MIN_ITEMS_PER_WORKER) threads in
        let chunk := chunk_len (length items) workers in
        concat (run_chunk <$> split_chunks (length items) chunk items)
      else run_chunk items
  | None => run_chunk items
  end.

Section Until.
Context {C : Type} (consume : C -> R -> C * bool).

(** [all] on an iterator: the consumer runs until it returns [false]. *)
Fixpoint consume_all (c : C) (rs : list R) : C * bool :=
  match rs with
  | [] => (c, true)
  | r :: rs => let '(c, more) := consume c r in if more then consume_all c rs else (c, false)
  end.

(** Without a pool: one item at a time, one state. *)
Fixpoint serial_until (state : S) (c : C) (items : list T) : C :=
  match items with
  | [] => c
  | item :: items =>
      let '(state, r) := map state item in
      let '(c, more) := consume c r in if more then serial_until state c items else c
  end.

(** Each round maps [upcoming] while [current] is consumed. *)
Fixpoint batches (fuel : nat) (threads batch : nat) (c : C) (current : list R) (items : list T) : C :=
  match fuel with
  | O => c
  | Datatypes.S fuel =>
      match current with
      | [] => c
      | _ =>
          let batch := Z.to_nat (Z.min u64_MAX (Z.of_nat batch * 2)) in
          let upcoming := take batch items in
          let mapped := match upcoming with [] => [] | _ => map_with (Some threads) upcoming end in
          let '(c, consumed_all) := consume_all c current in
          if consumed_all then batches fuel threads batch c mapped (drop batch items) else c
      end
  end.

Definition map_until (workers_available : option nat) (c : C) (items : list T) : C :=
  match workers_available with
  | None => serial_until default_state c items
  | Some threads =>
      let batch := (MIN_ITEMS_PER_WORKER * threads)%nat in
      batches (Datatypes.S (length items)) threads batch c (map_with (Some threads) (take batch items)) (drop batch items)
  end.
End Until.
End Map.

(** ** Neither chunks nor batches show *)
Section Pure.
Context {T S R : Type} (s0 : S) (map : S -> T -> S * R) (f : T -> R).
Hypothesis stateless : forall s t, (map s t).2 = f t.

Lemma run_from_pure s chunk : run_from map s chunk = f <$> chunk.
Proof. revert s. induction chunk as [|t chunk IH]; intros s; [done|]. cbn. pose proof (stateless s t). destruct (map s t) as [s' r]. cbn in *. by rewrite IH; subst. Qed.

Lemma concat_split_chunks fuel chunk (rest : list T) : concat (split_chunks fuel chunk rest) = rest.
Proof.
  revert rest. induction fuel as [|fuel IH]; intros rest; cbn [split_chunks concat]; [by rewrite app_nil_r|].
  destruct (chunk <? length rest)%nat; cbn; [by rewrite IH, take_drop | by rewrite app_nil_r].
Qed.

Lemma run_chunks (cs : list (list T)) : concat (run_chunk s0 map <$> cs) = f <$> concat cs.
Proof. induction cs as [|c cs IH]; [done|]. cbn. unfold run_chunk at 1. by rewrite run_from_pure, IH, fmap_app. Qed.

Lemma map_with_pure w items : map_with s0 map w items = f <$> items.
Proof.
  unfold map_with, run_chunk at 2 3. destruct w as [threads|]; [|apply run_from_pure].
  destruct (_ && _); [by rewrite run_chunks, concat_split_chunks | apply run_from_pure].
Qed.

Section PureUntil.
Context {C : Type} (consume : C -> R -> C * bool).

Lemma serial_pure s c items : serial_until map consume s c items = (consume_all consume c (f <$> items)).1.
Proof.
  revert s c. induction items as [|t items IH]; intros s c; [done|]. cbn.
  pose proof (stateless s t) as E. destruct (map s t) as [s' r]. cbn in *. subst r.
  destruct (consume c (f t)) as [c' []]; [apply IH | done].
Qed.

Lemma consume_all_app c rs rs' :
  consume_all consume c (rs ++ rs') = let '(c, more) := consume_all consume c rs in if more then consume_all consume c rs' else (c, false).
Proof. revert c. induction rs as [|r rs IH]; intros c; [done|]. cbn. destruct (consume c r) as [c' []]; [apply IH | done]. Qed.

(** A round consumes [current] and moves at least one item out of [items]. *)
Lemma batches_pure fuel threads batch c current items :
  (1 <= batch)%nat -> (length items + match current with [] => 0 | _ => 1 end <= fuel)%nat -> (current = [] -> items = []) ->
  batches s0 map consume fuel threads batch c current items = (consume_all consume c (current ++ (f <$> items))).1.
Proof.
  revert batch c current items. induction fuel as [|fuel IH]; intros batch c current items Hb Hf Hn.
  - destruct current, items; cbn in *; try lia. done.
  - cbn [batches]. destruct current as [|r current].
    { by rewrite Hn. }
    set (b := Z.to_nat _). assert (1 <= b)%nat by (unfold b, u64_MAX in *; lia). clearbody b.
    rewrite consume_all_app. destruct (consume_all consume c (r :: current)) as [c' []]; [|done].
    rewrite IH; [| done | |].
    + f_equal. f_equal. rewrite <- (take_drop b items) at 3. rewrite fmap_app. f_equal.
      rewrite map_with_pure. by destruct (take b items).
    + rewrite length_drop, map_with_pure. cbn in Hf. destruct items as [|t items]; cbn; [rewrite take_nil; cbn; lia|].
      destruct b; cbn in *; lia.
    + rewrite map_with_pure. destruct items as [|t items]; [by rewrite drop_nil|]. destruct b; [lia | done].
Qed.

(** With or without a pool, every item is consumed in order until the consumer stops. *)
Lemma map_until_pure w c items :
  match w with Some threads => (1 <= threads)%nat | None => True end ->
  map_until s0 map consume w c items = (consume_all consume c (f <$> items)).1.
Proof.
  destruct w as [threads|]; intros Hw; [|apply serial_pure]. unfold map_until.
  set (b := (MIN_ITEMS_PER_WORKER * threads)%nat). assert (1 <= b)%nat by (unfold b, MIN_ITEMS_PER_WORKER; lia). clearbody b.
  rewrite map_with_pure, batches_pure.
  - by rewrite <- fmap_app, take_drop.
  - done.
  - rewrite length_drop. destruct items as [|t items]; [rewrite take_nil; cbn; lia|]. destruct b; cbn; lia.
  - destruct items as [|t items]; [by rewrite drop_nil|]. destruct b; [lia | done].
Qed.
End PureUntil.
End Pure.

Lemma pool_some a built threads : pool a built = Some threads -> (2 <= threads <= MAX_WORKERS)%nat.
Proof. unfold pool. intros H. repeat case_match; simplify_eq. rewrite Nat.ltb_ge in *. lia. Qed.

End ParallelMap.
