(* ===== verification/Trigger.v ===== *)
(** * Trigger: whether a summarizing run fires (daemon/src/boundary.rs)

    The chunk builder, which formats the eligible messages into blocks and measures them up to a budget,
    and the trigger, which decides from the boundary, the measured chunk and the usage whether a
    summarizing run fires and how far it consumes. What one message contributes as text (cleaned with
    regular expressions) and the token estimator are arguments. *)
From S2P Require Import Prelude.
From S2P Require Import BTree.
From S2P Require Import SortBy.
From S2P Require Import Doubles.
From S2P Require Import Scheduler.
From S2P Require Import Selection.
From S2P Require Import Boundary.
From S2P Require Import BoundaryProofs.
From S2P Require Import ParallelMap.
From Stdlib Require Import SpecFloat Ascii String.
From stdpp Require Import strings pretty sorting sets.

#[local] Open Scope Z_scope.

Module Trigger.
Import Boundary.

(** ** Chunk text *)
Definition MAX_COMMITS_PER_BLOCK : nat := 5.

Record CompactedText := mkCompacted { ct_text : string; ct_commit_hashes : list string }.

Fixpoint merge_loop (merged next : list string) : list string :=
  match next with
  | [] => merged
  | hash :: next =>
      if (MAX_COMMITS_PER_BLOCK <=? length merged)%nat then merged
      else if bool_decide (hash ∈ merged) then merge_loop merged next else merge_loop (merged ++ [hash]) next
  end.
Definition merge_commit_hashes (existing next : list string) : list string :=
  match next with [] => existing | _ => merge_loop existing next end.

Fixpoint join (sep : string) (l : list string) : string :=
  match l with [] => "" | [x] => x | x :: l => (x +:+ sep +:+ join sep l)%string end.

Definition format_block_line (role : string) (start_ordinal end_ordinal : Z) (commit_hashes parts : list string) : string :=
  let range :=
    if start_ordinal =? end_ordinal then ("[" +:+ pretty start_ordinal +:+ "]")%string
    else ("[" +:+ pretty start_ordinal +:+ "-" +:+ pretty end_ordinal +:+ "]")%string in
  let commit_suffix := (match commit_hashes with [] => "" | _ => " commits: " +:+ join ", " commit_hashes end)%string in
  (range +:+ " " +:+ role +:+ ":" +:+ commit_suffix +:+ " " +:+ join " / " parts)%string.

(** The marker brackets U+00AB and U+00BB, two bytes each, and the quote they become. *)
Definition ALIAS_LEAD_BYTE : ascii := ascii_of_nat 194.
Definition ALIAS_OPEN_BYTE : ascii := ascii_of_nat 171.
Definition ALIAS_CLOSE_BYTE : ascii := ascii_of_nat 187.
Definition ALIAS_ESCAPE : ascii := ascii_of_nat 34.

Fixpoint replace_brackets (s : string) : string :=
  match s with
  | String a rest =>
      match rest with
      | String b rest' =>
          if Ascii.eqb a ALIAS_LEAD_BYTE && (Ascii.eqb b ALIAS_OPEN_BYTE || Ascii.eqb b ALIAS_CLOSE_BYTE)
          then String ALIAS_ESCAPE (replace_brackets rest') else String a (replace_brackets rest)
      | EmptyString => s
      end
  | EmptyString => s
  end.

Definition contains_byte (c : ascii) (s : string) : bool := existsb (Ascii.eqb c) (String.list_ascii_of_string s).

Definition escape_markers (text : string) : option string :=
  if contains_byte ALIAS_LEAD_BYTE text then
    let escaped := replace_brackets text in if bool_decide (escaped = text) then None else Some escaped
  else None.

(** ** The chunk builder *)
Inductive ChunkMessagePart :=
| Noise
| ToolOnly (text : string)
| PartText (role : string) (compacted : CompactedText) (has_narrative : bool).

Record ChunkBlock := mkChunkBlock {
  cb_role : string; cb_start_ordinal : Z; cb_end_ordinal : Z; cb_parts : list string; cb_meta : list Z;
  cb_commit_hashes : list string; cb_is_tool_only : bool;
}.

Definition format_block (block : ChunkBlock) : string :=
  format_block_line (cb_role block) (cb_start_ordinal block) (cb_end_ordinal block) (cb_commit_hashes block) (cb_parts block).

Record ChunkBuilder := mkBuilder {
  budget_stop : f64; cu_total_tokens : f64; measured_tokens : f64; messages_processed : nat; cu_last_ordinal : Z;
  current_block : option ChunkBlock; pending_noise_meta : list Z; formatted_blocks : list string; block_tokens : list f64;
  commit_cluster_count : nat; last_flushed_role : string; stopped_early : bool;
}.

Definition builder_new (budget : f64) : ChunkBuilder := mkBuilder budget zero zero 0 0 None [] [] [] 0 "" false.

Definition set_current (b : ChunkBuilder) (current : option ChunkBlock) (noise : list Z) (stopped : bool) : ChunkBuilder :=
  mkBuilder (budget_stop b) (cu_total_tokens b) (measured_tokens b) (messages_processed b) (cu_last_ordinal b) current noise
    (formatted_blocks b) (block_tokens b) (commit_cluster_count b) (last_flushed_role b) stopped.

Section Builder.
Variable token_estimator : string -> Z.

Definition flush_current_block (b : ChunkBuilder) : ChunkBuilder * bool :=
  match current_block b with
  | None => (b, true)
  | Some block =>
      let block_text := format_block block in
      let tokens := f64_of_Z (token_estimator block_text) in
      if f64_gt (f64_add (cu_total_tokens b) tokens) (budget_stop b) && f64_gt (cu_total_tokens b) zero
      then (set_current b (Some block) (pending_noise_meta b) true, false)
      else
        let clusters :=
          if bool_decide (cb_role block = "A") && negb (bool_decide (cb_commit_hashes block = [])) && negb (bool_decide (last_flushed_role b = "A"))
          then S (commit_cluster_count b) else commit_cluster_count b in
        (mkBuilder (budget_stop b) (f64_add (cu_total_tokens b) tokens) (f64_add (measured_tokens b) tokens)
           (messages_processed b + length (cb_meta block)) (default (cb_end_ordinal block) (list.last (cb_meta block)))
           None (pending_noise_meta b) (formatted_blocks b ++ [block_text]) (block_tokens b ++ [tokens])
           clusters (cb_role block) (stopped_early b), true)
  end.

Definition extend_block (block : ChunkBlock) (ordinal : Z) (noise : list Z) (text : string) (commit_hashes : list string) (narrative : bool)
    : ChunkBlock :=
  mkChunkBlock (cb_role block) (cb_start_ordinal block) ordinal (cb_parts block ++ [text]) (cb_meta block ++ noise ++ [ordinal])
    (match commit_hashes with [] => cb_commit_hashes block | _ => merge_commit_hashes (cb_commit_hashes block) commit_hashes end)
    (if narrative then false else cb_is_tool_only block).

(** The role, text, commit hashes and narrative flag of a part that is not noise. *)
Definition part_fields (part : ChunkMessagePart) : option (string * string * list string * bool) :=
  match part with
  | Noise => None
  | ToolOnly tc_text => Some ("A"%string, tc_text, [], false)
  | PartText role compacted has_narrative => Some (role, ct_text compacted, ct_commit_hashes compacted, has_narrative)
  end.

Definition push_message (b : ChunkBuilder) (entry : Z * ChunkMessagePart) : ChunkBuilder * bool :=
  let '(ordinal, part) := entry in
  match part_fields part with
  | None => (set_current b (current_block b) (pending_noise_meta b ++ [ordinal]) (stopped_early b), true)
  | Some (role, text, commit_hashes, narrative) =>
      let text := default text (escape_markers text) in
      match current_block b with
      | Some block =>
          if bool_decide (cb_role block = role)
          then (set_current b (Some (extend_block block ordinal (pending_noise_meta b) text commit_hashes narrative)) [] (stopped_early b), true)
          else
            let '(b, flushed) := flush_current_block b in
            if flushed then
              let start := default ordinal (head (pending_noise_meta b)) in
              (set_current b (Some (mkChunkBlock role start ordinal [text] (pending_noise_meta b ++ [ordinal]) commit_hashes (negb narrative))) []
                 (stopped_early b), true)
            else (b, false)
      | None =>
          let start := default ordinal (head (pending_noise_meta b)) in
          (set_current b (Some (mkChunkBlock role start ordinal [text] (pending_noise_meta b ++ [ordinal]) commit_hashes (negb narrative))) []
             (stopped_early b), true)
      end
  end.

Record ChunkEstimate := mkEstimate {
  ce_tokens : f64; ce_has_more : bool; ce_formatted_blocks : list string; ce_block_tokens : list f64; ce_message_count : nat;
  ce_commit_cluster_count : nat;
}.

Definition finish (b : ChunkBuilder) (total_message_count : Z) (eligible_end_ordinal : option Z) : ChunkEstimate :=
  let '(b, _) := flush_current_block b in
  let terminal := match eligible_end_ordinal with Some e => Z.min (Z.max 0 (e - 1)) total_message_count | None => total_message_count end in
  let has_more := cu_last_ordinal b <? terminal in
  let tokens :=
    if has_more && f64_lt (cu_total_tokens b) (budget_stop b) && f64_gt (cu_total_tokens b) zero then budget_stop b else cu_total_tokens b in
  mkEstimate tokens has_more (formatted_blocks b) (block_tokens b) (messages_processed b) (commit_cluster_count b).

(** What one message contributes, given the session's tool pairs, and the worker pool. *)
Variable chunk_message_part : list BoundaryMsg -> BoundaryMsg -> ChunkMessagePart.
Variable workers : option nat.

(** [take_while] below the end, then the messages from the start on. *)
Fixpoint take_before (last : option Z) (l : list BoundaryMsg) : list BoundaryMsg :=
  match l with
  | [] => []
  | m :: l => if match last with Some e => message_ordinal m <? e | None => true end then m :: take_before last l else []
  end.

Definition eligible_messages (ordered : list BoundaryMsg) (start : Z) (last : option Z) : list BoundaryMsg :=
  filter (fun m => start <= message_ordinal m) (take_before last ordered).

Definition chunked_message_estimate (messages : list BoundaryMsg) (start_ordinal : Z) (eligible_end_ordinal : option Z) (budget : f64)
    : ChunkEstimate :=
  let ordered := sort_by msg_by_ordinal messages in
  let total_message_count := default (Z.of_nat (length ordered)) (z_max (ordinals_of ordered)) in
  let eligible := eligible_messages ordered start_ordinal eligible_end_ordinal in
  let builder :=
    ParallelMap.map_until tt (fun s m => (s, (message_ordinal m, chunk_message_part ordered m))) push_message workers (builder_new budget) eligible in
  finish builder total_message_count eligible_end_ordinal.
End Builder.

(** ** The decision *)
Record TriggerContext := mkTriggerContext {
  tc_boundary : BoundaryContext;
  history_segment_in_progress : bool;
  projected_post_drop_percentage : option f64;
  commit_cluster_trigger_enabled : bool;
  min_commit_clusters : nat;
  window_cap_cut : option Z;
  cold_import_cut : option Z;
}.

Record TriggerProgress := mkProgress {
  eligible_chunk_tokens : f64; tail_size_bar : f64; tp_n_tokens : f64; tp_protected_start_ordinal : Z;
}.

Record TriggerDecision := mkDecision {
  td_fire : bool; td_reason : option TriggerReason; consume_through_ordinal : option Z; td_boundary : option BoundaryResolution;
  td_progress : option TriggerProgress;
}.

Definition no_fire : TriggerDecision := mkDecision false None None None None.
Definition no_fire_with_progress (progress : TriggerProgress) : TriggerDecision := mkDecision false None None None (Some progress).

Definition fire (reason : TriggerReason) (boundary : BoundaryResolution) : TriggerDecision :=
  let consume := if (eligible_head boundary).1 <? (eligible_head boundary).2 then Some ((eligible_head boundary).2 - 1) else None in
  mkDecision true (Some reason) consume (Some boundary) None.

Definition fire_with_progress (reason : TriggerReason) (boundary : BoundaryResolution) (progress : TriggerProgress) : TriggerDecision :=
  let d := fire reason boundary in mkDecision (td_fire d) (td_reason d) (consume_through_ordinal d) (td_boundary d) (Some progress).

Definition force_band (execute_threshold : f64) : f64 := Scheduler.force_materialize_percentage (Scheduler.escalation_bands execute_threshold).

Definition has_runnable_history_segment_window (b : BoundaryResolution) (usage threshold : f64) (scale : option f64) : bool :=
  if protected_start_ordinal b <=? (eligible_head b).1 then false
  else if f64_ge usage (force_band threshold) || match scale with Some _ => true | None => false end
  then f64_ge (true_raw_eligible_tokens b) (derive_min_force_eligible_tokens (n_tokens b)) || ((eligible_head b).1 <? (eligible_head b).2)
  else (eligible_head b).1 <? (eligible_head b).2.

Definition with_budget (ctx : BoundaryContext) (budget : f64) (scale : option f64) : BoundaryContext :=
  mkContext (context_limit ctx) (execute_threshold_percentage ctx) (usage_percentage ctx) (usage_input_tokens ctx)
    (last_history_segment_end_ordinal ctx) (prior_boundary_ordinal ctx) (publication_floor_active ctx) scale (Some budget)
    (fold_is_only_reclaim ctx) (prepare_lead ctx).

(** A forced cut moves the end of the head and the protected start just after it. *)
Definition force_cut (b : BoundaryResolution) (cut : Z) (reason : TriggerReason) : BoundaryResolution :=
  if (eligible_head b).2 <=? cut
  then mkResolution (cut + 1) ((eligible_head b).1, cut + 1) (n_tokens b) (floored_by_live_prompt b) (fenced_by_open_arc b)
         (true_raw_eligible_tokens b) (oversize_atomic_unit b) (raw_message_count b) (Forced reason)
  else b.

Definition forced_cut (ctx : TriggerContext) (start : Z) : option (Z * TriggerReason) :=
  let eligible cut := match cut with Some c => if start <=? c then Some c else None | None => None end in
  match eligible (window_cap_cut ctx), eligible (cold_import_cut ctx) with
  | Some cut, _ => Some (cut, WindowCap)
  | None, Some cut => Some (cut, ColdImport)
  | None, None => None
  end.

Section Decide.
Variable meaningful_text : string -> bool.
Variable token_estimator : string -> Z.
Variable chunk_message_part : list BoundaryMsg -> BoundaryMsg -> ChunkMessagePart.
Variable workers : option nat.

Definition drops_are_enough (ctx : TriggerContext) : bool :=
  match projected_post_drop_percentage ctx with
  | Some pct => f64_le pct (f64_mul (execute_threshold_percentage (tc_boundary ctx)) POST_DROP_TARGET_RATIO)
  | None => false
  end.

(** At or above the force band: the boundary, else one with a shorter tail. *)
Definition check_force_band (messages : list BoundaryMsg) (ctx : TriggerContext) (trigger_budget : f64) (boundary : BoundaryResolution)
    (progress : TriggerProgress) : TriggerDecision :=
  let usage := usage_percentage (tc_boundary ctx) in
  let threshold := execute_threshold_percentage (tc_boundary ctx) in
  if drops_are_enough ctx then no_fire_with_progress progress
  else if has_runnable_history_segment_window boundary usage threshold None then fire_with_progress ForceBand boundary progress
  else
    let scale := if f64_ge usage BLOCK_UNTIL_DONE_PERCENTAGE then ratio 1 4 else ratio 1 2 in
    let scaled := resolve_protected_tail_boundary meaningful_text messages (with_budget (tc_boundary ctx) trigger_budget (Some scale)) in
    if has_runnable_history_segment_window scaled usage threshold (Some scale) then fire_with_progress ForceBand scaled progress
    else no_fire_with_progress progress.

(** Below it: commit clusters, then the tail's size, then pressure near the threshold. *)
Definition check_below_band (ctx : TriggerContext) (trigger_budget : f64) (boundary : BoundaryResolution) (chunk : ChunkEstimate)
    (progress : TriggerProgress) : TriggerDecision :=
  let is_meaningful :=
    ce_has_more chunk || f64_ge (true_raw_eligible_tokens boundary) MIN_PROACTIVE_TAIL_TOKEN_ESTIMATE
    || f64_ge (ce_tokens chunk) MIN_PROACTIVE_TAIL_TOKEN_ESTIMATE || (MIN_PROACTIVE_TAIL_MESSAGE_COUNT <=? Z.of_nat (ce_message_count chunk)) in
  if commit_cluster_trigger_enabled ctx && (min_commit_clusters ctx <=? ce_commit_cluster_count chunk)%nat && f64_ge (ce_tokens chunk) trigger_budget
  then fire_with_progress CommitClusters boundary progress
  else if f64_ge (ce_tokens chunk) (f64_mul trigger_budget TAIL_SIZE_TRIGGER_MULTIPLIER) || (ce_has_more chunk && f64_gt (ce_tokens chunk) zero)
  then fire_with_progress TailSize boundary progress
  else if f64_lt (usage_percentage (tc_boundary ctx))
            (get_proactive_history_segment_trigger_percentage (execute_threshold_percentage (tc_boundary ctx)) (prepare_lead (tc_boundary ctx)))
  then no_fire_with_progress progress
  else if drops_are_enough ctx then no_fire_with_progress progress
  else if negb ((eligible_head boundary).1 <? protected_start_ordinal boundary) || negb is_meaningful then no_fire_with_progress progress
  else fire_with_progress ProjectedHeadroom boundary progress.

Definition trigger_budget_of (ctx : TriggerContext) : f64 :=
  default (derive_trigger_budget (context_limit (tc_boundary ctx)) (execute_threshold_percentage (tc_boundary ctx))) (ctx_trigger_budget (tc_boundary ctx)).

(** The boundary the decision is about, without an emergency scale. *)
Definition primary_boundary (messages : list BoundaryMsg) (ctx : TriggerContext) : BoundaryResolution :=
  resolve_protected_tail_boundary meaningful_text messages (with_budget (tc_boundary ctx) (trigger_budget_of ctx) None).

Definition eligible_chunk (messages : list BoundaryMsg) (ctx : TriggerContext) : ChunkEstimate :=
  let boundary := primary_boundary messages ctx in
  let scan_budget := f64_max MIN_PROACTIVE_TAIL_TOKEN_ESTIMATE (f64_mul (trigger_budget_of ctx) TAIL_SIZE_TRIGGER_MULTIPLIER) in
  if (eligible_head boundary).1 <? protected_start_ordinal boundary
  then chunked_message_estimate token_estimator chunk_message_part workers messages (eligible_head boundary).1
         (Some (protected_start_ordinal boundary)) scan_budget
  else mkEstimate zero false [] [] 0 0.

Definition check_history_segment_trigger (messages : list BoundaryMsg) (ctx : TriggerContext) : TriggerDecision :=
  if history_segment_in_progress ctx then no_fire
  else
    let trigger_budget := trigger_budget_of ctx in
    let offset := offset_of (tc_boundary ctx) messages in
    if negb (match z_max (ordinals_of messages) with Some m => offset <=? m | None => false end) then no_fire
    else
      let boundary := primary_boundary messages ctx in
      let chunk := eligible_chunk messages ctx in
      let progress :=
        mkProgress (ce_tokens chunk) (f64_mul trigger_budget TAIL_SIZE_TRIGGER_MULTIPLIER) (n_tokens boundary) (protected_start_ordinal boundary) in
      match forced_cut ctx (eligible_head boundary).1 with
      | Some (cut, reason) => fire_with_progress reason (force_cut boundary cut reason) progress
      | None =>
          if f64_ge (usage_percentage (tc_boundary ctx)) (force_band (execute_threshold_percentage (tc_boundary ctx)))
          then check_force_band messages ctx trigger_budget boundary progress
          else check_below_band ctx trigger_budget boundary chunk progress
      end.
End Decide.

(** ** What the formatted blocks cover *)
Section Cover.
Context (token_estimator : string -> Z).

(** A block's line covers the ordinals of its messages. *)
Definition covers (meta : list Z) (line : string) : Prop :=
  exists role hashes parts first last,
    head meta = Some first /\ list.last meta = Some last /\ line = format_block_line role first last hashes parts.

Definition token_sum (tokens : list f64) : f64 := foldl f64_add zero tokens.

Definition within_budget (budget : f64) (tokens : list f64) : Prop :=
  forall k, (k < length tokens)%nat -> f64_gt (token_sum (take k tokens)) zero = true -> f64_gt (token_sum (take (S k) tokens)) budget = false.

Definition block_ok (block : ChunkBlock) : Prop :=
  head (cb_meta block) = Some (cb_start_ordinal block) /\ list.last (cb_meta block) = Some (cb_end_ordinal block).

(** After the messages [seen]: [metas] are those of the flushed blocks. *)
Record accounts (b : ChunkBuilder) (metas : list (list Z)) (seen : list Z) : Prop := mkAccounts {
  acc_seen : seen = concat metas ++ (match current_block b with Some block => cb_meta block | None => [] end) ++ pending_noise_meta b;
  acc_lines : Forall2 covers metas (formatted_blocks b);
  acc_tokens : block_tokens b = (fun line => f64_of_Z (token_estimator line)) <$> formatted_blocks b;
  acc_total : cu_total_tokens b = token_sum (block_tokens b);
  acc_budget : within_budget (budget_stop b) (block_tokens b);
  acc_count : messages_processed b = length (concat metas);
  acc_last : cu_last_ordinal b = default 0 (list.last (concat metas));
  acc_block : match current_block b with Some block => block_ok block | None => True end;
}.

Lemma accounts_new budget : accounts (builder_new budget) [] [].
Proof. split; try done. intros k; cbn; lia. Qed.

Lemma token_sum_snoc tokens t : token_sum (tokens ++ [t]) = f64_add (token_sum tokens) t.
Proof. unfold token_sum. by rewrite foldl_app. Qed.

Lemma within_budget_snoc budget tokens t :
  within_budget budget tokens -> f64_gt (f64_add (token_sum tokens) t) budget && f64_gt (token_sum tokens) zero = false ->
  within_budget budget (tokens ++ [t]).
Proof.
  intros Hw Hb k Hk Hpos. rewrite length_app in Hk. cbn in Hk. destruct (decide (k < length tokens)%nat) as [Hlt|Hge].
  - rewrite take_app_le in Hpos |- * by lia. by apply Hw.
  - assert (k = length tokens) as -> by lia. rewrite take_app_le, take_ge in Hpos by lia.
    rewrite take_ge by (rewrite length_app; cbn; lia). rewrite token_sum_snoc. rewrite Hpos, andb_true_r in Hb. done.
Qed.

Lemma flush_accounts b metas seen :
  accounts b metas seen ->
  let '(b', flushed) := flush_current_block token_estimator b in
  if flushed then (exists metas', accounts b' metas' seen) /\ current_block b' = None /\ pending_noise_meta b' = pending_noise_meta b
  else accounts b' metas seen.
Proof.
  intros [H1 H2 H3 H4 H5 H6 H7 H8]. unfold flush_current_block. destruct (current_block b) as [block|] eqn:Eb.
  2:{ split; [|done]. exists metas. split; try done; by rewrite Eb. }
  destruct (_ && _) eqn:E; [split; try done; by cbn|]. destruct H8 as [Hh Hl]. split; [|done]. exists (metas ++ [cb_meta block]).
  rewrite H4 in E. pose proof (within_budget_snoc _ _ _ H5 E) as Hw.
  assert (concat (metas ++ [cb_meta block]) = concat metas ++ cb_meta block) as Ec by (rewrite concat_app; cbn; by rewrite app_nil_r).
  split; cbn; rewrite ?Ec.
  - by rewrite <- app_assoc.
  - apply Forall2_app; [done|]. constructor; [|constructor]. by exists (cb_role block), (cb_commit_hashes block), (cb_parts block), (cb_start_ordinal block), (cb_end_ordinal block).
  - by rewrite fmap_app, H3.
  - by rewrite token_sum_snoc, H4.
  - done.
  - by rewrite length_app, H6.
  - rewrite last_app, Hl. done.
  - done.
Qed.

(** A new block takes the pending noise and the message. *)
Lemma open_accounts b metas seen ordinal role text hashes narrative stopped :
  accounts b metas seen -> current_block b = None ->
  accounts
    (set_current b (Some (mkChunkBlock role (default ordinal (head (pending_noise_meta b))) ordinal [text] (pending_noise_meta b ++ [ordinal]) hashes narrative))
       [] stopped) metas (seen ++ [ordinal]).
Proof.
  intros [H1 H2 H3 H4 H5 H6 H7 H8] Hn. rewrite Hn in *. split; try done; cbn.
  - rewrite H1. cbn. by rewrite app_nil_r, app_assoc.
  - split; cbn; [by destruct (pending_noise_meta b) | by rewrite last_snoc].
Qed.

Lemma push_accounts b metas seen ordinal part :
  accounts b metas seen ->
  let '(b', more) := push_message token_estimator b (ordinal, part) in
  exists metas', accounts b' metas' (if more then seen ++ [ordinal] else seen).
Proof.
  intros Ha. unfold push_message. destruct (part_fields part) as [[[[role text] hashes] narrative]|].
  2:{ exists metas. destruct Ha as [H1 H2 H3 H4 H5 H6 H7 H8]. split; try done; cbn. by rewrite H1, <- !app_assoc. }
  destruct (current_block b) as [block|] eqn:Eb; [|exists metas; by apply open_accounts].
  case_bool_decide as Er.
  - exists metas. destruct Ha as [H1 H2 H3 H4 H5 H6 H7 H8]. rewrite Eb in *. destruct H8 as [Hh Hl]. split; try done; cbn.
    + rewrite H1, app_nil_r. by rewrite <- !app_assoc.
    + split; cbn.
      * destruct (cb_meta block); [done|]. done.
      * by rewrite !app_assoc, last_snoc.
  - pose proof (flush_accounts b metas seen Ha) as Hf. destruct (flush_current_block token_estimator b) as [b' []]; [|by exists metas].
    destruct Hf as ([metas' Hf] & Hn & _). exists metas'. by apply open_accounts.
Qed.

Lemma consume_accounts entries b metas seen :
  accounts b metas seen ->
  exists metas' taken, accounts (ParallelMap.consume_all (push_message token_estimator) b entries).1 metas' (seen ++ taken) /\ taken `prefix_of` entries.*1.
Proof.
  revert b metas seen. induction entries as [|[o part] entries IH]; intros b metas seen Ha; cbn [ParallelMap.consume_all].
  { exists metas, []. by rewrite app_nil_r. }
  pose proof (push_accounts b metas seen o part Ha) as Hp. destruct (push_message token_estimator b (o, part)) as [b' []]; destruct Hp as [metas' Hp].
  - destruct (IH b' metas' (seen ++ [o]) Hp) as (metas2 & taken & H2 & Hpre). exists metas2, (o :: taken). rewrite <- app_assoc in H2. split; [done|].
    by apply prefix_cons.
  - exists metas', []. rewrite app_nil_r. split; [done | apply prefix_nil].
Qed.

Lemma flush_budget b : budget_stop (flush_current_block token_estimator b).1 = budget_stop b.
Proof. unfold flush_current_block. by repeat case_match. Qed.

Lemma push_budget b entry : budget_stop (push_message token_estimator b entry).1 = budget_stop b.
Proof.
  destruct entry as [o part]. unfold push_message. pose proof (flush_budget b) as H.
  destruct (part_fields part) as [[[[? ?] ?] ?]|]; [|done]. destruct (current_block b); [|done]. case_bool_decide; [done|].
  by destruct (flush_current_block token_estimator b) as [b' []].
Qed.

Lemma consume_budget entries b : budget_stop (ParallelMap.consume_all (push_message token_estimator) b entries).1 = budget_stop b.
Proof.
  revert b. induction entries as [|e entries IH]; intros b; [done|]. cbn [ParallelMap.consume_all]. pose proof (push_budget b e) as H.
  destruct (push_message token_estimator b e) as [b' []]; [by rewrite IH | done].
Qed.

Context (chunk_message_part : list BoundaryMsg -> BoundaryMsg -> ChunkMessagePart).

Definition pool_ok (workers : option nat) : Prop := match workers with Some threads => (1 <= threads)%nat | None => True end.

(** The last ordinal a complete scan would reach. *)
Definition terminal_of (ms : list BoundaryMsg) (last : option Z) : Z :=
  let count := default (Z.of_nat (length (sort_by msg_by_ordinal ms))) (z_max (ordinals_of (sort_by msg_by_ordinal ms))) in
  match last with Some e => Z.min (Z.max 0 (e - 1)) count | None => count end.

(** What an estimate says of the ordinals [taken] in the scan. *)
Definition describes (est : ChunkEstimate) (taken : list Z) (budget : f64) (terminal : Z) : Prop :=
  exists metas : list (list Z),
    concat metas `prefix_of` taken
    /\ Forall2 covers metas (ce_formatted_blocks est)
    /\ ce_block_tokens est = (fun line => f64_of_Z (token_estimator line)) <$> ce_formatted_blocks est
    /\ within_budget budget (ce_block_tokens est)
    /\ ce_message_count est = length (concat metas)
    /\ ce_has_more est = (default 0 (list.last (concat metas)) <? terminal)
    /\ let total := token_sum (ce_block_tokens est) in
       ce_tokens est = (if ce_has_more est && f64_lt total budget && f64_gt total zero then budget else total).

Lemma finish_describes b metas taken count last :
  accounts b metas taken ->
  describes (finish token_estimator b count last) taken (budget_stop b)
    (match last with Some e => Z.min (Z.max 0 (e - 1)) count | None => count end).
Proof.
  intros Ha. pose proof (flush_accounts b metas taken Ha) as Hf. pose proof (flush_budget b) as Hb. unfold finish.
  destruct (flush_current_block token_estimator b) as [b' flushed]. cbn [fst] in Hb.
  assert (exists metas', accounts b' metas' taken) as [metas' [H1 H2 H3 H4 H5 H6 H7 H8]] by (destruct flushed; [apply Hf | by exists metas]).
  exists metas'. cbn [ce_formatted_blocks ce_block_tokens ce_message_count ce_has_more ce_tokens]. rewrite <- H7, <- H4, <- Hb. split; [rewrite H1; apply prefix_app_r; done|]. done.
Qed.

Lemma estimate_covers workers ms start last budget :
  pool_ok workers ->
  describes (chunked_message_estimate token_estimator chunk_message_part workers ms start last budget)
    (ordinals_of (eligible_messages (sort_by msg_by_ordinal ms) start last)) budget (terminal_of ms last).
Proof.
  intros Hw. unfold chunked_message_estimate, terminal_of.
  set (ordered := sort_by msg_by_ordinal ms). set (eligible := eligible_messages ordered start last).
  rewrite (ParallelMap.map_until_pure _ _ (fun m => (message_ordinal m, chunk_message_part ordered m))) by done.
  set (entries := (fun m => _) <$> eligible). assert (entries.*1 = ordinals_of eligible) as Ee by (unfold entries; by rewrite <- list_fmap_compose).
  destruct (consume_accounts entries (builder_new budget) [] [] (accounts_new budget)) as (metas & taken & Ha & Hpre). cbn [app] in Ha.
  pose proof (finish_describes _ _ _ (default (Z.of_nat (length ordered)) (z_max (ordinals_of ordered))) last Ha) as (metas' & H1 & H2).
  rewrite consume_budget in H2. exists metas'. split; [|exact H2]. rewrite <- Ee. by transitivity taken.
Qed.

Lemma estimate_pool workers ms start last budget :
  pool_ok workers ->
  chunked_message_estimate token_estimator chunk_message_part workers ms start last budget
  = chunked_message_estimate token_estimator chunk_message_part None ms start last budget.
Proof.
  intros Hw. unfold chunked_message_estimate.
  by rewrite !(ParallelMap.map_until_pure _ _ (fun m => (message_ordinal m, chunk_message_part (sort_by msg_by_ordinal ms) m))) by done.
Qed.
End Cover.

(** ** What a decision consumes *)
Section Decision.
Context (meaningful_text : string -> bool) (token_estimator : string -> Z).
Context (chunk_message_part : list BoundaryMsg -> BoundaryMsg -> ChunkMessagePart) (workers : option nat).
Context (ms : list BoundaryMsg) (ctx : TriggerContext).
Hypothesis Hok : ordinals_ok ms.

Let arcs := build_tool_arcs ms.
Let offset := offset_of (tc_boundary ctx) ms.
Let decision := check_history_segment_trigger meaningful_text token_estimator chunk_message_part workers ms ctx.

(** A boundary whose head starts at the offset and ends outside every completed arc. *)
Definition cut_ok (b : BoundaryResolution) : Prop :=
  (eligible_head b).1 = offset /\ offset <= (eligible_head b).2
  /\ (offset < (eligible_head b).2 -> (eligible_head b).2 <= protected_start_ordinal b /\ uncrossed arcs (eligible_head b).2).

Lemma resolve_cut_ok budget scale : cut_ok (resolve_protected_tail_boundary meaningful_text ms (with_budget (tc_boundary ctx) budget scale)).
Proof. destruct (resolve_cut meaningful_text ms (with_budget (tc_boundary ctx) budget scale) Hok) as (_ & H). exact H. Qed.

Definition pressure_reason (reason : TriggerReason) : Prop := reason <> WindowCap /\ reason <> ColdImport.

(** A quiet decision, one for pressure on a sound cut, or a forced one. *)
Inductive decided : TriggerDecision -> Prop :=
| quiet progress : decided (mkDecision false None None None progress)
| pressed reason b progress : pressure_reason reason -> cut_ok b -> decided (fire_with_progress reason b progress)
| forced cut reason progress :
    forced_cut ctx offset = Some (cut, reason) ->
    decided (fire_with_progress reason (force_cut (primary_boundary meaningful_text ms ctx) cut reason) progress).


Lemma check_decided : decided decision.
Proof.
  unfold decision, check_history_segment_trigger. destruct (history_segment_in_progress ctx); [apply quiet|].
  destruct (negb _); [apply quiet|]. cbv zeta. pose proof (resolve_cut_ok (trigger_budget_of ctx) None) as Hp. fold (primary_boundary meaningful_text ms ctx) in Hp.
  set (progress := mkProgress _ _ _ _). rewrite (proj1 Hp). destruct (forced_cut ctx offset) as [[cut reason]|] eqn:Ef; [by apply forced|].
  destruct (f64_ge _ (force_band _)).
  - unfold check_force_band. destruct (drops_are_enough ctx); [apply quiet|].
    destruct (has_runnable_history_segment_window _ _ _ _); [by apply pressed|].
    set (scale := if f64_ge _ BLOCK_UNTIL_DONE_PERCENTAGE then _ else _). destruct (has_runnable_history_segment_window _ _ _ _); [|apply quiet].
    by apply pressed; [|apply resolve_cut_ok].
  - unfold check_below_band. cbv zeta. repeat match goal with |- context [if ?c then _ else _] => destruct c end; (apply quiet || by apply pressed).
Qed.

Lemma fire_consumes reason b progress c :
  (eligible_head b).1 = offset -> consume_through_ordinal (fire_with_progress reason b progress) = Some c ->
  c + 1 = (eligible_head b).2 /\ offset <= c.
Proof. intros Ho. cbn. destruct (Z.ltb_spec (eligible_head b).1 (eligible_head b).2); intros [=]. lia. Qed.

Lemma forced_cut_ge cut reason : forced_cut ctx offset = Some (cut, reason) -> offset <= cut /\ ~ pressure_reason reason.
Proof.
  unfold forced_cut, pressure_reason. intros H.
  cbv zeta in H. repeat case_match; simplify_eq; rewrite Z.leb_le in *; split; (lia || naive_solver).
Qed.

Lemma force_cut_spec cut reason :
  forced_cut ctx offset = Some (cut, reason) ->
  let b := force_cut (primary_boundary meaningful_text ms ctx) cut reason in
  (eligible_head b).1 = offset /\ cut < (eligible_head b).2 /\ (eligible_head b).2 <= protected_start_ordinal b.
Proof.
  intros [Hge _]%forced_cut_ge. pose proof (resolve_cut_ok (trigger_budget_of ctx) None) as (Ho & Hle & Hc).
  fold (primary_boundary meaningful_text ms ctx) in Ho, Hle, Hc. unfold force_cut.
  destruct (Z.leb_spec (eligible_head (primary_boundary meaningful_text ms ctx)).2 cut); cbn; [split; [done|]; lia|].
  split; [done|]. split; [done|]. apply Hc. lia.
Qed.

(** Every fire names its boundary and reason and consumes a prefix of the raw messages before the protected start. *)
Lemma fire_is_safe :
  td_fire decision = true ->
  exists b reason, td_boundary decision = Some b /\ td_reason decision = Some reason /\ (eligible_head b).1 = offset
    /\ forall c, consume_through_ordinal decision = Some c ->
         c + 1 = (eligible_head b).2 /\ offset <= c < protected_start_ordinal b /\ (pressure_reason reason -> uncrossed arcs (c + 1)).
Proof.
  pose proof check_decided as [progress | reason b progress Hr (Ho & Hle & Hc) | cut reason progress Hf]; [done| |]; intros _.
  - exists b, reason. split; [done|]. split; [done|]. split; [done|]. intros c [Hc1 Hc2]%fire_consumes; [|done].
    rewrite Hc1. destruct Hc as [Hp Hu]; [lia|]. split; [done|]. split; [lia | done].
  - pose proof (force_cut_spec cut reason Hf) as (Ho & Hlt & Hle). destruct (forced_cut_ge _ _ Hf) as [_ Hn].
    exists (force_cut (primary_boundary meaningful_text ms ctx) cut reason), reason. split; [done|]. split; [done|]. split; [done|].
    intros c [Hc1 Hc2]%fire_consumes; [|done]. split; [done|]. split; [lia | done].
Qed.

Definition has_live : Prop := history_segment_in_progress ctx = false /\ exists m, m ∈ ms /\ offset <= message_ordinal m.

Lemma check_live :
  has_live ->
  decision =
    let boundary := primary_boundary meaningful_text ms ctx in
    let chunk := eligible_chunk meaningful_text token_estimator chunk_message_part workers ms ctx in
    let progress := mkProgress (ce_tokens chunk) (f64_mul (trigger_budget_of ctx) TAIL_SIZE_TRIGGER_MULTIPLIER) (n_tokens boundary) (protected_start_ordinal boundary) in
    match forced_cut ctx offset with
    | Some (cut, reason) => fire_with_progress reason (force_cut boundary cut reason) progress
    | None =>
        if f64_ge (usage_percentage (tc_boundary ctx)) (force_band (execute_threshold_percentage (tc_boundary ctx)))
        then check_force_band meaningful_text ms ctx (trigger_budget_of ctx) boundary progress
        else check_below_band ctx (trigger_budget_of ctx) boundary chunk progress
    end.
Proof.
  intros [Hi (m & Hm & Hle)]. unfold decision, check_history_segment_trigger. rewrite Hi. fold offset.
  pose proof (z_max_spec (ordinals_of ms)) as H. pose proof (list_elem_of_fmap_2 message_ordinal ms m Hm) as Hmo.
  destruct (z_max (ordinals_of ms)) as [x|]; [|unfold ordinals_of in H; rewrite H in Hmo; set_solver].
  destruct H as [_ H]. specialize (H _ Hmo). rewrite (proj2 (Z.leb_le _ _)) by lia. cbn [negb]. cbv zeta.
  by rewrite (proj1 (resolve_cut_ok (trigger_budget_of ctx) None) : (eligible_head (primary_boundary meaningful_text ms ctx)).1 = offset).
Qed.

(** A forced cut fires and consumes through it. *)
Lemma forced_fires cut reason :
  has_live -> forced_cut ctx offset = Some (cut, reason) ->
  td_fire decision = true /\ td_reason decision = Some reason /\ exists c, consume_through_ordinal decision = Some c /\ cut <= c.
Proof.
  intros Hl Hf. rewrite (check_live Hl). cbv zeta. rewrite Hf. split; [done|]. split; [done|].
  pose proof (force_cut_spec cut reason Hf) as (Ho & Hlt & _). destruct (forced_cut_ge _ _ Hf) as [Hge _]. cbn.
  rewrite (proj2 (Z.ltb_lt _ _)) by lia. eexists. split; [done|]. lia.
Qed.

(** In the force band a run fires whenever the head is not empty, unless drops alone relieve the pressure. *)
Lemma force_band_fires :
  has_live -> forced_cut ctx offset = None ->
  f64_ge (usage_percentage (tc_boundary ctx)) (force_band (execute_threshold_percentage (tc_boundary ctx))) = true ->
  drops_are_enough ctx = false -> offset < (eligible_head (primary_boundary meaningful_text ms ctx)).2 ->
  td_fire decision = true /\ td_reason decision = Some ForceBand /\ td_boundary decision = Some (primary_boundary meaningful_text ms ctx).
Proof.
  intros Hl Hf Hu Hd Hne. rewrite (check_live Hl). cbv zeta. rewrite Hf, Hu. unfold check_force_band. rewrite Hd.
  pose proof (resolve_cut_ok (trigger_budget_of ctx) None) as (Ho & _ & Hc). fold (primary_boundary meaningful_text ms ctx) in Ho, Hc.
  unfold has_runnable_history_segment_window. rewrite Ho, Hu. destruct (Hc Hne) as [Hp _].
  rewrite (proj2 (Z.leb_gt _ _)) by lia. rewrite (proj2 (Z.ltb_lt _ _) Hne). cbn [orb]. rewrite orb_true_r. done.
Qed.
End Decision.

(** ** The session of the witnesses *)
Definition plain_part (_ : list BoundaryMsg) (m : BoundaryMsg) : ChunkMessagePart :=
  match blocks m with
  | [] => Noise
  | b :: _ => PartText (match role m with User => "U" | _ => "A" end) (mkCompacted (bb_original b) []) true
  end.
Definition bytes_estimate (s : string) : Z := Z.of_nat (String.length s).

Definition sample_trigger (usage : Z) (window_cut : option Z) : TriggerContext :=
  mkTriggerContext (mkContext (f64_of_Z 8000) (f64_of_Z 65) (f64_of_Z usage) (f64_of_Z 3200) None 0 false None None false 2)
    false None true 2 window_cut None.

Definition sample_decision (usage : Z) (window_cut : option Z) : TriggerDecision :=
  check_history_segment_trigger own_words bytes_estimate plain_part None sample_session (sample_trigger usage window_cut).

(** Two eligible messages, the second of which contributes no text ([noisy]) or a word. *)
Definition short_head (noisy : bool) : list BoundaryMsg :=
  [text_msg 1 User "begin" 300; (if noisy then mkMsg 2 Assistant [] else text_msg 2 Assistant "ok" 5); text_msg 3 User "go" 100; text_msg 4 Assistant "long" 2500].

Definition short_decision (noisy : bool) : TriggerDecision :=
  check_history_segment_trigger own_words bytes_estimate plain_part None (short_head noisy) (sample_trigger 1 None).

Definition short_estimate (noisy : bool) : ChunkEstimate :=
  chunked_message_estimate bytes_estimate plain_part None (short_head noisy) 1 (Some 3) (f64_of_Z 15000).

(** A head that ends in a message without text reports that the scan has more, although every message
    was scanned, and its twelve measured tokens count as the whole budget of 15,000: the tail-size
    trigger fires at one percent usage. With a word in that message nothing fires. *)
Theorem trailing_noise_fires :
  ce_has_more (short_estimate true) = true /\ ce_block_tokens (short_estimate true) = [f64_of_Z 12] /\ ce_tokens (short_estimate true) = f64_of_Z 15000
  /\ td_reason (short_decision true) = Some TailSize
  /\ ce_has_more (short_estimate false) = false /\ td_fire (short_decision false) = false.
Proof. vm_compute. repeat split. Qed.

(** The blocks an estimate formats cover a prefix of the eligible messages, each a run of consecutive
    ones named by its first and last ordinal; they are counted and measured exactly, and no block after
    one with tokens takes the sum past the budget. More is reported exactly when the last covered ordinal
    is before the last eligible one, and only then may the reported size be the budget. The worker pool
    changes nothing. *)
Theorem chunk_blocks_cover (token_estimator : string -> Z) (chunk_message_part : list BoundaryMsg -> BoundaryMsg -> ChunkMessagePart)
    (available : nat) (built : bool) (ms : list BoundaryMsg) (start : Z) (last : option Z) (budget : f64) :
  let est := chunked_message_estimate token_estimator chunk_message_part (ParallelMap.pool available built) ms start last budget in
  est = chunked_message_estimate token_estimator chunk_message_part None ms start last budget
  /\ describes token_estimator est (ordinals_of (eligible_messages (sort_by msg_by_ordinal ms) start last)) budget (terminal_of ms last).
Proof.
  assert (pool_ok (ParallelMap.pool available built)) as Hw.
  { unfold pool_ok. destruct (ParallelMap.pool available built) as [t|] eqn:E; [|done]. apply ParallelMap.pool_some in E. lia. }
  split; [by apply estimate_pool | by apply estimate_covers].
Qed.

(** C15: a run in progress never fires; a decision that does not fire carries nothing. A fire names its
    boundary and consumes raw messages from the offset up to an ordinal before the protected start, and,
    unless a cut was forced, never separates a completed tool call from its result. A forced cut always
    fires and consumes through it, and in the force band a run fires whenever there is something to
    consume and drops alone are not enough. *)
Theorem trigger_safe (mt : string -> bool) (token_estimator : string -> Z)
    (chunk_message_part : list BoundaryMsg -> BoundaryMsg -> ChunkMessagePart) (workers : option nat) (ms : list BoundaryMsg) (ctx : TriggerContext) :
  ordinals_ok ms ->
  let d := check_history_segment_trigger mt token_estimator chunk_message_part workers ms ctx in
  let offset := offset_of (tc_boundary ctx) ms in
  let primary := primary_boundary mt ms ctx in
  (history_segment_in_progress ctx = true -> d = no_fire)
  /\ (td_fire d = false -> td_reason d = None /\ consume_through_ordinal d = None /\ td_boundary d = None)
  /\ (td_fire d = true -> exists b reason, td_boundary d = Some b /\ td_reason d = Some reason /\ (eligible_head b).1 = offset
       /\ forall c, consume_through_ordinal d = Some c ->
            c + 1 = (eligible_head b).2 /\ offset <= c < protected_start_ordinal b
            /\ (pressure_reason reason -> uncrossed (build_tool_arcs ms) (c + 1)))
  /\ (forall cut reason, has_live ms ctx -> forced_cut ctx offset = Some (cut, reason) ->
        td_fire d = true /\ td_reason d = Some reason /\ exists c, consume_through_ordinal d = Some c /\ cut <= c)
  /\ (has_live ms ctx -> forced_cut ctx offset = None ->
       f64_ge (usage_percentage (tc_boundary ctx)) (force_band (execute_threshold_percentage (tc_boundary ctx))) = true ->
       drops_are_enough ctx = false -> offset < (eligible_head primary).2 -> td_reason d = Some ForceBand /\ td_boundary d = Some primary).
Proof.
  intros Hok d offset primary. split; [by intros H; unfold d, check_history_segment_trigger; rewrite H|].
  split; [unfold d; by destruct (check_decided mt token_estimator chunk_message_part workers ms ctx Hok)|].
  split; [by apply fire_is_safe|]. split; [intros cut reason Hl Hf; by apply forced_fires|].
  intros Hl Hf Hu Hd Hne. by apply (force_band_fires mt token_estimator chunk_message_part workers ms ctx Hok Hl Hf Hu Hd Hne).
Qed.

Lemma trigger_safe_witness :
  td_reason (sample_decision 90 None) = Some ForceBand /\ consume_through_ordinal (sample_decision 90 None) = Some 2
  /\ td_reason (sample_decision 10 (Some 3)) = Some WindowCap
  /\ exists c, consume_through_ordinal (sample_decision 10 (Some 3)) = Some c /\ 3 <= c.
Proof.
  split; [vm_compute; reflexivity|]. split; [vm_compute; reflexivity|]. split; [vm_compute; reflexivity|].
  refine (proj2 (proj2 (proj1 (proj2 (proj2 (proj2
    (trigger_safe own_words bytes_estimate plain_part None sample_session (sample_trigger 10 (Some 3)) sample_ok)))) 3 WindowCap _ _))).
  - split; [reflexivity|]. exists (text_msg 1 User "start" 300). split; [apply elem_of_cons; left; reflexivity | vm_compute; discriminate].
  - vm_compute; reflexivity.
Defined.

End Trigger.
