(* ===== verification/Citations.v ===== *)
(** * Citations: what a summary may cite (daemon/src/history_summarizer_citations.rs)

    The frozen aliases of a chunk, the citation syntax, and the checks that accept a set of facts or claims
    only when every citation names exact bytes presented to the model inside the accepted segments.
    Strings are their UTF-8 bytes. *)
From S2P Require Import Prelude.
From S2P Require Import BTree.
From S2P Require Import CanonicalJson.
From S2P Require Import WindowCoverage.
From S2P Require Import Payload.
From Stdlib Require Import Ascii String.
From stdpp Require Import strings sets.

#[local] Open Scope Z_scope.

Module Citations.
Import CanonicalJson.

Definition MAX_ALIASES : nat := Z.to_nat 4096.
Definition MAX_FACT_SPANS : nat := 8.
Definition MAX_REVIEW_FACTS : nat := 64.
Definition CLAIMS_PER_SEGMENT : nat := 8.
Definition CLAIM_KEY_MAX_BYTES : nat := 64.
Definition CLAIM_VALUE_MAX_BYTES : nat := 128.
Definition CLAIM_ANCHOR_MAX_BYTES : nat := 200.

(** ** Text *)

(** [char::is_whitespace] on the one, two or three bytes of a character. *)
Definition space1 (a : ascii) : bool := let a := byte_of a in ((9 <=? a) && (a <=? 13)) || (a =? 32).
Definition space2 (a b : ascii) : bool := (byte_of a =? 194) && ((byte_of b =? 133) || (byte_of b =? 160)).
Definition space3 (a b c : ascii) : bool :=
  let '(a, b, c) := (byte_of a, byte_of b, byte_of c) in
  ((a =? 225) && (b =? 154) && (c =? 128))
  || ((a =? 226) && (b =? 128) && (((128 <=? c) && (c <=? 138)) || (c =? 168) || (c =? 169) || (c =? 175)))
  || ((a =? 226) && (b =? 129) && (c =? 159))
  || ((a =? 227) && (b =? 128) && (c =? 128)).

Fixpoint trim_start (s : string) : string :=
  match s with
  | EmptyString => s
  | String a r =>
      if space1 a then trim_start r
      else match r with
           | EmptyString => s
           | String b r2 =>
               if space2 a b then trim_start r2
               else match r2 with
                    | EmptyString => s
                    | String c r3 => if space3 a b c then trim_start r3 else s
                    end
           end
  end.

Fixpoint trim_end (s : string) : string :=
  match s with
  | EmptyString => s
  | String a r => if bool_decide (trim_start s = EmptyString) then EmptyString else String a (trim_end r)
  end.

Definition trim (s : string) : string := trim_end (trim_start s).

(** [str::split_once] at a byte, and [str::find] of it. *)
Fixpoint split_once (c : ascii) (s : string) : option (string * string) :=
  match s with
  | EmptyString => None
  | String a r =>
      if bool_decide (a = c) then Some (EmptyString, r)
      else match split_once c r with Some (x, y) => Some (String a x, y) | None => None end
  end.
Definition find (c : ascii) (s : string) : option nat := match split_once c s with Some (x, _) => Some (String.length x) | None => None end.

(** [&s[from..]] at a byte offset. *)
Fixpoint suffix_from (n : nat) (s : string) : string :=
  match n, s with O, _ => s | S n, String _ r => suffix_from n r | S _, EmptyString => EmptyString end.

(** [str::get(start..end)]. *)
Definition get_span (s : string) (start end_ : Z) : option string :=
  if (start <=? end_) && (end_ <=? Z.of_nat (String.length s))
     && Payload.string_char_boundary s (Z.to_nat start) && Payload.string_char_boundary s (Z.to_nat end_)
  then Some (String.substring (Z.to_nat start) (Z.to_nat (end_ - start)) s) else None.

(** [str::contains]. *)
Fixpoint str_contains (needle s : string) : bool :=
  String.prefix needle s || match s with EmptyString => false | String _ r => str_contains needle r end.

Definition is_ascii_digit (a : ascii) : bool := is_digit (byte_of a).
Fixpoint all_bytes (f : ascii -> bool) (s : string) : bool := match s with EmptyString => true | String a r => f a && all_bytes f r end.

(** ** Aliases *)
Record FrozenAlias := mkAlias {
  fa_alias : string; fa_message_id : string; fa_ordinal : Z; block_ids : list string; block_hashes : list string;
  presented : string; transformed : bool;
}.

Definition FrozenAliasTable : Type := list FrozenAlias.

Definition issue (table : FrozenAliasTable) (part : FrozenAlias) : FrozenAliasTable * option string :=
  if (MAX_ALIASES <=? length table)%nat then (table, None)
  else
    let alias := ("s" +:+ Window.id_digits 20 (Z.of_nat (length table) + 1) EmptyString)%string in
    (table ++ [mkAlias alias (fa_message_id part) (fa_ordinal part) (block_ids part) (block_hashes part) (presented part) (transformed part)],
     Some alias).

Definition resolve (table : FrozenAliasTable) (alias : string) : option FrozenAlias :=
  List.find (fun frozen => bool_decide (fa_alias frozen = alias)) table.

(** ** Citations *)
Record Citation := mkCitation { ci_alias : string; ci_start : Z; ci_end : Z }.

Inductive ExtractionFailure :=
| UnknownAlias | InvalidSpan | OutsideAcceptedSegment | TooManyCitations | TooManyFacts | MalformedCitation | MalformedFacts
| MissingCitation | MalformedClaims.

Definition is_alias_shaped (alias : string) : bool :=
  match alias with
  | String a digits => bool_decide (a = "s"%char) && negb (bool_decide (digits = EmptyString)) && all_bytes is_ascii_digit digits
  | EmptyString => false
  end.

Definition parse_offset (text : string) : option Z :=
  if negb (bool_decide (text = EmptyString)) && all_bytes is_ascii_digit text then Window.parse_usize text else None.

(** One bracket of the prefix: none here, a citation and the rest, or a failure. *)
Inductive bracket := NoBracket | Cited (citation : Citation) (rest : string) | BadBracket.

Definition read_bracket (rest : string) : bracket :=
  match rest with
  | EmptyString => NoBracket
  | String a after_open =>
      if bool_decide (a = "["%char) then
        match split_once ":" after_open with
        | None => NoBracket
        | Some (alias, _) =>
            if negb (is_alias_shaped alias) then NoBracket
            else
              match find "]" after_open with
              | None => BadBracket
              | Some close =>
                  let from := S (String.length alias) in
                  let range := String.substring from (close - from) after_open in
                  match split_once "-" range with
                  | None => BadBracket
                  | Some (start, end_) =>
                      match parse_offset start, parse_offset end_ with
                      | Some start, Some end_ => Cited (mkCitation alias start end_) (trim_start (suffix_from (S close) after_open))
                      | _, _ => BadBracket
                      end
                  end
              end
        end
      else NoBracket
  end.

(** Every bracket removes a byte at least. *)
Fixpoint split_loop (fuel : nat) (rest : string) (citations : list Citation) : result ExtractionFailure (list Citation * string) :=
  match fuel with
  | O => Ok (citations, rest)
  | S fuel =>
      match read_bracket rest with
      | NoBracket => Ok (citations, rest)
      | BadBracket => Err MalformedCitation
      | Cited citation rest =>
          let citations := citations ++ [citation] in
          if (MAX_FACT_SPANS <? length citations)%nat then Err TooManyCitations else split_loop fuel rest citations
      end
  end.

Definition split_citations (item : string) : result ExtractionFailure (list Citation * string) :=
  let rest := trim_start item in split_loop (S (String.length rest)) rest [].

(** ** Facts *)
Record FactCandidate := mkFact { fc_category : string; fc_content : string; fc_citations : list Citation }.

(** [RangeInclusive] of ordinals. *)
Definition in_range (range : Z * Z) (o : Z) : bool := (range.1 <=? o) && (o <=? range.2).

Fixpoint check_citations (table : FrozenAliasTable) (accepted : option (Z * Z)) (citations : list Citation) : result ExtractionFailure () :=
  match citations with
  | [] => Ok ()
  | citation :: citations =>
      frozen ← ok_or (resolve table (ci_alias citation)) UnknownAlias;
      match get_span (presented frozen) (ci_start citation) (ci_end citation) with
      | Some (String _ _) =>
          if match accepted with Some range => in_range range (fa_ordinal frozen) | None => false end
          then check_citations table accepted citations else Err OutsideAcceptedSegment
      | _ => Err InvalidSpan
      end
  end.

Fixpoint check_facts (table : FrozenAliasTable) (accepted : option (Z * Z)) (facts : list FactCandidate) : result ExtractionFailure () :=
  match facts with
  | [] => Ok ()
  | fact :: facts =>
      if bool_decide (fc_citations fact = []) then Err MissingCitation
      else if (MAX_FACT_SPANS <? length (fc_citations fact))%nat then Err TooManyCitations
      else _ ← check_citations table accepted (fc_citations fact); check_facts table accepted facts
  end.

Definition check_fact_set (facts : list FactCandidate) (table : FrozenAliasTable) (accepted : option (Z * Z)) : result ExtractionFailure () :=
  if (MAX_REVIEW_FACTS <? length facts)%nat then Err TooManyFacts else check_facts table accepted facts.

(** ** Claims *)
Record ClaimCandidate := mkCandidate { cc_key : string; cc_cite : string; cc_value : option string; cc_anchor : option string }.
Record Claim := mkClaim { cl_key : string; cl_value : string; cl_ordinal : Z; cl_anchor : option string }.

Inductive ClaimsOutcome :=
| ClaimsNotRequested
| ClaimsRejected (failure : ExtractionFailure)
| ClaimsAccepted (kept dropped anchor_missing : nat).

Definition key_byte (a : ascii) : bool :=
  let b := byte_of a in ((97 <=? b) && (b <=? 122)) || ((48 <=? b) && (b <=? 57)) || (b =? 95) || (b =? 45).

(** [key.split('.').all(part)]; [nonempty] says whether the current part has a byte. *)
Fixpoint key_parts (nonempty : bool) (key : string) : bool :=
  match key with
  | EmptyString => nonempty
  | String a rest => if bool_decide (a = "."%char) then nonempty && key_parts false rest else key_byte a && key_parts true rest
  end.

Definition is_claim_key (key : string) : bool :=
  (String.length key <=? CLAIM_KEY_MAX_BYTES)%nat && negb (all_bytes (fun a => negb (bool_decide (a = "."%char))) key) && key_parts false key.

(** The alias and span a claim's citation resolves to. *)
Definition cited_part (table : FrozenAliasTable) (candidate : ClaimCandidate) (value : string) : option FrozenAlias :=
  match split_citations (cc_cite candidate) with
  | Ok ([citation], rest) =>
      if negb (bool_decide (trim rest = EmptyString)) then None
      else
        match resolve table (ci_alias citation) with
        | Some frozen =>
            match get_span (presented frozen) (ci_start citation) (ci_end citation) with
            | Some span => if str_contains value span then Some frozen else None
            | None => None
            end
        | None => None
        end
  | _ => None
  end.

Fixpoint segment_index (segments : list ((Z * Z) * string)) (o : Z) : option nat :=
  match segments with [] => None | (range, _) :: rest => if in_range range o then Some O else S <$> segment_index rest o end.

(** Where a candidate goes and the claim it becomes, when it passes every rule. Ordinals are below 2^63, so
    the cast to [i64] keeps them. *)
Definition judge (table : FrozenAliasTable) (segments : list ((Z * Z) * string)) (candidate : ClaimCandidate) : option (nat * Claim) :=
  value ← cc_value candidate;
  if negb (is_claim_key (cc_key candidate)) || (CLAIM_VALUE_MAX_BYTES <? String.length value)%nat then None
  else
    frozen ← cited_part table candidate value;
    index ← segment_index segments (fa_ordinal frozen);
    let p1 := trim (default EmptyString (snd <$> segments !! index)) in
    let anchor :=
      match cc_anchor candidate with
      | Some anchor =>
          if negb (bool_decide (anchor = EmptyString)) && (String.length anchor <=? CLAIM_ANCHOR_MAX_BYTES)%nat && str_contains anchor p1
          then Some anchor else None
      | None => None
      end in
    Some (index, mkClaim (cc_key candidate) value (fa_ordinal frozen) anchor).

(** The last claim for a key wins: an earlier one leaves the order. *)
Definition place (per_segment : list (list Claim)) (entry : nat * Claim) : list (list Claim) :=
  alter (fun claims => filter (fun c => cl_key c <> cl_key entry.2) claims ++ [entry.2]) entry.1 per_segment.

Definition claim_step (table : FrozenAliasTable) (segments : list ((Z * Z) * string)) (per_segment : list (list Claim)) (candidate : ClaimCandidate)
    : list (list Claim) :=
  match judge table segments candidate with Some entry => place per_segment entry | None => per_segment end.

Definition check_claim_set (candidates : list ClaimCandidate) (table : FrozenAliasTable) (segments : list ((Z * Z) * string))
    : list (list Claim) * ClaimsOutcome :=
  let per_segment := foldl (claim_step table segments) (replicate (length segments) []) candidates in
  let per_segment := take CLAIMS_PER_SEGMENT <$> per_segment in
  let kept := length (concat per_segment) in
  let anchor_missing := length (filter (fun c => cl_anchor c = None) (concat per_segment)) in
  (per_segment, ClaimsAccepted kept (length candidates - kept) anchor_missing).

(** ** Reading citations back *)
Definition render (c : Citation) : string :=
  ("[" +:+ ci_alias c +:+ ":" +:+ Window.id_digits 20 (ci_start c) EmptyString +:+ "-" +:+ Window.id_digits 20 (ci_end c) EmptyString +:+ "]")%string.
Definition render_all (cs : list Citation) (text : string) : string := foldr (fun c acc => (render c +:+ " " +:+ acc)%string) text cs.

Definition citation_ok (c : Citation) : Prop := is_alias_shaped (ci_alias c) = true /\ 0 <= ci_start c <= u64_MAX /\ 0 <= ci_end c <= u64_MAX.

(** Nothing a citation could start with. *)
Definition plain_text (s : string) : Prop := trim_start s = s /\ match s with String a _ => a <> "["%char | EmptyString => True end.

Lemma split_once_app c s t : all_bytes (fun a => negb (bool_decide (a = c))) s = true -> split_once c (s +:+ String c t)%string = Some (s, t).
Proof.
  induction s as [|a s IH]; intros H.
  - change (EmptyString +:+ String c t)%string with (String c t). cbn [split_once]. by rewrite bool_decide_eq_true_2.
  - rewrite append_cons. cbn [split_once all_bytes] in *. apply andb_true_iff in H as [Ha H]. apply negb_true_iff, bool_decide_eq_false in Ha.
    rewrite bool_decide_eq_false_2, IH by done. done.
Qed.

Lemma all_bytes_impl (f g : ascii -> bool) s : (forall a, f a = true -> g a = true) -> all_bytes f s = true -> all_bytes g s = true.
Proof. intros Hfg. induction s as [|a s IH]; [done|]. cbn. rewrite !andb_true_iff. intros [? ?]. split; auto. Qed.

Lemma all_bytes_app f s t : all_bytes f (s +:+ t)%string = all_bytes f s && all_bytes f t.
Proof. induction s as [|a s IH]; [done|]. rewrite append_cons. cbn. by rewrite IH, andb_assoc. Qed.

Lemma suffix_from_app s t : suffix_from (String.length s) (s +:+ t)%string = t.
Proof. induction s as [|a s IH]; [done|]. by rewrite append_cons. Qed.

Lemma substring_app s t u : String.substring (String.length s) (String.length t) (s +:+ (t +:+ u))%string = t.
Proof.
  induction s as [|a s IH].
  - change (EmptyString +:+ (t +:+ u))%string with (t +:+ u)%string. cbn [String.length].
    induction t as [|a t IH]; [by destruct u|]. rewrite append_cons. cbn. by rewrite IH.
  - rewrite append_cons. cbn. by rewrite IH.
Qed.

Lemma digits_only_digits s : forall acc r, Window.digits_only acc s = Some r -> all_bytes is_ascii_digit s = true.
Proof.
  induction s as [|a s IH]; intros acc r; [done|]. cbn [Window.digits_only all_bytes]. unfold is_ascii_digit at 1, is_digit.
  destruct ((48 <=? byte_of a) && (byte_of a <=? 57)); [|done]. destruct (_ <=? u64_MAX); [|done]. intros H. cbn. by eapply IH.
Qed.

(** A decimal is digits that read back. *)
Lemma digits_read n : 0 <= n <= u64_MAX ->
  let s := Window.id_digits 20 n EmptyString in all_bytes is_ascii_digit s = true /\ parse_offset s = Some n.
Proof.
  intros Hn. cbv zeta. destruct (Window.id_digits_spec 20 n EmptyString) as (s & E & Hs & _ & Hp & Hd); [unfold u64_MAX in Hn; lia|lia|].
  rewrite append_nil_r in E. rewrite E. specialize (Hd EmptyString ltac:(lia)). rewrite append_nil_r in Hd.
  assert (all_bytes is_ascii_digit s = true) as Ha by by eapply digits_only_digits. split; [done|].
  unfold parse_offset. rewrite bool_decide_eq_false_2, Ha by done. cbn [negb andb]. unfold Window.parse_usize. destruct s as [|c s]; [done|].
  rewrite (bool_decide_eq_false_2 (c = Ascii.ascii_of_N 43)) by by eapply Hp. rewrite bool_decide_eq_false_2 by done. by rewrite Hd.
Qed.

(** Digits hold no byte that is not one. *)
Lemma digits_avoid c s : is_ascii_digit c = false -> all_bytes is_ascii_digit s = true -> all_bytes (fun a => negb (bool_decide (a = c))) s = true.
Proof. intros Hc. apply all_bytes_impl. intros a Ha. apply negb_true_iff, bool_decide_eq_false. intros ->. congruence. Qed.

Lemma alias_avoids c alias : is_alias_shaped alias = true -> is_ascii_digit c = false -> c <> "s"%char -> all_bytes (fun a => negb (bool_decide (a = c))) alias = true.
Proof.
  destruct alias as [|a digits]; [done|]. cbn. rewrite !andb_true_iff, bool_decide_eq_true. intros [[-> _] Hd] Hc Hs.
  rewrite bool_decide_eq_false_2 by congruence. split; [done|]. by apply digits_avoid.
Qed.

Lemma read_bracket_render c rest : citation_ok c -> read_bracket (render c +:+ rest)%string = Cited c (trim_start rest).
Proof.
  destruct c as [alias st en]. intros (Ha & Hst & Hen). cbn in Ha, Hst, Hen. unfold render. cbn [ci_alias ci_start ci_end].
  destruct (digits_read st Hst) as [Ds Ps]. destruct (digits_read en Hen) as [De Pe].
  set (ds := Window.id_digits 20 st EmptyString) in *. set (de := Window.id_digits 20 en EmptyString) in *.
  set (body := (alias +:+ ":" +:+ ds +:+ "-" +:+ de)%string).
  assert (E : (("[" +:+ alias +:+ ":" +:+ ds +:+ "-" +:+ de +:+ "]") +:+ rest)%string = String "[" (body +:+ String "]" rest)%string).
  { unfold body. rewrite !append_assoc. reflexivity. }
  rewrite E. cbn [read_bracket]. rewrite bool_decide_eq_true_2 by done.
  assert (Hc : split_once ":" (body +:+ String "]" rest)%string = Some (alias, ((ds +:+ "-" +:+ de) +:+ String "]" rest)%string)).
  { unfold body. rewrite !append_assoc. change (":" +:+ ?t)%string with (String ":" t). rewrite split_once_app by by apply alias_avoids. reflexivity. }
  rewrite Hc, Ha. cbn [negb].
  assert (Hb : split_once "]" (body +:+ String "]" rest)%string = Some (body, rest)).
  { apply split_once_app. unfold body. rewrite !all_bytes_app, alias_avoids, (digits_avoid _ ds), (digits_avoid _ de) by done. done. }
  unfold find. rewrite Hb.
  assert (Hl : String.length body = (S (String.length alias) + String.length (ds +:+ "-" +:+ de)%string)%nat).
  { unfold body. rewrite length_append. change (":" +:+ ?t)%string with (String ":" t). cbn [String.length]. lia. }
  assert (Hr : String.substring (S (String.length alias)) (String.length body - S (String.length alias)) (body +:+ String "]" rest)%string = (ds +:+ "-" +:+ de)%string).
  { replace (String.length body - S (String.length alias))%nat with (String.length (ds +:+ "-" +:+ de)%string) by lia.
    replace (S (String.length alias)) with (String.length (alias +:+ ":")%string) by (rewrite length_append; cbn; lia).
    unfold body. replace ((alias +:+ ":" +:+ ds +:+ "-" +:+ de) +:+ String "]" rest)%string
      with ((alias +:+ ":") +:+ ((ds +:+ "-" +:+ de) +:+ String "]" rest))%string by by rewrite !append_assoc. apply substring_app. }
  rewrite Hr. change (ds +:+ "-" +:+ de)%string with (ds +:+ String "-" de)%string. rewrite split_once_app by by apply digits_avoid. rewrite Ps, Pe.
  f_equal. f_equal. replace (body +:+ String "]" rest)%string with ((body +:+ "]") +:+ rest)%string by by rewrite append_assoc.
  replace (S (String.length body)) with (String.length (body +:+ "]")%string) by (rewrite length_append; cbn; lia). apply suffix_from_app.
Qed.

Lemma trim_bracket s : trim_start (String "[" s) = String "[" s.
Proof. cbn. by destruct s as [|b [|c s]]. Qed.

Lemma trim_render cs text : plain_text text -> trim_start (render_all cs text) = render_all cs text.
Proof. intros [Ht _]. destruct cs as [|c cs]; [done|]. apply trim_bracket. Qed.

Lemma split_loop_render cs text fuel done :
  Forall citation_ok cs -> plain_text text -> (length done + length cs <= MAX_FACT_SPANS)%nat -> (length cs < fuel)%nat ->
  split_loop fuel (render_all cs text) done = Ok (done ++ cs, text).
Proof.
  intros Hcs Ht. revert fuel done. induction cs as [|c cs IH]; intros fuel cited Hlen Hf; (destruct fuel as [|fuel]; [cbn in Hf; lia|]); cbn [split_loop render_all foldr].
  - rewrite app_nil_r. destruct Ht as [_ Ht]. destruct text as [|a text]; [done|]. cbn [read_bracket]. by rewrite bool_decide_eq_false_2.
  - apply Forall_cons in Hcs as [Hc Hcs]. rewrite read_bracket_render by done. fold (render_all cs text).
    change (trim_start (" " +:+ render_all cs text)%string) with (trim_start (render_all cs text)). rewrite trim_render by done.
    rewrite length_app. cbn [length] in *. rewrite (proj2 (Nat.ltb_ge _ _)) by lia. rewrite IH; [by rewrite <- app_assoc | done | rewrite length_app; cbn; lia | lia].
Qed.

Lemma length_render_all cs text : (length cs <= String.length (render_all cs text))%nat.
Proof. induction cs as [|c cs IH]; [cbn; lia|]. cbn [render_all foldr length]. fold (render_all cs text). rewrite !length_append. cbn. lia. Qed.

(** ** Facts *)
Definition cited_inside (table : FrozenAliasTable) (accepted : option (Z * Z)) (c : Citation) : Prop :=
  exists frozen span range,
    resolve table (ci_alias c) = Some frozen /\ get_span (presented frozen) (ci_start c) (ci_end c) = Some span /\ span <> EmptyString
    /\ accepted = Some range /\ range.1 <= fa_ordinal frozen <= range.2.

Lemma in_range_iff range o : in_range range o = true <-> range.1 <= o <= range.2.
Proof. unfold in_range. rewrite andb_true_iff, !Z.leb_le. done. Qed.

Lemma check_citations_ok table accepted cs : check_citations table accepted cs = Ok () <-> Forall (cited_inside table accepted) cs.
Proof.
  induction cs as [|c cs IH]; cbn [check_citations]; [by split|]. rewrite list.Forall_cons, <- IH. unfold cited_inside. split.
  - intros H. destruct (resolve table (ci_alias c)) as [frozen|] eqn:Er; [|done]. cbn in H.
    destruct (get_span _ _ _) as [[|a span]|] eqn:Es; [done| |done]. destruct accepted as [range|]; [|done].
    destruct (in_range range (fa_ordinal frozen)) eqn:Ei; [|done]. split; [|done]. exists frozen, (String a span), range. by rewrite <- in_range_iff.
  - intros [(frozen & span & range & Er & Es & Hs & -> & Hi) H]. rewrite Er. cbn. rewrite Es. destruct span; [done|].
    by rewrite (proj2 (in_range_iff _ _) Hi).
Qed.

Definition fact_ok (table : FrozenAliasTable) (accepted : option (Z * Z)) (f : FactCandidate) : Prop :=
  (1 <= length (fc_citations f) <= MAX_FACT_SPANS)%nat /\ Forall (cited_inside table accepted) (fc_citations f).

Lemma check_facts_ok table accepted facts : check_facts table accepted facts = Ok () <-> Forall (fact_ok table accepted) facts.
Proof.
  induction facts as [|f facts IH]; cbn [check_facts]; [by split|]. rewrite list.Forall_cons, <- IH. unfold fact_ok at 1.
  case_bool_decide as E; [rewrite E; cbn; split; [done | lia]|].
  assert (1 <= length (fc_citations f))%nat by (destruct (fc_citations f); [done | cbn; lia]).
  destruct (Nat.ltb_spec MAX_FACT_SPANS (length (fc_citations f))); [split; [done | lia]|].
  rewrite <- check_citations_ok. destruct (check_citations table accepted (fc_citations f)) as [[]|e]; cbn; [|split; [done | intros [[_ ?] _]; done]].
  split; [intros H'; split; [split; [lia | done] | done] | tauto].
Qed.

(** ** Claims *)

(** In emitted order, the claims no later claim of the same key replaces. *)
Fixpoint keep_last (l : list Claim) : list Claim :=
  match l with
  | [] => []
  | c :: rest => if existsb (fun d => bool_decide (cl_key d = cl_key c)) rest then keep_last rest else c :: keep_last rest
  end.

Lemma keep_last_elem l c : c ∈ keep_last l -> c ∈ l.
Proof. induction l as [|d l IH]; [done|]. cbn. destruct (existsb _ l); set_solver. Qed.

Lemma existsb_key_snoc (l : list Claim) c k :
  existsb (fun d => bool_decide (cl_key d = k)) (l ++ [c]) = existsb (fun d => bool_decide (cl_key d = k)) l || bool_decide (cl_key c = k).
Proof. rewrite existsb_app. cbn. by rewrite orb_false_r. Qed.

Lemma keep_last_snoc l c : keep_last (l ++ [c]) = filter (fun d => cl_key d <> cl_key c) (keep_last l) ++ [c].
Proof.
  induction l as [|d l IH]; [done|]. cbn [keep_last app]. rewrite existsb_key_snoc, IH.
  destruct (existsb _ l) eqn:E; cbn [orb]; [done|]. rewrite list.filter_cons.
  destruct (decide (cl_key d <> cl_key c)) as [Hne|Heq].
  - rewrite bool_decide_eq_false_2 by congruence. done.
  - rewrite bool_decide_eq_true_2; [done|]. destruct (decide (cl_key d = cl_key c)); [congruence | tauto].
Qed.

Lemma keep_last_NoDup l : NoDup (map cl_key (keep_last l)).
Proof.
  induction l as [|d l IH]; [constructor|]. cbn. destruct (existsb _ l) eqn:E; [done|]. cbn. constructor; [|done].
  intros Hin. apply list_elem_of_fmap in Hin as (e & Ek & He%keep_last_elem).
  assert (existsb (fun d0 => bool_decide (cl_key d0 = cl_key d)) l = true) as Ht; [|congruence].
  apply existsb_exists. exists e. split; [by apply list_elem_of_In | by apply bool_decide_eq_true_2].
Qed.

(** The claims judged to go to segment [i], in emitted order. *)
Definition judged (table : FrozenAliasTable) (segments : list ((Z * Z) * string)) (i : nat) (candidates : list ClaimCandidate) : list Claim :=
  omap (fun c => match judge table segments c with Some (j, claim) => if decide (j = i) then Some claim else None | None => None end) candidates.

Lemma claim_fold table segments candidates i :
  (i < length segments)%nat ->
  foldl (claim_step table segments) (replicate (length segments) []) candidates !! i = Some (keep_last (judged table segments i candidates)).
Proof.
  intros Hi. induction candidates as [|c candidates IH] using rev_ind; [by apply lookup_replicate_2|].
  rewrite foldl_app. cbn [foldl]. unfold judged. rewrite omap_app. fold (judged table segments i candidates). unfold claim_step at 1. cbn [omap list_omap].
  destruct (judge table segments c) as [[j claim]|]; [|by rewrite app_nil_r]. unfold place. cbn [fst snd]. case_decide as Ej.
  - subst j. rewrite list_lookup_alter_eq, IH. rewrite keep_last_snoc. reflexivity.
  - rewrite list_lookup_alter_ne, IH by done. by rewrite app_nil_r.
Qed.

Lemma length_claim_fold table segments candidates :
  length (foldl (claim_step table segments) (replicate (length segments) []) candidates) = length segments.
Proof.
  induction candidates as [|c candidates IH] using rev_ind; [apply length_replicate|]. rewrite foldl_app. cbn [foldl]. unfold claim_step at 1, place.
  destruct (judge _ _ _) as [[j claim]|]; [by rewrite length_alter | done].
Qed.

Lemma length_place l entry : (length (concat (place l entry)) <= S (length (concat l)))%nat.
Proof.
  destruct entry as [i claim]. unfold place. cbn [fst snd]. revert i. induction l as [|x l IH]; intros [|i]; cbn [alter list_alter concat]; rewrite ?length_app; cbn [length]; try lia.
  - pose proof (length_filter (fun c => cl_key c <> cl_key claim) x). lia.
  - specialize (IH i). lia.
Qed.

Lemma length_fold table segments candidates :
  (length (concat (foldl (claim_step table segments) (replicate (length segments) []) candidates)) <= length candidates)%nat.
Proof.
  induction candidates as [|c candidates IH] using rev_ind.
  - cbn. by induction (length segments).
  - rewrite foldl_app, length_app. cbn [foldl length]. unfold claim_step at 1. destruct (judge _ _ _) as [entry|]; [|lia].
    etransitivity; [apply length_place|]. lia.
Qed.

Lemma length_concat_take n (l : list (list Claim)) : (length (concat (take n <$> l)) <= length (concat l))%nat.
Proof. induction l as [|x l IH]; [done|]. cbn. rewrite !length_app, length_take. lia. Qed.

(** A claim of segment [i] and the candidate it came from. *)
Definition grounded (table : FrozenAliasTable) (segments : list ((Z * Z) * string)) (i : nat) (c : ClaimCandidate) (claim : Claim) : Prop :=
  cl_key claim = cc_key c /\ cc_value c = Some (cl_value claim) /\ is_claim_key (cl_key claim) = true
  /\ (String.length (cl_value claim) <= CLAIM_VALUE_MAX_BYTES)%nat
  /\ (exists citation rest frozen span,
        split_citations (cc_cite c) = Ok ([citation], rest) /\ resolve table (ci_alias citation) = Some frozen
        /\ get_span (presented frozen) (ci_start citation) (ci_end citation) = Some span /\ str_contains (cl_value claim) span = true
        /\ cl_ordinal claim = fa_ordinal frozen)
  /\ (exists range p1, segments !! i = Some (range, p1) /\ range.1 <= cl_ordinal claim <= range.2
        /\ forall anchor, cl_anchor claim = Some anchor -> cc_anchor c = Some anchor /\ str_contains anchor (trim p1) = true).

Lemma segment_index_spec segments o i : segment_index segments o = Some i -> exists range p1, segments !! i = Some (range, p1) /\ range.1 <= o <= range.2.
Proof.
  revert i. induction segments as [|[range p1] segments IH]; intros i H; cbn in H; [done|]. destruct (in_range range o) eqn:E.
  - simplify_eq. exists range, p1. by rewrite <- in_range_iff.
  - destruct (segment_index segments o) as [j|]; cbn in H; simplify_eq. by apply IH.
Qed.

Lemma judge_grounded table segments c i claim : judge table segments c = Some (i, claim) -> grounded table segments i c claim.
Proof.
  unfold judge. destruct (cc_value c) as [value|] eqn:Ev; [|done]. cbn [mbind option_bind].
  destruct (_ || _) eqn:Eg; [done|]. apply orb_false_iff in Eg as [Hk%negb_false_iff Hv%Nat.ltb_ge].
  destruct (cited_part table c value) as [frozen|] eqn:Ec; [|done]. cbn [mbind option_bind].
  destruct (segment_index segments (fa_ordinal frozen)) as [j|] eqn:Es; [|done]. cbn [mbind option_bind]. intros [= <- <-].
  apply segment_index_spec in Es as (range & p1 & Hi & Hr). unfold grounded. cbn. split; [done|]. split; [done|]. split; [done|]. split; [done|]. split.
  - unfold cited_part in Ec. destruct (split_citations (cc_cite c)) as [[[|citation [|? ?]] rest]|] eqn:Esp; try done.
    destruct (negb _); [done|]. destruct (resolve table (ci_alias citation)) as [f|] eqn:Er; [|done].
    destruct (get_span _ _ _) as [span|] eqn:Eg; [|done]. destruct (str_contains value span) eqn:Ek; simplify_eq.
    by exists citation, rest, frozen, span.
  - exists range, p1. split; [done|]. split; [done|]. intros anchor Ha. rewrite Hi in Ha. cbn in Ha.
    destruct (cc_anchor c) as [a|]; [|done]. destruct (_ && _) eqn:Ea; simplify_eq. by apply andb_true_iff in Ea as [_ ?].
Qed.

Lemma judged_elem table segments i candidates claim :
  claim ∈ judged table segments i candidates -> exists c, c ∈ candidates /\ grounded table segments i c claim.
Proof.
  unfold judged. intros (c & Hc & E)%list_elem_of_omap. exists c. split; [done|]. destruct (judge table segments c) as [[j d]|] eqn:Ej; [|done].
  case_decide; simplify_eq. by apply judge_grounded.
Qed.

Lemma NoDup_take_keys n (l : list Claim) : NoDup (map cl_key l) -> NoDup (map cl_key (take n l)).
Proof. intros H. rewrite <- (take_drop n l), map_app in H. by apply NoDup_app in H as [? _]. Qed.

Lemma check_claims_lookup candidates table segments i :
  (i < length segments)%nat ->
  (check_claim_set candidates table segments).1 !! i = Some (take CLAIMS_PER_SEGMENT (keep_last (judged table segments i candidates))).
Proof. intros Hi. cbn. by rewrite list_lookup_fmap, claim_fold. Qed.

Lemma length_check_claims candidates table segments : length (check_claim_set candidates table segments).1 = length segments.
Proof. cbn. by rewrite length_fmap, length_claim_fold. Qed.

(** Every claim kept for a segment is grounded in it. *)
Lemma check_claims_grounded candidates table segments i claims claim :
  (check_claim_set candidates table segments).1 !! i = Some claims -> claim ∈ claims -> exists c, c ∈ candidates /\ grounded table segments i c claim.
Proof.
  intros Hc Hin. assert (i < length segments)%nat as Hi by (apply lookup_lt_Some in Hc; by rewrite length_check_claims in Hc).
  rewrite check_claims_lookup in Hc by done. injection Hc as <-. apply (judged_elem _ segments), keep_last_elem.
  rewrite <- (take_drop CLAIMS_PER_SEGMENT (keep_last _)). apply elem_of_app. by left.
Qed.

(** Reading citations back gives the citations that were written and the text that follows them, for
    up to eight well-shaped citations and any text that does not itself start with a bracket or a space. *)
Theorem citations_roundtrip (cs : list Citation) (text : string) :
  Forall citation_ok cs -> plain_text text -> (length cs <= MAX_FACT_SPANS)%nat -> split_citations (render_all cs text) = Ok (cs, text).
Proof.
  intros Hcs Ht Hlen. unfold split_citations. rewrite trim_render by done. pose proof (length_render_all cs text).
  by rewrite split_loop_render by (done || cbn; lia).
Qed.

Lemma citations_roundtrip_witness :
  split_citations (render_all [mkCitation "s3" 12 40; mkCitation "s4" 0 9] "uses tabs") = Ok ([mkCitation "s3" 12 40; mkCitation "s4" 0 9], "uses tabs"%string).
Proof.
  apply citations_roundtrip.
  - unfold citation_ok, u64_MAX. repeat (apply list.Forall_cons; split); [split; [reflexivity | cbn; lia] | split; [reflexivity | cbn; lia] | constructor].
  - split; [reflexivity | discriminate].
  - vm_compute. lia.
Defined.

(** A set of facts is accepted exactly when it is small enough and every fact has between one and
    eight citations, each naming a nonempty span on character boundaries of the bytes presented for an
    alias whose message lies in the accepted range. *)
Lemma facts_exact (facts : list FactCandidate) (table : FrozenAliasTable) (accepted : option (Z * Z)) :
  check_fact_set facts table accepted = Ok () <-> (length facts <= MAX_REVIEW_FACTS)%nat /\ Forall (fact_ok table accepted) facts.
Proof.
  unfold check_fact_set. rewrite <- check_facts_ok. destruct (Nat.ltb_spec MAX_REVIEW_FACTS (length facts)).
  - split; [done | intros [? _]; lia].
  - split; [intros H'; split; [lia | done] | by intros [_ ?]].
Qed.

(** The claims kept for a segment are the first eight of its claims in emitted order after every
    claim replaced by a later one of the same key is left out; each has a well-formed key, and its value
    lies inside the one span it cites, of a message in that segment's range; an anchor is text of the
    segment's summary. The counts add up to the candidates. *)
Theorem claims_exact (candidates : list ClaimCandidate) (table : FrozenAliasTable) (segments : list ((Z * Z) * string)) :
  let per_segment := (check_claim_set candidates table segments).1 in
  length per_segment = length segments
  /\ (forall i, (i < length segments)%nat -> per_segment !! i = Some (take CLAIMS_PER_SEGMENT (keep_last (judged table segments i candidates))))
  /\ (forall i claims, per_segment !! i = Some claims ->
        (length claims <= CLAIMS_PER_SEGMENT)%nat /\ NoDup (map cl_key claims)
        /\ forall claim, claim ∈ claims -> exists c, c ∈ candidates /\ grounded table segments i c claim)
  /\ exists kept dropped missing,
       (check_claim_set candidates table segments).2 = ClaimsAccepted kept dropped missing
       /\ kept = length (concat per_segment) /\ (kept + dropped = length candidates)%nat /\ (missing <= kept)%nat.
Proof.
  cbv zeta. split; [apply length_check_claims|]. split; [intros i Hi; by apply check_claims_lookup|]. split.
  - intros i claims Hc. assert (i < length segments)%nat as Hi by (apply lookup_lt_Some in Hc; by rewrite length_check_claims in Hc).
    pose proof Hc as Hc'. rewrite check_claims_lookup in Hc' by done. injection Hc' as <-. split; [rewrite length_take; lia|].
    split; [apply NoDup_take_keys, keep_last_NoDup|]. intros claim Hin. by eapply check_claims_grounded.
  - do 3 eexists. split; [done|]. split; [done|]. cbn.
    pose proof (length_concat_take CLAIMS_PER_SEGMENT (foldl (claim_step table segments) (replicate (length segments) []) candidates)).
    pose proof (length_fold table segments candidates). split; [lia|]. apply length_filter.
Qed.

End Citations.
