(* ===== verification/SummaryValidate.v ===== *)
(** * SummaryValidate: which summarized history may be stored (daemon/src/history_summarizer_validate.rs)

    Before anything is written, the segments a model returned are healed, mapped to raw messages and
    checked against the chunk that was summarized and the segments already stored. The parser of the
    model's output rests on regular expressions and is an argument; error messages are constructors. *)
From S2P Require Import Prelude.
From S2P Require Import BTree.
From S2P Require Import Boundary.
From S2P Require Import BoundaryProofs.
From S2P Require Import Citations.
From Stdlib Require Import String.
From stdpp Require Import strings sorting sets.

#[local] Open Scope Z_scope.

Module SummaryValidate.
Import Citations.

Definition BOUNDARY_HEALING_SLACK : Z := 2.
Definition ARCHIVE_EPISODE_TYPE : string := "archive".

(** ** Data *)
Record MessageRange := mkRange { r_start : Z; r_end : Z }.
Record ChunkLine := mkLine { ln_ordinal : Z; ln_message_id : string; anchorable : bool }.

Record HistorySummarizerChunk := mkChunk {
  start_index : Z; end_index : Z; lines : list ChunkLine; aliases : FrozenAliasTable; ch_present_ordinals : list Z;
  tool_only_ranges : list MessageRange; completed_tool_arcs : list MessageRange;
}.

Record StoredHistorySegmentRange := mkStored { st_start : Z; st_end : Z }.

Record ValidateOptions := mkOptions {
  sequence_offset : Z; in_emergency : bool; memory_enabled : bool; auto_promote : bool; user_memory_collection_enabled : bool;
  force_keep_last_history_segment : bool;
}.

Record ParsedHistorySegment := mkSegment {
  ps_start : Z; ps_end : Z; ps_title : string; ps_content : string; ps_p1 : option string; ps_p2 : option string; ps_p3 : option string;
  ps_p4 : option string; ps_importance : option Z; ps_episode_type : option string;
}.

Record ParsedEvent := mkEvent { ev_kind : string; at_history_segment : option Z; ev_fields : list (string * string) }.
Record PrimerCandidate := mkPrimer { pr_question : string; pr_origin : option Z }.
Record UserObservationCandidate := mkObservation { uo_content : string; uo_origin : option Z }.

Record ParsedHistorySegmentOutput := mkParsed {
  po_history_segments : list ParsedHistorySegment; po_facts : list FactCandidate; facts_block_present : bool;
  fact_syntax_failure : option ExtractionFailure; po_events : list ParsedEvent; po_unprocessed_from : option Z;
  po_user_observations : list UserObservationCandidate; po_primer_candidates : list PrimerCandidate; po_claims : list ClaimCandidate;
  claims_block_present : bool; claims_syntax_failure : option ExtractionFailure;
}.

Record ValidatedHistorySegment := mkValidated {
  vs_sequence : Z; vs_start : Z; vs_end : Z; vs_start_message_id : string; vs_end_message_id : string; vs_title : string; vs_content : string;
  vs_p1 : option string; vs_p2 : option string; vs_p3 : option string; vs_p4 : option string; vs_importance : option Z;
  vs_episode_type : option string; vs_claims : list Claim;
}.

Inductive ExtractionOutcome := NotRequested | NoFacts | Accepted (count : nat) | Rejected (failure : ExtractionFailure).

Record ValidatedChunk := mkValidatedChunk {
  vc_history_segments : list ValidatedHistorySegment; vc_facts : list FactCandidate; vc_extraction : ExtractionOutcome;
  vc_claims_outcome : ClaimsOutcome; vc_events : list ParsedEvent; vc_primer_candidates : list PrimerCandidate;
  vc_user_observations : list UserObservationCandidate; vc_unprocessed_from : Z; discarded_last : bool;
}.

Inductive CoverageError :=
| DuplicateOrdinal (o : Z) | DecreasingOrdinal (previous current : Z) | OmitsMessage (o : Z) | IncludesMessage (o : Z) | LineOutside (o : Z).
Inductive StoredError := StoredInvalidRange (s e : Z) | StoredOverlap (expected s e : Z).
Inductive SegmentError :=
| NotMapped (s e : Z) | NoAnchor (e : Z) | MissingTiers (index : nat) | InvalidRange (s e : Z) | ReservedEpisode (index : nat)
| OutsideChunk (s e : Z) | StartAbsent (s : Z) | EndAbsent (e : Z) | AfterCoverage (s e : Z) | Overlap (expected s e : Z) | Gap (s expected : Z)
| UnprocessedMismatch (given expected : Z) | UnprocessedOutside (given : Z) | UnprocessedIncomplete (given : Z) | Uncovered (expected : Z).
Inductive ValidationError :=
| ChunkCoverage (e : CoverageError) | ExistingInvalid (e : StoredError) | NotNewer (s prior_end : Z) | NotNext (s prior_end expected : Z)
| ParseFailed | NoSegments | InvalidOutput (e : SegmentError) | SplitsToolArc | NoForwardProgress (o : Z).

(** ** Ordinals *)
Definition saturating_succ (x : Z) : Z := Z.min u64_MAX (x + 1).
Definition saturating_pred (x : Z) : Z := Z.max 0 (x - 1).

Definition line_ordinals (c : HistorySummarizerChunk) : list Z := ln_ordinal <$> lines c.

Definition chunk_present_ordinals (c : HistorySummarizerChunk) : list Z :=
  match ch_present_ordinals c with [] => line_ordinals c | l => l end.

Fixpoint validate_strictly_increasing_ordinals (ordinals : list Z) : option CoverageError :=
  match ordinals with
  | previous :: (current :: _) as rest =>
      if current =? previous then Some (DuplicateOrdinal current)
      else if current <? previous then Some (DecreasingOrdinal previous current) else validate_strictly_increasing_ordinals rest
  | _ => None
  end.

Fixpoint next_present_after (ordinals : list Z) (after : Z) : option Z :=
  match ordinals with [] => None | o :: rest => if after <? o then Some o else next_present_after rest after end.

Definition within (first last : Z) (l : list Z) : list Z := filter (fun o => first <= o <= last) l.

(** ** Coverage of the chunk *)
Fixpoint dense_loop (expected : Z) (ordinals : list Z) : Z + CoverageError :=
  match ordinals with
  | [] => inl expected
  | o :: rest => if negb (o =? expected) then inr (OmitsMessage expected) else dense_loop (saturating_succ expected) rest
  end.

Definition validate_dense_chunk_coverage (c : HistorySummarizerChunk) : option CoverageError :=
  match validate_strictly_increasing_ordinals (line_ordinals c) with
  | Some e => Some e
  | None =>
      match lines c with
      | [] => None
      | _ =>
          match dense_loop (start_index c) (line_ordinals c) with
          | inr e => Some e
          | inl expected => if negb (saturating_pred expected =? end_index c) then Some (OmitsMessage expected) else None
          end
      end
  end.

(** The first position where the lines and the expected ordinals differ. *)
Fixpoint compare_lines (ls expected : list Z) : option CoverageError :=
  match ls, expected with
  | line :: ls, e :: expected => if line =? e then compare_lines ls expected else if e <? line then Some (OmitsMessage e) else Some (IncludesMessage line)
  | [], missing :: _ => Some (OmitsMessage missing)
  | extra :: _, [] => Some (IncludesMessage extra)
  | [], [] => None
  end.

Definition validate_chunk_coverage_against (c : HistorySummarizerChunk) (present : list Z) : option CoverageError :=
  match validate_strictly_increasing_ordinals present with
  | Some e => Some e
  | None =>
      match validate_strictly_increasing_ordinals (line_ordinals c) with
      | Some e => Some e
      | None =>
          match head (filter (fun o => o < start_index c \/ end_index c < o) (line_ordinals c)) with
          | Some outside => Some (LineOutside outside)
          | None => compare_lines (line_ordinals c) (within (start_index c) (end_index c) present)
          end
      end
  end.

Definition validate_chunk_coverage (c : HistorySummarizerChunk) : option CoverageError :=
  match ch_present_ordinals c with [] => validate_dense_chunk_coverage c | l => validate_chunk_coverage_against c l end.

(** ** Stored segments *)
Fixpoint stored_loop (previous_end : Z) (l : list StoredHistorySegmentRange) : option StoredError :=
  match l with
  | [] => None
  | s :: rest =>
      if st_end s <? st_start s then Some (StoredInvalidRange (st_start s) (st_end s))
      else if st_start s <=? previous_end then Some (StoredOverlap (saturating_succ previous_end) (st_start s) (st_end s))
      else stored_loop (st_end s) rest
  end.

Definition validate_stored_history_segments (l : list StoredHistorySegmentRange) : option StoredError :=
  match l with
  | [] => None
  | s :: rest => if st_end s <? st_start s then Some (StoredInvalidRange (st_start s) (st_end s)) else stored_loop (st_end s) rest
  end.

(** ** Healing *)
Definition boundary_splits_completed_tool_arc (boundary : Z) (arcs : list MessageRange) : bool :=
  existsb (fun arc => Boundary.completed_tool_arc_crosses_boundary (r_start arc) (r_end arc) boundary) arcs.

Definition with_end (s : ParsedHistorySegment) (e : Z) : ParsedHistorySegment :=
  mkSegment (ps_start s) e (ps_title s) (ps_content s) (ps_p1 s) (ps_p2 s) (ps_p3 s) (ps_p4 s) (ps_importance s) (ps_episode_type s).

(** Where the segment before [next] ends once a gap of tool-only messages is absorbed. *)
Definition healed_end (tool_only : list MessageRange) (present : list Z) (end_message next_start : Z) : Z :=
  let gap_start := saturating_succ end_message in
  let gap_end := saturating_pred next_start in
  if gap_end <? gap_start then end_message
  else
    let omitted := within gap_start gap_end present in
    match list.last omitted with
    | None => end_message
    | Some o => if forallb (fun x => existsb (fun r => (r_start r <=? x) && (x <=? r_end r)) tool_only) omitted then o else end_message
    end.

Fixpoint heal_history_segment_gaps (tool_only : list MessageRange) (present : list Z) (segments : list ParsedHistorySegment) : list ParsedHistorySegment :=
  match segments with
  | s :: (next :: _) as rest => with_end s (healed_end tool_only present (ps_end s) (ps_start next)) :: heal_history_segment_gaps tool_only present rest
  | l => l
  end.

Definition arc_end_after (arcs : list MessageRange) (chunk_end end_message : Z) : Z :=
  default end_message
    (Boundary.z_max (r_end <$> filter (fun arc => r_end arc <= chunk_end
       /\ Boundary.completed_tool_arc_crosses_boundary (r_start arc) (r_end arc) (saturating_succ end_message) = true) arcs)).

Fixpoint terminal_loop (n : nat) (arcs : list MessageRange) (chunk_end end_message : Z) : Z :=
  match n with
  | O => end_message
  | S n => let next := arc_end_after arcs chunk_end end_message in if next =? end_message then end_message else terminal_loop n arcs chunk_end next
  end.

Definition heal_terminal_completed_tool_arc (segments : list ParsedHistorySegment) (unprocessed_from : option Z) (arcs : list MessageRange)
    (present : list Z) (chunk_end : Z) : list ParsedHistorySegment * option Z :=
  match list.last segments with
  | None => (segments, unprocessed_from)
  | Some last =>
      let e := terminal_loop (S (length arcs)) arcs chunk_end (ps_end last) in
      (take (length segments - 1) segments ++ [with_end last e],
       if e =? ps_end last then unprocessed_from
       else match unprocessed_from with
            | Some _ => Some (default (saturating_succ e) (next_present_after present e))
            | None => None
            end)
  end.

(** ** Mapping to raw messages *)
Definition find_line (c : HistorySummarizerChunk) (o : Z) : option ChunkLine := List.find (fun l => ln_ordinal l =? o) (lines c).

Fixpoint map_parsed_history_segments_to_chunk (c : HistorySummarizerChunk) (sequence : Z) (segments : list ParsedHistorySegment)
    : result SegmentError (list ValidatedHistorySegment) :=
  match segments with
  | [] => Ok []
  | s :: rest =>
      match find_line c (ps_start s), find_line c (ps_end s) with
      | Some start_line, Some end_line =>
          if negb (anchorable end_line) || bool_decide (ln_message_id end_line = EmptyString) then Err (NoAnchor (ps_end s))
          else
            mapped ← map_parsed_history_segments_to_chunk c (sequence + 1) rest;
            Ok (mkValidated sequence (ps_start s) (ps_end s) (ln_message_id start_line) (ln_message_id end_line) (ps_title s) (ps_content s)
                  (ps_p1 s) (ps_p2 s) (ps_p3 s) (ps_p4 s) (ps_importance s) (ps_episode_type s) [] :: mapped)
      | _, _ => Err (NotMapped (ps_start s) (ps_end s))
      end
  end.

(** ** Ranges of the output *)
Definition has_tiers (s : ParsedHistorySegment) : bool :=
  match ps_p1 s with Some p1 => negb (bool_decide (trim p1 = EmptyString)) | None => false end.

Fixpoint ranges_loop (chunk_start chunk_end : Z) (chunk_ordinals : list Z) (index : nat) (expected_start : option Z) (segments : list ParsedHistorySegment)
    : option Z + SegmentError :=
  match segments with
  | [] => inl expected_start
  | s :: rest =>
      if negb (has_tiers s) then inr (MissingTiers (S index))
      else if ps_end s <? ps_start s then inr (InvalidRange (ps_start s) (ps_end s))
      else if bool_decide (ps_episode_type s = Some ARCHIVE_EPISODE_TYPE) then inr (ReservedEpisode (S index))
      else if (ps_start s <? chunk_start) || (chunk_end <? ps_end s) then inr (OutsideChunk (ps_start s) (ps_end s))
      else if negb (bool_decide (ps_start s ∈ chunk_ordinals)) then inr (StartAbsent (ps_start s))
      else if negb (bool_decide (ps_end s ∈ chunk_ordinals)) then inr (EndAbsent (ps_end s))
      else
        match expected_start with
        | None => inr (AfterCoverage (ps_start s) (ps_end s))
        | Some expected =>
            if negb (ps_start s =? expected) then
              if ps_start s <? expected then inr (Overlap expected (ps_start s) (ps_end s)) else inr (Gap (ps_start s) expected)
            else ranges_loop chunk_start chunk_end chunk_ordinals (S index) (next_present_after chunk_ordinals (ps_end s)) rest
        end
  end.

Definition validate_parsed_history_segments (segments : list ParsedHistorySegment) (chunk_start chunk_end : Z) (present : list Z)
    (unprocessed_from : option Z) : option SegmentError :=
  let chunk_ordinals := within chunk_start chunk_end present in
  match ranges_loop chunk_start chunk_end chunk_ordinals 0 (head chunk_ordinals) segments with
  | inr e => Some e
  | inl expected_start =>
      match unprocessed_from, expected_start with
      | Some u, Some expected => if negb (u =? expected) then Some (UnprocessedMismatch u expected) else None
      | Some u, None =>
          if u =? saturating_succ chunk_end then None
          else if (u <? chunk_start) || (chunk_end <? u) then Some (UnprocessedOutside u) else Some (UnprocessedIncomplete u)
      | None, Some expected => Some (Uncovered expected)
      | None, None => None
      end
  end.

Definition keep_side_channel (origin : option Z) (persisted_count : Z) (discarded : bool) : bool :=
  if discarded then false else match origin with Some index => (1 <=? index) && (index <=? persisted_count) | None => negb discarded end.

(** ** Publication *)

(** The provisional last segment is withheld unless that would reopen a completed arc. *)
Definition discard_last (c : HistorySummarizerChunk) (options : ValidateOptions) (segments : list ValidatedHistorySegment)
    : list ValidatedHistorySegment * bool :=
  if negb (in_emergency options) && negb (force_keep_last_history_segment options) && (2 <=? length segments)%nat then
    let last_end := default (end_index c) (vs_end <$> list.last segments) in
    let lookahead := Z.max 0 (end_index c - last_end) in
    let pop_would_split_arc :=
      match segments !! (length segments - 2)%nat with
      | Some s => boundary_splits_completed_tool_arc (saturating_succ (vs_end s)) (completed_tool_arcs c)
      | None => false
      end in
    if (lookahead <=? BOUNDARY_HEALING_SLACK) && negb pop_would_split_arc then (take (length segments - 1) segments, true) else (segments, false)
  else (segments, false).

Definition citable (segments : list ValidatedHistorySegment) : option (Z * Z) :=
  match head segments, list.last segments with Some first, Some last => Some (vs_start first, vs_end last) | _, _ => None end.

Definition extract_facts (c : HistorySummarizerChunk) (options : ValidateOptions) (parsed : ParsedHistorySegmentOutput)
    (segments : list ValidatedHistorySegment) : ExtractionOutcome * list FactCandidate :=
  let proposed := po_facts parsed in
  if negb (memory_enabled options) then (NotRequested, [])
  else
    match fact_syntax_failure parsed with
    | Some failure => (Rejected failure, [])
    | None =>
        match proposed with
        | [] => if facts_block_present parsed then (NoFacts, []) else (NotRequested, [])
        | _ =>
            match check_fact_set proposed (aliases c) (citable segments) with
            | Ok _ => (Accepted (length proposed), proposed)
            | Err failure => (Rejected failure, [])
            end
        end
    end.

Definition with_claims (s : ValidatedHistorySegment) (claims : list Claim) : ValidatedHistorySegment :=
  mkValidated (vs_sequence s) (vs_start s) (vs_end s) (vs_start_message_id s) (vs_end_message_id s) (vs_title s) (vs_content s)
    (vs_p1 s) (vs_p2 s) (vs_p3 s) (vs_p4 s) (vs_importance s) (vs_episode_type s) claims.

Definition claim_ranges (segments : list ValidatedHistorySegment) : list ((Z * Z) * string) :=
  (fun s => ((vs_start s, vs_end s), default EmptyString (vs_p1 s))) <$> segments.

Definition attach_claims (c : HistorySummarizerChunk) (parsed : ParsedHistorySegmentOutput) (segments : list ValidatedHistorySegment)
    : list ValidatedHistorySegment * ClaimsOutcome :=
  match claims_block_present parsed, claims_syntax_failure parsed with
  | false, _ => (segments, ClaimsNotRequested)
  | true, Some failure => (segments, ClaimsRejected failure)
  | true, None =>
      let '(claims, outcome) := check_claim_set (po_claims parsed) (aliases c) (claim_ranges segments) in
      (zip_with with_claims segments claims, outcome)
  end.

Section Validate.
(** Reading the model's output. *)
Variable parse_history_segment_output : string -> option ParsedHistorySegmentOutput.

Definition check_prior (c : HistorySummarizerChunk) (prior : list StoredHistorySegmentRange) : option ValidationError :=
  match list.last prior with
  | None => None
  | Some last =>
      if start_index c <=? st_end last then Some (NotNewer (start_index c) (st_end last))
      else
        match next_present_after (chunk_present_ordinals c) (st_end last) with
        | Some expected => if negb (start_index c =? expected) then Some (NotNext (start_index c) (st_end last) expected) else None
        | None => None
        end
  end.

(** The parsed output with both kinds of gap healed. *)
Definition healed (c : HistorySummarizerChunk) (parsed : ParsedHistorySegmentOutput) : list ParsedHistorySegment * option Z :=
  heal_terminal_completed_tool_arc
    (heal_history_segment_gaps (tool_only_ranges c) (chunk_present_ordinals c) (po_history_segments parsed))
    (po_unprocessed_from parsed) (completed_tool_arcs c) (chunk_present_ordinals c) (end_index c).

(** The segments the output maps to, all checks passed. *)
Definition emitted_segments (c : HistorySummarizerChunk) (options : ValidateOptions) (parsed : ParsedHistorySegmentOutput)
    : result ValidationError (list ValidatedHistorySegment) :=
  let '(segments, unprocessed) := healed c parsed in
  emitted ← map_err InvalidOutput (map_parsed_history_segments_to_chunk c (sequence_offset options) segments);
  match validate_parsed_history_segments segments (start_index c) (end_index c) (chunk_present_ordinals c) unprocessed with
  | Some e => Err (InvalidOutput e)
  | None =>
      if match list.last segments with
         | Some s => boundary_splits_completed_tool_arc (saturating_succ (ps_end s)) (completed_tool_arcs c)
         | None => false
         end
      then Err SplitsToolArc else Ok emitted
  end.

Definition publish (c : HistorySummarizerChunk) (options : ValidateOptions) (parsed : ParsedHistorySegmentOutput) (prior_end : option Z)
    (emitted : list ValidatedHistorySegment) : result ValidationError ValidatedChunk :=
  let '(segments, discarded) := discard_last c options emitted in
  let offset := match prior_end with Some e => saturating_succ e | None => start_index c end in
  let last_new_end := default 0 (vs_end <$> list.last segments) in
  if last_new_end <? offset then Err (NoForwardProgress (saturating_pred offset))
  else
    let persisted := Z.of_nat (length segments) in
    let '(extraction, facts) := extract_facts c options parsed segments in
    let '(segments, claims_outcome) := attach_claims c parsed segments in
    let force_keep := force_keep_last_history_segment options in
    let events := filter (fun event =>
      (if force_keep then match at_history_segment event with Some index => (1 <=? index) && (index <? persisted) | None => false end
       else keep_side_channel (at_history_segment event) persisted discarded) = true) (po_events parsed) in
    let primers := take 1 (filter (fun p => negb force_keep && keep_side_channel (pr_origin p) persisted discarded = true) (po_primer_candidates parsed)) in
    let observations := filter (fun o => negb force_keep && keep_side_channel (uo_origin o) persisted discarded = true) (po_user_observations parsed) in
    Ok (mkValidatedChunk segments facts extraction claims_outcome events primers observations (saturating_succ last_new_end) discarded).

Definition validate_history_summarizer_output (text : string) (c : HistorySummarizerChunk) (prior : list StoredHistorySegmentRange)
    (options : ValidateOptions) : result ValidationError ValidatedChunk :=
  match validate_chunk_coverage c with
  | Some e => Err (ChunkCoverage e)
  | None =>
      match validate_stored_history_segments prior with
      | Some e => Err (ExistingInvalid e)
      | None =>
          match check_prior c prior with
          | Some e => Err e
          | None =>
              parsed ← ok_or (parse_history_segment_output text) ParseFailed;
              match po_history_segments parsed with
              | [] => Err NoSegments
              | _ => emitted ← emitted_segments c options parsed; publish c options parsed (st_end <$> list.last prior) emitted
              end
          end
      end
  end.
End Validate.

(** ** Ordered ordinals *)
Lemma increasing_sorted l : validate_strictly_increasing_ordinals l = None -> StronglySorted Z.lt l.
Proof.
  intros H. apply Sorted_StronglySorted; [intros ? ? ?; lia|]. induction l as [|x [|y l] IH]; [constructor | by repeat constructor|].
  cbn in H. destruct (Z.eqb_spec y x); [done|]. destruct (Z.ltb_spec y x); [done|]. constructor; [by apply IH | constructor; lia].
Qed.

Lemma sorted_increasing l : StronglySorted Z.lt l -> validate_strictly_increasing_ordinals l = None.
Proof.
  induction l as [|x [|y l] IH]; intros Hs; [done | done|]. apply StronglySorted_inv in Hs as [Hs Hx]. rewrite Forall_forall in Hx.
  specialize (Hx y ltac:(set_solver)). cbn. rewrite (proj2 (Z.eqb_neq _ _)), (proj2 (Z.ltb_ge _ _)) by lia. by apply IH.
Qed.

Lemma next_present_spec l after :
  StronglySorted Z.lt l ->
  match next_present_after l after with
  | Some o => o ∈ l /\ after < o /\ forall x, x ∈ l -> after < x -> o <= x
  | None => forall x, x ∈ l -> x <= after
  end.
Proof.
  induction l as [|y l IH]; intros Hs; cbn; [set_solver|]. apply StronglySorted_inv in Hs as [Hs Hy]. rewrite Forall_forall in Hy.
  destruct (Z.ltb_spec after y).
  - split; [set_solver|]. split; [done|]. intros x [-> | Hx]%elem_of_cons ?; [lia|]. specialize (Hy x Hx). lia.
  - specialize (IH Hs). destruct (next_present_after l after) as [o|].
    + destruct IH as (? & ? & H'). split; [set_solver|]. split; [done|]. intros x [-> | Hx]%elem_of_cons ?; [lia | by apply H'].
    + intros x [-> | Hx]%elem_of_cons; [done | by apply IH].
Qed.

Lemma sorted_filter (P : Z -> Prop) `{!forall x, Decision (P x)} l : StronglySorted Z.lt l -> StronglySorted Z.lt (filter P l).
Proof.
  induction 1 as [|x l Hs IH Hx]; [constructor|]. rewrite list.filter_cons. case_decide; [|done]. constructor; [done|].
  rewrite Forall_forall in *. intros y [_ Hy]%list_elem_of_filter. by apply Hx.
Qed.

(** ** The chunk's lines are the present messages of its range *)
Definition ordinals_ok (c : HistorySummarizerChunk) : Prop :=
  Forall (fun o => 0 <= o < u64_MAX) (line_ordinals c) /\ 0 <= start_index c /\ 0 <= end_index c < u64_MAX.

Lemma dense_loop_spec l e e' :
  0 <= e -> Forall (fun o => 0 <= o < u64_MAX) l -> dense_loop e l = inl e' -> e' = e + Z.of_nat (length l) /\ Forall (fun o => e <= o < e') l.
Proof.
  revert e. induction l as [|o l IH]; intros e He Hl; cbn; [intros [= ->]; split; [lia | constructor]|].
  apply Forall_cons in Hl as [Ho Hl]. destruct (Z.eqb_spec o e) as [-> | ?]; [|done]. cbn. intros H.
  assert (saturating_succ e = e + 1) as Es by (unfold saturating_succ; lia). rewrite Es in H. apply IH in H as [-> Hf]; [|lia|done].
  split; [lia|]. constructor; [lia|]. eapply Forall_impl; [exact Hf|]. cbn. intros; lia.
Qed.

Lemma within_all first last l : Forall (fun o => first <= o <= last) l -> within first last l = l.
Proof. unfold within. induction 1 as [|x l Hx Hl IH]; [done|]. rewrite list.filter_cons, decide_True by done. by rewrite IH. Qed.

Lemma compare_lines_eq ls expected : compare_lines ls expected = None -> ls = expected.
Proof.
  revert expected. induction ls as [|x ls IH]; intros [|y expected] H; cbn in H; try done. destruct (Z.eqb_spec x y) as [-> | ?]; [by rewrite (IH expected)|].
  destruct (y <? x); done.
Qed.

Lemma coverage_exact c :
  ordinals_ok c -> validate_chunk_coverage c = None ->
  StronglySorted Z.lt (chunk_present_ordinals c) /\ line_ordinals c = within (start_index c) (end_index c) (chunk_present_ordinals c).
Proof.
  intros (Hl & Hs & He) H. unfold validate_chunk_coverage in H. unfold chunk_present_ordinals. destruct (ch_present_ordinals c) as [|x present] eqn:Ep.
  - unfold validate_dense_chunk_coverage in H. destruct (validate_strictly_increasing_ordinals (line_ordinals c)) eqn:Ei; [done|].
    split; [by apply increasing_sorted|]. symmetry. apply within_all. unfold line_ordinals in *. destruct (lines c) as [|l0 ls] eqn:El; [constructor|].
    rewrite <- El in *. destruct (dense_loop _ _) as [e|] eqn:Ed; [|done]. apply dense_loop_spec in Ed as [-> Hf]; [|done|done].
    destruct (Z.eqb_spec (saturating_pred (start_index c + Z.of_nat (length (ln_ordinal <$> lines c)))) (end_index c)) as [E|]; [|done].
    eapply Forall_impl; [exact Hf|]. cbn. intros o Ho. unfold saturating_pred in E. lia.
  - rewrite <- Ep in *. unfold validate_chunk_coverage_against in H.
    destruct (validate_strictly_increasing_ordinals (ch_present_ordinals c)) eqn:Ei; [done|].
    destruct (validate_strictly_increasing_ordinals (line_ordinals c)); [done|]. destruct (head _); [done|].
    split; [by apply increasing_sorted | by apply compare_lines_eq].
Qed.

(** ** Ranges that tile the present messages *)

(** Each range starts at the next present message after the one before it, [p] at first, and ends on a present message. *)
Fixpoint tiles (ords : list Z) (p : Z) (ranges : list (Z * Z)) : Prop :=
  match ranges with
  | [] => True
  | (s, e) :: rest => next_present_after ords p = Some s /\ s <= e /\ e ∈ ords /\ tiles ords e rest
  end.

Definition last_end (p : Z) (ranges : list (Z * Z)) : Z := default p (snd <$> list.last ranges).

Lemma last_end_cons p s e rest : last_end p ((s, e) :: rest) = last_end e rest.
Proof. unfold last_end. destruct rest as [|r rest]; [done|]. rewrite list.last_cons_cons. by destruct (list.last (r :: rest)) eqn:E; [|apply list.last_None in E]. Qed.

Lemma tiles_app ords p l1 l2 : tiles ords p (l1 ++ l2) -> tiles ords p l1.
Proof. revert p. induction l1 as [|[s e] l1 IH]; intros p H; [done|]. cbn in *. destruct H as (? & ? & ? & H). split; [done|]. split; [done|]. split; [done|]. by eapply IH. Qed.

Section Tiles.
Context (ords : list Z).
Hypothesis Hs : StronglySorted Z.lt ords.

Lemma tiles_last p ranges : tiles ords p ranges -> p <= last_end p ranges.
Proof.
  revert p. induction ranges as [|[s e] rest IH]; intros p H; [cbn; lia|]. rewrite last_end_cons. destruct H as (Hn & Hse & _ & H).
  pose proof (next_present_spec ords p Hs) as Hp. rewrite Hn in Hp. specialize (IH e H). lia.
Qed.

(** Every present message after [p] and up to the last end lies in exactly one range's bounds, and no other does. *)
Lemma tiles_cover p ranges o :
  tiles ords p ranges -> o ∈ ords -> p < o -> (o <= last_end p ranges <-> exists r, r ∈ ranges /\ r.1 <= o <= r.2).
Proof.
  revert p. induction ranges as [|[s e] rest IH]; intros p H Ho Hp.
  { cbn. split; [lia | intros (? & ?%elem_of_nil & _); done]. }
  rewrite last_end_cons. destruct H as (Hn & Hse & He & H). pose proof (next_present_spec ords p Hs) as Hspec. rewrite Hn in Hspec. destruct Hspec as (_ & Hps & Hmin).
  pose proof (Hmin o Ho Hp). pose proof (tiles_last e rest H). destruct (Z.le_gt_cases o e) as [Hoe|Hoe].
  - split; [|lia]. intros _. exists (s, e). split; [set_solver | done].
  - rewrite (IH e H Ho Hoe). split; intros (r & Hr & Hb).
    + exists r. split; [set_solver | done].
    + apply elem_of_cons in Hr as [-> | Hr]; [cbn in Hb; lia | by exists r].
Qed.

Lemma tiles_stored p ranges :
  tiles ords p ranges -> stored_loop p ((fun r => mkStored r.1 r.2) <$> ranges) = None.
Proof.
  revert p. induction ranges as [|[s e] rest IH]; intros p H; [done|]. destruct H as (Hn & Hse & _ & H).
  pose proof (next_present_spec ords p Hs) as Hspec. rewrite Hn in Hspec. cbn [fmap list_fmap stored_loop st_start st_end fst snd].
  rewrite (proj2 (Z.ltb_ge _ _)), (proj2 (Z.leb_gt _ _)) by lia. by apply IH.
Qed.
End Tiles.

Definition prange (s : ParsedHistorySegment) : Z * Z := (ps_start s, ps_end s).
Definition vrange (s : ValidatedHistorySegment) : Z * Z := (vs_start s, vs_end s).

Lemma head_next l p : (forall x, x ∈ l -> p < x) -> head l = next_present_after l p.
Proof. destruct l as [|x l]; intros H; [done|]. cbn. by rewrite (proj2 (Z.ltb_lt _ _)) by (apply H; set_solver). Qed.

Lemma ranges_loop_tiles first last ords index p segments out :
  ranges_loop first last ords index (next_present_after ords p) segments = inl out ->
  tiles ords p (prange <$> segments) /\ out = next_present_after ords (last_end p (prange <$> segments))
  /\ Forall (fun s => first <= ps_start s /\ ps_end s <= last /\ has_tiers s = true /\ ps_episode_type s <> Some ARCHIVE_EPISODE_TYPE) segments.
Proof.
  revert index p. induction segments as [|s rest IH]; intros index p; cbn [ranges_loop]; [intros [= <-]; by split; [|split; [|constructor]]|].
  destruct (has_tiers s) eqn:Et; [|done]. cbn [negb]. destruct (Z.ltb_spec (ps_end s) (ps_start s)); [done|]. case_bool_decide as Ea; [done|].
  destruct ((ps_start s <? first) || (last <? ps_end s)) eqn:Eo; [done|]. apply orb_false_iff in Eo as [?%Z.ltb_ge ?%Z.ltb_ge].
  case_bool_decide as E1; [|done]. case_bool_decide as E2; [|done]. cbn [negb]. destruct (next_present_after ords p) as [expected|] eqn:En; [|done].
  destruct (Z.eqb_spec (ps_start s) expected) as [<- | ?]; [|by destruct (_ <? _)]. cbn [negb]. intros Hr. apply IH in Hr as (Ht & -> & Hf).
  cbn [fmap list_fmap]. split; [|split; [|by constructor]].
  - cbn. done.
  - unfold prange at 2. by rewrite last_end_cons.
Qed.

(** ** Segments name their raw messages *)

(** A segment's endpoints are lines of the chunk, the last one anchorable. *)
Definition anchored (c : HistorySummarizerChunk) (s : ValidatedHistorySegment) : Prop :=
  (exists l, l ∈ lines c /\ ln_ordinal l = vs_start s /\ ln_message_id l = vs_start_message_id s)
  /\ (exists l, l ∈ lines c /\ ln_ordinal l = vs_end s /\ ln_message_id l = vs_end_message_id s /\ anchorable l = true)
  /\ vs_end_message_id s <> EmptyString.

Lemma find_line_spec c o l : find_line c o = Some l -> l ∈ lines c /\ ln_ordinal l = o.
Proof. unfold find_line. intros [Hin He%Z.eqb_eq]%List.find_some. split; [by apply list_elem_of_In | done]. Qed.

Lemma map_parsed_spec c segments : forall sequence mapped,
  map_parsed_history_segments_to_chunk c sequence segments = Ok mapped ->
  vrange <$> mapped = prange <$> segments /\ Forall (anchored c) mapped
  /\ (forall i s, mapped !! i = Some s -> vs_sequence s = sequence + Z.of_nat i /\ vs_claims s = []).
Proof.
  induction segments as [|s rest IH]; intros sequence mapped; cbn [map_parsed_history_segments_to_chunk]; [intros [= <-]; split; [done|]; split; [constructor | intros i s; by rewrite lookup_nil]|].
  destruct (find_line c (ps_start s)) as [sl|] eqn:Es; [|done]. destruct (find_line c (ps_end s)) as [el|] eqn:Ee; [|done].
  destruct (anchorable el) eqn:Ea; [|done]. case_bool_decide as Ei; [done|]. cbn [negb orb].
  destruct (map_parsed_history_segments_to_chunk c (sequence + 1) rest) as [m|] eqn:Em; [|done]. cbn [mbind result_bind]. intros [= <-].
  apply IH in Em as (Hr & Hf & Hq). apply find_line_spec in Es as [? ?], Ee as [? ?]. split; [cbn; by rewrite Hr|]. split.
  - constructor; [|done]. split; [by exists sl|]. split; [by exists el | done].
  - intros [|i] x; cbn; [intros [= <-]; split; [cbn; lia | done]|]. intros Hx%Hq. split; [lia | tauto].
Qed.

(** ** What is left after the provisional last segment *)
Lemma discard_prefix c options segments :
  (fun d => exists l, segments = d.1 ++ l) (discard_last c options segments).
Proof.
  unfold discard_last. destruct (negb (in_emergency options) && negb (force_keep_last_history_segment options) && (2 <=? length segments)%nat); [|by exists []; rewrite app_nil_r]. destruct (_ && _); [|by exists []; rewrite app_nil_r].
  exists (drop (length segments - 1) segments). cbn. by rewrite take_drop.
Qed.

Lemma splits_none boundary arcs :
  boundary_splits_completed_tool_arc boundary arcs = false <-> forall a, a ∈ arcs -> ~ (r_start a < boundary <= r_end a).
Proof.
  unfold boundary_splits_completed_tool_arc, Boundary.completed_tool_arc_crosses_boundary. induction arcs as [|a arcs IH]; [split; [set_solver | done]|].
  cbn [existsb]. rewrite orb_false_iff, IH, andb_false_iff, Z.ltb_ge, Z.leb_gt. split.
  - intros [H1 H2] x [-> | Hx]%elem_of_cons; [lia | by apply H2].
  - intros H. split; [specialize (H a ltac:(set_solver)); lia | intros x Hx; apply H; set_solver].
Qed.

(** Neither keeping nor withholding the last segment leaves a completed arc open. *)
Lemma discard_arcs c options segments s :
  (forall s, list.last segments = Some s -> boundary_splits_completed_tool_arc (saturating_succ (vs_end s)) (completed_tool_arcs c) = false) ->
  list.last (discard_last c options segments).1 = Some s ->
  boundary_splits_completed_tool_arc (saturating_succ (vs_end s)) (completed_tool_arcs c) = false.
Proof.
  intros Hall. unfold discard_last. destruct (negb (in_emergency options) && negb (force_keep_last_history_segment options) && (2 <=? length segments)%nat) eqn:E; [|by apply Hall].
  apply andb_true_iff in E as [_ Hlen%Nat.leb_le]. destruct (_ && _) eqn:E2; [|by apply Hall]. apply andb_true_iff in E2 as [_ Hp%negb_true_iff]. cbn [fst].
  rewrite last_lookup, length_take_le by lia. intros Hs. rewrite lookup_take_lt in Hs by lia.
  replace (pred (length segments - 1)) with (length segments - 2)%nat in Hs by lia. rewrite Hs in Hp. done.
Qed.

(** Attaching claims changes nothing else, and each claim lies in its segment. *)
Lemma attach_spec c parsed segments i s' :
  (attach_claims c parsed segments).1 !! i = Some s' ->
  exists s, segments !! i = Some s /\ s' = with_claims s (vs_claims s')
    /\ (vs_claims s = [] -> forall claim, claim ∈ vs_claims s' -> vs_start s <= cl_ordinal claim <= vs_end s).
Proof.
  assert (Hid : forall s, s = with_claims s (vs_claims s)) by by intros []. unfold attach_claims.
  destruct (claims_block_present parsed); [|intros H; exists s'; split; [done|]; split; [done | intros ->; set_solver]].
  destruct (claims_syntax_failure parsed); [intros H; exists s'; split; [done|]; split; [done | intros ->; set_solver]|].
  destruct (check_claim_set _ _ _) as [claims outcome] eqn:Ec. cbn [fst]. intros (s & cl & -> & Hs & Hcl)%lookup_zip_with_Some.
  exists s. split; [done|]. split; [done|]. cbn. intros _ claim Hin.
  destruct (check_claims_grounded (po_claims parsed) (aliases c) (claim_ranges segments) i cl claim) as (cand & _ & Hg); [by rewrite Ec | done|].
  destruct Hg as (_ & _ & _ & _ & _ & range & p1 & Hr & Hb & _). unfold claim_ranges in Hr. rewrite list_lookup_fmap, Hs in Hr. cbn in Hr. by simplify_eq.
Qed.

Lemma length_attach c parsed segments : length (attach_claims c parsed segments).1 = length segments.
Proof.
  unfold attach_claims. destruct (claims_block_present parsed); [|done]. destruct (claims_syntax_failure parsed); [done|].
  pose proof (length_check_claims (po_claims parsed) (aliases c) (claim_ranges segments)) as H.
  destruct (check_claim_set _ _ _) as [claims outcome]. cbn [fst] in *. unfold claim_ranges in H. rewrite length_fmap in H.
  rewrite length_zip_with. lia.
Qed.

Lemma attach_vrange c parsed segments : vrange <$> (attach_claims c parsed segments).1 = vrange <$> segments.
Proof.
  apply list_eq. intros i. rewrite !list_lookup_fmap. destruct ((attach_claims c parsed segments).1 !! i) as [s'|] eqn:E.
  - apply attach_spec in E as (s & -> & -> & _). done.
  - apply lookup_ge_None_1 in E. rewrite length_attach in E. by rewrite (lookup_ge_None_2 segments).
Qed.

(** ** From the model's output to the store *)
Lemma length_heal_gaps tool_only present segments : length (heal_history_segment_gaps tool_only present segments) = length segments.
Proof. induction segments as [|s [|n rest] IH]; [done | done|]. cbn in *. by rewrite IH. Qed.

Lemma length_healed c parsed : length (healed c parsed).1 = length (po_history_segments parsed).
Proof.
  unfold healed. set (l := heal_history_segment_gaps _ _ _). assert (length l = length (po_history_segments parsed)) as <- by apply length_heal_gaps.
  unfold heal_terminal_completed_tool_arc. destruct (list.last l) as [s|] eqn:E; [|done]. cbn [fst]. rewrite length_app, length_take. cbn.
  destruct l; [done | cbn; lia].
Qed.

(** The present messages of the chunk's range. *)
Definition chunk_ordinals (c : HistorySummarizerChunk) : list Z := within (start_index c) (end_index c) (chunk_present_ordinals c).

Section Sound.
Context (c : HistorySummarizerChunk).
Hypothesis Hok : ordinals_ok c.
Hypothesis Hcov : validate_chunk_coverage c = None.

Lemma chunk_ordinals_sorted : StronglySorted Z.lt (chunk_ordinals c).
Proof. unfold chunk_ordinals, within. apply sorted_filter. by apply coverage_exact. Qed.

Lemma chunk_ordinals_elem o : o ∈ chunk_ordinals c <-> start_index c <= o <= end_index c /\ o ∈ chunk_present_ordinals c.
Proof. unfold chunk_ordinals, within. by rewrite list_elem_of_filter. Qed.

Definition tiles_chunk (segments : list ValidatedHistorySegment) : Prop :=
  tiles (chunk_ordinals c) (start_index c - 1) (vrange <$> segments).

Lemma emitted_spec options parsed emitted :
  emitted_segments c options parsed = Ok emitted ->
  length emitted = length (po_history_segments parsed) /\ tiles_chunk emitted /\ Forall (anchored c) emitted
  /\ (forall i s, emitted !! i = Some s -> vs_sequence s = sequence_offset options + Z.of_nat i /\ vs_claims s = [])
  /\ Forall (fun s => start_index c <= vs_start s /\ vs_end s <= end_index c) emitted
  /\ (forall s, list.last emitted = Some s -> boundary_splits_completed_tool_arc (saturating_succ (vs_end s)) (completed_tool_arcs c) = false).
Proof.
  unfold emitted_segments. pose proof (length_healed c parsed) as Hlen. destruct (healed c parsed) as [segments unprocessed]. cbn [fst] in Hlen.
  destruct (map_parsed_history_segments_to_chunk _ _ _) as [m|] eqn:Em; [|done]. cbn [map_err mbind result_bind].
  destruct (validate_parsed_history_segments _ _ _ _ _) eqn:Ev; [done|]. destruct (match list.last segments with Some _ => _ | None => _ end) eqn:El; [done|]. intros [= <-].
  apply map_parsed_spec in Em as (Hr & Ha & Hq). unfold validate_parsed_history_segments in Ev. fold (chunk_ordinals c) in Ev.
  rewrite (head_next _ (start_index c - 1)) in Ev by (intros x Hx%chunk_ordinals_elem; lia).
  destruct (ranges_loop _ _ _ _ _ _) as [out|] eqn:Er; [|done]. apply ranges_loop_tiles in Er as (Ht & _ & Hf). rewrite <- Hr in Ht.
  assert (length m = length segments) as Hml by (apply (f_equal length) in Hr; by rewrite !length_fmap in Hr).
  assert (Hlook : forall i s, m !! i = Some s -> exists x, segments !! i = Some x /\ vrange s = prange x).
  { intros i s Hs. pose proof (f_equal (fun l => l !! i) Hr) as E. cbn in E. rewrite !list_lookup_fmap, Hs in E. cbn in E.
    destruct (segments !! i) as [x|]; [|done]. exists x. cbn in E. by simplify_eq. }
  split; [lia|]. split; [done|]. split; [done|]. split; [done|]. split.
  - apply Forall_lookup. intros i s (x & Hx & E)%Hlook. rewrite Forall_lookup in Hf. specialize (Hf i x Hx). injection E as E1 E2. rewrite E1, E2. tauto.
  - intros s. rewrite last_lookup. intros (x & Hx & E)%Hlook. rewrite Hml in Hx. rewrite <- last_lookup in Hx. rewrite Hx in El. injection E as E1 E2. by rewrite E2.
Qed.

Lemma tiles_chunk_prefix l1 l2 : tiles_chunk (l1 ++ l2) -> tiles_chunk l1.
Proof. unfold tiles_chunk. rewrite fmap_app. apply tiles_app. Qed.

Lemma last_end_vrange p segments : last_end p (vrange <$> segments) = default p (vs_end <$> list.last segments).
Proof. unfold last_end. rewrite fmap_last. by destruct (list.last segments). Qed.

(** The last end of segments that tile the chunk is inside it. *)
Lemma tiles_chunk_last segments s : tiles_chunk segments -> list.last segments = Some s -> start_index c - 1 < vs_end s /\ vs_end s ∈ chunk_ordinals c.
Proof.
  intros Ht Hs. destruct segments as [|x segments _] using rev_ind; [done|]. rewrite last_snoc in Hs. injection Hs as <-.
  unfold tiles_chunk in Ht. rewrite fmap_app in Ht. clear -Ht Hok Hcov. generalize dependent (start_index c - 1). intros p Ht.
  assert (forall l p, tiles (chunk_ordinals c) p (l ++ [vrange x]) -> p < vs_end x /\ vs_end x ∈ chunk_ordinals c) as H; [|by eapply H].
  clear Ht p. induction l as [|[a b] l IH]; intros p Ht; cbn in Ht; destruct Ht as (Hn & Hse & He & Ht);
    pose proof (next_present_spec _ p chunk_ordinals_sorted) as Hp; rewrite Hn in Hp.
  - split; [lia | done].
  - destruct (IH b Ht). split; [lia | done].
Qed.

Definition covered (segments : list ValidatedHistorySegment) (o : Z) : Prop := exists s, s ∈ segments /\ vs_start s <= o <= vs_end s.

(** Segments that tile the chunk cover exactly the present messages before the end of the last one. *)
Lemma tiles_chunk_cover segments s o :
  tiles_chunk segments -> Forall (fun s => start_index c <= vs_start s /\ vs_end s <= end_index c) segments -> list.last segments = Some s ->
  o ∈ chunk_present_ordinals c -> start_index c <= o -> (o <= vs_end s <-> covered segments o).
Proof.
  intros Ht Hb Hs Ho Hge. destruct (tiles_chunk_last segments s Ht Hs) as [_ [He _]%chunk_ordinals_elem].
  assert (covered segments o <-> exists r, r ∈ vrange <$> segments /\ r.1 <= o <= r.2) as Hiff.
  { split; [intros (x & Hx & Hb'); exists (vrange x); split; [by apply list_elem_of_fmap_2 | done]|].
    intros (r & (x & -> & Hx)%list_elem_of_fmap & Hb'). by exists x. }
  destruct (Z.le_gt_cases o (end_index c)) as [Hle|Hgt].
  - rewrite Hiff, <- (tiles_cover _ chunk_ordinals_sorted (start_index c - 1)); [|done | apply chunk_ordinals_elem; split; [lia | done] | lia].
    by rewrite last_end_vrange, Hs.
  - split; [lia|]. intros (x & Hx & Hb'). rewrite Forall_forall in Hb. specialize (Hb x Hx). lia.
Qed.
End Sound.

(** ** Storing after what is stored *)
Definition stored_of (s : ValidatedHistorySegment) : StoredHistorySegmentRange := mkStored (vs_start s) (vs_end s).

Lemma stored_loop_weaken p p' l : p' <= p -> stored_loop p l = None -> stored_loop p' l = None.
Proof.
  destruct l as [|s l]; intros Hp; cbn; [done|]. destruct (st_end s <? st_start s); [done|]. destruct (Z.leb_spec (st_start s) p); [done|].
  by rewrite (proj2 (Z.leb_gt _ _)) by lia.
Qed.

Lemma stored_app prior l p :
  validate_stored_history_segments prior = None -> stored_loop p l = None ->
  match list.last prior with Some s => st_end s <= p | None => True end -> validate_stored_history_segments (prior ++ l) = None.
Proof.
  intros Hp Hl Hlast. assert (forall x q, stored_loop q x = None -> (match list.last x with Some s => st_end s | None => q end) <= p -> stored_loop q (x ++ l) = None) as H.
  { induction x as [|s x IH]; intros q Hx Hq; [by eapply stored_loop_weaken|]. cbn [stored_loop app] in *. destruct (st_end s <? st_start s); [done|].
    destruct (st_start s <=? q); [done|]. apply IH; [done|]. destruct x as [|y x]; [done|]. rewrite list.last_cons_cons in Hq.
    destruct (list.last (y :: x)) eqn:E; [done | by apply list.last_None in E]. }
  destruct prior as [|s prior].
  - destruct l as [|s l]; [done|]. cbn in *. destruct (st_end s <? st_start s); [done|]. destruct (Z.leb_spec (st_start s) p); [done|]. done.
  - cbn [validate_stored_history_segments app] in *. destruct (st_end s <? st_start s); [done|]. apply H; [done|].
    destruct prior as [|y prior]; [done|]. rewrite list.last_cons_cons in Hlast. destruct (list.last (y :: prior)) eqn:E; [done | by apply list.last_None in E].
Qed.

Lemma publish_spec c options parsed prior_end emitted v :
  publish c options parsed prior_end emitted = Ok v ->
  let kept := (discard_last c options emitted).1 in
  vc_history_segments v = (attach_claims c parsed kept).1
  /\ vc_unprocessed_from v = saturating_succ (default 0 (vs_end <$> list.last kept))
  /\ vc_facts v = (extract_facts c options parsed kept).2 /\ discarded_last v = (discard_last c options emitted).2.
Proof.
  unfold publish. destruct (discard_last c options emitted) as [kept discarded]. cbn [fst snd]. destruct (_ <? _); [done|].
  destruct (extract_facts c options parsed kept) as [extraction facts]. destruct (attach_claims c parsed kept) as [segments outcome].
  intros [= <-]. by repeat split.
Qed.

Lemma discard_nonempty c options segments : segments <> [] -> (discard_last c options segments).1 <> [].
Proof.
  intros Hne. unfold discard_last. destruct (negb (in_emergency options) && negb (force_keep_last_history_segment options) && (2 <=? length segments)%nat) eqn:E; [|done].
  apply andb_true_iff in E as [_ Hlen%Nat.leb_le]. destruct (_ && _); [|done]. cbn. intros H%(f_equal length). rewrite length_take in H. cbn in H. lia.
Qed.

Lemma citable_vrange l : citable l = match head (vrange <$> l), list.last (vrange <$> l) with Some f, Some e => Some (f.1, e.2) | _, _ => None end.
Proof. unfold citable. rewrite fmap_last. destruct l as [|x l]; [done|]. cbn [head fmap list_fmap]. by destruct (list.last (x :: l)). Qed.

Lemma facts_grounded c options parsed segments : Forall (fact_ok (aliases c) (citable segments)) (extract_facts c options parsed segments).2.
Proof.
  unfold extract_facts. destruct (memory_enabled options); [|constructor]. destruct (fact_syntax_failure parsed); [constructor|].
  destruct (po_facts parsed) as [|f facts] eqn:E; [by destruct (facts_block_present parsed); constructor|]. rewrite <- E.
  destruct (check_fact_set _ _ _) as [[]|] eqn:Ec; [|constructor]. by apply facts_exact in Ec as [_ ?].
Qed.

Lemma validate_inv parse text c prior options v :
  validate_history_summarizer_output parse text c prior options = Ok v ->
  validate_chunk_coverage c = None /\ validate_stored_history_segments prior = None /\ check_prior c prior = None
  /\ exists parsed emitted, po_history_segments parsed <> [] /\ emitted_segments c options parsed = Ok emitted
       /\ publish c options parsed (st_end <$> list.last prior) emitted = Ok v.
Proof.
  unfold validate_history_summarizer_output. destruct (validate_chunk_coverage c); [done|]. destruct (validate_stored_history_segments prior); [done|].
  destruct (check_prior c prior); [done|]. destruct (parse text) as [parsed|]; [|done]. cbn [ok_or mbind result_bind].
  destruct (po_history_segments parsed) as [|s l] eqn:Ep; [done|]. destruct (emitted_segments c options parsed) as [emitted|] eqn:Ee; [|done].
  cbn [mbind result_bind]. intros H. split; [done|]. split; [done|]. split; [done|]. exists parsed, emitted. split; [by rewrite Ep | done].
Qed.

(** The chunk follows the stored segments without leaving a present message out. *)
Lemma check_prior_spec c prior p :
  StronglySorted Z.lt (chunk_present_ordinals c) -> check_prior c prior = None -> list.last prior = Some p ->
  st_end p < start_index c /\ forall o, o ∈ chunk_present_ordinals c -> st_end p < o -> start_index c <= o.
Proof.
  unfold check_prior. intros Hs H Hp. rewrite Hp in H. destruct (Z.leb_spec (start_index c) (st_end p)); [done|]. split; [done|].
  pose proof (next_present_spec _ (st_end p) Hs) as Hn. destruct (next_present_after _ _) as [e|].
  - destruct (Z.eqb_spec (start_index c) e) as [-> | ?]; [|done]. intros o Ho Hlt. by apply Hn.
  - intros o Ho Hlt. specialize (Hn o Ho). lia.
Qed.

Section Published.
Context (c : HistorySummarizerChunk) (options : ValidateOptions) (parsed : ParsedHistorySegmentOutput).
Context (emitted : list ValidatedHistorySegment).
Hypothesis Hok : ordinals_ok c.
Hypothesis Hcov : validate_chunk_coverage c = None.
Hypothesis Hem : emitted_segments c options parsed = Ok emitted.
Hypothesis Hne : po_history_segments parsed <> [].

Let kept := (discard_last c options emitted).1.

Lemma kept_spec :
  kept <> [] /\ tiles_chunk c kept /\ Forall (anchored c) kept
  /\ (forall i s, kept !! i = Some s -> vs_sequence s = sequence_offset options + Z.of_nat i /\ vs_claims s = [])
  /\ Forall (fun s => start_index c <= vs_start s /\ vs_end s <= end_index c) kept
  /\ (forall s, list.last kept = Some s -> boundary_splits_completed_tool_arc (saturating_succ (vs_end s)) (completed_tool_arcs c) = false).
Proof.
  destruct (emitted_spec c options parsed emitted Hem) as (Hlen & Ht & Ha & Hq & Hb & Hl). destruct (discard_prefix c options emitted) as [l El].
  fold kept in El. split.
  { apply discard_nonempty. intros E. rewrite E in Hlen. by destruct (po_history_segments parsed). }
  rewrite El in Ht, Ha, Hb. apply tiles_chunk_prefix in Ht. apply Forall_app in Ha as [Ha _], Hb as [Hb _].
  split; [done|]. split; [done|]. split; [|split; [done|]].
  - intros i s Hs. apply Hq. rewrite El. by apply lookup_app_l_Some.
  - intros s. by apply discard_arcs.
Qed.

Let segments := (attach_claims c parsed kept).1.

Lemma segment_of_kept i s : segments !! i = Some s -> exists k, kept !! i = Some k /\ s = with_claims k (vs_claims s)
  /\ forall claim, claim ∈ vs_claims s -> vs_start s <= cl_ordinal claim <= vs_end s.
Proof.
  intros (k & Hk & E & Hc)%attach_spec. destruct kept_spec as (_ & _ & _ & Hq & _). exists k. split; [done|]. split; [done|].
  assert (vs_start s = vs_start k /\ vs_end s = vs_end k) as [-> ->] by by rewrite E. apply Hc. by apply (Hq i).
Qed.

Lemma segments_tile : tiles_chunk c segments.
Proof. unfold tiles_chunk, segments. rewrite attach_vrange. by apply kept_spec. Qed.

Lemma segments_last s : list.last segments = Some s -> exists k, list.last kept = Some k /\ vs_end s = vs_end k.
Proof.
  rewrite !last_lookup. assert (length segments = length kept) as -> by apply length_attach. intros (k & Hk & E & _)%segment_of_kept. exists k. split; [done|]. by rewrite E.
Qed.

Lemma segments_anchored : Forall (anchored c) segments.
Proof.
  apply Forall_lookup. intros i s (k & Hk & E & _)%segment_of_kept. destruct kept_spec as (_ & _ & Ha & _). rewrite Forall_lookup in Ha.
  rewrite E. exact (Ha i k Hk).
Qed.

Lemma segments_bounds : Forall (fun s => start_index c <= vs_start s /\ vs_end s <= end_index c) segments.
Proof.
  apply Forall_lookup. intros i s (k & Hk & E & _)%segment_of_kept. destruct kept_spec as (_ & _ & _ & _ & Hb & _). rewrite Forall_lookup in Hb.
  rewrite E. exact (Hb i k Hk).
Qed.

Lemma segments_end : exists s k, list.last segments = Some s /\ list.last kept = Some k /\ vs_end s = vs_end k
  /\ saturating_succ (vs_end k) = vs_end s + 1.
Proof.
  destruct kept_spec as (Hk & _). assert (segments <> []) as Hs.
  { intros E. apply Hk. apply length_zero_iff_nil. rewrite <- (length_attach c parsed). fold segments. by rewrite E. }
  destruct (list.last segments) as [s|] eqn:El; [|by apply list.last_None in El]. destruct (segments_last s El) as (k & Hl & Ee).
  exists s, k. split; [done|]. split; [done|]. split; [done|]. destruct (tiles_chunk_last c Hok Hcov segments s segments_tile El) as [_ Hin].
  apply chunk_ordinals_elem in Hin as [Hin _]. destruct Hok as (_ & _ & He). unfold saturating_succ. lia.
Qed.
End Published.

(** ** Closing the last completed arc *)
Definition ends_after (arcs : list MessageRange) (e : Z) : nat := length (filter (fun a => e < r_end a) arcs).

Lemma ends_after_lt arcs e a : a ∈ arcs -> e < r_end a -> (ends_after arcs (r_end a) < ends_after arcs e)%nat.
Proof.
  assert (Hle : forall l x y, x <= y -> (ends_after l y <= ends_after l x)%nat).
  { intros l x y Hxy. unfold ends_after. induction l as [|b l IH]; [done|]. rewrite !list.filter_cons. repeat case_decide; cbn; lia. }
  intros Ha He. induction arcs as [|b arcs IH]; [set_solver|]. pose proof (Hle arcs e (r_end a) ltac:(lia)). unfold ends_after in *.
  rewrite !list.filter_cons. apply elem_of_cons in Ha as [-> | Ha]; [|specialize (IH Ha)]; repeat case_decide; cbn; lia.
Qed.

(** One round per arc and one more reach an end that splits no arc of the chunk. *)
Lemma terminal_loop_closes n arcs chunk_end e :
  chunk_end < u64_MAX -> 0 <= e < u64_MAX -> (ends_after arcs e < n)%nat ->
  let e' := terminal_loop n arcs chunk_end e in
  e <= e' /\ forall a, a ∈ arcs -> r_end a <= chunk_end -> ~ (r_start a < saturating_succ e' <= r_end a).
Proof.
  intros Hc. revert e. induction n as [|n IH]; intros e He Hn; [lia|]. cbn [terminal_loop]. cbv zeta. unfold arc_end_after.
  set (l := r_end <$> _). pose proof (BoundaryProofs.z_max_spec l) as Hm. destruct (Boundary.z_max l) as [x|] eqn:Ex.
  - destruct Hm as [Hin Hmax]. apply list_elem_of_fmap in Hin as (a & -> & Ha). apply list_elem_of_filter in Ha as [[Hle Hx%BoundaryProofs.crosses_iff] Ha].
    unfold saturating_succ in Hx. change (default e (Some (r_end a))) with (r_end a). rewrite (proj2 (Z.eqb_neq (r_end a) e)) by lia.
    pose proof (ends_after_lt arcs e a Ha ltac:(lia)). destruct (IH (r_end a)) as [H1 H2]; [lia | lia|]. split; [lia | done].
  - change (default e None) with e. rewrite Z.eqb_refl. split; [lia|]. intros a Ha Hle Hx.
    assert (r_end a ∈ l) as Hin; [|rewrite Hm in Hin; set_solver]. apply list_elem_of_fmap_2, list_elem_of_filter. by rewrite BoundaryProofs.crosses_iff.
Qed.

(** C16: what validation accepts extends the stored history soundly. The new segments follow the stored
    ones in order and overlap nothing; together they cover every raw message present in the chunk before
    the published floor exactly, and none after it, and no message between the stored history and the
    chunk is skipped; every segment starts and ends on a raw message of the chunk, its end on one that
    can anchor a boundary; sequence numbers are consecutive; the floor is right after the last segment and
    splits no completed tool call; and every accepted claim and fact cites messages inside them. *)
Theorem validated_history_sound (parse : string -> option ParsedHistorySegmentOutput) (text : string) (c : HistorySummarizerChunk)
    (prior : list StoredHistorySegmentRange) (options : ValidateOptions) (v : ValidatedChunk) :
  ordinals_ok c -> validate_history_summarizer_output parse text c prior options = Ok v ->
  let segments := vc_history_segments v in
  (exists s, list.last segments = Some s /\ vc_unprocessed_from v = vs_end s + 1)
  /\ validate_stored_history_segments (prior ++ (stored_of <$> segments)) = None
  /\ (forall o, o ∈ chunk_present_ordinals c -> start_index c <= o -> (o < vc_unprocessed_from v <-> covered segments o))
  /\ (forall p o, list.last prior = Some p -> o ∈ chunk_present_ordinals c -> st_end p < o < vc_unprocessed_from v -> covered segments o)
  /\ Forall (anchored c) segments
  /\ (forall i s, segments !! i = Some s -> vs_sequence s = sequence_offset options + Z.of_nat i
        /\ forall claim, claim ∈ vs_claims s -> vs_start s <= cl_ordinal claim <= vs_end s)
  /\ (forall a, a ∈ completed_tool_arcs c -> ~ (r_start a < vc_unprocessed_from v <= r_end a))
  /\ Forall (fact_ok (aliases c) (citable segments)) (vc_facts v).
Proof.
  intros Hok H. apply validate_inv in H as (Hcov & Hst & Hpr & parsed & emitted & Hne & Hem & Hpub).
  apply publish_spec in Hpub as (Es & Eu & Ef & _). cbv zeta. rewrite Es, Eu, Ef. destruct (coverage_exact c Hok Hcov) as [Hsort _].
  pose proof (segments_end c options parsed emitted Hok Hcov Hem Hne) as (s & k & Hs & Hk & Ee & Esucc).
  pose proof (segments_tile c options parsed emitted Hem Hne) as Ht. pose proof (segments_bounds c options parsed emitted Hem Hne) as Hb.
  rewrite Hk. change (default 0 (vs_end <$> Some k)) with (vs_end k). rewrite Esucc.
  assert (Hcover : forall o, o ∈ chunk_present_ordinals c -> start_index c <= o -> (o < vs_end s + 1 <-> covered (attach_claims c parsed (discard_last c options emitted).1).1 o)).
  { intros o Ho Hge. rewrite <- (tiles_chunk_cover c Hok Hcov _ s o Ht Hb Hs Ho Hge). lia. }
  split; [by exists s|]. split.
  { pose proof (tiles_stored _ (chunk_ordinals_sorted c Hok Hcov) _ _ Ht) as Hl. rewrite <- list_fmap_compose in Hl.
    apply (stored_app prior _ _ Hst Hl). destruct (list.last prior) as [p|] eqn:Ep; [|done].
    destruct (check_prior_spec c prior p Hsort Hpr Ep). lia. }
  split; [exact Hcover|]. split.
  { intros p o Hp Ho Hlt. destruct (check_prior_spec c prior p Hsort Hpr Hp) as [_ Hnext]. apply Hcover; [done | apply Hnext; [done | lia] | lia]. }
  split; [by apply segments_anchored|]. split.
  { intros i x Hx. destruct (segment_of_kept c options parsed emitted Hem Hne i x Hx) as (y & Hy & E & Hcl).
    destruct (kept_spec c options parsed emitted Hem Hne) as (_ & _ & _ & Hq & _). split; [rewrite E; exact (proj1 (Hq i y Hy)) | done]. }
  split.
  { rewrite <- Esucc. apply splits_none. by apply (kept_spec c options parsed emitted Hem Hne). }
  rewrite citable_vrange, attach_vrange, <- citable_vrange. apply facts_grounded.
Qed.
(** Five messages after a stored one; a gap of tool results is healed, the provisional last segment withheld. *)
Definition sample_chunk : HistorySummarizerChunk :=
  mkChunk 1 5 [mkLine 1 "m1" true; mkLine 2 "m2" true; mkLine 3 "m3" true; mkLine 4 "m4" true; mkLine 5 "m5" true]
    [mkAlias "s1" "m1" 1 [] [] "use tabs" false] [] [mkRange 3 3] [mkRange 2 3].
Definition sample_segment (s e : Z) : ParsedHistorySegment := mkSegment s e "t" "c" (Some "settled on tabs") None None None None None.
Definition sample_output : ParsedHistorySegmentOutput :=
  mkParsed [sample_segment 1 2; sample_segment 4 5] [mkFact "style" "tabs" [mkCitation "s1" 0 8]] true None [] None [] []
    [mkCandidate "style.indent" "[s1:0-8]" (Some "tabs") (Some "tabs")] true None.
Definition sample_options : ValidateOptions := mkOptions 7 false true true true false.
Definition sample_validated : ValidatedChunk :=
  mkValidatedChunk
    [mkValidated 7 1 3 "m1" "m3" "t" "c" (Some "settled on tabs") None None None None None [mkClaim "style.indent" "tabs" 1 (Some "tabs")]]
    [mkFact "style" "tabs" [mkCitation "s1" 0 8]] (Accepted 1) (ClaimsAccepted 1 0 0) [] [] [] 4 true.

Lemma validated_history_sound_witness :
  covered (vc_history_segments sample_validated) 3 /\ validate_stored_history_segments ([mkStored 0 0] ++ (stored_of <$> vc_history_segments sample_validated)) = None.
Proof.
  assert (ordinals_ok sample_chunk) as Hok.
  { unfold ordinals_ok, u64_MAX. split; [|cbn; lia]. cbn. repeat (apply list.Forall_cons; split; [lia|]). constructor. }
  destruct (validated_history_sound (fun _ => Some sample_output) EmptyString sample_chunk [mkStored 0 0] sample_options sample_validated Hok)
    as (_ & Hst & Hcover & _); [vm_compute; reflexivity|]. split; [|exact Hst].
  apply Hcover; cbn; [set_solver | lia | lia].
Defined.
End SummaryValidate.
