(* ===== verification/SummaryText.v ===== *)
(** * SummaryText: what a message shows the summarizer (daemon/src/history_summarizer_chunk.rs, chunk_text.rs, tool_outcome.rs)

    The text and tool parts of a flat message, the pairing of tool results with calls, the one-line
    summaries and digests, and the decision whether a message is noise, tool work or text. Cleaning user
    text, finding commit hashes and rewriting around them use regular expressions and are arguments; a
    tool result carries the outcome half of its digest. Strings are their UTF-8 bytes. *)
From S2P Require Import Prelude.
From S2P Require Import BTree.
From S2P Require Import CanonicalJson.
From S2P Require Import Payload.
From S2P Require Import Selection.
From S2P Require Import Trigger.
From S2P Require Import Citations.
From Stdlib Require Import Ascii String.
From stdpp Require Import strings gmap sets.

#[local] Open Scope Z_scope.

Module SummaryText.
Import CanonicalJson.

(** ** Blocks and messages *)
Inductive MediaKind := Image | Audio | Video | File | Document.
Record MediaBlock := mkMedia { media_kind : MediaKind; media_type : string; media_filename : option string }.

Inductive BlockKind :=
| Text (text : string)
| Reasoning
| RedactedReasoning
| ToolCall (name : string) (input : Value)
| ToolResult (tool_name outcome : string)
| Media (media : MediaBlock)
| Opaque.

Definition tag (kind : BlockKind) : string :=
  match kind with
  | Text _ => "text"
  | Reasoning => "reasoning"
  | RedactedReasoning => "redacted_reasoning"
  | ToolCall _ _ => "tool_call"
  | ToolResult _ _ => "tool_result"
  | Media _ => "media"
  | Opaque => "opaque"
  end.

Record FlatBlock := mkFlat {
  fl_id : string; fl_mid : string; fl_ordinal : Z; fl_role : string; fl_kind_tag : string; fl_provider_executed : bool;
  fl_arc_id : option string; fl_bytes : string; fl_content_hash : string; fl_synthetic : bool; fl_kind : BlockKind;
}.

Record FlatMessage := mkFlatMessage { fm_ordinal : Z; fm_mid : string; fm_role : string; fm_blocks : list FlatBlock }.

(** ** Plain text *)
Definition SYSTEM_DIRECTIVE_PREFIX : string := "[SYSTEM DIRECTIVE: EIDNARA".
Definition ELLIPSIS : string := String (ascii_of_nat 226) (String (ascii_of_nat 128) (String (ascii_of_nat 166) EmptyString)).

Definition emit (word : string) : list string := if bool_decide (word = EmptyString) then [] else [word].

(** [str::split_whitespace]; [word] is the word read so far. *)
Fixpoint split_whitespace (word s : string) : list string :=
  match s with
  | EmptyString => emit word
  | String a r =>
      if Citations.space1 a then emit word ++ split_whitespace EmptyString r
      else
        let longer := (word +:+ String a EmptyString)%string in
        match r with
        | EmptyString => split_whitespace longer r
        | String b r2 =>
            if Citations.space2 a b then emit word ++ split_whitespace EmptyString r2
            else
              match r2 with
              | EmptyString => split_whitespace longer r
              | String c r3 => if Citations.space3 a b c then emit word ++ split_whitespace EmptyString r3 else split_whitespace longer r
              end
        end
  end.

Definition normalize_text (text : string) : string := Trigger.join " " (split_whitespace EmptyString text).

(** [chars().take(n)], collected. *)
Fixpoint take_chars (n : nat) (s : string) : string :=
  match s with
  | EmptyString => EmptyString
  | String c r =>
      if Payload.continues c then String c (take_chars n r)
      else match n with O => EmptyString | S n => String c (take_chars n r) end
  end.

Definition truncate_arg (value : string) : string := if (Payload.chars_count value <=? 60)%nat then value else (take_chars 60 value +:+ ELLIPSIS)%string.

Definition is_system_directive (text : string) : bool := String.prefix SYSTEM_DIRECTIVE_PREFIX (Citations.trim_start text).

(** ** Tool calls on one line *)
Definition DISPLAY_PATH_KEYS : list string := ["filePath"; "path"; "pattern"; "query"]%string.
Definition DISPLAY_SYMBOL_KEYS : list string := ["symbol"; "module"; "action"]%string.

Inductive DisplayArg := PathLike (value : string) | SymbolLike (value : string).

Definition get (key : string) (v : Value) : option Value := match v with Object entries => btree_get key entries | _ => None end.

Definition display_arg (input : Value) : option DisplayArg :=
  match Selection.first_string input DISPLAY_PATH_KEYS with
  | Some s => Some (PathLike s)
  | None => SymbolLike <$> Selection.first_string input DISPLAY_SYMBOL_KEYS
  end.

Definition extract_key_arg (input : Value) : option string :=
  match display_arg input with
  | Some (PathLike value) => Some (truncate_arg value)
  | Some (SymbolLike value) => Some value
  | None => None
  end.

Definition format_tool_summary (name : string) (input : Value) : string :=
  let description :=
    match get "description" input with Some (Str v) => if bool_decide (v = EmptyString) then None else Some v | _ => None end in
  normalize_text
    (match description, extract_key_arg input with
     | Some description, _ => "TC: " +:+ description
     | None, Some key_arg => "TC: " +:+ name +:+ "(" +:+ key_arg +:+ ")"
     | None, None => "TC: " +:+ name
     end)%string.

(** ** Pairing results with calls *)
Record ToolPairs := mkPairs { call_summaries : gmap string string; answered_in_message : gset string }.

Definition Queues : Type := gmap string (list (nat * string * string * Value)).

(** [chunk_by] on equal message ids. *)
Fixpoint chunk_by_mid (blocks : list FlatBlock) : list (list FlatBlock) :=
  match blocks with
  | [] => []
  | block :: rest =>
      match chunk_by_mid rest with
      | (next :: more) :: chunks => if bool_decide (fl_mid block = fl_mid next) then (block :: next :: more) :: chunks else [block] :: (next :: more) :: chunks
      | chunks => [block] :: chunks
      end
  end.

(** Every call of a message enters its queue, and its results are set aside. *)
Definition enqueue (index : nat) (st : Queues * list (string * string)) (block : FlatBlock) : Queues * list (string * string) :=
  match fl_arc_id block with
  | None => st
  | Some arc_id =>
      match fl_kind block with
      | ToolCall name input => (<[arc_id := default [] (st.1 !! arc_id) ++ [(index, fl_id block, name, input)]]> st.1, st.2)
      | ToolResult _ _ => (st.1, st.2 ++ [(fl_id block, arc_id)])
      | _ => st
      end
  end.

Definition pair_result (index : nat) (st : Queues * ToolPairs) (result : string * string) : Queues * ToolPairs :=
  match st.1 !! result.2 with
  | Some ((call_index, call_id, name, input) :: queue) =>
      (<[result.2 := queue]> st.1,
       mkPairs (<[result.1 := format_tool_summary name input]> (call_summaries st.2))
         (if (call_index =? index)%nat then {[call_id]} ∪ answered_in_message st.2 else answered_in_message st.2))
  | _ => st
  end.

Fixpoint pair_tool_blocks (index : nat) (st : Queues * ToolPairs) (messages : list (list FlatBlock)) : ToolPairs :=
  match messages with
  | [] => st.2
  | message :: messages =>
      let '(unpaired, results) := foldl (enqueue index) (st.1, []) message in
      pair_tool_blocks (S index) (foldl (pair_result index) (unpaired, st.2) results) messages
  end.

Definition tool_pairs (blocks : list FlatBlock) : ToolPairs :=
  pair_tool_blocks 0 (∅, mkPairs ∅ ∅) ((fun message => filter (fun b => fl_synthetic b = false) message) <$> chunk_by_mid blocks).

Definition call_summary (pairs : ToolPairs) (id tool_name : string) : string :=
  default (format_tool_summary tool_name Null) (call_summaries pairs !! id).

Definition MAX_DIGEST_BYTES : nat := Z.to_nat 1024.

Definition push_clipped (out text : string) (max : nat) : string :=
  if (String.length text <=? max)%nat then (out +:+ text)%string
  else (out +:+ String.substring 0 (Payload.boundary_below text (max - String.length ELLIPSIS)) text +:+ ELLIPSIS)%string.

(** An outcome is far shorter than the bound, so the subtraction does not wrap. *)
Definition digest (call outcome : string) : string := (push_clipped EmptyString call (MAX_DIGEST_BYTES - String.length outcome) +:+ outcome)%string.

Fixpoint append_digests (text : string) (digests : list string) : string :=
  match digests with
  | [] => text
  | digest :: digests => append_digests ((if bool_decide (text = EmptyString) then text else text +:+ " / ") +:+ digest)%string digests
  end.

(** The summaries and digests of a message's tool blocks; the flag marks a digest. *)
Definition tool_part (pairs : ToolPairs) (bare_calls : bool) (block : FlatBlock) : option (string * bool) :=
  match fl_kind block with
  | ToolCall name input => if bare_calls && negb (bool_decide (fl_id block ∈ answered_in_message pairs)) then Some (format_tool_summary name input, false) else None
  | ToolResult tool_name outcome => Some (digest (call_summary pairs (fl_id block) tool_name) outcome, true)
  | _ => None
  end.
Definition tool_parts (message : FlatMessage) (pairs : ToolPairs) (bare_calls : bool) : list (string * bool) :=
  omap (tool_part pairs bare_calls) (fm_blocks message).

Definition media_placeholder (media : MediaBlock) : string :=
  let kind := match media_kind media with Image => "image" | Audio => "audio" | Video => "video" | File => "file" | Document => "document" end%string in
  match media_filename media with
  | Some filename => ("[media:" +:+ kind +:+ " " +:+ media_type media +:+ " " +:+ filename +:+ "]")%string
  | None => ("[media:" +:+ kind +:+ " " +:+ media_type media +:+ "]")%string
  end.

(** ** What a message contributes *)
Inductive MessagePart :=
| Noise
| ToolOnly (part : Citations.FrozenAlias)
| PartText (role : string) (part : Citations.FrozenAlias) (commit_hashes : list string) (has_narrative : bool).

Section Parts.
(** Removing reminders from user text, the commit hashes of a text, whether it has a commit verb, the text
    rewritten around its hashes, the uppercased first character of a role, and the hex of a block's hash. *)
Variable clean_user_text : string -> string.
Variable extract_commit_hashes : string -> list string.
Variable has_commit_verb : string -> bool.
Variable without_hashes : string -> string.
Variable uppercase_initial : string -> string.
Variable fingerprint_digest : string -> string.

Definition compact_text_for_summary (text role : string) : Trigger.CompactedText :=
  let commit_hashes := if bool_decide (role = "assistant"%string) then extract_commit_hashes text else [] in
  if bool_decide (commit_hashes = []) || negb (has_commit_verb text) then Trigger.mkCompacted text commit_hashes
  else
    let trimmed := Citations.trim (without_hashes text) in
    Trigger.mkCompacted (if bool_decide (trimmed = EmptyString) then text else trimmed) commit_hashes.

Definition compact_role (role : string) : string :=
  if bool_decide (role = "assistant"%string) then "A"%string
  else if bool_decide (role = "user"%string) then "U"%string
  else let initial := uppercase_initial role in if bool_decide (initial = EmptyString) then "M"%string else initial.

Definition text_part (role : string) (block : FlatBlock) : option string :=
  match fl_kind block with
  | Text text =>
      let cleaned := if bool_decide (role = "user"%string) then clean_user_text text else Citations.trim text in
      let normalized := normalize_text cleaned in
      if bool_decide (normalized = EmptyString) then None else Some normalized
  | Media media => Some (media_placeholder media)
  | _ => None
  end.
Definition text_parts (message : FlatMessage) : list string := omap (text_part (fm_role message)) (fm_blocks message).

Definition has_text_parts (message : FlatMessage) : bool := negb (bool_decide (text_parts message = [])).
Definition has_meaningful_user_text (message : FlatMessage) : bool :=
  existsb (fun text => negb (bool_decide (text = EmptyString)) && negb (is_system_directive text)) (text_parts message).

(** The frozen alias of a rendered part, its name assigned when its block is kept. *)
Definition part (message : FlatMessage) (text : string) (transformed : bool) : Citations.FrozenAlias :=
  let escaped := Trigger.escape_markers text in
  Citations.mkAlias EmptyString (default EmptyString (fl_mid <$> head (fm_blocks message))) (fm_ordinal message) (fl_id <$> fm_blocks message)
    ((fun b => fingerprint_digest (fl_content_hash b)) <$> fm_blocks message) (default text escaped)
    (transformed || match escaped with Some _ => true | None => false end).

Definition verbatim (message : FlatMessage) (narrative_parts : nat) (text : string) : bool :=
  match fm_blocks message with
  | [block] => (narrative_parts =? 1)%nat && match fl_kind block with Text native => bool_decide (native = text) | _ => false end
  | _ => false
  end.

Definition message_part (message : FlatMessage) (pairs : ToolPairs) : MessagePart :=
  let role := fm_role message in
  if bool_decide (role = "system"%string) then Noise
  else if (bool_decide (role = "tool"%string) && negb (has_text_parts message)) || (bool_decide (role = "user"%string) && negb (has_meaningful_user_text message))
  then
    match (tool_parts message pairs true).*1 with
    | [] => Noise
    | summaries => ToolOnly (part message (Trigger.join " / " summaries) true)
    end
  else
    let texts := text_parts message in
    let narrative_parts := length texts in
    let tools := tool_parts message pairs (narrative_parts =? 0)%nat in
    let calls := (filter (fun p => p.2 = false) tools).*1 in
    let digests := (filter (fun p => p.2 = true) tools).*1 in
    let compacted := compact_text_for_summary (Trigger.join " / " (texts ++ calls)) role in
    let text := append_digests (Trigger.ct_text compacted) digests in
    if bool_decide (text = EmptyString) then Noise
    else PartText (compact_role role) (part message text (negb (verbatim message narrative_parts text))) (Trigger.ct_commit_hashes compacted)
           (0 <? narrative_parts)%nat.
End Parts.

(** ** A message with nothing to show is noise *)
(** A message that is not noise has blocks: empty text has no commit hashes. *)
Lemma message_part_blocks clean hashes verb without upper fingerprint message pairs :
  hashes EmptyString = [] -> fm_blocks message = [] -> message_part clean hashes verb without upper fingerprint message pairs = Noise.
Proof.
  intros Hh Hb. unfold message_part, has_text_parts, has_meaningful_user_text, tool_parts, text_parts. rewrite Hb.
  destruct (bool_decide (fm_role message = _)); [done|]. destruct (_ || _); [done|].
  change (compact_text_for_summary hashes verb without (Trigger.join " / " (omap _ [] ++ _)) _) with (compact_text_for_summary hashes verb without EmptyString (fm_role message)).
  assert (compact_text_for_summary hashes verb without EmptyString (fm_role message) = Trigger.mkCompacted EmptyString []) as ->; [|done].
  unfold compact_text_for_summary. rewrite Hh. by destruct (bool_decide (fm_role message = _)).
Qed.

(** A part names the message it comes from. *)
Lemma part_ordinal fingerprint message text transformed : Citations.fa_ordinal (part fingerprint message text transformed) = fm_ordinal message.
Proof. done. Qed.
End SummaryText.
