(* ===== verification/ChunkBuild.v ===== *)
(** * ChunkBuild: assembling what the summarizer reads (daemon/src/history_summarizer_chunk.rs)

    The builder that groups the eligible messages of a session into blocks under a token budget and an
    identity budget, the aliases it issues, the tool arcs of a chunk, the text presented under a
    provider's limit, and the assembly of one firing with its retry ladder and placeholder. The token
    estimator, the serialization of an identity, the digest of a model chain and the store's snapshot are
    arguments, as are the text functions of [SummaryText]; the prompt around the text is not modelled. *)
From S2P Require Import Prelude.
From S2P Require Import BTree.
From S2P Require Import SortBy.
From S2P Require Import Payload.
From S2P Require Import Boundary.
From S2P Require Import ParallelMap.
From S2P Require Import Trigger.
From S2P Require Import Citations.
From S2P Require Import SummaryValidate.
From S2P Require Import SummaryText.
From Stdlib Require Import Ascii String.
From stdpp Require Import strings pretty sets.

#[local] Open Scope Z_scope.

Module ChunkBuild.
Import SummaryValidate SummaryText.

(** ** Data *)
Record IngressMessage := mkIngress { im_mid : string; im_ordinal : Z; im_role : string; im_synthetic : bool }.

Record MessageMeta := mkMeta { mm_ordinal : Z; mm_mid : string; mm_message_id : string; mm_anchorable : bool }.

Record ChunkBlock := mkChunkBlock {
  ck_role : string; ck_start_ordinal : Z; ck_end_ordinal : Z; ck_parts : list Citations.FrozenAlias; ck_meta : list MessageMeta;
  ck_commit_hashes : list string; ck_is_tool_only : bool;
}.

Record ChunkSnapshotOwnedItem := mkSnapshotItem { sn_id : string; sn_kind : string; sn_byte_len : Z }.

Record HistorySummarizerBuiltChunk := mkBuilt {
  bc_text : string; bc_chunk : HistorySummarizerChunk; bc_snapshot : list ChunkSnapshotOwnedItem; bc_end_message_id : string;
  bc_token_estimate : Z; bc_has_more : bool; bc_commit_cluster_count : nat;
}.

(** ** Identities of the selected messages *)
Definition SELECTED_IDENTITY_BUDGET_BYTES : Z := 256 * 1024.

Record BlockIdentity := mkIdentity { bi_kind_tag : string; bi_byte_fingerprint : string }.
Record HistorySummarizerSelectedMessageIdentity := mkSelected { se_mid : string; se_block_identities : list BlockIdentity }.

Record IdentitySelection := mkSelection {
  by_mid : list (string * list BlockIdentity); selected : list HistorySummarizerSelectedMessageIdentity; serialized_len : Z;
  missing : option string; refused_len : option Z;
}.

Definition selection_new (by_mid : list (string * list BlockIdentity)) : IdentitySelection := mkSelection by_mid [] 2 None None.

(** ** Tool arcs *)
Record ToolArcs := mkToolArcs { ta_completed : list MessageRange; open_invocations : list Z }.

Definition chunk_arc_step (partial : list (string * (list Z * list Z))) (block : FlatBlock) : list (string * (list Z * list Z)) :=
  if fl_provider_executed block then partial
  else
    match fl_arc_id block with
    | None => partial
    | Some arc_id =>
        let entry := default ([], []) (btree_get arc_id partial) in
        let entry :=
          if bool_decide (fl_kind_tag block = "tool_call"%string) then (entry.1 ++ [fl_ordinal block], entry.2)
          else if bool_decide (fl_kind_tag block = "tool_result"%string) then (entry.1, entry.2 ++ [fl_ordinal block])
          else entry in
        btree_insert arc_id entry partial
    end.

Fixpoint pair_arc (invocations results : list Z) : list MessageRange * list Z :=
  match invocations with
  | [] => ([], [])
  | invocation :: invocations =>
      match Boundary.position_from invocation results with
      | None => let '(completed, opened) := pair_arc invocations results in (completed, invocation :: opened)
      | Some index =>
          let '(completed, opened) := pair_arc invocations (delete index results) in
          (mkRange invocation (default 0 (results !! index)) :: completed, opened)
      end
  end.

Definition range_cmp : MessageRange -> MessageRange -> comparison := cmp_then (cmp_by r_start Z.compare) (cmp_by r_end Z.compare).

Definition tool_arcs (blocks : list FlatBlock) : ToolArcs :=
  let arcs := (fun entry => pair_arc (sort_by Z.compare entry.2.1) (sort_by Z.compare entry.2.2)) <$> foldl chunk_arc_step [] blocks in
  mkToolArcs (sort_by range_cmp (concat arcs.*1)) (concat arcs.*2).

(** ** Rendering *)
Definition NEWLINE : string := String (ascii_of_nat 10) EmptyString.
Definition ALIAS_OPEN : string := String Trigger.ALIAS_LEAD_BYTE (String Trigger.ALIAS_OPEN_BYTE EmptyString).
Definition ALIAS_CLOSE : string := String Trigger.ALIAS_LEAD_BYTE (String Trigger.ALIAS_CLOSE_BYTE EmptyString).

Definition alias_marker (alias : string) : string := (ALIAS_OPEN +:+ alias +:+ ALIAS_CLOSE)%string.

Definition render_part (part : Citations.FrozenAlias) (alias : option string) : string :=
  match alias with Some alias => (alias_marker alias +:+ Citations.presented part)%string | None => Citations.presented part end.

Definition format_block (block : ChunkBlock) (markers : list (option string)) : string :=
  Trigger.format_block_line (ck_role block) (ck_start_ordinal block) (ck_end_ordinal block) (ck_commit_hashes block)
    (zip_with render_part (ck_parts block) markers).

Fixpoint issue_all (table : Citations.FrozenAliasTable) (parts : list Citations.FrozenAlias) : Citations.FrozenAliasTable * list (option string) :=
  match parts with
  | [] => (table, [])
  | part :: parts =>
      let '(table, alias) := Citations.issue table part in
      let '(table, markers) := issue_all table parts in (table, alias :: markers)
  end.

Fixpoint merge_ranges (merged ranges : list MessageRange) : list MessageRange :=
  match ranges with
  | [] => merged
  | range :: ranges =>
      match list.last merged with
      | Some last =>
          if r_start range =? r_end last + 1
          then merge_ranges (take (length merged - 1) merged ++ [mkRange (r_start last) (r_end range)]) ranges
          else merge_ranges (merged ++ [range]) ranges
      | None => merge_ranges (merged ++ [range]) ranges
      end
  end.
Definition merge_tool_only_ranges (ranges : list MessageRange) : list MessageRange := merge_ranges [] ranges.

(** ** Messages *)
Definition last_block_id (message : FlatMessage) : option string := fl_id <$> list.last (fm_blocks message).

Definition message_meta (message : FlatMessage) : MessageMeta :=
  mkMeta (fm_ordinal message) (fm_mid message) (default EmptyString (last_block_id message))
    (match last_block_id message with Some _ => true | None => false end).

(** The blocks of a message id, in order; [grouped_blocks_by_mid] collects them for every id. *)
Definition blocks_of (blocks : list FlatBlock) (mid : string) : list FlatBlock := filter (fun b => fl_synthetic b = false /\ fl_mid b = mid) blocks.

(** ** The builder *)
Record Builder := mkBuilder {
  identities : option IdentitySelection; budget : Z; total_tokens : Z; bu_lines : list string; line_meta : list ChunkLine;
  pending_noise_meta : list MessageMeta; current_block : option ChunkBlock; bu_tool_only_ranges : list MessageRange; last_ordinal : Z;
  last_message_id : string; commit_cluster_count : nat; last_flushed_role : string; bu_aliases : Citations.FrozenAliasTable;
}.

Definition builder_new (budget start_ordinal : Z) (identities : option IdentitySelection) : Builder :=
  mkBuilder identities budget 0 [] [] [] None [] (saturating_pred start_ordinal) EmptyString 0 EmptyString [].

Definition with_current (b : Builder) (current : option ChunkBlock) (noise : list MessageMeta) : Builder :=
  mkBuilder (identities b) (budget b) (total_tokens b) (bu_lines b) (line_meta b) noise current (bu_tool_only_ranges b) (last_ordinal b)
    (last_message_id b) (commit_cluster_count b) (last_flushed_role b) (bu_aliases b).

Definition line_of (meta : MessageMeta) : ChunkLine := mkLine (mm_ordinal meta) (mm_message_id meta) (mm_anchorable meta).

Section Assemble.
(** The token estimator, an identity as JSON, and the text functions. *)
Variable estimate_tokens : string -> Z.
Variable to_vec : HistorySummarizerSelectedMessageIdentity -> string.
Variable part_of : FlatMessage -> ToolPairs -> MessagePart.
Variable workers : option nat.

(** One message's entry, unless it has no recorded identity. *)
Definition admit_step (by_mid : list (string * list BlockIdentity)) (nothing_selected : bool)
    (st : Z * list HistorySummarizerSelectedMessageIdentity * option string) (meta : MessageMeta)
    : Z * list HistorySummarizerSelectedMessageIdentity * option string :=
  let '(len, entries, missing) := st in
  match btree_get (mm_mid meta) by_mid with
  | None => (len, entries, match missing with Some _ => missing | None => Some (mm_mid meta) end)
  | Some block_identities =>
      let entry := mkSelected (mm_mid meta) block_identities in
      let separator := if nothing_selected && bool_decide (entries = []) then 0 else 1 in
      (len + separator + Z.of_nat (String.length (to_vec entry)), entries ++ [entry], missing)
  end.

Definition admit_metas (s : IdentitySelection) (meta : list MessageMeta) (first_block : bool) : IdentitySelection * bool :=
  let '(len, entries, missing_now) := foldl (admit_step (by_mid s) (bool_decide (selected s = []))) (serialized_len s, [], None) meta in
  if SELECTED_IDENTITY_BUDGET_BYTES <? len
  then (mkSelection (by_mid s) (selected s) (serialized_len s) (missing s) (if first_block then Some len else refused_len s), false)
  else (mkSelection (by_mid s) (selected s ++ entries) len (match missing s with Some _ => missing s | None => missing_now end) (refused_len s), true).

(** The block stays current; the aliases issued for it are handed back. *)
Definition refuse (b : Builder) (ids : option IdentitySelection) (aliases : Citations.FrozenAliasTable) : Builder :=
  mkBuilder ids (budget b) (total_tokens b) (bu_lines b) (line_meta b) (pending_noise_meta b) (current_block b) (bu_tool_only_ranges b)
    (last_ordinal b) (last_message_id b) (commit_cluster_count b) (last_flushed_role b) (take (length (bu_aliases b)) aliases).

Definition accept (b : Builder) (block : ChunkBlock) (ids : option IdentitySelection) (aliases : Citations.FrozenAliasTable) (text : string) (tokens : Z)
    : Builder :=
  mkBuilder ids (budget b) (total_tokens b + tokens) (bu_lines b ++ [text]) (line_meta b ++ (line_of <$> ck_meta block)) (pending_noise_meta b) None
    (if ck_is_tool_only block then bu_tool_only_ranges b ++ [mkRange (ck_start_ordinal block) (ck_end_ordinal block)] else bu_tool_only_ranges b)
    (default (ck_end_ordinal block) (mm_ordinal <$> list.last (ck_meta block)))
    (default EmptyString (mm_message_id <$> list.last (ck_meta block)))
    (if bool_decide (ck_role block = "A"%string) && negb (bool_decide (ck_commit_hashes block = [])) && negb (bool_decide (last_flushed_role b = "A"%string))
     then S (commit_cluster_count b) else commit_cluster_count b)
    (ck_role block) aliases.

Definition flush_current_block (b : Builder) : Builder * bool :=
  match current_block b with
  | None => (b, true)
  | Some block =>
      let '(aliases, markers) := issue_all (bu_aliases b) (ck_parts block) in
      let block_text := format_block block markers in
      let first_block := bool_decide (bu_lines b = []) in
      let block_tokens := estimate_tokens block_text + (if first_block then 0 else estimate_tokens NEWLINE) in
      if (budget b <? total_tokens b + block_tokens) && (0 <? total_tokens b) then (refuse b (identities b) aliases, false)
      else
        match identities b with
        | None => (accept b block None aliases block_text block_tokens, true)
        | Some ids =>
            let '(ids, admitted) := admit_metas ids (ck_meta block) first_block in
            if admitted then (accept b block (Some ids) aliases block_text block_tokens, true) else (refuse b (Some ids) aliases, false)
        end
  end.

Definition extend_block (block : ChunkBlock) (noise : list MessageMeta) (meta : MessageMeta) (part : Citations.FrozenAlias) (commit_hashes : list string)
    (narrative : bool) : ChunkBlock :=
  mkChunkBlock (ck_role block) (ck_start_ordinal block) (mm_ordinal meta) (ck_parts block ++ [part]) (ck_meta block ++ noise ++ [meta]) commit_hashes
    (if narrative then false else ck_is_tool_only block).

(** The block before it flushed, a message opens its own with the noise before it. *)
Definition open_block (b : Builder) (role : string) (meta : MessageMeta) (part : Citations.FrozenAlias) (commit_hashes : list string) (tool_only : bool)
    : Builder * bool :=
  let '(b, flushed) := flush_current_block b in
  if flushed then
    let start := default (mm_ordinal meta) (mm_ordinal <$> head (pending_noise_meta b)) in
    (with_current b (Some (mkChunkBlock role start (mm_ordinal meta) [part] (pending_noise_meta b ++ [meta]) commit_hashes tool_only)) [], true)
  else (b, false).

Definition absorb_tool_only (b : Builder) (meta : MessageMeta) (part : Citations.FrozenAlias) : Builder * bool :=
  match current_block b with
  | Some block =>
      if bool_decide (ck_role block = "A"%string)
      then (with_current b (Some (extend_block block (pending_noise_meta b) meta part (ck_commit_hashes block) false)) [], true)
      else open_block b "A" meta part [] true
  | None => open_block b "A" meta part [] true
  end.

Definition push_message (b : Builder) (entry : MessageMeta * MessagePart) : Builder * bool :=
  let '(meta, part) := entry in
  match part with
  | Noise => (with_current b (current_block b) (pending_noise_meta b ++ [meta]), true)
  | ToolOnly part => absorb_tool_only b meta part
  | PartText role part commit_hashes narrative =>
      match current_block b with
      | Some block =>
          if bool_decide (ck_role block = role)
          then (with_current b
                  (Some (extend_block block (pending_noise_meta b) meta part (Trigger.merge_commit_hashes (ck_commit_hashes block) commit_hashes) narrative)) [], true)
          else open_block b role meta part commit_hashes (negb narrative)
      | None => open_block b role meta part commit_hashes (negb narrative)
      end
  end.

(** The consumer also tracks how far leading noise was scanned. *)
Definition consume_message (st : Builder * Z) (entry : MessageMeta * MessagePart) : (Builder * Z) * bool :=
  let '(b, highest) := st in
  let '(b, more) := push_message b entry in
  if more then
    match current_block b with
    | None => ((b, Z.max highest (default highest (mm_ordinal <$> list.last (pending_noise_meta b)))), true)
    | Some _ => ((b, highest), true)
    end
  else ((b, highest), false).

(** ** A chunk *)
Definition input_ordinals (messages : list IngressMessage) : list Z := im_ordinal <$> filter (fun m => im_synthetic m = false) messages.

Definition chunk_start (messages : list IngressMessage) (start_ordinal eligible_end_ordinal : Z) : Z :=
  default start_ordinal (Boundary.z_min (filter (fun o => start_ordinal <= o < eligible_end_ordinal) (input_ordinals messages))).

Definition eligible_messages (messages : list IngressMessage) (blocks : list FlatBlock) (start eligible_end_ordinal : Z) : list FlatMessage :=
  (fun m => mkFlatMessage (im_ordinal m) (im_mid m) (im_role m) (blocks_of blocks (im_mid m)))
    <$> filter (fun m => im_synthetic m = false /\ start <= im_ordinal m < eligible_end_ordinal) messages.

Definition run_builder (blocks : list FlatBlock) (b : Builder) (highest : Z) (eligible : list FlatMessage) : Builder * Z :=
  ParallelMap.map_until tt (fun s message => (s, (message_meta message, part_of message (tool_pairs blocks)))) consume_message workers (b, highest) eligible.

Definition chunk_snapshot (blocks : list FlatBlock) (start end_ : Z) : list ChunkSnapshotOwnedItem :=
  (fun b => mkSnapshotItem (fl_id b) (fl_kind_tag b) (Z.of_nat (String.length (fl_bytes b))))
    <$> filter (fun b => fl_synthetic b = false /\ fl_role b <> "system"%string /\ start <= fl_ordinal b /\ fl_ordinal b <= end_) blocks.

Definition build_chunk (messages : list IngressMessage) (blocks : list FlatBlock) (start_ordinal token_budget eligible_end_ordinal : Z)
    (ids : option IdentitySelection) : HistorySummarizerBuiltChunk * option IdentitySelection :=
  let total_count := default 0 (Boundary.z_max (input_ordinals messages)) in
  let start := chunk_start messages start_ordinal eligible_end_ordinal in
  let '(b, highest) :=
    run_builder blocks (builder_new token_budget start ids) (saturating_pred start) (eligible_messages messages blocks start eligible_end_ordinal) in
  let '(b, _) := flush_current_block b in
  let end_ := last_ordinal b in
  (mkBuilt (Trigger.join NEWLINE (bu_lines b))
     (mkChunk start end_ (line_meta b) (bu_aliases b) (input_ordinals messages) (merge_tool_only_ranges (bu_tool_only_ranges b)) (ta_completed (tool_arcs blocks)))
     (chunk_snapshot blocks start end_) (last_message_id b) (total_tokens b)
     (Z.max end_ highest <? Z.min (saturating_pred eligible_end_ordinal) total_count) (commit_cluster_count b),
   identities b).

(** ** The presented text *)
Definition TRUNCATION_MARKER : string :=
  (NEWLINE +:+ "[" +:+ ELLIPSIS +:+ " tokens truncated by the daemon to fit the history_summarizer window " +:+ ELLIPSIS +:+ "]")%string.

Definition truncated_at (input : string) (units : nat) : string := (Payload.utf16_prefix input units +:+ TRUNCATION_MARKER)%string.

(** The longest prefix found to fit, by halving [lo, hi]; every round shrinks the interval. *)
Fixpoint truncate_loop (fuel : nat) (input : string) (token_budget : Z) (lo hi best : nat) : nat :=
  match fuel with
  | O => best
  | S fuel =>
      if (lo <=? hi)%nat then
        let mid := ((lo + hi) / 2)%nat in
        if estimate_tokens (truncated_at input mid) <=? token_budget then truncate_loop fuel input token_budget (S mid) hi mid
        else if (mid =? 0)%nat then best
        else truncate_loop fuel input token_budget lo (mid - 1) best
      else best
  end.

Definition truncate_history_summarizer_input_if_needed (input : string) (token_budget : Z) : string :=
  if estimate_tokens input <=? token_budget then input
  else
    let units := Payload.utf16_len input in
    truncated_at input (truncate_loop (S (S units)) input token_budget 0 units 0).

Definition strip_suffix (suffix s : string) : option string :=
  if Payload.ends_with s suffix then Some (String.substring 0 (String.length s - String.length suffix) s) else None.

(** [take_while] over the aliases, with the cursor after the last one found whole. *)
Fixpoint whole_aliases (cursor : nat) (kept : string) (aliases : Citations.FrozenAliasTable) : Citations.FrozenAliasTable :=
  match aliases with
  | [] => []
  | alias :: rest =>
      let marker := alias_marker (Citations.fa_alias alias) in
      match String.index cursor marker kept with
      | None => []
      | Some at_ =>
          let e := (at_ + String.length marker)%nat in
          let shown := Citations.presented alias in
          if bool_decide (String.substring e (String.length shown) kept = shown) then alias :: whole_aliases (e + String.length shown) kept rest else []
      end
  end.

Definition with_aliases (c : HistorySummarizerChunk) (table : Citations.FrozenAliasTable) : HistorySummarizerChunk :=
  mkChunk (start_index c) (end_index c) (lines c) table (ch_present_ordinals c) (tool_only_ranges c) (completed_tool_arcs c).

Definition presented_input (built : HistorySummarizerBuiltChunk) (token_budget : Z) : HistorySummarizerBuiltChunk * string :=
  let truncated := truncate_history_summarizer_input_if_needed (bc_text built) token_budget in
  if bool_decide (truncated = bc_text built) then (built, truncated)
  else
    let kept := default truncated (strip_suffix TRUNCATION_MARKER truncated) in
    (mkBuilt (bc_text built) (with_aliases (bc_chunk built) (whole_aliases 0 kept (aliases (bc_chunk built)))) (bc_snapshot built) (bc_end_message_id built)
       (bc_token_estimate built) (bc_has_more built) (bc_commit_cluster_count built), truncated).

(** ** Firing *)
Definition VARY_SEEDS_AFTER_FAILURES : Z := 2.
Definition SHRINK_CHUNK_AFTER_FAILURES : Z := 4.
Definition PLACEHOLDER_AFTER_FAILURES : Z := 8.

Definition seed_session_key (session_id : string) (failures : Z) : string :=
  if failures <? VARY_SEEDS_AFTER_FAILURES then session_id else (session_id +:+ "#retry" +:+ pretty failures)%string.

Definition retry_token_budget (token_budget failures : Z) : Z :=
  if failures <? SHRINK_CHUNK_AFTER_FAILURES then token_budget
  else Z.max 1 (Z.shiftr token_budget (Z.min failures PLACEHOLDER_AFTER_FAILURES - SHRINK_CHUNK_AFTER_FAILURES + 1)).

Record HistorySummarizerChunkRetry := mkRetry { re_chunk_start : Z; re_failures : Z; re_model_chain_digest : string; re_token_budget : Z }.

(** The digest of a model chain. *)
Variable model_chain_digest : list string -> string.

Definition chunk_failures (chunk_retry : option HistorySummarizerChunkRetry) (start : Z) (model_chain : list string) (token_budget : Z) : Z :=
  match chunk_retry with
  | Some retry =>
      if (re_chunk_start retry =? start) && bool_decide (re_model_chain_digest retry = model_chain_digest model_chain) && (re_token_budget retry =? token_budget)
      then re_failures retry else 0
  | None => 0
  end.

Definition firing_token_budget (configured_budget : Z) (chunk_retry : option HistorySummarizerChunkRetry) (start : Z) (model_chain : list string) : Z :=
  retry_token_budget configured_budget (chunk_failures chunk_retry start model_chain configured_budget).

(** One round per arc and one more; [None] when the result lies past what may be read. *)
Fixpoint reach_loop (n : nat) (c : HistorySummarizerChunk) (eligible_end end_ : Z) : option Z :=
  match n with
  | O => Some end_
  | S n =>
      match List.find (fun arc => (r_start arc <=? end_) && (end_ <? r_end arc)) (completed_tool_arcs c) with
      | None => Some end_
      | Some arc =>
          if start_index c <? r_start arc then Some end_
          else if eligible_end <=? r_end arc then None
          else reach_loop n c eligible_end (r_end arc)
      end
  end.

Definition placeholder_reach (c : HistorySummarizerChunk) (eligible_end : Z) : option Z :=
  match reach_loop (S (length (completed_tool_arcs c))) c eligible_end (end_index c) with
  | Some e => if e =? end_index c then None else Some e
  | None => None
  end.

(** Where a placeholder ends: before every arc that opens inside it and closes past it. *)
Fixpoint placeholder_loop (fuel : nat) (c : HistorySummarizerChunk) (end_ : Z) : Z :=
  match fuel with
  | O => end_
  | S fuel =>
      match List.find (fun arc => (start_index c <? r_start arc) && (r_start arc <=? end_) && (end_ <? r_end arc)) (completed_tool_arcs c) with
      | None => end_
      | Some arc => placeholder_loop fuel c (r_start arc - 1)
      end
  end.
Definition placeholder_end (c : HistorySummarizerChunk) : Z := placeholder_loop (S (length (completed_tool_arcs c))) c (end_index c).

Definition placeholder_body (c : HistorySummarizerChunk) (failures : Z) : string :=
  ("Messages " +:+ pretty (start_index c) +:+ "-" +:+ pretty (placeholder_end c) +:+ " were not summarized: " +:+ pretty failures
   +:+ " summarizer attempts on them failed.")%string.

Definition QUOTE : string := String (ascii_of_nat 34) EmptyString.
Definition quoted (s : string) : string := (QUOTE +:+ s +:+ QUOTE)%string.

Definition placeholder_output (c : HistorySummarizerChunk) (failures : Z) : string :=
  let start := pretty (start_index c) in
  let end_ := placeholder_end c in
  let body := placeholder_body c failures in
  ("<output><history_segments>" +:+ NEWLINE +:+ "<history_segment start=" +:+ quoted start +:+ " end=" +:+ quoted (pretty end_) +:+ " title="
   +:+ quoted ("Unsummarized messages " +:+ start +:+ "-" +:+ pretty end_) +:+ " importance=" +:+ quoted "1" +:+ "><p1>" +:+ body +:+ "</p1><p2>" +:+ body
   +:+ "</p2><p3>" +:+ body +:+ "</p3><p4 /></history_segment>" +:+ NEWLINE +:+ "</history_segments><meta><unprocessed_from>"
   +:+ pretty (saturating_succ end_) +:+ "</unprocessed_from></meta></output>")%string.

(** What the store holds of a session, and the settings of a firing. *)
Record AssemblySnapshot := mkAssembly {
  newest_history_segments : list StoredHistorySegmentRange; max_sequence : Z; as_chunk_retry : option HistorySummarizerChunkRetry;
}.

Record HistorySummarizerAssemblerConfig := mkConfig {
  cf_model_chain : list string; cf_token_budget : Z; cf_eligible_end : Z; cf_memory_enabled : bool; cf_auto_promote : bool;
  cf_user_memory_collection_enabled : bool; cf_in_emergency : bool; cf_force_keep_last : bool; cf_fold_is_only_reclaim : bool; cf_min_chunk_tokens : Z;
}.

Inductive HistorySummarizerNoFireReason :=
| NoModels
| EmptyEligibleRange (start_ordinal eligible_end_ordinal : Z)
| EmptyChunk
| BelowBudget (token_estimate minimum : Z)
| MissingBlockIdentity (message_id : string)
| IdentityBudget (serialized_bytes budget : Z).

Record AssembledHistorySummarizerFiring := mkFiring {
  af_input : string; af_token_budget : Z; af_chunk : HistorySummarizerBuiltChunk; af_selected : list HistorySummarizerSelectedMessageIdentity;
  af_prior : list StoredHistorySegmentRange; af_options : ValidateOptions; af_from_ordinal : Z; af_to_ordinal : Z; af_chunk_failures : Z;
  af_placeholder_output : option string;
}.

(** [AssemblyPanic] is the [expect] on the identities. *)
Inductive AssembleOutcome := Fire (firing : AssembledHistorySummarizerFiring) | NoFire (reason : HistorySummarizerNoFireReason) | AssemblyPanic.

(** The next message after the stored segments, or the first one that is not a system message. *)
Definition first_unsummarized (messages : list IngressMessage) (segments : list StoredHistorySegmentRange) (eligible_end : Z) : option Z :=
  match Boundary.z_max (st_end <$> segments) with
  | Some last_end => Boundary.z_min (filter (fun o => last_end < o < eligible_end) (input_ordinals messages))
  | None =>
      Boundary.z_min
        (filter (fun o => o < eligible_end) (im_ordinal <$> filter (fun m => im_synthetic m = false /\ im_role m <> "system"%string) messages))
  end.

(** A placeholder's chunk may spend the whole budget to reach the result of the arc that opens it. *)
Definition assembled_chunk (messages : list IngressMessage) (live : list FlatBlock) (by_mid : list (string * list BlockIdentity))
    (config : HistorySummarizerAssemblerConfig) (start failures : Z) : HistorySummarizerBuiltChunk * option IdentitySelection :=
  let eligible_end := cf_eligible_end config in
  let built := build_chunk messages live start (retry_token_budget (cf_token_budget config) failures) eligible_end (Some (selection_new by_mid)) in
  if PLACEHOLDER_AFTER_FAILURES <=? failures then
    match placeholder_reach (bc_chunk built.1) eligible_end with
    | Some reach =>
        let reaching := build_chunk messages live start (cf_token_budget config) (reach + 1) (Some (selection_new by_mid)) in
        if reach <=? end_index (bc_chunk reaching.1) then reaching else built
    | None => built
    end
  else built.

Definition assemble_history_summarizer_firing (snapshot : AssemblySnapshot) (messages : list IngressMessage) (live : list FlatBlock)
    (by_mid : list (string * list BlockIdentity)) (config : HistorySummarizerAssemblerConfig) : AssembleOutcome :=
  let eligible_end := cf_eligible_end config in
  match cf_model_chain config with
  | [] => NoFire NoModels
  | _ =>
      match first_unsummarized messages (newest_history_segments snapshot) eligible_end with
      | None => NoFire EmptyChunk
      | Some start =>
          if eligible_end <=? start then NoFire (EmptyEligibleRange start eligible_end)
          else
            let failures := chunk_failures (as_chunk_retry snapshot) start (cf_model_chain config) (cf_token_budget config) in
            let token_budget := retry_token_budget (cf_token_budget config) failures in
            let '(chunk, ids) := assembled_chunk messages live by_mid config start failures in
            match ids with
            | None => AssemblyPanic
            | Some ids =>
                match refused_len ids with
                | Some serialized_bytes => NoFire (IdentityBudget serialized_bytes SELECTED_IDENTITY_BUDGET_BYTES)
                | None =>
                    let '(chunk, input_source) := presented_input chunk token_budget in
                    if bool_decide (bc_text chunk = EmptyString) || bool_decide (lines (bc_chunk chunk) = []) then NoFire EmptyChunk
                    else if (bc_token_estimate chunk <? cf_min_chunk_tokens config) && (failures <? SHRINK_CHUNK_AFTER_FAILURES)
                            && negb (cf_in_emergency config) && negb (cf_fold_is_only_reclaim config)
                    then NoFire (BelowBudget (bc_token_estimate chunk) (cf_min_chunk_tokens config))
                    else
                      match missing ids with
                      | Some message_id => NoFire (MissingBlockIdentity message_id)
                      | None =>
                          Fire (mkFiring input_source token_budget chunk (selected ids)
                                  (match list.last (newest_history_segments snapshot) with Some s => [s] | None => [] end)
                                  (mkOptions (saturating_succ (max_sequence snapshot)) (cf_in_emergency config) (cf_memory_enabled config) (cf_auto_promote config)
                                     (cf_user_memory_collection_enabled config) (cf_force_keep_last config))
                                  (start_index (bc_chunk chunk)) (end_index (bc_chunk chunk)) failures
                                  (if PLACEHOLDER_AFTER_FAILURES <=? failures then Some (placeholder_output (bc_chunk chunk) failures) else None))
                      end
                end
            end
      end
  end.
End Assemble.
End ChunkBuild.
