(* ===== verification/ChunkProofs.v ===== *)
(** * ChunkProofs: a built chunk covers what it says, and validation can only fault the output

    The builder's lines are the first eligible messages, its identities and tokens are accounted exactly,
    and every alias belongs to one of its lines; so the chunk of an assembled firing passes every check
    of [SummaryValidate] that does not concern the model's output. *)
From S2P Require Import Prelude.
From S2P Require Import BTree.
From S2P Require Import CanonicalJson.
From S2P Require Import Boundary.
From S2P Require Import BoundaryProofs.
From S2P Require Import ParallelMap.
From S2P Require Import Trigger.
From S2P Require Import Citations.
From S2P Require Import SummaryValidate.
From S2P Require Import SummaryText.
From S2P Require Import ChunkBuild.
From Stdlib Require Import String.
From stdpp Require Import strings sorting sets.

#[local] Open Scope Z_scope.

Module ChunkProofs.
Import SummaryValidate SummaryText ChunkBuild.

Lemma filter_keep {A} (P : A -> Prop) `{!forall x, Decision (P x)} l : Forall P l -> filter P l = l.
Proof. induction 1 as [|x l Hx Hl IH]; [done|]. by rewrite list.filter_cons, decide_True, IH. Qed.

Lemma filter_drop_all {A} (P : A -> Prop) `{!forall x, Decision (P x)} l : Forall (fun x => ~ P x) l -> filter P l = [].
Proof. induction 1 as [|x l Hx Hl IH]; [done|]. by rewrite list.filter_cons, decide_False, IH. Qed.

(** ** What the builder relies on of a message's part *)
Definition part_alias (p : MessagePart) : option Citations.FrozenAlias :=
  match p with Noise => None | ToolOnly a => Some a | PartText _ a _ _ => Some a end.

(** A part that is not noise names its message, which has blocks. *)
Class PartSound (part_of : FlatMessage -> ToolPairs -> MessagePart) : Prop :=
  part_sound : forall m pairs a, part_alias (part_of m pairs) = Some a -> Citations.fa_ordinal a = fm_ordinal m /\ fm_blocks m <> [].

Lemma message_part_sound clean hashes verb without upper fingerprint :
  hashes EmptyString = [] -> PartSound (message_part clean hashes verb without upper fingerprint).
Proof.
  intros Hh m pairs a Ha. split.
  - revert Ha. unfold message_part. destruct (bool_decide _); [done|]. destruct (_ || _).
    + destruct ((tool_parts m pairs true).*1); [done|]. by intros [= <-].
    + case_bool_decide; [done|]. by intros [= <-].
  - intros Hb. by rewrite (message_part_blocks clean hashes verb without upper fingerprint m pairs Hh Hb) in Ha.
Qed.

(** ** Steps of the builder *)
Section Steps.
Context (estimate_tokens : string -> Z) (to_vec : HistorySummarizerSelectedMessageIdentity -> string).

Notation flush := (flush_current_block estimate_tokens to_vec).
Notation push := (push_message estimate_tokens to_vec).

Lemma issue_spec table part : exists l, (Citations.issue table part).1 = table ++ l /\ Forall (fun a => Citations.fa_ordinal a = Citations.fa_ordinal part) l.
Proof.
  unfold Citations.issue. destruct (_ <=? _)%nat; cbn [fst]; [exists []; split; [by rewrite app_nil_r | constructor]|].
  eexists [_]. split; [reflexivity|]. constructor; [reflexivity | constructor].
Qed.

(** Issuing appends aliases of the parts given, in order. *)
Lemma issue_all_app table parts :
  exists l, (issue_all table parts).1 = table ++ l /\ Forall (fun a => exists p, p ∈ parts /\ Citations.fa_ordinal a = Citations.fa_ordinal p) l.
Proof.
  revert table. induction parts as [|p parts IH]; intros table; [exists []; split; [by rewrite app_nil_r | constructor]|]. cbn [issue_all].
  destruct (issue_spec table p) as (l1 & E1 & H1). destruct (Citations.issue table p) as [t alias]. cbn [fst] in E1. subst t.
  destruct (IH (table ++ l1)) as (l2 & E2 & H2). destruct (issue_all (table ++ l1) parts) as [t markers]. cbn [fst] in *. subst t.
  exists (l1 ++ l2). split; [by rewrite app_assoc|]. apply Forall_app. split; (eapply Forall_impl; [eassumption|]); cbn.
  - intros a Ha. exists p. split; [left | exact Ha].
  - intros a (q & Hq & Ha). exists q. split; [by right | exact Ha].
Qed.

(** A refused selection is the old one but for what it reports. *)
Definition same_selection (s s' : IdentitySelection) : Prop :=
  by_mid s' = by_mid s /\ selected s' = selected s /\ serialized_len s' = serialized_len s /\ missing s' = missing s.

Inductive flush_result (b : Builder) : Builder * bool -> Prop :=
| flush_nothing : current_block b = None -> flush_result b (b, true)
| flush_accepted block ids aliases text tokens :
    current_block b = Some block ->
    aliases = (issue_all (bu_aliases b) (ck_parts block)).1 -> text = format_block block (issue_all (bu_aliases b) (ck_parts block)).2 ->
    tokens = estimate_tokens text + (if bool_decide (bu_lines b = []) then 0 else estimate_tokens NEWLINE) ->
    total_tokens b + tokens <= budget b \/ total_tokens b <= 0 ->
    match identities b with
    | None => ids = None
    | Some s => exists s', ids = Some s' /\ admit_metas to_vec s (ck_meta block) (bool_decide (bu_lines b = [])) = (s', true)
    end ->
    flush_result b (accept b block ids aliases text tokens, true)
| flush_refused block ids :
    current_block b = Some block ->
    match identities b, ids with None, None => True | Some s, Some s' => same_selection s s' | _, _ => False end ->
    flush_result b (refuse b ids (bu_aliases b), false).

Lemma refuse_take b ids parts : refuse b ids (issue_all (bu_aliases b) parts).1 = refuse b ids (bu_aliases b).
Proof. unfold refuse. destruct (issue_all_app (bu_aliases b) parts) as (l & -> & _). by rewrite take_app_length, firstn_all. Qed.

Lemma flush_spec b : flush_result b (flush b).
Proof.
  unfold flush_current_block. destruct (current_block b) as [block|] eqn:Ec; [|by constructor].
  pose proof (refuse_take b) as Hr. destruct (issue_all (bu_aliases b) (ck_parts block)) as [aliases markers] eqn:Ei.
  specialize (fun ids => Hr ids (ck_parts block)). rewrite Ei in Hr. cbn [fst] in Hr. cbv zeta.
  set (first_block := bool_decide (bu_lines b = [])). set (tokens := estimate_tokens (format_block block markers) + _).
  destruct ((budget b <? total_tokens b + tokens) && (0 <? total_tokens b)) eqn:Eb.
  { rewrite Hr. apply (flush_refused b block (identities b)); [done|]. by destruct (identities b). }
  assert (total_tokens b + tokens <= budget b \/ total_tokens b <= 0) as Ht.
  { apply andb_false_iff in Eb as [?%Z.ltb_ge | ?%Z.ltb_ge]; [by left | by right]. }
  destruct (identities b) as [s|] eqn:Es.
  - destruct (admit_metas to_vec s (ck_meta block) first_block) as [s' []] eqn:Ea.
    + apply (flush_accepted b block); rewrite ?Ei; [done | done | done | done | done|]. rewrite Es. by exists s'.
    + rewrite Hr. apply (flush_refused b block (Some s')); [done|]. rewrite Es. unfold admit_metas in Ea.
      destruct (foldl _ _ _) as [[len entries] m]. destruct (SELECTED_IDENTITY_BUDGET_BYTES <? len); [|done]. injection Ea as <-. done.
  - apply (flush_accepted b block); rewrite ?Ei; [done | done | done | done | done|]. by rewrite Es.
Qed.

(** A message joins the noise, extends the current block, opens one, or is refused. *)
Inductive push_result (b : Builder) (meta : MessageMeta) (part : MessagePart) : Builder * bool -> Prop :=
| push_noise : part_alias part = None -> push_result b meta part (with_current b (current_block b) (pending_noise_meta b ++ [meta]), true)
| push_extend block a hashes narrative :
    part_alias part = Some a -> current_block b = Some block ->
    push_result b meta part (with_current b (Some (extend_block block (pending_noise_meta b) meta a hashes narrative)) [], true)
| push_open b' a role start hashes tool_only :
    part_alias part = Some a -> flush_result b (b', true) ->
    push_result b meta part
      (with_current b' (Some (mkChunkBlock role start (mm_ordinal meta) [a] (pending_noise_meta b' ++ [meta]) hashes tool_only)) [], true)
| push_refused b' a : part_alias part = Some a -> flush_result b (b', false) -> push_result b meta part (b', false).

Lemma open_spec b meta part a role hashes tool_only :
  part_alias part = Some a -> push_result b meta part (open_block estimate_tokens to_vec b role meta a hashes tool_only).
Proof.
  intros Ha. unfold open_block. pose proof (flush_spec b) as Hf. destruct (flush b) as [b' []]; [by eapply push_open | by eapply push_refused].
Qed.

Lemma push_spec b meta part : push_result b meta part (push b (meta, part)).
Proof.
  unfold push_message. destruct part as [|a|role a hashes narrative]; [by apply push_noise| |].
  - unfold absorb_tool_only. destruct (current_block b) as [block|] eqn:Ec; [|by apply open_spec]. destruct (bool_decide _); [by eapply push_extend | by apply open_spec].
  - destruct (current_block b) as [block|] eqn:Ec; [|by apply open_spec]. destruct (bool_decide _); [by eapply push_extend | by apply open_spec].
Qed.
End Steps.

(** ** What the builder accounts for *)
Section Accounts.
Context (estimate_tokens : string -> Z) (to_vec : HistorySummarizerSelectedMessageIdentity -> string).
Context (start budget0 : Z) (known : list (string * list BlockIdentity)) (tracked : bool).

Definition cur_meta (b : Builder) : list MessageMeta := match current_block b with Some block => ck_meta block | None => [] end.
Definition names (metas : list MessageMeta) (a : Citations.FrozenAlias) : Prop := Citations.fa_ordinal a ∈ mm_ordinal <$> metas.
Definition ends_anchored (metas : list MessageMeta) : Prop := forall m, list.last metas = Some m -> mm_anchorable m = true.

(** The tokens of rendered blocks joined by newlines, counted one by one. *)
Definition tokens_of (texts : list string) : Z :=
  foldr (fun t acc => estimate_tokens t + acc) 0 texts + Z.of_nat (length texts - 1) * estimate_tokens NEWLINE.

Definition entry_of (m : MessageMeta) : option HistorySummarizerSelectedMessageIdentity := mkSelected (mm_mid m) <$> btree_get (mm_mid m) known.
Definition json_array (l : list HistorySummarizerSelectedMessageIdentity) : string := ("[" +:+ Trigger.join "," (to_vec <$> l) +:+ "]")%string.
Definition json_len (l : list HistorySummarizerSelectedMessageIdentity) : Z := Z.of_nat (String.length (json_array l)).

(** What a builder that tracks identities starts with. *)
Definition initial_ids : option IdentitySelection := if tracked then Some (selection_new known) else None.

(** The identities selected are those of the lines, and their JSON fits. *)
Definition identified (ids : option IdentitySelection) (metas : list MessageMeta) : Prop :=
  match ids with
  | None => tracked = false
  | Some s =>
      by_mid s = known /\ selected s = omap entry_of metas /\ serialized_len s = json_len (selected s)
      /\ serialized_len s <= SELECTED_IDENTITY_BUDGET_BYTES /\ (missing s = None -> Forall (fun m => is_Some (entry_of m)) metas)
  end.

Record accounts (b : Builder) (flushed pushed : list MessageMeta) : Prop := {
  acc_lines : line_meta b = line_of <$> flushed;
  acc_pushed : flushed ++ cur_meta b ++ pending_noise_meta b = pushed;
  acc_end : last_ordinal b = default (saturating_pred start) (mm_ordinal <$> list.last flushed);
  acc_anchor : ends_anchored flushed;
  acc_current : forall block, current_block b = Some block -> ck_meta block <> [] /\ ends_anchored (ck_meta block) /\ Forall (names (ck_meta block)) (ck_parts block);
  acc_aliases : Forall (names flushed) (bu_aliases b);
  acc_budget : budget b = budget0;
  acc_tokens : total_tokens b = tokens_of (bu_lines b) /\ (total_tokens b <= budget0 \/ tokens_of (removelast (bu_lines b)) <= 0);
  acc_ids : identified (identities b) flushed;
}.

Lemma tokens_of_snoc texts t :
  tokens_of (texts ++ [t]) = tokens_of texts + (estimate_tokens t + (if bool_decide (texts = []) then 0 else estimate_tokens NEWLINE)).
Proof.
  unfold tokens_of. rewrite foldr_app, length_app. cbn [foldr length].
  assert (Hf : forall x, foldr (fun t acc => estimate_tokens t + acc) x texts = foldr (fun t acc => estimate_tokens t + acc) 0 texts + x).
  { intros x. induction texts as [|y texts IH]; cbn; [lia|]. rewrite IH. lia. }
  rewrite Hf. destruct texts as [|y texts]; [cbn; lia|]. rewrite bool_decide_eq_false_2 by done. cbn [length].
  replace (S (length texts) + 1 - 1)%nat with (S (length texts)) by lia. replace (S (length texts) - 1)%nat with (length texts) by lia. lia.
Qed.

Lemma join_snoc sep l x : Trigger.join sep (l ++ [x]) = (match l with [] => x | _ => Trigger.join sep l +:+ sep +:+ x end)%string.
Proof.
  induction l as [|y l IH]; [done|]. change ((y :: l) ++ [x]) with (y :: (l ++ [x])). destruct l as [|w l]; [done|].
  change (Trigger.join sep (y :: ((w :: l) ++ [x]))) with (y +:+ sep +:+ Trigger.join sep ((w :: l) ++ [x]))%string. rewrite IH.
  change (Trigger.join sep (y :: w :: l)) with (y +:+ sep +:+ Trigger.join sep (w :: l))%string. by rewrite !append_assoc.
Qed.

Lemma json_len_snoc l e : json_len (l ++ [e]) = json_len l + (if bool_decide (l = []) then 0 else 1) + Z.of_nat (String.length (to_vec e)).
Proof.
  unfold json_len, json_array. rewrite fmap_app. cbn [fmap list_fmap]. rewrite join_snoc. destruct l as [|x l]; cbn [fmap list_fmap].
  - rewrite !CanonicalJson.length_append. cbn. lia.
  - rewrite bool_decide_eq_false_2 by done. rewrite !CanonicalJson.length_append. cbn [String.length]. lia.
Qed.

Lemma admit_fold sel metas : forall len entries m0 len' entries' m',
  foldl (admit_step to_vec known (bool_decide (sel = []))) (len, entries, m0) metas = (len', entries', m') -> len = json_len (sel ++ entries) ->
  entries' = entries ++ omap entry_of metas /\ len' = json_len (sel ++ entries') /\ (m' = None -> Forall (fun m => is_Some (entry_of m)) metas).
Proof.
  induction metas as [|m metas IH]; intros len entries m0 len' entries' m' H Hl.
  { cbn in H. simplify_eq. split; [by rewrite app_nil_r|]. split; [done | constructor]. }
  cbn [foldl] in H. assert (Hmiss : forall len entries x, (foldl (admit_step to_vec known (bool_decide (sel = []))) (len, entries, Some x) metas).2 <> None).
  { clear. induction metas as [|m metas IH]; intros len entries x; [done|]. cbn [foldl]. unfold admit_step at 2.
    destruct (btree_get (mm_mid m) known); apply IH. }
  unfold admit_step at 2 in H. cbn [omap list_omap]. destruct (btree_get (mm_mid m) known) as [ids|] eqn:Eg.
  - assert (entry_of m = Some (mkSelected (mm_mid m) ids)) as -> by (unfold entry_of; by rewrite Eg). apply IH in H as (-> & -> & Hm).
    + rewrite <- app_assoc. split; [done|]. split; [done|]. intros E. constructor; [unfold entry_of; rewrite Eg; by eexists | by apply Hm].
    + rewrite app_assoc, json_len_snoc, Hl. rewrite <- !Z.add_assoc. f_equal. f_equal.
      clear. destruct sel as [|x sel]; [done|]. rewrite (bool_decide_eq_false_2 (x :: sel = [])) by done. by rewrite (bool_decide_eq_false_2 ((x :: sel) ++ entries = [])) by done.
  - assert (entry_of m = None) as -> by (unfold entry_of; by rewrite Eg). pose proof (Hmiss len entries (default (mm_mid m) m0)) as Hn. assert (match m0 with Some _ => m0 | None => Some (mm_mid m) end = Some (default (mm_mid m) m0)) as Em by by destruct m0.
    rewrite Em in H. rewrite H in Hn. apply IH in H as (-> & -> & _); [|done]. split; [done|]. split; [done|]. intros E. by destruct Hn.
Qed.

Lemma admit_identified s metas flushed s' first :
  identified (Some s) flushed -> admit_metas to_vec s metas first = (s', true) -> identified (Some s') (flushed ++ metas).
Proof.
  intros (Hk & Hs & Hl & Hb & Hm). unfold admit_metas. rewrite Hk. destruct (foldl _ _ _) as [[len entries] m] eqn:E.
  destruct (Z.ltb_spec SELECTED_IDENTITY_BUDGET_BYTES len); [done|]. intros [= <-]. cbn.
  apply admit_fold in E as (-> & -> & Hn); [|by rewrite app_nil_r, Hl]. cbn [app] in *. rewrite omap_app, <- Hs.
  repeat split; [done|]. intros Em. apply Forall_app. destruct (missing s); [done|]. split; [by apply Hm | by apply Hn].
Qed.

Lemma names_mono metas l a : names metas a -> names (metas ++ l) a.
Proof. unfold names. rewrite fmap_app. set_solver. Qed.

Lemma ends_app l1 l2 : ends_anchored l1 -> ends_anchored l2 -> ends_anchored (l1 ++ l2).
Proof. intros H1 H2 m. rewrite last_app. destruct (list.last l2) eqn:E; [intros [= <-]; by apply H2 | apply H1]. Qed.

Lemma flush_kept b flushed pushed b' ok :
  accounts b flushed pushed -> flush_result estimate_tokens to_vec b (b', ok) ->
  exists flushed', accounts b' flushed' pushed /\ (ok = true -> current_block b' = None /\ flushed' ++ pending_noise_meta b' = pushed).
Proof.
  intros [Hl Hp He Ha Hc Hal Hb [Ht Hbt] Hi] Hf.
  inversion Hf as [Hn | block ids aliases text tokens Hcur Eal Etx Etk Hbud Hids | block ids Hcur Hids]; subst; clear Hf.
  - exists flushed. split; [by constructor|]. intros _. split; [done|]. unfold cur_meta. by rewrite Hn.
  - unfold cur_meta. destruct (Hc block) as (Hne & Hanch & Hparts); [done|]. exists (flushed ++ ck_meta block).
    assert (exists m, list.last (ck_meta block) = Some m) as [m Hm] by (destruct (list.last (ck_meta block)) eqn:E; [by eexists | by apply list.last_None in E]).
    split; [|intros _; split; [done|]; rewrite <- app_assoc; unfold cur_meta; by rewrite Hcur].
    destruct (issue_all_app (bu_aliases b) (ck_parts block)) as (l & El & Hal'). constructor; cbn.
    + by rewrite Hl, fmap_app.
    + unfold cur_meta. cbn. by rewrite <- app_assoc, Hcur.
    + by rewrite last_app, Hm.
    + by apply ends_app.
    + done.
    + rewrite El. apply Forall_app. split; [eapply Forall_impl; [exact Hal|]; intros; by apply names_mono|].
      eapply Forall_impl; [exact Hal'|]. cbn. intros a (q & Hq & Eq). rewrite Forall_forall in Hparts. specialize (Hparts q Hq).
      unfold names in *. rewrite Eq, fmap_app. set_solver.
    + done.
    + rewrite removelast_last, tokens_of_snoc, Ht. split; [done|]. destruct Hbud as [? | ?]; [left; lia | right; lia].
    + destruct (identities b) as [s|] eqn:Es; [|by subst]. destruct Hids as (s' & -> & Had). by eapply admit_identified.
  - exists flushed. split; [|done]. constructor; cbn; try done.
    + by rewrite firstn_all.
    + destruct (identities b) as [s|] eqn:Es, ids as [s'|]; try done. destruct Hids as (E1 & E2 & E3 & E4). destruct Hi as (? & ? & ? & ? & ?).
      cbn. by rewrite E1, E2, E3, E4.
Qed.

(** What a part must satisfy for its message. *)
Definition entry_ok (meta : MessageMeta) (part : MessagePart) : Prop :=
  forall a, part_alias part = Some a -> Citations.fa_ordinal a = mm_ordinal meta /\ mm_anchorable meta = true.

Lemma push_kept b flushed pushed meta part b' ok :
  accounts b flushed pushed -> entry_ok meta part -> push_result estimate_tokens to_vec b meta part (b', ok) ->
  exists flushed', accounts b' flushed' (if ok then pushed ++ [meta] else pushed).
Proof.
  intros Hacc Hok Hp. inversion Hp as [Hn | block a hashes narrative Hp1 Hcur | b1 a role st hashes tool_only Hp1 Hfl | b1 a Hp1 Hfl]; subst; clear Hp.
  - destruct Hacc. exists flushed. constructor; cbn; try done. unfold cur_meta in *. cbn. by rewrite !app_assoc, <- acc_pushed0, !app_assoc.
  - destruct Hacc. exists flushed. destruct (Hok a Hp1) as [Eo Ea]. destruct (acc_current0 block) as (Hne & _ & Hparts); [done|]. constructor; cbn; try done.
    + unfold cur_meta in *. cbn. rewrite Hcur in *. rewrite <- acc_pushed0. by rewrite <- !app_assoc.
    + intros x [= <-]. cbn. split; [by destruct (ck_meta block)|]. split.
      * intros m. rewrite app_assoc, last_snoc. by intros [= <-].
      * apply Forall_app. split; [eapply Forall_impl; [exact Hparts|]; intros; by apply names_mono|]. constructor; [|constructor].
        unfold names. rewrite Eo, !fmap_app. set_solver.
  - destruct (flush_kept _ _ _ _ _ Hacc Hfl) as (flushed' & Hacc' & Hcur). destruct (Hcur eq_refl) as [Hcn Epd]. destruct Hacc'.
    exists flushed'. destruct (Hok a Hp1) as [Eo Ea]. constructor; cbn; try done.
    + unfold cur_meta. cbn. rewrite app_nil_r, app_assoc. by rewrite Epd.
    + intros x [= <-]. cbn. split; [by destruct (pending_noise_meta b1)|]. split.
      * intros m. rewrite last_snoc. by intros [= <-].
      * constructor; [|constructor]. unfold names. rewrite Eo, fmap_app. set_solver.
  - destruct (flush_kept _ _ _ _ _ Hacc Hfl) as (flushed' & Hacc' & _). by exists flushed'.
Qed.

Lemma consume_kept entries : forall st flushed pushed,
  Forall (fun e => entry_ok e.1 e.2) entries -> accounts st.1 flushed pushed ->
  exists flushed' taken, accounts (ParallelMap.consume_all (consume_message estimate_tokens to_vec) st entries).1.1 flushed' (pushed ++ taken)
    /\ taken `prefix_of` entries.*1.
Proof.
  induction entries as [|[meta part] entries IH]; intros [b highest] flushed pushed Hok Hacc; cbn [ParallelMap.consume_all].
  { exists flushed, []. by rewrite app_nil_r. }
  apply Forall_cons in Hok as [Hok1 Hok]. pose proof (push_spec estimate_tokens to_vec b meta part) as Hp. unfold consume_message at 1.
  destruct (push_message estimate_tokens to_vec b (meta, part)) as [b' ok]. destruct (push_kept _ _ _ _ _ _ _ Hacc Hok1 Hp) as [flushed' Hacc'].
  destruct ok; [|exists flushed', []; rewrite app_nil_r; split; [done | apply prefix_nil]].
  set (st' := match current_block b' with None => _ | Some _ => _ end). assert (exists h, st' = ((b', h), true)) as [h ->] by (subst st'; destruct (current_block b'); by eexists).
  destruct (IH (b', h) flushed' (pushed ++ [meta]) Hok Hacc') as (flushed2 & taken & Hacc2 & Hpre). exists flushed2, (meta :: taken).
  rewrite <- app_assoc in Hacc2. split; [done|]. cbn. by apply prefix_cons.
Qed.

Lemma kept_accounts_new : accounts (builder_new budget0 start initial_ids) [] [].
Proof.
  constructor; cbn; try done.
  - split; [done | by right].
  - unfold initial_ids. destruct tracked eqn:Et; cbn; [|done]. repeat split; [done | constructor].
Qed.
End Accounts.

(** ** A built chunk *)
Section Chunk.
Context (estimate_tokens : string -> Z) (to_vec : HistorySummarizerSelectedMessageIdentity -> string).
Context (messages : list IngressMessage) (blocks : list FlatBlock) (known : list (string * list BlockIdentity)) (tracked : bool).

(** What the builder kept: the first [flushed] of the eligible messages, rendered as [texts]. *)
Record kept_chunk (start_ordinal token_budget eligible_end : Z) (built : HistorySummarizerBuiltChunk) (ids : option IdentitySelection)
    (flushed rest : list MessageMeta) (texts : list string) : Prop := {
  kc_start : start_index (bc_chunk built) = chunk_start messages start_ordinal eligible_end;
  kc_present : ch_present_ordinals (bc_chunk built) = input_ordinals messages;
  kc_eligible : message_meta <$> eligible_messages messages blocks (chunk_start messages start_ordinal eligible_end) eligible_end = flushed ++ rest;
  kc_lines : lines (bc_chunk built) = line_of <$> flushed;
  kc_end : end_index (bc_chunk built) = default (saturating_pred (chunk_start messages start_ordinal eligible_end)) (mm_ordinal <$> list.last flushed);
  kc_anchor : ends_anchored flushed;
  kc_aliases : Forall (names flushed) (aliases (bc_chunk built));
  kc_arcs : completed_tool_arcs (bc_chunk built) = ta_completed (tool_arcs blocks);
  kc_text : bc_text built = Trigger.join NEWLINE texts;
  kc_tokens : bc_token_estimate built = tokens_of estimate_tokens texts;
  kc_budget : bc_token_estimate built <= token_budget \/ tokens_of estimate_tokens (removelast texts) <= 0;
  kc_ids : identified to_vec known tracked ids flushed;
}.

Section Build.
Context (part_of : FlatMessage -> ToolPairs -> MessagePart) `{!PartSound part_of}.
Context (workers : option nat) (Hworkers : match workers with Some threads => (1 <= threads)%nat | None => True end).

Lemma entries_ok eligible :
  Forall (fun e => entry_ok e.1 e.2) ((fun m => (message_meta m, part_of m (tool_pairs blocks))) <$> eligible).
Proof.
  apply Forall_fmap, Forall_true. intros m a Ha. cbn in *. destruct (part_sound m (tool_pairs blocks) a Ha) as [Eo Hb]. split; [done|].
  unfold last_block_id. destruct (list.last (fm_blocks m)) eqn:E; [done | by apply list.last_None in E].
Qed.

Lemma build_chunk_spec start_ordinal token_budget eligible_end :
  let result := build_chunk estimate_tokens to_vec part_of workers messages blocks start_ordinal token_budget eligible_end (initial_ids known tracked) in
  exists flushed rest texts, kept_chunk start_ordinal token_budget eligible_end result.1 result.2 flushed rest texts.
Proof.
  cbv zeta. unfold build_chunk, run_builder. set (start := chunk_start messages start_ordinal eligible_end).
  rewrite (ParallelMap.map_until_pure _ _ (fun m => (message_meta m, part_of m (tool_pairs blocks)))) by done.
  set (eligible := eligible_messages messages blocks start eligible_end).
  destruct (consume_kept estimate_tokens to_vec start token_budget known tracked _ (builder_new token_budget start (initial_ids known tracked), saturating_pred start) [] []
    (entries_ok eligible) (kept_accounts_new estimate_tokens to_vec start token_budget known tracked)) as (flushed & taken & Hacc & Hpre).
  destruct (ParallelMap.consume_all _ _ _) as [[b highest] more]. cbn [fst snd app] in *.
  pose proof (flush_spec estimate_tokens to_vec b) as Hf. destruct (flush_current_block estimate_tokens to_vec b) as [b' ok].
  destruct (flush_kept _ _ _ _ _ _ _ _ _ _ _ Hacc Hf) as (flushed' & [] & _). destruct Hpre as [rest Hrest].
  exists flushed', (cur_meta b' ++ pending_noise_meta b' ++ rest), (bu_lines b'). constructor; cbn; try done.
  - rewrite !app_assoc. rewrite !app_assoc in acc_pushed0. rewrite acc_pushed0, <- Hrest. rewrite <- list_fmap_compose. done.
  - by destruct acc_tokens0.
  - by destruct acc_tokens0.
Qed.

End Build.

(** The messages of an inclusive range of ordinals, as the session has them. *)
Definition in_session (m : IngressMessage) (first last : Z) : Prop := im_synthetic m = false /\ first <= im_ordinal m /\ im_ordinal m <= last.
#[local] Instance in_session_dec m first last : Decision (in_session m first last).
Proof. unfold in_session. apply _. Defined.
Definition messages_between (first last : Z) : list IngressMessage := filter (fun m => in_session m first last) messages.

Definition meta_of (m : IngressMessage) : MessageMeta :=
  message_meta (mkFlatMessage (im_ordinal m) (im_mid m) (im_role m) (blocks_of blocks (im_mid m))).

Hypothesis Hsorted : StronglySorted Z.lt (input_ordinals messages).
Hypothesis Hbounds : Forall (fun o => 0 <= o < u64_MAX) (input_ordinals messages).

Lemma input_ordinals_elem m : m ∈ messages -> im_synthetic m = false -> im_ordinal m ∈ input_ordinals messages.
Proof. intros Hm Hs. unfold input_ordinals. apply list_elem_of_fmap_2. by apply list_elem_of_filter. Qed.

Lemma filter_sorted (P : IngressMessage -> Prop) `{!forall m, Decision (P m)} :
  (forall m, P m -> im_synthetic m = false) -> StronglySorted Z.lt (im_ordinal <$> filter P messages).
Proof.
  intros HP. revert Hsorted. unfold input_ordinals. clear -HP. induction messages as [|m l IH]; intros Hs; [constructor|].
  rewrite list.filter_cons in Hs |- *. destruct (decide (im_synthetic m = false)) as [Hm|Hm].
  - cbn in Hs. apply StronglySorted_inv in Hs as [Hs Hf]. case_decide; [|by apply IH]. cbn. constructor; [by apply IH|].
    rewrite Forall_forall in *. intros x (y & -> & [HPy Hy]%list_elem_of_filter)%list_elem_of_fmap. apply Hf, list_elem_of_fmap_2, list_elem_of_filter. auto.
  - case_decide as Hp; [by apply HP in Hp | by apply IH].
Qed.

Lemma sorted_split (l1 l2 : list IngressMessage) x :
  StronglySorted Z.lt (im_ordinal <$> (l1 ++ l2)) -> list.last l1 = Some x ->
  Forall (fun y => im_ordinal y <= im_ordinal x) l1 /\ Forall (fun y => im_ordinal x < im_ordinal y) l2.
Proof.
  induction l1 as [|y l1 IH]; [done|]. cbn. intros [Hs Hf]%StronglySorted_inv Hl. rewrite Forall_forall in Hf. destruct l1 as [|z l1].
  - injection Hl as ->. split; [repeat constructor; lia|]. apply Forall_forall. intros w Hw. apply Hf, list_elem_of_fmap_2. set_solver.
  - rewrite list.last_cons_cons in Hl. destruct (IH Hs Hl) as [H1 H2]. split; [|done]. constructor; [|done].
    apply Z.lt_le_incl, Hf, list_elem_of_fmap_2, elem_of_app. left. apply last_Some_elem_of in Hl. done.
Qed.

(** The lines are the session's messages from the start to the end of the chunk. *)
Lemma kept_messages start_ordinal token_budget eligible_end built ids flushed rest texts :
  kept_chunk start_ordinal token_budget eligible_end built ids flushed rest texts -> flushed <> [] ->
  let c := bc_chunk built in
  flushed = meta_of <$> messages_between (start_index c) (end_index c) /\ end_index c < eligible_end
  /\ exists m, list.last (messages_between (start_index c) (end_index c)) = Some m /\ im_ordinal m = end_index c /\ m ∈ messages /\ in_session m (start_index c) (end_index c).
Proof.
  intros [] Hne. cbv zeta. rewrite kc_start0. set (start := chunk_start messages start_ordinal eligible_end) in *.
  unfold eligible_messages in kc_eligible0. rewrite <- list_fmap_compose in kc_eligible0. apply fmap_app_inv in kc_eligible0 as (l1 & l2 & -> & _ & El).
  destruct (list.last l1) as [x|] eqn:Ex; [|apply list.last_None in Ex; by subst].
  assert (end_index (bc_chunk built) = im_ordinal x) as Ee by by rewrite kc_end0, fmap_last, Ex.
  assert (x ∈ messages /\ in_session x start (im_ordinal x) /\ im_ordinal x < eligible_end) as (Hx & Hin & Hlt).
  { assert (x ∈ l1 ++ l2) as H by (apply elem_of_app; left; by apply last_Some_elem_of). rewrite <- El in H. apply list_elem_of_filter in H as [(? & ?) ?].
    unfold in_session. lia || (split; [done|]; split; [split; [done | lia] | lia]). }
  assert (messages_between start (end_index (bc_chunk built)) = l1) as Em.
  { destruct (sorted_split l1 l2 x) as [H1 H2]; [rewrite <- El; apply filter_sorted; tauto | done|]. rewrite Ee. unfold messages_between.
    transitivity (filter (fun m => im_ordinal m <= im_ordinal x) (l1 ++ l2)).
    - rewrite <- El, list_filter_filter. apply list_filter_iff. intros m. unfold in_session. split; [intros (? & ? & ?) | intros (? & ? & ?)]; split_and!; try done; lia.
    - rewrite filter_app, (filter_keep _ l1), (filter_drop_all _ l2), app_nil_r; [done | | done].
      eapply Forall_impl; [exact H2|]. cbn. intros; lia. }
  rewrite Em, Ee. split; [done|]. split; [done|]. exists x. done.
Qed.

Lemma ordinals_between first last : im_ordinal <$> messages_between first last = within first last (input_ordinals messages).
Proof.
  unfold messages_between, within, input_ordinals. clear. induction messages as [|m l IH]; [done|]. rewrite !list.filter_cons. unfold in_session at 1.
  destruct (decide (im_synthetic m = false)) as [Hm|Hm].
  - cbn [fmap list_fmap]. rewrite list.filter_cons. destruct (decide (first <= im_ordinal m <= last)) as [Hr|Hr].
    + rewrite decide_True by (split; [done | lia]). cbn [fmap list_fmap]. by rewrite IH.
    + rewrite decide_False by (intros (_ & ? & ?); lia). apply IH.
  - rewrite decide_False by (intros [? _]; contradiction). apply IH.
Qed.

Lemma compare_lines_refl l : compare_lines l l = None.
Proof. induction l as [|x l IH]; [done|]. cbn. by rewrite Z.eqb_refl. Qed.

Lemma exact_lines_cover c :
  ch_present_ordinals c = input_ordinals messages -> lines c <> [] -> line_ordinals c = within (start_index c) (end_index c) (input_ordinals messages) ->
  validate_chunk_coverage c = None.
Proof.
  intros Hp Hne Hl. unfold validate_chunk_coverage. rewrite Hp. destruct (input_ordinals messages) as [|o l] eqn:Ei.
  { exfalso. apply Hne. unfold line_ordinals in Hl. by apply fmap_nil_inv in Hl. }
  rewrite <- Ei in *. unfold validate_chunk_coverage_against. rewrite sorted_increasing by done.
  rewrite sorted_increasing by (rewrite Hl; by apply sorted_filter). rewrite filter_drop_all; [|rewrite Hl; apply Forall_forall].
  - cbn. rewrite Hl. apply compare_lines_refl.
  - intros x [Hx _]%list_elem_of_filter. lia.
Qed.

(** A chunk with lines passes the coverage check and has ordinals in bounds. *)
Lemma kept_covers start_ordinal token_budget eligible_end built ids flushed rest texts :
  kept_chunk start_ordinal token_budget eligible_end built ids flushed rest texts -> lines (bc_chunk built) <> [] ->
  let c := bc_chunk built in
  line_ordinals c = within (start_index c) (end_index c) (input_ordinals messages) /\ validate_chunk_coverage c = None /\ ordinals_ok c
  /\ start_index c <= end_index c < eligible_end.
Proof.
  intros Hk Hne. cbv zeta. assert (flushed <> []) as Hf by (intros ->; destruct Hk; by rewrite kc_lines0 in Hne).
  destruct (kept_messages _ _ _ _ _ _ _ _ Hk Hf) as (Ef & Hlt & m & _ & Em & Hm & Hin). destruct Hk. set (c := bc_chunk built) in *.
  assert (line_ordinals c = within (start_index c) (end_index c) (input_ordinals messages)) as Hl.
  { unfold line_ordinals. rewrite kc_lines0, Ef, <- ordinals_between, <- !list_fmap_compose. done. }
  split; [done|]. split; [by apply exact_lines_cover|]. rewrite Forall_forall in Hbounds.
  pose proof (Hbounds (im_ordinal m) (input_ordinals_elem m Hm (proj1 Hin))) as Hmb. destruct Hin as (Hsyn & Hs & He). split; [|lia].
  split; [|split; [|lia]].
  - rewrite Hl. apply Forall_forall. intros o [_ Ho]%list_elem_of_filter. by apply Hbounds.
  - rewrite kc_start0. unfold chunk_start. pose proof (z_min_spec (filter (fun o => start_ordinal <= o < eligible_end) (input_ordinals messages))) as Hz.
    destruct (Boundary.z_min _) as [x|] eqn:Ez; [|].
    + destruct Hz as [[_ Hx]%list_elem_of_filter _]. apply Hbounds in Hx. cbn. lia.
    + exfalso. assert (im_ordinal m ∈ filter (fun o => start_ordinal <= o < eligible_end) (input_ordinals messages)) as H; [|rewrite Hz in H; set_solver].
      apply list_elem_of_filter. split; [|by apply input_ordinals_elem]. rewrite kc_start0 in Hs. unfold chunk_start in Hs. rewrite Ez in Hs. cbn in Hs. lia.
Qed.
End Chunk.

(** ** Validation of a chunk that is sound by itself *)

(** The errors that only the model's output can cause. *)
Definition output_fault (e : ValidationError) : Prop :=
  match e with ParseFailed | NoSegments | InvalidOutput _ | SplitsToolArc => True | _ => False end.

Lemma emitted_fault c options parsed e : emitted_segments c options parsed = Err e -> output_fault e.
Proof.
  unfold emitted_segments. destruct (healed c parsed) as [segments unprocessed].
  destruct (map_parsed_history_segments_to_chunk _ _ _) as [m|x]; cbn [map_err mbind result_bind]; [|by intros [= <-]].
  destruct (validate_parsed_history_segments _ _ _ _ _); [by intros [= <-]|]. destruct (match list.last segments with Some _ => _ | None => _ end); [by intros [= <-] | done].
Qed.

(** A chunk that follows the stored segments starts at or after the first message they leave. *)
Lemma prior_offset c prior :
  check_prior c prior = None -> match st_end <$> list.last prior with Some e => SummaryValidate.saturating_succ e | None => start_index c end <= start_index c.
Proof.
  unfold check_prior. destruct (list.last prior) as [p|]; cbn; [|lia]. destruct (Z.leb_spec (start_index c) (st_end p)); [done|].
  unfold SummaryValidate.saturating_succ. lia.
Qed.

Lemma validate_faults parse text c prior options e :
  ordinals_ok c -> validate_chunk_coverage c = None -> validate_stored_history_segments prior = None -> check_prior c prior = None ->
  validate_history_summarizer_output parse text c prior options = Err e -> output_fault e.
Proof.
  intros Hok Hcov Hst Hpr. unfold validate_history_summarizer_output. rewrite Hcov, Hst, Hpr. destruct (parse text) as [parsed|]; [|by intros [= <-]].
  cbn [ok_or mbind result_bind]. destruct (po_history_segments parsed) as [|s0 l0] eqn:Ep; [by intros [= <-]|].
  destruct (emitted_segments c options parsed) as [emitted|x] eqn:Ee; [|cbn; intros [= <-]; by eapply emitted_fault]. cbn [mbind result_bind].
  assert (po_history_segments parsed <> []) as Hne by by rewrite Ep.
  destruct (kept_spec c options parsed emitted Ee Hne) as (Hk & Ht & _). unfold publish. destruct (discard_last c options emitted) as [kept discarded]. cbn [fst] in *.
  destruct (list.last kept) as [s|] eqn:El; [|by apply list.last_None in El]. destruct (tiles_chunk_last c Hok Hcov kept s Ht El) as [Hs _].
  change (default 0 (vs_end <$> Some s)) with (vs_end s). set (offset := match st_end <$> list.last prior with Some _ => _ | None => _ end).
  assert (offset <= start_index c) as Hoff by by apply prior_offset.
  rewrite (proj2 (Z.ltb_ge _ _)) by lia. destruct (extract_facts _ _ _ _), (attach_claims _ _ _). done.
Qed.

(** ** Where a firing starts *)
Lemma stored_loop_ends p l : stored_loop p l = None -> Forall (fun s => p < st_end s) l /\ forall x, list.last l = Some x -> Forall (fun s => st_end s <= st_end x) l.
Proof.
  revert p. induction l as [|s l IH]; intros p; [done|]. cbn [stored_loop]. destruct (Z.ltb_spec (st_end s) (st_start s)); [done|].
  destruct (Z.leb_spec (st_start s) p); [done|]. intros Hl. destruct (IH _ Hl) as [H1 H2]. split.
  - constructor; [lia|]. eapply Forall_impl; [exact H1|]. cbn. intros; lia.
  - intros x Hx. destruct l as [|y l]; [injection Hx as <-; repeat constructor; lia|]. rewrite list.last_cons_cons in Hx. specialize (H2 x Hx).
    constructor; [|done]. apply last_Some_elem_of in Hx. rewrite Forall_forall in H1. specialize (H1 x Hx). lia.
Qed.

Lemma stored_last_max l s : validate_stored_history_segments l = None -> list.last l = Some s -> Boundary.z_max (st_end <$> l) = Some (st_end s).
Proof.
  intros Hv Hl. assert (Forall (fun x => st_end x <= st_end s) l) as Hf.
  { destruct l as [|x l]; [done|]. cbn in Hv. destruct (Z.ltb_spec (st_end x) (st_start x)); [done|]. destruct (stored_loop_ends _ _ Hv) as [H1 H2].
    destruct l as [|y l]; [injection Hl as <-; repeat constructor; lia|]. rewrite list.last_cons_cons in Hl. constructor; [|by apply H2].
    rewrite Forall_forall in H1. apply last_Some_elem_of in Hl. specialize (H1 s Hl). lia. }
  pose proof (z_max_spec (st_end <$> l)) as Hz. apply last_Some_elem_of in Hl. destruct (Boundary.z_max _) as [m|].
  - destruct Hz as [Hm Hmax]. f_equal. apply Z.le_antisymm; [|by apply Hmax, list_elem_of_fmap_2].
    apply list_elem_of_fmap in Hm as (x & -> & Hx). rewrite Forall_forall in Hf. by apply Hf.
  - apply fmap_nil_inv in Hz. subst. set_solver.
Qed.

Lemma stored_last_valid l s : validate_stored_history_segments l = None -> list.last l = Some s -> validate_stored_history_segments [s] = None.
Proof.
  assert (H : forall l p, stored_loop p l = None -> list.last l = Some s -> st_end s <? st_start s = false).
  { clear. induction l as [|x l IH]; intros p; [done|]. cbn [stored_loop]. destruct (st_end x <? st_start x) eqn:Ex; [done|]. destruct (_ <=? p); [done|]. intros Hl.
    destruct l as [|y l]; [by intros [= <-]|]. rewrite list.last_cons_cons. by eapply IH. }
  destruct l as [|x l]; [done|]. cbn. destruct (st_end x <? st_start x) eqn:Ex; [done|]. intros Hl.
  destruct l as [|y l]; [intros [= <-]; by rewrite Ex|]. rewrite list.last_cons_cons. intros Hs. by rewrite (H _ _ Hl Hs).
Qed.

Lemma first_unsummarized_present messages segments eligible_end start :
  first_unsummarized messages segments eligible_end = Some start -> start ∈ input_ordinals messages /\ start < eligible_end.
Proof.
  unfold first_unsummarized. destruct (Boundary.z_max _) as [e|].
  - set (l := filter _ _). pose proof (z_min_spec l) as Hz. intros E. rewrite E in Hz. destruct Hz as [[? ?]%list_elem_of_filter _]. split; [done | lia].
  - set (l := filter (fun o => o < eligible_end) _). pose proof (z_min_spec l) as Hz. intros E. rewrite E in Hz.
    destruct Hz as [[? (m & -> & [[? ?] ?]%list_elem_of_filter)%list_elem_of_fmap]%list_elem_of_filter _]. split; [by apply input_ordinals_elem | lia].
Qed.

(** The chunk starts at the next message after the stored segments. *)
Lemma first_unsummarized_next messages segments eligible_end start s :
  StronglySorted Z.lt (input_ordinals messages) -> validate_stored_history_segments segments = None -> list.last segments = Some s ->
  first_unsummarized messages segments eligible_end = Some start ->
  st_end s < start /\ next_present_after (input_ordinals messages) (st_end s) = Some start.
Proof.
  intros Hs Hv Hl. unfold first_unsummarized. rewrite (stored_last_max _ _ Hv Hl). set (l := filter _ _). pose proof (z_min_spec l) as Hz. intros E. rewrite E in Hz.
  destruct Hz as [Hin Hmin]. apply list_elem_of_filter in Hin as [Hr Hin]. split; [lia|].
  pose proof (next_present_spec _ (st_end s) Hs) as Hn. destruct (next_present_after _ _) as [o|]; [|specialize (Hn start Hin); lia].
  destruct Hn as (Ho & Hlt & Hleast). f_equal. apply Z.le_antisymm; [apply Hleast; [done | lia]|].
  apply Hmin, list_elem_of_filter. pose proof (Hleast start Hin). split; [lia | done].
Qed.

Lemma chunk_start_exact messages start eligible_end : start ∈ input_ordinals messages -> start < eligible_end -> chunk_start messages start eligible_end = start.
Proof.
  intros Hin Hlt. unfold chunk_start. set (l := filter _ _). pose proof (z_min_spec l) as Hz. assert (start ∈ l) as Hl by (apply list_elem_of_filter; split; [lia | done]).
  destruct (Boundary.z_min l) as [x|]; [|rewrite Hz in Hl; set_solver]. destruct Hz as [[? _]%list_elem_of_filter Hmin]. specialize (Hmin start Hl). cbn. lia.
Qed.

(** ** The chunk of a firing *)
Lemma reach_loop_spec n c eligible_end e e' : reach_loop n c eligible_end e = Some e' -> e' = e \/ e < e' < eligible_end.
Proof.
  revert e. induction n as [|n IH]; intros e; cbn; [intros [= ->]; by left|]. destruct (List.find _ _) as [arc|] eqn:Ef; [|intros [= ->]; by left].
  apply List.find_some in Ef as [_ [_ Hlt%Z.ltb_lt]%andb_true_iff]. destruct (start_index c <? r_start arc); [intros [= ->]; by left|].
  destruct (Z.leb_spec eligible_end (r_end arc)); [done|]. intros [-> | ?]%IH; right; lia.
Qed.

Lemma placeholder_reach_spec c eligible_end reach : placeholder_reach c eligible_end = Some reach -> end_index c < reach < eligible_end.
Proof.
  unfold placeholder_reach. destruct (reach_loop _ _ _ _) as [e|] eqn:E; [|done]. apply reach_loop_spec in E.
  destruct (Z.eqb_spec e (end_index c)); [done|]. intros [= <-]. destruct E; [done | lia].
Qed.

Section Firing.
Context (estimate_tokens : string -> Z) (to_vec : HistorySummarizerSelectedMessageIdentity -> string).
Context (part_of : FlatMessage -> ToolPairs -> MessagePart) `{!PartSound part_of} (available : nat) (pool_built : bool).
Context (model_chain_digest : list string -> string).
Context (messages : list IngressMessage) (live : list FlatBlock) (known : list (string * list BlockIdentity)) (config : HistorySummarizerAssemblerConfig).
Let workers := ParallelMap.pool available pool_built.
Hypothesis Hsorted : StronglySorted Z.lt (input_ordinals messages).
Hypothesis Hbounds : Forall (fun o => 0 <= o < u64_MAX) (input_ordinals messages).

Lemma pool_workers : match workers with Some threads => (1 <= threads)%nat | None => True end.
Proof. subst workers. destruct (ParallelMap.pool available pool_built) as [t|] eqn:E; [|done]. apply ParallelMap.pool_some in E. lia. Qed.


(** The chunk of a firing is one the builder kept, from the same start. *)
Lemma assembled_kept start failures :
  start < cf_eligible_end config -> start ∈ input_ordinals messages ->
  let result := assembled_chunk estimate_tokens to_vec part_of workers messages live known config start failures in
  exists budget eligible_end flushed rest texts,
    kept_chunk estimate_tokens to_vec messages live known true start budget eligible_end result.1 result.2 flushed rest texts
    /\ start < eligible_end <= cf_eligible_end config.
Proof.
  intros Hlt Hin. cbv zeta. unfold assembled_chunk.
  set (build := fun budget e => build_chunk estimate_tokens to_vec part_of workers messages live start budget e (Some (selection_new known))).
  fold (build (retry_token_budget (cf_token_budget config) failures) (cf_eligible_end config)).
  assert (Hb : forall budget e, exists flushed rest texts, kept_chunk estimate_tokens to_vec messages live known true start budget e (build budget e).1 (build budget e).2 flushed rest texts).
  { intros budget e. exact (build_chunk_spec estimate_tokens to_vec messages live known true part_of workers pool_workers start budget e). }
  set (first := build _ _). destruct (Hb (retry_token_budget (cf_token_budget config) failures) (cf_eligible_end config)) as (fl & rest & texts & Hk). fold first in Hk.
  assert (Hfirst : exists budget eligible_end flushed rest texts,
    kept_chunk estimate_tokens to_vec messages live known true start budget eligible_end first.1 first.2 flushed rest texts /\ start < eligible_end <= cf_eligible_end config)
    by (do 5 eexists; split; [exact Hk | lia]).
  destruct (_ <=? failures); [|exact Hfirst]. destruct (placeholder_reach _ _) as [reach|] eqn:Er; [|exact Hfirst]. apply placeholder_reach_spec in Er.
  change (build_chunk estimate_tokens to_vec part_of workers messages live start (cf_token_budget config) (reach + 1) (Some (selection_new known))) with (build (cf_token_budget config) (reach + 1)).
  destruct (reach <=? _); [|exact Hfirst]. destruct (Hb (cf_token_budget config) (reach + 1)) as (fl' & rest' & texts' & Hk'). do 5 eexists. split; [exact Hk'|].
  assert (start - 1 <= end_index (bc_chunk first.1)); [|lia]. pose proof Hk as []. rewrite kc_end0. destruct (list.last fl) as [m|] eqn:El.
  - cbn. assert (lines (bc_chunk first.1) <> []) as Hne by (rewrite kc_lines0; destruct fl; done).
    destruct (kept_covers estimate_tokens to_vec messages live known true Hsorted Hbounds start (retry_token_budget (cf_token_budget config) failures)
      (cf_eligible_end config) first.1 first.2 fl rest texts Hk Hne) as (_ & _ & _ & Hr).
    rewrite kc_start0, chunk_start_exact in Hr by done. rewrite kc_end0 in Hr. cbn in Hr. lia.
  - cbn. rewrite chunk_start_exact by done. unfold saturating_pred. lia.
Qed.

(** ** What a firing is made of *)
Lemma whole_aliases_prefix cursor kept l : whole_aliases cursor kept l `prefix_of` l.
Proof.
  revert cursor. induction l as [|a l IH]; intros cursor; [done|]. cbn [whole_aliases]. destruct (String.index _ _ _); [|apply prefix_nil].
  case_bool_decide; [apply prefix_cons, IH | apply prefix_nil].
Qed.

(** Presenting a chunk withdraws the last aliases at most. *)
Lemma presented_same built budget :
  let built' := (presented_input estimate_tokens built budget).1 in
  exists table, bc_chunk built' = with_aliases (bc_chunk built) table /\ table `prefix_of` aliases (bc_chunk built) /\ bc_token_estimate built' = bc_token_estimate built.
Proof.
  cbv zeta. unfold presented_input. case_bool_decide; cbn.
  - exists (aliases (bc_chunk built)). split; [by destruct (bc_chunk built) | done].
  - eexists. split; [done|]. split; [apply whole_aliases_prefix | done].
Qed.

Lemma assemble_inv snapshot firing :
  assemble_history_summarizer_firing estimate_tokens to_vec part_of workers model_chain_digest snapshot messages live known config = Fire firing ->
  exists start failures budget chunk ids,
    first_unsummarized messages (newest_history_segments snapshot) (cf_eligible_end config) = Some start
    /\ assembled_chunk estimate_tokens to_vec part_of workers messages live known config start failures = (chunk, Some ids)
    /\ af_chunk firing = (presented_input estimate_tokens chunk budget).1 /\ lines (bc_chunk (af_chunk firing)) <> [] /\ missing ids = None
    /\ af_selected firing = selected ids /\ af_chunk_failures firing = failures
    /\ af_prior firing = match list.last (newest_history_segments snapshot) with Some s => [s] | None => [] end.
Proof.
  unfold assemble_history_summarizer_firing. destruct (cf_model_chain config) as [|model chain]; [done|]. rewrite <- ?app_comm_cons.
  destruct (first_unsummarized _ _ _) as [start|] eqn:Es; [|done]. destruct (_ <=? start); [done|]. cbv zeta. set (failures := chunk_failures _ _ _ _ _).
  set (budget := retry_token_budget _ _). destruct (assembled_chunk _ _ _ _ _ _ _ _ _ _) as [chunk ids] eqn:Ec. destruct ids as [ids|]; [|done].
  destruct (refused_len ids); [done|]. destruct (presented_input estimate_tokens chunk budget) as [chunk' input] eqn:Ep.
  destruct (bool_decide (bc_text chunk' = _)); [done|]. cbn [orb]. case_bool_decide as Hl; [done|]. destruct (_ && _); [done|].
  destruct (missing ids) eqn:Em; [done|]. intros [= <-]. exists start, failures, budget, chunk, ids. cbn. by rewrite Ep.
Qed.

Lemma assemble_no_panic snapshot :
  assemble_history_summarizer_firing estimate_tokens to_vec part_of workers model_chain_digest snapshot messages live known config <> AssemblyPanic.
Proof.
  unfold assemble_history_summarizer_firing. destruct (cf_model_chain config) as [|model chain]; [done|].
  destruct (first_unsummarized _ _ _) as [start|] eqn:Es; [|done]. destruct (Z.leb_spec (cf_eligible_end config) start); [done|]. cbv zeta.
  apply first_unsummarized_present in Es as [Hin Hlt]. set (failures := chunk_failures _ _ _ _ _).
  destruct (assembled_kept start failures Hlt Hin) as (? & ? & ? & ? & ? & [] & _). destruct (assembled_chunk _ _ _ _ _ _ _ _ _ _) as [chunk [ids|]]; [|done].
  destruct (refused_len ids); [done|]. destruct (presented_input _ _ _). destruct (_ || _); [done|]. destruct (_ && _); [done|]. by destruct (missing ids).
Qed.

Lemma selected_mids ids metas : identified to_vec known true (Some ids) metas -> missing ids = None -> se_mid <$> selected ids = mm_mid <$> metas.
Proof.
  intros (_ & -> & _ & _ & Hm) Hn. specialize (Hm Hn). clear -Hm. induction Hm as [|m metas [e He] Hm IH]; [done|]. cbn [omap list_omap fmap list_fmap].
  rewrite He. cbn. rewrite <- IH. f_equal. unfold entry_of in He. destruct (btree_get _ _); [|done]. by injection He as <-.
Qed.
End Firing.

(** C17: a firing that is assembled is sound by itself: it starts at the next message after the stored
    history and ends below the eligible end; its lines are exactly the session's messages in between, the
    last one with a block to anchor on; every alias it offers belongs to one of them; the identities sent
    along are those of these messages, and their JSON is within its budget; assembly never panics. So
    validation of whatever the model answers can only fail because of the answer. *)
Theorem assembled_firing_sound (estimate_tokens : string -> Z) (to_vec : HistorySummarizerSelectedMessageIdentity -> string)
    (part_of : FlatMessage -> ToolPairs -> MessagePart) (available : nat) (pool_built : bool) (model_chain_digest : list string -> string)
    (snapshot : AssemblySnapshot) (messages : list IngressMessage) (live : list FlatBlock) (known : list (string * list BlockIdentity))
    (config : HistorySummarizerAssemblerConfig) (parse : string -> option ParsedHistorySegmentOutput) (text : string) :
  PartSound part_of -> StronglySorted Z.lt (input_ordinals messages) -> Forall (fun o => 0 <= o < u64_MAX) (input_ordinals messages) ->
  validate_stored_history_segments (newest_history_segments snapshot) = None ->
  match assemble_history_summarizer_firing estimate_tokens to_vec part_of (ParallelMap.pool available pool_built) model_chain_digest snapshot messages live known config with
  | AssemblyPanic => False
  | NoFire _ => True
  | Fire firing =>
      let c := bc_chunk (af_chunk firing) in
      first_unsummarized messages (newest_history_segments snapshot) (cf_eligible_end config) = Some (start_index c)
      /\ start_index c <= end_index c < cf_eligible_end config
      /\ line_ordinals c = within (start_index c) (end_index c) (input_ordinals messages)
      /\ (exists l, list.last (lines c) = Some l /\ ln_ordinal l = end_index c /\ anchorable l = true)
      /\ Forall (fun a => Citations.fa_ordinal a ∈ line_ordinals c) (aliases c)
      /\ se_mid <$> af_selected firing = im_mid <$> messages_between messages (start_index c) (end_index c)
      /\ json_len to_vec (af_selected firing) <= SELECTED_IDENTITY_BUDGET_BYTES
      /\ match validate_history_summarizer_output parse text c (af_prior firing) (af_options firing) with Ok _ => True | Err e => output_fault e end
  end.
Proof.
  intros Hpart Hs Hb Hst. pose proof (assemble_no_panic estimate_tokens to_vec part_of available pool_built model_chain_digest messages live known config Hs Hb snapshot) as Hnp.
  destruct (assemble_history_summarizer_firing _ _ _ _ _ _ _ _ _ _) as [firing|reason|] eqn:Ea; [|done | by destruct Hnp]. clear Hnp. cbv zeta.
  apply assemble_inv in Ea as (start & failures & budget & chunk & ids & Efu & Ec & Ech & Hne & Hm & Esel & _ & Epr).
  destruct (first_unsummarized_present _ _ _ _ Efu) as [Hin Hlt].
  destruct (assembled_kept estimate_tokens to_vec part_of available pool_built messages live known config Hs Hb start failures Hlt Hin)
    as (tb & ee & flushed & rest & texts & Hk & Hee). rewrite Ec in Hk. cbn [fst snd] in Hk.
  destruct (presented_same estimate_tokens chunk budget) as (table & Ew & Hpre & _). rewrite <- Ech in Ew. rewrite Ew in *. cbn [start_index end_index lines aliases with_aliases line_ordinals] in *.
  destruct (kept_covers _ _ _ _ _ _ Hs Hb _ _ _ _ _ _ _ _ Hk Hne) as (Hlo & Hcov & Hok & Hr).
  assert (flushed <> []) as Hf by (intros ->; destruct Hk; by rewrite kc_lines0 in Hne).
  destruct (kept_messages _ _ _ _ _ _ Hs _ _ _ _ _ _ _ _ Hk Hf) as (Ef & _ & _). pose proof Hk as [].
  assert (start_index (bc_chunk chunk) = start) as Est by (rewrite kc_start0; apply chunk_start_exact; [done | lia]).
  split; [by rewrite Est|]. split; [lia|]. split; [exact Hlo|]. split.
  { destruct (list.last flushed) as [m|] eqn:El; [|by apply list.last_None in El]. exists (line_of m). rewrite kc_lines0, fmap_last, El. split; [done|].
    split; [cbn; by rewrite kc_end0 | by apply kc_anchor0]. }
  split.
  { destruct Hpre as [l Hl]. rewrite Hl in kc_aliases0. apply Forall_app in kc_aliases0 as [Ha _]. eapply Forall_impl; [exact Ha|]. intros a.
    unfold names, line_ordinals. cbn [lines with_aliases]. rewrite kc_lines0, <- list_fmap_compose. done. }
  split; [rewrite Esel, (selected_mids to_vec known ids flushed kc_ids0 Hm), Ef, <- list_fmap_compose; done|].
  split; [destruct kc_ids0 as (_ & _ & El & Hle & _); rewrite Esel; lia|].
  destruct (validate_history_summarizer_output _ _ _ _ _) as [v|e] eqn:Ev; [done|]. apply validate_faults in Ev; [done | exact Hok | exact Hcov | |].
  - rewrite Epr. destruct (list.last _) as [s|] eqn:El; [by eapply stored_last_valid | done].
  - rewrite Epr. unfold check_prior. destruct (list.last (newest_history_segments snapshot)) as [s|] eqn:El; [|done]. cbn [list.last].
    destruct (first_unsummarized_next _ _ _ _ _ Hs Hst El Efu) as [Hgt Hnext]. cbn [start_index with_aliases]. rewrite Est. rewrite (proj2 (Z.leb_gt _ _)) by lia.
    assert (chunk_present_ordinals (with_aliases (bc_chunk chunk) table) = input_ordinals messages) as ->.
    { unfold chunk_present_ordinals. cbn [ch_present_ordinals with_aliases]. rewrite kc_present0. destruct (input_ordinals messages) eqn:Ei; [set_solver | done]. }
    by rewrite Hnext, Z.eqb_refl.
Qed.

(** A session of four messages, the first three eligible and nothing stored but a start. *)
Definition sample_message (o : Z) (mid role : string) : IngressMessage := mkIngress mid o role false.
Definition sample_block (o : Z) (mid role text : string) : FlatBlock :=
  mkFlat (mid +:+ "#0") mid o role "text" false None text "h" false (Text text).
Definition sample_messages : list IngressMessage :=
  [sample_message 1 "a" "user"; sample_message 2 "b" "assistant"; sample_message 3 "c" "user"; sample_message 5 "d" "assistant"].
Definition sample_blocks : list FlatBlock :=
  [sample_block 1 "a" "user" "use tabs"; sample_block 2 "b" "assistant" "done"; sample_block 3 "c" "user" "and spaces"; sample_block 5 "d" "assistant" "ok"].
Definition sample_known : list (string * list BlockIdentity) :=
  [("a", [mkIdentity "text" "1"]); ("b", [mkIdentity "text" "2"]); ("c", [mkIdentity "text" "3"]); ("d", [mkIdentity "text" "4"])]%string.
Definition sample_part : FlatMessage -> ToolPairs -> MessagePart := message_part id (fun _ => []) (fun _ => false) id id id.
Definition sample_outcome : AssembleOutcome :=
  assemble_history_summarizer_firing (fun t => Z.of_nat (String.length t)) se_mid sample_part (ParallelMap.pool 1 false) (fun _ => EmptyString)
    (mkAssembly [mkStored 0 0] 4 None) sample_messages sample_blocks sample_known (mkConfig ["m"%string] 1000 4 true true true false false false 1).

Lemma assembled_firing_sound_witness :
  match sample_outcome with Fire firing => end_index (bc_chunk (af_chunk firing)) < 4 /\ length (lines (bc_chunk (af_chunk firing))) = 3%nat | _ => False end.
Proof.
  pose proof (assembled_firing_sound (fun t => Z.of_nat (String.length t)) se_mid sample_part 1 false (fun _ => EmptyString) (mkAssembly [mkStored 0 0] 4 None)
    sample_messages sample_blocks sample_known (mkConfig ["m"%string] 1000 4 true true true false false false 1) (fun _ => None) EmptyString) as H.
  fold sample_outcome in H. assert (match sample_outcome with Fire firing => length (lines (bc_chunk (af_chunk firing))) = 3%nat | _ => False end) as Hf by (vm_compute; reflexivity).
  destruct sample_outcome as [firing|reason|]; [|destruct Hf | destruct Hf].
  destruct H as (_ & H & _); [by apply message_part_sound | by repeat constructor | by repeat constructor | reflexivity|]. split; [exact (proj2 H) | exact Hf].
Defined.
End ChunkProofs.
