(* ===== verification/ChunkOutput.v ===== *)
(** * ChunkOutput: what the model is shown, and what stands in for it (daemon/src/history_summarizer_chunk.rs)

    The presented text fits its budget and shows whole every alias that stays offered, each for the part of
    an eligible message; a placeholder segment, read back as it is written, is accepted by
    [SummaryValidate] and moves the floor on. *)
From S2P Require Import Prelude.
From S2P Require Import BTree.
From S2P Require Import CanonicalJson.
From S2P Require Import Payload.
From S2P Require Import Boundary.
From S2P Require Import BoundaryProofs.
From S2P Require Import ParallelMap.
From S2P Require Import Trigger.
From S2P Require Import Citations.
From S2P Require Import SummaryValidate.
From S2P Require Import SummaryText.
From S2P Require Import ChunkBuild.
From S2P Require Import ChunkProofs.
From Stdlib Require Import String.
From stdpp Require Import strings sorting sets.

#[local] Open Scope Z_scope.

Module ChunkOutput.
Import SummaryValidate SummaryText ChunkBuild ChunkProofs.

(** ** Substrings *)
Lemma substring_split s : forall at_ n m, String.substring at_ (n + m) s = (String.substring at_ n s +:+ String.substring (at_ + n) m s)%string.
Proof.
  induction s as [|a s IH]; intros at_ n m; [by destruct at_, n, m|]. destruct at_ as [|at_].
  - destruct n as [|n]; [done|]. change (String.substring 0 (S n + m) (String a s)) with (String a (String.substring 0 (n + m) s)). by rewrite IH.
  - change (String.substring (S at_) (n + m) (String a s)) with (String.substring at_ (n + m) s). by rewrite IH.
Qed.

Lemma substring_prefix_of s : forall n, String.prefix (String.substring 0 n s) s = true.
Proof. induction s as [|a s IH]; intros [|n]; try done. cbn. by destruct (Ascii.ascii_dec a a). Qed.

Lemma string_prefix_self s : String.prefix s s = true.
Proof. induction s as [|a s IH]; [done|]. cbn. by destruct (Ascii.ascii_dec a a). Qed.

Lemma index_from n marker s m : String.index n marker s = Some m -> (n <= m)%nat.
Proof.
  revert n m. induction s as [|a s IH]; intros n m; [destruct n, marker; cbn; try done; intros [= <-]; lia|]. destruct n as [|n]; [lia|]. cbn.
  destruct (String.index n marker s) eqn:E; [|done]. intros [= <-]. apply IH in E. lia.
Qed.

Lemma strip_suffix_app s t : strip_suffix t (s +:+ t)%string = Some s.
Proof.
  unfold strip_suffix. rewrite Payload.ends_with_app, CanonicalJson.length_append. replace (_ + _ - _)%nat with (String.length s) by lia.
  by rewrite CanonicalJson.substring_prefix.
Qed.

Lemma utf16_prefix_zero s : Payload.utf16_prefix s 0 = EmptyString.
Proof.
  unfold Payload.utf16_prefix. assert (forall t start, Payload.utf16_end t start 0 0 0 = 0%nat) as ->; [|by destruct s].
  induction t as [|a t IH]; intros start; [done|]. cbn. destruct (Payload.continues a); [apply IH|]. unfold Payload.len_utf16. by destruct (_ <? _).
Qed.

(** ** The presented text *)
Section Presented.
Context (estimate_tokens : string -> Z).

Definition fits (input : string) (budget : Z) (units : nat) : Prop := units = 0%nat \/ estimate_tokens (truncated_at input units) <= budget.

Lemma truncate_loop_fits fuel input budget : forall lo hi best, fits input budget best -> fits input budget (truncate_loop estimate_tokens fuel input budget lo hi best).
Proof.
  induction fuel as [|fuel IH]; intros lo hi best Hb; [done|]. cbn [truncate_loop]. destruct (lo <=? hi)%nat; [|done]. cbv zeta. set (mid := ((lo + hi) / 2)%nat).
  destruct (Z.leb_spec (estimate_tokens (truncated_at input mid)) budget); [apply IH; by right|]. destruct (mid =? 0)%nat; [done | by apply IH].
Qed.

(** The fuel is enough: more of it changes nothing. *)
Lemma truncate_loop_enough fuel fuel' input budget : forall lo hi best,
  (hi + 1 - lo < fuel)%nat -> (fuel <= fuel')%nat -> truncate_loop estimate_tokens fuel input budget lo hi best = truncate_loop estimate_tokens fuel' input budget lo hi best.
Proof.
  revert fuel'. induction fuel as [|fuel IH]; intros fuel' lo hi best Hf Hle; [lia|]. destruct fuel' as [|fuel']; [lia|]. cbn [truncate_loop].
  destruct (Nat.leb_spec lo hi); [|done]. cbv zeta. set (mid := ((lo + hi) / 2)%nat).
  assert (lo <= mid <= hi)%nat as [Hm1 Hm2] by (subst mid; split; [apply Nat.div_le_lower_bound; lia | apply Nat.div_le_upper_bound; lia]).
  destruct (_ <=? budget); [apply IH; lia|]. destruct (Nat.eqb_spec mid 0); [done | apply IH; lia].
Qed.

(** Each alias in turn occurs in the text after the one before it, its marker followed by all it presents. *)
Fixpoint shown_from (cursor : nat) (kept : string) (l : Citations.FrozenAliasTable) : Prop :=
  match l with
  | [] => True
  | a :: l =>
      let whole := (alias_marker (Citations.fa_alias a) +:+ Citations.presented a)%string in
      exists at_, (cursor <= at_)%nat /\ String.substring at_ (String.length whole) kept = whole /\ shown_from (at_ + String.length whole) kept l
  end.

Lemma whole_aliases_shown kept l : forall cursor, shown_from cursor kept (whole_aliases cursor kept l).
Proof.
  induction l as [|a l IH]; intros cursor; [done|]. cbn [whole_aliases]. set (marker := alias_marker (Citations.fa_alias a)).
  destruct (String.index cursor marker kept) as [at_|] eqn:Ei; [|done]. case_bool_decide as Ep; [|done]. cbn [shown_from]. fold marker. exists at_.
  split; [by eapply index_from|]. rewrite CanonicalJson.length_append. split; [|rewrite Nat.add_assoc; apply IH].
  rewrite substring_split, Ep. f_equal. by eapply String.index_correct1.
Qed.

Lemma presented_input_cases (built : HistorySummarizerBuiltChunk) (budget : Z) :
  let '(built', shown) := presented_input estimate_tokens built budget in
  (exists rest, aliases (bc_chunk built) = aliases (bc_chunk built') ++ rest)
  /\ (estimate_tokens shown <= budget \/ shown = TRUNCATION_MARKER)
  /\ (shown = bc_text built /\ built' = built
      \/ exists kept, shown = (kept +:+ TRUNCATION_MARKER)%string /\ String.prefix kept (bc_text built) = true
        /\ shown_from 0 kept (aliases (bc_chunk built'))).
Proof.
  unfold presented_input, truncate_history_summarizer_input_if_needed. cbv zeta. destruct (Z.leb_spec (estimate_tokens (bc_text built)) budget) as [Hfit|Hover].
  { rewrite bool_decide_eq_true_2 by done. split; [exists []; by rewrite app_nil_r|]. split; [by left | by left]. }
  pose proof (truncate_loop_fits (S (S (Payload.utf16_len (bc_text built)))) (bc_text built) budget 0 (Payload.utf16_len (bc_text built)) 0 (or_introl eq_refl)) as Hf.
  set (best := truncate_loop _ _ _ _ _ _ _) in *. set (kept := Payload.utf16_prefix (bc_text built) best).
  assert (estimate_tokens (truncated_at (bc_text built) best) <= budget \/ truncated_at (bc_text built) best = TRUNCATION_MARKER) as Hb.
  { destruct Hf as [E | ?]; [right | by left]. unfold truncated_at. by rewrite E, utf16_prefix_zero. }
  case_bool_decide as Et; cbn.
  - split; [exists []; by rewrite app_nil_r|]. split; [done | by left].
  - split; [|split; [done|]].
    + destruct (whole_aliases_prefix 0 (default (truncated_at (bc_text built) best) (strip_suffix TRUNCATION_MARKER (truncated_at (bc_text built) best))) (aliases (bc_chunk built))) as [rest Hr].
      exists rest. exact Hr.
    + right. exists kept. split; [done|]. split; [apply substring_prefix_of|]. unfold truncated_at. rewrite strip_suffix_app. apply whole_aliases_shown.
Qed.
End Presented.

(** ** What a built chunk shows *)
Definition whole (a : Citations.FrozenAlias) : string := (alias_marker (Citations.fa_alias a) +:+ Citations.presented a)%string.

(** Each alias in turn occurs whole after the one before it. *)
Fixpoint shows (text : string) (l : Citations.FrozenAliasTable) : Prop :=
  match l with [] => True | a :: l => exists before after, text = (before +:+ whole a +:+ after)%string /\ shows after l end.

Lemma shows_after p text l : shows text l -> shows (p +:+ text)%string l.
Proof. destruct l as [|a l]; [done|]. intros (b & r & -> & H). exists (p +:+ b)%string, r. by rewrite append_assoc. Qed.

Lemma shows_app text1 l1 text2 l2 : shows text1 l1 -> shows text2 l2 -> shows (text1 +:+ text2)%string (l1 ++ l2).
Proof.
  revert text1. induction l1 as [|a l1 IH]; intros text1 H1 H2; [by apply shows_after|]. destruct H1 as (b & r & -> & H1).
  exists b, (r +:+ text2)%string. split; [by rewrite !append_assoc | by apply IH].
Qed.

Lemma shows_before text l t : shows text l -> shows (text +:+ t)%string l.
Proof. intros H. rewrite <- (app_nil_r l). by apply shows_app. Qed.

Lemma shows_from text l : forall p, shows text l -> shown_from (String.length p) (p +:+ text)%string l.
Proof.
  revert text. induction l as [|a l IH]; intros text p; [done|]. intros (b & r & -> & H). cbn [shown_from]. fold (whole a).
  exists (String.length (p +:+ b)). rewrite CanonicalJson.length_append. split; [lia|].
  rewrite <- (append_assoc p b (whole a +:+ r)). split; [rewrite <- CanonicalJson.length_append; apply Citations.substring_app|].
  rewrite <- (append_assoc (p +:+ b) (whole a) r), <- !CanonicalJson.length_append. by apply IH.
Qed.

(** An alias and the part it was issued for: all but its name. *)
Definition issued_for (p a : Citations.FrozenAlias) : Prop :=
  Citations.presented a = Citations.presented p /\ Citations.fa_ordinal a = Citations.fa_ordinal p
  /\ Citations.fa_message_id a = Citations.fa_message_id p /\ Citations.block_ids a = Citations.block_ids p
  /\ Citations.block_hashes a = Citations.block_hashes p /\ Citations.transformed a = Citations.transformed p.

(** One part: its alias, if the table has room, and its rendering. *)
Lemma issue_shown table p :
  let '(table', alias) := Citations.issue table p in
  exists l, table' = table ++ l /\ shows (render_part p alias) l /\ Forall (issued_for p) l.
Proof.
  unfold Citations.issue. destruct (_ <=? _)%nat; [exists []; rewrite app_nil_r; by repeat split|].
  eexists [_]. split; [done|]. split; [|repeat constructor]. exists EmptyString, EmptyString. cbn [render_part]. split; [|done].
  unfold whole. cbn [Citations.fa_alias Citations.presented]. rewrite append_nil_r. done.
Qed.

Lemma join_cons sep x l : exists t, Trigger.join sep (x :: l) = (x +:+ t)%string /\ forall table, shows (Trigger.join sep l) table -> shows t table.
Proof.
  destruct l as [|y l]; [exists EmptyString; by rewrite append_nil_r|]. exists (sep +:+ Trigger.join sep (y :: l))%string. split; [done|].
  intros table. apply shows_after.
Qed.

Lemma issue_all_shown parts : forall table,
  let '(table', markers) := issue_all table parts in
  exists l, table' = table ++ l /\ shows (Trigger.join " / " (zip_with render_part parts markers)) l
    /\ Forall (fun a => exists p, p ∈ parts /\ issued_for p a) l.
Proof.
  induction parts as [|p parts IH]; intros table; [exists []; rewrite app_nil_r; by repeat split|]. cbn [issue_all].
  pose proof (issue_shown table p) as H1. destruct (Citations.issue table p) as [table1 alias]. destruct H1 as (l1 & -> & Hs1 & Hf1).
  specialize (IH (table ++ l1)). destruct (issue_all (table ++ l1) parts) as [table2 markers]. destruct IH as (l2 & -> & Hs2 & Hf2).
  exists (l1 ++ l2). split; [by rewrite app_assoc|]. cbn [zip_with]. split.
  - destruct (join_cons " / " (render_part p alias) (zip_with render_part parts markers)) as (t & -> & Ht). apply shows_app; [done | by apply Ht].
  - apply Forall_app. split; (eapply Forall_impl; [eassumption|]); cbn; [intros a Ha; exists p | intros a (q & Hq & Ha); exists q]; set_solver.
Qed.

Lemma format_block_shown block table :
  let '(table', markers) := issue_all table (ck_parts block) in
  exists l, table' = table ++ l /\ shows (format_block block markers) l /\ Forall (fun a => exists p, p ∈ ck_parts block /\ issued_for p a) l.
Proof.
  pose proof (issue_all_shown (ck_parts block) table) as H. destruct (issue_all table (ck_parts block)) as [table' markers].
  destruct H as (l & -> & Hs & Hf). exists l. split; [done|]. split; [|done]. unfold format_block, Trigger.format_block_line. by repeat apply shows_after.
Qed.

Section Built.
Context (estimate_tokens : string -> Z) (to_vec : HistorySummarizerSelectedMessageIdentity -> string) (given : Citations.FrozenAlias -> Prop).

Definition issued_here (a : Citations.FrozenAlias) : Prop := exists p, given p /\ issued_for p a.

(** The text so far shows every alias issued so far, each for a part that was given. *)
Record presents (b : Builder) : Prop := {
  pr_shown : shows (Trigger.join NEWLINE (bu_lines b)) (bu_aliases b);
  pr_issued : Forall issued_here (bu_aliases b);
  pr_parts : forall block, current_block b = Some block -> Forall given (ck_parts block);
}.

Lemma flush_presents b b' ok : presents b -> flush_result estimate_tokens to_vec b (b', ok) -> presents b'.
Proof.
  intros [Hs Hi Hp] Hf. inversion Hf as [Hn | block ids table text tokens Hcur Eal Etx Etk Hbud Hids | block ids Hcur Hids]; subst; clear Hf; [by split| |].
  - pose proof (format_block_shown block (bu_aliases b)) as H. destruct (issue_all (bu_aliases b) (ck_parts block)) as [table markers].
    destruct H as (l & -> & Hl & Hfor). split; cbn [accept bu_lines bu_aliases current_block fst snd]; [| |done].
    + rewrite join_snoc. destruct (bu_lines b) as [|x lines].
      * destruct (bu_aliases b) as [|a rest]; [done|]. cbn in Hs. destruct Hs as (before & after & He & _).
        exfalso. unfold whole, alias_marker, ALIAS_OPEN in He. by destruct before.
      * apply shows_app; [done | by apply shows_after].
    + apply Forall_app. split; [done|]. eapply Forall_impl; [exact Hfor|]. intros a (p & Hin & Ha). exists p. split; [|done].
      specialize (Hp block Hcur). rewrite Forall_forall in Hp. by apply Hp.
  - split; cbn [refuse bu_lines bu_aliases current_block]; rewrite ?firstn_all; done.
Qed.

Lemma push_presents b meta part b' ok :
  presents b -> (forall a, part_alias part = Some a -> given a) -> push_result estimate_tokens to_vec b meta part (b', ok) -> presents b'.
Proof.
  intros Hb Hg Hp. inversion Hp as [Hn | block a hashes narrative Hp1 Hcur | b1 a role st hashes tool_only Hp1 Hfl | b1 a Hp1 Hfl]; subst; clear Hp.
  - by destruct Hb.
  - destruct Hb as [H1 H2 H3]. split; [done | done|]. intros x [= <-]. cbn. apply Forall_app. split; [by apply H3|]. constructor; [by apply Hg | constructor].
  - destruct (flush_presents _ _ _ Hb Hfl) as [H1 H2 H3]. split; [done | done|]. intros x [= <-]. cbn. constructor; [by apply Hg | constructor].
  - by eapply flush_presents.
Qed.

Lemma consume_presents entries : forall st,
  Forall (fun e => forall a, part_alias e.2 = Some a -> given a) entries -> presents st.1 ->
  presents (ParallelMap.consume_all (consume_message estimate_tokens to_vec) st entries).1.1.
Proof.
  induction entries as [|[meta part] entries IH]; intros [b highest] Hg Hb; cbn [ParallelMap.consume_all]; [done|].
  apply Forall_cons in Hg as [Hg1 Hg]. pose proof (push_spec estimate_tokens to_vec b meta part) as Hp. unfold consume_message at 1.
  destruct (push_message estimate_tokens to_vec b (meta, part)) as [b' ok]. pose proof (push_presents _ _ _ _ _ Hb Hg1 Hp) as Hb'.
  destruct ok; [|done]. destruct (current_block b'); by apply IH.
Qed.
End Built.

(** The part of an eligible message. *)
Definition part_given (part_of : FlatMessage -> ToolPairs -> MessagePart) (blocks : list FlatBlock) (eligible : list FlatMessage)
    (p : Citations.FrozenAlias) : Prop :=
  exists m, m ∈ eligible /\ part_alias (part_of m (tool_pairs blocks)) = Some p.

Lemma build_chunk_presents estimate_tokens to_vec part_of workers messages blocks start_ordinal token_budget eligible_end ids :
  match workers with Some threads => (1 <= threads)%nat | None => True end ->
  let built := (build_chunk estimate_tokens to_vec part_of workers messages blocks start_ordinal token_budget eligible_end ids).1 in
  let eligible := eligible_messages messages blocks (chunk_start messages start_ordinal eligible_end) eligible_end in
  shows (bc_text built) (aliases (bc_chunk built)) /\ Forall (issued_here (part_given part_of blocks eligible)) (aliases (bc_chunk built)).
Proof.
  intros Hw. cbv zeta. unfold build_chunk, run_builder. set (start := chunk_start messages start_ordinal eligible_end).
  rewrite (ParallelMap.map_until_pure _ _ (fun m => (message_meta m, part_of m (tool_pairs blocks)))) by done.
  set (eligible := eligible_messages messages blocks start eligible_end). set (given := part_given part_of blocks eligible).
  assert (presents given (builder_new token_budget start ids)) as Hb by (by split; [|constructor|]).
  assert (Forall (fun e => forall a, part_alias e.2 = Some a -> given a) ((fun m => (message_meta m, part_of m (tool_pairs blocks))) <$> eligible)) as Hg.
  { apply Forall_fmap, Forall_forall. intros m Hm a Ha. by exists m. }
  pose proof (consume_presents estimate_tokens to_vec given _ (builder_new token_budget start ids, saturating_pred start) Hg Hb) as Hc.
  destruct (ParallelMap.consume_all _ _ _) as [[b highest] more]. cbn [fst snd] in *.
  pose proof (flush_spec estimate_tokens to_vec b) as Hf. destruct (flush_current_block estimate_tokens to_vec b) as [b' ok].
  destruct (flush_presents estimate_tokens to_vec given _ _ _ Hc Hf). done.
Qed.

(** C18: the text the model is shown is the built chunk's text, or a prefix of it closed by the truncation mark;
    it fits the token budget unless nothing but the mark is left. Aliases are withdrawn from
    the end only, and none when the text is whole. Every alias that stays offered was shown whole: the text holds,
    in order and without overlap, its marker followed by all the bytes a citation may name, and these are the
    bytes, blocks and ordinal of the part of an eligible message. *)
Theorem presented_input_sound (estimate_tokens : string -> Z) (to_vec : HistorySummarizerSelectedMessageIdentity -> string)
    (part_of : FlatMessage -> ToolPairs -> MessagePart) (available : nat) (pool_built : bool) (messages : list IngressMessage) (blocks : list FlatBlock)
    (start_ordinal token_budget eligible_end : Z) (ids : option IdentitySelection) (budget : Z) :
  let built := (build_chunk estimate_tokens to_vec part_of (ParallelMap.pool available pool_built) messages blocks start_ordinal token_budget eligible_end ids).1 in
  let eligible := eligible_messages messages blocks (chunk_start messages start_ordinal eligible_end) eligible_end in
  let '(built', shown) := presented_input estimate_tokens built budget in
  (exists rest, aliases (bc_chunk built) = aliases (bc_chunk built') ++ rest)
  /\ (estimate_tokens shown <= budget \/ shown = TRUNCATION_MARKER)
  /\ (exists kept, String.prefix kept (bc_text built) = true /\ shown_from 0 kept (aliases (bc_chunk built'))
        /\ (shown = kept /\ kept = bc_text built /\ built' = built \/ shown = (kept +:+ TRUNCATION_MARKER)%string))
  /\ Forall (issued_here (part_given part_of blocks eligible)) (aliases (bc_chunk built')).
Proof.
  cbv zeta. set (built := (build_chunk _ _ _ _ _ _ _ _ _ _).1).
  destruct (build_chunk_presents estimate_tokens to_vec part_of (ParallelMap.pool available pool_built) messages blocks start_ordinal token_budget eligible_end ids) as [Hs Hi].
  { destruct (ParallelMap.pool available pool_built) as [t|] eqn:E; [|done]. apply ParallelMap.pool_some in E. lia. }
  fold built in Hs, Hi. pose proof (presented_input_cases estimate_tokens built budget) as H.
  destruct (presented_input estimate_tokens built budget) as [built' shown]. destruct H as ([rest Hr] & Hfit & Hcase). split; [by exists rest|]. split; [done|]. split.
  - destruct Hcase as [[-> ->] | (kept & -> & Hp & Hk)]; [exists (bc_text built) | exists kept; auto].
    split; [apply string_prefix_self|]. split; [by apply (shows_from _ _ EmptyString) | by left].
  - rewrite Hr in Hi. by apply Forall_app in Hi as [? _].
Qed.

(** ** The placeholder *)
Section Placeholder.
Context (c : HistorySummarizerChunk).

Definition opens_inside (e : Z) (a : MessageRange) : Prop := start_index c < r_start a /\ r_start a <= e /\ e < r_end a.

Lemma starts_upto_lt arcs e a :
  a ∈ arcs -> r_start a <= e -> (length (filter (fun x => (r_start x <= r_start a - 1)%Z) arcs) < length (filter (fun x => (r_start x <= e)%Z) arcs))%nat.
Proof.
  assert (Hle : forall l x y, x <= y -> (length (filter (fun m => (r_start m <= x)%Z) l) <= length (filter (fun m => (r_start m <= y)%Z) l))%nat).
  { intros l x y Hxy. induction l as [|b l IH]; [done|]. rewrite !list.filter_cons. repeat case_decide; cbn; lia. }
  intros Ha He. induction arcs as [|b arcs IH]; [set_solver|]. pose proof (Hle arcs (r_start a - 1) e ltac:(lia)).
  rewrite !list.filter_cons. apply elem_of_cons in Ha as [-> | Ha]; [|specialize (IH Ha)]; repeat case_decide; cbn; lia.
Qed.

(** One round per arc and one more reach an end no arc of the chunk opens before and closes after. *)
Lemma placeholder_loop_closed fuel e :
  (length (filter (fun x => (r_start x <= e)%Z) (completed_tool_arcs c)) < fuel)%nat -> start_index c <= e ->
  let e' := placeholder_loop fuel c e in
  start_index c <= e' <= e /\ (forall a, a ∈ completed_tool_arcs c -> ~ opens_inside e' a)
  /\ (e' = e \/ exists a, a ∈ completed_tool_arcs c /\ e' = r_start a - 1 /\ r_start a <= e).
Proof.
  revert e. induction fuel as [|fuel IH]; intros e Hf Hs; [lia|]. cbn [placeholder_loop]. cbv zeta. destruct (List.find _ _) as [a|] eqn:Ea.
  - apply List.find_some in Ea as [Ha%list_elem_of_In Hb]. apply andb_true_iff in Hb as [[Hb1%Z.ltb_lt Hb2%Z.leb_le]%andb_true_iff Hb3%Z.ltb_lt].
    pose proof (starts_upto_lt _ e a Ha Hb2). destruct (IH (r_start a - 1)) as (H1 & H2 & H3); [lia | lia|]. split; [lia|]. split; [done|]. right.
    destruct H3 as [-> | (b & Hb & -> & Hle)]; [by exists a | exists b; split; [done|]; split; [done | lia]].
  - split; [lia|]. split; [|by left]. intros a Ha (H1 & H2 & H3). apply list_elem_of_In in Ha. pose proof (List.find_none _ _ Ea a Ha) as Hn. cbn in Hn.
    by rewrite (proj2 (Z.ltb_lt _ _) H1), (proj2 (Z.leb_le _ _) H2), (proj2 (Z.ltb_lt _ _) H3) in Hn.
Qed.

Lemma placeholder_end_closed :
  start_index c <= end_index c ->
  let e := placeholder_end c in
  start_index c <= e <= end_index c /\ (forall a, a ∈ completed_tool_arcs c -> ~ opens_inside e a)
  /\ (e = end_index c \/ exists a, a ∈ completed_tool_arcs c /\ e = r_start a - 1 /\ r_start a <= end_index c).
Proof.
  intros Hs. apply placeholder_loop_closed; [|done].
  pose proof (length_filter (fun x => (r_start x <= end_index c)%Z) (completed_tool_arcs c)). lia.
Qed.

(** What the parser returns for a placeholder: one segment over its range, with a summary, and where it stops. *)
Definition placeholder_parse (parsed : ParsedHistorySegmentOutput) : Prop :=
  exists s, po_history_segments parsed = [s] /\ ps_start s = start_index c /\ ps_end s = placeholder_end c /\ has_tiers s = true /\ ps_episode_type s = None
    /\ po_unprocessed_from parsed = Some (saturating_succ (placeholder_end c)).

(** The messages the placeholder needs: lines for its ends, the last one with a block to anchor on. *)
Definition anchors_placeholder : Prop :=
  (exists l, find_line c (start_index c) = Some l)
  /\ exists l, find_line c (placeholder_end c) = Some l /\ anchorable l = true /\ ln_message_id l <> EmptyString.

Hypothesis Hok : ordinals_ok c.
Hypothesis Hcov : validate_chunk_coverage c = None.
Hypothesis Hse : start_index c <= end_index c.
Hypothesis Hlines : anchors_placeholder.
(** No arc that opened at the start or before is open at the end, and arcs open on messages. *)
Hypothesis Hopen : forall a, a ∈ completed_tool_arcs c -> r_start a <= start_index c -> r_end a <= placeholder_end c.
Hypothesis Hpresent : forall a, a ∈ completed_tool_arcs c -> start_index c < r_start a -> r_start a <= end_index c -> r_start a ∈ chunk_present_ordinals c.

Let e := placeholder_end c.

Lemma placeholder_no_split : boundary_splits_completed_tool_arc (saturating_succ e) (completed_tool_arcs c) = false.
Proof.
  destruct (placeholder_end_closed Hse) as (Hr & Hc & _). fold e in Hr, Hc. apply splits_none. intros a Ha Hx.
  destruct Hok as (_ & _ & He). unfold saturating_succ in Hx. rewrite Z.min_r in Hx by lia. destruct (Z.le_gt_cases (r_start a) (start_index c)) as [Hle|Hgt].
  - specialize (Hopen a Ha Hle). fold e in Hopen. lia.
  - apply (Hc a Ha). unfold opens_inside. lia.
Qed.

Lemma arc_end_after_closed x : boundary_splits_completed_tool_arc (saturating_succ x) (completed_tool_arcs c) = false -> arc_end_after (completed_tool_arcs c) (end_index c) x = x.
Proof.
  intros H. unfold arc_end_after. rewrite filter_drop_all; [done|]. apply Forall_forall. intros a Ha [_ Hx%crosses_iff]. by apply (proj1 (splits_none _ _) H a Ha).
Qed.

Lemma healed_placeholder parsed : placeholder_parse parsed -> healed c parsed = (po_history_segments parsed, po_unprocessed_from parsed).
Proof.
  intros (s & Ep & Es & Ee & _ & _ & _). unfold healed. rewrite Ep. change (heal_history_segment_gaps _ _ [s]) with [s]. unfold heal_terminal_completed_tool_arc.
  change (list.last [s]) with (Some s). cbv beta iota.
  assert (terminal_loop (S (length (completed_tool_arcs c))) (completed_tool_arcs c) (end_index c) (ps_end s) = ps_end s) as ->.
  { cbn [terminal_loop]. rewrite Ee, (arc_end_after_closed (placeholder_end c) placeholder_no_split), Z.eqb_refl. done. }
  cbv zeta. rewrite Z.eqb_refl. f_equal. change (take (length [s] - 1) [s]) with (@nil ParsedHistorySegment). cbn [app]. f_equal. by destruct s.
Qed.

Lemma line_in_chunk o l : find_line c o = Some l -> o ∈ chunk_ordinals c.
Proof.
  intros [Hl Ho]%find_line_spec. destruct (coverage_exact c Hok Hcov) as [_ Hc]. unfold chunk_ordinals. rewrite <- Hc. subst o. by apply list_elem_of_fmap_2.
Qed.

Lemma head_start : head (chunk_ordinals c) = Some (start_index c).
Proof.
  destruct Hlines as [[l Hl] _]. apply line_in_chunk in Hl as Hin. pose proof (chunk_ordinals_sorted c Hok Hcov) as Hs.
  assert (forall x, x ∈ chunk_ordinals c -> start_index c <= x) as Hmin by (intros x [? _]%chunk_ordinals_elem; lia).
  destruct (chunk_ordinals c) as [|x rest]; [set_solver|]. cbn. f_equal. apply StronglySorted_inv in Hs as [_ Hf]. rewrite Forall_forall in Hf.
  specialize (Hmin x ltac:(set_solver)). apply elem_of_cons in Hin as [-> | Hin]; [done|]. specialize (Hf _ Hin). lia.
Qed.

(** The next message to process is the one after the placeholder, when the chunk has one. *)
Lemma next_after_placeholder :
  next_present_after (chunk_ordinals c) e = if e =? end_index c then None else Some (e + 1).
Proof.
  pose proof (next_present_spec _ e (chunk_ordinals_sorted c Hok Hcov)) as Hn. destruct (placeholder_end_closed Hse) as (Hr & _ & He). fold e in Hr, He.
  destruct (Z.eqb_spec e (end_index c)) as [Eq|Hne].
  - destruct (next_present_after _ _) as [x|]; [|done]. destruct Hn as ([Hx _]%chunk_ordinals_elem & ? & _). lia.
  - destruct He as [? | (a & Ha & Ea & Hle)]; [done|]. assert (e + 1 ∈ chunk_ordinals c) as Hin.
    { apply chunk_ordinals_elem. split; [lia|]. replace (e + 1) with (r_start a) by lia. apply Hpresent; [done | lia | done]. }
    destruct (next_present_after _ _) as [x|]; [|specialize (Hn _ Hin); lia]. destruct Hn as (_ & ? & Hmin). f_equal. specialize (Hmin _ Hin). lia.
Qed.

Lemma validate_placeholder parsed :
  placeholder_parse parsed ->
  validate_parsed_history_segments (po_history_segments parsed) (start_index c) (end_index c) (chunk_present_ordinals c) (po_unprocessed_from parsed) = None.
Proof.
  intros (s & -> & Es & Ee & Ht & Ey & ->). unfold validate_parsed_history_segments. fold (chunk_ordinals c). rewrite head_start. cbn [ranges_loop].
  destruct (placeholder_end_closed Hse) as (Hr & _ & _). destruct Hlines as [[l1 Hl1] (l2 & Hl2 & _)]. apply line_in_chunk in Hl1, Hl2. rewrite Es, Ee, Ht, Ey.
  rewrite (bool_decide_eq_false_2 (None = Some ARCHIVE_EPISODE_TYPE)) by done. rewrite (proj2 (Z.ltb_ge (placeholder_end c) (start_index c))) by lia.
  rewrite Z.ltb_irrefl, (proj2 (Z.ltb_ge (end_index c) (placeholder_end c))) by lia. rewrite !bool_decide_eq_true_2 by done. rewrite Z.eqb_refl. cbn [negb orb].
  fold e. rewrite next_after_placeholder. destruct Hok as (_ & _ & He). fold e in Hr. destruct (Z.eqb_spec e (end_index c)) as [Eq|Hne].
  - by rewrite Eq, Z.eqb_refl.
  - unfold saturating_succ. rewrite Z.min_r by lia. by rewrite Z.eqb_refl.
Qed.
End Placeholder.

(** An answer the parser reads as the placeholder's segment ([placeholder_parse]) passes validation when the
    messages it needs are there: a message with a block right before each call it must not split, and no
    older call still open at its end. It becomes one segment from the chunk's start to the last message
    before an open call, and the floor moves right after it. That the parser reads the placeholder's text
    so is a hypothesis: the parser is not modelled. *)
Theorem placeholder_accepted (parse : string -> option ParsedHistorySegmentOutput) (c : HistorySummarizerChunk) (prior : list StoredHistorySegmentRange)
    (options : ValidateOptions) (failures : Z) (parsed : ParsedHistorySegmentOutput) :
  parse (placeholder_output c failures) = Some parsed -> placeholder_parse c parsed ->
  ordinals_ok c -> validate_chunk_coverage c = None -> validate_stored_history_segments prior = None -> check_prior c prior = None ->
  start_index c <= end_index c -> anchors_placeholder c ->
  (forall a, a ∈ completed_tool_arcs c -> r_start a <= start_index c -> r_end a <= placeholder_end c) ->
  (forall a, a ∈ completed_tool_arcs c -> start_index c < r_start a -> r_start a <= end_index c -> r_start a ∈ chunk_present_ordinals c) ->
  exists v, validate_history_summarizer_output parse (placeholder_output c failures) c prior options = Ok v
    /\ vrange <$> vc_history_segments v = [(start_index c, placeholder_end c)] /\ vc_unprocessed_from v = placeholder_end c + 1.
Proof.
  intros Hp Hpp Hok Hcov Hst Hpr Hse Hl Ho Hpres. pose proof (healed_placeholder c Hok Hse Ho parsed Hpp) as Hh.
  pose proof (validate_placeholder c Hok Hcov Hse Hl Ho Hpres parsed Hpp) as Hv. pose proof (placeholder_no_split c Hok Hse Ho) as Hns.
  destruct (placeholder_end_closed c Hse) as (Hr & _ & _). destruct Hpp as (s & Es & E1 & E2 & _ & _ & _). destruct Hl as [[l1 Hl1] (l2 & Hl2 & Ha & Hid)].
  assert (exists seg, emitted_segments c options parsed = Ok [seg] /\ vrange seg = (start_index c, placeholder_end c)) as (seg & Hem & Hseg).
  { unfold emitted_segments. rewrite Hh. rewrite Es in Hv |- *. cbn [map_parsed_history_segments_to_chunk]. rewrite E1, E2, Hl1, Hl2, Ha.
    rewrite (bool_decide_eq_false_2 (ln_message_id l2 = EmptyString)) by done. cbn [negb orb mbind result_bind map_err]. rewrite Hv.
    change (list.last [s]) with (Some s). cbv beta iota. rewrite E2, Hns. eexists. split; [done|]. done. }
  assert (saturating_succ (vs_end seg) = placeholder_end c + 1) as Esu.
  { injection Hseg as _ ->. destruct Hok as (_ & _ & He). unfold saturating_succ. lia. }
  unfold validate_history_summarizer_output. rewrite Hcov, Hst, Hpr, Hp. cbn [ok_or mbind result_bind]. rewrite Es, Hem. cbn [mbind result_bind]. unfold publish.
  assert (discard_last c options [seg] = ([seg], false)) as ->. { unfold discard_last. by destruct (in_emergency options), (force_keep_last_history_segment options). }
  change (list.last [seg]) with (Some seg). change (default 0 (vs_end <$> Some seg)) with (vs_end seg).
  set (offset := match st_end <$> list.last prior with Some _ => _ | None => _ end). assert (offset <= start_index c) as Hoff by by apply prior_offset.
  injection Hseg as Hs1 Hs2. rewrite (proj2 (Z.ltb_ge _ _)) by lia. destruct (extract_facts c options parsed [seg]) as [x y].
  pose proof (attach_vrange c parsed [seg]) as Hat. destruct (attach_claims c parsed [seg]) as [segs out]. eexists. split; [done|]. cbn [vc_history_segments vc_unprocessed_from fst] in *.
  rewrite Hat, Esu. cbn. unfold vrange. by rewrite Hs1, Hs2.
Qed.

(** A chunk that ends inside a call: the placeholder stops before it. *)
Definition sample_line (o : Z) : ChunkLine := mkLine o "m" true.
Definition arc_chunk : HistorySummarizerChunk := mkChunk 1 3 (sample_line <$> [1; 2; 3]) [] [] [] [mkRange 3 7].
Definition sample_placeholder (start end_ : Z) : ParsedHistorySegmentOutput :=
  mkParsed [mkSegment start end_ "t" "" (Some "Messages were not summarized"%string) None None None (Some 1) None] [] false None [] (Some (end_ + 1)) [] [] [] false None.

Lemma placeholder_accepted_witness :
  exists v, validate_history_summarizer_output (fun _ => Some (sample_placeholder 1 2)) (placeholder_output arc_chunk 8) arc_chunk [mkStored 0 0]
      (mkOptions 4 false true true true false) = Ok v /\ vc_unprocessed_from v = 3.
Proof.
  destruct (placeholder_accepted (fun _ => Some (sample_placeholder 1 2)) arc_chunk [mkStored 0 0] (mkOptions 4 false true true true false) 8 (sample_placeholder 1 2))
    as (v & Hv & _ & Hu); try reflexivity.
  - eexists. by repeat split.
  - unfold ordinals_ok, u64_MAX. split; [|cbn; lia]. cbn. repeat (apply list.Forall_cons; split; [lia|]). constructor.
  - cbn. lia.
  - split; [by eexists|]. by eexists.
  - intros a Ha. apply list_elem_of_singleton in Ha as ->. cbn. lia.
  - intros a Ha _ _. apply list_elem_of_singleton in Ha as ->. cbn. set_solver.
  - exists v. split; [exact Hv | exact Hu].
Defined.

(** In a session with retired ordinals the message before a call has another number than the call's less one.
    The chunk a firing builds after eight failures ends inside the call; its placeholder is refused. *)
Definition sparse_messages : list IngressMessage :=
  [mkIngress "a" 1 "user" false; mkIngress "b" 3 "assistant" false; mkIngress "c" 4 "user" false; mkIngress "d" 9 "tool" false].
Definition sparse_blocks : list FlatBlock :=
  [mkFlat "a#0" "a" 1 "user" "text" false None "hello" "h" false (Text "hello");
   mkFlat "b#0" "b" 3 "assistant" "tool_call" false (Some "x"%string) "run" "h" false (ToolCall "run" CanonicalJson.Null);
   mkFlat "c#0" "c" 4 "user" "text" false None "go on" "h" false (Text "go on");
   mkFlat "d#0" "d" 9 "tool" "tool_result" false (Some "x"%string) "out" "h" false (ToolResult "run" "; ok")].
Definition sparse_firing : AssembleOutcome :=
  assemble_history_summarizer_firing (fun t => Z.of_nat (String.length t)) se_mid sample_part None (fun _ => EmptyString)
    (mkAssembly [] 0 (Some (mkRetry 1 8 EmptyString 1440))) sparse_messages sparse_blocks
    [("a", []); ("b", []); ("c", []); ("d", [])]%string (mkConfig ["m"%string] 1440 10 true true true false false false 1).
Definition sparse_chunk : HistorySummarizerChunk :=
  match sparse_firing with Fire firing => bc_chunk (af_chunk firing) | _ => mkChunk 0 0 [] [] [] [] [] end.

Lemma sparse_chunk_range : start_index sparse_chunk = 1 /\ end_index sparse_chunk = 3 /\ placeholder_end sparse_chunk = 2.
Proof. vm_compute. by repeat split. Qed.

Lemma placeholder_sparse_refused parse parsed options :
  parse (placeholder_output sparse_chunk 8) = Some parsed -> placeholder_parse sparse_chunk parsed ->
  validate_history_summarizer_output parse (placeholder_output sparse_chunk 8) sparse_chunk [] options = Err (InvalidOutput (NotMapped 1 2)).
Proof.
  intros Hp (s & Es & E1 & E2 & _). unfold validate_history_summarizer_output. replace (validate_chunk_coverage sparse_chunk) with (@None CoverageError) by (vm_compute; reflexivity).
  rewrite Hp. cbn [validate_stored_history_segments check_prior list.last ok_or mbind result_bind]. rewrite Es. unfold emitted_segments, healed. rewrite Es.
  destruct s as [a b title content p1 p2 p3 p4 importance episode]. cbn [ps_start ps_end] in E1, E2. destruct sparse_chunk_range as (R1 & _ & R3). rewrite R1 in E1. rewrite R3 in E2. subst a b.
  vm_compute. reflexivity.
Qed.
End ChunkOutput.
