(* ===== verification/Scope.v ===== *)
(** * Scope: canonical scopes and their conservative predicates (kernel/src/scope.rs)

    A scope constrains up to ten dimensions, one term each. Decoding accepts stored rows in any order;
    matching is three-valued, subsumption under-approximates and overlap over-approximates. The semantic
    version library is an interface: its parsers, its matching and the shape of build metadata; the commit
    graph is an oracle. A panic of the code is [None]. *)
From S2P Require Import Prelude.
From S2P Require Import BTree.
From S2P Require Import CanonicalJson.
From S2P Require Import WindowCoverage.
From S2P Require Import Payload.
From S2P Require Import Citations.
From Stdlib Require Import Ascii String.
From stdpp Require Import strings gmap sets.

#[local] Open Scope Z_scope.

Module Scope.

(** ** Dimensions *)
Inductive Dimension := Domain | Project | Entity | Branch | Environment | Region | Deployment | RequestClass | CallerClass | Platform.
#[export] Instance Dimension_eq_dec : EqDecision Dimension.
Proof. solve_decision. Defined.

Definition ALL : list Dimension := [Domain; Project; Entity; Branch; Environment; Region; Deployment; RequestClass; CallerClass; Platform].
Definition DIMENSION_COUNT : nat := 10.

Definition Dimension_as_str (d : Dimension) : string :=
  match d with
  | Domain => "domain" | Project => "project" | Entity => "entity" | Branch => "branch" | Environment => "environment" | Region => "region"
  | Deployment => "deployment" | RequestClass => "request_class" | CallerClass => "caller_class" | Platform => "platform"
  end.
Definition from_stored (value : string) : option Dimension := List.find (fun d => bool_decide (Dimension_as_str d = value)) ALL.
Definition index (d : Dimension) : nat :=
  match d with
  | Domain => 0 | Project => 1 | Entity => 2 | Branch => 3 | Environment => 4 | Region => 5 | Deployment => 6 | RequestClass => 7 | CallerClass => 8 | Platform => 9
  end.

(** ** Semantic versions, as the library documents them *)
Record Version := mkVersion { major : Z; minor : Z; patch : Z; pre : string; build : string }.
Inductive SemverOp := OpExact | OpGreater | OpGreaterEq | OpLess | OpLessEq | OpTilde | OpCaret | OpWildcard.
Record Comparator := mkComparator { co_op : SemverOp; co_major : Z; co_minor : option Z; co_patch : option Z; co_pre : string }.
Definition VersionReq : Type := list Comparator.
#[export] Instance Op_eq_dec : EqDecision SemverOp.
Proof. solve_decision. Defined.
#[export] Instance Comparator_eq_dec : EqDecision Comparator.
Proof. solve_decision. Defined.

Definition Core : Type := Z * Z * Z.
Definition core (v : Version) : Core := (major v, minor v, patch v).

(** [Version]s without prerelease and build metadata are ordered by their numbers. *)
Definition core_cmp (a b : Core) : comparison :=
  match Z.compare a.1.1 b.1.1 with
  | Eq => match Z.compare a.1.2 b.1.2 with Eq => Z.compare a.2 b.2 | c => c end
  | c => c
  end.
Definition core_lt (a b : Core) : bool := match core_cmp a b with Lt => true | _ => false end.
Definition core_eq (a b : Core) : bool := match core_cmp a b with Eq => true | _ => false end.

Class Semver := {
  parse_version : string -> option Version;
  parse_req : string -> option VersionReq;
  req_matches : VersionReq -> Version -> bool;
  build_metadata : string -> option string;
}.

(** ** Version intervals *)
Record VersionInterval := mkInterval { lo : option (Core * bool); hi : option (Core * bool) }.
#[export] Instance VersionInterval_eq_dec : EqDecision VersionInterval.
Proof. solve_decision. Defined.

Definition full : VersionInterval := mkInterval None None.

Definition is_empty (i : VersionInterval) : bool :=
  match lo i, hi i with
  | Some (l, l_inc), Some (h, h_inc) => core_lt h l || (core_eq l h && negb (l_inc && h_inc))
  | _, _ => false
  end.

Definition intersect (self other : VersionInterval) : VersionInterval :=
  mkInterval
    (match lo self, lo other with
     | None, bound => bound
     | bound, None => bound
     | Some (a, a_inc), Some (b, b_inc) => if core_lt b a || (core_eq a b && negb a_inc && b_inc) then Some (a, a_inc) else Some (b, b_inc)
     end)
    (match hi self, hi other with
     | None, bound => bound
     | bound, None => bound
     | Some (a, a_inc), Some (b, b_inc) => if core_lt a b || (core_eq a b && negb a_inc && b_inc) then Some (a, a_inc) else Some (b, b_inc)
     end).

Definition interval_contains (self other : VersionInterval) : bool :=
  if is_empty other then true
  else if is_empty self then false
  else
    (match lo self, lo other with
     | None, _ => true
     | Some _, None => false
     | Some (a, a_inc), Some (b, b_inc) => core_lt a b || (core_eq a b && (a_inc || negb b_inc))
     end)
    && match hi self, hi other with
       | None, _ => true
       | Some _, None => false
       | Some (a, a_inc), Some (b, b_inc) => core_lt b a || (core_eq a b && (a_inc || negb b_inc))
       end.

(** The upper bound lies below the lower one. *)
Definition below (h l : option (Core * bool)) : bool :=
  match h, l with Some (h, h_inc), Some (l, l_inc) => core_lt h l || (core_eq h l && negb (h_inc && l_inc)) | _, _ => false end.

Definition interval_overlaps (self other : VersionInterval) : bool :=
  if is_empty self || is_empty other then false else negb (below (hi self) (lo other)) && negb (below (hi other) (lo self)).

Definition succ64 (x : Z) : option Z := checked_add u64_MAX x 1.

Definition comparator_interval (c : Comparator) : option VersionInterval :=
  if negb (bool_decide (co_pre c = EmptyString)) then None
  else
    let ma := co_major c in
    let lo_exact := (ma, default 0 (co_minor c), default 0 (co_patch c)) in
    match co_op c with
    | OpExact | OpWildcard =>
        match co_minor c, co_patch c with
        | Some mi, Some pa => Some (mkInterval (Some ((ma, mi, pa), true)) (Some ((ma, mi, pa), true)))
        | Some mi, None => mi1 ← succ64 mi; Some (mkInterval (Some ((ma, mi, 0), true)) (Some ((ma, mi1, 0), false)))
        | None, _ => ma1 ← succ64 ma; Some (mkInterval (Some ((ma, 0, 0), true)) (Some ((ma1, 0, 0), false)))
        end
    | OpGreater =>
        match co_minor c, co_patch c with
        | Some mi, Some pa => Some (mkInterval (Some ((ma, mi, pa), false)) None)
        | Some mi, None => mi1 ← succ64 mi; Some (mkInterval (Some ((ma, mi1, 0), true)) None)
        | None, _ => ma1 ← succ64 ma; Some (mkInterval (Some ((ma1, 0, 0), true)) None)
        end
    | OpGreaterEq => Some (mkInterval (Some (lo_exact, true)) None)
    | OpLess => Some (mkInterval None (Some (lo_exact, false)))
    | OpLessEq =>
        match co_minor c, co_patch c with
        | Some mi, Some pa => Some (mkInterval None (Some ((ma, mi, pa), true)))
        | Some mi, None => mi1 ← succ64 mi; Some (mkInterval None (Some ((ma, mi1, 0), false)))
        | None, _ => ma1 ← succ64 ma; Some (mkInterval None (Some ((ma1, 0, 0), false)))
        end
    | OpTilde =>
        match co_minor c with
        | Some mi => mi1 ← succ64 mi; Some (mkInterval (Some (lo_exact, true)) (Some ((ma, mi1, 0), false)))
        | None => ma1 ← succ64 ma; Some (mkInterval (Some (lo_exact, true)) (Some ((ma1, 0, 0), false)))
        end
    | OpCaret =>
        h ← (match co_minor c with
             | None => ma1 ← succ64 ma; Some (ma1, 0, 0)
             | Some mi =>
                 if 0 <? ma then ma1 ← succ64 ma; Some (ma1, 0, 0)
                 else
                   match co_patch c with
                   | None => mi1 ← succ64 mi; Some (0, mi1, 0)
                   | Some pa => if negb (mi =? 0) then mi1 ← succ64 mi; Some (0, mi1, 0) else pa1 ← succ64 pa; Some (0, 0, pa1)
                   end
             end);
        Some (mkInterval (Some (lo_exact, true)) (Some (h, false)))
    end.

Fixpoint intersect_all (interval : VersionInterval) (req : VersionReq) : option VersionInterval :=
  match req with
  | [] => Some interval
  | c :: req => i ← comparator_interval c; intersect_all (intersect interval i) req
  end.
Definition parsed_version_req_interval (req : VersionReq) : option VersionInterval := intersect_all full req.

(** ** Terms *)
Definition OPERATOR_REDACTION_PLACEHOLDER : string := "[redacted:operator]".
Definition REDACTION_TOKEN_MARKERS : list string := ["_REDACTED>"; "<REDACTED:"]%string.
Definition contains_redaction_token (text : string) : bool := existsb (fun marker => Citations.str_contains marker text) REDACTION_TOKEN_MARKERS.
Definition contains_redaction_placeholder (value : string) : bool :=
  contains_redaction_token value || Citations.str_contains OPERATOR_REDACTION_PLACEHOLDER value.

Record VersionSpec := mkSpec { raw : string; req : VersionReq; interval : option VersionInterval }.

Inductive TermValue :=
| Exact (value : string)
| SetOf (values : gset string)
| Range (start end_ : option string)
| VersionRange (spec : VersionSpec)
| GitReachable (oid : string)
| RedactedPlaceholder.

Record ScopeTermSpec := mkTerm {
  dimension : string; operator : string; exact_value : option string; set_values : option (list string); range_start : option string;
  range_end : option string; version_range : option string; git_oid : option string; git_start_oid : option string; git_end_oid : option string;
  payload : option string;
}.

Inductive ScopeFormError :=
| UnknownDimension (d : string) | UnknownOperator (o : string) | DuplicateDimension (d : Dimension) | MissingValue (d : Dimension)
| ConflictingColumns (d : Dimension) | InvalidRange (d : Dimension) | InvalidVersionRange (d : Dimension) | InvalidOid (d : Dimension) | EmptySet (d : Dimension).

Definition str_lt (a b : string) : bool := match String.compare a b with Lt => true | _ => false end.

Definition is_lower_hex_oid (value : string) : bool :=
  ((String.length value =? 40)%nat || (String.length value =? 64)%nat)
  && Citations.all_bytes (fun a => Citations.is_ascii_digit a || ((97 <=? CanonicalJson.byte_of a) && (CanonicalJson.byte_of a <=? 102))) value.

Definition given {A} (o : option A) : bool := match o with Some _ => true | None => false end.

Definition extra_columns (term : ScopeTermSpec) (allowed : list bool) : bool :=
  existsb (fun p : bool * bool => p.1 && negb p.2)
    (zip [given (exact_value term); given (set_values term); given (range_start term) || given (range_end term); given (version_range term);
          given (git_oid term); given (git_start_oid term) || given (git_end_oid term); given (payload term)] allowed).

(** Only the given column may be set. *)
Definition only (i : nat) : list bool := (fun j => (j =? i)%nat) <$> seq 0 7.

Definition nonempty (o : option string) : option string := match o with Some v => if bool_decide (v = EmptyString) then None else Some v | None => None end.

Section Decode.
Context {SV : Semver}.

Definition VersionSpec_parse (text : string) : option VersionSpec := r ← parse_req text; Some (mkSpec text r (parsed_version_req_interval r)).

Definition decode_exact (d : Dimension) (term : ScopeTermSpec) : result ScopeFormError TermValue :=
  if extra_columns term (only 0) then Err (ConflictingColumns d)
  else value ← ok_or (nonempty (exact_value term)) (MissingValue d); Ok (if contains_redaction_placeholder value then RedactedPlaceholder else Exact value).

Definition decode_set (d : Dimension) (term : ScopeTermSpec) : result ScopeFormError TermValue :=
  if extra_columns term (only 1) then Err (ConflictingColumns d)
  else
    values ← ok_or (set_values term) (MissingValue d);
    if bool_decide (values = []) || existsb (fun v => bool_decide (v = EmptyString)) values then Err (EmptySet d)
    else if existsb contains_redaction_placeholder values then Ok RedactedPlaceholder else Ok (SetOf (list_to_set values)).

Definition decode_range (d : Dimension) (term : ScopeTermSpec) : result ScopeFormError TermValue :=
  if extra_columns term (only 2) then Err (ConflictingColumns d)
  else
    let start := range_start term in
    let end_ := range_end term in
    if negb (given start) && negb (given end_) then Err (MissingValue d)
    else if bool_decide (start = Some EmptyString) || bool_decide (end_ = Some EmptyString) then Err (InvalidRange d)
    else if match start with Some s => contains_redaction_placeholder s | None => false end
            || match end_ with Some e => contains_redaction_placeholder e | None => false end then Ok RedactedPlaceholder
    else match start, end_ with
         | Some s, Some e => if negb (str_lt s e) then Err (InvalidRange d) else Ok (Range start end_)
         | _, _ => Ok (Range start end_)
         end.

Definition decode_version (d : Dimension) (term : ScopeTermSpec) : result ScopeFormError TermValue :=
  if extra_columns term (only 3) then Err (ConflictingColumns d)
  else
    text ← ok_or (nonempty (version_range term)) (MissingValue d);
    if contains_redaction_placeholder text then Ok RedactedPlaceholder
    else spec ← ok_or (VersionSpec_parse text) (InvalidVersionRange d); Ok (VersionRange spec).

Definition decode_git (d : Dimension) (term : ScopeTermSpec) : result ScopeFormError TermValue :=
  if extra_columns term (only 4) then Err (ConflictingColumns d)
  else oid ← ok_or (git_oid term) (MissingValue d); if negb (is_lower_hex_oid oid) then Err (InvalidOid d) else Ok (GitReachable oid).

Definition decode_term_value (d : Dimension) (term : ScopeTermSpec) : result ScopeFormError TermValue :=
  let op := operator term in
  if bool_decide (op = "exact"%string) then decode_exact d term
  else if bool_decide (op = "set"%string) then decode_set d term
  else if bool_decide (op = "range"%string) then decode_range d term
  else if bool_decide (op = "version_range"%string) then decode_version d term
  else if bool_decide (op = "git_reachable"%string) then decode_git d term
  else Err (UnknownOperator op).

(** ** Canonical scopes *)
Record CanonicalScope := mkScope {
  cs_terms : list (option TermValue); version_requirements : list (option VersionReq); version_intervals : list (option VersionInterval); present : Z;
}.

Definition unconstrained : CanonicalScope :=
  mkScope (replicate DIMENSION_COUNT None) (replicate DIMENSION_COUNT None) (replicate DIMENSION_COUNT None) 0.

Definition add_term (s : CanonicalScope) (term : ScopeTermSpec) : result ScopeFormError CanonicalScope :=
  d ← ok_or (from_stored (dimension term)) (UnknownDimension (dimension term));
  let i := index d in
  value ← decode_term_value d term;
  if given (mjoin (cs_terms s !! i)) then Err (DuplicateDimension d)
  else
    let '(reqs, intervals) :=
      match value with
      | VersionRange spec =>
          (<[i := Some (req spec)]> (version_requirements s),
           match interval spec with Some v => <[i := Some v]> (version_intervals s) | None => version_intervals s end)
      | _ => (version_requirements s, version_intervals s)
      end in
    Ok (mkScope (<[i := Some value]> (cs_terms s)) reqs intervals (Z.lor (present s) (Z.shiftl 1 (Z.of_nat i)))).

Fixpoint add_terms (s : CanonicalScope) (terms : list ScopeTermSpec) : result ScopeFormError CanonicalScope :=
  match terms with [] => Ok s | term :: terms => s ← add_term s term; add_terms s terms end.
Definition from_term_specs (terms : list ScopeTermSpec) : result ScopeFormError CanonicalScope := add_terms unconstrained terms.

(** Each round clears the lowest bit; a missing term would panic. *)
Fixpoint terms_loop (fuel : nat) (s : CanonicalScope) (bits : Z) : option (list (Dimension * TermValue)) :=
  match fuel with
  | O => Some []
  | S fuel =>
      if bits =? 0 then Some []
      else
        let i := Z.to_nat (trailing_zeros 16 0 bits) in
        d ← ALL !! i; term ← mjoin (cs_terms s !! i); rest ← terms_loop fuel s (Z.land bits (bits - 1)); Some ((d, term) :: rest)
  end.
Definition terms (s : CanonicalScope) : option (list (Dimension * TermValue)) := terms_loop 17 s (present s).

Definition scope_term (s : CanonicalScope) (d : Dimension) : option TermValue := mjoin (cs_terms s !! index d).
Definition version_requirement (s : CanonicalScope) (d : Dimension) : option VersionReq := mjoin (version_requirements s !! index d).
Definition version_interval (s : CanonicalScope) (d : Dimension) : option VersionInterval := mjoin (version_intervals s !! index d).
Definition has_placeholder (s : CanonicalScope) : bool :=
  existsb (fun t => match t with Some RedactedPlaceholder => true | _ => false end) (cs_terms s).

(** ** Readings of a version *)
Record VersionReading := mkReading { comparable : Version; prerelease : option Version }.

Definition with_pre_build (v : Version) (p b : string) : Version := mkVersion (major v) (minor v) (patch v) p b.

Definition demote_pre_to_build (v : Version) : option Version :=
  if bool_decide (pre v = EmptyString) then Some v
  else
    let merged := (if bool_decide (build v = EmptyString) then pre v else pre v +:+ "." +:+ build v)%string in
    b ← build_metadata merged; Some (with_pre_build v EmptyString b).

Fixpoint trim_start_of (drop : ascii -> bool) (s : string) : string :=
  match s with EmptyString => s | String a r => if drop a then trim_start_of drop r else s end.
Definition separator (a : ascii) : bool := bool_decide (a = "-"%char) || bool_decide (a = "."%char) || bool_decide (a = "_"%char).

Fixpoint split_digits (s : string) : string * string :=
  match s with
  | EmptyString => (EmptyString, EmptyString)
  | String a r => if Citations.is_ascii_digit a then let '(x, y) := split_digits r in (String a x, y) else (EmptyString, s)
  end.

(** Up to three numeric components; a component with a tail ends the list and its tail becomes the suffix.
    Every round but the last consumes a component. *)
Fixpoint components (n : nat) (numeric : string) : option (list Z * option string) :=
  match n with
  | O => Some ([], None)
  | S n =>
      match numeric with
      | EmptyString => Some ([], None)
      | _ =>
          let '(part, rest) := match Citations.split_once "." numeric with Some (p, r) => (p, r) | None => (numeric, EmptyString) end in
          match Window.parse_usize part with
          | Some value => '(values, suffix) ← components n rest; Some (value :: values, suffix)
          | None =>
              let '(digits, tail) := split_digits part in
              if bool_decide (digits = EmptyString) || bool_decide (tail = EmptyString) then None
              else
                value ← Window.parse_usize digits;
                Some ([value], Some (trim_start_of separator (Citations.suffix_from (String.length digits) numeric)))
          end
      end
  end.

Definition valid_build_byte (a : ascii) : bool :=
  Citations.is_ascii_digit a || ((65 <=? CanonicalJson.byte_of a) && (CanonicalJson.byte_of a <=? 90)) || ((97 <=? CanonicalJson.byte_of a) && (CanonicalJson.byte_of a <=? 122))
  || bool_decide (a = "-"%char) || bool_decide (a = "."%char).

(** One dash for each other character: continuation bytes go with their first one. *)
Fixpoint sanitize (s : string) : string :=
  match s with
  | EmptyString => EmptyString
  | String a r => if valid_build_byte a then String a (sanitize r) else if Payload.continues a then sanitize r else String "-" (sanitize r)
  end.

Definition coerce_platform_version (text : string) : option Version :=
  let core := match Citations.split_once "+" text with Some (core, _) => core | None => text end in
  let '(numeric, suffix) := match Citations.split_once "-" core with Some (n, x) => (n, Some x) | None => (core, None) end in
  '(values, trailing) ← components 3 numeric;
  match values with
  | [] => None
  | ma :: rest =>
      let mi := default 0 (rest !! 0%nat) in
      let pa := default 0 (rest !! 1%nat) in
      match match trailing with Some x => Some x | None => suffix end with
      | Some x =>
          if bool_decide (x = EmptyString) then Some (mkVersion ma mi pa EmptyString EmptyString)
          else b ← build_metadata (sanitize x); Some (mkVersion ma mi pa EmptyString b)
      | None => Some (mkVersion ma mi pa EmptyString EmptyString)
      end
  end.

Definition VersionReading_parse (text : string) : option VersionReading :=
  let text := Citations.trim text in
  if bool_decide (text = EmptyString) then None
  else
    match parse_version text with
    | Some version =>
        let prerelease := if bool_decide (pre version = EmptyString) then None else Some version in
        c ← demote_pre_to_build version; Some (mkReading c prerelease)
    | None => c ← coerce_platform_version text; Some (mkReading c None)
    end.

Definition req_names_prerelease (r : VersionReq) : bool := existsb (fun c => negb (bool_decide (co_pre c = EmptyString))) r.

Definition reading_matches (v : VersionReading) (r : VersionReq) : bool :=
  match prerelease v with
  | Some version => if req_names_prerelease r then req_matches r version else req_matches r (comparable v)
  | None => req_matches r (comparable v)
  end.

Definition parsed_version_req_matches (r : VersionReq) (value : string) : option bool := v ← VersionReading_parse value; Some (reading_matches v r).
Definition version_req_matches (text value : string) : option bool := r ← parse_req text; parsed_version_req_matches r value.
Definition version_req_interval (text : string) : option VersionInterval := parse_req text ≫= parsed_version_req_interval.

(** ** Pairs of terms *)
Definition GraphOracle : Type := string -> string -> option bool.
Definition UnknownGraph : GraphOracle := fun _ _ => None.

Definition range_contains (start end_ : option string) (value : string) : bool :=
  match start with Some s => negb (str_lt value s) | None => true end && match end_ with Some e => str_lt value e | None => true end.

Definition range_bound_le (a b : option string) : bool :=
  match a, b with None, _ => true | Some _, None => false | Some a, Some b => negb (str_lt b a) end.
Definition range_bound_ge (a b : option string) : bool :=
  match a, b with None, _ => true | Some _, None => false | Some a, Some b => negb (str_lt a b) end.

Definition starts_before_end (start end_ : option string) : bool := match start, end_ with Some s, Some e => str_lt s e | _, _ => true end.
Definition ranges_overlap (a_start a_end b_start b_end : option string) : bool := starts_before_end a_start b_end && starts_before_end b_start a_end.

(** Stops at the first answer that is not [yes]. *)
Fixpoint all_values (f : string -> option bool) (values : list string) : option bool :=
  match values with
  | [] => Some true
  | v :: values => match f v with Some true => all_values f values | Some false => Some false | None => None end
  end.
Fixpoint any_value (f : string -> option bool) (values : list string) : option bool :=
  match values with
  | [] => Some false
  | v :: values => match f v with Some true => Some true | Some false => any_value f values | None => None end
  end.

Definition term_subsumes (oracle : GraphOracle) (a b : TermValue) : option bool :=
  match a, b with
  | RedactedPlaceholder, _ | _, RedactedPlaceholder => None
  | Exact u, Exact v => Some (bool_decide (u = v))
  | Exact u, SetOf s => Some (bool_decide (size s = 1%nat) && bool_decide (u ∈ s))
  | Exact _, _ => Some false
  | SetOf t, Exact v => Some (bool_decide (v ∈ t))
  | SetOf t, SetOf s => Some (bool_decide (s ⊆ t))
  | SetOf _, _ => Some false
  | Range start end_, Exact v => Some (range_contains start end_ v)
  | Range start end_, SetOf s => Some (forallb (range_contains start end_) (elements s))
  | Range ps pe, Range rs re => Some (range_bound_le ps rs && range_bound_ge pe re)
  | Range _ _, _ => Some false
  | VersionRange q, Exact v => version_req_matches (raw q) v
  | VersionRange q, SetOf s => all_values (version_req_matches (raw q)) (elements s)
  | VersionRange q, VersionRange vr =>
      if bool_decide (raw q = raw vr) then Some true
      else outer ← version_req_interval (raw q); inner ← version_req_interval (raw vr); Some (interval_contains outer inner)
  | VersionRange _, _ => Some false
  | GitReachable h, GitReachable g => if bool_decide (h = g) then Some true else oracle h g
  | GitReachable _, _ => Some false
  end.

Definition git_overlaps (oracle : GraphOracle) (h g : string) : option bool :=
  if bool_decide (h = g) then Some true
  else match oracle h g, oracle g h with Some true, _ | _, Some true => Some true | _, _ => None end.

Definition term_overlaps (oracle : GraphOracle) (a b : TermValue) : option bool :=
  match a, b with
  | RedactedPlaceholder, _ | _, RedactedPlaceholder => None
  | Exact u, Exact v => Some (bool_decide (u = v))
  | Exact u, SetOf s | SetOf s, Exact u => Some (bool_decide (u ∈ s))
  | Exact u, Range start end_ | Range start end_, Exact u => Some (range_contains start end_ u)
  | Exact u, VersionRange q | VersionRange q, Exact u => version_req_matches (raw q) u
  | SetOf t, SetOf s => Some (negb (bool_decide (t ## s)))
  | SetOf s, Range start end_ | Range start end_, SetOf s => Some (existsb (range_contains start end_) (elements s))
  | SetOf s, VersionRange q | VersionRange q, SetOf s => any_value (version_req_matches (raw q)) (elements s)
  | Range ps pe, Range rs re => Some (ranges_overlap ps pe rs re)
  | VersionRange q, VersionRange vr =>
      if bool_decide (raw q = raw vr) then i ← version_req_interval (raw q); Some (negb (is_empty i))
      else i ← version_req_interval (raw q); j ← version_req_interval (raw vr); Some (interval_overlaps i j)
  | GitReachable h, GitReachable g => git_overlaps oracle h g
  | _, _ => None
  end.

(** ** Contexts and matching *)
Inductive MatchOutcome := Matches | DoesNotMatch | Uncertain.

Record ScopeMatchContext := mkCtx { cx_values : list (option string); coerced : list (option VersionReading); head_commit : option string }.
Definition ctx_new : ScopeMatchContext := mkCtx (replicate DIMENSION_COUNT None) (replicate DIMENSION_COUNT None) None.
Definition with_value (ctx : ScopeMatchContext) (d : Dimension) (value : string) : ScopeMatchContext :=
  mkCtx (<[index d := Some value]> (cx_values ctx)) (<[index d := VersionReading_parse value]> (coerced ctx)) (head_commit ctx).
Definition with_head_commit (ctx : ScopeMatchContext) (oid : string) : ScopeMatchContext := mkCtx (cx_values ctx) (coerced ctx) (Some oid).
Definition ctx_value (ctx : ScopeMatchContext) (d : Dimension) : option string := mjoin (cx_values ctx !! index d).
Definition coerced_version (ctx : ScopeMatchContext) (d : Dimension) : option VersionReading := mjoin (coerced ctx !! index d).

Definition bool_outcome (value : bool) : MatchOutcome := if value then Matches else DoesNotMatch.

(** [None] is the [expect] on a version range without a parsed requirement. *)
Definition term_matches (oracle : GraphOracle) (t : TermValue) (requirement : option VersionReq) (d : Dimension) (ctx : ScopeMatchContext)
    : option MatchOutcome :=
  match t with
  | RedactedPlaceholder => Some Uncertain
  | GitReachable oid =>
      match head_commit ctx with
      | None => Some Uncertain
      | Some head =>
          if contains_redaction_placeholder head then Some Uncertain
          else match oracle oid head with Some true => Some Matches | Some false => Some DoesNotMatch | None => Some Uncertain end
      end
  | _ =>
      match ctx_value ctx d with
      | None => Some Uncertain
      | Some value =>
          if contains_redaction_placeholder value then Some Uncertain
          else
            match t with
            | Exact expected => Some (bool_outcome (bool_decide (expected = value)))
            | SetOf values => Some (bool_outcome (bool_decide (value ∈ values)))
            | Range start end_ => Some (bool_outcome (range_contains start end_ value))
            | VersionRange _ =>
                match coerced_version ctx d with
                | Some version => r ← requirement; Some (bool_outcome (reading_matches version r))
                | None => Some Uncertain
                end
            | GitReachable _ | RedactedPlaceholder => None
            end
      end
  end.

Fixpoint matches_loop (oracle : GraphOracle) (s : CanonicalScope) (ctx : ScopeMatchContext) (outcome : MatchOutcome) (l : list (Dimension * TermValue))
    : option MatchOutcome :=
  match l with
  | [] => Some outcome
  | (d, t) :: l =>
      o ← term_matches oracle t (version_requirement s d) d ctx;
      match o with
      | DoesNotMatch => Some DoesNotMatch
      | Uncertain => matches_loop oracle s ctx Uncertain l
      | Matches => matches_loop oracle s ctx outcome l
      end
  end.
Definition scope_matches (oracle : GraphOracle) (s : CanonicalScope) (ctx : ScopeMatchContext) : option MatchOutcome :=
  l ← terms s; matches_loop oracle s ctx Matches l.

(** ** Scope predicates *)
Definition subsumes_at (oracle : GraphOracle) (a b : CanonicalScope) (p : Dimension * TermValue) : bool :=
  let '(d, term_a) := p in
  match scope_term b d with
  | None => false
  | Some term_b =>
      match term_a, term_b with
      | VersionRange _, Exact value => default false (version_requirement a d ≫= (fun r => parsed_version_req_matches r value))
      | VersionRange _, SetOf values =>
          match version_requirement a d with
          | None => false
          | Some r => forallb (fun value => default false (parsed_version_req_matches r value)) (elements values)
          end
      | VersionRange qa, VersionRange qb =>
          if bool_decide (raw qa = raw qb) then true
          else match version_interval a d, version_interval b d with Some outer, Some inner => interval_contains outer inner | _, _ => false end
      | _, _ => default false (term_subsumes oracle term_a term_b)
      end
  end.
Definition scope_subsumes (oracle : GraphOracle) (a b : CanonicalScope) : option bool := l ← terms a; Some (forallb (subsumes_at oracle a b) l).

Definition overlaps_at (oracle : GraphOracle) (a b : CanonicalScope) (p : Dimension * TermValue) : bool :=
  let '(d, term_a) := p in
  match scope_term b d with
  | None => true
  | Some term_b =>
      match term_a, term_b with
      | VersionRange _, Exact value => default true (version_requirement a d ≫= (fun r => parsed_version_req_matches r value))
      | Exact value, VersionRange _ => default true (version_requirement b d ≫= (fun r => parsed_version_req_matches r value))
      | VersionRange _, SetOf values =>
          match version_requirement a d with
          | Some r => existsb (fun value => default true (parsed_version_req_matches r value)) (elements values)
          | None => true
          end
      | SetOf values, VersionRange _ =>
          match version_requirement b d with
          | Some r => existsb (fun value => default true (parsed_version_req_matches r value)) (elements values)
          | None => true
          end
      | VersionRange qa, VersionRange qb =>
          match version_interval a d, version_interval b d with
          | Some l, Some r => if bool_decide (raw qa = raw qb) then negb (is_empty l) else interval_overlaps l r
          | _, _ => true
          end
      | _, _ => default true (term_overlaps oracle term_a term_b)
      end
  end.
Definition scope_overlaps (oracle : GraphOracle) (a b : CanonicalScope) : option bool := l ← terms a; Some (forallb (overlaps_at oracle a b) l).

(** Terms are equal up to the text of a version range. *)
Definition term_eq (a b : TermValue) : bool :=
  match a, b with
  | Exact u, Exact v => bool_decide (u = v)
  | SetOf s, SetOf t => bool_decide (s = t)
  | Range s e, Range s' e' => bool_decide (s = s') && bool_decide (e = e')
  | VersionRange q, VersionRange r => bool_decide (raw q = raw r)
  | GitReachable h, GitReachable g => bool_decide (h = g)
  | RedactedPlaceholder, RedactedPlaceholder => true
  | _, _ => false
  end.
Definition option_term_eq (a b : option TermValue) : bool := match a, b with None, None => true | Some a, Some b => term_eq a b | _, _ => false end.
Definition scope_eq (a b : CanonicalScope) : bool :=
  (length (cs_terms a) =? length (cs_terms b))%nat && forallb (fun p => option_term_eq p.1 p.2) (zip (cs_terms a) (cs_terms b))
  && bool_decide (version_requirements a = version_requirements b) && bool_decide (version_intervals a = version_intervals b) && (present a =? present b).

Definition scope_equivalent (oracle : GraphOracle) (a b : CanonicalScope) : option bool :=
  if scope_eq a b && negb (has_placeholder a) then Some true
  else ab ← scope_subsumes oracle a b; if ab : bool then scope_subsumes oracle b a else Some false.
End Decode.
End Scope.
