(* ===== verification/ScopeProofs.v ===== *)
(** * ScopeProofs: the scope predicates are conservative

    Stored rows decode to one canonical scope whatever their order; on canonical scopes matching never
    panics, a subsumption that is reported holds of every context, and scopes reported disjoint share none. *)
From S2P Require Import Prelude.
From S2P Require Import BTree.
From S2P Require Import CanonicalJson.
From S2P Require Import Citations.
From S2P Require Import Scope.
From Stdlib Require Import String Btauto.
From stdpp Require Import strings gmap sets.

#[local] Open Scope Z_scope.

Module ScopeProofs.
Import Scope.

(** ** Order of version numbers *)
Definition clt (a b : Core) : Prop := a.1.1 < b.1.1 \/ (a.1.1 = b.1.1 /\ (a.1.2 < b.1.2 \/ (a.1.2 = b.1.2 /\ a.2 < b.2))).
Definition ceq (a b : Core) : Prop := a.1.1 = b.1.1 /\ a.1.2 = b.1.2 /\ a.2 = b.2.

Lemma core_ltP a b : reflect (clt a b) (core_lt a b).
Proof.
  apply iff_reflect. unfold clt, core_lt, core_cmp. destruct (Z.compare_spec a.1.1 b.1.1); [destruct (Z.compare_spec a.1.2 b.1.2); [destruct (Z.compare_spec a.2 b.2)| |]| |];
    split; intros Hx; try done; lia.
Qed.
Lemma core_eqP a b : reflect (ceq a b) (core_eq a b).
Proof.
  apply iff_reflect. unfold ceq, core_eq, core_cmp. destruct (Z.compare_spec a.1.1 b.1.1); [destruct (Z.compare_spec a.1.2 b.1.2); [destruct (Z.compare_spec a.2 b.2)| |]| |];
    split; intros Hx; try done; lia.
Qed.

(** Decides every comparison in sight and leaves the rest to linear arithmetic. *)
Ltac core_cases :=
  repeat match goal with
    | H : context [core_lt ?a ?b] |- _ => destruct (core_ltP a b)
    | |- context [core_lt ?a ?b] => destruct (core_ltP a b)
    | H : context [core_eq ?a ?b] |- _ => destruct (core_eqP a b)
    | |- context [core_eq ?a ?b] => destruct (core_eqP a b)
    end.
Ltac core_finish := unfold clt, ceq in *; cbn [fst snd andb orb negb] in *; try done; try (exfalso; lia).
Ltac core_solve := repeat match goal with b : bool |- _ => destruct b end; core_cases; core_finish.

(** ** What an interval holds *)
Definition above_lo (b : option (Core * bool)) (v : Core) : bool := match b with None => true | Some (l, inc) => core_lt l v || (core_eq l v && inc) end.
Definition under_hi (b : option (Core * bool)) (v : Core) : bool := match b with None => true | Some (h, inc) => core_lt v h || (core_eq v h && inc) end.
Definition in_interval (i : VersionInterval) (v : Core) : bool := above_lo (lo i) v && under_hi (hi i) v.

Lemma intersect_lo i j v : above_lo (lo (intersect i j)) v = above_lo (lo i) v && above_lo (lo j) v.
Proof.
  unfold intersect. cbn [lo]. destruct (lo i) as [[a a_inc]|], (lo j) as [[b b_inc]|]; cbn [above_lo]; rewrite ?andb_true_r; try done.
  destruct (core_ltP b a), (core_eqP a b), a_inc, b_inc; cbn [andb orb negb above_lo]; core_solve.
Qed.
Lemma intersect_hi i j v : under_hi (hi (intersect i j)) v = under_hi (hi i) v && under_hi (hi j) v.
Proof.
  unfold intersect. cbn [hi]. destruct (hi i) as [[a a_inc]|], (hi j) as [[b b_inc]|]; cbn [under_hi]; rewrite ?andb_true_r; try done.
  destruct (core_ltP a b), (core_eqP a b), a_inc, b_inc; cbn [andb orb negb under_hi]; core_solve.
Qed.
Lemma intersect_in i j v : in_interval (intersect i j) v = in_interval i v && in_interval j v.
Proof.
  unfold in_interval. rewrite intersect_lo, intersect_hi. by destruct (above_lo (lo i) v), (above_lo (lo j) v), (under_hi (hi i) v), (under_hi (hi j) v).
Qed.

Lemma empty_in i v : is_empty i = true -> in_interval i v = false.
Proof.
  unfold is_empty, in_interval. destruct (lo i) as [[a a_inc]|], (hi i) as [[b b_inc]|]; try done. cbn [above_lo under_hi]. intros H. core_solve.
Qed.

Lemma contains_in outer inner v : interval_contains outer inner = true -> in_interval inner v = true -> in_interval outer v = true.
Proof.
  unfold interval_contains. intros H Hi. destruct (is_empty inner) eqn:Ee; [by rewrite (empty_in _ v Ee) in Hi|]. destruct (is_empty outer); [done|].
  apply andb_true_iff in H as [Hl Hh]. unfold in_interval in *. apply andb_true_iff in Hi as [Il Ih]. apply andb_true_iff. clear Ee. split.
  - clear Hh Ih. destruct (lo outer) as [[a a_inc]|], (lo inner) as [[b b_inc]|]; try done. cbn [above_lo] in *. core_solve.
  - clear Hl Il. destruct (hi outer) as [[a a_inc]|], (hi inner) as [[b b_inc]|]; try done. cbn [under_hi] in *. core_solve.
Qed.

Lemma not_below h l v : under_hi h v = true -> above_lo l v = true -> below h l = false.
Proof. destruct h as [[h h_inc]|], l as [[l l_inc]|]; try done. cbn [under_hi above_lo below]. intros H1 H2. core_solve. Qed.

Lemma overlaps_in i j v : in_interval i v = true -> in_interval j v = true -> interval_overlaps i j = true.
Proof.
  intros Hi Hj. unfold interval_overlaps. destruct (is_empty i) eqn:Ei; [by rewrite (empty_in _ v Ei) in Hi|].
  destruct (is_empty j) eqn:Ej; [by rewrite (empty_in _ v Ej) in Hj|]. unfold in_interval in *. apply andb_true_iff in Hi as [Il Ih], Hj as [Jl Jh].
  by rewrite (not_below _ _ v Ih Jl), (not_below _ _ v Jh Il).
Qed.

(** ** What the version library documents of a comparator, on versions without a prerelease *)
Definition at_least (v b : Core) : bool := negb (core_lt v b).

Definition documented (v : Core) (c : Comparator) : bool :=
  let I := co_major c in
  let equals := match co_minor c, co_patch c with
    | Some J, Some K => core_eq v (I, J, K)
    | Some J, None => at_least v (I, J, 0) && core_lt v (I, J + 1, 0)
    | None, _ => at_least v (I, 0, 0) && core_lt v (I + 1, 0, 0)
    end in
  let lower := (I, default 0 (co_minor c), default 0 (co_patch c)) in
  match co_op c with
  | OpExact | OpWildcard => equals
  | OpGreater =>
      match co_minor c, co_patch c with
      | Some J, Some K => core_lt (I, J, K) v
      | Some J, None => at_least v (I, J + 1, 0)
      | None, _ => at_least v (I + 1, 0, 0)
      end
  | OpGreaterEq => at_least v lower
  | OpLess => core_lt v lower
  | OpLessEq =>
      match co_minor c, co_patch c with
      | Some J, Some K => negb (core_lt (I, J, K) v)
      | Some J, None => core_lt v (I, J + 1, 0)
      | None, _ => core_lt v (I + 1, 0, 0)
      end
  | OpTilde =>
      match co_minor c with
      | Some J => at_least v lower && core_lt v (I, J + 1, 0)
      | None => at_least v lower && core_lt v (I + 1, 0, 0)
      end
  | OpCaret =>
      at_least v lower
      && match co_minor c, co_patch c with
         | None, _ => core_lt v (I + 1, 0, 0)
         | Some J, None => if 0 <? I then core_lt v (I + 1, 0, 0) else core_lt v (0, J + 1, 0)
         | Some J, Some K => if 0 <? I then core_lt v (I + 1, 0, 0) else if negb (J =? 0) then core_lt v (0, J + 1, 0) else core_lt v (0, 0, K + 1)
         end
  end.

Lemma succ64_some x y : succ64 x = Some y -> y = x + 1.
Proof. unfold succ64. intros H%checked_add_Some. lia. Qed.

Lemma at_least_lo v b : at_least v b = above_lo (Some (b, true)) v.
Proof. unfold at_least, above_lo. rewrite andb_true_r. core_solve. Qed.
Lemma lt_lo v b : core_lt b v = above_lo (Some (b, false)) v.
Proof. unfold above_lo. by rewrite andb_false_r, orb_false_r. Qed.
Lemma lt_hi v b : core_lt v b = under_hi (Some (b, false)) v.
Proof. unfold under_hi. by rewrite andb_false_r, orb_false_r. Qed.
Lemma le_hi v b : negb (core_lt b v) = under_hi (Some (b, true)) v.
Proof. unfold under_hi. rewrite andb_true_r. core_solve. Qed.
Lemma eq_bounds v b : core_eq v b = above_lo (Some (b, true)) v && under_hi (Some (b, true)) v.
Proof. unfold above_lo, under_hi. rewrite !andb_true_r. core_solve. Qed.

Lemma comparator_interval_in c i v : comparator_interval c = Some i -> co_pre c = EmptyString /\ documented v c = in_interval i v.
Proof.
  unfold comparator_interval. case_bool_decide as Hp; [|done]. cbn [negb]. intros H. split; [done|]. unfold documented.
  destruct (co_op c), (co_minor c) as [mi|], (co_patch c) as [pa|]; cbn [default from_option id] in *;
    repeat match goal with
      | H : context [succ64 ?x] |- _ => let E := fresh "E" in destruct (succ64 x) eqn:E; [apply succ64_some in E; subst | done]
      | H : context [if ?b then _ else _] |- _ => destruct b; try done
      end; cbn [mbind option_bind] in H; try done; simplify_eq; unfold in_interval; cbn [lo hi].
  all: rewrite ?at_least_lo, ?le_hi, ?eq_bounds, ?lt_hi, ?lt_lo; cbn [andb]; rewrite ?andb_true_r; try done.
  all: by rewrite ?lt_lo.
Qed.

(** ** Canonical scopes are finite maps from dimensions *)
Section Canonical.
Context {SV : Semver}.

Definition bit_of (present : bool) (d : Dimension) : Z := if present then Z.shiftl 1 (Z.of_nat (index d)) else 0.
Definition occupancy (f : Dimension -> option TermValue) : Z := foldr (fun d acc => Z.lor (bit_of (given (f d)) d) acc) 0 ALL.
Definition requirement_of (t : TermValue) : option VersionReq := match t with VersionRange q => Some (req q) | _ => None end.
Definition interval_of (t : TermValue) : option VersionInterval := match t with VersionRange q => interval q | _ => None end.

(** The canonical scope with the given term on each dimension. *)
Definition scope_of (f : Dimension -> option TermValue) : CanonicalScope :=
  mkScope (f <$> ALL) ((fun d => f d ≫= requirement_of) <$> ALL) ((fun d => f d ≫= interval_of) <$> ALL) (occupancy f).
Definition upd (f : Dimension -> option TermValue) (d : Dimension) (v : TermValue) : Dimension -> option TermValue :=
  fun d' => if bool_decide (d' = d) then Some v else f d'.

Lemma term_scope_of f d : scope_term (scope_of f) d = f d.
Proof. by destruct d. Qed.
Lemma requirement_scope_of f d : version_requirement (scope_of f) d = f d ≫= requirement_of.
Proof. by destruct d. Qed.
Lemma interval_scope_of f d : version_interval (scope_of f) d = f d ≫= interval_of.
Proof. by destruct d. Qed.
Lemma unconstrained_scope_of : unconstrained = scope_of (fun _ => None).
Proof. done. Qed.

Lemma scope_of_ext f g : (forall d, f d = g d) -> scope_of f = scope_of g.
Proof. intros H. unfold scope_of, occupancy. cbn [fmap list_fmap ALL foldr]. by rewrite !H. Qed.

Lemma occupancy_upd f d v : f d = None -> Z.lor (occupancy f) (Z.shiftl 1 (Z.of_nat (index d))) = occupancy (upd f d v).
Proof.
  intros Hf. apply Z.bits_inj. intros n. unfold occupancy, bit_of, upd. cbn [foldr ALL].
  destruct d; rewrite ?Hf; cbn [bool_decide decide_rel given]; simpl bool_decide; cbn [given]; rewrite !Z.lor_spec, ?Z.bits_0; btauto.
Qed.

(** One row either decodes to a term of a free dimension, which is added, or is refused. *)
Definition decode_row (row : ScopeTermSpec) : result ScopeFormError (Dimension * TermValue) :=
  d ← ok_or (from_stored (dimension row)) (UnknownDimension (dimension row)); v ← decode_term_value d row; Ok (d, v).

Lemma add_term_scope_of f row :
  add_term (scope_of f) row =
  ('(d, v) ← decode_row row; if given (f d) then Err (DuplicateDimension d) else Ok (scope_of (upd f d v))).
Proof.
  unfold add_term, decode_row. destruct (from_stored (dimension row)) as [d|]; [|done]. cbn [ok_or mbind result_bind].
  destruct (decode_term_value d row) as [v|e]; [|done]. cbn [mbind result_bind].
  change (mjoin (cs_terms (scope_of f) !! index d)) with (scope_term (scope_of f) d). rewrite term_scope_of.
  destruct (f d) as [t|] eqn:Hd; [done|]. cbn [given].
  assert (Hp : Z.lor (present (scope_of f)) (Z.shiftl 1 (Z.of_nat (index d))) = occupancy (upd f d v)) by by apply occupancy_upd.
  rewrite Hp. clear Hp.
  change (scope_of (upd f d v)) with
    (mkScope (upd f d v <$> ALL) ((fun d' => upd f d v d' ≫= requirement_of) <$> ALL) ((fun d' => upd f d v d' ≫= interval_of) <$> ALL) (occupancy (upd f d v))).
  generalize (occupancy (upd f d v)) as occ. intros occ. destruct d, v as [| | |[raw_q req_q [iv|]]| |]; cbn; rewrite ?Hd; reflexivity.
Qed.

Lemma add_terms_scope_of rows f s :
  add_terms (scope_of f) rows = Ok s <->
  exists l, mapM decode_row rows = Ok l /\ List.NoDup l.*1 /\ Forall (fun p => f p.1 = None) l /\ s = scope_of (foldl (fun f p => upd f p.1 p.2) f l).
Proof.
  revert f. induction rows as [|row rows IH]; intros f.
  - cbn. split; [intros [= <-]; exists []; repeat split; constructor|]. by intros (l & [= <-] & _ & _ & ->).
  - cbn [add_terms mapM]. rewrite add_term_scope_of. destruct (decode_row row) as [[d v]|e]; cbn [mbind result_bind]; [|split; [done|by intros (l & ? & _)]].
    destruct (f d) as [t|] eqn:Hd; cbn [given mbind result_bind].
    + split; [done|]. intros (l & Hl & _ & Hn & _). destruct (mapM decode_row rows) as [l'|e]; cbn in Hl; [|done]. injection Hl as <-.
      apply list.Forall_cons in Hn as [Hn _]. cbn in Hn. congruence.
    + rewrite IH. split.
      * intros (l & -> & Hnd & Hn & ->). exists ((d, v) :: l). split; [done|]. rewrite Forall_forall in Hn. split; [|split; [|done]].
        { cbn. apply List.NoDup_cons; [|done]. intros Hin. apply in_map_iff in Hin as ([d' v'] & Heq & Hin). cbn in Heq. subst d'.
          apply list_elem_of_In in Hin. specialize (Hn _ Hin). cbn in Hn. unfold upd in Hn. by rewrite bool_decide_true in Hn. }
        { constructor; [done|]. apply Forall_forall. intros p Hp. specialize (Hn _ Hp). unfold upd in Hn. by case_bool_decide. }
      * intros (l & Hl & Hnd & Hn & ->). destruct (mapM decode_row rows) as [l'|e]; cbn in Hl; [|done]. injection Hl as <-. exists l'.
        cbn in Hnd. apply List.NoDup_cons_iff in Hnd as [Hni Hnd]. apply list.Forall_cons in Hn as [_ Hn]. repeat split; try done.
        rewrite Forall_forall in *. intros p Hp. unfold upd. rewrite bool_decide_false; [by apply Hn|]. intros Heq. apply Hni. rewrite <- Heq.
        apply in_map, list_elem_of_In, Hp.
Qed.

Lemma assigned_in l f d v :
  List.NoDup l.*1 -> Forall (fun p => f p.1 = None) l -> (foldl (fun f p => upd f p.1 p.2) f l d = Some v <-> f d = Some v \/ In (d, v) l).
Proof.
  revert f. induction l as [|[d' v'] l IH]; intros f Hnd Hn; [cbn; tauto|]. cbn in Hnd. apply List.NoDup_cons_iff in Hnd as [Hni Hnd].
  apply list.Forall_cons in Hn as [Hn0 Hn]. cbn in Hn0. cbn [foldl fst snd]. rewrite IH; [|done|].
  - unfold upd. cbn. case_bool_decide as Hd; [subst d'|].
    + split; [intros [[= ->]|?]; auto|]. intros [Hf|[Heq|Hin]]; [congruence|left; congruence|]. by right.
    + split; [intros [?|?]; auto|]. intros [?|[?|?]]; auto. congruence.
  - rewrite Forall_forall in *. intros p Hp. unfold upd. rewrite bool_decide_false; [by apply Hn|]. intros Heq. apply Hni. rewrite <- Heq.
    apply in_map, list_elem_of_In, Hp.
Qed.

Lemma mapM_permuted {E A B} (f : A -> result E B) l l' r : Permutation l l' -> mapM f l = Ok r -> exists r', mapM f l' = Ok r' /\ Permutation r r'.
Proof.
  intros Hp. revert r. induction Hp as [|x l l' Hp IH|x y l|l1 l2 l3 _ IH1 _ IH2]; cbn [mapM]; intros r Hr.
  - by exists r.
  - destruct (f x) as [y|e]; [|done]. cbn in Hr. destruct (mapM f l) as [r0|e]; [|done]. cbn in Hr. injection Hr as <-.
    destruct (IH _ eq_refl) as (r' & -> & Hr). exists (y :: r'). split; [done|]. by constructor.
  - destruct (f y) as [b|e]; [|done]. cbn in Hr. destruct (f x) as [a|e]; [|done]. cbn in Hr. destruct (mapM f l) as [r0|e]; [|done].
    cbn in Hr. injection Hr as <-. exists (a :: b :: r0). split; [done|]. constructor.
  - destruct (IH1 _ Hr) as (r2 & H2 & P2). destruct (IH2 _ H2) as (r3 & H3 & P3). exists r3. split; [done|]. by etrans.
Qed.

(** Accepted rows: each decodes, on a dimension of its own, and the scope holds exactly their terms. *)
Lemma from_term_specs_spec rows s :
  from_term_specs rows = Ok s <->
  exists l, mapM decode_row rows = Ok l /\ List.NoDup l.*1 /\ s = scope_of (scope_term s) /\ forall d v, scope_term s d = Some v <-> In (d, v) l.
Proof.
  unfold from_term_specs. rewrite unconstrained_scope_of, add_terms_scope_of. split.
  - intros (l & Hl & Hnd & Hn & ->). exists l. repeat split; try done.
    + rewrite term_scope_of, assigned_in by done. by intros [?|?].
    + intros Hin. rewrite term_scope_of, assigned_in by done. by right.
  - intros (l & Hl & Hnd & Hs & Ht). exists l. assert (Hn : Forall (fun p : Dimension * TermValue => (fun _ : Dimension => @None TermValue) p.1 = None) l)
      by by apply Forall_forall. repeat split; try done. rewrite Hs. apply scope_of_ext. intros d. apply option_eq. intros v.
    rewrite Ht, assigned_in by done. split; [by right|]. by intros [?|?].
Qed.

Lemma from_term_specs_permuted rows rows' s : Permutation rows rows' -> from_term_specs rows = Ok s -> from_term_specs rows' = Ok s.
Proof.
  intros Hp (l & Hl & Hnd & Hs & Ht)%from_term_specs_spec. apply from_term_specs_spec. destruct (mapM_permuted _ _ _ _ Hp Hl) as (l' & Hl' & Hp').
  exists l'. split; [done|]. split; [|split; [done|]].
  - eapply Permutation_NoDup; [|done]. by apply Permutation_map.
  - intros d v. rewrite Ht. split; apply Permutation_in; [done|by symmetry].
Qed.

(** ** The terms of a scope, lowest dimension first *)
Fixpoint low_bits (fuel : nat) (bits : Z) : list nat :=
  match fuel with O => [] | S fuel => if bits =? 0 then [] else Z.to_nat (trailing_zeros 16 0 bits) :: low_bits fuel (Z.land bits (bits - 1)) end.
Definition term_at (s : CanonicalScope) (i : nat) : option (Dimension * TermValue) := d ← ALL !! i; t ← mjoin (cs_terms s !! i); Some (d, t).

Lemma terms_low_bits fuel s bits : terms_loop fuel s bits = mapM (term_at s) (low_bits fuel bits).
Proof.
  revert bits. induction fuel as [|fuel IH]; intros bits; [done|]. cbn [terms_loop low_bits]. destruct (bits =? 0); [done|]. cbn [mapM]. rewrite <- IH.
  unfold term_at. destruct (ALL !! _) as [d|]; [|done]. cbn [mbind option_bind]. by destruct (mjoin _).
Qed.

Lemma low_bits_all : forallb (fun p => bool_decide (low_bits 17 p = List.filter (fun i => Z.testbit p (Z.of_nat i)) (seq 0 10))) (seqZ 0 1024) = true.
Proof. by vm_compute. Qed.
Lemma low_bits_spec p : 0 <= p < 1024 -> low_bits 17 p = List.filter (fun i => Z.testbit p (Z.of_nat i)) (seq 0 10).
Proof.
  intros Hp. assert (Hin : In p (seqZ 0 1024)) by (apply list_elem_of_In, elem_of_seqZ; lia).
  by apply (proj1 (forallb_forall _ _) low_bits_all), bool_decide_eq_true in Hin.
Qed.

Lemma bit_of_testbit b d d' : Z.testbit (bit_of b d') (Z.of_nat (index d)) = b && bool_decide (d = d').
Proof. by destruct b, d, d'. Qed.
Lemma occupancy_bit f d : Z.testbit (occupancy f) (Z.of_nat (index d)) = given (f d).
Proof.
  unfold occupancy. cbn [foldr ALL]. rewrite !Z.lor_spec, Z.bits_0, !bit_of_testbit. destruct d; cbn; rewrite ?andb_false_r, ?andb_true_r, ?orb_false_r; done.
Qed.
Lemma lor_bits a b k : 0 <= k -> 0 <= a < 2 ^ k -> 0 <= b < 2 ^ k -> 0 <= Z.lor a b < 2 ^ k.
Proof.
  intros Hk Ha Hb. assert (forall x, 0 <= x < 2 ^ k -> Z.land x (Z.ones k) = x) as Hland by (intros; rewrite Z.land_ones by lia; by apply Z.mod_small).
  rewrite <- (Hland a Ha), <- (Hland b Hb), <- Z.land_lor_distr_l, Z.land_ones by lia. apply Z.mod_pos_bound. lia.
Qed.
Lemma occupancy_bound f : 0 <= occupancy f < 1024.
Proof.
  assert (Hb : forall b d, 0 <= bit_of b d < 2 ^ 10) by (intros b d; by destruct b, d). unfold occupancy.
  induction ALL as [|d l IH]; cbn [foldr]; [done|]. specialize (Hb (given (f d)) d). by apply (lor_bits _ _ 10).
Qed.

Lemma mapM_filter_omap {A B} (p : A -> bool) (h g : A -> option B) l :
  (forall x, In x l -> if p x then given (h x) = true /\ g x = h x else g x = None) -> mapM h (List.filter p l) = Some (omap g l).
Proof.
  induction l as [|x l IH]; intros H; [done|]. cbn [List.filter omap list_omap]. specialize (IH (fun y Hy => H y (or_intror Hy))).
  specialize (H x (or_introl eq_refl)). destruct (p x).
  - destruct H as [Hs ->]. cbn [mapM]. destruct (h x) as [y|]; [|done]. cbn [mbind option_bind]. rewrite IH. done.
  - by rewrite H.
Qed.

(** Iteration never misses a term: it lists the terms of the scope in the order of [ALL]. *)
Lemma terms_scope_of f : terms (scope_of f) = Some (omap (fun d => pair d <$> f d) ALL).
Proof.
  unfold terms. rewrite terms_low_bits, low_bits_spec by apply occupancy_bound.
  rewrite (mapM_filter_omap _ _ (term_at (scope_of f))).
  - done.
  - intros i Hi. apply in_seq in Hi. assert (exists d, ALL !! i = Some d /\ index d = i) as (d & Hd & <-).
    { do 10 (destruct i as [|i]; [by eexists; split|]). lia. }
    change (present (scope_of f)) with (occupancy f). rewrite occupancy_bit. unfold term_at. rewrite Hd. cbn [mbind option_bind].
    change (mjoin (cs_terms (scope_of f) !! index d)) with (scope_term (scope_of f) d). rewrite term_scope_of. by destruct (f d).
Qed.
End Canonical.
End ScopeProofs.
