(* ===== verification/ScopeSound.v ===== *)
(** * ScopeSound: the scope predicates against what scopes mean

    A scope is a conjunction of conditions on a complete setting: a text for every dimension and a head
    commit. Matching, subsumption, overlap and equivalence only ever answer what holds of every setting the
    known values leave possible, whatever a redacted scope_term stood for. *)
From S2P Require Import Prelude.
From S2P Require Import BTree.
From S2P Require Import CanonicalJson.
From S2P Require Import Citations.
From S2P Require Import Scope.
From S2P Require Import ScopeProofs.
From Stdlib Require Import String.
From stdpp Require Import strings gmap sets.

#[local] Open Scope Z_scope.

Module ScopeSound.
Import Scope.
Import ScopeProofs.

(** ** Text ranges *)
Lemma str_lt_lt a b : str_lt a b = true <-> key_lt a b.
Proof. unfold str_lt, key_lt. by destruct (String.compare a b). Qed.
Lemma str_lt_trans a b c : str_lt a b = true -> str_lt b c = true -> str_lt a c = true.
Proof. rewrite !str_lt_lt. apply key_lt_trans. Qed.
Lemma str_ge_trans a b c : str_lt b a = false -> str_lt c b = false -> str_lt c a = false.
Proof.
  intros Hab Hbc. apply not_true_iff_false. intros Hca. destruct (String.compare a b) eqn:E.
  - apply String.compare_eq_iff in E as ->. congruence.
  - assert (str_lt c b = true) by (eapply str_lt_trans; [done|by apply str_lt_lt]). congruence.
  - unfold str_lt in Hab. by rewrite String.compare_antisym, E in Hab.
Qed.
Lemma str_ge_lt a b c : str_lt a b = false -> str_lt a c = true -> str_lt b c = true.
Proof.
  intros Hab Hac. destruct (str_lt b c) eqn:E; [done|]. by rewrite (str_ge_trans _ _ _ E Hab) in Hac.
Qed.
Lemma str_lt_ge a b c : str_lt a b = true -> str_lt c b = false -> str_lt a c = true.
Proof. intros Hab Hcb. destruct (str_lt a c) eqn:E; [done|]. by rewrite (str_ge_trans _ _ _ Hcb E) in Hab. Qed.

Lemma range_contains_wider ps pe rs re v :
  range_bound_le ps rs && range_bound_ge pe re = true -> range_contains rs re v = true -> range_contains ps pe v = true.
Proof.
  unfold range_contains. rewrite !andb_true_iff. intros [Hs He] [Hvs Hve]. split.
  - destruct ps as [ps|], rs as [rs|]; try done. cbn in Hs. apply negb_true_iff in Hs, Hvs. apply negb_true_iff. by eapply str_ge_trans.
  - destruct pe as [pe|], re as [re|]; try done. cbn in He. apply negb_true_iff in He. by eapply str_lt_ge.
Qed.

Lemma range_contains_overlap ps pe rs re v : range_contains ps pe v = true -> range_contains rs re v = true -> ranges_overlap ps pe rs re = true.
Proof.
  unfold range_contains, ranges_overlap. rewrite !andb_true_iff. intros [Hps Hpe] [Hrs Hre]. split.
  - destruct ps as [ps|], re as [re|]; try done. cbn. apply negb_true_iff in Hps. by eapply str_ge_lt.
  - destruct rs as [rs|], pe as [pe|]; try done. cbn. apply negb_true_iff in Hrs. by eapply str_ge_lt.
Qed.

(** ** The version library, as documented *)
Class SemverLaws `{SV : Semver} : Prop := {
  req_matches_documented text r v :
    parse_req text = Some r -> pre v = EmptyString -> Forall (fun c => co_pre c = EmptyString) r -> req_matches r v = forallb (documented (core v)) r;
}.

Section Meaning.
Context `{SL : SemverLaws}.

Lemma comparable_release text v : VersionReading_parse text = Some v -> pre (comparable v) = EmptyString.
Proof.
  unfold VersionReading_parse, demote_pre_to_build, coerce_platform_version, mbind, option_bind.
  repeat case_match; intros; simplify_eq; try done; cbn; by eapply bool_decide_eq_true_1.
Qed.

Lemma intersect_all_in i0 r i :
  intersect_all i0 r = Some i -> Forall (fun c => co_pre c = EmptyString) r /\ forall v, in_interval i v = in_interval i0 v && forallb (documented v) r.
Proof.
  revert i0. induction r as [|c r IH]; intros i0; cbn [intersect_all].
  - intros [= ->]. split; [constructor|]. intros v. by rewrite andb_true_r.
  - destruct (comparator_interval c) as [j|] eqn:Hc; [|done]. cbn [mbind option_bind]. intros H. destruct (IH _ H) as [Hp Hv].
    split; [constructor; [by eapply (comparator_interval_in c j (0, 0, 0))|done]|]. intros v. rewrite Hv, intersect_in. cbn [forallb].
    destruct (comparator_interval_in c j v Hc) as [_ ->]. by rewrite andb_assoc.
Qed.

(** A requirement with an interval matches exactly the versions whose numbers lie in it. *)
Lemma interval_reads text r i value v :
  parse_req text = Some r -> parsed_version_req_interval r = Some i -> VersionReading_parse value = Some v ->
  reading_matches v r = in_interval i (core (comparable v)).
Proof.
  intros Hr Hi Hv. destruct (intersect_all_in _ _ _ Hi) as [Hp Hin]. rewrite Hin. cbn [andb in_interval full lo hi above_lo under_hi].
  assert (req_names_prerelease r = false) as Hn.
  { unfold req_names_prerelease. apply not_true_iff_false. rewrite existsb_exists. intros (c & Hc & Hcp). rewrite Forall_forall in Hp.
    specialize (Hp c). rewrite list_elem_of_In in Hp. rewrite (Hp Hc) in Hcp. done. }
  unfold reading_matches. rewrite Hn.
  rewrite <- (req_matches_documented _ _ _ Hr (comparable_release _ _ Hv) Hp). by destruct (prerelease v).
Qed.

(** ** What a scope means *)
Record Setting := mkSetting { value_of : Dimension -> string; head_of : string }.
Context (anc : string -> string -> Prop).

(** [hidden] is what the redacted terms of the scope stood for. *)
Definition means (hidden : Dimension -> Prop) (e : Setting) (d : Dimension) (t : TermValue) : Prop :=
  match t with
  | Exact v => value_of e d = v
  | SetOf s => value_of e d ∈ s
  | Range start end_ => range_contains start end_ (value_of e d) = true
  | VersionRange q => parsed_version_req_matches (req q) (value_of e d) = Some true
  | GitReachable oid => anc oid (head_of e)
  | RedactedPlaceholder => hidden d
  end.
Definition satisfied (hidden : Dimension -> Prop) (s : CanonicalScope) (e : Setting) : Prop := forall d t, scope_term s d = Some t -> means hidden e d t.

(** The settings a context leaves possible: its resolved values that redaction left readable are the setting's. *)
Record possible (ctx : ScopeMatchContext) (e : Setting) : Prop := {
  possible_value d v : ctx_value ctx d = Some v -> contains_redaction_placeholder v = false -> value_of e d = v;
  possible_head h : head_commit ctx = Some h -> contains_redaction_placeholder h = false -> head_of e = h;
}.

(** Contexts as their builder makes them. *)
Inductive built : ScopeMatchContext -> Prop :=
| built_new : built ctx_new
| built_value ctx d v : built ctx -> built (with_value ctx d v)
| built_head ctx h : built ctx -> built (with_head_commit ctx h).

Lemma built_lengths ctx : built ctx -> length (cx_values ctx) = DIMENSION_COUNT /\ length (coerced ctx) = DIMENSION_COUNT.
Proof. induction 1 as [|ctx d v _ IH|ctx h _ IH]; cbn; [done| |done]. by rewrite !length_insert. Qed.
Lemma index_lt d : (index d < DIMENSION_COUNT)%nat.
Proof. unfold DIMENSION_COUNT. destruct d; cbn; lia. Qed.
Lemma index_inj d d' : index d = index d' -> d = d'.
Proof. by destruct d, d'. Qed.

(** The cached reading is the reading of the value. *)
Lemma built_coerced ctx d : built ctx -> coerced_version ctx d = ctx_value ctx d ≫= VersionReading_parse.
Proof.
  induction 1 as [|ctx d' v Hb IH|ctx h _ IH]; [by destruct d| |done]. destruct (built_lengths _ Hb) as [H1 H2]. pose proof (index_lt d') as Hl.
  unfold coerced_version, ctx_value, with_value. cbn [coerced cx_values]. destruct (decide (index d' = index d)) as [Heq|Hne].
  - rewrite Heq in *. by rewrite !list_lookup_insert_eq by lia.
  - by rewrite !list_lookup_insert_ne by done.
Qed.

(** ** Matching *)
Definition sound_oracle (oracle : GraphOracle) : Prop := forall a b x, oracle a b = Some x -> if x : bool then anc a b else ~ anc a b.
Definition answers (P : Prop) (o : MatchOutcome) : Prop := match o with Matches => P | DoesNotMatch => ~ P | Uncertain => True end.

Lemma bool_answers P b : (b = true <-> P) -> answers P (bool_outcome b).
Proof. destruct b; cbn; intros H; [by apply H|]. intros HP. by apply H in HP. Qed.

Lemma term_matches_sound oracle hidden t d ctx e :
  sound_oracle oracle -> built ctx -> possible ctx e ->
  exists o, term_matches oracle t (requirement_of t) d ctx = Some o /\ answers (means hidden e d t) o.
Proof.
  intros Ho Hb [Hv Hh]. unfold term_matches. destruct t as [v|vs|start end_|q|oid|]; cbn [requirement_of]; [| | | | |by exists Uncertain].
  1-4: destruct (ctx_value ctx d) as [value|] eqn:Ev; [|by exists Uncertain];
       destruct (contains_redaction_placeholder value) eqn:Er; [by exists Uncertain|]; pose proof (Hv _ _ Ev Er) as He; cbn [means]; rewrite He.
  - eexists; split; [done|]. apply bool_answers. rewrite bool_decide_eq_true. split; congruence.
  - eexists; split; [done|]. apply bool_answers. by rewrite bool_decide_eq_true.
  - eexists; split; [done|]. by apply bool_answers.
  - rewrite built_coerced, Ev by done. cbn [mbind option_bind]. unfold parsed_version_req_matches.
    destruct (VersionReading_parse value) as [r|]; [|by exists Uncertain]. eexists; split; [done|]. cbn. apply bool_answers. split; congruence.
  - destruct (head_commit ctx) as [h|] eqn:Eh; [|by exists Uncertain]. destruct (contains_redaction_placeholder h) eqn:Er; [by exists Uncertain|].
    pose proof (Hh _ eq_refl Er) as He. cbn [means]. rewrite He. destruct (oracle oid h) as [[|]|] eqn:Eo; eexists; (split; [done|]); cbn; try done.
    + by apply (Ho _ _ _ Eo).
    + by apply (Ho _ _ _ Eo).
Qed.

Lemma matches_loop_sound oracle hidden f l ctx e outcome :
  sound_oracle oracle -> built ctx -> possible ctx e -> Forall (fun p => f p.1 = Some p.2) l ->
  exists o, matches_loop oracle (scope_of f) ctx outcome l = Some o /\
    match o with
    | Matches => outcome = Matches /\ Forall (fun p => means hidden e p.1 p.2) l
    | DoesNotMatch => outcome = DoesNotMatch \/ Exists (fun p => ~ means hidden e p.1 p.2) l
    | Uncertain => True
    end.
Proof.
  intros Ho Hb Hp. revert outcome. induction l as [|[d t] l IH]; intros outcome Hl; cbn [matches_loop].
  - exists outcome. destruct outcome; auto.
  - apply list.Forall_cons in Hl as [Hd Hl]. cbn in Hd. rewrite requirement_scope_of, Hd. cbn [mbind option_bind].
    destruct (term_matches_sound oracle hidden t d ctx e Ho Hb Hp) as (o & -> & Ha). cbn [mbind option_bind]. destruct o; cbn [answers] in Ha.
    + destruct (IH outcome Hl) as (o & -> & Hr). exists o. split; [done|]. destruct o; [|destruct Hr; [by left|by right; apply Exists_cons_tl]|done].
      destruct Hr. split; [done|]. by constructor.
    + exists DoesNotMatch. split; [done|]. right. by constructor.
    + destruct (IH Uncertain Hl) as (o & -> & Hr). exists o. split; [done|]. destruct o; [by destruct Hr|destruct Hr; [done|right; by apply Exists_cons_tl]|done].
Qed.

Lemma scope_terms f : exists l, terms (scope_of f) = Some l /\ (forall d t, In (d, t) l <-> f d = Some t).
Proof.
  eexists. split; [apply terms_scope_of|]. intros d t. rewrite <- list_elem_of_In, list_elem_of_omap. split.
  - intros (d' & _ & Hd). destruct (f d') eqn:E; [|done]. cbn in Hd. by simplify_eq.
  - intros Hd. exists d. rewrite Hd. split; [|done]. destruct d; set_solver.
Qed.

(** ** Pairs of terms *)
Definition parsed (t : TermValue) : Prop := match t with VersionRange q => VersionSpec_parse (raw q) = Some q | _ => True end.

Lemma parsed_spec q : VersionSpec_parse (raw q) = Some q -> parse_req (raw q) = Some (req q) /\ interval q = parsed_version_req_interval (req q).
Proof. unfold VersionSpec_parse. destruct (parse_req (raw q)) as [r|]; [|done]. cbn. intros H. destruct q. cbn in *. by simplify_eq. Qed.

Lemma version_req_matches_parsed q v : parsed (VersionRange q) -> version_req_matches (raw q) v = parsed_version_req_matches (req q) v.
Proof. intros [H _]%parsed_spec. unfold version_req_matches. by rewrite H. Qed.

Lemma all_values_true p values v : all_values p values = Some true -> In v values -> p v = Some true.
Proof.
  induction values as [|x values IH]; [done|]. cbn. destruct (p x) as [[|]|] eqn:E; try done. intros H [->|Hin]; auto.
Qed.
Lemma any_value_false p values v : any_value p values = Some false -> In v values -> p v = Some false.
Proof.
  induction values as [|x values IH]; [done|]. cbn. destruct (p x) as [[|]|] eqn:E; try done. intros H [->|Hin]; auto.
Qed.

(** What reading a value against the intervals of two requirements shows. *)
Lemma interval_means hidden e d q i :
  parsed (VersionRange q) -> interval q = Some i -> means hidden e d (VersionRange q) ->
  exists v, VersionReading_parse (value_of e d) = Some v /\ in_interval i (core (comparable v)) = true.
Proof.
  intros [Hr Hi]%parsed_spec Hq. cbn [means]. unfold parsed_version_req_matches. destruct (VersionReading_parse (value_of e d)) as [v|] eqn:Ev; [|done]. cbn.
  intros [= Hm]. exists v. split; [done|]. rewrite <- (interval_reads (raw q) (req q) i (value_of e d) v); [done|done|congruence|done].
Qed.
Lemma means_interval hidden e d q i v :
  parsed (VersionRange q) -> interval q = Some i -> VersionReading_parse (value_of e d) = Some v -> in_interval i (core (comparable v)) = true ->
  means hidden e d (VersionRange q).
Proof.
  intros [Hr Hi]%parsed_spec Hq Ev Hin. cbn [means]. unfold parsed_version_req_matches. rewrite Ev. cbn.
  rewrite (interval_reads (raw q) (req q) i (value_of e d) v) by (done || congruence). by rewrite Hin.
Qed.

(** A subsumption reported for a pair of terms holds of every setting. *)
Lemma subsumes_at_sound oracle ha hb f g d ta e :
  sound_oracle oracle -> Transitive anc -> f d = Some ta -> (forall t, f d = Some t -> parsed t) -> (forall t, g d = Some t -> parsed t) ->
  subsumes_at oracle (scope_of f) (scope_of g) (d, ta) = true -> (forall t, g d = Some t -> means hb e d t) -> means ha e d ta.
Proof.
  intros Ho Htr Hf Pa Pb. unfold subsumes_at. rewrite term_scope_of, !requirement_scope_of, !interval_scope_of, Hf. destruct (g d) as [tb|] eqn:Hg; [|done].
  specialize (Pa _ Hf). specialize (Pb _ eq_refl). intros H Hm. specialize (Hm _ eq_refl). cbn [mbind option_bind].
  destruct ta as [u|t|ps pe|q|h|], tb as [v|s|rs re|r|k|]; cbn [term_subsumes default from_option id requirement_of interval_of mbind option_bind] in H; try done;
    cbn [means] in *.
  - apply bool_decide_eq_true in H. congruence.
  - apply andb_true_iff in H as [Hs%bool_decide_eq_true Hu%bool_decide_eq_true]. apply size_1_elem_of in Hs as [x Hx]. set_solver.
  - apply bool_decide_eq_true in H. by rewrite Hm.
  - apply bool_decide_eq_true in H. set_solver.
  - by rewrite Hm.
  - rewrite forallb_forall in H. apply H. by apply list_elem_of_In, elem_of_elements.
  - by eapply range_contains_wider.
  - rewrite Hm. destruct (parsed_version_req_matches (req q) v) as [[|]|]; done.
  - rewrite forallb_forall in H. specialize (H (value_of e d)). rewrite <- list_elem_of_In, elem_of_elements in H. specialize (H Hm).
    destruct (parsed_version_req_matches (req q) _) as [[|]|]; done.
  - case_bool_decide as Hraw.
    + apply parsed_spec in Pa as [Pa _], Pb as [Pb _]. rewrite Hraw in Pa. replace (req q) with (req r) by congruence. done.
    + destruct (interval q) as [i|] eqn:Hi; [|done]. destruct (interval r) as [j|] eqn:Hj; [|done].
      destruct (interval_means hb e d r j Pb Hj Hm) as (v & Hv & Hin). apply (means_interval ha e d q i v Pa Hi Hv). by eapply contains_in.
  - case_bool_decide as Hh; [by subst|]. destruct (oracle h k) as [[|]|] eqn:Eo; try done. by apply (Htr _ k); [apply (Ho _ _ _ Eo)|].
Qed.

Lemma existsb_elements (p : string -> bool) (s : gset string) v : p v = true -> v ∈ s -> existsb p (elements s) = true.
Proof. intros Hp Hv. apply existsb_exists. exists v. by rewrite <- list_elem_of_In, elem_of_elements. Qed.

(** Terms a setting satisfies both are reported to overlap. *)
Lemma overlaps_at_sound oracle ha hb f g d ta e :
  f d = Some ta -> (forall t, f d = Some t -> parsed t) -> (forall t, g d = Some t -> parsed t) ->
  means ha e d ta -> (forall t, g d = Some t -> means hb e d t) -> overlaps_at oracle (scope_of f) (scope_of g) (d, ta) = true.
Proof.
  intros Hf Pa Pb Ha Hb. unfold overlaps_at. rewrite term_scope_of, !requirement_scope_of, !interval_scope_of, Hf. destruct (g d) as [tb|] eqn:Hg; [|done].
  specialize (Pa _ Hf). specialize (Pb _ eq_refl). specialize (Hb _ eq_refl). cbn [mbind option_bind].
  destruct ta as [u|t|ps pe|q|h|], tb as [v|s|rs re|r|k|]; cbn [term_overlaps default from_option id requirement_of interval_of mbind option_bind]; try done;
    cbn [means] in *.
  - apply bool_decide_eq_true. congruence.
  - apply bool_decide_eq_true. congruence.
  - congruence.
  - rewrite <- Ha. by rewrite Hb.
  - apply bool_decide_eq_true. congruence.
  - apply negb_true_iff, bool_decide_eq_false. set_solver.
  - by eapply existsb_elements.
  - eapply existsb_elements; [|done]. cbn. by rewrite Hb.
  - congruence.
  - by eapply existsb_elements.
  - by eapply range_contains_overlap.
  - rewrite <- Hb. by rewrite Ha.
  - eapply existsb_elements; [|done]. cbn. by rewrite Ha.
  - destruct (interval q) as [i|] eqn:Hi; [|done]. destruct (interval r) as [j|] eqn:Hj; [|done].
    destruct (interval_means ha e d q i Pa Hi Ha) as (v & Hv & Hin). destruct (interval_means hb e d r j Pb Hj Hb) as (v' & Hv' & Hin').
    replace v' with v in Hin' by congruence. case_bool_decide; [|by eapply overlaps_in]. apply negb_true_iff, not_true_iff_false. intros He.
    by rewrite (empty_in _ _ He) in Hin.
  - unfold git_overlaps. by repeat case_match.
Qed.

(** ** Scopes *)
Lemma parse_raw text q : VersionSpec_parse text = Some q -> raw q = text.
Proof. unfold VersionSpec_parse. destruct (parse_req text); [|done]. cbn. by intros [= <-]. Qed.

Lemma decoded_parsed rows s d t : from_term_specs rows = Ok s -> scope_term s d = Some t -> parsed t.
Proof.
  intros (l & Hl & _ & _ & Ht)%from_term_specs_spec Hd. apply Ht in Hd. clear Ht s. revert l Hl Hd. induction rows as [|row rows IH]; cbn [mapM]; intros l Hl Hd.
  - injection Hl as <-. done.
  - destruct (decode_row row) as [[d' t']|] eqn:Er; [|done]. cbn in Hl. destruct (mapM decode_row rows) as [l'|]; [|done]. cbn in Hl. injection Hl as <-.
    destruct Hd as [[= -> ->]|Hd]; [|by eapply IH]. clear IH. unfold decode_row in Er. destruct (from_stored _); [|done]. cbn in Er.
    destruct (decode_term_value d0 row) as [v|] eqn:Ev; [|done]. cbn in Er. simplify_eq.
    unfold decode_term_value, decode_exact, decode_set, decode_range, decode_version, decode_git, ok_or, mbind, result_bind in Ev.
    repeat case_match; simplify_eq; try done. cbn. match goal with H : VersionSpec_parse _ = Some _ |- _ => rename H into Hp end.
    by rewrite (parse_raw _ _ Hp).
Qed.

Lemma decoded_scope_of rows s : from_term_specs rows = Ok s -> exists f, s = scope_of f /\ forall d t, f d = Some t -> parsed t.
Proof.
  intros H. exists (scope_term s). split; [|by intros d t; eapply decoded_parsed]. by apply from_term_specs_spec in H as (l & _ & _ & H & _).
Qed.

Lemma scope_matches_sound oracle hidden f ctx e :
  sound_oracle oracle -> built ctx -> possible ctx e ->
  exists o, scope_matches oracle (scope_of f) ctx = Some o /\ answers (satisfied hidden (scope_of f) e) o.
Proof.
  intros Ho Hb Hp. destruct (scope_terms f) as (l & Hl & Hin). unfold scope_matches. rewrite Hl. cbn [mbind option_bind].
  destruct (matches_loop_sound oracle hidden f l ctx e Matches Ho Hb Hp) as (o & -> & Hr).
  { apply Forall_forall. intros [d t] H. by apply Hin, list_elem_of_In. }
  exists o. split; [done|]. unfold satisfied. destruct o; cbn [answers]; [| |done].
  - intros d t Hd. rewrite term_scope_of in Hd. destruct Hr as [_ Hr]. rewrite Forall_forall in Hr. apply (Hr (d, t)). by apply list_elem_of_In, Hin.
  - destruct Hr as [?|Hr]; [done|]. apply Exists_exists in Hr as ([d t] & Ht & Hn). intros Hc. apply Hn, Hc. rewrite term_scope_of. by apply Hin, list_elem_of_In.
Qed.

Lemma scope_subsumes_sound oracle ha hb f g :
  sound_oracle oracle -> Transitive anc -> (forall d t, f d = Some t -> parsed t) -> (forall d t, g d = Some t -> parsed t) ->
  exists b, scope_subsumes oracle (scope_of f) (scope_of g) = Some b /\ (b = true -> forall e, satisfied hb (scope_of g) e -> satisfied ha (scope_of f) e).
Proof.
  intros Ho Htr Pf Pg. destruct (scope_terms f) as (l & Hl & Hin). unfold scope_subsumes. rewrite Hl. cbn [mbind option_bind]. eexists. split; [done|].
  intros Hb e Hg d t Hd. rewrite term_scope_of in Hd. rewrite forallb_forall in Hb. specialize (Hb (d, t) (proj2 (Hin d t) Hd)).
  apply (subsumes_at_sound oracle ha hb f g d t e Ho Htr Hd); [apply Pf|apply Pg|done|]. intros t' Ht'. apply Hg. by rewrite term_scope_of.
Qed.

Lemma scope_overlaps_sound oracle ha hb f g :
  (forall d t, f d = Some t -> parsed t) -> (forall d t, g d = Some t -> parsed t) ->
  exists b, scope_overlaps oracle (scope_of f) (scope_of g) = Some b /\ (b = false -> forall e, satisfied ha (scope_of f) e -> satisfied hb (scope_of g) e -> False).
Proof.
  intros Pf Pg. destruct (scope_terms f) as (l & Hl & Hin). unfold scope_overlaps. rewrite Hl. cbn [mbind option_bind]. eexists. split; [done|].
  intros Hb e Hf Hg. apply not_true_iff_false in Hb. apply Hb, forallb_forall. intros [d t] Hd. apply Hin in Hd.
  apply (overlaps_at_sound oracle ha hb f g d t e Hd); [apply Pf|apply Pg|apply Hf; by rewrite term_scope_of|].
  intros t' Ht'. apply Hg. by rewrite term_scope_of.
Qed.

(** Equal scopes without redacted terms mean the same. *)
Lemma scope_eq_terms f g d : scope_eq (scope_of f) (scope_of g) = true -> option_term_eq (f d) (g d) = true.
Proof.
  unfold scope_eq. rewrite !andb_true_iff. intros [[[[_ H] _] _] _]. cbn [cs_terms scope_of ALL fmap list_fmap zip zip_with forallb fst snd] in H.
  rewrite !andb_true_iff in H. destruct d; tauto.
Qed.
Lemma no_placeholder f d : has_placeholder (scope_of f) = false -> f d <> Some RedactedPlaceholder.
Proof.
  intros H Hd. apply not_true_iff_false in H. apply H, existsb_exists. exists (f d). rewrite Hd. split; [|done]. rewrite <- Hd. apply in_map. destruct d; cbn; tauto.
Qed.

Lemma option_term_eq_sym a b : option_term_eq a b = option_term_eq b a.
Proof. destruct a as [[]|], b as [[]|]; cbn; try done; rewrite ?andb_true_iff; repeat f_equal; apply bool_decide_ext; done. Qed.
Lemma option_term_eq_placeholder b : option_term_eq (Some RedactedPlaceholder) b = true -> b = Some RedactedPlaceholder.
Proof. by destruct b as [[]|]. Qed.

Lemma terms_eq_covers ha hb f g e :
  (forall d t, f d = Some t -> parsed t) -> (forall d t, g d = Some t -> parsed t) -> (forall d, option_term_eq (f d) (g d) = true) ->
  (forall d, f d <> Some RedactedPlaceholder) -> satisfied ha (scope_of f) e -> satisfied hb (scope_of g) e.
Proof.
  intros Pf Pg Heq Hn Hf d t Hd. rewrite term_scope_of in Hd. specialize (Heq d). rewrite Hd in Heq. specialize (Hn d).
  destruct (f d) as [t'|] eqn:Hfd; [|done]. specialize (Hf d t'). rewrite term_scope_of in Hf. specialize (Hf Hfd).
  specialize (Pf _ _ Hfd). specialize (Pg _ _ Hd). cbn [option_term_eq] in Heq.
  destruct t', t; try done; cbn [term_eq] in Heq; rewrite ?andb_true_iff, ?bool_decide_eq_true in Heq; cbn [means] in *; destruct_and?; subst; try done.
  apply parsed_spec in Pf as [Pf _], Pg as [Pg _]. by replace (req spec0) with (req spec) by congruence.
Qed.

Lemma scope_equivalent_sound oracle ha hb f g :
  sound_oracle oracle -> Transitive anc -> (forall d t, f d = Some t -> parsed t) -> (forall d t, g d = Some t -> parsed t) ->
  exists b, scope_equivalent oracle (scope_of f) (scope_of g) = Some b /\ (b = true -> forall e, satisfied ha (scope_of f) e <-> satisfied hb (scope_of g) e).
Proof.
  intros Ho Htr Pf Pg. unfold scope_equivalent. destruct (scope_eq (scope_of f) (scope_of g) && negb (has_placeholder (scope_of f))) eqn:Hq.
  - exists true. split; [done|]. intros _ e. apply andb_true_iff in Hq as [Heq Hp%negb_true_iff]. pose proof (fun d => no_placeholder f d Hp) as Hn.
    split; [apply terms_eq_covers; auto; intros d; by apply scope_eq_terms|]. apply terms_eq_covers; auto.
    + intros d. rewrite option_term_eq_sym. by apply scope_eq_terms.
    + intros d Hd. apply (Hn d), option_term_eq_placeholder. rewrite <- Hd, option_term_eq_sym. by apply scope_eq_terms.
  - clear Hq. destruct (scope_subsumes_sound oracle ha hb f g) as ([|] & -> & Hab); auto; cbn [mbind option_bind].
    + destruct (scope_subsumes_sound oracle hb ha g f) as (b & -> & Hba); auto. exists b. split; [done|]. intros -> e. split; auto.
    + by exists false.
Qed.

Lemma possible_settings ctx : possible ctx (mkSetting (fun d => default EmptyString (ctx_value ctx d)) (default EmptyString (head_commit ctx))).
Proof. split; cbn; [intros d v ->|intros h ->]; done. Qed.
End Meaning.
Arguments means {_} _ _ _ _ _.
Arguments satisfied {_} _ _ _ _.

(** C20: two lists of stored rows that decode give scopes on which every predicate of the scope algebra answers
    (none of the expectations on parsed requirements and occupied dimensions can fail), and answers conservatively.
    Take any commit ancestry that is transitive and any graph oracle whose answers agree with it, a version
    library that matches release versions as documented, any context made by the context builder, and any
    meaning of the terms that redaction removed. If the scope matches the context then every setting the
    context leaves possible satisfies the scope, and if it does not match then none does. If [a] is reported to
    subsume [b], every setting that satisfies [b] satisfies [a]; scopes reported not to overlap share no
    setting; scopes reported equivalent are satisfied by the same settings. *)
Theorem scope_predicates_sound `{SL : SemverLaws} (anc : string -> string -> Prop) (oracle : GraphOracle) rows_a rows_b a b ctx (ha hb : Dimension -> Prop) :
  Transitive anc -> sound_oracle anc oracle -> from_term_specs rows_a = Ok a -> from_term_specs rows_b = Ok b -> built ctx ->
  (exists o, scope_matches oracle a ctx = Some o /\ forall e, possible ctx e -> answers (satisfied anc ha a e) o) /\
  (exists r, scope_subsumes oracle a b = Some r /\ (r = true -> forall e, satisfied anc hb b e -> satisfied anc ha a e)) /\
  (exists r, scope_overlaps oracle a b = Some r /\ (r = false -> forall e, ~ (satisfied anc ha a e /\ satisfied anc hb b e))) /\
  (exists r, scope_equivalent oracle a b = Some r /\ (r = true -> forall e, satisfied anc ha a e <-> satisfied anc hb b e)).
Proof.
  intros Htr Ho (f & -> & Pf)%decoded_scope_of (g & -> & Pg)%decoded_scope_of Hb. repeat split.
  - destruct (scope_matches_sound anc oracle ha f ctx _ Ho Hb (possible_settings ctx)) as (o & Hs & _). exists o. split; [done|]. intros e He.
    destruct (scope_matches_sound anc oracle ha f ctx e Ho Hb He) as (o' & Hs' & Ha). congruence.
  - by apply scope_subsumes_sound.
  - destruct (scope_overlaps_sound anc oracle ha hb f g Pf Pg) as (r & -> & Hr). exists r. split; [done|]. intros Hf e [? ?]. by eapply Hr.
  - by apply scope_equivalent_sound.
Qed.

(** ** A concrete instance *)
Module Sample.
#[export] Instance semver : Semver := {|
  parse_version := fun _ => None;
  parse_req := fun text =>
    if bool_decide (text = ">=1.2"%string) then Some [mkComparator OpGreaterEq 1 (Some 2) None EmptyString]
    else if bool_decide (text = "^1.4.1"%string) then Some [mkComparator OpCaret 1 (Some 4) (Some 1) EmptyString] else None;
  req_matches := fun r v => forallb (documented (core v)) r;
  build_metadata := Some;
|}.
#[export] Instance semver_laws : SemverLaws.
Proof. split. done. Qed.

Definition exact_row (d v : string) : ScopeTermSpec := mkTerm d "exact" (Some v) None None None None None None None None.
Definition version_row (d v : string) : ScopeTermSpec := mkTerm d "version_range" None None None None (Some v) None None None None.
Definition git_row (d v : string) : ScopeTermSpec := mkTerm d "git_reachable" None None None None None (Some v) None None None.
Definition early : string := "aaaaaaaaaaaaaaaaaaaaaaaaaaaaaaaaaaaaaaaa".
Definition late : string := "bbbbbbbbbbbbbbbbbbbbbbbbbbbbbbbbbbbbbbbb".

Definition wide : list ScopeTermSpec := [version_row "platform" ">=1.2"; git_row "branch" early].
Definition narrow : list ScopeTermSpec := [git_row "branch" late; exact_row "region" "eu"; version_row "platform" "^1.4.1"].
(** A history of two commits. *)
Definition oracle : GraphOracle := fun a b =>
  if bool_decide (a = b) then Some true else if bool_decide (a = early) && bool_decide (b = late) then Some true
  else if bool_decide (a = late) && bool_decide (b = early) then Some false else None.
Definition anc (a b : string) : Prop := a = b \/ (a = early /\ b = late).
Definition ctx : ScopeMatchContext := with_head_commit (with_value (with_value ctx_new Platform "1.5.2-lts") Region "eu") late.

#[export] Instance anc_trans : Transitive anc.
Proof. unfold anc, early, late. intros a b c [->|[-> ->]] [->|[? ->]]; auto; done. Qed.
Lemma oracle_sound : sound_oracle anc oracle.
Proof.
  intros a b x. unfold oracle, anc. repeat case_bool_decide; cbn; intros [= <-]; auto; subst; intros [?|[? ?]]; done.
Qed.

Definition wide_scope : CanonicalScope := match from_term_specs wide with Ok s => s | Err _ => unconstrained end.
Definition narrow_scope : CanonicalScope := match from_term_specs narrow with Ok s => s | Err _ => unconstrained end.
End Sample.

#[local] Existing Instance Sample.semver.
#[local] Existing Instance Sample.semver_laws.
#[local] Existing Instance Sample.anc_trans.

(** The narrow scope matches the context and is subsumed; so every setting that satisfies it satisfies the wide one. *)
Lemma scope_predicates_sound_witness :
  scope_matches Sample.oracle Sample.narrow_scope Sample.ctx = Some Matches /\
  (forall ha hb e, satisfied Sample.anc hb Sample.narrow_scope e -> satisfied Sample.anc ha Sample.wide_scope e) /\
  (forall hb e, possible Sample.ctx e -> satisfied Sample.anc hb Sample.narrow_scope e).
Proof.
  assert (Hb : built Sample.ctx) by repeat constructor. split; [by vm_compute|]. split.
  - intros ha hb. destruct (scope_predicates_sound Sample.anc Sample.oracle Sample.wide Sample.narrow Sample.wide_scope Sample.narrow_scope Sample.ctx ha hb
      _ Sample.oracle_sound) as (_ & (r & Hr & H) & _); [by vm_compute|by vm_compute|exact Hb|].
    apply H. assert (scope_subsumes Sample.oracle Sample.wide_scope Sample.narrow_scope = Some true) as Ht by by vm_compute. congruence.
  - intros hb e He. destruct (scope_predicates_sound Sample.anc Sample.oracle Sample.narrow Sample.wide Sample.narrow_scope Sample.wide_scope Sample.ctx hb hb
      _ Sample.oracle_sound) as ((o & Ho & H) & _); [by vm_compute|by vm_compute|exact Hb|].
    assert (scope_matches Sample.oracle Sample.narrow_scope Sample.ctx = Some Matches) as Ht by by vm_compute.
    specialize (H e He). replace o with Matches in H by congruence. exact H.
Defined.

(** Decoding does not depend on the order of the stored rows, and the terms come back in dimension order. *)
Theorem scope_rows_order_free `{SV : Semver} rows rows' s :
  Permutation rows rows' -> from_term_specs rows = Ok s ->
  from_term_specs rows' = Ok s /\
  exists l, mapM decode_row rows = Ok l /\ terms s = Some (omap (fun d => pair d <$> scope_term s d) ALL) /\ forall d v, scope_term s d = Some v <-> In (d, v) l.
Proof.
  intros Hp Hs. split; [by eapply from_term_specs_permuted|]. apply from_term_specs_spec in Hs as (l & Hl & _ & Heq & Ht). exists l. split; [done|].
  split; [|done]. rewrite Heq at 1. apply terms_scope_of.
Qed.

(** A caller without a graph answers nothing wrong. *)
Lemma unknown_graph_sound anc : sound_oracle anc UnknownGraph.
Proof. done. Qed.
End ScopeSound.
