(* ===== verification/Resolve.v ===== *)
(** * Resolve: anchored commits against a checkout (kernel/src/applicability/resolve.rs)

    An anchor names a commit. It is current when the commit, or the one commit that replays its change, is
    reachable from the checked-out head. The ladder tries ancestry, a patch identity and the tree, with memos
    and an evaluation budget that any poll may find exhausted. The git library, the hash function, the clock
    and the flags other threads raise are parameters; a repository does not change while a ladder reads it. *)
From S2P Require Import Prelude.
From S2P Require Import SortBy.
From S2P Require Import Utf8.
From S2P Require Import CanonicalJson.
From S2P Require Import JsonString.
From S2P Require Import Citations.
From S2P Require Import Scope.
From Stdlib Require Import Ascii String.
From stdpp Require Import strings gmap sets.

#[local] Open Scope Z_scope.

Module Resolve.
Import CanonicalJson.

(** ** State passing *)
Definition ST (S A : Type) : Type := S -> A * S.
#[export] Instance ST_ret {S} : MRet (ST S) := fun A a s => (a, s).
#[export] Instance ST_bind {S} : MBind (ST S) := fun A B f m s => let '(a, s') := m s in f a s'.

(** ** The evaluation budget *)
Class BudgetEnv := {
  deadline : option Z;
  linked : bool;
  now : nat -> Z;  (** the clock at each poll *)
  raised : nat -> bool;  (** another holder of the flag has raised it by this poll *)
  parent_raised : nat -> bool;
}.
Record BudgetState := mkBudget { polls : nat; interrupt : bool }.
Definition B (A : Type) : Type := ST BudgetState A.

Definition unbounded : BudgetEnv := {| deadline := None; linked := false; now := fun _ => 0; raised := fun _ => false; parent_raised := fun _ => false |}.

Definition is_exhausted {E : BudgetEnv} : B bool := fun b =>
  let n := polls b in
  if interrupt b || raised n then (true, mkBudget (S n) true)
  else if linked && parent_raised n then (true, mkBudget (S n) true)
  else match deadline with
       | Some d => if d <=? now n then (true, mkBudget (S n) true) else (false, mkBudget (S n) (interrupt b))
       | None => (false, mkBudget (S n) (interrupt b))
       end.

Definition cancel_budget : B () := fun b => ((), mkBudget (polls b) true).

(** ** What the git library answers *)
Inductive EntryKind := KTree | KBlob | KBlobExecutable | KLink | KCommit.
#[export] Instance EntryKind_eq_dec : EqDecision EntryKind.
Proof. solve_decision. Defined.

Record Commit (oid tree : Type) := mkCommit { tree_id : option oid; commit_tree : option tree; parent_ids : list oid }.
Arguments mkCommit {_ _}. Arguments tree_id {_ _}. Arguments commit_tree {_ _}. Arguments parent_ids {_ _}.
Record CommitInfo (oid : Type) := mkInfo { parents : list oid; generation : option Z }.
Arguments mkInfo {_}. Arguments parents {_}. Arguments generation {_}.

Inductive Change (oid : Type) :=
| Addition (location : string) (mode : EntryKind) (id : oid)
| Deletion (location : string) (mode : EntryKind) (id : oid)
| Modification (location : string) (previous_mode : EntryKind) (previous_id : oid) (mode : EntryKind) (id : oid)
| Rewrite (location : string) (source_mode : EntryKind) (source_id : oid) (mode : EntryKind) (id : oid).
Arguments Addition {_}. Arguments Deletion {_}. Arguments Modification {_}. Arguments Rewrite {_}.

Definition entry_mode {oid} (c : Change oid) : EntryKind :=
  match c with Addition _ k _ | Deletion _ k _ | Modification _ _ _ k _ | Rewrite _ _ _ k _ => k end.
Definition location {oid} (c : Change oid) : string :=
  match c with Addition l _ _ | Deletion l _ _ | Modification l _ _ _ _ | Rewrite l _ _ _ _ => l end.

Class Git (oid tree : Type) := {
  from_hex : string -> option oid;
  to_hex : oid -> string;
  as_slice : oid -> string;
  is_null : oid -> bool;
  kind_code : EntryKind -> Z;
  find_commit : oid -> option (Commit oid tree);  (** [None] is an error *)
  lookup_entry : tree -> string -> option (option (oid * EntryKind));
  empty_tree : tree;
  tree_changes : tree -> tree -> option (list (Change oid) * bool);  (** the changes offered, then whether the walk completed *)
  find_header : oid -> option Z;
  find_blob : oid -> option string;
  rev_walk : oid -> option (list (option oid));  (** commits reachable from a tip, an error where one cannot be read *)
  graph_lookup : oid -> option (option (CommitInfo oid));  (** error, absent or found *)
  sha256 : string -> string;
}.

Inductive ResolveObstacle := BudgetExhausted | UnreadableObject.
#[export] Instance ResolveObstacle_eq_dec : EqDecision ResolveObstacle.
Proof. solve_decision. Defined.

(** The [?] of a budgeted computation. *)
Definition try_bind {S A C} (m : ST S (result ResolveObstacle A)) (f : A -> ST S (result ResolveObstacle C)) : ST S (result ResolveObstacle C) :=
  r ← m; match r with Ok a => f a | Err e => mret (Err e) end.
Notation "x ←? m ; f" := (try_bind m (fun x => f)) (at level 20, m at level 100, f at level 200, only parsing).

(** ** Patch identity *)
Definition PATCH_ID_ALGORITHM : string := "eidnara-patch-id-v4".
Definition CANDIDATE_WINDOW : nat := 512.
Definition MAX_PATCH_BLOB_BYTES : Z := 32 * 1024 * 1024.
Definition ANCESTRY_WALK_CAP : Z := Z.shiftl 1 20.
Definition BINARY_SNIFF_BYTES : nat := 8000.

Definition NUL : string := String (ascii_of 0) EmptyString.
Definition bytes_str (l : list Z) : string := foldr (fun b s => String (ascii_of b) s) EmptyString l.
Fixpoint hex_str (s : string) : string := match s with EmptyString => EmptyString | String a r => (hex2 (byte_of a) +:+ hex_str r)%string end.

Fixpoint nul_within (n : nat) (s : string) : bool :=
  match n, s with S n, String a r => (byte_of a =? 0) || nul_within n r | _, _ => false end.
Definition is_binary_blob (bytes : string) : bool := nul_within BINARY_SNIFF_BYTES bytes.

Definition is_ascii_whitespace (a : ascii) : bool :=
  let b := byte_of a in (b =? 32) || (b =? 9) || (b =? 10) || (b =? 12) || (b =? 13).
(** The runs between whitespace, one after the other. *)
Fixpoint normalized_content (s : string) : string :=
  match s with EmptyString => EmptyString | String a r => if is_ascii_whitespace a then normalized_content r else String a (normalized_content r) end.

Section Patch.
Context {oid tree : Type} `{EqDecision oid} {G : Git oid tree} {E : BudgetEnv}.

Definition budget_gate : B (result ResolveObstacle ()) := x ← is_exhausted; mret (if x : bool then Err BudgetExhausted else Ok ()).

Definition content_bytes (mode : EntryKind) (data : string) : string :=
  (if bool_decide (mode = KLink) then "symlink" +:+ NUL +:+ data else if is_binary_blob data then "binary" +:+ NUL +:+ data else normalized_content data)%string.

(** The bytes one side of a change contributes; [Ok None] when its blob is too large. *)
Definition side_bytes (side : option (oid * EntryKind)) : B (result ResolveObstacle (option string)) :=
  match side with
  | Some (id, mode) =>
      if is_null id then mret (Ok (Some ("absent" +:+ NUL)%string))
      else
        let code := bytes_str (le_bytes 2 (kind_code mode)) in
        if bool_decide (mode = KCommit) then mret (Ok (Some (code +:+ "gitlink" +:+ NUL +:+ as_slice id)%string))
        else
          x ← is_exhausted;
          if x : bool then mret (Err BudgetExhausted)
          else match find_header id with
               | None => mret (Err UnreadableObject)
               | Some size =>
                   if MAX_PATCH_BLOB_BYTES <? size then mret (Ok None)
                   else match find_blob id with
                        | None => mret (Err UnreadableObject)
                        | Some data => mret (Ok (Some (code +:+ "blob" +:+ NUL +:+ sha256 (content_bytes mode data))%string))
                        end
               end
  | None => mret (Ok (Some ("absent" +:+ NUL)%string))
  end.

Definition change_parts (change : Change oid) : string * string * option (oid * EntryKind) * option (oid * EntryKind) :=
  match change with
  | Addition l m i => ("add"%string, l, None, Some (i, m))
  | Deletion l m i => ("delete"%string, l, Some (i, m), None)
  | Modification l pm pi m i => ("modify"%string, l, Some (pi, pm), Some (i, m))
  | Rewrite l sm si m i => ("rewrite"%string, l, Some (si, sm), Some (i, m))
  end.

Definition file_change_hash (change : Change oid) : B (result ResolveObstacle (option string)) :=
  let '(kind, loc, old, new) := change_parts change in
  let head := (PATCH_ID_ALGORITHM +:+ "-file" +:+ NUL +:+ kind +:+ NUL +:+ loc +:+ NUL)%string in
  a ←? side_bytes old;
  match a with
  | None => mret (Ok None)
  | Some a =>
      b ←? side_bytes new;
      match b with None => mret (Ok None) | Some b => mret (Ok (Some (sha256 (head +:+ a +:+ NUL +:+ b +:+ NUL)%string))) end
  end.

Fixpoint file_hashes (changes : list (Change oid)) : B (result ResolveObstacle (option (list string))) :=
  match changes with
  | [] => mret (Ok (Some []))
  | change :: changes =>
      _ ←? budget_gate;
      h ←? file_change_hash change;
      match h with
      | None => mret (Ok None)
      | Some h => rest ←? file_hashes changes; mret (Ok (cons h <$> rest))
      end
  end.

Definition combined_hash (hashes : list string) : string :=
  let sorted := sort_by String.compare hashes in
  hex_str (sha256 (PATCH_ID_ALGORITHM +:+ NUL +:+ bytes_str (le_bytes 8 (Z.of_nat (length sorted))) +:+ foldr String.append EmptyString sorted)%string).

Definition patch_id_from_changes (changes : option (list (Change oid))) : B (result ResolveObstacle (option string)) :=
  match changes with
  | None | Some [] => _ ←? budget_gate; mret (Ok None)
  | Some changes =>
      hashes ←? file_hashes changes;
      match hashes with
      | None => mret (Ok None)
      | Some hashes => _ ←? budget_gate; mret (Ok (Some (combined_hash hashes)))
      end
  end.

(** The callback of the tree walk: it stops at the first poll that finds the budget exhausted. *)
Fixpoint collect_changes (offered : list (Change oid)) : B (result ResolveObstacle (list (Change oid))) :=
  match offered with
  | [] => mret (Ok [])
  | change :: offered =>
      x ← is_exhausted;
      if x : bool then mret (Err BudgetExhausted)
      else rest ←? collect_changes offered; mret (Ok (if bool_decide (entry_mode change = KTree) then rest else change :: rest))
  end.

(** The tree of the first parent; an error when it cannot be read. *)
Definition first_parent_tree (commit : Commit oid tree) : result ResolveObstacle (option tree) :=
  match parent_ids commit with
  | [] => Ok None
  | parent :: _ => match find_commit parent ≫= commit_tree with Some t => Ok (Some t) | None => Err UnreadableObject end
  end.

Definition first_parent_blob_changes (commit : oid) : B (result ResolveObstacle (option (list (Change oid)))) :=
  match find_commit commit with
  | None => mret (Err UnreadableObject)
  | Some commit =>
      if (1 <? length (parent_ids commit))%nat then mret (Ok None)
      else match commit_tree commit with
           | None => mret (Err UnreadableObject)
           | Some new_tree =>
               match first_parent_tree commit with
               | Err e => mret (Err e)
               | Ok old =>
                   match tree_changes (default empty_tree old) new_tree with
                   | None => mret (Err UnreadableObject)
                   | Some (offered, completed) =>
                       changes ←? collect_changes offered; mret (if completed : bool then Ok (Some changes) else Err UnreadableObject)
                   end
               end
           end
  end.

Definition compute_patch_id (commit : oid) : B (result ResolveObstacle (option string)) :=
  _ ←? budget_gate; changes ←? first_parent_blob_changes commit; patch_id_from_changes changes.

(** ** Captures *)
Record PatchIdCapture := mkPatch { algorithm : string; pvalue : string }.
Record AnchorCapture := mkCapture { commit_oid : string; tree_oid : option string; patch_id : option PatchIdCapture; changed_paths : list string }.

Fixpoint parent_shares_tree (parent_list : list oid) (t : oid) : B (result ResolveObstacle bool) :=
  match parent_list with
  | [] => mret (Ok false)
  | parent :: parent_list =>
      _ ←? budget_gate;
      match find_commit parent ≫= tree_id with
      | None => mret (Err UnreadableObject)
      | Some t' => if bool_decide (t' = t) then mret (Ok true) else parent_shares_tree parent_list t
      end
  end.

(** An unreadable object costs one rung; an exhausted budget the whole capture. *)
Definition rung {A} (r : result ResolveObstacle A) (unreadable : A) (k : A -> B (option AnchorCapture)) : B (option AnchorCapture) :=
  match r with Ok a => k a | Err BudgetExhausted => mret None | Err UnreadableObject => k unreadable end.

Definition capture_anchor_representation (commit : oid) : B (option AnchorCapture) :=
  match find_commit commit with
  | None => mret None
  | Some c =>
      match tree_id c with
      | None => mret None
      | Some t =>
          gate ← budget_gate;
          match gate with
          | Err _ => mret None
          | Ok _ =>
              shares ← parent_shares_tree (parent_ids c) t;
              rung (match shares with Ok b => Ok (negb b) | Err e => Err e end) false (fun distinguishes =>
                changes ← first_parent_blob_changes commit;
                rung changes None (fun changes =>
                  let paths := List.filter (fun l => utf8_valid (JsonString.bytes_of l)) (location <$> default [] changes) in
                  pid ← patch_id_from_changes changes;
                  rung pid None (fun pid =>
                    mret (Some (mkCapture (to_hex commit) (if distinguishes : bool then Some (to_hex t) else None) (mkPatch PATCH_ID_ALGORITHM <$> pid) paths)))))
          end
      end
  end.
End Patch.

(** ** The ladder *)
Inductive GitConditionOutcome := Holds | DoesNotHold (historical : bool) | CondUncertain.
Inductive CommitResolution := Reachable | NotReachable | ResUncertain.
#[export] Instance CommitResolution_eq_dec : EqDecision CommitResolution.
Proof. solve_decision. Defined.
Inductive WindowMatch := Exactly | Ambiguous | NoMatch | OutOfBudget | Unreadable.
Inductive GitCondition :=
| ReachableFrom (oid : string) (captures : gmap string AnchorCapture)
| ReachableBetween (start_oid end_oid : string) (captures : gmap string AnchorCapture).

Record CandidateWindow (oid : Type) := mkWindow { commits : list oid; truncated : bool }.
Arguments mkWindow {_}. Arguments commits {_}. Arguments truncated {_}.

(** The checkout a ladder reads: its head, whether it is shallow, and whether each re-read finds its state unmoved. *)
Class Snapshot := { head : string; shallow : bool; still_current : nat -> bool }.

Section Ladder.
Context {oid tree : Type} `{Countable oid} {G : Git oid tree} {E : BudgetEnv} {S : Snapshot}.

Notation Graph := (gmap oid (CommitInfo oid * Z)).

Record Ladder := mkLadder {
  budget : BudgetState;
  ancestry_cache : gmap (oid * oid) (option bool);
  graph : option Graph;
  graph_query : Z;
  window : option (CandidateWindow oid);
  patch_id_cache : gmap oid (option string);
  graph_operations : Z;
  unreadable_seen : bool;
  state_moved : bool;
  current_at : option Z;
  rereads : nat;
}.
Definition LadderM (A : Type) : Type := ST Ladder A.

Definition ladder_new (b : BudgetState) : Ladder := mkLadder b ∅ None 0 None ∅ 0 false false None 0.

Definition set_budget (b : BudgetState) (l : Ladder) : Ladder :=
  mkLadder b (ancestry_cache l) (graph l) (graph_query l) (window l) (patch_id_cache l) (graph_operations l) (unreadable_seen l) (state_moved l) (current_at l) (rereads l).
Definition set_ancestry (k : oid * oid) (v : option bool) (l : Ladder) : Ladder :=
  mkLadder (budget l) (<[k := v]> (ancestry_cache l)) (graph l) (graph_query l) (window l) (patch_id_cache l) (graph_operations l) (unreadable_seen l) (state_moved l) (current_at l) (rereads l).
Definition set_graph (g : Graph) (q : Z) (l : Ladder) : Ladder :=
  mkLadder (budget l) (ancestry_cache l) (Some g) q (window l) (patch_id_cache l) (graph_operations l) (unreadable_seen l) (state_moved l) (current_at l) (rereads l).
Definition set_window (w : CandidateWindow oid) (l : Ladder) : Ladder :=
  mkLadder (budget l) (ancestry_cache l) (graph l) (graph_query l) (Some w) (patch_id_cache l) (graph_operations l) (unreadable_seen l) (state_moved l) (current_at l) (rereads l).
Definition set_patch (k : oid) (v : option string) (l : Ladder) : Ladder :=
  mkLadder (budget l) (ancestry_cache l) (graph l) (graph_query l) (window l) (<[k := v]> (patch_id_cache l)) (graph_operations l) (unreadable_seen l) (state_moved l) (current_at l) (rereads l).
Definition add_operation (l : Ladder) : Ladder :=
  mkLadder (budget l) (ancestry_cache l) (graph l) (graph_query l) (window l) (patch_id_cache l) (graph_operations l + 1) (unreadable_seen l) (state_moved l) (current_at l) (rereads l).
Definition set_unreadable (l : Ladder) : Ladder :=
  mkLadder (budget l) (ancestry_cache l) (graph l) (graph_query l) (window l) (patch_id_cache l) (graph_operations l) true (state_moved l) (current_at l) (rereads l).
Definition set_moved (moved : bool) (at_ : option Z) (l : Ladder) : Ladder :=
  mkLadder (budget l) (ancestry_cache l) (graph l) (graph_query l) (window l) (patch_id_cache l) (graph_operations l) (unreadable_seen l) moved at_ (Datatypes.S (rereads l)).

Definition gets {A} (f : Ladder -> A) : LadderM A := fun l => (f l, l).
Definition modify (f : Ladder -> Ladder) : LadderM () := fun l => ((), f l).
Definition budgeted {A} (m : B A) : LadderM A := fun l => let '(a, b) := m (budget l) in (a, set_budget b l).
Definition exhausted : LadderM bool := budgeted is_exhausted.
Definition count_graph_operation : LadderM () := modify add_operation.
Definition note_unreadable_object : LadderM () := modify set_unreadable.

(** Whether sparse or shallow state moved under the graph work, re-read once per graph operation. *)
Definition repository_state_moved : LadderM bool :=
  moved ← gets state_moved;
  if moved : bool then mret true
  else
    operations ← gets graph_operations;
    at_ ← gets current_at;
    if bool_decide (at_ = Some operations) then mret false
    else
      n ← gets rereads;
      let moved := negb (still_current n) in
      _ ← modify (if moved then set_moved true at_ else set_moved false (Some operations));
      mret moved.

(** *** Ancestry *)
Definition get_or_insert_commit (id : oid) (update : Z -> Z) (g : Graph) : option (option (CommitInfo oid * Z)) * Graph :=
  match g !! id with
  | Some (c, data) => (Some (Some (c, data)), <[id := (c, update data)]> g)
  | None =>
      match graph_lookup id with
      | None => (None, g)
      | Some None => (Some None, g)
      | Some (Some c) => (Some (Some (c, 0)), <[id := (c, update 0)]> g)
      end
  end.

(** The commit and whether this query had seen it; [Some None] when it is absent. *)
Definition visit (id : oid) (query : Z) : LadderM (option (option (CommitInfo oid * bool))) := fun l =>
  let '(r, g) := get_or_insert_commit id (fun _ => query) (default ∅ (graph l)) in
  (match r with Some (Some (c, data)) => Some (Some (c, data =? query)) | Some None => Some None | None => None end, set_graph g (graph_query l) l).

Definition below_ancestor (g ancestor : option Z) : bool := match g, ancestor with Some g, Some a => g <? a | _, _ => false end.

(** Breadth first from the descendant. Every round pops a commit; a round that visits a new one spends a step of the cap. *)
Fixpoint walk_ancestry (remaining : nat) (ancestor : oid) (ancestor_generation : option Z) (query : Z) : list oid -> LadderM (option bool) :=
  fix pop (pending : list oid) : LadderM (option bool) :=
    match pending with
    | [] => mret (Some false)
    | id :: pending =>
        x ← exhausted;
        if x : bool then mret None
        else match remaining with
             | O => mret None
             | Datatypes.S remaining =>
                 found ← visit id query;
                 match found with
                 | Some (Some (commit, seen)) =>
                     if seen : bool then pop pending
                     else if bool_decide (id = ancestor) then mret (Some true)
                     else if below_ancestor (generation commit) ancestor_generation then walk_ancestry remaining ancestor ancestor_generation query pending
                     else walk_ancestry remaining ancestor ancestor_generation query (pending ++ parents commit)
                 | Some None => if shallow then pop pending else _ ← note_unreadable_object; mret None
                 | None => _ ← note_unreadable_object; mret None
                 end
             end
    end.

Definition wrapping_succ (x : Z) : Z := wrapping_add u64_MAX x 1.
Definition clear_commit_data (g : Graph) : Graph := (fun p => (p.1, 0)) <$> g.

(** The stamp of the next query; at the wrap every stamp is cleared. *)
Definition next_query : LadderM Z := fun l =>
  let query := wrapping_succ (graph_query l) in
  let g := default ∅ (graph l) in
  if query =? 0 then (1, set_graph (clear_commit_data g) 1 l) else (query, set_graph g query l).

(** Looks a commit up in the graph and leaves its stamp. *)
Definition insert_commit (id : oid) : LadderM (option (option (CommitInfo oid * Z))) := fun l =>
  let '(r, g) := get_or_insert_commit id (fun data => data) (default ∅ (graph l)) in (r, set_graph g (graph_query l) l).

Definition test_ancestry_graph (ancestor descendant : oid) : LadderM (option bool) :=
  found ← insert_commit ancestor;
  match found with
  | Some (Some (commit, _)) =>
      query ← next_query;
      walk_ancestry (Z.to_nat ANCESTRY_WALK_CAP) ancestor (generation commit) query [descendant]
  | _ => _ ← note_unreadable_object; mret None
  end.

Definition test_ancestry (ancestor descendant : oid) : LadderM (option bool) :=
  _ ← count_graph_operation;
  match find_commit descendant, find_commit ancestor with
  | Some _, Some _ =>
      answer ← test_ancestry_graph ancestor descendant;
      mret (match answer with Some false => if shallow then None else Some false | answer => answer end)
  | _, _ => _ ← note_unreadable_object; mret None
  end.

Definition is_ancestor_or_equal_oid (ancestor descendant : oid) : LadderM (option bool) :=
  x ← exhausted;
  if x : bool then mret None
  else if bool_decide (ancestor = descendant) then mret (Some true)
  else
    cached ← gets (fun l => ancestry_cache l !! (ancestor, descendant));
    match cached with
    | Some answer => mret answer
    | None =>
        answer ← test_ancestry ancestor descendant;
        _ ← modify (set_ancestry (ancestor, descendant) answer);
        mret answer
    end.

Definition is_ancestor_or_equal (ancestor descendant : string) : LadderM (option bool) :=
  match from_hex ancestor, from_hex descendant with
  | Some a, Some d => is_ancestor_or_equal_oid a d
  | _, _ => mret None
  end.

(** *** The candidate window *)
Fixpoint scan_walk (items : list (option oid)) : LadderM (option (list oid)) :=
  match items with
  | [] => mret (Some [])
  | item :: items =>
      x ← exhausted;
      if x : bool then mret None
      else match item with
           | None => _ ← note_unreadable_object; mret None
           | Some id => rest ← scan_walk items; mret (cons id <$> rest)
           end
  end.

Definition window_truncated (items : list (option oid)) : LadderM bool :=
  match items !! CANDIDATE_WINDOW with
  | Some (Some _) => mret true
  | Some None => _ ← note_unreadable_object; mret true
  | None => mret false
  end.

Definition candidate_window : LadderM (option (CandidateWindow oid)) :=
  cached ← gets window;
  match cached with
  | Some w => mret (Some w)
  | None =>
      _ ← count_graph_operation;
      match from_hex head with
      | None => mret None
      | Some tip =>
          match rev_walk tip with
          | None => _ ← note_unreadable_object; mret None
          | Some items =>
              scanned ← scan_walk (take CANDIDATE_WINDOW items);
              match scanned with
              | None => mret None
              | Some ids =>
                  truncated ← (if (length ids =? CANDIDATE_WINDOW)%nat then window_truncated items else mret false);
                  let w := mkWindow ids truncated in
                  _ ← modify (set_window w);
                  mret (Some w)
              end
          end
      end
  end.

(** The loop of [match_candidates]; [found] once a candidate has matched. *)
Fixpoint match_loop (matches : oid -> LadderM (result ResolveObstacle bool)) (candidates : list oid) (found : bool) : LadderM WindowMatch :=
  match candidates with
  | [] => x ← exhausted; mret (if x : bool then OutOfBudget else if found then Exactly else NoMatch)
  | candidate :: candidates =>
      x ← exhausted;
      if x : bool then mret OutOfBudget
      else
        _ ← count_graph_operation;
        r ← matches candidate;
        match r with
        | Ok true => if found then mret Ambiguous else match_loop matches candidates true
        | Ok false => match_loop matches candidates found
        | Err BudgetExhausted => mret OutOfBudget
        | Err UnreadableObject => _ ← note_unreadable_object; mret Unreadable
        end
  end.

Definition match_candidates (matches : oid -> LadderM (result ResolveObstacle bool)) : LadderM WindowMatch :=
  w ← candidate_window;
  match w with None => mret OutOfBudget | Some w => match_loop matches (commits w) false end.

Definition cached_patch_id (candidate : oid) : LadderM (result ResolveObstacle (option string)) :=
  cached ← gets (fun l => patch_id_cache l !! candidate);
  match cached with
  | Some cached => mret (Ok cached)
  | None =>
      _ ← count_graph_operation;
      r ← budgeted (compute_patch_id candidate);
      match r with
      | Ok pid => _ ← modify (set_patch candidate pid); mret (Ok pid)
      | Err e => mret (Err e)
      end
  end.

(** The entry of a path on both sides; an absent parent has none. *)
Definition entries_at (new_tree : tree) (old_tree : option tree) (path : string) : result ResolveObstacle (option (oid * EntryKind) * option (oid * EntryKind)) :=
  new_entry ← ok_or (lookup_entry new_tree path) UnreadableObject;
  old_entry ← match old_tree with Some t => ok_or (lookup_entry t path) UnreadableObject | None => Ok None end;
  Ok (new_entry, old_entry).

Fixpoint touches_loop (new_tree : tree) (old_tree : option tree) (paths : list string) : B (result ResolveObstacle bool) :=
  match paths with
  | [] => mret (Ok false)
  | path :: paths =>
      x ← is_exhausted;
      if x : bool then mret (Err BudgetExhausted)
      else match entries_at new_tree old_tree path with
           | Err e => mret (Err e)
           | Ok (new_entry, old_entry) => if bool_decide (new_entry = old_entry) then touches_loop new_tree old_tree paths else mret (Ok true)
           end
  end.

Definition commit_touches_paths (commit : oid) (paths : list string) : B (result ResolveObstacle bool) :=
  match paths with
  | [] => mret (Ok true)
  | _ =>
      match find_commit commit with
      | None => mret (Err UnreadableObject)
      | Some c =>
          match commit_tree c with
          | None => mret (Err UnreadableObject)
          | Some new_tree => match first_parent_tree c with Err e => mret (Err e) | Ok old_tree => touches_loop new_tree old_tree paths end
          end
      end
  end.

(** *** The two fallback rungs *)
Definition patch_candidate (paths : list string) (stored : string) (candidate : oid) : LadderM (result ResolveObstacle bool) :=
  touched ←? budgeted (commit_touches_paths candidate paths);
  if touched : bool then pid ←? cached_patch_id candidate; mret (Ok (bool_decide (pid = Some stored))) else mret (Ok false).

Definition tree_candidate (t : oid) (candidate : oid) : LadderM (result ResolveObstacle bool) :=
  mret (match find_commit candidate ≫= tree_id with Some t' => Ok (bool_decide (t' = t)) | None => Err UnreadableObject end).

(** The stored patch identity this build can interpret, and whether there is one it cannot. *)
Definition stored_patch_id (capture : AnchorCapture) : option string * bool :=
  match patch_id capture with
  | None => (None, false)
  | Some p => if bool_decide (algorithm p = PATCH_ID_ALGORITHM) && is_lower_hex (pvalue p) 64 then (Some (pvalue p), false) else (None, true)
  end.

Definition tree_rung (capture : AnchorCapture) (patch_unreadable : bool) : LadderM WindowMatch :=
  let unmatched := if patch_unreadable then Unreadable else NoMatch in
  match tree_oid capture with
  | None => mret unmatched
  | Some text =>
      match from_hex text with
      | None => mret Unreadable
      | Some t => m ← match_candidates (tree_candidate t); mret (match m with NoMatch => unmatched | decided => decided end)
      end
  end.

Definition match_in_window (capture : option AnchorCapture) : LadderM WindowMatch :=
  match capture with
  | None => mret NoMatch
  | Some capture =>
      let '(stored, patch_unreadable) := stored_patch_id capture in
      match stored with
      | None => tree_rung capture patch_unreadable
      | Some stored =>
          m ← match_candidates (patch_candidate (changed_paths capture) stored);
          match m with
          | NoMatch => tree_rung capture patch_unreadable
          | Unreadable => tree_rung capture true
          | decided => mret decided
          end
      end
  end.

Definition window_scan_complete (capture : option AnchorCapture) : LadderM bool :=
  let has_fallback_data := match capture with Some c => Scope.given (patch_id c) || Scope.given (tree_oid c) | None => false end in
  if negb has_fallback_data then mret true
  else w ← candidate_window; mret (match w with Some w => negb (truncated w) | None => false end).

Definition resolve_commit (oid_hex : string) (capture : option AnchorCapture) : LadderM CommitResolution :=
  match from_hex head with
  | None => mret ResUncertain
  | Some tip =>
      let anchor := from_hex oid_hex in
      let present := match anchor with Some a => Scope.given (find_commit a) | None => false end in
      _ ← (if Scope.given anchor && negb present then note_unreadable_object else mret ());
      ancestry ← (match anchor with Some a => if present then (r ← is_ancestor_or_equal_oid a tip; mret (Some r)) else mret None | None => mret None end : LadderM (option (option bool)));
      match ancestry with
      | Some (Some true) => mret Reachable
      | _ =>
          let decided := match ancestry with Some (Some false) => true | _ => false end in
          m ← match_in_window capture;
          match m with
          | Exactly => mret Reachable
          | Ambiguous | OutOfBudget | Unreadable => mret ResUncertain
          | NoMatch =>
              if decided then complete ← window_scan_complete capture; mret (if complete : bool then NotReachable else ResUncertain) else mret ResUncertain
          end
      end
  end.

Definition evaluate (condition : GitCondition) : LadderM GitConditionOutcome :=
  match condition with
  | ReachableFrom o captures =>
      r ← resolve_commit o (captures !! o);
      mret (match r with Reachable => Holds | NotReachable => DoesNotHold false | ResUncertain => CondUncertain end)
  | ReachableBetween s e captures =>
      end_ ← resolve_commit e (captures !! e);
      match end_ with
      | Reachable => mret (DoesNotHold true)
      | _ =>
          start ← resolve_commit s (captures !! s);
          mret (match start, end_ with
                | _, Reachable => DoesNotHold true
                | NotReachable, _ => DoesNotHold false
                | ResUncertain, _ | _, ResUncertain => CondUncertain
                | Reachable, NotReachable => Holds
                end)
      end
  end.

(** What a request does with its ladder. *)
Inductive Request := Evaluate (c : GitCondition) | Ancestor (a d : string) | CheckMoved | Cancel.
Definition serve (r : Request) : LadderM () :=
  match r with
  | Evaluate c => _ ← evaluate c; mret ()
  | Ancestor a d => _ ← is_ancestor_or_equal a d; mret ()
  | CheckMoved => _ ← repository_state_moved; mret ()
  | Cancel => budgeted cancel_budget
  end.
Inductive reached (b : BudgetState) : Ladder -> Prop :=
| reached_new : reached b (ladder_new b)
| reached_step l r : reached b l -> reached b (serve r l).2.
End Ladder.
End Resolve.
