(* ===== verification/ResolveProofs.v ===== *)
(** * ResolveProofs: what the resolution ladder answers is true of the commit history

    Against a history the git library reports faithfully, every ancestry answer is right in every state the
    memos can be in, a commit is current only when it or the one commit that replays it is reachable, and it
    is gone only when no reachable commit replays it. *)
From S2P Require Import Prelude.
From S2P Require Import SortBy.
From S2P Require Import CanonicalJson.
From S2P Require Import Scope.
From S2P Require Import ScopeSound.
From S2P Require Import Resolve.
From Stdlib Require Import String.
From stdpp Require Import strings gmap sets.

#[local] Open Scope Z_scope.

Module ResolveProofs.
Import Resolve.

(** ** The budget only ever withholds an answer *)
Section Agreement.
Context {oid tree : Type} `{Countable oid} {G : Git oid tree} {E : BudgetEnv}.

(** [m] is exhausted or answers what [u] does without a budget. *)
Definition agrees {A} (m u : B (result ResolveObstacle A)) : Prop :=
  forall b, (m b).1 = Err BudgetExhausted \/ forall b', interrupt b' = false -> (m b).1 = (u b').1 /\ interrupt (u b').2 = false.

Lemma agrees_ret {A} (r : result ResolveObstacle A) : agrees (mret r) (mret r).
Proof. right. done. Qed.

Lemma agrees_try {A C} (m u : B (result ResolveObstacle A)) (f g : A -> B (result ResolveObstacle C)) :
  agrees m u -> (forall a, agrees (f a) (g a)) -> agrees (try_bind m f) (try_bind u g).
Proof.
  intros Hm Hf b. unfold try_bind, mbind, ST_bind. specialize (Hm b). destruct (m b) as [r b1]. cbn in Hm. destruct Hm as [->|Hm]; [by left|].
  destruct r as [a|e].
  - destruct (Hf a b1) as [Hx|Hx]; [by left|]. right. intros b' Hb'. destruct (Hm b' Hb') as [Hr Hi]. destruct (u b') as [r' b2]. cbn in Hr, Hi. subst r'.
    by apply Hx.
  - right. intros b' Hb'. destruct (Hm b' Hb') as [Hr Hi]. destruct (u b') as [r' b2]. cbn in Hr, Hi. by subst r'.
Qed.

Lemma unbounded_poll b : interrupt b = false -> is_exhausted (E := unbounded) b = (false, mkBudget (Datatypes.S (polls b)) false).
Proof. intros Hb. unfold is_exhausted. cbn. by rewrite Hb. Qed.

Lemma agrees_poll {A} (m u : B (result ResolveObstacle A)) :
  agrees m u ->
  agrees (x ← is_exhausted; if x : bool then mret (Err BudgetExhausted) else m) (x ← is_exhausted (E := unbounded); if x : bool then mret (Err BudgetExhausted) else u).
Proof.
  intros Hm b. unfold mbind, ST_bind. destruct (is_exhausted b) as [[|] b1]; [by left|]. destruct (Hm b1) as [Hx|Hx]; [by left|].
  right. intros b' Hb'. rewrite unbounded_poll by done. by apply Hx.
Qed.

Lemma agrees_gate : agrees budget_gate (budget_gate (E := unbounded)).
Proof.
  intros b. unfold budget_gate, mbind, ST_bind. destruct (is_exhausted b) as [[|] b1]; [by left|]. right. intros b' Hb'. by rewrite unbounded_poll.
Qed.
#[local] Hint Resolve agrees_ret agrees_try agrees_poll agrees_gate : core.

Lemma agrees_side side : agrees (side_bytes side) (side_bytes (E := unbounded) side).
Proof. unfold side_bytes. repeat case_match; auto; apply agrees_poll; repeat case_match; auto. Qed.
Lemma agrees_file change : agrees (file_change_hash change) (file_change_hash (E := unbounded) change).
Proof.
  unfold file_change_hash. destruct (change_parts change) as [[[kind loc] old] new]. apply agrees_try; [apply agrees_side|]. intros [a|]; auto.
  apply agrees_try; [apply agrees_side|]. intros [c|]; auto.
Qed.
Lemma agrees_hashes changes : agrees (file_hashes changes) (file_hashes (E := unbounded) changes).
Proof.
  induction changes as [|change changes IH]; cbn [file_hashes]; auto. apply agrees_try; auto. intros _. apply agrees_try; [apply agrees_file|].
  intros [h|]; auto.
Qed.
Lemma agrees_patch changes : agrees (patch_id_from_changes changes) (patch_id_from_changes (E := unbounded) changes).
Proof.
  unfold patch_id_from_changes. destruct changes as [[|change changes]|]; auto. apply agrees_try; [apply agrees_hashes|]. intros [h|]; auto.
Qed.
Lemma agrees_collect (offered : list (Change oid)) : agrees (collect_changes offered) (collect_changes (E := unbounded) offered).
Proof. induction offered as [|change offered IH]; cbn [collect_changes]; auto. Qed.
Lemma agrees_changes c : agrees (first_parent_blob_changes c) (first_parent_blob_changes (E := unbounded) c).
Proof. unfold first_parent_blob_changes. repeat case_match; auto; (apply agrees_try; [apply agrees_collect|intros ?; apply agrees_ret]). Qed.
Lemma agrees_compute c : agrees (compute_patch_id c) (compute_patch_id (E := unbounded) c).
Proof. unfold compute_patch_id. apply agrees_try; auto. intros _. apply agrees_try; [apply agrees_changes|]. apply agrees_patch. Qed.
Lemma agrees_touches new_tree old_tree paths : agrees (touches_loop new_tree old_tree paths) (touches_loop (E := unbounded) new_tree old_tree paths).
Proof. induction paths as [|path paths IH]; cbn [touches_loop]; auto. apply agrees_poll. repeat case_match; auto. Qed.
Lemma agrees_touch c paths : agrees (commit_touches_paths c paths) (commit_touches_paths (E := unbounded) c paths).
Proof. unfold commit_touches_paths. repeat case_match; auto. apply agrees_touches. Qed.

Definition fresh_budget : BudgetState := mkBudget 0 false.
Definition patch_of (c : oid) : result ResolveObstacle (option string) := (compute_patch_id (E := unbounded) c fresh_budget).1.
Definition touches (c : oid) (paths : list string) : result ResolveObstacle bool := (commit_touches_paths (E := unbounded) c paths fresh_budget).1.

Lemma compute_patch_id_spec c b pid : (compute_patch_id c b).1 = Ok pid -> patch_of c = Ok pid.
Proof. intros Hc. destruct (agrees_compute c b) as [Hx|Hx]; [congruence|]. destruct (Hx fresh_budget eq_refl) as [Hy _]. unfold patch_of. congruence. Qed.
Lemma commit_touches_spec c paths b t : (commit_touches_paths c paths b).1 = Ok t -> touches c paths = Ok t.
Proof. intros Hc. destruct (agrees_touch c paths b) as [Hx|Hx]; [congruence|]. destruct (Hx fresh_budget eq_refl) as [Hy _]. unfold touches. congruence. Qed.

(** ** File order does not affect the patch identity *)
Definition hash_of (c : Change oid) : result ResolveObstacle (option string) := (file_change_hash (E := unbounded) c fresh_budget).1.
End Agreement.

Section Identity.
Context {oid tree : Type} `{Countable oid} {G : Git oid tree}.
#[local] Existing Instance unbounded.

(** Without a budget no answer depends on the polls made before. *)
Lemma quiet_answer {A} (m : B (result ResolveObstacle A)) b b' :
  agrees m m -> interrupt b = false -> interrupt b' = false -> (m b).1 <> Err BudgetExhausted -> (m b).1 = (m b').1 /\ interrupt (m b').2 = false.
Proof. intros Hm Hb Hb' Hne. destruct (Hm b) as [?|Hx]; [done|]. by apply Hx. Qed.

Lemma file_hashes_iff changes b hs :
  interrupt b = false -> ((file_hashes changes b).1 = Ok (Some hs) <-> Forall2 (fun c h => hash_of c = Ok (Some h)) changes hs).
Proof.
  revert b hs. induction changes as [|c changes IH]; intros b hs Hb.
  - cbn. split; [intros [= <-]; constructor|]. by intros ->%Forall2_nil_inv_l.
  - cbn [file_hashes]. unfold try_bind, mbind, ST_bind, budget_gate, mbind, ST_bind. rewrite unbounded_poll by done. cbn [mret ST_ret].
    set (b1 := mkBudget (Datatypes.S (polls b)) false). pose proof (quiet_answer (file_change_hash c) b1 fresh_budget (agrees_file c) eq_refl eq_refl) as Hq.
    pose proof (quiet_answer (file_change_hash c) fresh_budget b1 (agrees_file c) eq_refl eq_refl) as Hq'. fold (hash_of c) in Hq, Hq'.
    destruct (file_change_hash c b1) as [r b2]. cbn [fst snd] in *. destruct r as [[h|]|e].
    + destruct (Hq ltac:(done)) as [Hh _]. destruct (Hq' ltac:(rewrite <- Hh; done)) as [_ Hb2]. specialize (IH b2). destruct (file_hashes changes b2) as [r b3]. cbn [fst] in IH. split.
      * destruct r as [[rest|]|e]; cbn; try done. intros [= <-]. constructor; [done|]. by apply IH.
      * intros (h' & rest & Hc & Hrest & ->)%Forall2_cons_inv_l. apply IH in Hrest as ->; [|done]. cbn. rewrite <- Hh in Hc. by simplify_eq.
    + destruct (Hq ltac:(done)) as [Hh _]. split; [done|]. intros (h' & rest & Hc & _)%Forall2_cons_inv_l. congruence.
    + split; [done|]. intros (h' & rest & Hc & _)%Forall2_cons_inv_l. destruct (Hq' ltac:(rewrite Hc; done)) as [Heq _]. congruence.
Qed.

(** The patch identity depends on the set of file changes, not on the order the diff offers them. *)
Theorem patch_identity_order_free changes changes' pid :
  changes ≡ₚ changes' -> (patch_id_from_changes (Some changes) fresh_budget).1 = Ok (Some pid) -> (patch_id_from_changes (Some changes') fresh_budget).1 = Ok (Some pid).
Proof.
  intros Hp. destruct changes as [|c changes]; [done|]. destruct changes' as [|c' changes']; [by symmetry in Hp; apply Permutation_nil_cons in Hp|].
  unfold patch_id_from_changes, try_bind, mbind, ST_bind, budget_gate, mbind, ST_bind.
  pose proof (file_hashes_iff (c :: changes) fresh_budget) as H1. pose proof (file_hashes_iff (c' :: changes') fresh_budget) as H2.
  pose proof (quiet_answer (file_hashes (c' :: changes')) fresh_budget fresh_budget (agrees_hashes _) eq_refl eq_refl) as Hq.
  destruct (file_hashes (c :: changes) fresh_budget) as [[[hs|]|e] b1]; [|done..]. cbn [fst] in H1. assert (Hf := proj1 (H1 hs eq_refl) eq_refl).
  destruct (Permutation_Forall2 Hp Hf) as (hs' & Hph & Hf').
  apply (H2 hs' eq_refl) in Hf'. destruct (file_hashes (c' :: changes') fresh_budget) as [r b2]. cbn [fst snd] in Hf', Hq. subst r.
  destruct (Hq ltac:(done)) as [_ Hb2]. rewrite (unbounded_poll b2 Hb2). destruct (is_exhausted b1) as [[|] b3]; cbn; [done|]. intros [= <-].
  do 2 f_equal. unfold combined_hash. rewrite (sort_by_unique String.compare hs' hs); [done|by symmetry|]. intros x y _ _. apply String.compare_eq_iff.
Qed.
End Identity.

(** ** A history the git library reports faithfully *)
Section History.
Context {oid tree : Type} `{Countable oid} {G : Git oid tree} {E : BudgetEnv} {SN : Snapshot} (parent_of : oid -> oid -> Prop).

Notation anc := (rtc parent_of).
Notation Lad := (Ladder (oid := oid)).
Notation Act := (LadderM (oid := oid)).

(** What the library documents: the graph reports the parents of a commit, all of them unless the clone is
    shallow; a commit with a lower generation number cannot reach one with a higher; a walk lists reachable
    commits, and all of them when the clone is not shallow and no commit was unreadable. *)
Class GitLaws : Prop := {
  law_parents c k p : graph_lookup c = Some (Some k) -> In p (parents k) -> parent_of p c;
  law_complete c k p : shallow = false -> graph_lookup c = Some (Some k) -> parent_of p c -> In p (parents k);
  law_generation a ka ga d kd gd :
    graph_lookup a = Some (Some ka) -> generation ka = Some ga -> graph_lookup d = Some (Some kd) -> generation kd = Some gd -> anc a d -> ga <= gd;
  law_walk tip items c : rev_walk tip = Some items -> In (Some c) items -> anc c tip;
  law_walk_all tip items c : shallow = false -> rev_walk tip = Some items -> ~ In None items -> anc c tip -> In (Some c) items;
}.
Context {GL : GitLaws}.

Definition window_ok (w : CandidateWindow oid) : Prop :=
  exists tip items, from_hex head = Some tip /\ rev_walk tip = Some items /\ Some <$> commits w = take CANDIDATE_WINDOW items /\
    (truncated w = false -> (length items <= CANDIDATE_WINDOW)%nat).

Record Inv (l : Lad) : Prop := {
  inv_graph id c d : default ∅ (graph l) !! id = Some (c, d) -> graph_lookup id = Some (Some c) /\ 0 <= d <= graph_query l;
  inv_query : 0 <= graph_query l <= u64_MAX;
  inv_cache a d x : ancestry_cache l !! (a, d) = Some (Some x) -> if x : bool then anc a d else shallow = false /\ ~ anc a d;
  inv_window w : window l = Some w -> window_ok w;
  inv_patch c v : patch_id_cache l !! c = Some v -> patch_of c = Ok v;
}.

(** ** Triples *)
Definition triple {A} (P : Lad -> Prop) (m : Act A) (Q : A -> Lad -> Prop) : Prop := forall l, P l -> Q (m l).1 (m l).2.

Lemma triple_bind {A C} (P : Lad -> Prop) (m : Act A) (f : A -> Act C) R Q : triple P m R -> (forall a, triple (R a) (f a) Q) -> triple P (m ≫= f) Q.
Proof. intros Hm Hf l Hl. unfold mbind, ST_bind. specialize (Hm l Hl). destruct (m l) as [a l']. by apply Hf. Qed.
Lemma triple_ret {A} (P : Lad -> Prop) (a : A) (Q : A -> Lad -> Prop) : (forall l, P l -> Q a l) -> triple P (mret a) Q.
Proof. intros Hq l Hl. by apply Hq. Qed.
Lemma triple_get {A} (P : Lad -> Prop) (f : Lad -> A) : triple P (gets f) (fun a l => P l /\ a = f l).
Proof. intros l Hl. done. Qed.
Lemma triple_post {A} (P : Lad -> Prop) (m : Act A) (Q Q' : A -> Lad -> Prop) : triple P m Q -> (forall a l, Q a l -> Q' a l) -> triple P m Q'.
Proof. intros Hm Hq l Hl. by apply Hq, Hm. Qed.
Lemma triple_pre {A} (P P' : Lad -> Prop) (m : Act A) (Q : A -> Lad -> Prop) : triple P m Q -> (forall l, P' l -> P l) -> triple P' m Q.
Proof. intros Hm Hq l Hl. by apply Hm, Hq. Qed.
(** A fact about the precondition that does not depend on the state. *)
Lemma triple_assume {A} (F : Prop) (P : Lad -> Prop) (m : Act A) (Q : A -> Lad -> Prop) : (F -> triple P m Q) -> triple (fun l => P l /\ F) m Q.
Proof. intros Hm l [Hl Hf]. by apply Hm. Qed.

Lemma Inv_same_graph (l : Lad) q : Inv l -> q = graph_query l -> Inv (set_graph (default ∅ (graph l)) q l).
Proof. intros [H1 H2 H3 H4 H5] ->. split; auto. Qed.

(** Operations that leave the memos alone keep any property of them. *)
Definition blind (P : Lad -> Prop) : Prop :=
  forall l l', graph l' = graph l -> graph_query l' = graph_query l -> ancestry_cache l' = ancestry_cache l -> window l' = window l ->
    patch_id_cache l' = patch_id_cache l -> P l -> P l'.

Lemma blind_Inv : blind Inv.
Proof. intros l l' Hg Hq Ha Hw Hp [H1 H2 H3 H4 H5]. split; rewrite ?Hg, ?Hq, ?Ha, ?Hw, ?Hp; auto. Qed.
Lemma triple_budgeted {A} (P : Lad -> Prop) (m : B A) : blind P -> triple P (budgeted m) (fun a l => P l /\ exists b, a = (m b).1).
Proof. intros Hb l Hl. unfold budgeted. destruct (m (budget l)) as [a b] eqn:Em. split; [by eapply Hb; [..|exact Hl]|]. exists (budget l). by rewrite Em. Qed.
Lemma triple_exhausted (P : Lad -> Prop) : blind P -> triple P exhausted (fun _ => P).
Proof. intros Hb. eapply triple_post; [by apply triple_budgeted|]. by intros a l [? _]. Qed.
Lemma triple_count (P : Lad -> Prop) : blind P -> triple P count_graph_operation (fun _ => P).
Proof. intros Hb l Hl. by eapply Hb; [..|exact Hl]. Qed.
Lemma triple_note (P : Lad -> Prop) : blind P -> triple P note_unreadable_object (fun _ => P).
Proof. intros Hb l Hl. by eapply Hb; [..|exact Hl]. Qed.
Lemma triple_moved (P : Lad -> Prop) : blind P -> triple P repository_state_moved (fun _ => P).
Proof.
  intros Hb l Hl. unfold repository_state_moved, mbind, ST_bind, gets, modify. destruct (state_moved l); [done|]. case_bool_decide; [done|].
  cbn. destruct (still_current (rereads l)); by eapply Hb; [..|exact Hl].
Qed.

(** ** The ancestry walk *)
Definition stamped (q : Z) (l : Lad) (x : oid) : Prop := exists c, default ∅ (graph l) !! x = Some (c, q).

Lemma insert_ok (l : Lad) o c (d q : Z) :
  Inv l -> graph_lookup o = Some (Some c) -> 0 <= d <= q -> graph_query l <= q <= u64_MAX -> Inv (set_graph (<[o := (c, d)]> (default ∅ (graph l))) q l).
Proof.
  intros [H1 H2 H3 H4 H5] Hc Hd Hq. split; cbn [graph graph_query set_graph ancestry_cache window patch_id_cache default from_option id]; auto; [|lia].
  intros x k e Hx. apply lookup_insert_Some in Hx as [[<- [= <- <-]]|[_ Hx]]; [done|]. destruct (H1 _ _ _ Hx). split; [done|lia].
Qed.

Lemma visit_spec q o (l : Lad) :
  Inv l -> graph_query l = q -> 0 < q ->
  Inv (visit o q l).2 /\ graph_query (visit o q l).2 = q /\
  match (visit o q l).1 with
  | Some (Some (c, seen)) =>
      graph_lookup o = Some (Some c) /\ (seen = true <-> stamped q l o) /\ forall x, stamped q (visit o q l).2 x <-> stamped q l x \/ x = o
  | _ => forall x, stamped q (visit o q l).2 x <-> stamped q l x
  end.
Proof.
  intros Hl Hq Hpos. pose proof (inv_query l Hl) as Hb. unfold visit, get_or_insert_commit. destruct (default ∅ (graph l) !! o) as [[c d]|] eqn:Eg.
  - destruct (inv_graph l Hl _ _ _ Eg) as [Hc Hd]. cbn [fst snd]. rewrite Hq. split; [|split; [done|]].
    { apply insert_ok; auto; lia. }
    split; [done|]. split.
    { rewrite Z.eqb_eq. unfold stamped. rewrite Eg. split; [intros ->; by exists c|]. intros [c' [=]]. done. }
    intros x. unfold stamped. cbn [graph set_graph default from_option id]. destruct (decide (x = o)) as [->|Hne].
    + rewrite lookup_insert_eq. split; [by right|]. intros _. by exists c.
    + rewrite lookup_insert_ne by done. split; [by left|]. intros [?|?]; done.
  - destruct (graph_lookup o) as [[c|]|] eqn:El; cbn [fst snd].
    + rewrite Hq. split; [apply insert_ok; auto; lia|]. split; [done|]. split; [done|]. split.
      { rewrite Z.eqb_eq. unfold stamped. rewrite Eg. split; [lia|]. by intros [? ?]. }
      intros x. unfold stamped. cbn [graph set_graph default from_option id]. destruct (decide (x = o)) as [->|Hne].
      * rewrite lookup_insert_eq. split; [by right|]. intros _. by exists c.
      * rewrite lookup_insert_ne by done. split; [by left|]. intros [?|?]; done.
    + split; [|done]. by apply Inv_same_graph.
    + split; [|done]. by apply Inv_same_graph.
Qed.

Section Walk.
Context (ancestor descendant : oid) (info : CommitInfo oid) (q : Z).
Context (Hancestor : graph_lookup ancestor = Some (Some info)) (Hq : 0 < q).

(** The commits this query has stamped: none is the ancestor, and the parents of each are stamped or pending, unless
    its generation lies below the ancestor's. *)
Definition walk_closed (l : Lad) (pending : list oid) : Prop :=
  (stamped q l descendant \/ In descendant pending) /\
  forall x k, stamped q l x -> graph_lookup x = Some (Some k) ->
    x <> ancestor /\ (below_ancestor (generation k) (generation info) = true \/ forall p, In p (parents k) -> stamped q l p \/ In p pending).

Definition walking (pending : list oid) (l : Lad) : Prop :=
  Inv l /\ graph_query l = q /\ (forall p, In p pending -> anc p descendant) /\ (shallow = false -> walk_closed l pending).
Definition walked (answer : option bool) (l : Lad) : Prop :=
  Inv l /\ match answer with Some true => anc ancestor descendant | Some false => shallow = false -> ~ anc ancestor descendant | None => True end.

(** When nothing is pending the stamped commits are closed under parents and the ancestor is not among them. *)
Lemma closed_unreachable l : shallow = false -> Inv l -> walk_closed l [] -> ~ anc ancestor descendant.
Proof.
  intros Hs Hl [[Hd|[]] Hc] Hreach. refine (rtc_ind_r (fun y => stamped q l y -> False) ancestor _ _ descendant Hreach Hd).
  - intros [k Hk]. destruct (inv_graph l Hl _ _ _ Hk) as [Hg _]. by destruct (Hc ancestor k) as [? _]; [by exists k|..].
  - intros x y Hr Hp IH [k Hk]. destruct (inv_graph l Hl _ _ _ Hk) as [Hg _]. destruct (Hc y k) as [_ [Hb|Hpar]]; [by exists k|done|..].
    + unfold below_ancestor in Hb. destruct (generation k) as [g|] eqn:Ek; [|done]. destruct (generation info) as [ga|] eqn:Ea; [|done].
      apply Z.ltb_lt in Hb. pose proof (law_generation ancestor info ga y k g Hancestor Ea Hg Ek (rtc_r _ _ _ Hr Hp)). lia.
    + destruct (Hpar x) as [Hx|[]]; [by eapply law_complete|]. by apply IH.
Qed.

Lemma walk_cons n o pending :
  walk_ancestry n ancestor (generation info) q (o :: pending) =
  (x ← exhausted;
   if x : bool then mret None
   else match n with
        | O => mret None
        | Datatypes.S remaining =>
            found ← visit o q;
            match found with
            | Some (Some (commit, seen)) =>
                if seen : bool then walk_ancestry (Datatypes.S remaining) ancestor (generation info) q pending
                else if bool_decide (o = ancestor) then mret (Some true)
                else if below_ancestor (generation commit) (generation info) then walk_ancestry remaining ancestor (generation info) q pending
                else walk_ancestry remaining ancestor (generation info) q (pending ++ parents commit)
            | Some None => if shallow then walk_ancestry (Datatypes.S remaining) ancestor (generation info) q pending else _ ← note_unreadable_object; mret None
            | None => _ ← note_unreadable_object; mret None
            end
        end).
Proof. by destruct n. Qed.

Lemma blind_walking pending : blind (walking pending).
Proof.
  intros l l' Hg Hgq Ha Hw Hp (H1 & H2 & H3 & H4). split; [by eapply blind_Inv; [..|exact H1]|]. split; [congruence|]. split; [done|].
  intros Hs. unfold walk_closed, stamped in *. rewrite Hg. auto.
Qed.

(** Popping a commit that was stamped before loses nothing. *)
Lemma closed_pop l l' o pending :
  (forall x, stamped q l' x <-> stamped q l x) -> stamped q l o -> walk_closed l (o :: pending) -> walk_closed l' pending.
Proof.
  intros Hst Ho [Hd Hc]. split; [rewrite Hst; destruct Hd as [?|[->|?]]; auto|]. intros x k Hx%Hst Hk. destruct (Hc x k Hx Hk) as [Hne Hp]. split; [done|].
  destruct Hp as [?|Hp]; [by left|]. right. intros p Hin. rewrite Hst. destruct (Hp p Hin) as [?|[->|?]]; auto.
Qed.

(** Stamping a new commit leaves its parents to visit, unless its generation rules them out. *)
Lemma closed_stamp l l' o k pending extra :
  (forall x, stamped q l' x <-> stamped q l x \/ x = o) -> graph_lookup o = Some (Some k) -> o <> ancestor ->
  (below_ancestor (generation k) (generation info) = true \/ extra = parents k) -> walk_closed l (o :: pending) -> walk_closed l' (pending ++ extra).
Proof.
  intros Hst Ho Hne Hx [Hd Hc]. split; [rewrite Hst, in_app_iff; destruct Hd as [?|[->|?]]; auto|]. intros x k2 Hx2 Hk. apply Hst in Hx2. destruct Hx2 as [Hs|Hxo]; [|subst x].
  - destruct (Hc x k2 Hs Hk) as [Hn Hp]. split; [done|]. destruct Hp as [?|Hp]; [by left|]. right. intros p Hin. rewrite Hst, in_app_iff.
    destruct (Hp p Hin) as [?|[->|?]]; auto.
  - split; [done|]. replace k2 with k by congruence. destruct Hx as [?| ->]; [by left|]. right. intros p Hin. rewrite in_app_iff. auto.
Qed.

Lemma walk_sound n pending : triple (walking pending) (walk_ancestry n ancestor (generation info) q pending) walked.
Proof.
  revert pending. induction n as [|n IHn]; intros pending; induction pending as [|o pending IHp].
  1, 3: intros l (Hl & _ & _ & Hc); split; [done|]; intros Hs; exact (closed_unreachable l Hs Hl (Hc Hs)).
  - rewrite walk_cons. eapply triple_bind; [apply triple_exhausted, blind_walking|]. intros [|]; apply triple_ret; intros l [Hl _]; done.
  - rewrite walk_cons. eapply triple_bind; [apply triple_exhausted, blind_walking|]. intros [|]; [by apply triple_ret; intros l [Hl _]|].
    intros l (Hl & Hlq & Hr & Hc). unfold mbind, ST_bind. destruct (visit_spec q o l Hl Hlq Hq) as (Hl' & Hlq' & Hv).
    destruct (visit o q l) as [found l']. cbn [fst snd] in *.
    destruct found as [[[k seen]|]|].
    + destruct Hv as (Hk & Hseen & Hst). destruct seen.
      { apply IHp. split; [done|]. split; [done|]. split; [intros; apply Hr; by right|]. intros Hs. eapply closed_pop; [|by apply Hseen|by apply Hc].
        intros x. rewrite Hst. split; [intros [?| ->]; [done|by apply Hseen]|by left]. }
      case_bool_decide as Ho; [split; [done|]; subst o; apply Hr; by left|].
      destruct (below_ancestor (generation k) (generation info)) eqn:Eb; apply IHn; (split; [done|]); (split; [done|]).
      * split; [intros; apply Hr; by right|]. intros Hs. rewrite <- (app_nil_r pending). eapply closed_stamp; eauto.
      * split; [|intros Hs; eapply closed_stamp; eauto]. intros p. rewrite in_app_iff. intros [Hp|Hp]; [apply Hr; by right|].
        eapply rtc_l; [by eapply law_parents|]. apply Hr. by left.
    + destruct shallow eqn:Esh; [|split; [by eapply blind_Inv; [..|exact Hl']|done]].
      apply IHp. split; [done|]. split; [done|]. split; [intros; apply Hr; by right|]. congruence.
    + split; [by eapply blind_Inv; [..|exact Hl']|done].
Qed.
End Walk.

Lemma next_query_spec (l : Lad) :
  Inv l -> Inv (next_query l).2 /\ graph_query (next_query l).2 = (next_query l).1 /\ 0 < (next_query l).1 /\ forall x, ~ stamped (next_query l).1 (next_query l).2 x.
Proof.
  intros Hl. pose proof (inv_query l Hl) as Hb. unfold next_query, wrapping_succ, wrapping_add.
  destruct (decide (graph_query l = u64_MAX)) as [Heq|Hne].
  - rewrite Heq. replace ((u64_MAX + 1) mod (u64_MAX + 1) =? 0) with true by (symmetry; apply Z.eqb_eq, Z.mod_same; unfold u64_MAX; lia). cbn [fst snd].
    assert (Hc : forall x c d, clear_commit_data (default ∅ (graph l)) !! x = Some (c, d) -> graph_lookup x = Some (Some c) /\ d = 0).
    { intros x c d. unfold clear_commit_data. rewrite lookup_fmap_Some. intros ([c' d'] & [= <- <-] & Hx). by destruct (inv_graph l Hl _ _ _ Hx). }
    split; [|split; [done|split; [lia|]]].
    + destruct Hl as [H1 H2 H3 H4 H5]. split; cbn; auto; [|unfold u64_MAX; lia]. intros x c d Hx. destruct (Hc _ _ _ Hx). split; [done|lia].
    + intros x [c Hx]. apply Hc in Hx as [_ ?]. lia.
  - rewrite Z.mod_small by (unfold u64_MAX in *; lia). destruct (Z.eqb_spec (graph_query l + 1) 0); [lia|]. cbn [fst snd].
    split; [|split; [done|split; [lia|]]].
    + destruct Hl as [H1 H2 H3 H4 H5]. split; cbn; auto; [|lia]. intros x c d Hx. destruct (H1 _ _ _ Hx). split; [done|lia].
    + intros x [c Hx]. destruct (inv_graph l Hl _ _ _ Hx) as [_ ?]. lia.
Qed.

Lemma insert_commit_spec a :
  triple Inv (insert_commit a) (fun r l => Inv l /\ match r with Some (Some (k, _)) => graph_lookup a = Some (Some k) | _ => True end).
Proof.
  intros l Hl. pose proof (inv_query l Hl) as Hb. unfold insert_commit, get_or_insert_commit. destruct (default ∅ (graph l) !! a) as [[k s]|] eqn:Eg.
  - destruct (inv_graph l Hl _ _ _ Eg) as [Hk Hs]. split; [|done]. apply insert_ok; auto; lia.
  - destruct (graph_lookup a) as [[k|]|] eqn:Ek; (split; [|done]); [apply insert_ok; auto; lia|by apply Inv_same_graph..].
Qed.

Lemma triple_note_none {A} (Q : option A -> Lad -> Prop) : (forall l, Inv l -> Q None l) -> triple Inv (_ ← note_unreadable_object; mret None) Q.
Proof. intros HQ. eapply triple_bind; [apply triple_note, blind_Inv|]. intros ?. by apply triple_ret. Qed.

Lemma test_ancestry_graph_sound a d : triple Inv (test_ancestry_graph a d) (walked a d).
Proof.
  unfold test_ancestry_graph. eapply triple_bind; [apply insert_commit_spec|]. intros [[[k s]|]|].
  2, 3: eapply triple_pre; [apply triple_note_none; by split|by intros ? []].
  apply triple_assume. intros Hk l Hl. unfold mbind, ST_bind. destruct (next_query_spec l Hl) as (H1 & H2 & H3 & H4).
  destruct (next_query l) as [q l2]. cbn [fst snd] in *. apply (walk_sound a d k q Hk H3). split; [done|]. split; [done|].
  split; [intros p [<-|[]]; done|]. intros _. split; [right; by left|]. intros x k' Hx. by apply H4 in Hx.
Qed.

Definition right_answer (a d : oid) (answer : option bool) (l : Lad) : Prop :=
  Inv l /\ match answer with Some true => anc a d | Some false => shallow = false /\ ~ anc a d | None => True end.

Lemma test_ancestry_sound a d : triple Inv (test_ancestry a d) (right_answer a d).
Proof.
  unfold test_ancestry. eapply triple_bind; [apply triple_count, blind_Inv|]. intros ?.
  destruct (find_commit d), (find_commit a); try (apply triple_note_none; by split).
  eapply triple_bind; [apply test_ancestry_graph_sound|]. intros [[|]|]; apply triple_ret; intros l [Hl Ha]; split; try done.
  destruct shallow; [done|]. split; [done|]. by apply Ha.
Qed.

Lemma Inv_ancestry (l : Lad) a d answer : right_answer a d answer l -> Inv (set_ancestry (a, d) answer l).
Proof.
  intros [[H1 H2 H3 H4 H5] Ha]. split; cbn; auto. intros a' d' x. rewrite lookup_insert_Some. intros [[Heq Hx]|[_ Hx]]; [|by apply H3]. simplify_eq. by destruct x.
Qed.

(** Every ancestry answer of a ladder is right, whatever its memos hold. *)
Lemma is_ancestor_or_equal_oid_sound a d : triple Inv (is_ancestor_or_equal_oid a d) (right_answer a d).
Proof.
  unfold is_ancestor_or_equal_oid. eapply triple_bind; [apply triple_exhausted, blind_Inv|]. intros [|]; [apply triple_ret; by split|].
  case_bool_decide as Heq; [subst; apply triple_ret; by split|]. eapply triple_bind; [apply triple_get|]. intros [answer|].
  - apply triple_ret. intros l [Hl Hc]. split; [done|]. destruct answer as [x|]; [|done]. specialize (inv_cache l Hl a d x (eq_sym Hc)). by destruct x.
  - eapply triple_pre; [|by intros l [Hl _]; exact Hl]. eapply triple_bind; [apply test_ancestry_sound|]. intros answer.
    apply (triple_bind _ _ _ (fun _ => right_answer a d answer)); [|intros _; by apply triple_ret].
    intros l Hl. split; [by apply Inv_ancestry|]. by destruct Hl.
Qed.

(** ** The candidate window *)
Lemma scan_walk_spec items : triple Inv (scan_walk items) (fun r l => Inv l /\ match r with Some ids => Some <$> ids = items | None => True end).
Proof.
  induction items as [|item items IH]; cbn [scan_walk]; [by apply triple_ret|]. eapply triple_bind; [apply triple_exhausted, blind_Inv|].
  intros [|]; [by apply triple_ret|]. destruct item as [o|]; [|apply triple_note_none; done]. eapply triple_bind; [apply IH|].
  intros [ids|]; apply triple_ret; intros l [Hl Hi]; split; try done. cbn. by rewrite <- Hi.
Qed.

Lemma window_truncated_spec items : triple Inv (window_truncated items) (fun t l => Inv l /\ (t = false -> (length items <= CANDIDATE_WINDOW)%nat)).
Proof.
  unfold window_truncated. destruct (items !! CANDIDATE_WINDOW) as [[c|]|] eqn:Ei; [by apply triple_ret| |].
  - eapply triple_bind; [apply triple_note, blind_Inv|]. intros ?. by apply triple_ret.
  - apply triple_ret. intros l Hl. split; [done|]. intros _. by apply lookup_ge_None in Ei.
Qed.

Lemma candidate_window_spec : triple Inv candidate_window (fun r l => Inv l /\ match r with Some w => window_ok w | None => True end).
Proof.
  unfold candidate_window. eapply triple_bind; [apply triple_get|]. intros [w|].
  { apply triple_ret. intros l [Hl Hw]. split; [done|]. by apply (inv_window l Hl). }
  eapply triple_pre; [|by intros l [Hl _]; exact Hl]. eapply triple_bind; [apply triple_count, blind_Inv|]. intros ?.
  destruct (from_hex head) as [tip|] eqn:Et; [|by apply triple_ret]. destruct (rev_walk tip) as [items|] eqn:Ew; [|apply triple_note_none; done].
  eapply triple_bind; [apply scan_walk_spec|]. intros [ids|]; [|apply triple_ret; by intros l [Hl _]]. apply triple_assume. intros Hids.
  eapply (triple_bind _ _ _ (fun t l => Inv l /\ (t = false -> (length items <= CANDIDATE_WINDOW)%nat))).
  - case_match eqn:El; [apply window_truncated_spec|]. apply triple_ret. intros l Hl. split; [done|]. intros _. apply Nat.eqb_neq in El.
    apply (f_equal length) in Hids. rewrite length_fmap, length_take in Hids. lia.
  - intros t. apply triple_assume. intros Ht. assert (window_ok (mkWindow ids t)) as Hw by (exists tip, items; done).
    apply (triple_bind _ _ _ (fun _ => Inv)); [|intros _; by apply triple_ret]. intros l [H1 H2 H3 H4 H5]. split; cbn; auto. by intros w [= <-].
Qed.

Lemma window_ok_commits w w' : window_ok w -> window_ok w' -> commits w = commits w'.
Proof. intros (t & i & H1 & H2 & H3 & _) (t' & i' & H1' & H2' & H3' & _). apply (inj (fmap Some)). congruence. Qed.

(** A window that was not cut off holds every reachable commit. *)
Lemma window_ok_all w tip c : shallow = false -> from_hex head = Some tip -> window_ok w -> truncated w = false -> anc c tip -> In c (commits w).
Proof.
  intros Hs Ht (t & items & H1 & H2 & H3 & H4) Htr Hc. replace t with tip in * by congruence. rewrite take_ge in H3 by auto.
  assert (~ In None items) as Hn. { rewrite <- H3. intros (x & Hx & _)%in_map_iff. done. }
  pose proof (law_walk_all _ _ _ Hs H2 Hn Hc) as Hin. rewrite <- H3 in Hin. apply in_map_iff in Hin as (x & [= ->] & Hx). done.
Qed.
Lemma window_ok_reachable w tip c : from_hex head = Some tip -> window_ok w -> In c (commits w) -> anc c tip.
Proof.
  intros Ht (t & items & H1 & H2 & H3 & _) Hc. replace t with tip in * by congruence. eapply law_walk; [done|].
  apply (in_map Some) in Hc. change (map Some (commits w)) with (Some <$> commits w) in Hc. rewrite H3 in Hc. rewrite <- (take_drop CANDIDATE_WINDOW items).
  apply in_app_iff. by left.
Qed.

(** ** The rungs *)
Definition decides (P : Prop) (r : result ResolveObstacle bool) : Prop := match r with Ok b => if b : bool then P else ~ P | Err _ => True end.
Definition unique_in (P : oid -> Prop) (candidates : list oid) : Prop :=
  exists l1 c l2, candidates = l1 ++ c :: l2 /\ P c /\ Forall (fun c => ~ P c) (l1 ++ l2).

Lemma match_loop_spec P (matches : oid -> Act (result ResolveObstacle bool)) candidates found :
  (forall c, triple Inv (matches c) (fun r l => Inv l /\ decides (P c) r)) ->
  triple Inv (match_loop matches candidates found)
    (fun r l => Inv l /\
       match r with
       | Exactly => if found : bool then Forall (fun c => ~ P c) candidates else unique_in P candidates
       | NoMatch => found = false /\ Forall (fun c => ~ P c) candidates
       | _ => True
       end).
Proof.
  intros Hm. revert found. induction candidates as [|c candidates IH]; intros found; cbn [match_loop].
  - eapply triple_bind; [apply triple_exhausted, blind_Inv|]. intros [|]; apply triple_ret; intros l Hl; (split; [done|]); [done|].
    destruct found; [|split]; constructor.
  - eapply triple_bind; [apply triple_exhausted, blind_Inv|]. intros [|]; [by apply triple_ret|].
    eapply triple_bind; [apply triple_count, blind_Inv|]. intros ?. eapply triple_bind; [apply Hm|]. intros [[|]|[|]]; cbn [decides].
    + apply triple_assume. intros Hc. destruct found; [by apply triple_ret|]. eapply triple_post; [apply IH|].
      intros [] l [Hl Hr]; (split; [done|]); try done; [|by destruct Hr]. exists [], c, candidates. done.
    + apply triple_assume. intros Hc. eapply triple_post; [apply IH|]. intros [] l [Hl Hr]; (split; [done|]); try done.
      * destruct found; [by constructor|]. destruct Hr as (l1 & x & l2 & -> & Hx & Hn). exists (c :: l1), x, l2. split; [done|]. split; [done|]. by constructor.
      * destruct Hr. split; [done|]. by constructor.
    + apply triple_ret. by intros l [Hl _].
    + eapply triple_bind; [eapply triple_pre; [apply triple_note, blind_Inv|by intros l [Hl _]]|]. intros ?. by apply triple_ret.
Qed.

Lemma match_candidates_spec P (matches : oid -> Act (result ResolveObstacle bool)) :
  (forall c, triple Inv (matches c) (fun r l => Inv l /\ decides (P c) r)) ->
  triple Inv (match_candidates matches)
    (fun r l => Inv l /\
       match r with
       | Exactly => exists w, window_ok w /\ unique_in P (commits w)
       | NoMatch => exists w, window_ok w /\ Forall (fun c => ~ P c) (commits w)
       | _ => True
       end).
Proof.
  intros Hm. unfold match_candidates. eapply triple_bind; [apply candidate_window_spec|]. intros [w|]; [|apply triple_ret; by intros l [Hl _]].
  apply triple_assume. intros Hw. eapply triple_post; [by apply match_loop_spec|]. intros [] l [Hl Hr]; (split; [done|]); try done; exists w; [done|].
  by destruct Hr.
Qed.

Lemma cached_patch_id_spec c : triple Inv (cached_patch_id c) (fun r l => Inv l /\ forall pid, r = Ok pid -> patch_of c = Ok pid).
Proof.
  unfold cached_patch_id. eapply triple_bind; [apply triple_get|]. intros [pid|].
  - apply triple_ret. intros l [Hl Hc]. split; [done|]. intros pid' [= <-]. by apply (inv_patch l Hl).
  - eapply triple_pre; [|by intros l [Hl _]; exact Hl]. eapply triple_bind; [apply triple_count, blind_Inv|]. intros ?.
    eapply triple_bind; [apply triple_budgeted, blind_Inv|]. intros r. apply triple_assume. intros [b Hb]. destruct r as [pid|e]; [|apply triple_ret; by intros l Hl].
    symmetry in Hb. apply compute_patch_id_spec in Hb. apply (triple_bind _ _ _ (fun _ => Inv)); [|intros ?; apply triple_ret; intros l Hl; split; [done|]; congruence].
    intros l [H1 H2 H3 H4 H5]. split; cbn; auto. intros c' v. rewrite lookup_insert_Some. intros [[<- <-]|[_ Hx]]; auto.
Qed.

Definition patch_replay (paths : list string) (stored : string) (c : oid) : Prop := touches c paths = Ok true /\ patch_of c = Ok (Some stored).
Definition tree_replay (t : oid) (c : oid) : Prop := find_commit c ≫= tree_id = Some t.

Lemma patch_candidate_spec paths stored c : triple Inv (patch_candidate paths stored c) (fun r l => Inv l /\ decides (patch_replay paths stored c) r).
Proof.
  unfold patch_candidate, try_bind. eapply triple_bind; [apply triple_budgeted, blind_Inv|]. intros r. apply triple_assume. intros [b Hb].
  destruct r as [[|]|e]; [| |by apply triple_ret].
  - symmetry in Hb. apply commit_touches_spec in Hb. eapply triple_bind; [apply cached_patch_id_spec|]. intros [pid|e]; [|apply triple_ret; by intros l [Hl _]].
    apply triple_ret. intros l [Hl Hp]. split; [done|]. specialize (Hp pid eq_refl). cbn. unfold patch_replay. rewrite Hp. case_bool_decide as Heq; [by subst|].
    intros [_ [= ?]]. done.
  - symmetry in Hb. apply commit_touches_spec in Hb. apply triple_ret. intros l Hl. split; [done|]. cbn. intros [Ht _]. congruence.
Qed.
Lemma tree_candidate_spec t c : triple Inv (tree_candidate t c) (fun r l => Inv l /\ decides (tree_replay t c) r).
Proof.
  apply triple_ret. intros l Hl. split; [done|]. unfold tree_replay. destruct (find_commit c ≫= tree_id) as [t'|]; [|done]. cbn.
  case_bool_decide; congruence.
Qed.

(** What a capture stores that this build can interpret, as a test of candidate commits. *)
Inductive rung_of (cap : AnchorCapture) : (oid -> Prop) -> Prop :=
| rung_patch stored : stored_patch_id cap = (Some stored, false) -> rung_of cap (patch_replay (changed_paths cap) stored)
| rung_tree text t : tree_oid cap = Some text -> from_hex text = Some t -> rung_of cap (tree_replay t).
Definition interpretable (cap : AnchorCapture) : Prop := (stored_patch_id cap).2 = false /\ forall text, tree_oid cap = Some text -> is_Some (from_hex (oid := oid) text).

Definition fallback (capture : option AnchorCapture) (r : WindowMatch) : Prop :=
  match r with
  | Exactly => exists cap P w, capture = Some cap /\ rung_of cap P /\ window_ok w /\ unique_in P (commits w)
  | NoMatch => forall cap, capture = Some cap -> interpretable cap /\ forall P, rung_of cap P -> exists w, window_ok w /\ Forall (fun c => ~ P c) (commits w)
  | _ => True
  end.

(** The tree rung, after a patch rung that found nothing or could not be read. *)
Lemma tree_rung_spec cap patch_unreadable :
  (patch_unreadable = false -> (stored_patch_id cap).2 = false /\ forall stored, (stored_patch_id cap).1 = Some stored ->
     exists w, window_ok w /\ Forall (fun c => ~ patch_replay (changed_paths cap) stored c) (commits w)) ->
  triple Inv (tree_rung cap patch_unreadable) (fun r l => Inv l /\ fallback (Some cap) r).
Proof.
  intros Hpatch. unfold tree_rung.
  assert (Hend : forall Q : Prop, (Q -> patch_unreadable = false -> fallback (Some cap) NoMatch) -> Q -> fallback (Some cap) (if patch_unreadable then Unreadable else NoMatch)).
  { intros Q HQ Hq. destruct patch_unreadable; [done|]. by apply HQ. }
  destruct (tree_oid cap) as [text|] eqn:Et.
  - destruct (from_hex text) as [t|] eqn:Eh; [|by apply triple_ret]. eapply triple_bind; [apply match_candidates_spec, (tree_candidate_spec t)|].
    intros m. apply triple_assume. intros Hm. apply triple_ret. intros l Hl. split; [done|]. destruct m; try done.
    + destruct Hm as (w & Hw & Hu). exists cap, (tree_replay t), w. split; [done|]. split; [by eapply rung_tree|]. done.
    + apply (Hend True); [|done]. intros _ Hf cap' [= <-]. destruct (Hpatch Hf) as [Hi Hp]. split; [split; [done|]; intros text' Ht'; rewrite Et in Ht'; simplify_eq; eauto|].
      intros P [stored Hs|text' t' Ht' Ht'']; [apply Hp; by rewrite Hs|]. simplify_eq. done.
  - apply triple_ret. intros l Hl. split; [done|]. apply (Hend True); [|done]. intros _ Hf cap' [= <-]. destruct (Hpatch Hf) as [Hi Hp].
    split; [split; [done|]; congruence|]. intros P [stored Hs|text' t' Ht' Ht'']; [apply Hp; by rewrite Hs|congruence].
Qed.

Lemma match_in_window_spec capture : triple Inv (match_in_window capture) (fun r l => Inv l /\ fallback capture r).
Proof.
  unfold match_in_window. destruct capture as [cap|]; [|by apply triple_ret]. pose proof (tree_rung_spec cap) as Htree.
  destruct (stored_patch_id cap) as [[stored|] unreadable] eqn:Es; [|apply Htree; intros ->; by split].
  assert (unreadable = false) as -> by (unfold stored_patch_id in Es; repeat case_match; by simplify_eq).
  eapply triple_bind; [apply match_candidates_spec, (patch_candidate_spec (changed_paths cap) stored)|]. intros m. apply triple_assume. intros Hm.
  destruct m; try by apply triple_ret.
  - apply triple_ret. intros l Hl. split; [done|]. destruct Hm as (w & Hw & Hu). exists cap, (patch_replay (changed_paths cap) stored), w.
    split; [done|]. split; [by apply rung_patch|]. done.
  - apply Htree. intros _. split; [done|]. by intros ? [= <-].
  - by apply Htree.
Qed.

(** ** One anchored commit *)
Definition current (o : string) (capture : option AnchorCapture) : Prop :=
  exists tip, from_hex head = Some tip /\
    ((exists a, from_hex o = Some a /\ anc a tip) \/
     (exists cap P w c, capture = Some cap /\ rung_of cap P /\ window_ok w /\ unique_in P (commits w) /\ P c /\ anc c tip)).
Definition anchor_gone (o : string) (capture : option AnchorCapture) : Prop :=
  exists tip a, from_hex head = Some tip /\ from_hex o = Some a /\ ~ anc a tip /\
    forall cap, capture = Some cap -> interpretable cap /\ forall P c, rung_of cap P -> anc c tip -> ~ P c.
Definition commit_resolved (o : string) (capture : option AnchorCapture) (r : CommitResolution) : Prop :=
  match r with Reachable => current o capture | NotReachable => anchor_gone o capture | ResUncertain => True end.

Lemma window_scan_complete_spec capture :
  triple Inv (window_scan_complete capture)
    (fun r l => Inv l /\ (r = true -> forall cap P, capture = Some cap -> rung_of cap P -> exists w, window_ok w /\ truncated w = false)).
Proof.
  unfold window_scan_complete. destruct (match capture with Some c => _ | None => false end) eqn:Ed; cbn [negb].
  - eapply triple_bind; [apply candidate_window_spec|]. intros w. apply triple_ret. intros l [Hl Hw]. split; [done|]. destruct w as [w|]; [|done].
    intros Ht%negb_true_iff cap P _ _. by exists w.
  - apply triple_ret. intros l Hl. split; [done|]. intros _ cap P -> Hr. apply orb_false_iff in Ed as [Hp Ht]. destruct Hr as [stored Hs|text t Hx _].
    + unfold stored_patch_id in Hs. by destruct (patch_id cap).
    + by rewrite Hx in Ht.
Qed.


Lemma unique_in_member P candidates : unique_in P candidates -> exists c, In c candidates /\ P c.
Proof. intros (l1 & c & l2 & -> & Hc & _). exists c. split; [|done]. apply in_app_iff. right. by left. Qed.

Lemma resolve_commit_spec o capture : triple Inv (resolve_commit o capture) (fun r l => Inv l /\ commit_resolved o capture r).
Proof.
  unfold resolve_commit. destruct (from_hex head) as [tip|] eqn:Et; [|by apply triple_ret].
  eapply (triple_bind _ _ _ (fun _ => Inv)); [case_match; [apply triple_note, blind_Inv|by apply triple_ret]|]. intros [].
  eapply (triple_bind _ _ _ (fun r l => Inv l /\ match r with
    | Some (Some true) => exists a, from_hex o = Some a /\ anc a tip
    | Some (Some false) => exists a, from_hex o = Some a /\ shallow = false /\ ~ anc a tip
    | _ => True end)).
  - destruct (from_hex o) as [anchor|]; [|by apply triple_ret]. destruct (Scope.given (find_commit anchor)); [|by apply triple_ret].
    eapply triple_bind; [apply is_ancestor_or_equal_oid_sound|]. intros r. apply triple_ret. intros l [Hl Ha]. split; [done|]. destruct r as [[|]|]; eauto.
  - intros ancestry. apply triple_assume. intros Ha.
    assert (Hrest : triple Inv (m ← match_in_window capture; match m with
        | Exactly => mret Reachable
        | Ambiguous | OutOfBudget | Unreadable => mret ResUncertain
        | NoMatch => if match ancestry with Some (Some false) => true | _ => false end
            then complete ← window_scan_complete capture; mret (if complete : bool then NotReachable else ResUncertain) else mret ResUncertain
        end) (fun r l => Inv l /\ commit_resolved o capture r)).
    { eapply triple_bind; [apply match_in_window_spec|]. intros m. apply triple_assume. intros Hm. destruct m; try by apply triple_ret.
      - apply triple_ret. intros l Hl. split; [done|]. destruct Hm as (cap & P & w & -> & Hr & Hw & Hu). exists tip. split; [done|]. right.
        destruct (unique_in_member _ _ Hu) as (c & Hin & Hc). exists cap, P, w, c. repeat split; try done. by eapply window_ok_reachable.
      - destruct ancestry as [[[|]|]|]; try by apply triple_ret. destruct Ha as (a & Hoa & Hs & Hna). eapply triple_bind; [apply window_scan_complete_spec|].
        intros complete. apply triple_assume. intros Hcomplete. apply triple_ret. intros l Hl. split; [done|]. destruct complete; [|done].
        exists tip, a. split; [done|]. split; [done|]. split; [done|]. intros cap Hcap. destruct (Hm cap Hcap) as [Hi Hno]. split; [done|]. intros P c Hr Hc HP.
        destruct (Hno P Hr) as (w & Hw & Hnone). destruct (Hcomplete eq_refl cap P) as (w' & Hw' & Htr); [done..|].
        rewrite (window_ok_commits _ _ Hw Hw'), Forall_forall in Hnone. apply (Hnone c); [|done]. by eapply list_elem_of_In, window_ok_all. }
    destruct ancestry as [[[|]|]|]; try exact Hrest. apply triple_ret. intros l Hl. split; [done|]. exists tip. split; [done|]. by left.
Qed.

(** ** Conditions *)
Definition condition_judged (c : GitCondition) (r : GitConditionOutcome) : Prop :=
  match c, r with
  | ReachableFrom o captures, Holds => current o (captures !! o)
  | ReachableFrom o captures, DoesNotHold historical => historical = false /\ anchor_gone o (captures !! o)
  | ReachableBetween s e captures, Holds => current s (captures !! s) /\ anchor_gone e (captures !! e)
  | ReachableBetween s e captures, DoesNotHold historical => if historical : bool then current e (captures !! e) else anchor_gone s (captures !! s)
  | _, CondUncertain => True
  end.

Lemma evaluate_spec c : triple Inv (evaluate c) (fun r l => Inv l /\ condition_judged c r).
Proof.
  unfold evaluate. destruct c as [o captures|s e captures].
  - eapply triple_bind; [apply resolve_commit_spec|]. intros r. apply triple_ret. intros l [Hl Hr]. split; [done|]. by destruct r.
  - eapply triple_bind; [apply resolve_commit_spec|]. intros re. apply triple_assume. intros He. destruct re.
    { by apply triple_ret. }
    all: eapply triple_bind; [apply resolve_commit_spec|]; intros rs; apply triple_ret; intros l [Hl Hs]; (split; [done|]); by destruct rs.
Qed.

Lemma ladder_new_Inv b : Inv (ladder_new b).
Proof. split; cbn; try done. Qed.

Lemma reached_Inv b l : reached b l -> Inv l.
Proof.
  induction 1 as [|l r _ IH]; [apply ladder_new_Inv|]. revert l IH. change (triple Inv (serve r) (fun _ => Inv)). destruct r as [c|a d| |]; cbn [serve].
  - eapply triple_bind; [apply evaluate_spec|]. intros ?. apply triple_ret. by intros l [Hl _].
  - unfold is_ancestor_or_equal. destruct (from_hex a), (from_hex d); (eapply triple_bind; [|intros ?; apply triple_ret; intros l Hl; exact Hl]); try by apply triple_ret.
    eapply triple_post; [apply is_ancestor_or_equal_oid_sound|]. by intros ? l [Hl _].
  - eapply triple_bind; [apply triple_moved, blind_Inv|]. intros ?. by apply triple_ret.
  - eapply triple_post; [apply triple_budgeted, blind_Inv|]. by intros ? l [Hl _].
Qed.

(** Ancestry between commit names. *)
Definition named_anc (a d : string) : Prop := exists x y, from_hex a = Some x /\ from_hex d = Some y /\ anc x y.
#[export] Instance named_anc_trans : Transitive named_anc.
Proof. intros a b c (x & y & Hx & Hy & H1) (y' & z & Hy' & Hz & H2). exists x, z. repeat split; try done. simplify_eq. by etrans. Qed.

(** The ladder is a sound oracle for scope predicates, in any state it reaches. *)
Lemma ladder_oracle_sound b l : reached b l -> ScopeSound.sound_oracle named_anc (fun a d => (is_ancestor_or_equal a d l).1).
Proof.
  intros Hl%reached_Inv a d x Hx. unfold is_ancestor_or_equal in Hx. destruct (from_hex a) as [o|] eqn:Ea; [|done]. destruct (from_hex d) as [t|] eqn:Ed; [|done].
  destruct (is_ancestor_or_equal_oid_sound o t l Hl) as [_ Hr]. rewrite Hx in Hr. destruct x; [by exists o, t|].
  intros (o' & t' & Ho' & Ht' & Hanc). simplify_eq. by destruct Hr.
Qed.

(** ** Answers without obstacles *)
Section Decided.
Context (X : gset oid).
Context (Hquiet : forall b, interrupt b = false -> (is_exhausted b).1 = false /\ interrupt (is_exhausted b).2 = false).
Context (Hread : forall c, c ∈ X -> exists k, graph_lookup c = Some (Some k) /\ forall p, In p (parents k) -> p ∈ X).

Definition quiet_ladder (l : Lad) : Prop := interrupt (budget l) = false.

Lemma exhausted_quiet (l : Lad) : quiet_ladder l -> (exhausted l).1 = false /\ quiet_ladder (exhausted l).2.
Proof. unfold exhausted, budgeted, quiet_ladder. intros Hl. destruct (Hquiet _ Hl) as [H1 H2]. destruct (is_exhausted (budget l)) as [x b]. done. Qed.

Lemma visit_found q o (l : Lad) k : Inv l -> graph_lookup o = Some (Some k) -> exists seen, (visit o q l).1 = Some (Some (k, seen)).
Proof.
  intros Hl Hk. unfold visit, get_or_insert_commit. destruct (default ∅ (graph l) !! o) as [[c d]|] eqn:Eg.
  - destruct (inv_graph l Hl _ _ _ Eg) as [Hc _]. replace c with k by congruence. by eexists.
  - rewrite Hk. by eexists.
Qed.
Lemma visit_quiet q o (l : Lad) : quiet_ladder l -> quiet_ladder (visit o q l).2.
Proof. unfold visit, quiet_ladder. by destruct (get_or_insert_commit _ _ _). Qed.

(** Each new commit of the set spends one step, so a cap above its size is never met. *)
Lemma walk_decides a (k : CommitInfo oid) q n pending (l : Lad) (V : gset oid) :
  0 < q -> Inv l -> graph_query l = q -> quiet_ladder l -> (forall x, x ∈ V <-> stamped q l x) -> V ⊆ X -> (forall p, In p pending -> p ∈ X) ->
  (size X < n + size V)%nat -> exists x, (walk_ancestry n a (generation k) q pending l).1 = Some x.
Proof.
  intros Hq. revert pending l V. induction n as [|n IHn]; intros pending; induction pending as [|o pending IHp]; intros l V Hl Hlq Hb HV HVX Hpend Hn; try by eexists.
  - apply subseteq_size in HVX. cbn in Hn. lia.
  - rewrite walk_cons. unfold mbind, ST_bind. destruct (exhausted_quiet l Hb) as [He Hb1].
    assert (Hl1 : Inv (exhausted l).2) by by apply (triple_exhausted Inv blind_Inv l Hl).
    assert (Hst1 : forall x, stamped q (exhausted l).2 x <-> stamped q l x) by (intros x; unfold exhausted, budgeted; by destruct (is_exhausted (budget l))).
    assert (Hq1 : graph_query (exhausted l).2 = q) by (unfold exhausted, budgeted; by destruct (is_exhausted (budget l))).
    destruct (exhausted l) as [x l1]. cbn [fst snd] in *. subst x. destruct (Hread o) as (ko & Hko & Hpar); [apply Hpend; by left|].
    destruct (visit_spec q o l1 Hl1 Hq1 Hq) as (Hl2 & Hq2 & Hv). destruct (visit_found q o l1 ko Hl1 Hko) as [seen Hs]. pose proof (visit_quiet q o l1 Hb1) as Hb2.
    destruct (visit o q l1) as [found l2]. cbn [fst snd] in *. subst found. destruct Hv as (_ & Hseen & Hst). destruct seen.
    + apply (IHp l2 V); auto; [|intros p Hp; apply Hpend; by right]. intros x. rewrite HV, Hst, Hst1.
      split; [by left|]. intros [?| ->]; [done|]. by apply Hst1, Hseen.
    + case_bool_decide; [by eexists|].
      assert (HV2 : forall x, x ∈ {[o]} ∪ V <-> stamped q l2 x) by (intros x; rewrite Hst, Hst1, <- HV; set_solver).
      assert (HX2 : {[o]} ∪ V ⊆ X) by (apply union_subseteq; split; [|done]; apply singleton_subseteq_l, Hpend; by left).
      assert (Hsz : (size X < n + size ({[o]} ∪ V))%nat).
      { rewrite size_union; [rewrite size_singleton; lia|]. apply disjoint_singleton_l. rewrite HV, <- Hst1. intros Hx%Hseen. done. }
      destruct (below_ancestor (generation ko) (generation k)); (eapply IHn; [done|done|done|exact HV2|done| |done]); intros p; rewrite ?in_app_iff.
      * intros Hp. apply Hpend. by right.
      * intros [Hp|Hp]; [apply Hpend; by right|by apply Hpar].
Qed.

Lemma next_query_quiet (l : Lad) : quiet_ladder l -> quiet_ladder (next_query l).2.
Proof. unfold next_query, quiet_ladder. by case_match. Qed.

Lemma test_ancestry_decides a d (l : Lad) :
  shallow = false -> Z.of_nat (size X) < ANCESTRY_WALK_CAP -> d ∈ X -> is_Some (find_commit a) -> is_Some (find_commit d) ->
  (exists k, graph_lookup a = Some (Some k)) -> Inv l -> quiet_ladder l -> exists x, (test_ancestry a d l).1 = Some x.
Proof.
  intros Hs Hcap Hd [ca Ha] [cd Hcd] [k Hk] Hl Hb. unfold test_ancestry, mbind, ST_bind. cbn [count_graph_operation modify]. rewrite Ha, Hcd.
  assert (Hcap' : (size X < Z.to_nat ANCESTRY_WALK_CAP)%nat) by lia. revert Hcap'. unfold test_ancestry_graph.
  generalize (Z.to_nat ANCESTRY_WALK_CAP) as cap. intros cap Hcap'. clear Hcap.
  assert (Hl1 : Inv (add_operation l)) by by apply (triple_count Inv blind_Inv l Hl). unfold mbind, ST_bind.
  destruct (insert_commit_spec a (add_operation l) Hl1) as [Hl2 Hk2].
  assert (Hf : exists s, (insert_commit a (add_operation l)).1 = Some (Some (k, s)) /\ quiet_ladder (insert_commit a (add_operation l)).2).
  { unfold insert_commit, get_or_insert_commit. destruct (default ∅ (graph (add_operation l)) !! a) as [[c s]|] eqn:Eg.
    - destruct (inv_graph _ Hl1 _ _ _ Eg) as [Hc _]. exists s. by simplify_eq.
    - rewrite Hk. by eexists. }
  destruct Hf as (s & Hf & Hb2). destruct (insert_commit a (add_operation l)) as [found l2]. cbn [fst snd] in *. subst found.
  destruct (next_query_spec l2 Hl2) as (H1 & H2 & H3 & H4). pose proof (next_query_quiet l2 Hb2) as Hb3. destruct (next_query l2) as [q l3]. cbn [fst snd] in *.
  destruct (walk_decides a k q cap [d] l3 ∅) as [x Hx]; auto.
  - intros x. split; [set_solver|]. by intros ?%H4.
  - set_solver.
  - intros p [<-|[]]. done.
  - rewrite size_empty. lia.
  - destruct (walk_ancestry cap a (generation k) q [d] l3) as [r l4]. cbn in Hx. subst r. rewrite Hs. by destruct x; eexists.
Qed.

Lemma is_ancestor_or_equal_oid_decides a d (l : Lad) :
  shallow = false -> Z.of_nat (size X) < ANCESTRY_WALK_CAP -> d ∈ X -> is_Some (find_commit a) -> is_Some (find_commit d) ->
  (exists k, graph_lookup a = Some (Some k)) -> Inv l -> quiet_ladder l -> ancestry_cache l !! (a, d) = None -> exists x, (is_ancestor_or_equal_oid a d l).1 = Some x.
Proof.
  intros Hs Hcap Hd Ha Hcd Hk Hl Hb Hc. unfold is_ancestor_or_equal_oid, mbind, ST_bind. destruct (exhausted_quiet l Hb) as [He Hb1].
  assert (Hl1 : Inv (exhausted l).2) by by apply (triple_exhausted Inv blind_Inv l Hl).
  assert (Hc1 : ancestry_cache (exhausted l).2 = ancestry_cache l) by (unfold exhausted, budgeted; by destruct (is_exhausted (budget l))).
  destruct (exhausted l) as [x l1]. cbn [fst snd] in *. subst x. case_bool_decide; [by eexists|]. cbn [gets]. rewrite Hc1, Hc.
  destruct (test_ancestry_decides a d l1) as [x Hx]; auto. destruct (test_ancestry a d l1) as [r l2]. cbn in *. eauto.
Qed.

Lemma resolve_commit_decides o a tip (l : Lad) :
  shallow = false -> Z.of_nat (size X) < ANCESTRY_WALK_CAP -> from_hex head = Some tip -> from_hex o = Some a -> tip ∈ X -> is_Some (find_commit a) ->
  is_Some (find_commit tip) -> (exists k, graph_lookup a = Some (Some k)) -> Inv l -> quiet_ladder l -> ancestry_cache l !! (a, tip) = None ->
  (resolve_commit o None l).1 = Reachable \/ (resolve_commit o None l).1 = NotReachable.
Proof.
  intros Hs Hcap Ht Ho Hd Ha Hcd Hk Hl Hb Hc. unfold resolve_commit. rewrite Ht, Ho. destruct Ha as [ca Ha]. rewrite Ha. unfold mbind, ST_bind. cbn.
  destruct (is_ancestor_or_equal_oid_decides a tip l) as [x Hx]; eauto. destruct (is_ancestor_or_equal_oid a tip l) as [r l2]. cbn in Hx. subst r.
  destruct x; cbn; auto.
Qed.
End Decided.
End History.

(** C21: take a commit history that the git library reports as documented (parents, generation numbers, walks), any
    clock, deadline and flags raised by other threads, and any state a ladder reaches by serving requests. A git
    condition that is judged to hold rests on a commit that is an ancestor of the checked-out head, or on a stored
    patch identity or tree that exactly one commit of the candidate window carries, which is reachable from the head.
    A commit is judged gone only when it is not an ancestor, what was stored of it is interpretable, and no
    commit reachable from the head replays it; a condition is historical only when its end commit is current. The
    answers the ladder gives to scope predicates agree with the ancestry of the history. *)
Theorem resolution_sound {oid tree : Type} `{Countable oid} {G : Git oid tree} {E : BudgetEnv} {SN : Snapshot} (parent_of : oid -> oid -> Prop)
    {GL : GitLaws parent_of} (b : BudgetState) (l : Ladder (oid := oid)) :
  reached b l ->
  (forall c, condition_judged parent_of c (evaluate c l).1) /\
  ScopeSound.sound_oracle (named_anc parent_of) (fun a d => (is_ancestor_or_equal a d l).1).
Proof.
  intros Hl. split; [|by eapply ladder_oracle_sound]. intros c. by apply (evaluate_spec parent_of c l), (reached_Inv parent_of b).
Qed.

(** C22: an ancestry condition is decided, not only judged soundly when it is decided. When the budget is never found
    exhausted, the clone is not shallow, the head's history is readable and holds fewer commits than the cap of the
    walk, and the anchored commit is readable, a condition without stored fallback data holds exactly when
    the anchored commit is an ancestor of the head, and is judged not to hold otherwise. *)
Theorem resolution_decides {oid tree : Type} `{Countable oid} {G : Git oid tree} {E : BudgetEnv} {SN : Snapshot} (parent_of : oid -> oid -> Prop)
    {GL : GitLaws parent_of} (b : BudgetState) (o : string) (captures : gmap string AnchorCapture) (a tip : oid) (X : gset oid) :
  (forall b, interrupt b = false -> (is_exhausted b).1 = false /\ interrupt (is_exhausted b).2 = false) -> interrupt b = false ->
  shallow = false -> from_hex head = Some tip -> from_hex o = Some a -> captures !! o = None ->
  tip ∈ X -> (forall c, c ∈ X -> exists k, graph_lookup c = Some (Some k) /\ forall p, In p (parents k) -> p ∈ X) -> Z.of_nat (size X) < ANCESTRY_WALK_CAP ->
  is_Some (find_commit a) -> is_Some (find_commit tip) -> (exists k, graph_lookup a = Some (Some k)) ->
  ((evaluate (ReachableFrom o captures) (ladder_new b)).1 = Holds /\ rtc parent_of a tip) \/
  ((evaluate (ReachableFrom o captures) (ladder_new b)).1 = DoesNotHold false /\ ~ rtc parent_of a tip).
Proof.
  intros Hquiet Hb Hs Ht Ho Hcap HtX Hread Hsize Ha Hc Hk. pose proof (ladder_new_Inv parent_of b) as Hl.
  pose proof (resolve_commit_decides parent_of X Hquiet Hread o a tip (ladder_new b) Hs Hsize Ht Ho HtX Ha Hc Hk Hl Hb (lookup_empty _)) as Hdec.
  destruct (resolve_commit_spec parent_of o None (ladder_new b) Hl) as [_ Hres]. unfold evaluate, mbind, ST_bind. rewrite Hcap.
  destruct (resolve_commit o None (ladder_new b)) as [r l']. cbn [fst snd] in *. destruct Hdec as [-> | ->]; cbn [commit_resolved] in Hres; [left|right]; (split; [done|]).
  - destruct Hres as (t & Ht' & [(x & Hx & Hanc)|(cap & P & w & c & Hno & _)]); [|done]. by simplify_eq.
  - destruct Hres as (t & x & Ht' & Hx & Hanc & _). by simplify_eq.
Qed.

(** ** A concrete history: 1, 2 and the head 3 in a row, and 4, which replays 3 on top of 1 *)
Module Sample.
Definition oid_number (text : string) : option nat :=
  if bool_decide (text = "1"%string) then Some 1%nat else if bool_decide (text = "2"%string) then Some 2%nat
  else if bool_decide (text = "3"%string) then Some 3%nat else if bool_decide (text = "4"%string) then Some 4%nat
  else if bool_decide (text = "t3"%string) then Some 13%nat else None.
Definition history : list (nat * list nat * nat * nat) := [(1, [], 1, 11); (2, [1], 2, 12); (3, [2], 3, 13); (4, [1], 2, 13)]%nat.
Definition record (c : nat) : option (nat * list nat * nat * nat) := List.find (fun r => Nat.eqb r.1.1.1 c) history.
#[export] Instance git : Git nat nat := {|
  from_hex := oid_number; to_hex := fun _ => EmptyString; as_slice := fun _ => EmptyString; is_null := fun _ => false; kind_code := fun _ => 0;
  find_commit := fun c => (fun r => mkCommit (Some r.2) (Some r.2) r.1.1.2) <$> record c;
  lookup_entry := fun _ _ => Some None; empty_tree := 0%nat; tree_changes := fun _ _ => Some ([], true);
  find_header := fun _ => None; find_blob := fun _ => None;
  rev_walk := fun c => if Nat.eqb c 3 then Some [Some 3; Some 2; Some 1]%nat else None;
  graph_lookup := fun c => Some ((fun r => mkInfo r.1.1.2 (Some (Z.of_nat r.1.2))) <$> record c);
  sha256 := fun s => s;
|}.
#[export] Instance checkout : Snapshot := {| head := "3"; shallow := false; still_current := fun _ => true |}.
#[export] Instance env : BudgetEnv := unbounded.
Definition parent_of (p c : nat) : Prop := In (p, c) [(1, 2); (2, 3); (1, 4)]%nat.
Definition budget0 : BudgetState := mkBudget 0 false.
Definition with_tree : gmap string AnchorCapture := {["4"%string := mkCapture "4" (Some "t3"%string) None []]}.

Lemma record_cases c r : record c = Some r -> c = r.1.1.1 /\ In r history.
Proof. unfold record. intros Hr. apply List.find_some in Hr as [Hin Heq]. apply Nat.eqb_eq in Heq. by split. Qed.
Lemma lookup_cases c k : graph_lookup (tree := nat) c = Some (Some k) -> exists r, In r history /\ c = r.1.1.1 /\ k = mkInfo r.1.1.2 (Some (Z.of_nat r.1.2)).
Proof.
  change (graph_lookup c) with (Some ((fun r => mkInfo r.1.1.2 (Some (Z.of_nat r.1.2))) <$> record c)). destruct (record c) as [r|] eqn:Er; [|done].
  intros Hk. injection Hk as <-. apply record_cases in Er as [Hc Hin]. exists r. auto.
Qed.

(** Generations grow along parents, and the ancestors of the head are the walk. *)
Definition level (c : nat) : nat := match c with 1 => 1 | 2 => 2 | 3 => 3 | 4 => 2 | _ => 0 end%nat.
Lemma level_anc a d : rtc parent_of a d -> (level a <= level d)%nat.
Proof.
  induction 1 as [|a p d Hp _ IH]; [done|]. etrans; [|exact IH]. unfold parent_of in Hp. cbn in Hp.
  repeat destruct Hp as [Hp|Hp]; simplify_eq; cbn; lia.
Qed.
Lemma walk_anc c d : rtc parent_of c d -> In d [3; 2; 1]%nat -> In c [3; 2; 1]%nat.
Proof.
  induction 1 as [|a p d Hp _ IH]; [done|]. intros Hd. specialize (IH Hd). unfold parent_of in Hp. cbn in Hp, IH |- *.
  repeat destruct Hp as [Hp|Hp]; simplify_eq; lia.
Qed.

#[export] Instance laws : GitLaws parent_of.
Proof.
  split.
  - intros c k p (r & Hr & -> & ->)%lookup_cases Hp. cbn in Hr, Hp. unfold parent_of. cbn.
    repeat destruct Hr as [<-|Hr]; cbn in *; try done; repeat destruct Hp as [<-|Hp]; auto; done.
  - intros c k p _ (r & Hr & -> & ->)%lookup_cases Hp. unfold parent_of in Hp. cbn in Hr, Hp |- *.
    repeat destruct Hr as [<-|Hr]; cbn in *; repeat destruct Hp as [Hp|Hp]; simplify_eq; auto; done.
  - intros a ka ga d kd gd (ra & Hra & -> & ->)%lookup_cases Hga (rd & Hrd & -> & ->)%lookup_cases Hgd Hanc. apply level_anc in Hanc. cbn in Hga, Hgd. simplify_eq.
    cbn in Hra, Hrd. repeat destruct Hra as [<-|Hra]; try done; repeat destruct Hrd as [<-|Hrd]; cbn in *; done || lia.
  - intros tip items c Hw Hin. cbn in Hw. destruct (Nat.eqb_spec tip 3) as [->|]; [|done]. simplify_eq. cbn in Hin.
    assert (parent_of 2 3 /\ parent_of 1 2) as [H23 H12] by (unfold parent_of; cbn; auto).
    repeat destruct Hin as [Hin|Hin]; simplify_eq; [done|by eapply rtc_l|by do 2 (eapply rtc_l; [done|])|done].
  - intros tip items c _ Hw _ Hanc. cbn in Hw. destruct (Nat.eqb_spec tip 3) as [->|]; [|done]. simplify_eq. apply walk_anc in Hanc; [|by left].
    cbn in Hanc |- *. repeat destruct Hanc as [<-|Hanc]; auto; done.
Qed.
End Sample.
#[local] Existing Instances Sample.git Sample.checkout Sample.env Sample.laws.

(** Commit 4 was rewritten as 3: it is current by its stored tree, and gone without it. *)
Lemma resolution_sound_witness :
  current Sample.parent_of "4" (Sample.with_tree !! "4"%string) /\ anchor_gone Sample.parent_of "4" None.
Proof.
  destruct (resolution_sound Sample.parent_of Sample.budget0 (ladder_new Sample.budget0) (reached_new _)) as [H _]. split.
  - specialize (H (ReachableFrom "4" Sample.with_tree)).
    assert ((evaluate (ReachableFrom "4" Sample.with_tree) (ladder_new Sample.budget0)).1 = Holds) as He by by vm_compute. rewrite He in H. exact H.
  - specialize (H (ReachableFrom "4" ∅)).
    assert ((evaluate (ReachableFrom "4" ∅) (ladder_new Sample.budget0)).1 = DoesNotHold false) as He by by vm_compute. rewrite He in H. exact (proj2 H).
Defined.

Lemma resolution_decides_witness :
  ((evaluate (ReachableFrom "2" ∅) (ladder_new Sample.budget0)).1 = Holds /\ rtc Sample.parent_of 2%nat 3%nat) \/
  ((evaluate (ReachableFrom "2" ∅) (ladder_new Sample.budget0)).1 = DoesNotHold false /\ ~ rtc Sample.parent_of 2%nat 3%nat).
Proof.
  apply (resolution_decides Sample.parent_of Sample.budget0 "2" ∅ 2%nat 3%nat {[1; 2; 3]}%nat).
  - intros b Hb. change (@is_exhausted Sample.env b) with (@is_exhausted unbounded b). rewrite unbounded_poll by exact Hb. by split.
  - done.
  - done.
  - by vm_compute.
  - by vm_compute.
  - done.
  - set_solver.
  - intros c Hc. assert (c = 1 \/ c = 2 \/ c = 3)%nat as [-> |[-> | ->]] by set_solver; eexists; (split; [by vm_compute|]); intros p Hp; cbn in Hp; set_solver.
  - by vm_compute.
  - eexists. by vm_compute.
  - eexists. by vm_compute.
  - eexists. by vm_compute.
Defined.
End ResolveProofs.
