(* ===== verification/Anchor.v ===== *)
(** * Anchor: anchor rows and their evaluation without a repository (kernel/src/anchor.rs)

    A stored anchor row names one condition. Decoding refuses rows that carry columns of another kind; a
    condition that does not depend on git is evaluated against the query's own values. The parser of the
    capture payload is a parameter. *)
From S2P Require Import Prelude.
From S2P Require Import CanonicalJson.
From S2P Require Import Citations.
From S2P Require Import Scope.
From S2P Require Import Resolve.
From Stdlib Require Import String.
From stdpp Require Import strings gmap sets.

#[local] Open Scope Z_scope.

Module Anchor.
Import Scope.
Import Resolve.

Inductive AnchorKind := AExact | AReachableFrom | AReachableBetween | ADeploymentRevision | AConfigRevision | APlatformVersion | AWallClockInterval.
#[export] Instance AnchorKind_eq_dec : EqDecision AnchorKind.
Proof. solve_decision. Defined.

Definition ANCHOR_KINDS : list AnchorKind := [AExact; AReachableFrom; AReachableBetween; ADeploymentRevision; AConfigRevision; APlatformVersion; AWallClockInterval].
Definition anchor_kind_str (k : AnchorKind) : string :=
  match k with
  | AExact => "exact" | AReachableFrom => "reachable_from" | AReachableBetween => "reachable_between" | ADeploymentRevision => "deployment_revision"
  | AConfigRevision => "config_revision" | APlatformVersion => "platform_version" | AWallClockInterval => "wall_clock_interval"
  end.
Definition kind_from_stored (value : string) : option AnchorKind := List.find (fun k => bool_decide (anchor_kind_str k = value)) ANCHOR_KINDS.

Inductive ContextDependency := DepNone | DepExactToken | DepDeploymentRevision | DepConfigRevision | DepPlatformVersion | DepQueryInstant | DepAll.
#[export] Instance ContextDependency_eq_dec : EqDecision ContextDependency.
Proof. solve_decision. Defined.
Definition context_dependency (k : AnchorKind) : ContextDependency :=
  match k with
  | AExact => DepExactToken
  | ADeploymentRevision => DepDeploymentRevision
  | AConfigRevision => DepConfigRevision
  | APlatformVersion => DepPlatformVersion
  | AWallClockInterval => DepQueryInstant
  | AReachableFrom | AReachableBetween => DepNone
  end.

Record AnchorRowSpec := mkRow {
  anchor_id : string; anchor_kind : string; row_exact_value : option string; reachable_from_oid : option string;
  reachable_between_start_oid : option string; reachable_between_end_oid : option string; row_deployment_revision : option string;
  row_config_revision : option string; platform_version_range : option string; wall_clock_start : option Z; wall_clock_end : option Z;
  row_payload : option string;
}.

Definition ANCHOR_CAPTURE_SCHEMA : string := "eidnara.anchor.capture.v1".

Inductive AnchorCondition :=
| CExact (value : string)
| CGit (c : GitCondition)
| CDeploymentRevision (revision : string)
| CConfigRevision (revision : string)
| CPlatformVersion (r : VersionReq)
| CWallClockInterval (start_ms end_ms : Z).

Inductive AnchorDecodeError :=
| UnknownKind (k : string) | AMissingValue (k : AnchorKind) | AConflictingColumns (k : AnchorKind) | AInvalidOid (k : AnchorKind)
| DuplicateCapture | AInvalidVersionRange | InvalidInterval.

Definition owned_columns (k : AnchorKind) : list bool :=
  match k with
  | AExact => [true; false; false; false; false; false; false; false]
  | AReachableFrom => [false; true; false; false; false; false; false; true]
  | AReachableBetween => [false; false; true; false; false; false; false; true]
  | ADeploymentRevision => [false; false; false; true; false; false; false; false]
  | AConfigRevision => [false; false; false; false; true; false; false; false]
  | APlatformVersion => [false; false; false; false; false; true; false; false]
  | AWallClockInterval => [false; false; false; false; false; false; true; false]
  end.
Definition unowned_columns (k : AnchorKind) (row : AnchorRowSpec) : bool :=
  existsb (fun p : bool * bool => p.1 && negb p.2)
    (zip [given (row_exact_value row); given (reachable_from_oid row); given (reachable_between_start_oid row) || given (reachable_between_end_oid row);
          given (row_deployment_revision row); given (row_config_revision row); given (platform_version_range row);
          given (wall_clock_start row) || given (wall_clock_end row); given (row_payload row)] (owned_columns k)).

Section Decode.
(** The JSON parser of a capture payload: its schema tag and captures. *)
Context {SV : Semver} (parse_payload : string -> option (string * list AnchorCapture)).

Fixpoint insert_captures (captures : gmap string AnchorCapture) (l : list AnchorCapture) : result AnchorDecodeError (gmap string AnchorCapture) :=
  match l with
  | [] => Ok captures
  | c :: l => if given (captures !! commit_oid c) then Err DuplicateCapture else insert_captures (<[commit_oid c := c]> captures) l
  end.
Definition decode_captures (p : option string) : result AnchorDecodeError (gmap string AnchorCapture) :=
  match p ≫= parse_payload with
  | None => Ok ∅
  | Some (schema, captures) => if bool_decide (schema = ANCHOR_CAPTURE_SCHEMA) then insert_captures ∅ captures else Ok ∅
  end.

Definition require (k : AnchorKind) (v : option string) : result AnchorDecodeError string := ok_or (nonempty v) (AMissingValue k).
Definition require_oid (k : AnchorKind) (v : option string) : result AnchorDecodeError string :=
  value ← require k v; if is_lower_hex_oid value then Ok value else Err (AInvalidOid k).

Definition anchor_decode (row : AnchorRowSpec) : result AnchorDecodeError AnchorCondition :=
  k ← ok_or (kind_from_stored (anchor_kind row)) (UnknownKind (anchor_kind row));
  if unowned_columns k row then Err (AConflictingColumns k)
  else
    match k with
    | AExact => v ← require k (row_exact_value row); Ok (CExact v)
    | AReachableFrom => o ← require_oid k (reachable_from_oid row); captures ← decode_captures (row_payload row); Ok (CGit (ReachableFrom o captures))
    | AReachableBetween =>
        s ← require_oid k (reachable_between_start_oid row); e ← require_oid k (reachable_between_end_oid row);
        captures ← decode_captures (row_payload row); Ok (CGit (ReachableBetween s e captures))
    | ADeploymentRevision => v ← require k (row_deployment_revision row); Ok (CDeploymentRevision v)
    | AConfigRevision => v ← require k (row_config_revision row); Ok (CConfigRevision v)
    | APlatformVersion => range ← require k (platform_version_range row); r ← ok_or (parse_req range) AInvalidVersionRange; Ok (CPlatformVersion r)
    | AWallClockInterval =>
        match wall_clock_start row, wall_clock_end row with
        | Some s, Some e => if e <=? s then Err InvalidInterval else Ok (CWallClockInterval s e)
        | _, _ => Err (AMissingValue k)
        end
    end.

(** ** Evaluation against the query *)
Record QueryContext := mkQuery {
  q_deployment_revision : option string; q_config_revision : option string; q_platform_version : option string; query_instant_ms : option Z;
  exact_token : option string;
}.

Inductive AnchorEvaluation := AHolds | ADoesNotHold (historical : bool) | AUncertain | NeedsGitResolution.
Definition holds (value : bool) : AnchorEvaluation := if value then AHolds else ADoesNotHold false.

Definition compare_values (expected : string) (actual : option string) : AnchorEvaluation :=
  if contains_redaction_placeholder expected then AUncertain
  else match actual with
       | Some actual => if contains_redaction_placeholder actual then AUncertain else holds (bool_decide (actual = expected))
       | None => AUncertain
       end.

Definition evaluate_non_git (c : AnchorCondition) (ctx : QueryContext) : AnchorEvaluation :=
  match c with
  | CGit _ => NeedsGitResolution
  | CExact v => compare_values v (exact_token ctx)
  | CDeploymentRevision r => compare_values r (q_deployment_revision ctx)
  | CConfigRevision r => compare_values r (q_config_revision ctx)
  | CPlatformVersion r =>
      match q_platform_version ctx with
      | None => AUncertain
      | Some text =>
          if contains_redaction_placeholder text then AUncertain
          else match parsed_version_req_matches r text with Some b => holds b | None => AUncertain end
      end
  | CWallClockInterval s e =>
      match query_instant_ms ctx with
      | None => AUncertain
      | Some instant => if e <=? instant then ADoesNotHold true else if instant <? s then ADoesNotHold false else AHolds
      end
  end.
End Decode.
End Anchor.
