(* ===== verification/InputsDigest.v ===== *)
(** * InputsDigest: the digest that keys cached classifications (kernel/src/applicability/engine.rs)

    A classification is cached under a digest of everything that can change it: the scope context, the part of
    the query the anchor's kind reads, and the candidate's rows. The engine refuses oversized inputs before it
    digests them. The hash function is a parameter; strings are byte strings. *)
From S2P Require Import Prelude.
From S2P Require Import CanonicalJson.
From S2P Require Import Scope.
From S2P Require Import Resolve.
From S2P Require Import Anchor.
From Stdlib Require Import Ascii String.
From stdpp Require Import strings gmap sets.

#[local] Open Scope Z_scope.

Module InputsDigest.
Import CanonicalJson.
Import Scope.
Import Resolve.
Import Anchor.

Record ApplicabilityCandidate := mkCandidate {
  object_id : string; object_revision : Z; lifecycle_invalidated : bool; scope_terms : option (list ScopeTermSpec); anchor : option AnchorRowSpec;
  cand_payload : option string;
}.

Definition MAX_SCOPE_TERMS : Z := 64.
Definition MAX_SCOPE_SET_VALUES : Z := 4096.
Definition MAX_SCOPE_BYTES : Z := Z.shiftl 1 20.
Definition MAX_REQUEST_CONTEXT_BYTES : Z := Z.shiftl 1 20.
Definition MAX_OBJECT_PAYLOAD_BYTES : Z := Z.shiftl 1 20.

(** ** Bounds *)
Definition len (s : string) : Z := Z.of_nat (String.length s).

(** Adds lengths one by one and stops when the sum passes the bound. *)
Fixpoint charge (bound bytes : Z) (lens : list Z) : bool * Z :=
  match lens with
  | [] => (false, bytes)
  | n :: lens => let bytes := Z.min (bytes + n) u64_MAX in if bound <? bytes then (true, bytes) else charge bound bytes lens
  end.
Definition opt_len (o : option string) : Z := match o with Some s => len s | None => 0 end.

Definition request_context_exceeds_bounds (query : QueryContext) (ctx : ScopeMatchContext) : bool :=
  let '(over, bytes) :=
    charge MAX_REQUEST_CONTEXT_BYTES 0
      [opt_len (exact_token query); opt_len (q_deployment_revision query); opt_len (q_config_revision query); opt_len (q_platform_version query)] in
  over || (charge MAX_REQUEST_CONTEXT_BYTES bytes ((fun d => opt_len (ctx_value ctx d)) <$> ALL)).1.

Definition anchor_row_exceeds_bounds (row : AnchorRowSpec) : bool :=
  let '(over, bytes) :=
    charge MAX_OBJECT_PAYLOAD_BYTES 0
      (len <$> omap id [Some (anchor_id row); Some (anchor_kind row); row_exact_value row; reachable_from_oid row; reachable_between_start_oid row;
                        reachable_between_end_oid row; row_deployment_revision row; row_config_revision row; platform_version_range row]) in
  over || match row_payload row with Some p => (charge MAX_OBJECT_PAYLOAD_BYTES bytes [len p]).1 | None => false end.

Definition term_lens (t : ScopeTermSpec) : list Z :=
  len <$> (default [] (set_values t)
           ++ omap id [exact_value t; range_start t; range_end t; version_range t; git_oid t; git_start_oid t; git_end_oid t]
           ++ [dimension t; operator t] ++ omap id [payload t]).
Fixpoint terms_exceed (bytes : Z) (terms : list ScopeTermSpec) : bool :=
  match terms with
  | [] => false
  | t :: terms =>
      if match set_values t with Some values => MAX_SCOPE_SET_VALUES <? Z.of_nat (length values) | None => false end then true
      else let '(over, bytes) := charge MAX_SCOPE_BYTES bytes (term_lens t) in if over then true else terms_exceed bytes terms
  end.
Definition scope_terms_exceed_bounds (terms : list ScopeTermSpec) : bool :=
  if MAX_SCOPE_TERMS <? Z.of_nat (length terms) then true else terms_exceed 0 terms.

(** The guards before a candidate is digested. *)
Definition digestible (query : QueryContext) (ctx : ScopeMatchContext) (c : ApplicabilityCandidate) : bool :=
  negb (request_context_exceeds_bounds query ctx)
  && match cand_payload c with Some p => len p <=? MAX_OBJECT_PAYLOAD_BYTES | None => true end
  && match scope_terms c with Some terms => negb (scope_terms_exceed_bounds terms) | None => true end
  && match anchor c with Some row => negb (anchor_row_exceeds_bounds row) | None => true end.

(** ** Encoding *)
Definition byte1 (b : Z) : string := String (ascii_of b) EmptyString.
Definition u64_bytes (n : Z) : string := bytes_str (le_bytes 8 n).
Definition i64_bytes (n : Z) : string := bytes_str (le_bytes 8 (n mod 2 ^ 64)).

Definition digest_bytes (value : string) : string := (u64_bytes (len value) +:+ value)%string.
Definition digest_field (field : option string) : string :=
  match field with Some value => (byte1 1 +:+ digest_bytes value)%string | None => byte1 0 end.
Definition digest_i64 (field : option Z) : string := match field with Some v => (byte1 1 +:+ i64_bytes v)%string | None => byte1 0 end.
Definition concat_str (l : list string) : string := foldr String.append EmptyString l.
(** A presence tag, a count and the items. *)
Definition digest_list {A} (enc : A -> string) (l : option (list A)) : string :=
  match l with Some l => (byte1 1 +:+ u64_bytes (Z.of_nat (length l)) +:+ concat_str (enc <$> l))%string | None => byte1 0 end.

Definition digest_anchor_row (row : AnchorRowSpec) : string :=
  concat_str
    [digest_field (Some (anchor_id row)); digest_field (Some (anchor_kind row)); digest_field (row_exact_value row); digest_field (reachable_from_oid row);
     digest_field (reachable_between_start_oid row); digest_field (reachable_between_end_oid row); digest_field (row_deployment_revision row);
     digest_field (row_config_revision row); digest_field (platform_version_range row); digest_i64 (wall_clock_start row); digest_i64 (wall_clock_end row);
     digest_field (row_payload row)].

Definition digest_scope_term (t : ScopeTermSpec) : string :=
  concat_str
    [digest_field (Some (dimension t)); digest_field (Some (operator t)); digest_field (exact_value t);
     digest_list (fun v => digest_field (Some v)) (set_values t); digest_field (range_start t); digest_field (range_end t); digest_field (version_range t);
     digest_field (git_oid t); digest_field (git_start_oid t); digest_field (git_end_oid t); digest_field (payload t)].

Inductive InputPrefixKind := PDefault | PExact | PDeployment | PConfig | PPlatform | PWallClock | PAll.
Definition prefix_index (k : InputPrefixKind) : nat :=
  match k with PDefault => 0 | PExact => 1 | PDeployment => 2 | PConfig => 3 | PPlatform => 4 | PWallClock => 5 | PAll => 6 end.

Definition candidate_dependency (c : ApplicabilityCandidate) : option ContextDependency :=
  (fun row => match kind_from_stored (anchor_kind row) with Some k => context_dependency k | None => DepAll end) <$> anchor c.
Definition prefix_kind (c : ApplicabilityCandidate) : InputPrefixKind :=
  match candidate_dependency c with
  | None | Some DepNone => PDefault
  | Some DepExactToken => PExact
  | Some DepDeploymentRevision => PDeployment
  | Some DepConfigRevision => PConfig
  | Some DepPlatformVersion => PPlatform
  | Some DepQueryInstant => PWallClock
  | Some DepAll => PAll
  end.

Definition INPUTS_TAG : string := "eidnara-applicability-inputs-v4".

Definition relevant_fields (query : QueryContext) (k : InputPrefixKind) : list (option string) :=
  match k with
  | PExact => [exact_token query]
  | PDeployment => [q_deployment_revision query]
  | PConfig => [q_config_revision query]
  | PPlatform => [q_platform_version query]
  | PAll => [exact_token query; q_deployment_revision query; q_config_revision query; q_platform_version query]
  | PDefault | PWallClock => []
  end.
Definition instant_part (query : QueryContext) (k : InputPrefixKind) : string :=
  match k with PWallClock | PAll => digest_i64 (query_instant_ms query) | _ => EmptyString end.

(** The bytes hashed before the candidate's own. *)
Definition inputs_digest_prefix (query : QueryContext) (ctx : ScopeMatchContext) (k : InputPrefixKind) : string :=
  (INPUTS_TAG +:+ NUL +:+ concat_str (digest_field <$> relevant_fields query k) +:+ instant_part query k
   +:+ concat_str ((fun d => digest_field (ctx_value ctx d)) <$> ALL))%string.

Definition candidate_bytes (c : ApplicabilityCandidate) : string :=
  (digest_list digest_scope_term (scope_terms c)
   +:+ match anchor c with Some row => byte1 1 +:+ digest_anchor_row row | None => byte1 0 end +:+ digest_field (cand_payload c))%string.

Section Hash.
Context (sha256 : string -> string).

Definition finish_inputs_digest (hashed : string) (c : ApplicabilityCandidate) : string := sha256 (hashed +:+ candidate_bytes c)%string.

(** The memo of hashed prefixes, one slot per kind. *)
Record InputDigestPrefixes := mkPrefixes { dp_query : QueryContext; dp_context : ScopeMatchContext; dp_cached : list (option string) }.
Definition prefixes_new (query : QueryContext) (ctx : ScopeMatchContext) : InputDigestPrefixes := mkPrefixes query ctx (replicate 7 None).
Definition for_candidate (p : InputDigestPrefixes) (c : ApplicabilityCandidate) : string * InputDigestPrefixes :=
  let k := prefix_kind c in
  let hashed := match mjoin (dp_cached p !! prefix_index k) with Some h => h | None => inputs_digest_prefix (dp_query p) (dp_context p) k end in
  (finish_inputs_digest hashed c, mkPrefixes (dp_query p) (dp_context p) (<[prefix_index k := Some hashed]> (dp_cached p))).

Definition inputs_digest (query : QueryContext) (ctx : ScopeMatchContext) (c : ApplicabilityCandidate) : string :=
  finish_inputs_digest (inputs_digest_prefix query ctx (prefix_kind c)) c.
End Hash.
End InputsDigest.
