(* ===== verification/DigestProofs.v ===== *)
(** * DigestProofs: equal digests mean equal inputs, for anchors that read the same part of the query

    The encoding of a candidate is prefix-free, field by field. So two candidates of one prefix kind with equal
    digests have the same rows and the same relevant context, and every gate that reads them answers the same. The
    kind itself is not encoded ahead of the fields it selects, and across kinds the encodings can coincide. *)
From S2P Require Import Prelude.
From S2P Require Import BTree.
From S2P Require Import CanonicalJson.
From S2P Require Import Utf8.
From S2P Require Import JsonString.
From S2P Require Import Scope.
From S2P Require Import ScopeSound.
From S2P Require Import Resolve.
From S2P Require Import Anchor.
From S2P Require Import InputsDigest.
From Stdlib Require Import Ascii String.
From stdpp Require Import strings gmap sets.

#[local] Open Scope Z_scope.

Module DigestProofs.
Import Scope.
Import Resolve.
Import Anchor.
Import InputsDigest.

(** ** Prefix-free encodings *)
Definition prefix_free {A} (ok : A -> Prop) (enc : A -> string) : Prop :=
  forall a b s t, ok a -> ok b -> (enc a +:+ s = enc b +:+ t)%string -> a = b /\ s = t.

Lemma append_inj_length (a b s t : string) : String.length a = String.length b -> (a +:+ s = b +:+ t)%string -> a = b /\ s = t.
Proof.
  revert b. induction a as [|x a IH]; intros [|y b] Hl Hs; cbn in Hl; try done. injection Hl as Hl. rewrite !append_cons in Hs. injection Hs as -> Hs.
  destruct (IH b Hl Hs) as [-> ->]. done.
Qed.

Lemma bytes_str_length l : String.length (bytes_str l) = length l.
Proof. induction l as [|b l IH]; [done|]. change (bytes_str (b :: l)) with (String (CanonicalJson.ascii_of b) (bytes_str l)). cbn [String.length length]. by rewrite IH. Qed.
Lemma ascii_of_inj a b : is_u8 a -> is_u8 b -> CanonicalJson.ascii_of a = CanonicalJson.ascii_of b -> a = b.
Proof.
  unfold is_u8, u8_MAX, CanonicalJson.ascii_of. intros Ha Hb H. apply (f_equal Ascii.N_of_ascii) in H. rewrite !Ascii.N_ascii_embedding in H by lia. lia.
Qed.
Lemma bytes_str_inj l l' : Forall is_u8 l -> Forall is_u8 l' -> bytes_str l = bytes_str l' -> l = l'.
Proof.
  intros Hl. revert l'. induction Hl as [|b l Hb Hl IH]; intros [|b' l'] Hl' H; try done. apply list.Forall_cons in Hl' as [Hb' Hl'].
  change (String (CanonicalJson.ascii_of b) (bytes_str l) = String (CanonicalJson.ascii_of b') (bytes_str l')) in H. injection H as Hh Ht.
  f_equal; [by apply ascii_of_inj|by apply IH].
Qed.
Lemma le8_inj a b : 0 <= a <= u64_MAX -> 0 <= b <= u64_MAX -> bytes_str (le_bytes 8 a) = bytes_str (le_bytes 8 b) -> a = b.
Proof.
  unfold u64_MAX. intros Ha Hb H. apply bytes_str_inj in H; [|apply le_bytes_u8..]. apply (f_equal from_le_bytes) in H.
  rewrite !from_le_bytes_le_bytes in H by (change (256 ^ Z.of_nat 8) with 18446744073709551616; lia). done.
Qed.

Lemma pf_u64 : prefix_free (fun n => 0 <= n <= u64_MAX) u64_bytes.
Proof.
  intros a b s t Ha Hb H. apply append_inj_length in H as [H ->]; [|unfold u64_bytes; by rewrite !bytes_str_length, !length_le_bytes]. by apply le8_inj in H as ->.
Qed.

Definition short (s : string) : Prop := len s <= u64_MAX.
Lemma pf_bytes : prefix_free short digest_bytes.
Proof.
  intros a b s t Ha Hb. unfold digest_bytes. rewrite !append_assoc. intros H. apply pf_u64 in H as [Hl H]; [|unfold short, len in *; lia..].
  apply append_inj_length in H; [done|]. unfold len in Hl. lia.
Qed.

(** A presence tag before the value. *)
Lemma pf_option {A} (ok : A -> Prop) (enc : A -> string) :
  prefix_free ok enc -> prefix_free (fun o => forall a, o = Some a -> ok a) (fun o => match o with Some a => (byte1 1 +:+ enc a)%string | None => byte1 0 end).
Proof.
  intros Henc [a|] [b|] s t Ha Hb H; rewrite ?append_assoc in H; unfold byte1 in H; rewrite !append_cons in H; try done; injection H as H; [|split; [done|exact H]].
  apply Henc in H as [-> ->]; auto.
Qed.
Definition short_opt (o : option string) : Prop := forall s, o = Some s -> short s.
Lemma pf_field : prefix_free short_opt digest_field.
Proof. exact (pf_option short digest_bytes pf_bytes). Qed.

Definition is_i64 (n : Z) : Prop := - 2 ^ 63 <= n < 2 ^ 63.
Lemma pf_i64_bytes : prefix_free is_i64 i64_bytes.
Proof.
  intros a b s t Ha Hb H. apply append_inj_length in H as [H ->]; [|unfold i64_bytes; by rewrite !bytes_str_length, !length_le_bytes].
  split; [|done]. unfold i64_bytes, is_i64 in *. apply le8_inj in H; [|pose proof (Z.mod_pos_bound a (2 ^ 64)); pose proof (Z.mod_pos_bound b (2 ^ 64)); unfold u64_MAX; lia..].
  revert H. Z.to_euclidean_division_equations. lia.
Qed.
Definition i64_opt (o : option Z) : Prop := forall n, o = Some n -> is_i64 n.
Lemma pf_i64 : prefix_free i64_opt digest_i64.
Proof. exact (pf_option is_i64 i64_bytes pf_i64_bytes). Qed.

Lemma pf_items {A} (ok : A -> Prop) (enc : A -> string) l l' s t :
  prefix_free ok enc -> Forall ok l -> Forall ok l' -> length l = length l' ->
  (concat_str (enc <$> l) +:+ s = concat_str (enc <$> l') +:+ t)%string -> l = l' /\ s = t.
Proof.
  intros Henc Hl. revert l'. induction Hl as [|a l Ha Hl IH]; intros [|b l'] Hl' Hlen H; try done. apply list.Forall_cons in Hl' as [Hb Hl']. injection Hlen as Hlen.
  change (concat_str (enc <$> a :: l)) with (enc a +:+ concat_str (enc <$> l))%string in H.
  change (concat_str (enc <$> b :: l')) with (enc b +:+ concat_str (enc <$> l'))%string in H. rewrite !append_assoc in H.
  apply Henc in H as [-> H]; [|done..]. by apply IH in H as [-> ->].
Qed.
Lemma pf_counted {A} (ok : A -> Prop) (enc : A -> string) :
  prefix_free ok enc ->
  prefix_free (fun l => Forall ok l /\ Z.of_nat (length l) <= u64_MAX) (fun l => (u64_bytes (Z.of_nat (length l)) +:+ concat_str (enc <$> l))%string).
Proof.
  intros Henc a b s t [Ha Hla] [Hb Hlb]. rewrite !append_assoc. intros H. apply pf_u64 in H as [Hl H]; [|lia..]. eapply pf_items; [done..|lia|done].
Qed.
Lemma pf_list {A} (ok : A -> Prop) (enc : A -> string) :
  prefix_free ok enc -> prefix_free (fun o => forall l, o = Some l -> Forall ok l /\ Z.of_nat (length l) <= u64_MAX) (digest_list enc).
Proof. intros Henc. exact (pf_option _ _ (pf_counted ok enc Henc)). Qed.

(** Fields one after the other. *)
Lemma concat_cons x l s : (concat_str (x :: l) +:+ s = x +:+ (concat_str l +:+ s))%string.
Proof. change (concat_str (x :: l)) with (x +:+ concat_str l)%string. apply append_assoc. Qed.

Ltac peel lem H := rewrite ?concat_cons in H; let E := fresh "E" in apply lem in H as [E H]; [|by auto..].

Record row_ok (row : AnchorRowSpec) : Prop := {
  ro_id : short (anchor_id row); ro_kind : short (anchor_kind row); ro_exact : short_opt (row_exact_value row); ro_from : short_opt (reachable_from_oid row);
  ro_start : short_opt (reachable_between_start_oid row); ro_end : short_opt (reachable_between_end_oid row); ro_dep : short_opt (row_deployment_revision row);
  ro_conf : short_opt (row_config_revision row); ro_range : short_opt (platform_version_range row); ro_wstart : i64_opt (wall_clock_start row);
  ro_wend : i64_opt (wall_clock_end row); ro_payload : short_opt (row_payload row);
}.
Lemma short_some s : short s -> short_opt (Some s).
Proof. intros Hs ? [= <-]. done. Qed.
#[local] Hint Resolve short_some : core.

Lemma pf_row : prefix_free row_ok digest_anchor_row.
Proof.
  intros a b s t [] [] H. unfold digest_anchor_row in H. do 9 peel pf_field H. do 2 peel pf_i64 H. peel pf_field H.
  destruct a, b. cbn in *. simplify_eq. done.
Qed.

Record term_ok (t : ScopeTermSpec) : Prop := {
  to_dim : short (dimension t); to_op : short (operator t); to_exact : short_opt (exact_value t);
  to_set : forall l, set_values t = Some l -> Forall short l /\ Z.of_nat (length l) <= u64_MAX; to_start : short_opt (range_start t);
  to_end : short_opt (range_end t); to_version : short_opt (version_range t); to_git : short_opt (git_oid t); to_gstart : short_opt (git_start_oid t);
  to_gend : short_opt (git_end_oid t); to_payload : short_opt (payload t);
}.
Lemma pf_some : prefix_free short (fun v => digest_field (Some v)).
Proof. intros a b s t Ha Hb H. apply pf_field in H as [[= ->] ->]; [done|by apply short_some..]. Qed.
Lemma pf_term : prefix_free term_ok digest_scope_term.
Proof.
  intros a b s t [] [] H. unfold digest_scope_term in H. do 3 peel pf_field H. peel (pf_list _ _ pf_some) H. do 7 peel pf_field H.
  destruct a, b. cbn in *. simplify_eq. done.
Qed.

(** ** What the bounds leave *)
Lemma charge_ok bound bytes lens :
  bound < u64_MAX -> 0 <= bytes -> Forall (fun n => 0 <= n) lens -> (charge bound bytes lens).1 = false ->
  Forall (fun n => n <= bound) lens /\ 0 <= (charge bound bytes lens).2.
Proof.
  intros Hb. revert bytes. induction lens as [|n lens IH]; intros bytes H0 Hl H; [by repeat split|]. apply list.Forall_cons in Hl as [Hn Hl]. cbn [charge] in *.
  destruct (Z.ltb_spec bound (Z.min (bytes + n) u64_MAX)) as [?|Hle]; [done|]. destruct (IH (Z.min (bytes + n) u64_MAX)) as [H1 H2]; [unfold u64_MAX in *; lia|done..|].
  split; [|done]. constructor; [lia|done].
Qed.
Lemma len_nonneg s : 0 <= len s.
Proof. unfold len. lia. Qed.
Lemma opt_len_nonneg o : 0 <= opt_len o.
Proof. destruct o; [apply len_nonneg|done]. Qed.
Lemma lens_nonneg (l : list string) : Forall (fun n => 0 <= n) (len <$> l).
Proof. apply Forall_fmap, Forall_true. apply len_nonneg. Qed.
Lemma MAX_lt : MAX_OBJECT_PAYLOAD_BYTES < u64_MAX.
Proof. by vm_compute. Qed.

Lemma lens_short bound l : bound < u64_MAX -> Forall (fun n => n <= bound) (len <$> l) -> forall s, In s l -> short s.
Proof.
  intros Hb Hl s Hs. rewrite Forall_fmap, Forall_forall in Hl. specialize (Hl s). rewrite list_elem_of_In in Hl. specialize (Hl Hs). cbn in Hl. unfold short. lia.
Qed.
Lemma in_omap_id {A} (l : list (option A)) a : In (Some a) l -> In a (omap id l).
Proof. rewrite <- !list_elem_of_In, list_elem_of_omap. intros Ha. by exists (Some a). Qed.

Lemma row_bounds row : anchor_row_exceeds_bounds row = false -> i64_opt (wall_clock_start row) -> i64_opt (wall_clock_end row) -> row_ok row.
Proof.
  unfold anchor_row_exceeds_bounds. set (cols := [Some (anchor_id row); _; _; _; _; _; _; _; _]).
  pose proof (charge_ok MAX_OBJECT_PAYLOAD_BYTES 0 (len <$> omap id cols) MAX_lt ltac:(done) (lens_nonneg _)) as Hc.
  destruct (charge _ 0 _) as [over bytes]. cbn [fst snd] in Hc. intros [-> Hp]%orb_false_iff Hs He. destruct (Hc eq_refl) as [Hl Hbytes].
  assert (Hcol : forall s, In (Some s) cols -> short s) by (intros s Hin; by eapply lens_short, in_omap_id; [apply MAX_lt|..]).
  split; try done; try (apply Hcol; cbn; tauto); intros s E; try (apply Hcol; cbn; rewrite E; tauto).
  rewrite E in Hp. apply charge_ok in Hp as [Hp _]; [|apply MAX_lt|done|by constructor; [apply len_nonneg|]]. apply list.Forall_cons in Hp as [Hp _]. unfold short. pose proof MAX_lt. lia.
Qed.

Lemma terms_bounds bytes terms : 0 <= bytes -> terms_exceed bytes terms = false -> Forall term_ok terms.
Proof.
  revert bytes. induction terms as [|t terms IH]; intros bytes H0 H; [constructor|]. cbn [terms_exceed] in H.
  destruct (match set_values t with Some values => _ | None => false end) eqn:Hset; [done|].
  pose proof (charge_ok MAX_SCOPE_BYTES bytes (term_lens t) MAX_lt H0 (lens_nonneg _)) as Hc.
  destruct (charge MAX_SCOPE_BYTES bytes (term_lens t)) as [over bytes']. cbn [fst snd] in Hc. destruct over; [done|]. destruct (Hc eq_refl) as [Hl Hb].
  constructor; [|by eapply IH]. clear IH H Hc. pose proof (lens_short _ _ MAX_lt Hl) as Hs.
  assert (Hcol : forall s, In (Some s) [exact_value t; range_start t; range_end t; version_range t; git_oid t; git_start_oid t; git_end_oid t] -> short s).
  { intros s Hin. apply Hs. rewrite !in_app_iff. right. left. by apply in_omap_id. }
  split; try (apply Hs; rewrite !in_app_iff; right; right; left; cbn; tauto); try (intros s E; apply Hcol; cbn; rewrite E; tauto).
  - intros l E. rewrite E in *. split.
    + apply Forall_forall. intros s Hin. apply Hs. rewrite !in_app_iff. left. by apply list_elem_of_In.
    + apply Z.ltb_ge in Hset. unfold MAX_SCOPE_SET_VALUES, u64_MAX in *. lia.
  - intros s E. apply Hs. rewrite !in_app_iff. right. right. right. apply in_omap_id. rewrite E. by left.
Qed.
Lemma scope_bounds terms : scope_terms_exceed_bounds terms = false -> Forall term_ok terms /\ Z.of_nat (length terms) <= u64_MAX.
Proof.
  unfold scope_terms_exceed_bounds. destruct (Z.ltb_spec MAX_SCOPE_TERMS (Z.of_nat (length terms))); [done|]. intros Ht. split; [by eapply terms_bounds|].
  unfold MAX_SCOPE_TERMS, u64_MAX in *. lia.
Qed.

Lemma context_bounds query ctx :
  request_context_exceeds_bounds query ctx = false ->
  (forall k, Forall short_opt (relevant_fields query k)) /\ forall d, short_opt (ctx_value ctx d).
Proof.
  unfold request_context_exceeds_bounds. set (fields := [opt_len (exact_token query); _; _; _]).
  assert (Hf : Forall (fun n => 0 <= n) fields) by (repeat constructor; apply opt_len_nonneg).
  pose proof (charge_ok MAX_REQUEST_CONTEXT_BYTES 0 fields MAX_lt ltac:(done) Hf) as Hc. destruct (charge _ 0 fields) as [over bytes]. cbn [fst snd] in Hc.
  intros [-> Hd]%orb_false_iff. destruct (Hc eq_refl) as [Hl Hb].
  apply charge_ok in Hd as [Hd _]; [|apply MAX_lt|done|apply Forall_fmap, Forall_true; intros; apply opt_len_nonneg].
  assert (Hshort : forall o, opt_len o <= MAX_REQUEST_CONTEXT_BYTES -> short_opt o) by (intros o Ho s ->; change (len s <= MAX_OBJECT_PAYLOAD_BYTES) in Ho; unfold short; pose proof MAX_lt; lia).
  unfold fields in Hl. rewrite !Forall_cons in Hl. destruct Hl as (H1 & H2 & H3 & H4 & _). split.
  - intros []; cbn; repeat constructor; auto.
  - intros d. apply Hshort. rewrite Forall_fmap, Forall_forall in Hd. apply (Hd d). destruct d; set_solver.
Qed.

(** ** Equal digests *)
Definition reads_instant (k : InputPrefixKind) : bool := match k with PWallClock | PAll => true | _ => false end.

Lemma prefix_inj q1 s1 q2 s2 k x y :
  request_context_exceeds_bounds q1 s1 = false -> request_context_exceeds_bounds q2 s2 = false -> i64_opt (query_instant_ms q1) -> i64_opt (query_instant_ms q2) ->
  (inputs_digest_prefix q1 s1 k +:+ x = inputs_digest_prefix q2 s2 k +:+ y)%string ->
  relevant_fields q1 k = relevant_fields q2 k /\ (reads_instant k = true -> query_instant_ms q1 = query_instant_ms q2) /\
  (forall d, ctx_value s1 d = ctx_value s2 d) /\ x = y.
Proof.
  intros [Hf1 Hd1]%context_bounds [Hf2 Hd2]%context_bounds Hi1 Hi2. unfold inputs_digest_prefix. rewrite !append_assoc. intros H.
  apply append_inj_length in H as [_ H]; [|done]. apply append_inj_length in H as [_ H]; [|done].
  apply (pf_items short_opt digest_field) in H as [Hfields H]; [|apply pf_field|apply Hf1|apply Hf2|by destruct k].
  assert (Hinst : (reads_instant k = true -> query_instant_ms q1 = query_instant_ms q2) /\
    (concat_str (digest_field <$> (ctx_value s1 <$> ALL)) +:+ x = concat_str (digest_field <$> (ctx_value s2 <$> ALL)) +:+ y)%string).
  { destruct k; try (split; [done|exact H]); apply pf_i64 in H as [Hi H]; auto. }
  destruct Hinst as [Hi Hdims]. apply (pf_items short_opt digest_field) in Hdims as [Hd ->]; [|apply pf_field|apply Forall_fmap, Forall_true; auto..|done].
  split; [done|]. split; [done|]. split; [|done]. intros d. cbn in Hd. injection Hd as ? ? ? ? ? ? ? ? ? ?. by destruct d.
Qed.

Definition candidate_ok (c : ApplicabilityCandidate) : Prop :=
  (forall l, scope_terms c = Some l -> Forall term_ok l /\ Z.of_nat (length l) <= u64_MAX) /\ (forall row, anchor c = Some row -> row_ok row) /\ short_opt (cand_payload c).

Lemma candidate_inj c1 c2 :
  candidate_ok c1 -> candidate_ok c2 -> candidate_bytes c1 = candidate_bytes c2 ->
  scope_terms c1 = scope_terms c2 /\ anchor c1 = anchor c2 /\ cand_payload c1 = cand_payload c2.
Proof.
  intros (Ht1 & Hr1 & Hp1) (Ht2 & Hr2 & Hp2) H. apply (f_equal (fun b => (b +:+ EmptyString)%string)) in H. unfold candidate_bytes in H. rewrite !append_assoc in H.
  apply (pf_list term_ok digest_scope_term pf_term) in H as [Hterms H]; [|done..].
  apply (pf_option row_ok digest_anchor_row pf_row) in H as [Hrow H]; [|done..]. apply pf_field in H as [Hp _]; [|done..]. done.
Qed.

(** The rows a candidate carries hold 64-bit instants. *)
Definition typed_candidate (c : ApplicabilityCandidate) : Prop := forall row, anchor c = Some row -> i64_opt (wall_clock_start row) /\ i64_opt (wall_clock_end row).

Lemma digestible_ok query ctx c : digestible query ctx c = true -> typed_candidate c -> request_context_exceeds_bounds query ctx = false /\ candidate_ok c.
Proof.
  unfold digestible. rewrite !andb_true_iff. intros [[[Hq Hp] Hs] Ha] Ht. split; [by apply negb_true_iff|]. split; [|split].
  - intros l E. rewrite E in Hs. by apply scope_bounds, negb_true_iff.
  - intros row E. rewrite E in Ha. destruct (Ht row E). apply row_bounds; [by apply negb_true_iff|done..].
  - intros s E. rewrite E in Hp. apply Z.leb_le in Hp. unfold short. pose proof MAX_lt. lia.
Qed.

(** The part of the query a prefix kind covers decides every condition of an anchor of that kind. *)
Lemma evaluate_relevant `{SV : Semver} parse_payload c row cond q1 q2 :
  anchor c = Some row -> anchor_decode parse_payload row = Ok cond -> relevant_fields q1 (prefix_kind c) = relevant_fields q2 (prefix_kind c) ->
  (reads_instant (prefix_kind c) = true -> query_instant_ms q1 = query_instant_ms q2) -> evaluate_non_git cond q1 = evaluate_non_git cond q2.
Proof.
  intros Hrow Hdec. unfold prefix_kind, candidate_dependency. rewrite Hrow. cbn [fmap option_fmap option_map]. unfold anchor_decode in Hdec.
  destruct (kind_from_stored (anchor_kind row)) as [k|]; [|done]. cbn [ok_or mbind result_bind] in Hdec. destruct (unowned_columns k row); [done|].
  destruct k; cbn [context_dependency relevant_fields reads_instant]; intros Hf Hi; unfold mbind, result_bind in Hdec; repeat case_match; simplify_eq; try done;
    cbn [evaluate_non_git]; first [congruence | by rewrite (Hi eq_refl) | match goal with Hx : _ q1 = _ q2 |- _ => by rewrite Hx end].
Qed.

(** Contexts the builder makes agree when their values do. *)
Lemma built_contexts_equal `{SV : Semver} s1 s2 h :
  ScopeSound.built s1 -> ScopeSound.built s2 -> (forall d, ctx_value s1 d = ctx_value s2 d) -> with_head_commit s1 h = with_head_commit s2 h.
Proof.
  intros B1 B2 Hv. pose proof (ScopeSound.built_lengths _ B1) as [L1 L1']. pose proof (ScopeSound.built_lengths _ B2) as [L2 L2'].
  assert (Hat : forall {A} (l1 l2 : list (option A)), length l1 = 10%nat -> length l2 = 10%nat -> (forall d, mjoin (l1 !! index d) = mjoin (l2 !! index d)) -> l1 = l2).
  { intros A l1 l2 H1 H2 Hd. do 10 (destruct l1 as [|? l1]; [done|]; destruct l2 as [|? l2]; [done|]). destruct l1, l2; try done.
    pose proof (Hd Domain). pose proof (Hd Project). pose proof (Hd Entity). pose proof (Hd Branch). pose proof (Hd Environment). pose proof (Hd Region).
    pose proof (Hd Deployment). pose proof (Hd RequestClass). pose proof (Hd CallerClass). pose proof (Hd Platform). cbn in *. congruence. }
  unfold with_head_commit. f_equal; apply Hat; try done. intros d. fold (coerced_version s1 d) (coerced_version s2 d). by rewrite !ScopeSound.built_coerced, Hv.
Qed.

(** ** The memo of prefixes *)
Inductive reached_memo (sha256 : string -> string) (q : QueryContext) (s : ScopeMatchContext) : InputDigestPrefixes -> Prop :=
| memo_new : reached_memo sha256 q s (prefixes_new q s)
| memo_step p c : reached_memo sha256 q s p -> reached_memo sha256 q s (for_candidate sha256 p c).2.

Definition memo_ok (q : QueryContext) (s : ScopeMatchContext) (p : InputDigestPrefixes) : Prop :=
  dp_query p = q /\ dp_context p = s /\ length (dp_cached p) = 7%nat /\
  forall k h, mjoin (dp_cached p !! prefix_index k) = Some h -> h = inputs_digest_prefix q s k.

Lemma for_candidate_digest sha256 q s p c : memo_ok q s p -> (for_candidate sha256 p c).1 = inputs_digest sha256 q s c /\ memo_ok q s (for_candidate sha256 p c).2.
Proof.
  intros (Hq & Hs & Hl & Hm). unfold for_candidate. rewrite Hq, Hs.
  assert (Hh : match mjoin (dp_cached p !! prefix_index (prefix_kind c)) with Some h => h | None => inputs_digest_prefix q s (prefix_kind c) end
    = inputs_digest_prefix q s (prefix_kind c)) by (destruct (mjoin _) eqn:E; [by apply Hm|done]).
  rewrite Hh. split; [done|]. split; [done|]. split; [done|]. cbn [dp_cached snd]. split; [by rewrite length_insert|]. intros k h.
  destruct (decide (prefix_index (prefix_kind c) = prefix_index k)) as [Heq|Hne].
  - rewrite Heq, list_lookup_insert_eq by (rewrite Hl; destruct k; cbn; lia). cbn. intros [= <-]. f_equal. by destruct (prefix_kind c), k.
  - rewrite list_lookup_insert_ne by done. apply Hm.
Qed.
Lemma reached_memo_ok sha256 q s p : reached_memo sha256 q s p -> memo_ok q s p.
Proof.
  induction 1 as [|p c _ IH]; [|by apply for_candidate_digest]. split; [done|]. split; [done|]. split; [done|]. intros [] h H; done.
Qed.

(** C23: the digest that keys cached classifications covers every input that can change one. Take two candidates that
    pass the engine's size checks, digested in requests with their own query and scope contexts, through memos in any
    state, whose anchors read the same part of the query. If the hash function does not collide, equal digests
    mean equal scope rows, anchor rows and payloads; the decoded anchor condition evaluates the same in both
    queries, and every scope matches both contexts at a head alike. So a cached answer is the answer of the inputs
    it is found for. *)
Theorem inputs_digest_exact `{SV : Semver} parse_payload sha256 q1 s1 p1 c1 q2 s2 p2 c2 :
  Inj (=) (=) sha256 -> reached_memo sha256 q1 s1 p1 -> reached_memo sha256 q2 s2 p2 ->
  digestible q1 s1 c1 = true -> digestible q2 s2 c2 = true -> typed_candidate c1 -> typed_candidate c2 ->
  i64_opt (query_instant_ms q1) -> i64_opt (query_instant_ms q2) -> prefix_kind c1 = prefix_kind c2 ->
  (for_candidate sha256 p1 c1).1 = (for_candidate sha256 p2 c2).1 ->
  (scope_terms c1 = scope_terms c2 /\ anchor c1 = anchor c2 /\ cand_payload c1 = cand_payload c2) /\
  (forall row cond, anchor c1 = Some row -> anchor_decode parse_payload row = Ok cond -> evaluate_non_git cond q1 = evaluate_non_git cond q2) /\
  (forall oracle sc h, ScopeSound.built s1 -> ScopeSound.built s2 ->
     scope_matches oracle sc (with_head_commit s1 h) = scope_matches oracle sc (with_head_commit s2 h)).
Proof.
  intros Hinj M1%reached_memo_ok M2%reached_memo_ok D1 D2 T1 T2 I1 I2 Hk H.
  rewrite (proj1 (for_candidate_digest _ _ _ _ _ M1)), (proj1 (for_candidate_digest _ _ _ _ _ M2)) in H.
  destruct (digestible_ok _ _ _ D1 T1) as [B1 O1]. destruct (digestible_ok _ _ _ D2 T2) as [B2 O2].
  unfold inputs_digest, finish_inputs_digest in H. apply Hinj in H. rewrite Hk in H. apply prefix_inj in H as (Hf & Hi & Hd & H); [|done..].
  split; [by apply candidate_inj|]. split.
  - intros row cond Hrow Hdec. eapply evaluate_relevant; [done|done|by rewrite Hk|by rewrite Hk].
  - intros oracle sc h Hb1 Hb2. by rewrite (built_contexts_equal s1 s2 h Hb1 Hb2 Hd).
Qed.

(** ** Two kinds, one encoding *)
Module Sample.
Definition no_query : QueryContext := mkQuery None None None None None.
Definition plain_term : ScopeTermSpec := mkTerm EmptyString EmptyString None None None None None None None None None.
Definition padding : string := Nat.iter 20 (String "x"%char) EmptyString.
Definition token_row : AnchorRowSpec := mkRow EmptyString "exact" (Some "v"%string) None None None None None None None None None.
Definition crafted_term (d : string) : ScopeTermSpec := mkTerm d padding None None None None None None None None None.
(** What follows the first dimension in the candidate without an anchor. *)
Definition tail : string :=
  (digest_field (Some padding) +:+ concat_str (replicate 9 (byte1 0)) +:+ concat_str (digest_scope_term <$> replicate 8 plain_term) +:+ byte1 0 +:+ byte1 0)%string.
Definition crafted : string := (byte1 0 +:+ byte1 1 +:+ digest_anchor_row token_row +:+ byte1 1 +:+ u64_bytes (len tail))%string.
Definition without_anchor : ApplicabilityCandidate := mkCandidate "o" 1 false (Some (crafted_term crafted :: replicate 8 plain_term)) None None.
Definition with_anchor : ApplicabilityCandidate := mkCandidate "o" 1 false None (Some token_row) (Some tail).
Definition platform_value : string := (byte1 1 +:+ u64_bytes (len crafted))%string.
#[export] Instance semver : Semver :=
  {| parse_version := fun _ => None; parse_req := fun _ => None; req_matches := fun _ _ => false; build_metadata := fun _ => None |}.
Definition early_query : QueryContext := mkQuery None None None (Some 5) (Some "v"%string).
Definition late_query : QueryContext := mkQuery (Some "d"%string) None None (Some 9) (Some "v"%string).
Definition exact_candidate : ApplicabilityCandidate := mkCandidate "o" 1 false None (Some token_row) None.
Definition plain_context : ScopeMatchContext := ctx_new.
Definition crafted_context : ScopeMatchContext := with_value ctx_new Platform platform_value.
End Sample.
#[local] Existing Instance Sample.semver.

(** A later instant and a deployment do not change the digest of an exact anchor, which holds in both queries. *)
Lemma inputs_digest_exact_witness :
  inputs_digest id Sample.early_query Sample.plain_context Sample.exact_candidate = inputs_digest id Sample.late_query Sample.plain_context Sample.exact_candidate /\
  anchor_decode (fun _ => None) Sample.token_row = Ok (CExact "v") /\
  evaluate_non_git (CExact "v") Sample.early_query = evaluate_non_git (CExact "v") Sample.late_query.
Proof.
  split; [by vm_compute|]. split; [by vm_compute|].
  destruct (inputs_digest_exact (fun _ => None) id Sample.early_query Sample.plain_context (prefixes_new Sample.early_query Sample.plain_context) Sample.exact_candidate
    Sample.late_query Sample.plain_context (prefixes_new Sample.late_query Sample.plain_context) Sample.exact_candidate) as (_ & H & _).
  - intros x y Hxy. exact Hxy.
  - constructor.
  - constructor.
  - by vm_compute.
  - by vm_compute.
  - intros row [= <-]. by split; intros n.
  - intros row [= <-]. by split; intros n.
  - intros n [= <-]. unfold is_i64. lia.
  - intros n [= <-]. unfold is_i64. lia.
  - done.
  - by vm_compute.
  - apply (H Sample.token_row); by vm_compute.
Defined.

(** The kind is not hashed before the fields it selects: one object with nine malformed scope rows and no anchor, and the
    same object with an anchor on an exact token, have one digest, whatever the hash function. Both pass the size
    checks, and the crafted texts are UTF-8. *)
Theorem inputs_digest_ambiguous :
  prefix_kind Sample.without_anchor <> prefix_kind Sample.with_anchor /\
  digestible Sample.no_query Sample.plain_context Sample.without_anchor = true /\ digestible Sample.no_query Sample.crafted_context Sample.with_anchor = true /\
  utf8_valid (JsonString.bytes_of Sample.crafted) = true /\ utf8_valid (JsonString.bytes_of Sample.platform_value) = true /\
  forall sha256, inputs_digest sha256 Sample.no_query Sample.plain_context Sample.without_anchor = inputs_digest sha256 Sample.no_query Sample.crafted_context Sample.with_anchor.
Proof.
  split; [by vm_compute|]. split; [by vm_compute|]. split; [by vm_compute|]. split; [by vm_compute|]. split; [by vm_compute|]. intros sha256.
  unfold inputs_digest, finish_inputs_digest. by f_equal.
Qed.
End DigestProofs.
